(* ===== verification/_CoqProject ===== *)
-Q . S2P
Prelude.v
Externs.v
TextOps.v
VersionRepr.v
VersionOrder.v
VersionOps.v
VersionParse.v
VersionGrammar.v
VersionSource.v
VersionSpec.v
VersionSpecText.v
VersionTheorems.v
SpecTheorems.v
PackageName.v
TopoSort.v
PackageTheorems.v
PathTrie.v
PathResolver.v
PathTheorems.v
BarrierCell.v
CoalescedMap.v
BuildSpec.v
Utf.v
Subdir.v
Offsets.v
PrefixReplace.v
PrefixBinary.v
PrefixText.v
PrefixTheorems.v
Transaction.v
TransactionTheorems.v
Archive.v
Matchers.v
Records.v
MatchSpecs.v
Repodata.v
Redaction.v
FileUrl.v
Channels.v
ChannelRelations.v
RelationsTheorems.v
ChannelExpander.v
ExpanderTheorems.v
ExpanderAnchors.v
ExpanderOrder.v
SubdirData.v
ChannelDiscovery.v
DiscoveryTheorems.v
VersionTree.v
VersionRecognise.v
SpecTokens.v
SpecParse.v
SpecFormat.v
SpecScan.v
ChannelText.v
SpecCanonical.v
SpecConditions.v
SpecLeaves.v
SpecRoundtrip.v
SolvePolicy.v
SolveProvider.v
ProviderTheorems.v
CandidateSort.v
SortTheorems.v
SortGroups.v
CandidateTheorems.v
NameQueue.v
