(* ===== verification/Prelude.v ===== *)
(** * Rattler: a verification library for the core of the conda tooling

    Rattler is a set of Rust crates that read, solve and install conda packages.
    Its own logic sits in a few crates that the rest calls: versions and version
    constraints decide what the solver may pick, package names key every table,
    the topological sort decides the order of installation, the path resolver
    decides which package owns a file when several ship it, prefix replacement
    rewrites the files as they are linked, and the repodata gateway and the
    caches rest on a barrier cell and a coalescing map.  This library models
    those parts and proves what they promise to each other.

    ** Files

    - Prelude.v: text, [result], panics, machine integers, decimal printing,
      comparison laws ([TotalPreorder], [TotalOrder]), the generic lemmas and the
      tactics ([bool_hyps], the hint databases) the components share.
    - Externs.v: the crates the program links against, as classes with their
      documented behaviour as laws: [Itertools] and [Nom].
    - VersionRepr.v, VersionOrder.v, VersionOps.v, VersionParse.v,
      VersionGrammar.v, VersionSource.v: [rattler_conda_version/src/version/].
      A [Version] is the packed record of the source: components, 16-bit segment
      descriptors ([segment_new], [segment_len], ...) and a flag byte
      ([flags_has_epoch], ...).  [parts] is its abstract view, an epoch and two
      lists of rows, and [wf] the invariant that ties the two.  Each method of the
      source is the definition [version_<method>].  VersionTheorems.v holds the
      properties: the parser accepts a declarative grammar and is total, printing
      and parsing are inverse, the order is the lexicographic one and is total,
      equality and hash agree, and what every edit does to the abstract view.
    - VersionSpec.v, VersionSpecText.v, SpecTheorems.v:
      [rattler_conda_version/src/version_spec/].  [spec_matches], the complements
      of operators, printing and parsing of constraints and of grouped
      constraints.
    - PackageName.v: [rattler_conda_types/src/package_name.rs] and
      [no_arch_type.rs].  TopoSort.v: [repo_data/topological_sort.rs]
      ([find_all_cycles], [break_cycles], [get_topological_order],
      [sort_topologically]).  PackageTheorems.v: their properties.
    - PathTrie.v, PathResolver.v, PathTheorems.v: [path_resolver/src/lib.rs].  The
      trie with what each operation returns and the invariant it keeps, against
      the set of files each package ships.
    - BarrierCell.v: [rattler_repodata_gateway/src/gateway/barrier_cell.rs], and
      CoalescedMap.v: [coalesced_map/src/lib.rs].  Shared-state concurrency as
      step relations over a cell or a map and the program points of the threads
      or tasks that use it; the theorems hold of every reachable world.
    - BuildSpec.v: [rattler_conda_types/src/build_spec/], the constraints on build
      numbers.  Subdir.v: [subdir.rs], the platforms.  Both with their properties.
    - Utf.v: the encodings of the standard library (UTF-8, UTF-16, UTF-32, lossy
      decoding).  Offsets.v: the encodings and the validation of recorded offsets
      of [package/paths.rs].  PrefixReplace.v, PrefixBinary.v, PrefixText.v:
      [rattler/src/install/prefix_replacement/], the search for a placeholder and
      the rewriting of a file, with the writes and the seeks in a small writer
      monad.  PrefixTheorems.v: length and bytes outside the patches are kept, no
      occurrence is missed, and the recorded offsets give the same file as a search.
    - Transaction.v: [rattler/src/install/transaction.rs] and [python.rs], the diff
      of the current and the desired records.  TransactionTheorems.v: what the
      environment is afterwards, and the reason of each operation.
    - Archive.v: [package/archive_type.rs] and [archive_identifier.rs], the names of
      archives.  Matchers.v: [match_spec/matcher.rs] and [package_name_matcher.rs],
      the fast paths of globs against the globs themselves.  Records.v: the records
      of packages with their order, [build_string.rs] and [flags.rs].
      MatchSpecs.v: [match_spec/mod.rs], which records a spec matches.  Repodata.v:
      [repo_data/mod.rs] and [patches.rs], what patch instructions change.  Each
      with its properties.
    - TextOps.v: the string methods of the standard library that several files
      use.  FileUrl.v: [file_url/src/lib.rs], paths and file URLs.  Channels.v:
      [rattler_conda_types/src/channel/] and the helpers of [utils/] it calls.
    - VersionTree.v: [version_spec/version_tree.rs].  SpecTokens.v, SpecParse.v:
      [match_spec/parse.rs], [parse_mode.rs] and [condition.rs]; the parser of specs is
      given the parser of conditions as an argument and the knot is tied at the end
      ([matchspec_parser]).  SpecFormat.v: [match_spec/format.rs], both dialects.
      SpecScan.v: every scanner of the parser walks over a printed section and comes
      out as it went in ([FieldScanner], with one instance per scanner).
      ChannelText.v: a channel and a URL without secrets are read back.
      SpecCanonical.v: each field is read back.  VersionRecognise.v: the grammar of
      version_tree.rs takes the whole text of a version whose epoch fits an [u32] and
      that does not end in a dot.  SpecConditions.v: the printer of conditions and the
      parser of conditions, given what happens to the leaves ([condition_roundtrip]).
      SpecLeaves.v: the token of a leaf ends where the leaf does, and a version
      directly behind a name is split off.  SpecRoundtrip.v: the whole canonical form,
      conditions included, is read back.
    - Redaction.v: [rattler_redaction/src/lib.rs], hiding the secrets of URLs.
      SolvePolicy.v: [rattler_solve/src/lib.rs] and [priority_tier.rs], the age of
      records and the tiers of channels.  SolveProvider.v:
      [rattler_solve/src/resolvo/mod.rs], the candidates the provider offers to
      the solver.  ProviderTheorems.v: [provider_new] as a log of events (one per
      record it takes in), from which the candidates, the exclusions and the
      ranks of channels are read off.
    - CandidateSort.v: [rattler_solve/src/resolvo/conda_sorting.rs], the order in
      which the solver tries the candidates of a package, with its four caches in a
      state monad.  SortTheorems.v, SortGroups.v: the two orders behind it, and a
      small logic of computations that answer from a cache ([computes]).
      CandidateTheorems.v: the sort against the cache-free [candidate_order].
    - ChannelRelations.v: [gateway/channel_relations.rs], the priority order of
      channels: the edges of the user's order, the declared edges that do not
      contradict it, and a depth-first order in which no cycle is closed.
      RelationsTheorems.v: reachability, the search and the order are right.
    - ChannelExpander.v: [gateway/channel_expander.rs], the state of a query that
      follows the relations channels declare while their subdirectories arrive.
      ExpanderTheorems.v: the invariant of the worklist (depths are reachable, edges
      are declared, what is not on the worklist is followed) and its fuel.
      ExpanderAnchors.v: each found channel belongs to one channel of the user.
      ExpanderOrder.v: depths are distances, edges are the references of near
      channels, so the order of arrival does not matter ([arrivals]).
    - SubdirData.v: [gateway/subdir.rs], what is known of one subdirectory and the
      dependencies of its records, split by extra.
      ChannelDiscovery.v: [gateway/channel_expansion.rs], the queue of subdirectories
      that are being fetched; which fetch completes next is an argument.
      DiscoveryTheorems.v: the queue empties, and what was found is the ball of the
      declared references ([within]) with the answers of its subdirectories.
    - NameQueue.v: [gateway/query.rs], the names a query still has to fetch and the
      extras that are active, with the walk over records that have already arrived.

    ** Conventions

    A [str] is the list of its Unicode scalar values, and a [&[u8]] or [Vec<u8>]
    the list of its bytes.  A Rust [Result] is [result]; the outer [option] of a
    computation is [None] when the source panics (index or slice out of range,
    [unwrap], [expect], [unreachable]), and the theorems show when it does not.
    Integers have the width of the source where the width can be felt: the count
    of a [Segment] and the flag byte are packed bits, [u64] addition wraps as a
    release build does, and the parse of a number is checked.  The length of a
    slice ([usize]) is a [nat]: no list in memory reaches the limit of the type; an
    index that a caller supplies is added to at its width, in builds with and
    without overflow checks ([UsizeBuild]).

    A [HashMap] or [HashSet] is a finite map or set of stdpp.  Rust leaves its
    iteration order open; the model visits the elements in one order, and what
    is proved of a list collected from such an iteration is about its elements
    or about the list after the source sorted it.

    ** Fuel

    Recursion that is not structural has a fuel argument, and the definition that
    the source calls gives enough: the loops of the version and constraint
    parsers get the length of the input plus one, since every round consumes a
    character; [dfs] of the cycle search gets the number of names plus one, since
    the path has no repetition; the explicit stack of the topological order gets
    [stack_fuel], the number of pushes the edges allow; the outer loop of the
    order runs twice, since the second round starts from all that is left.  The
    searches of prefix replacement get the length of the file plus one, since every
    match is left behind by at least one byte; the inner scans get the length of the text.  The
    totality theorems ([version_from_str_total], [version_spec_from_str_total],
    [sort_topologically_permutation]) prove that the fuel is never exhausted.

    ** Code outside the repository

    [itertools], [nom], [memchr], [regex], [glob], [fancy_regex], the [Unicode] tables, [tokio::sync::Notify],
    the tokio broadcast channel and [DashMap] are arguments: the classes [Itertools],
    [Nom], [Memmem], [Regex], [Glob], [FancyRegex], [Unicode], [Notify], [Broadcast],
    [UrlCrate], [UrlPaths] and [FileUrls] (the [url] crate), [TypedPaths] ([typed_path]), [PercentEncoding],
    [Hex], [ProcessEnv] (the home and the current directory), [SolvablePool] and [SolverCache] (the pool and the cache of [resolvo]), [Jiff] and [ShowTime] (the [jiff] crate)
    and stdpp's [FinMap].  Each class states the
    documented behaviour the program relies on, and an instance shows that the
    laws can hold and lets the definitions be evaluated.

    ** Limits

    Atomic accesses are sequentially consistent; the memory orders that
    [BarrierCell] asks for are not represented.  Each call of the concurrent map
    is one step.  The errors a failing writer or reader returns are left out of prefix
    replacement.  Not modelled: (de)serialisation with serde, and everything whose
    work is input and output or a call to another crate: the network and
    authentication middleware, the package cache and the streaming of archives,
    the solvers themselves ([resolvo], [libsolv]), the lock file formats, the shell and menu integration,
    the indexer and the command line.  Of the modelled modules the [sync_clobbers]
    method of the path resolver, which renames files, is left out. *)
From stdpp Require Export base tactics list numbers option strings gmap sets sorting.
From Stdlib Require Ascii.
From Stdlib Require Import Lia ZArith.

#[export] Set Default Goal Selector "!".

(** ** Text

    A Rust [str] is the list of its Unicode scalar values.  All the predicates
    the modelled code applies to characters are decidable on those numbers, and
    the bytewise order of UTF-8 strings is the lexicographic order of their
    scalar values. *)
Abbreviation char := N (only parsing).
Abbreviation text := (list N) (only parsing).

(** The scalar values of an ASCII literal. *)
Fixpoint txt (s : string) : list N :=
  match s with
  | EmptyString => []
  | String c s' => Ascii.N_of_ascii c :: txt s'
  end.

(** The characters the parsers mention by name. *)
Abbreviation c_bang := 33%N (only parsing).
Abbreviation c_dollar := 36%N (only parsing).
Abbreviation c_lparen := 40%N (only parsing).
Abbreviation c_rparen := 41%N (only parsing).
Abbreviation c_star := 42%N (only parsing).
Abbreviation c_plus := 43%N (only parsing).
Abbreviation c_comma := 44%N (only parsing).
Abbreviation c_dash := 45%N (only parsing).
Abbreviation c_dot := 46%N (only parsing).
Abbreviation c_lt := 60%N (only parsing).
Abbreviation c_eq := 61%N (only parsing).
Abbreviation c_gt := 62%N (only parsing).
Abbreviation c_caret := 94%N (only parsing).
Abbreviation c_under := 95%N (only parsing).
Abbreviation c_bar := 124%N (only parsing).
Abbreviation c_tilde := 126%N (only parsing).


Definition is_ascii_digit (c : N) : bool := (48 <=? c)%N && (c <=? 57)%N.
Definition is_ascii_uppercase (c : N) : bool := (65 <=? c)%N && (c <=? 90)%N.
Definition is_ascii_lowercase (c : N) : bool := (97 <=? c)%N && (c <=? 122)%N.
Definition is_ascii_alphabetic (c : N) : bool :=
  is_ascii_uppercase c || is_ascii_lowercase c.

(** [u8::to_ascii_lowercase], and its extension to strings. *)
Definition ascii_lower (c : N) : N :=
  if is_ascii_uppercase c then (c + 32)%N else c.
Definition to_ascii_lowercase (s : list N) : list N := ascii_lower <$> s.

(** [str::eq_ignore_ascii_case] *)
Definition eq_ignore_ascii_case (a b : list N) : bool :=
  bool_decide (to_ascii_lowercase a = to_ascii_lowercase b).

(** ** Results and panics

    A Rust [Result] is [result]; a computation that may panic (an index or a
    slice out of range, an [expect] or an [unwrap]) has type [option], whose
    [None] is the panic, and is written with stdpp's [x ← m; k]. *)
Inductive result (E A : Type) : Type :=
| Ok (a : A)
| Err (e : E).
Arguments Ok {E A} a.
Arguments Err {E A} e.

(** A computation that may fail and may panic; [x ⇐ m; k] is the [?] operator. *)
Definition outcome (E A : Type) : Type := option (result E A).
Definition outcome_bind {E A B} (m : outcome E A) (k : A → outcome E B) : outcome E B :=
  match m with
  | Some (Ok a) => k a
  | Some (Err e) => Some (Err e)
  | None => None
  end.
Notation "x ⇐ m ; k" := (outcome_bind m (λ x, k))
  (at level 20, m at level 100, k at level 200, right associativity, only parsing) : stdpp_scope.
Notation "' x ⇐ m ; k" := (outcome_bind m (λ x, k))
  (at level 20, x pattern, m at level 100, k at level 200, right associativity, only parsing) : stdpp_scope.
Definition map_err {E F A} (f : E → F) (m : result E A) : result F A :=
  match m with Ok a => Ok a | Err e => Err (f e) end.

Definition outcome_err {E F A} (f : E → F) (m : outcome E A) : outcome F A :=
  match m with Some r => Some (map_err f r) | None => None end.

(** [collect] into a [Result]: the first error, or all the values. *)
Fixpoint try_collect {E A} (l : list (result E A)) : result E (list A) :=
  match l with
  | [] => Ok []
  | Ok a :: l' => match try_collect l' with Ok k => Ok (a :: k) | Err e => Err e end
  | Err e :: _ => Err e
  end.

(** [&l[from..to]]: panics unless [from <= to <= l.len()]. *)
Definition slice {A} (l : list A) (from to : nat) : option (list A) :=
  if decide (from ≤ to ∧ to ≤ length l) then Some (take (to - from) (drop from l))
  else None.

(** A [for] loop over a body that may panic. *)
Fixpoint for_opt {A S} (l : list A) (f : A → S → option S) (s : S) : option S :=
  match l with
  | [] => Some s
  | x :: l' => s' ← f x s; for_opt l' f s'
  end.

(** ** Machine integers *)
Definition u8_max : N := 255%N.
Definition u16_max : N := 65535%N.
Definition u64_max : N := 18446744073709551615%N.

(** Addition on [u64] as a release build performs it (wrapping). *)
Definition u64_add (a b : N) : N := N.modulo (a + b) 18446744073709551616.
(** [x as u8] *)
Definition as_u8 (n : nat) : N := N.modulo (N.of_nat n) 256.
(** [x as u16] *)
Definition as_u16 (n : nat) : N := N.modulo (N.of_nat n) 65536.
(** [u8::try_from(x).ok()] *)
Definition u8_try_from (n : nat) : option N :=
  if (N.of_nat n <=? u8_max)%N then Some (N.of_nat n) else None.

(** [core::num::IntErrorKind], the part [u64::from_str] produces. *)
Inductive ParseIntError := IntEmpty | InvalidDigit | PosOverflow.

(** [u64::from_str] after the sign: one checked multiplication and one checked
    addition per character. *)
Fixpoint u64_digits (acc : N) (s : list N) : result ParseIntError N :=
  match s with
  | [] => Ok acc
  | c :: s' =>
      if is_ascii_digit c then
        if (u64_max <? 10 * acc)%N then Err PosOverflow
        else if (u64_max <? 10 * acc + (c - 48))%N then Err PosOverflow
        else u64_digits (10 * acc + (c - 48))%N s'
      else Err InvalidDigit
  end.

Definition u64_from_str (s : list N) : result ParseIntError N :=
  match s with
  | [] => Err IntEmpty
  | [c] => if bool_decide (c = 43%N ∨ c = 45%N) then Err InvalidDigit
           else u64_digits 0 s
  | c :: s' => if bool_decide (c = 43%N) then u64_digits 0 s' else u64_digits 0 s
  end.

(** [u64]'s [Display]: decimal, no leading zero.  [N.size_nat n] rounds are
    enough because every round divides by ten. *)
Fixpoint dec_fuel (fuel : nat) (n : N) : list N :=
  match fuel with
  | O => []
  | S f => if (n <? 10)%N then [(48 + n)%N]
           else dec_fuel f (n / 10)%N ++ [(48 + n mod 10)%N]
  end.
Definition u64_display (n : N) : list N := dec_fuel (S (N.size_nat n)) n.

(** ** Orderings *)

(** [Ordering::then_with] *)
Definition then_with (c d : comparison) : comparison :=
  match c with Eq => d | _ => c end.

(** A [for] loop that returns the first ordering that is not [Equal], and
    [Equal] at its end. *)
Fixpoint for_cmp {A} (l : list A) (f : A → comparison) : comparison :=
  match l with
  | [] => Eq
  | x :: l' => then_with (f x) (for_cmp l' f)
  end.

(** [Ord for str] and [Ord for [T]]: lexicographic, a proper prefix first. *)
Fixpoint list_cmp {A} (cmp : A → A → comparison) (a b : list A) : comparison :=
  match a, b with
  | [], [] => Eq
  | [], _ :: _ => Lt
  | _ :: _, [] => Gt
  | x :: a', y :: b' => then_with (cmp x y) (list_cmp cmp a' b')
  end.
Definition str_cmp : list N → list N → comparison := list_cmp N.compare.

(** [Iterator::skip_while] *)
Fixpoint skip_while {A} (p : A → bool) (l : list A) : list A :=
  match l with
  | [] => []
  | x :: l' => if p x then skip_while p l' else l
  end.

(** [Iterator::position] *)
Fixpoint position {A} (p : A → bool) (l : list A) : option nat :=
  match l with
  | [] => None
  | x :: l' => if p x then Some 0 else S <$> position p l'
  end.

(** [str::split] by one character, and the [join] that undoes it *)
Fixpoint split_char (c : N) (s : list N) : list (list N) :=
  match s with
  | [] => [[]]
  | d :: s' =>
      if (d =? c)%N then [] :: split_char c s'
      else match split_char c s' with p :: ps => (d :: p) :: ps | [] => [[d]] end
  end.
Fixpoint join (sep : list N) (l : list (list N)) : list N :=
  match l with
  | [] => []
  | [s] => s
  | s :: l' => s ++ sep ++ join sep l'
  end.

(** The contract of [Ord]: antisymmetric up to [Eq] and transitive.  Every
    ordering of the development is shown to be an instance. *)
Class TotalPreorder {A} (cmp : A → A → comparison) : Prop := {
  cmp_opp : ∀ x y, cmp y x = CompOpp (cmp x y);
  cmp_le_trans : ∀ x y z, cmp x y ≠ Gt → cmp y z ≠ Gt → cmp x z ≠ Gt
}.

Arguments cmp_opp {A} cmp {_} x y.
Arguments cmp_le_trans {A} cmp {_} x y z.

(** An ordering whose [Eq] is equality. *)
Class TotalOrder {A} (cmp : A → A → comparison) : Prop := {
  total_order_preorder :: TotalPreorder cmp;
  cmp_eq_iff : ∀ x y, cmp x y = Eq ↔ x = y
}.

Arguments cmp_eq_iff {A} cmp {_} x y.

(** ** Automation *)
Create HintDb rattler.
Create Rewrite HintDb rattler.

(** [lia] knows division and remainder by constants. *)
Ltac Zify.zify_post_hook ::= Z.to_euclidean_division_equations.

(** Splits the boolean tests and conjunctions of the context. *)
Ltac bool_hyps :=
  repeat match goal with
  | H : (_ && _) = true |- _ => apply andb_true_iff in H; destruct H
  | H : (_ || _) = false |- _ => apply orb_false_iff in H; destruct H
  | H : negb _ = true |- _ => apply negb_true_iff in H
  | H : negb _ = false |- _ => apply negb_false_iff in H
  | H : (_ <=? _)%N = true |- _ => apply N.leb_le in H
  | H : (_ <=? _)%N = false |- _ => apply N.leb_gt in H
  | H : (_ <? _)%N = true |- _ => apply N.ltb_lt in H
  | H : (_ <? _)%N = false |- _ => apply N.ltb_ge in H
  | H : (_ =? _)%N = true |- _ => apply N.eqb_eq in H
  | H : (_ =? _)%N = false |- _ => apply N.eqb_neq in H
  | H : bool_decide _ = true |- _ => apply bool_decide_eq_true in H
  | H : bool_decide _ = false |- _ => apply bool_decide_eq_false in H
  end.

(** Case analysis on every comparison in sight. *)
Ltac cmp_cases :=
  repeat match goal with
  | |- context [match ?c with Eq => _ | Lt => _ | Gt => _ end] =>
      let E := fresh "Ecmp" in destruct c eqn:E; simpl in *; try congruence
  | H : context [match ?c with Eq => _ | Lt => _ | Gt => _ end] |- _ =>
      let E := fresh "Ecmp" in destruct c eqn:E; simpl in *; try congruence
  end.

(** ** Lemmas: orderings *)
Section preorder.
Context {A} (cmp : A → A → comparison) `{!TotalPreorder cmp}.

Lemma cmp_refl x : cmp x x = Eq.
Proof. pose proof (cmp_opp cmp x x) as H. by destruct (cmp x x). Qed.

Lemma cmp_Lt_Gt x y : cmp x y = Lt ↔ cmp y x = Gt.
Proof. rewrite (cmp_opp cmp x y). by destruct (cmp x y). Qed.

Lemma cmp_Eq_sym x y : cmp x y = Eq → cmp y x = Eq.
Proof. rewrite (cmp_opp cmp x y). by intros ->. Qed.

(** Equivalent values compare alike. *)
Lemma cmp_Eq_l x y z : cmp x y = Eq → cmp x z = cmp y z.
Proof.
  intros H.
  assert (∀ u v w, cmp u v = Eq → cmp v w ≠ Gt → cmp u w ≠ Gt) as Hl
    by (intros u v w E; apply (cmp_le_trans cmp); congruence).
  assert (∀ u v w, cmp u v = Eq → cmp v w ≠ Lt → cmp u w ≠ Lt) as Hg.
  { intros u v w E Hvw. rewrite (cmp_opp cmp w u).
    assert (cmp w u ≠ Gt) as Hwu; [|by destruct (cmp w u)].
    apply (cmp_le_trans cmp w v u); [|by rewrite (cmp_opp cmp u v), E].
    rewrite (cmp_opp cmp v w). by destruct (cmp v w). }
  pose proof (cmp_Eq_sym _ _ H) as H'.
  pose proof (Hl _ _ z H); pose proof (Hg _ _ z H).
  pose proof (Hl _ _ z H'); pose proof (Hg _ _ z H').
  destruct (cmp x z), (cmp y z); naive_solver congruence.
Qed.

Lemma cmp_Eq_r x y z : cmp y z = Eq → cmp x y = cmp x z.
Proof.
  intros H. rewrite (cmp_opp cmp y x), (cmp_opp cmp z x). f_equal. by apply cmp_Eq_l.
Qed.

Lemma cmp_Lt_trans x y z : cmp x y = Lt → cmp y z = Lt → cmp x z = Lt.
Proof.
  intros H1 H2. destruct (cmp x z) eqn:E; [| done |].
  - rewrite (cmp_Eq_l _ _ _ E) in H1.
    apply cmp_Lt_Gt in H1. congruence.
  - exfalso. apply (cmp_le_trans cmp x y z); congruence.
Qed.
End preorder.

#[export] Hint Resolve cmp_refl cmp_Eq_sym : rattler.

Lemma then_with_opp c d : CompOpp (then_with c d) = then_with (CompOpp c) (CompOpp d).
Proof. by destruct c. Qed.

Lemma then_with_assoc a b c :
  then_with (then_with a b) c = then_with a (then_with b c).
Proof. by destruct a. Qed.

Lemma then_with_Eq c d : then_with c d = Eq ↔ c = Eq ∧ d = Eq.
Proof. destruct c; naive_solver. Qed.

Lemma then_with_Eq_r c : then_with c Eq = c.
Proof. by destruct c. Qed.

(** [then_with] of two orderings is an ordering. *)
#[export] Instance then_with_preorder {A} (c d : A → A → comparison) :
  TotalPreorder c → TotalPreorder d →
  TotalPreorder (λ x y, then_with (c x y) (d x y)).
Proof.
  intros Hc Hd. split.
  - intros x y. by rewrite then_with_opp, (cmp_opp c x), (cmp_opp d x).
  - intros x y z H1 H2.
    destruct (c x y) eqn:E1; simpl in *; [| |congruence].
    + rewrite (cmp_Eq_l c x y z) by done.
      destruct (c y z); simpl in *; [|done..]. by eapply (cmp_le_trans d).
    + destruct (c y z) eqn:E2; simpl in *; [| |congruence].
      * rewrite <-(cmp_Eq_r c x y z) by done. by rewrite E1.
      * by rewrite (cmp_Lt_trans c x y z).
Qed.

(** An ordering pulled back along a key is an ordering. *)
Lemma on_key_preorder {A B} (f : A → B) (c : B → B → comparison) :
  TotalPreorder c → TotalPreorder (λ x y, c (f x) (f y)).
Proof.
  intros Hc. split; [intros x y; apply (cmp_opp c) | intros x y z; apply (cmp_le_trans c)].
Qed.

(** Functions compared pointwise along a list of indices. *)
#[export] Instance for_cmp_preorder {I A} (l : list I) (c : A → A → comparison) :
  TotalPreorder c → TotalPreorder (λ f g : I → A, for_cmp l (λ i, c (f i) (g i))).
Proof.
  intros Hc. induction l as [|i l IH]; [split; done|]. simpl.
  apply then_with_preorder; [by apply (on_key_preorder (λ f : I → A, f i))|done].
Qed.

#[export] Instance list_cmp_preorder {A} (c : A → A → comparison) :
  TotalPreorder c → TotalPreorder (list_cmp c).
Proof.
  intros Hc. split.
  - induction x as [|x l IH]; intros [|y k]; simpl; try done.
    by rewrite then_with_opp, (cmp_opp c x), IH.
  - induction x as [|x l IH]; intros [|y k] [|z m] H1 H2; simpl in *; try congruence.
    destruct (c x y) eqn:E1; simpl in *; [| |congruence].
    + rewrite (cmp_Eq_l c x y z) by done.
      destruct (c y z); simpl in *; [|done..]. by eapply IH.
    + destruct (c y z) eqn:E2; simpl in *; [| |congruence].
      * rewrite <-(cmp_Eq_r c x y z) by done. by rewrite E1.
      * by rewrite (cmp_Lt_trans c x y z).
Qed.

#[export] Instance N_compare_order : TotalOrder N.compare.
Proof.
  split; [split|].
  - intros x y. by rewrite N.compare_antisym.
  - intros x y z. rewrite <-!N.le_lteq || idtac.
    rewrite <-?N.leb_le. unfold not. rewrite !N.compare_gt_iff. lia.
  - apply N.compare_eq_iff.
Qed.

#[export] Instance nat_compare_order : TotalOrder Nat.compare.
Proof.
  split; [split|].
  - intros x y. apply Nat.compare_antisym.
  - intros x y z. rewrite <-!Nat.compare_le_iff || idtac. unfold not. rewrite !Nat.compare_gt_iff. lia.
  - apply Nat.compare_eq_iff.
Qed.

#[export] Instance list_cmp_order {A} (c : A → A → comparison) :
  TotalOrder c → TotalOrder (list_cmp c).
Proof.
  intros Hc. split; [apply _|].
  induction x as [|x l IH]; intros [|y k]; simpl; [done..|].
  rewrite then_with_Eq, (cmp_eq_iff c), IH. naive_solver.
Qed.

#[export] Instance str_cmp_order : TotalOrder str_cmp.
Proof. unfold str_cmp. apply _. Qed.

Lemma for_cmp_ext {A} (l : list A) f g :
  (∀ x, x ∈ l → f x = g x) → for_cmp l f = for_cmp l g.
Proof.
  induction l as [|x l IH]; intros H; simpl; [done|].
  rewrite (H x) by set_solver. f_equal. apply IH. set_solver.
Qed.

Lemma for_cmp_app {A} (l k : list A) f :
  for_cmp (l ++ k) f = then_with (for_cmp l f) (for_cmp k f).
Proof. induction l as [|x l IH]; simpl; [done|]. by rewrite IH, then_with_assoc. Qed.

Lemma for_cmp_fmap {A B} (h : A → B) (l : list A) f :
  for_cmp (h <$> l) f = for_cmp l (λ x, f (h x)).
Proof. induction l as [|x l IH]; csimpl; [done|]. by rewrite IH. Qed.

Lemma for_cmp_Eq {A} (l : list A) f : for_cmp l f = Eq ↔ ∀ x, x ∈ l → f x = Eq.
Proof.
  induction l as [|x l IH]; simpl; [set_solver|].
  rewrite then_with_Eq, IH. set_solver.
Qed.

(** Indices past the point where everything is [Eq] do not matter. *)
Lemma for_cmp_seq_extend (n m : nat) f :
  n ≤ m → (∀ i, n ≤ i → f i = Eq) → for_cmp (seq 0 m) f = for_cmp (seq 0 n) f.
Proof.
  intros Hnm H. replace m with (n + (m - n)) by lia.
  rewrite seq_app, for_cmp_app.
  rewrite (proj2 (for_cmp_Eq (seq (0 + n) (m - n)) f)).
  - apply then_with_Eq_r.
  - intros i Hi%elem_of_seq. apply H. lia.
Qed.

(** The first index at which a comparing loop is decided. *)
Lemma for_cmp_seq_decided (k n : nat) f c :
  c ≠ Eq →
  for_cmp (seq k n) f = c ↔
  ∃ i, k ≤ i < k + n ∧ f i = c ∧ ∀ i', k ≤ i' < i → f i' = Eq.
Proof.
  intros Hc. revert k. induction n as [|n IH]; intros k; simpl.
  { split; [congruence|intros (i & ? & _); lia]. }
  destruct (f k) eqn:E; simpl; [rewrite IH|..].
  1: { split; intros (i & Hi & Hf & Hb).
    - exists i. split; [lia|]. split; [done|]. intros i' Hi'.
      destruct (decide (i' = k)) as [->|]; [done|apply Hb; lia].
    - destruct (decide (i = k)) as [->|]; [congruence|].
      exists i. split; [lia|]. split; [done|]. intros; apply Hb; lia. }
  all: split; [intros <-; exists k; split; [lia|]; split; [done|lia]|].
  all: intros (i & Hi & Hf & Hb); destruct (decide (i = k)) as [->|]; [congruence|].
  all: specialize (Hb k ltac:(lia)); congruence.
Qed.

(** ** Lemmas: loops *)

(** A loop establishes an invariant indexed by the elements already seen. *)
Lemma for_opt_ind {A S} (P : list A → S → Prop) (l : list A) (f : A → S → option S) (s : S) :
  P [] s →
  (∀ seen x s, P seen s → x ∈ l → ∃ s', f x s = Some s' ∧ P (seen ++ [x]) s') →
  ∃ s', for_opt l f s = Some s' ∧ P l s'.
Proof.
  intros H0 Hs. rewrite <-(app_nil_l l).
  enough (∀ k seen s, (∀ x, x ∈ k → x ∈ l) → P seen s →
    ∃ s', for_opt k f s = Some s' ∧ P (seen ++ k) s') as H by (by apply H).
  clear s H0. induction k as [|x k IH]; intros seen s Hk H; simpl.
  { exists s. by rewrite app_nil_r. }
  destruct (Hs seen x s) as (s1 & -> & H1); [done|apply Hk; set_solver|]. simpl.
  destruct (IH (seen ++ [x]) s1) as (s2 & -> & H2); [set_solver|done|].
  exists s2. by rewrite (cons_middle x seen k), app_assoc.
Qed.

(** ** Stable sorting

    [slice::sort_by_key] and [slice::sort_by] keep the order of equal elements;
    [leb] compares by the key. *)
Section sort.
Context {A : Type} (leb : A → A → bool).

Fixpoint insert_by (x : A) (l : list A) : list A :=
  match l with
  | [] => [x]
  | y :: l' => if leb x y then x :: l else y :: insert_by x l'
  end.
Definition sort_by (l : list A) : list A := foldr insert_by [] l.

Lemma insert_by_perm x l : insert_by x l ≡ₚ x :: l.
Proof.
  induction l as [|y l IH]; simpl; [done|]. destruct (leb x y); [done|].
  rewrite IH. apply Permutation_swap.
Qed.

Lemma sort_by_perm l : sort_by l ≡ₚ l.
Proof. induction l as [|x l IH]; simpl; [done|]. by rewrite insert_by_perm, IH. Qed.

Lemma insert_by_sorted x l :
  (∀ x y, leb x y = false → leb y x = true) →
  (∀ x y z, leb x y = true → leb y z = true → leb x z = true) →
  StronglySorted (λ x y, leb x y = true) l → StronglySorted (λ x y, leb x y = true) (insert_by x l).
Proof.
  intros Htot Htr. induction 1 as [|y l Hl IH Hy]; simpl; [by repeat constructor|].
  destruct (leb x y) eqn:E.
  - constructor; [by constructor|]. constructor; [done|]. eapply Forall_impl; [done|]. simpl. eauto.
  - constructor; [done|]. rewrite insert_by_perm. constructor; [by apply Htot|done].
Qed.

Lemma sort_by_sorted l :
  (∀ x y, leb x y = false → leb y x = true) →
  (∀ x y z, leb x y = true → leb y z = true → leb x z = true) →
  StronglySorted (λ x y, leb x y = true) (sort_by l).
Proof.
  intros Htot Htr. induction l as [|x l IH]; simpl; [constructor|]. by apply insert_by_sorted.
Qed.
End sort.

(** A sorted list is not changed. *)
Lemma sort_by_id {A} (leb : A → A → bool) l :
  StronglySorted (λ x y, leb x y = true) l → sort_by leb l = l.
Proof.
  induction 1 as [|x l Hl IH Hx]; simpl; [done|]. rewrite IH.
  destruct l as [|y l]; [done|]. apply Forall_cons in Hx as [Hx _]. simpl. by rewrite Hx.
Qed.

(** A comparator that may panic and that reads and updates a state, such as a
    cache: the comparisons are made in the order of the insertion sort. *)
Section sort_state.
Context {A St : Type} (leb : A → A → St → option (bool * St)).

Fixpoint insert_by_state (x : A) (l : list A) (s : St) : option (list A * St) :=
  match l with
  | [] => Some ([x], s)
  | y :: l' =>
      '(b, s) ← leb x y s;
      if (b : bool) then Some (x :: l, s) else '(k, s) ← insert_by_state x l' s; Some (y :: k, s)
  end.
Fixpoint sort_by_state (l : list A) (s : St) : option (list A * St) :=
  match l with
  | [] => Some ([], s)
  | x :: l' => '(k, s) ← sort_by_state l' s; insert_by_state x k s
  end.

(** The state may decide the answers, as long as it keeps to those it has given: the
    list is then sorted by every total comparison [t] the last state agrees with. *)
Context {T : Type} (pure : T → A → A → bool) (P : A → Prop) (Inv : St → Prop) (agree : St → T → Prop).
Context (Hleb : ∀ x y s, P x → P y → Inv s →
  ∃ b s', leb x y s = Some (b, s') ∧ Inv s' ∧ ∀ t, agree s' t → agree s t ∧ pure t x y = b).

Lemma insert_by_state_pure x l s :
  P x → Forall P l → Inv s →
  ∃ k s', insert_by_state x l s = Some (k, s') ∧ Inv s' ∧
          ∀ t, agree s' t → agree s t ∧ k = insert_by (pure t) x l.
Proof using All.
  intros Hx Hl. revert s. induction Hl as [|y l Hy Hl IH]; intros s Hs; simpl.
  { exists [x], s. naive_solver. }
  destruct (Hleb x y s Hx Hy Hs) as (b & s1 & -> & Hs1 & Hb). cbn [mbind option_bind]. destruct b.
  { exists (x :: y :: l), s1. do 2 (split; [done|]). intros t Ht. by destruct (Hb t Ht) as [? ->]. }
  destruct (IH s1 Hs1) as (k & s2 & -> & Hs2 & Hk). exists (y :: k), s2. do 2 (split; [done|]).
  intros t Ht. destruct (Hk t Ht) as [Ht1 ->]. by destruct (Hb t Ht1) as [? ->].
Qed.

Lemma sort_by_state_pure l s :
  Forall P l → Inv s →
  ∃ k s', sort_by_state l s = Some (k, s') ∧ Inv s' ∧ k ≡ₚ l ∧
          ∀ t, agree s' t → agree s t ∧ k = sort_by (pure t) l.
Proof using All.
  intros Hl. revert s. induction Hl as [|x l Hx Hl IH]; intros s Hs; simpl.
  { exists [], s. naive_solver. }
  destruct (IH s Hs) as (k & s1 & -> & Hs1 & Hp & Hk). cbn [mbind option_bind].
  assert (Forall P k) as Hkp by by rewrite Hp.
  destruct (insert_by_state_pure x k s1 Hx Hkp Hs1) as (k' & s2 & E & Hs2 & Hk'). exists k', s2.
  do 2 (split; [done|]). split.
  - rewrite <-Hp. clear -E. revert k' s1 s2 E. induction k as [|y k IH]; simpl; intros k' s s2 E.
    { by injection E as <- _. }
    destruct (leb x y s) as [[b s1]|]; [|done]. cbn [mbind option_bind] in E.
    destruct b; [by injection E as <- _|].
    destruct (insert_by_state x k s1) as [[k1 s3]|] eqn:E1; [|done]. injection E as <- _.
    rewrite (IH _ _ _ E1). apply Permutation_swap.
  - intros t Ht. destruct (Hk' t Ht) as [Ht1 ->]. by destruct (Hk t Ht1) as [? <-].
Qed.
End sort_state.

(** Sorting keys is sorting what they stand for. *)
Lemma sort_by_fmap {A B} (f : A → B) (leb : B → B → bool) l :
  f <$> sort_by (λ x y, leb (f x) (f y)) l = sort_by leb (f <$> l).
Proof.
  induction l as [|x l IH]; [done|].
  change (sort_by leb (f <$> x :: l)) with (insert_by leb (f x) (sort_by leb (f <$> l))).
  rewrite <-IH. change (sort_by ?g (x :: l)) with (insert_by g x (sort_by g l)). clear IH.
  induction (sort_by _ l) as [|y k IH]; [done|]. rewrite fmap_cons. cbn [insert_by].
  destruct (leb (f x) (f y)); [done|]. by rewrite fmap_cons, IH.
Qed.
Lemma sort_by_ext {A} (leb leb' : A → A → bool) (P : A → Prop) l :
  (∀ x y, P x → P y → leb x y = leb' x y) → Forall P l → sort_by leb l = sort_by leb' l.
Proof.
  intros Hleb Hl. induction Hl as [|x l Hx Hl IH]; [done|].
  change (insert_by leb x (sort_by leb l) = insert_by leb' x (sort_by leb' l)). rewrite IH. clear IH.
  assert (Forall P (sort_by leb' l)) as Hk by by rewrite sort_by_perm.
  induction Hk as [|y k Hy Hk IH]; simpl; [done|]. by rewrite (Hleb x y Hx Hy), IH.
Qed.

(** Sorting by a contract of [Ord]. *)
Definition cmp_leb {A} (cmp : A → A → comparison) (x y : A) : bool :=
  match cmp x y with Gt => false | _ => true end.
Lemma StronglySorted_impl {A} (R S : A → A → Prop) l :
  (∀ x y, R x y → S x y) → StronglySorted R l → StronglySorted S l.
Proof.
  intros HRS. induction 1 as [|x l Hl IH Hx]; constructor; [done|].
  eapply Forall_impl; [exact Hx|]. apply HRS.
Qed.
Lemma StronglySorted_impl_Forall {A} (R S : A → A → Prop) (P : A → Prop) l :
  (∀ x y, P x → P y → R x y → S x y) → Forall P l → StronglySorted R l → StronglySorted S l.
Proof.
  intros HRS HP Hl. induction Hl as [|x l Hl IH Hx]; [constructor|]. apply Forall_cons in HP as [Hpx HP].
  constructor; [by apply IH|]. rewrite Forall_forall in Hx, HP. apply Forall_forall. intros y Hy. auto.
Qed.
Lemma sort_by_cmp_sorted {A} (cmp : A → A → comparison) `{!TotalPreorder cmp} l :
  StronglySorted (λ x y, cmp x y ≠ Gt) (sort_by (cmp_leb cmp) l).
Proof.
  assert (∀ x y, cmp_leb cmp x y = true ↔ cmp x y ≠ Gt) as Hle
    by (intros x y; unfold cmp_leb; destruct (cmp x y); naive_solver).
  eapply StronglySorted_impl; [intros x y; apply Hle|]. apply sort_by_sorted.
  - intros x y Hxy. apply Hle. rewrite (cmp_opp cmp x y). revert Hxy. unfold cmp_leb. by destruct (cmp x y).
  - intros x y z Hx Hy. apply Hle. rewrite Hle in Hx, Hy. by eapply (cmp_le_trans cmp).
Qed.

Lemma sort_by_cmp_unique {A} (cmp : A → A → comparison) `{!TotalOrder cmp} l k :
  l ≡ₚ k → sort_by (cmp_leb cmp) l = sort_by (cmp_leb cmp) k.
Proof.
  intros Hp. assert (AntiSymm (=) (λ x y, cmp x y ≠ Gt)) as Hanti.
  { intros x y Hxy Hyx. apply (cmp_eq_iff cmp). rewrite (cmp_opp cmp x y) in Hyx. by destruct (cmp x y). }
  apply (StronglySorted_unique (λ x y, cmp x y ≠ Gt)); [apply sort_by_cmp_sorted, _..|].
  by rewrite !sort_by_perm.
Qed.

(** ** Lemmas: filters that keep all or nothing *)
Lemma filter_all {A} (P : A → Prop) `{∀ x, Decision (P x)} (l : list A) : (∀ x, x ∈ l → P x) → filter P l = l.
Proof.
  intros HP. induction l as [|x l IH]; [done|].
  rewrite filter_cons_True, IH by (intros; apply HP; set_solver). done.
Qed.
Lemma filter_none {A} (P : A → Prop) `{∀ x, Decision (P x)} (l : list A) : (∀ x, x ∈ l → ¬ P x) → filter P l = [].
Proof.
  intros HP. induction l as [|x l IH]; [done|].
  rewrite filter_cons_False, IH by (intros; apply HP; set_solver). done.
Qed.

(** ** Lemmas: strongly sorted lists *)
Lemma StronglySorted_filter {A} (R : A → A → Prop) (P : A → Prop) `{∀ x, Decision (P x)} l :
  StronglySorted R l → StronglySorted R (filter P l).
Proof.
  induction 1 as [|x l Hl IH Hx]; [constructor|]. rewrite filter_cons. destruct (decide (P x)); [|done].
  constructor; [done|]. apply Forall_forall. intros y [_ Hy]%list_elem_of_filter.
  rewrite Forall_forall in Hx. by apply Hx.
Qed.

Lemma StronglySorted_head {A} (R : A → A → Prop) l x y :
  StronglySorted R l → head l = Some x → y ∈ l → y = x ∨ R x y.
Proof.
  intros [|z l' Hl Hz]; [done|]. intros [= ->] [->|Hy]%elem_of_cons; [by left|].
  rewrite Forall_forall in Hz. right. by apply Hz.
Qed.

Lemma StronglySorted_last {A} (R : A → A → Prop) l x y :
  StronglySorted R l → last l = Some x → y ∈ l → y = x ∨ R y x.
Proof.
  induction 1 as [|z l Hl IH Hz]; [done|]. intros Hx Hy. destruct l as [|w l].
  - simpl in Hx. injection Hx as ->. apply list_elem_of_singleton in Hy. by left.
  - apply elem_of_cons in Hy as [->|Hy]; [|by apply IH].
    right. rewrite Forall_forall in Hz. apply Hz. by apply last_Some_elem_of.
Qed.

Lemma StronglySorted_lookup {A} (R : A → A → Prop) l i j x y :
  StronglySorted R l → i < j → l !! i = Some x → l !! j = Some y → R x y.
Proof.
  intros Hs. revert i j. induction Hs as [|z l Hl IH Hz]; intros i j Hij Hx Hy; [done|].
  destruct j as [|j]; [lia|]. destruct i as [|i]; simpl in *.
  - injection Hx as ->. rewrite Forall_forall in Hz. apply Hz. by eapply list_elem_of_lookup_2.
  - apply (IH i j); [lia|done|done].
Qed.

(** *** Positions and separators *)
Lemma position_take {A} (p : A → bool) s n :
  position p (take n s) = i ← position p s; if (i <? n)%nat then Some i else None.
Proof.
  revert n. induction s as [|c s IH]; intros n; [by rewrite take_nil|].
  destruct n as [|n]; simpl.
  - destruct (p c); simpl; [done|]. by destruct (position p s).
  - destruct (p c); simpl; [done|]. rewrite IH. destruct (position p s) as [i|]; simpl; [|done].
    change (S i <? S n)%nat with (i <? n)%nat. by destruct (i <? n)%nat.
Qed.
Lemma position_Some {A} (p : A → bool) s i : position p s = Some i → ∃ c, s !! i = Some c ∧ p c = true.
Proof.
  revert i. induction s as [|c s IH]; intros i; simpl; [done|]. destruct (p c) eqn:E.
  - intros [= <-]. by exists c.
  - destruct (position p s) as [j|]; simpl; [|done]. intros [= <-]. by apply IH.
Qed.
Lemma split_char_not_nil c s : split_char c s ≠ [].
Proof. destruct s as [|d s]; simpl; [done|]. destruct (d =? c)%N; [done|]. by destruct (split_char c s). Qed.

Lemma join_split c s : join [c] (split_char c s) = s.
Proof.
  induction s as [|d s IH]; [done|]. simpl. pose proof (split_char_not_nil c s) as Hne.
  destruct (N.eqb_spec d c) as [->|Hd]; destruct (split_char c s) as [|p ps] eqn:E; try done.
  - change (c :: join [c] (p :: ps) = c :: s). by rewrite IH.
  - revert IH. destruct ps as [|q ps]; simpl; congruence.
Qed.

Lemma split_char_free c s p : p ∈ split_char c s → c ∉ p.
Proof.
  revert p. induction s as [|d s IH]; intros p Hp; simpl in Hp.
  { apply list_elem_of_singleton in Hp as ->. apply not_elem_of_nil. }
  destruct (N.eqb_spec d c) as [->|Hd].
  - apply elem_of_cons in Hp as [->|Hp]; [apply not_elem_of_nil|by apply IH].
  - destruct (split_char c s) as [|q qs] eqn:E; [by apply split_char_not_nil in E|].
    apply elem_of_cons in Hp as [->|Hp]; [|apply IH; by right].
    intros [->|Hc]%elem_of_cons; [done|]. revert Hc. apply IH. by left.
Qed.

Lemma split_char_app c p s : c ∉ p → split_char c (p ++ c :: s) = p :: split_char c s.
Proof.
  induction p as [|d p IH]; intros Hp; simpl; [by rewrite N.eqb_refl|].
  apply not_elem_of_cons in Hp as [Hd Hp]. destruct (N.eqb_spec d c); [congruence|]. by rewrite IH.
Qed.

Lemma split_char_single c p : c ∉ p → split_char c p = [p].
Proof.
  induction p as [|d p IH]; intros Hp; simpl; [done|].
  apply not_elem_of_cons in Hp as [Hd Hp]. destruct (N.eqb_spec d c); [congruence|]. by rewrite IH.
Qed.

Lemma split_join c l : l ≠ [] → Forall (λ p, c ∉ p) l → split_char c (join [c] l) = l.
Proof.
  intros Hl HF. induction l as [|p l IH]; [done|]. apply Forall_cons in HF as [Hp HF].
  destruct l as [|q l]; [by apply split_char_single|].
  change (split_char c (p ++ c :: join [c] (q :: l)) = p :: q :: l).
  rewrite split_char_app by done. f_equal. by apply IH.
Qed.

(** ** Lemmas: slices *)
Lemma slice_app {A} (l1 l2 l3 : list A) (i j : nat) :
  i = length l1 → j = length l1 + length l2 →
  slice (l1 ++ l2 ++ l3) i j = Some l2.
Proof.
  intros -> ->. unfold slice. rewrite decide_True by (rewrite !length_app; lia).
  rewrite drop_app_length. replace (_ + _ - _) with (length l2) by lia.
  by rewrite take_app_length.
Qed.

Lemma slice_prefix {A} (l1 l2 : list A) (j : nat) :
  j = length l1 → slice (l1 ++ l2) 0 j = Some l1.
Proof. intros ->. by apply (slice_app [] l1 l2). Qed.

Lemma slice_suffix {A} (l1 l2 : list A) (i : nat) :
  i = length l1 → slice (l1 ++ l2) i (length (l1 ++ l2)) = Some l2.
Proof.
  intros ->. rewrite <-(app_nil_r l2) at 1. apply slice_app; [done|].
  by rewrite length_app.
Qed.

Lemma slice_full {A} (l : list A) : slice l 0 (length l) = Some l.
Proof. rewrite <-(app_nil_r l) at 1. by apply slice_prefix. Qed.

(** ** Lemmas: decimal numbers *)
Lemma u64_digits_app acc s t :
  u64_digits acc (s ++ t) =
  match u64_digits acc s with Ok a => u64_digits a t | Err e => Err e end.
Proof.
  revert acc. induction s as [|c s IH]; intros acc; simpl; [done|].
  destruct (is_ascii_digit c); [|done].
  destruct (u64_max <? 10 * acc)%N; [done|].
  destruct (u64_max <? 10 * acc + (c - 48))%N; [done|]. apply IH.
Qed.

Lemma is_ascii_digit_dec (d : N) : (d < 10)%N → is_ascii_digit (48 + d) = true.
Proof. intros. unfold is_ascii_digit. apply andb_true_iff. rewrite !N.leb_le. lia. Qed.

Lemma dec_fuel_digits f n c : c ∈ dec_fuel f n → is_ascii_digit c = true.
Proof.
  revert n c. induction f as [|f IH]; intros n c; simpl; [set_solver|].
  destruct (n <? 10)%N eqn:E; bool_hyps.
  - intros ->%list_elem_of_singleton. by apply is_ascii_digit_dec.
  - intros [?| ->%list_elem_of_singleton]%elem_of_app; [by eapply IH|].
    apply is_ascii_digit_dec. by apply N.mod_lt.
Qed.

Lemma dec_fuel_nonempty f n : dec_fuel (S f) n ≠ [].
Proof. simpl. destruct (n <? 10)%N; [done|]. by destruct (dec_fuel f (n / 10)). Qed.

Lemma u64_digits_snoc a d :
  (d < 10)%N → (10 * a + d <= u64_max)%N →
  u64_digits a [(48 + d)%N] = Ok (10 * a + d)%N.
Proof.
  intros Hd Hm. unfold u64_digits. rewrite is_ascii_digit_dec by done.
  rewrite (proj2 (N.ltb_ge _ _)) by lia. rewrite (proj2 (N.ltb_ge _ _)) by lia.
  f_equal. lia.
Qed.

Lemma dec_fuel_parse f n :
  (n < 10 ^ N.of_nat f)%N → (n <= u64_max)%N →
  u64_digits 0 (dec_fuel f n) = Ok n.
Proof.
  revert n. induction f as [|f IH]; intros n Hf Hm.
  { simpl in *. f_equal; lia. }
  simpl dec_fuel. destruct (n <? 10)%N eqn:E; bool_hyps.
  - rewrite u64_digits_snoc by lia. f_equal; lia.
  - pose proof (N.div_mod n 10 ltac:(lia)) as Hdm.
    assert (n / 10 < 10 ^ N.of_nat f)%N.
    { apply N.Div0.div_lt_upper_bound. rewrite Nat2N.inj_succ, N.pow_succ_r' in Hf. lia. }
    pose proof (N.mod_lt n 10 ltac:(lia)) as Hlt.
    rewrite u64_digits_app, (IH (n / 10)%N);
      [|done|apply N.Div0.div_le_upper_bound; lia].
    rewrite u64_digits_snoc; [f_equal; lia|done|lia].
Qed.

Lemma size_nat_pow10 n : (n < 10 ^ N.of_nat (S (N.size_nat n)))%N.
Proof.
  assert (n < 2 ^ N.of_nat (N.size_nat n))%N as H.
  { destruct n as [|p]; [simpl; lia|].
    pose proof (N.size_gt (N.pos p)) as Hs. simpl in *.
    replace (N.of_nat (Pos.size_nat p)) with (N.pos (Pos.size p)); [done|].
    clear. induction p; simpl; lia. }
  eapply N.lt_le_trans; [exact H|].
  etrans; [apply (N.pow_le_mono_l _ 10); lia|]. apply N.pow_le_mono_r; lia.
Qed.

(** Printing a [u64] and parsing it back gives the number. *)
Lemma u64_display_parse n : (n <= u64_max)%N → u64_digits 0 (u64_display n) = Ok n.
Proof. intros H. apply dec_fuel_parse; [apply size_nat_pow10|done]. Qed.

Lemma u64_display_digits n c : c ∈ u64_display n → is_ascii_digit c = true.
Proof. apply dec_fuel_digits. Qed.

Lemma u64_display_nonempty n : u64_display n ≠ [].
Proof. apply dec_fuel_nonempty. Qed.

(** On a non-empty digit string [u64::from_str] is the digit loop. *)
Lemma u64_from_str_digits s :
  s ≠ [] → (∀ c, c ∈ s → is_ascii_digit c = true) → u64_from_str s = u64_digits 0 s.
Proof.
  intros Hne H. destruct s as [|c s]; [done|].
  assert (is_ascii_digit c = true) as Hc by (apply H; set_solver).
  unfold is_ascii_digit in Hc. bool_hyps. unfold u64_from_str.
  destruct s; rewrite bool_decide_eq_false_2 by lia; done.
Qed.

(** ** Lemmas: packed words *)

Lemma In_N_seq (n : nat) (x : N) : (x < N.of_nat n)%N → In x (N.of_nat <$> seq 0 n).
Proof.
  intros Hx. apply list_elem_of_In, list_elem_of_fmap.
  exists (N.to_nat x). rewrite N2Nat.id, elem_of_seq. lia.
Qed.

(** Exhaustive check of a decidable fact below a bound. *)
Fixpoint check_below (P : N → bool) (k : nat) (i : N) : bool :=
  match k with O => true | S k' => P i && check_below P k' (N.succ i) end.

Lemma check_below_spec P k i x :
  check_below P k i = true → (i <= x)%N → (x < i + N.of_nat k)%N → P x = true.
Proof.
  revert i. induction k as [|k IH]; intros i H Hl Hu; simpl in H; [lia|]. bool_hyps.
  destruct (decide (x = i)) as [->|]; [done|]. apply (IH (N.succ i)); [done|lia..].
Qed.

Lemma N_forall_below (n : N) (P : N → bool) :
  check_below P (N.to_nat n) 0 = true → ∀ x, (x < n)%N → P x = true.
Proof. intros H x Hx. eapply check_below_spec; [exact H|lia..]. Qed.

(** [exhaust n P x H] proves [H : P x = true], for [x] below [n], by evaluation. *)
Ltac exhaust n P x H :=
  assert (P x = true) as H by
    (apply (N_forall_below n P); [vm_compute; reflexivity|assumption || lia]); cbv beta in H.

Lemma testbit_high (x n i : N) : (x < 2 ^ n)%N → (n <= i)%N → N.testbit x i = false.
Proof.
  intros Hx Hi. rewrite N.testbit_eqb, N.div_small; [done|].
  eapply N.lt_le_trans; [exact Hx|]. by apply N.pow_le_mono_r.
Qed.

(** [lor] of a multiple of [2^n] with a number below [2^n] is their sum. *)
Lemma lor_low (q n x : N) : (x < 2 ^ n)%N → N.lor (q * 2 ^ n) x = (q * 2 ^ n + x)%N.
Proof.
  intros Hx. symmetry. rewrite <-N.lxor_lor, N.add_nocarry_lxor; [done|..].
  all: apply N.bits_inj_0; intros i; rewrite N.land_spec;
    destruct (N.lt_ge_cases i n) as [Hi|Hi].
  all: try (rewrite N.mul_pow2_bits_low by done; done).
  all: by rewrite (testbit_high x n i), andb_false_r.
Qed.
