(* ===== verification/Externs.v ===== *)
(** * Interfaces to the crates the program links against

    [itertools] and [nom] are not part of the repository.  The development is
    parametric in them: a class gives the functions the program calls, with
    their documented behaviour as laws, and every definition that calls one
    takes the class as an argument.  [itertools_ref] and [nom_ref] are models
    of the two classes, so the laws are consistent and the definitions can be
    evaluated. *)
From S2P Require Import Prelude.

(** ** itertools *)

(** [itertools::EitherOrBoth] *)
Inductive EitherOrBoth (A B : Type) : Type :=
| Both (a : A) (b : B)
| ELeft (a : A)
| ERight (b : B).
Arguments Both {A B} a b.
Arguments ELeft {A B} a.
Arguments ERight {A B} b.

(** [Itertools::zip_longest]: "iterates over both iterators in lock step until
    both are exhausted". *)
Class Itertools := {
  zip_longest : ∀ {A B : Type}, list A → list B → list (EitherOrBoth A B);
  zip_longest_nil : ∀ A B, zip_longest (@nil A) (@nil B) = [];
  zip_longest_left : ∀ A B (x : A) l, zip_longest (x :: l) (@nil B) = ELeft x :: zip_longest l [];
  zip_longest_right : ∀ A B (y : B) k, zip_longest (@nil A) (y :: k) = ERight y :: zip_longest [] k;
  zip_longest_both : ∀ A B (x : A) (y : B) l k,
    zip_longest (x :: l) (y :: k) = Both x y :: zip_longest l k
}.

Fixpoint zip_longest_fun {A B} (l : list A) (k : list B) : list (EitherOrBoth A B) :=
  match l, k with
  | [], k => ERight <$> k
  | x :: l', [] => ELeft x :: zip_longest_fun l' []
  | x :: l', y :: k' => Both x y :: zip_longest_fun l' k'
  end.

#[export, refine] Instance itertools_ref : Itertools :=
  {| zip_longest := @zip_longest_fun |}.
Proof. all: done. Defined.

#[export] Hint Rewrite @zip_longest_nil @zip_longest_left @zip_longest_right
  @zip_longest_both : rattler.

Section itertools.
Context `{IT : Itertools}.

(** The two sides of an item, absent past the end of the shorter list. *)
Definition eob_left {A B} (e : EitherOrBoth A B) : option A :=
  match e with Both a _ | ELeft a => Some a | ERight _ => None end.
Definition eob_right {A B} (e : EitherOrBoth A B) : option B :=
  match e with Both _ b | ERight b => Some b | ELeft _ => None end.

Lemma zip_longest_lookup {A B} (l : list A) (k : list B) i :
  zip_longest l k !! i =
  match l !! i, k !! i with
  | Some a, Some b => Some (Both a b)
  | Some a, None => Some (ELeft a)
  | None, Some b => Some (ERight b)
  | None, None => None
  end.
Proof.
  revert k i. induction l as [|x l IH]; intros k.
  - induction k as [|y k IHk]; intros i; autorewrite with rattler; [done|].
    destruct i; simpl; [done|apply IHk].
  - intros i. destruct k as [|y k]; autorewrite with rattler; destruct i; try done;
      simpl; rewrite IH; by rewrite ?lookup_nil.
Qed.

Lemma length_zip_longest {A B} (l : list A) (k : list B) :
  length (zip_longest l k) = Nat.max (length l) (length k).
Proof.
  revert k. induction l as [|x l IH]; intros k.
  - induction k as [|y k IHk]; autorewrite with rattler; simpl in *; lia.
  - destruct k as [|y k]; autorewrite with rattler; simpl; rewrite IH; simpl; lia.
Qed.

(** A comparing loop over [zip_longest] is a loop over the indices. *)
Lemma for_cmp_zip_longest {A B} (l : list A) (k : list B) f :
  for_cmp (zip_longest l k) (λ e, f (eob_left e) (eob_right e)) =
  for_cmp (seq 0 (Nat.max (length l) (length k))) (λ i, f (l !! i) (k !! i)).
Proof.
  revert k. induction l as [|x l IH]; intros k.
  - induction k as [|y k IHk]; autorewrite with rattler; simpl; [done|].
    simpl in IHk. rewrite IHk, <-fmap_S_seq, for_cmp_fmap. done.
  - destruct k as [|y k]; autorewrite with rattler; simpl;
      rewrite IH; simpl; rewrite <-fmap_S_seq, for_cmp_fmap; simpl; [|done].
    by rewrite Nat.max_0_r.
Qed.
End itertools.

(** ** nom

    Parsers are functions from the input to the remaining input and a value.
    [NErr] is nom's recoverable [Err::Error], [NFail] its [Err::Failure]; the
    [complete] parsers used by the program never return [Err::Incomplete]. *)
Inductive nom_err (E : Type) : Type :=
| NErr (e : E)
| NFail (e : E).
Arguments NErr {E} e.
Arguments NFail {E} e.

Definition IResult (O E : Type) : Type := result (nom_err E) (list N * O).

(** [nom::error::ErrorKind], the kinds the called parsers produce. *)
Inductive ErrorKind : Type :=
| KAlpha | KDigit | KChar | KOneOf | KTag | KTakeWhile1 | KAlt | KEof | KSeparatedList
| KTakeTill1 | KTakeUntil | KMany0 | KNot | KMapRes | KEscaped.

(** [nom::error::ParseError]: implemented by the program for its error types. *)
Class ParseError (E : Type) := {
  from_error_kind : list N → ErrorKind → E;
  pe_append : list N → ErrorKind → E → E;
  (** provided method [ParseError::or]; its default keeps the second error *)
  pe_or : E → E → E
}.

(** The longest prefix whose characters satisfy [p], and the rest. *)
Fixpoint span (p : N → bool) (s : list N) : list N * list N :=
  match s with
  | [] => ([], [])
  | c :: s' => if p c then let '(a, b) := span p s' in (c :: a, b) else ([], s)
  end.

(** [strip t s]: what follows the prefix [t] of [s]. *)
Fixpoint strip (t s : list N) : option (list N) :=
  match t, s with
  | [], s => Some s
  | _ :: _, [] => None
  | c :: t', d :: s' => if (c =? d)%N then strip t' s' else None
  end.

Definition is_multispace (c : N) : bool :=
  bool_decide (c = 32%N ∨ c = 9%N ∨ c = 13%N ∨ c = 10%N).
Definition is_space (c : N) : bool := bool_decide (c = 32%N ∨ c = 9%N).

(** What precedes the first occurrence of [t], and the rest from there on. *)
Fixpoint split_at (t s : list N) : option (list N * list N) :=
  match strip t s, s with
  | Some _, _ => Some ([], s)
  | None, c :: s' => '(a, b) ← split_at t s'; Some (c :: a, b)
  | None, [] => None
  end.

(** The value of a run of decimal digits. *)
Definition digits_value (digits : list N) : N := foldl (λ acc c, 10 * acc + (c - 48))%N 0%N digits.
Definition u32_max : N := 4294967295%N.

Section nom_behaviour.
Context {E : Type} `{PE : ParseError E}.

(** [take_while1(p)] and its instances [digit1], [alpha1]. *)
Definition span1_fun (k : ErrorKind) (p : N → bool) (s : list N) : IResult (list N) E :=
  match span p s with
  | ([], _) => Err (NErr (from_error_kind s k))
  | (a, b) => Ok (b, a)
  end.
Definition one_of_fun (k : ErrorKind) (l : list N) (s : list N) : IResult N E :=
  match s with
  | c :: s' => if bool_decide (c ∈ l) then Ok (s', c) else Err (NErr (from_error_kind s k))
  | [] => Err (NErr (from_error_kind s k))
  end.
Definition tag_fun (t s : list N) : IResult (list N) E :=
  match strip t s with
  | Some r => Ok (r, t)
  | None => Err (NErr (from_error_kind s KTag))
  end.

Definition take_until_fun (t s : list N) : IResult (list N) E :=
  match split_at t s with
  | Some (a, b) => Ok (b, a)
  | None => Err (NErr (from_error_kind s KTakeUntil))
  end.
(** A number that does not fit is an error, as the lack of digits is. *)
Definition u32_fun (s : list N) : IResult N E :=
  match span is_ascii_digit s with
  | ([], _) => Err (NErr (from_error_kind s KDigit))
  | (digits, r) =>
      if (digits_value digits <=? u32_max)%N then Ok (r, digits_value digits)
      else Err (NErr (from_error_kind s KDigit))
  end.

Context {O P Q : Type}.
Fixpoint alt_from (e : E) (ps : list (list N → IResult O E)) (s : list N) : IResult O E :=
  match ps with
  | [] => Err (NErr (pe_append s KAlt e))
  | p :: ps' => match p s with Err (NErr e') => alt_from (pe_or e e') ps' s | r => r end
  end.
Definition alt_fun (ps : list (list N → IResult O E)) (s : list N) : IResult O E :=
  match ps with
  | [] => Err (NErr (from_error_kind s KAlt))
  | p :: ps' => match p s with Err (NErr e) => alt_from e ps' s | r => r end
  end.
Definition recognize_fun (p : list N → IResult O E) (s : list N) : IResult (list N) E :=
  match p s with
  | Ok (r, _) => Ok (r, take (length s - length r) s)
  | Err e => Err e
  end.
Definition cut_fun (p : list N → IResult O E) (s : list N) : IResult O E :=
  match p s with Err (NErr e) => Err (NFail e) | r => r end.
Definition not_fun (p : list N → IResult O E) (s : list N) : IResult () E :=
  match p s with
  | Ok _ => Err (NErr (from_error_kind s KNot))
  | Err (NErr _) => Ok (s, ())
  | Err (NFail e) => Err (NFail e)
  end.
(** Every round of [many0] consumes input. *)
Fixpoint many0_loop (fuel : nat) (p : list N → IResult O E) (s : list N) (acc : list O)
  : IResult (list O) E :=
  match fuel with
  | 0 => Err (NErr (from_error_kind s KMany0))
  | S f =>
      match p s with
      | Err (NErr _) => Ok (s, acc)
      | Err (NFail e) => Err (NFail e)
      | Ok (r, o) =>
          if decide (length r = length s) then Err (NErr (from_error_kind s KMany0))
          else many0_loop f p r (acc ++ [o])
      end
  end.
Definition many0_fun (p : list N → IResult O E) (s : list N) : IResult (list O) E :=
  many0_loop (S (length s)) p s [].
Definition opt_fun (p : list N → IResult O E) (s : list N) : IResult (option O) E :=
  match p s with
  | Ok (r, o) => Ok (r, Some o)
  | Err (NErr _) => Ok (s, None)
  | Err (NFail e) => Err (NFail e)
  end.
Definition alt2_fun (p q : list N → IResult O E) (s : list N) : IResult O E :=
  match p s with
  | Err (NErr e1) =>
      match q s with
      | Err (NErr e2) => Err (NErr (pe_append s KAlt (pe_or e1 e2)))
      | r => r
      end
  | r => r
  end.
Definition alt3_fun (p q t : list N → IResult O E) (s : list N) : IResult O E :=
  match p s with
  | Err (NErr e1) =>
      match q s with
      | Err (NErr e2) =>
          match t s with
          | Err (NErr e3) => Err (NErr (pe_append s KAlt (pe_or (pe_or e1 e2) e3)))
          | r => r
          end
      | r => r
      end
  | r => r
  end.
Definition map_fun (p : list N → IResult O E) (f : O → P) (s : list N) : IResult P E :=
  match p s with Ok (r, o) => Ok (r, f o) | Err e => Err e end.
(** The sequence of two parsers, with both results. *)
Definition pair_fun (p : list N → IResult O E) (q : list N → IResult P E) (s : list N)
  : IResult (O * P) E :=
  match p s with
  | Ok (r, o) => match q r with Ok (r', o') => Ok (r', (o, o')) | Err e => Err e end
  | Err e => Err e
  end.
Definition all_consuming_fun (p : list N → IResult O E) (s : list N) : IResult O E :=
  match p s with
  | Ok ([], o) => Ok ([], o)
  | Ok (r, _) => Err (NErr (from_error_kind r KEof))
  | Err e => Err e
  end.

(** The loop of [separated_list1] after the first element.  Every round
    consumes input, so the length of the input bounds the rounds. *)
Fixpoint separated_loop (fuel : nat) (sep : list N → IResult P E)
    (p : list N → IResult O E) (s : list N) (acc : list O) : IResult (list O) E :=
  match fuel with
  | 0 => Err (NErr (from_error_kind s KSeparatedList))
  | S f =>
      match sep s with
      | Err (NErr _) => Ok (s, acc)
      | Err (NFail e) => Err (NFail e)
      | Ok (s1, _) =>
          match p s1 with
          | Err (NErr _) => Ok (s, acc)
          | Err (NFail e) => Err (NFail e)
          | Ok (s2, o) =>
              if decide (length s2 = length s)
              then Err (NErr (from_error_kind s KSeparatedList))
              else separated_loop f sep p s2 (acc ++ [o])
          end
      end
  end.
Definition separated_list1_fun (sep : list N → IResult P E)
    (p : list N → IResult O E) (s : list N) : IResult (list O) E :=
  match p s with
  | Ok (r, o) => separated_loop (S (length r)) sep p r [o]
  | Err e => Err e
  end.
Definition separated_list0_fun (sep : list N → IResult P E)
    (p : list N → IResult O E) (s : list N) : IResult (list O) E :=
  match p s with
  | Ok (r, o) => separated_loop (S (length r)) sep p r [o]
  | Err (NErr _) => Ok (s, [])
  | Err (NFail e) => Err (NFail e)
  end.
End nom_behaviour.

(** The parsers and combinators of nom 8 the program calls.  A tuple of parsers
    is a sequence ([seq2]); [alt] is taken at arities two and three, and of a list. *)
Class Nom := {
  digit1 : ∀ {E} `{ParseError E}, list N → IResult (list N) E;
  alpha1 : ∀ {E} `{ParseError E}, list N → IResult (list N) E;
  multispace0 : ∀ {E} `{ParseError E}, list N → IResult (list N) E;
  nom_char : ∀ {E} `{ParseError E}, N → list N → IResult N E;
  one_of : ∀ {E} `{ParseError E}, list N → list N → IResult N E;
  tag : ∀ {E} `{ParseError E}, list N → list N → IResult (list N) E;
  take_while : ∀ {E} `{ParseError E}, (N → bool) → list N → IResult (list N) E;
  take_while1 : ∀ {E} `{ParseError E}, (N → bool) → list N → IResult (list N) E;
  opt : ∀ {O E} `{ParseError E}, (list N → IResult O E) → list N → IResult (option O) E;
  alt2 : ∀ {O E} `{ParseError E},
    (list N → IResult O E) → (list N → IResult O E) → list N → IResult O E;
  alt3 : ∀ {O E} `{ParseError E}, (list N → IResult O E) → (list N → IResult O E) →
    (list N → IResult O E) → list N → IResult O E;
  nom_map : ∀ {O P E} `{ParseError E},
    (list N → IResult O E) → (O → P) → list N → IResult P E;
  seq2 : ∀ {O P E} `{ParseError E},
    (list N → IResult O E) → (list N → IResult P E) → list N → IResult (O * P) E;
  terminated : ∀ {O P E} `{ParseError E},
    (list N → IResult O E) → (list N → IResult P E) → list N → IResult O E;
  preceded : ∀ {O P E} `{ParseError E},
    (list N → IResult O E) → (list N → IResult P E) → list N → IResult P E;
  delimited : ∀ {O P Q E} `{ParseError E}, (list N → IResult O E) →
    (list N → IResult P E) → (list N → IResult Q E) → list N → IResult P E;
  all_consuming : ∀ {O E} `{ParseError E}, (list N → IResult O E) → list N → IResult O E;
  separated_list1 : ∀ {O P E} `{ParseError E},
    (list N → IResult P E) → (list N → IResult O E) → list N → IResult (list O) E;
  separated_list0 : ∀ {O P E} `{ParseError E},
    (list N → IResult P E) → (list N → IResult O E) → list N → IResult (list O) E;
  space0 : ∀ {E} `{ParseError E}, list N → IResult (list N) E;
  take_till1 : ∀ {E} `{ParseError E}, (N → bool) → list N → IResult (list N) E;
  take_until : ∀ {E} `{ParseError E}, list N → list N → IResult (list N) E;
  nom_u32 : ∀ {E} `{ParseError E}, list N → IResult N E;
  alt : ∀ {O E} `{ParseError E}, list (list N → IResult O E) → list N → IResult O E;
  recognize : ∀ {O E} `{ParseError E}, (list N → IResult O E) → list N → IResult (list N) E;
  cut : ∀ {O E} `{ParseError E}, (list N → IResult O E) → list N → IResult O E;
  nom_not : ∀ {O E} `{ParseError E}, (list N → IResult O E) → list N → IResult () E;
  many0 : ∀ {O E} `{ParseError E}, (list N → IResult O E) → list N → IResult (list O) E;

  digit1_law : ∀ E `{ParseError E} s, digit1 s = span1_fun KDigit is_ascii_digit s;
  alpha1_law : ∀ E `{ParseError E} s, alpha1 s = span1_fun KAlpha is_ascii_alphabetic s;
  multispace0_law : ∀ E `{ParseError E} s,
    multispace0 s = Ok ((span is_multispace s).2, (span is_multispace s).1);
  nom_char_law : ∀ E `{ParseError E} c s, nom_char c s = one_of_fun KChar [c] s;
  one_of_law : ∀ E `{ParseError E} l s, one_of l s = one_of_fun KOneOf l s;
  tag_law : ∀ E `{ParseError E} t s, tag t s = tag_fun t s;
  take_while_law : ∀ E `{ParseError E} p s, take_while p s = Ok ((span p s).2, (span p s).1);
  take_while1_law : ∀ E `{ParseError E} p s, take_while1 p s = span1_fun KTakeWhile1 p s;
  opt_law : ∀ O E `{ParseError E} (p : list N → IResult O E) s, opt p s = opt_fun p s;
  alt2_law : ∀ O E `{ParseError E} (p q : list N → IResult O E) s,
    alt2 p q s = alt2_fun p q s;
  alt3_law : ∀ O E `{ParseError E} (p q t : list N → IResult O E) s,
    alt3 p q t s = alt3_fun p q t s;
  nom_map_law : ∀ O P E `{ParseError E} (p : list N → IResult O E) (f : O → P) s,
    nom_map p f s = map_fun p f s;
  seq2_law : ∀ O P E `{ParseError E} (p : list N → IResult O E) (q : list N → IResult P E) s,
    seq2 p q s = pair_fun p q s;
  terminated_law : ∀ O P E `{ParseError E} (p : list N → IResult O E)
      (q : list N → IResult P E) s, terminated p q s = map_fun (pair_fun p q) fst s;
  preceded_law : ∀ O P E `{ParseError E} (p : list N → IResult O E)
      (q : list N → IResult P E) s, preceded p q s = map_fun (pair_fun p q) snd s;
  delimited_law : ∀ O P Q E `{ParseError E} (p : list N → IResult O E)
      (q : list N → IResult P E) (t : list N → IResult Q E) s,
    delimited p q t s = map_fun (pair_fun p (pair_fun q t)) (λ o, o.2.1) s;
  all_consuming_law : ∀ O E `{ParseError E} (p : list N → IResult O E) s,
    all_consuming p s = all_consuming_fun p s;
  separated_list1_law : ∀ O P E `{ParseError E} (sep : list N → IResult P E)
      (p : list N → IResult O E) s, separated_list1 sep p s = separated_list1_fun sep p s;
  separated_list0_law : ∀ O P E `{ParseError E} (sep : list N → IResult P E)
      (p : list N → IResult O E) s, separated_list0 sep p s = separated_list0_fun sep p s;
  space0_law : ∀ E `{ParseError E} s, space0 s = Ok ((span is_space s).2, (span is_space s).1);
  take_till1_law : ∀ E `{ParseError E} p s,
    take_till1 p s = span1_fun KTakeTill1 (λ c, negb (p c)) s;
  take_until_law : ∀ E `{ParseError E} t s, take_until t s = take_until_fun t s;
  nom_u32_law : ∀ E `{ParseError E} s, nom_u32 s = u32_fun s;
  alt_law : ∀ O E `{ParseError E} (ps : list (list N → IResult O E)) s, alt ps s = alt_fun ps s;
  recognize_law : ∀ O E `{ParseError E} (p : list N → IResult O E) s,
    recognize p s = recognize_fun p s;
  cut_law : ∀ O E `{ParseError E} (p : list N → IResult O E) s, cut p s = cut_fun p s;
  nom_not_law : ∀ O E `{ParseError E} (p : list N → IResult O E) s, nom_not p s = not_fun p s;
  many0_law : ∀ O E `{ParseError E} (p : list N → IResult O E) s, many0 p s = many0_fun p s
}.

#[export, refine] Instance nom_ref : Nom := {|
  digit1 E _ := span1_fun KDigit is_ascii_digit;
  alpha1 E _ := span1_fun KAlpha is_ascii_alphabetic;
  multispace0 E _ s := Ok ((span is_multispace s).2, (span is_multispace s).1);
  nom_char E _ c := one_of_fun KChar [c];
  one_of E _ := one_of_fun KOneOf;
  tag E _ := tag_fun;
  take_while E _ p s := Ok ((span p s).2, (span p s).1);
  take_while1 E _ := span1_fun KTakeWhile1;
  opt O E _ := opt_fun;
  alt2 O E _ := alt2_fun;
  alt3 O E _ := alt3_fun;
  nom_map O P E _ := map_fun;
  seq2 O P E _ := pair_fun;
  terminated O P E _ p q := map_fun (pair_fun p q) fst;
  preceded O P E _ p q := map_fun (pair_fun p q) snd;
  delimited O P Q E _ p q t := map_fun (pair_fun p (pair_fun q t)) (λ o, o.2.1);
  all_consuming O E _ := all_consuming_fun;
  separated_list1 O P E _ := separated_list1_fun;
  separated_list0 O P E _ := separated_list0_fun;
  space0 E _ s := Ok ((span is_space s).2, (span is_space s).1);
  take_till1 E _ p := span1_fun KTakeTill1 (λ c, negb (p c));
  take_until E _ := take_until_fun;
  nom_u32 E _ := u32_fun;
  alt O E _ := alt_fun;
  recognize O E _ := recognize_fun;
  cut O E _ := cut_fun;
  nom_not O E _ := not_fun;
  many0 O E _ := many0_fun
|}.
Proof. all: done. Defined.

Create Rewrite HintDb nom.
#[export] Hint Rewrite @digit1_law @alpha1_law @multispace0_law @nom_char_law @one_of_law
  @tag_law @take_while_law @take_while1_law @opt_law @alt2_law @alt3_law @nom_map_law
  @seq2_law @terminated_law @preceded_law @delimited_law @all_consuming_law
  @separated_list1_law @separated_list0_law @space0_law @take_till1_law @take_until_law
  @nom_u32_law @alt_law @recognize_law @cut_law @nom_not_law @many0_law : nom.

(** Replaces every call into nom by its documented behaviour. *)
Ltac nom := autorewrite with nom.

(** ** Lemmas about the text primitives *)

(** The character a text starts with does not satisfy [p]. *)
Definition stops (p : N → bool) (s : list N) : bool :=
  match s with [] => true | c :: _ => negb (p c) end.

Lemma span_app p a b :
  forallb p a = true → stops p b = true → span p (a ++ b) = (a, b).
Proof.
  intros Ha Hb. induction a as [|c a IH]; simpl in *.
  - destruct b as [|c b]; simpl in *; [done|]. by destruct (p c).
  - bool_hyps. rewrite H. by rewrite IH.
Qed.

Lemma span_spec p s :
  s = (span p s).1 ++ (span p s).2 ∧ forallb p (span p s).1 = true ∧
  stops p (span p s).2 = true.
Proof.
  induction s as [|c s IH]; simpl; [done|]. destruct (p c) eqn:E.
  - destruct (span p s) as [a b]. simpl in *. rewrite E. naive_solver.
  - simpl. by rewrite E.
Qed.

Lemma strip_app t s : strip t (t ++ s) = Some s.
Proof. induction t as [|c t IH]; simpl; [done|]. by rewrite N.eqb_refl. Qed.

Lemma strip_Some t s r : strip t s = Some r → s = t ++ r.
Proof.
  revert s. induction t as [|c t IH]; intros s; simpl; [naive_solver|].
  destruct s as [|d s]; [done|]. destruct (c =? d)%N eqn:E; [|done].
  bool_hyps. subst. intros ->%IH. done.
Qed.
