(* ===== verification/TextOps.v ===== *)
(** * Methods of [str]

    What the parsers and printers of match specs and channels call of the standard
    library: trimming, searching and splitting.  A position is an index of a character
    here and of a byte in the program; both name the same boundaries. *)
From S2P Require Import Prelude Externs.

Local Notation text := (list N).

(** ** Definitions *)
Abbreviation c_space := 32%N (only parsing).
Abbreviation c_dquote := 34%N (only parsing).
Abbreviation c_hash := 35%N (only parsing).
Abbreviation c_squote := 39%N (only parsing).
Abbreviation c_slash := 47%N (only parsing).
Abbreviation c_colon := 58%N (only parsing).
Abbreviation c_semi := 59%N (only parsing).
Abbreviation c_lbracket := 91%N (only parsing).
Abbreviation c_backslash := 92%N (only parsing).
Abbreviation c_rbracket := 93%N (only parsing).

(** [char::is_whitespace]: the property [White_Space] *)
Definition is_whitespace (c : N) : bool :=
  ((9 <=? c) && (c <=? 13) || (8192 <=? c) && (c <=? 8202))%N
  || bool_decide (c ∈ [32; 133; 160; 5760; 8232; 8233; 8239; 8287; 12288]%N).

(** [str::trim_start_matches], [trim_end_matches] and [trim_matches] *)
Definition trim_start_by (p : N → bool) (s : text) : text := skip_while p s.
Definition trim_end_by (p : N → bool) (s : text) : text := rev (skip_while p (rev s)).
Definition trim_by (p : N → bool) (s : text) : text := trim_end_by p (trim_start_by p s).
Definition trim_start : text → text := trim_start_by is_whitespace.
Definition trim_end : text → text := trim_end_by is_whitespace.
Definition trim : text → text := trim_by is_whitespace.

(** [str::starts_with], [ends_with] and [contains] of a text *)
Definition str_starts_with (s t : text) : bool := bool_decide (is_Some (strip t s)).
Definition str_ends_with (s t : text) : bool := bool_decide (is_Some (strip (rev t) (rev s))).
Definition str_contains (s t : text) : bool := bool_decide (is_Some (split_at t s)).
(** [str::contains] of a set of characters *)
Definition contains_any (cs s : text) : bool := existsb (λ c, bool_decide (c ∈ cs)) s.
(** [char::is_some_and] on the first and the last character *)
Definition head_is (p : N → bool) (s : text) : bool := match s with c :: _ => p c | [] => false end.
Definition last_is (p : N → bool) (s : text) : bool := head_is p (rev s).

(** [str::split] by the characters of a set *)
Fixpoint split_by (p : N → bool) (s : text) : list text :=
  match s with
  | [] => [[]]
  | c :: s' =>
      if p c then [] :: split_by p s'
      else match split_by p s' with w :: ws => (c :: w) :: ws | [] => [[c]] end
  end.

(** ** Lemmas *)

Lemma skip_while_id (p : N → bool) s : stops p s = true → skip_while p s = s.
Proof. destruct s as [|c s]; simpl; [done|]. by intros ->%negb_true_iff. Qed.

Lemma skip_while_prefix (p : N → bool) a b :
  forallb p a = true → skip_while p (a ++ b) = skip_while p b.
Proof. induction a as [|c a IH]; simpl; [done|]. intros [-> Ha]%andb_true_iff. by apply IH. Qed.

Lemma skip_while_stops (p : N → bool) s : stops p (skip_while p s) = true.
Proof. induction s as [|c s IH]; simpl; [done|]. destruct (p c) eqn:E; [done|]. simpl. by rewrite E. Qed.

(** A text that neither starts nor ends with a trimmed character. *)
Definition tight (p : N → bool) (s : text) : Prop := stops p s = true ∧ stops p (rev s) = true.

Lemma trim_by_tight p s : tight p s → trim_by p s = s.
Proof.
  intros [H1 H2]. unfold trim_by, trim_end_by, trim_start_by.
  rewrite (skip_while_id p s), (skip_while_id p (rev s)) by done. apply rev_involutive.
Qed.

Lemma trim_by_around p a s b :
  forallb p a = true → forallb p b = true → tight p s → trim_by p (a ++ s ++ b) = s.
Proof.
  intros Ha Hb [H1 H2]. unfold trim_by, trim_end_by, trim_start_by.
  rewrite skip_while_prefix by done. destruct s as [|c s].
  { cbn [app]. pose proof (skip_while_prefix p b [] Hb) as E. rewrite app_nil_r in E. by rewrite E. }
  rewrite (skip_while_id p ((c :: s) ++ b)) by exact H1.
  rewrite rev_app_distr, skip_while_prefix.
  - rewrite (skip_while_id p (rev (c :: s))) by done. apply rev_involutive.
  - apply forallb_forall. intros x Hx. rewrite forallb_forall in Hb. by apply Hb, in_rev.
Qed.

Lemma tight_trim s : tight is_whitespace s → trim s = s.
Proof. apply trim_by_tight. Qed.

Lemma span_stops p s : stops p s = true → span p s = ([], s).
Proof. intros H. by apply (span_app p [] s). Qed.

Lemma stops_app p a b : stops p a = true → (a = [] → stops p b = true) → stops p (a ++ b) = true.
Proof. destruct a as [|c a]; simpl; auto. Qed.

Lemma stops_none (p : N → bool) s : existsb p s = false → stops p s = true.
Proof. destruct s as [|c s]; simpl; [done|]. by intros [-> _]%orb_false_iff. Qed.

Lemma existsb_rev {A} (p : A → bool) l : existsb p (rev l) = existsb p l.
Proof.
  induction l as [|x l IH]; simpl; [done|]. rewrite existsb_app, IH. simpl.
  by rewrite orb_false_r, orb_comm.
Qed.

Lemma tight_none p s : existsb p s = false → tight p s.
Proof. intros H. split; apply stops_none; [done|]. by rewrite existsb_rev. Qed.

Lemma str_starts_with_app s t : str_starts_with (t ++ s) t = true.
Proof. unfold str_starts_with. rewrite strip_app. by apply bool_decide_eq_true. Qed.

Lemma contains_any_false cs s : contains_any cs s = false ↔ ∀ c, c ∈ s → c ∉ cs.
Proof.
  unfold contains_any. rewrite <-not_true_iff_false, existsb_exists. split.
  - intros H c Hc Hin. apply H. exists c. split; [by apply list_elem_of_In|]. by apply bool_decide_eq_true.
  - intros H (c & Hc & Hin%bool_decide_eq_true). apply (H c); [by apply list_elem_of_In|done].
Qed.

Lemma existsb_false {A} (p : A → bool) l : existsb p l = false ↔ ∀ x, x ∈ l → p x = false.
Proof.
  rewrite <-not_true_iff_false, existsb_exists. split.
  - intros H x Hx. apply not_true_iff_false. intros Hp. apply H. exists x. by rewrite <-list_elem_of_In.
  - intros H (x & Hx & Hp). rewrite <-list_elem_of_In in Hx. by rewrite (H x Hx) in Hp.
Qed.

Lemma split_at_Some t s a b : split_at t s = Some (a, b) → s = a ++ b ∧ ∃ r, b = t ++ r.
Proof.
  revert a b. induction s as [|c s IH]; intros a b; cbn [split_at].
  - destruct (strip t []) as [r|] eqn:E; [|done]. intros [= <- <-]. split; [done|]. exists r. by apply strip_Some.
  - destruct (strip t (c :: s)) as [r|] eqn:E.
    + intros [= <- <-]. split; [done|]. exists r. by apply strip_Some.
    + destruct (split_at t s) as [[x y]|] eqn:Es; [|done]. cbn. intros [= <- <-].
      destruct (IH x y eq_refl) as [-> H]. by split.
Qed.

Lemma split_at_None t s c : c ∈ t → c ∉ s → split_at t s = None.
Proof.
  intros Hc Hs. destruct (split_at t s) as [[a b]|] eqn:E; [|done].
  apply split_at_Some in E as [-> (r & ->)]. set_solver.
Qed.
