(* ===== verification/VersionRepr.v ===== *)
(** * The representation of a conda version

    [rattler_conda_version/src/version/{flags,segment,mod}.rs]: the packed
    flag byte, the packed 16-bit segment descriptor, components, and the
    [Version] record with the accessors that slice its component vector.

    Below the definitions: the packing laws, the abstract view of a version
    ([parts]) and the representation invariant [wf], under which none of the
    slices panics and the accessors return the abstract view. *)
From S2P Require Import Prelude.

(** ** Flags: [flags.rs] *)
Definition EPOCH_MASK : N := 1.
Definition EPOCH_OFFSET : N := 0.
Definition LOCAL_VERSION_MASK : N := (N.shiftl 1 7 - 1)%N.
Definition LOCAL_VERSION_OFFSET : N := 1.

(** [Flags(u8)] *)
Record Flags := mkFlags { flags_bits : N }.
Definition flags_default : Flags := mkFlags 0.

(** [!x] on [u8] *)
Definition not_u8 (x : N) : N := N.lnot x 8.

Definition flags_with_has_epoch (f : Flags) (has_epoch : bool) : Flags :=
  let flag := N.land (flags_bits f) (not_u8 (N.shiftl EPOCH_MASK EPOCH_OFFSET)) in
  mkFlags (N.lor flag (if has_epoch then N.shiftl EPOCH_MASK EPOCH_OFFSET else 0)).

Definition flags_has_epoch (f : Flags) : bool :=
  negb (N.land (N.shiftr (flags_bits f) EPOCH_OFFSET) EPOCH_MASK =? 0)%N.

Definition flags_with_local_segment_index (f : Flags) (index : N) : option Flags :=
  if (LOCAL_VERSION_MASK <? index)%N then None
  else Some (mkFlags (N.lor
    (N.land (flags_bits f) (not_u8 (N.land (N.shiftl LOCAL_VERSION_MASK LOCAL_VERSION_OFFSET) 255)))
    (N.land (N.shiftl index LOCAL_VERSION_OFFSET) 255))).

Definition flags_local_segment_index (f : Flags) : N :=
  N.land (N.shiftr (flags_bits f) LOCAL_VERSION_OFFSET) LOCAL_VERSION_MASK.

(** ** Segments: [segment.rs] *)
Definition COMPONENT_COUNT_MASK : N := (N.shiftl 1 13 - 1)%N.
Definition COMPONENT_COUNT_OFFSET : N := 0.
Definition SEGMENT_SEPARATOR_MASK : N := 3.
Definition SEGMENT_SEPARATOR_OFFSET : N := 13.
Definition IMPLICIT_DEFAULT_ZERO_MASK : N := 1.
Definition IMPLICIT_DEFAULT_ZERO_OFFSET : N := 15.

(** [Segment(u16)] *)
Record Segment := mkSegment { seg_bits : N }.

(** [!x] on [u16] *)
Definition not_u16 (x : N) : N := N.lnot x 16.

Definition segment_new (component_count : N) : option Segment :=
  if (COMPONENT_COUNT_MASK <? component_count)%N then None
  else Some (mkSegment
    (N.shiftl (N.land component_count COMPONENT_COUNT_MASK) COMPONENT_COUNT_OFFSET)).

Definition segment_with_component_count (s : Segment) (len : N) : option Segment :=
  if (COMPONENT_COUNT_MASK <? len)%N then None
  else
    let component_mask := N.shiftl (N.land len COMPONENT_COUNT_MASK) COMPONENT_COUNT_OFFSET in
    Some (mkSegment (N.lor
      (N.land (seg_bits s) (not_u16 (N.shiftl COMPONENT_COUNT_MASK COMPONENT_COUNT_OFFSET)))
      component_mask)).

Definition segment_len (s : Segment) : N :=
  N.land (N.shiftr (seg_bits s) COMPONENT_COUNT_OFFSET) COMPONENT_COUNT_MASK.

Definition segment_with_implicit_default (s : Segment) (has_implicit_default : bool) : Segment :=
  mkSegment
    (if has_implicit_default then
       N.lor (seg_bits s)
         (N.shiftl (N.land 1 IMPLICIT_DEFAULT_ZERO_MASK) IMPLICIT_DEFAULT_ZERO_OFFSET)
     else
       N.land (seg_bits s)
         (not_u16 (N.shiftl IMPLICIT_DEFAULT_ZERO_MASK IMPLICIT_DEFAULT_ZERO_OFFSET))).

Definition segment_has_implicit_default (s : Segment) : bool :=
  (N.shiftr (seg_bits s) IMPLICIT_DEFAULT_ZERO_OFFSET =? IMPLICIT_DEFAULT_ZERO_MASK)%N.

Definition segment_with_separator (s : Segment) (separator : option N) : option Segment :=
  let state := N.land (seg_bits s)
    (not_u16 (N.shiftl SEGMENT_SEPARATOR_MASK SEGMENT_SEPARATOR_OFFSET)) in
  let put (k : N) := Some (mkSegment (N.lor state (N.shiftl k SEGMENT_SEPARATOR_OFFSET))) in
  match separator with
  | None => put 0
  | Some c =>
      if (c =? c_dash)%N then put 1
      else if (c =? c_under)%N then put 2
      else if (c =? c_dot)%N then put 3
      else None
  end%N.

Definition segment_without_separator (s : Segment) : Segment :=
  mkSegment (N.land (seg_bits s)
    (not_u16 (N.shiftl SEGMENT_SEPARATOR_MASK SEGMENT_SEPARATOR_OFFSET))).

(** The masked value is at most 3, the source's [unreachable!()] arm is the
    last one here. *)
Definition segment_separator (s : Segment) : option N :=
  let k := N.land (N.shiftr (seg_bits s) SEGMENT_SEPARATOR_OFFSET) SEGMENT_SEPARATOR_MASK in
  if (k =? 0)%N then None
  else if (k =? 1)%N then Some c_dash
  else if (k =? 2)%N then Some c_under
  else Some c_dot.

(** ** Components: [mod.rs] *)
Inductive Component : Type :=
| Numeral (n : N)
| Post
| Dev
| Iden (s : list N)
| UnderscoreOrDash (is_dash : bool).

#[export] Instance component_eq_dec : EqDecision Component.
Proof. solve_decision. Defined.
#[export] Instance segment_eq_dec : EqDecision Segment.
Proof. solve_decision. Defined.
#[export] Instance flags_eq_dec : EqDecision Flags.
Proof. solve_decision. Defined.

Definition component_as_number (c : Component) : option N :=
  match c with Numeral value => Some value | _ => None end.
Definition component_as_iden (c : Component) : option (list N) :=
  match c with Iden value => Some value | _ => None end.
Definition component_is_post (c : Component) : bool :=
  match c with Post => true | _ => false end.
Definition component_is_dev (c : Component) : bool :=
  match c with Dev => true | _ => false end.
Definition component_is_numeric (c : Component) : bool :=
  match c with Numeral _ => true | _ => false end.
Definition component_is_zero (c : Component) : bool :=
  match c with Numeral n => (n =? 0)%N | _ => false end.
Definition component_default : Component := Numeral 0.

(** ** Versions: [mod.rs] *)
Record Version := mkVersion {
  components : list Component;
  segments : list Segment;
  flags : Flags
}.

#[export] Instance version_eq_dec : EqDecision Version.
Proof. solve_decision. Defined.

(** [Version::major] *)
Definition version_major (major : N) : option Version :=
  s ← segment_new 1; Some (mkVersion [Numeral major] [s] (mkFlags 0)).

Definition version_has_epoch (v : Version) : bool := flags_has_epoch (flags v).

Definition version_has_local (v : Version) : bool :=
  (0 <? flags_local_segment_index (flags v))%N.

Definition version_local_segment_index (v : Version) : option nat :=
  let index := flags_local_segment_index (flags v) in
  if (0 <? index)%N then Some (N.to_nat index) else None.

(** [epoch_opt]: panics when the version is empty or its first component is
    not a number. *)
Definition version_epoch_opt (v : Version) : option (option N) :=
  if version_has_epoch v then
    c ← components v !! 0;
    n ← component_as_number c;
    Some (Some n)
  else Some None.

Definition version_epoch (v : Version) : option N :=
  e ← version_epoch_opt v; Some (default 0%N e).

(** [SegmentIter]: a segment and the components it covers.  The source keeps
    the offset and slices the component vector on use; here the slice is taken
    when the iterator yields the segment, so a panic of the slice is a panic of
    the iteration. *)
Record SegmentIter := mkSegmentIter {
  si_segment : Segment;
  si_raw : list Component
}.

(** The iteration shared by [segments] and [local_segments]: every segment
    starts where the previous one ended. *)
Fixpoint segment_iters (comps : list Component) (idx : nat) (segs : list Segment)
  : option (list SegmentIter) :=
  match segs with
  | [] => Some []
  | segment :: segs' =>
      let stop := idx + N.to_nat (segment_len segment) in
      raw ← slice comps idx stop;
      rest ← segment_iters comps stop segs';
      Some (mkSegmentIter segment raw :: rest)
  end.

Definition epoch_offset (v : Version) : nat := if version_has_epoch v then 1 else 0.

Definition version_segments (v : Version) : option (list SegmentIter) :=
  segs ← match version_local_segment_index v with
         | Some local_index => slice (segments v) 0 local_index
         | None => Some (segments v)
         end;
  segment_iters (components v) (epoch_offset v) segs.

Definition total_len (segs : list Segment) : nat :=
  sum_list_with (λ s, N.to_nat (segment_len s)) segs.

Definition version_local_segments (v : Version) : option (list SegmentIter) :=
  match version_local_segment_index v with
  | Some start =>
      before ← slice (segments v) 0 start;
      version_segments ← slice (segments v) start (length (segments v));
      segment_iters (components v) (epoch_offset v + total_len before) version_segments
  | None => Some []
  end.

Definition version_segment_count (v : Version) : nat :=
  match version_local_segment_index v with
  | Some local_index => local_index
  | None => length (segments v)
  end.

(** Methods of [SegmentIter]. *)
Definition si_has_implicit_default (s : SegmentIter) : bool :=
  segment_has_implicit_default (si_segment s).
Definition si_separator (s : SegmentIter) : option N := segment_separator (si_segment s).
Definition si_component_count (s : SegmentIter) : nat := N.to_nat (segment_len (si_segment s)).
Definition si_raw_components (s : SegmentIter) : bool * list Component :=
  (si_has_implicit_default s, si_raw s).
Definition si_components (s : SegmentIter) : list Component :=
  (if si_has_implicit_default s then [component_default] else []) ++ si_raw s.
Definition si_is_zero (s : SegmentIter) : bool := forallb component_is_zero (si_components s).

(** [as_major_minor] *)
Definition version_as_major_minor (v : Version) : option (option (N * N)) :=
  segs ← version_segments v;
  Some (match segs with
        | major_segment :: minor_segment :: _ =>
            if (si_component_count major_segment =? 1)%nat
               && (si_component_count minor_segment =? 1)%nat
            then c1 ← head (si_components major_segment);
                 n1 ← component_as_number c1;
                 c2 ← head (si_components minor_segment);
                 n2 ← component_as_number c2;
                 Some (n1, n2)
            else None
        | _ => None
        end).

Definition version_is_dev (v : Version) : option bool :=
  segs ← version_segments v;
  Some (existsb component_is_dev (concat (si_components <$> segs))).

Definition version_is_post (v : Version) : option bool :=
  segs ← version_segments v;
  Some (existsb component_is_post (concat (si_components <$> segs))).

(** ** The abstract view and the invariant *)

(** What a version stands for: its explicit epoch, its release segments and
    its local segments. *)
Record parts := mkParts {
  p_epoch : option N;
  p_release : list SegmentIter;
  p_local : list SegmentIter
}.

Definition epoch_components (e : option N) : list Component :=
  match e with Some n => [Numeral n] | None => [] end.

(** The packed version of an abstract one. *)
Definition pack (p : parts) : Version :=
  {| components := epoch_components (p_epoch p) ++ concat (si_raw <$> p_release p) ++
       concat (si_raw <$> p_local p);
     segments := (si_segment <$> p_release p) ++ (si_segment <$> p_local p);
     flags := mkFlags
       (match p_epoch p with Some _ => 1 | None => 0 end +
        2 * match p_local p with [] => 0 | _ => N.of_nat (length (p_release p)) end)%N |}.

(** A segment descriptor fits in 16 bits and counts its components. *)
Definition wf_segment (s : SegmentIter) : Prop :=
  (seg_bits (si_segment s) < 65536)%N ∧
  segment_len (si_segment s) = N.of_nat (length (si_raw s)).

Record wf_parts (p : parts) : Prop := {
  wf_release_nonempty : p_release p ≠ [];
  wf_release_bound : p_local p ≠ [] → length (p_release p) ≤ 127;
  wf_release : Forall wf_segment (p_release p);
  wf_local : Forall wf_segment (p_local p)
}.

(** The representation invariant of [Version]. *)
Definition wf (v : Version) : Prop := ∃ p, wf_parts p ∧ v = pack p.

(** ** Packing laws of [Flags] *)
Lemma flags_has_epoch_arith x : flags_has_epoch (mkFlags x) = (x mod 2 =? 1)%N.
Proof.
  unfold flags_has_epoch, EPOCH_MASK, EPOCH_OFFSET. simpl flags_bits.
  rewrite N.shiftr_0_r. change (N.land x 1) with (N.land x (N.ones 1)). rewrite N.land_ones.
  change (2 ^ 1)%N with 2%N. pose proof (N.mod_lt x 2 ltac:(lia)).
  destruct (N.eqb_spec (x mod 2) 0), (N.eqb_spec (x mod 2) 1); simpl; lia.
Qed.

Lemma flags_local_arith x : flags_local_segment_index (mkFlags x) = ((x / 2) mod 128)%N.
Proof.
  unfold flags_local_segment_index, LOCAL_VERSION_OFFSET. simpl flags_bits.
  change LOCAL_VERSION_MASK with (N.ones 7).
  by rewrite N.land_ones, N.shiftr_div_pow2.
Qed.

(** The two fields of a flag byte determine it. *)
Definition flags_fields (f : Flags) : bool * N := (flags_has_epoch f, flags_local_segment_index f).

Lemma flags_with_has_epoch_fields f b :
  (flags_bits f < 256)%N →
  flags_fields (flags_with_has_epoch f b) = (b, flags_local_segment_index f) ∧
  (flags_bits (flags_with_has_epoch f b) < 256)%N.
Proof.
  destruct f as [x]. simpl. intros Hx.
  exhaust 256%N (λ x, forallb (λ b,
    bool_decide (flags_fields (flags_with_has_epoch (mkFlags x) b) =
      (b, flags_local_segment_index (mkFlags x)) ∧
      (flags_bits (flags_with_has_epoch (mkFlags x) b) < 256)%N)) [true; false]) x H.
  cbn [forallb] in H. bool_hyps. by destruct b.
Qed.

Lemma flags_with_local_fields f i :
  (flags_bits f < 256)%N → (i <= 127)%N →
  ∃ g, flags_with_local_segment_index f i = Some g ∧
    flags_fields g = (flags_has_epoch f, i) ∧ (flags_bits g < 256)%N.
Proof.
  destruct f as [x]. simpl. intros Hx Hi.
  exhaust 256%N (λ x, forallb (λ i,
    match flags_with_local_segment_index (mkFlags x) i with
    | Some g => bool_decide (flags_fields g = (flags_has_epoch (mkFlags x), i) ∧
        (flags_bits g < 256)%N)
    | None => false end) (N.of_nat <$> seq 0 128)) x H.
  rewrite forallb_forall in H. specialize (H i (In_N_seq 128 i ltac:(lia))).
  destruct (flags_with_local_segment_index _ i); [|done]. bool_hyps. eauto.
Qed.

Lemma flags_with_local_too_large f i :
  (127 < i)%N → flags_with_local_segment_index f i = None.
Proof.
  intros H. unfold flags_with_local_segment_index.
  change LOCAL_VERSION_MASK with 127%N. by rewrite (proj2 (N.ltb_lt _ _) H).
Qed.

(** A flag byte is determined by its fields. *)
Lemma flags_eta f e i :
  (flags_bits f < 256)%N → flags_fields f = (e, i) →
  f = mkFlags ((if e : bool then 1 else 0) + 2 * i)%N.
Proof.
  destruct f as [x]. unfold flags_fields. simpl.
  rewrite flags_has_epoch_arith, flags_local_arith. intros Hx [= <- <-].
  rewrite (N.mod_small (x / 2)) by (apply N.Div0.div_lt_upper_bound; lia).
  f_equal. pose proof (N.mod_lt x 2 ltac:(lia)). pose proof (N.div_mod x 2 ltac:(lia)).
  destruct (N.eqb_spec (x mod 2) 1); lia.
Qed.

(** ** Packing laws of [Segment] *)
Lemma segment_len_arith x : segment_len (mkSegment x) = (x mod 8192)%N.
Proof.
  unfold segment_len, COMPONENT_COUNT_OFFSET. simpl seg_bits.
  rewrite N.shiftr_0_r. change COMPONENT_COUNT_MASK with (N.ones 13). by rewrite N.land_ones.
Qed.

(** The three fields of a segment descriptor. *)
Definition seg_fields (s : Segment) : N * option N * bool :=
  (segment_len s, segment_separator s, segment_has_implicit_default s).

(** Two descriptors with the same fields are the same. *)
Lemma seg_fields_inj s t :
  (seg_bits s < 65536)%N → (seg_bits t < 65536)%N → seg_fields s = seg_fields t → s = t.
Proof.
  pose (code (f : N * option N * bool) := (f.1.1 +
    8192 * match f.1.2 with None => 0 | Some c =>
      if (c =? c_dash)%N then 1 else if (c =? c_under)%N then 2 else 3 end +
    32768 * if f.2 then 1 else 0)%N).
  assert (∀ x, (x < 65536)%N → code (seg_fields (mkSegment x)) = x) as H.
  { intros x Hx. apply N.eqb_eq.
    apply (N_forall_below 65536 (λ x, (code (seg_fields (mkSegment x)) =? x)%N));
      [|done]. vm_compute. reflexivity. }
  destruct s as [x], t as [y]; simpl. intros Hx Hy E.
  f_equal. by rewrite <-(H x Hx), <-(H y Hy), E.
Qed.

Lemma segment_new_fields n :
  (n <= 8191)%N →
  ∃ s, segment_new n = Some s ∧ seg_fields s = (n, None, false) ∧ (seg_bits s < 65536)%N.
Proof.
  intros H.
  exhaust 8192%N (λ n, match segment_new n with
    | Some s => bool_decide (seg_fields s = (n, None, false) ∧ (seg_bits s < 65536)%N)
    | None => false end) n Hn.
  destruct (segment_new n) as [s|]; [|done]. bool_hyps. eauto.
Qed.

Lemma segment_new_too_large n : (8191 < n)%N → segment_new n = None.
Proof.
  intros H. unfold segment_new. change COMPONENT_COUNT_MASK with 8191%N.
  by rewrite (proj2 (N.ltb_lt _ _) H).
Qed.

Lemma segment_with_implicit_default_fields s b :
  (seg_bits s < 65536)%N →
  seg_fields (segment_with_implicit_default s b) = (segment_len s, segment_separator s, b) ∧
  (seg_bits (segment_with_implicit_default s b) < 65536)%N.
Proof.
  destruct s as [x]; simpl. intros Hx.
  exhaust 65536%N (λ x, forallb (λ b, bool_decide
    (seg_fields (segment_with_implicit_default (mkSegment x) b) =
      (segment_len (mkSegment x), segment_separator (mkSegment x), b) ∧
    (seg_bits (segment_with_implicit_default (mkSegment x) b) < 65536)%N)) [true; false]) x H.
  cbn [forallb] in H. bool_hyps. by destruct b.
Qed.

(** The separators a segment can have. *)
Definition is_separator (o : option N) : Prop :=
  match o with None => True | Some c => c = c_dash ∨ c = c_under ∨ c = c_dot end.

Lemma segment_with_separator_fields s sep :
  (seg_bits s < 65536)%N → is_separator sep →
  ∃ t, segment_with_separator s sep = Some t ∧
    seg_fields t = (segment_len s, sep, segment_has_implicit_default s) ∧
    (seg_bits t < 65536)%N.
Proof.
  destruct s as [x]; simpl. intros Hx Hsep.
  exhaust 65536%N (λ x, forallb (λ sep,
    match segment_with_separator (mkSegment x) sep with
    | Some t => bool_decide (seg_fields t = (segment_len (mkSegment x), sep,
        segment_has_implicit_default (mkSegment x)) ∧ (seg_bits t < 65536)%N)
    | None => false end) [None; Some c_dash; Some c_under; Some c_dot]) x H.
  rewrite forallb_forall in H. specialize (H sep).
  destruct (segment_with_separator (mkSegment x) sep) as [t|].
  - exists t. enough (In sep [None; Some c_dash; Some c_under; Some c_dot]) as Hin.
    { specialize (H Hin). by bool_hyps. }
    destruct sep; simpl in *; naive_solver.
  - exfalso. enough (false = true) by done. apply H.
    destruct sep; simpl in *; naive_solver.
Qed.

Lemma segment_without_separator_fields s :
  (seg_bits s < 65536)%N →
  seg_fields (segment_without_separator s) = (segment_len s, None, segment_has_implicit_default s) ∧
  (seg_bits (segment_without_separator s) < 65536)%N.
Proof.
  destruct s as [x]; simpl. intros Hx.
  exhaust 65536%N (λ x, bool_decide
    (seg_fields (segment_without_separator (mkSegment x)) =
      (segment_len (mkSegment x), None, segment_has_implicit_default (mkSegment x)) ∧
    (seg_bits (segment_without_separator (mkSegment x)) < 65536)%N)) x H.
  by apply bool_decide_eq_true in H.
Qed.

Lemma segment_with_component_count_fields s n :
  (seg_bits s < 65536)%N → (n <= 8191)%N →
  ∃ t, segment_with_component_count s n = Some t ∧
    seg_fields t = (n, segment_separator s, segment_has_implicit_default s) ∧
    (seg_bits t < 65536)%N.
Proof.
  destruct s as [x]; simpl. intros Hx Hn. unfold segment_with_component_count.
  change COMPONENT_COUNT_MASK with (N.ones 13). rewrite N.land_ones.
  change (N.ones 13) with 8191%N. change (2 ^ 13)%N with 8192%N.
  rewrite (proj2 (N.ltb_ge _ _)) by lia. eexists; split; [done|]. simpl.
  exhaust 65536%N (λ x, (N.land x (not_u16 (N.shiftl 8191 COMPONENT_COUNT_OFFSET)) =?
    x / 8192 * 8192)%N) x E. apply N.eqb_eq in E. rewrite E.
  unfold COMPONENT_COUNT_OFFSET. rewrite N.shiftl_0_r, N.mod_small by lia.
  change 8192%N with (2 ^ 13)%N. rewrite lor_low by (simpl; lia). change (2 ^ 13)%N with 8192%N.
  split; [|simpl; lia]. unfold seg_fields. rewrite segment_len_arith.
  unfold segment_separator, segment_has_implicit_default.
  unfold SEGMENT_SEPARATOR_OFFSET, IMPLICIT_DEFAULT_ZERO_OFFSET. simpl seg_bits.
  rewrite !N.shiftr_div_pow2. change (2 ^ 13)%N with 8192%N. change (2 ^ 15)%N with 32768%N.
  replace ((x / 8192 * 8192 + n) / 8192)%N with (x / 8192)%N by lia.
  replace ((x / 8192 * 8192 + n) / 32768)%N with (x / 32768)%N by lia.
  do 2 f_equal. lia.
Qed.

(** From here on the packed words are used through their laws only. *)
#[global] Opaque flags_has_epoch flags_local_segment_index flags_with_has_epoch
  flags_with_local_segment_index segment_len segment_separator segment_has_implicit_default
  segment_new segment_with_separator segment_with_implicit_default
  segment_with_component_count segment_without_separator.

(** ** The accessors on packed versions *)
Lemma wf_segment_len s : wf_segment s → N.to_nat (segment_len (si_segment s)) = length (si_raw s).
Proof. intros [_ ->]. lia. Qed.

Lemma segment_iters_pack pre l post :
  Forall wf_segment l →
  segment_iters (pre ++ concat (si_raw <$> l) ++ post) (length pre) (si_segment <$> l) = Some l.
Proof.
  intros H. revert pre. induction H as [|s l Hs H IH]; intros pre; [done|]. csimpl.
  rewrite wf_segment_len, <-app_assoc, slice_app by done. csimpl.
  rewrite app_assoc, <-length_app, IH. by destruct s.
Qed.

Lemma total_len_pack l :
  Forall wf_segment l → total_len (si_segment <$> l) = length (concat (si_raw <$> l)).
Proof.
  induction 1 as [|s l Hs H IH]; [done|]. csimpl.
  unfold total_len in *. simpl. rewrite IH, wf_segment_len by done. by rewrite length_app.
Qed.

Section pack.
Context (p : parts) (Hp : wf_parts p).

Lemma pack_has_epoch : version_has_epoch (pack p) = bool_decide (is_Some (p_epoch p)).
Proof.
  unfold version_has_epoch, pack. simpl flags. rewrite flags_has_epoch_arith.
  destruct (p_epoch p); simpl; [apply N.eqb_eq|apply N.eqb_neq]; lia.
Qed.

Lemma pack_local_index :
  version_local_segment_index (pack p) =
  match p_local p with [] => None | _ => Some (length (p_release p)) end.
Proof.
  unfold version_local_segment_index, pack. simpl flags. rewrite flags_local_arith.
  destruct Hp as [Hne Hb _ _].
  destruct (p_local p) as [|s l].
  - by destruct (p_epoch p).
  - assert (length (p_release p) ≤ 127) by (by apply Hb).
    assert (length (p_release p) ≠ 0) by (by destruct (p_release p)).
    replace (_ `div` 2 `mod` 128)%N with (N.of_nat (length (p_release p)))
      by (destruct (p_epoch p); lia).
    rewrite (proj2 (N.ltb_lt _ _)) by lia. f_equal. lia.
Qed.

Lemma pack_has_local :
  version_has_local (pack p) = match p_local p with [] => false | _ => true end.
Proof.
  pose proof pack_local_index as H. unfold version_local_segment_index in H.
  unfold version_has_local. by destruct (0 <? _)%N, (p_local p).
Qed.

Lemma pack_epoch_opt : version_epoch_opt (pack p) = Some (p_epoch p).
Proof. unfold version_epoch_opt. rewrite pack_has_epoch. by destruct (p_epoch p) eqn:E; simpl; rewrite ?E. Qed.

Lemma pack_epoch : version_epoch (pack p) = Some (default 0%N (p_epoch p)).
Proof. unfold version_epoch. by rewrite pack_epoch_opt. Qed.

Lemma pack_epoch_offset : epoch_offset (pack p) = length (epoch_components (p_epoch p)).
Proof. unfold epoch_offset. rewrite pack_has_epoch. by destruct (p_epoch p). Qed.

Lemma pack_segments : version_segments (pack p) = Some (p_release p).
Proof.
  unfold version_segments. rewrite pack_local_index, pack_epoch_offset.
  destruct Hp as [_ _ Hr _]. unfold pack. simpl.
  destruct (p_local p) as [|s l] eqn:El; simpl.
  - rewrite (app_nil_r (si_segment <$> _)). by apply segment_iters_pack.
  - rewrite slice_prefix by (by rewrite length_fmap). simpl. by apply segment_iters_pack.
Qed.

Lemma pack_local_segments : version_local_segments (pack p) = Some (p_local p).
Proof.
  unfold version_local_segments. rewrite pack_local_index, pack_epoch_offset.
  destruct Hp as [_ _ Hr Hl]. unfold pack. simpl.
  destruct (p_local p) as [|s l] eqn:El; [done|]. rewrite <-El in *.
  rewrite slice_prefix by (by rewrite length_fmap). simpl.
  rewrite slice_suffix by (by rewrite length_fmap). simpl.
  rewrite total_len_pack by done. rewrite <-length_app.
  rewrite <-(app_nil_r (concat (si_raw <$> p_local p))), !app_assoc, <-(app_assoc (_ ++ _)).
  by apply segment_iters_pack.
Qed.

Lemma pack_segment_count : version_segment_count (pack p) = length (p_release p).
Proof.
  unfold version_segment_count. rewrite pack_local_index. destruct (p_local p) eqn:E; [|done].
  unfold pack. simpl. rewrite E. simpl. by rewrite app_nil_r, length_fmap.
Qed.
End pack.

#[export] Hint Rewrite pack_has_epoch pack_local_index pack_has_local pack_epoch_opt
  pack_epoch pack_epoch_offset pack_segments pack_local_segments pack_segment_count
  using assumption : rattler.

(** Replaces the accessors of a packed version by the fields of its abstract view. *)
Ltac unpack := repeat (progress autorewrite with rattler); cbn [mbind option_bind].
