(* ===== verification/VersionOrder.v ===== *)
(** * Ordering, equality and hashing of versions

    [Ord], [PartialEq] and [Hash] of [Component], [Version] and
    [StrictVersion] in [rattler_conda_version/src/version/mod.rs].

    The specification of a list of segments is its component matrix
    ([cell]): segment [i], component [j], the number [0] outside the list.
    [Ord] is the lexicographic order of the matrices, [PartialEq] is their
    equality, and equal matrices produce equal hash input. *)
From S2P Require Import Prelude Externs VersionRepr.

(** ** Definitions *)

(** [Ord for Component] *)
Definition component_cmp (self other : Component) : comparison :=
  match self, other with
  | Numeral _, (Iden _ | UnderscoreOrDash _) => Gt
  | (Iden _ | UnderscoreOrDash _), Numeral _ => Lt
  | Numeral a, Numeral b => N.compare a b
  | Iden a, Iden b => str_cmp a b
  | Post, Post => Eq
  | Dev, Dev => Eq
  | UnderscoreOrDash _, UnderscoreOrDash _ => Eq
  | UnderscoreOrDash _, Iden _ => Lt
  | Iden _, UnderscoreOrDash _ => Gt
  | Post, _ => Gt
  | _, Post => Lt
  | Dev, _ => Lt
  | _, Dev => Gt
  end.

Definition DEFAULT_COMPONENT : Component := Numeral 0.

Definition component_at (has_implicit_default : bool) (components : list Component)
    (index : nat) : Component :=
  match has_implicit_default, index with
  | true, 0 => DEFAULT_COMPONENT
  | true, S index => default DEFAULT_COMPONENT (components !! index)
  | false, index => default DEFAULT_COMPONENT (components !! index)
  end.

(** [segment.map_or((false, &[]), SegmentIter::raw_components)] *)
Definition raw_or_empty (s : option SegmentIter) : bool * list Component :=
  match s with Some s => si_raw_components s | None => (false, []) end.

Definition raw_len (r : bool * list Component) : nat :=
  length r.2 + (if r.1 then 1 else 0).

(** What a write to a [Hasher] contributes: a hash is a function of the
    sequence of writes. *)
Inductive HashWrite : Type :=
| HashU64 (n : N)
| HashComponent (c : Component)
| HashSource (s : option (list N)).

#[export] Instance hash_write_eq_dec : EqDecision HashWrite.
Proof. solve_decision. Defined.

(** [hash_segments] of [Hash for Version]; [pending] counts the default
    segments not written yet. *)
Fixpoint hash_segments (pending_default_segments : nat) (segments : list SegmentIter)
  : list HashWrite :=
  match segments with
  | [] => []
  | segment :: rest =>
      let comps := skip_while (λ c, bool_decide (c = component_default))
                     (rev (si_components segment)) in
      match comps with
      | [] => hash_segments (S pending_default_segments) rest
      | _ => replicate pending_default_segments (HashComponent component_default)
             ++ (HashComponent <$> comps) ++ hash_segments 0 rest
      end
  end.

Definition version_hash (v : Version) : option (list HashWrite) :=
  e ← version_epoch v;
  s ← version_segments v;
  l ← version_local_segments v;
  Some (HashU64 e :: hash_segments 0 s ++ hash_segments 0 l).

(** [hash_segments] of [Hash for StrictVersion] *)
Definition strict_hash_segments (segments : list SegmentIter) : list HashWrite :=
  concat ((λ segment, HashComponent <$> rev (si_components segment)) <$> segments).

Definition strict_version_hash (v : Version) : option (list HashWrite) :=
  e ← version_epoch v;
  s ← version_segments v;
  l ← version_local_segments v;
  Some (HashU64 e :: strict_hash_segments s ++ strict_hash_segments l).

Section order.
Context `{IT : Itertools}.

Definition compare_segments (a b : list SegmentIter) : comparison :=
  for_cmp (zip_longest a b) (λ segments,
    let a_raw := raw_or_empty (eob_left segments) in
    let b_raw := raw_or_empty (eob_right segments) in
    for_cmp (seq 0 (Nat.max (raw_len a_raw) (raw_len b_raw))) (λ index,
      component_cmp (component_at a_raw.1 a_raw.2 index)
                    (component_at b_raw.1 b_raw.2 index))).

Definition segments_equal (a b : list SegmentIter) : bool :=
  forallb (λ segments,
    let a_raw := raw_or_empty (eob_left segments) in
    let b_raw := raw_or_empty (eob_right segments) in
    forallb (λ index,
      bool_decide (component_at a_raw.1 a_raw.2 index = component_at b_raw.1 b_raw.2 index))
      (seq 0 (Nat.max (raw_len a_raw) (raw_len b_raw)))) (zip_longest a b).

(** [Ord for Version] *)
Definition version_cmp (v w : Version) : option comparison :=
  ev ← version_epoch v; ew ← version_epoch w;
  sv ← version_segments v; sw ← version_segments w;
  lv ← version_local_segments v; lw ← version_local_segments w;
  Some (then_with (N.compare ev ew)
          (then_with (compare_segments sv sw) (compare_segments lv lw))).

(** [PartialEq for Version] *)
Definition version_eqb (v w : Version) : option bool :=
  ev ← version_epoch v; ew ← version_epoch w;
  sv ← version_segments v; sw ← version_segments w;
  lv ← version_local_segments v; lw ← version_local_segments w;
  Some ((ev =? ew)%N && segments_equal sv sw && segments_equal lv lw).

(** [PartialEq for StrictVersion] *)
Definition strict_version_eqb (v w : Version) : option bool :=
  if (length (components v) =? length (components w))%nat then version_eqb v w
  else Some false.

(** [Ord for StrictVersion] *)
Definition strict_version_cmp (v w : Version) : option comparison :=
  c ← version_cmp v w;
  Some (then_with c (Nat.compare (length (components v)) (length (components w)))).
End order.

(** ** The component matrix *)

Definition seg_cell (s : option SegmentIter) (j : nat) : Component :=
  match s with
  | Some s => default DEFAULT_COMPONENT (si_components s !! j)
  | None => DEFAULT_COMPONENT
  end.
Definition cell (l : list SegmentIter) (i j : nat) : Component := seg_cell (l !! i) j.

(** The width of the widest segment. *)
Definition width (l : list SegmentIter) : nat :=
  foldr (λ s w, Nat.max (length (si_components s)) w) 0 l.

(** Lexicographic order of the upper left [n × m] corners of two matrices. *)
Definition corner_cmp (n m : nat) (f g : nat → nat → Component) : comparison :=
  for_cmp (seq 0 n) (λ i, for_cmp (seq 0 m) (λ j, component_cmp (f i j) (g i j))).

(** [_] and [-] are told apart by equality, not by the order. *)
Definition forget_dash (c : Component) : Component :=
  match c with UnderscoreOrDash _ => UnderscoreOrDash true | c => c end.

(** ** Components *)
Definition component_rank (c : Component) : N :=
  match c with Dev => 0 | UnderscoreOrDash _ => 1 | Iden _ => 2 | Numeral _ => 3 | Post => 4 end.
Definition component_num (c : Component) : N := match c with Numeral n => n | _ => 0%N end.
Definition component_str (c : Component) : list N := match c with Iden s => s | _ => [] end.

(** Kinds are ordered [Dev < _ < identifiers < numbers < Post], then numbers by
    value and identifiers by their text. *)
Lemma component_cmp_key x y :
  component_cmp x y =
  then_with (N.compare (component_rank x) (component_rank y))
    (then_with (N.compare (component_num x) (component_num y))
      (str_cmp (component_str x) (component_str y))).
Proof.
  assert (∀ n, N.compare n n = Eq) as Hn by apply N.compare_refl.
  destruct x, y; simpl; rewrite ?Hn, ?then_with_Eq_r; done.
Qed.

#[export] Instance component_cmp_preorder : TotalPreorder component_cmp.
Proof.
  pose proof (then_with_preorder (λ x y, N.compare (component_rank x) (component_rank y))
    (λ x y, then_with (N.compare (component_num x) (component_num y))
      (str_cmp (component_str x) (component_str y)))) as H.
  lapply H; [clear H; intros H|by apply (on_key_preorder component_rank), _].
  lapply H; [clear H; intros H|].
  - destruct H as [Ho Ht]. split; intros *; rewrite !component_cmp_key; [apply Ho|apply Ht].
  - apply then_with_preorder;
      [apply (on_key_preorder component_num), _|apply (on_key_preorder component_str), _].
Qed.

Lemma component_cmp_Eq x y : component_cmp x y = Eq ↔ forget_dash x = forget_dash y.
Proof.
  destruct x, y; simpl; try naive_solver;
    rewrite ?(cmp_eq_iff N.compare), ?(cmp_eq_iff str_cmp); naive_solver.
Qed.

(** ** Segments as rows *)
Lemma raw_len_row s : raw_len (raw_or_empty s) = match s with Some s => length (si_components s) | None => 0 end.
Proof.
  destruct s as [s|]; [|done]. unfold raw_len, raw_or_empty, si_components. simpl.
  destruct (si_has_implicit_default s); simpl; lia.
Qed.

Lemma component_at_cell s j :
  component_at (raw_or_empty s).1 (raw_or_empty s).2 j = seg_cell s j.
Proof.
  destruct s as [s|]; [|done]. unfold raw_or_empty, si_raw_components, seg_cell, si_components. simpl.
  by destruct (si_has_implicit_default s), j.
Qed.

Lemma seg_cell_beyond s j : raw_len (raw_or_empty s) ≤ j → seg_cell s j = DEFAULT_COMPONENT.
Proof.
  rewrite raw_len_row. destruct s as [s|]; [|done]. simpl. intros H.
  by rewrite lookup_ge_None_2.
Qed.

Lemma width_lookup l i : raw_len (raw_or_empty (l !! i)) ≤ width l.
Proof.
  rewrite raw_len_row. revert i. induction l as [|s l IH]; intros [|i]; simpl; [lia..|].
  specialize (IH i). destruct (l !! i); lia.
Qed.

Section order_laws.
Context `{IT : Itertools}.

(** Comparing segment lists is comparing any sufficiently large corner. *)
Lemma compare_segments_corner a b n m :
  length a ≤ n → length b ≤ n → width a ≤ m → width b ≤ m →
  compare_segments a b = corner_cmp n m (cell a) (cell b).
Proof.
  intros Ha Hb Hwa Hwb. unfold compare_segments.
  rewrite (for_cmp_zip_longest a b (λ x y,
    for_cmp (seq 0 (Nat.max (raw_len (raw_or_empty x)) (raw_len (raw_or_empty y))))
     (λ j, component_cmp (component_at (raw_or_empty x).1 (raw_or_empty x).2 j)
                         (component_at (raw_or_empty y).1 (raw_or_empty y).2 j)))).
  assert (∀ i, for_cmp (seq 0 (Nat.max (raw_len (raw_or_empty (a !! i)))
      (raw_len (raw_or_empty (b !! i)))))
     (λ j, component_cmp (component_at (raw_or_empty (a !! i)).1 (raw_or_empty (a !! i)).2 j)
                (component_at (raw_or_empty (b !! i)).1 (raw_or_empty (b !! i)).2 j)) =
    for_cmp (seq 0 m) (λ j, component_cmp (cell a i j) (cell b i j))) as Hrow.
  { intros i. pose proof (width_lookup a i). pose proof (width_lookup b i).
    rewrite (for_cmp_ext _ _ (λ j, component_cmp (cell a i j) (cell b i j)))
      by (intros j _; by rewrite !component_at_cell).
    symmetry. apply for_cmp_seq_extend; [lia|]. intros j Hj. unfold cell.
    rewrite !seg_cell_beyond by lia. done. }
  rewrite (for_cmp_ext _ _ _ (λ i _, Hrow i)). symmetry.
  apply for_cmp_seq_extend; [lia|]. intros i Hi. apply for_cmp_Eq. intros j _.
  unfold cell. by rewrite !lookup_ge_None_2 by lia.
Qed.

#[export] Instance corner_cmp_preorder n m : TotalPreorder (corner_cmp n m).
Proof.
  apply (for_cmp_preorder (seq 0 n)
    (λ f g : nat → Component, for_cmp (seq 0 m) (λ j, component_cmp (f j) (g j)))).
  apply (for_cmp_preorder (seq 0 m) component_cmp), _.
Qed.

#[export] Instance compare_segments_preorder : TotalPreorder compare_segments.
Proof.
  split.
  - intros a b. set (n := length a `max` length b). set (m := width a `max` width b).
    rewrite !(compare_segments_corner _ _ n m) by lia. apply (cmp_opp _).
  - intros a b c. set (n := length a `max` length b `max` length c).
    set (m := width a `max` width b `max` width c).
    rewrite !(compare_segments_corner _ _ n m) by lia. apply (cmp_le_trans _).
Qed.
End order_laws.

(** ** Equality and hashing *)
Lemma cell_beyond l i j : length l ≤ i ∨ width l ≤ j → cell l i j = DEFAULT_COMPONENT.
Proof.
  unfold cell. intros [H|H]; [by rewrite lookup_ge_None_2|].
  apply seg_cell_beyond. pose proof (width_lookup l i). lia.
Qed.

(** A property of pairs of cells holds everywhere when it holds in a corner
    that contains both matrices, and of two default cells. *)
Lemma corner_forall n m (P : nat → nat → Prop) a b :
  length a ≤ n → length b ≤ n → width a ≤ m → width b ≤ m →
  (∀ i j, cell a i j = DEFAULT_COMPONENT → cell b i j = DEFAULT_COMPONENT → P i j) →
  (∀ i j, i < n → j < m → P i j) →
  ∀ i j, P i j.
Proof.
  intros Ha Hb Hwa Hwb Hd H i j.
  destruct (decide (i < n ∧ j < m)) as [[??]|Hij]; [by apply H|].
  apply Hd; apply cell_beyond; lia.
Qed.

Section order_spec.
Context `{IT : Itertools}.

(** [Ordering::Equal] is equality of the matrices up to the dash flag. *)
Lemma compare_segments_Eq a b :
  compare_segments a b = Eq ↔ ∀ i j, forget_dash (cell a i j) = forget_dash (cell b i j).
Proof.
  set (n := length a `max` length b). set (m := width a `max` width b).
  rewrite (compare_segments_corner a b n m) by lia. unfold corner_cmp.
  rewrite for_cmp_Eq. setoid_rewrite for_cmp_Eq. setoid_rewrite elem_of_seq.
  setoid_rewrite component_cmp_Eq. split; [intros H|naive_solver].
  apply (corner_forall n m _ a b); [lia..|by intros i j -> ->|].
  intros i j ? ?. apply H; lia.
Qed.

(** A strict ordering is decided at the first cell, row by row, where the
    matrices differ. *)
Lemma compare_segments_decided a b c :
  c ≠ Eq →
  compare_segments a b = c ↔
  ∃ i j, component_cmp (cell a i j) (cell b i j) = c ∧
    ∀ i' j', i' < i ∨ (i' = i ∧ j' < j) →
      forget_dash (cell a i' j') = forget_dash (cell b i' j').
Proof.
  intros Hc. set (n := length a `max` length b). set (m := width a `max` width b).
  rewrite (compare_segments_corner a b n m) by lia. unfold corner_cmp.
  rewrite for_cmp_seq_decided by done. setoid_rewrite <-component_cmp_Eq.
  assert (∀ i j, m ≤ j → cell a i j = cell b i j) as Hm.
  { intros i j Hj. by rewrite !cell_beyond by lia. }
  assert (∀ i j, n ≤ i → cell a i j = cell b i j) as Hn.
  { intros i j Hi. by rewrite !cell_beyond by lia. }
  assert (∀ i j, cell a i j = cell b i j → component_cmp (cell a i j) (cell b i j) = Eq) as Heq
    by (intros i j ->; apply (cmp_refl component_cmp)).
  split.
  - intros (i & Hi & Hr & Hb). apply for_cmp_seq_decided in Hr as (j & Hj & Hr & Hbj); [|done].
    exists i, j. split; [done|]. intros i' j' [?|[-> ?]]; [|apply Hbj; lia].
    specialize (Hb i' ltac:(lia)). rewrite for_cmp_Eq in Hb.
    destruct (decide (j' < m)); [apply Hb, elem_of_seq; lia|apply Heq, Hm; lia].
  - intros (i & j & Hr & Hb).
    assert (i < n) as Hi by (apply Nat.lt_nge; intros ?; apply Hc; rewrite <-Hr; apply Heq, Hn; lia).
    assert (j < m) as Hj by (apply Nat.lt_nge; intros ?; apply Hc; rewrite <-Hr; apply Heq, Hm; lia).
    exists i. split; [lia|]. split.
    + apply for_cmp_seq_decided; [done|]. exists j. split; [lia|]. split; [done|].
      intros; apply Hb; lia.
    + intros i' Hi'. apply for_cmp_Eq. intros; apply Hb; lia.
Qed.

Lemma segments_equal_spec a b :
  segments_equal a b = true ↔ ∀ i j, cell a i j = cell b i j.
Proof.
  unfold segments_equal. rewrite forallb_forall.
  setoid_rewrite forallb_forall. setoid_rewrite bool_decide_eq_true.
  setoid_rewrite component_at_cell. setoid_rewrite <-list_elem_of_In.
  setoid_rewrite elem_of_seq. split.
  - intros H i j. destruct (decide (j < Nat.max (raw_len (raw_or_empty (a !! i)))
      (raw_len (raw_or_empty (b !! i))))) as [Hj|Hj];
      [|unfold cell; rewrite !seg_cell_beyond by lia; done].
    destruct (zip_longest a b !! i) as [e|] eqn:E.
    + assert (eob_left e = a !! i ∧ eob_right e = b !! i) as [El Er].
      { rewrite zip_longest_lookup in E. destruct (a !! i), (b !! i); naive_solver. }
      unfold cell. rewrite <-El, <-Er. apply H; [by eapply list_elem_of_lookup_2|].
      rewrite El, Er. lia.
    + rewrite zip_longest_lookup in E. unfold cell. by destruct (a !! i), (b !! i).
  - intros H e [i E]%list_elem_of_lookup j _. specialize (H i j). unfold cell in H.
    rewrite zip_longest_lookup in E. destruct (a !! i), (b !! i); naive_solver.
Qed.
End order_spec.

(** Removing the trailing default components, from the left. *)
Fixpoint rstrip (l : list Component) : list Component :=
  match l with
  | [] => []
  | c :: l' =>
      match rstrip l' with
      | [] => if bool_decide (c = component_default) then [] else [c]
      | k => c :: k
      end
  end.

Lemma skip_while_app {A} (p : A → bool) l k :
  skip_while p (l ++ k) = match skip_while p l with [] => skip_while p k | r => r ++ k end.
Proof. induction l as [|x l IH]; simpl; [done|]. by destruct (p x). Qed.

Lemma skip_while_rev l :
  skip_while (λ c, bool_decide (c = component_default)) (rev l) = rev (rstrip l).
Proof.
  induction l as [|c l IH]; simpl; [done|]. rewrite skip_while_app, IH.
  destruct (rstrip l) as [|d k]; simpl; [by destruct (bool_decide _)|].
  by destruct (rev k ++ [d]) eqn:E; [destruct (rev k)|].
Qed.

Lemma rstrip_nil l : rstrip l = [] ↔ ∀ j, default component_default (l !! j) = component_default.
Proof.
  induction l as [|c l IH]; simpl; [done|]. split.
  - destruct (rstrip l); [|done]. case_bool_decide; [|done].
    intros _ [|j]; simpl; [done|]. by apply IH.
  - intros H. rewrite (proj2 IH) by (intros j; apply (H (S j))).
    pose proof (H 0) as H0. simpl in H0. subst. done.
Qed.

(** Rows that agree cell by cell are stripped to the same list. *)
Lemma rstrip_ext l k :
  (∀ j, default component_default (l !! j) = default component_default (k !! j)) →
  rstrip l = rstrip k.
Proof.
  revert k. induction l as [|c l IH]; intros k H.
  { symmetry. apply rstrip_nil. intros j. by rewrite <-H. }
  destruct k as [|d k]; [apply rstrip_nil; intros j; by rewrite H|].
  pose proof (H 0) as H0. simpl in H0. subst d. simpl.
  by rewrite (IH k) by (intros j; apply (H (S j))).
Qed.

Lemma hash_segments_default pending l :
  (∀ i j, cell l i j = DEFAULT_COMPONENT) → hash_segments pending l = [].
Proof.
  revert pending. induction l as [|s l IH]; intros pending H; simpl; [done|].
  rewrite skip_while_rev, (proj2 (rstrip_nil _)) by (intros j; apply (H 0)).
  apply IH. intros i. apply (H (S i)).
Qed.

(** Equal matrices are written to the hasher alike. *)
Lemma hash_segments_ext pending a b :
  (∀ i j, cell a i j = cell b i j) → hash_segments pending a = hash_segments pending b.
Proof.
  revert pending b. induction a as [|s a IH]; intros pending b H.
  { symmetry. apply hash_segments_default. intros. by rewrite <-H. }
  destruct b as [|t b]; [apply hash_segments_default; intros; by rewrite H|].
  simpl. rewrite !skip_while_rev, (rstrip_ext (si_components s) (si_components t))
    by (intros j; apply (H 0)).
  by rewrite !(IH _ b) by (intros i; apply (H (S i))).
Qed.
