(* ===== verification/VersionOps.v ===== *)
(** * Operations on versions

    Prefix and compatible matching, segment selection, extension, local parts
    and bumping: [rattler_conda_version/src/version/mod.rs] (lines 268-551) and
    [version/bump.rs].  Every operation works on the packed representation as
    the source does; the theorems say what it does to the abstract view. *)
From S2P Require Import Prelude Externs VersionRepr VersionOrder.

(** ** Definitions *)

(** The body of the inner loop of [segments_starts_with]: an early [return
    false], or the value of [had_extra_left] after the loop. *)
Inductive RowOutcome : Type :=
| RowMismatch
| RowDone (had_extra_left : bool).

Fixpoint row_starts_with (values : list (EitherOrBoth Component Component)) : RowOutcome :=
  match values with
  | [] => RowDone false
  | Both a b :: rest => if bool_decide (a = b) then row_starts_with rest else RowMismatch
  | ELeft _ :: _ => RowDone true
  | ERight component :: rest =>
      if component_is_zero component then row_starts_with rest else RowMismatch
  end.

(** The largest [usize], and whether the build checks additions for overflow: if it does they
    panic, otherwise they wrap around. *)
Class UsizeBuild := { usize_max : N; overflow_checks : bool }.
Definition usize_succ `{UsizeBuild} (n : N) : option N :=
  if (n =? usize_max)%N then (if overflow_checks then None else Some 0%N) else Some (n + 1)%N.

(** [std::ops::Bound<usize>] *)
Inductive Bound : Type := Included (n : N) | Excluded (n : N) | Unbounded.

(** The components pushed for a copied segment: the implicit default is
    skipped because the segment keeps its flag. *)
Definition stored_components (s : SegmentIter) : list Component :=
  drop (if si_has_implicit_default s then 1 else 0) (si_components s).

Definition first_without_separator (idx : nat) (s : SegmentIter) : Segment :=
  if (idx =? 0)%nat then segment_without_separator (si_segment s) else si_segment s.

(** The half-open range a pair of bounds stands for; [None] is an overflow. *)
Definition start_index `{UsizeBuild} (b : Bound) : option N :=
  match b with Included idx => Some idx | Excluded idx => usize_succ idx | Unbounded => Some 0%N end.
Definition end_index `{UsizeBuild} (b : Bound) (segment_count : nat) : option N :=
  match b with Included idx => usize_succ idx | Excluded idx => Some idx | Unbounded => Some (N.of_nat segment_count) end.

(** [with_segments] *)
Definition version_with_segments `{UsizeBuild} (v : Version) (start_bound end_bound : Bound)
  : option (option Version) :=
  let segment_count := version_segment_count v in
  start_segment_idx ← start_index start_bound;
  end_segment_idx ← end_index end_bound segment_count;
  if (N.of_nat segment_count <=? start_segment_idx)%N || (N.of_nat segment_count <? end_segment_idx)%N
     || (end_segment_idx <=? start_segment_idx)%N
  then Some None
  else
    epoch ← version_epoch v;
    let epoch_comps := if version_has_epoch v then [Numeral epoch] else [] in
    let flags0 := if version_has_epoch v then flags_with_has_epoch flags_default true
                  else flags_default in
    segs ← version_segments v;
    let picked := take (N.to_nat (end_segment_idx - start_segment_idx)) (drop (N.to_nat start_segment_idx) segs) in
    let release_segments := imap first_without_separator picked in
    locals ← version_local_segments v;
    let comps := epoch_comps ++ concat (stored_components <$> picked)
                 ++ concat (stored_components <$> locals) in
    flags ← (if version_has_local v then
               idx ← u8_try_from (length release_segments);
               flags_with_local_segment_index flags0 idx
             else Some flags0);
    Some (Some (mkVersion comps (release_segments ++ (si_segment <$> locals)) flags)).

(** [pop_segments] *)
Definition version_pop_segments `{UsizeBuild} (v : Version) (n : nat) : option (option Version) :=
  let segment_count := version_segment_count v in
  if (segment_count <? n)%nat then Some None
  else version_with_segments v Unbounded (Excluded (N.of_nat (segment_count - n))).

(** [strip_local]: copies [components()], the implicit defaults included. *)
Definition version_strip_local (v : Version) : option Version :=
  if version_has_local v then
    epoch ← version_epoch_opt v;
    segs ← version_segments v;
    let flags := match epoch with
                 | Some _ => flags_with_has_epoch flags_default true
                 | None => flags_default end in
    Some (mkVersion (epoch_components epoch ++ concat (si_components <$> segs))
            (si_segment <$> segs) flags)
  else Some v.

(** [remove_local] of [bump.rs] *)
Definition version_remove_local (v : Version) : option Version :=
  match version_local_segment_index v with
  | Some local_segment_index =>
      segs ← slice (segments v) 0 local_segment_index;
      let components_offset := total_len segs + epoch_offset v in
      comps ← (if decide (components_offset ≤ length (components v))
               then Some (take components_offset (components v)) else None);
      flags ← flags_with_local_segment_index (flags v) 0;
      Some (mkVersion comps segs flags)
  | None => Some v
  end.

Inductive VersionExtendError : Type := VersionTooLong.

(** [extend_to_length] *)
Definition version_extend_to_length (v : Version) (len : nat)
  : option (result VersionExtendError Version) :=
  if (len <=? version_segment_count v)%nat then Some (Ok v)
  else
    segs ← slice (segments v) 0 (version_segment_count v);
    let components_end := total_len segs + epoch_offset v in
    comps ← slice (components v) 0 components_end;
    segment0 ← segment_new 1;
    segment ← segment_with_separator segment0 (Some c_dot);
    let k := len - version_segment_count v in
    let comps := comps ++ replicate k (Numeral 0) in
    let segs := segs ++ replicate k segment in
    if version_has_local v then
      match flags_with_local_segment_index (flags v) (as_u8 (length segs)) with
      | None => Some (Err VersionTooLong)
      | Some flags =>
          locals ← version_local_segments v;
          Some (Ok (mkVersion (comps ++ concat (stored_components <$> locals))
                              (segs ++ (si_segment <$> locals)) flags))
      end
    else Some (Ok (mkVersion comps segs (flags v))).

(** [with_alpha] of [bump.rs] *)
Definition version_with_alpha (v : Version) : option Version :=
  segs ← version_segments v;
  last_segment ← last segs;
  if existsb (λ c, match component_as_iden c with Some _ => true | None => false end)
       (si_components last_segment)
  then Some v
  else
    let local_segment_index := default (length (segments v)) (version_local_segment_index v) in
    before ← slice (segments v) 0 local_segment_index;
    let components_offset := total_len before + epoch_offset v in
    segment0 ← segment_new 3;
    segment ← segment_with_separator segment0 (Some c_dot);
    after ← slice (segments v) local_segment_index (length (segments v));
    (* three [Vec::insert]s at consecutive offsets *)
    comps ← (if decide (components_offset ≤ length (components v))
             then Some (take components_offset (components v)
                        ++ [Numeral 0; Iden (txt "a"); Numeral 0]
                        ++ drop components_offset (components v))
             else None);
    flags ← match version_local_segment_index v with
            | Some local_segment_index =>
                flags_with_local_segment_index (flags v) (as_u8 (local_segment_index + 1))
            | None => Some (flags v)
            end;
    Some (mkVersion comps (before ++ [segment] ++ after) flags).

(** [VersionBumpType] and [VersionBumpError] *)
Inductive VersionBumpType : Type :=
| BumpMajor | BumpMinor | BumpPatch | BumpLast | BumpSegment (index : Z).
Inductive VersionBumpError : Type :=
| InvalidSegment (index : Z)
| BumpExtendError (e : VersionExtendError).

(** [iter_mut().find_map(as_number_mut)], then an update of what it found. *)
Fixpoint update_first_number (f : N → N) (l : list Component) : list Component :=
  match l with
  | [] => []
  | Numeral n :: l' => Numeral (f n) :: l'
  | c :: l' => c :: update_first_number f l'
  end.

(** [iter_mut().filter_map(as_number_mut).next_back()]: [None] when there is
    no number. *)
Fixpoint update_last_number (f : N → N) (l : list Component) : option (list Component) :=
  match l with
  | [] => None
  | c :: l' =>
      match update_last_number f l' with
      | Some k => Some (c :: k)
      | None => match c with Numeral n => Some (Numeral (f n) :: l') | _ => None end
      end
  end.

(** [iter_mut().filter_map(as_iden_mut).next_back()], set to [a] when found. *)
Fixpoint set_last_iden (l : list Component) : option (list Component) :=
  match l with
  | [] => None
  | c :: l' =>
      match set_last_iden l' with
      | Some k => Some (c :: k)
      | None => match c with Iden _ => Some (Iden (txt "a") :: l') | _ => None end
      end
  end.
Definition iden_to_a (l : list Component) : list Component := default l (set_last_iden l).

Definition incr (n : N) : N := u64_add n 1.
Definition zero_number (n : N) : N := 0%N.

(** The match on [bump_type] in the loop of [bump]. *)
Definition bump_components (bump_type : VersionBumpType) (segment_to_bump idx : nat)
    (segment_components : list Component) : option (list Component) :=
  match bump_type with
  | BumpMajor =>
      Some (if (idx =? 0)%nat then iden_to_a (update_first_number incr segment_components)
            else if (idx <=? 2)%nat then update_first_number zero_number segment_components
            else segment_components)
  | BumpMinor =>
      Some (if (idx =? 1)%nat then update_first_number incr segment_components
            else if (idx =? 2)%nat then update_first_number zero_number segment_components
            else segment_components)
  | BumpPatch =>
      Some (if (idx =? 2)%nat then iden_to_a (update_first_number incr segment_components)
            else segment_components)
  | BumpLast | BumpSegment _ =>
      if (segment_to_bump =? idx)%nat then
        comps ← update_last_number incr segment_components; Some (iden_to_a comps)
      else Some segment_components
  end.

(** One round of the loop of [bump]: the new segment and what is stored for it. *)
Definition bump_segment (bump_type : VersionBumpType) (segment_to_bump idx : nat)
    (s : SegmentIter) : option SegmentIter :=
  comps ← bump_components bump_type segment_to_bump idx (si_components s);
  has_implicit_default ←
    (if si_has_implicit_default s then c ← comps !! 0; Some (bool_decide (c = component_default))
     else Some false);
  let start_idx := if has_implicit_default : bool then 1 else 0 in
  let component_count := length comps in
  segment0 ← segment_new (as_u16 (component_count - start_idx));
  segment ← segment_with_separator (segment_with_implicit_default segment0 has_implicit_default)
              (si_separator s);
  Some (mkSegmentIter segment (drop start_idx comps)).

Fixpoint bump_segments (bump_type : VersionBumpType) (segment_to_bump idx : nat)
    (l : list SegmentIter) : option (list SegmentIter) :=
  match l with
  | [] => Some []
  | s :: l' =>
      t ← bump_segment bump_type segment_to_bump idx s;
      rest ← bump_segments bump_type segment_to_bump (S idx) l';
      Some (t :: rest)
  end.

(** The release segment [bump] works on. *)
Definition bump_target (bump_type : VersionBumpType) (segment_count : nat)
  : result VersionBumpError nat :=
  match bump_type with
  | BumpMajor => Ok 0
  | BumpMinor => Ok 1
  | BumpPatch => Ok 2
  | BumpLast => Ok (if (0 <? segment_count)%nat then segment_count - 1 else 0)
  | BumpSegment index_to_bump =>
      let computed_index :=
        if (index_to_bump <? 0)%Z then (index_to_bump + Z.of_nat segment_count)%Z
        else index_to_bump in
      if (computed_index <? 0)%Z then Err (InvalidSegment index_to_bump)
      else Ok (Z.to_nat computed_index)
  end.

(** [bump].  The local part is copied from [self] with the implicit defaults
    of its segments. *)
Definition version_bump (v : Version) (bump_type : VersionBumpType)
  : option (result VersionBumpError Version) :=
  match bump_target bump_type (version_segment_count v) with
  | Err e => Some (Err e)
  | Ok segment_to_bump =>
      extended ← version_extend_to_length v (segment_to_bump + 1);
      match extended with
      | Err e => Some (Err (BumpExtendError e))
      | Ok version =>
          epoch ← version_epoch_opt version;
          let flags := match epoch with
                       | Some _ => flags_with_has_epoch (flags version) true
                       | None => flags version end in
          segs ← version_segments version;
          bumped ← bump_segments bump_type segment_to_bump 0 segs;
          let comps := epoch_components epoch ++ concat (si_raw <$> bumped) in
          let new_segments := si_segment <$> bumped in
          if version_has_local version then
            locals ← version_local_segments v;
            flags ← flags_with_local_segment_index flags (as_u8 (length new_segments));
            Some (Ok (mkVersion (comps ++ concat (si_components <$> locals))
                        (new_segments ++ (si_segment <$> locals)) flags))
          else Some (Ok (mkVersion comps new_segments flags))
      end
  end.

Section matching.
Context `{IT : Itertools}.

Fixpoint starts_with_loop (had_extra_left : bool)
    (ranges : list (EitherOrBoth SegmentIter SegmentIter)) : bool :=
  match ranges with
  | [] => true
  | Both lhs rhs :: rest =>
      if had_extra_left then false
      else match row_starts_with (zip_longest (si_components lhs) (si_components rhs)) with
           | RowMismatch => false
           | RowDone extra => starts_with_loop extra rest
           end
  | ELeft _ :: _ => true
  | ERight segment :: rest =>
      if si_is_zero segment then starts_with_loop had_extra_left rest else false
  end.

Definition segments_starts_with (a b : list SegmentIter) : bool :=
  starts_with_loop false (zip_longest a b).

(** [starts_with] *)
Definition version_starts_with (v w : Version) : option bool :=
  ev ← version_epoch v; ew ← version_epoch w;
  sv ← version_segments v; sw ← version_segments w;
  lv ← version_local_segments v; lw ← version_local_segments w;
  Some ((ev =? ew)%N && segments_starts_with sv sw && segments_starts_with lv lw).

(** [compatible_with]; [rev().skip(1).rev()] drops the last segment. *)
Definition version_compatible_with (v w : Version) : option bool :=
  c ← version_cmp v w;
  ev ← version_epoch v; ew ← version_epoch w;
  sv ← version_segments v; sw ← version_segments w;
  lv ← version_local_segments v; lw ← version_local_segments w;
  Some (match c with Lt => false | _ => true end && (ev =? ew)%N
        && segments_starts_with sv (reverse (drop 1 (reverse sw)))
        && segments_starts_with lv lw).
End matching.

(** ** Abstract counterparts of the operations *)

(** The first segment of a selection has no separator. *)
Definition clear_first (l : list SegmentIter) : list SegmentIter :=
  imap (λ idx s, mkSegmentIter (first_without_separator idx s) (si_raw s)) l.

Definition select (p : parts) (from to : nat) : parts :=
  mkParts (p_epoch p) (clear_first (take (to - from) (drop from (p_release p)))) (p_local p).

(** The segments written [.0] and [.0a0]. *)
Definition dot_segment (n : N) : Segment := mkSegment (n + 24576).
Definition zero_segment : SegmentIter := mkSegmentIter (dot_segment 1) [Numeral 0].
Definition alpha_segment : SegmentIter :=
  mkSegmentIter (dot_segment 3) [Numeral 0; Iden (txt "a"); Numeral 0].

Definition with_release (p : parts) (release : list SegmentIter) : parts :=
  mkParts (p_epoch p) release (p_local p).
Definition extend (p : parts) (len : nat) : parts :=
  with_release p (p_release p ++ replicate (len - length (p_release p)) zero_segment).
Definition without_local (p : parts) : parts := mkParts (p_epoch p) (p_release p) [].

(** No segment of the list starts with an implicit zero. *)
Definition explicit (l : list SegmentIter) : Prop :=
  Forall (λ s, si_has_implicit_default s = false) l.

(** ** Packing the results *)
Lemma stored_raw s : stored_components s = si_raw s.
Proof. unfold stored_components, si_components. by destruct (si_has_implicit_default s). Qed.

Lemma stored_raw_list (l : list SegmentIter) : stored_components <$> l = si_raw <$> l.
Proof. apply list_fmap_ext. intros i s _. apply stored_raw. Qed.

Lemma explicit_components l : explicit l → si_components <$> l = si_raw <$> l.
Proof.
  intros H. apply list_fmap_ext. intros i s Hs.
  unfold si_components. by rewrite (Forall_lookup_1 _ _ _ _ H Hs).
Qed.

Lemma dot_segment_1 : (segment_new 1 ≫= λ s, segment_with_separator s (Some c_dot)) = Some (dot_segment 1).
Proof. vm_compute. reflexivity. Qed.
Lemma dot_segment_3 : (segment_new 3 ≫= λ s, segment_with_separator s (Some c_dot)) = Some (dot_segment 3).
Proof. vm_compute. reflexivity. Qed.

Lemma zero_segment_wf : wf_segment zero_segment.
Proof. split; vm_compute; reflexivity. Qed.
Lemma alpha_segment_wf : wf_segment alpha_segment.
Proof. split; vm_compute; reflexivity. Qed.
#[export] Hint Resolve zero_segment_wf alpha_segment_wf : rattler.

(** The flag byte of a packed version, by its fields. *)
Definition local_index (p : parts) : N :=
  match p_local p with [] => 0 | _ => N.of_nat (length (p_release p)) end.

Lemma local_index_bound p : wf_parts p → (local_index p <= 127)%N.
Proof.
  intros Hp. unfold local_index. destruct (p_local p) eqn:E; [lia|].
  pose proof (wf_release_bound p Hp) as Hb. rewrite E in Hb. specialize (Hb ltac:(done)). lia.
Qed.

Lemma pack_flags_fields p :
  wf_parts p →
  flags_fields (flags (pack p)) = (bool_decide (is_Some (p_epoch p)), local_index p) ∧
  (flags_bits (flags (pack p)) < 256)%N.
Proof.
  intros Hp. pose proof (local_index_bound p Hp) as Hb. split.
  - unfold flags_fields. f_equal; [by apply pack_has_epoch|].
    simpl. rewrite flags_local_arith. fold (local_index p). destruct (p_epoch p); lia.
  - simpl. fold (local_index p). destruct (p_epoch p); lia.
Qed.

(** A version whose parts are those of [q] and whose flag fields are those of
    [q] is [pack q]. *)
Lemma pack_intro q comps segs f :
  comps = epoch_components (p_epoch q) ++ concat (si_raw <$> p_release q) ++ concat (si_raw <$> p_local q) →
  segs = (si_segment <$> p_release q) ++ (si_segment <$> p_local q) →
  (flags_bits f < 256)%N →
  flags_fields f = (bool_decide (is_Some (p_epoch q)), local_index q) →
  mkVersion comps segs f = pack q.
Proof.
  intros -> -> Hf Hfields. unfold pack. f_equal.
  rewrite (flags_eta f _ _ Hf Hfields). unfold local_index.
  by destruct (p_epoch q).
Qed.

(** The flags of a rebuilt version: the epoch bit and then the local index. *)
Lemma rebuilt_flags (e : bool) (i : N) :
  (i <= 127)%N →
  let f := if e then flags_with_has_epoch flags_default true else flags_default in
  flags_fields f = (e, 0%N) ∧ (flags_bits f < 256)%N ∧
  ∃ g, flags_with_local_segment_index f i = Some g ∧ flags_fields g = (e, i) ∧
    (flags_bits g < 256)%N.
Proof.
  intros Hi f.
  assert (flags_fields f = (e, 0%N) ∧ (flags_bits f < 256)%N) as [Hf Hb]
    by (subst f; destruct e; split; vm_compute; reflexivity).
  split; [done|]. split; [done|].
  destruct (flags_with_local_fields f i Hb Hi) as (g & -> & Hg & ?).
  exists g. split; [done|]. split; [|done]. rewrite Hg. unfold flags_fields in Hf. congruence.
Qed.

(** ** Selecting segments *)
Lemma clear_first_wf l : Forall wf_segment l → Forall wf_segment (clear_first l).
Proof.
  intros H. unfold clear_first. apply Forall_lookup. intros i s.
  rewrite list_lookup_imap. intros (t & Ht & ->)%fmap_Some.
  pose proof (Forall_lookup_1 _ _ _ _ H Ht) as [Hb Hl].
  unfold first_without_separator. destruct (i =? 0)%nat; [|by destruct t].
  pose proof (segment_without_separator_fields _ Hb) as [Hf ?].
  split; [done|]. simpl. rewrite <-Hl. unfold seg_fields in Hf. congruence.
Qed.

Lemma clear_first_raw l : si_raw <$> clear_first l = si_raw <$> l.
Proof.
  apply list_eq. intros i. unfold clear_first.
  rewrite !list_lookup_fmap, list_lookup_imap. by destruct (l !! i).
Qed.

Lemma clear_first_segments l :
  si_segment <$> clear_first l = imap first_without_separator l.
Proof. unfold clear_first. by rewrite fmap_imap. Qed.

Lemma select_wf p from to :
  wf_parts p → from < to → to ≤ length (p_release p) → wf_parts (select p from to).
Proof.
  intros Hp Hft Hto. split; simpl.
  - intros H. apply (f_equal length) in H. unfold clear_first in H.
    rewrite length_imap, length_take, length_drop in H. simpl in H. lia.
  - intros Hl. pose proof (wf_release_bound p Hp Hl). unfold clear_first.
    rewrite length_imap, length_take, length_drop. lia.
  - apply clear_first_wf, Forall_take, Forall_drop, Hp.
  - apply Hp.
Qed.

(** The range in unbounded numbers *)
Definition range_start (b : Bound) : N :=
  match b with Included idx => idx | Excluded idx => idx + 1 | Unbounded => 0 end%N.
Definition range_end (b : Bound) (count : nat) : N :=
  match b with Included idx => idx + 1 | Excluded idx => idx | Unbounded => N.of_nat count end%N.

Lemma with_segments_at `{UsizeBuild} p b1 b2 from to :
  wf_parts p → start_index b1 = Some (N.of_nat from) → end_index b2 (length (p_release p)) = Some (N.of_nat to) →
  version_with_segments (pack p) b1 b2 =
  Some (if decide (from < to ∧ to ≤ length (p_release p)) then Some (pack (select p from to)) else None).
Proof.
  intros Hp Efrom Eto. unfold version_with_segments. rewrite pack_segment_count by done.
  rewrite Efrom, Eto. cbn [mbind option_bind].
  assert (∀ a b : nat, (N.of_nat a <=? N.of_nat b)%N = (a <=? b)%nat) as Hle by (intros a b; destruct (Nat.leb_spec a b); [apply N.leb_le|apply N.leb_gt]; lia).
  assert (∀ a b : nat, (N.of_nat a <? N.of_nat b)%N = (a <? b)%nat) as Hlt by (intros a b; destruct (Nat.ltb_spec a b); [apply N.ltb_lt|apply N.ltb_ge]; lia).
  rewrite !Hle, Hlt, <-Nat2N.inj_sub, !Nat2N.id. clear Hle Hlt Efrom Eto.
  destruct (decide (from < to ∧ to ≤ length (p_release p))) as [[Hft Hto]|Hno].
  2: { destruct (length (p_release p) <=? from)%nat eqn:E1; [done|].
       destruct (length (p_release p) <? to)%nat eqn:E2; [done|].
       destruct (to <=? from)%nat eqn:E3; [done|].
       apply Nat.leb_gt in E1, E3. apply Nat.ltb_ge in E2. lia. }
  rewrite (proj2 (Nat.leb_gt _ _)), (proj2 (Nat.ltb_ge _ _)), (proj2 (Nat.leb_gt _ _)) by lia.
  simpl orb. cbv iota. unpack. rewrite !stored_raw_list.
  pose proof (select_wf p from to Hp Hft Hto) as Hq.
  pose proof (local_index_bound _ Hq) as Hb.
  destruct (rebuilt_flags (bool_decide (is_Some (p_epoch p))) _ Hb) as (Hf & Hfb & g & Hg & Hgf & Hgb).
  set (f := if bool_decide (is_Some (p_epoch p)) then _ else _) in *.
  assert (∀ h, flags_fields h = (bool_decide (is_Some (p_epoch p)), local_index (select p from to)) →
    (flags_bits h < 256)%N →
    mkVersion ((if bool_decide (is_Some (p_epoch p)) then [Numeral (default 0%N (p_epoch p))] else [])
       ++ concat (si_raw <$> take (to - from) (drop from (p_release p))) ++ concat (si_raw <$> p_local p))
      (imap first_without_separator (take (to - from) (drop from (p_release p)))
        ++ (si_segment <$> p_local p)) h = pack (select p from to)) as Hpack.
  { intros h Hh Hhb. apply pack_intro; [|by rewrite <-clear_first_segments|done|done].
    simpl. rewrite clear_first_raw. by destruct (p_epoch p). }
  assert (length (clear_first (take (to - from) (drop from (p_release p)))) =
    length (take (to - from) (drop from (p_release p)))) as Hlen by apply length_imap.
  destruct (match p_local p with [] => false | _ => true end) eqn:El.
  - unfold u8_try_from. rewrite length_imap.
    assert (local_index (select p from to) =
      N.of_nat (length (take (to - from) (drop from (p_release p))))) as Hi
      by (unfold local_index; simpl; rewrite Hlen; by destruct (p_local p)).
    rewrite Hi in Hg, Hb. rewrite (proj2 (N.leb_le _ _)) by (unfold u8_max; lia).
    simpl. rewrite Hg. simpl. by rewrite Hpack.
  - simpl. rewrite Hpack; [done| |done]. rewrite Hf. f_equal.
    unfold local_index. simpl. by destruct (p_local p).
Qed.

(** ** Removing the local part *)
Lemma without_local_wf p : wf_parts p → wf_parts (without_local p).
Proof. intros [Hne Hb Hr Hl]. by split. Qed.

Lemma remove_local_pack p :
  wf_parts p → version_remove_local (pack p) = Some (pack (without_local p)).
Proof.
  intros Hp. unfold version_remove_local. unpack.
  destruct (p_local p) as [|x l] eqn:El.
  { f_equal. destruct p; simpl in *. by subst. }
  pose proof (pack_flags_fields p Hp) as [Hf Hfb].
  destruct (flags_with_local_fields _ 0 Hfb ltac:(lia)) as (g & Hg & Hgf & Hgb).
  cbn [segments pack].
  rewrite slice_prefix by (by rewrite length_fmap). cbn [mbind option_bind].
  rewrite total_len_pack by apply Hp. cbn [components pack].
  rewrite decide_True by (rewrite !length_app; lia). cbn [mbind option_bind].
  rewrite Hg. cbn [mbind option_bind]. f_equal.
  apply pack_intro; [|by rewrite app_nil_r|done|].
  - simpl. rewrite app_nil_r, Nat.add_comm, <-length_app.
    rewrite app_assoc. by rewrite take_app_length.
  - rewrite Hgf. unfold flags_fields in Hf. f_equal. cbn [p_epoch without_local]. congruence.
Qed.

(** [strip_local] agrees when no release segment has an implicit zero. *)
Lemma strip_local_pack p :
  wf_parts p → explicit (p_release p) →
  version_strip_local (pack p) = Some (pack (without_local p)).
Proof.
  intros Hp He. unfold version_strip_local. unpack.
  destruct (p_local p) as [|x l] eqn:El.
  { f_equal. destruct p; simpl in *. by subst. }
  rewrite explicit_components by done. f_equal.
  apply pack_intro; simpl; rewrite ?app_nil_r; [done|done|..];
    destruct (p_epoch p); vm_compute; done.
Qed.

(** ** Extending *)
Lemma extend_wf p len :
  wf_parts p → (p_local p ≠ [] → len ≤ 127) → wf_parts (extend p len).
Proof.
  intros Hp Hlen. split; simpl.
  - pose proof (wf_release_nonempty p Hp). by destruct (p_release p).
  - intros Hl. pose proof (wf_release_bound p Hp Hl). specialize (Hlen Hl).
    rewrite length_app, length_replicate. lia.
  - apply Forall_app. split; [apply Hp|]. apply Forall_replicate, zero_segment_wf.
  - apply Hp.
Qed.

Lemma replicate_raw k : concat (si_raw <$> replicate k zero_segment) = replicate k (Numeral 0).
Proof. induction k as [|k IH]; [done|]. csimpl. by rewrite IH. Qed.

Lemma as_u8_small n : n ≤ 255 → as_u8 n = N.of_nat n.
Proof. intros. unfold as_u8. rewrite N.mod_small; [done|lia]. Qed.

Section extend.
Context (p : parts) (Hp : wf_parts p) (len : nat) (Hlen : length (p_release p) < len).

(** The three outcomes of a real extension, up to 255 segments. *)
Lemma extend_pack_cases :
  version_extend_to_length (pack p) len =
  if decide (p_local p = []) then Some (Ok (pack (extend p len)))
  else match flags_with_local_segment_index (flags (pack p)) (as_u8 len) with
       | None => Some (Err VersionTooLong)
       | Some f => Some (Ok (mkVersion (components (pack (extend p len)))
                                      (segments (pack (extend p len))) f))
       end.
Proof.
  unfold version_extend_to_length. rewrite pack_segment_count by done.
  rewrite (proj2 (Nat.leb_gt _ _)) by lia. cbn [segments pack].
  rewrite slice_prefix by (by rewrite length_fmap). cbn [mbind option_bind].
  rewrite total_len_pack by apply Hp. rewrite pack_epoch_offset by done. cbn [components pack].
  rewrite Nat.add_comm, <-length_app, app_assoc, slice_prefix by done. cbn [mbind option_bind].
  pose proof dot_segment_1 as Hdot. destruct (segment_new 1) as [s1|]; [|done].
  cbn [mbind option_bind] in *. rewrite Hdot. cbn [mbind option_bind].
  rewrite pack_has_local, pack_local_segments by done. cbn [mbind option_bind].
  rewrite length_app, length_fmap, length_replicate, stored_raw_list.
  replace (length (p_release p) + (len - length (p_release p))) with len by lia.
  assert (components (pack (extend p len)) = ((epoch_components (p_epoch p) ++
    concat (si_raw <$> p_release p)) ++ replicate (len - length (p_release p)) (Numeral 0)) ++
    concat (si_raw <$> p_local p)) as Hc.
  { simpl. by rewrite fmap_app, concat_app, replicate_raw, <-!app_assoc. }
  assert (segments (pack (extend p len)) = ((si_segment <$> p_release p) ++
    replicate (len - length (p_release p)) (dot_segment 1)) ++ (si_segment <$> p_local p)) as Hs.
  { simpl. by rewrite fmap_app, fmap_replicate. }
  destruct (p_local p) as [|x l] eqn:El; rewrite ?decide_True, ?decide_False by done.
  - do 2 f_equal. pose proof (pack_flags_fields p Hp) as [Hf Hfb].
    apply pack_intro; [| |done|].
    + simpl. by rewrite fmap_app, concat_app, replicate_raw, El, app_nil_r, app_assoc.
    + simpl. by rewrite fmap_app, fmap_replicate, El, app_nil_r.
    + rewrite Hf. unfold local_index. simpl. by rewrite El.
  - cbn [components segments pack] in Hc, Hs. rewrite Hc, Hs.
    destruct (flags_with_local_segment_index _ _); done.
Qed.
End extend.

Lemma extend_noop p len :
  wf_parts p → len ≤ length (p_release p) → version_extend_to_length (pack p) len = Some (Ok (pack p)).
Proof.
  intros Hp H. unfold version_extend_to_length. rewrite pack_segment_count by done.
  by rewrite (proj2 (Nat.leb_le _ _)) by lia.
Qed.

Lemma extend_pack p len :
  wf_parts p → length (p_release p) < len → (p_local p ≠ [] → len ≤ 127) →
  version_extend_to_length (pack p) len = Some (Ok (pack (extend p len))).
Proof.
  intros Hp Hlen Hloc. rewrite extend_pack_cases by done.
  destruct (decide (p_local p = [])) as [|El]; [done|]. specialize (Hloc El).
  rewrite as_u8_small by lia. pose proof (pack_flags_fields p Hp) as [Hf Hfb].
  destruct (flags_with_local_fields _ (N.of_nat len) Hfb ltac:(lia)) as (g & -> & Hg & Hgb).
  do 2 f_equal. apply pack_intro; [done..|]. rewrite Hg. unfold flags_fields in Hf.
  f_equal; [cbn [p_epoch extend with_release]; congruence|]. unfold local_index. simpl.
  rewrite length_app, length_replicate. destruct (p_local p); [done|]. lia.
Qed.

Lemma extend_too_long p len :
  wf_parts p → length (p_release p) < len → p_local p ≠ [] → 127 < len → len ≤ 255 →
  version_extend_to_length (pack p) len = Some (Err VersionTooLong).
Proof.
  intros Hp Hlen El ? ?. rewrite extend_pack_cases by done. rewrite decide_False by done.
  by rewrite as_u8_small, flags_with_local_too_large by lia.
Qed.

Lemma cell_app_zero l k i j : cell (l ++ replicate k zero_segment) i j = cell l i j.
Proof.
  unfold cell. destruct (decide (i < length l)).
  - by rewrite lookup_app_l.
  - rewrite lookup_app_r, (lookup_ge_None_2 l) by lia.
    destruct (replicate k zero_segment !! (i - length l)) as [s|] eqn:E; [|done].
    apply lookup_replicate in E as [-> _]. by destruct j.
Qed.

(** ** Prefix matching *)

(** Every component of the prefix row [r] occurs at its place in [l], or is a
    zero past the end of [l]. *)
Definition row_prefix (l r : list Component) : Prop :=
  ∀ j c, r !! j = Some c →
    match l !! j with Some d => d = c | None => component_is_zero c = true end.

(** What [segments_starts_with] decides: every segment of the prefix [b] is a
    row prefix of its segment of [a], or a zero segment past the end of [a],
    and only the last common segment of [a] may have extra components. *)
Definition segments_prefix (a b : list SegmentIter) : Prop :=
  ∀ i s, b !! i = Some s →
    match a !! i with
    | Some t => row_prefix (si_components t) (si_components s) ∧
        (S i < length a → S i < length b → length (si_components t) ≤ length (si_components s))
    | None => si_is_zero s = true
    end.

Lemma row_prefix_nil_r l : row_prefix l [].
Proof. intros j c. by rewrite lookup_nil. Qed.

Lemma row_prefix_cons x l y r : row_prefix (x :: l) (y :: r) ↔ x = y ∧ row_prefix l r.
Proof.
  split.
  - intros H. split; [by apply (H 0 y)|]. intros j c. apply (H (S j)).
  - intros [-> H] [|j] c; simpl; [naive_solver|apply H].
Qed.

Lemma row_prefix_nil_cons y r : row_prefix [] (y :: r) ↔ component_is_zero y = true ∧ row_prefix [] r.
Proof.
  split.
  - intros H. split; [by apply (H 0)|]. intros j c. apply (H (S j)).
  - intros [Hy H] [|j] c; simpl; [naive_solver|apply H].
Qed.

Lemma segments_prefix_cons t a s b :
  segments_prefix (t :: a) (s :: b) ↔
  row_prefix (si_components t) (si_components s) ∧
  (a ≠ [] → b ≠ [] → length (si_components t) ≤ length (si_components s)) ∧
  segments_prefix a b.
Proof.
  split.
  - intros H. pose proof (H 0 s eq_refl) as [Hr Hl]. simpl in *. split; [done|]. split.
    + intros. apply Hl; [destruct a|destruct b]; simpl; done || lia.
    + intros i u Hu. specialize (H (S i) u Hu). simpl in H.
      destruct (a !! i); [|done]. split; [apply H|]. intros; apply H; lia.
  - intros (Hr & Hl & H) [|i] u; simpl.
    + intros [= <-]. split; [done|]. intros; apply Hl; intros ->; simpl in *; lia.
    + intros Hu. specialize (H i u Hu). destruct (a !! i); [|done].
      split; [apply H|]. intros; apply H; lia.
Qed.

Lemma segments_prefix_nil_cons s b :
  segments_prefix [] (s :: b) ↔ si_is_zero s = true ∧ segments_prefix [] b.
Proof.
  split.
  - intros H. split; [by apply (H 0)|]. intros i u. apply (H (S i)).
  - intros [Hs H] [|i] u; simpl; [naive_solver|apply H].
Qed.

Section prefix.
Context `{IT : Itertools}.

Lemma row_starts_with_spec l r e :
  row_starts_with (zip_longest l r) = RowDone e ↔
  row_prefix l r ∧ e = bool_decide (length r < length l).
Proof.
  revert r. induction l as [|x l IH]; intros r.
  - induction r as [|y r IHr]; autorewrite with rattler; simpl.
    + pose proof (row_prefix_nil_r []). naive_solver.
    + rewrite row_prefix_nil_cons. simpl in IHr.
      destruct (component_is_zero y); [rewrite IHr|]; naive_solver.
  - destruct r as [|y r]; autorewrite with rattler; simpl.
    + pose proof (row_prefix_nil_r (x :: l)). naive_solver.
    + rewrite row_prefix_cons.
      rewrite (bool_decide_ext (S (length r) < S (length l)) (length r < length l)) by lia.
      case_bool_decide; [rewrite IH|]; naive_solver.
Qed.

Lemma starts_with_loop_spec h a b :
  starts_with_loop h (zip_longest a b) = true ↔
  (h = true → a = [] ∨ b = []) ∧ segments_prefix a b.
Proof.
  revert h b. induction a as [|t a IH]; intros h b.
  - induction b as [|s b IHb]; autorewrite with rattler; simpl.
    + split; [|done]. intros _. split; [by left|]. intros i s. by rewrite lookup_nil.
    + rewrite segments_prefix_nil_cons. destruct (si_is_zero s); [rewrite IHb|]; naive_solver.
  - destruct b as [|s b]; autorewrite with rattler; simpl.
    + split; [|done]. intros _. split; [by right|]. intros i s. by rewrite lookup_nil.
    + rewrite segments_prefix_cons. destruct h; [naive_solver|].
      destruct (row_starts_with _) as [|e] eqn:E.
      * split; [done|]. intros (_ & Hr & _).
        pose proof (proj2 (row_starts_with_spec _ _ _) (conj Hr eq_refl)). congruence.
      * apply row_starts_with_spec in E as [Hr ->]. rewrite IH, bool_decide_eq_true.
        destruct (decide (length (si_components s) < length (si_components t))).
        -- split; [|intros (_ & _ & Hl & ?); split; [|done]; intros _;
             destruct a, b; try (by left); try (by right); exfalso;
             specialize (Hl ltac:(done) ltac:(done)); lia].
           intros [Hl ?]. repeat split; try done. intros ? ?. by destruct Hl.
        -- split; [intros [_ ?]|intros (_ & _ & _ & ?)]; repeat split; try done; lia.
Qed.

Lemma segments_starts_with_spec a b :
  segments_starts_with a b = true ↔ segments_prefix a b.
Proof. unfold segments_starts_with. rewrite starts_with_loop_spec. naive_solver. Qed.

Lemma version_starts_with_pack p q :
  wf_parts p → wf_parts q →
  version_starts_with (pack p) (pack q) =
  Some ((default 0%N (p_epoch p) =? default 0%N (p_epoch q))%N
        && segments_starts_with (p_release p) (p_release q)
        && segments_starts_with (p_local p) (p_local q)).
Proof. intros Hp Hq. unfold version_starts_with. by unpack. Qed.
End prefix.

Lemma row_prefix_refl l : row_prefix l l.
Proof. intros j c ->. done. Qed.

(** A list of segments starts with any initial segment of itself. *)
Lemma segments_prefix_take a b :
  (∀ i s, b !! i = Some s → ∃ t, a !! i = Some t ∧ si_components t = si_components s) →
  segments_prefix a b.
Proof.
  intros H i s Hs. destruct (H i s Hs) as (t & -> & ->).
  split; [apply row_prefix_refl|done].
Qed.

Lemma clear_first_components l i s :
  Forall wf_segment l → clear_first l !! i = Some s →
  ∃ t, l !! i = Some t ∧ si_components t = si_components s.
Proof.
  unfold clear_first. rewrite list_lookup_imap. intros Hwf (t & Ht & ->)%fmap_Some.
  exists t. split; [done|]. pose proof (Forall_lookup_1 _ _ _ _ Hwf Ht) as [Hb _].
  unfold si_components, si_has_implicit_default, first_without_separator. simpl.
  destruct (i =? 0)%nat; [|done].
  pose proof (segment_without_separator_fields _ Hb) as [Hf _]. unfold seg_fields in Hf.
  by replace (segment_has_implicit_default (segment_without_separator _))
    with (segment_has_implicit_default (si_segment t)) by congruence.
Qed.

(** ** Alpha suffixes *)
Definition has_iden (l : list Component) : bool :=
  existsb (λ c, match component_as_iden c with Some _ => true | None => false end) l.

Definition with_alpha (p : parts) : parts := with_release p (p_release p ++ [alpha_segment]).

Lemma with_alpha_pack p s :
  wf_parts p → last (p_release p) = Some s → has_iden (si_components s) = false →
  version_with_alpha (pack p) =
  if decide (p_local p ≠ [] ∧ length (p_release p) = 127) then None
  else Some (pack (with_alpha p)).
Proof.
  intros Hp Hs Hi. unfold version_with_alpha. unpack. rewrite Hs. cbn [mbind option_bind].
  unfold has_iden in Hi. rewrite Hi.
  assert (default (length (segments (pack p)))
    match p_local p with [] => None | _ => Some (length (p_release p)) end =
    length (si_segment <$> p_release p)) as ->.
  { simpl. rewrite length_app, !length_fmap. destruct (p_local p); simpl; lia. }
  pose proof (pack_flags_fields p Hp) as [Hf Hfb].
  set (f0 := flags (pack p)) in *. clearbody f0. cbn [segments components pack].
  rewrite slice_prefix, slice_suffix by done. cbn [mbind option_bind].
  rewrite total_len_pack by apply Hp.
  pose proof dot_segment_3 as Hdot. destruct (segment_new 3) as [s3|]; [|done].
  cbn [mbind option_bind] in *. rewrite Hdot. cbn [mbind option_bind].
  rewrite Nat.add_comm, <-length_app.
  rewrite decide_True by (rewrite !length_app; lia). cbn [mbind option_bind].
  rewrite (app_assoc (epoch_components _) (concat (si_raw <$> p_release p))).
  rewrite take_app_length, drop_app_length.
  assert (∀ f, flags_fields f = (bool_decide (is_Some (p_epoch p)), local_index (with_alpha p)) →
    (flags_bits f < 256)%N →
    mkVersion (((epoch_components (p_epoch p) ++ concat (si_raw <$> p_release p)) ++
        [Numeral 0; Iden (txt "a"); Numeral 0]) ++ concat (si_raw <$> p_local p))
      (((si_segment <$> p_release p) ++ [dot_segment 3]) ++ (si_segment <$> p_local p)) f =
    pack (with_alpha p)) as Hpack.
  { intros f ? ?. apply pack_intro; [| |done|done]; simpl;
      by rewrite ?fmap_app, ?concat_app, ?app_nil_r, <-!app_assoc. }
  destruct (p_local p) eqn:El.
  - rewrite decide_False by naive_solver. cbn [mbind option_bind]. rewrite !app_assoc.
    rewrite Hpack; [done| |done]. rewrite Hf. unfold local_index, with_alpha. simpl. by rewrite El.
  - pose proof (local_index_bound p Hp) as Hb. unfold local_index in Hb. rewrite El in Hb.
    rewrite as_u8_small by lia.
    destruct (decide (_ ∧ length (p_release p) = 127)) as [[_ E]|E].
    { by rewrite flags_with_local_too_large by lia. }
    assert (length (p_release p) ≠ 127) by naive_solver.
    destruct (flags_with_local_fields f0 (N.of_nat (length (p_release p) + 1)) Hfb
      ltac:(lia)) as (g & Hg & Hgf & Hgb).
    rewrite Hg. cbn [mbind option_bind].
    rewrite !app_assoc, Hpack; [done| |done].
    rewrite Hgf. unfold flags_fields in Hf. f_equal; [congruence|].
    unfold local_index, with_alpha. simpl. rewrite El, length_app. done.
Qed.

(** ** Bumping *)

(** A row starts with a number, as the parser leaves it. *)
Definition numeric_row (s : SegmentIter) : Prop :=
  ∃ n, si_components s !! 0 = Some (Numeral n).

(** A row that a segment descriptor can count without its implicit zero. *)
Definition fits (s : SegmentIter) : Prop := (N.of_nat (length (si_components s)) <= 8191)%N.

Definition bumpable (p : parts) : Prop :=
  Forall numeric_row (p_release p) ∧ Forall fits (p_release p).

Lemma length_update_first f l : length (update_first_number f l) = length l.
Proof. induction l as [|[] l IH]; simpl; by rewrite ?IH. Qed.

Lemma length_set_last_iden l k : set_last_iden l = Some k → length k = length l.
Proof.
  revert k. induction l as [|c l IH]; intros k; simpl; [done|].
  destruct (set_last_iden l); [|destruct c; [done..| |done]]; intros [= <-]; simpl; [|done].
  by rewrite (IH _ eq_refl).
Qed.

Lemma length_iden_to_a l : length (iden_to_a l) = length l.
Proof.
  unfold iden_to_a. destruct (set_last_iden l) eqn:E; [|done]. by apply length_set_last_iden.
Qed.

Lemma length_update_last f l k : update_last_number f l = Some k → length k = length l.
Proof.
  revert k. induction l as [|c l IH]; intros k; simpl; [done|].
  destruct (update_last_number f l); [|destruct c; [|done..]]; intros [= <-]; simpl; [|done].
  by rewrite (IH _ eq_refl).
Qed.

Lemma iden_to_a_numeral n l : ∃ l', iden_to_a (Numeral n :: l) = Numeral n :: l'.
Proof. unfold iden_to_a. simpl. destruct (set_last_iden l); simpl; eauto. Qed.

Lemma update_last_number_numeral f n l : ∃ l', update_last_number f (Numeral n :: l) = Some l'.
Proof. simpl. destruct (update_last_number f l); eauto. Qed.

Lemma length_bump_components t k idx l l' :
  bump_components t k idx l = Some l' → length l' = length l.
Proof.
  intros Hb. destruct t; simpl in Hb; repeat case_match; simplify_option_eq;
    rewrite ?length_iden_to_a, ?length_update_first; try done;
    by eapply length_update_last.
Qed.

(** On a row that starts with a number every bump succeeds. *)
Lemma bump_components_total t k idx s :
  numeric_row s → ∃ l, bump_components t k idx (si_components s) = Some l.
Proof.
  intros [n Hn]. destruct (si_components s) as [|c l]; [done|]. injection Hn as ->.
  destruct t; unfold bump_components; eauto;
    destruct (k =? idx)%nat; eauto;
    destruct (update_last_number_numeral incr n l) as [l' ->]; simpl; eauto.
Qed.

Lemma fields_components s raw : 
  si_components (mkSegmentIter s raw) =
  (if segment_has_implicit_default s then [component_default] else []) ++ raw.
Proof. done. Qed.

Lemma separator_ok s : is_separator (segment_separator s).
Proof.
  Transparent segment_separator. unfold segment_separator. Opaque segment_separator.
  simpl. repeat case_match; simpl; auto.
Qed.

Lemma bump_segment_spec t k idx s l :
  bump_components t k idx (si_components s) = Some l → l ≠ [] → fits s →
  ∃ u, bump_segment t k idx s = Some u ∧ wf_segment u ∧ si_components u = l ∧
    si_separator u = si_separator s.
Proof.
  intros Hl Hne Hfit. unfold bump_segment. rewrite Hl. cbn [mbind option_bind].
  apply length_bump_components in Hl. unfold fits in Hfit. destruct l as [|c l]; [done|].
  assert (∃ b : bool, (if si_has_implicit_default s
      then c0 ← (c :: l) !! 0; Some (bool_decide (c0 = component_default)) else Some false) = Some b ∧
      (b = true → c = component_default)) as (b & -> & Hb).
  { destruct (si_has_implicit_default s); simpl; eexists; split; try done.
    by intros ?%bool_decide_eq_true. }
  cbn [mbind option_bind].
  remember (length (c :: l) - (if b then 1 else 0)) as m eqn:Em.
  assert (N.of_nat m <= 8191)%N as Hm by (destruct b; lia).
  assert (as_u16 m = N.of_nat m) as -> by (unfold as_u16; rewrite N.mod_small; [done|lia]).
  destruct (segment_new_fields (N.of_nat m)) as (s0 & -> & Hs0 & Hb0); [lia|].
  cbn [mbind option_bind].
  destruct (segment_with_implicit_default_fields s0 b Hb0) as [Hs1 Hb1].
  destruct (segment_with_separator_fields _ (si_separator s) Hb1 (separator_ok _))
    as (s2 & -> & Hs2 & Hb2).
  cbn [mbind option_bind]. eexists; split; [done|].
  unfold seg_fields in *.
  split; [split; [done|]|split].
  - simpl. replace (segment_len s2) with (N.of_nat m) by congruence.
    f_equal. by rewrite Em, length_drop.
  - rewrite fields_components. replace (segment_has_implicit_default s2) with b by congruence.
    destruct b; simpl; [by rewrite Hb|done].
  - unfold si_separator in *. simpl. congruence.
Qed.

(** The whole loop: every row is bumped at its own index. *)
Lemma bump_segments_spec t k idx l :
  Forall numeric_row l → Forall fits l →
  ∃ l', bump_segments t k idx l = Some l' ∧ Forall wf_segment l' ∧ length l' = length l ∧
    ∀ i s, l !! i = Some s → ∃ u, l' !! i = Some u ∧ si_separator u = si_separator s ∧
      bump_components t k (idx + i) (si_components s) = Some (si_components u).
Proof.
  intros Hn Hf. revert idx. induction l as [|s l IH]; intros idx; simpl.
  { exists []. repeat split; try done. }
  apply Forall_cons in Hn as [Hns Hn]. apply Forall_cons in Hf as [Hfs Hf].
  destruct (bump_components_total t k idx s Hns) as [c Hc].
  destruct (bump_segment_spec t k idx s c Hc) as (u & -> & Hwu & Hcu & Hsu); [|done|].
  { intros ->. apply length_bump_components in Hc. destruct Hns as [n E]. by destruct (si_components s). }
  destruct (IH Hn Hf (S idx)) as (l' & -> & Hw & Hlen & Hl). cbn [mbind option_bind].
  exists (u :: l'). split; [done|]. split; [by constructor|]. split; [simpl; congruence|].
  intros [|i] r; simpl.
  - intros [= <-]. exists u. rewrite Nat.add_0_r, Hcu. done.
  - intros Hr. destruct (Hl i r Hr) as (w & ? & ? & Hw'). exists w.
    replace (idx + S i) with (S idx + i) by lia. done.
Qed.

(** [extend] is what the parts are after [extend_to_length], which does
    nothing when the version is long enough. *)
Lemma extend_id p len : len ≤ length (p_release p) → extend p len = p.
Proof.
  intros H. unfold extend, with_release. replace (len - _) with 0 by lia. simpl.
  rewrite app_nil_r. by destruct p.
Qed.

Lemma extend_to_length_pack p len :
  wf_parts p → (p_local p ≠ [] → len ≤ 127) →
  version_extend_to_length (pack p) len = Some (Ok (pack (extend p len))) ∧ wf_parts (extend p len).
Proof.
  intros Hp Hlen. split; [|by apply extend_wf].
  destruct (decide (len ≤ length (p_release p))).
  - rewrite extend_id by done. by apply extend_noop.
  - apply extend_pack; [done|lia|done].
Qed.

Lemma zero_segment_bumpable k :
  Forall numeric_row (replicate k zero_segment) ∧ Forall fits (replicate k zero_segment).
Proof.
  split; apply Forall_replicate; [by exists 0%N|]. by vm_compute.
Qed.

(** [bump] on parts: the epoch and the local part are kept, every release row
    of the extended version is bumped at its index. *)
Lemma bump_pack p t target :
  wf_parts p → bumpable p → explicit (p_local p) →
  bump_target t (length (p_release p)) = Ok target →
  (p_local p ≠ [] → target < 127) →
  ∃ q, version_bump (pack p) t = Some (Ok (pack q)) ∧ wf_parts q ∧
    p_epoch q = p_epoch p ∧ p_local q = p_local p ∧
    length (p_release q) = Nat.max (length (p_release p)) (target + 1) ∧
    ∀ i s, p_release (extend p (target + 1)) !! i = Some s →
      ∃ u, p_release q !! i = Some u ∧ si_separator u = si_separator s ∧
        bump_components t target i (si_components s) = Some (si_components u).
Proof.
  intros Hp [Hn Hf] He Ht Hloc. unfold version_bump. rewrite pack_segment_count, Ht by done.
  destruct (extend_to_length_pack p (target + 1) Hp) as [-> Hx]; [intros Hl; specialize (Hloc Hl); lia|].
  cbn [mbind option_bind]. set (x := extend p (target + 1)) in *.
  rewrite pack_epoch_opt, pack_segments, pack_has_local, pack_local_segments by done.
  cbn [mbind option_bind].
  destruct (zero_segment_bumpable (target + 1 - length (p_release p))) as [Hzn Hzf].
  destruct (bump_segments_spec t target 0 (p_release x)) as (l & -> & Hlw & Hlen & Hl);
    [by apply Forall_app|by apply Forall_app|].
  cbn [mbind option_bind].
  set (q := mkParts (p_epoch p) l (p_local p)). exists q.
  assert (wf_parts q) as Hq.
  { split; simpl; [|intros Hll; rewrite Hlen; by apply Hx|done|apply Hp].
    intros ->. destruct Hx as [Hne _ _ _]. by destruct (p_release x). }
  assert (length l = Nat.max (length (p_release p)) (target + 1)) as Hll.
  { rewrite Hlen. subst x. simpl. rewrite length_app, length_replicate. lia. }
  pose proof (pack_flags_fields x Hx) as [Hff Hfb].
  set (f := match p_epoch x with Some _ => _ | None => _ end).
  assert (flags_fields f = (bool_decide (is_Some (p_epoch p)), local_index x) ∧
    (flags_bits f < 256)%N) as [Hff' Hfb'].
  { subst f. change (p_epoch x) with (p_epoch p) in *. destruct (p_epoch p); [|done].
    destruct (flags_with_has_epoch_fields _ true Hfb) as [E ?]. split; [|done].
    rewrite E. unfold flags_fields in Hff. f_equal. congruence. }
  split; [|do 4 (split; [done|]); exact Hl].
  change (p_local x) with (p_local p). change (p_epoch x) with (p_epoch p).
  pose proof (local_index_bound q Hq) as Hb.
  destruct (match p_local p with [] => false | _ => true end) eqn:El.
  - assert (local_index q = N.of_nat (length l)) as Hi
      by (unfold local_index; simpl; by destruct (p_local p)).
    rewrite explicit_components by done. rewrite length_fmap.
    rewrite as_u8_small by lia. rewrite <-Hi.
    destruct (flags_with_local_fields f _ Hfb' Hb) as (g & -> & Hg & Hgb).
    cbn [mbind option_bind]. do 2 f_equal. apply pack_intro; simpl; [by rewrite app_assoc|done|done|].
    rewrite Hg. unfold flags_fields in Hff'. f_equal. congruence.
  - assert (p_local p = []) as El' by (by destruct (p_local p)).
    do 2 f_equal. apply pack_intro; simpl; rewrite ?El'; simpl; rewrite ?app_nil_r; try done.
    rewrite Hff'. unfold local_index. subst x. simpl. by rewrite El'.
Qed.
