(* ===== verification/VersionParse.v ===== *)
(** * Parsing and displaying versions

    [rattler_conda_version/src/version/parse.rs] and the [Display]
    implementations of [mod.rs].  The parsers thread the component and segment
    vectors they push to; the outer [option] is a panic ([unwrap]/[expect]) or,
    for the loops, exhausted fuel, and is shown never to be [None]. *)
From S2P Require Import Prelude Externs VersionRepr VersionOrder VersionOps.

(** ** Definitions: errors *)
Inductive ParseVersionErrorKind : Type :=
| PVEmpty
| EpochMustBeInteger (e : ParseIntError)
| InvalidNumeral (e : ParseIntError)
| EmptyVersionComponent
| TooManySegments
| TooManyComponentsInASegment
| ExpectedComponent
| ExpectedSegmentSeparator
| CannotMixAndMatchDashesAndUnderscores
| PVExpectedEof
| PVNom (k : ErrorKind).

Record ParseVersionError := mkParseVersionError {
  pve_version : list N;
  pve_kind : ParseVersionErrorKind
}.

#[export] Instance version_parse_error : ParseError ParseVersionErrorKind := {|
  from_error_kind _ kind := PVNom kind;
  pe_append _ _ other := other;
  pe_or _ other := other
|}.

(** nom's own implementation for [(I, ErrorKind)]. *)
#[export] Instance pair_parse_error : ParseError (list N * ErrorKind) := {|
  from_error_kind input kind := (input, kind);
  pe_append _ _ other := other;
  pe_or _ other := other
|}.

(** The check that [-] and [_] are not mixed: the new value of
    [dash_or_underscore], [None] for a mixture. *)
Definition update_dash (dash_or_underscore : option N) (separator : N) : option (option N) :=
  match dash_or_underscore with
  | None =>
      Some (if (separator =? c_dash)%N || (separator =? c_under)%N
            then Some separator else None)
  | Some d =>
      if ((d =? c_dash) && (separator =? c_under))%N || ((d =? c_under) && (separator =? c_dash))%N
      then None else Some (Some d)
  end.

(** ** Definitions: parsers *)
Section parsers.
Context `{NM : Nom}.

Definition epoch_parser (input : list N) : IResult N ParseVersionErrorKind :=
  match terminated digit1 (nom_char c_bang) input with
  | Ok (rest, digits) =>
      match u64_from_str digits with
      | Ok epoch => Ok (rest, epoch)
      | Err e => Err (NFail (EpochMustBeInteger e))
      end
  | Err e => Err e
  end.

Definition numeral_parser (input : list N) : IResult N ParseVersionErrorKind :=
  match digit1 input with
  | Ok (rest, digits) =>
      match u64_from_str digits with
      | Ok numeral => Ok (rest, numeral)
      | Err e => Err (NFail (InvalidNumeral e))
      end
  | Err e => Err e
  end.

Definition component_of_alpha (alpha : list N) : Component :=
  if eq_ignore_ascii_case alpha (txt "post") then Post
  else if eq_ignore_ascii_case alpha (txt "dev") then Dev
  else if forallb is_ascii_lowercase alpha then Iden alpha
  else Iden (to_ascii_lowercase alpha).

Definition component_parser : list N → IResult Component ParseVersionErrorKind :=
  alt2 (nom_map numeral_parser Numeral) (nom_map alpha1 component_of_alpha).

(** The loop of [segment_parser]: the components vector afterwards, and the
    result.  [drain(len - count..)] removes what this segment pushed. *)
Fixpoint segment_loop (fuel : nat) (comps : list Component) (component_count : N)
    (has_implicit_default : bool) (rest : list N)
  : option (list Component * IResult Segment ParseVersionErrorKind) :=
  match fuel with
  | 0 => None
  | S f =>
      match opt component_parser rest with
      | Err e => Some (take (length comps - N.to_nat component_count) comps, Err e)
      | Ok (remaining, Some component) =>
          let comps := comps ++ [component] in
          if (u16_max <? component_count + 1)%N
          then Some (comps, Err (NFail TooManyComponentsInASegment))
          else segment_loop f comps (component_count + 1)%N has_implicit_default remaining
      | Ok (remaining, None) =>
          Some (comps,
            match segment_new component_count with
            | None => Err (NFail TooManyComponentsInASegment)
            | Some s => Ok (remaining, segment_with_implicit_default s has_implicit_default)
            end)
      end
  end.

Definition segment_parser (comps : list Component) (input : list N)
  : option (list Component * IResult Segment ParseVersionErrorKind) :=
  match component_parser input with
  | Err (NErr (PVNom _)) => Some (comps, Err (NErr ExpectedComponent))
  | Err e => Some (comps, Err e)
  | Ok (rest, first_component) =>
      segment_loop (S (length rest)) (comps ++ [first_component]) 1
        (negb (component_is_numeric first_component)) rest
  end.

Definition trailing_dash_underscore_parser (input : list N) (dash_or_underscore : option N)
  : IResult (option Component * option N) ParseVersionErrorKind :=
  match opt (E := list N * ErrorKind) (one_of [c_dash; c_under]) input with
  | Err (NErr (_, kind)) => Err (NErr (PVNom kind))
  | Err (NFail (_, kind)) => Err (NFail (PVNom kind))
  | Ok (_, None) => Ok (input, (None, dash_or_underscore))
  | Ok (rest, Some separator) =>
      match update_dash dash_or_underscore separator with
      | None => Err (NErr CannotMixAndMatchDashesAndUnderscores)
      | Some dash_or_underscore =>
          Ok (rest, (Some (UnderscoreOrDash (separator =? c_dash)%N), dash_or_underscore))
      end
  end.

(** The two vectors and the result of [version_part_parser]. *)
Definition part_result : Type :=
  list Component * list Segment * IResult (option N) ParseVersionErrorKind.

(** [break Err(e)]: the segments pushed after the recovery point are removed. *)
Definition part_break (comps : list Component) (segs : list Segment) (recovery : nat)
    (e : nom_err ParseVersionErrorKind) : option part_result :=
  Some (comps, take recovery segs, Err e).

Fixpoint version_part_loop (fuel : nat) (comps : list Component) (segs : list Segment)
    (input : list N) (dash_or_underscore : option N) (recovery_segment_idx : nat)
  : option part_result :=
  match fuel with
  | 0 => None
  | S f =>
      match opt (one_of [c_dash; c_dot; c_under]) input with
      | Ok (_, None) => Some (comps, segs, Ok (input, dash_or_underscore))
      | Err (NErr _) => part_break comps segs recovery_segment_idx (NErr ExpectedSegmentSeparator)
      | Err (NFail e) => part_break comps segs recovery_segment_idx (NFail e)
      | Ok (rest, Some separator) =>
          match update_dash dash_or_underscore separator with
          | None => part_break comps segs recovery_segment_idx
                      (NFail CannotMixAndMatchDashesAndUnderscores)
          | Some dash_or_underscore =>
              r ← segment_parser comps rest;
              match r with
              | (comps, Ok (rest, segment)) =>
                  segment ← segment_with_separator segment (Some separator);
                  version_part_loop f comps (segs ++ [segment]) rest dash_or_underscore
                    (S recovery_segment_idx)
              | (comps, Err (NFail e)) => part_break comps segs recovery_segment_idx (NFail e)
              | (comps, Err (NErr _)) =>
                  match trailing_dash_underscore_parser rest dash_or_underscore with
                  | Err e => Some (comps, segs, Err e)
                  | Ok (rest, (Some component, dash_or_underscore)) =>
                      segment0 ← segment_new 1;
                      segment ← segment_with_separator
                                  (segment_with_implicit_default segment0 true) (Some separator);
                      Some (comps ++ [component], segs ++ [segment], Ok (rest, dash_or_underscore))
                  | Ok (rest, (None, dash_or_underscore')) =>
                      if (separator =? c_dash)%N || (separator =? c_under)%N then
                        segment ← last segs;
                        let comps := comps ++ [UnderscoreOrDash (separator =? c_dash)%N] in
                        match (if (u16_max <? segment_len segment + 1)%N then None
                               else segment_with_component_count segment (segment_len segment + 1)) with
                        | None => Some (comps, segs, Err (NFail TooManyComponentsInASegment))
                        | Some segment' =>
                            Some (comps, take (length segs - 1) segs ++ [segment'],
                                  Ok (rest, dash_or_underscore'))
                        end
                      else Some (comps, segs, Ok (input, dash_or_underscore))
                  end
              end
          end
      end
  end.

Definition version_part_parser (comps : list Component) (segs : list Segment)
    (input : list N) (dash_or_underscore : option N) : option part_result :=
  r ← segment_parser comps input;
  match r with
  | (comps, Err e) => Some (comps, segs, Err e)
  | (comps, Ok (rest, first_segment)) =>
      version_part_loop (S (length rest)) comps (segs ++ [first_segment]) rest
        dash_or_underscore (length segs)
  end.

Definition version_parser (input : list N) : option (IResult Version ParseVersionErrorKind) :=
  match input with
  | [] => Some (Err (NErr PVEmpty))
  | _ =>
    match opt epoch_parser input with
    | Err e => Some (Err e)
    | Ok (input, epoch) =>
      let flags := match epoch with
                   | Some _ => flags_with_has_epoch flags_default true
                   | None => flags_default end in
      p ← version_part_parser (epoch_components epoch) [] input None;
      match p with
      | (_, _, Err e) => Some (Err e)
      | (comps, segs, Ok (rest, dash_or_underscore)) =>
          match nom_char (E := list N * ErrorKind) c_plus rest with
          | Ok (local_version_part, _) =>
              match idx ← u8_try_from (length segs); flags_with_local_segment_index flags idx with
              | None => Some (Err (NErr TooManySegments))
              | Some flags =>
                  q ← version_part_parser comps segs local_version_part dash_or_underscore;
                  match q with
                  | (comps, segs, Ok (rest, _)) => Some (Ok (rest, mkVersion comps segs flags))
                  | (_, _, Err e) => Some (Err e)
                  end
              end
          | Err _ => Some (Ok (rest, mkVersion comps segs flags))
          end
      end
    end
  end.

(** [FromStr for Version] *)
Definition version_from_str (s : list N) : option (result ParseVersionError Version) :=
  r ← version_parser s;
  Some (match r with
        | Ok ([], version) => Ok version
        | Ok _ => Err (mkParseVersionError s PVExpectedEof)
        | Err (NFail e) | Err (NErr e) => Err (mkParseVersionError s e)
        end).

(** [FromStr for StrictVersion], whose wrapper is transparent. *)
Definition strict_version_from_str (s : list N) : option (result ParseVersionError Version) :=
  version_from_str s.
End parsers.

(** ** Definitions: display *)
Definition dash_char (is_dash : bool) : N := if is_dash then c_dash else c_under.

(** [Display for Component] *)
Definition component_display (c : Component) : list N :=
  match c with
  | Numeral n => u64_display n
  | Iden s => s
  | Post => txt "post"
  | Dev => txt "dev"
  | UnderscoreOrDash is_dash => [dash_char is_dash]
  end.

(** One round of [Display for SegmentFormatter]: the separator, then every
    component but the implicit default. *)
Definition segment_display (s : SegmentIter) : list N :=
  match si_separator s with Some c => [c] | None => [] end
  ++ concat (component_display <$> stored_components s).

Definition segment_formatter_display (epoch : option N) (iter : list SegmentIter) : list N :=
  match epoch with Some e => u64_display e ++ [c_bang] | None => [] end
  ++ concat (segment_display <$> iter).

(** [Display for Version] *)
Definition version_display (v : Version) : option (list N) :=
  e ← version_epoch_opt v;
  segs ← version_segments v;
  if version_has_local v then
    locals ← version_local_segments v;
    Some (segment_formatter_display e segs ++ [c_plus] ++ segment_formatter_display None locals)
  else Some (segment_formatter_display e segs).
