(* ===== verification/VersionGrammar.v ===== *)
(** * The grammar of version literals

    A declarative grammar of the texts [version_from_str] accepts, and of the
    version each of them stands for.  A text is an optional epoch, a release
    part and an optional local part; a part is a list of rows of tokens.  The
    parser is total, accepts exactly this grammar, and inverts [Display]. *)
From S2P Require Import Prelude Externs VersionRepr VersionOrder VersionOps.
From S2P Require Import VersionParse.

(** ** The grammar *)

Definition is_number (t : list N) : bool := forallb is_ascii_digit t.

(** The characters of a token of each class. *)
Definition class_char (num : bool) : N → bool :=
  if num then is_ascii_digit else is_ascii_alphabetic.

Definition is_alnum (c : N) : bool := is_ascii_digit c || is_ascii_alphabetic c.

(** A token: a number that fits in [u64], or a word. *)
Definition token_ok (t : list N) : bool :=
  match t with
  | [] => false
  | _ => if is_number t then match u64_from_str t with Ok _ => true | Err _ => false end
         else forallb is_ascii_alphabetic t
  end.

(** What a token, or the trailing dash or underscore, stands for. *)
Definition token_component (t : list N) : Component :=
  if bool_decide (t = [c_dash]) then UnderscoreOrDash true
  else if bool_decide (t = [c_under]) then UnderscoreOrDash false
  else if is_number t then Numeral (match u64_from_str t with Ok n => n | Err _ => 0%N end)
  else component_of_alpha t.

(** Numbers and words alternate. *)
Fixpoint chain (prev : bool) (toks : list (list N)) : bool :=
  match toks with
  | [] => true
  | t :: l => token_ok t && Bool.eqb (is_number t) (negb prev) && chain (is_number t) l
  end.
Definition row_ok (toks : list (list N)) : bool :=
  match toks with
  | [] => false
  | t :: l => token_ok t && chain (is_number t) l
  end.

(** How a part ends: with its last row, with a dash or underscore that belongs
    to the last row, or with a row of its own for it. *)
Inductive Tail : Type :=
| NoTail
| Attached (is_dash : bool)
| Separate (separator : N) (is_dash : bool).

(** A row: the separator before it and its tokens. *)
Definition Row : Type := option N * list (list N).

Fixpoint rows_of (sep : option N) (toks : list (list N)) (rest : list (N * list (list N)))
    (tail : Tail) : list Row :=
  match rest with
  | [] =>
      match tail with
      | NoTail => [(sep, toks)]
      | Attached b => [(sep, toks ++ [[dash_char b]])]
      | Separate s b => [(sep, toks); (Some s, [[dash_char b]])]
      end
  | (s, t) :: rest' => (sep, toks) :: rows_of (Some s) t rest' tail
  end.

Definition tail_text (tail : Tail) : list N :=
  match tail with
  | NoTail => []
  | Attached b => [dash_char b]
  | Separate s b => [s; dash_char b]
  end.
Definition rest_text (rest : list (N * list (list N))) (tail : Tail) : list N :=
  concat ((λ r, r.1 :: concat r.2) <$> rest) ++ tail_text tail.

(** The separators of a part, the trailing one included, in order. *)
Definition rest_dashes (rest : list (N * list (list N))) (tail : Tail) : list N :=
  rest.*1 ++ tail_text tail.

Definition is_sep (c : N) : bool := bool_decide (c ∈ [c_dash; c_dot; c_under]).
Definition tail_ok (tail : Tail) : bool :=
  match tail with Separate s _ => is_sep s | _ => true end.
Definition rest_ok (rest : list (N * list (list N))) (tail : Tail) : bool :=
  forallb (λ r, is_sep r.1 && row_ok r.2) rest && tail_ok tail.

(** A segment descriptor counts at most 8191 components. *)
Definition short_row (r : Row) : bool := (N.of_nat (length r.2) <=? 8191)%N.

Record PartText := mkPartText {
  pt_first : list (list N);
  pt_rest : list (N * list (list N));
  pt_tail : Tail
}.
Definition pt_rows (p : PartText) : list Row := rows_of None (pt_first p) (pt_rest p) (pt_tail p).
Definition pt_text (p : PartText) : list N :=
  concat (pt_first p) ++ rest_text (pt_rest p) (pt_tail p).
Definition pt_dashes (p : PartText) : list N := rest_dashes (pt_rest p) (pt_tail p).
Definition pt_ok (p : PartText) : bool :=
  row_ok (pt_first p) && rest_ok (pt_rest p) (pt_tail p) && forallb short_row (pt_rows p).

Record VersionText := mkVersionText {
  vt_epoch : option (list N);
  vt_release : PartText;
  vt_local : option PartText
}.

(** [-] and [_] are not mixed. *)
Definition unmixed (chars : list N) : bool := bool_decide (c_dash ∉ chars ∨ c_under ∉ chars).

(** The same, as the parser finds out: one character at a time. *)
Fixpoint dash_fold (d : option N) (chars : list N) : option (option N) :=
  match chars with
  | [] => Some d
  | c :: l => d' ← update_dash d c; dash_fold d' l
  end.

Definition vt_text (a : VersionText) : list N :=
  match vt_epoch a with Some t => t ++ [c_bang] | None => [] end
  ++ pt_text (vt_release a)
  ++ match vt_local a with Some l => c_plus :: pt_text l | None => [] end.

Definition vt_ok (a : VersionText) : bool :=
  match vt_epoch a with Some t => token_ok t && is_number t | None => true end
  && pt_ok (vt_release a)
  && match vt_local a with
     | Some l => pt_ok l && (length (pt_rows (vt_release a)) <=? 127)%nat
     | None => true
     end
  && unmixed (pt_dashes (vt_release a)
              ++ match vt_local a with Some l => pt_dashes l | None => [] end).

(** ** Meaning *)

(** The descriptor with the given fields. *)
Definition seg_word (n : N) (sep : option N) (implicit : bool) : Segment :=
  mkSegment (n + 8192 * match sep with
      | None => 0
      | Some c => if (c =? c_dash)%N then 1 else if (c =? c_under)%N then 2 else 3
      end + 32768 * if implicit then 1 else 0)%N.

Definition starts_with_word (cs : list Component) : bool :=
  match cs with c :: _ => negb (component_is_numeric c) | [] => false end.
Definition row_components (r : Row) : list Component := token_component <$> r.2.
Definition row_segment (r : Row) : Segment :=
  seg_word (N.of_nat (length r.2)) r.1 (starts_with_word (row_components r)).
Definition row_iter (r : Row) : SegmentIter := mkSegmentIter (row_segment r) (row_components r).

Definition token_value (t : list N) : N :=
  match u64_from_str t with Ok n => n | Err _ => 0%N end.

Definition vt_parts (a : VersionText) : parts :=
  mkParts (token_value <$> vt_epoch a) (row_iter <$> pt_rows (vt_release a))
    match vt_local a with Some l => row_iter <$> pt_rows l | None => [] end.

(** ** Segment descriptors *)
Lemma seg_word_fields n sep b :
  (n <= 8191)%N → is_separator sep →
  seg_fields (seg_word n sep b) = (n, sep, b) ∧ (seg_bits (seg_word n sep b) < 65536)%N.
Proof.
  intros Hn Hsep.
  exhaust 8192%N (λ n, forallb (λ sep, forallb (λ b, bool_decide
    (seg_fields (seg_word n sep b) = (n, sep, b) ∧ (seg_bits (seg_word n sep b) < 65536)%N))
    [true; false]) [None; Some c_dash; Some c_under; Some c_dot]) n H.
  rewrite forallb_forall in H. specialize (H sep). rewrite forallb_forall in H.
  apply (bool_decide_eq_true _), H.
  - destruct sep; simpl in *; naive_solver.
  - destruct b; simpl; auto.
Qed.

Lemma seg_word_intro s n sep b :
  (n <= 8191)%N → is_separator sep → (seg_bits s < 65536)%N → seg_fields s = (n, sep, b) →
  s = seg_word n sep b.
Proof.
  intros Hn Hsep Hs Hf. destruct (seg_word_fields n sep b Hn Hsep) as [Hw Hb].
  apply seg_fields_inj; [done..|]. congruence.
Qed.

Lemma segment_new_word n b :
  (n <= 8191)%N →
  ∃ s, segment_new n = Some s ∧ segment_with_implicit_default s b = seg_word n None b.
Proof.
  intros Hn. destruct (segment_new_fields n Hn) as (s & -> & Hs & Hb).
  exists s. split; [done|]. destruct (segment_with_implicit_default_fields s b Hb) as [Hf ?].
  apply seg_word_intro; [done..|]. unfold seg_fields in *. congruence.
Qed.

Lemma seg_word_with_separator n b c :
  (n <= 8191)%N → is_sep c = true →
  segment_with_separator (seg_word n None b) (Some c) = Some (seg_word n (Some c) b).
Proof.
  intros Hn Hc. destruct (seg_word_fields n None b Hn I) as [Hf Hb].
  assert (is_separator (Some c)) as Hs by (unfold is_sep in Hc; bool_hyps; simpl; set_solver).
  destruct (segment_with_separator_fields _ (Some c) Hb Hs) as (t & -> & Ht & ?). f_equal.
  apply seg_word_intro; [done..|]. unfold seg_fields in *. congruence.
Qed.

Lemma seg_word_len n sep b : (n <= 8191)%N → is_separator sep → segment_len (seg_word n sep b) = n.
Proof. intros Hn Hs. destruct (seg_word_fields n sep b Hn Hs) as [Hf _]. unfold seg_fields in Hf. congruence. Qed.

(** The count of a segment that receives the trailing dash. *)
Lemma seg_word_attach n sep b :
  (n <= 8191)%N → is_separator sep →
  (if (u16_max <? segment_len (seg_word n sep b) + 1)%N then None
   else segment_with_component_count (seg_word n sep b) (segment_len (seg_word n sep b) + 1)) =
  if (n + 1 <=? 8191)%N then Some (seg_word (n + 1) sep b) else None.
Proof.
  intros Hn Hs. rewrite seg_word_len by done. destruct (seg_word_fields n sep b Hn Hs) as [Hf Hb].
  rewrite (proj2 (N.ltb_ge _ _)) by (unfold u16_max; lia).
  destruct (n + 1 <=? 8191)%N eqn:E; bool_hyps.
  - destruct (segment_with_component_count_fields _ (n + 1) Hb E) as (t & -> & Ht & ?). f_equal.
    apply seg_word_intro; [done..|]. unfold seg_fields in *. congruence.
  - Transparent segment_with_component_count. unfold segment_with_component_count.
    Opaque segment_with_component_count. change COMPONENT_COUNT_MASK with 8191%N.
    by rewrite (proj2 (N.ltb_lt _ _)) by lia.
Qed.

(** ** Tokens *)
Lemma digit_not_alpha c : is_ascii_digit c = true → is_ascii_alphabetic c = false.
Proof.
  unfold is_ascii_digit, is_ascii_alphabetic, is_ascii_uppercase, is_ascii_lowercase.
  intros ?. bool_hyps.
  destruct (65 <=? c)%N eqn:E1, (c <=? 90)%N eqn:E2, (97 <=? c)%N eqn:E3, (c <=? 122)%N eqn:E4;
    simpl; bool_hyps; try done; lia.
Qed.

Lemma class_char_other num c : class_char num c = true → class_char (negb num) c = false.
Proof.
  destruct num; simpl; [apply digit_not_alpha|].
  intros H. destruct (is_ascii_digit c) eqn:E; [|done].
  by rewrite digit_not_alpha in H.
Qed.

Lemma class_char_alnum num c : class_char num c = true → is_alnum c = true.
Proof. unfold is_alnum. destruct num; simpl; intros ->; [done|]. by rewrite orb_true_r. Qed.

Lemma token_ok_spec t :
  token_ok t = true →
  ∃ c t', t = c :: t' ∧ class_char (is_number t) c = true ∧
    forallb (class_char (is_number t)) t = true ∧
    (is_number t = true → ∃ n, u64_from_str t = Ok n).
Proof.
  unfold token_ok. destruct t as [|c t]; [done|]. destruct (is_number (c :: t)) eqn:E; simpl class_char.
  - intros H. exists c, t. split; [done|]. unfold is_number in E. simpl in E. bool_hyps.
    split; [done|]. split; [by simpl; rewrite H0, H1|]. intros _.
    destruct (u64_from_str (c :: t)); naive_solver.
  - intros H. exists c, t. split; [done|]. split; [simpl in H; by bool_hyps|]. split; [done|done].
Qed.

(** Runs of characters of both classes determine the class. *)
Lemma is_number_false c t : is_ascii_alphabetic c = true → is_number (c :: t) = false.
Proof. intros H. apply (class_char_other false) in H. simpl in *. by rewrite H. Qed.

Lemma token_component_number t :
  token_ok t = true → is_number t = true → token_component t = Numeral (token_value t).
Proof.
  intros Ht Hn. unfold token_component. rewrite Hn.
  rewrite !bool_decide_eq_false_2; [done|..]; by intros ->.
Qed.

Lemma token_component_word t :
  token_ok t = true → is_number t = false → token_component t = component_of_alpha t.
Proof.
  intros Ht Hn. unfold token_component. rewrite Hn.
  rewrite !bool_decide_eq_false_2; [done|..]; by intros ->.
Qed.

Lemma component_of_alpha_not_numeric t : component_is_numeric (component_of_alpha t) = false.
Proof. unfold component_of_alpha. by repeat case_match. Qed.

Lemma token_component_numeric t :
  token_ok t = true → component_is_numeric (token_component t) = is_number t.
Proof.
  intros Ht. destruct (is_number t) eqn:E.
  - by rewrite token_component_number.
  - by rewrite token_component_word, component_of_alpha_not_numeric.
Qed.

(** ** The rows of a part *)
Lemma is_sep_separator c : is_sep c = true → is_separator (Some c).
Proof. unfold is_sep. intros ?. bool_hyps. simpl. set_solver. Qed.

Lemma dash_token b : token_component [dash_char b] = UnderscoreOrDash b.
Proof. by destruct b. Qed.

(** What a row may hold: tokens, and a dash or underscore at the end of the part. *)
Definition token_or_dash (t : list N) : Prop := token_ok t = true ∨ ∃ b, t = [dash_char b].

Lemma chain_tokens prev toks : chain prev toks = true → Forall token_or_dash toks.
Proof.
  revert prev. induction toks as [|t toks IH]; intros prev; simpl; [done|].
  intros ?. bool_hyps. constructor; [by left|by eapply IH].
Qed.

Lemma row_tokens toks : row_ok toks = true → toks ≠ [] ∧ Forall token_or_dash toks.
Proof.
  destruct toks as [|t toks]; [done|]. simpl. intros ?. bool_hyps.
  split; [done|]. constructor; [by left|by eapply chain_tokens].
Qed.

Record row_spec (r : Row) : Prop := {
  row_spec_sep : is_separator r.1;
  row_spec_nonempty : r.2 ≠ [];
  row_spec_tokens : Forall token_or_dash r.2
}.

Lemma rows_of_spec sep toks rs tl :
  is_separator sep → row_ok toks = true → rest_ok rs tl = true →
  Forall row_spec (rows_of sep toks rs tl).
Proof.
  unfold rest_ok. revert sep toks.
  induction rs as [|[s t] rs IH]; intros sep toks Hs [Hne Ht]%row_tokens Hr; simpl in *.
  - assert (∀ b, Forall token_or_dash [[dash_char b]]) as Hb
      by (intros b; constructor; [right; eauto|constructor]).
    destruct tl as [|b|s b]; simpl in Hr.
    + constructor; [done|constructor].
    + constructor; [|constructor]. split; simpl; [done|by destruct toks|by apply Forall_app].
    + constructor; [done|]. constructor; [|constructor]. split; simpl; [|done|done].
      by apply is_sep_separator.
  - bool_hyps. constructor; [done|].
    apply IH; [by apply is_sep_separator|done|by apply andb_true_iff].
Qed.

Lemma pt_rows_spec p : pt_ok p = true → Forall row_spec (pt_rows p).
Proof. unfold pt_ok, pt_rows. intros ?. bool_hyps. by apply rows_of_spec. Qed.

Lemma pt_rows_nonempty p : pt_rows p ≠ [].
Proof. unfold pt_rows. destruct (pt_rest p) as [|[s t] rs]; [by destruct (pt_tail p)|done]. Qed.

(** The descriptor of every row has the row's fields. *)
Lemma row_fields p r :
  pt_ok p = true → r ∈ pt_rows p →
  seg_fields (row_segment r) =
    (N.of_nat (length r.2), r.1, starts_with_word (row_components r)) ∧
  (seg_bits (row_segment r) < 65536)%N.
Proof.
  intros Hp Hr. pose proof (pt_rows_spec p Hp) as Hs. rewrite Forall_forall in Hs.
  destruct (Hs r Hr) as [Hsep _ _]. unfold pt_ok in Hp. bool_hyps.
  rewrite forallb_forall in H0. specialize (H0 r (proj1 (list_elem_of_In _ _) Hr)).
  unfold short_row in H0. bool_hyps. by apply seg_word_fields.
Qed.

Lemma part_wf p : pt_ok p = true → Forall wf_segment (row_iter <$> pt_rows p).
Proof.
  intros Hp. apply Forall_fmap, Forall_forall. intros r Hin.
  destruct (row_fields p r Hp Hin) as [Hf Hb]. split; [done|]. simpl.
  unfold row_components. rewrite length_fmap. unfold seg_fields in Hf. congruence.
Qed.

(** Every row starts with a number: its own or the implicit zero. *)
Lemma part_numeric p : pt_ok p = true → Forall numeric_row (row_iter <$> pt_rows p).
Proof.
  intros Hp. apply Forall_fmap, Forall_forall. intros r Hin.
  destruct (row_fields p r Hp Hin) as [Hf _].
  pose proof (pt_rows_spec p Hp) as Hs. rewrite Forall_forall in Hs.
  destruct (Hs r Hin) as [_ Hne _]. unfold numeric_row, si_components, si_has_implicit_default.
  simpl. unfold seg_fields in Hf. replace (segment_has_implicit_default (row_segment r))
    with (starts_with_word (row_components r)) by congruence.
  unfold row_components. destruct r as [sep [|t l]]; [done|]. simpl.
  destruct (token_component t); simpl; eauto.
Qed.

Section parse.
Context `{NM : Nom}.

(** [component_parser] as a function of the longest runs. *)
Lemma component_parser_eq s :
  component_parser s =
  match span is_ascii_digit s with
  | ([], _) =>
      match span is_ascii_alphabetic s with
      | ([], _) => Err (NErr (PVNom KAlpha))
      | (a, b) => Ok (b, component_of_alpha a)
      end
  | (ds, b) =>
      match u64_from_str ds with
      | Ok n => Ok (b, Numeral n)
      | Err e => Err (NFail (InvalidNumeral e))
      end
  end.
Proof.
  unfold component_parser. nom. unfold alt2_fun. nom. unfold map_fun at 1, numeral_parser. nom.
  unfold span1_fun at 1. destruct (span is_ascii_digit s) as [[|d ds] b].
  - unfold map_fun. nom. unfold span1_fun. by destruct (span is_ascii_alphabetic s) as [[|a l] b'].
  - by destruct (u64_from_str (d :: ds)).
Qed.

(** A token followed by anything that does not continue it is parsed. *)
Lemma component_parser_token t rest :
  token_ok t = true → stops (class_char (is_number t)) rest = true →
  component_parser (t ++ rest) = Ok (rest, token_component t).
Proof.
  intros Ht Hr. destruct (token_ok_spec t Ht) as (c & t' & Et & Hc & Hall & Hval).
  rewrite component_parser_eq. destruct (is_number t) eqn:Hn; simpl class_char in *.
  - rewrite span_app by done. destruct (Hval eq_refl) as [n Hv].
    rewrite token_component_number by done. unfold token_value. rewrite Et in *. by rewrite Hv.
  - rewrite token_component_word by done. apply (class_char_other false) in Hc as Hd. simpl in Hd.
    rewrite Et at 1. cbn [app span]. rewrite Hd. rewrite span_app by done. by rewrite Et.
Qed.

(** Whatever is parsed is such a token; a recoverable error means that there
    is none. *)
Lemma component_parser_inv s :
  match component_parser s with
  | Ok (rest, c) =>
      ∃ t, s = t ++ rest ∧ token_ok t = true ∧ c = token_component t ∧
        stops (class_char (is_number t)) rest = true
  | Err (NErr e) => e = PVNom KAlpha ∧ stops is_alnum s = true
  | Err (NFail _) => True
  end.
Proof.
  rewrite component_parser_eq.
  pose proof (span_spec is_ascii_digit s) as (Hs & Hd & Hst).
  destruct (span is_ascii_digit s) as [[|d ds] b]; simpl in Hs, Hd, Hst.
  - subst b. pose proof (span_spec is_ascii_alphabetic s) as (Hs & Ha & Hsa).
    destruct (span is_ascii_alphabetic s) as [[|a l] b]; simpl in Hs, Ha, Hsa.
    + subst b. split; [done|]. destruct s as [|c s]; [done|]. simpl in *. unfold is_alnum.
      by destruct (is_ascii_digit c), (is_ascii_alphabetic c).
    + assert (is_number (a :: l) = false) as Hn by (apply is_number_false; by bool_hyps).
      assert (token_ok (a :: l) = true) as Hok by (unfold token_ok; by rewrite Hn).
      exists (a :: l). rewrite token_component_word by done. by rewrite Hn.
  - assert (is_number (d :: ds) = true) as Hn by done.
    destruct (u64_from_str (d :: ds)) as [n|e] eqn:E; [|done].
    assert (token_ok (d :: ds) = true) as Hok by (unfold token_ok; by rewrite Hn, E).
    exists (d :: ds). rewrite token_component_number by done. unfold token_value.
    by rewrite Hn, E.
Qed.

(** ** Rows *)
Lemma stops_other num s t :
  token_ok t = true → s = t → stops (class_char num) s = true → is_number t = negb num.
Proof.
  intros Ht -> Hs. destruct (token_ok_spec t Ht) as (c & t' & -> & Hc & _).
  simpl in Hs. by destruct num, (is_number (c :: t')); simpl in *; rewrite ?Hc in Hs.
Qed.

Lemma stops_token num t rest :
  token_ok t = true → stops (class_char num) (t ++ rest) = true ↔
  token_ok t = true ∧ is_number t = negb num.
Proof.
  intros Ht. destruct (token_ok_spec t Ht) as (c & t' & E & Hc & _).
  rewrite E at 1. simpl. split.
  - intros H. split; [done|]. destruct num, (is_number t); simpl in *; rewrite ?Hc in H; done.
  - intros [_ Hn]. rewrite Hn in Hc. rewrite negb_true_iff, <-(negb_involutive num).
    by apply class_char_other.
Qed.

Lemma stops_alnum_class num s : stops is_alnum s = true → stops (class_char num) s = true.
Proof.
  destruct s as [|c s]; [done|]. simpl. unfold is_alnum. intros ?. bool_hyps. by destruct num; simpl; rewrite ?H, ?H0.
Qed.

(** The loop never runs out of fuel, and reads a chain of tokens. *)
Lemma segment_loop_inv fuel comps n b prev rest :
  length rest < fuel → stops (class_char prev) rest = true →
  ∃ r, segment_loop fuel comps n b rest = Some r ∧
    match r.2 with
    | Ok (rest', seg) =>
        ∃ toks, chain prev toks = true ∧ rest = concat toks ++ rest' ∧
          stops is_alnum rest' = true ∧ r.1 = comps ++ (token_component <$> toks) ∧
          (n + N.of_nat (length toks) <= 8191)%N ∧
          seg = seg_word (n + N.of_nat (length toks)) None b
    | Err (NErr _) => False
    | Err (NFail _) => True
    end.
Proof.
  revert comps n prev rest. induction fuel as [|f IH]; intros comps n prev rest Hf Hst; [lia|].
  cbn [segment_loop]. nom. unfold opt_fun.
  pose proof (component_parser_inv rest) as Hc.
  destruct (component_parser rest) as [[rest' c]|[e|e]]; [|destruct Hc as [-> Hs]|by eexists; split].
  - destruct Hc as (t & -> & Ht & -> & Hst').
    destruct (u16_max <? n + 1)%N; [by eexists; split|].
    apply (stops_token prev t rest' Ht) in Hst as [_ Hn].
    destruct (token_ok_spec t Ht) as (c & t' & Et & _).
    destruct (IH (comps ++ [token_component t]) (n + 1)%N (is_number t) rest') as (r & Hr & Hspec);
      [rewrite Et in Hf; simpl in Hf; rewrite length_app in Hf; lia|done|].
    exists r. split; [done|]. destruct r as [c' [[rest'' seg]|[e|e]]]; simpl in *; [|done..].
    destruct Hspec as (toks & Hch & -> & Hs & -> & Hb & ->). exists (t :: toks).
    simpl. rewrite Ht, Hn, eqb_reflx, <-app_assoc. simpl. rewrite <-Hn, <-app_assoc.
    repeat split; try done; [lia|]. f_equal. lia.
  - destruct (8191 <? n)%N eqn:E; bool_hyps.
    + rewrite segment_new_too_large by done. by eexists; split.
    + destruct (segment_new_word n b E) as (s & -> & ->). eexists; split; [done|]. simpl.
      exists []. simpl. rewrite app_nil_r, N.add_0_r. repeat split; done.
Qed.

Lemma segment_loop_chain fuel comps n b prev toks rest :
  length (concat toks ++ rest) < fuel → chain prev toks = true → stops is_alnum rest = true →
  (n + N.of_nat (length toks) <= 8191)%N →
  segment_loop fuel comps n b (concat toks ++ rest) =
  Some (comps ++ (token_component <$> toks),
        Ok (rest, seg_word (n + N.of_nat (length toks)) None b)).
Proof.
  revert fuel comps n prev. induction toks as [|t toks IH]; intros fuel comps n prev Hf Hch Hs Hn;
    (destruct fuel as [|f]; [lia|]); cbn [segment_loop]; nom; unfold opt_fun; simpl concat in *.
  - pose proof (component_parser_inv rest) as Hc. simpl app in *.
    destruct (component_parser rest) as [[rest' c]|[e|e]] eqn:E.
    + destruct Hc as (t & -> & Ht & _). destruct (token_ok_spec t Ht) as (d & t' & -> & Hd & _).
      apply class_char_alnum in Hd. simpl in Hs. by rewrite Hd in Hs.
    + destruct (segment_new_word n b ltac:(simpl in Hn; lia)) as (s & -> & ->).
      simpl. by rewrite app_nil_r, N.add_0_r.
    + rewrite component_parser_eq in E. destruct rest as [|c rest]; [done|]. simpl in Hs.
      unfold is_alnum in Hs. bool_hyps. simpl in E. rewrite H, H0 in E. done.
  - simpl in Hch. bool_hyps. apply eqb_prop in H1.
    assert (stops (class_char (is_number t)) (concat toks ++ rest) = true) as Hst.
    { destruct toks as [|u toks]; [by apply stops_alnum_class|]. simpl in *. bool_hyps.
      rewrite <-app_assoc. apply stops_token; [done|]. split; [done|]. by apply eqb_prop. }
    rewrite <-app_assoc, component_parser_token by done. simpl length in Hn.
    rewrite (proj2 (N.ltb_ge _ _)) by (unfold u16_max; lia).
    destruct (token_ok_spec t H) as (c & t' & Et & _).
    rewrite (IH f _ _ (is_number t));
      [|rewrite Et in Hf; simpl in Hf; rewrite <-app_assoc, length_app in Hf; lia|done..|lia].
    rewrite <-app_assoc. simpl. do 4 f_equal. f_equal. lia.
Qed.

Lemma segment_parser_inv comps input :
  ∃ r, segment_parser comps input = Some r ∧
    match r.2 with
    | Ok (rest, seg) =>
        ∃ toks, row_ok toks = true ∧ input = concat toks ++ rest ∧ stops is_alnum rest = true ∧
          r.1 = comps ++ (token_component <$> toks) ∧ (N.of_nat (length toks) <= 8191)%N ∧
          seg = row_segment (None, toks)
    | Err (NErr _) => r.1 = comps ∧ stops is_alnum input = true
    | Err (NFail _) => True
    end.
Proof.
  unfold segment_parser. pose proof (component_parser_inv input) as Hc.
  destruct (component_parser input) as [[rest c]|[e|e]];
    [|destruct Hc as [-> ?]; by eexists; split|by eexists; split].
  destruct Hc as (t & -> & Ht & -> & Hst).
  edestruct (segment_loop_inv (S (length rest))) as (r & Hr & Hspec); [|exact Hst|].
  { lia. }
  exists r. split; [exact Hr|]. destruct r as [c' [[rest' seg]|[e|e]]]; simpl in *; [|done..].
  destruct Hspec as (toks & Hch & -> & Hs & -> & Hb & ->). exists (t :: toks).
  simpl. rewrite Ht, <-!app_assoc. repeat split; try done; [lia|].
  unfold row_segment. simpl. f_equal. lia.
Qed.

Lemma segment_parser_row comps toks rest :
  row_ok toks = true → (N.of_nat (length toks) <= 8191)%N → stops is_alnum rest = true →
  segment_parser comps (concat toks ++ rest) =
  Some (comps ++ (token_component <$> toks), Ok (rest, row_segment (None, toks))).
Proof.
  intros Hok Hn Hs. destruct toks as [|t toks]; [done|]. simpl in Hok, Hn. bool_hyps.
  unfold segment_parser. simpl concat. rewrite <-app_assoc.
  assert (stops (class_char (is_number t)) (concat toks ++ rest) = true) as Hst.
  { destruct toks as [|u toks]; [by apply stops_alnum_class|]. simpl in *. bool_hyps.
    rewrite <-app_assoc. apply stops_token; [done|]. split; [done|]. by apply eqb_prop. }
  rewrite component_parser_token by done.
  rewrite (segment_loop_chain _ _ _ _ (is_number t)); [|lia|done|done|lia].
  rewrite <-app_assoc. unfold row_segment. simpl. do 5 f_equal. lia.
Qed.

(** No token: nothing is pushed and the error is recoverable. *)
Lemma segment_parser_none comps input :
  stops is_alnum input = true →
  segment_parser comps input = Some (comps, Err (NErr ExpectedComponent)).
Proof.
  intros Hs. unfold segment_parser. rewrite component_parser_eq.
  destruct input as [|c s]; [done|]. simpl in *. unfold is_alnum in Hs. bool_hyps.
  by rewrite H, H0.
Qed.

(** ** Parts *)
Lemma separator_opt input :
  opt (E := ParseVersionErrorKind) (one_of [c_dash; c_dot; c_under]) input =
  match input with
  | c :: s => if is_sep c then Ok (s, Some c) else Ok (input, None)
  | [] => Ok ([], None)
  end.
Proof.
  nom. unfold opt_fun. nom. destruct input as [|c s]; simpl; [done|].
  unfold is_sep. by case_bool_decide.
Qed.

Lemma trailing_eq input d :
  trailing_dash_underscore_parser input d =
  match input with
  | c :: s =>
      if bool_decide (c ∈ [c_dash; c_under]) then
        match update_dash d c with
        | None => Err (NErr CannotMixAndMatchDashesAndUnderscores)
        | Some d' => Ok (s, (Some (UnderscoreOrDash (c =? c_dash)%N), d'))
        end
      else Ok (input, (None, d))
  | [] => Ok ([], (None, d))
  end.
Proof.
  unfold trailing_dash_underscore_parser. nom. unfold opt_fun. nom.
  destruct input as [|c s]; simpl; [done|]. by case_bool_decide.
Qed.

Lemma dash_char_cases c :
  c ∈ [c_dash; c_under] → c = dash_char (c =? c_dash)%N.
Proof. intros [->|[->|?%not_elem_of_nil]%elem_of_cons]%elem_of_cons; done. Qed.

Lemma sep_not_alnum c : is_sep c = true → is_alnum c = false.
Proof.
  unfold is_sep. intros ?. bool_hyps.
  apply elem_of_cons in H as [->|[->|[->|?%not_elem_of_nil]%elem_of_cons]%elem_of_cons]; done.
Qed.

(** The descriptor of a row that is only a dash. *)
Lemma dash_segment s b :
  is_sep s = true →
  (segment0 ← segment_new 1;
   segment_with_separator (segment_with_implicit_default segment0 true) (Some s)) =
  Some (row_segment (Some s, [[dash_char b]])).
Proof.
  intros Hs. destruct (segment_new_word 1 true) as (x & -> & Hx); [lia|].
  cbn [mbind option_bind]. rewrite Hx, seg_word_with_separator by done.
  unfold row_segment, row_components. simpl. by rewrite dash_token.
Qed.

Lemma row_segment_attach sep toks b :
  toks ≠ [] →
  row_segment (sep, toks ++ [[dash_char b]]) =
  seg_word (N.of_nat (length toks) + 1) sep (starts_with_word (row_components (sep, toks))).
Proof.
  intros Hne. unfold row_segment, row_components. simpl. rewrite length_app. simpl.
  f_equal; [lia|]. by destruct toks.
Qed.

Lemma row_separator c toks :
  is_sep c = true → (N.of_nat (length toks) <= 8191)%N →
  segment_with_separator (row_segment (None, toks)) (Some c) = Some (row_segment (Some c, toks)).
Proof. intros Hc Hn. unfold row_segment at 1. simpl. by rewrite seg_word_with_separator. Qed.

Definition rows_components (rows : list Row) : list Component :=
  concat (row_components <$> rows).

(** One round of the loop, by what follows the separator: a row ... *)
Lemma part_loop_row f comps segs c toks rest d d1 k :
  is_sep c = true → update_dash d c = Some d1 →
  row_ok toks = true → (N.of_nat (length toks) <= 8191)%N → stops is_alnum rest = true →
  version_part_loop (S f) comps segs (c :: concat toks ++ rest) d k =
  version_part_loop f (comps ++ row_components (Some c, toks))
    (segs ++ [row_segment (Some c, toks)]) rest d1 (S k).
Proof.
  intros Hc Hd Hok Hn Hs. cbn [version_part_loop]. rewrite separator_opt, Hc, Hd.
  rewrite segment_parser_row by done. cbn [mbind option_bind].
  rewrite row_separator by done. done.
Qed.

(** ... or the trailing dash or underscore, or something else. *)
Definition attach_outcome (comps : list Component) (segs : list Segment) (r : Row) (c : N)
    (s : list N) (d1 : option N) : part_result :=
  if bool_decide (c ∈ [c_dash; c_under]) then
    if (N.of_nat (length r.2) + 1 <=? 8191)%N then
      (comps ++ [UnderscoreOrDash (c =? c_dash)%N],
       segs ++ [row_segment (r.1, r.2 ++ [[c]])], Ok (s, d1))
    else (comps ++ [UnderscoreOrDash (c =? c_dash)%N], segs ++ [row_segment r],
          Err (NFail TooManyComponentsInASegment))
  else (comps, segs ++ [row_segment r], Ok (c :: s, d1)).

Lemma part_loop_tail f comps segs r c s d d1 k :
  r.2 ≠ [] → (N.of_nat (length r.2) <= 8191)%N → is_separator r.1 →
  is_sep c = true → update_dash d c = Some d1 → stops is_alnum s = true →
  version_part_loop (S f) comps (segs ++ [row_segment r]) (c :: s) d k =
  Some match s with
       | e :: s' =>
           if bool_decide (e ∈ [c_dash; c_under]) then
             match update_dash d1 e with
             | None => (comps, segs ++ [row_segment r],
                        Err (NErr CannotMixAndMatchDashesAndUnderscores))
             | Some d2 => (comps ++ [UnderscoreOrDash (e =? c_dash)%N],
                 (segs ++ [row_segment r]) ++ [row_segment (Some c, [[e]])], Ok (s', d2))
             end
           else attach_outcome comps segs r c s d1
       | [] => attach_outcome comps segs r c s d1
       end.
Proof.
  intros Hne Hn Hsep Hc Hd Hs. destruct r as [sep toks]. simpl in Hne, Hn, Hsep.
  cbn [version_part_loop]. rewrite separator_opt, Hc, Hd.
  rewrite segment_parser_none by done. cbn [mbind option_bind]. rewrite trailing_eq.
  assert (bool_decide (c ∈ [c_dash; c_under]) = (c =? c_dash)%N || (c =? c_under)%N) as Hcd.
  { apply eq_bool_prop_intro. rewrite bool_decide_spec, Is_true_true, orb_true_iff, !N.eqb_eq. set_solver. }
  assert ((if (c =? c_dash)%N || (c =? c_under)%N then
      segment ← last (segs ++ [row_segment (sep, toks)]);
      match (if (u16_max <? segment_len segment + 1)%N then None
             else segment_with_component_count segment (segment_len segment + 1)) with
      | None => Some (comps ++ [UnderscoreOrDash (c =? c_dash)%N],
          segs ++ [row_segment (sep, toks)], Err (NFail TooManyComponentsInASegment))
      | Some segment' =>
          Some (comps ++ [UnderscoreOrDash (c =? c_dash)%N],
            take (length (segs ++ [row_segment (sep, toks)]) - 1) (segs ++ [row_segment (sep, toks)])
              ++ [segment'], Ok (s, d1))
      end
    else Some (comps, segs ++ [row_segment (sep, toks)], Ok (c :: s, d1))) =
    Some (attach_outcome comps segs (sep, toks) c s d1)) as Hattach.
  { unfold attach_outcome. rewrite Hcd. destruct (_ || _); [|done].
    rewrite last_snoc. cbn [mbind option_bind]. unfold row_segment at 1 2 3. cbn [fst snd].
    rewrite seg_word_attach by done. destruct (_ <=? 8191)%N; [|done].
    rewrite length_app. simpl length. replace (length segs + 1 - 1) with (length segs) by lia.
    rewrite take_app_length.
    pose proof (row_segment_attach sep toks (c =? c_dash)%N Hne) as Hr.
    rewrite <-dash_char_cases in Hr by (exact (bool_decide_eq_true_1 _ Hcd)). by rewrite Hr. }
  destruct s as [|e s']; [exact Hattach|].
  destruct (bool_decide (e ∈ _)) eqn:He; [apply bool_decide_eq_true_1 in He|exact Hattach].
  destruct (update_dash d1 e); [|done].
  pose proof (dash_segment c (e =? c_dash)%N Hc) as Hseg. rewrite <-dash_char_cases in Hseg by done.
  destruct (segment_new 1) as [x|]; [|done]. cbn [mbind option_bind] in *. by rewrite Hseg.
Qed.

Lemma update_dash_other d c : c ∉ [c_dash; c_under] → update_dash d c = Some d.
Proof.
  intros Hc. unfold update_dash.
  rewrite (proj2 (N.eqb_neq c c_dash)), (proj2 (N.eqb_neq c c_under)) by set_solver.
  destruct d; [|done]. by rewrite !andb_false_r.
Qed.

(** The rows a tail adds to the current one. *)
Lemma attach_outcome_inv comps segs sep toks c s d d1 rest d' :
  is_separator sep → toks ≠ [] → (N.of_nat (length toks) <= 8191)%N →
  update_dash d c = Some d1 →
  (attach_outcome (comps ++ row_components (sep, toks)) segs (sep, toks) c s d1).2 = Ok (rest, d') →
  ∃ tl, let rows := rows_of sep toks [] tl in
    tail_ok tl = true ∧ forallb short_row rows = true ∧ c :: s = tail_text tl ++ rest ∧
    dash_fold d (tail_text tl) = Some d' ∧
    (attach_outcome (comps ++ row_components (sep, toks)) segs (sep, toks) c s d1).1 =
    (comps ++ rows_components rows, segs ++ (row_segment <$> rows)).
Proof.
  intros Hsep Hne Hn Hd. unfold attach_outcome, short_row, rows_components. cbn [fst snd].
  case_bool_decide as Hc; [destruct (_ <=? 8191)%N eqn:E|]; simpl; [|done|].
  - intros [= -> ->]. exists (Attached (c =? c_dash)%N). simpl.
    rewrite <-dash_char_cases by done. rewrite Hd. simpl.
    rewrite length_app. simpl length. rewrite (proj2 (N.leb_le _ _)) by (bool_hyps; lia).
    repeat split; try done. unfold row_components. simpl.
    rewrite app_nil_r, fmap_app, app_assoc. simpl.
    by rewrite (dash_char_cases c Hc), dash_token, <-dash_char_cases.
  - rewrite update_dash_other in Hd by done. injection Hd as <-.
    intros [= <- <-]. exists NoTail. simpl. rewrite (proj2 (N.leb_le _ _)) by done.
    by rewrite app_nil_r.
Qed.

Definition part_spec (comps : list Component) (segs : list Segment) (sep : option N)
    (toks : list (list N)) (input : list N) (d : option N) (r : part_result) : Prop :=
  ∀ rest d', r.2 = Ok (rest, d') → ∃ rs tl,
    let rows := rows_of sep toks rs tl in
    rest_ok rs tl = true ∧ forallb short_row rows = true ∧
    input = rest_text rs tl ++ rest ∧ dash_fold d (rest_dashes rs tl) = Some d' ∧
    r.1 = (comps ++ rows_components rows, segs ++ (row_segment <$> rows)).

Lemma part_spec_tail comps segs sep toks c s d d1 :
  is_separator sep → toks ≠ [] → (N.of_nat (length toks) <= 8191)%N →
  is_sep c = true → update_dash d c = Some d1 →
  part_spec comps segs sep toks (c :: s) d
    match s with
    | e :: s' =>
        if bool_decide (e ∈ [c_dash; c_under]) then
          match update_dash d1 e with
          | None => (comps ++ row_components (sep, toks), segs ++ [row_segment (sep, toks)],
                     Err (NErr CannotMixAndMatchDashesAndUnderscores))
          | Some d2 => ((comps ++ row_components (sep, toks)) ++ [UnderscoreOrDash (e =? c_dash)%N],
              (segs ++ [row_segment (sep, toks)]) ++ [row_segment (Some c, [[e]])], Ok (s', d2))
          end
        else attach_outcome (comps ++ row_components (sep, toks)) segs (sep, toks) c s d1
    | [] => attach_outcome (comps ++ row_components (sep, toks)) segs (sep, toks) c s d1
    end.
Proof.
  intros Hsep Hne Hn Hc Hd.
  assert (part_spec comps segs sep toks (c :: s) d
    (attach_outcome (comps ++ row_components (sep, toks)) segs (sep, toks) c s d1)) as Hattach.
  { intros rest d' Hr. destruct (attach_outcome_inv _ _ _ _ _ _ _ _ _ _ Hsep Hne Hn Hd Hr)
      as (tl & Htl & Hsh & Htx & Hdf & Hst).
    exists [], tl. unfold rest_ok, rest_text, rest_dashes. simpl. by rewrite Htl. }
  destruct s as [|e s']; [exact Hattach|].
  case_bool_decide as He; [|exact Hattach].
  destruct (update_dash d1 e) as [d2|] eqn:Hd2; [|done].
  intros rest d' [= <- <-]. exists [], (Separate c (e =? c_dash)%N).
  unfold rest_ok, rest_text, rest_dashes, rows_components, short_row, row_components. simpl.
  rewrite <-!dash_char_cases by done. rewrite Hc, Hd. simpl. rewrite Hd2. simpl.
  rewrite (proj2 (N.leb_le _ _)) by done. repeat split; try done.
  rewrite (dash_char_cases e He), dash_token, <-dash_char_cases by done.
  by rewrite <-!app_assoc.
Qed.

(** The loop of [version_part_parser] returns; what it accepts is a sequence
    of rows and a tail. *)
Lemma part_loop_inv fuel comps segs sep toks input d k :
  length input < fuel → toks ≠ [] → (N.of_nat (length toks) <= 8191)%N → is_separator sep →
  ∃ r, version_part_loop fuel (comps ++ row_components (sep, toks))
         (segs ++ [row_segment (sep, toks)]) input d k = Some r ∧
    part_spec comps segs sep toks input d r.
Proof.
  revert comps segs sep toks input d k.
  induction fuel as [|f IH]; intros comps segs sep toks input d k Hf Hne Hlen Hsep; [lia|].
  assert (part_spec comps segs sep toks input d
    (comps ++ row_components (sep, toks), segs ++ [row_segment (sep, toks)], Ok (input, d))) as Hstop.
  { intros rest d' [= <- <-]. exists [], NoTail.
    unfold rest_ok, rest_text, rest_dashes, rows_components, short_row. simpl.
    by rewrite (proj2 (N.leb_le _ _)), app_nil_r by done. }
  destruct input as [|c s]; [by eexists; cbn [version_part_loop]; rewrite separator_opt|].
  destruct (is_sep c) eqn:Hc;
    [|by eexists; cbn [version_part_loop]; rewrite separator_opt, Hc].
  destruct (update_dash d c) as [d1|] eqn:Hd;
    [|by eexists; cbn [version_part_loop]; rewrite separator_opt, Hc, Hd].
  destruct (segment_parser_inv (comps ++ row_components (sep, toks)) s) as (r & Hr & Hspec).
  destruct r as [c' [[rest' seg]|[e|e]]]; simpl in Hspec.
  - destruct Hspec as (toks' & Hok & -> & Hs & _ & Hlen' & _).
    rewrite (part_loop_row _ _ _ _ _ _ _ _ _ Hc Hd Hok Hlen' Hs).
    edestruct (IH (comps ++ row_components (sep, toks)) (segs ++ [row_segment (sep, toks)])
      (Some c) toks' rest' d1 (S k)) as (r & -> & Hrs);
      [simpl in Hf; rewrite length_app in Hf; lia|by destruct toks'|done|by apply is_sep_separator|].
    eexists; split; [done|]. intros rest d' Hrd.
    destruct (Hrs rest d' Hrd) as (rs & tl & Hrok & Hsh & -> & Hdf & ->).
    exists ((c, toks') :: rs), tl.
    unfold rest_ok, rest_text, rest_dashes, rows_components in *. simpl in *.
    rewrite Hc, Hok, Hd. simpl. rewrite Hsh, <-!app_assoc. unfold short_row at 1.
    rewrite (proj2 (N.leb_le _ _)) by done. simpl. rewrite <-?app_assoc. done.
  - destruct Hspec as [_ Hs].
    rewrite (part_loop_tail _ _ _ (sep, toks) _ _ _ _ _ Hne Hlen Hsep Hc Hd Hs). eexists; split; [done|].
    by apply part_spec_tail.
  - eexists; cbn [version_part_loop]. rewrite separator_opt, Hc, Hd, Hr. by split.
Qed.

(** What may follow a part: the end of the text, a local part or a wildcard. *)
Definition wildcard (rest : list N) : bool :=
  match rest with
  | c :: s => (c =? c_star)%N || (c =? c_dot)%N && match s with d :: _ => (d =? c_star)%N | [] => false end
  | [] => false
  end.
Definition follows (rest : list N) : bool :=
  match rest with [] => true | c :: _ => (c =? c_plus)%N || wildcard rest end.

(** The first character of what follows is not part of the version, or is
    the dot of [.*]. *)
Lemma follows_cases rest :
  follows rest = true →
  rest = [] ∨ (∃ c s, rest = c :: s ∧ is_sep c = false ∧ is_alnum c = false) ∨
  (∃ s, rest = c_dot :: c_star :: s).
Proof.
  intros H. destruct rest as [|c s]; [by left|]. right. unfold follows, wildcard in H.
  apply orb_true_iff in H as [->%N.eqb_eq|[->%N.eqb_eq|[->%N.eqb_eq Hs]%andb_true_iff]%orb_true_iff].
  - left. by eexists _, _.
  - left. by eexists _, _.
  - right. destruct s as [|d s]; [done|]. apply N.eqb_eq in Hs as ->. eauto.
Qed.

Lemma follows_stops rest : follows rest = true → stops is_alnum rest = true.
Proof.
  intros [->|[(c & s & -> & _ & Hc)|(s & ->)]]%follows_cases; [done| |done].
  simpl. by rewrite Hc.
Qed.

Lemma dash_char_sep b : is_sep (dash_char b) = true.
Proof. by destruct b. Qed.

Lemma dash_char_dash b : bool_decide (dash_char b ∈ [c_dash; c_under]) = true.
Proof. by destruct b. Qed.

Lemma dash_char_is_dash b : (dash_char b =? c_dash)%N = b.
Proof. by destruct b. Qed.

Lemma follows_tail {A} (f : N → list N → A) (y : A) rest :
  follows rest = true →
  match rest with
  | e :: s' => if bool_decide (e ∈ [c_dash; c_under]) then f e s' else y
  | [] => y
  end = y.
Proof.
  intros [->|[(c & s & -> & Hc & _)|(s & ->)]]%follows_cases; [done| |done].
  rewrite bool_decide_eq_false_2; [done|]. intros Hin. unfold is_sep in Hc.
  apply bool_decide_eq_false in Hc. set_solver.
Qed.

Lemma part_loop_tail_complete fuel comps segs sep toks tl rest d d' k :
  length (tail_text tl ++ rest) < fuel → toks ≠ [] → is_separator sep →
  forallb short_row (rows_of sep toks [] tl) = true → tail_ok tl = true →
  follows rest = true → dash_fold d (tail_text tl) = Some d' →
  version_part_loop fuel (comps ++ row_components (sep, toks)) (segs ++ [row_segment (sep, toks)])
    (tail_text tl ++ rest) d k =
  Some (comps ++ rows_components (rows_of sep toks [] tl),
        segs ++ (row_segment <$> rows_of sep toks [] tl), Ok (rest, d')).
Proof.
  intros Hf Hne Hsep Hsh Htl Hfol Hdf. unfold rows_components, short_row in *.
  destruct tl as [|b|s b]; simpl in *; (destruct fuel as [|f]; [lia|]).
  - injection Hdf as <-. rewrite andb_true_r in Hsh. apply N.leb_le in Hsh.
    apply follows_cases in Hfol as [->|[(c & s & -> & Hc & _)|(s & ->)]].
    + cbn [version_part_loop]. by rewrite separator_opt, app_nil_r.
    + cbn [version_part_loop]. by rewrite separator_opt, app_nil_r, Hc.
    + rewrite (part_loop_tail f _ _ (sep, toks) c_dot (c_star :: s) d d k Hne Hsh Hsep eq_refl
        (update_dash_other d c_dot ltac:(set_solver)) eq_refl).
      by rewrite app_nil_r.
  - bool_hyps. rewrite length_app in *. simpl length in *.
    destruct (update_dash d (dash_char b)) as [d1|] eqn:Hd; [|done]. injection Hdf as ->.
    rewrite (part_loop_tail f _ _ (sep, toks) (dash_char b) _ _ d' _ Hne ltac:(simpl; lia) Hsep
      (dash_char_sep b) Hd (follows_stops _ Hfol)).
    rewrite follows_tail by done. unfold attach_outcome. rewrite dash_char_dash, dash_char_is_dash.
    cbn [fst snd]. rewrite (proj2 (N.leb_le _ _)) by lia. unfold row_components. simpl.
    by rewrite fmap_app, <-app_assoc, app_nil_r, <-dash_token.
  - bool_hyps. destruct (update_dash d s) as [d1|] eqn:Hd; [|done]. simpl in Hdf.
    destruct (update_dash d1 (dash_char b)) as [d2|] eqn:Hd2; [|done]. injection Hdf as ->.
    rewrite (part_loop_tail f _ _ (sep, toks) s (dash_char b :: rest) _ d1 _ Hne ltac:(simpl; lia) Hsep
      Htl Hd ltac:(by destruct b)).
    rewrite dash_char_dash, Hd2, dash_char_is_dash. unfold row_components. simpl.
    by rewrite dash_token, <-!app_assoc.
Qed.

Lemma part_loop_complete rs tl fuel comps segs sep toks rest d d' k :
  length (rest_text rs tl ++ rest) < fuel → toks ≠ [] → is_separator sep →
  forallb short_row (rows_of sep toks rs tl) = true → rest_ok rs tl = true →
  follows rest = true → dash_fold d (rest_dashes rs tl) = Some d' →
  version_part_loop fuel (comps ++ row_components (sep, toks)) (segs ++ [row_segment (sep, toks)])
    (rest_text rs tl ++ rest) d k =
  Some (comps ++ rows_components (rows_of sep toks rs tl),
        segs ++ (row_segment <$> rows_of sep toks rs tl), Ok (rest, d')).
Proof.
  revert fuel comps segs sep toks d k. unfold rest_text, rest_dashes, rest_ok.
  induction rs as [|[s t] rs IH]; intros fuel comps segs sep toks d k Hf Hne Hsep Hsh Hok Hfol Hdf.
  { simpl in *. by apply part_loop_tail_complete. }
  simpl in Hok, Hdf, Hsh. bool_hyps.
  destruct (update_dash d s) as [d1|] eqn:Hd; [|done]. simpl in Hdf.
  csimpl. rewrite <-!app_assoc. destruct fuel as [|f]; [lia|].
  assert (N.of_nat (length t) <= 8191)%N as Hlt.
  { assert (short_row (Some s, t) = true ∨ ∃ b, short_row (Some s, t ++ [[dash_char b]]) = true) as Hor.
    { destruct rs as [|[s' t'] rs]; [destruct tl|]; simpl in *; bool_hyps; eauto. }
    destruct Hor as [Hor|[b Hor]]; unfold short_row in Hor; simpl in Hor; bool_hyps;
      rewrite ?length_app in *; lia. }
  assert (stops is_alnum (rest_text rs tl ++ rest) = true) as Hst.
  { unfold rest_text. destruct rs as [|[s' t'] rs]; simpl in *; bool_hyps;
      [|by rewrite sep_not_alnum]. destruct tl as [|b|s' b]; simpl in *;
      [by apply follows_stops|by destruct b|by rewrite sep_not_alnum]. }
  unfold rest_text in Hst. rewrite <-app_assoc in Hst.
  rewrite (part_loop_row f _ _ s t _ d d1 k) by done.
  rewrite app_assoc.
  rewrite (IH f (comps ++ row_components (sep, toks)) (segs ++ [row_segment (sep, toks)])
    (Some s) t d1 (S k)).
  - unfold rows_components. simpl. by rewrite <-!app_assoc.
  - csimpl in Hf. repeat (rewrite ?length_app in *; simpl in Hf). lia.
  - by destruct t.
  - by apply is_sep_separator.
  - done.
  - by apply andb_true_iff.
  - done.
  - done.
Qed.

Lemma version_part_inv comps segs input d :
  ∃ r, version_part_parser comps segs input d = Some r ∧
    ∀ rest d', r.2 = Ok (rest, d') → ∃ p, pt_ok p = true ∧ input = pt_text p ++ rest ∧
      dash_fold d (pt_dashes p) = Some d' ∧
      r.1 = (comps ++ rows_components (pt_rows p), segs ++ (row_segment <$> pt_rows p)).
Proof.
  unfold version_part_parser.
  destruct (segment_parser_inv comps input) as (r & -> & Hspec). cbn [mbind option_bind].
  destruct r as [c [[rest seg]|[e|e]]]; simpl in Hspec; [|by eexists; split..].
  destruct Hspec as (toks & Hok & -> & Hs & -> & Hlen & ->).
  destruct (part_loop_inv (S (length rest)) comps segs None toks rest d (length segs))
    as (r & Hr & Hrs); [lia|by destruct toks|done|done|].
  exists r. split; [exact Hr|]. intros rest' d' Hrd.
  destruct (Hrs rest' d' Hrd) as (rs & tl & Hrok & Hsh & -> & Hdf & Hst).
  exists (mkPartText toks rs tl). unfold pt_ok, pt_rows, pt_text, pt_dashes. simpl.
  by rewrite Hok, Hrok, Hsh, <-app_assoc.
Qed.

Lemma first_short sep toks rs tl :
  forallb short_row (rows_of sep toks rs tl) = true → (N.of_nat (length toks) <= 8191)%N.
Proof.
  unfold short_row. destruct rs as [|[s' t'] rs]; [destruct tl|]; simpl; intros ?; bool_hyps;
    rewrite ?length_app in *; lia.
Qed.

Lemma rest_text_stops rs tl rest :
  rest_ok rs tl = true → follows rest = true → stops is_alnum (rest_text rs tl ++ rest) = true.
Proof.
  unfold rest_ok, rest_text. intros ? ?. bool_hyps. destruct rs as [|[s' t'] rs]; simpl in *; bool_hyps;
    [|by rewrite sep_not_alnum]. destruct tl as [|b|s' b]; simpl in *;
    [by apply follows_stops|by destruct b|by rewrite sep_not_alnum].
Qed.

Lemma version_part_complete comps segs p rest d d' :
  pt_ok p = true → follows rest = true → dash_fold d (pt_dashes p) = Some d' →
  version_part_parser comps segs (pt_text p ++ rest) d =
  Some (comps ++ rows_components (pt_rows p), segs ++ (row_segment <$> pt_rows p), Ok (rest, d')).
Proof.
  destruct p as [toks rs tl]. unfold pt_ok, pt_rows, pt_text, pt_dashes. simpl.
  intros Hok Hfol Hdf. bool_hyps. unfold version_part_parser. rewrite <-app_assoc.
  rewrite segment_parser_row by (done || by eapply first_short || by apply rest_text_stops).
  cbn [mbind option_bind].
  apply (part_loop_complete rs tl _ comps segs None toks rest d d' (length segs));
    (done || lia || by destruct toks).
Qed.

(** ** Epochs *)
Lemma bang_not_class num c : class_char num c = true → c ≠ c_bang.
Proof. intros H ->. by destruct num. Qed.

Lemma epoch_text t rest :
  token_ok t = true → is_number t = true →
  opt epoch_parser (t ++ c_bang :: rest) = Ok (rest, Some (token_value t)).
Proof.
  intros Ht Hn. destruct (token_ok_spec t Ht) as (c & t' & -> & _ & _ & Hv).
  destruct (Hv Hn) as [n Hval]. unfold token_value. rewrite Hval.
  nom. unfold opt_fun, epoch_parser. nom. unfold map_fun, pair_fun. nom.
  unfold span1_fun. rewrite span_app by done. nom. unfold one_of_fun.
  rewrite bool_decide_eq_true_2 by set_solver. cbn [fst]. by rewrite Hval.
Qed.

Lemma epoch_none input : c_bang ∉ input → opt epoch_parser input = Ok (input, None).
Proof.
  intros Hb. nom. unfold opt_fun, epoch_parser. nom. unfold map_fun, pair_fun. nom.
  unfold span1_fun. pose proof (span_spec is_ascii_digit input) as (Hi & _ & _).
  destruct (span is_ascii_digit input) as [[|d ds] b]; [done|]. simpl in Hi.
  nom. unfold one_of_fun. destruct b as [|c b]; [done|]. rewrite bool_decide_eq_false_2; [done|].
  intros ->%list_elem_of_singleton. apply Hb. rewrite Hi. set_solver.
Qed.

Lemma epoch_inv input :
  match opt epoch_parser input with
  | Ok (rest, Some n) =>
      ∃ t, token_ok t = true ∧ is_number t = true ∧ input = t ++ c_bang :: rest ∧ n = token_value t
  | Ok (rest, None) => rest = input
  | Err _ => True
  end.
Proof.
  nom. unfold opt_fun, epoch_parser. nom. unfold map_fun, pair_fun. nom.
  unfold span1_fun. pose proof (span_spec is_ascii_digit input) as (Hi & Hd & _).
  destruct (span is_ascii_digit input) as [[|d ds] b]; [done|]. simpl in Hi, Hd.
  nom. unfold one_of_fun. destruct b as [|c b]; [done|]. case_bool_decide as Hc; [|done].
  apply list_elem_of_singleton in Hc as ->. cbn [fst].
  destruct (u64_from_str (d :: ds)) as [n|e] eqn:E; [|done].
  assert (is_number (d :: ds) = true) as Hn by exact Hd.
  exists (d :: ds). unfold token_ok, token_value. rewrite Hn, E, Hi. done.
Qed.

Lemma token_bang t : token_ok t = true → c_bang ∉ t.
Proof.
  intros Ht Hin. destruct (token_ok_spec t Ht) as (_ & _ & _ & _ & Hall & _).
  rewrite forallb_forall in Hall. apply list_elem_of_In, Hall, bang_not_class in Hin. done.
Qed.

Lemma chain_bang prev toks : chain prev toks = true → c_bang ∉ concat toks.
Proof.
  revert prev. induction toks as [|t toks IH]; intros prev; simpl; [set_solver|].
  intros ?. bool_hyps. rewrite not_elem_of_app. split; [by apply token_bang|by eapply IH].
Qed.

Lemma row_bang toks : row_ok toks = true → c_bang ∉ concat toks.
Proof.
  destruct toks as [|t toks]; [done|]. simpl. intros ?. bool_hyps.
  rewrite not_elem_of_app. split; [by apply token_bang|by eapply chain_bang].
Qed.

Lemma sep_bang c : is_sep c = true → c_bang ≠ c.
Proof. by intros H <-. Qed.

Lemma part_bang p : pt_ok p = true → c_bang ∉ pt_text p.
Proof.
  destruct p as [toks rs tl]. unfold pt_ok, pt_text, rest_ok, rest_text. simpl.
  intros [[Hrow [Hrs Htl]%andb_true_iff]%andb_true_iff _]%andb_true_iff.
  rewrite !not_elem_of_app. split; [by apply row_bang|]. split.
  - clear -Hrs. induction rs as [|[s t] rs IH]; csimpl; [set_solver|]. simpl in *. bool_hyps.
    rewrite not_elem_of_cons, not_elem_of_app.
    split; [by apply sep_bang|]. split; [by apply row_bang|by apply IH].
  - destruct tl as [|b|s b]; simpl in *; [set_solver|by destruct b; set_solver|].
    apply sep_bang in Htl. destruct b; set_solver.
Qed.

(** ** Whole versions *)
Lemma vt_parts_wf a : vt_ok a = true → wf_parts (vt_parts a).
Proof.
  unfold vt_ok. intros [[[He Hr]%andb_true_iff Hl]%andb_true_iff Hd]%andb_true_iff.
  split; simpl.
  - intros H. apply fmap_nil_inv in H. by apply pt_rows_nonempty in H.
  - rewrite length_fmap. destruct (vt_local a) as [l|]; [|done].
    apply andb_true_iff in Hl as [_ Hl]. apply Nat.leb_le in Hl. done.
  - by apply part_wf.
  - destruct (vt_local a) as [l|]; [|constructor].
    apply andb_true_iff in Hl as [Hl _]. by apply part_wf.
Qed.

Lemma rows_raw (rows : list Row) : concat (si_raw <$> (row_iter <$> rows)) = rows_components rows.
Proof. unfold rows_components. by rewrite <-list_fmap_compose. Qed.

Lemma rows_segments (rows : list Row) : si_segment <$> (row_iter <$> rows) = row_segment <$> rows.
Proof. by rewrite <-list_fmap_compose. Qed.

Lemma dash_fold_Some (x y : N) l :
  (x = c_dash ∧ y = c_under) ∨ (x = c_under ∧ y = c_dash) →
  dash_fold (Some x) l = if decide (y ∈ l) then None else Some (Some x).
Proof.
  intros Hxy. induction l as [|c l IH]; cbn [dash_fold]; [done|].
  assert (update_dash (Some x) c = if decide (y = c) then None else Some (Some x)) as ->.
  { unfold update_dash. destruct Hxy as [[-> ->]|[-> ->]]; simpl.
    - rewrite orb_false_r. destruct (N.eqb_spec c c_under), (decide (c_under = c)); congruence.
    - destruct (N.eqb_spec c c_dash), (decide (c_dash = c)); congruence. }
  destruct (decide (y = c)) as [->|Hne]; cbn [mbind option_bind].
  - by rewrite decide_True by set_solver.
  - rewrite IH. by destruct (decide (y ∈ l)), (decide (y ∈ c :: l)); set_solver.
Qed.

Lemma unmixed_dash_fold l :
  unmixed l = match dash_fold None l with Some _ => true | None => false end.
Proof.
  unfold unmixed. induction l as [|c l IH]; [by rewrite bool_decide_eq_true_2 by set_solver|].
  cbn [dash_fold]. unfold update_dash.
  destruct (N.eqb_spec c c_dash) as [->|H1]; [|destruct (N.eqb_spec c c_under) as [->|H2]];
    cbn [orb mbind option_bind].
  - rewrite (dash_fold_Some c_dash c_under) by auto.
    destruct (decide (c_under ∈ l)); [rewrite bool_decide_eq_false_2|rewrite bool_decide_eq_true_2];
      set_solver.
  - rewrite (dash_fold_Some c_under c_dash) by auto.
    destruct (decide (c_dash ∈ l)); [rewrite bool_decide_eq_false_2|rewrite bool_decide_eq_true_2];
      set_solver.
  - rewrite <-IH. apply bool_decide_ext. set_solver.
Qed.

Lemma dash_fold_app d l k :
  dash_fold d (l ++ k) = d' ← dash_fold d l; dash_fold d' k.
Proof.
  revert d. induction l as [|c l IH]; intros d; simpl; [done|].
  destruct (update_dash d c); simpl; [apply IH|done].
Qed.

(** The flags the parser computes are those of the packed version. *)
Definition epoch_flags (e : option N) : Flags :=
  match e with Some _ => flags_with_has_epoch flags_default true | None => flags_default end.

Lemma epoch_flags_rebuilt e :
  epoch_flags e = if bool_decide (is_Some e) then flags_with_has_epoch flags_default true
                  else flags_default.
Proof. by destruct e. Qed.

Lemma pack_no_local e (rows : list Row) :
  mkVersion (epoch_components e ++ rows_components rows) (row_segment <$> rows) (epoch_flags e) =
  pack (mkParts e (row_iter <$> rows) []).
Proof.
  destruct (rebuilt_flags (bool_decide (is_Some e)) 0) as (Hf & Hb & _); [lia|].
  apply pack_intro; simpl.
  - by rewrite rows_raw, app_nil_r.
  - by rewrite rows_segments, app_nil_r.
  - by rewrite epoch_flags_rebuilt.
  - by rewrite epoch_flags_rebuilt.
Qed.

Lemma pack_with_local e (rows lrows : list Row) :
  lrows ≠ [] → length rows ≤ 127 →
  ∃ f, flags_with_local_segment_index (epoch_flags e) (N.of_nat (length rows)) = Some f ∧
    mkVersion ((epoch_components e ++ rows_components rows) ++ rows_components lrows)
      ((row_segment <$> rows) ++ (row_segment <$> lrows)) f =
    pack (mkParts e (row_iter <$> rows) (row_iter <$> lrows)).
Proof.
  intros Hne Hlen.
  destruct (rebuilt_flags (bool_decide (is_Some e)) (N.of_nat (length rows)))
    as (_ & _ & f & Hf & Hff & Hb); [lia|].
  exists f. rewrite epoch_flags_rebuilt. split; [done|]. apply pack_intro; simpl.
  - by rewrite !rows_raw, app_assoc.
  - by rewrite !rows_segments.
  - done.
  - rewrite Hff. unfold local_index. simpl. rewrite length_fmap. by destruct lrows.
Qed.

Lemma plus_char rest :
  nom_char (E := list N * ErrorKind) c_plus rest =
  match rest with
  | c :: s => if (c =? c_plus)%N then Ok (s, c_plus) else Err (NErr (rest, KChar))
  | [] => Err (NErr ([], KChar))
  end.
Proof.
  nom. unfold one_of_fun. destruct rest as [|c s]; [done|]. case_bool_decide as Hc.
  - apply list_elem_of_singleton in Hc as ->. done.
  - rewrite (proj2 (N.eqb_neq _ _)); [done|]. intros ->. set_solver.
Qed.

(** The parser returns, and what it accepts is derived by the grammar. *)
Lemma version_parser_inv s :
  ∃ r, version_parser s = Some r ∧
    ∀ rest v, r = Ok (rest, v) → ∃ a, vt_ok a = true ∧ s = vt_text a ++ rest ∧ v = pack (vt_parts a).
Proof.
  unfold version_parser.
  destruct s as [|c0 s0]; [by eexists|]. remember (c0 :: s0) as s eqn:Es. clear c0 s0 Es.
  pose proof (epoch_inv s) as He.
  destruct (opt epoch_parser s) as [[input e]|[x|x]]; [|by eexists..].
  destruct (version_part_inv (epoch_components e) [] input None) as (r & -> & Hr).
  cbn [mbind option_bind].
  destruct r as [[comps segs] [[rest d]|[x|x]]]; [|by eexists..].
  destruct (Hr rest d eq_refl) as (p & Hp & -> & Hd & [= -> ->]). clear Hr. simpl app.
  assert (∃ te, e = token_value <$> te ∧ match te with Some t => token_ok t && is_number t | None => true end = true
    ∧ s = match te with Some t => t ++ [c_bang] | None => [] end ++ pt_text p ++ rest) as (te & -> & Hte & ->).
  { destruct e as [n|].
    - destruct He as (t & Ht & Hn & -> & ->). exists (Some t). simpl. rewrite Ht, Hn, <-app_assoc. done.
    - exists None. by subst. }
  clear He. rewrite plus_char. fold (epoch_flags (token_value <$> te)). rewrite pack_no_local.
  assert (∃ r, Some (Ok (E := nom_err ParseVersionErrorKind)
      (rest, pack (mkParts (token_value <$> te) (row_iter <$> pt_rows p) []))) = Some r ∧
    ∀ rest' v, r = Ok (rest', v) → ∃ a, vt_ok a = true ∧
      match te with Some t => t ++ [c_bang] | None => [] end ++ pt_text p ++ rest = vt_text a ++ rest' ∧
      v = pack (vt_parts a)) as Hno.
  { eexists; split; [done|]. intros rest' v [= <- <-].
    exists (mkVersionText te p None). unfold vt_ok, vt_text. rewrite unmixed_dash_fold. simpl.
    by rewrite Hte, Hp, !app_nil_r, Hd, <-app_assoc. }
  destruct rest as [|c rest]; [exact Hno|]. destruct (c =? c_plus)%N eqn:Hc; [|exact Hno].
  apply N.eqb_eq in Hc as ->. clear Hno. unfold u8_try_from. rewrite length_fmap.
  destruct (N.of_nat (length (pt_rows p)) <=? u8_max)%N eqn:Hu; [cbn [mbind option_bind]|by eexists].
  destruct (decide (length (pt_rows p) ≤ 127)) as [Hlen|Hlen];
    [|rewrite flags_with_local_too_large by lia; by eexists].
  destruct (version_part_inv (epoch_components (token_value <$> te) ++ rows_components (pt_rows p))
    (row_segment <$> pt_rows p) rest d) as (r & Hq & Hr).
  destruct r as [[comps segs] [[rest' d']|[x|x]]].
  - destruct (Hr rest' d' eq_refl) as (l & Hl & -> & Hd' & [= -> ->]).
    destruct (pack_with_local (token_value <$> te) _ _ (pt_rows_nonempty l) Hlen) as (f & -> & Hpack).
    rewrite Hq. cbn [mbind option_bind]. rewrite Hpack. eexists; split; [done|].
    intros rest'' v [= <- <-].
    exists (mkVersionText te p (Some l)). unfold vt_ok. rewrite unmixed_dash_fold.
    cbn [vt_epoch vt_release vt_local].
    rewrite Hte, Hp, Hl, dash_fold_app, Hd. cbn [mbind option_bind]. rewrite Hd'.
    rewrite (proj2 (Nat.leb_le _ _)) by done. split; [done|]. split; [|done].
    unfold vt_text. simpl. by rewrite <-!app_assoc.
  - destruct (flags_with_local_segment_index _ _); [rewrite Hq|]; by eexists.
  - destruct (flags_with_local_segment_index _ _); [rewrite Hq|]; by eexists.
Qed.

Lemma version_from_str_inv s :
  ∃ r, version_from_str s = Some r ∧
    ∀ v, r = Ok v → ∃ a, vt_ok a = true ∧ s = vt_text a ∧ v = pack (vt_parts a).
Proof.
  unfold version_from_str. destruct (version_parser_inv s) as (r & -> & Hr).
  cbn [mbind option_bind]. eexists; split; [done|].
  destruct r as [[[|c rest] v]|[e|e]]; try done. intros ? [= <-].
  destruct (Hr [] v eq_refl) as (a & ? & -> & ->). exists a. by rewrite app_nil_r.
Qed.

(** What a match spec may leave after a version. *)
Definition is_glob (rest : list N) : bool :=
  bool_decide (rest ∈ [[]; [c_star]; [c_dot; c_star]]).

Lemma is_glob_spec rest :
  is_glob rest = true → follows rest = true ∧ c_bang ∉ rest ∧ ∀ s, rest ≠ c_plus :: s.
Proof.
  unfold is_glob. intros H%bool_decide_eq_true_1.
  repeat (apply elem_of_cons in H as [->|H]; [split; [done|]; set_solver|]). set_solver.
Qed.

(** Every text of the grammar is accepted, with its meaning; a wildcard after
    it is left. *)
Lemma version_parser_complete a rest :
  vt_ok a = true → is_glob rest = true →
  version_parser (vt_text a ++ rest) = Some (Ok (rest, pack (vt_parts a))).
Proof.
  destruct a as [te p lo]. unfold vt_ok, vt_text. cbn [vt_epoch vt_release vt_local].
  intros [[[He Hp]%andb_true_iff Hl]%andb_true_iff Hd]%andb_true_iff (Hfol & Hrb & Hplus)%is_glob_spec.
  rewrite <-!app_assoc.
  set (tail := match lo with Some l => c_plus :: pt_text l | None => [] end ++ rest).
  set (s := _ ++ pt_text p ++ tail).
  assert (c_bang ∉ pt_text p ++ tail) as Hbang.
  { rewrite not_elem_of_app. split; [by apply part_bang|]. subst tail. destruct lo as [l|]; [|done].
    apply andb_true_iff in Hl as [Hl _]. apply part_bang in Hl. set_solver. }
  assert (opt epoch_parser s = Ok (pt_text p ++ tail, token_value <$> te)) as Hepoch.
  { subst s. destruct te as [t|]; simpl; [|by apply epoch_none].
    rewrite <-app_assoc. simpl. bool_hyps. by rewrite epoch_text. }
  rewrite unmixed_dash_fold, dash_fold_app in Hd.
  destruct (dash_fold None (pt_dashes p)) as [d|] eqn:Hd1; [|done].
  cbn [mbind option_bind] in Hd. unfold version_parser.
  destruct s as [|c0 s0] eqn:Es.
  { exfalso. subst s. unfold pt_text in Es. apply app_eq_nil in Es as [_ Es].
    apply app_eq_nil in Es as [Es _]. apply app_eq_nil in Es as [Es _].
    unfold pt_ok in Hp. destruct (pt_first p) as [|t l]; [done|]. simpl in Hp, Es. bool_hyps.
    apply app_eq_nil in Es as [-> _]. done. }
  rewrite Hepoch. rewrite (version_part_complete _ _ p tail None d)
    by (done || by subst tail; destruct lo).
  cbn [mbind option_bind]. rewrite plus_char. simpl app. fold (epoch_flags (token_value <$> te)).
  subst tail. destruct lo as [l|]; simpl app.
  2: { rewrite pack_no_local. destruct rest as [|c rest]; [done|].
       destruct (c =? c_plus)%N eqn:Hc; [|done]. apply N.eqb_eq in Hc as ->. by destruct (Hplus rest). }
  apply andb_true_iff in Hl as [Hl Hlen]. apply Nat.leb_le in Hlen. simpl N.eqb. cbv iota.
  destruct (dash_fold d (pt_dashes l)) as [d'|] eqn:Hd2; [|done].
  destruct (pack_with_local (token_value <$> te) _ _ (pt_rows_nonempty l) Hlen) as (f & Hf & Hpack).
  unfold u8_try_from. rewrite length_fmap, (proj2 (N.leb_le _ _)) by (unfold u8_max; lia).
  cbn [mbind option_bind]. rewrite Hf.
  rewrite (version_part_complete _ _ l rest d d') by done.
  cbn [mbind option_bind]. by rewrite Hpack.
Qed.

Lemma version_from_str_complete a :
  vt_ok a = true → version_from_str (vt_text a) = Some (Ok (pack (vt_parts a))).
Proof.
  intros Ha. unfold version_from_str. rewrite <-(app_nil_r (vt_text a)).
  by rewrite version_parser_complete.
Qed.
End parse.

(** ** Canonical texts *)

(** A token as [Display] writes it: numbers without leading zeros, words in
    lower case. *)
Definition canon_token (t : list N) : list N := component_display (token_component t).
Definition canon_row (r : Row) : Row := (r.1, canon_token <$> r.2).
Definition canon_rest (r : N * list (list N)) : N * list (list N) := (r.1, canon_token <$> r.2).
Definition canon_part (p : PartText) : PartText :=
  mkPartText (canon_token <$> pt_first p)
    (canon_rest <$> pt_rest p) (pt_tail p).
Definition canon (a : VersionText) : VersionText :=
  mkVersionText ((λ t, u64_display (token_value t)) <$> vt_epoch a)
    (canon_part (vt_release a)) (canon_part <$> vt_local a).

Lemma u64_digits_bound acc s n :
  (acc <= u64_max)%N → u64_digits acc s = Ok n → (n <= u64_max)%N.
Proof.
  revert acc. induction s as [|c s IH]; intros acc Ha; simpl; [naive_solver|].
  destruct (is_ascii_digit c); [|done]. destruct (u64_max <? 10 * acc)%N eqn:?; [done|].
  destruct (u64_max <? 10 * acc + (c - 48))%N eqn:?; [done|]. bool_hyps. by apply IH.
Qed.

Lemma u64_from_str_bound s n : u64_from_str s = Ok n → (n <= u64_max)%N.
Proof.
  unfold u64_from_str. destruct s as [|c [|d s]]; [done|..]; case_bool_decide; try done;
    by apply u64_digits_bound.
Qed.

Lemma u64_display_number n : is_number (u64_display n) = true.
Proof.
  unfold is_number. apply forallb_forall. intros c Hc.
  by apply (u64_display_digits n), list_elem_of_In.
Qed.

Lemma token_value_bound t : (token_value t <= u64_max)%N.
Proof.
  unfold token_value. destruct (u64_from_str t) eqn:E; [|done]. by eapply u64_from_str_bound.
Qed.

Lemma u64_display_from_str n : (n <= u64_max)%N → u64_from_str (u64_display n) = Ok n.
Proof.
  intros Hn. rewrite u64_from_str_digits; [by apply u64_display_parse|apply u64_display_nonempty|].
  intros c. apply u64_display_digits.
Qed.

Lemma u64_display_token n :
  (n <= u64_max)%N → token_ok (u64_display n) = true ∧ token_value (u64_display n) = n.
Proof.
  intros Hn. unfold token_value. rewrite u64_display_from_str by done. split; [|done].
  unfold token_ok. rewrite u64_display_number, u64_display_from_str by done.
  pose proof (u64_display_nonempty n). by destruct (u64_display n).
Qed.

Lemma ascii_lower_alpha c :
  is_ascii_alphabetic c = true → is_ascii_lowercase (ascii_lower c) = true.
Proof.
  unfold is_ascii_alphabetic, ascii_lower, is_ascii_lowercase. intros H.
  destruct (is_ascii_uppercase c) eqn:E; simpl in H; [|exact H].
  unfold is_ascii_uppercase in E. bool_hyps. apply andb_true_iff. rewrite !N.leb_le. lia.
Qed.

Lemma ascii_lower_id c : is_ascii_lowercase c = true → ascii_lower c = c.
Proof.
  unfold is_ascii_lowercase, ascii_lower. intros H. bool_hyps.
  destruct (is_ascii_uppercase c) eqn:E; [|done].
  unfold is_ascii_uppercase in E. bool_hyps. lia.
Qed.

Lemma to_lower_id s : forallb is_ascii_lowercase s = true → to_ascii_lowercase s = s.
Proof.
  induction s as [|c s IH]; [done|]. csimpl. intros H. bool_hyps.
  by rewrite ascii_lower_id, IH.
Qed.

Lemma to_lower_lowercase s :
  forallb is_ascii_alphabetic s = true → forallb is_ascii_lowercase (to_ascii_lowercase s) = true.
Proof.
  induction s as [|c s IH]; [done|]. csimpl. intros H. bool_hyps.
  by rewrite ascii_lower_alpha, IH.
Qed.

Lemma lowercase_alpha s :
  forallb is_ascii_lowercase s = true → forallb is_ascii_alphabetic s = true.
Proof.
  rewrite !forallb_forall. intros H c Hc. unfold is_ascii_alphabetic.
  by rewrite (H c Hc), orb_true_r.
Qed.

(** A word is lower-cased, [post] and [dev] included. *)
Lemma component_of_alpha_display t :
  forallb is_ascii_alphabetic t = true →
  component_display (component_of_alpha t) = to_ascii_lowercase t.
Proof.
  intros Ha. unfold component_of_alpha, eq_ignore_ascii_case.
  case_bool_decide as Hp; [by rewrite Hp|]. case_bool_decide as Hd; [by rewrite Hd|].
  destruct (forallb is_ascii_lowercase t) eqn:E; [|done]. simpl. by rewrite to_lower_id.
Qed.

Lemma component_of_alpha_lower t :
  forallb is_ascii_alphabetic t = true →
  component_of_alpha (to_ascii_lowercase t) = component_of_alpha t.
Proof.
  intros Ha. unfold component_of_alpha, eq_ignore_ascii_case.
  pose proof (to_lower_lowercase t Ha) as Hl. rewrite (to_lower_id _ Hl), Hl.
  case_bool_decide; [done|]. case_bool_decide; [done|].
  destruct (forallb is_ascii_lowercase t) eqn:E; [|done]. by rewrite to_lower_id.
Qed.

Lemma canon_token_ok t :
  token_ok t = true →
  token_ok (canon_token t) = true ∧ is_number (canon_token t) = is_number t ∧
  token_component (canon_token t) = token_component t.
Proof.
  intros Ht. unfold canon_token. destruct (token_ok_spec t Ht) as (c & t' & Et & _ & Hall & _).
  destruct (is_number t) eqn:Hn.
  - rewrite token_component_number by done. simpl component_display.
    destruct (u64_display_token (token_value t) (token_value_bound t)) as [Hok Hv].
    split; [done|]. split; [apply u64_display_number|].
    rewrite token_component_number; [by rewrite Hv|done|apply u64_display_number].
  - rewrite token_component_word by done. simpl in Hall.
    rewrite component_of_alpha_display by done.
    pose proof (lowercase_alpha _ (to_lower_lowercase _ Hall)) as Hl.
    assert (is_number (to_ascii_lowercase t) = false) as Hln.
    { rewrite Et in *. apply is_number_false. simpl in Hl. by bool_hyps. }
    assert (token_ok (to_ascii_lowercase t) = true) as Hok.
    { unfold token_ok. rewrite Hln, Hl. by rewrite Et. }
    split; [done|]. split; [done|].
    rewrite token_component_word by done. by apply component_of_alpha_lower.
Qed.

Lemma canon_token_dash b : canon_token [dash_char b] = [dash_char b].
Proof. by destruct b. Qed.

Lemma canon_token_component t :
  token_or_dash t → token_component (canon_token t) = token_component t.
Proof. intros [Ht|[b ->]]; [by apply canon_token_ok|by rewrite canon_token_dash]. Qed.

Lemma canon_chain prev toks : chain prev toks = true → chain prev (canon_token <$> toks) = true.
Proof.
  revert prev. induction toks as [|t toks IH]; intros prev; [done|]. csimpl. intros ?. bool_hyps.
  destruct (canon_token_ok t) as (Hok & Hn & _); [done|]. by rewrite Hok, Hn, H1, IH.
Qed.

Lemma canon_row_ok toks : row_ok toks = true → row_ok (canon_token <$> toks) = true.
Proof.
  destruct toks as [|t toks]; [done|]. csimpl. intros ?. bool_hyps.
  destruct (canon_token_ok t) as (Hok & Hn & _); [done|]. by rewrite Hok, Hn, canon_chain.
Qed.

Lemma canon_rows_of sep toks rs tl :
  rows_of sep (canon_token <$> toks) (canon_rest <$> rs) tl =
  canon_row <$> rows_of sep toks rs tl.
Proof.
  revert sep toks. induction rs as [|[s t] rs IH]; intros sep toks; csimpl.
  - unfold canon_row. destruct tl as [|b|s b]; csimpl; [done| |].
    + by rewrite fmap_app, <-(canon_token_dash b) at 1.
    + by rewrite canon_token_dash.
  - by rewrite IH.
Qed.

Lemma canon_pt_rows p : pt_rows (canon_part p) = canon_row <$> pt_rows p.
Proof. apply canon_rows_of. Qed.

Lemma canon_pt_dashes p : pt_dashes (canon_part p) = pt_dashes p.
Proof. unfold pt_dashes, rest_dashes. simpl. by rewrite <-list_fmap_compose. Qed.

Lemma canon_pt_ok p : pt_ok p = true → pt_ok (canon_part p) = true.
Proof.
  unfold pt_ok, rest_ok. rewrite canon_pt_rows. simpl.
  intros [[Hf [Hr Ht]%andb_true_iff]%andb_true_iff Hs]%andb_true_iff.
  rewrite canon_row_ok, Ht, andb_true_r by done. apply andb_true_iff. split; [simpl|].
  - rewrite forallb_forall in *. intros x (r & -> & Hin%list_elem_of_In)%list_elem_of_In%list_elem_of_fmap.
    specialize (Hr r Hin). simpl. bool_hyps. by rewrite H, canon_row_ok.
  - rewrite forallb_forall in *. intros x (r & -> & Hin%list_elem_of_In)%list_elem_of_In%list_elem_of_fmap.
    specialize (Hs r Hin). unfold short_row in *. simpl. by rewrite length_fmap.
Qed.

Lemma canon_ok a : vt_ok a = true → vt_ok (canon a) = true.
Proof.
  destruct a as [te p lo]. unfold vt_ok. simpl.
  intros [[[He Hp]%andb_true_iff Hl]%andb_true_iff Hd]%andb_true_iff.
  rewrite canon_pt_ok, canon_pt_dashes, canon_pt_rows, length_fmap by done.
  repeat (apply andb_true_iff; split); try done.
  - destruct te as [t|]; [|done]. simpl.
    destruct (u64_display_token (token_value t) (token_value_bound t)) as [-> _].
    apply u64_display_number.
  - destruct lo as [l|]; [|done]. simpl. bool_hyps. by rewrite canon_pt_ok.
  - destruct lo as [l|]; simpl; by rewrite ?canon_pt_dashes.
Qed.

Lemma canon_row_iter r : row_spec r → row_iter (canon_row r) = row_iter r.
Proof.
  intros [_ _ Ht]. assert (row_components (canon_row r) = row_components r) as E.
  { unfold row_components. simpl. rewrite <-list_fmap_compose.
    apply list_fmap_ext. intros i t Hi. apply canon_token_component. by eapply Forall_lookup_1. }
  unfold row_iter, row_segment. rewrite E. simpl. by rewrite length_fmap.
Qed.

Lemma canon_part_iters p :
  pt_ok p = true → row_iter <$> pt_rows (canon_part p) = row_iter <$> pt_rows p.
Proof.
  intros Hp%pt_rows_spec. rewrite canon_pt_rows, <-list_fmap_compose. apply list_fmap_ext.
  intros i r Hi. apply canon_row_iter. by eapply Forall_lookup_1.
Qed.

(** Canonicalising a text does not change what it stands for. *)
Lemma canon_parts a : vt_ok a = true → vt_parts (canon a) = vt_parts a.
Proof.
  destruct a as [te p lo]. unfold vt_ok, vt_parts. simpl.
  intros [[[He Hp]%andb_true_iff Hl]%andb_true_iff Hd]%andb_true_iff. f_equal.
  - destruct te as [t|]; [|done]. simpl. f_equal. apply u64_display_token, token_value_bound.
  - by apply canon_part_iters.
  - destruct lo as [l|]; [|done]. simpl. bool_hyps. by apply canon_part_iters.
Qed.

(** ** Display *)
Definition row_text (r : Row) : list N :=
  match r.1 with Some c => [c] | None => [] end ++ concat r.2.

Lemma rows_of_text sep toks rs tl :
  concat (row_text <$> rows_of sep toks rs tl) =
  match sep with Some c => [c] | None => [] end ++ concat toks ++ rest_text rs tl.
Proof.
  unfold rest_text. revert sep toks.
  induction rs as [|[s t] rs IH]; intros sep toks; csimpl; unfold row_text at 1; simpl.
  - unfold row_text. destruct tl; csimpl; rewrite ?app_nil_r, ?concat_app; simpl;
      by rewrite <-?app_assoc, ?app_nil_r.
  - rewrite IH. simpl. by rewrite <-!app_assoc.
Qed.

Lemma segment_display_row p r :
  pt_ok p = true → r ∈ pt_rows p → segment_display (row_iter r) = row_text (canon_row r).
Proof.
  intros Hp Hr. destruct (row_fields p r Hp Hr) as [Hf _]. unfold segment_display.
  rewrite stored_raw. unfold si_separator, row_text. simpl. unfold seg_fields in Hf.
  replace (segment_separator (row_segment r)) with (r.1) by congruence.
  unfold row_components. by rewrite <-list_fmap_compose.
Qed.

Lemma part_display p :
  pt_ok p = true →
  concat (segment_display <$> (row_iter <$> pt_rows p)) = pt_text (canon_part p).
Proof.
  intros Hp. transitivity (concat (row_text <$> pt_rows (canon_part p))).
  - rewrite canon_pt_rows, <-!list_fmap_compose. f_equal. apply list_fmap_ext.
    intros i r Hi. apply (segment_display_row p); [done|]. by eapply list_elem_of_lookup_2.
  - unfold pt_rows. by rewrite rows_of_text.
Qed.

(** [Display] writes the canonical text. *)
Lemma version_display_canon a :
  vt_ok a = true → version_display (pack (vt_parts a)) = Some (vt_text (canon a)).
Proof.
  intros Ha. pose proof (vt_parts_wf a Ha) as Hwf. unfold version_display. unpack.
  destruct a as [te p lo]. unfold vt_ok in Ha. simpl in Ha.
  apply andb_true_iff in Ha as [[[He Hp]%andb_true_iff Hl]%andb_true_iff Hd].
  unfold vt_text, segment_formatter_display. simpl.
  rewrite part_display by done. destruct lo as [l|]; simpl.
  - apply andb_true_iff in Hl as [Hl _]. rewrite part_display by done.
    destruct (row_iter <$> pt_rows l) eqn:E; [apply fmap_nil_inv in E; by apply pt_rows_nonempty in E|].
    destruct te; simpl; by rewrite <-?app_assoc.
  - rewrite app_nil_r. by destruct te.
Qed.
