(* ===== verification/VersionSource.v ===== *)
(** * Versions that remember their source text

    [rattler_conda_version/src/version/with_source.rs]: [VersionWithSource]
    pairs a version with the text it was parsed from, orders by version and
    then by text, and displays the text it was given. *)
From S2P Require Import Prelude Externs VersionRepr VersionOrder VersionOps.
From S2P Require Import VersionParse VersionGrammar.

(** ** Definitions *)
Record VersionWithSource := mkVersionWithSource {
  vws_version : Version;
  vws_source : option (list N)
}.

Definition vws_new (version : Version) (source : list N) : VersionWithSource :=
  mkVersionWithSource version (Some source).

(** [From<Version>] *)
Definition vws_from_version (version : Version) : VersionWithSource :=
  mkVersionWithSource version None.

Definition vws_as_str (v : VersionWithSource) : option (list N) :=
  match vws_source v with
  | Some source => Some source
  | None => version_display (vws_version v)
  end.

(** [Display] *)
Definition vws_display (v : VersionWithSource) : option (list N) :=
  match vws_source v with
  | Some source => Some source
  | None => version_display (vws_version v)
  end.

(** [Hash] *)
Definition vws_hash (v : VersionWithSource) : option (list HashWrite) :=
  h ← version_hash (vws_version v);
  Some (h ++ [HashSource (vws_source v)]).

Section with_source.
Context `{IT : Itertools} `{NM : Nom}.

(** [FromStr] *)
Definition vws_from_str (s : list N) : option (result ParseVersionError VersionWithSource) :=
  r ← version_from_str s;
  Some (match r with
        | Ok version => Ok (mkVersionWithSource version (Some s))
        | Err e => Err e
        end).

(** [PartialEq]: [&&] evaluates its right side only when the versions agree. *)
Definition vws_eqb (v w : VersionWithSource) : option bool :=
  b ← version_eqb (vws_version v) (vws_version w);
  if b : bool then
    s ← vws_as_str v;
    t ← vws_as_str w;
    Some (bool_decide (s = t))
  else Some false.

(** [Ord] *)
Definition vws_cmp (v w : VersionWithSource) : option comparison :=
  c ← version_cmp (vws_version v) (vws_version w);
  match c with
  | Eq =>
      s ← vws_as_str v;
      t ← vws_as_str w;
      Some (str_cmp s t)
  | _ => Some c
  end.
End with_source.

(** ** Lemmas *)

(** A value whose version is well formed, as every constructor makes it. *)
Definition vws_wf (v : VersionWithSource) : Prop := wf (vws_version v).

Lemma version_display_total v : wf v → ∃ s, version_display v = Some s.
Proof.
  intros (p & Hp & ->). unfold version_display. unpack.
  destruct (match p_local p with [] => false | _ => true end); eauto.
Qed.

Lemma vws_as_str_total v : vws_wf v → ∃ s, vws_as_str v = Some s.
Proof.
  unfold vws_as_str. destruct (vws_source v); [by eauto|]. apply version_display_total.
Qed.
