(* ===== verification/VersionSpec.v ===== *)
(** * Version constraints

    [rattler_conda_version/src/version_spec/{mod,constraint,parse}.rs]: the
    operators and their complements, [VersionSpec] with [matches] and
    [Display], and the parsers of constraints and of grouped constraints. *)
From S2P Require Import Prelude Externs VersionRepr VersionOrder VersionOps.
From S2P Require Import VersionParse VersionGrammar.

(** ** Definitions: data *)
Inductive ParseStrictness : Type := Lenient | Strict.

Inductive RangeOperator : Type := Greater | GreaterEquals | Less | LessEquals.
Inductive StrictRangeOperator : Type := StartsWith | NotStartsWith | Compatible | NotCompatible.
Inductive EqualityOperator : Type := Equals | NotEquals.
Inductive VersionOperators : Type :=
| OpRange (op : RangeOperator)
| OpStrictRange (op : StrictRangeOperator)
| OpExact (op : EqualityOperator).
Inductive LogicalOperator : Type := And | Or.

#[export] Instance logical_operator_eq_dec : EqDecision LogicalOperator.
Proof. solve_decision. Defined.
#[export] Instance strictness_eq_dec : EqDecision ParseStrictness.
Proof. solve_decision. Defined.

Definition range_complement (op : RangeOperator) : RangeOperator :=
  match op with
  | Greater => LessEquals
  | GreaterEquals => Less
  | Less => GreaterEquals
  | LessEquals => Greater
  end.
Definition strict_range_complement (op : StrictRangeOperator) : StrictRangeOperator :=
  match op with
  | StartsWith => NotStartsWith
  | NotStartsWith => StartsWith
  | Compatible => NotCompatible
  | NotCompatible => Compatible
  end.
Definition equality_complement (op : EqualityOperator) : EqualityOperator :=
  match op with Equals => NotEquals | NotEquals => Equals end.
Definition logical_complement (op : LogicalOperator) : LogicalOperator :=
  match op with And => Or | Or => And end.

(** [StrictVersion] is a transparent wrapper of [Version]. *)
Inductive VersionSpec : Type :=
| SNone
| SAny
| SRange (op : RangeOperator) (limit : Version)
| SStrictRange (op : StrictRangeOperator) (limit : Version)
| SExact (op : EqualityOperator) (limit : Version)
| SGroup (op : LogicalOperator) (group : list VersionSpec).

Inductive Constraint : Type :=
| CAny
| CComparison (op : RangeOperator) (version : Version)
| CStrictComparison (op : StrictRangeOperator) (version : Version)
| CExact (op : EqualityOperator) (version : Version).

(** [From<Constraint> for VersionSpec] *)
Definition spec_of_constraint (c : Constraint) : VersionSpec :=
  match c with
  | CAny => SAny
  | CComparison op ver => SRange op ver
  | CStrictComparison op ver => SStrictRange op ver
  | CExact e ver => SExact e ver
  end.

(** ** Definitions: matching *)

(** [Iterator::all] and [Iterator::any] with a closure that may panic. *)
Section short_circuit.
Context {A : Type} (f : A → option bool).
Fixpoint all_opt (l : list A) : option bool :=
  match l with
  | [] => Some true
  | x :: l' => b ← f x; if b : bool then all_opt l' else Some false
  end.
Fixpoint any_opt (l : list A) : option bool :=
  match l with
  | [] => Some false
  | x :: l' => b ← f x; if b : bool then Some true else any_opt l'
  end.
End short_circuit.

Definition is_gt (c : comparison) : bool := match c with Gt => true | _ => false end.
Definition is_lt (c : comparison) : bool := match c with Lt => true | _ => false end.

Section matching.
Context `{IT : Itertools}.

(** [version.starts_with(limit)] on a [StrictVersion] limit goes through
    [Deref]. *)
Fixpoint spec_matches (spec : VersionSpec) (version : Version) : option bool :=
  match spec with
  | SNone => Some false
  | SAny => Some true
  | SExact Equals limit => version_eqb limit version
  | SExact NotEquals limit => b ← version_eqb limit version; Some (negb b)
  | SRange Greater limit => c ← version_cmp version limit; Some (is_gt c)
  | SRange GreaterEquals limit => c ← version_cmp version limit; Some (negb (is_lt c))
  | SRange Less limit => c ← version_cmp version limit; Some (is_lt c)
  | SRange LessEquals limit => c ← version_cmp version limit; Some (negb (is_gt c))
  | SStrictRange StartsWith limit => version_starts_with version limit
  | SStrictRange NotStartsWith limit => b ← version_starts_with version limit; Some (negb b)
  | SStrictRange Compatible limit => version_compatible_with version limit
  | SStrictRange NotCompatible limit => b ← version_compatible_with version limit; Some (negb b)
  | SGroup And group => all_opt (λ spec, spec_matches spec version) group
  | SGroup Or group => any_opt (λ spec, spec_matches spec version) group
  end.
End matching.

(** ** Definitions: display *)
Definition range_display (op : RangeOperator) : list N :=
  match op with
  | Greater => txt ">" | GreaterEquals => txt ">=" | Less => txt "<" | LessEquals => txt "<="
  end.
Definition strict_range_display (op : StrictRangeOperator) : list N :=
  match op with
  | StartsWith => txt "=" | NotStartsWith => txt "!=startswith"
  | Compatible => txt "~=" | NotCompatible => txt "!~="
  end.
Definition equality_display (op : EqualityOperator) : list N :=
  match op with Equals => txt "==" | NotEquals => txt "!=" end.
Definition logical_display (op : LogicalOperator) : list N :=
  match op with And => txt "," | Or => txt "|" end.
Definition operator_display (op : VersionOperators) : list N :=
  match op with
  | OpRange r => range_display r
  | OpStrictRange r => strict_range_display r
  | OpExact r => equality_display r
  end.

(** The loop over a group: the operator before every element but the first. *)
Section group_display.
Context (op : LogicalOperator) (write : VersionSpec → option (list N)).
Fixpoint group_display (first : bool) (group : list VersionSpec) : option (list N) :=
  match group with
  | [] => Some []
  | spec :: group' =>
      s ← write spec;
      rest ← group_display false group';
      Some ((if first then [] else logical_display op) ++ s ++ rest)
  end.
End group_display.

Fixpoint spec_write (parent_op : option LogicalOperator) (spec : VersionSpec) : option (list N) :=
  match spec with
  | SAny => Some (txt "*")
  | SStrictRange op version =>
      v ← version_display version;
      Some (match op with
            | StartsWith => v ++ txt ".*"
            | NotStartsWith => txt "!=" ++ v ++ txt ".*"
            | op => strict_range_display op ++ v
            end)
  | SRange op version => v ← version_display version; Some (range_display op ++ v)
  | SExact op version => v ← version_display version; Some (equality_display op ++ v)
  | SGroup op group =>
      let requires_parenthesis := match op, parent_op with Or, Some And => true | _, _ => false end in
      body ← group_display op (spec_write (Some op)) true group;
      Some (if requires_parenthesis then [c_lparen] ++ body ++ [c_rparen] else body)
  | SNone => Some (txt "!")
  end.

(** [Display for VersionSpec] *)
Definition spec_display (spec : VersionSpec) : option (list N) := spec_write None spec.

(** ** Definitions: parsing *)
Inductive ParseVersionOperatorError : Type :=
| OpInvalidOperator (op : list N)
| OpExpectedOperator.

Inductive ParseConstraintError : Type :=
| GlobVersionIncompatibleWithOperator (op : VersionOperators)
| RegexConstraintsNotSupported
| UnterminatedRegex
| InvalidOperator (op : list N)
| InvalidVersion (e : ParseVersionError)
| AmbiguousVersion (version : list N)
| ExpectedVersion
| ConstraintExpectedEof
| ConstraintNom (k : ErrorKind)
| InvalidGlob.

(** Inside nom's combinators a panic, or exhausted fuel, travels as a failure
    that no combinator recovers from. *)
Inductive Fallible : Type :=
| Panicked
| Failed (e : ParseConstraintError).

#[export] Instance constraint_parse_error : ParseError Fallible := {|
  from_error_kind _ kind := Failed (ConstraintNom kind);
  pe_append _ _ other := other;
  pe_or _ other := other
|}.

(** [nom::error::Error<&str>] *)
#[export] Instance operator_parse_error : ParseError ParseVersionOperatorError := {|
  from_error_kind _ _ := OpExpectedOperator;
  pe_append _ _ other := other;
  pe_or _ other := other
|}.

(** [char::is_alphanumeric] and [is_alphabetic] outside ASCII: the Unicode tables. *)
Class Unicode := { non_ascii_alphanumeric : N → bool; non_ascii_alphabetic : N → bool }.
#[export] Instance unicode_none : Unicode :=
  {| non_ascii_alphanumeric _ := false; non_ascii_alphabetic _ := false |}.

Definition is_alphanumeric `{Unicode} (c : N) : bool :=
  if (c <? 128)%N then is_alnum c else non_ascii_alphanumeric c.
Definition is_alphabetic `{Unicode} (c : N) : bool :=
  if (c <? 128)%N then is_ascii_alphabetic c else non_ascii_alphabetic c.

Definition is_operator_char (c : N) : bool :=
  bool_decide (c ∈ [c_eq; c_bang; c_lt; c_gt; c_tilde]).
Definition is_version_char `{Unicode} (c : N) : bool :=
  is_alphanumeric c || bool_decide (c ∈ [c_bang; c_dash; c_under; c_dot; c_star; c_plus]).

(** [str::strip_suffix] *)
Definition strip_suffix (suffix input : list N) : option (list N) :=
  r ← strip (rev suffix) (rev input); Some (rev r).

(** The loop of [looks_like_infinite_starts_with]; every round shortens the
    input by two. *)
Fixpoint infinite_loop (fuel : nat) (input : list N) : bool :=
  match fuel with
  | 0 => false
  | S f =>
      match input with
      | [] => false
      | _ =>
          match strip_suffix (txt ".*") input with
          | Some [] => true
          | Some rest => infinite_loop f rest
          | None => false
          end
      end
  end.
Definition looks_like_infinite_starts_with (input : list N) : bool :=
  let input := default input (strip_suffix (txt ".") input) in
  infinite_loop (S (length input)) input.

Fixpoint strip_dot_stars (fuel : nat) (input : list N) : list N :=
  match fuel with
  | 0 => input
  | S f => match strip_suffix (txt ".*") input with
           | Some rest => strip_dot_stars f rest
           | None => input
           end
  end.
Definition is_star_or_star_dot_star (input : list N) : bool :=
  if bool_decide (input = txt "*") then true
  else match strip_dot_stars (length input) input with [] => true | _ => false end.

(** [flatten_version_specs]: nested groups of the same operator are spliced. *)
Definition flatten_version_specs (operator : LogicalOperator) (args : list VersionSpec)
  : VersionSpec :=
  match args with
  | [spec] => spec
  | _ =>
      SGroup operator (concat ((λ spec,
        match spec with
        | SGroup op others => if bool_decide (op = operator) then others else [spec]
        | _ => [spec]
        end) <$> args))
  end.

(** The operator and the wildcard left after the version, as one operator. *)
Definition resolve_operator (version_str version_rest : list N) (op : option VersionOperators)
    (strictness : ParseStrictness) : result ParseConstraintError VersionOperators :=
  let glob := bool_decide (version_rest = txt "*") || bool_decide (version_rest = txt ".*") in
  let star := is_star_or_star_dot_star version_rest in
  let otherwise :=
    if bool_decide (c_star ∈ version_str) || bool_decide (last version_rest = Some c_dollar)
    then Err RegexConstraintsNotSupported
    else Err (InvalidVersion (mkParseVersionError version_str PVExpectedEof)) in
  match version_rest, op, strictness with
  | [], Some op, _ => Ok op
  | [], None, Strict => Err (AmbiguousVersion version_str)
  | [], None, Lenient => Ok (OpExact Equals)
  | _, Some (OpRange (GreaterEquals | Greater)), Lenient =>
      if star then Ok (OpRange GreaterEquals) else otherwise
  | _, Some (OpExact NotEquals), Lenient =>
      if glob then Ok (OpStrictRange NotStartsWith)
      else if star then Ok (OpExact NotEquals) else otherwise
  | _, Some (OpExact NotEquals), Strict =>
      if glob then Ok (OpStrictRange NotStartsWith) else otherwise
  | _, Some op, Lenient => if star then Ok op else otherwise
  | _, Some op, Strict =>
      if glob then Err (GlobVersionIncompatibleWithOperator op) else otherwise
  | _, None, Lenient =>
      if glob then Ok (OpStrictRange StartsWith)
      else if looks_like_infinite_starts_with version_rest then Ok (OpStrictRange StartsWith)
      else otherwise
  | _, None, Strict => if glob then Ok (OpStrictRange StartsWith) else otherwise
  end.

Section parsers.
Context `{NM : Nom} `{UC : Unicode}.

Definition operator_parser (input : list N) : IResult VersionOperators ParseVersionOperatorError :=
  match take_while1 (E := ParseVersionOperatorError) is_operator_char input with
  | Err _ => Err (NErr OpExpectedOperator)
  | Ok (rest, operator_str) =>
      if bool_decide (operator_str = txt "==") then Ok (rest, OpExact Equals)
      else if bool_decide (operator_str = txt "!=") then Ok (rest, OpExact NotEquals)
      else if bool_decide (operator_str = txt "<=") then Ok (rest, OpRange LessEquals)
      else if bool_decide (operator_str = txt ">=") then Ok (rest, OpRange GreaterEquals)
      else if bool_decide (operator_str = txt "<") then Ok (rest, OpRange Less)
      else if bool_decide (operator_str = txt ">") then Ok (rest, OpRange Greater)
      else if bool_decide (operator_str = txt "=") then Ok (rest, OpStrictRange StartsWith)
      else if bool_decide (operator_str = txt "~=") then Ok (rest, OpStrictRange Compatible)
      else Err (NFail (OpInvalidOperator operator_str))
  end.

Definition regex_constraint_parser (strictness : ParseStrictness) (input : list N)
  : IResult Constraint Fallible :=
  match seq2 (opt (nom_char c_caret))
          (seq2 (take_while (λ c, negb (c =? c_dollar)%N)) (opt (nom_char c_dollar))) input with
  | Err e => Err e
  | Ok (_, (None, (_, None))) => Err (NErr (Failed UnterminatedRegex))
  | Ok (_, (_, (_, None))) | Ok (_, (None, _)) => Err (NFail (Failed UnterminatedRegex))
  | Ok _ => Err (NFail (Failed RegexConstraintsNotSupported))
  end.

Definition any_constraint_parser (strictness : ParseStrictness) (input : list N)
  : IResult Constraint Fallible :=
  match seq2 (tag (txt "*")) (opt (tag (txt ".*"))) input with
  | Err e => Err e
  | Ok (remaining, (_, trailing)) =>
      if bool_decide (is_Some trailing) && bool_decide (strictness = Strict)
      then Err (NFail (Failed InvalidGlob))
      else Ok (remaining, CAny)
  end.

(** The arms for a lone [*] after an operator. *)
Definition star_constraint (rest : list N) (op : VersionOperators) (strictness : ParseStrictness)
  : IResult Constraint Fallible :=
  match strictness with
  | Strict => Err (NFail (Failed (GlobVersionIncompatibleWithOperator op)))
  | Lenient =>
      match op with
      | OpRange (GreaterEquals | LessEquals) | OpStrictRange (Compatible | StartsWith)
      | OpExact Equals => Ok (rest, CAny)
      | op => Err (NFail (Failed (GlobVersionIncompatibleWithOperator op)))
      end
  end.

(** The part after the operator. *)
Definition version_constraint (input : list N) (op : option VersionOperators)
    (strictness : ParseStrictness) : IResult Constraint Fallible :=
  match take_while1 (E := list N * ErrorKind) is_version_char input with
  | Err _ => Err (NErr (Failed (InvalidVersion (mkParseVersionError [] PVEmpty))))
  | Ok (rest, version_str) =>
      if bool_decide (version_str = txt "*") then
        match op with
        | None => Err (NFail Panicked)
        | Some op => star_constraint rest op strictness
        end
      else
        match version_parser version_str with
        | None => Err (NFail Panicked)
        | Some (Err (NErr e)) => Err (NErr (Failed (InvalidVersion (mkParseVersionError [] e))))
        | Some (Err (NFail e)) => Err (NFail (Failed (InvalidVersion (mkParseVersionError [] e))))
        | Some (Ok (version_rest, version)) =>
            match resolve_operator version_str version_rest op strictness with
            | Err e => Err (NFail (Failed e))
            | Ok (OpRange r) => Ok (rest, CComparison r version)
            | Ok (OpExact e) => Ok (rest, CExact e version)
            | Ok (OpStrictRange s) => Ok (rest, CStrictComparison s version)
            end
        end
  end.

Definition logical_constraint_parser (strictness : ParseStrictness) (input : list N)
  : IResult Constraint Fallible :=
  match operator_parser input with
  | Err (NFail (OpInvalidOperator op)) | Err (NErr (OpInvalidOperator op)) =>
      Err (NFail (Failed (InvalidOperator op)))
  | Err (NErr _) => version_constraint input None strictness
  | Ok (rest, op) => version_constraint rest (Some op) strictness
  | Err (NFail OpExpectedOperator) => Err (NFail Panicked)
  end.

Definition constraint_parser (strictness : ParseStrictness) : list N → IResult Constraint Fallible :=
  alt3 (regex_constraint_parser strictness) (any_constraint_parser strictness)
       (logical_constraint_parser strictness).

(** [Constraint::from_str] *)
Definition constraint_from_str (input : list N) (strictness : ParseStrictness)
  : option (result ParseConstraintError Constraint) :=
  match constraint_parser strictness input with
  | Ok ([], version) => Some (Ok version)
  | Ok _ => Some (Err ConstraintExpectedEof)
  | Err (NFail (Failed e)) | Err (NErr (Failed e)) => Some (Err e)
  | Err (NFail Panicked) | Err (NErr Panicked) => None
  end.

(** A term, given the parser of a parenthesised group. *)
Definition version_spec_term (or_group : list N → IResult VersionSpec Fallible)
    (strictness : ParseStrictness) : list N → IResult VersionSpec Fallible :=
  alt3
    (delimited (terminated (nom_char c_lparen) multispace0) or_group
               (preceded multispace0 (nom_char c_rparen)))
    (nom_map (terminated (nom_char c_star) (opt (tag (txt ".*")))) (λ _, SAny))
    (nom_map (constraint_parser strictness) spec_of_constraint).

Definition version_spec_and_group (or_group : list N → IResult VersionSpec Fallible)
    (strictness : ParseStrictness) (input : list N) : IResult VersionSpec Fallible :=
  match separated_list1 (delimited multispace0 (nom_char c_comma) multispace0)
          (version_spec_term or_group strictness) input with
  | Ok (rest, group) => Ok (rest, flatten_version_specs And group)
  | Err e => Err e
  end.

(** The recursion through parentheses; every level consumes a parenthesis. *)
Fixpoint version_spec_or_group (fuel : nat) (strictness : ParseStrictness) (input : list N)
  : IResult VersionSpec Fallible :=
  match fuel with
  | 0 => Err (NFail Panicked)
  | S f =>
      match separated_list1 (delimited multispace0 (nom_char c_bar) multispace0)
              (version_spec_and_group (version_spec_or_group f strictness) strictness) input with
      | Ok (rest, group) => Ok (rest, flatten_version_specs Or group)
      | Err e => Err e
      end
  end.

Definition version_spec_parser (input : list N) (strictness : ParseStrictness)
  : option (result ParseConstraintError VersionSpec) :=
  match all_consuming (version_spec_or_group (S (length input)) strictness) input with
  | Ok (_, spec) => Some (Ok spec)
  | Err (NFail (Failed e)) | Err (NErr (Failed e)) => Some (Err e)
  | Err (NFail Panicked) | Err (NErr Panicked) => None
  end.

(** [VersionSpec::from_str] wraps the error in [InvalidConstraint]. *)
Definition version_spec_from_str (source : list N) (strictness : ParseStrictness)
  : option (result ParseConstraintError VersionSpec) :=
  version_spec_parser source strictness.
End parsers.

(** ** Structural induction on specs *)
Section spec_induction.
Context (P : VersionSpec → Prop)
  (Hnone : P SNone) (Hany : P SAny)
  (Hrange : ∀ op l, P (SRange op l)) (Hstrict : ∀ op l, P (SStrictRange op l))
  (Hexact : ∀ op l, P (SExact op l))
  (Hgroup : ∀ op g, Forall P g → P (SGroup op g)).
Fixpoint spec_induction (s : VersionSpec) : P s :=
  match s with
  | SNone => Hnone
  | SAny => Hany
  | SRange op l => Hrange op l
  | SStrictRange op l => Hstrict op l
  | SExact op l => Hexact op l
  | SGroup op g =>
      Hgroup op g ((fix all (l : list VersionSpec) : Forall P l :=
        match l with
        | [] => Forall_nil_2 P
        | x :: l' => Forall_cons_2 P x l' (spec_induction x) (all l')
        end) g)
  end.
End spec_induction.

(** Every version of the spec satisfies [Q]. *)
Fixpoint spec_versions (Q : Version → Prop) (s : VersionSpec) : Prop :=
  match s with
  | SNone | SAny => True
  | SRange _ l | SStrictRange _ l | SExact _ l => Q l
  | SGroup _ g => foldr (λ s acc, spec_versions Q s ∧ acc) True g
  end.

(** ** Matching *)

(** The negation of a spec, by the complements of its operators. *)
Fixpoint spec_negate (s : VersionSpec) : VersionSpec :=
  match s with
  | SNone => SAny
  | SAny => SNone
  | SRange op l => SRange (range_complement op) l
  | SStrictRange op l => SStrictRange (strict_range_complement op) l
  | SExact op l => SExact (equality_complement op) l
  | SGroup op g => SGroup (logical_complement op) (spec_negate <$> g)
  end.

Section matching_laws.
Context `{IT : Itertools}.

Lemma all_opt_negate {A} (f g : A → option bool) (l : list A) :
  Forall (λ x, g x = negb <$> f x) l → any_opt g l = negb <$> all_opt f l.
Proof.
  induction 1 as [|x l Hx Hl IH]; simpl; [done|]. rewrite Hx.
  destruct (f x) as [[]|]; simpl; [exact IH|done|done].
Qed.

Lemma any_opt_negate {A} (f g : A → option bool) (l : list A) :
  Forall (λ x, g x = negb <$> f x) l → all_opt g l = negb <$> any_opt f l.
Proof.
  induction 1 as [|x l Hx Hl IH]; simpl; [done|]. rewrite Hx.
  destruct (f x) as [[]|]; simpl; [done|exact IH|done].
Qed.

Lemma all_opt_fmap {A B} (h : A → B) (f : B → option bool) (l : list A) :
  all_opt f (h <$> l) = all_opt (λ x, f (h x)) l.
Proof. induction l as [|x l IH]; csimpl; [done|]. by rewrite IH. Qed.
Lemma any_opt_fmap {A B} (h : A → B) (f : B → option bool) (l : list A) :
  any_opt f (h <$> l) = any_opt (λ x, f (h x)) l.
Proof. induction l as [|x l IH]; csimpl; [done|]. by rewrite IH. Qed.

Lemma negate_matches_aux s v : spec_matches (spec_negate s) v = negb <$> spec_matches s v.
Proof.
  induction s as [| |op l|op l|op l|op g IH] using spec_induction; simpl; [done|done|..].
  - destruct op; simpl; destruct (version_cmp v l) as [[]|]; done.
  - destruct op; simpl;
      (destruct (version_starts_with v l) as [[]|] || destruct (version_compatible_with v l) as [[]|]);
      try done; destruct (version_compatible_with v l) as [[]|]; done.
  - destruct op; simpl; destruct (version_eqb l v) as [[]|]; done.
  - destruct op; simpl; rewrite ?any_opt_fmap, ?all_opt_fmap;
      [apply all_opt_negate|apply any_opt_negate]; exact IH.
Qed.

Lemma all_opt_app {A} (f : A → option bool) (l k : list A) :
  all_opt f (l ++ k) = b ← all_opt f l; if b : bool then all_opt f k else Some false.
Proof.
  induction l as [|x l IH]; simpl; [done|]. destruct (f x) as [[]|]; simpl; [exact IH|done|done].
Qed.
Lemma any_opt_app {A} (f : A → option bool) (l k : list A) :
  any_opt f (l ++ k) = b ← any_opt f l; if b : bool then Some true else any_opt f k.
Proof.
  induction l as [|x l IH]; simpl; [done|]. destruct (f x) as [[]|]; simpl; [done|exact IH|done].
Qed.

(** Splicing a nested group of the same operator does not change the result. *)
Lemma splice_matches op args v :
  spec_matches (SGroup op (concat ((λ spec,
      match spec with
      | SGroup op' others => if bool_decide (op' = op) then others else [spec]
      | _ => [spec]
      end) <$> args))) v = spec_matches (SGroup op args) v.
Proof.
  destruct op; simpl; induction args as [|s args IH]; csimpl; try done.
  - rewrite all_opt_app, IH. destruct s as [| |? ?|? ?|? ?|[] g]; simpl; try done;
      try (by destruct (spec_matches _ _) as [[]|]).
    + by destruct (match op with Greater => _ | _ => _ end) as [[]|].
    + by destruct (match op with StartsWith => _ | _ => _ end) as [[]|].
    + by destruct (match op with Equals => _ | _ => _ end) as [[]|].
    + by destruct (any_opt _ g) as [[]|].
  - rewrite any_opt_app, IH. destruct s as [| |? ?|? ?|? ?|[] g]; simpl; try done.
    + by destruct (match op with Greater => _ | _ => _ end) as [[]|].
    + by destruct (match op with StartsWith => _ | _ => _ end) as [[]|].
    + by destruct (match op with Equals => _ | _ => _ end) as [[]|].
    + by destruct (all_opt _ g) as [[]|].
Qed.

Lemma flatten_matches op args v :
  spec_matches (flatten_version_specs op args) v = spec_matches (SGroup op args) v.
Proof.
  destruct args as [|s [|t args]].
  - by destruct op.
  - destruct op; simpl; by destruct (spec_matches s v) as [[]|].
  - apply (splice_matches op (s :: t :: args)).
Qed.

(** The limits are well formed, so nothing panics. *)
Lemma all_any_total {A} (f : A → option bool) (l : list A) :
  Forall (λ x, is_Some (f x)) l → is_Some (all_opt f l) ∧ is_Some (any_opt f l).
Proof.
  induction 1 as [|x l Hx Hl [IH1 IH2]]; simpl; [by split; eexists|].
  destruct Hx as [b Hb]. rewrite Hb. simpl. destruct b; split; done || by eexists.
Qed.

Lemma version_cmp_total v w : wf v → wf w → is_Some (version_cmp v w).
Proof. intros (p & Hp & ->) (q & Hq & ->). unfold version_cmp. unpack. by eexists. Qed.
Lemma version_eqb_total v w : wf v → wf w → is_Some (version_eqb v w).
Proof. intros (p & Hp & ->) (q & Hq & ->). unfold version_eqb. unpack. by eexists. Qed.
Lemma version_starts_with_total v w : wf v → wf w → is_Some (version_starts_with v w).
Proof. intros (p & Hp & ->) (q & Hq & ->). unfold version_starts_with. unpack. by eexists. Qed.
Lemma version_compatible_total v w : wf v → wf w → is_Some (version_compatible_with v w).
Proof.
  intros Hv Hw. destruct (version_cmp_total v w Hv Hw) as [c Hc].
  destruct Hv as (p & Hp & ->), Hw as (q & Hq & ->). unfold version_compatible_with.
  rewrite Hc. unpack. by eexists.
Qed.

Lemma matches_total s v : spec_versions wf s → wf v → is_Some (spec_matches s v).
Proof.
  intros Hs Hv. revert Hs.
  induction s as [| |op l|op l|op l|op g IH] using spec_induction; simpl; intros Hs;
    [by eexists|by eexists|..].
  - destruct (version_cmp_total v l Hv Hs) as [c ->]. destruct op; by eexists.
  - destruct (version_starts_with_total v l Hv Hs) as [b ->].
    destruct (version_compatible_total v l Hv Hs) as [b' ->]. destruct op; by eexists.
  - destruct (version_eqb_total l v Hs Hv) as [b ->]. destruct op; by eexists.
  - assert (Forall (λ s, is_Some (spec_matches s v)) g) as Hg.
    { induction IH as [|s g H IH' IH'']; [constructor|]. simpl in Hs. destruct Hs.
      constructor; [by apply H|by apply IH'']. }
    destruct (all_any_total _ _ Hg). by destruct op.
Qed.
End matching_laws.

(** ** The parsers never panic *)

(** A result that is no panic and leaves no more than it was given. *)
Definition good {O} (n : nat) (r : IResult O Fallible) : Prop :=
  match r with
  | Ok (rest, _) => length rest ≤ n
  | Err (NErr Panicked) | Err (NFail Panicked) => False
  | Err _ => True
  end.

Lemma good_mono {O} n m (r : IResult O Fallible) : good n r → n ≤ m → good m r.
Proof. destruct r as [[rest o]|[[|e]|[|e]]]; simpl; [lia|done..]. Qed.

Lemma good_separated {O P} n (sep : list N → IResult P Fallible) (p : list N → IResult O Fallible) s :
  (∀ s', length s' ≤ n → good (length s') (sep s')) →
  (∀ s', length s' ≤ n → good (length s') (p s')) →
  length s ≤ n → good (length s) (separated_list1_fun sep p s).
Proof.
  intros Hsep Hp Hs. unfold separated_list1_fun. pose proof (Hp s Hs) as H.
  destruct (p s) as [[r o]|[[|e]|[|e]]]; [|done..]. simpl in H.
  apply (good_mono (length r)); [|done]. generalize [o] as acc.
  assert (length r ≤ n) as Hr by lia. clear H Hs.
  assert (∀ fuel r, length r ≤ n → ∀ acc, good (length r) (separated_loop fuel sep p r acc)) as Hloop.
  { clear r Hr. induction fuel as [|f IH]; intros r Hr acc; simpl; [done|].
    pose proof (Hsep r Hr) as H1. destruct (sep r) as [[r1 x]|[[|e1]|[|e1]]]; simpl in H1;
      [|done|simpl; lia|done|done].
    pose proof (Hp r1 ltac:(lia)) as H2. destruct (p r1) as [[r2 y]|[[|e2]|[|e2]]]; simpl in H2;
      [|done|simpl; lia|done|done].
    destruct (decide _); [done|]. apply (good_mono (length r2)); [apply IH; lia|lia]. }
  intros acc. by apply Hloop.
Qed.

Lemma span_length p s : length (span p s).2 ≤ length s.
Proof.
  pose proof (span_spec p s) as (E & _). rewrite E at 2. rewrite length_app. lia.
Qed.

Lemma vt_text_nonempty a : vt_ok a = true → vt_text a ≠ [].
Proof.
  destruct a as [te [toks rs tl] lo]. unfold vt_ok, vt_text, pt_ok, pt_text. simpl. intros H E.
  apply app_eq_nil in E as [_ E]. apply app_eq_nil in E as [E _]. apply app_eq_nil in E as [E _].
  bool_hyps. destruct toks as [|t toks]; [done|]. simpl in *. bool_hyps.
  by apply app_eq_nil in E as [-> _].
Qed.

Section no_panic.
Context `{NM : Nom} `{UC : Unicode}.

Lemma version_constraint_good op st input :
  (op = None → ∀ s, input ≠ c_star :: s) → good (length input) (version_constraint input op st).
Proof.
  intros Hstar. unfold version_constraint. nom. unfold span1_fun.
  pose proof (span_length is_version_char input) as Hl.
  pose proof (span_spec is_version_char input) as (E & _ & _).
  destruct (span is_version_char input) as [[|c a] b]; [done|]. simpl in Hl, E.
  case_bool_decide as Hs.
  { destruct op as [op|]; [|injection Hs as -> ->; by destruct (Hstar eq_refl b)].
    unfold star_constraint. destruct st; [|done].
    destruct op as [[]|[]|[]]; done. }
  destruct (version_parser_inv (c :: a)) as (r & -> & _).
  destruct r as [[vr v]|[e|e]]; [|done..].
  by destruct (resolve_operator _ _ _ _) as [[]|].
Qed.

Lemma operator_parser_good input :
  match operator_parser input with
  | Ok (rest, _) => length rest ≤ length input
  | Err (NErr e) => e = OpExpectedOperator
  | Err (NFail e) => ∃ op, e = OpInvalidOperator op
  end.
Proof.
  unfold operator_parser. nom. unfold span1_fun.
  pose proof (span_length is_operator_char input) as Hl.
  destruct (span is_operator_char input) as [[|c a] b]; [done|]. simpl in Hl.
  repeat (case_bool_decide; [done|]). by eexists.
Qed.

Lemma logical_constraint_good st input :
  (∀ s, input ≠ c_star :: s) → good (length input) (logical_constraint_parser st input).
Proof.
  intros Hstar. unfold logical_constraint_parser. pose proof (operator_parser_good input) as H.
  destruct (operator_parser input) as [[rest op]|[e|e]].
  - eapply good_mono; [by apply version_constraint_good|done].
  - subst e. by apply version_constraint_good.
  - by destruct H as [op ->].
Qed.

(** The regex parser never succeeds; it is passed over exactly when the input
    holds neither a leading [^] nor a [$]. *)
Lemma regex_eq st input :
  regex_constraint_parser st input =
  if bool_decide (c_dollar ∈ input) || bool_decide (head input = Some c_caret)
  then Err (NFail (Failed (if bool_decide (c_dollar ∈ input) && bool_decide (head input = Some c_caret)
                           then RegexConstraintsNotSupported else UnterminatedRegex)))
  else Err (NErr (Failed UnterminatedRegex)).
Proof.
  assert (∀ s : list N, match (span (λ c, negb (c =? c_dollar)%N) s).2 with
    | [] => c_dollar ∉ s | c :: _ => c = c_dollar ∧ c_dollar ∈ s end) as Hspan.
  { intros s. pose proof (span_spec (λ c, negb (c =? c_dollar)%N) s) as (E & Ha & Hb).
    destruct (span _ s) as [a b]. simpl in *. destruct b as [|c b].
    - rewrite app_nil_r in E. subst s. intros Hin. rewrite forallb_forall in Ha.
      by apply list_elem_of_In, Ha in Hin.
    - simpl in Hb. apply negb_true_iff in Hb. apply negb_false_iff, N.eqb_eq in Hb as ->.
      split; [done|]. rewrite E. set_solver. }
  unfold regex_constraint_parser. nom. unfold pair_fun. nom. unfold opt_fun at 1. nom.
  unfold one_of_fun at 1. destruct input as [|c s].
  { rewrite !bool_decide_eq_false_2 by (done || apply not_elem_of_nil).
    nom. unfold pair_fun. nom. unfold opt_fun. nom. done. }
  destruct (decide (c = c_caret)) as [->|Hc].
  - rewrite bool_decide_eq_true_2 by set_solver. nom. unfold pair_fun. nom. unfold opt_fun. nom.
    specialize (Hspan s). destruct (span (λ c, negb (c =? c_dollar)%N) s) as [a [|d b]]; simpl in *.
    + rewrite (bool_decide_eq_false_2 (_ ∈ _)) by set_solver. done.
    + destruct Hspan as [-> Hin]. rewrite !bool_decide_eq_true_2 by (done || set_solver). done.
  - rewrite bool_decide_eq_false_2 by set_solver. nom. unfold pair_fun. nom. unfold opt_fun. nom.
    specialize (Hspan (c :: s)). destruct (span (λ c, negb (c =? c_dollar)%N) (c :: s)) as [a [|d b]]; simpl in *.
    + rewrite !bool_decide_eq_false_2 by (congruence || done). done.
    + destruct Hspan as [-> Hin]. rewrite (bool_decide_eq_true_2 (c_dollar ∈ c :: s)) by done.
      rewrite bool_decide_eq_true_2 by set_solver.
      rewrite (bool_decide_eq_false_2 (_ = _)) by congruence. done.
Qed.

Lemma any_star st s :
  good (length (c_star :: s)) (any_constraint_parser st (c_star :: s)) ∧
  ∀ e, any_constraint_parser st (c_star :: s) ≠ Err (NErr e).
Proof.
  unfold any_constraint_parser. nom. unfold pair_fun. nom.
  assert (tag_fun (txt "*") (c_star :: s) = Ok (E := nom_err Fallible) (s, txt "*")) as -> by done.
  nom. unfold opt_fun. nom. unfold tag_fun.
  destruct (strip (txt ".*") s) as [r|] eqn:E.
  - apply strip_Some in E. destruct (_ && _); simpl; [done|]. split; [|done].
    rewrite E, length_app. simpl. lia.
  - simpl. split; [lia|done].
Qed.

Lemma any_other st c s : c ≠ c_star → ∃ e, any_constraint_parser st (c :: s) = Err (NErr (Failed e)).
Proof.
  intros Hc. unfold any_constraint_parser. nom. unfold pair_fun. nom. unfold tag_fun.
  change (txt "*") with [c_star]. cbn [strip]. rewrite (proj2 (N.eqb_neq c_star c)) by congruence.
  by eexists.
Qed.

Lemma constraint_good st input : good (length input) (constraint_parser st input).
Proof.
  unfold constraint_parser. nom. unfold alt3_fun. rewrite regex_eq.
  destruct (_ || _); [done|].
  destruct (decide (head input = Some c_star)) as [Hs|Hs].
  - destruct input as [|c s]; [done|]. injection Hs as ->.
    destruct (any_star st s) as [Hg Hn].
    destruct (any_constraint_parser st (c_star :: s)) as [?|[e|e]]; [exact Hg|by destruct (Hn e)|exact Hg].
  - assert (∃ e, any_constraint_parser st input = Err (NErr (Failed e))) as (e & ->).
    { destruct input as [|c s]; [|apply any_other; by intros ->].
      unfold any_constraint_parser. nom. unfold pair_fun. nom. by eexists. }
    pose proof (logical_constraint_good st input) as Hl.
    assert (good (length input) (logical_constraint_parser st input)) as Hg
      by (apply Hl; intros s ->; done).
    by destruct (logical_constraint_parser st input) as [[rest o]|[[|e']|[|e']]].
Qed.

Lemma multispace_eq s :
  multispace0 (E := Fallible) s = Ok ((span is_multispace s).2, (span is_multispace s).1).
Proof. by nom. Qed.

Lemma separator_good c s :
  good (length s) (delimited multispace0 (nom_char (E := Fallible) c) multispace0 s).
Proof.
  nom. unfold map_fun, pair_fun. nom. pose proof (span_length is_multispace s) as H.
  destruct (span is_multispace s) as [a [|d b]]; [done|]. simpl in *. nom. unfold one_of_fun.
  case_bool_decide; [|done]. nom. pose proof (span_length is_multispace b). simpl. lia.
Qed.

Lemma term_good or_group st input :
  (∀ s, length s < length input → good (length s) (or_group s)) →
  good (length input) (version_spec_term or_group st input).
Proof.
  intros Hor. unfold version_spec_term. nom. unfold alt3_fun. nom.
  unfold map_fun at 1. unfold pair_fun at 1. nom. unfold map_fun at 1, pair_fun at 1. nom.
  assert (good (length input) (map_fun (constraint_parser st) spec_of_constraint input)) as Hc.
  { unfold map_fun. pose proof (constraint_good st input) as H.
    by destruct (constraint_parser st input) as [[r o]|[[|e]|[|e]]]. }
  assert (good (length input) (map_fun (terminated (nom_char c_star) (opt (tag (txt ".*")))) (λ _, SAny) input))
    as Hs.
  { unfold map_fun. nom. unfold map_fun, pair_fun. nom. unfold one_of_fun.
    destruct input as [|c s]; [done|]. case_bool_decide; [|done]. nom. unfold opt_fun. nom.
    unfold tag_fun. destruct (strip (txt ".*") s) as [r|] eqn:E; simpl; [|lia].
    apply strip_Some in E. rewrite E, length_app. lia. }
  assert (good (length input)
    (match map_fun (terminated (nom_char c_star) (opt (tag (txt ".*")))) (λ _, SAny) input with
     | Err (NErr e2) =>
         match map_fun (constraint_parser st) spec_of_constraint input with
         | Err (NErr e3) => Err (NErr (pe_append input KAlt (pe_or e2 e3)))
         | r => r
         end
     | r => r
     end)) as Hrest.
  { destruct (map_fun (terminated _ _) _ input) as [[? ?]|[[|]|[|]]]; try done.
    by destruct (map_fun (constraint_parser st) _ input) as [[? ?]|[[|]|[|]]]. }
  unfold one_of_fun. destruct input as [|c s]; [by destruct (map_fun _ _ []) as [[? ?]|[[|]|[|]]]|].
  case_bool_decide as Hcp; [|exact Hrest]. rewrite multispace_eq.
  pose proof (span_length is_multispace s) as Hsp. cbn [fst snd].
  unfold pair_fun at 1. specialize (Hor (span is_multispace s).2 ltac:(simpl; lia)).
  destruct (or_group (span is_multispace s).2) as [[r o]|[[|e]|[|e]]]; try done.
  nom. unfold map_fun at 1, pair_fun at 1. rewrite multispace_eq. nom. unfold one_of_fun.
  pose proof (span_length is_multispace r) as Hr. simpl in Hor.
  destruct (span is_multispace r) as [a [|d b]]; [exact Hrest|]. simpl in Hr.
  cbn [fst snd]. case_bool_decide; [|exact Hrest]. simpl. lia.
Qed.

Lemma or_group_good fuel st input :
  length input < fuel → good (length input) (version_spec_or_group fuel st input).
Proof.
  revert input. induction fuel as [|f IH]; intros input Hf; [lia|]. cbn [version_spec_or_group]. nom.
  assert (good (length input) (separated_list1_fun
    (delimited multispace0 (nom_char c_bar) multispace0)
    (version_spec_and_group (version_spec_or_group f st) st) input)) as H.
  { apply (good_separated (length input)); [intros; apply separator_good| |done].
    intros s Hs. unfold version_spec_and_group. nom.
    assert (good (length s) (separated_list1_fun
      (delimited multispace0 (nom_char c_comma) multispace0)
      (version_spec_term (version_spec_or_group f st) st) s)) as H'.
    { apply (good_separated (length s)); [intros; apply separator_good| |done].
      intros t Ht. apply term_good. intros u Hu. apply IH. lia. }
    by destruct (separated_list1_fun _ _ s) as [[? ?]|[[|]|[|]]]. }
  by destruct (separated_list1_fun _ _ input) as [[? ?]|[[|]|[|]]].
Qed.

Lemma version_spec_parser_some input st : is_Some (version_spec_parser input st).
Proof.
  unfold version_spec_parser. nom. unfold all_consuming_fun.
  pose proof (or_group_good (S (length input)) st input ltac:(lia)) as H.
  destruct (version_spec_or_group _ st input) as [[[|c r] o]|[[|e]|[|e]]]; [eauto..|done|eauto|done|eauto].
Qed.
End no_panic.
