(* ===== verification/VersionSpecText.v ===== *)
(** * Printing and parsing version constraints

    [Display] and the parser of [VersionSpec] are inverse on canonical specs:
    no [!], no [!~=], groups of at least two specs that are not groups of the
    same operator.  Exactly such specs come out of the parser. *)
From S2P Require Import Prelude Externs VersionRepr VersionOrder VersionOps.
From S2P Require Import VersionParse VersionGrammar VersionSpec.

(** ** Characters of a version text *)
Lemma chain_forall (P : N → Prop) prev toks :
  (∀ c, is_alnum c = true → P c) → chain prev toks = true → Forall P (concat toks).
Proof.
  intros Ha. revert prev. induction toks as [|t toks IH]; intros prev; simpl; [constructor|].
  intros ?. bool_hyps. apply Forall_app. split; [|by eapply IH].
  destruct (token_ok_spec t H) as (_ & _ & _ & _ & Hall & _). rewrite forallb_forall in Hall.
  apply Forall_forall. intros c Hc%list_elem_of_In%Hall. by eapply Ha, class_char_alnum.
Qed.

Lemma token_forall (P : N → Prop) t :
  (∀ c, is_alnum c = true → P c) → token_ok t = true → Forall P t.
Proof.
  intros Ha Ht. rewrite <-(app_nil_r t). apply (chain_forall P (negb (is_number t)) [t]); [done|].
  simpl. by rewrite Ht, negb_involutive, eqb_reflx.
Qed.

Lemma row_forall (P : N → Prop) toks :
  (∀ c, is_alnum c = true → P c) → row_ok toks = true → Forall P (concat toks).
Proof.
  intros Ha. destruct toks as [|t toks]; [done|]. simpl. intros ?. bool_hyps.
  apply Forall_app. split; [by apply token_forall|by eapply chain_forall].
Qed.

Lemma part_forall (P : N → Prop) p :
  (∀ c, is_alnum c = true → P c) → (∀ c, is_sep c = true → P c) → pt_ok p = true →
  Forall P (pt_text p).
Proof.
  destruct p as [toks rs tl]. unfold pt_ok, pt_text, rest_ok, rest_text. simpl. intros Ha Hs.
  intros [[Hrow [Hrs Htl]%andb_true_iff]%andb_true_iff _]%andb_true_iff.
  apply Forall_app. split; [by apply row_forall|]. apply Forall_app. split.
  - clear -Hrs Ha Hs. induction rs as [|[s t] rs IH]; csimpl; [constructor|]. simpl in *. bool_hyps.
    constructor; [by apply Hs|]. apply Forall_app. split; [by apply row_forall|by apply IH].
  - assert (∀ b, P (dash_char b)) as Hd by (intros b; apply Hs, dash_char_sep).
    destruct tl as [|b|s b]; simpl in *; [constructor|by constructor|].
    constructor; [by apply Hs|by constructor].
Qed.

Lemma vt_text_forall (P : N → Prop) a :
  vt_ok a = true → (∀ c, is_alnum c = true → P c) → (∀ c, is_sep c = true → P c) →
  P c_bang → P c_plus → Forall P (vt_text a).
Proof.
  destruct a as [te p lo]. unfold vt_ok, vt_text. simpl.
  intros [[[He Hp]%andb_true_iff Hl]%andb_true_iff _]%andb_true_iff Ha Hs Hb Hpl.
  apply Forall_app. split; [|apply Forall_app; split].
  - destruct te as [t|]; [|constructor]. bool_hyps. apply Forall_app.
    split; [by apply token_forall|by constructor].
  - by apply part_forall.
  - destruct lo as [l|]; [|constructor]. bool_hyps. constructor; [done|by apply part_forall].
Qed.

Lemma token_head t : token_ok t = true → ∃ c t', t = c :: t' ∧ is_alnum c = true.
Proof.
  intros Ht. destruct (token_ok_spec t Ht) as (c & t' & -> & Hc & _).
  apply class_char_alnum in Hc. eauto.
Qed.

(** A version text starts with a letter or a digit. *)
Lemma vt_text_head a : vt_ok a = true → ∃ c s, vt_text a = c :: s ∧ is_alnum c = true.
Proof.
  destruct a as [te [toks rs tl] lo]. unfold vt_ok, vt_text, pt_ok, pt_text. simpl.
  intros [[[He Hp]%andb_true_iff _]%andb_true_iff _]%andb_true_iff.
  destruct te as [t|].
  - apply andb_true_iff in He as [He _].
    destruct (token_head t He) as (c & t' & -> & Hc). simpl. eauto.
  - apply andb_true_iff in Hp as [[Hp _]%andb_true_iff _].
    destruct toks as [|t toks]; [done|]. simpl in Hp. apply andb_true_iff in Hp as [Hp _].
    destruct (token_head t Hp) as (c & t' & -> & Hc). simpl. eauto.
Qed.

(** ** Canonical specs *)
Definition parsed_version (v : Version) : Prop := ∃ a, vt_ok a = true ∧ v = pack (vt_parts a).

Definition is_group (op : LogicalOperator) (s : VersionSpec) : bool :=
  match s with SGroup op' _ => bool_decide (op' = op) | _ => false end.

Fixpoint spec_canonical (s : VersionSpec) : Prop :=
  match s with
  | SNone => False
  | SAny => True
  | SRange _ v | SExact _ v => parsed_version v
  | SStrictRange op v => op ≠ NotCompatible ∧ parsed_version v
  | SGroup op g =>
      2 ≤ length g ∧
      foldr (λ s acc, (is_group op s = false ∧ spec_canonical s) ∧ acc) True g
  end.

Lemma group_canonical op g :
  spec_canonical (SGroup op g) →
  2 ≤ length g ∧ Forall (λ s, is_group op s = false ∧ spec_canonical s) g.
Proof.
  intros [Hl H]. split; [done|]. clear Hl.
  induction g as [|s g IH]; [constructor|]. simpl in H. constructor; [apply H|apply IH, H].
Qed.

Lemma flatten_canonical op g :
  2 ≤ length g → Forall (λ s, is_group op s = false ∧ spec_canonical s) g →
  flatten_version_specs op g = SGroup op g.
Proof.
  intros Hl Hg. unfold flatten_version_specs.
  assert (concat ((λ spec, match spec with
      | SGroup op' others => if bool_decide (op' = op) then others else [spec]
      | _ => [spec] end) <$> g) = g) as E.
  { clear Hl. induction Hg as [|s g [Hs _] Hg IH]; csimpl; [done|]. rewrite IH.
    destruct s; try done. simpl in Hs. by rewrite Hs. }
  rewrite E. destruct g as [|s [|t g]]; simpl in *; [lia..|done].
Qed.

(** What may follow a spec: the end, or one of the given delimiters; no [$]. *)
Definition ends_with_any (allowed : list N) (rest : list N) : Prop :=
  c_dollar ∉ rest ∧ match rest with [] => True | c :: _ => c ∈ allowed end.

(** The text of a spec has no [$] and does not start with a blank. *)
Definition plain_text (t : list N) : Prop :=
  c_dollar ∉ t ∧ ∃ c t', t = c :: t' ∧ is_multispace c = false.

Lemma alnum_plain c :
  is_alnum c = true → c ≠ c_dollar ∧ is_multispace c = false ∧ is_operator_char c = false ∧
  c ∉ [c_caret; c_star; c_lparen].
Proof.
  intros H. split; [by intros ->|]. split.
  { unfold is_multispace. apply bool_decide_eq_false. by intros [->|[->|[->| ->]]]. }
  split.
  - unfold is_operator_char. apply bool_decide_eq_false. intros Hin.
    by repeat (apply elem_of_cons in Hin as [->|Hin]; [done|]); apply not_elem_of_nil in Hin.
  - intros Hin.
    by repeat (apply elem_of_cons in Hin as [->|Hin]; [done|]); apply not_elem_of_nil in Hin.
Qed.

Section text.
Context `{NM : Nom} `{UC : Unicode}.

Lemma alnum_version_char c : is_alnum c = true → is_version_char c = true.
Proof.
  intros H. unfold is_version_char, is_alphanumeric.
  assert (c < 128)%N as Hlt.
  { unfold is_alnum, is_ascii_digit, is_ascii_alphabetic, is_ascii_uppercase, is_ascii_lowercase in H.
    apply orb_true_iff in H as [H|[H|H]%orb_true_iff]; bool_hyps; lia. }
  by rewrite (proj2 (N.ltb_lt _ _) Hlt), H.
Qed.

Lemma version_text_chars a : vt_ok a = true → forallb is_version_char (vt_text a) = true.
Proof.
  intros Ha. apply forallb_forall. intros c Hc%list_elem_of_In. revert c Hc.
  apply Forall_forall, vt_text_forall; [done|apply alnum_version_char|..]; [|done|done].
  unfold is_sep. intros c ?. bool_hyps. unfold is_version_char.
  rewrite (bool_decide_eq_true_2 (c ∈ [c_bang; _; _; _; _; _])) by set_solver. by rewrite orb_true_r.
Qed.

(** The delimiters end a version. *)
Lemma delimiter_stops allowed rest :
  ends_with_any allowed rest → (∀ c, c ∈ allowed → c ∈ [c_comma; c_bar; c_rparen]) →
  stops is_version_char rest = true.
Proof.
  intros [_ H] Ha. destruct rest as [|c rest]; [done|]. specialize (Ha c H).
  by repeat (apply elem_of_cons in Ha as [->|Ha]; [done|]); apply not_elem_of_nil in Ha.
Qed.

(** ** One constraint *)
Lemma version_constraint_text a glob rest op st o :
  vt_ok a = true → (glob = [] ∨ glob = txt ".*") → stops is_version_char rest = true →
  resolve_operator (vt_text a ++ glob) glob op st = Ok o →
  version_constraint (vt_text a ++ glob ++ rest) op st =
  Ok (rest, match o with
            | OpRange r => CComparison r (pack (vt_parts a))
            | OpExact e => CExact e (pack (vt_parts a))
            | OpStrictRange s => CStrictComparison s (pack (vt_parts a))
            end).
Proof.
  intros Ha Hglob Hrest Hres. unfold version_constraint. nom. unfold span1_fun.
  destruct (vt_text_head a Ha) as (c & s & E & Hc). rewrite app_assoc, span_app.
  - assert (vt_text a ++ glob ≠ txt "*") as Hns.
    { rewrite E. intros [= -> _]. done. }
    destruct (vt_text a ++ glob) as [|c' s'] eqn:E'; [rewrite E in E'; done|].
    rewrite bool_decide_eq_false_2 by exact Hns.
    rewrite <-E' in *. rewrite version_parser_complete; [|done|].
    2: { unfold is_glob. apply bool_decide_eq_true. destruct Hglob as [->| ->]; set_solver. }
    rewrite Hres. by destruct o.
  - rewrite forallb_app, version_text_chars by done. destruct Hglob as [->| ->]; done.
  - done.
Qed.

Lemma operator_text (op : list N) o c s :
  op ≠ [] → forallb is_operator_char op = true → is_alnum c = true →
  operator_parser op = Ok ([], o) →
  operator_parser (op ++ c :: s) = Ok (c :: s, o).
Proof.
  intros Hne Hop Hc. unfold operator_parser. nom. unfold span1_fun.
  assert (stops is_operator_char (c :: s) = true) as Hst.
  { simpl. destruct (alnum_plain c Hc) as (_ & _ & -> & _). done. }
  rewrite (span_app _ op (c :: s)) by done.
  rewrite <-(app_nil_r op) at 1. rewrite (span_app _ op []) by done.
  destruct op as [|d op]; [done|].
  repeat (case_bool_decide; [by intros [= <-]|]). done.
Qed.

Lemma constraint_skip st input c s :
  input = c :: s → c ∉ [c_caret; c_star] → c_dollar ∉ input →
  ∀ r o, logical_constraint_parser st input = Ok (r, o) → constraint_parser st input = Ok (r, o).
Proof.
  intros -> Hc Hd r o Hl. unfold constraint_parser. nom. unfold alt3_fun. rewrite regex_eq.
  rewrite !bool_decide_eq_false_2; [|intros [= ->]; set_solver|done]. simpl orb. cbv iota.
  destruct (any_other st c s) as [e ->]; [intros ->; set_solver|]. by rewrite Hl.
Qed.

Lemma version_text_plain a : vt_ok a = true → c_dollar ∉ vt_text a.
Proof.
  intros Ha Hin. assert (Forall (λ c, c ≠ c_dollar) (vt_text a)) as H.
  { apply vt_text_forall; [done|..]; try done; by intros c Hc ->. }
  rewrite Forall_forall in H. by apply (H _ Hin).
Qed.

(** A constraint with an operator in front of its version. *)
Lemma constraint_with_operator st a op o o' glob rest :
  vt_ok a = true → op ≠ [] → forallb is_operator_char op = true →
  operator_parser op = Ok ([], o) → (glob = [] ∨ glob = txt ".*") →
  resolve_operator (vt_text a ++ glob) glob (Some o) st = Ok o' →
  stops is_version_char rest = true → c_dollar ∉ rest →
  constraint_parser st (op ++ vt_text a ++ glob ++ rest) =
  Ok (rest, match o' with
            | OpRange r => CComparison r (pack (vt_parts a))
            | OpExact e => CExact e (pack (vt_parts a))
            | OpStrictRange s => CStrictComparison s (pack (vt_parts a))
            end).
Proof.
  intros Ha Hne Hop Hopp Hglob Hres Hst Hd.
  destruct (vt_text_head a Ha) as (c & s & E & Hc).
  assert (∃ d op', op = d :: op' ∧ is_operator_char d = true) as (d & op' & -> & Hdop).
  { destruct op as [|d op']; [done|]. simpl in Hop. bool_hyps. eauto. }
  eapply constraint_skip; [done|..].
  - unfold is_operator_char in Hdop. bool_hyps.
    repeat (apply elem_of_cons in Hdop as [->|Hdop]; [set_solver|]). by apply not_elem_of_nil in Hdop.
  - rewrite !not_elem_of_app. split; [|split; [by apply version_text_plain|split; [|done]]].
    + intros Hin%list_elem_of_In. rewrite forallb_forall in Hop. by apply Hop in Hin.
    + destruct Hglob as [->| ->]; set_solver.
  - unfold logical_constraint_parser.
    assert (vt_text a ++ glob ++ rest = c :: s ++ glob ++ rest) as E' by (by rewrite E).
    rewrite E', (operator_text _ o) by done. rewrite <-E'. by apply version_constraint_text.
Qed.

(** A version without an operator *)
Lemma constraint_bare st a glob o rest :
  vt_ok a = true → (glob = [] ∨ glob = txt ".*") → resolve_operator (vt_text a ++ glob) glob None st = Ok o →
  stops is_version_char rest = true → c_dollar ∉ rest →
  constraint_parser st (vt_text a ++ glob ++ rest) =
  Ok (rest, match o with
            | OpRange r => CComparison r (pack (vt_parts a))
            | OpExact e => CExact e (pack (vt_parts a))
            | OpStrictRange s => CStrictComparison s (pack (vt_parts a))
            end).
Proof.
  intros Ha Hglob Hres Hst Hd. destruct (vt_text_head a Ha) as (c & s & E & Hc).
  destruct (alnum_plain c Hc) as (_ & _ & Hop & Hcc).
  eapply (constraint_skip st _ c (s ++ glob ++ rest)); [by rewrite E|set_solver|..].
  - rewrite !not_elem_of_app. split; [by apply version_text_plain|]. split; [destruct Hglob as [->| ->]; set_solver|done].
  - unfold logical_constraint_parser.
    assert (operator_parser (vt_text a ++ glob ++ rest) = Err (NErr OpExpectedOperator)) as ->.
    { unfold operator_parser. nom. unfold span1_fun. rewrite E. simpl. by rewrite Hop. }
    by apply version_constraint_text.
Qed.

(** A version followed by [.*]. *)
Lemma constraint_starts_with st a rest :
  vt_ok a = true → stops is_version_char rest = true → c_dollar ∉ rest →
  constraint_parser st (vt_text a ++ txt ".*" ++ rest) =
  Ok (rest, CStrictComparison StartsWith (pack (vt_parts a))).
Proof.
  intros Ha Hst Hd. apply (constraint_bare st a (txt ".*") (OpStrictRange StartsWith)); [done|by right| |done|done].
  by destruct st.
Qed.

(** ** Specs *)
Lemma parsed_display v :
  parsed_version v → ∃ a, vt_ok a = true ∧ version_display v = Some (vt_text a) ∧ v = pack (vt_parts a).
Proof.
  intros (a & Ha & ->). exists (canon a). split; [by apply canon_ok|].
  split; [by apply version_display_canon|]. by rewrite canon_parts.
Qed.

Definition is_leaf (s : VersionSpec) : bool :=
  match s with SRange _ _ | SExact _ _ | SStrictRange _ _ => true | _ => false end.

(** A single comparison is printed and parsed back. *)
Lemma leaf_text st po s t rest :
  is_leaf s = true → spec_canonical s → spec_write po s = Some t →
  stops is_version_char rest = true → c_dollar ∉ rest →
  ∃ c, constraint_parser st (t ++ rest) = Ok (rest, c) ∧ spec_of_constraint c = s.
Proof.
  intros Hleaf Hs Ht Hst Hd.
  assert (∀ op o a, operator_parser op = Ok ([], o) → op ≠ [] → forallb is_operator_char op = true →
    vt_ok a = true → constraint_parser st ((op ++ vt_text a) ++ rest) =
    Ok (rest, match o with
            | OpRange r => CComparison r (pack (vt_parts a))
            | OpExact e => CExact e (pack (vt_parts a))
            | OpStrictRange s => CStrictComparison s (pack (vt_parts a))
            end)) as Hop.
  { intros op o a Ho Hne Hch Ha. rewrite <-app_assoc.
    apply (constraint_with_operator st a op o o [] rest); try done. by left. }
  assert (∀ op o, In (op, o) [(txt ">", OpRange Greater); (txt ">=", OpRange GreaterEquals);
    (txt "<", OpRange Less); (txt "<=", OpRange LessEquals); (txt "~=", OpStrictRange Compatible);
    (txt "==", OpExact Equals); (txt "!=", OpExact NotEquals)] →
    operator_parser op = Ok ([], o) ∧ op ≠ [] ∧ forallb is_operator_char op = true) as Hops.
  { intros op o Hin. unfold operator_parser. nom. simpl in Hin.
    repeat destruct Hin as [[= <- <-]|Hin]; done. }
  destruct s as [| |op v|op v|op v|op g]; try done; cbn [spec_write spec_canonical] in Ht, Hs.
  - apply parsed_display in Hs as (a & Ha & Hv & ->). rewrite Hv in Ht. cbn [mbind option_bind] in Ht. apply (inj Some) in Ht; subst t.
    exists (CComparison op (pack (vt_parts a))). split; [|done].
    destruct (Hops (range_display op) (OpRange op) ltac:(destruct op; simpl; tauto)) as (H1 & H2 & H3).
    by rewrite (Hop _ _ _ H1 H2 H3 Ha).
  - destruct Hs as [Hn Hs]. apply parsed_display in Hs as (a & Ha & Hv & ->).
    rewrite Hv in Ht. cbn [mbind option_bind] in Ht. apply (inj Some) in Ht; subst t.
    exists (CStrictComparison op (pack (vt_parts a))). split; [|done].
    destruct op; cbv iota; [| | |done].
    + rewrite <-app_assoc. by apply constraint_starts_with.
    + rewrite <-!app_assoc. destruct (Hops (txt "!=") (OpExact NotEquals) ltac:(simpl; tauto)) as (H1 & H2 & H3).
      apply (constraint_with_operator st a (txt "!=") (OpExact NotEquals)
        (OpStrictRange NotStartsWith) (txt ".*") rest Ha H2 H3 H1); try done; [by right|]. by destruct st.
    + destruct (Hops (txt "~=") (OpStrictRange Compatible) ltac:(simpl; tauto)) as (H1 & H2 & H3).
      by rewrite (Hop (strict_range_display Compatible) _ _ H1 H2 H3 Ha).
  - apply parsed_display in Hs as (a & Ha & Hv & ->). rewrite Hv in Ht. cbn [mbind option_bind] in Ht. apply (inj Some) in Ht; subst t.
    exists (CExact op (pack (vt_parts a))). split; [|done].
    destruct (Hops (equality_display op) (OpExact op) ltac:(destruct op; simpl; tauto)) as (H1 & H2 & H3).
    by rewrite (Hop _ _ _ H1 H2 H3 Ha).
Qed.

(** *** Every canonical spec has a plain text *)
Definition op_char (op : LogicalOperator) : N := match op with And => c_comma | Or => c_bar end.

Lemma group_display_rest op write g :
  Forall (λ x, ∃ t, write x = Some t ∧ plain_text t) g →
  ∃ t, group_display op write false g = Some t ∧ c_dollar ∉ t ∧
    match t with [] => True | c :: _ => c = op_char op end.
Proof.
  induction 1 as [|x g (t & Ht & Hd & _) Hg (u & Hu & Hud & _)]; simpl.
  { exists []. split; [done|]. split; [apply not_elem_of_nil|done]. }
  rewrite Ht, Hu. cbn [mbind option_bind]. eexists; split; [done|].
  rewrite !not_elem_of_app. destruct op; (split; [split; [set_solver|done]|done]).
Qed.

Lemma group_display_plain op write g :
  g ≠ [] → Forall (λ x, ∃ t, write x = Some t ∧ plain_text t) g →
  ∃ t, group_display op write true g = Some t ∧ plain_text t.
Proof.
  intros Hne Hg. destruct Hg as [|x g (t & Ht & Hd & c & t' & -> & Hc) Hg]; [done|].
  destruct (group_display_rest op write g Hg) as (u & Hu & Hud & _).
  cbn [group_display]. rewrite Ht, Hu. cbn [mbind option_bind app]. eexists; split; [done|].
  split; [|simpl; eauto]. change (c :: t' ++ u) with ((c :: t') ++ u). by rewrite not_elem_of_app.
Qed.

Lemma operator_prefix_plain op t :
  op ≠ [] → forallb is_operator_char op = true → c_dollar ∉ t → plain_text (op ++ t).
Proof.
  intros Hne Hop Ht. split.
  - rewrite not_elem_of_app. split; [|done]. intros Hin%list_elem_of_In.
    rewrite forallb_forall in Hop. by apply Hop in Hin.
  - destruct op as [|c op]; [done|]. simpl in *. bool_hyps. exists c, (op ++ t). split; [done|].
    unfold is_operator_char in H. apply bool_decide_eq_true in H.
    repeat (apply elem_of_cons in H as [->|H]; [done|]). by apply not_elem_of_nil in H.
Qed.

Lemma version_text_plain_suffix a suffix :
  vt_ok a = true → c_dollar ∉ suffix → plain_text (vt_text a ++ suffix).
Proof.
  intros Ha Hs. split; [rewrite not_elem_of_app; split; [by apply version_text_plain|done]|].
  destruct (vt_text_head a Ha) as (c & s & -> & Hc). simpl. exists c, (s ++ suffix).
  split; [done|]. apply (alnum_plain c Hc).
Qed.

Lemma write_plain s po : spec_canonical s → ∃ t, spec_write po s = Some t ∧ plain_text t.
Proof.
  revert po. induction s as [| |op v|op v|op v|op g IH] using spec_induction; intros po Hs.
  - done.
  - eexists; split; [done|]. split; [set_solver|]. by eexists _, _.
  - apply parsed_display in Hs as (a & Ha & Hv & ->). cbn [spec_write]. rewrite Hv.
    eexists; split; [done|].
    apply operator_prefix_plain; [by destruct op|by destruct op|by apply version_text_plain].
  - destruct Hs as [Hn Hs]. apply parsed_display in Hs as (a & Ha & Hv & ->).
    cbn [spec_write]. rewrite Hv. eexists; split; [done|]. destruct op; [| | |done].
    + apply version_text_plain_suffix; [done|set_solver].
    + apply operator_prefix_plain; [done|done|].
      rewrite not_elem_of_app. split; [by apply version_text_plain|set_solver].
    + apply operator_prefix_plain; [done|done|by apply version_text_plain].
  - apply parsed_display in Hs as (a & Ha & Hv & ->). cbn [spec_write]. rewrite Hv.
    eexists; split; [done|].
    apply operator_prefix_plain; [by destruct op|by destruct op|by apply version_text_plain].
  - apply group_canonical in Hs as [Hl Hg].
    assert (Forall (λ x, ∃ t, spec_write (Some op) x = Some t ∧ plain_text t) g) as Hw.
    { rewrite Forall_forall in *. intros x Hx. apply IH; [done|]. by apply Hg. }
    destruct (group_display_plain op (spec_write (Some op)) g) as (t & Ht & Hp); [intros ->; simpl in Hl; lia|done|].
    cbn [spec_write]. rewrite Ht. cbn [mbind option_bind]. eexists; split; [done|].
    destruct op, po as [[]|]; try exact Hp. destruct Hp as [Hd _]. split; [set_solver|].
    by eexists _, _.
Qed.

(** *** Lists of specs *)
Lemma separator_text c s :
  (∃ d t, s = d :: t ∧ is_multispace d = false) → is_multispace c = false →
  delimited multispace0 (nom_char (E := Fallible) c) multispace0 (c :: s) = Ok (s, c).
Proof.
  intros (d & t & -> & Hd) Hc. nom. unfold map_fun, pair_fun. nom. cbn [span]. rewrite Hc.
  cbn [fst snd]. nom. unfold one_of_fun. rewrite bool_decide_eq_true_2 by set_solver. nom.
  cbn [span]. by rewrite Hd.
Qed.

(** At one of the other delimiters, or at the end, the list stops. *)
Lemma separator_stop c allowed rest :
  ends_with_any allowed rest → (∀ d, d ∈ allowed → d ∈ [c_bar; c_rparen]) → c ∉ allowed →
  ∃ e, delimited multispace0 (nom_char (E := Fallible) c) multispace0 rest = Err (NErr e).
Proof.
  intros [_ H] Ha Hc. nom. unfold map_fun, pair_fun. nom. destruct rest as [|d rest]; [by eexists|].
  assert (is_multispace d = false) as Hd.
  { specialize (Ha d H). repeat (apply elem_of_cons in Ha as [->|Ha]; [done|]).
    by apply not_elem_of_nil in Ha. }
  cbn [span]. rewrite Hd. cbn [snd]. nom. unfold one_of_fun.
  rewrite bool_decide_eq_false_2 by set_solver. by eexists.
Qed.

Lemma separated_text op (p : list N → IResult VersionSpec Fallible) write allowed n g :
  (∀ d, d ∈ allowed → d ∈ [c_bar; c_rparen]) → op_char op ∉ allowed →
  Forall (λ x, ∀ t rest, write x = Some t → ends_with_any (op_char op :: allowed) rest →
    length (t ++ rest) ≤ n → p (t ++ rest) = Ok (rest, x)) g →
  Forall (λ x, ∃ t, write x = Some t ∧ plain_text t) g →
  ∀ t rest fuel acc, group_display op write false g = Some t → ends_with_any allowed rest →
    length (t ++ rest) ≤ n → length (t ++ rest) < fuel →
    separated_loop fuel (delimited multispace0 (nom_char (op_char op)) multispace0) p (t ++ rest) acc
      = Ok (rest, acc ++ g).
Proof.
  intros Ha Hop Hp Hw. induction g as [|x g IH]; intros t rest fuel acc Ht Hr Hn Hf;
    (destruct fuel as [|f]; [lia|]).
  - injection Ht as <-. cbn [app separated_loop].
    destruct (separator_stop (op_char op) allowed rest Hr Ha Hop) as [e ->].
    by rewrite app_nil_r.
  - apply Forall_cons in Hp as [Hpx Hp]. apply Forall_cons in Hw as [(tx & Htx & Hplain) Hw].
    destruct (group_display_rest op write g Hw) as (u & Hu & Hud & Huh).
    cbn [group_display] in Ht. rewrite Htx, Hu in Ht. cbn [mbind option_bind] in Ht.
    assert (t = op_char op :: tx ++ u) as -> by (destruct op; by injection Ht).
    clear Ht. cbn [app separated_loop]. rewrite <-app_assoc in *.
    destruct Hplain as [Hxd (c & tx' & Etx & Hc)].
    rewrite separator_text; [|rewrite Etx; by eexists _, _|by destruct op].
    simpl in Hn, Hf. rewrite <-app_assoc in Hn, Hf.
    rewrite (Hpx tx (u ++ rest) Htx); [| |lia].
    2: { destruct Hr as [Hrd Hrh]. split; [by rewrite not_elem_of_app|].
         destruct u as [|d u]; simpl in *; [destruct rest; set_solver|set_solver]. }
    rewrite decide_False by (simpl; rewrite !length_app, Etx; simpl; lia).
    rewrite (IH Hp Hw u rest f (acc ++ [x]) Hu Hr).
    + by rewrite <-app_assoc.
    + rewrite !length_app in *. lia.
    + rewrite !length_app in *. lia.
Qed.

(** A whole list, given how its first element is read. *)
Lemma separated_list_first op (p : list N → IResult VersionSpec Fallible) write allowed n x g tx :
  (∀ d, d ∈ allowed → d ∈ [c_bar; c_rparen]) → op_char op ∉ allowed →
  (∀ rest, ends_with_any (op_char op :: allowed) rest → length (tx ++ rest) ≤ n → p (tx ++ rest) = Ok (rest, x)) →
  Forall (λ x, ∀ t rest, write x = Some t → ends_with_any (op_char op :: allowed) rest →
    length (t ++ rest) ≤ n → p (t ++ rest) = Ok (rest, x)) g →
  Forall (λ x, ∃ t, write x = Some t ∧ plain_text t) g →
  ∀ u rest, group_display op write false g = Some u → ends_with_any allowed rest →
    length ((tx ++ u) ++ rest) ≤ n →
    separated_list1 (delimited multispace0 (nom_char (op_char op)) multispace0) p ((tx ++ u) ++ rest)
      = Ok (rest, x :: g).
Proof.
  intros Ha Hop Hpx Hp Hw u rest Hu Hr Hn.
  destruct (group_display_rest op write g Hw) as (u' & Hu' & Hud & Huh).
  assert (u' = u) as -> by congruence. rewrite <-app_assoc in *. nom. unfold separated_list1_fun.
  rewrite (Hpx (u ++ rest)); [| |done].
  2: { destruct Hr as [Hrd Hrh]. split; [by rewrite not_elem_of_app|].
       destruct u as [|d u]; simpl in *; [destruct rest; set_solver|set_solver]. }
  rewrite (separated_text op p write allowed n g Ha Hop Hp Hw u rest _ [x] Hu Hr); [done| |lia].
  rewrite !length_app in *. lia.
Qed.

(** A whole list that is printed. *)
Lemma separated_list_text op (p : list N → IResult VersionSpec Fallible) write allowed n g :
  (∀ d, d ∈ allowed → d ∈ [c_bar; c_rparen]) → op_char op ∉ allowed → g ≠ [] →
  Forall (λ x, ∀ t rest, write x = Some t → ends_with_any (op_char op :: allowed) rest →
    length (t ++ rest) ≤ n → p (t ++ rest) = Ok (rest, x)) g →
  Forall (λ x, ∃ t, write x = Some t ∧ plain_text t) g →
  ∀ t rest, group_display op write true g = Some t → ends_with_any allowed rest →
    length (t ++ rest) ≤ n →
    separated_list1 (delimited multispace0 (nom_char (op_char op)) multispace0) p (t ++ rest)
      = Ok (rest, g).
Proof.
  intros Ha Hop Hne Hp Hw t rest Ht Hr Hn. destruct g as [|x g]; [done|].
  apply Forall_cons in Hp as [Hpx Hp]. apply Forall_cons in Hw as [(tx & Htx & Hplain) Hw].
  destruct (group_display_rest op write g Hw) as (u & Hu & Hud & Huh).
  cbn [group_display] in Ht. rewrite Htx, Hu in Ht. cbn [mbind option_bind app] in Ht.
  injection Ht as <-. eapply separated_list_first; eauto.
Qed.

(** *** Terms *)
Lemma leaf_head po s t :
  is_leaf s = true → spec_canonical s → spec_write po s = Some t →
  ∃ c t', t = c :: t' ∧ c ∉ [c_lparen; c_star].
Proof.
  intros Hleaf Hs Ht.
  assert (∀ a u, vt_ok a = true → ∃ c t', vt_text a ++ u = c :: t' ∧ c ∉ [c_lparen; c_star]) as Hv.
  { intros a u Ha. destruct (vt_text_head a Ha) as (c & s' & -> & Hc).
    destruct (alnum_plain c Hc) as (_ & _ & _ & Hn). exists c, (s' ++ u). split; [done|]. set_solver. }
  destruct s as [| |op v|op v|op v|op g]; try done; cbn [spec_write spec_canonical] in Ht, Hs.
  - apply parsed_display in Hs as (a & Ha & E & ->). rewrite E in Ht. injection Ht as <-.
    destruct op; eexists _, _; (split; [done|set_solver]).
  - destruct Hs as [_ Hs]. apply parsed_display in Hs as (a & Ha & E & ->). rewrite E in Ht.
    cbn [mbind option_bind] in Ht. apply (inj Some) in Ht; subst t.
    destruct op; [by apply Hv|..]; eexists _, _; (split; [done|set_solver]).
  - apply parsed_display in Hs as (a & Ha & E & ->). rewrite E in Ht. injection Ht as <-.
    destruct op; eexists _, _; (split; [done|set_solver]).
Qed.

Lemma paren_skip (or_group : list N → IResult VersionSpec Fallible) c s :
  c ≠ c_lparen →
  delimited (terminated (nom_char c_lparen) multispace0) or_group
    (preceded multispace0 (nom_char c_rparen)) (c :: s) = Err (NErr (Failed (ConstraintNom KChar))).
Proof.
  intros Hc. nom. unfold map_fun, pair_fun. nom. unfold map_fun, pair_fun. nom.
  unfold one_of_fun. by rewrite bool_decide_eq_false_2 by set_solver.
Qed.

Lemma star_skip c s :
  c ≠ c_star →
  nom_map (terminated (nom_char c_star) (opt (tag (txt ".*")))) (λ _ : N, SAny) (c :: s) =
  Err (NErr (Failed (ConstraintNom KChar))).
Proof.
  intros Hc. nom. unfold map_fun. nom. unfold map_fun, pair_fun. nom.
  unfold one_of_fun. by rewrite bool_decide_eq_false_2 by set_solver.
Qed.

Definition delimiters : list N := [c_comma; c_bar; c_rparen].

Lemma term_leaf og st po s t rest :
  is_leaf s = true → spec_canonical s → spec_write po s = Some t →
  ends_with_any delimiters rest → version_spec_term og st (t ++ rest) = Ok (rest, s).
Proof.
  intros Hleaf Hs Ht Hr. destruct (leaf_text st po s t rest) as (c & Hc & Es); try done.
  { by eapply delimiter_stops. } { apply Hr. }
  unfold version_spec_term. nom. unfold alt3_fun.
  destruct (leaf_head po s t Hleaf Hs Ht) as (d & t' & E & Hd). rewrite E in *. cbn [app] in *.
  rewrite paren_skip, star_skip by set_solver. nom. unfold map_fun. by rewrite Hc, Es.
Qed.

Lemma term_any og st rest :
  ends_with_any delimiters rest → version_spec_term og st (txt "*" ++ rest) = Ok (rest, SAny).
Proof.
  intros [_ Hr]. unfold version_spec_term. nom. unfold alt3_fun.
  change (txt "*" ++ rest) with (c_star :: rest). rewrite paren_skip by done.
  nom. unfold map_fun at 1. nom. unfold map_fun, pair_fun. nom. unfold one_of_fun.
  rewrite bool_decide_eq_true_2 by set_solver. nom. unfold opt_fun. nom. unfold tag_fun.
  assert (strip (txt ".*") rest = None) as ->; [|done].
  destruct rest as [|c rest]; [done|]. change (txt ".*") with [c_dot; c_star]. cbn [strip].
  rewrite (proj2 (N.eqb_neq c_dot c)); [done|]. intros <-. unfold delimiters in Hr. set_solver.
Qed.

Lemma term_paren og st t rest s :
  plain_text t → og (t ++ c_rparen :: rest) = Ok (c_rparen :: rest, s) →
  version_spec_term og st (([c_lparen] ++ t ++ [c_rparen]) ++ rest) = Ok (rest, s).
Proof.
  intros [_ (c & t' & E & Hc)] Hog. unfold version_spec_term. nom. unfold alt3_fun. nom.
  unfold map_fun at 1, pair_fun at 1. nom. unfold map_fun at 1, pair_fun at 1. nom.
  rewrite <-!app_assoc. cbn [app]. unfold one_of_fun at 1.
  rewrite bool_decide_eq_true_2 by set_solver. nom.
  assert (span is_multispace (t ++ c_rparen :: rest) = ([], t ++ c_rparen :: rest)) as ->
    by (rewrite E; cbn [app span]; by rewrite Hc).
  cbn [fst snd]. unfold pair_fun at 1. rewrite Hog. nom. unfold map_fun at 1, pair_fun at 1. nom.
  cbn [span fst snd]. change (is_multispace c_rparen) with false. cbv iota. cbn [fst snd].
  nom. unfold one_of_fun at 1. by rewrite bool_decide_eq_true_2 by set_solver.
Qed.

(** *** All specs *)
Definition term_prints (st : ParseStrictness) (s : VersionSpec) : Prop :=
  is_group And s = false → ∀ f t rest, spec_write (Some And) s = Some t →
    ends_with_any delimiters rest → length (t ++ rest) ≤ f →
    version_spec_term (version_spec_or_group f st) st (t ++ rest) = Ok (rest, s).
Definition and_prints (st : ParseStrictness) (s : VersionSpec) : Prop :=
  is_group Or s = false → ∀ f t rest, spec_write (Some Or) s = Some t →
    ends_with_any [c_bar; c_rparen] rest → length (t ++ rest) ≤ f →
    version_spec_and_group (version_spec_or_group f st) st (t ++ rest) = Ok (rest, s).
Definition or_prints (st : ParseStrictness) (s : VersionSpec) : Prop :=
  ∀ f t rest, spec_write None s = Some t → ends_with_any [c_rparen] rest →
    length (t ++ rest) < f → version_spec_or_group f st (t ++ rest) = Ok (rest, s).

(** Only an [Or] group is written differently inside an [And] group. *)
Lemma write_parent po po' s : is_group Or s = false → spec_write po s = spec_write po' s.
Proof. intros H. by destruct s as [| |? ?|? ?|? ?|[] g]. Qed.

Lemma group_singleton op write s t : write s = Some t → group_display op write true [s] = Some t.
Proof. intros H. cbn [group_display]. rewrite H. cbn. by rewrite app_nil_r. Qed.

Lemma and_of_term st s :
  spec_canonical s → is_group And s = false → term_prints st s → and_prints st s.
Proof.
  intros Hs Hg Ht Ho f t rest Hw Hr Hf. unfold version_spec_and_group.
  rewrite (write_parent _ (Some And)) in Hw by done.
  rewrite (separated_list_text And _ (spec_write (Some And)) [c_bar; c_rparen] f [s]); try done.
  - simpl. set_solver.
  - constructor; [|constructor]. intros u rest' Hu Hr' Hf'. by apply Ht.
  - constructor; [|constructor]. by apply write_plain.
  - by apply group_singleton.
Qed.

Lemma or_of_and st s : spec_canonical s → is_group Or s = false → and_prints st s → or_prints st s.
Proof.
  intros Hs Hg Ha f t rest Hw Hr Hf. destruct f as [|f]; [lia|]. cbn [version_spec_or_group].
  rewrite (write_parent _ (Some Or)) in Hw by done.
  rewrite (separated_list_text Or _ (spec_write (Some Or)) [c_rparen] f [s]); try done.
  - set_solver.
  - simpl. set_solver.
  - constructor; [|constructor]. intros u rest' Hu Hr' Hf'. by apply Ha.
  - constructor; [|constructor]. by apply write_plain.
  - by apply group_singleton.
  - lia.
Qed.

Lemma spec_prints st s :
  spec_canonical s → term_prints st s ∧ and_prints st s ∧ or_prints st s.
Proof.
  assert (∀ s, spec_canonical s → is_group And s = false → is_group Or s = false →
    term_prints st s → term_prints st s ∧ and_prints st s ∧ or_prints st s) as Hsimple.
  { intros s' Hs Ha Ho Ht. pose proof (and_of_term st s' Hs Ha Ht) as Hand.
    split; [done|]. split; [done|]. by apply or_of_and. }
  induction s as [| |op v|op v|op v|op g IH] using spec_induction; intros Hs.
  - done.
  - apply Hsimple; [done..|]. intros _ f t rest [= <-] Hr _. by apply term_any.
  - apply Hsimple; [done..|]. intros _ f t rest Hw Hr _. by eapply term_leaf.
  - apply Hsimple; [done..|]. intros _ f t rest Hw Hr _. by eapply term_leaf.
  - apply Hsimple; [done..|]. intros _ f t rest Hw Hr _. by eapply term_leaf.
  - pose proof (group_canonical op g Hs) as [Hl Hg].
    assert (g ≠ []) as Hne by (intros ->; simpl in Hl; lia).
    assert (∀ po, Forall (λ x, ∃ t, spec_write po x = Some t ∧ plain_text t) g) as Hplain.
    { intros po. eapply Forall_impl; [exact Hg|]. intros x [_ Hx]. by apply write_plain. }
    destruct op.
    + assert (and_prints st (SGroup And g)) as Hand.
      { intros _ f t rest Hw Hr Hf. unfold version_spec_and_group.
        cbn [spec_write] in Hw.
        destruct (group_display And (spec_write (Some And)) true g) as [u|] eqn:Hu; [|done].
        injection Hw as ->.
        rewrite (separated_list_text And _ (spec_write (Some And)) [c_bar; c_rparen] f g); try done.
        - by rewrite flatten_canonical.
        - simpl. set_solver.
        - rewrite Forall_forall in *. intros x Hx u rest' Hu' Hr' Hf'.
          by apply (IH x Hx); [apply (Hg x Hx)..| | |]. }
      split; [done|]. split; [done|]. by apply or_of_and.
    + assert (or_prints st (SGroup Or g)) as Hor.
      { intros f t rest Hw Hr Hf. destruct f as [|f]; [lia|]. cbn [version_spec_or_group].
        cbn [spec_write] in Hw.
        destruct (group_display Or (spec_write (Some Or)) true g) as [u|] eqn:Hu; [|done].
        injection Hw as ->.
        rewrite (separated_list_text Or _ (spec_write (Some Or)) [c_rparen] f g); try done.
        - by rewrite flatten_canonical.
        - set_solver.
        - simpl. set_solver.
        - rewrite Forall_forall in *. intros x Hx u rest' Hu' Hr' Hf'.
          by apply (IH x Hx); [apply (Hg x Hx)..| | |].
        - lia. }
      assert (term_prints st (SGroup Or g)) as Hterm.
      { intros _ f t rest Hw Hr Hf. cbn [spec_write] in Hw.
        destruct (group_display Or (spec_write (Some Or)) true g) as [u|] eqn:Hu; [|done].
        apply (inj Some) in Hw. subst t.
        destruct (group_display_plain Or (spec_write (Some Or)) g Hne (Hplain _)) as (u' & Hu' & Hp).
        assert (u' = u) as -> by congruence.
        apply term_paren; [done|]. apply Hor.
        - cbn [spec_write]. by rewrite Hu.
        - split; [|set_solver]. destruct Hr as [Hr _]. set_solver.
        - rewrite !length_app in *. simpl in *. lia. }
      split; [done|]. split; [|done]. by intros.
Qed.

(** *** The leading [==] of a text is left out *)

(** The text [t] starts with [==], and what follows is read as the spec in the lenient mode. *)
Definition reads_bare (s : VersionSpec) (t : list N) : Prop :=
  ∃ u, t = txt "==" ++ u
    ∧ (is_group And s = false → is_group Or s = false → ∀ f rest, ends_with_any delimiters rest →
        version_spec_term (version_spec_or_group f Lenient) Lenient (u ++ rest) = Ok (rest, s))
    ∧ (is_group Or s = false → ∀ f rest, ends_with_any [c_bar; c_rparen] rest → length (u ++ rest) ≤ f →
        version_spec_and_group (version_spec_or_group f Lenient) Lenient (u ++ rest) = Ok (rest, s))
    ∧ (∀ f rest, ends_with_any [c_rparen] rest → length (u ++ rest) < f →
        version_spec_or_group f Lenient (u ++ rest) = Ok (rest, s)).

Lemma bare_leaf s po t :
  is_leaf s = true → spec_canonical s → spec_write po s = Some t → head t = Some c_eq →
  ∃ u, t = txt "==" ++ u ∧ ∀ og rest, ends_with_any delimiters rest → version_spec_term og Lenient (u ++ rest) = Ok (rest, s).
Proof.
  intros Hleaf Hs Ht Hh.
  destruct s as [| |op v|op v|op v|op g]; try done; cbn [spec_write spec_canonical] in Ht, Hs.
  - apply parsed_display in Hs as (a & Ha & E & ->). rewrite E in Ht. injection Ht as <-. by destruct op.
  - destruct Hs as [Hn Hs]. apply parsed_display in Hs as (a & Ha & E & ->). rewrite E in Ht.
    cbn [mbind option_bind] in Ht. apply (inj Some) in Ht; subst t. destruct op; [|done..].
    destruct (vt_text_head a Ha) as (c & s' & Ec & Hc). rewrite Ec in Hh. injection Hh as ->. done.
  - apply parsed_display in Hs as (a & Ha & E & ->). rewrite E in Ht. cbn [mbind option_bind] in Ht.
    apply (inj Some) in Ht; subst t. destruct op; [|done]. exists (vt_text a). split; [done|]. intros og rest Hr.
    pose proof (constraint_bare Lenient a [] (OpExact Equals) rest Ha (or_introl eq_refl) eq_refl
      (delimiter_stops delimiters rest Hr ltac:(done)) (proj1 Hr)) as Hc. cbn [app] in Hc.
    unfold version_spec_term. nom. unfold alt3_fun. destruct (vt_text_head a Ha) as (c & s' & Ec & Hal).
    destruct (alnum_plain c Hal) as (_ & _ & _ & Hn). rewrite Ec in *. cbn [app] in *.
    rewrite paren_skip, star_skip by set_solver. nom. unfold map_fun. by rewrite Hc.
Qed.

Lemma bare_and s u g u' f rest :
  (∀ og rest, ends_with_any delimiters rest → length (u ++ rest) ≤ f →
     og = version_spec_or_group f Lenient → version_spec_term og Lenient (u ++ rest) = Ok (rest, s)) →
  Forall (λ x, is_group And x = false ∧ spec_canonical x) g →
  group_display And (spec_write (Some And)) false g = Some u' → ends_with_any [c_bar; c_rparen] rest →
  length ((u ++ u') ++ rest) ≤ f →
  version_spec_and_group (version_spec_or_group f Lenient) Lenient ((u ++ u') ++ rest)
  = Ok (rest, flatten_version_specs And (s :: g)).
Proof.
  intros Ht Hg Hu Hr Hf. unfold version_spec_and_group.
  pose proof (separated_list_first And (λ s, version_spec_term (version_spec_or_group f Lenient) Lenient s)
    (spec_write (Some And)) [c_bar; c_rparen] f s g u) as H. cbn [op_char] in H.
  rewrite (H ltac:(done) ltac:(set_solver) (λ r Hr Hl, Ht _ r Hr Hl eq_refl)); [done| |..|done|done|done].
  - eapply Forall_impl; [exact Hg|]. intros x [Hx1 Hx2] t r Hw Hr' Hl. by apply (spec_prints Lenient x).
  - eapply Forall_impl; [exact Hg|]. intros x [_ Hx]. by apply write_plain.
Qed.

Lemma bare_or s u g u' f rest :
  (∀ rest, ends_with_any [c_bar; c_rparen] rest → length (u ++ rest) ≤ f →
     version_spec_and_group (version_spec_or_group f Lenient) Lenient (u ++ rest) = Ok (rest, s)) →
  Forall (λ x, is_group Or x = false ∧ spec_canonical x) g →
  group_display Or (spec_write (Some Or)) false g = Some u' → ends_with_any [c_rparen] rest →
  length ((u ++ u') ++ rest) ≤ f →
  version_spec_or_group (S f) Lenient ((u ++ u') ++ rest) = Ok (rest, flatten_version_specs Or (s :: g)).
Proof.
  intros Ht Hg Hu Hr Hf. cbn [version_spec_or_group].
  pose proof (separated_list_first Or (version_spec_and_group (version_spec_or_group f Lenient) Lenient)
    (spec_write (Some Or)) [c_rparen] f s g u) as H. cbn [op_char] in H.
  rewrite (H ltac:(set_solver) ltac:(set_solver)); [done|done| |..|done|done|done].
  - eapply Forall_impl; [exact Hg|]. intros x [Hx1 Hx2] t r Hw Hr' Hl. by apply (spec_prints Lenient x).
  - eapply Forall_impl; [exact Hg|]. intros x [_ Hx]. by apply write_plain.
Qed.

Lemma bare_and_or s u :
  is_group Or s = false →
  (∀ f rest, ends_with_any [c_bar; c_rparen] rest → length (u ++ rest) ≤ f →
     version_spec_and_group (version_spec_or_group f Lenient) Lenient (u ++ rest) = Ok (rest, s)) →
  ∀ f rest, ends_with_any [c_rparen] rest → length (u ++ rest) < f →
    version_spec_or_group f Lenient (u ++ rest) = Ok (rest, s).
Proof.
  intros Hg H f rest Hr Hf. destruct f as [|f]; [lia|].
  pose proof (bare_or s u [] [] f rest (H f) (Forall_nil_2 _) eq_refl Hr) as E.
  rewrite app_nil_r in E. apply E. lia.
Qed.

Lemma spec_bare_leaf s po t :
  is_leaf s = true → spec_canonical s → spec_write po s = Some t → head t = Some c_eq → reads_bare s t.
Proof.
  intros Hleaf Hs Ht Hh. destruct (bare_leaf s po t Hleaf Hs Ht Hh) as (u & -> & Hu). exists u. split; [done|].
  assert (∀ f rest, ends_with_any [c_bar; c_rparen] rest → length (u ++ rest) ≤ f →
    version_spec_and_group (version_spec_or_group f Lenient) Lenient (u ++ rest) = Ok (rest, s)) as Hand.
  { intros f rest Hr Hf. pose proof (bare_and s u [] [] f rest) as E. rewrite app_nil_r in E. apply E; try done.
    intros og r Hr' _ ->. by apply Hu. }
  split; [intros; by apply Hu|]. split; [done|]. apply bare_and_or; [by destruct s|done].
Qed.

(** The first element of a printed group *)
Lemma group_display_first op write x g t :
  group_display op write true (x :: g) = Some t →
  ∃ tx u, write x = Some tx ∧ group_display op write false g = Some u ∧ t = tx ++ u.
Proof.
  cbn [group_display]. destruct (write x) as [tx|]; [|done]. cbn [mbind option_bind].
  destruct (group_display op write false g) as [u|]; [|done]. cbn [mbind option_bind app]. intros [= <-]. eauto.
Qed.

Lemma spec_bare s po t :
  spec_canonical s → spec_write po s = Some t → head t = Some c_eq → reads_bare s t.
Proof.
  revert po t. induction s as [| |op v|op v|op v|op g IH] using spec_induction; intros po t Hs Ht Hh;
    [done|by injection Ht as <-|by eapply spec_bare_leaf..|].
  pose proof (group_canonical op g Hs) as [Hl Hg]. destruct g as [|x g]; [simpl in Hl; lia|].
  apply Forall_cons in Hg as [[Hxg Hx] Hg]. apply Forall_cons in IH as [IH _].
  destruct (group_display op (spec_write (Some op)) true (x :: g)) as [t'|] eqn:Et; [|by destruct op; cbn [spec_write] in Ht; rewrite Et in Ht].
  assert (t = t') as ->.
  { destruct op; cbn [spec_write] in Ht; rewrite Et in Ht; [by injection Ht|]. destruct po as [[]|]; by injection Ht as <-. }
  apply group_display_first in Et as (tx & u' & Etx & Eu & ->).
  destruct (write_plain x (Some op) Hx) as (tx' & Etx' & _ & c & s' & Ec & _).
  assert (tx' = tx) as -> by congruence.
  assert (head tx = Some c_eq) as Hh' by (by rewrite Ec in Hh |- *).
  assert (flatten_version_specs op (x :: g) = SGroup op (x :: g)) as Hflat
    by (apply flatten_canonical; [done|by constructor]).
  destruct (IH (Some op) tx Hx Etx Hh') as (u & -> & Hterm & Hand & Hor). exists (u ++ u').
  split; [by rewrite <-app_assoc|]. destruct op.
  - assert (is_group Or x = false) as Hxo.
    { destruct x as [| |? ?|? ?|? ?|[] gx]; try done. cbn [spec_write] in Etx.
      by destruct (group_display Or (spec_write (Some Or)) true gx). }
    assert (∀ f rest, ends_with_any [c_bar; c_rparen] rest → length ((u ++ u') ++ rest) ≤ f →
      version_spec_and_group (version_spec_or_group f Lenient) Lenient ((u ++ u') ++ rest)
      = Ok (rest, SGroup And (x :: g))) as Ha.
    { intros f rest Hr Hf. rewrite <-Hflat. apply bare_and; try done. intros og r Hr' _ ->. by apply Hterm. }
    split; [done|]. split; [done|]. by apply bare_and_or.
  - split; [done|]. split; [done|]. intros f rest Hr Hf. destruct f as [|f]; [lia|].
    rewrite <-Hflat. apply bare_or; try done; [|lia]. intros r Hr' Hf'. by apply Hand.
Qed.

(** In the lenient mode a canonical spec is also read without the [==] that its text starts
    with. *)
Lemma spec_display_parse_bare s t :
  spec_canonical s → spec_display s = Some t → head t = Some c_eq →
  ∃ u, t = txt "==" ++ u ∧ version_spec_from_str u Lenient = Some (Ok s).
Proof.
  intros Hs Ht Hh. destruct (spec_bare s None t Hs Ht Hh) as (u & -> & _ & _ & Hor). exists u. split; [done|].
  unfold version_spec_from_str, version_spec_parser. nom. unfold all_consuming_fun.
  pose proof (Hor (S (length u)) []) as H. rewrite app_nil_r in H.
  rewrite H; [done| |lia]. split; [apply not_elem_of_nil|done].
Qed.

(** Printing a canonical spec and parsing the text gives the spec back. *)
Lemma spec_display_parse st s :
  spec_canonical s →
  ∃ t, spec_display s = Some t ∧ version_spec_from_str t st = Some (Ok s).
Proof.
  intros Hs. destruct (write_plain s None Hs) as (t & Ht & Hp). exists t. split; [done|].
  destruct (spec_prints st s Hs) as (_ & _ & Hor).
  unfold version_spec_from_str, version_spec_parser. nom. unfold all_consuming_fun.
  pose proof (Hor (S (length t)) t [] Ht) as H. rewrite app_nil_r in H.
  rewrite H; [done| |lia]. split; [apply not_elem_of_nil|done].
Qed.
End text.

(** ** The parser only builds canonical specs *)
Definition yields {O E} (Q : O → Prop) (r : IResult O E) : Prop :=
  match r with Ok (_, o) => Q o | Err _ => True end.

Lemma canonical_group op g :
  2 ≤ length g → Forall (λ s, is_group op s = false ∧ spec_canonical s) g →
  spec_canonical (SGroup op g).
Proof.
  intros Hl Hg. split; [done|]. clear Hl.
  induction Hg as [|s g Hs Hg IH]; [done|]. simpl. done.
Qed.

Lemma flatten_yields op l :
  l ≠ [] → Forall spec_canonical l → spec_canonical (flatten_version_specs op l).
Proof.
  intros Hne Hl. unfold flatten_version_specs.
  set (splice := λ spec, match spec with
      | SGroup op' others => if bool_decide (op' = op) then others else [spec]
      | _ => [spec] end).
  assert (∀ s, spec_canonical s → 1 ≤ length (splice s) ∧
    Forall (λ s, is_group op s = false ∧ spec_canonical s) (splice s)) as Hsplice.
  { intros s Hs. assert (is_group op s = false →
      Forall (λ s, is_group op s = false ∧ spec_canonical s) [s]) as Hone by (by constructor).
    destruct s as [| |? ?|? ?|? ?|op' g]; try (by split; [simpl; lia|by apply Hone]).
    unfold splice. case_bool_decide as E.
    - subst op'. apply group_canonical in Hs as [??]. split; [lia|done].
    - split; [simpl; lia|]. apply Hone. simpl. by apply bool_decide_eq_false. }
  assert (length l ≤ length (concat (splice <$> l)) ∧
    Forall (λ s, is_group op s = false ∧ spec_canonical s) (concat (splice <$> l))) as [Hlen Hall].
  { clear Hne. induction Hl as [|s l Hs Hl [IH1 IH2]]; csimpl; [by split|].
    destruct (Hsplice s Hs) as [H1 H2]. rewrite length_app. split; [lia|by apply Forall_app]. }
  destruct l as [|s [|t l]]; [done|by inversion Hl|].
  apply canonical_group; [simpl in *; lia|done].
Qed.

Section image.
Context `{NM : Nom} `{UC : Unicode}.

Lemma separated_yields {O P} (Q : O → Prop) (sep : list N → IResult P Fallible)
    (p : list N → IResult O Fallible) s :
  (∀ s, yields Q (p s)) → yields (λ l, l ≠ [] ∧ Forall Q l) (separated_list1 sep p s).
Proof.
  intros Hp. nom. unfold separated_list1_fun. pose proof (Hp s) as H.
  destruct (p s) as [[r o]|]; [|done]. simpl in H.
  assert (∀ fuel r acc, acc ≠ [] → Forall Q acc →
    yields (λ l, l ≠ [] ∧ Forall Q l) (separated_loop fuel sep p r acc)) as Hloop.
  { clear -Hp. induction fuel as [|f IH]; intros r acc Hne Hacc; cbn [separated_loop]; [done|].
    destruct (sep r) as [[r1 x]|[e|e]]; [|done..]. pose proof (Hp r1) as H.
    destruct (p r1) as [[r2 y]|[e|e]]; [|done..]. destruct (decide _); [done|].
    apply IH; [by destruct acc|]. apply Forall_app. split; [done|]. by constructor. }
  apply Hloop; [done|]. by constructor.
Qed.

Lemma version_constraint_yields op st input :
  op ≠ Some (OpStrictRange NotCompatible) →
  yields (λ c, spec_canonical (spec_of_constraint c)) (version_constraint input op st).
Proof.
  intros Hop. unfold version_constraint.
  destruct (take_while1 _ input) as [[rest version_str]|e]; [|done].
  case_bool_decide.
  { destruct op as [op|]; [|done]. unfold star_constraint.
    destruct st; [|done]. by destruct op as [[]|[]|[]]. }
  destruct (version_parser_inv version_str) as (r & -> & Hr).
  destruct r as [[vr v]|[e|e]]; [|done..]. destruct (Hr vr v eq_refl) as (a & Ha & _ & ->).
  assert (parsed_version (pack (vt_parts a))) as Hpv by (by exists a).
  destruct (resolve_operator version_str vr op st) as [o|e] eqn:E; [|done].
  destruct o as [o|o|o]; [done| |done]. split; [|done]. intros ->.
  unfold resolve_operator in E. by repeat case_match; simplify_eq.
Qed.

Lemma constraint_yields st input :
  yields (λ c, spec_canonical (spec_of_constraint c)) (constraint_parser st input).
Proof.
  unfold constraint_parser. nom. unfold alt3_fun. rewrite regex_eq. destruct (_ || _); [done|].
  assert (yields (λ c, spec_canonical (spec_of_constraint c)) (any_constraint_parser st input)) as Ha.
  { unfold any_constraint_parser. destruct (seq2 _ _ _) as [[r [x t]]|e]; [|done].
    by destruct (_ && _). }
  assert (yields (λ c, spec_canonical (spec_of_constraint c)) (logical_constraint_parser st input)) as Hl.
  { unfold logical_constraint_parser.
    destruct (operator_parser input) as [[rest op]|[[|]|[|]]] eqn:E; try done;
      apply version_constraint_yields; [|by intros [=]]. intros [= ->].
    unfold operator_parser in E. by repeat case_match; simplify_eq. }
  destruct (any_constraint_parser st input) as [[? ?]|[e|e]]; [done| |done].
  by destruct (logical_constraint_parser st input) as [[? ?]|[e'|e']].
Qed.

Lemma alt3_yields {O} (Q : O → Prop) (p q t : list N → IResult O Fallible) s :
  yields Q (p s) → yields Q (q s) → yields Q (t s) → yields Q (alt3 p q t s).
Proof.
  intros Hp Hq Ht. nom. unfold alt3_fun. destruct (p s) as [[? ?]|[?|?]]; [done| |done].
  destruct (q s) as [[? ?]|[?|?]]; [done| |done]. by destruct (t s) as [[? ?]|[?|?]].
Qed.

Lemma term_yields og st input :
  (∀ s, yields spec_canonical (og s)) → yields spec_canonical (version_spec_term og st input).
Proof.
  intros Hog. apply alt3_yields; nom; unfold map_fun.
  - unfold pair_fun. destruct (terminated _ _ input) as [[r x]|]; [|done].
    pose proof (Hog r) as H. destruct (og r) as [[r' y]|]; [|done].
    by destruct (preceded _ _ r') as [[? ?]|].
  - by destruct (terminated _ _ input) as [[? ?]|].
  - pose proof (constraint_yields st input) as H.
    by destruct (constraint_parser st input) as [[? ?]|].
Qed.

Lemma or_group_yields fuel st input :
  yields spec_canonical (version_spec_or_group fuel st input).
Proof.
  revert input. induction fuel as [|f IH]; intros input; [done|]. cbn [version_spec_or_group].
  pose proof (separated_yields spec_canonical
    (delimited multispace0 (nom_char c_bar) multispace0)
    (version_spec_and_group (version_spec_or_group f st) st) input) as H.
  destruct (separated_list1 _ _ input) as [[r l]|e]; [|done].
  destruct H as [Hne Hl]; [|by apply flatten_yields].
  intros s. unfold version_spec_and_group.
  pose proof (separated_yields spec_canonical
    (delimited multispace0 (nom_char c_comma) multispace0)
    (version_spec_term (version_spec_or_group f st) st) s) as H.
  destruct (separated_list1 _ _ s) as [[r' k]|e]; [|done].
  destruct H as [Hne Hl]; [|by apply flatten_yields]. intros t. by apply term_yields.
Qed.

Lemma version_spec_parse_canonical input st spec :
  version_spec_from_str input st = Some (Ok spec) → spec_canonical spec.
Proof.
  unfold version_spec_from_str, version_spec_parser. nom. unfold all_consuming_fun.
  pose proof (or_group_yields (S (length input)) st input) as H.
  destruct (version_spec_or_group _ st input) as [[[|c r] o]|[[|e]|[|e]]]; try done.
  by intros [= <-].
Qed.
End image.

Lemma parsed_version_wf v : parsed_version v → wf v.
Proof. intros (a & Ha & ->). exists (vt_parts a). split; [by apply vt_parts_wf|done]. Qed.

Lemma canonical_versions_wf s : spec_canonical s → spec_versions wf s.
Proof.
  induction s as [| |op v|op v|op v|op g IH] using spec_induction; intros Hs; try done.
  - by apply parsed_version_wf.
  - by apply parsed_version_wf, Hs.
  - by apply parsed_version_wf.
  - apply group_canonical in Hs as [_ Hg]. simpl.
    induction IH as [|s g H IH' IH'']; [done|]. apply Forall_cons in Hg as [[_ Hs] Hg].
    simpl. split; [by apply H|by apply IH''].
Qed.
