(* ===== verification/VersionTheorems.v ===== *)
(** * What the version operations promise

    The theorems about parsing, printing, ordering, hashing and editing
    versions.  Each one combines the lemmas of the component files; a witness
    applies it to parsed versions. *)
From S2P Require Import Prelude Externs VersionRepr VersionOrder VersionOps.
From S2P Require Import VersionParse VersionGrammar VersionSource.

(** ** Definitions used by the statements and the witnesses *)

(** The matrices agree, up to the kind of a trailing dash. *)
Definition matrix_eq (a b : list SegmentIter) : Prop :=
  ∀ i j, forget_dash (cell a i j) = forget_dash (cell b i j).

(** Row by row, the first difference is smaller on the left. *)
Definition matrix_lt (a b : list SegmentIter) : Prop :=
  ∃ i j, component_cmp (cell a i j) (cell b i j) = Lt ∧
    ∀ i' j', i' < i ∨ (i' = i ∧ j' < j) → forget_dash (cell a i' j') = forget_dash (cell b i' j').

(** Test data: the version a literal stands for, as abstract parts. *)
Definition row (sep : option N) (toks : list string) : SegmentIter := row_iter (sep, txt <$> toks).
Definition version_of (s : string) : Version :=
  match version_from_str (txt s) with
  | Some (Ok v) => v
  | _ => mkVersion [] [] flags_default
  end.

(** Decides that a literal's version is [pack p]. *)
Ltac parts_wf :=
  split; [discriminate|simpl; intros; lia|repeat constructor; vm_compute; reflexivity..].

Definition parts_1_2 : parts := mkParts None [row None ["1"]; row (Some c_dot) ["2"]] [].
Definition parts_1_2_3 : parts :=
  mkParts None [row None ["1"]; row (Some c_dot) ["2"]; row (Some c_dot) ["3"]] [].
Definition parts_1_2_plus_b : parts :=
  mkParts None [row None ["1"]; row (Some c_dot) ["2"]] [row None ["4"]].

Lemma parts_1_2_wf : wf_parts parts_1_2.
Proof. parts_wf. Qed.
Lemma parts_1_2_3_wf : wf_parts parts_1_2_3.
Proof. parts_wf. Qed.
Lemma parts_1_2_plus_b_wf : wf_parts parts_1_2_plus_b.
Proof. parts_wf. Qed.

Lemma pack_wf p : wf_parts p → wf (pack p).
Proof. intros H. by exists p. Qed.

(** ** Shared lemmas *)
Section shared.
Context `{IT : Itertools}.

(** The three stages of the comparison of packed versions. *)
Definition parts_cmp (p q : parts) : comparison :=
  then_with (N.compare (default 0%N (p_epoch p)) (default 0%N (p_epoch q)))
    (then_with (compare_segments (p_release p) (p_release q))
               (compare_segments (p_local p) (p_local q))).

#[export] Instance parts_cmp_preorder : TotalPreorder parts_cmp.
Proof.
  unfold parts_cmp.
  apply (then_with_preorder (λ p q, N.compare (default 0%N (p_epoch p)) (default 0%N (p_epoch q)))).
  - apply (on_key_preorder (λ p, default 0%N (p_epoch p))), _.
  - apply then_with_preorder;
      [apply (on_key_preorder p_release), _|apply (on_key_preorder p_local), _].
Qed.

Lemma version_cmp_pack p q :
  wf_parts p → wf_parts q → version_cmp (pack p) (pack q) = Some (parts_cmp p q).
Proof. intros Hp Hq. unfold version_cmp. by unpack. Qed.

Lemma version_eqb_pack p q :
  wf_parts p → wf_parts q →
  version_eqb (pack p) (pack q) =
  Some ((default 0 (p_epoch p) =? default 0 (p_epoch q))%N
        && segments_equal (p_release p) (p_release q) && segments_equal (p_local p) (p_local q)).
Proof. intros Hp Hq. unfold version_eqb. by unpack. Qed.

(** Equal parts: the same epoch and the same matrices. *)
Definition parts_equal (p q : parts) : Prop :=
  default 0%N (p_epoch p) = default 0%N (p_epoch q) ∧
  (∀ i j, cell (p_release p) i j = cell (p_release q) i j) ∧
  (∀ i j, cell (p_local p) i j = cell (p_local q) i j).

Lemma version_eqb_true p q :
  wf_parts p → wf_parts q → version_eqb (pack p) (pack q) = Some true ↔ parts_equal p q.
Proof.
  intros Hp Hq. rewrite version_eqb_pack by done. unfold parts_equal.
  rewrite <-!segments_equal_spec, <-N.eqb_eq.
  destruct (_ =? _)%N, (segments_equal (p_release p) _), (segments_equal (p_local p) _); naive_solver.
Qed.

Lemma parts_equal_cmp p q : parts_equal p q → parts_cmp p q = Eq.
Proof.
  intros (He & Hr & Hl). unfold parts_cmp. rewrite He, N.compare_refl. simpl.
  rewrite (proj2 (compare_segments_Eq _ _)) by (intros; by rewrite Hr).
  simpl. apply compare_segments_Eq. intros; by rewrite Hl.
Qed.

Lemma parts_cmp_Lt_release p q :
  default 0%N (p_epoch p) = default 0%N (p_epoch q) →
  compare_segments (p_release p) (p_release q) = Lt → parts_cmp p q = Lt.
Proof. intros He Hr. unfold parts_cmp. by rewrite He, N.compare_refl, Hr. Qed.

Lemma matrix_lt_spec a b : compare_segments a b = Lt ↔ matrix_lt a b.
Proof. by apply compare_segments_decided. Qed.
Lemma matrix_eq_spec a b : compare_segments a b = Eq ↔ matrix_eq a b.
Proof. apply compare_segments_Eq. Qed.

Lemma version_hash_pack p :
  wf_parts p →
  version_hash (pack p) =
  Some (HashU64 (default 0%N (p_epoch p)) :: hash_segments 0 (p_release p) ++ hash_segments 0 (p_local p)).
Proof. intros Hp. unfold version_hash. by unpack. Qed.
End shared.

(** ** Parsing and printing *)
Section parsing.
Context `{NM : Nom}.

(** C1: [Version::from_str] accepts exactly the texts of the version grammar
    (optional epoch, rows of alternating numbers and words, one trailing dash
    or underscore, no mixture of dashes and underscores, at most 127 release
    segments before a local part, numbers below 2^64, at most 8191 components
    a segment), and builds the packed version the grammar assigns to them. *)
Theorem version_from_str_grammar s v :
  version_from_str s = Some (Ok v) ↔
  ∃ a, vt_ok a = true ∧ s = vt_text a ∧ v = pack (vt_parts a).
Proof.
  split.
  - intros H. destruct (version_from_str_inv s) as (r & Hr & Hv). rewrite H in Hr.
    injection Hr as <-. by apply Hv.
  - intros (a & Ha & -> & ->). by apply version_from_str_complete.
Qed.

(** Parsing any text terminates without a panic, and every version it
    returns satisfies the representation invariant, with a number at the start
    of every segment, so that none of the accessors panics on it. *)
Theorem version_from_str_total s :
  ∃ r, version_from_str s = Some r ∧ ∀ v, r = Ok v →
    ∃ p, wf_parts p ∧ v = pack p ∧ Forall numeric_row (p_release p) ∧ Forall numeric_row (p_local p).
Proof.
  destruct (version_from_str_inv s) as (r & -> & Hr). exists r. split; [done|].
  intros v Hv. destruct (Hr v Hv) as (a & Ha & _ & ->). exists (vt_parts a).
  split; [by apply vt_parts_wf|]. split; [done|]. unfold vt_ok in Ha.
  apply andb_true_iff in Ha as [[[_ Hp]%andb_true_iff Hl]%andb_true_iff _].
  split; [by apply part_numeric|]. simpl. destruct (vt_local a) as [l|]; [|constructor].
  apply andb_true_iff in Hl as [Hl _]. by apply part_numeric.
Qed.

(** C4: printing a parsed version and parsing the text gives exactly the same
    packed version, and the printed text is a fixed point of the two. *)
Theorem version_display_roundtrip s v :
  version_from_str s = Some (Ok v) →
  ∃ t, version_display v = Some t ∧ version_from_str t = Some (Ok v).
Proof.
  intros H. destruct (version_from_str_inv s) as (r & Hr & Hv). rewrite H in Hr.
  injection Hr as <-. destruct (Hv v eq_refl) as (a & Ha & _ & ->).
  exists (vt_text (canon a)). split; [by apply version_display_canon|].
  rewrite version_from_str_complete by (by apply canon_ok). by rewrite canon_parts.
Qed.
End parsing.

Lemma version_from_str_grammar_witness :
  ∃ a, vt_ok a = true ∧ txt "1!2.alpha3_" = vt_text a ∧ version_of "1!2.alpha3_" = pack (vt_parts a).
Proof.
  apply (proj1 (version_from_str_grammar (NM := nom_ref) (txt "1!2.alpha3_") (version_of "1!2.alpha3_"))).
  vm_compute. reflexivity.
Defined.

Lemma version_from_str_total_witness :
  ∃ p, wf_parts p ∧ version_of "1!2.alpha3_" = pack p.
Proof.
  destruct (version_from_str_total (NM := nom_ref) (txt "1!2.alpha3_")) as (r & Hr & Hp).
  assert (version_from_str (NM := nom_ref) (txt "1!2.alpha3_") = Some (Ok (version_of "1!2.alpha3_"))) as H
    by (vm_compute; reflexivity).
  destruct (Hp (version_of "1!2.alpha3_")) as (p & Hw & E & _); [congruence|]. by exists p.
Defined.

Lemma version_display_roundtrip_witness :
  version_from_str (txt "1!02.Alpha3_") = Some (Ok (version_of "1!2.alpha3_")) ∧
  ∃ t, version_display (version_of "1!2.alpha3_") = Some t ∧
    version_from_str t = Some (Ok (version_of "1!2.alpha3_")).
Proof.
  assert (version_from_str (txt "1!02.Alpha3_") = Some (Ok (version_of "1!2.alpha3_"))) as H
    by (vm_compute; reflexivity).
  split; [exact H|]. exact (version_display_roundtrip (txt "1!02.Alpha3_") _ H).
Defined.

(** ** Ordering, equality and hashing *)
Section ordering.
Context `{IT : Itertools}.

(** C3: [Ord for Version] is a total preorder on well-formed versions: it
    never panics, is reflexive, antisymmetric up to [Equal], and transitive. *)
Theorem version_cmp_total_order u v w :
  wf u → wf v → wf w →
  version_cmp v v = Some Eq ∧
  (∃ c, version_cmp u v = Some c ∧ version_cmp v u = Some (CompOpp c)) ∧
  (version_cmp u v ≠ Some Gt → version_cmp v w ≠ Some Gt → version_cmp u w ≠ Some Gt).
Proof.
  intros (p & Hp & ->) (q & Hq & ->) (r & Hr & ->). rewrite !version_cmp_pack by done.
  split; [f_equal; apply (cmp_refl parts_cmp)|]. split.
  - eexists; split; [done|]. f_equal. apply (cmp_opp parts_cmp).
  - intros H1 H2 [= H3]. apply (cmp_le_trans parts_cmp p q r); congruence.
Qed.

(** C2: a version is smaller than another exactly when its epoch is, or the
    epochs agree and the first differing release component (missing ones
    counting as the number 0) is smaller, or the release parts agree and the
    first differing local component is smaller. *)
Theorem version_cmp_lexicographic p q :
  wf_parts p → wf_parts q →
  version_cmp (pack p) (pack q) = Some Lt ↔
  (default 0 (p_epoch p) < default 0 (p_epoch q))%N ∨
  default 0%N (p_epoch p) = default 0%N (p_epoch q) ∧
    (matrix_lt (p_release p) (p_release q) ∨
     matrix_eq (p_release p) (p_release q) ∧ matrix_lt (p_local p) (p_local q)).
Proof.
  intros Hp Hq. rewrite version_cmp_pack by done. unfold parts_cmp.
  rewrite <-!matrix_lt_spec, <-matrix_eq_spec.
  destruct (N.compare_spec (default 0%N (p_epoch p)) (default 0%N (p_epoch q)))
    as [He|He|He]; cbn [then_with].
  - split.
    + intros H. right. split; [done|].
      destruct (compare_segments (p_release p) (p_release q)); cbn in H; [|by left|done].
      right. split; congruence.
    + intros [H|[_ [->|[-> ->]]]]; [lia|done..].
  - split; [by left|done].
  - split; [done|]. intros [H|[H _]]; lia.
Qed.

(** [PartialEq for Version] decides that the epochs are equal and that the
    component matrices are equal, so trailing zeros and an epoch of 0 do not
    count; versions it identifies have the same hash and compare as [Equal]. *)
Theorem version_eq_hash_ord p q :
  wf_parts p → wf_parts q →
  (version_eqb (pack p) (pack q) = Some true ↔ parts_equal p q) ∧
  (version_eqb (pack p) (pack q) = Some true →
    version_hash (pack p) = version_hash (pack q) ∧ version_cmp (pack p) (pack q) = Some Eq).
Proof.
  intros Hp Hq. split; [by apply version_eqb_true|].
  rewrite version_eqb_true, !version_hash_pack, version_cmp_pack by done.
  intros He. rewrite parts_equal_cmp by done. destruct He as (-> & Hr & Hl).
  by rewrite (hash_segments_ext 0 _ _ Hr), (hash_segments_ext 0 _ _ Hl).
Qed.

(** [StrictVersion] is ordered totally, and strictly equal versions
    compare as [Equal] and are equal as versions. *)
Theorem strict_version_order u v w :
  wf u → wf v → wf w →
  (∃ c, strict_version_cmp u v = Some c ∧ strict_version_cmp v u = Some (CompOpp c)) ∧
  (strict_version_cmp u v ≠ Some Gt → strict_version_cmp v w ≠ Some Gt →
    strict_version_cmp u w ≠ Some Gt) ∧
  (strict_version_eqb u v = Some true →
    strict_version_cmp u v = Some Eq ∧ version_eqb u v = Some true).
Proof.
  intros (p & Hp & ->) (q & Hq & ->) (r & Hr & ->). unfold strict_version_cmp, strict_version_eqb.
  rewrite !version_cmp_pack by done. cbn [mbind option_bind].
  set (len p := N.of_nat (length (components (pack p)))).
  assert (∀ p q, Nat.compare (length (components (pack p))) (length (components (pack q))) =
    N.compare (len p) (len q)) as Hlen by (intros; apply Nat2N.inj_compare).
  pose proof (then_with_preorder parts_cmp (λ p q, N.compare (len p) (len q))
    _ (on_key_preorder len N.compare _)) as Hord.
  rewrite !Hlen. split; [|split].
  - eexists; split; [done|]. f_equal.
    apply (cmp_opp (λ p q, then_with (parts_cmp p q) (N.compare (len p) (len q)))).
  - intros H1 H2 [= H3].
    apply (cmp_le_trans (λ p q, then_with (parts_cmp p q) (N.compare (len p) (len q))) p q r);
      congruence.
  - destruct (Nat.eqb_spec (length (components (pack p))) (length (components (pack q)))) as [E|];
      [|done].
    rewrite version_eqb_true by done. intros He. split; [|done].
    rewrite parts_equal_cmp, <-Hlen, E by done. simpl. by rewrite Nat.compare_refl.
Qed.
End ordering.

Lemma version_cmp_total_order_witness :
  wf (pack parts_1_2) ∧ version_cmp (pack parts_1_2) (pack parts_1_2) = Some Eq.
Proof.
  split; [exact (pack_wf _ parts_1_2_wf)|].
  exact (proj1 (version_cmp_total_order _ _ _ (pack_wf _ parts_1_2_wf) (pack_wf _ parts_1_2_wf)
    (pack_wf _ parts_1_2_wf))).
Defined.

Lemma version_cmp_lexicographic_witness :
  wf_parts parts_1_2 ∧ version_cmp (pack parts_1_2) (pack parts_1_2_3) = Some Lt.
Proof.
  split; [exact parts_1_2_wf|].
  apply (proj2 (version_cmp_lexicographic _ _ parts_1_2_wf parts_1_2_3_wf)).
  right. split; [reflexivity|]. left. exists 2, 0. split; [reflexivity|].
  intros [|[|i']] [|j'] [H|[? ?]]; try lia; reflexivity.
Defined.

Lemma version_eq_hash_ord_witness :
  wf_parts parts_1_2 ∧ version_cmp (pack parts_1_2) (pack parts_1_2) = Some Eq.
Proof.
  split; [exact parts_1_2_wf|].
  apply (proj2 (version_eq_hash_ord _ _ parts_1_2_wf parts_1_2_wf)). vm_compute. reflexivity.
Defined.

Lemma strict_version_order_witness :
  wf (pack parts_1_2) ∧ version_eqb (pack parts_1_2) (pack parts_1_2) = Some true.
Proof.
  split; [exact (pack_wf _ parts_1_2_wf)|].
  apply (proj2 (proj2 (strict_version_order _ _ _ (pack_wf _ parts_1_2_wf)
    (pack_wf _ parts_1_2_wf) (pack_wf _ parts_1_2_wf)))). vm_compute. reflexivity.
Defined.

(** ** Prefixes *)
Section prefixes.
Context `{IT : Itertools}.

(** [starts_with] holds exactly when the epochs agree and, for the
    release and the local part, every component of the prefix occurs at its
    place or is a zero past the end, with extra components allowed in the last
    common segment only; so a version starts with itself and is compatible
    with itself. *)
Theorem version_starts_with_spec p q :
  wf_parts p → wf_parts q →
  (version_starts_with (pack p) (pack q) = Some true ↔
   default 0%N (p_epoch p) = default 0%N (p_epoch q) ∧
   segments_prefix (p_release p) (p_release q) ∧ segments_prefix (p_local p) (p_local q)) ∧
  version_starts_with (pack p) (pack p) = Some true ∧
  version_compatible_with (pack p) (pack p) = Some true.
Proof.
  intros Hp Hq.
  assert (∀ l, segments_starts_with l l = true) as Hrefl.
  { intros l. apply segments_starts_with_spec, segments_prefix_take. intros i s ->. eauto. }
  split; [|split].
  - rewrite version_starts_with_pack by done. rewrite <-!segments_starts_with_spec, <-N.eqb_eq.
    destruct (_ =? _)%N, (segments_starts_with (p_release p) _), (segments_starts_with (p_local p) _);
      naive_solver.
  - rewrite version_starts_with_pack by done. by rewrite N.eqb_refl, !Hrefl.
  - unfold version_compatible_with. rewrite version_cmp_pack, (cmp_refl parts_cmp) by done. unpack.
    rewrite N.eqb_refl, Hrefl. simpl.
    assert (segments_starts_with (p_release p) (reverse (drop 1 (reverse (p_release p)))) = true) as ->;
      [|done].
    apply segments_starts_with_spec, segments_prefix_take. intros i s.
    destruct (p_release p) as [|x l _] using rev_ind; [done|].
    rewrite reverse_snoc. simpl. rewrite drop_0, reverse_involutive. intros Hi.
    exists s. split; [|done]. by rewrite lookup_app_l by (by eapply lookup_lt_Some).
Qed.

(** Popping [n] segments of a version succeeds exactly when a segment is
    left, keeps the epoch and the local part, and gives a version that the
    original one starts with. *)
Theorem version_pop_segments_spec `{UsizeBuild} p n :
  wf_parts p → n < length (p_release p) →
  ∃ q, version_pop_segments (pack p) n = Some (Some (pack q)) ∧ wf_parts q ∧
    length (p_release q) = length (p_release p) - n ∧
    p_epoch q = p_epoch p ∧ p_local q = p_local p ∧
    version_starts_with (pack p) (pack q) = Some true ∧
    version_pop_segments (pack p) (length (p_release p)) = Some None.
Proof.
  intros Hp Hn. set (q := select p 0 (length (p_release p) - n)). exists q.
  assert (wf_parts q) as Hq by (apply select_wf; [done|lia..]).
  assert (∀ k, k ≤ length (p_release p) → version_pop_segments (pack p) k =
    Some (if decide (k < length (p_release p)) then Some (pack (select p 0 (length (p_release p) - k)))
          else None)) as Hpop.
  { intros k Hk. unfold version_pop_segments. rewrite pack_segment_count by done.
    rewrite (proj2 (Nat.ltb_ge _ _)) by lia. rewrite (with_segments_at p _ _ 0 (length (p_release p) - k)) by done.
    f_equal. destruct (decide (k < _)); [rewrite decide_True by lia|rewrite decide_False by lia]; done. }
  rewrite !Hpop by lia. rewrite decide_True, decide_False by lia.
  split; [done|]. split; [done|]. split.
  { simpl. unfold clear_first. rewrite length_imap, length_take, length_drop. lia. }
  split; [done|]. split; [done|]. split; [|done].
  rewrite version_starts_with_pack by done. simpl. rewrite N.eqb_refl. f_equal.
  apply andb_true_iff. split; apply segments_starts_with_spec, segments_prefix_take.
  - intros i s Hi. apply clear_first_components in Hi as (t & Ht & E); [|apply Forall_take, Forall_drop, Hp].
    exists t. split; [|done]. rewrite lookup_take, drop_0 in Ht. by case_decide.
  - intros i s ->. eauto.
Qed.
End prefixes.

Lemma version_starts_with_spec_witness :
  wf_parts parts_1_2_3 ∧ version_starts_with (pack parts_1_2_3) (pack parts_1_2) = Some true.
Proof.
  split; [exact parts_1_2_3_wf|].
  apply (proj1 (version_starts_with_spec _ _ parts_1_2_3_wf parts_1_2_wf)).
  split; [reflexivity|]. split.
  - apply segments_starts_with_spec. vm_compute. reflexivity.
  - apply segments_starts_with_spec. vm_compute. reflexivity.
Defined.

(** A build without and a build with overflow checks, of 64 bits *)
Definition build_release_64 : UsizeBuild := {| usize_max := 18446744073709551615; overflow_checks := false |}.
Definition build_debug_64 : UsizeBuild := {| usize_max := 18446744073709551615; overflow_checks := true |}.

Lemma version_pop_segments_spec_witness :
  let _ := build_release_64 in wf_parts parts_1_2_3 ∧ ∃ q, version_pop_segments (pack parts_1_2_3) 1 = Some (Some (pack q)).
Proof.
  split; [exact parts_1_2_3_wf|].
  destruct (version_pop_segments_spec (H := build_release_64) parts_1_2_3 1 parts_1_2_3_wf) as (q & H & _).
  { simpl. lia. }
  exists q. exact H.
Defined.

(** ** Selecting, stripping and extending *)

(** The bound is the largest [usize] and the code adds one to it. *)
Definition start_overflows `{UsizeBuild} (b : Bound) : Prop := b = Excluded usize_max.
Definition end_overflows `{UsizeBuild} (b : Bound) : Prop := b = Included usize_max.

(** C40: [with_segments] selects a range of release segments.  Unless one is added to the largest
      [usize] it does not panic: it returns nothing when the range is empty or out of bounds, and
      otherwise the version with those segments, the first one without its separator, and with
      the epoch and the local part of the original.  In a build with overflow checks that addition
      panics; in one without, an end that overflows gives nothing, and a start that overflows
      counts as no bound. *)
Theorem version_with_segments_refines `{UsizeBuild} p b1 b2 :
  wf_parts p →
  (¬ start_overflows b1 → ¬ end_overflows b2 →
     version_with_segments (pack p) b1 b2 =
     Some (if decide (range_start b1 < range_end b2 (length (p_release p)) ∧ range_end b2 (length (p_release p)) ≤ N.of_nat (length (p_release p)))%N
           then Some (pack (select p (N.to_nat (range_start b1)) (N.to_nat (range_end b2 (length (p_release p)))))) else None))
  ∧ (overflow_checks = true → start_overflows b1 ∨ end_overflows b2 → version_with_segments (pack p) b1 b2 = None)
  ∧ (overflow_checks = false → end_overflows b2 → version_with_segments (pack p) b1 b2 = Some None)
  ∧ (overflow_checks = false → start_overflows b1 →
       version_with_segments (pack p) b1 b2 = version_with_segments (pack p) Unbounded b2).
Proof.
  intros Hp. unfold start_overflows, end_overflows. split; [|split; [|split]].
  - intros Hs He.
    assert (start_index b1 = Some (range_start b1)) as E1.
    { destruct b1 as [i|i|]; [done| |done]. cbn. unfold usize_succ. rewrite (proj2 (N.eqb_neq _ _)); [done|congruence]. }
    assert (end_index b2 (length (p_release p)) = Some (range_end b2 (length (p_release p)))) as E2.
    { destruct b2 as [i|i|]; [|done..]. cbn. unfold usize_succ. rewrite (proj2 (N.eqb_neq _ _)); [done|congruence]. }
    rewrite (with_segments_at p b1 b2 (N.to_nat (range_start b1)) (N.to_nat (range_end b2 (length (p_release p)))) Hp) by (by rewrite N2Nat.id).
    f_equal. destruct (decide _) as [[? ?]|Hno].
    + rewrite decide_True; [done|]. lia.
    + rewrite decide_False; [done|]. lia.
  - intros Hc [->| ->]; unfold version_with_segments; cbn [start_index end_index]; unfold usize_succ; rewrite N.eqb_refl, Hc; [done|].
    by destruct (start_index b1).
  - intros Hc ->. destruct (start_index b1) as [from|] eqn:E1.
    + rewrite (with_segments_at p b1 _ (N.to_nat from) 0 Hp).
      * rewrite decide_False; [done|]. lia.
      * by rewrite N2Nat.id.
      * cbn [end_index]. unfold usize_succ. by rewrite N.eqb_refl, Hc.
    + destruct b1 as [i|i|]; [done| |done]. cbn [start_index] in E1. unfold usize_succ in E1. rewrite Hc in E1. by destruct (i =? usize_max)%N.
  - intros Hc ->. unfold version_with_segments. cbn [start_index]. unfold usize_succ at 1. by rewrite N.eqb_refl, Hc.
Qed.

Lemma version_with_segments_refines_witness :
  let _ := build_release_64 in
  wf_parts parts_1_2_3
  ∧ version_with_segments (pack parts_1_2_3) (Included 1) Unbounded = Some (Some (pack (select parts_1_2_3 1 3)))
  ∧ version_with_segments (pack parts_1_2_3) (Included 1) (Included usize_max) = Some None.
Proof.
  split; [exact parts_1_2_3_wf|].
  destruct (version_with_segments_refines (H := build_release_64) parts_1_2_3 (Included 1) Unbounded parts_1_2_3_wf) as (Hsel & _).
  destruct (version_with_segments_refines (H := build_release_64) parts_1_2_3 (Included 1) (Included (@usize_max build_release_64)) parts_1_2_3_wf)
    as (_ & _ & Hend & _).
  split; [apply Hsel; discriminate|by apply Hend].
Defined.

(** Without overflow checks, the segments after the largest [usize] are all the segments. *)
Lemma with_segments_start_overflow :
  let _ := build_release_64 in
  version_with_segments (pack parts_1_2_3) (Excluded usize_max) Unbounded = Some (Some (pack (select parts_1_2_3 0 3))).
Proof. vm_compute. reflexivity. Qed.

(** [remove_local] gives the version with the same epoch and release part
      and no local part; [strip_local] gives the same result when no release
      segment starts with a letter. *)
Theorem version_remove_local_spec p :
  wf_parts p → explicit (p_release p) →
  version_remove_local (pack p) = Some (pack (without_local p)) ∧
  version_strip_local (pack p) = version_remove_local (pack p) ∧
  version_segments (pack (without_local p)) = version_segments (pack p) ∧
  version_epoch_opt (pack (without_local p)) = version_epoch_opt (pack p) ∧
  version_local_segments (pack (without_local p)) = Some [].
Proof.
  intros Hp He. rewrite strip_local_pack, remove_local_pack by done.
  pose proof (without_local_wf p Hp) as Hw. by unpack.
Qed.

Lemma version_remove_local_spec_witness :
  wf_parts parts_1_2_plus_b ∧
  version_strip_local (pack parts_1_2_plus_b) = version_remove_local (pack parts_1_2_plus_b).
Proof.
  split; [exact parts_1_2_plus_b_wf|].
  apply (version_remove_local_spec parts_1_2_plus_b parts_1_2_plus_b_wf).
  repeat constructor; vm_compute; reflexivity.
Defined.

(** When the release part is copied with its implicit zeros, [strip_local]
      corrupts it: [1.a+b] becomes the version [1.0], which does not compare
      equal to [1.a], while [remove_local] gives [1.a]. *)
Theorem version_strip_local_corrupts :
  version_strip_local (version_of "1.a+b") ≠ Some (version_of "1.a") ∧
  version_remove_local (version_of "1.a+b") = Some (version_of "1.a") ∧
  (w ← version_strip_local (version_of "1.a+b"); version_eqb w (version_of "1.a")) = Some false ∧
  (w ← version_strip_local (version_of "1.a+b"); version_eqb w (version_of "1")) = Some true.
Proof. split; [|split; [|split]]; vm_compute; congruence. Qed.

(** Extending a version to a number of segments that the flags can hold
      never panics, reaches the length and gives a version equal to, and so
      hashed and ordered like, the original; between 128 and 255 segments a
      version with a local part is refused as too long. *)
Theorem version_extend_to_length_spec `{IT : Itertools} p len :
  wf_parts p →
  ((p_local p ≠ [] → len ≤ 127) →
    ∃ w, version_extend_to_length (pack p) len = Some (Ok w) ∧ wf w ∧
      version_segment_count w = Nat.max (length (p_release p)) len ∧
      version_eqb (pack p) w = Some true) ∧
  (p_local p ≠ [] → length (p_release p) < len → 127 < len ≤ 255 →
    version_extend_to_length (pack p) len = Some (Err VersionTooLong)).
Proof.
  intros Hp. split; [|intros; apply extend_too_long; [done..|lia|lia]]. intros Hlen.
  destruct (extend_to_length_pack p len Hp Hlen) as [-> Hx]. eexists; split; [done|].
  split; [by apply pack_wf|]. split.
  - rewrite pack_segment_count by done. simpl. rewrite length_app, length_replicate. lia.
  - apply version_eqb_true; [done..|]. split; [done|]. split; [|done].
    intros i j. simpl. by rewrite cell_app_zero.
Qed.

Lemma version_extend_to_length_spec_witness :
  wf_parts parts_1_2 ∧ ∃ w, version_extend_to_length (pack parts_1_2) 4 = Some (Ok w) ∧
    version_eqb (pack parts_1_2) w = Some true.
Proof.
  split; [exact parts_1_2_wf|].
  destruct (proj1 (version_extend_to_length_spec parts_1_2 4 parts_1_2_wf)) as (w & H & _ & _ & E).
  { simpl. congruence. }
  exists w. split; [exact H|exact E].
Defined.

(** ** Bumping *)

(** The first number of a row of a release part. *)
Definition leading_number (l : list SegmentIter) (i : nat) : option N :=
  s ← l !! i; c ← si_components s !! 0; component_as_number c.

Lemma numeric_row_components s :
  numeric_row s → ∃ n l, si_components s = Numeral n :: l.
Proof. intros [n Hn]. destruct (si_components s) as [|c l]; [done|]. injection Hn as ->. eauto. Qed.

Lemma extend_numeric p len : bumpable p → Forall numeric_row (p_release (extend p len)).
Proof.
  intros [Hn _]. simpl. apply Forall_app. split; [done|]. apply zero_segment_bumpable.
Qed.

(** The row a semantic bump increments starts with the incremented number. *)
Lemma bump_components_target t target s n l :
  si_components s = Numeral n :: l →
  (t, target) ∈ [(BumpMajor, 0); (BumpMinor, 1); (BumpPatch, 2)] →
  ∃ l', bump_components t target target (si_components s) = Some (Numeral (incr n) :: l').
Proof.
  intros -> Ht. repeat (apply elem_of_cons in Ht as [[= -> ->]|Ht]); simpl.
  - destruct (iden_to_a_numeral (incr n) l) as [l' ->]. eauto.
  - eauto.
  - destruct (iden_to_a_numeral (incr n) l) as [l' ->]. eauto.
  - by apply not_elem_of_nil in Ht.
Qed.

(** The rows before it are not touched. *)
Lemma bump_components_before t target i l :
  i < target → (t, target) ∈ [(BumpMajor, 0); (BumpMinor, 1); (BumpPatch, 2)] →
  bump_components t target i l = Some l.
Proof.
  intros Hi Ht. repeat (apply elem_of_cons in Ht as [[= -> ->]|Ht]).
  - lia.
  - by assert (i = 0) as -> by lia.
  - by assert (i = 0 ∨ i = 1) as [->| ->] by lia.
  - by apply not_elem_of_nil in Ht.
Qed.

Lemma bump_target_semantic t target n :
  (t, target) ∈ [(BumpMajor, 0); (BumpMinor, 1); (BumpPatch, 2)] → bump_target t n = Ok target.
Proof.
  intros Ht. repeat (apply elem_of_cons in Ht as [[= -> ->]|Ht]); try done.
  by apply not_elem_of_nil in Ht.
Qed.

Section bumps.
Context `{IT : Itertools}.

(** On a version as the parser builds it, a bump of the major, minor or
    patch segment never panics and, unless the bumped number is the largest
    [u64], gives a strictly greater version with the same epoch and the same
    local part. *)
Theorem version_bump_increases p t target n :
  wf_parts p → bumpable p → explicit (p_local p) →
  (t, target) ∈ [(BumpMajor, 0); (BumpMinor, 1); (BumpPatch, 2)] →
  (p_local p ≠ [] → target < 127) →
  leading_number (p_release (extend p (target + 1))) target = Some n → (n < u64_max)%N →
  ∃ q, version_bump (pack p) t = Some (Ok (pack q)) ∧ wf_parts q ∧
    p_epoch q = p_epoch p ∧ p_local q = p_local p ∧
    leading_number (p_release q) target = Some (n + 1)%N ∧
    version_cmp (pack p) (pack q) = Some Lt.
Proof.
  intros Hp Hb He Ht Hloc Hn Hmax.
  destruct (bump_pack p t target Hp Hb He (bump_target_semantic t target _ Ht) Hloc)
    as (q & Hq & Hwq & Heq & Hlq & Hlen & Hrow).
  exists q. do 4 (split; [done|]).
  unfold leading_number in Hn |- *.
  destruct (p_release (extend p (target + 1)) !! target) as [s|] eqn:Hs; [|done].
  cbn [mbind option_bind] in Hn.
  destruct (si_components s) as [|c l] eqn:Hc; [done|]. cbn in Hn. destruct c; try done.
  injection Hn as ->. destruct (Hrow target s Hs) as (u & Hu & _ & Hbc).
  destruct (bump_components_target t target s n l Hc Ht) as [l' Hl']. rewrite Hl' in Hbc.
  injection Hbc as Hbc. rewrite Hu. cbn [mbind option_bind]. rewrite <-Hbc. cbn.
  assert (incr n = n + 1)%N as Hinc.
  { unfold incr, u64_add. apply N.mod_small. unfold u64_max in Hmax. lia. }
  split; [by rewrite Hinc|]. rewrite version_cmp_pack by done. f_equal.
  apply parts_cmp_Lt_release; [by rewrite Heq|]. apply matrix_lt_spec. exists target, 0.
  assert (∀ i j, cell (p_release p) i j = cell (p_release (extend p (target + 1))) i j) as Hcell
    by (intros; simpl; by rewrite cell_app_zero).
  setoid_rewrite Hcell. split.
  - unfold cell. rewrite Hs, Hu. simpl. rewrite Hc, <-Hbc, Hinc. simpl. apply N.compare_lt_iff. lia.
  - intros i j [Hi|[_ Hj]]; [|lia].
    destruct (lookup_lt_is_Some_2 (p_release (extend p (target + 1))) i) as [r Hr].
    { apply lookup_lt_Some in Hs. lia. }
    destruct (Hrow i r Hr) as (w & Hw & _ & Hbw).
    rewrite bump_components_before in Hbw by done. injection Hbw as Hbw.
    unfold cell. rewrite Hr, Hw. simpl. by rewrite Hbw.
Qed.

(** [with_alpha] appends [.0a0] to the release part, which makes the
    version strictly smaller; it panics exactly when there is a local part and
    no room left for its index. *)
Theorem version_with_alpha_spec p s :
  wf_parts p → last (p_release p) = Some s → has_iden (si_components s) = false →
  (version_with_alpha (pack p) = None ↔ p_local p ≠ [] ∧ length (p_release p) = 127) ∧
  (p_local p = [] ∨ length (p_release p) < 127 →
    version_with_alpha (pack p) = Some (pack (with_alpha p)) ∧
    version_cmp (pack (with_alpha p)) (pack p) = Some Lt).
Proof.
  intros Hp Hs Hi. rewrite (with_alpha_pack p s) by done. split.
  - case_decide; naive_solver.
  - intros Hroom. rewrite decide_False by (intros [??]; destruct Hroom; [done|lia]).
    split; [done|].
    assert (wf_parts (with_alpha p)) as Hw.
    { split; simpl; [by destruct (p_release p)| | |apply Hp].
      - intros Hl. pose proof (wf_release_bound p Hp Hl). rewrite length_app. simpl.
        destruct Hroom; [done|lia].
      - apply Forall_app. split; [apply Hp|]. constructor; [|constructor]. apply alpha_segment_wf. }
    rewrite version_cmp_pack by done. f_equal. apply parts_cmp_Lt_release; [done|].
    apply matrix_lt_spec. exists (length (p_release p)), 1.
    assert (∀ j, cell (p_release p) (length (p_release p)) j = DEFAULT_COMPONENT) as Hd
      by (intros; apply cell_beyond; by left).
    assert (∀ j, cell (p_release (with_alpha p)) (length (p_release p)) j =
      default DEFAULT_COMPONENT (si_components alpha_segment !! j)) as Ha.
    { intros j. unfold cell. simpl. rewrite lookup_app_r, Nat.sub_diag by lia. done. }
    split; [by rewrite Hd, Ha|]. intros i j [Hlt|[-> Hj]].
    + unfold cell. simpl. by rewrite lookup_app_l by done.
    + rewrite Hd, Ha. by assert (j = 0) as -> by lia.
Qed.
End bumps.

Lemma parts_1_2_bumpable : bumpable parts_1_2.
Proof.
  split; repeat constructor; try (vm_compute; congruence).
  - by exists 1%N.
  - by exists 2%N.
Qed.

Lemma version_bump_increases_witness :
  bumpable parts_1_2 ∧ ∃ q, version_bump (pack parts_1_2) BumpPatch = Some (Ok (pack q)) ∧
    version_cmp (pack parts_1_2) (pack q) = Some Lt.
Proof.
  split; [exact parts_1_2_bumpable|].
  destruct (version_bump_increases parts_1_2 BumpPatch 2 0 parts_1_2_wf parts_1_2_bumpable)
    as (q & H & _ & _ & _ & _ & E).
  - constructor.
  - right. right. left.
  - simpl. congruence.
  - vm_compute. reflexivity.
  - reflexivity.
  - exists q. split; [exact H|exact E].
Defined.

Lemma version_with_alpha_spec_witness :
  wf_parts parts_1_2_plus_b ∧
  version_with_alpha (pack parts_1_2_plus_b) = Some (pack (with_alpha parts_1_2_plus_b)).
Proof.
  split; [exact parts_1_2_plus_b_wf|].
  destruct (version_with_alpha_spec parts_1_2_plus_b (row (Some c_dot) ["2"]) parts_1_2_plus_b_wf)
    as [_ H]; [reflexivity|vm_compute; reflexivity|].
  apply H. right. simpl. lia.
Defined.

(** Bumping the last segment is not always an increase: a pre-release
    identifier is reset to [a], so [1.0rc1] is bumped to the smaller [1.0a2]. *)
Theorem version_bump_last_decreases `{IT : Itertools} :
  version_bump (version_of "1.0rc1") BumpLast = Some (Ok (version_of "1.0a2")) ∧
  version_cmp (version_of "1.0a2") (version_of "1.0rc1") = Some Lt.
Proof.
  split; [vm_compute; reflexivity|].
  set (p := mkParts None [row None ["1"]; row (Some c_dot) ["0"; "a"; "2"]] []).
  set (q := mkParts None [row None ["1"]; row (Some c_dot) ["0"; "rc"; "1"]] []).
  assert (version_of "1.0a2" = pack p) as -> by (vm_compute; reflexivity).
  assert (version_of "1.0rc1" = pack q) as -> by (vm_compute; reflexivity).
  rewrite version_cmp_pack by parts_wf. f_equal. apply parts_cmp_Lt_release; [done|].
  apply matrix_lt_spec. exists 1, 1. split; [vm_compute; reflexivity|].
  intros [|[|i]] [|j] [H|[? ?]]; try lia; reflexivity.
Qed.

(** ** The packed words *)

(** The 16 bits of a segment descriptor hold its component count (up to
    8191), its separator and its implicit-default flag; the setters change one
    field and keep the others, a count that does not fit is refused, and two
    descriptors with equal fields are the same word. *)
Theorem segment_packing s t n sep b :
  (seg_bits s < 65536)%N → (seg_bits t < 65536)%N → is_separator sep →
  (segment_new n = None ↔ (8191 < n)%N) ∧
  segment_len (segment_with_implicit_default s b) = segment_len s ∧
  segment_separator (segment_with_implicit_default s b) = segment_separator s ∧
  segment_has_implicit_default (segment_with_implicit_default s b) = b ∧
  (∃ u, segment_with_separator s sep = Some u ∧ segment_separator u = sep ∧
    segment_len u = segment_len s ∧
    segment_has_implicit_default u = segment_has_implicit_default s) ∧
  ((n <= 8191)%N → ∃ u, segment_with_component_count s n = Some u ∧ segment_len u = n ∧
    segment_separator u = segment_separator s ∧
    segment_has_implicit_default u = segment_has_implicit_default s) ∧
  (seg_fields s = seg_fields t → s = t).
Proof.
  intros Hs Ht Hsep.
  destruct (segment_with_implicit_default_fields s b Hs) as [Hi _].
  destruct (segment_with_separator_fields s sep Hs Hsep) as (u & Hu & Huf & _).
  unfold seg_fields in Hi, Huf. injection Hi as Hi1 Hi2 Hi3. injection Huf as Hu1 Hu2 Hu3.
  split.
  { split; [|apply segment_new_too_large]. intros H. apply N.lt_nge. intros Hle.
    destruct (segment_new_fields n Hle) as (? & ? & _). congruence. }
  do 3 (split; [done|]). split; [by exists u|]. split; [|by apply seg_fields_inj].
  intros Hn. destruct (segment_with_component_count_fields s n Hs Hn) as (w & Hw & Hwf & _).
  unfold seg_fields in Hwf. injection Hwf as Hw1 Hw2 Hw3. by exists w.
Qed.

Lemma segment_packing_witness :
  is_separator (Some c_dash) ∧
  segment_has_implicit_default (segment_with_implicit_default (mkSegment 7) true) = true.
Proof.
  split; [left; reflexivity|].
  assert (seg_bits (mkSegment 7) < 65536)%N as H by reflexivity.
  apply (segment_packing (mkSegment 7) (mkSegment 7) 3 (Some c_dash) true H H).
  left. reflexivity.
Defined.

(** The flag byte holds the epoch bit and the index of the local part (up
    to 127); each setter changes its own field only, a larger index is refused,
    and the two fields determine the byte. *)
Theorem flags_packing f g b i :
  (flags_bits f < 256)%N → (flags_bits g < 256)%N →
  flags_has_epoch (flags_with_has_epoch f b) = b ∧
  flags_local_segment_index (flags_with_has_epoch f b) = flags_local_segment_index f ∧
  (flags_with_local_segment_index f i = None ↔ (127 < i)%N) ∧
  ((i <= 127)%N → ∃ h, flags_with_local_segment_index f i = Some h ∧
    flags_local_segment_index h = i ∧ flags_has_epoch h = flags_has_epoch f) ∧
  (flags_fields f = flags_fields g → f = g).
Proof.
  intros Hf Hg. destruct (flags_with_has_epoch_fields f b Hf) as [He _].
  unfold flags_fields in He. injection He as He1 He2.
  assert ((i <= 127)%N → ∃ h, flags_with_local_segment_index f i = Some h ∧
    flags_local_segment_index h = i ∧ flags_has_epoch h = flags_has_epoch f) as Hi.
  { intros Hi. destruct (flags_with_local_fields f i Hf Hi) as (h & Hh & Hhf & _).
    unfold flags_fields in Hhf. injection Hhf as Hh1 Hh2. by exists h. }
  split; [done|]. split; [done|]. split; [|split; [done|]].
  - split; [|apply flags_with_local_too_large]. intros H. apply N.lt_nge. intros Hle.
    destruct (Hi Hle) as (? & ? & _). congruence.
  - intros E. destruct (flags_fields g) as [e k] eqn:Eg.
    by rewrite (flags_eta f e k Hf E), (flags_eta g e k Hg Eg).
Qed.

Lemma flags_packing_witness :
  (flags_bits (mkFlags 6) < 256)%N ∧ flags_has_epoch (flags_with_has_epoch (mkFlags 6) true) = true.
Proof.
  assert (flags_bits (mkFlags 6) < 256)%N as H by reflexivity.
  split; [exact H|]. apply (flags_packing (mkFlags 6) (mkFlags 6) true 3 H H).
Defined.

(** ** Where equality, order and hash disagree *)

(** [Ord] and [PartialEq] of [Version] disagree: a trailing dash and a
    trailing underscore compare as [Equal] but are not equal. *)
Theorem version_ord_eq_disagree `{IT : Itertools} :
  version_cmp (version_of "1.0_") (version_of "1.0-") = Some Eq ∧
  version_eqb (version_of "1.0_") (version_of "1.0-") = Some false.
Proof.
  set (p := mkParts None [row None ["1"]; row (Some c_dot) ["0"; "_"]] []).
  set (q := mkParts None [row None ["1"]; row (Some c_dot) ["0"; "-"]] []).
  assert (version_of "1.0_" = pack p) as -> by (vm_compute; reflexivity).
  assert (version_of "1.0-" = pack q) as -> by (vm_compute; reflexivity).
  assert (wf_parts p) as Hp by parts_wf. assert (wf_parts q) as Hq by parts_wf.
  rewrite version_cmp_pack by done. split.
  - f_equal. unfold parts_cmp. simpl p_epoch. rewrite N.compare_refl. simpl then_with.
    rewrite (proj2 (matrix_eq_spec _ _)); [by apply compare_segments_Eq|].
    intros [|[|i]] [|[|j]]; reflexivity.
  - rewrite version_eqb_pack by done.
    assert (segments_equal (p_release p) (p_release q) = false) as ->; [|done].
    apply not_true_is_false. intros H. rewrite segments_equal_spec in H. specialize (H 1 1). done.
Qed.

(** The hash of [StrictVersion] does not respect its equality: [1.a.0] and
    [1.0a] are strictly equal, with three stored components each, and are
    written to the hasher differently. *)
Theorem strict_version_hash_disagrees `{IT : Itertools} :
  strict_version_eqb (version_of "1.a.0") (version_of "1.0a") = Some true ∧
  strict_version_hash (version_of "1.a.0") ≠ strict_version_hash (version_of "1.0a").
Proof.
  set (p := mkParts None [row None ["1"]; row (Some c_dot) ["a"]; row (Some c_dot) ["0"]] []).
  set (q := mkParts None [row None ["1"]; row (Some c_dot) ["0"; "a"]] []).
  assert (version_of "1.a.0" = pack p) as -> by (vm_compute; reflexivity).
  assert (version_of "1.0a" = pack q) as -> by (vm_compute; reflexivity).
  split; [|vm_compute; congruence].
  unfold strict_version_eqb. simpl Nat.eqb. cbv iota.
  apply version_eqb_true; [parts_wf..|]. split; [done|].
  split; [|done]. intros [|[|[|i]]] [|[|j]]; reflexivity.
Qed.

(** ** Versions with their source *)
Section sources.
Context `{IT : Itertools} `{NM : Nom}.

(** A parsed [VersionWithSource] displays exactly the text it was parsed
    from and carries the version that text stands for. *)
Theorem vws_from_str_display s w :
  vws_from_str s = Some (Ok w) →
  vws_display w = Some s ∧ vws_as_str w = Some s ∧ version_from_str s = Some (Ok (vws_version w)).
Proof.
  unfold vws_from_str. destruct (version_from_str s) as [[v|e]|]; [|done..].
  by intros [= <-].
Qed.

Lemma vws_cmp_eq v w s t :
  vws_as_str v = Some s → vws_as_str w = Some t →
  vws_cmp v w = c ← version_cmp (vws_version v) (vws_version w); Some (then_with c (str_cmp s t)).
Proof.
  intros Hs Ht. unfold vws_cmp. destruct (version_cmp _ _) as [[]|]; [|done..].
  cbn [mbind option_bind]. by rewrite Hs, Ht.
Qed.

(** [VersionWithSource] is ordered totally, by version and then by text;
    equal values compare as [Equal] and print the same text. *)
Theorem vws_order u v w :
  vws_wf u → vws_wf v → vws_wf w →
  (∃ c, vws_cmp u v = Some c ∧ vws_cmp v u = Some (CompOpp c)) ∧
  (vws_cmp u v ≠ Some Gt → vws_cmp v w ≠ Some Gt → vws_cmp u w ≠ Some Gt) ∧
  (vws_eqb u v = Some true → vws_cmp u v = Some Eq ∧ vws_as_str u = vws_as_str v) ∧
  (vws_cmp u v = Some Eq → vws_as_str u = vws_as_str v).
Proof.
  intros Hu Hv Hw.
  destruct (vws_as_str_total u Hu) as [s Hs], (vws_as_str_total v Hv) as [t Ht],
    (vws_as_str_total w Hw) as [r Hr].
  unfold vws_eqb. rewrite !(vws_cmp_eq _ _ _ _ Hs Ht), (vws_cmp_eq _ _ _ _ Ht Hs),
    (vws_cmp_eq _ _ _ _ Ht Hr), (vws_cmp_eq _ _ _ _ Hs Hr).
  destruct Hu as (p & Hp & Ep), Hv as (q & Hq & Eq), Hw as (o & Ho & Eo).
  rewrite Ep, Eq, Eo, !version_cmp_pack, Hs, Ht by done. cbn [mbind option_bind].
  pose (cmp (x y : parts * list N) := then_with (parts_cmp x.1 y.1) (str_cmp x.2 y.2)).
  assert (TotalPreorder cmp) as Hcmp.
  { apply (then_with_preorder (λ x y, parts_cmp x.1 y.1));
      [apply (on_key_preorder fst), _|apply (on_key_preorder snd), _]. }
  split; [|split; [|split]].
  - eexists; split; [done|]. f_equal. apply (cmp_opp cmp (p, s) (q, t)).
  - intros H1 H2 [= H3]. apply (cmp_le_trans cmp (p, s) (q, t) (o, r)); unfold cmp; simpl; congruence.
  - destruct (version_eqb (pack p) (pack q)) as [[]|] eqn:E; try done. cbn [mbind option_bind].
    intros [= ->%bool_decide_eq_true_1]. apply version_eqb_true in E; [|done..].
    by rewrite parts_equal_cmp, (cmp_refl str_cmp).
  - intros [= [_ ->%(cmp_eq_iff str_cmp)]%then_with_Eq]. done.
Qed.
End sources.

Definition source_1_00 : VersionWithSource := vws_new (pack parts_1_2) (txt "1.02").

Lemma vws_from_str_display_witness :
  vws_from_str (txt "1.02") = Some (Ok (vws_new (version_of "1.2") (txt "1.02"))) ∧
  vws_display (vws_new (version_of "1.2") (txt "1.02")) = Some (txt "1.02").
Proof.
  assert (vws_from_str (txt "1.02") = Some (Ok (vws_new (version_of "1.2") (txt "1.02")))) as H
    by (vm_compute; reflexivity).
  split; [exact H|]. exact (proj1 (vws_from_str_display (txt "1.02") _ H)).
Defined.

Lemma vws_order_witness :
  vws_wf source_1_00 ∧ ∃ c, vws_cmp source_1_00 source_1_00 = Some c.
Proof.
  assert (vws_wf source_1_00) as H by exact (pack_wf _ parts_1_2_wf).
  split; [exact H|].
  destruct (vws_order source_1_00 source_1_00 source_1_00 H H H) as ((c & E & _) & _).
  exists c. exact E.
Defined.

(** The hash of [VersionWithSource] does not respect its equality: a value
    without a stored text equals one that stores the canonical text, but they
    are written to the hasher differently. *)
Theorem vws_hash_disagrees `{IT : Itertools} :
  vws_eqb (vws_from_version (version_of "1.2")) (vws_new (version_of "1.2") (txt "1.2")) = Some true ∧
  vws_hash (vws_from_version (version_of "1.2")) ≠ vws_hash (vws_new (version_of "1.2") (txt "1.2")).
Proof.
  split; [|vm_compute; congruence]. unfold vws_eqb. simpl vws_version.
  assert (version_of "1.2" = pack parts_1_2) as -> by (vm_compute; reflexivity).
  rewrite (proj2 (version_eqb_true parts_1_2 parts_1_2 parts_1_2_wf parts_1_2_wf)) by done.
  vm_compute. reflexivity.
Qed.
