(* ===== verification/SpecTheorems.v ===== *)
(** * What the version constraints promise

    Matching, negation, grouping, parsing and printing of [VersionSpec]. *)
From S2P Require Import Prelude Externs VersionRepr VersionOrder VersionOps.
From S2P Require Import VersionParse VersionGrammar VersionSpec VersionSpecText.

(** ** Matching *)
Section matching.
Context `{IT : Itertools}.

(** The complements of the operators are negations: replacing every
    operator of a spec by its complement (range, equality, strict and logical
    ones, and exchanging [*] and [!]) negates [matches], panics included. *)
Theorem spec_complement_negates s v :
  spec_matches (spec_negate s) v = negb <$> spec_matches s v.
Proof. apply negate_matches_aux. Qed.

(** [matches] of a spec with well-formed limits on a well-formed version
    returns, for every operator and nesting. *)
Theorem spec_matches_total s v :
  spec_versions wf s → wf v → ∃ b, spec_matches s v = Some b.
Proof. apply matches_total. Qed.

(** Flattening a list of specs into a group of an operator matches what
    the unflattened group matches: splicing nested groups of the same operator
    and dropping a group of one change nothing. *)
Theorem flatten_preserves_matches op args v :
  spec_matches (flatten_version_specs op args) v = spec_matches (SGroup op args) v.
Proof. apply flatten_matches. Qed.
End matching.

(** Test data. *)
Definition text_1 : VersionText := mkVersionText None (mkPartText [txt "1"] [] NoTail) None.
Definition text_2 : VersionText := mkVersionText None (mkPartText [txt "2"] [] NoTail) None.
Definition spec_1_to_2 : VersionSpec :=
  SGroup And [SRange GreaterEquals (pack (vt_parts text_1)); SRange Less (pack (vt_parts text_2))].

Lemma text_1_parsed : parsed_version (pack (vt_parts text_1)).
Proof. exists text_1. by split; [vm_compute|]. Qed.
Lemma text_2_parsed : parsed_version (pack (vt_parts text_2)).
Proof. exists text_2. by split; [vm_compute|]. Qed.
Lemma spec_1_to_2_canonical : spec_canonical spec_1_to_2.
Proof.
  split; [simpl; lia|]. simpl. split; [split; [done|apply text_1_parsed]|].
  split; [|done]. split; [done|apply text_2_parsed].
Qed.

Lemma spec_complement_negates_witness :
  spec_matches (IT := itertools_ref) (spec_negate spec_1_to_2) (pack (vt_parts text_2)) = Some true.
Proof. rewrite (spec_complement_negates (IT := itertools_ref)). vm_compute. reflexivity. Defined.

Lemma flatten_preserves_matches_witness :
  spec_matches (IT := itertools_ref) (flatten_version_specs And [spec_1_to_2; SAny])
    (pack (vt_parts text_1)) = Some true.
Proof. rewrite (flatten_preserves_matches (IT := itertools_ref)). vm_compute. reflexivity. Defined.

Lemma spec_matches_total_witness :
  wf (pack (vt_parts text_1)) ∧ ∃ b, spec_matches spec_1_to_2 (pack (vt_parts text_1)) = Some b.
Proof.
  split; [exact (parsed_version_wf _ text_1_parsed)|].
  exact (spec_matches_total spec_1_to_2 _ (canonical_versions_wf _ spec_1_to_2_canonical)
    (parsed_version_wf _ text_1_parsed)).
Defined.

(** ** Parsing and printing *)
Section parsing.
Context `{NM : Nom} `{UC : Unicode}.

(** Parsing a version spec terminates without a panic on every text, in
    both modes, whatever the nesting of parentheses; a parsed spec is canonical,
    so its limits are well formed. *)
Theorem version_spec_from_str_total s st :
  ∃ r, version_spec_from_str s st = Some r ∧
    ∀ spec, r = Ok spec → spec_canonical spec ∧ spec_versions wf spec.
Proof.
  destruct (version_spec_parser_some s st) as [r Hr]. exists r. split; [exact Hr|].
  intros spec ->. assert (spec_canonical spec) as Hc by exact (version_spec_parse_canonical s st spec Hr).
  split; [done|]. by apply canonical_versions_wf.
Qed.

(** C5: printing a parsed spec gives a text that parses back to exactly the
    same spec, in the lenient and in the strict mode. *)
Theorem version_spec_roundtrip s st spec :
  version_spec_from_str s st = Some (Ok spec) →
  ∃ t, spec_display spec = Some t ∧ ∀ st', version_spec_from_str t st' = Some (Ok spec).
Proof.
  intros Hc%version_spec_parse_canonical.
  destruct (spec_display_parse Strict spec Hc) as (t & Ht & Hs).
  destruct (spec_display_parse Lenient spec Hc) as (t' & Ht' & Hl).
  assert (t' = t) as -> by congruence. exists t. split; [done|]. by intros [].
Qed.
End parsing.

Lemma version_spec_from_str_total_witness :
  ∃ r, version_spec_from_str (NM := nom_ref) (UC := unicode_none) (txt "((1|2") Strict = Some r.
Proof.
  destruct (version_spec_from_str_total (NM := nom_ref) (UC := unicode_none) (txt "((1|2") Strict)
    as (r & Hr & _).
  by exists r.
Defined.

Lemma version_spec_roundtrip_witness :
  version_spec_from_str (txt ">= 1") Lenient = Some (Err (InvalidVersion (mkParseVersionError [] PVEmpty))) ∧
  version_spec_from_str (txt "(>=01 , <2)") Lenient = Some (Ok spec_1_to_2) ∧
  ∃ t, spec_display spec_1_to_2 = Some t ∧ version_spec_from_str t Strict = Some (Ok spec_1_to_2).
Proof.
  assert (version_spec_from_str (txt "(>=01 , <2)") Lenient = Some (Ok spec_1_to_2)) as H
    by (vm_compute; reflexivity).
  split; [vm_compute; reflexivity|]. split; [exact H|].
  destruct (version_spec_roundtrip (txt "(>=01 , <2)") Lenient spec_1_to_2 H) as (t & Ht & Hst).
  exists t. split; [exact Ht|exact (Hst Strict)].
Defined.

(** The specs that a user can build but not parse: [!] and the negation of
    [~=] are printed as texts that the parser rejects. *)
Theorem unparsable_specs `{NM : Nom} `{UC : Unicode} :
  spec_display SNone = Some (txt "!") ∧
  version_spec_from_str (txt "!") Lenient = Some (Err (InvalidOperator (txt "!"))) ∧
  spec_display (SStrictRange (strict_range_complement Compatible) (pack (vt_parts text_1)))
    = Some (txt "!~=1") ∧
  version_spec_from_str (txt "!~=1") Lenient = Some (Err (InvalidOperator (txt "!~="))).
Proof.
  assert (∀ op s, op ≠ [] → forallb is_operator_char op = true → stops is_operator_char s = true →
    (∀ c, c ∈ op ++ s → c ∉ [c_dollar; c_star; c_lparen; c_caret]) →
    op ∉ [txt "=="; txt "!="; txt "<="; txt ">="; txt "<"; txt ">"; txt "="; txt "~="] →
    version_spec_from_str (op ++ s) Lenient = Some (Err (InvalidOperator op))) as Hbad.
  { intros op s Hne Hop Hs Hc Hkn.
    assert (constraint_parser Lenient (op ++ s) = Err (NFail (Failed (InvalidOperator op)))) as Hcon.
    { unfold constraint_parser. nom. unfold alt3_fun. rewrite regex_eq.
      rewrite (bool_decide_eq_false_2 (_ ∈ _)) by (intros Hin; specialize (Hc _ Hin); set_solver).
      destruct op as [|c op']; [done|]. specialize (Hc c) as Hcc. cbn [app] in *.
      rewrite bool_decide_eq_false_2 by (intros [= ->]; apply Hcc; set_solver). simpl orb. cbv iota.
      destruct (any_other Lenient c (op' ++ s)) as [e ->]; [intros ->; apply Hcc; set_solver|].
      unfold logical_constraint_parser, operator_parser. nom. unfold span1_fun.
      change (c :: op' ++ s) with ((c :: op') ++ s). rewrite span_app by done.
      repeat (rewrite bool_decide_eq_false_2 by set_solver). done. }
    unfold version_spec_from_str, version_spec_parser. nom. unfold all_consuming_fun.
    cbn [version_spec_or_group]. nom. unfold separated_list1_fun, version_spec_and_group. nom.
    unfold separated_list1_fun, version_spec_term. nom. unfold alt3_fun.
    destruct op as [|c op']; [done|]. specialize (Hc c) as Hcc. cbn [app] in *.
    rewrite paren_skip, star_skip by (intros ->; apply Hcc; set_solver).
    nom. unfold map_fun. by rewrite Hcon. }
  split; [done|]. split; [|split; [vm_compute; reflexivity|]].
  - apply (Hbad (txt "!") []); [done|done|done|..].
    + intros c Hc. vm_compute in Hc. set_solver.
    + apply (bool_decide_unpack _). vm_compute. done.
  - apply (Hbad (txt "!~=") (txt "1")); [done|done|done|..].
    + intros c Hc. vm_compute in Hc. set_solver.
    + apply (bool_decide_unpack _). vm_compute. done.
Qed.
