(* ===== verification/PackageName.v ===== *)
(** * Package names

    [rattler_conda_types/src/package_name.rs] and [no_arch_type.rs]: package
    names with their normalised form, the scan that takes a name from a match
    spec, and the noarch marker of a record. *)
From S2P Require Import Prelude.

(** ** Definitions *)
Record PackageName := mkPackageName {
  pn_normalized : option (list N);
  pn_source : list N
}.

Definition package_name_new_unchecked (normalized : list N) : PackageName :=
  mkPackageName None normalized.
Definition as_source (p : PackageName) : list N := pn_source p.
Definition as_normalized (p : PackageName) : list N := default (pn_source p) (pn_normalized p).

(** [u8::is_ascii_whitespace] *)
Definition is_ascii_whitespace (b : N) : bool := bool_decide (b ∈ [9; 10; 12; 13; 32]%N).

Definition is_matchspec_delimiter (b : N) : bool :=
  is_ascii_whitespace b
  || bool_decide (b ∈ [c_gt; c_lt; c_eq; c_bang; c_tilde; 59 (* ; *); 91 (* [ *)]%N).

(** [scan_matchspec_name]: the name before the first delimiter, and whether it
    has an upper-case letter.  The source scans bytes; the delimiters and the
    letters are ASCII, so the scan may as well read characters. *)
Fixpoint scan_loop (has_upper : bool) (spec : list N) : list N * bool :=
  match spec with
  | [] => ([], has_upper)
  | b :: rest =>
      if is_matchspec_delimiter b then ([], has_upper)
      else let '(name, upper) := scan_loop (has_upper || is_ascii_uppercase b) rest in
           (b :: name, upper)
  end.
Definition scan_matchspec_name (spec : list N) : list N * bool := scan_loop false spec.

Definition name_from_matchspec_str (spec : list N) : list N := (scan_matchspec_name spec).1.

Definition normalized_name_from_matchspec_str (spec : list N) : list N :=
  let '(name, has_upper) := scan_matchspec_name spec in
  if has_upper then to_ascii_lowercase name else name.

Definition from_matchspec_str_unchecked (spec : list N) : PackageName :=
  let '(name, has_upper) := scan_matchspec_name spec in
  mkPackageName (if has_upper then Some (to_ascii_lowercase name) else None) name.

Inductive InvalidPackageNameError : Type := InvalidCharacters (s : list N).

Definition is_name_char (b : N) : bool :=
  is_ascii_lowercase b || is_ascii_uppercase b || is_ascii_digit b
  || bool_decide (b ∈ [c_dash; c_under; c_dot]).

(** [TryFrom<String>], which the other conversions and [FromStr] call. *)
Definition package_name_try_from (source : list N) : result InvalidPackageNameError PackageName :=
  if negb (forallb is_name_char source) then Err (InvalidCharacters source)
  else
    let normalized := if existsb is_ascii_uppercase source then Some (to_ascii_lowercase source)
                      else None in
    Ok (mkPackageName normalized source).

Definition from_matchspec_str (spec : list N) : result InvalidPackageNameError PackageName :=
  package_name_try_from (name_from_matchspec_str spec).

(** [PartialEq], [Ord] and [Hash] look at the normalised name only. *)
Definition package_name_eqb (a b : PackageName) : bool :=
  bool_decide (as_normalized a = as_normalized b).
Definition package_name_cmp (a b : PackageName) : comparison :=
  str_cmp (as_normalized a) (as_normalized b).
Definition package_name_hash (a : PackageName) : list N := as_normalized a.

(** [RawNoArchType] and [NoArchType] *)
Inductive RawNoArchType : Type := GenericV1 | GenericV2 | Python.
Definition NoArchType : Type := option RawNoArchType.
Definition noarch_is_none (n : NoArchType) : bool :=
  match n with None => true | Some _ => false end.

(** ** Lemmas *)

(** A scanned name has no delimiter; the flag says whether lower-casing changes it. *)
Lemma scan_loop_spec h spec :
  let '(name, upper) := scan_loop h spec in
  upper = h || existsb is_ascii_uppercase name ∧
  forallb (λ b, negb (is_matchspec_delimiter b)) name = true ∧
  ∃ rest, spec = name ++ rest ∧
    match rest with [] => True | b :: _ => is_matchspec_delimiter b = true end.
Proof.
  revert h. induction spec as [|b spec IH]; intros h; simpl.
  { rewrite orb_false_r. split; [done|]. split; [done|]. by exists []. }
  destruct (is_matchspec_delimiter b) eqn:Hb.
  - simpl. rewrite orb_false_r. split; [done|]. split; [done|]. exists (b :: spec). done.
  - specialize (IH (h || is_ascii_uppercase b)).
    destruct (scan_loop _ spec) as [name upper]. destruct IH as (-> & Hn & rest & -> & Hr).
    simpl. rewrite Hb, Hn, orb_assoc. split; [done|]. split; [done|]. by exists rest.
Qed.

Lemma lower_no_upper s : existsb is_ascii_uppercase s = false → to_ascii_lowercase s = s.
Proof.
  induction s as [|c s IH]; [done|]. csimpl. intros [Hc Hs]%orb_false_iff.
  unfold ascii_lower. by rewrite Hc, IH.
Qed.

(** The normalised name is the lower-cased one, whatever the flag. *)
Lemma normalized_name_eq spec :
  normalized_name_from_matchspec_str spec = to_ascii_lowercase (name_from_matchspec_str spec).
Proof.
  unfold normalized_name_from_matchspec_str, name_from_matchspec_str, scan_matchspec_name.
  pose proof (scan_loop_spec false spec) as H.
  destruct (scan_loop false spec) as [name upper]. destruct H as (-> & _). simpl.
  destruct (existsb is_ascii_uppercase name) eqn:E; [done|]. by rewrite lower_no_upper.
Qed.

Lemma is_lower_char c : is_ascii_uppercase (ascii_lower c) = false.
Proof.
  unfold ascii_lower. destruct (is_ascii_uppercase c) eqn:E; [|done].
  unfold is_ascii_uppercase in *. bool_hyps. apply andb_false_iff. right. apply N.leb_gt. lia.
Qed.

Lemma lower_has_no_upper s : existsb is_ascii_uppercase (to_ascii_lowercase s) = false.
Proof. induction s as [|c s IH]; [done|]. csimpl. by rewrite is_lower_char. Qed.

Lemma try_from_normalized s p :
  package_name_try_from s = Ok p → as_normalized p = to_ascii_lowercase s ∧ as_source p = s.
Proof.
  unfold package_name_try_from. destruct (forallb is_name_char s); [|done]. simpl. intros [= <-].
  unfold as_normalized. simpl. destruct (existsb is_ascii_uppercase s) eqn:E; [done|].
  by rewrite lower_no_upper.
Qed.
