(* ===== verification/TopoSort.v ===== *)
(** * Topological sorting of package records

    [rattler_conda_types/src/repo_data/topological_sort.rs]: the cycles found by
    a depth-first search, the edges removed to break them, the roots of what is
    left, and the order computed with an explicit stack.

    A hash map is a finite map and a hash set a finite set; where the source
    iterates one, it sorts what it collected, so the unspecified iteration order
    does not show. *)
From stdpp Require Import sorting.
From S2P Require Import Prelude PackageName.

(** ** Definitions *)

(** The fields of [PackageRecord] the sort reads. *)
Record PackageRecord := mkPackageRecord {
  pr_name : PackageName;
  pr_depends : list (list N);
  pr_noarch : NoArchType
}.

Definition record_name (r : PackageRecord) : list N := as_normalized (pr_name r).
Definition record_depends (r : PackageRecord) : list (list N) :=
  normalized_name_from_matchspec_str <$> pr_depends r.

(** [Vec<String>::sort] *)
Definition str_le (a b : list N) : Prop := str_cmp a b ≠ Gt.
#[export] Instance str_le_dec : RelDecision str_le.
Proof. intros a b. unfold str_le. apply _. Defined.
Definition sort_names (l : list (list N)) : list (list N) := merge_sort str_le l.

(** Collecting [(name, record)] pairs: a later record replaces an earlier one. *)
Definition packages_by_name (packages : list PackageRecord) : gmap (list N) PackageRecord :=
  foldl (λ m p, <[record_name p := p]> m) ∅ packages.

Definition package_keys (packages : gmap (list N) PackageRecord) : list (list N) :=
  (map_to_list packages).*1.

(** *** [find_all_cycles] and [dfs] *)

(** The mutable arguments of [dfs]. *)
Record DfsState := mkDfsState {
  dfs_visited : gset (list N);
  dfs_path : list (list N);
  dfs_cycles : list (list (list N))
}.

(** [path[position(node)..]] *)
Fixpoint from_node (node : list N) (path : list (list N)) : list (list N) :=
  match path with
  | [] => []
  | x :: path' => if bool_decide (x = node) then path else from_node node path'
  end.

Fixpoint dfs (fuel : nat) (packages : gmap (list N) PackageRecord) (node : list N) (s : DfsState)
  : option DfsState :=
  match fuel with
  | 0 => None
  | S f =>
      if bool_decide (node ∈ dfs_path s) then
        Some (mkDfsState (dfs_visited s) (dfs_path s)
                (dfs_cycles s ++ [from_node node (dfs_path s)]))
      else if bool_decide (node ∈ dfs_visited s) then Some s
      else
        let s := mkDfsState ({[node]} ∪ dfs_visited s) (dfs_path s ++ [node]) (dfs_cycles s) in
        s ← match packages !! node with
            | Some package => for_opt (record_depends package) (dfs f packages) s
            | None => Some s
            end;
        Some (mkDfsState (dfs_visited s) (take (length (dfs_path s) - 1) (dfs_path s)) (dfs_cycles s))
  end.

(** The names a search can meet: the packages and their dependencies. *)
Definition all_names (packages : gmap (list N) PackageRecord) : gset (list N) :=
  dom packages ∪ ⋃ ((λ p, list_to_set (record_depends p.2)) <$> map_to_list packages).

Definition find_all_cycles (packages : gmap (list N) PackageRecord)
  : option (list (list (list N))) :=
  '(_, cycles) ← for_opt (sort_names (package_keys packages))
    (λ package '(visited, all_cycles),
      if bool_decide (package ∈ visited) then Some (visited, all_cycles)
      else
        s ← dfs (S (size (all_names packages))) packages package (mkDfsState visited [] all_cycles);
        Some (dfs_visited s, dfs_cycles s))
    (∅, []);
  Some cycles.

(** *** [break_cycles] *)

(** The inner loop, over the remaining indices of the cycle. *)
Fixpoint break_loop (packages : gmap (list N) PackageRecord) (cycle : list (list N))
    (indices : list nat) (cycle_breaks : gset (list N * list N)) : option (gset (list N * list N)) :=
  match indices with
  | [] => Some cycle_breaks
  | i :: rest =>
      pi1 ← cycle !! i;
      pi2 ← cycle !! ((i + 1) mod length cycle);
      p1 ← packages !! pi1;
      p2 ← packages !! pi2;
      let p1_noarch := noarch_is_none (pr_noarch p1) in
      let p2_noarch := noarch_is_none (pr_noarch p2) in
      if p1_noarch && negb p2_noarch then Some ({[(pi1, pi2)]} ∪ cycle_breaks)
      else if (negb p1_noarch && p2_noarch) || bool_decide (i = length cycle - 1) then
        Some ({[(pi2, pi1)]} ∪ cycle_breaks)
      else break_loop packages cycle rest cycle_breaks
  end.

Definition break_cycles (cycles : list (list (list N))) (packages : gmap (list N) PackageRecord)
  : option (gset (list N * list N)) :=
  for_opt cycles (λ cycle, break_loop packages cycle (seq 0 (length cycle))) ∅.

(** *** [get_graph_roots] *)
Definition get_graph_roots (records : list PackageRecord) (cycle_breaks : gset (list N * list N))
  : gset (list N) :=
  let all_packages : gset (list N) := list_to_set (record_name <$> records) in
  let dependencies : gset (list N) := list_to_set (records ≫= λ r,
    filter (λ d, (record_name r, d) ∉ cycle_breaks) (record_depends r)) in
  all_packages ∖ dependencies.

(** *** [get_topological_order] *)
Inductive Action : Type :=
| ResolveAndInstall (name : list N)
| Install (name : list N).

(** The dependencies left after removing the broken edges, sorted. *)
Definition kept_depends (cycle_breaks : gset (list N * list N)) (name : list N) (p : PackageRecord)
  : list (list N) :=
  sort_names (filter (λ d, (name, d) ∉ cycle_breaks) (record_depends p)).

(** The local state; the head of [os_stack] is the top of the stack. *)
Record OrderState := mkOrderState {
  os_stack : list Action;
  os_visited : gset (list N);
  os_order : list (list N)
}.

(** Extending the stack: the last element pushed ends on top. *)
Definition push_all (l : list Action) (stack : list Action) : list Action := reverse l ++ stack.

(** One action of the inner loop. *)
Definition order_step (packages : gmap (list N) PackageRecord)
    (cycle_breaks : gset (list N * list N)) (action : Action) (s : OrderState) : OrderState :=
  match action with
  | Install package_name =>
      mkOrderState (os_stack s) (os_visited s) (os_order s ++ [package_name])
  | ResolveAndInstall package_name =>
      if bool_decide (package_name ∈ os_visited s) then s
      else
        let visited := {[package_name]} ∪ os_visited s in
        match packages !! package_name with
        | None => mkOrderState (os_stack s) visited (os_order s)
        | Some p =>
            mkOrderState
              (push_all (ResolveAndInstall <$> kept_depends cycle_breaks package_name p)
                (push_all [Install package_name] (os_stack s)))
              visited (os_order s)
        end
  end.

Fixpoint drain_stack (fuel : nat) (packages : gmap (list N) PackageRecord)
    (cycle_breaks : gset (list N * list N)) (s : OrderState) : option OrderState :=
  match fuel with
  | 0 => None
  | S f =>
      match os_stack s with
      | [] => Some s
      | action :: stack =>
          drain_stack f packages cycle_breaks
            (order_step packages cycle_breaks action (mkOrderState stack (os_visited s) (os_order s)))
      end
  end.

(** More rounds than the inner loop takes: every name is resolved once, which
    pushes one action for it and one for each of its dependencies. *)
Definition stack_fuel (packages : gmap (list N) PackageRecord) (stack : list Action) : nat :=
  S (length stack + sum_list_with (λ p, 1 + length (record_depends p.2)) (map_to_list packages)).

Fixpoint order_loop (fuel : nat) (packages : gmap (list N) PackageRecord)
    (cycle_breaks : gset (list N * list N)) (s : OrderState) : option OrderState :=
  match fuel with
  | 0 => None
  | S f =>
      s ← drain_stack (stack_fuel packages (os_stack s)) packages cycle_breaks s;
      let unvisited := filter (λ k, k ∉ os_visited s) (package_keys packages) in
      match unvisited with
      | [] => Some s
      | _ =>
          order_loop f packages cycle_breaks
            (mkOrderState (push_all (ResolveAndInstall <$> sort_names unvisited) (os_stack s))
               (os_visited s) (os_order s))
      end
  end.

(** [packages.remove(&name).unwrap()] for every name of the order. *)
Fixpoint take_packages (order : list (list N)) (packages : gmap (list N) PackageRecord)
  : option (list PackageRecord) :=
  match order with
  | [] => Some []
  | name :: order' =>
      package ← packages !! name;
      rest ← take_packages order' (delete name packages);
      Some (package :: rest)
  end.

(** Two rounds visit every package. *)
Definition get_topological_order (roots : gset (list N)) (packages : gmap (list N) PackageRecord)
    (cycle_breaks : gset (list N * list N)) : option (list PackageRecord) :=
  let roots := sort_names (elements roots) in
  s ← order_loop 2 packages cycle_breaks
        (mkOrderState (push_all (ResolveAndInstall <$> roots) []) ∅ []);
  take_packages (os_order s) packages.

Definition sort_topologically (packages : list PackageRecord) : option (list PackageRecord) :=
  let all_packages := packages_by_name packages in
  cycles ← find_all_cycles all_packages;
  cycle_breaks ← break_cycles cycles all_packages;
  let roots := get_graph_roots packages cycle_breaks in
  get_topological_order roots all_packages cycle_breaks.

(** ** Lemmas: sorting names *)
#[export] Instance str_le_total : Total str_le.
Proof.
  intros a b. unfold str_le. rewrite (cmp_opp str_cmp a b). destruct (str_cmp a b); naive_solver.
Qed.
#[export] Instance str_le_trans : Transitive str_le.
Proof. intros a b c. apply (cmp_le_trans str_cmp). Qed.
#[export] Instance str_le_antisymm : AntiSymm (=) str_le.
Proof.
  intros a b. unfold str_le. rewrite (cmp_opp str_cmp a b). intros H1 H2.
  apply (cmp_eq_iff str_cmp). by destruct (str_cmp a b).
Qed.

Lemma sort_names_perm l : sort_names l ≡ₚ l.
Proof. apply merge_sort_Permutation. Qed.

Lemma elem_of_sort_names x l : x ∈ sort_names l ↔ x ∈ l.
Proof. by rewrite sort_names_perm. Qed.

(** Sorting forgets the order. *)
#[export] Instance sort_names_proper : Proper ((≡ₚ) ==> (=)) sort_names.
Proof.
  intros l k H. apply (Sorted_unique str_le); [apply Sorted_merge_sort, _..|].
  by rewrite !sort_names_perm.
Qed.

(** ** Lemmas: the map of packages *)

(** A map built by name keeps the names as keys. *)
Definition keyed (packages : gmap (list N) PackageRecord) : Prop :=
  ∀ k p, packages !! k = Some p → record_name p = k.

Lemma packages_by_name_snoc l p :
  packages_by_name (l ++ [p]) = <[record_name p := p]> (packages_by_name l).
Proof. unfold packages_by_name. by rewrite foldl_app. Qed.

Lemma packages_by_name_keyed l : keyed (packages_by_name l).
Proof.
  induction l as [|p l IH] using rev_ind; intros k q; [done|].
  rewrite packages_by_name_snoc, lookup_insert_Some. naive_solver.
Qed.

Lemma packages_by_name_dom l k : is_Some (packages_by_name l !! k) ↔ k ∈ record_name <$> l.
Proof.
  induction l as [|p l IH] using rev_ind; [split; [by intros []|by intros ?%elem_of_nil]|].
  rewrite packages_by_name_snoc, lookup_insert_is_Some', IH, fmap_app. set_solver.
Qed.

Lemma packages_by_name_elem l k p : packages_by_name l !! k = Some p → p ∈ l.
Proof.
  induction l as [|q l IH] using rev_ind; [done|].
  rewrite packages_by_name_snoc, lookup_insert_Some. set_solver.
Qed.

Lemma packages_by_name_lookup l p :
  NoDup (record_name <$> l) → p ∈ l → packages_by_name l !! record_name p = Some p.
Proof.
  induction l as [|q l IH] using rev_ind; [by intros _ ?%elem_of_nil|].
  rewrite fmap_app, NoDup_app. csimpl. intros (Hl & Hq & _) Hp.
  rewrite packages_by_name_snoc. apply elem_of_app in Hp as [Hp| ->%list_elem_of_singleton].
  - rewrite lookup_insert_ne; [by apply IH|]. intros E. apply (Hq (record_name p)).
    + by apply list_elem_of_fmap_2.
    + rewrite E. set_solver.
  - by rewrite lookup_insert_eq.
Qed.

(** With distinct names the map does not depend on the order of the records. *)
Lemma packages_by_name_perm l k :
  NoDup (record_name <$> l) → l ≡ₚ k → packages_by_name l = packages_by_name k.
Proof.
  intros Hl Hp. apply map_eq. intros i. apply option_eq. intros p.
  assert (NoDup (record_name <$> k)) as Hk by (by rewrite <-Hp).
  split; intros H; pose proof (packages_by_name_keyed _ _ _ H) as <-;
    apply packages_by_name_lookup; [done| |done|];
    apply packages_by_name_elem in H; [by rewrite <-Hp|by rewrite Hp].
Qed.

Lemma elem_of_package_keys packages k : k ∈ package_keys packages ↔ is_Some (packages !! k).
Proof.
  unfold package_keys. rewrite list_elem_of_fmap. split.
  - intros ([? p] & -> & H%elem_of_map_to_list). by exists p.
  - intros [p H]. exists (k, p). split; [done|]. by apply elem_of_map_to_list.
Qed.

(** ** The dependency graph *)
Section graph.
Context (packages : gmap (list N) PackageRecord).

(** [depends_on a b]: the package named [a] lists the dependency [b]. *)
Definition depends_on (a b : list N) : Prop :=
  ∃ p, packages !! a = Some p ∧ b ∈ record_depends p.

(** Consecutive names are dependencies. *)
Fixpoint walk (l : list (list N)) : Prop :=
  match l with
  | x :: ((y :: _) as l') => depends_on x y ∧ walk l'
  | _ => True
  end.

(** A cycle, as the search reports it. *)
Definition is_cycle (c : list (list N)) : Prop :=
  ∃ x rest, c = x :: rest ∧ walk (c ++ [x]).

(** No infinite chain of dependencies starts at [x]. *)
Definition well_founded_at (x : list N) : Prop := Acc (λ b a, depends_on a b) x.

Lemma walk_app l x k : walk (l ++ x :: k) ↔ walk (l ++ [x]) ∧ walk (x :: k).
Proof.
  induction l as [|y l IH]; [simpl; tauto|].
  destruct l as [|z l]; simpl in *; [tauto|]. rewrite IH. tauto.
Qed.

Lemma walk_rtc x l y : walk (x :: l) → y ∈ l → tc depends_on x y.
Proof.
  revert x. induction l as [|z l IH]; intros x; [by intros _ ?%elem_of_nil|].
  intros [Hxz Hl] [->|Hy]%elem_of_cons; [by apply tc_once|].
  eapply tc_l; [done|]. by apply IH.
Qed.

(** Every name of a cycle reaches every name of it. *)
Lemma cycle_connected c a b : is_cycle c → a ∈ c → b ∈ c → tc depends_on a b.
Proof.
  intros (x & rest & -> & Hw) Ha Hb.
  assert (tc depends_on x b) as Hxb by (apply (walk_rtc x (rest ++ [x]) b Hw); set_solver).
  assert (tc depends_on a x) as Hax; [|by etrans].
  apply list_elem_of_split in Ha as (l1 & l2 & E). rewrite E in Hw.
  rewrite <-app_assoc in Hw. simpl in Hw. apply walk_app in Hw as [_ Hw].
  apply (walk_rtc a (l2 ++ [x]) x Hw). set_solver.
Qed.

Lemma well_founded_irrefl x : well_founded_at x → ¬ tc depends_on x x.
Proof.
  induction 1 as [x _ IH]. intros Ht.
  inversion Ht as [? ? H|? y ? H Hy]; subst; [by apply (IH x H)|].
  apply (IH y H). by eapply tc_r.
Qed.

Lemma from_node_suffix node path :
  node ∈ path → ∃ l rest, path = l ++ from_node node path ∧ from_node node path = node :: rest.
Proof.
  induction path as [|x path IH]; [by intros ?%elem_of_nil|]. simpl. intros Hn.
  case_bool_decide as E; [subst; by exists [], path|].
  destruct IH as (l & rest & E1 & E2); [set_solver|].
  exists (x :: l), rest. simpl. by rewrite <-E1.
Qed.

Lemma from_node_cycle node path :
  node ∈ path → walk (path ++ [node]) → is_cycle (from_node node path).
Proof.
  intros (l & rest & E1 & E2)%from_node_suffix Hw. exists node, rest. split; [done|].
  rewrite E1, E2, <-app_assoc in Hw. simpl in Hw. apply walk_app in Hw as [_ Hw].
  by rewrite E2.
Qed.

(** *** The depth-first search *)
Lemma elem_of_all_names x :
  x ∈ all_names packages ↔ is_Some (packages !! x) ∨ ∃ a, depends_on a x.
Proof.
  unfold all_names. rewrite elem_of_union, elem_of_dom, elem_of_union_list. f_equiv. split.
  - intros (X & (ap & -> & H)%list_elem_of_fmap & Hx). destruct ap as [a p].
    apply elem_of_map_to_list in H. simpl in *. exists a, p. split; [done|]. set_solver.
  - intros (a & p & Hp & Hx). exists (list_to_set (record_depends p)). split; [|set_solver].
    apply list_elem_of_fmap. exists (a, p). split; [done|]. by apply elem_of_map_to_list.
Qed.

(** Every visited name that is not on the path starts no infinite chain. *)
Definition finished_ok (s : DfsState) : Prop :=
  ∀ x, x ∈ dfs_visited s → x ∉ dfs_path s → well_founded_at x.

(** What searching [nodes] does. *)
Record searched (nodes : list (list N)) (s s' : DfsState) : Prop := {
  searched_path : dfs_path s' = dfs_path s;
  searched_visited : dfs_visited s ⊆ dfs_visited s';
  searched_names : dfs_visited s' ⊆ all_names packages;
  searched_nodes : ∀ x, x ∈ nodes → x ∈ dfs_path s ∨ x ∈ dfs_visited s';
  searched_cycles : ∃ new, dfs_cycles s' = dfs_cycles s ++ new ∧ Forall is_cycle new
    ∧ (new = [] → finished_ok s → finished_ok s' ∧ ∀ x, x ∈ nodes → well_founded_at x)
}.

Definition can_search (f : nat) (node : list N) (s : DfsState) : Prop :=
  dfs_visited s ⊆ all_names packages ∧ node ∈ all_names packages
  ∧ walk (dfs_path s ++ [node]) ∧ size (all_names packages ∖ dfs_visited s) < f.

Lemma searched_nil s : dfs_visited s ⊆ all_names packages → searched [] s s.
Proof.
  intros H. split; [done..|by intros ? ?%elem_of_nil|].
  exists []. rewrite app_nil_r. split; [done|]. split; [done|]. intros _ ?. split; [done|].
  by intros ? ?%elem_of_nil.
Qed.

Lemma searched_cons n ns s s1 s2 :
  searched [n] s s1 → searched ns s1 s2 → searched (n :: ns) s s2.
Proof.
  intros [P1 V1 N1 M1 (c1 & C1 & F1 & A1)] [P2 V2 N2 M2 (c2 & C2 & F2 & A2)].
  split; [congruence|set_solver|done| |].
  - intros x [->|Hx]%elem_of_cons.
    + destruct (M1 n) as [|]; set_solver.
    + destruct (M2 x Hx); [left; congruence|by right].
  - exists (c1 ++ c2). rewrite C2, C1, app_assoc. split; [done|].
    split; [by apply Forall_app|]. intros [E1 E2]%app_nil Hs.
    destruct (A1 E1 Hs) as [Hs1 Hn]. destruct (A2 E2 Hs1) as [Hs2 Hns].
    split; [done|]. intros x [->|Hx]%elem_of_cons; [apply Hn; set_solver|auto].
Qed.

(** The loop over the dependencies, given the search of one node. *)
Lemma for_search f nodes s :
  (∀ n s, can_search f n s → ∃ s', dfs f packages n s = Some s' ∧ searched [n] s s') →
  dfs_visited s ⊆ all_names packages →
  (∀ n, n ∈ nodes → can_search f n s) →
  ∃ s', for_opt nodes (dfs f packages) s = Some s' ∧ searched nodes s s'.
Proof.
  intros Hdfs. revert s. induction nodes as [|n nodes IH]; intros s Hv Hn; simpl.
  { exists s. split; [done|]. by apply searched_nil. }
  destruct (Hdfs n s) as (s1 & -> & H1); [apply Hn; set_solver|]. simpl.
  destruct (IH s1) as (s2 & -> & H2).
  - apply H1.
  - intros x Hx. destruct (Hn x) as (_ & ? & Hw & Hs); [set_solver|].
    destruct H1 as [P1 V1 N1 _ _]. split; [done|]. split; [done|]. rewrite P1. split; [done|].
    eapply Nat.le_lt_trans; [|exact Hs]. apply subseteq_size. set_solver.
  - exists s2. split; [done|]. by eapply searched_cons.
Qed.

Lemma dfs_spec f node s :
  can_search f node s → ∃ s', dfs f packages node s = Some s' ∧ searched [node] s s'.
Proof.
  revert node s. induction f as [|f IH]; intros node s (Hv & Hn & Hw & Hf); [lia|]. simpl.
  case_bool_decide as Hpath.
  { eexists. split; [done|]. split; simpl; [done..| |].
    - intros x ->%list_elem_of_singleton. by left.
    - eexists [_]. split; [done|]. split; [|done]. constructor; [|done]. by apply from_node_cycle. }
  case_bool_decide as Hvis.
  { exists s. split; [done|]. split; [done..| |].
    - intros x ->%list_elem_of_singleton. by right.
    - exists []. rewrite app_nil_r. split; [done|]. split; [done|]. intros _ Hs. split; [done|].
      intros x ->%list_elem_of_singleton. by apply Hs. }
  set (s1 := mkDfsState _ _ _).
  set (deps := match packages !! node with Some p => record_depends p | None => [] end).
  assert (∀ d, d ∈ deps ↔ depends_on node d) as Hdeps.
  { intros d. unfold deps, depends_on. destruct (packages !! node) as [p|] eqn:E.
    - split; [intros; by exists p|]. intros (q & [= ->] & ?). done.
    - split; [by intros ?%elem_of_nil|]. by intros (q & ? & _). }
  assert (∃ s2, for_opt deps (dfs f packages) s1 = Some s2 ∧ searched deps s1 s2)
    as (s2 & Hfor & [P V N M (new & C & F & A)]).
  { apply for_search; [exact IH|unfold s1; simpl; set_solver|].
    intros d Hd%Hdeps. split; [unfold s1; simpl; set_solver|].
    split; [apply elem_of_all_names; right; by exists node|]. split.
    - unfold s1. simpl. rewrite <-app_assoc. simpl. apply walk_app. split; [done|]. simpl.
      by split.
    - unfold s1. simpl. assert (size (all_names packages ∖ ({[node]} ∪ dfs_visited s))
        < size (all_names packages ∖ dfs_visited s)); [|lia].
      apply subset_size. set_solver. }
  assert (match packages !! node with
          | Some package => for_opt (record_depends package) (dfs f packages) s1
          | None => Some s1 end = Some s2) as ->.
  { rewrite <-Hfor. unfold deps. by destruct (packages !! node). }
  simpl. eexists. split; [done|]. rewrite P. unfold s1 in *. simpl in *.
  rewrite length_app, Nat.add_sub, take_app_length.
  split; simpl; [done|set_solver|done| |].
  - intros x ->%list_elem_of_singleton. right. set_solver.
  - exists new. split; [done|]. split; [done|]. intros -> Hs.
    destruct A as [A1 A2]; [done| |].
    + intros x Hx Hnx. simpl in *. apply Hs; set_solver.
    + assert (well_founded_at node) as Hnode by (constructor; intros y Hy%Hdeps; by apply A2).
      split; [|by intros x ->%list_elem_of_singleton].
      intros x Hx Hnx. simpl in *. destruct (decide (x = node)) as [->|]; [done|].
      apply A1; [done|]. rewrite P. set_solver.
Qed.

Lemma searched_done x s s' : searched [x] s s' → dfs_path s = [] → x ∈ dfs_visited s'.
Proof.
  intros H E. destruct (searched_nodes _ _ _ H x) as [Hx|]; [set_solver| |done].
  rewrite E in Hx. by apply elem_of_nil in Hx.
Qed.

Lemma find_all_cycles_spec :
  ∃ cycles, find_all_cycles packages = Some cycles ∧ Forall is_cycle cycles
    ∧ (cycles = [] ↔ ∀ x, well_founded_at x).
Proof.
  unfold find_all_cycles.
  set (P := λ (seen : list (list N)) (st : gset (list N) * list (list (list N))),
    st.1 ⊆ all_names packages ∧ (∀ x, x ∈ seen → x ∈ st.1) ∧ Forall is_cycle st.2
    ∧ (st.2 = [] → ∀ x, x ∈ st.1 → well_founded_at x)).
  edestruct (for_opt_ind P (sort_names (package_keys packages))) as ([V cycles] & E & H);
    [| |rewrite E; clear E].
  - split; [set_solver|]. split; [by intros ? ?%elem_of_nil|]. split; [done|].
    set_solver.
  - intros seen x [V c] (HV & Hseen & Hc & Hwf) Hx. cbn [fst snd] in *.
    case_bool_decide as Hvis.
    { eexists. split; [done|]. split; [done|]. split; [set_solver|]. done. }
    destruct (dfs_spec (S (size (all_names packages))) x (mkDfsState V [] c))
      as (s' & E & Hsr).
    { split; [done|]. split.
      - apply elem_of_all_names. left. apply elem_of_package_keys. by apply elem_of_sort_names.
      - split; [done|]. cbn [dfs_visited]. assert (size (all_names packages ∖ V) ≤ size (all_names packages));
          [apply subseteq_size; set_solver|lia]. }
    rewrite E. cbn [mbind option_bind]. eexists. split; [done|].
    pose proof (searched_done _ _ _ Hsr eq_refl) as Hxv.
    destruct Hsr as [Pp Vv Nn _ (new & Cn & Fn & An)]. simpl in *.
    split; [done|]. split; [set_solver|]. simpl. rewrite Cn. split; [by apply Forall_app|].
    intros [-> ->]%app_nil. destruct An as [An _]; [done| |].
    + intros y Hy _. by apply Hwf.
    + intros y Hy. apply An; [done|]. rewrite Pp. apply not_elem_of_nil.
  - destruct H as (HV & Hseen & Hc & Hwf). simpl in *. exists cycles. split; [done|].
    split; [done|]. split.
    + intros -> x. destruct (packages !! x) as [p|] eqn:Ex.
      * apply Hwf; [done|]. apply Hseen, elem_of_sort_names, elem_of_package_keys. by exists p.
      * constructor. intros y (p & Hp & _). congruence.
    + intros Hall. destruct cycles as [|c cycles]; [done|].
      inversion Hc as [|? ? Hcyc _]; subst. pose proof Hcyc as (x & rest & -> & _).
      exfalso. apply (well_founded_irrefl x); [apply Hall|].
      by apply (cycle_connected (x :: rest)); [|set_solver..].
Qed.

(** *** Breaking the cycles *)
Lemma cycle_package c x : is_cycle c → x ∈ c → is_Some (packages !! x).
Proof.
  intros Hc Hx. pose proof (cycle_connected c x x Hc Hx Hx) as Ht.
  by inversion Ht as [? ? (p & Hp & _)|? ? ? (p & Hp & _)]; subst; exists p.
Qed.

(** The edge a cycle gets removed joins two names of the cycle. *)
Definition break_of (c : list (list N)) (e : list N * list N) : Prop := e.1 ∈ c ∧ e.2 ∈ c.

Lemma break_loop_at c i rest breaks :
  is_cycle c → i < length c →
  ∃ e, break_of c e
    ∧ (break_loop packages c (i :: rest) breaks = Some ({[e]} ∪ breaks)
       ∨ i ≠ length c - 1
         ∧ break_loop packages c (i :: rest) breaks = break_loop packages c rest breaks).
Proof.
  intros Hc Hi. cbn [break_loop].
  destruct (lookup_lt_is_Some_2 c i Hi) as [a Ha].
  destruct (lookup_lt_is_Some_2 c ((i + 1) mod length c)) as [b Hb];
    [apply Nat.mod_upper_bound; lia|].
  rewrite Ha, Hb. cbn [mbind option_bind].
  apply list_elem_of_lookup_2 in Ha, Hb.
  destruct (cycle_package c a Hc Ha) as [p ->], (cycle_package c b Hc Hb) as [q ->].
  cbn [mbind option_bind]. destruct (_ && _); [exists (a, b); split; [done|by left]|].
  exists (b, a). split; [done|]. destruct (_ || _) eqn:E; [by left|].
  right. apply orb_false_iff in E as [_ E%bool_decide_eq_false]. done.
Qed.

Lemma break_loop_spec c n breaks :
  is_cycle c → n < length c →
  ∃ e, break_of c e
    ∧ break_loop packages c (seq (length c - S n) (S n)) breaks = Some ({[e]} ∪ breaks).
Proof.
  intros Hc. induction n as [|n IH]; intros Hn; cbn [seq];
    match goal with |- context [break_loop _ _ (?i :: ?rest) _] =>
      destruct (break_loop_at c i rest breaks Hc) as (e & He & [->|[Hne ->]]);
        [lia|by exists e|]
    end.
  - lia.
  - replace (S (length c - S (S n))) with (length c - S n) by lia. apply IH. lia.
Qed.

Lemma break_cycles_spec cycles :
  Forall is_cycle cycles →
  ∃ breaks, break_cycles cycles packages = Some breaks
    ∧ (∀ e, e ∈ breaks → ∃ c, c ∈ cycles ∧ break_of c e)
    ∧ ∀ c, c ∈ cycles → ∃ e, e ∈ breaks ∧ break_of c e.
Proof.
  intros Hall. unfold break_cycles.
  apply (for_opt_ind (λ seen breaks, (∀ e, e ∈ breaks → ∃ c, c ∈ cycles ∧ break_of c e)
    ∧ ∀ c, c ∈ seen → ∃ e, e ∈ breaks ∧ break_of c e)).
  { split; [set_solver|]. by intros ? ?%elem_of_nil. }
  intros seen c breaks [H1 H2] Hc. rewrite Forall_forall in Hall. specialize (Hall c Hc).
  assert (0 < length c) by (destruct Hall as (? & ? & -> & _); simpl; lia).
  destruct (break_loop_spec c (length c - 1) breaks Hall) as (e & He & E); [lia|].
  replace (S (length c - 1)) with (length c) in E by lia.
  rewrite Nat.sub_diag in E. eexists. split; [exact E|]. split.
  - intros e' [->%elem_of_singleton|He']%elem_of_union; [by exists c|auto].
  - intros c' [Hc'| ->%list_elem_of_singleton]%elem_of_app; [|set_solver].
    destruct (H2 c' Hc') as (e' & ? & ?). set_solver.
Qed.

(** *** The order *)
Context (breaks : gset (list N * list N)).

(** A dependency that was not removed. *)
Definition edge (a b : list N) : Prop := depends_on a b ∧ (a, b) ∉ breaks.

Lemma elem_of_kept a p d :
  d ∈ kept_depends breaks a p ↔ d ∈ record_depends p ∧ (a, d) ∉ breaks.
Proof. unfold kept_depends. rewrite elem_of_sort_names, list_elem_of_filter. tauto. Qed.

Definition action_name (a : Action) : list N :=
  match a with ResolveAndInstall n => n | Install n => n end.

(** The packages the stack will install. *)
Definition installs (stack : list Action) : list (list N) :=
  omap (λ a, match a with Install n => Some n | _ => None end) stack.

Lemma installs_app s t : installs (s ++ t) = installs s ++ installs t.
Proof. apply omap_app. Qed.

Lemma installs_resolve l stack : installs (push_all (ResolveAndInstall <$> l) stack) = installs stack.
Proof.
  unfold push_all. rewrite installs_app, <-fmap_reverse.
  by induction (reverse l) as [|x k IH].
Qed.

Lemma elem_of_installs n stack : n ∈ installs stack ↔ Install n ∈ stack.
Proof.
  unfold installs. rewrite list_elem_of_omap. split.
  - by intros ([?|?] & ? & [= ->]).
  - intros H. by exists (Install n).
Qed.

Record order_inv (s : OrderState) : Prop := {
  oi_nodup : NoDup (os_order s ++ installs (os_stack s));
  oi_visited : ∀ x, x ∈ os_order s ++ installs (os_stack s)
    ↔ x ∈ os_visited s ∧ is_Some (packages !! x);
  oi_before : ∀ l1 p l2 d, os_order s = l1 ++ p :: l2 → edge p d → is_Some (packages !! d) →
    d ∈ l1 ∨ rtc edge d p;
  oi_above : ∀ above x below, os_stack s = above ++ Install x :: below →
    ∀ a, a ∈ above → rtc edge x (action_name a);
  oi_deps : ∀ above x below, os_stack s = above ++ Install x :: below →
    ∀ d, edge x d → is_Some (packages !! d) →
    d ∈ os_order s ∨ d ∈ action_name <$> above ∨ rtc edge d x
}.

Lemma order_inv_install x st V O :
  order_inv (mkOrderState (Install x :: st) V O) → order_inv (mkOrderState st V (O ++ [x])).
Proof.
  intros [Hn Hv Hb Ha Hd]. simpl in *. split; simpl.
  - by rewrite <-app_assoc.
  - intros y. by rewrite <-app_assoc, <-Hv.
  - intros l1 p l2 d E He Hp. destruct l2 as [|q l2] using rev_ind.
    + apply app_inj_tail in E as [<- <-].
      destruct (Hd [] x st eq_refl d He Hp) as [?|[Hnil|?]]; [auto| |auto].
      by apply elem_of_nil in Hnil.
    + rewrite app_comm_cons, app_assoc in E. apply app_inj_tail in E as [-> _].
      by eapply Hb.
  - intros above y below -> a Hin. eapply (Ha (Install x :: above)); [done|set_solver].
  - intros above y below -> d He Hp.
    destruct (Hd (Install x :: above) y below eq_refl d He Hp) as [?|[Hx|?]]; [set_solver| |auto].
    csimpl in Hx. set_solver.
Qed.

Lemma order_inv_visited y st V O :
  order_inv (mkOrderState (ResolveAndInstall y :: st) V O) →
  y ∈ V ∨ packages !! y = None →
  order_inv (mkOrderState st ({[y]} ∪ V) O).
Proof.
  intros [Hn Hv Hb Ha Hd] Hy. simpl in *. split; simpl.
  - done.
  - intros z. rewrite Hv, elem_of_union, elem_of_singleton. split; [naive_solver|].
    intros [[->|?] Hz]; [|done]. destruct Hy as [|Hy]; [done|]. rewrite Hy in Hz. by destruct Hz.
  - done.
  - intros above x below -> a Hin. eapply (Ha (ResolveAndInstall y :: above)); [done|set_solver].
  - intros above x below -> d He Hp.
    destruct (Hd (ResolveAndInstall y :: above) x below eq_refl d He Hp) as [?|[Hx|?]]; [auto| |auto].
    csimpl in Hx. apply elem_of_cons in Hx as [->|Hx]; [|auto].
    destruct Hy as [Hy|Hy]; [|rewrite Hy in Hp; by destruct Hp].
    pose proof (proj2 (Hv y) (conj Hy Hp)) as [?|Hi]%elem_of_app; [auto|]. right.
    apply elem_of_installs in Hi.
    apply elem_of_app in Hi as [Hi|[[= ->]|Hi]%elem_of_cons].
    + left. apply list_elem_of_fmap. by exists (Install y).
    + right. apply rtc_refl.
    + right. apply list_elem_of_split in Hi as (b1 & b2 & ->).
      apply (Ha (ResolveAndInstall y :: above ++ Install x :: b1) y b2) with (a := Install x).
      * by rewrite <-app_comm_cons, <-app_assoc.
      * set_solver.
Qed.

(** Where an [Install] can be in a stack that grew by resolutions. *)
Lemma install_split r y st above x below :
  (ResolveAndInstall <$> r) ++ Install y :: st = above ++ Install x :: below →
  (above = ResolveAndInstall <$> r ∧ y = x ∧ st = below)
  ∨ ∃ k, above = (ResolveAndInstall <$> r) ++ Install y :: k ∧ st = k ++ Install x :: below.
Proof.
  revert above. induction r as [|n r IH]; intros [|a above]; csimpl; intros E; simplify_eq;
    [by left|right; by exists above|].
  destruct (IH above) as [(-> & -> & ->)|(k & -> & ->)]; [done|by left|right; by exists k].
Qed.

Lemma order_inv_resolve y p st V O :
  order_inv (mkOrderState (ResolveAndInstall y :: st) V O) →
  y ∉ V → packages !! y = Some p →
  order_inv (mkOrderState
    (push_all (ResolveAndInstall <$> kept_depends breaks y p) (push_all [Install y] st))
    ({[y]} ∪ V) O).
Proof.
  intros [Hn Hv Hb Ha Hd] Hy Hp. simpl in *.
  assert (Hedge : ∀ d, edge y d → d ∈ kept_depends breaks y p).
  { intros d [(q & Hq & Hqd) Hbr]. apply elem_of_kept. by simplify_eq. }
  split; simpl; rewrite ?installs_resolve; simpl.
  - assert (y ∉ O ++ installs st) by (rewrite Hv; naive_solver).
    rewrite <-Permutation_middle. by constructor.
  - intros z. rewrite <-Permutation_middle, elem_of_cons, Hv. set_solver.
  - done.
  - unfold push_all at 1. rewrite <-fmap_reverse.
    intros above x below [(-> & -> & ->)|(k & -> & ->)]%install_split a Hin.
    + apply list_elem_of_fmap in Hin as (d & -> & Hin). rewrite elem_of_reverse in Hin.
      apply elem_of_kept in Hin as [? ?]. apply rtc_once. split; [by exists p|done].
    + assert (rtc edge x y) as Hxy
        by (apply (Ha (ResolveAndInstall y :: k) x below eq_refl (ResolveAndInstall y)); set_solver).
      apply elem_of_app in Hin as [Hin|[->|Hin]%elem_of_cons]; [|done|].
      * apply list_elem_of_fmap in Hin as (d & -> & Hin). rewrite elem_of_reverse in Hin.
        apply elem_of_kept in Hin as [? ?]. eapply rtc_r; [done|]. split; [by exists p|done].
      * apply (Ha (ResolveAndInstall y :: k) x below eq_refl). set_solver.
  - unfold push_all at 1. rewrite <-fmap_reverse.
    intros above x below [(-> & -> & ->)|(k & -> & ->)]%install_split d He Hdp.
    + right. left. rewrite <-list_fmap_compose. apply list_elem_of_fmap. exists d.
      split; [done|]. rewrite elem_of_reverse. auto.
    + destruct (Hd (ResolveAndInstall y :: k) x below eq_refl d He Hdp) as [?|[Hx|?]]; [auto| |auto].
      right. left. rewrite fmap_app. csimpl in *. set_solver.
Qed.

Lemma order_inv_step a st V O :
  order_inv (mkOrderState (a :: st) V O) →
  order_inv (order_step packages breaks a (mkOrderState st V O)).
Proof.
  intros H. destruct a as [y|x]; simpl; [|by apply order_inv_install].
  case_bool_decide as Hy.
  - replace V with ({[y]} ∪ V) by set_solver. apply order_inv_visited; auto.
  - destruct (packages !! y) as [p|] eqn:Hp; [by apply order_inv_resolve|].
    apply order_inv_visited; auto.
Qed.

(** *** Termination *)

(** The actions the unvisited packages can still push. *)
Definition weight_of (V : gset (list N)) (kp : list N * PackageRecord) : nat :=
  if bool_decide (kp.1 ∈ V) then 0 else 1 + length (record_depends kp.2).
Definition weight (V : gset (list N)) : nat := sum_list_with (weight_of V) (map_to_list packages).

Lemma weight_of_ext V y l :
  (∀ kp, kp ∈ l → kp.1 ≠ y) →
  sum_list_with (weight_of ({[y]} ∪ V)) l = sum_list_with (weight_of V) l.
Proof.
  induction l as [|kp l IH]; intros Hk; simpl; [done|].
  rewrite IH by (intros; apply Hk; set_solver). f_equal.
  assert (kp.1 ≠ y) by (apply Hk; set_solver). unfold weight_of.
  rewrite (bool_decide_ext (kp.1 ∈ {[y]} ∪ V) (kp.1 ∈ V)); [done|set_solver].
Qed.

Lemma weight_visit V y p :
  packages !! y = Some p → y ∉ V →
  weight ({[y]} ∪ V) + (1 + length (record_depends p)) = weight V.
Proof.
  intros Hp Hy. unfold weight.
  rewrite <-(insert_delete_id packages y p Hp), map_to_list_insert by apply lookup_delete_eq.
  cbn [sum_list_with]. rewrite weight_of_ext.
  - assert (weight_of ({[y]} ∪ V) (y, p) = 0) as -> by
      (unfold weight_of; by rewrite bool_decide_eq_true_2 by set_solver).
    assert (weight_of V (y, p) = 1 + length (record_depends p)) as -> by
      (unfold weight_of; by rewrite bool_decide_eq_false_2 by set_solver).
    lia.
  - intros [k q] Hk%elem_of_map_to_list. simpl. intros ->. by rewrite lookup_delete_eq in Hk.
Qed.

Lemma weight_mono V W : V ⊆ W → weight W ≤ weight V.
Proof.
  intros H. unfold weight. induction (map_to_list packages) as [|kp l IH]; simpl; [done|].
  apply Nat.add_le_mono; [|done]. unfold weight_of.
  destruct (bool_decide (kp.1 ∈ V)) eqn:E; [|destruct (bool_decide (kp.1 ∈ W)); lia].
  apply bool_decide_eq_true in E. rewrite bool_decide_eq_true_2 by set_solver. lia.
Qed.

Lemma weight_fuel stack V : length stack + weight V < stack_fuel packages stack.
Proof.
  assert (weight V ≤ weight ∅) by (apply weight_mono; set_solver).
  enough (weight ∅ = sum_list_with (λ p, 1 + length (record_depends p.2))
    (map_to_list packages)) by (unfold stack_fuel; lia).
  unfold weight. induction (map_to_list packages) as [|kp l IH]; simpl; [done|].
  rewrite IH. unfold weight_of. by rewrite bool_decide_eq_false_2 by set_solver.
Qed.

Lemma order_step_weight a st V O :
  let s := order_step packages breaks a (mkOrderState st V O) in
  length (os_stack s) + weight (os_visited s) ≤ length st + weight V
  ∧ V ⊆ os_visited s.
Proof.
  destruct a as [y|x]; simpl; [|done]. case_bool_decide as Hy; [done|].
  destruct (packages !! y) as [p|] eqn:Hp; simpl.
  - pose proof (weight_visit V y p Hp Hy). split; [|set_solver]. unfold push_all.
    rewrite length_app, length_reverse, length_fmap. simpl.
    assert (length (kept_depends breaks y p) ≤ length (record_depends p)); [|lia].
    unfold kept_depends. rewrite sort_names_perm. apply length_filter.
  - split; [|set_solver]. apply Nat.add_le_mono_l, weight_mono. set_solver.
Qed.

(** What is on the stack is visited once the stack is empty. *)
Definition resolved (s s' : OrderState) : Prop :=
  os_visited s ⊆ os_visited s'
  ∧ ∀ x, ResolveAndInstall x ∈ os_stack s → x ∈ os_visited s'.

Lemma order_step_resolved a st V O s' :
  resolved (order_step packages breaks a (mkOrderState st V O)) s' →
  resolved (mkOrderState (a :: st) V O) s'.
Proof.
  intros [Hv Hs]. pose proof (order_step_weight a st V O) as [_ HV].
  split; simpl; [set_solver|]. intros x [<-|Hx]%elem_of_cons.
  - apply Hv. simpl. case_bool_decide; [done|]. destruct (packages !! x); simpl; set_solver.
  - apply Hs. destruct a as [y|y]; simpl; [|done]. case_bool_decide; [done|].
    destruct (packages !! y); simpl; [|done]. unfold push_all. rewrite !elem_of_app. auto.
Qed.

Lemma drain_stack_spec f s :
  length (os_stack s) + weight (os_visited s) < f → order_inv s →
  ∃ s', drain_stack f packages breaks s = Some s' ∧ order_inv s' ∧ os_stack s' = []
    ∧ resolved s s'.
Proof.
  revert s. induction f as [|f IH]; intros s Hf Hs; [lia|]. destruct s as [[|a st] V O]; simpl in *.
  - eexists. split; [done|]. split; [done|]. split; [done|]. split; simpl; [done|].
    by intros ? ?%elem_of_nil.
  - pose proof (order_step_weight a st V O) as [Hw _].
    destruct (IH (order_step packages breaks a (mkOrderState st V O))) as (s' & E & Hi & Hn & Hr).
    + simpl in Hw. lia.
    + by apply order_inv_step.
    + exists s'. split; [done|]. split; [done|]. split; [done|]. by apply order_step_resolved.
Qed.

Lemma order_inv_resolves l V O :
  order_inv (mkOrderState [] V O) → order_inv (mkOrderState (push_all (ResolveAndInstall <$> l) []) V O).
Proof.
  intros [Hn Hv Hb Ha Hd]. simpl in *.
  assert (∀ above x below, push_all (ResolveAndInstall <$> l) [] ≠ above ++ Install x :: below).
  { unfold push_all. rewrite <-fmap_reverse, app_nil_r. intros above x below E.
    assert (Install x ∈ ResolveAndInstall <$> reverse l) as (? & [=] & _)%list_elem_of_fmap.
    rewrite E. set_solver. }
  split; simpl; rewrite ?installs_resolve; [done..| |]; naive_solver.
Qed.

(** The loop visits every package in at most two rounds. *)
Lemma order_loop_spec l :
  ∃ s, order_loop 2 packages breaks (mkOrderState (push_all (ResolveAndInstall <$> l) []) ∅ [])
       = Some s
    ∧ order_inv s ∧ os_stack s = [] ∧ ∀ x, is_Some (packages !! x) → x ∈ os_order s.
Proof.
  assert (order_inv (mkOrderState [] ∅ [])) as H0.
  { split; simpl; [apply NoDup_nil_2|set_solver|..]; intros [|??]; naive_solver. }
  assert (∀ s, order_inv s → os_stack s = [] →
    filter (λ k, k ∉ os_visited s) (package_keys packages) = [] →
    ∀ x, is_Some (packages !! x) → x ∈ os_order s) as Hall.
  { intros s Hs E Hf x Hx. pose proof (oi_visited s Hs x) as Hv. rewrite E in Hv. simpl in Hv.
    rewrite app_nil_r in Hv. apply Hv. split; [|done]. destruct (decide (x ∈ os_visited s)); [done|].
    exfalso. apply (elem_of_nil (A:=list N) x). rewrite <-Hf. apply list_elem_of_filter.
    split; [done|]. by apply elem_of_package_keys. }
  cbn [order_loop].
  edestruct (drain_stack_spec (stack_fuel packages (push_all (ResolveAndInstall <$> l) []))
    (mkOrderState (push_all (ResolveAndInstall <$> l) []) ∅ [])) as (s1 & E1 & H1 & Hst1 & Hr1); [apply weight_fuel|by apply order_inv_resolves|].
  cbn [os_stack]. rewrite E1. cbn [mbind option_bind]. rewrite Hst1.
  destruct (filter _ _) as [|u us] eqn:Hf; [by eauto 6|]. rewrite <-Hf. clear u us Hf.
  set (unv := filter _ _). cbn [os_stack].
  edestruct (drain_stack_spec (stack_fuel packages (push_all (ResolveAndInstall <$> sort_names unv) []))
    (mkOrderState (push_all (ResolveAndInstall <$> sort_names unv) []) (os_visited s1) (os_order s1)))
    as (s2 & E2 & H2 & Hst2 & [Hv2 Hr2]); [apply weight_fuel| |].
  { apply order_inv_resolves. destruct s1. simpl in *. by subst. }
  rewrite E2. cbn [mbind option_bind].
  assert (filter (λ k, k ∉ os_visited s2) (package_keys packages) = []) as Hf2.
  { apply elem_of_nil_inv. intros x [Hn Hx]%list_elem_of_filter. apply Hn.
    destruct (decide (x ∈ os_visited s1)) as [|Hx1]; [by apply Hv2|]. apply Hr2. simpl.
    unfold push_all. rewrite app_nil_r, elem_of_reverse. apply list_elem_of_fmap_2, elem_of_sort_names.
    by apply list_elem_of_filter. }
  rewrite Hf2. exists s2. split; [done|]. split; [done|]. split; [done|]. by apply Hall.
Qed.

End graph.

(** ** The whole sort *)
Lemma take_packages_spec order packages :
  NoDup order → (∀ x, x ∈ order → is_Some (packages !! x)) →
  ∃ out, take_packages order packages = Some out
    ∧ Forall2 (λ k p, packages !! k = Some p) order out.
Proof.
  revert packages. induction order as [|k order IH]; intros packages Hn Hs; simpl.
  { exists []. split; [done|constructor]. }
  apply NoDup_cons in Hn as [Hk Hn].
  destruct (Hs k) as [p Hp]; [set_solver|]. rewrite Hp. simpl.
  destruct (IH (delete k packages) Hn) as (out & -> & Hout).
  { intros x Hx. rewrite lookup_delete_ne by set_solver. apply Hs. set_solver. }
  exists (p :: out). split; [done|]. constructor; [done|].
  eapply Forall2_impl; [exact Hout|]. intros x q. rewrite lookup_delete_Some. by intros [].
Qed.

Lemma keyed_names packages order out :
  keyed packages → Forall2 (λ k p, packages !! k = Some p) order out →
  record_name <$> out = order.
Proof. intros Hk. induction 1 as [|k p order out Hp _ IH]; csimpl; [done|]. by rewrite IH, (Hk k p Hp). Qed.

Lemma get_topological_order_spec roots packages breaks :
  keyed packages →
  ∃ out, get_topological_order roots packages breaks = Some out
    ∧ NoDup (record_name <$> out)
    ∧ (∀ r, r ∈ out ↔ packages !! record_name r = Some r)
    ∧ ∀ l1 r l2 d, out = l1 ++ r :: l2 → d ∈ record_depends r → (record_name r, d) ∉ breaks →
        is_Some (packages !! d) →
        d ∈ record_name <$> l1 ∨ rtc (edge packages breaks) d (record_name r).
Proof.
  intros Hk. unfold get_topological_order.
  destruct (order_loop_spec packages breaks (sort_names (elements roots)))
    as (s & -> & [Hn Hv Hb _ _] & Hst & Hall).
  simpl. rewrite Hst, app_nil_r in Hn. rewrite Hst in Hv. simpl in Hv.
  destruct (take_packages_spec (os_order s) packages Hn) as (out & -> & Hout).
  { intros x Hx. rewrite app_nil_r in Hv. by apply Hv. }
  pose proof (keyed_names _ _ _ Hk Hout) as Hnames.
  assert (Hin : ∀ r, r ∈ out → packages !! record_name r = Some r).
  { intros r (i & Hi)%list_elem_of_lookup. destruct (Forall2_lookup_r _ _ _ _ _ Hout Hi) as (k & _ & Hr).
    by rewrite (Hk k r Hr). }
  exists out. rewrite Hnames. split; [done|]. split; [done|]. split.
  - intros r. split; [auto|]. intros Hr.
    assert (record_name r ∈ record_name <$> out) as (r' & E & Hr')%list_elem_of_fmap
      by (rewrite Hnames; apply Hall; by exists r).
    apply Hin in Hr' as Hr''. rewrite <-E, Hr in Hr''. by simplify_eq.
  - intros l1 r l2 d -> Hd Hbr Hp.
    apply (Hb (record_name <$> l1) (record_name r) (record_name <$> l2)); [|split; [|done]|done].
    + by rewrite <-Hnames, fmap_app.
    + exists r. split; [|done]. apply Hin. set_solver.
Qed.

(** Every step of the sort succeeds. *)
Lemma sort_topologically_spec packages :
  let m := packages_by_name packages in
  ∃ cycles breaks out,
    find_all_cycles m = Some cycles
    ∧ Forall (is_cycle m) cycles
    ∧ break_cycles cycles m = Some breaks
    ∧ (∀ e, e ∈ breaks → ∃ c, c ∈ cycles ∧ break_of c e)
    ∧ sort_topologically packages = Some out
    ∧ NoDup (record_name <$> out)
    ∧ (∀ r, r ∈ out ↔ m !! record_name r = Some r)
    ∧ ∀ l1 r l2 d, out = l1 ++ r :: l2 → d ∈ record_depends r → (record_name r, d) ∉ breaks →
        is_Some (m !! d) →
        d ∈ record_name <$> l1 ∨ rtc (edge m breaks) d (record_name r).
Proof.
  intros m. destruct (find_all_cycles_spec m) as (cycles & E1 & Hc & _).
  destruct (break_cycles_spec m cycles Hc) as (breaks & E2 & Hb & _).
  destruct (get_topological_order_spec (get_graph_roots packages breaks) m breaks)
    as (out & E3 & H); [apply packages_by_name_keyed|].
  exists cycles, breaks, out. split; [done|]. split; [done|]. split; [done|]. split; [done|].
  split; [|done]. unfold sort_topologically. fold m. rewrite E1. simpl. by rewrite E2.
Qed.

(** The roots are a function of the set of records. *)
Lemma get_graph_roots_perm l k breaks : l ≡ₚ k → get_graph_roots l breaks = get_graph_roots k breaks.
Proof.
  intros H. unfold get_graph_roots. apply leibniz_equiv. f_equiv.
  - by rewrite H.
  - intros x. rewrite !elem_of_list_to_set, !list_elem_of_bind. setoid_rewrite H. done.
Qed.

(** Removed edges or not, reaching along kept edges is reaching. *)
Lemma edge_depends m breaks a b : rtc (edge m breaks) a b → rtc (depends_on m) a b.
Proof. apply rtc_subrel. by intros x y []. Qed.

(** ** Records that differ by the order of their dependencies *)
Record same_record (r r' : PackageRecord) : Prop := {
  same_name : pr_name r = pr_name r';
  same_depends : pr_depends r ≡ₚ pr_depends r';
  same_noarch : pr_noarch r = pr_noarch r'
}.

Definition same_map (m m' : gmap (list N) PackageRecord) : Prop :=
  ∀ k, option_Forall2 same_record (m !! k) (m' !! k).

Lemma same_record_name r r' : same_record r r' → record_name r = record_name r'.
Proof. intros [H _ _]. unfold record_name. by rewrite H. Qed.

Lemma same_record_depends r r' : same_record r r' → record_depends r ≡ₚ record_depends r'.
Proof. intros [_ H _]. unfold record_depends. by rewrite H. Qed.

Lemma same_kept breaks k r r' :
  same_record r r' → kept_depends breaks k r = kept_depends breaks k r'.
Proof. intros H%same_record_depends. unfold kept_depends. by rewrite H. Qed.

Lemma same_map_insert m m' k r r' :
  same_map m m' → same_record r r' → same_map (<[k := r]> m) (<[k := r']> m').
Proof.
  intros Hm Hr i. destruct (decide (k = i)) as [->|].
  - rewrite !lookup_insert_eq. by constructor.
  - rewrite !lookup_insert_ne by done. apply Hm.
Qed.

Lemma same_map_delete m m' k : same_map m m' → same_map (delete k m) (delete k m').
Proof.
  intros Hm i. destruct (decide (k = i)) as [->|].
  - rewrite !lookup_delete_eq. constructor.
  - rewrite !lookup_delete_ne by done. apply Hm.
Qed.

Lemma packages_by_name_same l l' :
  Forall2 same_record l l' → same_map (packages_by_name l) (packages_by_name l').
Proof.
  intros H. unfold packages_by_name.
  enough (∀ m m', same_map m m' →
    same_map (foldl (λ m p, <[record_name p:=p]> m) m l)
             (foldl (λ m p, <[record_name p:=p]> m) m' l')) as Hf.
  { apply Hf. intros k. rewrite lookup_empty. constructor. }
  induction H as [|r r' l l' Hr _ IH]; simpl; intros m m' Hm; [done|].
  apply IH. rewrite (same_record_name _ _ Hr). by apply same_map_insert.
Qed.

Lemma order_step_same m m' breaks a s :
  same_map m m' → order_step m breaks a s = order_step m' breaks a s.
Proof.
  intros Hm. destruct a as [y|y]; simpl; [|done]. case_bool_decide; [done|].
  destruct (Hm y) as [p p' Hp|]; [|done]. by rewrite (same_kept _ _ _ _ Hp).
Qed.

Lemma drain_stack_same m m' breaks f f' s s1 s2 :
  same_map m m' → drain_stack f m breaks s = Some s1 → drain_stack f' m' breaks s = Some s2 →
  s1 = s2.
Proof.
  intros Hm. revert f' s. induction f as [|f IH]; intros [|f'] s; simpl; [done..|].
  destruct (os_stack s) as [|a st]; [congruence|]. rewrite (order_step_same m m') by done. apply IH.
Qed.

Lemma package_keys_same m m' : same_map m m' → package_keys m ≡ₚ package_keys m'.
Proof.
  intros Hm. apply NoDup_Permutation; [apply NoDup_fst_map_to_list..|]. intros k.
  rewrite !elem_of_package_keys. destruct (Hm k); split; intros []; by try eexists.
Qed.

Lemma order_loop_same m m' breaks f s s1 s2 :
  same_map m m' → order_loop f m breaks s = Some s1 → order_loop f m' breaks s = Some s2 → s1 = s2.
Proof.
  intros Hm. revert s. induction f as [|f IH]; intros s; cbn [order_loop]; [done|].
  destruct (drain_stack _ m _ _) as [t1|] eqn:E1; [|done].
  destruct (drain_stack _ m' _ _) as [t2|] eqn:E2; [|done].
  pose proof (drain_stack_same _ _ _ _ _ _ _ _ Hm E1 E2) as <-. cbn [mbind option_bind].
  pose proof (package_keys_same _ _ Hm) as Hk.
  assert (filter (λ k, k ∉ os_visited t1) (package_keys m)
          ≡ₚ filter (λ k, k ∉ os_visited t1) (package_keys m')) as Hf by (by rewrite Hk).
  destruct (filter _ (package_keys m)) as [|u us].
  - apply Permutation_nil_l in Hf. rewrite <-Hf. congruence.
  - destruct (filter _ (package_keys m')) as [|v vs].
    { by apply Permutation_nil_r in Hf. }
    rewrite Hf. apply IH.
Qed.

Lemma take_packages_same m m' order out out' :
  same_map m m' → take_packages order m = Some out → take_packages order m' = Some out' →
  Forall2 same_record out out'.
Proof.
  revert m m' out out'. induction order as [|k order IH]; intros m m' out out' Hm; simpl.
  { intros [= <-] [= <-]. constructor. }
  destruct (Hm k) as [p p' Hp|]; [simpl|done].
  destruct (take_packages order (delete k m)) as [o|] eqn:E1; [|done].
  destruct (take_packages order (delete k m')) as [o'|] eqn:E2; [|done].
  intros [= <-] [= <-]. constructor; [done|]. eapply IH; [by apply (same_map_delete m m' k)|done..].
Qed.

Lemma get_graph_roots_same l l' breaks :
  Forall2 same_record l l' → get_graph_roots l breaks = get_graph_roots l' breaks.
Proof.
  intros H. unfold get_graph_roots. f_equal.
  - induction H as [|r r' l l' Hr _ IH]; csimpl; [done|]. by rewrite (same_record_name _ _ Hr), IH.
  - apply leibniz_equiv. induction H as [|r r' l l' Hr _ IH]; csimpl; [done|].
    rewrite !list_to_set_app, IH, (same_record_name _ _ Hr), (same_record_depends _ _ Hr). done.
Qed.

(** With the same removed edges the order of the dependencies does not matter. *)
Lemma get_topological_order_same m m' roots breaks out out' :
  same_map m m' →
  get_topological_order roots m breaks = Some out →
  get_topological_order roots m' breaks = Some out' →
  Forall2 same_record out out'.
Proof.
  intros Hm. unfold get_topological_order.
  destruct (order_loop 2 m _ _) as [s1|] eqn:E1; [|done].
  destruct (order_loop 2 m' _ _) as [s2|] eqn:E2; [|done].
  pose proof (order_loop_same _ _ _ _ _ _ _ Hm E1 E2) as <-. by apply take_packages_same.
Qed.

Lemma depends_on_same m m' a b : same_map m m' → depends_on m a b → depends_on m' a b.
Proof.
  intros Hm (p & Hp & Hb). pose proof (Hm a) as H. rewrite Hp in H.
  inversion H as [? p' Hs E1 E2|]; subst. exists p'. split; [done|].
  by rewrite <-(same_record_depends _ _ Hs).
Qed.

Lemma same_map_sym m m' : same_map m m' → same_map m' m.
Proof.
  intros Hm k. destruct (Hm k) as [p p' [H1 H2 H3]|]; constructor.
  by split; [|symmetry|].
Qed.

Lemma tc_depends_same m m' a b : same_map m m' → tc (depends_on m) a b → tc (depends_on m') a b.
Proof.
  intros Hm. induction 1 as [a b H|a b c H _ IH].
  - by apply tc_once, (depends_on_same m).
  - eapply tc_l; [by apply (depends_on_same m)|done].
Qed.

(** A search that reports nothing shows that there is no cycle. *)
Lemma no_cycles_acyclic m x : find_all_cycles m = Some [] → ¬ tc (depends_on m) x x.
Proof.
  destruct (find_all_cycles_spec m) as (cycles & -> & _ & Hwf). intros [= ->].
  apply well_founded_irrefl. by apply Hwf.
Qed.

(** Without cycles no edge is removed. *)
Lemma acyclic_breaks m :
  (∀ x, ¬ tc (depends_on m) x x) →
  find_all_cycles m = Some [] ∧ break_cycles [] m = Some ∅.
Proof.
  intros H. split; [|done]. destruct (find_all_cycles_spec m) as (cycles & -> & Hc & _).
  destruct Hc as [|c cycles Hc _]; [done|]. pose proof Hc as (x & rest & -> & _).
  exfalso. apply (H x). apply (cycle_connected m (x :: rest)); [done|set_solver..].
Qed.
