(* ===== verification/PackageTheorems.v ===== *)
(** * What package names and the topological sort guarantee

    The properties of PackageName.v and TopoSort.v, with their witnesses. *)
From S2P Require Import Prelude PackageName TopoSort.

(** ** Package names *)

(** Text that may follow the name in a match spec. *)
Definition ends_name (rest : list N) : bool :=
  match rest with [] => true | b :: _ => is_matchspec_delimiter b end.

Lemma name_char_not_delimiter b : is_name_char b = true → is_matchspec_delimiter b = false.
Proof.
  unfold is_name_char, is_matchspec_delimiter, is_ascii_whitespace,
    is_ascii_lowercase, is_ascii_uppercase, is_ascii_digit.
  rewrite !orb_true_iff, !andb_true_iff, !N.leb_le, bool_decide_eq_true. intros H.
  apply orb_false_iff. rewrite !bool_decide_eq_false.
  rewrite !elem_of_cons, !elem_of_nil in *. lia.
Qed.

Lemma scan_loop_name h s rest :
  forallb is_name_char s = true → ends_name rest = true →
  (scan_loop h (s ++ rest)).1 = s.
Proof.
  revert h. induction s as [|c s IH]; intros h Hs Hr; simpl in *.
  { destruct rest as [|b rest]; [done|]. simpl in *. by rewrite Hr. }
  apply andb_true_iff in Hs as [Hc Hs]. rewrite name_char_not_delimiter by done.
  specialize (IH (h || is_ascii_uppercase c) Hs Hr). destruct (scan_loop _ _). simpl in *. by subst.
Qed.

(** Scanning a match spec recovers the package name it starts with.  For
    every valid name [s], and whatever follows it from a delimiter on,
    [from_matchspec_str] is the name [try_from] builds from [s], the unchecked
    conversion is the same name, and the normalised name it hands out, with or
    without building a [PackageName], is the lower-case form of [s]. *)
Theorem package_name_scan (s rest : list N) (p : PackageName)
  (Hs : package_name_try_from s = Ok p) (Hrest : ends_name rest = true) :
  from_matchspec_str (s ++ rest) = Ok p
  ∧ from_matchspec_str_unchecked (s ++ rest) = p
  ∧ normalized_name_from_matchspec_str (s ++ rest) = as_normalized p
  ∧ as_normalized p = to_ascii_lowercase s ∧ as_source p = s.
Proof.
  assert (forallb is_name_char s = true) as Hc
    by (unfold package_name_try_from in Hs; by destruct (forallb is_name_char s)).
  pose proof (scan_loop_name false s rest Hc Hrest) as Hscan.
  pose proof (try_from_normalized s p Hs) as [Hnorm Hsrc].
  split; [by unfold from_matchspec_str, name_from_matchspec_str, scan_matchspec_name; rewrite Hscan|].
  split; [|split; [|by split]].
  - unfold from_matchspec_str_unchecked, scan_matchspec_name.
    pose proof (scan_loop_spec false (s ++ rest)) as H.
    destruct (scan_loop false (s ++ rest)) as [name upper]. simpl in *. subst name.
    destruct H as (-> & _). unfold package_name_try_from in Hs. rewrite Hc in Hs. simpl in Hs.
    by injection Hs.
  - rewrite normalized_name_eq. unfold name_from_matchspec_str, scan_matchspec_name. by rewrite Hscan.
Qed.

(** [Pillow >=9] *)
Lemma package_name_scan_witness :
  package_name_try_from (txt "Pillow") = Ok (mkPackageName (Some (txt "pillow")) (txt "Pillow"))
  ∧ from_matchspec_str (txt "Pillow >=9") = Ok (mkPackageName (Some (txt "pillow")) (txt "Pillow")).
Proof.
  split; [reflexivity|].
  exact (proj1 (package_name_scan (txt "Pillow") (txt " >=9")
    (mkPackageName (Some (txt "pillow")) (txt "Pillow")) eq_refl eq_refl)).
Defined.

(** [Eq], [Ord] and [Hash] of package names agree with each other.  The
    ordering is a total preorder whose [Equal] is the equality, equal names hash
    alike, and parsed names are equal exactly when their sources agree up to the
    case of ASCII letters. *)
Theorem package_name_order :
  TotalPreorder package_name_cmp
  ∧ (∀ a b, package_name_cmp a b = Eq ↔ package_name_eqb a b = true)
  ∧ (∀ a b, package_name_eqb a b = true ↔ package_name_hash a = package_name_hash b)
  ∧ (∀ s t a b, package_name_try_from s = Ok a → package_name_try_from t = Ok b →
       package_name_eqb a b = eq_ignore_ascii_case s t).
Proof.
  split; [exact (on_key_preorder as_normalized str_cmp _)|]. split; [|split].
  - intros a b. unfold package_name_cmp, package_name_eqb.
    by rewrite (cmp_eq_iff str_cmp), bool_decide_eq_true.
  - intros a b. unfold package_name_eqb, package_name_hash. by rewrite bool_decide_eq_true.
  - intros s t a b [Ha _]%try_from_normalized [Hb _]%try_from_normalized.
    unfold package_name_eqb, eq_ignore_ascii_case. by rewrite Ha, Hb.
Qed.

(** ** The topological sort *)

(** The dependency relation among the records of a list. *)
Abbreviation needs packages := (depends_on (packages_by_name packages)).

(** C35: the sort always returns, and returns every package exactly once.
    Whatever the records (cycles, unknown dependencies, repeated names), no index,
    [unwrap] or loop of it fails; the output has one record per name, the last one
    given; and it is a permutation of the input when the names are distinct. *)
Theorem sort_topologically_permutation (packages : list PackageRecord) :
  ∃ out, sort_topologically packages = Some out
    ∧ NoDup (record_name <$> out)
    ∧ (∀ r, r ∈ out ↔ packages_by_name packages !! record_name r = Some r)
    ∧ (NoDup (record_name <$> packages) → out ≡ₚ packages).
Proof.
  destruct (sort_topologically_spec packages) as (_ & _ & out & _ & _ & _ & _ & E & Hn & Hin & _).
  exists out. split; [done|]. split; [done|]. split; [done|]. intros Hp.
  apply NoDup_Permutation; [by eapply NoDup_fmap_1..|]. intros r. rewrite Hin. split.
  - apply packages_by_name_elem.
  - by apply packages_by_name_lookup.
Qed.

(** [b] depends on [a] and on a virtual package; [a] depends on [b]. *)
Definition sample_packages : list PackageRecord :=
  [mkPackageRecord (package_name_new_unchecked (txt "b")) [txt "A >=1"; txt "__unix"] None;
   mkPackageRecord (package_name_new_unchecked (txt "a")) [txt "b"] (Some Python)].

Lemma sort_topologically_permutation_witness :
  ∃ out, sort_topologically sample_packages = Some out ∧ out ≡ₚ sample_packages.
Proof.
  destruct (sort_topologically_permutation sample_packages) as (out & E & _ & _ & H).
  exists out. split; [exact E|]. apply H. by apply (bool_decide_unpack _).
Defined.

(** C34: dependencies come first.  In the output every dependency that is among
    the packages stands before its dependent, except when it depends,
    transitively, on that dependent itself: only dependencies inside a cycle can
    come late.  In particular, without cycles the output is a topological order. *)
Theorem sort_topologically_order (packages out l1 l2 : list PackageRecord) (r : PackageRecord)
  (d : list N)
  (Hout : sort_topologically packages = Some out) (Hsplit : out = l1 ++ r :: l2)
  (Hd : d ∈ record_depends r) (Hknown : d ∈ record_name <$> packages) :
  d ∈ record_name <$> l1 ∨ rtc (needs packages) d (record_name r).
Proof.
  destruct (sort_topologically_spec packages)
    as (cycles & breaks & out' & _ & Hc & _ & Hb & E & _ & Hin & H).
  rewrite Hout in E. injection E as <-.
  destruct (decide ((record_name r, d) ∈ breaks)) as [Hbr|Hbr].
  - right. destruct (Hb _ Hbr) as (c & Hcc & Hr1 & Hd1). simpl in *.
    rewrite Forall_forall in Hc. apply tc_rtc.
    by apply (cycle_connected _ c d (record_name r)); [apply Hc|..].
  - destruct (H l1 r l2 d Hsplit Hd Hbr) as [|]; [by apply packages_by_name_dom|by left|right].
    by eapply edge_depends.
Qed.

Lemma sort_topologically_order_witness :
  let a := mkPackageRecord (package_name_new_unchecked (txt "a")) [txt "Python>=3"] None in
  let python := mkPackageRecord (package_name_new_unchecked (txt "python")) [] None in
  sort_topologically [a; python] = Some [python; a]
  ∧ (txt "python" ∈ record_name <$> [python]
     ∨ rtc (needs [a; python]) (txt "python") (txt "a")).
Proof.
  intros a python. split; [vm_compute; reflexivity|].
  apply (sort_topologically_order [a; python] [python; a] [python] [] a (txt "python")).
  - vm_compute; reflexivity.
  - reflexivity.
  - by apply (bool_decide_unpack _).
  - by apply (bool_decide_unpack _).
Defined.

(** C36: the search finds a cycle exactly when there is one.  The search returns;
    every list it reports is a cycle of the dependency graph; and it reports none
    exactly when no package depends on itself, directly or through others. *)
Theorem find_all_cycles_correct (packages : gmap (list N) PackageRecord) :
  ∃ cycles, find_all_cycles packages = Some cycles
    ∧ Forall (is_cycle packages) cycles
    ∧ (cycles = [] ↔ ∀ x, ¬ tc (depends_on packages) x x).
Proof.
  destruct (find_all_cycles_spec packages) as (cycles & E & Hc & Hwf).
  exists cycles. split; [done|]. split; [done|]. split.
  - intros Hn x. apply well_founded_irrefl. by apply Hwf.
  - intros Hac. destruct (acyclic_breaks packages Hac). congruence.
Qed.

(** The documented determinism, for the order of the packages: with distinct
    names the result is the same list for every order of the input. *)
Theorem sort_topologically_deterministic (packages packages' : list PackageRecord)
  (Hnames : NoDup (record_name <$> packages)) (Hperm : packages ≡ₚ packages') :
  sort_topologically packages = sort_topologically packages'.
Proof.
  unfold sort_topologically. rewrite (packages_by_name_perm packages packages') by done.
  destruct (find_all_cycles _) as [cycles|]; [|done]. simpl.
  destruct (break_cycles _ _) as [breaks|]; [|done]. simpl.
  by rewrite (get_graph_roots_perm packages packages').
Qed.

Lemma sort_topologically_deterministic_witness :
  NoDup (record_name <$> sample_packages)
  ∧ sort_topologically sample_packages = sort_topologically (reverse sample_packages).
Proof.
  split; [by apply (bool_decide_unpack _)|].
  apply (sort_topologically_deterministic sample_packages (reverse sample_packages)).
  - by apply (bool_decide_unpack _).
  - symmetry. apply reverse_Permutation.
Defined.

(** The documented determinism, for the order of the [depends] vectors, holds
    without cycles: permuting the dependencies inside the records permutes
    nothing in the output. *)
Theorem sort_topologically_depends_order (packages packages' : list PackageRecord)
  (Hsame : Forall2 same_record packages packages')
  (Hacyclic : ∀ x, ¬ tc (needs packages) x x) :
  ∃ out out', sort_topologically packages = Some out ∧ sort_topologically packages' = Some out'
    ∧ Forall2 same_record out out' ∧ record_name <$> out = record_name <$> out'.
Proof.
  pose proof (packages_by_name_same _ _ Hsame) as Hm.
  assert (∀ x, ¬ tc (needs packages') x x) as Hacyclic'.
  { intros x Hx. apply (Hacyclic x). by apply (tc_depends_same _ _ _ _ (same_map_sym _ _ Hm)). }
  destruct (sort_topologically_spec packages) as (_ & _ & out & _ & _ & _ & _ & E & _).
  destruct (sort_topologically_spec packages') as (_ & _ & out' & _ & _ & _ & _ & E' & _).
  exists out, out'. split; [done|]. split; [done|].
  assert (Forall2 same_record out out') as Hout.
  { unfold sort_topologically in E, E'.
    destruct (acyclic_breaks _ Hacyclic) as [Hf Hb]. rewrite Hf in E. simpl in E.
    destruct (acyclic_breaks _ Hacyclic') as [Hf' Hb']. rewrite Hf' in E'. simpl in E'.
    rewrite <-(get_graph_roots_same _ _ _ Hsame) in E'.
    by eapply get_topological_order_same. }
  split; [done|]. clear -Hout. induction Hout as [|r r' o o' Hr _ IH]; csimpl; [done|].
  by rewrite (same_record_name _ _ Hr), IH.
Qed.

Lemma sort_topologically_depends_order_witness :
  let mk name deps := mkPackageRecord (package_name_new_unchecked (txt name)) deps None in
  let packages := [mk "a"%string [txt "c"; txt "b"]; mk "b"%string []; mk "c"%string [txt "b"]] in
  let packages' := [mk "a"%string [txt "b"; txt "c"]; mk "b"%string []; mk "c"%string [txt "b"]] in
  ∃ out out', sort_topologically packages = Some out ∧ sort_topologically packages' = Some out'
    ∧ Forall2 same_record out out' ∧ record_name <$> out = record_name <$> out'.
Proof.
  intros rec packages packages'. apply (sort_topologically_depends_order packages packages').
  - apply Forall2_cons_2; [split; [reflexivity|apply perm_swap|reflexivity]|].
    apply Forall2_cons_2; [by split|]. apply Forall2_cons_2; [by split|]. apply Forall2_nil_2.
  - intros x. apply no_cycles_acyclic. vm_compute. reflexivity.
Defined.

(** *** Where the documentation and the code part *)

(** The documentation promises the noarch package of a cycle after the others.  In
    the cycle [a -> b -> c -> a] with only [a] noarch the removed edge is [(b, a)],
    which is not an edge of the graph: the cycle is not broken, and [a] comes out
    before [c]. *)
Lemma noarch_not_last :
  let mk name deps noarch := mkPackageRecord (package_name_new_unchecked (txt name)) deps noarch in
  let a := mk "a"%string [txt "b"] (Some Python) in
  let b := mk "b"%string [txt "c"] None in
  let c := mk "c"%string [txt "a"] None in
  break_cycles [[txt "a"; txt "b"; txt "c"]] (packages_by_name [a; b; c])
    = Some {[(txt "b", txt "a")]}
  ∧ sort_topologically [a; b; c] = Some [b; a; c].
Proof. split; vm_compute; reflexivity. Qed.

(** The documentation promises a result that does not depend on the order of
    [depends]: in a graph with a cycle it does. *)
Lemma depends_order_matters :
  let mk name deps := mkPackageRecord (package_name_new_unchecked (txt name)) deps None in
  let b := mk "b"%string [txt "c"] in
  let c := mk "c"%string [txt "b"] in
  let a1 := mk "a"%string [txt "c"; txt "b"] in
  let a2 := mk "a"%string [txt "b"; txt "c"] in
  sort_topologically [a1; b; c] = Some [c; b; a1]
  ∧ sort_topologically [a2; b; c] = Some [b; c; a2].
Proof. split; vm_compute; reflexivity. Qed.
