(* ===== verification/PathTrie.v ===== *)
(** * The trie of paths

    [path_resolver/src/lib.rs]: the nodes of the trie that records which packages
    own which relative paths, and the functions that read and change a node.

    A [Path] is the list of its components, each as the [OsStr] it stands for:
    [Eq], [Ord] and [Hash] of paths look at nothing else.  The children of a node
    and the sets of packages are hash tables, whose iteration order Rust leaves
    open; the functions below visit them in the order of the finite maps that
    model them, and what is proved about the lists they collect is about their
    elements. *)
From S2P Require Import Prelude.

(** ** Definitions *)

(** [PackageName(Arc<str>)] of this crate. *)
Abbreviation owner := (list N) (only parsing).
Abbreviation path := (list (list N)) (only parsing).

(** [Path::is_relative]: the first component is not the root. *)
Definition is_relative (p : list (list N)) : bool := bool_decide (head p ≠ Some (txt "/")).

(** One node of the trie. *)
Inductive PathTrieNode : Type := mkNode {
  prefixes : gset (list N);
  terminals : gset (list N);
  children : gmap (list N) PathTrieNode
}.

Definition node_default : PathTrieNode := mkNode ∅ ∅ ∅.

(** [insert_file_owned], below the assertion on the path. *)
Fixpoint insert_at (path : list (list N)) (package : list N) (node : PathTrieNode) : PathTrieNode :=
  match path with
  | [] => mkNode ({[package]} ∪ prefixes node) ({[package]} ∪ terminals node) (children node)
  | comp :: path' =>
      mkNode ({[package]} ∪ prefixes node) (terminals node)
        (<[comp := insert_at path' package (default node_default (children node !! comp))]>
           (children node))
  end.

(** [insert_file_owned]: panics on an absolute path. *)
Definition insert_file_owned (path : list (list N)) (package : list N) (root : PathTrieNode)
  : option PathTrieNode :=
  if is_relative path then Some (insert_at path package root) else None.

(** [get_node] *)
Fixpoint get_node (root : PathTrieNode) (path : list (list N)) : option PathTrieNode :=
  match path with
  | [] => Some root
  | comp :: path' => cur ← children root !! comp; get_node cur path'
  end.

(** Changing in place the node [get_node_mut] finds; nothing when there is none. *)
Fixpoint with_node_mut (f : PathTrieNode → PathTrieNode) (path : list (list N))
    (root : PathTrieNode) : PathTrieNode :=
  match path with
  | [] => f root
  | comp :: path' =>
      match children root !! comp with
      | None => root
      | Some c =>
          mkNode (prefixes root) (terminals root) (<[comp := with_node_mut f path' c]> (children root))
      end
  end.

Fixpoint propagate_prefix (package_name : list N) (node : PathTrieNode) : PathTrieNode :=
  mkNode ({[package_name]} ∪ prefixes node) (terminals node)
    ((λ child, propagate_prefix package_name child) <$> children node).

(** [rm] of [unregister_package] *)
Fixpoint rm (pkg : list N) (n : PathTrieNode) : PathTrieNode :=
  mkNode (prefixes n ∖ {[pkg]}) (terminals n ∖ {[pkg]}) ((λ child, rm pkg child) <$> children n).

(** [prune] of [unregister_package]: the node after [retain], and the result. *)
Fixpoint prune (n : PathTrieNode) : PathTrieNode * bool :=
  let kept := omap (λ c, let '(c', empty) := prune c in if empty : bool then None else Some c')
                (children n) in
  (mkNode (prefixes n) (terminals n) kept,
   bool_decide (prefixes n = ∅) && bool_decide (terminals n = ∅) && bool_decide (kept = ∅)).

(** [self.root.children.retain(|_, c| !prune(c))] *)
Definition prune_children (n : PathTrieNode) : PathTrieNode :=
  mkNode (prefixes n) (terminals n)
    (omap (λ c, let '(c', empty) := prune c in if empty : bool then None else Some c') (children n)).

(** ** Induction and extensionality *)
Fixpoint node_size (n : PathTrieNode) : nat :=
  S (map_fold (λ _ c size, node_size c + size) 0 (children n)).

Lemma node_size_child n comp c : children n !! comp = Some c → node_size c < node_size n.
Proof.
  destruct n as [P T cs]. simpl. intros Hc. apply Nat.lt_succ_r. revert Hc.
  apply (map_fold_weak_ind (λ size m, m !! comp = Some c → node_size c ≤ size)); [done|].
  intros i d m size _ IH [[-> ->]|[_ H]]%lookup_insert_Some; [lia|]. specialize (IH H). lia.
Qed.

(** A property that goes up from the children of a node holds of every node. *)
Lemma node_ind (P : PathTrieNode → Prop) :
  (∀ n, (∀ comp c, children n !! comp = Some c → P c) → P n) → ∀ n, P n.
Proof.
  intros H n. induction n as [n IH] using (induction_ltof1 _ node_size).
  apply H. intros comp c Hc. apply IH. by eapply node_size_child.
Qed.

(** What a node holds, at every path below it. *)
Definition look (n : PathTrieNode) (q : list (list N)) : option (gset (list N) * gset (list N)) :=
  (λ m, (prefixes m, terminals m)) <$> get_node n q.

Lemma look_nil n : look n [] = Some (prefixes n, terminals n).
Proof. done. Qed.

Lemma look_cons n c q : look n (c :: q) = (children n !! c) ≫= λ m, look m q.
Proof. unfold look. simpl. by destruct (children n !! c). Qed.

Lemma look_app n q r m : get_node n q = Some m → look n (q ++ r) = look m r.
Proof.
  revert n. induction q as [|c q IH]; intros n; simpl; [by intros [= ->]|].
  rewrite look_cons. destruct (children n !! c); [apply IH|done].
Qed.

Lemma look_app_None n q r : look n q = None → look n (q ++ r) = None.
Proof.
  revert n. induction q as [|c q IH]; intros n; [done|]. simpl. rewrite !look_cons.
  destruct (children n !! c); [apply IH|done].
Qed.

Lemma look_default q : q ≠ [] → look node_default q = None.
Proof. destruct q; [done|]. intros _. by rewrite look_cons. Qed.

(** [entry(comp).or_default()]: a missing child holds nothing. *)
Lemma look_entry n c q :
  look (default node_default (children n !! c)) q = look n (c :: q)
  ∨ q = [] ∧ look n (c :: q) = None
    ∧ look (default node_default (children n !! c)) q = Some (∅, ∅).
Proof.
  rewrite look_cons. destruct (children n !! c) as [m|]; simpl; [by left|].
  destruct q as [|d q]; [by right|left; by rewrite look_default].
Qed.

(** Nodes that hold the same at every path are the same trie. *)
Lemma trie_ext n m : (∀ q, look n q = look m q) → n = m.
Proof.
  revert m. induction n as [n IH] using node_ind. intros m H.
  pose proof (H []) as H0. rewrite !look_nil in H0. injection H0 as HP HT.
  assert (children n = children m) as Hc.
  { apply map_eq. intros c. pose proof (λ q, H (c :: q)) as Hq. setoid_rewrite look_cons in Hq.
    destruct (children n !! c) as [a|] eqn:Ea, (children m !! c) as [b|] eqn:Eb; simpl in Hq.
    - f_equal. by apply (IH c a).
    - specialize (Hq []). by rewrite look_nil in Hq.
    - specialize (Hq []). by rewrite look_nil in Hq.
    - done. }
  destruct n, m; simpl in *; by subst.
Qed.

(** ** What the operations do to every path *)
Lemma look_insert_at p k n q :
  look (insert_at p k n) q =
  if decide (q `prefix_of` p) then
    let '(P, T) := default (∅, ∅) (look n q) in
    Some ({[k]} ∪ P, if decide (q = p) then {[k]} ∪ T else T)
  else look n q.
Proof.
  revert n q. induction p as [|c p IH]; intros n [|d q].
  - rewrite look_nil. by rewrite decide_True by done.
  - rewrite decide_False by (intros H; by apply prefix_nil_not in H || inversion H). by rewrite !look_cons.
  - rewrite decide_True by apply prefix_nil. done.
  - rewrite (look_cons (insert_at _ _ _)). simpl. destruct (decide (c = d)) as [->|Hne].
    + rewrite lookup_insert_eq. simpl. rewrite IH.
      rewrite (decide_ext (d :: q `prefix_of` d :: p) (q `prefix_of` p))
        by (split; [apply prefix_cons_inv_2|apply prefix_cons]).
      destruct (look_entry n d q) as [->|(-> & -> & ->)].
      * destruct (decide (q `prefix_of` p)) as [|Hq]; [|done].
        destruct (default _ _) as [P T]. by rewrite (decide_ext (d :: q = d :: p) (q = p)) by naive_solver.
      * rewrite decide_True by apply prefix_nil. simpl.
        by rewrite (decide_ext ([d] = d :: p) ([] = p)) by naive_solver.
    + rewrite lookup_insert_ne, <-look_cons by done.
      rewrite decide_False by (intros H; by apply prefix_cons_inv_1 in H). done.
Qed.

Lemma look_rm k n q : look (rm k n) q = prod_map (.∖ {[k]}) (.∖ {[k]}) <$> look n q.
Proof.
  revert q. induction n as [n IH] using node_ind. intros [|c q]; [by destruct n|].
  rewrite !look_cons. destruct n as [P T cs]. simpl in *. rewrite lookup_fmap.
  destruct (cs !! c) as [m|] eqn:E; simpl; [by apply (IH c)|done].
Qed.

Lemma look_propagate k n q : look (propagate_prefix k n) q = prod_map ({[k]} ∪.) id <$> look n q.
Proof.
  revert q. induction n as [n IH] using node_ind. intros [|c q]; [by destruct n|].
  rewrite !look_cons. destruct n as [P T cs]. simpl in *. rewrite lookup_fmap.
  destruct (cs !! c) as [m|] eqn:E; simpl; [by apply (IH c)|done].
Qed.

Lemma look_propagate_at k p n q :
  look (with_node_mut (propagate_prefix k) p n) q =
  if decide (p `prefix_of` q) then prod_map ({[k]} ∪.) id <$> look n q else look n q.
Proof.
  revert n q. induction p as [|c p IH]; intros n q.
  { rewrite decide_True by apply prefix_nil. simpl. apply look_propagate. }
  simpl. destruct (children n !! c) as [m|] eqn:E.
  - destruct q as [|d q].
    { rewrite decide_False by (intros H; by apply prefix_nil_not in H || inversion H). done. }
    rewrite !look_cons. simpl. destruct (decide (c = d)) as [->|Hne].
    + rewrite lookup_insert_eq, E. simpl. rewrite IH.
      by rewrite (decide_ext (d :: p `prefix_of` d :: q) (p `prefix_of` q))
        by (split; [apply prefix_cons_inv_2|apply prefix_cons]).
    + rewrite lookup_insert_ne by done.
      rewrite decide_False by (intros H; by apply prefix_cons_inv_1 in H). done.
  - destruct (decide _) as [[r ->]|]; [|done]. simpl. by rewrite look_cons, E.
Qed.

(** A node is live when a package touches it or something below it. *)
Definition touched (v : gset (list N) * gset (list N)) : Prop := v.1 ≠ ∅ ∨ v.2 ≠ ∅.
Definition live (n : PathTrieNode) (q : list (list N)) : Prop :=
  ∃ r v, look n (q ++ r) = Some v ∧ touched v.

Lemma live_cons n c q : live n (c :: q) ↔ ∃ m, children n !! c = Some m ∧ live m q.
Proof.
  unfold live. simpl. setoid_rewrite look_cons. split.
  - intros (r & v & H & Hv). destruct (children n !! c) as [m|]; [|done]. by exists m; eauto.
  - intros (m & -> & r & v & H & Hv). by exists r, v.
Qed.

Lemma prune_fst n : (prune n).1 = prune_children n.
Proof. by destruct n. Qed.

(** Pruning a node says whether it is dead. *)
Lemma prune_snd n : (prune n).2 = false ↔ live n [].
Proof.
  induction n as [n IH] using node_ind. destruct n as [P T cs]. simpl in *.
  rewrite !andb_false_iff, !bool_decide_eq_false. split.
  - intros [[H|H]|H].
    + exists [], (P, T). split; [done|by left].
    + exists [], (P, T). split; [done|by right].
    + apply map_choose in H as (c & m' & H). apply lookup_omap_Some in H as (m & Hm & Hc).
      destruct (prune m) as [m'' []] eqn:Ep; [done|].
      destruct (IH c m Hc) as [Hl _]. rewrite Ep in Hl. destruct (Hl eq_refl) as (r & v & ? & ?).
      exists (c :: r), v. split; [|done]. simpl. rewrite look_cons. simpl. by rewrite Hc.
  - intros (r & v & Hr & Hv). destruct r as [|c r].
    { simpl in Hr. rewrite look_nil in Hr. injection Hr as <-. by left. }
    right. simpl in Hr. rewrite look_cons in Hr. simpl in Hr.
    destruct (cs !! c) as [m|] eqn:Ec; [|done]. simpl in Hr.
    destruct (prune m) as [m' b] eqn:Ep.
    assert (b = false) as -> by (pose proof (IH c m Ec) as [_ H]; rewrite Ep in H; apply H; by exists r, v).
    intros Hempty. apply (f_equal (.!! c)) in Hempty.
    rewrite lookup_omap, Ec in Hempty. simpl in Hempty. by rewrite Ep in Hempty.
Qed.

Lemma look_prune n q v :
  look (prune_children n) q = Some v ↔ look n q = Some v ∧ (q = [] ∨ live n q).
Proof.
  revert q v. induction n as [n IH] using node_ind. intros [|c q] v.
  { rewrite !look_nil. destruct n. simpl. naive_solver. }
  rewrite !look_cons. unfold prune_children at 1. simpl. rewrite lookup_omap, live_cons.
  destruct (children n !! c) as [m|] eqn:Ec; simpl; [|naive_solver].
  pose proof (prune_snd m) as Hs. pose proof (prune_fst m) as Hf.
  destruct (prune m) as [m' b]. simpl in *. subst m'. destruct b; simpl.
  - split; [done|]. intros [Hv [?|(? & [= <-] & r & w & Hl & Hw)]]; [done|].
    assert (true = false) by (apply Hs; exists (q ++ r), w; done). done.
  - rewrite (IH c m Ec). split.
    + intros [Hv Hq]. split; [done|]. right. exists m. split; [done|].
      destruct Hq as [->|]; [by apply Hs|done].
    + intros [Hv [?|(? & [= <-] & Hl)]]; [done|]. auto.
Qed.
