(* ===== verification/PathResolver.v ===== *)
(** * The path resolver

    [path_resolver/src/lib.rs]: the operations of [PathResolver] on the trie of
    PathTrie.v and on the packages in order of priority. *)
From stdpp Require Import sorting.
From S2P Require Import Prelude PathTrie.

(** ** Definitions *)

(** *** Paths as ordered values *)

(** [str::split('/')] *)
Fixpoint split_slash (s : list N) : list (list N) :=
  match s with
  | [] => [[]]
  | c :: s' =>
      if (c =? 47)%N then [] :: split_slash s'
      else match split_slash s' with
           | [] => [[c]]
           | piece :: rest => (c :: piece) :: rest
           end
  end.

(** [Path::components] on Unix: empty components and [.] disappear, except for a
    [.] that starts a relative path. *)
Definition path_components (s : list N) : list (list N) :=
  let keep := filter (λ piece, piece ≠ [] ∧ piece ≠ txt ".") in
  if bool_decide (head s = Some 47%N) then txt "/" :: keep (split_slash s)
  else match split_slash s with
       | piece :: rest => if bool_decide (piece = txt ".") then piece :: keep rest
                          else keep (piece :: rest)
       | [] => []
       end.

(** [Ord for Component]: the root, then [.], then [..], then the other names. *)
Definition component_rank (c : list N) : N :=
  if bool_decide (c = txt "/") then 0 else if bool_decide (c = txt ".") then 1
  else if bool_decide (c = txt "..") then 2 else 3.
Definition component_cmp (a b : list N) : comparison :=
  then_with (N.compare (component_rank a) (component_rank b)) (str_cmp a b).
Definition path_cmp : list (list N) → list (list N) → comparison := list_cmp component_cmp.

(** [BTreeSet::insert], on the sorted list of the elements. *)
Fixpoint btree_insert (p : list (list N)) (l : list (list (list N))) : list (list (list N)) :=
  match l with
  | [] => [p]
  | q :: l' =>
      match path_cmp p q with
      | Lt => p :: q :: l'
      | Eq => q :: l'
      | Gt => q :: btree_insert p l'
      end
  end.

(** *** Packages *)
Record PathResolver := mkPathResolver {
  root : PathTrieNode;
  packages : list (list N)   (* an [IndexSet]: no repetition, highest priority first *)
}.

Definition path_resolver_new : PathResolver := mkPathResolver node_default [].

(** [IndexSet::insert] *)
Definition indexset_insert (x : list N) (l : list (list N)) : list (list N) :=
  if bool_decide (x ∈ l) then l else l ++ [x].

(** The elements after [x], [get_range(get_index_of(x) + 1..)]. *)
Fixpoint after (x : list N) (l : list (list N)) : list (list N) :=
  match l with
  | [] => []
  | y :: l' => if bool_decide (y = x) then l' else after x l'
  end.

(** The first element of a list that a set holds, as the [for] loop over the
    candidates and [iter().find] compute it. *)
Fixpoint first_in (s : gset (list N)) (l : list (list N)) : option (list N) :=
  match l with
  | [] => None
  | x :: l' => if bool_decide (x ∈ s) then Some x else first_in s l'
  end.

Abbreviation Change := (list (list N) * list N)%type (only parsing).

(** *** [insert_package] *)

(** The walk that looks for conflicts: the node at the path, and whether a file
    blocks a directory of it. *)
Fixpoint find_target (current_node : PathTrieNode) (components : list (list N))
  : option PathTrieNode * bool :=
  match components with
  | [] => (None, false)
  | comp :: rest =>
      let is_last := bool_decide (rest = []) in
      match children current_node !! comp with
      | Some node =>
          if negb is_last && negb (bool_decide (terminals node = ∅)) then (None, true)
          else if is_last then (Some node, false)
          else find_target node rest
      | None => (None, false)
      end
  end.

(** One round of the first loop, over [(conflicts, dir_inserts)]. *)
Definition detect_conflict (root : PathTrieNode)
    (acc : list (list (list N)) * list (list (list N))) (p : list (list N))
  : list (list (list N)) * list (list (list N)) :=
  let '(conflicts, dir_inserts) := acc in
  let '(found_node, has_conflict) := find_target root p in
  let conflicts := if has_conflict then btree_insert p conflicts else conflicts in
  match found_node with
  | Some n =>
      if negb has_conflict then
        if negb (bool_decide (terminals n = ∅)) then (btree_insert p conflicts, dir_inserts)
        else if negb (bool_decide (children n = ∅)) then
          (btree_insert p conflicts, dir_inserts ++ [p])
        else (conflicts, dir_inserts)
      else (conflicts, dir_inserts)
  | None => (conflicts, dir_inserts)
  end.

Definition insert_package (r : PathResolver) (package : list N) (paths : list (list (list N)))
  : option (PathResolver * list (list (list N))) :=
  let packages := indexset_insert package (packages r) in
  let '(conflicts, dir_inserts) := foldl (detect_conflict (root r)) ([], []) paths in
  root ← for_opt paths (λ p root, insert_file_owned p package root) (root r);
  let root := foldl (λ root pbuf, with_node_mut (propagate_prefix package) pbuf root)
                root dir_inserts in
  Some (mkPathResolver root packages, conflicts).

(** *** [unregister_package] *)
Fixpoint collect_next_candidate_paths (package : list N) (candidates : list (list N))
    (n : PathTrieNode) (path : list (list N)) (under_removed : bool)
    (to_add : list (list (list N) * list N)) : list (list (list N) * list N) :=
  let removed_here := bool_decide (package ∈ terminals n) in
  let prefix_here := bool_decide (package ∈ prefixes n) in
  let active := under_removed || removed_here || prefix_here in
  if negb active then to_add
  else
    let to_add := match first_in (terminals n) candidates with
                  | Some candidate => to_add ++ [(path, candidate)]
                  | None => to_add
                  end in
    let next_under := under_removed || removed_here in
    map_fold (λ comp child to_add,
        collect_next_candidate_paths package candidates child (path ++ [comp]) next_under to_add)
      to_add (children n).

Definition unregister_package (r : PathResolver) (package : list N)
  : PathResolver * (list (list (list N) * list N) * list (list (list N) * list N)) :=
  if bool_decide (package ∉ packages r) then (r, ([], []))
  else
    let candidates := after package (packages r) in
    let from_clobbers := collect_next_candidate_paths package candidates (root r) [] false [] in
    let packages := filter (λ p, p ≠ package) (packages r) in
    let root := prune_children (rm package (root r)) in
    (mkPathResolver root packages, ([], from_clobbers)).

(** *** [reprioritize_packages] *)
Definition usize_max : N := u64_max.

(** [rank]: the position of every package; a later one replaces an earlier one. *)
Definition rank (order : list (list N)) : gmap (list N) N :=
  foldl (λ m iv, <[iv.2 := iv.1]> m) ∅ (imap (λ i v, (N.of_nat i, v)) order).

(** [Iterator::max_by_key]: the last of the largest. *)
Definition max_by_key (key : list N → N) (l : list (list N)) : option (list N) :=
  foldl (λ best x, match best with
                   | None => Some x
                   | Some b => if (key x <? key b)%N then Some b else Some x
                   end) None l.

(** [n.prefixes.iter().max_by_key(|p| rank.get(p).copied().unwrap_or(usize::MAX))] *)
Definition winner (rank : gmap (list N) N) (n : PathTrieNode) : option (list N) :=
  max_by_key (λ p, default usize_max (rank !! p)) (elements (prefixes n)).

Fixpoint collect_removed_subtree (old_rank : gmap (list N) N) (n : PathTrieNode)
    (cur : list (list N)) (to_clobbers : list (list (list N) * list N))
  : list (list (list N) * list N) :=
  let to_clobbers :=
    match winner old_rank n with
    | Some p => if bool_decide (p ∈ terminals n) then to_clobbers ++ [(cur, p)] else to_clobbers
    | None => to_clobbers
    end in
  map_fold (λ comp child to_clobbers,
      collect_removed_subtree old_rank child (cur ++ [comp]) to_clobbers)
    to_clobbers (children n).

Fixpoint collect_new_winners (new_rank : gmap (list N) N) (n : PathTrieNode)
    (cur : list (list N)) (from_clobbers : list (list (list N) * list N))
  : list (list (list N) * list N) :=
  match winner new_rank n with
  | Some p =>
      if bool_decide (p ∈ terminals n) then from_clobbers ++ [(cur, p)]
      else map_fold (λ comp child from_clobbers,
             collect_new_winners new_rank child (cur ++ [comp]) from_clobbers)
             from_clobbers (children n)
  | None => from_clobbers
  end.

(** [dfs] of [reprioritize_packages], over [(to_clobbers, from_clobbers)]. *)
Fixpoint reprioritize_dfs (old_rank new_rank : gmap (list N) N) (n : PathTrieNode)
    (cur : list (list N)) (acc : list (list (list N) * list N) * list (list (list N) * list N))
  : list (list (list N) * list N) * list (list (list N) * list N) :=
  let file w := match w with
                | Some p => if bool_decide (p ∈ terminals n) then Some p else None
                | None => None
                end in
  match file (winner old_rank n), file (winner new_rank n) with
  | Some old, Some new =>
      if bool_decide (old ≠ new) then (acc.1 ++ [(cur, old)], acc.2 ++ [(cur, new)]) else acc
  | None, Some new =>
      (collect_removed_subtree old_rank n cur acc.1, acc.2 ++ [(cur, new)])
  | Some old, None =>
      (acc.1 ++ [(cur, old)], collect_new_winners new_rank n cur acc.2)
  | None, None =>
      map_fold (λ comp child acc, reprioritize_dfs old_rank new_rank child (cur ++ [comp]) acc)
        acc (children n)
  end.

(** Panics when [new_order] is not a reordering of the packages. *)
Definition reprioritize_packages (r : PathResolver) (new_order : list (list N))
  : option (PathResolver * (list (list (list N) * list N) * list (list (list N) * list N))) :=
  let is_reordering :=
    bool_decide (length (packages r) = length new_order)
    && bool_decide (list_to_set (packages r) =@{gset _} list_to_set new_order) in
  if negb is_reordering then None
  else
    let old_rank := rank (reverse (packages r)) in
    let new_rank := rank new_order in
    let changes := reprioritize_dfs old_rank new_rank (root r) [] ([], []) in
    Some (mkPathResolver (root r) (foldl (λ l p, indexset_insert p l) [] (reverse new_order)), changes).

(** *** Queries *)
Definition packages_for_prefix (r : PathResolver) (path : list (list N)) : option (gset (list N)) :=
  prefixes <$> get_node (root r) path.
Definition packages_for_exact (r : PathResolver) (path : list (list N)) : option (gset (list N)) :=
  terminals <$> get_node (root r) path.

(** [dfs] of [find_conflicts] *)
Fixpoint conflicts_dfs (n : PathTrieNode) (cur : list (list N))
    (out : list (list (list N) * list (list N))) : list (list (list N) * list (list N)) :=
  let out := if bool_decide (1 < size (terminals n)) then out ++ [(cur, elements (terminals n))]
             else out in
  map_fold (λ c child out, conflicts_dfs child (cur ++ [c]) out) out (children n).
Definition find_conflicts (r : PathResolver) : list (list (list N) * list (list N)) :=
  conflicts_dfs (root r) [] [].

Record ClobberedPath := mkClobberedPath {
  cp_winner : list N;
  cp_losers : list (list N)
}.

(** [dfs] of [collect_clobbered_paths] *)
Fixpoint clobbered_dfs (packages : list (list N)) (node : PathTrieNode) (path : list (list N))
    (results : gmap (list (list N)) ClobberedPath) : gmap (list (list N)) ClobberedPath :=
  let results :=
    if negb (bool_decide (terminals node = ∅)) then
      match first_in (terminals node) packages with
      | Some winner =>
          let others := filter (λ p, path_components p ≠ path_components winner)
                          (elements (terminals node)) in
          if negb (bool_decide (others = [])) then <[path := mkClobberedPath winner others]> results
          else results
      | None => results
      end
    else results in
  map_fold (λ comp child results, clobbered_dfs packages child (path ++ [comp]) results)
    results (children node).
Definition collect_clobbered_paths (r : PathResolver) : gmap (list (list N)) ClobberedPath :=
  clobbered_dfs (packages r) (root r) [] ∅.

(** ** Lemmas: priorities *)
Lemma first_in_Some s l p :
  first_in s l = Some p ↔ ∃ i, l !! i = Some p ∧ p ∈ s ∧ ∀ j q, j < i → l !! j = Some q → q ∉ s.
Proof.
  induction l as [|x l IH]; simpl; [split; [done|by intros (i & ? & _)]|].
  case_bool_decide as Hx.
  - split.
    + intros [= ->]. exists 0. split; [done|]. split; [done|]. lia.
    + intros ([|i] & Hi & Hp & Hb); [done|]. by destruct (Hb 0 x ltac:(lia) eq_refl).
  - rewrite IH. split.
    + intros (i & Hi & Hp & Hb). exists (S i). split; [done|]. split; [done|].
      intros [|j] q Hj Hq; [by simplify_eq/=|]. apply (Hb j); [lia|done].
    + intros ([|i] & Hi & Hp & Hb); [by simplify_eq/=|]. exists i. split; [done|]. split; [done|].
      intros j q Hj Hq. apply (Hb (S j)); [lia|done].
Qed.

Lemma first_in_elem s l p : first_in s l = Some p → p ∈ s ∧ p ∈ l.
Proof. intros (i & ? & ? & _)%first_in_Some. split; [done|]. by eapply list_elem_of_lookup_2. Qed.

Lemma first_in_None s l : first_in s l = None ↔ ∀ p, p ∈ l → p ∉ s.
Proof.
  induction l as [|x l IH]; simpl; [set_solver|]. case_bool_decide; [set_solver|]. rewrite IH. set_solver.
Qed.

Lemma rank_snoc l x : rank (l ++ [x]) = <[x := N.of_nat (length l)]> (rank l).
Proof. unfold rank. rewrite imap_app, foldl_app. simpl. by rewrite Nat.add_0_r. Qed.

Lemma rank_lookup l i x : NoDup l → l !! i = Some x → rank l !! x = Some (N.of_nat i).
Proof.
  revert i. induction l as [|y l IH] using rev_ind; intros i Hn Hi; [done|].
  apply NoDup_app in Hn as (Hn & Hy & _). rewrite rank_snoc.
  apply lookup_app_Some in Hi as [Hi|[Hle Hi]].
  - rewrite lookup_insert_ne; [by apply IH|]. intros ->. apply (Hy x); [|set_solver].
    by eapply list_elem_of_lookup_2.
  - apply list_lookup_singleton_Some in Hi as [Hi ->]. rewrite lookup_insert_eq. do 2 f_equal. lia.
Qed.

Lemma max_by_key_spec key l :
  match max_by_key key l with
  | None => l = []
  | Some p => p ∈ l ∧ ∀ x, x ∈ l → (key x <= key p)%N
  end.
Proof.
  induction l as [|y l IH] using rev_ind; [done|]. unfold max_by_key in *. rewrite foldl_app. simpl.
  destruct (foldl _ None l) as [b|].
  - destruct IH as [Hb Hle]. destruct (key y <? key b)%N eqn:E; bool_hyps.
    + split; [set_solver|]. intros x [Hx| ->%list_elem_of_singleton]%elem_of_app; [auto|lia].
    + split; [set_solver|]. intros x [Hx| ->%list_elem_of_singleton]%elem_of_app; [|lia].
      specialize (Hle x Hx). lia.
  - subst l. split; [set_solver|]. intros x ->%list_elem_of_singleton. lia.
Qed.

(** The largest rank is the highest priority. *)
Lemma winner_first_in order n :
  NoDup order → (∀ p, p ∈ prefixes n → p ∈ order) →
  winner (rank (reverse order)) n = first_in (prefixes n) order.
Proof.
  intros Hn Hin. unfold winner. set (key := λ p, default usize_max (rank (reverse order) !! p)).
  assert (Hkey : ∀ i p, order !! i = Some p → key p = N.of_nat (length order - S i)).
  { intros i p Hi. unfold key. pose proof (lookup_lt_Some _ _ _ Hi).
    rewrite (rank_lookup (reverse order) (length order - S i) p); [done|by rewrite reverse_Permutation|].
    rewrite reverse_lookup by lia. rewrite <-Hi. f_equal. lia. }
  pose proof (max_by_key_spec key (elements (prefixes n))) as H. destruct (max_by_key _ _) as [p|].
  - destruct H as [Hp Hmax]. symmetry. apply first_in_Some. apply elem_of_elements in Hp.
    destruct (list_elem_of_lookup_1 _ _ (Hin p Hp)) as [i Hi]. exists i. split; [done|]. split; [done|].
    intros j q Hj Hq Hqs. specialize (Hmax q). rewrite elem_of_elements in Hmax. specialize (Hmax Hqs).
    pose proof (lookup_lt_Some _ _ _ Hi). rewrite (Hkey i p Hi), (Hkey j q Hq) in Hmax. lia.
  - symmetry. apply first_in_None. intros p _ Hp. apply elem_of_elements in Hp. rewrite H in Hp.
    by apply elem_of_nil in Hp.
Qed.

(** ** Lemmas: walking the trie *)

(** What a loop over the children adds to its accumulator. *)
Lemma map_fold_adds {A B : Type} (m : gmap (list N) A) (f : list N → A → B → B) (P : B → Prop)
    (Q : list N → A → Prop) (s : B) :
  (∀ k a s, m !! k = Some a → P (f k a s) ↔ P s ∨ Q k a) →
  P (map_fold f s m) ↔ P s ∨ ∃ k a, m !! k = Some a ∧ Q k a.
Proof.
  revert s. pattern m. induction m as [|k a m Hk Hfirst IH] using map_first_key_ind; intros s Hf.
  { rewrite map_fold_empty. split; [by left|]. intros [?|(? & ? & H & _)]; [done|].
    by rewrite lookup_empty in H. }
  rewrite map_fold_insert_first_key by done.
  rewrite Hf by apply lookup_insert_eq. rewrite IH.
  - split.
    + intros [[?|(k' & a' & Hl & HQ)]|HQ]; [by left|right..].
      * exists k', a'. split; [|done]. rewrite lookup_insert_ne; [done|]. intros ->. congruence.
      * exists k, a. by rewrite lookup_insert_eq.
    + intros [?|(k' & a' & [[-> ->]|[? Hl]]%lookup_insert_Some & HQ)]; eauto 6.
  - intros k' a' s' Hl. apply Hf. rewrite lookup_insert_ne; [done|]. intros ->. congruence.
Qed.

(** [collect_next_candidate_paths] follows the path [s] below [n]. *)
Fixpoint visits (package : list N) (n : PathTrieNode) (under : bool) (s : list (list N)) : Prop :=
  (under = true ∨ package ∈ terminals n ∨ package ∈ prefixes n)
  ∧ match s with
    | [] => True
    | c :: s' => ∃ m, children n !! c = Some m
        ∧ visits package m (under || bool_decide (package ∈ terminals n)) s'
    end.

(** Both cases of a path below a node: the node itself, or below a child. *)
Lemma path_below {A} (cur q : list (list N)) (cs : gmap (list N) A) (R : list (list N) → Prop) :
  (∀ c s, R (c :: s) → is_Some (cs !! c)) →
  (∃ s, q = cur ++ s ∧ R s)
  ↔ (q = cur ∧ R []) ∨ ∃ c a, cs !! c = Some a ∧ ∃ s, q = (cur ++ [c]) ++ s ∧ R (c :: s).
Proof.
  intros Hc. split.
  - intros ([|c s] & -> & HR); [left; by rewrite app_nil_r|right].
    destruct (Hc c s HR) as [a Ha]. exists c, a. split; [done|]. exists s. by rewrite <-app_assoc.
  - intros [[-> HR]|(c & a & _ & s & -> & HR)]; [exists []; by rewrite app_nil_r|].
    exists (c :: s). by rewrite <-app_assoc.
Qed.

Lemma elem_of_next_candidates package candidates n cur under out q p :
  (q, p) ∈ collect_next_candidate_paths package candidates n cur under out
  ↔ (q, p) ∈ out ∨ ∃ s, q = cur ++ s ∧ visits package n under s
      ∧ ∃ P T, look n s = Some (P, T) ∧ first_in T candidates = Some p.
Proof.
  revert cur under out. induction n as [n IH] using node_ind. intros cur under out.
  rewrite (path_below _ _ (children n));
    [|intros c s [[_ (m & -> & _)] _]; by eexists].
  destruct n as [P T cs]. cbn [collect_next_candidate_paths prefixes terminals children] in *.
  destruct (negb _) eqn:Eactive.
  - apply negb_true_iff in Eactive. bool_hyps. subst. split; [by left|].
    intros [?|[[_ [[Ha _] _]]|(c & a & _ & s & _ & [Ha _] & _)]]; [done|exfalso..];
      simpl in Ha; naive_solver.
  - assert (under = true ∨ package ∈ T ∨ package ∈ P) as Hact.
    { apply negb_false_iff in Eactive.
      rewrite !orb_true_iff, !bool_decide_eq_true in Eactive. tauto. }
    rewrite (map_fold_adds cs _ (λ s, (q, p) ∈ s) (λ c m, ∃ s, q = (cur ++ [c]) ++ s
      ∧ visits package m (under || bool_decide (package ∈ T)) s
      ∧ ∃ P' T', look m s = Some (P', T') ∧ first_in T' candidates = Some p))
      by (intros c m s Hm; by apply (IH c m Hm)).
    rewrite look_nil. simpl. setoid_rewrite look_cons. simpl.
    assert ((q, p) ∈ match first_in T candidates with
                      | Some candidate => out ++ [(cur, candidate)] | None => out end
            ↔ (q, p) ∈ out ∨ q = cur ∧ first_in T candidates = Some p) as ->.
    { destruct (first_in T candidates) as [w|]; [|naive_solver].
      rewrite elem_of_app, list_elem_of_singleton. naive_solver. }
    split.
    + intros [[?|[-> ?]]|(c & m & Hm & s & -> & Hv & P' & T' & Hl & Hf)]; [by left|right; left; eauto 8|].
      right. right. exists c, m. split; [done|]. exists s. split; [done|]. rewrite Hm. eauto 8.
    + intros [?|[[-> [_ (P' & T' & [= <- <-] & ?)]]|(c & m & Hm & s & -> & [_ Hv] & P' & T' & Hl & Hf)]];
        [eauto..|].
      right. exists c, m. split; [done|]. exists s. split; [done|]. rewrite Hm in Hl, Hv.
      destruct Hv as (? & [= <-] & Hv). eauto 8.
Qed.

(** The file a node shows when its directory belongs to the package [win] picks. *)
Definition file_of (win : PathTrieNode → option (list N)) (n : PathTrieNode) : option (list N) :=
  match win n with
  | Some p => if bool_decide (p ∈ terminals n) then Some p else None
  | None => None
  end.

(** The package whose file is at [s]: the file of that node, unless a file of a
    directory above takes its place. *)
Fixpoint on_disk (win : PathTrieNode → option (list N)) (n : PathTrieNode) (s : list (list N))
  : option (list N) :=
  match s with
  | [] => file_of win n
  | c :: s' => match file_of win n with
               | Some _ => None
               | None => m ← children n !! c; on_disk win m s'
               end
  end.

(** The file of the node at [s], whatever is above it. *)
Definition file_at (win : PathTrieNode → option (list N)) (n : PathTrieNode) (s : list (list N))
  : option (list N) := m ← get_node n s; file_of win m.

Lemma on_disk_file_at win n s p : on_disk win n s = Some p → file_at win n s = Some p.
Proof.
  revert n. induction s as [|c s IH]; intros n; simpl; [done|].
  destruct (file_of win n); [done|]. unfold file_at. simpl.
  destruct (children n !! c) as [m|]; [apply IH|done].
Qed.

Lemma on_disk_ext win win' n s :
  (∀ q m, get_node n q = Some m → win m = win' m) → on_disk win n s = on_disk win' n s.
Proof.
  revert n. induction s as [|c s IH]; intros n H; simpl; unfold file_of; rewrite (H [] n) by done; [done|].
  destruct (match win' n with Some _ => _ | None => _ end); [done|].
  destruct (children n !! c) as [m|] eqn:E; [|done]. apply IH. intros q m' Hm.
  apply (H (c :: q)). simpl. by rewrite E.
Qed.

Lemma file_at_cons win n c s : file_at win n (c :: s) = m ← children n !! c; file_at win m s.
Proof. unfold file_at. simpl. by destruct (children n !! c). Qed.

Lemma elem_of_removed_subtree old n cur out q p :
  (q, p) ∈ collect_removed_subtree old n cur out
  ↔ (q, p) ∈ out ∨ ∃ s, q = cur ++ s ∧ file_at (winner old) n s = Some p.
Proof.
  revert cur out. induction n as [n IH] using node_ind. intros cur out.
  rewrite (path_below _ _ (children n)) by
    (intros c s H; rewrite file_at_cons in H; by destruct (children n !! c)).
  setoid_rewrite file_at_cons.
  assert (collect_removed_subtree old n cur out = map_fold
    (λ comp child o, collect_removed_subtree old child (cur ++ [comp]) o)
    match winner old n with
    | Some w => if bool_decide (w ∈ terminals n) then out ++ [(cur, w)] else out
    | None => out end (children n)) as -> by (by destruct n).
  rewrite (map_fold_adds (children n) _ (λ s, (q, p) ∈ s) (λ c m, ∃ s, q = (cur ++ [c]) ++ s
    ∧ file_at (winner old) m s = Some p)) by (intros c m s Hm; by apply (IH c m Hm)).
  assert (((q, p) ∈ match winner old n with
     | Some w => if bool_decide (w ∈ terminals n) then out ++ [(cur, w)] else out | None => out end)
    ↔ (q, p) ∈ out ∨ q = cur ∧ file_at (winner old) n [] = Some p) as ->.
  { unfold file_at. simpl. unfold file_of. destruct (winner old n) as [w|]; [|naive_solver].
    case_bool_decide; [|naive_solver]. rewrite elem_of_app, list_elem_of_singleton. naive_solver. }
  rewrite <-(assoc (∨)). do 2 f_equiv. f_equiv. intros c. f_equiv. intros m.
  split; intros [Hm (s & Hq & H)]; (split; [done|]); exists s; by rewrite Hm in *.
Qed.

(** Nothing is below a node that no package touches. *)
Definition closed (n : PathTrieNode) : Prop :=
  ∀ q s P T P' T', look n q = Some (P, T) → look n (q ++ s) = Some (P', T') → P' ⊆ P ∧ T' ⊆ P'.

Lemma closed_child n c m : closed n → children n !! c = Some m → closed m.
Proof.
  intros H Hm q s P T P' T' Hq Hs. apply (H (c :: q) s P T P' T'); simpl; rewrite look_cons, Hm; done.
Qed.

Lemma winner_None r n : winner r n = None → prefixes n = ∅.
Proof.
  unfold winner. pose proof (max_by_key_spec (λ p, default usize_max (r !! p)) (elements (prefixes n))) as H.
  destruct (max_by_key _ _); [done|]. intros _. apply leibniz_equiv. by apply elements_empty_inv.
Qed.

Lemma on_disk_untouched r n s p : closed n → prefixes n = ∅ → on_disk (winner r) n s ≠ Some p.
Proof.
  intros Hc Hn Hp%on_disk_file_at. unfold file_at in Hp.
  destruct (get_node n s) as [m|] eqn:Em; [simpl in Hp|done].
  destruct (Hc [] s (prefixes n) (terminals n) (prefixes m) (terminals m)) as [H1 H2];
    [done|unfold look; simpl; by rewrite Em|].
  unfold file_of in Hp. destruct (winner r m) as [w|]; [|done].
  case_bool_decide; [|done]. set_solver.
Qed.

Lemma elem_of_new_winners new n cur out q p :
  closed n →
  (q, p) ∈ collect_new_winners new n cur out
  ↔ (q, p) ∈ out ∨ ∃ s, q = cur ++ s ∧ on_disk (winner new) n s = Some p.
Proof.
  revert cur out. induction n as [n IH] using node_ind. intros cur out Hc.
  pose proof (λ s, on_disk_untouched new n s p Hc) as Hnone. pose proof (winner_None new n) as Hw.
  rewrite (path_below _ _ (children n)) by
    (intros c s H; simpl in H; destruct (file_of _ n); [done|]; by destruct (children n !! c)).
  cbn [on_disk].
  assert (collect_new_winners new n cur out = match winner new n with
    | Some w => if bool_decide (w ∈ terminals n) then out ++ [(cur, w)]
      else map_fold (λ comp child o, collect_new_winners new child (cur ++ [comp]) o) out (children n)
    | None => out end) as -> by (by destruct n).
  destruct (file_of (winner new) n) as [f|] eqn:Ef.
  - unfold file_of in Ef. destruct (winner new n) as [w|]; [|done].
    case_bool_decide; [|done]. injection Ef as ->.
    rewrite elem_of_app, list_elem_of_singleton. naive_solver.
  - unfold file_of in Ef. destruct (winner new n) as [w|] eqn:Ewin.
    + case_bool_decide; [done|].
      rewrite (map_fold_adds (children n) _ (λ s, (q, p) ∈ s) (λ c m, ∃ s, q = (cur ++ [c]) ++ s
        ∧ on_disk (winner new) m s = Some p))
        by (intros c m s Hm; apply (IH c m Hm); by eapply closed_child).
      split; [intros [?|(c & m & Hm & s & -> & Hs)]|intros [?|[[_ ?]|(c & m & Hm & s & -> & Hs)]]];
        [by left| |by left|done|].
      * right. right. exists c, m. split; [done|]. exists s. by rewrite Hm.
      * right. exists c, m. split; [done|]. exists s. by rewrite Hm in Hs.
    + split; [by left|]. intros [?|[[_ ?]|(c & m & Hm & s & _ & Hs)]]; [done..|].
      exfalso. apply (Hnone (c :: s) (Hw eq_refl)). cbn [on_disk]. unfold file_of. by rewrite Ewin.
Qed.

(** The files [reprioritize_dfs] moves away: every file of a subtree that a new
    file replaces, and otherwise the files that change hands. *)
Fixpoint displaced (old new : PathTrieNode → option (list N)) (n : PathTrieNode)
    (s : list (list N)) (p : list N) : Prop :=
  match file_of old n, file_of new n with
  | Some o, Some w => s = [] ∧ o = p ∧ o ≠ w
  | None, Some w => file_at old n s = Some p
  | Some o, None => s = [] ∧ o = p
  | None, None => match s with
                  | [] => False
                  | c :: s' => ∃ m, children n !! c = Some m ∧ displaced old new m s' p
                  end
  end.

Lemma reprioritize_dfs_unfold old new n cur acc :
  reprioritize_dfs old new n cur acc =
  match file_of (winner old) n, file_of (winner new) n with
  | Some o, Some w => if bool_decide (o ≠ w) then (acc.1 ++ [(cur, o)], acc.2 ++ [(cur, w)]) else acc
  | None, Some w => (collect_removed_subtree old n cur acc.1, acc.2 ++ [(cur, w)])
  | Some o, None => (acc.1 ++ [(cur, o)], collect_new_winners new n cur acc.2)
  | None, None =>
      map_fold (λ comp child acc, reprioritize_dfs old new child (cur ++ [comp]) acc) acc (children n)
  end.
Proof. by destruct n. Qed.

Lemma elem_of_to_clobbers old new n cur acc q p :
  (q, p) ∈ (reprioritize_dfs old new n cur acc).1
  ↔ (q, p) ∈ acc.1 ∨ ∃ s, q = cur ++ s ∧ displaced (winner old) (winner new) n s p.
Proof.
  revert cur acc. induction n as [n IH] using node_ind. intros cur acc.
  rewrite reprioritize_dfs_unfold.
  destruct (file_of (winner old) n) as [o|] eqn:Eo, (file_of (winner new) n) as [w|] eqn:Ew.
  - assert (∀ s, displaced (winner old) (winner new) n s p ↔ s = [] ∧ o = p ∧ o ≠ w) as Hd
      by (intros s; destruct s; simpl; by rewrite Eo, Ew).
    setoid_rewrite Hd. case_bool_decide; simpl.
    + rewrite elem_of_app, list_elem_of_singleton. f_equiv. split.
      * intros [= -> ->]. exists []. by rewrite app_nil_r.
      * intros (s & -> & -> & -> & _). by rewrite app_nil_r.
    + naive_solver.
  - assert (∀ s, displaced (winner old) (winner new) n s p ↔ s = [] ∧ o = p) as Hd
      by (intros s; destruct s; simpl; by rewrite Eo, Ew).
    setoid_rewrite Hd. simpl. rewrite elem_of_app, list_elem_of_singleton. f_equiv. split.
    + intros [= -> ->]. exists []. by rewrite app_nil_r.
    + intros (s & -> & -> & ->). by rewrite app_nil_r.
  - assert (∀ s, displaced (winner old) (winner new) n s p ↔ file_at (winner old) n s = Some p) as Hd
      by (intros s; destruct s; simpl; by rewrite Eo, Ew).
    setoid_rewrite Hd. simpl. apply elem_of_removed_subtree.
  - assert (∀ s, displaced (winner old) (winner new) n s p ↔ match s with
      | [] => False | c :: s' => ∃ m, children n !! c = Some m
          ∧ displaced (winner old) (winner new) m s' p end) as Hd
      by (intros s; destruct s; simpl; by rewrite Eo, Ew).
    setoid_rewrite Hd.
    rewrite (map_fold_adds (children n) _ (λ a, (q, p) ∈ a.1) (λ c m, ∃ s, q = (cur ++ [c]) ++ s
      ∧ displaced (winner old) (winner new) m s p)) by (intros c m s Hm; by apply (IH c m Hm)).
    rewrite (path_below _ _ (children n)) by (intros c s (m & Hm & _); by exists m).
    f_equiv. split.
    + intros (c & m & Hm & s & -> & H). right. exists c, m. split; [done|]. eauto.
    + intros [[_ []]|(c & m & Hm & s & -> & m' & Hm' & H)]. exists c, m. simplify_eq. eauto.
Qed.

Lemma elem_of_from_clobbers old new n cur acc q p :
  closed n →
  (q, p) ∈ (reprioritize_dfs old new n cur acc).2
  ↔ (q, p) ∈ acc.2 ∨ ∃ s, q = cur ++ s ∧ on_disk (winner new) n s = Some p
      ∧ on_disk (winner old) n s ≠ Some p.
Proof.
  revert cur acc. induction n as [n IH] using node_ind. intros cur acc Hc.
  rewrite reprioritize_dfs_unfold.
  pose proof (λ cur out, elem_of_new_winners new n cur out q p Hc) as Hnew.
  destruct (file_of (winner old) n) as [o|] eqn:Eo, (file_of (winner new) n) as [w|] eqn:Ew.
  - assert (∀ s, on_disk (winner new) n s = Some p ∧ on_disk (winner old) n s ≠ Some p
      ↔ s = [] ∧ w = p ∧ o ≠ w) as Hd
      by (intros [|c s]; simpl; rewrite Eo, Ew; naive_solver).
    setoid_rewrite Hd. case_bool_decide; simpl.
    + rewrite elem_of_app, list_elem_of_singleton. f_equiv. split.
      * intros [= -> ->]. exists []. by rewrite app_nil_r.
      * intros (s & -> & -> & -> & _). by rewrite app_nil_r.
    + naive_solver.
  - simpl. rewrite Hnew. f_equiv. f_equiv. intros s. f_equiv.
    destruct s as [|c s]; simpl; rewrite Eo, Ew; naive_solver.
  - assert (∀ s, on_disk (winner new) n s = Some p ∧ on_disk (winner old) n s ≠ Some p
      ↔ s = [] ∧ w = p) as Hd by (intros [|c s]; simpl; rewrite ?Eo, Ew; naive_solver).
    setoid_rewrite Hd. simpl. rewrite elem_of_app, list_elem_of_singleton. f_equiv. split.
    + intros [= -> ->]. exists []. by rewrite app_nil_r.
    + intros (s & -> & -> & ->). by rewrite app_nil_r.
  - rewrite (map_fold_adds (children n) _ (λ a, (q, p) ∈ a.2) (λ c m, ∃ s, q = (cur ++ [c]) ++ s
      ∧ on_disk (winner new) m s = Some p ∧ on_disk (winner old) m s ≠ Some p))
      by (intros c m s Hm; apply (IH c m Hm); by eapply closed_child).
    rewrite (path_below _ _ (children n)) by
      (intros c s [H _]; simpl in H; rewrite Ew in H; by destruct (children n !! c)).
    f_equiv. split.
    + intros (c & m & Hm & s & -> & H). right. exists c, m. split; [done|]. exists s.
      split; [done|]. simpl. rewrite Eo, Ew, Hm. done.
    + intros [[_ [H _]]|(c & m & Hm & s & -> & H)]; [simpl in H; congruence|].
      exists c, m. split; [done|]. exists s. split; [done|]. simpl in H. by rewrite Eo, Ew, Hm in H.
Qed.

(** A file that is moved away was the choice of its node and does not stay; every
    file on disk that does not stay is moved away. *)
Lemma displaced_sound old new n s p :
  displaced old new n s p → file_at old n s = Some p ∧ on_disk new n s ≠ Some p.
Proof.
  revert n. induction s as [|c s IH]; intros n; simpl.
  - unfold file_at. simpl. destruct (file_of old n), (file_of new n); naive_solver.
  - rewrite file_at_cons.
    destruct (file_of old n), (file_of new n); [naive_solver..|].
    intros (m & -> & H). simpl. by apply IH.
Qed.

Lemma displaced_complete old new n s p :
  on_disk old n s = Some p → on_disk new n s ≠ Some p → displaced old new n s p.
Proof.
  revert n. induction s as [|c s IH]; intros n; simpl.
  - unfold file_at. simpl. destruct (file_of old n), (file_of new n); naive_solver.
  - rewrite file_at_cons. destruct (file_of old n); [done|].
    destruct (children n !! c) as [m|]; [simpl|done].
    destruct (file_of new n) as [w|]; [by intros ?%on_disk_file_at|]. eauto.
Qed.

Lemma elem_of_conflicts n cur out q os :
  (q, os) ∈ conflicts_dfs n cur out
  ↔ (q, os) ∈ out ∨ ∃ s, q = cur ++ s ∧ ∃ P T, look n s = Some (P, T) ∧ 1 < size T ∧ os = elements T.
Proof.
  revert cur out. induction n as [n IH] using node_ind. intros cur out.
  assert (conflicts_dfs n cur out = map_fold (λ c child out, conflicts_dfs child (cur ++ [c]) out)
    (if bool_decide (1 < size (terminals n)) then out ++ [(cur, elements (terminals n))] else out)
    (children n)) as -> by (by destruct n).
  rewrite (map_fold_adds (children n) _ (λ a, (q, os) ∈ a) (λ c m, ∃ s, q = (cur ++ [c]) ++ s
    ∧ ∃ P T, look m s = Some (P, T) ∧ 1 < size T ∧ os = elements T))
    by (intros c m s Hm; by apply (IH c m Hm)).
  rewrite (path_below _ _ (children n)) by
    (intros c s (P & T & H & _); rewrite look_cons in H; by destruct (children n !! c)).
  rewrite (assoc (∨)). setoid_rewrite look_nil. setoid_rewrite look_cons. f_equiv.
  - case_bool_decide; [rewrite elem_of_app, list_elem_of_singleton|]; naive_solver.
  - f_equiv. intros c. f_equiv. intros m. split; intros [Hm (s & Hq & H)]; (split; [done|]);
      exists s; by rewrite Hm in *.
Qed.

(** A loop over the children of which one matters. *)
Lemma map_fold_one {A B V : Type} (m : gmap (list N) A) (f : list N → A → B → B) (sel : B → V)
    (g : A → V → V) (k0 : list N) (s : B) :
  (∀ k a s, m !! k = Some a → sel (f k a s) = if decide (k = k0) then g a (sel s) else sel s) →
  sel (map_fold f s m) = match m !! k0 with Some a => g a (sel s) | None => sel s end.
Proof.
  revert s. pattern m. induction m as [|k a m Hk Hfirst IH] using map_first_key_ind; intros s Hf.
  { by rewrite map_fold_empty, lookup_empty. }
  rewrite map_fold_insert_first_key, Hf by (done || apply lookup_insert_eq).
  assert (sel (map_fold f s m) = match m !! k0 with Some a => g a (sel s) | None => sel s end) as ->.
  { apply IH. intros k' a' s' Hl. apply Hf. rewrite lookup_insert_ne; [done|]. intros ->. congruence. }
  destruct (decide (k = k0)) as [->|]; [by rewrite lookup_insert_eq, Hk|by rewrite lookup_insert_ne].
Qed.

(** What [collect_clobbered_paths] records for a node with files of [T]. *)
Definition clobber_of (packages : list (list N)) (T : gset (list N)) : option ClobberedPath :=
  w ← first_in T packages;
  let others := filter (λ p, path_components p ≠ path_components w) (elements T) in
  if bool_decide (others = []) then None else Some (mkClobberedPath w others).

Lemma clobbered_dfs_unfold packages n cur res :
  clobbered_dfs packages n cur res =
  map_fold (λ comp child res, clobbered_dfs packages child (cur ++ [comp]) res)
    match clobber_of packages (terminals n) with Some cp => <[cur := cp]> res | None => res end
    (children n).
Proof.
  destruct n as [P T cs]. cbn [clobbered_dfs]. f_equal. simpl. unfold clobber_of.
  case_bool_decide as HT; simpl.
  - subst. destruct (first_in ∅ packages) as [w|] eqn:E; [|done].
    by apply first_in_elem in E as [? _].
  - destruct (first_in T packages); simpl; [|done]. by case_bool_decide.
Qed.

Lemma clobbered_dfs_other packages n cur res q :
  ¬ cur `prefix_of` q → clobbered_dfs packages n cur res !! q = res !! q.
Proof.
  revert cur res. induction n as [n IH] using node_ind. intros cur res Hq.
  rewrite clobbered_dfs_unfold.
  rewrite (map_fold_one (children n) _ (λ r, r !! q) (λ _ v, v) []).
  - destruct (children n !! []); (destruct (clobber_of _ _); [|done]);
      rewrite lookup_insert_ne; (done || by intros ->).
  - intros c m r Hm. rewrite (IH c m Hm); [by destruct (decide _)|].
    intros H. apply Hq. etrans; [|exact H]. by apply prefix_app_r.
Qed.

Lemma clobbered_dfs_lookup packages n cur res s :
  clobbered_dfs packages n cur res !! (cur ++ s) =
  match v ← look n s; clobber_of packages v.2 with
  | Some cp => Some cp
  | None => res !! (cur ++ s)
  end.
Proof.
  revert cur res s. induction n as [n IH] using node_ind. intros cur res s.
  rewrite clobbered_dfs_unfold. destruct s as [|c s].
  - rewrite (map_fold_one (children n) _ (λ r, r !! (cur ++ [])) (λ _ v, v) []).
    + rewrite app_nil_r, look_nil. simpl.
      destruct (children n !! []); (destruct (clobber_of _ _); [apply lookup_insert_eq|done]).
    + intros c m r Hm. rewrite clobbered_dfs_other; [by destruct (decide _)|].
      rewrite app_nil_r. intros [k Hk]. apply (f_equal length) in Hk.
      rewrite !length_app in Hk. simpl in Hk. lia.
  - rewrite (map_fold_one (children n) _ (λ r, r !! (cur ++ c :: s))
      (λ m v, match v' ← look m s; clobber_of packages v'.2 with Some cp => Some cp | None => v end) c).
    + rewrite look_cons. assert (∀ cp, <[cur:=cp]> res !! (cur ++ c :: s) = res !! (cur ++ c :: s)) as Hne.
      { intros cp. apply lookup_insert_ne. intros Hk. apply (f_equal length) in Hk.
        rewrite length_app in Hk. simpl in Hk. lia. }
      destruct (children n !! c) as [m|]; (destruct (clobber_of _ _); [by rewrite Hne|done]).
    + intros d m r Hm. destruct (decide (d = c)) as [->|Hne].
      * specialize (IH c m Hm (cur ++ [c]) r s). by rewrite <-app_assoc in IH.
      * apply clobbered_dfs_other. intros [k Hk]. rewrite <-app_assoc in Hk.
        apply app_inv_head in Hk. simpl in Hk. congruence.
Qed.

(** ** The invariant *)

(** The packages with a file at [q]. *)
Definition files (n : PathTrieNode) (q : list (list N)) : gset (list N) := default ∅ (snd <$> look n q).

(** A trie whose packages are among [K]. *)
Record trie_wf (K : list (list N)) (n : PathTrieNode) : Prop := {
  (* the packages of a node are known *)
  tw_known : ∀ q P T k, look n q = Some (P, T) → k ∈ P → k ∈ K;
  (* a package of a node is one of every node above; a file belongs to its node *)
  tw_closed : closed n;
  (* a package of a node has a file below it, or above it and not at the root *)
  tw_origin : ∀ q P T k, look n q = Some (P, T) → k ∈ P →
    ∃ q', k ∈ files n q' ∧ (q `prefix_of` q' ∨ (q' `prefix_of` q ∧ q' ≠ []));
  (* there is no empty branch *)
  tw_live : ∀ q v, look n q = Some v → q = [] ∨ live n q
}.

Record resolver_wf (r : PathResolver) : Prop := {
  rw_nodup : NoDup (packages r);
  rw_trie : trie_wf (packages r) (root r)
}.

Lemma elem_of_files k n q : k ∈ files n q ↔ ∃ P T, look n q = Some (P, T) ∧ k ∈ T.
Proof. unfold files. destruct (look n q) as [[P T]|]; simpl; set_solver. Qed.

Lemma look_files n q P T : look n q = Some (P, T) → files n q = T.
Proof. unfold files. by intros ->. Qed.

Lemma look_is_Some_prefix n q s v : look n (q ++ s) = Some v → is_Some (look n q).
Proof. intros H. destruct (look n q) eqn:E; [by eexists|]. by rewrite (look_app_None n q s E) in H. Qed.

(** A package with a file at or below [q] is one of [q]. *)
Lemma files_prefixes n q s k :
  closed n → k ∈ files n (q ++ s) → ∃ P T, look n q = Some (P, T) ∧ k ∈ P.
Proof.
  intros Hc (P' & T' & H & Hk)%elem_of_files.
  destruct (look_is_Some_prefix _ _ _ _ H) as [[P T] Hq].
  exists P, T. split; [done|]. destruct (Hc q s P T P' T' Hq H). set_solver.
Qed.

Lemma prefix_cases (q p r : list (list N)) :
  q `prefix_of` r → p `prefix_of` r → q `prefix_of` p ∨ p `prefix_of` q.
Proof. intros. by apply prefix_weak_total with r. Qed.

Lemma trie_wf_default K : trie_wf K node_default.
Proof.
  assert (∀ q P T, look node_default q = Some (P, T) → q = [] ∧ P = ∅ ∧ T = ∅) as H.
  { intros [|c q] P T; [by intros [= <- <-]|]. by rewrite look_default. }
  split.
  - intros q P T k (_ & -> & _)%H. set_solver.
  - intros q s P T P' T' (_ & -> & _)%H (_ & -> & ->)%H. set_solver.
  - intros q P T k (_ & -> & _)%H. set_solver.
  - intros q [P T] (-> & _)%H. by left.
Qed.

Lemma trie_wf_mono K L n : (∀ k, k ∈ K → k ∈ L) → trie_wf K n → trie_wf L n.
Proof. intros H [H1 H2 H3 H4]. split; [|done..]. eauto. Qed.

(** *** Inserting a file *)
Section insert.
Context (K : list (list N)) (n : PathTrieNode) (p : list (list N)) (k : list N).

Lemma look_insert_old q P T :
  look n q = Some (P, T) →
  ∃ P' T', look (insert_at p k n) q = Some (P', T') ∧ P ⊆ P' ∧ T ⊆ T'.
Proof.
  intros Hq. rewrite look_insert_at, Hq. destruct (decide _); simpl; eexists _, _;
    (split; [done|]); split; [set_solver| |done..]. destruct (decide _); set_solver.
Qed.

Lemma look_insert_inv q P' T' :
  look (insert_at p k n) q = Some (P', T') →
  (q `prefix_of` p ∧ k ∈ P' ∧ (∀ x, x ∈ P' → x = k ∨ ∃ P T, look n q = Some (P, T) ∧ x ∈ P)
   ∧ ∀ x, x ∈ T' → x = k ∨ ∃ P T, look n q = Some (P, T) ∧ x ∈ T)
  ∨ ¬ q `prefix_of` p ∧ look n q = Some (P', T').
Proof.
  rewrite look_insert_at. destruct (decide _) as [Hq|Hq]; intros E; [left|by right].
  assert (∃ P T, (look n q = Some (P, T) ∨ P = ∅ ∧ T = ∅)
    ∧ P' = {[k]} ∪ P ∧ T' = if decide (q = p) then {[k]} ∪ T else T) as (P & T & Hl & -> & ->).
  { destruct (look n q) as [[P T]|]; simpl in E; injection E as <- <-; eauto 10. }
  clear E. split; [done|]. split; [set_solver|].
  split; intros x Hx; (destruct (decide (x = k)); [by left|right]);
    (destruct Hl as [Hl|[-> ->]]; [exists P, T; split; [done|]|exfalso]);
    try destruct (decide (q = p)); set_solver.
Qed.

Lemma files_insert_at q : files (insert_at p k n) q = if decide (q = p) then {[k]} ∪ files n q
                                                     else files n q.
Proof.
  unfold files. rewrite look_insert_at. destruct (decide (q `prefix_of` p)) as [|Hq].
  - destruct (look n q) as [[P T]|]; simpl; by destruct (decide (q = p)).
  - destruct (decide (q = p)) as [->|]; [by destruct Hq|done].
Qed.

Lemma insert_at_wf : trie_wf K n → k ∈ K → trie_wf K (insert_at p k n).
Proof.
  intros [H1 H2 H3 H4] Hk. split.
  - intros q P' T' x [(_ & _ & HP & _)|[_ Hq]]%look_insert_inv Hx; [|by eapply H1].
    destruct (HP x Hx) as [->|(P & T & ? & ?)]; [done|]. by eapply H1.
  - intros q s P T P' T' HPT HPT'.
    pose proof (look_insert_inv _ _ _ HPT) as HA. pose proof (look_insert_inv _ _ _ HPT') as HB.
    destruct HB as [(Hqs & Hk' & HP' & HT')|[Hqs Hold']].
    + assert (q `prefix_of` p) as Hq by (etrans; [by apply prefix_app_r|exact Hqs]).
      destruct HA as [(_ & HkP & HP & _)|[? _]]; [|done].
      split.
      * intros x Hx. destruct (HP' x Hx) as [->|(P0 & T0 & Hl & Hx0)]; [done|].
        destruct (look_is_Some_prefix _ _ _ _ Hl) as [[P1 T1] Hl1].
        destruct (look_insert_old q P1 T1 Hl1) as (P2 & T2 & E & ? & _).
        rewrite HPT in E. injection E as <- <-.
        destruct (H2 q s P1 T1 P0 T0 Hl1 Hl). set_solver.
      * intros x Hx. destruct (HT' x Hx) as [->|(P0 & T0 & Hl & Hx0)]; [done|].
        destruct (look_insert_old _ P0 T0 Hl) as (P2 & T2 & E & ? & _).
        rewrite HPT' in E. injection E as <- <-.
        destruct (H2 (q ++ s) [] P0 T0 P0 T0 Hl); [by rewrite app_nil_r|]. set_solver.
    + destruct (look_is_Some_prefix _ _ _ _ Hold') as [[P1 T1] Hl1].
      destruct (look_insert_old q P1 T1 Hl1) as (P2 & T2 & E & ? & _).
      rewrite HPT in E. injection E as <- <-.
      destruct (H2 q s P1 T1 P' T' Hl1 Hold'). set_solver.
  - intros q P' T' x Hl Hx.
    assert (∀ P T, look n q = Some (P, T) → x ∈ P → ∃ q', x ∈ files (insert_at p k n) q'
      ∧ (q `prefix_of` q' ∨ (q' `prefix_of` q ∧ q' ≠ []))) as Hold.
    { intros P T Hq HP. destruct (H3 q P T x Hq HP) as (q' & Hf & Hc). exists q'.
      split; [|done]. rewrite files_insert_at. destruct (decide _); set_solver. }
    destruct (look_insert_inv _ _ _ Hl) as [(Hq & _ & HP & _)|[_ Hq]]; [|by eapply Hold].
    destruct (HP x Hx) as [->|(P & T & ? & ?)]; [|by eapply Hold].
    exists p. split; [|by left]. rewrite files_insert_at, decide_True by done. set_solver.
  - intros q [P' T'] Hl. destruct (look_insert_inv _ _ _ Hl) as [(Hq & HkP & _)|[_ Hq]].
    + right. exists [], (P', T'). rewrite app_nil_r. split; [done|]. left. set_solver.
    + destruct (H4 _ _ Hq) as [|(r & [P T] & Hr & Ht)]; [by left|right].
      destruct (look_insert_old _ _ _ Hr) as (P2 & T2 & E & ? & ?).
      exists r, (P2, T2). split; [done|]. unfold touched in *. simpl in *. set_solver.
Qed.

(** *** Propagating a package below one of its files *)
Lemma files_propagate_at q : files (with_node_mut (propagate_prefix k) p n) q = files n q.
Proof.
  unfold files. rewrite look_propagate_at. destruct (decide _); [|done].
  by destruct (look n q) as [[P T]|].
Qed.

Lemma look_propagate_inv q P' T' :
  look (with_node_mut (propagate_prefix k) p n) q = Some (P', T') →
  ∃ P, look n q = Some (P, T') ∧ P ⊆ P' ∧ (∀ x, x ∈ P' → x ∈ P ∨ x = k ∧ p `prefix_of` q)
    ∧ (p `prefix_of` q → k ∈ P').
Proof.
  rewrite look_propagate_at. destruct (decide _) as [Hp|Hp].
  - destruct (look n q) as [[P T]|]; [|done]. simpl. intros [= <- <-]. exists P. set_solver.
  - intros ->. exists P'. set_solver.
Qed.

Lemma propagate_at_wf :
  trie_wf K n → k ∈ files n p → p ≠ [] → trie_wf K (with_node_mut (propagate_prefix k) p n).
Proof.
  intros [H1 H2 H3 H4] Hk Hp. split.
  - intros q P' T' x (P & Hl & _ & HP & _)%look_propagate_inv Hx.
    destruct (HP x Hx) as [?|[-> _]]; [by eapply H1|].
    apply elem_of_files in Hk as (P0 & T0 & Hp0 & Hk0). apply (H1 p P0 T0); [done|].
    destruct (H2 p [] P0 T0 P0 T0 Hp0); [by rewrite app_nil_r|]. set_solver.
  - intros q s P T P' T' (P0 & Hl0 & HP0 & _ & Hk0)%look_propagate_inv
      (P1 & Hl1 & HP1 & Hx1 & _)%look_propagate_inv.
    destruct (H2 q s P0 T P1 T' Hl0 Hl1) as [HA HB]. split; [|set_solver].
    intros x Hx. destruct (Hx1 x Hx) as [?|[-> Hpq]]; [set_solver|].
    destruct (prefix_cases q p (q ++ s)) as [[s' ->]|?]; [by apply prefix_app_r|done| |auto].
    destruct (files_prefixes n q s' k H2 Hk) as (P2 & T2 & E & ?). rewrite Hl0 in E.
    injection E as <- <-. set_solver.
  - intros q P' T' x (P & Hl & _ & HP & _)%look_propagate_inv Hx.
    setoid_rewrite files_propagate_at.
    destruct (HP x Hx) as [?|[-> Hpq]]; [by eapply H3|]. exists p. eauto.
  - intros q [P' T'] (P & Hl & _)%look_propagate_inv.
    destruct (H4 _ _ Hl) as [|(r & [P0 T0] & Hr & Ht)]; [by left|right].
    exists r. rewrite look_propagate_at, Hr. unfold touched in *.
    destruct (decide _); eexists; (split; [done|]); simpl in *; set_solver.
Qed.
End insert.

(** *** Removing a package *)
Section remove.
Context (K : list (list N)) (n : PathTrieNode) (k : list N).

Lemma look_unregister q P' T' :
  look (prune_children (rm k n)) q = Some (P', T') ↔
  (∃ P T, look n q = Some (P, T) ∧ P' = P ∖ {[k]} ∧ T' = T ∖ {[k]})
  ∧ (q = [] ∨ live (rm k n) q).
Proof.
  rewrite look_prune, look_rm. destruct (look n q) as [[P T]|]; simpl; naive_solver.
Qed.

(** The other files stay. *)
Lemma files_unregister q : files (prune_children (rm k n)) q = files n q ∖ {[k]}.
Proof.
  apply leibniz_equiv. intros x. rewrite elem_of_difference, !elem_of_files. split.
  - intros (P' & T' & [(P & T & ? & -> & ->) _]%look_unregister & Hx). set_solver.
  - intros [(P & T & Hl & Hx) Hk]. exists (P ∖ {[k]}), (T ∖ {[k]}). split; [|set_solver].
    apply look_unregister. split; [eauto 6|]. right. exists [], (P ∖ {[k]}, T ∖ {[k]}).
    rewrite app_nil_r, look_rm, Hl. split; [done|]. right. simpl. set_solver.
Qed.

Lemma unregister_wf :
  trie_wf K n → trie_wf (filter (λ p, p ≠ k) K) (prune_children (rm k n)).
Proof.
  intros [H1 H2 H3 H4]. split.
  - intros q P' T' x [(P & T & Hl & -> & ->) _]%look_unregister Hx.
    apply list_elem_of_filter. split; [set_solver|]. eapply H1; [done|set_solver].
  - intros q s P' T' P1' T1' [(P & T & Hl & -> & ->) _]%look_unregister
      [(P1 & T1 & Hl1 & -> & ->) _]%look_unregister.
    destruct (H2 _ _ _ _ _ _ Hl Hl1). set_solver.
  - intros q P' T' x [(P & T & Hl & -> & ->) _]%look_unregister Hx.
    setoid_rewrite files_unregister. destruct (H3 q P T x Hl) as (q' & ? & ?); [set_solver|].
    exists q'. split; [set_solver|done].
  - intros q [P' T'] [_ [->|(r & [P T] & Hr & Ht)]]%look_unregister; [by left|right].
    exists r, (P, T). split; [|done]. apply look_prune. split; [done|].
    right. exists [], (P, T). by rewrite app_nil_r.
Qed.
End remove.

(** *** Detecting conflicts *)

(** The paths above [p] but not [p] itself nor the root. *)
Definition blocked (n : PathTrieNode) (p : list (list N)) : Prop :=
  ∃ q s, p = q ++ s ∧ q ≠ [] ∧ s ≠ [] ∧ files n q ≠ ∅.

Lemma files_nil n : files n [] = terminals n.
Proof. done. Qed.

Lemma files_cons n c q :
  files n (c :: q) = match children n !! c with Some m => files m q | None => ∅ end.
Proof. unfold files. rewrite look_cons. by destruct (children n !! c). Qed.

Lemma blocked_cons n c p :
  blocked n (c :: p) ↔ ∃ m, children n !! c = Some m ∧ ((p ≠ [] ∧ terminals m ≠ ∅) ∨ blocked m p).
Proof.
  unfold blocked. split.
  - intros ([|d q] & s & E & Hq & Hs & Hf); [done|]. injection E as <- ->.
    rewrite files_cons in Hf. destruct (children n !! c) as [m|] eqn:Em; [|done].
    exists m. split; [done|]. destruct q as [|d q]; [by left|right]. by exists (d :: q), s.
  - intros (m & Em & [[Hp Ht]|(q & s & -> & Hq & Hs & Hf)]).
    + exists [c], p. rewrite files_cons, Em. done.
    + exists (c :: q), s. rewrite files_cons, Em. done.
Qed.

Lemma find_target_spec n p :
  match find_target n p with
  | (found, true) => found = None ∧ blocked n p
  | (found, false) => ¬ blocked n p ∧ found = if bool_decide (p = []) then None else get_node n p
  end.
Proof.
  revert n. induction p as [|c p IH]; intros n; cbn [find_target].
  { split; [|done]. intros (q & s & E & Hq & _). by destruct q. }
  rewrite (bool_decide_eq_false_2 (c :: p = [])) by done. simpl.
  destruct (children n !! c) as [m|] eqn:Em.
  - destruct (decide (p = [])) as [->|Hp].
    + rewrite bool_decide_eq_true_2 by done. simpl. split; [|done].
      rewrite blocked_cons. intros (m' & _ & [[? _]|(q & s & E & Hq & _)]); [done|]. by destruct q.
    + rewrite bool_decide_eq_false_2 by done. simpl. destruct (bool_decide (terminals m = ∅)) eqn:Et.
      * apply bool_decide_eq_true in Et. simpl. specialize (IH m).
        destruct (find_target m p) as [found []].
        -- destruct IH as [-> IH]. split; [done|]. apply blocked_cons. eauto.
        -- destruct IH as [IH ->]. rewrite bool_decide_eq_false_2 by done. split; [|done].
           rewrite blocked_cons. intros (m' & ? & [[_ ?]|?]); simplify_eq; done.
      * apply bool_decide_eq_false in Et. simpl. split; [done|]. apply blocked_cons. eauto.
  - split; [|done]. rewrite blocked_cons. by intros (m' & ? & _); simplify_eq.
Qed.

(** A path conflicts with the files at it, above it and below it. *)
Definition conflicting (n : PathTrieNode) (p : list (list N)) : Prop :=
  p ≠ [] ∧ ∃ q, q ≠ [] ∧ files n q ≠ ∅ ∧ (q `prefix_of` p ∨ p `prefix_of` q).

Lemma live_comparable K n p c :
  trie_wf K n → p ≠ [] → is_Some (look n (p ++ [c])) →
  ∃ q, q ≠ [] ∧ files n q ≠ ∅ ∧ (q `prefix_of` p ∨ p `prefix_of` q).
Proof.
  intros [H1 H2 H3 H4] Hp [v Hv].
  destruct (H4 _ _ Hv) as [E|(r & [P T] & Hr & Ht)]; [by destruct p|].
  assert (∃ k, k ∈ P) as [k Hk].
  { destruct (H2 _ [] _ _ P T Hr) as [_ ?]; [by rewrite app_nil_r|].
    destruct Ht as [Ht|Ht]; apply set_choose_L in Ht as [k Hk]; exists k; set_solver. }
  destruct (H3 _ _ _ _ Hr Hk) as (q & Hf & Hq).
  assert (p `prefix_of` (p ++ [c]) ++ r) as Hpr
    by (rewrite <-app_assoc; by apply prefix_app_r).
  assert (q ≠ []) as Hqn.
  { intros ->. destruct Hq as [[s E]|[_ ?]]; [by destruct p|done]. }
  exists q. split; [done|]. split; [set_solver|].
  destruct Hq as [Hq|[Hq _]]; [right; by etrans|]. by apply (prefix_cases q p ((p ++ [c]) ++ r)).
Qed.

Lemma path_cmp_order : TotalOrder path_cmp.
Proof.
  apply list_cmp_order. split.
  - apply then_with_preorder; [|apply _].
    apply (on_key_preorder component_rank N.compare). apply _.
  - intros a b. unfold component_cmp. rewrite then_with_Eq, (cmp_eq_iff str_cmp), N.compare_eq_iff.
    naive_solver.
Qed.
#[export] Existing Instance path_cmp_order.

(** The elements of a [BTreeSet], in increasing order. *)
Definition btree_sorted (l : list (list (list N))) : Prop :=
  StronglySorted (λ p q, path_cmp p q = Lt) l.

Lemma elem_of_btree_insert x p l : x ∈ btree_insert p l ↔ x = p ∨ x ∈ l.
Proof.
  induction l as [|q l IH]; simpl; [set_solver|].
  destruct (path_cmp p q) eqn:E; [|set_solver..]. apply (cmp_eq_iff path_cmp) in E as ->. set_solver.
Qed.

Lemma btree_insert_sorted p l : btree_sorted l → btree_sorted (btree_insert p l).
Proof.
  unfold btree_sorted. induction 1 as [|q l Hl IH Hq]; simpl; [by repeat constructor|].
  destruct (path_cmp p q) eqn:E; [by constructor..| |].
  - constructor; [by constructor|]. constructor; [done|].
    eapply Forall_impl; [exact Hq|]. intros x Hx. by eapply (cmp_Lt_trans path_cmp).
  - constructor; [done|]. apply Forall_forall. intros x [->|Hx]%elem_of_btree_insert.
    + by apply (cmp_Lt_Gt path_cmp).
    + by eapply Forall_forall in Hq.
Qed.

Lemma detect_conflict_spec K n acc p :
  trie_wf K n →
  let acc' := detect_conflict n acc p in
  (∀ x, x ∈ acc'.1 ↔ x ∈ acc.1 ∨ x = p ∧ conflicting n p)
  ∧ (btree_sorted acc.1 → btree_sorted acc'.1)
  ∧ (∀ x, x ∈ acc'.2 → x ∈ acc.2 ∨ x = p ∧ p ≠ []).
Proof.
  intros Hwf. destruct acc as [cs ds]. unfold detect_conflict.
  pose proof (find_target_spec n p) as H. destruct (find_target n p) as [found []].
  { destruct H as [-> (q & s & -> & Hq & Hs & Hf)]. simpl. split; [|split; [apply btree_insert_sorted|auto]].
    intros x. rewrite elem_of_btree_insert.
    assert (conflicting n (q ++ s)); [|naive_solver]. split; [by destruct q|].
    exists q. split; [done|]. split; [done|]. left. by apply prefix_app_r. }
  destruct H as [Hnb ->]. case_bool_decide as Hp; simpl.
  { split; [|by split; auto]. intros x. unfold conflicting. naive_solver. }
  assert (∀ q, q `prefix_of` p → q ≠ [] → files n q ≠ ∅ → q = p) as Habove.
  { intros q [s ->] Hq Hf. destruct s as [|c s]; [by rewrite app_nil_r|].
    destruct Hnb. by exists q, (c :: s). }
  destruct (get_node n p) as [m|] eqn:Em; simpl.
  - assert (files n p = terminals m) as Hm by (unfold files, look; by rewrite Em).
    case_bool_decide as Ht; simpl; [case_bool_decide as Hc; simpl|].
    + split; [|by split; auto]. intros x. split; [auto|]. intros [?|[-> [_ (q & Hq & Hf & Hc')]]]; [done|].
      exfalso. destruct Hc' as [Hc'|[[|c s] ->]].
      * rewrite (Habove q) in Hf by done. congruence.
      * rewrite app_nil_r in Hf. congruence.
      * apply Hf. unfold files. rewrite (look_app _ _ _ _ Em), look_cons, Hc, lookup_empty. done.
    + apply map_choose in Hc as (c & m' & Hc).
      assert (conflicting n p).
      { split; [done|]. apply (live_comparable K n p c Hwf Hp).
        rewrite (look_app _ _ _ _ Em), look_cons, Hc. by eexists. }
      split; [|split; [apply btree_insert_sorted|]].
      * intros x. rewrite elem_of_btree_insert. naive_solver.
      * intros x. rewrite elem_of_app, list_elem_of_singleton. naive_solver.
    + assert (conflicting n p).
      { split; [done|]. exists p. rewrite Hm. auto. }
      split; [|split; [apply btree_insert_sorted|auto]].
      intros x. rewrite elem_of_btree_insert. naive_solver.
  - split; [|by split; auto]. intros x. split; [auto|]. intros [?|[-> [_ (q & Hq & Hf & Hc)]]]; [done|].
    assert (look n p = None) as Hl by (unfold look; by rewrite Em).
    exfalso. destruct Hc as [Hc|[s ->]].
    + rewrite (Habove q) in Hf by done. unfold files in Hf. by rewrite Hl in Hf.
    + unfold files in Hf. by rewrite (look_app_None _ _ _ Hl) in Hf.
Qed.

(** ** Lemmas: the operations *)
Lemma detect_conflicts_spec K n paths :
  trie_wf K n →
  let '(conflicts, dir_inserts) := foldl (detect_conflict n) ([], []) paths in
  (∀ x, x ∈ conflicts ↔ x ∈ paths ∧ conflicting n x) ∧ btree_sorted conflicts
  ∧ (∀ x, x ∈ dir_inserts → x ∈ paths ∧ x ≠ []).
Proof.
  intros Hwf. induction paths as [|p paths IH] using rev_ind; simpl.
  { split; [set_solver|]. split; [constructor|set_solver]. }
  rewrite foldl_app. simpl. destruct (foldl _ _ paths) as [cs ds]. destruct IH as (Hc & Hs & Hd).
  pose proof (detect_conflict_spec K n (cs, ds) p Hwf) as (Hc' & Hs' & Hd').
  destruct (detect_conflict n (cs, ds) p) as [cs' ds']. simpl in *. split; [|split].
  - intros x. rewrite Hc', Hc. set_solver.
  - auto.
  - intros x [Hx|[-> ?]]%Hd'; [apply Hd in Hx|]; set_solver.
Qed.

Lemma insert_files_spec K paths package n :
  trie_wf K n → package ∈ K → (∀ p, p ∈ paths → is_relative p = true) →
  ∃ n', for_opt paths (λ p root, insert_file_owned p package root) n = Some n'
    ∧ trie_wf K n'
    ∧ ∀ q, files n' q = if decide (q ∈ paths) then {[package]} ∪ files n q else files n q.
Proof.
  revert n. induction paths as [|p paths IH]; intros n Hwf Hk Hrel; cbn [for_opt].
  { exists n. split; [done|]. split; [done|]. intros q. by rewrite decide_False by set_solver. }
  assert (insert_file_owned p package n = Some (insert_at p package n)) as ->
    by (unfold insert_file_owned; by rewrite Hrel by set_solver).
  cbn [mbind option_bind]. destruct (IH (insert_at p package n)) as (n' & -> & Hwf' & Hf);
    [by apply insert_at_wf|done|set_solver|].
  exists n'. split; [done|]. split; [done|]. intros q. rewrite Hf, files_insert_at.
  destruct (decide (q = p)) as [->|].
  - destruct (decide (p ∈ paths)), (decide (p ∈ p :: paths)); set_solver.
  - destruct (decide (q ∈ paths)), (decide (q ∈ p :: paths)); set_solver.
Qed.

Lemma propagates_spec K package dirs n :
  trie_wf K n → (∀ p, p ∈ dirs → p ≠ [] ∧ package ∈ files n p) →
  let n' := foldl (λ root pbuf, with_node_mut (propagate_prefix package) pbuf root) n dirs in
  trie_wf K n' ∧ ∀ q, files n' q = files n q.
Proof.
  revert n. induction dirs as [|p dirs IH]; intros n Hwf Hd; simpl; [done|].
  destruct (Hd p) as [Hp Hk]; [set_solver|].
  destruct (IH (with_node_mut (propagate_prefix package) p n)) as [Hwf' Hf].
  - by apply propagate_at_wf.
  - intros q Hq. rewrite files_propagate_at. apply Hd. set_solver.
  - split; [done|]. intros q. by rewrite Hf, files_propagate_at.
Qed.

Lemma insert_file_absolute paths package n :
  (∃ p, p ∈ paths ∧ is_relative p = false) →
  for_opt paths (λ p root, insert_file_owned p package root) n = None.
Proof.
  revert n. induction paths as [|q paths IH]; intros n (p & Hp & Hr); [set_solver|]. simpl.
  destruct (insert_file_owned q package n) as [n'|] eqn:E; [simpl|done]. apply IH.
  unfold insert_file_owned in E. destruct (is_relative q) eqn:Eq; [|done]. exists p. split; [|done]. apply elem_of_cons in Hp as [->|]; [congruence|done].
Qed.

Lemma indexset_insert_elem x y l : x ∈ indexset_insert y l ↔ x = y ∨ x ∈ l.
Proof. unfold indexset_insert. case_bool_decide; set_solver. Qed.

Lemma indexset_insert_nodup x l : NoDup l → NoDup (indexset_insert x l).
Proof.
  intros H. unfold indexset_insert. case_bool_decide; [done|]. apply NoDup_app.
  split; [done|]. split; [set_solver|apply NoDup_singleton].
Qed.

Lemma insert_package_spec r package paths :
  resolver_wf r → (∀ p, p ∈ paths → is_relative p = true) →
  ∃ r' conflicts, insert_package r package paths = Some (r', conflicts)
    ∧ resolver_wf r'
    ∧ packages r' = indexset_insert package (packages r)
    ∧ (∀ q, files (root r') q = if decide (q ∈ paths) then {[package]} ∪ files (root r) q
                               else files (root r) q)
    ∧ (∀ p, p ∈ conflicts ↔ p ∈ paths ∧ conflicting (root r) p)
    ∧ btree_sorted conflicts.
Proof.
  intros [Hn Hwf] Hrel. unfold insert_package.
  pose proof (detect_conflicts_spec _ _ paths Hwf) as Hdet.
  destruct (foldl (detect_conflict (root r)) ([], []) paths) as [cs ds].
  destruct Hdet as (Hc & Hs & Hd).
  assert (trie_wf (indexset_insert package (packages r)) (root r)) as Hwf0.
  { eapply trie_wf_mono; [|exact Hwf]. intros k ?. apply indexset_insert_elem. auto. }
  destruct (insert_files_spec _ paths package (root r) Hwf0) as (n & -> & Hwf1 & Hf1);
    [apply indexset_insert_elem; auto|done|].
  cbn [mbind option_bind].
  destruct (propagates_spec _ package ds n Hwf1) as [Hwf2 Hf2].
  { intros p Hp. destruct (Hd p Hp) as [? ?]. split; [done|].
    rewrite Hf1, decide_True by done. set_solver. }
  eexists _, _. split; [done|]. split.
  { split; simpl; [by apply indexset_insert_nodup|done]. }
  split; [done|]. split; [|done]. intros q. simpl. by rewrite Hf2.
Qed.

(** The files above a path, one component at a time. *)
Lemma files_above m a c s k q :
  children m !! c = Some a →
  q `prefix_of` c :: s ∧ k ∈ files m q ↔
  q = [] ∧ k ∈ terminals m ∨ ∃ q', q = c :: q' ∧ q' `prefix_of` s ∧ k ∈ files a q'.
Proof.
  intros Ea. destruct q as [|d q]; [rewrite files_nil; split|].
  - intros [_ ?]. auto.
  - intros [[_ ?]|(? & [=] & _)]. split; [apply prefix_nil|done].
  - rewrite files_cons. split.
    + intros [[? [= <- ->]] Hk]. rewrite Ea in Hk. right. exists q. split; [done|].
      split; [by apply prefix_app_r|done].
    + intros [[? _]|(q' & [= -> ->] & Hq & Hk)]; [done|]. rewrite Ea.
      split; [by apply prefix_cons|done].
Qed.

(** [collect_next_candidate_paths] visits the paths the package touches. *)
Lemma visits_closed k m under s :
  closed m → is_Some (look m s) →
  visits k m under s ↔ under = true ∨ (∃ q, q `prefix_of` s ∧ k ∈ files m q)
    ∨ ∃ P T, look m s = Some (P, T) ∧ k ∈ P.
Proof.
  revert m under. induction s as [|c s IH]; intros m under Hc [v Hv].
  - simpl. rewrite look_nil. split.
    + intros [[?|[?|?]] _]; [by left| |right; right; eauto].
      right. left. by exists [].
    + intros H. split; [|done]. destruct H as [?|[(q & Hq & Hk)|(P & T & [= <- <-] & ?)]]; [auto| |auto].
      apply prefix_nil_inv in Hq as ->. by right; left.
  - rewrite look_cons in Hv. cbn [visits].
    destruct (children m !! c) as [a|] eqn:Ea; [simpl in Hv|done].
    assert (closed a) as Hca by (by eapply closed_child).
    assert (∀ q, k ∈ files a q → k ∈ prefixes m) as Hup.
    { intros q Hq. destruct (files_prefixes m [] (c :: q) k Hc) as (P & T & E & ?).
      - simpl. by rewrite files_cons, Ea.
      - rewrite look_nil in E. by injection E as <- <-. }
    assert (∀ P T, look a s = Some (P, T) → k ∈ P → k ∈ prefixes m) as Hup'.
    { intros P T HPT Hk. destruct (Hc [] (c :: s) (prefixes m) (terminals m) P T) as [? _];
        [done|simpl; by rewrite look_cons, Ea|set_solver]. }
    setoid_rewrite (λ q, files_above m a c s k q Ea). rewrite look_cons, Ea. cbn [mbind option_bind].
    split.
    + intros [Hact (a' & [= <-] & Hv')]. apply IH in Hv'; [|done|by eexists].
      rewrite orb_true_iff, bool_decide_eq_true in Hv'.
      destruct Hv' as [[?|?]|[(q & ? & ?)|?]]; [by left| | |auto].
      * right. left. exists []. auto.
      * right. left. exists (c :: q). eauto.
    + intros H. split.
      * destruct H as [?|[(q & [[_ ?]|(q' & _ & _ & ?)])|(P & T & ? & ?)]]; eauto.
      * exists a. split; [done|]. apply IH; [done|by eexists|].
        rewrite orb_true_iff, bool_decide_eq_true.
        destruct H as [?|[(q & [[_ ?]|(q' & _ & ? & ?)])|?]]; eauto.
Qed.

Lemma visits_spec K n k s :
  trie_wf K n → is_Some (look n s) →
  visits k n false s ↔ ∃ q, k ∈ files n q ∧ (q `prefix_of` s ∨ s `prefix_of` q).
Proof.
  intros [_ Hc Ho _] Hs. rewrite visits_closed by done. destruct Hs as [[P T] Hs]. split.
  - intros [?|[(q & ? & ?)|(P' & T' & Hl & Hk)]]; [done|eauto|].
    destruct (Ho _ _ _ _ Hl Hk) as (q & ? & [?|[? _]]); eauto.
  - intros (q & Hk & [?|[s' ->]]); [eauto|]. right. right. by apply (files_prefixes n s s').
Qed.

(** Unregistering a package: the files that take the place of its own. *)
Lemma unregister_changes K n k candidates q p :
  trie_wf K n →
  (q, p) ∈ collect_next_candidate_paths k candidates n [] false [] ↔
  (∃ q', k ∈ files n q' ∧ (q' `prefix_of` q ∨ q `prefix_of` q')) ∧ first_in (files n q) candidates = Some p.
Proof.
  intros Hwf. rewrite elem_of_next_candidates. simpl. split.
  - intros [?%elem_of_nil|(s & -> & Hv & P & T & Hl & Hf)]; [done|].
    rewrite (look_files _ _ _ _ Hl). split; [|done].
    apply (visits_spec K n k s Hwf); [by eexists|done].
  - intros [Ht Hf]. right. exists q. split; [done|].
    pose proof (first_in_elem _ _ _ Hf) as [(P & T & Hl & Hp)%elem_of_files _].
    rewrite (look_files _ _ _ _ Hl) in Hf. split; [|eauto].
    apply (visits_spec K n k q Hwf); [by eexists|done].
Qed.

(** *** Reordering *)
Lemma indexset_extend l : NoDup l → foldl (λ l p, indexset_insert p l) [] l = l.
Proof.
  induction l as [|x l IH] using rev_ind; [done|]. intros (Hl & Hx & _)%NoDup_app.
  rewrite foldl_app. simpl. rewrite IH by done. unfold indexset_insert.
  rewrite bool_decide_eq_false_2; [done|]. intros ?. apply (Hx x); [done|set_solver].
Qed.

Lemma reordering (l k : list (list N)) :
  NoDup l → length l = length k → list_to_set (C:=gset _) l = list_to_set k → l ≡ₚ k.
Proof.
  intros Hl Hlen Hset. apply submseteq_length_Permutation; [|lia].
  apply NoDup_submseteq; [done|]. intros x Hx. rewrite <-(elem_of_list_to_set (C:=gset _)), <-Hset.
  by rewrite elem_of_list_to_set.
Qed.

(** Below a known trie the winners are the packages of highest priority. *)
Definition priority_winner (order : list (list N)) (n : PathTrieNode) : option (list N) :=
  first_in (prefixes n) order.

Lemma winner_priority K order n q m :
  trie_wf K n → K ≡ₚ order → NoDup order → get_node n q = Some m →
  winner (rank (reverse order)) m = priority_winner order m.
Proof.
  intros Hwf Hp Hn Hm. apply winner_first_in; [done|]. intros k Hk. rewrite <-Hp.
  apply (tw_known K n Hwf q (prefixes m) (terminals m)); [|done]. unfold look. by rewrite Hm.
Qed.

(** *** Undoing an insertion *)

(** What the other packages have at [q]. *)
Definition others (k : list N) (n : PathTrieNode) (q : list (list N)) : gset (list N) * gset (list N) :=
  default (∅, ∅) (prod_map (.∖ {[k]}) (.∖ {[k]}) <$> look n q).

(** [m] is [n] with more for [k] only. *)
Definition grown (k : list N) (n m : PathTrieNode) : Prop :=
  ∀ q, others k m q = others k n q ∧ (is_Some (look n q) → is_Some (look m q)).

Lemma grown_insert k n m p : grown k n m → grown k n (insert_at p k m).
Proof.
  intros H q. destruct (H q) as [<- Hs]. unfold others. rewrite look_insert_at.
  destruct (decide (q `prefix_of` p)); [|done]. split.
  - destruct (look m q) as [[P T]|]; simpl; f_equal; destruct (decide (q = p)); set_solver.
  - intros _. by destruct (default _ _).
Qed.

Lemma grown_propagate k n m p : grown k n m → grown k n (with_node_mut (propagate_prefix k) p m).
Proof.
  intros H q. destruct (H q) as [<- Hs]. unfold others. rewrite look_propagate_at.
  destruct (decide (p `prefix_of` q)); [|done]. destruct (look m q) as [[P T]|]; [|done].
  split; [simpl; f_equal; set_solver|by eexists].
Qed.

Lemma grown_insert_files k n m paths m' :
  grown k n m → for_opt paths (λ p root, insert_file_owned p k root) m = Some m' → grown k n m'.
Proof.
  revert m. induction paths as [|p paths IH]; intros m H; simpl; [by intros [= <-]|].
  destruct (insert_file_owned p k m) as [m1|] eqn:E; [simpl|done]. apply IH.
  unfold insert_file_owned in E. destruct (is_relative p); [|done]. injection E as <-.
  by apply grown_insert.
Qed.

Lemma grown_propagates k n m dirs :
  grown k n m → grown k n (foldl (λ root p, with_node_mut (propagate_prefix k) p root) m dirs).
Proof.
  revert m. induction dirs as [|p dirs IH]; intros m H; simpl; [done|].
  by apply IH, grown_propagate.
Qed.

(** Removing the package leaves the trie there was before. *)
Lemma grown_removed K k n m : trie_wf K n → k ∉ K → grown k n m → prune_children (rm k m) = n.
Proof.
  intros [H1 H2 _ H4] Hk Hg.
  assert (∀ q P T, look n q = Some (P, T) → others k n q = (P, T)) as Hn.
  { intros q P T Hq. unfold others. rewrite Hq. simpl.
    assert (k ∉ P) by eauto. destruct (H2 q [] P T P T Hq) as [_ ?]; [by rewrite app_nil_r|].
    f_equal; set_solver. }
  assert (∀ q P T, look n q = Some (P, T) →
    ∃ P' T', look m q = Some (P', T') ∧ P = P' ∖ {[k]} ∧ T = T' ∖ {[k]}) as Hm.
  { intros q P T Hq. destruct (Hg q) as [Ho Hs]. destruct Hs as [[P' T'] Hq']; [by eexists|].
    exists P', T'. split; [done|]. rewrite (Hn q P T Hq) in Ho. unfold others in Ho.
    rewrite Hq' in Ho. simpl in Ho. by injection Ho as -> ->. }
  apply trie_ext. intros q. apply option_eq. intros [P T]. rewrite look_unregister. split.
  - intros [(P' & T' & Hq & -> & ->) Hl]. destruct (look n q) as [[P0 T0]|] eqn:Eq.
    + destruct (Hm q P0 T0 Eq) as (P1 & T1 & E & -> & ->). rewrite Hq in E. by injection E as <- <-.
    + exfalso. destruct Hl as [->|(r & v & Hr & Ht)]; [done|].
      destruct (Hg (q ++ r)) as [Ho _]. unfold others in Ho.
      rewrite (look_app_None _ _ _ Eq) in Ho. rewrite look_rm in Hr.
      destruct (look m (q ++ r)) as [[P2 T2]|]; [|done]. simpl in *. injection Hr as <-.
      injection Ho as Ho1 Ho2. unfold touched in Ht. simpl in Ht. naive_solver.
  - intros Hq. split; [exact (Hm q P T Hq)|].
    destruct (H4 q _ Hq) as [->|(r & [P0 T0] & Hr & Ht)]; [by left|right].
    destruct (Hm _ _ _ Hr) as (P1 & T1 & Hr1 & -> & ->).
    exists r, (P1 ∖ {[k]}, T1 ∖ {[k]}). by rewrite look_rm, Hr1.
Qed.
