(* ===== verification/PathTheorems.v ===== *)
(** * What the path resolver guarantees

    The properties of PathTrie.v and PathResolver.v, for every resolver that the
    operations can build, with their witnesses. *)
From stdpp Require Import sorting.
From S2P Require Import Prelude PathTrie PathResolver.

(** The resolvers the operations build.  Paths are inserted as lists, so an
    insertion that panics (on an absolute path) builds nothing. *)
Inductive reachable : PathResolver → Prop :=
| reach_new : reachable path_resolver_new
| reach_insert r package paths r' conflicts :
    reachable r → insert_package r package paths = Some (r', conflicts) → reachable r'
| reach_unregister r package : reachable r → reachable (unregister_package r package).1
| reach_reprioritize r new_order r' changes :
    reachable r → reprioritize_packages r new_order = Some (r', changes) → reachable r'.

(** The packages with a file exactly at [q]. *)
Definition files_at (r : PathResolver) (q : list (list N)) : gset (list N) :=
  default ∅ (packages_for_exact r q).

Lemma files_at_root r q : files_at r q = files (root r) q.
Proof.
  unfold files_at, packages_for_exact, files, look. by destruct (get_node (root r) q).
Qed.

Lemma insert_relative r package paths r' conflicts p :
  insert_package r package paths = Some (r', conflicts) → p ∈ paths → is_relative p = true.
Proof.
  intros H Hp. destruct (is_relative p) eqn:E; [done|]. unfold insert_package in H.
  destruct (foldl (detect_conflict (root r)) ([], []) paths).
  by rewrite insert_file_absolute in H by eauto.
Qed.

Lemma reprioritize_inv r order r' changes :
  resolver_wf r → reprioritize_packages r order = Some (r', changes) →
  packages r ≡ₚ order ∧ packages r' = reverse order ∧ root r' = root r
  ∧ changes = reprioritize_dfs (rank (reverse (packages r))) (rank order) (root r) [] ([], []).
Proof.
  intros [Hn _]. unfold reprioritize_packages. destruct (negb _) eqn:E; [done|].
  apply negb_false_iff, andb_true_iff in E as [El Es].
  apply bool_decide_eq_true in El, Es. intros [= <- <-]. simpl.
  assert (packages r ≡ₚ order) as Hp by by apply reordering.
  rewrite indexset_extend; [done|]. by rewrite reverse_Permutation, <-Hp.
Qed.

Lemma reachable_wf r : reachable r → resolver_wf r.
Proof.
  induction 1 as [|r k paths r' cs _ IH E|r k _ [Hn Hwf]|r order r' ch _ IH E].
  - split; simpl; [by apply NoDup_nil|apply trie_wf_default].
  - destruct (insert_package_spec r k paths IH) as (r1 & cs1 & E1 & Hwf & _); [|congruence].
    intros p Hp. by eapply insert_relative.
  - unfold unregister_package. case_bool_decide; [done|]. split; simpl.
    + by apply NoDup_filter.
    + by apply unregister_wf.
  - destruct (reprioritize_inv _ _ _ _ IH E) as (Hp & Ep & Er & _). destruct IH as [Hn Hwf].
    split; [rewrite Ep, reverse_Permutation; by rewrite <-Hp|]. rewrite Er.
    eapply trie_wf_mono; [|exact Hwf]. intros k. by rewrite Ep, elem_of_reverse, Hp.
Qed.

Lemma filter_agree (P Q : list N → Prop) `{!∀ x, Decision (P x), !∀ x, Decision (Q x)}
    (l : list (list N)) :
  (∀ x, x ∈ l → P x ↔ Q x) → filter P l = filter Q l.
Proof.
  induction l as [|x l IH]; intros HPQ; [done|].
  rewrite !filter_cons, IH by (intros; apply HPQ; by right).
  specialize (HPQ x (list_elem_of_here _ _)).
  destruct (decide (P x)), (decide (Q x)); tauto.
Qed.

Lemma filter_neq (k : list N) (l : list (list N)) : k ∉ l → filter (λ p, p ≠ k) l = l.
Proof.
  induction l as [|x l IH]; intros H; [done|]. rewrite filter_cons, IH by set_solver.
  by rewrite decide_True by set_solver.
Qed.

(** *** A resolver to evaluate the properties on

    [a] has the files [x] and [d/y], [b] has [x] and the file [d]. *)
Definition pa : list N := txt "a".
Definition pb : list N := txt "b".
Definition px : list (list N) := [txt "x"].
Definition pdir : list (list N) := [txt "d"].
Definition pdy : list (list N) := [txt "d"; txt "y"].
Definition resolver_a : PathResolver :=
  default path_resolver_new (fst <$> insert_package path_resolver_new pa [px; pdy]).
Definition resolver_ab : PathResolver :=
  default path_resolver_new (fst <$> insert_package resolver_a pb [px; pdir]).

Lemma resolver_a_reachable : reachable resolver_a.
Proof.
  apply (reach_insert path_resolver_new pa [px; pdy] resolver_a []); [apply reach_new|].
  vm_compute. reflexivity.
Qed.
Lemma resolver_ab_reachable : reachable resolver_ab.
Proof.
  apply (reach_insert resolver_a pb [px; pdir] resolver_ab [pdir; px]); [apply resolver_a_reachable|].
  vm_compute. reflexivity.
Qed.

(** ** Invariant *)

(** C30: the well-formedness of the trie, kept by every sequence of insertions,
    removals and reorderings.  The packages have no repetition.  A package with a
    file at or below a path is one of [packages_for_prefix] there.  Conversely a
    package listed for a prefix is registered and has a file that contains the
    prefix as a directory, is the prefix, or is a file above it.  And no branch is
    left behind: every node but the root is above, at or below a file. *)
Theorem path_resolver_invariant (r : PathResolver) (Hr : reachable r) :
  NoDup (packages r)
  ∧ (∀ q s k, k ∈ files_at r (q ++ s) → ∃ P, packages_for_prefix r q = Some P ∧ k ∈ P)
  ∧ (∀ q P k, packages_for_prefix r q = Some P → k ∈ P →
       k ∈ packages r ∧ ∃ q', k ∈ files_at r q' ∧ (q `prefix_of` q' ∨ q' `prefix_of` q))
  ∧ (∀ q P, packages_for_prefix r q = Some P → q ≠ [] →
       ∃ q' k, k ∈ files_at r q' ∧ (q `prefix_of` q' ∨ q' `prefix_of` q)).
Proof.
  destruct (reachable_wf r Hr) as [Hn Hwf]. pose proof Hwf as [H1 H2 H3 H4].
  setoid_rewrite files_at_root. unfold packages_for_prefix.
  assert (∀ q P, prefixes <$> get_node (root r) q = Some P → ∃ T, look (root r) q = Some (P, T)) as Hlook.
  { intros q P. unfold look. destruct (get_node (root r) q) as [m|]; [|done]. intros [= <-]. by eexists. }
  split; [done|]. split; [|split].
  - intros q s k (P & T & Hl & Hk)%(files_prefixes _ q s k H2). exists P. split; [|done].
    unfold look in Hl. destruct (get_node (root r) q); [|done]. by injection Hl as <- _.
  - intros q P k [T Hl]%Hlook Hk. split; [by eapply H1|].
    destruct (H3 _ _ _ _ Hl Hk) as (q' & ? & [?|[? _]]); eauto.
  - intros q P [T Hl]%Hlook Hq. destruct (H4 _ _ Hl) as [|(s & [P' T'] & Hs & Ht)]; [done|].
    assert (∃ k, k ∈ P') as [k Hk].
    { destruct (H2 _ [] _ _ _ _ Hs ltac:(by rewrite app_nil_r)) as [_ ?].
      destruct Ht as [Ht|Ht]; apply set_choose_L in Ht as [k ?]; exists k; set_solver. }
    destruct (H3 _ _ _ _ Hs Hk) as (q' & Hf & Hc). exists q', k. split; [done|].
    destruct Hc as [?|[? _]]; [left; etrans; [by apply prefix_app_r|done]|].
    by apply (prefix_cases q q' (q ++ s)); [apply prefix_app_r|].
Qed.

Lemma path_resolver_invariant_witness :
  reachable resolver_ab ∧ NoDup (packages resolver_ab)
  ∧ ∃ P, packages_for_prefix resolver_ab pdir = Some P ∧ pa ∈ P.
Proof.
  split; [apply resolver_ab_reachable|].
  destruct (path_resolver_invariant resolver_ab resolver_ab_reachable) as (Hn & Hp & _).
  split; [exact Hn|]. apply (Hp pdir [txt "y"] pa). apply (bool_decide_unpack _); vm_compute; exact I.
Defined.

(** ** Insertion *)

(** C13: inserting a package.  On relative paths it succeeds; it adds the package
    to the owners of exactly those paths, and to the end of the priorities unless
    it is there; and it reports, in increasing order and once each, exactly the
    inserted paths that another file conflicts with: a file at the same path, a
    file at a directory above it, or a file below it.  With an absolute path among
    the paths it panics. *)
Theorem insert_package_correct (r : PathResolver) (package : list N) (paths : list (list (list N)))
  (Hr : reachable r) :
  if forallb is_relative paths then
    ∃ r' conflicts, insert_package r package paths = Some (r', conflicts)
      ∧ packages r' = (if bool_decide (package ∈ packages r) then packages r
                       else packages r ++ [package])
      ∧ (∀ q k, k ∈ files_at r' q ↔ k ∈ files_at r q ∨ k = package ∧ q ∈ paths)
      ∧ (∀ p, p ∈ conflicts ↔ p ∈ paths ∧ p ≠ []
           ∧ ∃ q, q ≠ [] ∧ files_at r q ≠ ∅ ∧ (q `prefix_of` p ∨ p `prefix_of` q))
      ∧ StronglySorted (λ p q, path_cmp p q = Lt) conflicts
  else insert_package r package paths = None.
Proof.
  destruct (forallb is_relative paths) eqn:Hrel.
  - assert (∀ p, p ∈ paths → is_relative p = true) as Hrel'.
    { rewrite forallb_forall in Hrel. intros p Hp. by apply Hrel, list_elem_of_In. }
    destruct (insert_package_spec r package paths (reachable_wf r Hr) Hrel')
      as (r' & cs & E & _ & Hp & Hf & Hc & Hs).
    exists r', cs. split; [done|]. split; [done|]. setoid_rewrite files_at_root. split; [|by split].
    intros q k. rewrite Hf. destruct (decide (q ∈ paths)); set_solver.
  - unfold insert_package. destruct (foldl _ _ paths). rewrite insert_file_absolute; [done|].
    apply not_true_iff_false in Hrel. rewrite forallb_forall in Hrel.
    destruct (decide (Exists (λ p, is_relative p = false) paths)) as [He|He].
    + by apply Exists_exists in He.
    + exfalso. apply Hrel. intros p Hp%list_elem_of_In. destruct (is_relative p) eqn:E; [done|].
      destruct He. apply Exists_exists. eauto.
Qed.

Lemma insert_package_correct_witness :
  reachable resolver_a
  ∧ insert_package resolver_a pb [px; pdir] = Some (resolver_ab, [pdir; px])
  ∧ (pdir ∈ [pdir; px] → ∃ q, q ≠ [] ∧ files_at resolver_a q ≠ ∅
       ∧ (q `prefix_of` pdir ∨ pdir `prefix_of` q)).
Proof.
  split; [apply resolver_a_reachable|].
  assert (insert_package resolver_a pb [px; pdir] = Some (resolver_ab, [pdir; px])) as E
    by (vm_compute; reflexivity).
  split; [exact E|]. intros H.
  destruct (insert_package_correct resolver_a pb [px; pdir] resolver_a_reachable)
    as (r' & cs & E' & _ & _ & Hc & _).
  rewrite E in E'. injection E' as _ <-. by apply (Hc pdir).
Defined.

(** ** Removal *)

(** C25: unregistering a package.  The package disappears from the priorities and
    from the owners of every path, and nothing else changes; nothing moves to the
    clobbers; and [(q, p)] comes back from the clobbers exactly when [p] is, among
    the packages of lower priority, the first with a file at [q], and the removed
    package has a file at, above or below [q]. *)
Theorem unregister_package_correct (r : PathResolver) (package : list N) (Hr : reachable r) :
  let '(r', (to_clobbers, from_clobbers)) := unregister_package r package in
  packages r' = filter (λ p, p ≠ package) (packages r)
  ∧ (∀ q, files_at r' q = files_at r q ∖ {[package]})
  ∧ to_clobbers = []
  ∧ (∀ q p, (q, p) ∈ from_clobbers ↔
       (∃ q', package ∈ files_at r q' ∧ (q' `prefix_of` q ∨ q `prefix_of` q'))
       ∧ first_in (files_at r q) (after package (packages r)) = Some p).
Proof.
  destruct (reachable_wf r Hr) as [Hn Hwf]. unfold unregister_package. case_bool_decide as Hk.
  - assert (∀ q, package ∉ files_at r q) as Hno.
    { intros q Hq. rewrite files_at_root in Hq. apply Hk.
      destruct (files_prefixes (root r) q [] package (tw_closed _ _ Hwf)) as (P & T & ? & ?);
        [by rewrite app_nil_r|]. by eapply (tw_known _ _ Hwf). }
    split; [|split; [|split; [done|]]].
    + symmetry. by apply filter_neq.
    + intros q. specialize (Hno q). set_solver.
    + intros q p. split; [by intros ?%elem_of_nil|]. by intros [(q' & ? & _) _]; destruct (Hno q').
  - split; [done|]. setoid_rewrite files_at_root. simpl. split; [intros q; apply files_unregister|].
    split; [done|]. intros q p. by apply (unregister_changes (packages r)).
Qed.

Lemma unregister_package_correct_witness :
  reachable resolver_ab
  ∧ (unregister_package resolver_ab pa).2 = ([], [(pdir, pb); (px, pb)])
  ∧ first_in (files_at resolver_ab pdir) (after pa (packages resolver_ab)) = Some pb.
Proof.
  split; [apply resolver_ab_reachable|].
  pose proof (unregister_package_correct resolver_ab pa resolver_ab_reachable) as H.
  assert ((unregister_package resolver_ab pa).2 = ([], [(pdir, pb); (px, pb)])) as E
    by (vm_compute; reflexivity).
  split; [exact E|]. destruct (unregister_package resolver_ab pa) as [r' [to from]].
  simpl in E. injection E as -> ->. destruct H as (_ & _ & _ & H).
  apply (H pdir pb). by left.
Defined.

(** Unregistering undoes inserting.  Inserting a package the resolver does
    not have and unregistering it gives back the same resolver: the same
    priorities and, node for node, the same trie. *)
Theorem unregister_undoes_insert (r r' : PathResolver) (package : list N)
  (paths conflicts : list (list (list N))) (Hr : reachable r) (Hnew : package ∉ packages r)
  (Hins : insert_package r package paths = Some (r', conflicts)) :
  (unregister_package r' package).1 = r.
Proof.
  destruct (reachable_wf r Hr) as [Hn Hwf]. unfold insert_package in Hins.
  destruct (foldl (detect_conflict (root r)) ([], []) paths) as [cs ds].
  destruct (for_opt paths _ (root r)) as [n|] eqn:En; [|done]. injection Hins as <- _.
  assert (grown package (root r) (root r)) as Hg by done.
  apply (grown_insert_files _ _ _ _ _ Hg), (grown_propagates _ _ _ ds) in En.
  unfold unregister_package. simpl. unfold indexset_insert.
  rewrite (bool_decide_eq_false_2 (package ∈ packages r)) by done.
  rewrite bool_decide_eq_false_2 by set_solver. simpl.
  rewrite (grown_removed _ _ _ _ Hwf Hnew En). destruct r as [root ps]. simpl in *. f_equal.
  rewrite filter_app, filter_cons_False, filter_nil, app_nil_r by naive_solver.
  by apply filter_neq.
Qed.

Lemma unregister_undoes_insert_witness :
  pb ∉ packages resolver_a
  ∧ insert_package resolver_a pb [px; pdir] = Some (resolver_ab, [pdir; px])
  ∧ (unregister_package resolver_ab pb).1 = resolver_a.
Proof.
  assert (pb ∉ packages resolver_a) as Hn by (apply (bool_decide_unpack _); vm_compute; exact I).
  assert (insert_package resolver_a pb [px; pdir] = Some (resolver_ab, [pdir; px])) as E
    by (vm_compute; reflexivity).
  split; [exact Hn|]. split; [exact E|].
  exact (unregister_undoes_insert resolver_a resolver_ab pb _ _ resolver_a_reachable Hn E).
Defined.

(** ** Reordering *)

(** The package whose file is on disk at [q]: at every directory on the way the
    package of highest priority decides, a file hides what is below it. *)
Definition disk (r : PathResolver) (q : list (list N)) : option (list N) :=
  on_disk (priority_winner (packages r)) (root r) q.

(** C14: reprioritizing moves the right files.  Given a permutation of the packages
    (lowest priority first; anything else panics) it sets the priorities to it and
    leaves the trie alone.  The files to take from the clobbers are exactly those
    that are on disk under the new priorities and were not there for that package
    under the old ones.  The files to move to the clobbers include every file that
    was on disk and no longer is, and never one that stays. *)
Theorem reprioritize_packages_correct (r : PathResolver) (new_order : list (list N))
  (Hr : reachable r) :
  (¬ packages r ≡ₚ new_order → reprioritize_packages r new_order = None)
  ∧ (packages r ≡ₚ new_order →
     ∃ r' to_clobbers from_clobbers,
       reprioritize_packages r new_order = Some (r', (to_clobbers, from_clobbers))
       ∧ packages r' = reverse new_order ∧ root r' = root r
       ∧ (∀ q p, (q, p) ∈ from_clobbers ↔ disk r' q = Some p ∧ disk r q ≠ Some p)
       ∧ (∀ q p, disk r q = Some p → disk r' q ≠ Some p → (q, p) ∈ to_clobbers)
       ∧ (∀ q p, (q, p) ∈ to_clobbers → disk r' q ≠ Some p
            ∧ file_at (priority_winner (packages r)) (root r) q = Some p)).
Proof.
  pose proof (reachable_wf r Hr) as Hwfr. destruct Hwfr as [Hn Hwf]. split; intros Hp.
  { destruct (reprioritize_packages r new_order) as [[r' ch]|] eqn:E; [|done].
    apply reprioritize_inv in E as (? & _); [done|by split]. }
  destruct (reprioritize_packages r new_order) as [[r' ch]|] eqn:E.
  2: { unfold reprioritize_packages in E. rewrite !bool_decide_eq_true_2 in E; [done| |].
       - apply leibniz_equiv. by rewrite Hp.
       - by rewrite Hp. }
  apply reprioritize_inv in E as (_ & Ep & Er & ->); [|by split].
  set (ch := reprioritize_dfs _ _ _ _ _).
  assert (∀ q m, get_node (root r) q = Some m →
    winner (rank (reverse (packages r))) m = priority_winner (packages r) m) as Hold
    by (intros q m; by apply (winner_priority (packages r))).
  assert (∀ q m, get_node (root r) q = Some m →
    winner (rank new_order) m = priority_winner (reverse new_order) m) as Hnew.
  { intros q m Hm. rewrite <-(reverse_involutive new_order) at 1.
    apply (winner_priority (packages r) _ (root r) q m Hwf); [|by rewrite reverse_Permutation, <-Hp|done].
    by rewrite reverse_Permutation. }
  assert (∀ q, on_disk (winner (rank (reverse (packages r)))) (root r) q = disk r q) as Hd
    by (intros q; by apply on_disk_ext).
  assert (∀ q, on_disk (winner (rank new_order)) (root r) q = disk r' q) as Hd'
    by (intros q; unfold disk; rewrite Ep, Er; by apply on_disk_ext).
  assert (∀ q, file_at (winner (rank (reverse (packages r)))) (root r) q
    = file_at (priority_winner (packages r)) (root r) q) as Hfa.
  { intros q. unfold file_at. destruct (get_node (root r) q) as [m|] eqn:Em; [simpl|done].
    unfold file_of. by rewrite (Hold q m Em). }
  exists r', ch.1, ch.2. split; [by destruct ch|]. split; [done|]. split; [done|].
  split; [|split]; intros q p.
  - unfold ch. rewrite elem_of_from_clobbers by apply Hwf. simpl. split.
    + intros [?%elem_of_nil|(s & -> & H)]; [done|]. by rewrite Hd, Hd' in H.
    + rewrite <-Hd, <-Hd'. intros H. right. by exists q.
  - rewrite <-Hd, <-Hd'. intros H1 H2. apply elem_of_to_clobbers. right. exists q.
    split; [done|]. by apply displaced_complete.
  - intros [?%elem_of_nil|(s & -> & H)]%elem_of_to_clobbers; [done|].
    apply displaced_sound in H as [H1 H2]. by rewrite Hd' in H2; rewrite Hfa in H1.
Qed.

Lemma reprioritize_packages_correct_witness :
  reachable resolver_ab ∧ packages resolver_ab ≡ₚ [pa; pb]
  ∧ ∃ r' to_clobbers from_clobbers,
      reprioritize_packages resolver_ab [pa; pb] = Some (r', (to_clobbers, from_clobbers))
      ∧ packages r' = [pb; pa].
Proof.
  split; [apply resolver_ab_reachable|].
  assert (packages resolver_ab ≡ₚ [pa; pb]) as Hp by (vm_compute; reflexivity).
  split; [exact Hp|].
  destruct (reprioritize_packages_correct resolver_ab [pa; pb] resolver_ab_reachable) as [_ H].
  destruct (H Hp) as (r' & to & from & E & Ep & _). exists r', to, from. by split.
Defined.

(** ** Queries *)

(** The two reports of clobbered files agree.  [find_conflicts] lists exactly
    the paths with more than one owner, with the owners;
    [collect_clobbered_paths] records for a path the owner of highest priority as
    the winner and the owners with another name, as a path, as the losers; and
    when different packages have different names as paths the two report the
    same paths. *)
Theorem clobbered_paths_correct (r : PathResolver) (Hr : reachable r)
  (Hnames : ∀ a b, a ∈ packages r → b ∈ packages r →
    path_components a = path_components b → a = b) :
  (∀ q owners, (q, owners) ∈ find_conflicts r ↔
     1 < size (files_at r q) ∧ owners = elements (files_at r q))
  ∧ (∀ q cp, collect_clobbered_paths r !! q = Some cp ↔
       first_in (files_at r q) (packages r) = Some (cp_winner cp)
       ∧ cp_losers cp = filter (λ p, p ≠ cp_winner cp) (elements (files_at r q))
       ∧ cp_losers cp ≠ [])
  ∧ (∀ q, is_Some (collect_clobbered_paths r !! q) ↔ ∃ owners, (q, owners) ∈ find_conflicts r).
Proof.
  destruct (reachable_wf r Hr) as [Hn Hwf].
  assert (Hown : ∀ q k, k ∈ files_at r q → k ∈ packages r).
  { intros q k Hk. rewrite files_at_root in Hk.
    destruct (files_prefixes (root r) q [] k (tw_closed _ _ Hwf)) as (P & T & ? & ?);
      [by rewrite app_nil_r|]. by eapply (tw_known _ _ Hwf). }
  assert (Hfind : ∀ q owners, (q, owners) ∈ find_conflicts r ↔
     1 < size (files_at r q) ∧ owners = elements (files_at r q)).
  { intros q owners. rewrite files_at_root. unfold find_conflicts.
    rewrite elem_of_conflicts. simpl. unfold files. split.
    - intros [?%elem_of_nil|(s & -> & P & T & -> & ? & ->)]; done.
    - destruct (look (root r) q) as [[P T]|] eqn:E; simpl.
      + intros [? ->]. right. exists q. eauto 6.
      + intros [Hs _]. vm_compute in Hs. lia. }
  assert (Hclob : ∀ q cp, collect_clobbered_paths r !! q = Some cp ↔
       first_in (files_at r q) (packages r) = Some (cp_winner cp)
       ∧ cp_losers cp = filter (λ p, p ≠ cp_winner cp) (elements (files_at r q))
       ∧ cp_losers cp ≠ []).
  { intros q cp.
    assert (collect_clobbered_paths r !! q = clobber_of (packages r) (files_at r q)) as ->.
    { rewrite files_at_root. unfold collect_clobbered_paths.
      pose proof (clobbered_dfs_lookup (packages r) (root r) [] ∅ q) as H. simpl in H. rewrite H.
      rewrite lookup_empty. unfold files. destruct (look (root r) q) as [[P T]|]; simpl; [by destruct (clobber_of _ T)|].
      unfold clobber_of. destruct (first_in ∅ (packages r)) as [w|] eqn:E; [|done].
      by apply first_in_elem in E as [? _]. }
    unfold clobber_of. destruct (first_in (files_at r q) (packages r)) as [w|] eqn:Ew; [simpl|naive_solver].
    apply first_in_elem in Ew as [_ Hw].
    assert (filter (λ p, path_components p ≠ path_components w) (elements (files_at r q))
      = filter (λ p, p ≠ w) (elements (files_at r q))) as ->.
    { apply filter_agree. intros p Hp%elem_of_elements%Hown.
      split; intros Hne E; apply Hne; [by subst|by apply Hnames]. }
    case_bool_decide as Hempty; [naive_solver congruence|].
    destruct cp as [w' l]. simpl. naive_solver. }
  split; [done|]. split; [done|]. intros q. split.
  - intros [cp (Hf & Hl & Hne)%Hclob]. exists (elements (files_at r q)). apply Hfind. split; [|done].
    destruct (cp_losers cp) as [|x l] eqn:El; [done|].
    assert (x ∈ filter (λ p, p ≠ cp_winner cp) (elements (files_at r q))) as Hx by (rewrite <-Hl; set_solver).
    apply list_elem_of_filter in Hx as [Hx1 Hx2%elem_of_elements].
    apply first_in_elem in Hf as [Hf _].
    assert (({[x; cp_winner cp]} : gset (list N)) ⊆ files_at r q) as Hs%subseteq_size by set_solver.
    rewrite size_union, !size_singleton in Hs by set_solver. lia.
  - intros (os & [Hs ->]%Hfind).
    destruct (first_in (files_at r q) (packages r)) as [w|] eqn:Ew.
    + exists (mkClobberedPath w (filter (λ p, p ≠ w) (elements (files_at r q)))). apply Hclob.
      simpl. split; [done|]. split; [done|]. intros Hnil.
      assert (files_at r q ⊆ {[w]}) as Hle%subseteq_size.
      { intros x Hx. destruct (decide (x = w)) as [->|Hne]; [set_solver|exfalso].
        apply (elem_of_nil (A:=list N) x). rewrite <-Hnil. apply list_elem_of_filter.
        split; [done|]. by apply elem_of_elements. }
      rewrite size_singleton in Hle. lia.
    + exfalso. rewrite first_in_None in Ew.
      destruct (set_choose_L (files_at r q)) as [x Hx]; [intros E; rewrite E, size_empty in Hs; lia|].
      by apply (Ew x); [apply Hown in Hx|].
Qed.

Lemma clobbered_paths_correct_witness :
  reachable resolver_ab
  ∧ collect_clobbered_paths resolver_ab !! px = Some (mkClobberedPath pa [pb])
  ∧ ∃ owners, (px, owners) ∈ find_conflicts resolver_ab.
Proof.
  split; [apply resolver_ab_reachable|].
  assert (collect_clobbered_paths resolver_ab !! px = Some (mkClobberedPath pa [pb])) as E
    by (vm_compute; reflexivity).
  split; [exact E|].
  apply (clobbered_paths_correct resolver_ab resolver_ab_reachable).
  - assert (packages resolver_ab = [pa; pb]) as -> by (vm_compute; reflexivity).
    intros a b Ha Hb. repeat setoid_rewrite elem_of_cons in Ha; repeat setoid_rewrite elem_of_cons in Hb.
    rewrite elem_of_nil in Ha, Hb.
    destruct Ha as [->|[->|[]]], Hb as [->|[->|[]]]; vm_compute; congruence.
  - exists (mkClobberedPath pa [pb]). exact E.
Defined.

(** *** Where the documentation and the code part

    Three packages, in this order: [a] and [b] with the file [foo], [c] with
    [foo/bar].  Removing [a] asks for both [foo] of [b] and [foo/bar] of [c], a file
    and a file below it: the walk does not stop at a file that takes a place, as
    the one of [reprioritize_packages] does. *)
Definition resolver_abc : option PathResolver :=
  '(r, _) ← insert_package path_resolver_new (txt "a") [[txt "foo"]];
  '(r, _) ← insert_package r (txt "b") [[txt "foo"]];
  '(r, _) ← insert_package r (txt "c") [[txt "foo"; txt "bar"]];
  Some r.

Lemma unregister_file_and_below :
  (λ r, (unregister_package r (txt "a")).2) <$> resolver_abc
  = Some ([], [([txt "foo"], txt "b"); ([txt "foo"; txt "bar"], txt "c")]).
Proof. vm_compute. reflexivity. Qed.
