(* ===== verification/BarrierCell.v ===== *)
(** * The barrier cell

    [rattler_repodata_gateway/src/gateway/barrier_cell.rs]: a cell that one thread
    sets and any number of threads wait for.  Every atomic access of [wait] and
    [set] is a step of the thread that makes it; the threads interleave freely.
    The model is sequentially consistent: the memory orders of the accesses are
    not represented. *)
From S2P Require Import Prelude.

(** ** The notification primitive

    [tokio::sync::Notify], as far as the cell uses it and as its documentation
    describes it: a [Notified] future receives the wake-up of every
    [notify_waiters] called after the future was created, polled or not, and is
    not ready before one is called. *)
Class Notify := {
  NotifyState : Type;
  Notified : Type;
  notify_new : NotifyState;
  notified : NotifyState → Notified;
  notify_waiters : NotifyState → NotifyState;
  notified_ready : NotifyState → Notified → bool;
  (* the future was created in this state or an earlier one *)
  issued : NotifyState → Notified → Prop;
  notified_issued s : issued s (notified s);
  notified_not_ready s : notified_ready s (notified s) = false;
  notify_issued s t : issued s t → issued (notify_waiters s) t;
  notify_ready s t : issued s t → notified_ready (notify_waiters s) t = true
}.

(** A counter of the calls of [notify_waiters]. *)
#[export, refine] Instance notify_ref : Notify := {|
  NotifyState := nat;
  Notified := nat;
  notify_new := 0;
  notified s := s;
  notify_waiters s := S s;
  notified_ready s t := (t <? s)%nat;
  issued s t := t ≤ s
|}.
Proof. all: intros; simpl in *; rewrite ?Nat.ltb_ge, ?Nat.ltb_lt; lia. Defined.

(** ** Definitions *)
Inductive BarrierCellState : Type := Uninitialized | Initializing | Initialized.
#[export] Instance barrier_cell_state_eq_dec : EqDecision BarrierCellState.
Proof. solve_decision. Defined.

Inductive SetError : Type := AlreadySet.

Section cell.
Context `{NF : Notify} {T : Type}.

(** [None] is uninitialised memory. *)
Record BarrierCell := mkBarrierCell {
  state : BarrierCellState;
  value : option T;
  notify : NotifyState
}.

Definition barrier_cell_new : BarrierCell := mkBarrierCell Uninitialized None notify_new.

(** Where a thread is in [wait] or [set]. *)
Inductive Pc : Type :=
| WaitLoad (notified : Notified)       (* [notified] created, the state not read yet *)
| WaitNotified (notified : Notified)   (* [notified.await] *)
| WaitRead                             (* about to read the value *)
| WaitDone (read : option T)           (* what [assume_init_ref] found *)
| SetExchange (value : T)              (* about to [compare_exchange] *)
| SetWrite (value : T)                 (* about to write the value *)
| SetStore (value : T)                 (* about to store [Initialized] *)
| SetNotify (value : T)                (* about to [notify_waiters] *)
| SetDone (value : T) (r : result SetError unit).

(** The next step of a thread; [None] when it is blocked or has returned. *)
Definition advance (c : BarrierCell) (pc : Pc) : option (BarrierCell * Pc) :=
  match pc with
  | WaitLoad notified =>
      if bool_decide (state c ≠ Initialized) then Some (c, WaitNotified notified)
      else Some (c, WaitRead)
  | WaitNotified notified =>
      if notified_ready (notify c) notified then Some (c, WaitRead) else None
  | WaitRead => Some (c, WaitDone (value c))
  | WaitDone _ => None
  | SetExchange v =>
      if bool_decide (state c = Uninitialized)
      then Some (mkBarrierCell Initializing (value c) (notify c), SetWrite v)
      else Some (c, SetDone v (Err AlreadySet))
  | SetWrite v => Some (mkBarrierCell (state c) (Some v) (notify c), SetStore v)
  | SetStore v => Some (mkBarrierCell Initialized (value c) (notify c), SetNotify v)
  | SetNotify v => Some (mkBarrierCell (state c) (value c) (notify_waiters (notify c)), SetDone v (Ok tt))
  | SetDone _ _ => None
  end.

(** The first step of [wait] creates the future; [set] starts at the exchange. *)
Definition wait_start (c : BarrierCell) : Pc := WaitLoad (notified (notify c)).
Definition set_start (v : T) : Pc := SetExchange v.

(** [Drop]: the value is dropped when it was initialised. *)
Definition barrier_cell_drop (c : BarrierCell) : option T :=
  if bool_decide (state c = Initialized) then value c else None.

(** A thread running alone. *)
Fixpoint run (fuel : nat) (c : BarrierCell) (pc : Pc) : Pc :=
  match fuel with
  | 0 => pc
  | S f => match advance c pc with Some (c', pc') => run f c' pc' | None => pc end
  end.

(** A cell and the threads that use it. *)
Record CellWorld := mkCellWorld { cell : BarrierCell; threads : gmap nat Pc }.

Inductive cell_step : CellWorld → CellWorld → Prop :=
| step_wait c ts i :
    ts !! i = None → cell_step (mkCellWorld c ts) (mkCellWorld c (<[i := wait_start c]> ts))
| step_set c ts i v :
    ts !! i = None → cell_step (mkCellWorld c ts) (mkCellWorld c (<[i := set_start v]> ts))
| step_advance c ts i pc c' pc' :
    ts !! i = Some pc → advance c pc = Some (c', pc') →
    cell_step (mkCellWorld c ts) (mkCellWorld c' (<[i := pc']> ts)).

Definition cell_world_new : CellWorld := mkCellWorld barrier_cell_new ∅.
Definition cell_world_reachable (w : CellWorld) : Prop := rtc cell_step cell_world_new w.

(** ** The invariant *)

(** A thread before the value is there. *)
Definition early (c : BarrierCell) (pc : Pc) : Prop :=
  match pc with
  | WaitLoad t | WaitNotified t => issued (notify c) t ∧ notified_ready (notify c) t = false
  | SetExchange _ => True
  | SetDone _ r => r = Err AlreadySet ∧ state c ≠ Uninitialized
  | _ => False
  end.

(** A thread after [v] was stored; [told] when the waiters were notified. *)
Definition late (c : BarrierCell) (v : T) (told : bool) (pc : Pc) : Prop :=
  match pc with
  | WaitLoad t => issued (notify c) t
  | WaitNotified t => issued (notify c) t ∧ (told = true → notified_ready (notify c) t = true)
  | WaitRead | SetExchange _ => True
  | WaitDone r => r = Some v
  | SetDone _ r => r = Err AlreadySet
  | _ => False
  end.

(** The thread that won the exchange. *)
Inductive owner (c : BarrierCell) (v : T) : Pc → Prop :=
| owner_write : state c = Initializing → value c = None → owner c v (SetWrite v)
| owner_store : state c = Initializing → value c = Some v → owner c v (SetStore v)
| owner_notify : state c = Initialized → value c = Some v → owner c v (SetNotify v)
| owner_done : state c = Initialized → value c = Some v → owner c v (SetDone v (Ok tt)).

Definition is_done (pc : Pc) : bool := match pc with SetDone _ _ => true | _ => false end.

Inductive cell_world_ok (w : CellWorld) : Prop :=
| ok_unset :
    state (cell w) = Uninitialized → value (cell w) = None →
    (∀ i pc, threads w !! i = Some pc → early (cell w) pc) → cell_world_ok w
| ok_owned o v po :
    threads w !! o = Some po → owner (cell w) v po →
    (∀ i pc, i ≠ o → threads w !! i = Some pc →
      if bool_decide (state (cell w) = Initialized) then late (cell w) v (is_done po) pc
      else early (cell w) pc) →
    cell_world_ok w.

Lemma cell_world_new_ok : cell_world_ok cell_world_new.
Proof.
  apply ok_unset; [done..|]. intros i pc H. unfold cell_world_new in H. simpl in H.
  by rewrite lookup_empty in H.
Qed.

(** A thread joins. *)
Lemma cell_start_ok c ts i pc :
  cell_world_ok (mkCellWorld c ts) → ts !! i = None → pc = wait_start c ∨ (∃ x, pc = set_start x) →
  cell_world_ok (mkCellWorld c (<[i := pc]> ts)).
Proof.
  intros Hw Hi Hpc.
  assert (early c pc) as He.
  { destruct Hpc as [->|[x ->]]; [|done]. split; [apply notified_issued|apply notified_not_ready]. }
  assert (∀ v told, late c v told pc) as Hl.
  { intros v told. destruct Hpc as [->|[x ->]]; [apply notified_issued|done]. }
  destruct Hw as [Hs Hv Hall|o v po Ho Hown Hall]; simpl in *.
  - apply ok_unset; [done..|]. simpl.
    intros j q [[-> <-]|[_ Hj]]%lookup_insert_Some; [done|by apply (Hall j)].
  - assert (i ≠ o) by congruence. apply (ok_owned _ o v po); simpl; [by rewrite lookup_insert_ne|done|].
    intros j q Hj [[-> <-]|[_ Hq]]%lookup_insert_Some; [by case_bool_decide|by apply (Hall j)].
Qed.

(** A step that leaves the cell alone. *)
Lemma step_local_ok c ts i pc pc' :
  cell_world_ok (mkCellWorld c ts) → ts !! i = Some pc → advance c pc = Some (c, pc') →
  match pc with
  | WaitLoad _ | WaitNotified _ | WaitRead => True
  | SetExchange _ => state c ≠ Uninitialized
  | _ => False
  end →
  cell_world_ok (mkCellWorld c (<[i := pc']> ts)).
Proof.
  intros Hw Hi Hadv Hpc. destruct Hw as [Hs Hv Hall|o v po Ho Hown Hall]; simpl in *.
  - apply ok_unset; [done..|]. simpl. intros j q [[-> <-]|[_ Hj]]%lookup_insert_Some; [|by apply (Hall j)].
    specialize (Hall _ _ Hi). destruct pc as [t|t| | | | | | |]; simpl in *; try done.
    + rewrite bool_decide_eq_true_2 in Hadv by congruence. by injection Hadv as <-.
    + destruct Hall as [_ Hr]. by rewrite Hr in Hadv.
  - assert (i ≠ o) as Hio by (intros ->; rewrite Hi in Ho; injection Ho as ->; by inversion Hown; subst).
    apply (ok_owned _ o v po); simpl; [by rewrite lookup_insert_ne|done|].
    intros j q Hj [[-> <-]|[_ Hq]]%lookup_insert_Some; [|by apply (Hall j)].
    specialize (Hall _ _ Hj Hi). case_bool_decide as Hst.
    + destruct pc as [t|t| | | | | | |]; simpl in *; try done.
      * rewrite bool_decide_eq_false_2 in Hadv by naive_solver. by injection Hadv as <-.
      * destruct (notified_ready _ _); [|done]. by injection Hadv as <-.
      * injection Hadv as <-. simpl. inversion Hown; subst; congruence.
      * rewrite bool_decide_eq_false_2 in Hadv by done. by injection Hadv as <-.
    + destruct pc as [t|t| | | | | | |]; simpl in *; try done.
      * rewrite bool_decide_eq_true_2 in Hadv by done. by injection Hadv as <-.
      * destruct Hall as [_ Hr]. by rewrite Hr in Hadv.
      * rewrite bool_decide_eq_false_2 in Hadv by done. by injection Hadv as <-.
Qed.

Lemma early_exchange c pc x :
  state c = Uninitialized → early c pc → early (mkBarrierCell Initializing x (notify c)) pc.
Proof. intros Hs. destruct pc; simpl; naive_solver. Qed.

(** The thread that sets the cell. *)
Lemma step_owner_ok c ts i pc c' pc' :
  cell_world_ok (mkCellWorld c ts) → ts !! i = Some pc → advance c pc = Some (c', pc') →
  match pc with
  | SetWrite _ | SetStore _ | SetNotify _ => True
  | SetExchange _ => state c = Uninitialized
  | _ => False
  end →
  cell_world_ok (mkCellWorld c' (<[i := pc']> ts)).
Proof.
  intros Hw Hi Hadv Hpc. destruct Hw as [Hs Hv Hall|o v po Ho Hown Hall]; simpl in *.
  - pose proof (Hall _ _ Hi) as He. destruct pc as [| | | |v| | | |]; simpl in *; try done.
    rewrite bool_decide_eq_true_2 in Hadv by done. injection Hadv as <- <-.
    apply (ok_owned _ i v (SetWrite v)); simpl; [apply lookup_insert_eq|by constructor|].
    intros j q Hj [[? _]|[_ Hq]]%lookup_insert_Some; [done|].
    apply early_exchange; eauto.
  - assert (i = o) as ->.
    { destruct (decide (i = o)) as [|Hne]; [done|exfalso]. specialize (Hall _ _ Hne Hi).
      inversion Hown; subst; case_bool_decide; destruct pc; simpl in *; congruence || naive_solver. }
    rewrite Hi in Ho. injection Ho as ->.
    inversion Hown as [Hs Hv|Hs Hv|Hs Hv|Hs Hv]; subst; simpl in *; try done; injection Hadv as <- <-.
    + apply (ok_owned _ o v (SetStore v)); simpl; [apply lookup_insert_eq|by constructor|].
      intros j q Hj [[? _]|[_ Hq]]%lookup_insert_Some; [done|].
      specialize (Hall j q Hj Hq). rewrite !Hs in *.
      rewrite bool_decide_eq_false_2 in Hall by done. rewrite ?bool_decide_eq_false_2 by done.
      destruct q; simpl in *; naive_solver.
    + apply (ok_owned _ o v (SetNotify v)); simpl; [apply lookup_insert_eq|by constructor|].
      intros j q Hj [[? _]|[_ Hq]]%lookup_insert_Some; [done|].
      specialize (Hall j q Hj Hq). rewrite !Hs in *.
      rewrite bool_decide_eq_false_2 in Hall by done. rewrite ?bool_decide_eq_true_2 by done.
      destruct q; simpl in *; naive_solver.
    + apply (ok_owned _ o v (SetDone v (Ok tt))); simpl; [apply lookup_insert_eq|by constructor|].
      intros j q Hj [[? _]|[_ Hq]]%lookup_insert_Some; [done|].
      specialize (Hall j q Hj Hq). rewrite !Hs in *.
      rewrite bool_decide_eq_true_2 in Hall by done. rewrite ?bool_decide_eq_true_2 by done.
      destruct q; simpl in *; try done; [by apply notify_issued|].
      split; [|intros _]; [apply notify_issued|apply notify_ready]; by destruct Hall.
Qed.

Lemma cell_step_ok w w' : cell_step w w' → cell_world_ok w → cell_world_ok w'.
Proof.
  destruct 1 as [c ts i Hi|c ts i v Hi|c ts i pc c' pc' Hi Hadv]; intros Hw.
  - apply cell_start_ok; auto.
  - apply cell_start_ok; eauto.
  - destruct pc as [t|t| | |v|v|v|v|v r]; try done.
    4: { destruct (decide (state c = Uninitialized)) as [E|E].
         - by eapply step_owner_ok.
         - assert (c' = c) as ->; [|by eapply step_local_ok].
           simpl in Hadv. rewrite bool_decide_eq_false_2 in Hadv by done. by injection Hadv. }
    4-6: by eapply step_owner_ok.
    all: assert (c' = c) as ->; [|by eapply step_local_ok]; simpl in Hadv;
      repeat case_match; congruence.
Qed.

Lemma cell_reachable_ok w : cell_world_reachable w → cell_world_ok w.
Proof.
  intros H. apply (rtc_ind_r (R := cell_step) cell_world_ok cell_world_new); [apply cell_world_new_ok| |done].
  intros y z _ Hs. by apply cell_step_ok.
Qed.
(** ** The guarantees *)

(** The value was handed to [notify_waiters] by this thread. *)
Definition published (w : CellWorld) (v : T) : Prop :=
  ∃ o, threads w !! o = Some (SetNotify v) ∨ threads w !! o = Some (SetDone v (Ok tt)).

(** C37: the unsafe code of the cell is sound in every interleaving.  A [wait] that
    returned read initialised memory, the value of the one [set] that succeeded;
    a thread about to read excludes a thread about to write; at most one thread is
    past the exchange or returned [Ok], so at most one [set] succeeds; a [set]
    fails only after another one won; and dropping the cell drops the value
    exactly when it is there to read. *)
Theorem barrier_cell_safe (w : CellWorld) (Hw : cell_world_reachable w) :
  (∀ i r, threads w !! i = Some (WaitDone r) → ∃ v, r = Some v ∧ published w v)
  ∧ (∀ i j v, threads w !! i = Some WaitRead → threads w !! j ≠ Some (SetWrite v))
  ∧ (∀ i j u v pu pv, owner (cell w) u pu → owner (cell w) v pv →
       threads w !! i = Some pu → threads w !! j = Some pv → i = j)
  ∧ (∀ i v, threads w !! i = Some (SetDone v (Err AlreadySet)) →
       ∃ o u po, o ≠ i ∧ threads w !! o = Some po ∧ owner (cell w) u po)
  ∧ (∀ v, barrier_cell_drop (cell w) = Some v ↔ published w v).
Proof.
  pose proof (cell_reachable_ok w Hw) as Hok. unfold barrier_cell_drop, published.
  destruct Hok as [Hs Hv Hall|o v po Ho Hown Hall].
  - assert (∀ i pc, threads w !! i = Some pc → early (cell w) pc) as He by done.
    split; [by intros i r []%He|]. split; [by intros i j v []%He|].
    split; [intros i j u v pu pv H; inversion H; congruence|].
    split; [by intros i v [_ ?]%He|]. intros v. rewrite bool_decide_eq_false_2 by congruence.
    split; [done|]. intros [o [H|H]]; apply He in H; naive_solver.
  - assert (∀ u pu, owner (cell w) u pu → ∀ i, threads w !! i = Some pu → i = o) as Huniq.
    { intros u pu Hu i H. destruct (decide (i = o)) as [|Hne]; [done|].
      specialize (Hall i pu Hne H). case_bool_decide; inversion Hu; subst; simpl in *;
        try done; try congruence; by destruct Hall. }
    split; [|split; [|split; [|split]]].
    + intros i r H. destruct (decide (i = o)) as [->|Hne].
      { rewrite Ho in H. injection H as ->. by inversion Hown. }
      specialize (Hall i _ Hne H). case_bool_decide as Hs; simpl in Hall; [|done].
      exists v. split; [done|]. exists o. inversion Hown; subst; try congruence; auto.
    + intros i j u H1 H2. assert (j = o) as ->.
      { destruct (decide (j = o)) as [|Hne]; [done|]. specialize (Hall j _ Hne H2).
        by case_bool_decide. }
      destruct (decide (i = o)) as [->|Hne]; [congruence|].
      specialize (Hall i _ Hne H1). rewrite Ho in H2. injection H2 as ->.
      assert (state (cell w) = Initializing) as Hs by (by inversion Hown).
      rewrite Hs in Hall. by case_bool_decide.
    + intros i j u u' pu pv Hu Hv H1 H2. rewrite (Huniq u pu Hu i H1). by rewrite (Huniq u' pv Hv j H2).
    + intros i u H. exists o, v, po. split; [|done]. intros ->. rewrite Ho in H. injection H as ->.
      by inversion Hown.
    + intros u. case_bool_decide as Hs.
      * assert (value (cell w) = Some v) as Hval by (inversion Hown; congruence). rewrite Hval. split.
        -- intros [= <-]. exists o. inversion Hown; subst; try congruence; auto.
        -- intros [o' H]. assert (∀ pu, threads w !! o' = Some pu → pu = SetNotify u ∨ pu = SetDone u (Ok tt) →
             o' = o) as Ho'.
           { intros pu Hpu Hor. destruct (decide (o' = o)) as [|Hne]; [done|].
             specialize (Hall o' pu Hne Hpu). rewrite ?bool_decide_eq_true_2 in Hall by done.
             destruct Hor as [->| ->]; naive_solver. }
           destruct H as [H|H]; pose proof (Ho' _ H ltac:(auto)) as ->; rewrite Ho in H; injection H as ->;
             by inversion Hown.
      * split; [done|]. intros [o' H]. exfalso.
        destruct H as [H|H]; (destruct (decide (o' = o)) as [->|Hne];
          [rewrite Ho in H; injection H as ->; inversion Hown; congruence|];
          specialize (Hall o' _ Hne H); rewrite ?bool_decide_eq_false_2 in Hall by done;
          naive_solver).
Qed.

(** C38: no wake-up is lost.  A thread inside [set] is never blocked; and once a
    [set] has returned [Ok], every thread inside [wait], whenever it came and
    wherever it is, returns the value after at most two steps of its own. *)
Theorem barrier_cell_wakes (w : CellWorld) (Hw : cell_world_reachable w) :
  (∀ i v pc, threads w !! i = Some pc → pc ∈ [SetExchange v; SetWrite v; SetStore v; SetNotify v] →
     is_Some (advance (cell w) pc))
  ∧ (∀ o v i pc t, threads w !! o = Some (SetDone v (Ok tt)) →
       threads w !! i = Some pc → pc ∈ [WaitLoad t; WaitNotified t; WaitRead] →
       run 2 (cell w) pc = WaitDone (Some v)).
Proof.
  split.
  - intros i v pc _ Hpc. repeat setoid_rewrite elem_of_cons in Hpc. rewrite elem_of_nil in Hpc.
    destruct Hpc as [->|[->|[->|[->|[]]]]]; simpl; [case_bool_decide|..]; by eexists.
  - intros o v i pc t Ho Hi Hpc. destruct (cell_reachable_ok w Hw) as [Hs Hv Hall|o' v' po Ho' Hown Hall].
    { specialize (Hall o _ Ho). naive_solver. }
    assert (o = o') as ->.
    { destruct (decide (o = o')) as [|Hne]; [done|]. specialize (Hall o _ Hne Ho).
      case_bool_decide; naive_solver. }
    rewrite Ho in Ho'. injection Ho' as <-. inversion Hown as [| | |Hs Hv]; subst.
    assert (i ≠ o') as Hne.
    { intros ->. rewrite Hi in Ho. injection Ho as ->. repeat setoid_rewrite elem_of_cons in Hpc.
      rewrite elem_of_nil in Hpc. naive_solver. }
    specialize (Hall i pc Hne Hi). rewrite ?bool_decide_eq_true_2 in Hall by done.
    repeat setoid_rewrite elem_of_cons in Hpc. rewrite elem_of_nil in Hpc.
    destruct Hpc as [->|[->|[->|[]]]]; simpl in *.
    + rewrite bool_decide_eq_false_2 by naive_solver. simpl; by rewrite Hv.
    + destruct Hall as [_ Hr]. rewrite (Hr eq_refl). simpl; by rewrite Hv.
    + simpl; by rewrite Hv.
Qed.
End cell.

(** A waiter that registers before the value is set and is told. *)
Definition sample_world : CellWorld (NF := notify_ref) (T := nat) :=
  mkCellWorld (mkBarrierCell (NF := notify_ref) Initialized (Some 42) 1)
    (<[0 := SetDone 42 (Ok tt)]> (<[1 := WaitNotified (NF := notify_ref) 0]> ∅)).

Lemma sample_world_reachable : cell_world_reachable sample_world.
Proof.
  unfold cell_world_reachable, cell_world_new.
  eapply rtc_l; [apply (step_set _ _ 0 42); reflexivity|].
  eapply rtc_l; [apply (step_wait _ _ 1); reflexivity|].
  eapply rtc_l; [eapply (step_advance _ _ 1); [reflexivity|vm_compute; reflexivity]|].
  do 4 (eapply rtc_l; [eapply (step_advance _ _ 0); [reflexivity|vm_compute; reflexivity]|]).
  match goal with |- rtc _ ?w _ => assert (w = sample_world) as -> end; [|apply rtc_refl].
  vm_compute. reflexivity.
Qed.

Lemma barrier_cell_safe_witness :
  cell_world_reachable sample_world ∧ barrier_cell_drop (cell sample_world) = Some 42.
Proof.
  split; [apply sample_world_reachable|].
  destruct (barrier_cell_safe sample_world sample_world_reachable) as (_ & _ & _ & _ & Hd).
  apply (Hd 42). exists 0. right. vm_compute. reflexivity.
Defined.

Lemma barrier_cell_wakes_witness :
  cell_world_reachable sample_world
  ∧ run 2 (cell sample_world) (WaitNotified (NF := notify_ref) 0) = WaitDone (Some 42).
Proof.
  split; [apply sample_world_reachable|].
  destruct (barrier_cell_wakes sample_world sample_world_reachable) as [_ Hr].
  apply (Hr 0 42 1 (WaitNotified (NF := notify_ref) 0) 0); [vm_compute; reflexivity..|].
  right. left.
Defined.
