(* ===== verification/CoalescedMap.v ===== *)
(** * The coalescing map

    [coalesced_map/src/lib.rs]: a map that runs the initialiser of a key once for
    all the tasks that ask for it at the same time.  What a task does between two
    [await] points, while it holds the entry of the key or in one call of the
    shared map, is one step; the tasks interleave at every step.

    The concurrent map ([DashMap]) is any finite map in the sense of stdpp, its
    calls are atomic.  The reference counts of the senders are the tasks that hold
    them: [Weak::upgrade] succeeds exactly while one does. *)
From stdpp Require Import fin_maps.
From S2P Require Import Prelude.

(** ** The broadcast channel

    [tokio::sync::broadcast] as its documentation describes it, for a channel that
    carries one message: a receiver gets the message sent after it subscribed;
    before that it waits while a sender lives, and learns that the channel is
    closed when none does. *)
Inductive Recv (V : Type) : Type := Received (v : V) | Closed | Blocked.
Arguments Received {V} v.
Arguments Closed {V}.
Arguments Blocked {V}.

Class Broadcast (V : Type) := {
  Channel : Type;
  Receiver : Type;
  channel_new : Channel;
  subscribe : Channel → Channel * Receiver;
  send : V → Channel → Channel;
  (* the flag says whether a sender lives *)
  recv : bool → Channel → Receiver → Recv V;
  (* no message was sent yet *)
  unsent : Channel → Prop;
  attached : Channel → Receiver → Prop;
  new_unsent : unsent channel_new;
  subscribe_unsent c : unsent c → unsent (subscribe c).1;
  subscribe_attached c : attached (subscribe c).1 (subscribe c).2;
  subscribe_keeps c rx : attached c rx → attached (subscribe c).1 rx;
  subscribe_recv alive c rx v : attached c rx → recv alive c rx = Received v →
    recv alive (subscribe c).1 rx = Received v;
  recv_unsent alive c rx : unsent c → attached c rx →
    recv alive c rx = if alive then Blocked else Closed;
  recv_sent alive c rx v : unsent c → attached c rx →
    attached (send v c) rx ∧ recv alive (send v c) rx = Received v
}.
Arguments Channel V {_}.
Arguments Receiver V {_}.

(** The message, if any; every receiver is attached. *)
#[export, refine] Instance broadcast_ref (V : Type) : Broadcast V := {|
  Channel := option V;
  Receiver := unit;
  channel_new := None;
  subscribe c := (c, tt);
  send v _ := Some v;
  recv alive c _ := match c with Some v => Received v | None => if alive then Blocked else Closed end;
  unsent c := c = None;
  attached _ _ := True
|}.
Proof. all: intros; simpl in *; subst; done. Defined.

(** ** Definitions *)
Inductive CoalescedGetError (E : Type) : Type := Init (e : E) | CoalescedRequestFailed.
Arguments Init {E} e.
Arguments CoalescedRequestFailed {E}.

(** The sender of a pending entry is named by a number. *)
Inductive PendingOrFetched (V : Type) : Type := Pending (sender : nat) | Fetched (v : V).
Arguments Pending {V} sender.
Arguments Fetched {V} v.

Section map.
Context {K V E : Type} {M : Type → Type} `{FM : FinMap K M} `{BC : Broadcast V}.

Inductive Task : Type :=
| Initializing (key : K) (sender : nat)              (* [init().await] *)
| Sending (key : K) (sender : nat) (value : V)       (* stored, about to [send] *)
| Waiting (key : K) (sender : nat) (rx : Receiver V)  (* [rx.recv().await] *)
| Done (key : K) (r : result (CoalescedGetError E) V)
| Cancelled.                                         (* the future was dropped *)

(** The shared state, and what happened: the initialisers that succeeded, those that failed
    or were cancelled, and the keys whose pending entry [retain] dropped. *)
Record World := mkWorld {
  map : M (PendingOrFetched V);
  channels : nat → Channel V;
  next_sender : nat;
  tasks : gmap nat Task;
  initialized : list (K * V);
  failed : list K;
  dropped : list K
}.

Definition world_new : World := mkWorld ∅ (λ _, channel_new) 0 ∅ [] [] [].

Definition holds (sender : nat) (t : Task) : bool :=
  match t with
  | Initializing _ s | Sending _ s _ => (s =? sender)%nat
  | _ => false
  end.

(** [weak_tx.upgrade().is_some()] *)
Definition sender_alive (tasks : gmap nat Task) (sender : nat) : bool :=
  existsb (λ it, holds sender it.2) (map_to_list tasks).

Definition set_channel (channels : nat → Channel V) (s : nat) (c : Channel V) : nat → Channel V :=
  λ s', if decide (s' = s) then c else channels s'.

(** The first caller: a new sender, and the entry marked as pending. *)
Definition become_initializer (w : World) (i : nat) (key : K) : World :=
  mkWorld (<[key := Pending (next_sender w)]> (map w))
    (set_channel (channels w) (next_sender w) channel_new) (S (next_sender w))
    (<[i := Initializing key (next_sender w)]> (tasks w)) (initialized w) (failed w) (dropped w).

(** [get_or_try_init] up to its first [await], by task [i]. *)
Definition get_or_try_init (w : World) (i : nat) (key : K) : World :=
  match map w !! key with
  | None => become_initializer w i key
  | Some (Fetched v) =>
      mkWorld (map w) (channels w) (next_sender w) (<[i := Done key (Ok v)]> (tasks w))
        (initialized w) (failed w) (dropped w)
  | Some (Pending s) =>
      if sender_alive (tasks w) s then
        let '(c, rx) := subscribe (channels w s) in
        mkWorld (map w) (set_channel (channels w) s c) (next_sender w)
          (<[i := Waiting key s rx]> (tasks w)) (initialized w) (failed w) (dropped w)
      else become_initializer w i key
  end.

(** The initialiser returned: store the value. *)
Definition init_ok (w : World) (i : nat) (key : K) (s : nat) (value : V) : World :=
  mkWorld (<[key := Fetched value]> (map w)) (channels w) (next_sender w)
    (<[i := Sending key s value]> (tasks w)) ((key, value) :: initialized w) (failed w) (dropped w).

Definition init_err (w : World) (i : nat) (key : K) (e : E) : World :=
  mkWorld (map w) (channels w) (next_sender w) (<[i := Done key (Err (Init e))]> (tasks w))
    (initialized w) (key :: failed w) (dropped w).

(** Notify the waiters, and return. *)
Definition send_value (w : World) (i : nat) (key : K) (s : nat) (value : V) : World :=
  mkWorld (map w) (set_channel (channels w) s (send value (channels w s))) (next_sender w)
    (<[i := Done key (Ok value)]> (tasks w)) (initialized w) (failed w) (dropped w).

(** What a waiting task returns, once it does. *)
Definition receive (w : World) (key : K) (s : nat) (rx : Receiver V) : option Task :=
  match recv (sender_alive (tasks w) s) (channels w s) rx with
  | Received v => Some (Done key (Ok v))
  | Closed => Some (Done key (Err CoalescedRequestFailed))
  | Blocked => None
  end.

Definition set_task (w : World) (i : nat) (t : Task) : World :=
  mkWorld (map w) (channels w) (next_sender w) (<[i := t]> (tasks w)) (initialized w) (failed w) (dropped w).

(** The future of an initialiser is dropped while it awaits. *)
Definition cancel_init (w : World) (i : nat) (key : K) : World :=
  mkWorld (map w) (channels w) (next_sender w) (<[i := Cancelled]> (tasks w))
    (initialized w) (key :: failed w) (dropped w).

Definition is_pending (e : PendingOrFetched V) : bool :=
  match e with Pending _ => true | Fetched _ => false end.
Definition retain (w : World) (f : K → PendingOrFetched V → bool) : World :=
  mkWorld (filter (λ kv, f kv.1 kv.2 = true) (map w)) (channels w) (next_sender w) (tasks w) (initialized w) (failed w)
    ((map_to_list (filter (λ kv, is_pending kv.2 = true ∧ f kv.1 kv.2 = false) (map w))).*1 ++ dropped w).
Definition clear (w : World) : World := retain w (λ _ v, is_pending v).

Definition get (w : World) (key : K) : option V :=
  match map w !! key with Some (Fetched v) => Some v | _ => None end.

Definition coalesced_len (w : World) : nat := size (map w).
Definition is_empty (w : World) : bool := (coalesced_len w =? 0)%nat.

(** The interleavings; [allowed] are the predicates [retain] is called with. *)
Inductive step (allowed : (K → PendingOrFetched V → bool) → Prop) : World → World → Prop :=
| step_get w i key : tasks w !! i = None → step allowed w (get_or_try_init w i key)
| step_init_ok w i key s v :
    tasks w !! i = Some (Initializing key s) → step allowed w (init_ok w i key s v)
| step_init_err w i key s e :
    tasks w !! i = Some (Initializing key s) → step allowed w (init_err w i key e)
| step_send w i key s v :
    tasks w !! i = Some (Sending key s v) → step allowed w (send_value w i key s v)
| step_recv w i key s rx t :
    tasks w !! i = Some (Waiting key s rx) → receive w key s rx = Some t →
    step allowed w (set_task w i t)
| step_cancel_init w i key s :
    tasks w !! i = Some (Initializing key s) → step allowed w (cancel_init w i key)
| step_cancel_wait w i key s rx :
    tasks w !! i = Some (Waiting key s rx) → step allowed w (set_task w i Cancelled)
| step_retain w f : allowed f → step allowed w (retain w f).

Definition world_reachable (allowed : (K → PendingOrFetched V → bool) → Prop) (w : World) : Prop :=
  rtc (step allowed) world_new w.

(** ** The invariant *)

Definition task_key (t : Task) : option K :=
  match t with
  | Initializing key _ | Sending key _ _ | Waiting key _ _ | Done key _ => Some key
  | Cancelled => None
  end.

Definition held (w : World) (s : nat) : Prop :=
  ∃ i t, tasks w !! i = Some t ∧ holds s t = true.

(** What a waiting task can rely on: its initialiser is at work, or sent the value,
    or failed and left nobody to wait for. *)
Inductive waiting_ok (w : World) (key : K) (s : nat) (rx : Receiver V) : Prop :=
| waiting_for i t :
    tasks w !! i = Some t → holds s t = true → task_key t = Some key →
    unsent (channels w s) → attached (channels w s) rx → waiting_ok w key s rx
| waiting_sent v :
    attached (channels w s) rx → (∀ alive, recv alive (channels w s) rx = Received v) →
    (key, v) ∈ initialized w → waiting_ok w key s rx
| waiting_failed :
    unsent (channels w s) → attached (channels w s) rx → key ∈ failed w → ¬ held w s →
    waiting_ok w key s rx.

Definition task_ok (w : World) (t : Task) : Prop :=
  match t with
  | Initializing key s =>
      s < next_sender w ∧ unsent (channels w s) ∧ ∀ key', map w !! key' = Some (Pending s) → key' = key
  | Sending key s v =>
      s < next_sender w ∧ unsent (channels w s) ∧ (key, v) ∈ initialized w
      ∧ ∀ key', map w !! key' ≠ Some (Pending s)
  | Waiting key s rx => s < next_sender w ∧ waiting_ok w key s rx
  | Done key (Ok v) => (key, v) ∈ initialized w
  | Done key (Err CoalescedRequestFailed) => key ∈ failed w
  | _ => True
  end.

Record world_ok (w : World) : Prop := {
  ok_tasks : ∀ i t, tasks w !! i = Some t → task_ok w t;
  ok_pending : ∀ key s, map w !! key = Some (Pending s) → s < next_sender w;
  ok_pending_inj : ∀ key key' s, map w !! key = Some (Pending s) →
    map w !! key' = Some (Pending s) → key = key';
  ok_fetched : ∀ key v, map w !! key = Some (Fetched v) → (key, v) ∈ initialized w;
  ok_holder : ∀ i j t u s, tasks w !! i = Some t → tasks w !! j = Some u →
    holds s t = true → holds s u = true → i = j
}.

Lemma holds_spec s t : holds s t = true ↔
  (∃ key, t = Initializing key s) ∨ ∃ key v, t = Sending key s v.
Proof.
  destruct t; simpl; rewrite ?Nat.eqb_eq; naive_solver.
Qed.

Lemma sender_alive_spec w s : sender_alive (tasks w) s = true ↔ held w s.
Proof.
  unfold sender_alive, held. rewrite existsb_exists. split.
  - intros ([i t] & Hin & Ht). apply list_elem_of_In, elem_of_map_to_list in Hin. eauto.
  - intros (i & t & Hi & Ht). exists (i, t). split; [|done].
    by apply list_elem_of_In, elem_of_map_to_list.
Qed.

(** A channel that keeps its receivers and its message. *)
Definition keeps (c c' : Channel V) : Prop :=
  (unsent c → unsent c')
  ∧ ∀ rx, attached c rx → attached c' rx
      ∧ ∀ alive v, recv alive c rx = Received v → recv alive c' rx = Received v.

Lemma keeps_refl c : keeps c c.
Proof. split; [done|]. intros rx ?. by split. Qed.

Lemma keeps_subscribe c : keeps c (subscribe c).1.
Proof.
  split; [apply subscribe_unsent|]. intros rx Hrx. split; [by apply subscribe_keeps|].
  intros alive v. by apply subscribe_recv.
Qed.

Lemma keeps_set chans s c s' :
  keeps (chans s) c → keeps (chans s') (set_channel chans s c s').
Proof. unfold set_channel. destruct (decide (s' = s)) as [->|]; [done|]. intros _. apply keeps_refl. Qed.

(** A waiting task when task [i] becomes [t']. *)
Lemma waiting_frame w w' i t' key s rx :
  world_ok w → waiting_ok w key s rx →
  tasks w' = <[i := t']> (tasks w) → keeps (channels w s) (channels w' s) →
  (∀ x, x ∈ initialized w → x ∈ initialized w') → (∀ x, x ∈ failed w → x ∈ failed w') →
  (∀ t, tasks w !! i = Some t → holds s t = true → task_key t = Some key →
     holds s t' = true ∧ task_key t' = Some key ∨ holds s t' = false ∧ key ∈ failed w') →
  (holds s t' = true → ∃ t, tasks w !! i = Some t ∧ holds s t = true) →
  waiting_ok w' key s rx.
Proof.
  intros Hok Hw Ht [Hun Hch] Hin Hfa Hi Hnew. destruct Hw as [j t Hj Hs Hk Hu Ha|v Ha Hr Hv|Hu Ha Hf Hh].
  - destruct (decide (j = i)) as [->|Hne].
    + destruct (Hi t Hj Hs Hk) as [[Hs' Hk']|[Hs' Hf]].
      * apply (waiting_for _ _ _ _ i t'); [by rewrite Ht, lookup_insert_eq|done|done|auto|by apply Hch].
      * apply waiting_failed; [auto|by apply Hch|done|].
        intros (l & u & Hl & Hsu). rewrite Ht in Hl. apply lookup_insert_Some in Hl as [[-> <-]|[Hne Hl]].
        -- congruence.
        -- apply Hne. by apply (ok_holder w Hok i l t u s).
    + apply (waiting_for _ _ _ _ j t); [by rewrite Ht, lookup_insert_ne|done|done|auto|by apply Hch].
  - apply (waiting_sent _ _ _ _ v); [by apply Hch|intros alive; by apply Hch|auto].
  - apply waiting_failed; [auto|by apply Hch|auto|].
    intros (l & u & Hl & Hsu). rewrite Ht in Hl. apply Hh.
    apply lookup_insert_Some in Hl as [[-> <-]|[Hne Hl]]; [|by exists l, u].
    destruct (Hnew Hsu) as (t & ? & ?). by exists l, t.
Qed.

(** What a task gets when it is woken up. *)
Lemma receive_ok w key s rx t :
  waiting_ok w key s rx → receive w key s rx = Some t → task_ok w t ∧ ∀ s', holds s' t = false.
Proof.
  unfold receive. intros [j u Hj Hs Hk Hu Ha|v Ha Hr Hv|Hu Ha Hf Hh].
  - rewrite (proj2 (sender_alive_spec w s)) by (by exists j, u). by rewrite recv_unsent.
  - rewrite Hr. by intros [= <-].
  - destruct (sender_alive (tasks w) s) eqn:Eh; [by apply sender_alive_spec in Eh|].
    rewrite recv_unsent by done. by intros [= <-].
Qed.

(** ** Preservation *)
Lemma world_new_ok : world_ok world_new.
Proof.
  split; unfold world_new; simpl.
  - intros i t Ht. by rewrite lookup_empty in Ht.
  - intros key s Hk. by rewrite lookup_empty in Hk.
  - intros key key' s Hk. by rewrite lookup_empty in Hk.
  - intros key v Hk. by rewrite lookup_empty in Hk.
  - intros i j t u s Ht. by rewrite lookup_empty in Ht.
Qed.

(** Task [i] becomes [t']; the others keep what they had. *)
Lemma update_ok w w' i t' :
  world_ok w → tasks w' = <[i := t']> (tasks w) → task_ok w' t' →
  (∀ key s, map w' !! key = Some (Pending s) → s < next_sender w') →
  (∀ key key' s, map w' !! key = Some (Pending s) → map w' !! key' = Some (Pending s) → key = key') →
  (∀ key v, map w' !! key = Some (Fetched v) → (key, v) ∈ initialized w') →
  (∀ j t, j ≠ i → tasks w !! j = Some t → task_ok w t → task_ok w' t) →
  (∀ s j t, holds s t' = true → j ≠ i → tasks w !! j = Some t → holds s t = false) →
  world_ok w'.
Proof.
  intros Hok Ht Hti Hp Hpi Hf Hothers Hh. split; [|done..|].
  - intros j t Hj. rewrite Ht in Hj. apply lookup_insert_Some in Hj as [[<- <-]|[Hne Hj]]; [done|].
    apply (Hothers j); [done..|]. by apply (ok_tasks w Hok j).
  - intros a b t u s Ha Hb Hsa Hsb. rewrite Ht in Ha, Hb.
    apply lookup_insert_Some in Ha as [[<- <-]|[Hna Ha]], Hb as [[<- <-]|[Hnb Hb]]; [done|..].
    + by rewrite (Hh s b u Hsa ltac:(done) Hb) in Hsb.
    + by rewrite (Hh s a t Hsb ltac:(done) Ha) in Hsa.
    + by apply (ok_holder w Hok a b t u s).
Qed.

(** A step that leaves the map and the channels alone. *)
Lemma set_task_ok w w' i t' :
  world_ok w → map w' = map w → (∀ s, keeps (channels w s) (channels w' s)) →
  next_sender w' = next_sender w → tasks w' = <[i := t']> (tasks w) →
  initialized w' = initialized w → (∀ x, x ∈ failed w → x ∈ failed w') →
  task_ok w' t' → (∀ s, holds s t' = false) →
  (∀ t key s, tasks w !! i = Some t → holds s t = true → task_key t = Some key → key ∈ failed w') →
  world_ok w'.
Proof.
  intros Hok Hm Hc Hn Ht Hi Hf Ht' Hh Hfail. apply (update_ok w w' i t' Hok Ht Ht').
  - rewrite Hm, Hn. apply (ok_pending w Hok).
  - rewrite Hm. apply (ok_pending_inj w Hok).
  - rewrite Hm, Hi. apply (ok_fetched w Hok).
  - intros j t Hj Hjt Hok'. destruct t as [key s|key s v|key s rx|key [v|[e|]]|]; simpl in *; rewrite ?Hn, ?Hm, ?Hi.
    + destruct Hok' as (? & ? & ?). split; [done|]. split; [by apply Hc|done].
    + destruct Hok' as (? & ? & ? & ?). split; [done|]. split; [by apply Hc|done].
    + destruct Hok' as (? & Hw). split; [done|].
      eapply (waiting_frame w w' i t'); [done|done|done|apply Hc|by rewrite Hi|done| |].
      * intros t0 Hw1 Hw2 Hw3. right. split; [apply Hh|]. by apply (Hfail t0 key s).
      * intros Hs. by rewrite Hh in Hs.
    + done.
    + done.
    + by apply Hf.
    + done.
  - intros s j t Hs. by rewrite Hh in Hs.
Qed.

Lemma become_initializer_ok w i key :
  world_ok w → tasks w !! i = None → (∀ s, map w !! key = Some (Pending s) → ¬ held w s) →
  world_ok (become_initializer w i key).
Proof.
  intros Hok Hi Hdead. set (n := next_sender w).
  assert (∀ s, s < n → channels (become_initializer w i key) s = channels w s) as Hchan.
  { intros s Hs. simpl. unfold set_channel. by rewrite decide_False by (unfold n in Hs; lia). }
  assert (Hlt : ∀ j t s, tasks w !! j = Some t → holds s t = true → s < n).
  { intros j t s Hj Hs. pose proof (ok_tasks w Hok j t Hj) as Ht.
    apply holds_spec in Hs as [(k & ->)|(k & v & ->)]; by destruct Ht. }
  apply (update_ok w _ i (Initializing key n) Hok); [done|..].
  - split; [simpl; unfold n; lia|]. split; simpl.
    + unfold set_channel. rewrite decide_True by done. apply new_unsent.
    + intros k [[-> _]|[_ Hk]]%lookup_insert_Some; [done|]. apply (ok_pending w Hok) in Hk. unfold n in Hk. lia.
  - intros k s. simpl. intros [[_ [= <-]]|[_ Hk]]%lookup_insert_Some; [lia|].
    apply (ok_pending w Hok) in Hk. lia.
  - intros k k' s. simpl.
    intros [[<- [= <-]]|[_ Hk]]%lookup_insert_Some [[<- Hs]|[_ Hk']]%lookup_insert_Some; [done|..].
    + apply (ok_pending w Hok) in Hk'. lia.
    + injection Hs as <-. apply (ok_pending w Hok) in Hk. lia.
    + by apply (ok_pending_inj w Hok k k' s).
  - intros k v. simpl. intros [[_ ?]|[_ Hk]]%lookup_insert_Some; [done|by apply (ok_fetched w Hok)].
  - intros j t Hj Hjt Hok'. destruct t as [k s|k s v|k s rx|k [v|[e|]]|]; try done; cbn [task_ok] in *.
    + destruct Hok' as (Hs & Hu & Hk). rewrite Hchan by done. split; [simpl; lia|]. split; [done|].
      intros k'. simpl. intros [[_ [= <-]]|[_ ?]]%lookup_insert_Some; [unfold n in Hs; lia|]. by apply Hk.
    + destruct Hok' as (Hs & Hu & Hv & Hk). rewrite Hchan by done. split; [simpl; lia|].
      split; [done|]. split; [done|]. intros k'. simpl.
      intros [[_ [= <-]]|[_ ?]]%lookup_insert_Some; [lia|]. by apply (Hk k').
    + destruct Hok' as (Hs & Hw). split; [simpl; lia|].
      eapply (waiting_frame w _ i (Initializing key n)); [done|done|done|rewrite Hchan by done; apply keeps_refl|done|done| |].
      * intros t0 Ht0. congruence.
      * simpl. intros Heq%Nat.eqb_eq. lia.
  - intros s j t Hs Hj Hjt. destruct (holds s t) eqn:Eh; [|done].
    apply (Hlt j t s Hjt) in Eh. apply Nat.eqb_eq in Hs. lia.
Qed.

Lemma get_or_try_init_ok w i key :
  world_ok w → tasks w !! i = None → world_ok (get_or_try_init w i key).
Proof.
  intros Hok Hi. unfold get_or_try_init. destruct (map w !! key) as [[s|v]|] eqn:Hk.
  - destruct (sender_alive (tasks w) s) eqn:Hal.
    + destruct (subscribe (channels w s)) as [c rx] eqn:Hsub.
      pose proof Hal as (j & t & Hj & Ht)%sender_alive_spec.
      assert (keeps (channels w s) c) as Hkeep by
        (change c with (fst (c, rx)); rewrite <-Hsub; apply keeps_subscribe).
      assert (attached c rx) as Ha by (pose proof (subscribe_attached (channels w s)) as Ha; by rewrite Hsub in Ha).
      assert (task_key t = Some key ∧ unsent (channels w s)) as [Htk Hu].
      { pose proof (ok_tasks w Hok j t Hj) as Hto.
        apply holds_spec in Ht as [(k & ->)|(k & v & ->)]; simpl in Hto.
        - destruct Hto as (_ & ? & Hk'). split; [|done]. simpl. f_equal. symmetry. by apply Hk'.
        - destruct Hto as (_ & _ & _ & Hn). by destruct (Hn key). }
      apply (set_task_ok w _ i (Waiting key s rx) Hok); try done.
      * intros s'. simpl. by apply keeps_set.
      * split; [by apply (ok_pending w Hok key)|]. simpl.
        apply (waiting_for _ _ _ _ j t); simpl; [rewrite lookup_insert_ne; [done|congruence]|done|done|..];
          unfold set_channel; rewrite decide_True by done; [by apply Hkeep|done].
      * intros t0 k0 s0 Ht0. congruence.
    + apply become_initializer_ok; [done..|]. intros s' [= <-]%(eq_trans (eq_sym Hk)) Hh.
      apply sender_alive_spec in Hh. congruence.
  - apply (set_task_ok w _ i (Done key (Ok v)) Hok); try done.
    + simpl. by apply (ok_fetched w Hok).
    + intros t0 k0 s0 Ht0. congruence.
  - apply become_initializer_ok; [done..|]. congruence.
Qed.

Lemma init_ok_ok w i key s v :
  world_ok w → tasks w !! i = Some (Initializing key s) → world_ok (init_ok w i key s v).
Proof.
  intros Hok Hi. pose proof (ok_tasks w Hok i _ Hi) as (Hs & Hu & Hk).
  assert (Hhold : ∀ j t, j ≠ i → tasks w !! j = Some t → holds s t = false).
  { intros j t Hj Hjt. destruct (holds s t) eqn:Eh; [|done]. destruct Hj.
    apply (ok_holder w Hok j i t _ s Hjt Hi Eh). by apply Nat.eqb_eq. }
  apply (update_ok w _ i (Sending key s v) Hok); [done|..].
  - split; [done|]. split; [done|]. split; [by left|]. intros k'. simpl.
    intros [[_ ?]|[Hne Hk']]%lookup_insert_Some; [done|]. by apply Hne, eq_sym, Hk.
  - intros k s'. simpl. intros [[_ ?]|[_ Hk']]%lookup_insert_Some; [done|by apply (ok_pending w Hok k)].
  - intros k k' s'. simpl.
    intros [[_ ?]|[_ Hw1]]%lookup_insert_Some [[_ ?]|[_ Hw2]]%lookup_insert_Some; [done..|].
    by apply (ok_pending_inj w Hok k k' s').
  - intros k u. simpl. intros [[<- [= <-]]|[_ Hk']]%lookup_insert_Some; [by left|].
    right. by apply (ok_fetched w Hok).
  - intros j t Hj Hjt Hok'. destruct t as [k s'|k s' u|k s' rx|k [u|[e|]]|]; try done; cbn [task_ok] in *.
    + destruct Hok' as (? & ? & Hk'). split; [done|]. split; [done|]. intros k'. simpl.
      intros [[_ ?]|[_ ?]]%lookup_insert_Some; [done|by apply Hk'].
    + destruct Hok' as (? & ? & ? & Hk'). split; [done|]. split; [done|]. split; [by right|].
      intros k'. simpl. intros [[_ ?]|[_ ?]]%lookup_insert_Some; [done|by apply (Hk' k')].
    + destruct Hok' as (? & Hw). split; [done|].
      eapply (waiting_frame w _ i (Sending key s v)); [done|done|done|apply keeps_refl|by right|done| |].
      * intros t0 Ht0 Hs0 Hk0. rewrite Hi in Ht0. injection Ht0 as <-. by left.
      * intros Hs0. by exists (Initializing key s).
    + by right.
  - intros s' j t Hs' Hj Hjt. apply Nat.eqb_eq in Hs' as <-. by apply (Hhold j).
Qed.

Lemma send_value_ok w i key s v :
  world_ok w → tasks w !! i = Some (Sending key s v) → world_ok (send_value w i key s v).
Proof.
  intros Hok Hi. pose proof (ok_tasks w Hok i _ Hi) as (Hs & Hu & Hv & Hk).
  assert (Hhold : ∀ j t, j ≠ i → tasks w !! j = Some t → holds s t = false).
  { intros j t Hj Hjt. destruct (holds s t) eqn:Eh; [|done]. destruct Hj.
    apply (ok_holder w Hok j i t _ s Hjt Hi Eh). by apply Nat.eqb_eq. }
  assert (Hother : ∀ s', s' ≠ s → channels (send_value w i key s v) s' = channels w s')
    by (intros s' Hne; simpl; unfold set_channel; by rewrite decide_False).
  apply (update_ok w _ i (Done key (Ok v)) Hok); [done|done|..].
  - apply (ok_pending w Hok).
  - apply (ok_pending_inj w Hok).
  - apply (ok_fetched w Hok).
  - intros j t Hj Hjt Hok'. specialize (Hhold j t Hj Hjt).
    destruct t as [k s'|k s' u|k s' rx|k [u|[e|]]|]; try done; cbn [task_ok holds] in *.
    + rewrite Hother by (by apply Nat.eqb_neq). done.
    + rewrite Hother by (by apply Nat.eqb_neq). done.
    + destruct Hok' as (? & Hw). split; [done|]. destruct (decide (s' = s)) as [->|Hne].
      * assert (channels (send_value w i key s v) s = send v (channels w s)) as Hc
          by (simpl; unfold set_channel; by rewrite decide_True).
        destruct Hw as [l u Hl Hsu Hku Hu' Ha|u Ha Hr _|_ _ _ Hh].
        -- destruct (recv_sent true (channels w s) rx v Hu Ha) as [Ha' _].
           apply (waiting_sent _ _ _ _ v); rewrite ?Hc; [done|intros alive; by apply recv_sent|].
           assert (l = i) as -> by (apply (ok_holder w Hok l i u _ s Hl Hi Hsu); by apply Nat.eqb_eq).
           rewrite Hi in Hl. injection Hl as <-. by injection Hku as <-.
        -- specialize (Hr true). by rewrite recv_unsent in Hr.
        -- destruct Hh. exists i, (Sending key s v). split; [done|]. by apply Nat.eqb_eq.
      * eapply (waiting_frame w _ i (Done key (Ok v))); [done|done|done|rewrite Hother by done; apply keeps_refl|done|done| |done].
        intros t0 Ht0 Hs0 Hk0. rewrite Hi in Ht0. injection Ht0 as <-. simpl in Hs0.
        apply Nat.eqb_eq in Hs0. by destruct Hne.
  - done.
Qed.

Lemma retain_ok w f :
  world_ok w → world_ok (retain w f).
Proof.
  intros [Hw1 Hw2 Hw3 Hw4 Hw5].
  assert (Hl : ∀ k e, map (retain w f) !! k = Some e ↔ map w !! k = Some e ∧ f k e = true)
    by (intros k e; simpl; by rewrite map_lookup_filter_Some).
  split; [| | | |done].
  - intros i t Hi. specialize (Hw1 i t Hi).
    destruct t as [k s|k s v|k s rx|k [v|[e|]]|]; try done; cbn [task_ok] in *.
    + destruct Hw1 as (? & ? & Hk). split; [done|]. split; [done|]. intros k' [? _]%Hl. by apply Hk.
    + destruct Hw1 as (? & ? & ? & Hn). split; [done|]. split; [done|]. split; [done|].
      intros k' [? _]%Hl. by apply (Hn k').
    + destruct Hw1 as [? Hw]. split; [done|]. destruct Hw as [j t Hj|v|].
      * by apply (waiting_for _ _ _ _ j t).
      * by apply (waiting_sent _ _ _ _ v).
      * by apply waiting_failed.
  - intros k s [? _]%Hl. by apply (Hw2 k).
  - intros k k' s [? _]%Hl [? _]%Hl. by apply (Hw3 k k' s).
  - intros k v [? _]%Hl. by apply Hw4.
Qed.

Lemma step_ok allowed w w' :
  step allowed w w' → world_ok w → world_ok w'.
Proof.
  intros [w0 i key Hi|w0 i key s v Hi|w0 i key s e Hi|w0 i key s v Hi|w0 i key s rx t Hi Hr
    |w0 i key s Hi|w0 i key s rx Hi|w0 f Hf] Hok.
  - by apply get_or_try_init_ok.
  - by apply init_ok_ok.
  - apply (set_task_ok w0 _ i (Done key (Err (Init e))) Hok); try done.
    + by right.
    + intros t k s' Ht _ Hk. rewrite Hi in Ht. injection Ht as <-. injection Hk as <-. by left.
  - by apply send_value_ok.
  - pose proof (ok_tasks w0 Hok i _ Hi) as [_ Hw]. destruct (receive_ok _ _ _ _ _ Hw Hr) as [Ht Hh].
    apply (set_task_ok w0 _ i t Hok); try done.
    + unfold receive in Hr. destruct (recv _ _ _); [by injection Hr as <-..|done].
    + intros t0 k s' Ht0 Hs0. rewrite Hi in Ht0. by injection Ht0 as <-.
  - apply (set_task_ok w0 _ i Cancelled Hok); try done.
    + by right.
    + intros t k s' Ht _ Hk. rewrite Hi in Ht. injection Ht as <-. injection Hk as <-. by left.
  - apply (set_task_ok w0 _ i Cancelled Hok); try done.
    + intros t k s' Ht Hs. rewrite Hi in Ht. by injection Ht as <-.
  - by apply retain_ok.
Qed.

Lemma reachable_ok allowed w :
  world_reachable allowed w → world_ok w.
Proof.
  intros Hw. apply (rtc_ind_r (R := step allowed) world_ok world_new); [apply world_new_ok| |done].
  intros y z _ Hs. by apply (step_ok allowed).
Qed.

(** ** How many initialisers are at work *)

Definition initialising (w : World) (key : K) (i : nat) : Prop := ∃ s, tasks w !! i = Some (Initializing key s).
(** The pending entry of the key, with its initialiser *)
Definition current (w : World) (key : K) : Prop :=
  ∃ i s, map w !! key = Some (Pending s) ∧ tasks w !! i = Some (Initializing key s).
Definition drops (w : World) (key : K) : nat := length (filter (λ k, k = key) (dropped w)).

(** Each initialiser but the current one has lost its entry to [retain], or to another that did. *)
Definition counted (w : World) : Prop :=
  ∀ key l, NoDup l → (∀ i, i ∈ l → initialising w key i) → length l ≤ S (drops w key) ∧ (¬ current w key → length l ≤ drops w key).

Lemma count_remove (l : list nat) i : NoDup l → ∃ l', NoDup l' ∧ length l ≤ S (length l') ∧ ∀ j, j ∈ l' ↔ j ∈ l ∧ j ≠ i.
Proof.
  intros Hnd. destruct (decide (i ∈ l)) as [Hin|Hin].
  - apply list_elem_of_split in Hin as (l1 & l2 & ->). exists (l1 ++ l2). apply NoDup_app in Hnd as (Hc1 & Hc2 & Hc3).
    inversion Hc3 as [|? ? Hi Hc4]; subst. split; [|split].
    + apply NoDup_app. split; [done|]. split; [|done]. intros j Hj Hj'. apply (Hc2 j Hj). by right.
    + rewrite !length_app. simpl. lia.
    + intros j. rewrite !elem_of_app, elem_of_cons. split; [|naive_solver].
      intros [Hj|Hj]; (split; [naive_solver|]); intros ->; [apply (Hc2 i Hj); by left|done].
  - exists l. split; [done|]. split; [lia|]. intros j. split; [|naive_solver]. intros Hj. split; [done|]. by intros ->.
Qed.

(** The initialiser [i] of [key] goes; the entries of the other keys stay. *)
Lemma counted_finish w w' i key s t :
  world_ok w → counted w → tasks w !! i = Some (Initializing key s) → tasks w' = <[i := t]> (tasks w) →
  (∀ k s', t ≠ Initializing k s') → dropped w' = dropped w → (∀ k, k ≠ key → map w' !! k = map w !! k) → counted w'.
Proof.
  intros Hok Hc Hi Ht Hno Hd Hm k l Hnd Hl. unfold drops in *. rewrite Hd.
  assert (∀ j, j ∈ l → j ≠ i ∧ initialising w k j) as Hl'.
  { intros j [s' Hj]%Hl. rewrite Ht in Hj. apply lookup_insert_Some in Hj as [[_ ->]|[Hne Hj]]; [by destruct (Hno k s')|].
    split; [done|]. by exists s'. }
  destruct (decide (k = key)) as [->|Hne].
  - destruct (Hc key (i :: l)) as [Hlen _].
    + constructor; [|done]. intros Hin. by destruct (Hl' i Hin).
    + intros j [->|Hj]%elem_of_cons; [by exists s|by apply Hl'].
    + simpl in Hlen. unfold drops in Hlen. split; [lia|intros _; lia].
  - destruct (Hc k l Hnd) as [Hc1 Hc2]; [by intros j Hj; apply Hl'|]. split; [done|]. intros Hcur. apply Hc2.
    intros (j & s' & Hk & Hj). apply Hcur. exists j, s'. rewrite Hm by done. split; [done|]. rewrite Ht, lookup_insert_ne; [done|].
    intros ->. congruence.
Qed.
(** A step of a task that initialises nothing, before or after *)
Lemma counted_same w w' i t :
  counted w → tasks w' = <[i := t]> (tasks w) → (∀ k s', t ≠ Initializing k s') → (∀ k, ¬ initialising w k i) →
  dropped w' = dropped w → map w' = map w → counted w'.
Proof.
  intros Hc Ht Hno Hni Hd Hm k l Hnd Hl. unfold drops in *. rewrite Hd.
  assert (∀ j, initialising w' k j ↔ initialising w k j) as Hiff.
  { intros j. unfold initialising. rewrite Ht. destruct (decide (j = i)) as [->|Hne].
    - rewrite lookup_insert_eq. split; [by intros [s' [= ->]]; destruct (Hno k s')|by intros ?%Hni].
    - by rewrite lookup_insert_ne. }
  destruct (Hc k l Hnd) as [Hc1 Hc2]; [by intros j ?%Hl%Hiff|]. split; [done|]. intros Hcur. apply Hc2.
  intros (j & s' & Hk & Hj). apply Hcur. assert (initialising w' k j) as [s2 Hj2] by (apply Hiff; by exists s').
  exists j, s'. rewrite Hm. split; [done|]. rewrite Ht in Hj2 |- *. destruct (decide (j = i)) as [->|Hne].
  - rewrite lookup_insert_eq in Hj2. injection Hj2 as ->. by destruct (Hno k s2).
  - by rewrite lookup_insert_ne.
Qed.

Lemma become_initializer_counted w i key :
  world_ok w → counted w → tasks w !! i = None → (∀ s, map w !! key = Some (Pending s) → ¬ held w s) →
  counted (become_initializer w i key).
Proof.
  intros Hok Hc Hi Hdead k l Hnd Hl. change (drops (become_initializer w i key) k) with (drops w k).
  assert (∀ j, j ∈ l → j ≠ i → initialising w k j) as Hl'.
  { intros j [s Hj]%Hl Hne. simpl in Hj. rewrite lookup_insert_ne in Hj by done. by exists s. }
  destruct (decide (k = key)) as [->|Hne].
  - destruct (count_remove l i Hnd) as (l' & Hnd' & Hlen & Hin). destruct (Hc key l' Hnd') as [_ Hc2].
    { intros j [Hj Hne]%Hin. by apply Hl'. }
    assert (¬ current w key) as Hncur.
    { intros (j & s & Hk & Hj). apply (Hdead s Hk). exists j, (Initializing key s). split; [done|]. by apply Nat.eqb_eq. }
    specialize (Hc2 Hncur). split; [lia|]. intros Hcur. destruct Hcur. exists i, (next_sender w). simpl. by rewrite !lookup_insert_eq.
  - destruct (Hc k l Hnd) as [Hc1 Hc2].
    { intros j Hj. apply Hl'; [done|]. intros ->. destruct (Hl i Hj) as [s Hs]. simpl in Hs. rewrite lookup_insert_eq in Hs. congruence. }
    split; [done|]. intros Hcur. apply Hc2. intros (j & s & Hk & Hj). apply Hcur. exists j, s. simpl.
    rewrite !lookup_insert_ne; [done|congruence|done].
Qed.

Lemma retain_counted w f : counted w → counted (retain w f).
Proof.
  intros Hc k l Hnd Hl. destruct (Hc k l Hnd Hl) as [Hc1 Hc2].
  set (out := (map_to_list (filter (λ kv, is_pending kv.2 = true ∧ f kv.1 kv.2 = false) (map w))).*1).
  assert (drops (retain w f) k = length (filter (λ x, x = k) out) + drops w k) as ->.
  { unfold drops. simpl. fold out. by rewrite filter_app, length_app. }
  split; [lia|]. intros Hcur. destruct (map w !! k) as [[s|v]|] eqn:Hk; cycle 1.
  - assert (¬ current w k) as Hn by (intros (j & s & Hk' & _); congruence). specialize (Hc2 Hn). lia.
  - assert (¬ current w k) as Hn by (intros (j & s & Hk' & _); congruence). specialize (Hc2 Hn). lia.
  - destruct (f k (Pending s)) eqn:Hf.
    + assert (¬ current w k) as Hn; [|specialize (Hc2 Hn); lia]. intros (j & s' & Hk' & Hj). apply Hcur. exists j, s'. split; [|done].
      rewrite Hk in Hk'. injection Hk' as <-. simpl. by rewrite map_lookup_filter_Some.
    + assert (k ∈ filter (λ x, x = k) out) as Hin.
      { apply list_elem_of_filter. split; [done|]. unfold out. apply list_elem_of_fmap. exists (k, Pending s). split; [done|].
        apply elem_of_map_to_list. by rewrite map_lookup_filter_Some. }
      destruct (filter (λ x, x = k) out); [by apply elem_of_nil in Hin|]. simpl. lia.
Qed.

Lemma step_counted allowed w w' : step allowed w w' → world_ok w → counted w → counted w'.
Proof.
  intros [w0 i key Hi|w0 i key s v Hi|w0 i key s e Hi|w0 i key s v Hi|w0 i key s rx t Hi Hr
    |w0 i key s Hi|w0 i key s rx Hi|w0 f Hf] Hok Hc.
  - assert (∀ k, ¬ initialising w0 k i) as Hni by (intros k [s Hs]; congruence).
    unfold get_or_try_init. destruct (map w0 !! key) as [[s|v]|] eqn:Hk.
    + destruct (sender_alive (tasks w0) s) eqn:Hal.
      * destruct (subscribe (channels w0 s)) as [c rx]. by apply (counted_same w0 _ i (Waiting key s rx)).
      * apply become_initializer_counted; [done..|]. intros s' [= <-]%(eq_trans (eq_sym Hk)) Hh. apply sender_alive_spec in Hh. congruence.
    + by apply (counted_same w0 _ i (Done key (Ok v))).
    + apply become_initializer_counted; [done..|]. congruence.
  - apply (counted_finish w0 _ i key s (Sending key s v)); try done. intros k Hk. simpl. by rewrite lookup_insert_ne.
  - by apply (counted_finish w0 _ i key s (Done key (Err (Init e)))).
  - apply (counted_same w0 _ i (Done key (Ok v))); try done. intros k [s' Hs]. congruence.
  - apply (counted_same w0 _ i t); try done.
    + intros k s' ->. unfold receive in Hr. destruct (recv _ _ _); discriminate.
    + intros k [s' Hs]. congruence.
  - by apply (counted_finish w0 _ i key s Cancelled).
  - apply (counted_same w0 _ i Cancelled); try done. intros k [s' Hs]. congruence.
  - by apply retain_counted.
Qed.
Lemma reachable_counted allowed w : world_reachable allowed w → counted w.
Proof.
  intros Hw. assert (world_ok w ∧ counted w) as [_ ?]; [|done].
  apply (rtc_ind_r (R := step allowed) (λ w, world_ok w ∧ counted w) world_new); [| |done].
  - split; [apply world_new_ok|]. intros key l _ Hl. destruct l as [|i l]; [simpl; split; [lia|intros _; lia]|].
    destruct (Hl i ltac:(by left)) as [s Hs]. simpl in Hs. by rewrite lookup_empty in Hs.
  - intros y z _ Hs [Hc1 Hc2]. split; [by apply (step_ok allowed y z)|by apply (step_counted allowed y z)].
Qed.

(** ** The guarantees *)

(** C39: concurrent calls are coalesced.  In every interleaving, whatever [retain] is called
    with, the tasks that run the initialiser of a key are at most one more than the pending
    entries of the key that [retain] has dropped, so one at a time unless it drops one; a waiting
    task either has its answer ready or its initialiser is still at work, so none waits forever;
    whoever returns a value, or reads one with [get], has one that a successful initialiser of
    that key produced; and a coalesced request fails only after an initialiser of its key failed
    or was cancelled. *)
Theorem coalesced_map_coalesces (w : World) (Hw : world_reachable (λ _, True) w) :
  (∀ key l, NoDup l → (∀ i, i ∈ l → ∃ s, tasks w !! i = Some (Initializing key s)) →
     length l ≤ 1 + length (filter (λ k, k = key) (dropped w)))
  ∧ (∀ i key s rx, tasks w !! i = Some (Waiting key s rx) →
       is_Some (receive w key s rx)
       ∨ ∃ j, tasks w !! j = Some (Initializing key s) ∨ ∃ v, tasks w !! j = Some (Sending key s v))
  ∧ (∀ i key v, tasks w !! i = Some (Done key (Ok v)) → (key, v) ∈ initialized w)
  ∧ (∀ key v, get w key = Some v → (key, v) ∈ initialized w)
  ∧ (∀ i key, tasks w !! i = Some (Done key (Err CoalescedRequestFailed)) → key ∈ failed w).
Proof.
  pose proof (reachable_ok _ w Hw) as Hok.
  split; [|split; [|split; [|split]]].
  - intros key l Hnd Hl. by apply (reachable_counted _ w Hw key l Hnd Hl).
  - intros i key s rx Hi. destruct (ok_tasks w Hok i _ Hi) as [_ Hwait].
    destruct Hwait as [j t Hj Hs Hk _ _|v _ Hr _|Hu Ha _ Hh].
    + right. exists j. apply holds_spec in Hs as [(k & ->)|(k & v & ->)]; injection Hk as ->; eauto.
    + left. unfold receive. rewrite Hr. by eexists.
    + left. unfold receive. rewrite recv_unsent by done.
      destruct (sender_alive (tasks w) s) eqn:Eh; [by apply sender_alive_spec in Eh|by eexists].
  - intros i key v Hi. exact (ok_tasks w Hok i _ Hi).
  - intros key v. unfold get. destruct (map w !! key) as [[s|u]|] eqn:Hk; [done| |done].
    intros [= <-]. by apply (ok_fetched w Hok).
  - intros i key Hi. exact (ok_tasks w Hok i _ Hi).
Qed.

(** While nothing is removed, an initialiser has the entry of its key. *)
Definition entries_kept (w : World) : Prop := ∀ i key s, tasks w !! i = Some (Initializing key s) → map w !! key = Some (Pending s).
Lemma step_entries_kept w w' : step (λ _, False) w w' → world_ok w → entries_kept w → entries_kept w'.
Proof.
  intros Hs Hok Hk. assert (∀ i w' t, entries_kept w → map w' = map w → tasks w' = <[i := t]> (tasks w) →
    (∀ k s, t ≠ Initializing k s) → entries_kept w') as Hsame.
  { intros i v t He Hm Ht Hno j k s Hj. rewrite Ht in Hj. rewrite Hm.
    apply lookup_insert_Some in Hj as [[_ ->]|[_ Hj]]; [by destruct (Hno k s)|by eapply He]. }
  assert (∀ i key, tasks w !! i = None → (∀ s, map w !! key = Some (Pending s) → ¬ held w s) → entries_kept (become_initializer w i key)) as Hnew.
  { intros i key Hi Hdead j k s. simpl. intros [[_ [= <- <-]]|[_ Hj]]%lookup_insert_Some; [apply lookup_insert_eq|].
    pose proof (Hk j k s Hj) as Hks. rewrite lookup_insert_ne; [done|]. intros ->. apply (Hdead s Hks).
    exists j, (Initializing k s). split; [done|]. by apply Nat.eqb_eq. }
  destruct Hs as [w0 i key Hi|w0 i key s v Hi|w0 i key s e Hi|w0 i key s v Hi|w0 i key s rx t Hi Hr|w0 i key s Hi|w0 i key s rx Hi|w0 f []].
  - unfold get_or_try_init. destruct (map w0 !! key) as [[s|v]|] eqn:Em.
    + destruct (sender_alive (tasks w0) s) eqn:Hal.
      * destruct (subscribe (channels w0 s)) as [c rx]. by apply (Hsame i _ (Waiting key s rx)).
      * apply Hnew; [done|]. intros s' [= <-]%(eq_trans (eq_sym Em)) Hh. apply sender_alive_spec in Hh. congruence.
    + by apply (Hsame i _ (Done key (Ok v))).
    + apply Hnew; [done|]. congruence.
  - intros j k s'. simpl. intros [[_ ?]|[Hne Hj]]%lookup_insert_Some; [done|]. pose proof (Hk j k s' Hj) as Hks.
    rewrite lookup_insert_ne; [done|]. intros ->. apply Hne. pose proof (Hk i k s Hi) as Hks'. rewrite Hks in Hks'. injection Hks' as ->.
    apply (ok_holder w0 Hok i j _ _ s Hi Hj); by apply Nat.eqb_eq.
  - by apply (Hsame i _ (Done key (Err (Init e)))).
  - by apply (Hsame i _ (Done key (Ok v))).
  - apply (Hsame i _ t); try done. intros k s' ->. unfold receive in Hr. destruct (recv _ _ _); discriminate.
  - by apply (Hsame i _ Cancelled).
  - by apply (Hsame i _ Cancelled).
Qed.

(** At most one success per key.  As long as nothing is removed from the map,
    no key is initialised successfully twice; the value is in the map from then
    on; and all the tasks that ever return a value for the key return that one. *)
Theorem coalesced_map_once (w : World) (Hw : world_reachable (λ _, False) w) :
  NoDup (initialized w).*1
  ∧ (∀ key v, (key, v) ∈ initialized w → get w key = Some v)
  ∧ (∀ i j key u v, tasks w !! i = Some (Done key (Ok u)) → tasks w !! j = Some (Done key (Ok v)) → u = v).
Proof.
  assert (world_ok w ∧ entries_kept w ∧ NoDup (initialized w).*1
    ∧ ∀ key v, (key, v) ∈ initialized w → map w !! key = Some (Fetched v)) as (Hok & _ & Hn & Hf).
  { apply (rtc_ind_r (R := step (λ _, False)) (λ w, world_ok w ∧ entries_kept w ∧ NoDup (initialized w).*1
      ∧ ∀ key v, (key, v) ∈ initialized w → map w !! key = Some (Fetched v)) world_new); [| |done].
    { split; [apply world_new_ok|]. split; [|split; [apply NoDup_nil_2|by intros k v ?%elem_of_nil]].
      intros i key s Hi. simpl in Hi. by rewrite lookup_empty in Hi. }
    intros y z _ Hs (Hok & Hkept & Hn & Hf). split; [by apply (step_ok (λ _, False) y z)|].
    split; [by apply (step_entries_kept y z)|].
    destruct Hs as [y i key Hi|y i key s v Hi| | | | | |]; try done.
    - assert (initialized (get_or_try_init y i key) = initialized y
        ∧ ∀ k v, map y !! k = Some (Fetched v) → map (get_or_try_init y i key) !! k = Some (Fetched v))
        as [-> Hm]; [|by split; [|intros k v ?; apply Hm, Hf]].
      assert (∀ k v, (∀ u, map y !! key ≠ Some (Fetched u)) → map y !! k = Some (Fetched v) →
        map (become_initializer y i key) !! k = Some (Fetched v)) as Hb.
      { intros k v Hno Hk. simpl. rewrite lookup_insert_ne; [done|]. intros ->. by apply (Hno v). }
      unfold get_or_try_init. destruct (map y !! key) as [[s|u]|] eqn:Hk; [|done|].
      + destruct (sender_alive _ _); [by destruct (subscribe _)|]. split; [done|].
        intros k v. by apply Hb.
      + split; [done|]. intros k v. by apply Hb.
    - pose proof (Hkept i key s Hi) as Hk.
      assert (key ∉ (initialized y).*1) as Hnew.
      { intros ([k u] & -> & Hin)%list_elem_of_fmap. apply Hf in Hin. simpl in Hk. congruence. }
      split; [by constructor|]. simpl. intros k u [[= -> ->]|Hin]%elem_of_cons.
      + by rewrite lookup_insert_eq.
      + rewrite lookup_insert_ne; [by apply Hf|]. intros ->. apply Hnew.
        apply list_elem_of_fmap. by exists (k, u). }
  split; [done|]. split.
  - intros key v Hin. unfold get. by rewrite (Hf key v Hin).
  - intros i j key u v Hi Hj.
    pose proof (Hf _ _ (ok_tasks w Hok i _ Hi)). pose proof (Hf _ _ (ok_tasks w Hok j _ Hj)). congruence.
Qed.
End map.

(** Two tasks ask for key 7: the first initialises it, the second waits for it. *)
Section sample.
Local Existing Instance broadcast_ref.
Local Notation world := (World (K := nat) (V := nat) (E := unit) (M := gmap nat)).

Definition sample_waiting : world := get_or_try_init (get_or_try_init world_new 0 7) 1 7.
Definition sample_sent : world := send_value (init_ok sample_waiting 0 7 0 42) 0 7 0 42.
Definition sample_done : world := set_task sample_sent 1 (Done 7 (Ok 42)).

Lemma sample_waiting_reachable allowed : world_reachable allowed sample_waiting.
Proof.
  eapply rtc_l; [by apply (step_get allowed _ 0 7)|].
  eapply rtc_l; [by apply (step_get allowed _ 1 7)|]. apply rtc_refl.
Qed.

Lemma sample_done_reachable allowed : world_reachable allowed sample_done.
Proof.
  eapply (transitivity (R := rtc (step allowed))); [apply sample_waiting_reachable|].
  eapply rtc_l; [apply (step_init_ok allowed _ 0 7 0 42); vm_compute; reflexivity|].
  eapply rtc_l; [apply (step_send allowed _ 0 7 0 42); vm_compute; reflexivity|].
  eapply rtc_l; [eapply (step_recv allowed _ 1 7 0 _ (Done 7 (Ok 42))); vm_compute; reflexivity|].
  apply rtc_refl.
Qed.
End sample.

(** [retain] drops the entry that task 0 initialises, as [Gateway::clear_repodata_cache] does;
    task 1 starts a second initialiser of the same key. *)
Definition sample_dropped : World (K := nat) (V := nat) (E := unit) (M := gmap nat) (BC := broadcast_ref nat) :=
  get_or_try_init (retain (get_or_try_init world_new 0 7) (λ _ _, false)) 1 7.
Lemma pending_dropped_initialised_twice :
  tasks sample_dropped !! 0 = Some (Initializing 7 0) ∧ tasks sample_dropped !! 1 = Some (Initializing 7 1).
Proof. split; vm_compute; reflexivity. Qed.

Lemma coalesced_map_coalesces_witness :
  let _ := broadcast_ref nat in
  world_reachable (λ _, True) sample_waiting ∧ world_reachable (λ _, True) sample_dropped
  ∧ (is_Some (receive sample_waiting 7 0 tt)
     ∨ ∃ j, tasks sample_waiting !! j = Some (Initializing 7 0)
            ∨ ∃ v, tasks sample_waiting !! j = Some (Sending 7 0 v))
  ∧ length [0; 1] ≤ 1 + length (filter (λ k, k = 7) (dropped sample_dropped)).
Proof.
  assert (world_reachable (BC := broadcast_ref nat) (λ _, True) sample_dropped) as Hdropped.
  { eapply rtc_l; [by apply (step_get _ _ 0 7)|]. eapply rtc_l; [by apply (step_retain _ _ (λ _ _, false))|].
    eapply rtc_l; [by apply (step_get _ _ 1 7)|]. apply rtc_refl. }
  split; [apply sample_waiting_reachable|]. split; [exact Hdropped|].
  destruct (coalesced_map_coalesces sample_waiting (sample_waiting_reachable _)) as (_ & Hwait & _).
  destruct (coalesced_map_coalesces sample_dropped Hdropped) as (Hcount & _).
  split; [apply (Hwait 1 7 0 tt); vm_compute; reflexivity|]. apply (Hcount 7 [0; 1]).
  - apply NoDup_ListNoDup. repeat constructor; simpl; lia.
  - intros i [->|[->| []%elem_of_nil]%elem_of_cons]%elem_of_cons; eexists; apply pending_dropped_initialised_twice.
Defined.

Lemma coalesced_map_once_witness :
  let _ := broadcast_ref nat in
  world_reachable (λ _, False) sample_done ∧ get sample_done 7 = Some 42.
Proof.
  split; [apply sample_done_reachable|].
  destruct (coalesced_map_once sample_done (sample_done_reachable _)) as (_ & Hget & _).
  apply Hget. vm_compute. left.
Defined.
