(* ===== verification/BuildSpec.v ===== *)
(** * Build number specifications

    [rattler_conda_types/src/build_spec/{mod,parse}.rs]: the build number key of a
    match spec, an operator and a number, with its parser and [Display]. *)
From S2P Require Import Prelude Externs VersionParse.

(** ** Definitions *)
Inductive OrdOperator : Type := OrdGt | OrdGe | OrdLt | OrdLe | OrdEq | OrdNe.
#[export] Instance ord_operator_eq_dec : EqDecision OrdOperator.
Proof. solve_decision. Defined.

Record OperatorConstraint (Operator Element : Type) := mkOperatorConstraint {
  op : Operator;
  rhs : Element
}.
Arguments mkOperatorConstraint {Operator Element} op rhs.
Arguments op {Operator Element} o.
Arguments rhs {Operator Element} o.

Definition BuildNumberSpec : Type := OperatorConstraint OrdOperator N.

Definition ord_operator_display (o : OrdOperator) : list N :=
  match o with
  | OrdGt => txt ">"
  | OrdGe => txt ">="
  | OrdLt => txt "<"
  | OrdLe => txt "<="
  | OrdEq => txt "=="
  | OrdNe => txt "!="
  end.

Definition build_number_spec_display (s : BuildNumberSpec) : list N :=
  ord_operator_display (op s) ++ u64_display (rhs s).

Definition build_number_spec_matches (s : BuildNumberSpec) (build_num : N) : bool :=
  match op s with
  | OrdGt => (rhs s <? build_num)%N
  | OrdGe => (rhs s <=? build_num)%N
  | OrdLt => (build_num <? rhs s)%N
  | OrdLe => (build_num <=? rhs s)%N
  | OrdEq => (build_num =? rhs s)%N
  | OrdNe => negb (build_num =? rhs s)%N
  end.

Inductive ParseOrdOperatorError : Type :=
| InvalidOrdOperator (op : list N)
| ExpectedOrdOperator
| OrdOperatorExpectedEof.

Inductive ParseBuildNumberSpecError : Type :=
| InvalidBuildNumber
| SpecInvalidOperator (e : ParseOrdOperatorError)
| SpecExpectedEof.

(** [Finish::finish] *)
Definition finish {O E} (r : IResult O E) : result E (list N * O) :=
  match r with
  | Ok x => Ok x
  | Err (NErr e) | Err (NFail e) => Err e
  end.

(** ["=!<>".contains(c)] *)
Definition is_ord_operator_char (c : N) : bool :=
  bool_decide (c ∈ [c_eq; c_bang; c_lt; c_gt]).

Section parsers.
Context `{NM : Nom}.

Definition ord_operator_parser (input : list N) : IResult OrdOperator ParseOrdOperatorError :=
  match take_while1 (E := list N * ErrorKind) is_ord_operator_char input with
  | Err _ => Err (NErr ExpectedOrdOperator)
  | Ok (rest, operator_str) =>
      if bool_decide (operator_str = txt "==") then Ok (rest, OrdEq)
      else if bool_decide (operator_str = txt "!=") then Ok (rest, OrdNe)
      else if bool_decide (operator_str = txt "<=") then Ok (rest, OrdLe)
      else if bool_decide (operator_str = txt ">=") then Ok (rest, OrdGe)
      else if bool_decide (operator_str = txt "<") then Ok (rest, OrdLt)
      else if bool_decide (operator_str = txt ">") then Ok (rest, OrdGt)
      else Err (NFail (InvalidOrdOperator operator_str))
  end.

Definition ord_operator_from_str (s : list N) : result ParseOrdOperatorError OrdOperator :=
  match finish (ord_operator_parser s) with
  | Ok ([], spec) => Ok spec
  | Ok _ => Err OrdOperatorExpectedEof
  | Err e => Err e
  end.

(** The operator in front of the number, if there is one. *)
Definition leading_operator (input : list N)
  : option (result (nom_err ParseBuildNumberSpecError) (list N * option OrdOperator)) :=
  match ord_operator_parser input with
  | Err (NFail (InvalidOrdOperator op)) | Err (NErr (InvalidOrdOperator op)) =>
      Some (Err (NFail (SpecInvalidOperator (InvalidOrdOperator op))))
  | Err (NErr _) => Some (Ok (input, None))
  | Ok (rest, op) => Some (Ok (rest, Some op))
  | Err (NFail _) => None
  end.

(** [None] is a panic: [unreachable!], or a number out of the range of [u64]. *)
Definition build_number_spec_parser (input : list N)
  : option (IResult BuildNumberSpec ParseBuildNumberSpecError) :=
  r ← leading_operator input;
  match r with
  | Err e => Some (Err e)
  | Ok (input, op) =>
      match digit1 (E := list N * ErrorKind) input with
      | Err _ => Some (Err (NErr InvalidBuildNumber))
      | Ok (rest, digits) =>
          match u64_from_str digits with
          | Err _ => None
          | Ok build_num =>
              Some (Ok (rest, mkOperatorConstraint (default OrdEq op) build_num))
          end
      end
  end.

Definition build_number_spec_from_str (s : list N)
  : option (result ParseBuildNumberSpecError BuildNumberSpec) :=
  r ← build_number_spec_parser s;
  Some match finish r with
       | Ok ([], spec) => Ok spec
       | Ok _ => Err SpecExpectedEof
       | Err e => Err e
       end.

(** ** The parsers on the texts they are meant for *)

Definition leading_text (o : option OrdOperator) : list N :=
  match o with Some o => ord_operator_display o | None => [] end.

Lemma ord_operator_parser_display o rest :
  stops is_ord_operator_char rest = true →
  ord_operator_parser (ord_operator_display o ++ rest) = Ok (rest, o).
Proof.
  intros Hr. unfold ord_operator_parser. nom. unfold span1_fun.
  rewrite span_app; [|by destruct o|done]. by destruct o.
Qed.

Lemma ord_operator_parser_inv input rest o :
  ord_operator_parser input = Ok (rest, o) →
  input = ord_operator_display o ++ rest ∧ stops is_ord_operator_char rest = true.
Proof.
  unfold ord_operator_parser. nom. unfold span1_fun.
  destruct (span_spec is_ord_operator_char input) as (Hi & _ & Hs).
  destruct (span is_ord_operator_char input) as [a b]. simpl in *. subst input.
  destruct a as [|c a]; [done|]. intros H.
  repeat (case_bool_decide; [simplify_eq; rewrite ?H0, ?H1, ?H2, ?H3, ?H4, ?H5; done|]). done.
Qed.

(** Without an operator character in front there is no operator. *)
Lemma leading_operator_spec o rest :
  stops is_ord_operator_char rest = true →
  leading_operator (leading_text o ++ rest) = Some (Ok (rest, o)).
Proof.
  intros Hr. unfold leading_operator. destruct o as [o|].
  - simpl. by rewrite ord_operator_parser_display.
  - simpl. unfold ord_operator_parser. nom. unfold span1_fun.
    destruct rest as [|c rest]; [done|]. simpl in *. by destruct (is_ord_operator_char c).
Qed.

Lemma leading_operator_total input :
  (∃ e, leading_operator input = Some (Err e))
  ∨ ∃ o rest, input = leading_text o ++ rest ∧ stops is_ord_operator_char rest = true
      ∧ leading_operator input = Some (Ok (rest, o)).
Proof.
  destruct (ord_operator_parser input) as [[rest o]|e] eqn:E.
  { right. destruct (ord_operator_parser_inv _ _ _ E) as [-> Hs].
    exists (Some o), rest. split; [done|]. split; [done|]. unfold leading_operator. by rewrite E. }
  revert E. unfold leading_operator, ord_operator_parser. nom. unfold span1_fun.
  destruct input as [|c input]; simpl; [by right; exists None, []|].
  destruct (is_ord_operator_char c) eqn:Ec.
  - destruct (span is_ord_operator_char input) as [a b].
    repeat (case_bool_decide; [done|]). intros [= <-]. left. by eexists.
  - intros [= <-]. right. exists None, (c :: input). split; [done|]. split; [by simpl; rewrite Ec|done].
Qed.
End parsers.

(** ** The number *)

(** The value of a string of decimal digits, of any size. *)
Definition decimal (acc : N) (digits : list N) : N :=
  foldl (λ acc c, 10 * acc + (c - 48))%N acc digits.

Lemma decimal_cons acc c digits :
  decimal acc (c :: digits) = decimal (10 * acc + (c - 48))%N digits.
Proof. done. Qed.

Lemma decimal_ge acc digits : (acc <= decimal acc digits)%N.
Proof.
  revert acc. induction digits as [|c digits IH]; intros acc; [done|].
  rewrite decimal_cons. specialize (IH (10 * acc + (c - 48))%N). lia.
Qed.

Lemma u64_digits_decimal acc digits :
  forallb is_ascii_digit digits = true →
  u64_digits acc digits = if (decimal acc digits <=? u64_max)%N then Ok (decimal acc digits)
                          else match digits with [] => Ok acc | _ => Err PosOverflow end.
Proof.
  revert acc. induction digits as [|c digits IH]; intros acc Hd.
  { simpl. by destruct (acc <=? u64_max)%N. }
  simpl in Hd. bool_hyps. rewrite decimal_cons. cbn [u64_digits]. rewrite H.
  pose proof (decimal_ge (10 * acc + (c - 48)) digits) as Hge.
  destruct (N.ltb_spec u64_max (10 * acc)) as [Hlt|].
  { rewrite (proj2 (N.leb_gt _ _)) by lia. done. }
  destruct (N.ltb_spec u64_max (10 * acc + (c - 48))) as [Hlt|].
  { rewrite (proj2 (N.leb_gt _ _)) by lia. done. }
  rewrite IH by done. destruct (N.leb_spec (decimal (10 * acc + (c - 48)) digits) u64_max); [done|].
  destruct digits; [simpl in *; lia|done].
Qed.

Lemma u64_from_str_decimal digits :
  digits ≠ [] → forallb is_ascii_digit digits = true →
  u64_from_str digits = if (decimal 0 digits <=? u64_max)%N then Ok (decimal 0 digits) else Err PosOverflow.
Proof.
  intros Hne Hd. rewrite u64_from_str_digits; [|done|].
  - rewrite u64_digits_decimal by done. by destruct digits.
  - intros c Hc. rewrite forallb_forall in Hd. by apply Hd, list_elem_of_In.
Qed.

Lemma digit_not_operator c : is_ascii_digit c = true → is_ord_operator_char c = false.
Proof.
  unfold is_ascii_digit, is_ord_operator_char. intros H. bool_hyps.
  apply bool_decide_eq_false_2. rewrite !elem_of_cons, elem_of_nil. lia.
Qed.

Lemma stops_digits digits rest :
  digits ≠ [] → forallb is_ascii_digit digits = true →
  stops is_ord_operator_char (digits ++ rest) = true.
Proof.
  destruct digits as [|c digits]; simpl; [done|]. intros _ H. bool_hyps. by rewrite digit_not_operator.
Qed.

Section theorems.
Context `{NM : Nom}.

(** The parser on an operator, digits and a rest. *)
Lemma build_number_spec_parser_text o digits rest :
  digits ≠ [] → forallb is_ascii_digit digits = true → stops is_ascii_digit rest = true →
  build_number_spec_parser (leading_text o ++ digits ++ rest)
  = if (decimal 0 digits <=? u64_max)%N
    then Some (Ok (rest, mkOperatorConstraint (default OrdEq o) (decimal 0 digits))) else None.
Proof.
  intros Hne Hd Hr. unfold build_number_spec_parser.
  rewrite leading_operator_spec by by apply stops_digits. simpl. nom. unfold span1_fun.
  rewrite span_app by done. destruct digits as [|c digits]; [done|].
  rewrite u64_from_str_decimal by done. by destruct (_ <=? _)%N.
Qed.

(** Any other text is an error. *)
Lemma build_number_spec_parser_cases s :
  (∃ e, build_number_spec_parser s = Some (Err e))
  ∨ ∃ o digits rest, s = leading_text o ++ digits ++ rest ∧ digits ≠ []
      ∧ forallb is_ascii_digit digits = true ∧ stops is_ascii_digit rest = true.
Proof.
  unfold build_number_spec_parser.
  destruct (leading_operator_total s) as [[e ->]|(o & rest & -> & Hs & ->)]; simpl.
  { left. by eexists. }
  nom. unfold span1_fun. destruct (span_spec is_ascii_digit rest) as (Hrest & Hd & Hst).
  destruct (span is_ascii_digit rest) as [digits rest']. simpl in *.
  destruct digits as [|c digits]; [left; by eexists|]. right.
  exists o, (c :: digits), rest'. by rewrite Hrest.
Qed.

Lemma build_number_spec_from_str_text o digits rest :
  digits ≠ [] → forallb is_ascii_digit digits = true → stops is_ascii_digit rest = true →
  build_number_spec_from_str (leading_text o ++ digits ++ rest)
  = if (decimal 0 digits <=? u64_max)%N
    then Some (match rest with
               | [] => Ok (mkOperatorConstraint (default OrdEq o) (decimal 0 digits))
               | _ => Err SpecExpectedEof
               end)
    else None.
Proof.
  intros. unfold build_number_spec_from_str. rewrite build_number_spec_parser_text by done.
  destruct (_ <=? _)%N; [|done]. simpl. by destruct rest.
Qed.

(** [BuildNumberSpec::from_str] accepts exactly an optional operator and a
    decimal number that fits [u64]; without an operator the number has to be equal.
    It panics exactly on the texts that start with an operator and digits whose
    value does not fit, whatever follows them; every other text is an error.  What
    [Display] writes is parsed back. *)
Theorem build_number_spec_from_str_spec (s : list N) :
  (∀ spec, build_number_spec_from_str s = Some (Ok spec) ↔
     ∃ o digits, s = leading_text o ++ digits ∧ digits ≠ [] ∧ forallb is_ascii_digit digits = true
       ∧ (decimal 0 digits <= u64_max)%N
       ∧ spec = mkOperatorConstraint (default OrdEq o) (decimal 0 digits))
  ∧ (build_number_spec_from_str s = None ↔
     ∃ o digits rest, s = leading_text o ++ digits ++ rest ∧ digits ≠ []
       ∧ forallb is_ascii_digit digits = true ∧ stops is_ascii_digit rest = true
       ∧ (u64_max < decimal 0 digits)%N)
  ∧ (∀ o n, (n <= u64_max)%N →
       build_number_spec_from_str (build_number_spec_display (mkOperatorConstraint o n))
       = Some (Ok (mkOperatorConstraint o n))).
Proof.
  split; [|split].
  - intros spec. split.
    + destruct (build_number_spec_parser_cases s) as [[e E]|(o & digits & rest & -> & Hne & Hd & Hr)].
      { unfold build_number_spec_from_str. rewrite E. simpl. by destruct e. }
      rewrite build_number_spec_from_str_text by done.
      destruct (N.leb_spec (decimal 0 digits) u64_max); [|done]. destruct rest; [|done].
      intros [= <-]. exists o, digits. by rewrite app_nil_r.
    + intros (o & digits & -> & Hne & Hd & Hm & ->).
      rewrite <-(app_nil_r digits) at 1. rewrite build_number_spec_from_str_text by done.
      by rewrite (proj2 (N.leb_le _ _)).
  - split.
    + destruct (build_number_spec_parser_cases s) as [[e E]|(o & digits & rest & -> & Hne & Hd & Hr)].
      { unfold build_number_spec_from_str. by rewrite E. }
      rewrite build_number_spec_from_str_text by done.
      destruct (N.leb_spec (decimal 0 digits) u64_max); [done|]. intros _. by exists o, digits, rest.
    + intros (o & digits & rest & -> & Hne & Hd & Hr & Hm).
      rewrite build_number_spec_from_str_text by done. by rewrite (proj2 (N.leb_gt _ _)).
  - intros o n Hn. unfold build_number_spec_display. simpl.
    assert (forallb is_ascii_digit (u64_display n) = true) as Hd.
    { apply forallb_forall. intros c Hc. by eapply u64_display_digits, list_elem_of_In. }
    pose proof (build_number_spec_from_str_text (Some o) (u64_display n) []
      (u64_display_nonempty n) Hd eq_refl) as E. rewrite app_nil_r in E. simpl in E. rewrite E.
    pose proof (u64_display_parse n Hn) as Hp.
    rewrite u64_digits_decimal in Hp by done.
    destruct (decimal 0 (u64_display n) <=? u64_max)%N; [by injection Hp as ->|].
    pose proof (u64_display_nonempty n). by destruct (u64_display n).
Qed.

(** A number of twenty digits brings the parser down. *)
Lemma build_number_spec_from_str_panics :
  build_number_spec_from_str (NM := nom_ref) (txt ">=99999999999999999999") = None
  ∧ build_number_spec_from_str (NM := nom_ref) (txt "99999999999999999999 trailing") = None.
Proof. by split. Qed.
End theorems.

(** ** Matching *)

(** The operator that accepts what [o] rejects. *)
Definition opposite (o : OrdOperator) : OrdOperator :=
  match o with
  | OrdGt => OrdLe
  | OrdGe => OrdLt
  | OrdLt => OrdGe
  | OrdLe => OrdGt
  | OrdEq => OrdNe
  | OrdNe => OrdEq
  end.

Lemma matches_opposite o n b :
  build_number_spec_matches (mkOperatorConstraint (opposite o) n) b
  = negb (build_number_spec_matches (mkOperatorConstraint o n) b).
Proof.
  unfold build_number_spec_matches. destruct o; simpl; rewrite ?negb_involutive; try done;
    rewrite ?N.ltb_antisym, ?negb_involutive; done.
Qed.
