(* ===== verification/Utf.v ===== *)
(** * Text and its encodings

    What the standard library of Rust does to convert between [str] and bytes: the
    UTF-8 bytes of a string, its UTF-16 code units, integers in little and big
    endian, and [String::from_utf8_lossy]. *)
From S2P Require Import Prelude.

Local Ltac Zify.zify_post_hook ::= Z.to_euclidean_division_equations.

(** ** Definitions *)

(** [char]: the Unicode scalar values. *)
Definition is_scalar (c : N) : bool :=
  (c <? 55296)%N || (57344 <=? c)%N && (c <? 1114112)%N.

Definition utf8_char (c : N) : list N :=
  if (c <? 128)%N then [c]
  else if (c <? 2048)%N then [192 + c / 64; 128 + c mod 64]%N
  else if (c <? 65536)%N then [224 + c / 4096; 128 + c / 64 mod 64; 128 + c mod 64]%N
  else [240 + c / 262144; 128 + c / 4096 mod 64; 128 + c / 64 mod 64; 128 + c mod 64]%N.

(** [str::as_bytes] and [str::len] *)
Definition utf8 (s : list N) : list N := s ≫= utf8_char.
Definition str_len (s : list N) : nat := length (utf8 s).

(** [char::encode_utf16] *)
Definition utf16_char (c : N) : list N :=
  if (c <? 65536)%N then [c]
  else [55296 + (c - 65536) / 1024; 56320 + (c - 65536) mod 1024]%N.

Definition u16_to_be_bytes (u : N) : list N := [u / 256; u mod 256]%N.
Definition u16_to_le_bytes (u : N) : list N := [u mod 256; u / 256]%N.
Definition u32_to_be_bytes (u : N) : list N :=
  [u / 16777216; u / 65536 mod 256; u / 256 mod 256; u mod 256]%N.
Definition u32_to_le_bytes (u : N) : list N :=
  [u mod 256; u / 256 mod 256; u / 65536 mod 256; u / 16777216]%N.

(** *** [String::from_utf8_lossy]

    A byte that cannot start or continue a character ends the sequence before it;
    every maximal invalid sequence becomes one replacement character. *)
Definition replacement : N := 65533.
Definition is_continuation (b : N) : bool := (128 <=? b)%N && (b <? 192)%N.
Definition between (lo hi b : N) : bool := (lo <=? b)%N && (b <=? hi)%N.

(** The second byte of a sequence of three and of four bytes. *)
Definition second_of_3 (b b1 : N) : bool :=
  if (b =? 224)%N then between 160 191 b1
  else if (b =? 237)%N then between 128 159 b1
  else between 128 191 b1.
Definition second_of_4 (b b1 : N) : bool :=
  if (b =? 240)%N then between 144 191 b1
  else if (b =? 244)%N then between 128 143 b1
  else between 128 191 b1.

(** The character that starts with the byte [b], and the bytes after it. *)
Definition utf8_next (b : N) (s : list N) : N * list N :=
  if (b <? 128)%N then (b, s)
  else if between 194 223 b then
    match s with
    | b1 :: s1 => if is_continuation b1 then ((b - 192) * 64 + (b1 - 128), s1)%N else (replacement, s)
    | [] => (replacement, s)
    end
  else if between 224 239 b then
    match s with
    | b1 :: s1 =>
        if second_of_3 b b1 then
          match s1 with
          | b2 :: s2 =>
              if is_continuation b2
              then ((b - 224) * 4096 + (b1 - 128) * 64 + (b2 - 128), s2)%N else (replacement, s1)
          | [] => (replacement, s1)
          end
        else (replacement, s)
    | [] => (replacement, s)
    end
  else if between 240 244 b then
    match s with
    | b1 :: s1 =>
        if second_of_4 b b1 then
          match s1 with
          | b2 :: s2 =>
              if is_continuation b2 then
                match s2 with
                | b3 :: s3 =>
                    if is_continuation b3
                    then ((b - 240) * 262144 + (b1 - 128) * 4096 + (b2 - 128) * 64 + (b3 - 128), s3)%N
                    else (replacement, s2)
                | [] => (replacement, s2)
                end
              else (replacement, s1)
          | [] => (replacement, s1)
          end
        else (replacement, s)
    | [] => (replacement, s)
    end
  else (replacement, s).

Fixpoint lossy_loop (fuel : nat) (s : list N) : list N :=
  match fuel, s with
  | S f, b :: s' => let '(c, rest) := utf8_next b s' in c :: lossy_loop f rest
  | _, _ => []
  end.
Definition from_utf8_lossy (s : list N) : list N := lossy_loop (length s) s.

(** ** Decoding what was encoded *)

Lemma utf8_next_char c rest :
  is_scalar c = true →
  ∃ b bs, utf8_char c = b :: bs ∧ utf8_next b (bs ++ rest) = (c, rest).
Proof.
  unfold is_scalar, utf8_char, utf8_next. intros Hc.
  assert ((c < 55296 ∨ 57344 <= c) ∧ c < 1114112)%N as Hmax.
  { destruct (N.ltb_spec c 55296), (N.leb_spec 57344 c), (N.ltb_spec c 1114112); simpl in Hc;
      done || lia. }
  destruct (N.ltb_spec c 128).
  { exists c, []. split; [done|]. simpl. by rewrite (proj2 (N.ltb_lt _ _)). }
  destruct (N.ltb_spec c 2048); [|destruct (N.ltb_spec c 65536)].
  - eexists _, _. split; [done|]. cbn [app]. unfold between, is_continuation.
    rewrite (proj2 (N.ltb_ge _ _)) by lia. rewrite !(proj2 (N.leb_le _ _)) by lia.
    rewrite (proj2 (N.ltb_lt _ _)) by lia. simpl. f_equal. lia.
  - eexists _, _. split; [done|]. cbn [app]. unfold between, is_continuation, second_of_3, between.
    rewrite (proj2 (N.ltb_ge _ 128)) by lia.
    rewrite (proj2 (N.leb_gt _ 223)) by lia. rewrite andb_false_r.
    rewrite (proj2 (N.leb_le 224 _)), (proj2 (N.leb_le _ 239)) by lia. cbn [andb].
    replace (if (224 + c / 4096 =? 224)%N then _ else _) with true.
    2: { symmetry. destruct (N.eqb_spec (224 + c / 4096) 224), (N.eqb_spec (224 + c / 4096) 237);
           rewrite andb_true_iff, !N.leb_le; lia. }
    rewrite (proj2 (N.leb_le 128 _)), (proj2 (N.ltb_lt _ 192)) by lia. cbn [andb]. f_equal. lia.
  - eexists _, _. split; [done|]. cbn [app]. unfold between, is_continuation, second_of_4, between.
    rewrite (proj2 (N.ltb_ge _ 128)) by lia.
    rewrite (proj2 (N.leb_gt _ 223)) by lia. rewrite andb_false_r.
    rewrite (proj2 (N.leb_gt _ 239)) by lia. rewrite andb_false_r.
    rewrite (proj2 (N.leb_le 240 _)), (proj2 (N.leb_le _ 244)) by lia. cbn [andb].
    replace (if (240 + c / 262144 =? 240)%N then _ else _) with true.
    2: { symmetry. destruct (N.eqb_spec (240 + c / 262144) 240), (N.eqb_spec (240 + c / 262144) 244);
           rewrite andb_true_iff, !N.leb_le; lia. }
    rewrite !(proj2 (N.leb_le 128 _)), !(proj2 (N.ltb_lt _ 192)) by lia. cbn [andb]. f_equal. lia.
Qed.

Lemma lossy_loop_utf8 f s :
  Forall (λ c, is_scalar c = true) s → length (utf8 s) ≤ f → lossy_loop f (utf8 s) = s.
Proof.
  revert f. induction s as [|c s IH]; intros f Hs Hf; [by destruct f|].
  apply Forall_cons in Hs as [Hc Hs]. unfold utf8 in *. cbn [mbind list_bind] in *.
  fold (utf8 s) in *. destruct (utf8_next_char c (utf8 s) Hc) as (b & bs & E & Hn).
  rewrite E in *. simpl in *. destruct f as [|f]; [lia|]. simpl. rewrite Hn. f_equal.
  apply IH; [done|]. rewrite length_app in Hf. lia.
Qed.

(** The bytes of a string decode to the string. *)
Lemma from_utf8_lossy_utf8 s :
  Forall (λ c, is_scalar c = true) s → from_utf8_lossy (utf8 s) = s.
Proof. intros Hs. by apply lossy_loop_utf8. Qed.

Lemma utf8_app s t : utf8 (s ++ t) = utf8 s ++ utf8 t.
Proof. unfold utf8. apply bind_app. Qed.

Lemma utf8_inj s t :
  Forall (λ c, is_scalar c = true) s → Forall (λ c, is_scalar c = true) t →
  utf8 s = utf8 t → s = t.
Proof.
  intros Hs Ht E. by rewrite <-(from_utf8_lossy_utf8 s Hs), E, from_utf8_lossy_utf8.
Qed.

Lemma utf8_ascii s : Forall (λ c, (c < 128)%N) s → utf8 s = s.
Proof.
  intros Hs. induction Hs as [|c s Hc Hs IH]; [done|].
  unfold utf8 in *. cbn [mbind list_bind]. rewrite IH. unfold utf8_char.
  by rewrite (proj2 (N.ltb_lt _ _)).
Qed.

(** The zero byte encodes only the NUL character. *)
Lemma utf8_zero s : 0%N ∈ utf8 s → 0%N ∈ s.
Proof.
  unfold utf8. intros (c & Hz & Hc)%list_elem_of_bind. replace 0%N with c; [done|].
  revert Hz. unfold utf8_char. repeat case_match; rewrite !elem_of_cons, elem_of_nil; lia.
Qed.
