(* ===== verification/Subdir.v ===== *)
(** * Subdirs and architectures

    [rattler_conda_types/src/subdir.rs]: the subdirs of a channel with their names,
    families and architectures, and the parsers of both.  [Subdir::current], which
    asks for the target of the build, is left out. *)
From S2P Require Import Prelude Utf.

(** ** Definitions *)
Inductive Subdir : Type :=
| NoArch
| Linux32
| Linux64
| LinuxAarch64
| LinuxArmV6l
| LinuxArmV7l
| LinuxLoongArch64
| LinuxPpc64le
| LinuxPpc64
| LinuxPpc
| LinuxS390X
| LinuxRiscv32
| LinuxRiscv64
| FreeBsd32
| FreeBsd64
| FreeBsdArm64
| FreeBsdPpc64le
| FreeBsdPpc64
| Osx64
| OsxArm64
| IosArm64
| IosSimulatorArm64
| IosSimulator64
| AndroidAarch64
| AndroidArmV7a
| Android64
| Android32
| Win32
| Win64
| WinArm64
| EmscriptenWasm32
| EmscriptenWasm64
| WasiWasm32
| ZosZ.
#[export] Instance subdir_eq_dec : EqDecision Subdir.
Proof. solve_decision. Defined.

Inductive Arch : Type :=
| ArchX86
| ArchX86_64
| ArchAarch64
| ArchArm64
| ArchArmV6l
| ArchArmV7l
| ArchArmV7a
| ArchLoongArch64
| ArchPpc64le
| ArchPpc64
| ArchPpc
| ArchS390X
| ArchRiscv32
| ArchRiscv64
| ArchWasm32
| ArchWasm64
| ArchZ.
#[export] Instance arch_eq_dec : EqDecision Arch.
Proof. solve_decision. Defined.

(** [Subdir::iter], in the order of declaration. *)
Definition subdir_all : list Subdir :=
  [NoArch; Linux32; Linux64; LinuxAarch64; LinuxArmV6l;
   LinuxArmV7l; LinuxLoongArch64; LinuxPpc64le; LinuxPpc64; LinuxPpc;
   LinuxS390X; LinuxRiscv32; LinuxRiscv64; FreeBsd32; FreeBsd64;
   FreeBsdArm64; FreeBsdPpc64le; FreeBsdPpc64; Osx64; OsxArm64;
   IosArm64; IosSimulatorArm64; IosSimulator64; AndroidAarch64; AndroidArmV7a;
   Android64; Android32; Win32; Win64; WinArm64;
   EmscriptenWasm32; EmscriptenWasm64; WasiWasm32; ZosZ].

Definition subdir_as_str (s : Subdir) : list N :=
  match s with
  | NoArch => txt "noarch"
  | Linux32 => txt "linux-32"
  | Linux64 => txt "linux-64"
  | LinuxAarch64 => txt "linux-aarch64"
  | LinuxArmV6l => txt "linux-armv6l"
  | LinuxArmV7l => txt "linux-armv7l"
  | LinuxLoongArch64 => txt "linux-loongarch64"
  | LinuxPpc64le => txt "linux-ppc64le"
  | LinuxPpc64 => txt "linux-ppc64"
  | LinuxPpc => txt "linux-ppc"
  | LinuxS390X => txt "linux-s390x"
  | LinuxRiscv32 => txt "linux-riscv32"
  | LinuxRiscv64 => txt "linux-riscv64"
  | FreeBsd32 => txt "freebsd-32"
  | FreeBsd64 => txt "freebsd-64"
  | FreeBsdArm64 => txt "freebsd-arm64"
  | FreeBsdPpc64le => txt "freebsd-ppc64le"
  | FreeBsdPpc64 => txt "freebsd-ppc64"
  | Osx64 => txt "osx-64"
  | OsxArm64 => txt "osx-arm64"
  | IosArm64 => txt "ios-arm64"
  | IosSimulatorArm64 => txt "iossimulator-arm64"
  | IosSimulator64 => txt "iossimulator-64"
  | AndroidAarch64 => txt "android-aarch64"
  | AndroidArmV7a => txt "android-armv7a"
  | Android64 => txt "android-64"
  | Android32 => txt "android-32"
  | Win32 => txt "win-32"
  | Win64 => txt "win-64"
  | WinArm64 => txt "win-arm64"
  | EmscriptenWasm32 => txt "emscripten-wasm32"
  | EmscriptenWasm64 => txt "emscripten-wasm64"
  | WasiWasm32 => txt "wasi-wasm32"
  | ZosZ => txt "zos-z"
  end.

Definition is_windows (s : Subdir) : bool :=
  match s with
  | Win32 | Win64 | WinArm64 => true
  | _ => false
  end.

Definition is_linux (s : Subdir) : bool :=
  match s with
  | Linux32 | Linux64 | LinuxAarch64 | LinuxArmV6l
  | LinuxArmV7l | LinuxLoongArch64 | LinuxPpc64le | LinuxPpc64
  | LinuxPpc | LinuxS390X | LinuxRiscv32 | LinuxRiscv64 => true
  | _ => false
  end.

Definition is_osx (s : Subdir) : bool :=
  match s with
  | Osx64 | OsxArm64 => true
  | _ => false
  end.

Definition is_ios (s : Subdir) : bool :=
  match s with
  | IosArm64 | IosSimulatorArm64 | IosSimulator64 => true
  | _ => false
  end.

Definition is_android (s : Subdir) : bool :=
  match s with
  | AndroidAarch64 | AndroidArmV7a | Android64 | Android32 => true
  | _ => false
  end.

Definition is_unix (s : Subdir) : bool :=
  is_linux s || is_osx s || is_ios s || is_android s ||
  match s with
  | EmscriptenWasm32 | EmscriptenWasm64 | FreeBsd32 | FreeBsd64
  | FreeBsdArm64 | FreeBsdPpc64le | FreeBsdPpc64 => true
  | _ => false
  end.

Definition only_platform (s : Subdir) : option (list N) :=
  match s with
  | NoArch => None
  | Linux32 | Linux64 | LinuxAarch64 | LinuxArmV6l | LinuxArmV7l
  | LinuxLoongArch64 | LinuxPpc64le | LinuxPpc64 | LinuxPpc | LinuxS390X
  | LinuxRiscv32 | LinuxRiscv64 => Some (txt "linux")
  | FreeBsd32 | FreeBsd64 | FreeBsdArm64 | FreeBsdPpc64le | FreeBsdPpc64 => Some (txt "freebsd")
  | Osx64 | OsxArm64 => Some (txt "osx")
  | IosArm64 => Some (txt "ios")
  | IosSimulatorArm64 | IosSimulator64 => Some (txt "iossimulator")
  | AndroidAarch64 | AndroidArmV7a | Android64 | Android32 => Some (txt "android")
  | Win32 | Win64 | WinArm64 => Some (txt "win")
  | EmscriptenWasm32 | EmscriptenWasm64 => Some (txt "emscripten")
  | WasiWasm32 => Some (txt "wasi")
  | ZosZ => Some (txt "zos")
  end.

Definition subdir_arch (s : Subdir) : option Arch :=
  match s with
  | NoArch => None
  | LinuxArmV6l => Some ArchArmV6l
  | LinuxArmV7l => Some ArchArmV7l
  | LinuxLoongArch64 => Some ArchLoongArch64
  | LinuxPpc64le | FreeBsdPpc64le => Some ArchPpc64le
  | LinuxPpc64 | FreeBsdPpc64 => Some ArchPpc64
  | LinuxPpc => Some ArchPpc
  | LinuxS390X => Some ArchS390X
  | LinuxRiscv32 => Some ArchRiscv32
  | LinuxRiscv64 => Some ArchRiscv64
  | Linux32 | Win32 | FreeBsd32 | Android32 => Some ArchX86
  | Linux64 | Win64 | Osx64 | FreeBsd64 | IosSimulator64
  | Android64 => Some ArchX86_64
  | LinuxAarch64 | AndroidAarch64 => Some ArchAarch64
  | WinArm64 | OsxArm64 | FreeBsdArm64 | IosArm64 | IosSimulatorArm64 => Some ArchArm64
  | AndroidArmV7a => Some ArchArmV7a
  | EmscriptenWasm32 | WasiWasm32 => Some ArchWasm32
  | EmscriptenWasm64 => Some ArchWasm64
  | ZosZ => Some ArchZ
  end.

(** [Ord]: the names in bytewise order. *)
Definition subdir_cmp (a b : Subdir) : comparison := str_cmp (subdir_as_str a) (subdir_as_str b).

Definition MAX_SUBDIR_LEN : nat := 32.

(** [str::split_once] at a character *)
Fixpoint split_once (d : N) (s : list N) : option (list N * list N) :=
  match s with
  | [] => None
  | c :: s' => if (c =? d)%N then Some ([], s')
               else '(a, b) ← split_once d s'; Some (c :: a, b)
  end.

(** The closure tests bytes: a character outside ASCII has none that passes. *)
Definition is_lowercase_alphanumeric (part : list N) : bool :=
  bool_decide (part ≠ []) && forallb (λ b, is_ascii_lowercase b || is_ascii_digit b) part.

(** The length is in bytes. *)
Definition is_valid_subdir_name (s : list N) : bool :=
  if bool_decide (MAX_SUBDIR_LEN < str_len s) then false
  else if bool_decide (s = txt "noarch") then true
  else match split_once c_dash s with
       | Some (os, arch) => is_lowercase_alphanumeric os && is_lowercase_alphanumeric arch
       | None => false
       end.

Inductive ParseSubdirError : Type :=
| InvalidName (s : list N)
| UnknownSubdir (name : list N).

Definition subdir_from_str (s : list N) : result ParseSubdirError Subdir :=
  if bool_decide (s = txt "noarch") then Ok NoArch else
  if bool_decide (s = txt "linux-32") then Ok Linux32 else
  if bool_decide (s = txt "linux-64") then Ok Linux64 else
  if bool_decide (s = txt "linux-aarch64") then Ok LinuxAarch64 else
  if bool_decide (s = txt "linux-armv6l") then Ok LinuxArmV6l else
  if bool_decide (s = txt "linux-armv7l") then Ok LinuxArmV7l else
  if bool_decide (s = txt "linux-loongarch64") then Ok LinuxLoongArch64 else
  if bool_decide (s = txt "linux-ppc64le") then Ok LinuxPpc64le else
  if bool_decide (s = txt "linux-ppc64") then Ok LinuxPpc64 else
  if bool_decide (s = txt "linux-ppc") then Ok LinuxPpc else
  if bool_decide (s = txt "linux-s390x") then Ok LinuxS390X else
  if bool_decide (s = txt "linux-riscv32") then Ok LinuxRiscv32 else
  if bool_decide (s = txt "linux-riscv64") then Ok LinuxRiscv64 else
  if bool_decide (s = txt "freebsd-32") then Ok FreeBsd32 else
  if bool_decide (s = txt "freebsd-64") then Ok FreeBsd64 else
  if bool_decide (s = txt "freebsd-arm64") then Ok FreeBsdArm64 else
  if bool_decide (s = txt "freebsd-ppc64le") then Ok FreeBsdPpc64le else
  if bool_decide (s = txt "freebsd-ppc64") then Ok FreeBsdPpc64 else
  if bool_decide (s = txt "osx-64") then Ok Osx64 else
  if bool_decide (s = txt "osx-arm64") then Ok OsxArm64 else
  if bool_decide (s = txt "ios-arm64") then Ok IosArm64 else
  if bool_decide (s = txt "iossimulator-arm64") then Ok IosSimulatorArm64 else
  if bool_decide (s = txt "iossimulator-64") then Ok IosSimulator64 else
  if bool_decide (s = txt "android-aarch64") then Ok AndroidAarch64 else
  if bool_decide (s = txt "android-armv7a") then Ok AndroidArmV7a else
  if bool_decide (s = txt "android-64") then Ok Android64 else
  if bool_decide (s = txt "android-32") then Ok Android32 else
  if bool_decide (s = txt "win-32") then Ok Win32 else
  if bool_decide (s = txt "win-64") then Ok Win64 else
  if bool_decide (s = txt "win-arm64") then Ok WinArm64 else
  if bool_decide (s = txt "emscripten-wasm32") then Ok EmscriptenWasm32 else
  if bool_decide (s = txt "emscripten-wasm64") then Ok EmscriptenWasm64 else
  if bool_decide (s = txt "wasi-wasm32") then Ok WasiWasm32 else
  if bool_decide (s = txt "zos-z") then Ok ZosZ else
  if is_valid_subdir_name s then Err (UnknownSubdir s) else Err (InvalidName s).

Definition arch_as_str (a : Arch) : list N :=
  match a with
  | ArchX86 => txt "x86"
  | ArchX86_64 => txt "x86_64"
  | ArchArm64 => txt "arm64"
  | ArchAarch64 => txt "aarch64"
  | ArchArmV6l => txt "armv6l"
  | ArchArmV7l => txt "armv7l"
  | ArchArmV7a => txt "armv7a"
  | ArchLoongArch64 => txt "loongarch64"
  | ArchPpc64le => txt "ppc64le"
  | ArchPpc64 => txt "ppc64"
  | ArchPpc => txt "ppc"
  | ArchS390X => txt "s390x"
  | ArchRiscv32 => txt "riscv32"
  | ArchRiscv64 => txt "riscv64"
  | ArchWasm32 => txt "wasm32"
  | ArchWasm64 => txt "wasm64"
  | ArchZ => txt "z"
  end.

(** The error holds the text. *)
Definition arch_from_str (s : list N) : result (list N) Arch :=
  if bool_decide (s = txt "x86") then Ok ArchX86 else
  if bool_decide (s = txt "x86_64") then Ok ArchX86_64 else
  if bool_decide (s = txt "aarch64") then Ok ArchAarch64 else
  if bool_decide (s = txt "arm64") then Ok ArchArm64 else
  if bool_decide (s = txt "armv6l") then Ok ArchArmV6l else
  if bool_decide (s = txt "armv7l") then Ok ArchArmV7l else
  if bool_decide (s = txt "armv7a") then Ok ArchArmV7a else
  if bool_decide (s = txt "loongarch64") then Ok ArchLoongArch64 else
  if bool_decide (s = txt "ppc64le") then Ok ArchPpc64le else
  if bool_decide (s = txt "ppc64") then Ok ArchPpc64 else
  if bool_decide (s = txt "ppc") then Ok ArchPpc else
  if bool_decide (s = txt "s390x") then Ok ArchS390X else
  if bool_decide (s = txt "riscv32") then Ok ArchRiscv32 else
  if bool_decide (s = txt "riscv64") then Ok ArchRiscv64 else
  if bool_decide (s = txt "wasm32") then Ok ArchWasm32 else
  if bool_decide (s = txt "wasm64") then Ok ArchWasm64 else
  if bool_decide (s = txt "z") then Ok ArchZ else
  Err s.
(** ** Names *)

Lemma subdir_from_str_as_str s : subdir_from_str (subdir_as_str s) = Ok s.
Proof. by destruct s. Qed.

Lemma arch_from_str_as_str a : arch_from_str (arch_as_str a) = Ok a.
Proof. by destruct a. Qed.

(** The chains of comparisons find a value with the name, or nothing. *)
Lemma subdir_from_str_cases s :
  (∃ d, s = subdir_as_str d) ∨
  (∀ d, s ≠ subdir_as_str d) ∧
  subdir_from_str s = (if is_valid_subdir_name s then Err (UnknownSubdir s) else Err (InvalidName s)).
Proof.
  destruct (decide (Exists (λ d, s = subdir_as_str d) subdir_all)) as [H|Hn].
  { left. apply Exists_exists in H as (d & _ & ->). by exists d. }
  right. assert (∀ d, s ≠ subdir_as_str d) as Hne.
  { intros d ->. apply Hn, Exists_exists. exists d. split; [|done].
    apply (bool_decide_unpack _). by destruct d. }
  split; [done|]. unfold subdir_from_str.
  repeat match goal with
  | |- (if bool_decide (s = ?t) then Ok ?d else _) = _ =>
      rewrite (bool_decide_eq_false_2 (s = t)) by exact (Hne d)
  end. done.
Qed.

(** [str::split_once] at the first occurrence. *)
Lemma split_once_Some d s a b :
  split_once d s = Some (a, b) ↔ s = a ++ d :: b ∧ d ∉ a.
Proof.
  revert a. induction s as [|c s IH]; intros a; simpl.
  { split; [done|]. intros [H _]. by destruct a. }
  destruct (N.eqb_spec c d) as [->|Hne].
  - split.
    + intros [= <- <-]. split; [done|apply not_elem_of_nil].
    + intros [H Hd]. destruct a as [|x a]; simplify_eq/=; [done|set_solver].
  - split.
    + destruct (split_once d s) as [[x y]|] eqn:E; [|done]. simpl. intros [= <- <-].
      destruct (proj1 (IH x) eq_refl) as [-> Hd]. split; [done|set_solver].
    + intros [H Hd]. destruct a as [|x a]; simplify_eq/=.
      rewrite (proj2 (IH a)); [done|]. split; [done|set_solver].
Qed.

Lemma is_lowercase_alphanumeric_spec part :
  is_lowercase_alphanumeric part = true ↔
  part ≠ [] ∧ ∀ c, c ∈ part → is_ascii_lowercase c = true ∨ is_ascii_digit c = true.
Proof.
  unfold is_lowercase_alphanumeric. rewrite andb_true_iff, bool_decide_eq_true, forallb_forall.
  apply and_iff_compat_l. split; intros H c Hc.
  - apply orb_true_iff, H. by apply list_elem_of_In.
  - apply orb_true_iff, H. by apply list_elem_of_In.
Qed.

(** The syntax of CEP 26. *)
Definition cep26 (s : list N) : Prop :=
  length s ≤ 32 ∧
  (s = txt "noarch" ∨
   ∃ os arch, s = os ++ c_dash :: arch ∧ os ≠ [] ∧ arch ≠ [] ∧
     ∀ c, c ∈ os ++ arch → is_ascii_lowercase c = true ∨ is_ascii_digit c = true).

Lemma lower_or_digit_ascii c :
  is_ascii_lowercase c = true ∨ is_ascii_digit c = true → (c < 128 ∧ c ≠ c_dash)%N.
Proof. unfold is_ascii_lowercase, is_ascii_digit. intros [H|H]; bool_hyps; lia. Qed.

(** A name of the right shape is ASCII, so its bytes are its characters. *)
Lemma is_valid_subdir_name_spec s : is_valid_subdir_name s = true ↔ cep26 s.
Proof.
  assert (∀ os arch, (∀ c, c ∈ os ++ arch → is_ascii_lowercase c = true ∨ is_ascii_digit c = true) →
    str_len (os ++ c_dash :: arch) = length (os ++ c_dash :: arch)) as Hlen.
  { intros os arch Hc. unfold str_len. rewrite utf8_ascii; [done|].
    apply Forall_forall. intros c. rewrite elem_of_app, elem_of_cons. intros H.
    destruct (decide (c = c_dash)) as [->|]; [done|].
    apply (lower_or_digit_ascii c), Hc, elem_of_app. naive_solver. }
  unfold is_valid_subdir_name, cep26, MAX_SUBDIR_LEN. split.
  - destruct (bool_decide (32 < str_len s)) eqn:E; [done|]. apply bool_decide_eq_false in E.
    case_bool_decide as Hno; [subst; split; [vm_compute; lia|by left]|].
    destruct (split_once c_dash s) as [[os arch]|] eqn:Es; [|done].
    apply split_once_Some in Es as [-> Hd]. rewrite andb_true_iff, !is_lowercase_alphanumeric_spec.
    intros [[Ho Hco] [Ha Hca]].
    assert (∀ c, c ∈ os ++ arch → is_ascii_lowercase c = true ∨ is_ascii_digit c = true) as Hc.
    { intros c [?|?]%elem_of_app; auto. }
    rewrite (Hlen os arch Hc) in E. split; [lia|]. right. by exists os, arch.
  - intros [Hl [->|(os & arch & -> & Ho & Ha & Hc)]]; [done|].
    rewrite (Hlen os arch Hc). rewrite bool_decide_eq_false_2 by lia.
    case_bool_decide; [done|].
    rewrite (proj2 (split_once_Some _ _ os arch)).
    + rewrite andb_true_iff, !is_lowercase_alphanumeric_spec. split; (split; [done|]); intros c ?;
        apply Hc, elem_of_app; auto.
    + split; [done|]. intros Hin. by apply (lower_or_digit_ascii c_dash); [apply Hc, elem_of_app; left|].
Qed.

(** [Subdir::from_str] accepts exactly the names [as_str] gives, and returns the
    subdir of the name; among the other texts it tells those with the syntax of
    CEP 26 from those without.  Every known name has that syntax. *)
Theorem subdir_from_str_spec (s : list N) :
  (∀ d, subdir_from_str s = Ok d ↔ s = subdir_as_str d)
  ∧ (∀ n, subdir_from_str s = Err (UnknownSubdir n) ↔ n = s ∧ cep26 s ∧ ∀ d, s ≠ subdir_as_str d)
  ∧ (∀ n, subdir_from_str s = Err (InvalidName n) ↔ n = s ∧ ¬ cep26 s)
  ∧ ∀ d, cep26 (subdir_as_str d).
Proof.
  assert (∀ d, cep26 (subdir_as_str d)) as Hknown.
  { intros d. apply is_valid_subdir_name_spec. by destruct d. }
  split; [|split; [|split]]; [..|done].
  all: destruct (subdir_from_str_cases s) as [[d' ->]|[Hne ->]]; intros x.
  - rewrite subdir_from_str_as_str. split; [by intros [= ->]|]. intros E.
    pose proof (subdir_from_str_as_str d') as E'. rewrite E, subdir_from_str_as_str in E'. done.
  - destruct (is_valid_subdir_name s); (split; [done|]; intros ->; by destruct (Hne x)).
  - rewrite subdir_from_str_as_str. split; [done|]. intros (_ & _ & H). by destruct (H d').
  - destruct (is_valid_subdir_name s) eqn:E.
    + apply is_valid_subdir_name_spec in E. naive_solver.
    + split; [done|]. intros (_ & H%is_valid_subdir_name_spec & _). congruence.
  - rewrite subdir_from_str_as_str. split; [done|]. intros [_ H]. by destruct H.
  - destruct (is_valid_subdir_name s) eqn:E.
    + split; [done|]. apply is_valid_subdir_name_spec in E. naive_solver.
    + rewrite <-is_valid_subdir_name_spec, E. naive_solver.
Qed.

(** ** Families *)

(** The predicates are the operating systems of the names, and exclude each other. *)
Lemma families_of_names s :
  (is_linux s = true ↔ only_platform s = Some (txt "linux"))
  ∧ (is_osx s = true ↔ only_platform s = Some (txt "osx"))
  ∧ (is_windows s = true ↔ only_platform s = Some (txt "win"))
  ∧ (is_android s = true ↔ only_platform s = Some (txt "android"))
  ∧ (is_ios s = true ↔ only_platform s = Some (txt "ios") ∨ only_platform s = Some (txt "iossimulator"))
  ∧ (is_unix s = true → is_windows s = false).
Proof. destruct s; vm_compute; naive_solver. Qed.

(** The name is the operating system, a dash and the architecture; 32 and 64 stand
    for the x86 architectures. *)
Lemma subdir_name_parts s :
  match only_platform s, subdir_arch s with
  | Some os, Some a =>
      subdir_as_str s = os ++ c_dash :: (match a with
                                         | ArchX86 => txt "32"
                                         | ArchX86_64 => txt "64"
                                         | _ => arch_as_str a
                                         end)
  | None, None => s = NoArch
  | _, _ => False
  end.
Proof. by destruct s. Qed.
