(* ===== verification/Offsets.v ===== *)
(** * Recorded placeholder offsets

    [rattler_conda_types/src/package/paths.rs]: the encodings a prefix placeholder
    can be stored in, and the offsets a package records for its occurrences, with
    the validation that does not need the file. *)
From S2P Require Import Prelude Utf.

Local Ltac Zify.zify_post_hook ::= Z.to_euclidean_division_equations.

(** ** Encodings *)
Inductive OffsetEncoding : Type := Utf8 | Utf16Le | Utf16Be | Utf32Le | Utf32Be.
#[export] Instance offset_encoding_eq_dec : EqDecision OffsetEncoding.
Proof. solve_decision. Defined.

Definition DEFINED : list OffsetEncoding := [Utf8; Utf16Le; Utf16Be; Utf32Le; Utf32Be].

Definition encoding_as_str (e : OffsetEncoding) : list N :=
  match e with
  | Utf8 => txt "utf-8"
  | Utf16Le => txt "utf-16-le"
  | Utf16Be => txt "utf-16-be"
  | Utf32Le => txt "utf-32-le"
  | Utf32Be => txt "utf-32-be"
  end.

Definition code_unit_size (e : OffsetEncoding) : nat :=
  match e with
  | Utf8 => 1
  | Utf16Le | Utf16Be => 2
  | Utf32Le | Utf32Be => 4
  end.

Definition encode (e : OffsetEncoding) (text : list N) : list N :=
  match e with
  | Utf8 => utf8 text
  | Utf16Le => (text ≫= utf16_char) ≫= u16_to_le_bytes
  | Utf16Be => (text ≫= utf16_char) ≫= u16_to_be_bytes
  | Utf32Le => text ≫= u32_to_le_bytes
  | Utf32Be => text ≫= u32_to_be_bytes
  end.

(** ** Offsets *)
Inductive FileMode : Type := Binary | Text.
#[export] Instance file_mode_eq_dec : EqDecision FileMode.
Proof. solve_decision. Defined.

Inductive OffsetRanges : Type :=
| TextRanges (offsets : list nat)
| BinaryRanges (cstrings : list (list nat)).

Inductive InvalidOffsetsError : Type :=
| EmptyList
| UnrecognizedEncoding (name : list N)
| UnrecognizedMembers (encoding : OffsetEncoding) (members : list (list N))
| DuplicateEncoding (encoding : OffsetEncoding)
| EmptyRanges (encoding : OffsetEncoding)
| RangesShapeMismatch (encoding : OffsetEncoding)
| ShortCStringRanges (encoding : OffsetEncoding)
| ShebangLengthOnBinary
| MalformedShebangLength.

Definition encoding_from_str (name : list N) : result InvalidOffsetsError OffsetEncoding :=
  match find (λ e, bool_decide (encoding_as_str e = name)) DEFINED with
  | Some e => Ok e
  | None => Err (UnrecognizedEncoding name)
  end.

Record OffsetGroup := mkOffsetGroup {
  group_encoding : OffsetEncoding;
  group_ranges : OffsetRanges
}.

Definition ranges_is_empty (r : OffsetRanges) : bool :=
  match r with
  | TextRanges offsets => bool_decide (offsets = [])
  | BinaryRanges groups => bool_decide (groups = [])
  end.

Definition offset_group_new (encoding : OffsetEncoding) (ranges : OffsetRanges)
  : result InvalidOffsetsError OffsetGroup :=
  if ranges_is_empty ranges then Err (EmptyRanges encoding)
  else
    match ranges with
    | BinaryRanges cstrings =>
        if existsb (λ cstring : list nat, (length cstring <? 2)%nat) cstrings
        then Err (ShortCStringRanges encoding)
        else Ok (mkOffsetGroup encoding ranges)
    | TextRanges _ => Ok (mkOffsetGroup encoding ranges)
    end.

(** [other_members] are the keys of the members besides [encoding] and [ranges]. *)
Record RawOffsetGroup := mkRawOffsetGroup {
  raw_encoding : list N;
  raw_ranges : OffsetRanges;
  other_members : list (list N)
}.

Definition into_offset_group (g : RawOffsetGroup) : result InvalidOffsetsError OffsetGroup :=
  match encoding_from_str (raw_encoding g) with
  | Err e => Err e
  | Ok encoding =>
      if bool_decide (other_members g ≠ [])
      then Err (UnrecognizedMembers encoding (other_members g))
      else offset_group_new encoding (raw_ranges g)
  end.

Record PrefixOffsets := mkPrefixOffsets {
  offsets_file_mode : FileMode;
  offsets_groups : list OffsetGroup;
  offsets_shebang_length : option nat
}.

Definition shape_matches (file_mode : FileMode) (r : OffsetRanges) : bool :=
  match file_mode, r with
  | Text, TextRanges _ | Binary, BinaryRanges _ => true
  | Text, BinaryRanges _ | Binary, TextRanges _ => false
  end.

(** The loop over the groups; [earlier] are the groups before. *)
Fixpoint check_groups (file_mode : FileMode) (earlier groups : list OffsetGroup)
  : result InvalidOffsetsError unit :=
  match groups with
  | [] => Ok tt
  | group :: rest =>
      if existsb (λ e, bool_decide (group_encoding e = group_encoding group)) earlier
      then Err (DuplicateEncoding (group_encoding group))
      else if negb (shape_matches file_mode (group_ranges group))
      then Err (RangesShapeMismatch (group_encoding group))
      else check_groups file_mode (earlier ++ [group]) rest
  end.

Definition prefix_offsets_new (file_mode : FileMode) (groups : list OffsetGroup)
    (shebang_length : option nat) : result InvalidOffsetsError PrefixOffsets :=
  let has_shebang_length := bool_decide (is_Some shebang_length) in
  if has_shebang_length && bool_decide (file_mode = Binary) then Err ShebangLengthOnBinary
  else if bool_decide (groups = []) && negb has_shebang_length then Err EmptyList
  else match check_groups file_mode [] groups with
       | Err e => Err e
       | Ok _ => Ok (mkPrefixOffsets file_mode groups shebang_length)
       end.

(** ** Names of encodings *)

Lemma encoding_from_str_as_str e : encoding_from_str (encoding_as_str e) = Ok e.
Proof. by destruct e. Qed.

(** ** What is recorded is well formed *)

Definition group_ok (file_mode : FileMode) (g : OffsetGroup) : Prop :=
  shape_matches file_mode (group_ranges g) = true.

Lemma check_groups_spec file_mode earlier groups :
  check_groups file_mode earlier groups = Ok tt ↔
  Forall (group_ok file_mode) groups ∧ NoDup (group_encoding <$> groups)
  ∧ ∀ g e, g ∈ groups → e ∈ earlier → group_encoding e ≠ group_encoding g.
Proof.
  revert earlier. induction groups as [|g groups IH]; intros earlier; simpl.
  { split; [|done]. intros _. split; [done|]. split; [constructor|]. set_solver. }
  rewrite Forall_cons. destruct (existsb _ earlier) eqn:E.
  { split; [done|]. intros (_ & _ & H). apply existsb_exists in E as (e & He & Heq).
    apply bool_decide_eq_true in Heq. apply list_elem_of_In in He.
    by destruct (H g e (list_elem_of_here _ _) He). }
  assert (∀ e, e ∈ earlier → group_encoding e ≠ group_encoding g) as Hg.
  { intros e He Heq. assert (existsb (λ e, bool_decide (group_encoding e = group_encoding g)) earlier = true)
      as Ht by (apply existsb_exists; exists e; split; [by apply list_elem_of_In|by apply bool_decide_eq_true]).
    congruence. }
  unfold group_ok at 1. destruct (shape_matches _ _); simpl; [|naive_solver].
  rewrite IH, NoDup_cons, list_elem_of_fmap. setoid_rewrite elem_of_app. setoid_rewrite elem_of_cons.
  split.
  - intros (Hf & Hn & He). split; [done|]. split; [split; [|done]|].
    + intros (y & Hy & Hin). by apply (He y g Hin); [right; left|].
    + intros g' e [->|Hin]; auto.
  - intros ([_ Hf] & [Hnin Hn] & He). split; [done|]. split; [done|].
    intros g' e Hin [Hearly|[->|Hnil]].
    + by apply He; [right|].
    + intros Heq. apply Hnin. by exists g'.
    + by apply elem_of_nil in Hnil.
Qed.

(** The constructor, for the proofs below. *)
Lemma prefix_offsets_new_iff (file_mode : FileMode) (groups : list OffsetGroup)
    (shebang_length : option nat) (o : PrefixOffsets) :
  prefix_offsets_new file_mode groups shebang_length = Ok o ↔
  o = mkPrefixOffsets file_mode groups shebang_length
  ∧ NoDup (group_encoding <$> groups) ∧ Forall (group_ok file_mode) groups
  ∧ (is_Some shebang_length → file_mode = Text) ∧ (groups = [] → is_Some shebang_length).
Proof.
  unfold prefix_offsets_new. pose proof (check_groups_spec file_mode [] groups) as Hc.
  assert (∀ g e, g ∈ groups → e ∈ ([] : list OffsetGroup) → group_encoding e ≠ group_encoding g) as Hnil.
  { by intros g e _ ?%elem_of_nil. }
  destruct (check_groups file_mode [] groups) as [[]|e].
  - destruct (proj1 Hc eq_refl) as (Hf & Hn & _). clear Hc Hnil.
    destruct shebang_length as [n|], file_mode, groups as [|g groups]; simpl; try done.
    all: split; [intros [= <-]; done || (repeat split; auto; discriminate)|].
    all: try (intros (-> & _); done).
    all: intros (_ & _ & _ & Ht & Hg); (discriminate (Ht (mk_is_Some _ _ eq_refl)) ||
      by destruct (Hg eq_refl)).
  - assert (¬ (Forall (group_ok file_mode) groups ∧ NoDup (group_encoding <$> groups))) as Hno.
    { intros [Hf Hn]. discriminate (proj2 Hc (conj Hf (conj Hn Hnil))). }
    split; [|intros (_ & ? & ? & _); by destruct Hno].
    by repeat case_match.
Qed.

Lemma prefix_offsets_ok file_mode groups shebang_length :
  NoDup (group_encoding <$> groups) ∧ Forall (group_ok file_mode) groups
  ∧ (is_Some shebang_length → file_mode = Text) ∧ (groups = [] → is_Some shebang_length) →
  prefix_offsets_new file_mode groups shebang_length = Ok (mkPrefixOffsets file_mode groups shebang_length).
Proof. intros H. by apply prefix_offsets_new_iff. Qed.

(** [PrefixOffsets::new] accepts exactly the offsets the format allows: at
    most one group per encoding, each of the shape of the file mode, a shebang
    length only for text, and groups unless there is a shebang length. *)
Theorem prefix_offsets_new_spec (file_mode : FileMode) (groups : list OffsetGroup)
    (shebang_length : option nat) (o : PrefixOffsets) :
  prefix_offsets_new file_mode groups shebang_length = Ok o ↔
  o = mkPrefixOffsets file_mode groups shebang_length
  ∧ NoDup (group_encoding <$> groups) ∧ Forall (group_ok file_mode) groups
  ∧ (is_Some shebang_length → file_mode = Text) ∧ (groups = [] → is_Some shebang_length).
Proof. apply prefix_offsets_new_iff. Qed.

(** ** Encoded text *)

(** The bytes are whole code units. *)
Lemma encode_units e text : (code_unit_size e | length (encode e text)).
Proof.
  assert (∀ k (f : N → list N) l, (∀ c, (k | length (f c))) → (k | length (l ≫= f))) as Hbind.
  { intros k f l Hf. induction l as [|c l IH]; [apply Nat.divide_0_r|].
    cbn [mbind list_bind]. rewrite length_app. by apply Nat.divide_add_r. }
  destruct e; simpl; [apply Nat.divide_1_l|..]; apply Hbind; intros c; apply Nat.divide_refl.
Qed.

(** Only the empty text has no bytes. *)
Lemma encode_nil e text : encode e text = [] ↔ text = [].
Proof.
  split; [|by intros ->; destruct e]. destruct text as [|c text]; [done|].
  destruct e; simpl; [unfold utf8; simpl; unfold utf8_char; by repeat case_match|..|done|done].
  all: unfold utf16_char; by destruct (c <? 65536)%N.
Qed.

#[global] Arguments encode _ _ : simpl never.
