(* ===== verification/PrefixReplace.v ===== *)
(** * Prefix replacement: what text and binary files share

    [rattler/src/install/prefix_replacement/mod.rs]: the prefixes under every
    encoding, the patches, the errors, and the writer they go to.

    The writer ([impl Write]) is the bytes written so far; the error of a writer
    that fails is not represented. *)
From S2P Require Import Prelude Utf Offsets.

(** ** Substring search

    The crate [memchr]: [memmem::find] returns the first occurrence,
    [memmem::find_iter] the occurrences met by searching again after each one,
    [memchr] the first position of a byte. *)
Definition occurs_at (h n : list N) (i : nat) : Prop :=
  i ≤ length h ∧ take (length n) (drop i h) = n.
#[export] Instance occurs_at_dec h n i : Decision (occurs_at h n i).
Proof. unfold occurs_at. apply _. Defined.

(** Searching again and again; every round moves past a non-empty needle. *)
Fixpoint occurrences (find : list N → list N → option nat) (fuel : nat) (h n : list N) (from : nat)
  : list nat :=
  match fuel with
  | 0 => []
  | S f =>
      match find (drop from h) n with
      | Some i => (from + i) :: occurrences find f h n (from + i + length n)
      | None => []
      end
  end.

Class Memmem := {
  memmem_find : list N → list N → option nat;
  memmem_find_iter : list N → list N → list nat;
  memchr : N → list N → option nat;
  memmem_find_Some h n i : memmem_find h n = Some i →
    occurs_at h n i ∧ ∀ j, j < i → ¬ occurs_at h n j;
  memmem_find_None h n : memmem_find h n = None → ∀ j, ¬ occurs_at h n j;
  memmem_find_iter_law h n : n ≠ [] →
    memmem_find_iter h n = occurrences memmem_find (S (length h)) h n 0;
  memchr_law c h : memchr c h = position (N.eqb c) h
}.

Definition find_ref (h n : list N) : option nat :=
  head (filter (occurs_at h n) (seq 0 (S (length h)))).

Lemma head_filter_seq (P : nat → Prop) `{∀ i, Decision (P i)} (k n i : nat) :
  head (filter P (seq k n)) = Some i → P i ∧ ∀ j, k ≤ j < i → ¬ P j.
Proof.
  revert k. induction n as [|n IH]; intros k; simpl; [done|]. rewrite filter_cons.
  destruct (decide (P k)) as [Hk|Hk]; simpl.
  - intros [= <-]. split; [done|]. lia.
  - intros [Hi Hj]%IH. split; [done|]. intros j Hj'.
    destruct (decide (j = k)) as [->|]; [done|]. apply Hj. lia.
Qed.

#[export, refine] Instance memmem_ref : Memmem := {|
  memmem_find := find_ref;
  memmem_find_iter h n := occurrences find_ref (S (length h)) h n 0;
  memchr c h := position (N.eqb c) h
|}.
Proof.
  - intros h n i Hi. apply head_filter_seq in Hi as [Hi Hj]. split; [done|]. intros j ?. apply Hj. lia.
  - intros h n Hh j Hj. unfold find_ref in Hh.
    destruct (filter (occurs_at h n) _) as [|x l] eqn:E; [|done].
    assert (j ∈ filter (occurs_at h n) (seq 0 (S (length h)))) as Hin.
    { apply list_elem_of_filter. split; [done|]. apply elem_of_seq. destruct Hj; lia. }
    rewrite E in Hin. by apply elem_of_nil in Hin.
  - done.
  - done.
Defined.

(** ** Errors *)

(** The [std::io::Error]s the replacement makes: the message names the encoding of
    a prefix that grows, or a range that is not one of the file. *)
Inductive IoError : Type :=
| GrowingPrefix (encoding : OffsetEncoding)
| InvalidRange (start end_ len : nat).

Inductive InconsistentOffsetsError : Type :=
| Invalid (e : InvalidOffsetsError)
| FileModeMismatch (recorded installed : FileMode)
| EmptyPlaceholder
| UnexpectedShebangLength
| MissingShebangLength
| ShebangLengthMismatch (shebang_length : nat)
| OffsetInShebangRegion (offset shebang_length : nat)
| UnsortedOffset (offset : nat)
| OffsetOutOfRange (offset file_size : nat)
| OffsetPastTerminator (offset terminator : nat)
| MisalignedOffset (offset terminator : nat)
| PlaceholderNotFound (offset : nat)
| TerminatorOutOfRange (terminator file_size : nat)
| TerminatorNotZero (terminator : nat).

Inductive OffsetReplaceError : Type :=
| InconsistentMetadata (e : InconsistentOffsetsError)
| Io (e : IoError).

(** ** Writing

    A computation that writes to the destination takes what was written so far;
    [None] is a panic. *)
Definition io (E A : Type) : Type := list N → option (result E A * list N).

Definition io_ret {E A} (a : A) : io E A := λ d, Some (Ok a, d).
Definition io_fail {E A} (e : E) : io E A := λ d, Some (Err e, d).
Definition io_bind {E A B} (m : io E A) (k : A → io E B) : io E B := λ d,
  r ← m d;
  match r with
  | (Ok a, d') => k a d'
  | (Err e, d') => Some (Err e, d')
  end.
(** [?] on a value computed without writing, and on one that may panic. *)
Definition io_lift {E A} (r : result E A) : io E A := λ d, Some (r, d).
Definition io_opt {E A} (o : option A) : io E A := λ d, a ← o; Some (Ok a, d).
Definition io_map_err {E F A} (f : E → F) (m : io E A) : io F A := λ d,
  r ← m d; Some (match r.1 with Ok a => Ok a | Err e => Err (f e) end, r.2).

Declare Scope io_scope.
Delimit Scope io_scope with io.
Notation "x ⇐ m ; k" := (io_bind m (λ x, k))
  (at level 20, m at level 100, k at level 200, right associativity) : io_scope.
Notation "m ;; k" := (io_bind m (λ _, k)) (at level 100, k at level 200, right associativity) : io_scope.
Open Scope io_scope.

(** [Write::write_all] *)
Definition write_all {E} (bytes : list N) : io E unit := λ d, Some (Ok tt, d ++ bytes).

(** ** Prefixes *)
Record EncodedPrefix := mkEncodedPrefix {
  encoding : OffsetEncoding;
  placeholder : list N;
  target : list N
}.

Definition encoded_prefix_all (placeholder target : list N) : list EncodedPrefix :=
  omap (λ e, let p := encode e placeholder in
             if bool_decide (p = []) then None else Some (mkEncodedPrefix e p (encode e target)))
    DEFINED.

Definition shrinks_by (p : EncodedPrefix) : option nat :=
  if (length (target p) <=? length (placeholder p))%nat
  then Some (length (placeholder p) - length (target p)) else None.

Definition prefix_code_unit_size (p : EncodedPrefix) : nat := code_unit_size (encoding p).

Definition growing_prefix_error (p : EncodedPrefix) : IoError := GrowingPrefix (encoding p).

Definition reject_growing_prefix (prefixes : list EncodedPrefix) : result IoError unit :=
  match find (λ p, bool_decide (shrinks_by p = None)) prefixes with
  | Some p => Err (growing_prefix_error p)
  | None => Ok tt
  end.

Definition encoded_prefix_for (prefixes : list EncodedPrefix) (e : OffsetEncoding)
  : result InconsistentOffsetsError EncodedPrefix :=
  match find (λ p, bool_decide (encoding p = e)) prefixes with
  | Some p => Ok p
  | None => Err EmptyPlaceholder
  end.

Record TextPatch := mkTextPatch { tp_offset : nat; tp_prefix : EncodedPrefix }.
Record CStringPatch := mkCStringPatch {
  cs_offsets : list nat;
  cs_nul_pos : nat;
  cs_prefix : EncodedPrefix
}.

(** [slice::get(start..end)] *)
Definition write_replacement_range (source : list N) (start end_ : nat) : io IoError unit :=
  match slice source start end_ with
  | Some s => write_all s
  | None => io_fail (InvalidRange start end_ (length source))
  end.

(** ** Lemmas *)

Lemma encoded_prefix_all_spec ph tg p :
  p ∈ encoded_prefix_all ph tg ↔
  ph ≠ [] ∧ p = mkEncodedPrefix (encoding p) (encode (encoding p) ph) (encode (encoding p) tg).
Proof.
  unfold encoded_prefix_all. rewrite list_elem_of_omap. split.
  - intros (e & _ & He). case_bool_decide as Hp; [done|]. injection He as <-. simpl.
    split; [|done]. intros ->. apply Hp. by apply encode_nil.
  - intros [Hne ->]. exists (encoding p). split; [by destruct (encoding p); apply (bool_decide_unpack _)|].
    simpl. rewrite bool_decide_eq_false_2; [done|]. by rewrite encode_nil.
Qed.

Lemma encoded_prefix_all_encodings ph tg :
  ph ≠ [] → encoding <$> encoded_prefix_all ph tg = DEFINED.
Proof.
  intros Hne. assert (∀ e, encode e ph ≠ []) as H by (intros e; by rewrite encode_nil).
  unfold encoded_prefix_all, DEFINED. simpl. by rewrite !bool_decide_eq_false_2 by apply H.
Qed.

Lemma reject_growing_prefix_spec prefixes :
  match reject_growing_prefix prefixes with
  | Ok _ => ∀ p, p ∈ prefixes → is_Some (shrinks_by p)
  | Err e => ∃ p, p ∈ prefixes ∧ shrinks_by p = None ∧ e = growing_prefix_error p
  end.
Proof.
  unfold reject_growing_prefix. destruct (find _ prefixes) as [p|] eqn:E.
  - apply find_some in E as [Hin Hp]. apply bool_decide_eq_true in Hp.
    exists p. split; [by apply list_elem_of_In|done].
  - intros p Hp. apply list_elem_of_In in Hp. pose proof (find_none _ _ E p Hp) as H.
    apply bool_decide_eq_false in H. destruct (shrinks_by p); [by eexists|done].
Qed.

Lemma write_range_ok source start end_ :
  start ≤ end_ → end_ ≤ length source →
  write_replacement_range source start end_ = write_all (take (end_ - start) (drop start source)).
Proof. intros. unfold write_replacement_range, slice. by rewrite decide_True. Qed.

Lemma occurs_at_bound h n i : occurs_at h n i → n ≠ [] → i + length n ≤ length h.
Proof.
  intros [Hi Ht] Hn. apply (f_equal length) in Ht. rewrite length_take, length_drop in Ht.
  destruct n as [|c n]; [done|]. cbn [length] in *. lia.
Qed.

Lemma occurs_at_drop h n k i : k ≤ length h → occurs_at (drop k h) n i ↔ occurs_at h n (k + i).
Proof.
  intros Hk. unfold occurs_at. rewrite length_drop, drop_drop. split; intros [? ?]; (split; [lia|done]).
Qed.
