(* ===== verification/PrefixBinary.v ===== *)
(** * Prefix replacement in binary files

    [rattler/src/install/prefix_replacement/binary.rs]: the search for the
    c-strings to patch, the writer that keeps the length of the file, and the
    replacement at recorded offsets. *)
From S2P Require Import Prelude Utf Offsets PrefixReplace.

(** ** Definitions *)

(** The scan of [cstring_end]: every round moves by a code unit. *)
Fixpoint cstring_end_loop (fuel : nat) (source : list N) (pos unit : nat) : option (option nat) :=
  match fuel with
  | 0 => None
  | S f =>
      if (pos + unit <=? length source)%nat then
        bytes ← slice source pos (pos + unit);
        if forallb (N.eqb 0) bytes then Some (Some pos)
        else cstring_end_loop f source (pos + unit) unit
      else Some None
  end.
Definition cstring_end (source : list N) (from unit : nat) : option (option nat) :=
  cstring_end_loop (S (length source)) source from unit.

Definition patch_start (p : CStringPatch) : nat := hd 0 (cs_offsets p).

Section search.
Context `{MM : Memmem}.

(** The other occurrences of the c-string that ends at [end_]. *)
Fixpoint collect_offsets (fuel : nat) (source placeholder : list N) (end_ next : nat)
    (offsets : list nat) : option (list nat) :=
  match fuel with
  | 0 => None
  | S f =>
      hay ← slice source next end_;
      match memmem_find hay placeholder with
      | Some found =>
          collect_offsets f source placeholder end_ (next + (found + length placeholder))
            (offsets ++ [next + found])
      | None => Some offsets
      end
  end.

Definition candidate_rank (e : OffsetEncoding) (alignment : nat) (nul_pos : option nat) : nat :=
  match e, bool_decide (alignment = 0), bool_decide (is_Some nul_pos) with
  | Utf8, _, _ => 0
  | _, true, true => 1
  | _, true, false => 2
  | _, false, true => 3
  | _, false, false => 4
  end.

(** The loop of one prefix; [covered_until] has an entry per alignment. *)
Fixpoint candidates_loop (fuel : nat) (source : list N) (prefix : EncodedPrefix)
    (covered_until : list nat) (search_from : nat) (candidates : list (nat * CStringPatch))
  : option (list (nat * CStringPatch)) :=
  match fuel with
  | 0 => None
  | S f =>
      let unit := prefix_code_unit_size prefix in
      hay ← slice source search_from (length source);
      match memmem_find hay (placeholder prefix) with
      | None => Some candidates
      | Some found =>
          let first := search_from + found in
          let after_first := first + length (placeholder prefix) in
          let alignment := first mod unit in
          covered ← covered_until !! alignment;
          if (first <? covered)%nat
          then candidates_loop f source prefix covered_until after_first candidates
          else
            nul_pos ← cstring_end source after_first unit;
            let end_ := default (length source) nul_pos in
            offsets ← collect_offsets (S (length source)) source (placeholder prefix) end_ after_first
                        [first];
            let rank := candidate_rank (encoding prefix) alignment nul_pos in
            candidates_loop f source prefix (<[alignment := end_]> covered_until) after_first
              (candidates ++ [(rank, mkCStringPatch offsets end_ prefix)])
      end
  end.

Definition find_candidates (source : list N) (prefixes : list EncodedPrefix)
  : option (list (nat * CStringPatch)) :=
  for_opt prefixes (λ prefix candidates,
    candidates_loop (S (length source)) source prefix
      (replicate (prefix_code_unit_size prefix) 0) 0 candidates) [].

(** [(rank, offsets[0])] as the key. *)
Definition candidate_leb (a b : nat * CStringPatch) : bool :=
  (a.1 <? b.1)%nat || ((a.1 =? b.1)%nat && (patch_start a.2 <=? patch_start b.2)%nat).

(** [BTreeMap::insert] on the list of the entries in order of their keys. *)
Fixpoint bmap_insert (k : nat) (v : CStringPatch) (m : list (nat * CStringPatch))
  : list (nat * CStringPatch) :=
  match m with
  | [] => [(k, v)]
  | (k', v') :: m' =>
      if (k <? k')%nat then (k, v) :: m
      else if (k =? k')%nat then (k, v) :: m'
      else (k', v') :: bmap_insert k v m'
  end.

(** One round of the selection. *)
Definition keep_candidate (kept : list (nat * CStringPatch)) (candidate : CStringPatch)
  : list (nat * CStringPatch) :=
  let start := patch_start candidate in
  let overlaps_earlier :=
    match last (filter (λ kv : nat * CStringPatch, kv.1 ≤ start) kept) with
    | Some kv => (start <? cs_nul_pos kv.2)%nat
    | None => false
    end in
  let overlaps_later :=
    match head (filter (λ kv : nat * CStringPatch, start ≤ kv.1) kept) with
    | Some kv => (kv.1 <? cs_nul_pos candidate)%nat
    | None => false
    end in
  if negb overlaps_earlier && negb overlaps_later then bmap_insert start candidate kept else kept.

Definition find_cstring_patches (source : list N) (prefixes : list EncodedPrefix)
  : option (list CStringPatch) :=
  candidates ← find_candidates source prefixes;
  Some ((foldl keep_candidate [] (snd <$> sort_by candidate_leb candidates)).*2).
End search.

(** *** Writing *)

(** The replacements in one c-string; returns the position after the last one. *)
Fixpoint write_cstring (source : list N) (prefix : EncodedPrefix) (last_pos : nat)
    (offsets : list nat) : io IoError nat :=
  match offsets with
  | [] => io_ret last_pos
  | offset :: offsets' =>
      write_replacement_range source last_pos offset;;
      write_all (target prefix);;
      write_cstring source prefix (offset + length (placeholder prefix)) offsets'
  end.

Fixpoint write_cstrings (source : list N) (last_pos : nat) (patches : list CStringPatch)
  : io IoError nat :=
  match patches with
  | [] => io_ret last_pos
  | patch :: patches' =>
      last ⇐ write_cstring source (cs_prefix patch) last_pos (cs_offsets patch);
      write_replacement_range source last (cs_nul_pos patch);;
      shrinks ⇐ match shrinks_by (cs_prefix patch) with
                | Some n => io_ret n
                | None => io_fail (growing_prefix_error (cs_prefix patch))
                end;
      (let padding := length (cs_offsets patch) * shrinks in
       if (0 <? padding)%nat then write_all (replicate padding 0%N) else io_ret tt);;
      write_cstrings source (cs_nul_pos patch) patches'
  end.

Definition write_patched_cstrings (source : list N) (patches : list CStringPatch) : io IoError unit :=
  last_pos ⇐ write_cstrings source 0 patches;
  if (last_pos <? length source)%nat then write_all (drop last_pos source) else io_ret tt.

(** *** At recorded offsets *)

(** The c-strings of one group. *)
Fixpoint group_patches (e : OffsetEncoding) (prefix : EncodedPrefix) (cstrings : list (list nat))
    (patches : list CStringPatch) : result InconsistentOffsetsError (list CStringPatch) :=
  match cstrings with
  | [] => Ok patches
  | cstring :: cstrings' =>
      match last cstring with
      | None => Err (Invalid (ShortCStringRanges e))
      | Some nul_pos =>
          let offsets := take (length cstring - 1) cstring in
          if bool_decide (offsets = []) then Err (Invalid (ShortCStringRanges e))
          else group_patches e prefix cstrings' (patches ++ [mkCStringPatch offsets nul_pos prefix])
      end
  end.

Fixpoint groups_patches (groups : list OffsetGroup) (prefixes : list EncodedPrefix)
    (patches : list CStringPatch) : result InconsistentOffsetsError (list CStringPatch) :=
  match groups with
  | [] => Ok patches
  | group :: groups' =>
      match encoded_prefix_for prefixes (group_encoding group) with
      | Err e => Err e
      | Ok prefix =>
          match group_ranges group with
          | TextRanges _ => Err (Invalid (RangesShapeMismatch (group_encoding group)))
          | BinaryRanges cstrings =>
              match group_patches (group_encoding group) prefix cstrings patches with
              | Err e => Err e
              | Ok patches' => groups_patches groups' prefixes patches'
              end
          end
      end
  end.

Definition cstring_patches_from_groups (groups : list OffsetGroup) (prefixes : list EncodedPrefix)
  : result InconsistentOffsetsError (list CStringPatch) :=
  match groups_patches groups prefixes [] with
  | Err e => Err e
  | Ok [] => Err (Invalid EmptyList)
  | Ok patches => Ok (sort_by (λ a b, patch_start a <=? patch_start b)%nat patches)
  end.

(** The offsets of one c-string; returns the end of the last occurrence. *)
Fixpoint validate_offsets (source ph : list N) (unit terminator prev_end : nat) (offsets : list nat)
  : option (result InconsistentOffsetsError nat) :=
  match offsets with
  | [] => Some (Ok prev_end)
  | offset :: offsets' =>
      if (offset <? prev_end)%nat then Some (Err (UnsortedOffset offset))
      else
        let end_ := offset + length ph in
        if (terminator <? end_)%nat then Some (Err (OffsetPastTerminator offset terminator))
        else if bool_decide ((terminator - offset) mod unit ≠ 0)
        then Some (Err (MisalignedOffset offset terminator))
        else
          bytes ← slice source offset end_;
          if bool_decide (bytes ≠ ph) then Some (Err (PlaceholderNotFound offset))
          else validate_offsets source ph unit terminator end_ offsets'
  end.

Fixpoint validate_cstrings (source : list N) (prev_end : nat) (patches : list CStringPatch)
  : option (result InconsistentOffsetsError unit) :=
  match patches with
  | [] => Some (Ok tt)
  | patch :: patches' =>
      let terminator := cs_nul_pos patch in
      let unit := prefix_code_unit_size (cs_prefix patch) in
      if (length source <? terminator)%nat
      then Some (Err (TerminatorOutOfRange terminator (length source)))
      else
        let terminator_bytes := drop terminator source in
        if bool_decide (terminator_bytes ≠ [])
           && negb (match slice terminator_bytes 0 unit with
                    | Some u => forallb (N.eqb 0) u
                    | None => false
                    end)
        then Some (Err (TerminatorNotZero terminator))
        else
          r ← validate_offsets source (placeholder (cs_prefix patch)) unit terminator prev_end
                (cs_offsets patch);
          match r with
          | Err e => Some (Err e)
          | Ok _ => validate_cstrings source terminator patches'
          end
  end.

Definition validate_cstring_patches (source : list N) (patches : list CStringPatch)
  : option (result InconsistentOffsetsError unit) := validate_cstrings source 0 patches.

(** *** The two entry points *)
Definition copy_and_replace_cstring_placeholder `{MM : Memmem} (source prefix_placeholder target_prefix : list N)
  : io IoError unit :=
  let prefixes := encoded_prefix_all prefix_placeholder target_prefix in
  patches ⇐ io_opt (find_cstring_patches source prefixes);
  io_lift (reject_growing_prefix (cs_prefix <$> patches));;
  write_patched_cstrings source patches.

Definition copy_and_replace_cstring_placeholder_offsets
    (source prefix_placeholder target_prefix : list N) (groups : list OffsetGroup)
  : io OffsetReplaceError unit :=
  let prefixes := encoded_prefix_all prefix_placeholder target_prefix in
  patches ⇐ io_map_err InconsistentMetadata (io_lift (cstring_patches_from_groups groups prefixes));
  r ⇐ io_opt (validate_cstring_patches source patches);
  io_map_err InconsistentMetadata (io_lift r);;
  io_map_err Io (io_lift (reject_growing_prefix (cs_prefix <$> patches)));;
  io_map_err Io (write_patched_cstrings source patches).

#[local] Arguments cstring_end : simpl never.

(** ** What is written *)

Definition sub (source : list N) (a b : nat) : list N := take (b - a) (drop a source).

(** The source from [from] to [stop] with the placeholder replaced at the offsets. *)
Fixpoint spliced (source : list N) (prefix : EncodedPrefix) (from : nat) (offsets : list nat) (stop : nat)
  : list N :=
  match offsets with
  | [] => sub source from stop
  | o :: offsets' =>
      sub source from o ++ target prefix
      ++ spliced source prefix (o + length (placeholder prefix)) offsets' stop
  end.

Definition padding (p : CStringPatch) : nat :=
  length (cs_offsets p) * (length (placeholder (cs_prefix p)) - length (target (cs_prefix p))).

(** The c-string of a patch after the replacement. *)
Definition patched_cstring (source : list N) (p : CStringPatch) : list N :=
  spliced source (cs_prefix p) (patch_start p) (cs_offsets p) (cs_nul_pos p)
  ++ replicate (padding p) 0%N.

Fixpoint patched (source : list N) (from : nat) (patches : list CStringPatch) : list N :=
  match patches with
  | [] => drop from source
  | p :: patches' =>
      sub source from (patch_start p) ++ patched_cstring source p ++ patched source (cs_nul_pos p) patches'
  end.

(** Occurrences in order between two positions, without overlap. *)
Fixpoint offsets_ok (source ph : list N) (from : nat) (offsets : list nat) (stop : nat) : Prop :=
  match offsets with
  | [] => from ≤ stop
  | o :: offsets' =>
      from ≤ o ∧ occurs_at source ph o ∧ offsets_ok source ph (o + length ph) offsets' stop
  end.

Record patch_ok (source : list N) (p : CStringPatch) : Prop := {
  patch_nonempty : cs_offsets p ≠ [];
  patch_offsets : offsets_ok source (placeholder (cs_prefix p)) (patch_start p) (cs_offsets p) (cs_nul_pos p);
  patch_stop : cs_nul_pos p ≤ length source
}.

(** The c-strings in order, without overlap. *)
Fixpoint patches_ok (source : list N) (from : nat) (patches : list CStringPatch) : Prop :=
  match patches with
  | [] => from ≤ length source
  | p :: patches' =>
      from ≤ patch_start p ∧ patch_ok source p ∧ patches_ok source (cs_nul_pos p) patches'
  end.

Lemma offsets_ok_le source ph from offsets stop : offsets_ok source ph from offsets stop → from ≤ stop.
Proof.
  revert from. induction offsets as [|o offsets IH]; intros from; simpl; [done|].
  intros (? & _ & H%IH). lia.
Qed.

Lemma patch_ok_le source p : patch_ok source p → patch_start p ≤ cs_nul_pos p.
Proof. intros [_ H _]. by apply offsets_ok_le in H. Qed.

Lemma patches_ok_le source from patches : patches_ok source from patches → from ≤ length source.
Proof.
  destruct patches as [|p patches]; [done|]. intros (? & Hp & _).
  pose proof (patch_ok_le _ _ Hp). destruct Hp. lia.
Qed.

Lemma length_sub source a b : a ≤ b → b ≤ length source → length (sub source a b) = b - a.
Proof. intros. unfold sub. rewrite length_take, length_drop. lia. Qed.

Lemma sub_app source a b c : a ≤ b → b ≤ c → sub source a b ++ sub source b c = sub source a c.
Proof.
  intros. unfold sub. replace (c - a) with ((b - a) + (c - b)) by lia.
  replace (drop b source) with (drop (b - a) (drop a source)) by (rewrite drop_drop; f_equal; lia).
  apply take_take_drop.
Qed.

Lemma sub_drop source a b : a ≤ b → sub source a b ++ drop b source = drop a source.
Proof.
  intros. unfold sub. rewrite <-(take_drop (b - a) (drop a source)) at 2. f_equal.
  rewrite drop_drop. f_equal. lia.
Qed.

Lemma lookup_sub source a b i : a + i < b → sub source a b !! i = source !! (a + i).
Proof. intros. unfold sub. rewrite lookup_take_lt by lia. by rewrite lookup_drop. Qed.

(** The replacement and the padding take the room of the original. *)
Lemma length_spliced source prefix from offsets stop k :
  shrinks_by prefix = Some k → placeholder prefix ≠ [] →
  offsets_ok source (placeholder prefix) from offsets stop → stop ≤ length source →
  length (spliced source prefix from offsets stop) + length offsets * k = stop - from.
Proof.
  unfold shrinks_by. intros Hk Hne. destruct (Nat.leb_spec (length (target prefix)) (length (placeholder prefix)));
    [injection Hk as <-|done].
  revert from. induction offsets as [|o offsets IH]; intros from; simpl.
  - intros ? ?. rewrite length_sub by done. lia.
  - intros (Ho & Hocc & Hrest) Hstop. specialize (IH _ Hrest Hstop).
    pose proof (occurs_at_bound _ _ _ Hocc Hne). pose proof (offsets_ok_le _ _ _ _ _ Hrest).
    rewrite !length_app, length_sub by lia. lia.
Qed.

Definition growable (p : CStringPatch) : Prop := is_Some (shrinks_by (cs_prefix p)) ∧ placeholder (cs_prefix p) ≠ [].

Lemma length_patched_cstring source p :
  growable p → patch_ok source p →
  length (patched_cstring source p) = cs_nul_pos p - patch_start p.
Proof.
  intros [[k Hk] Hne] [_ Ho Hs]. unfold patched_cstring, padding. rewrite length_app, length_replicate.
  pose proof (length_spliced _ _ _ _ _ k Hk Hne Ho Hs) as E. unfold shrinks_by in Hk.
  destruct (_ <=? _)%nat; [injection Hk as Hk|done]. rewrite Hk. done.
Qed.

Lemma length_patched source from patches :
  Forall growable patches → patches_ok source from patches →
  length (patched source from patches) = length source - from.
Proof.
  intros Hg. revert from. induction Hg as [|p patches Hp Hg IH]; intros from; simpl.
  - intros _. apply length_drop.
  - intros (Hf & Hok & Hrest). rewrite !length_app, length_patched_cstring, IH by done.
    pose proof (patch_ok_le _ _ Hok). pose proof (patches_ok_le _ _ _ Hrest).
    rewrite length_sub by lia. lia.
Qed.

(** The bytes outside the c-strings stay where they are. *)
Lemma lookup_patched_outside source from patches i :
  Forall growable patches → patches_ok source from patches → from ≤ i →
  (∀ p, p ∈ patches → ¬ patch_start p ≤ i < cs_nul_pos p) →
  patched source from patches !! (i - from) = source !! i.
Proof.
  intros Hg. revert from. induction Hg as [|p patches Hp Hg IH]; intros from; simpl.
  - intros _ Hi _. rewrite lookup_drop. f_equal. lia.
  - intros (Hf & Hok & Hrest) Hi Hout. pose proof (patch_ok_le _ _ Hok). pose proof (patches_ok_le _ _ _ Hrest).
    assert (¬ patch_start p ≤ i < cs_nul_pos p) as Hp' by (apply Hout; left).
    assert (length (sub source from (patch_start p)) = patch_start p - from) as Hl by (apply length_sub; lia).
    destruct (decide (i < patch_start p)).
    + rewrite lookup_app_l by lia. rewrite lookup_sub by lia. f_equal. lia.
    + rewrite lookup_app_r, lookup_app_r; rewrite ?length_patched_cstring, ?Hl by done; [|lia..].
      replace (i - from - (patch_start p - from) - (cs_nul_pos p - patch_start p)) with (i - cs_nul_pos p) by lia.
      apply IH; [done|lia|]. intros q Hq. apply Hout. by right.
Qed.

(** Every c-string is replaced in place. *)
Lemma sub_patched_cstring source from patches p :
  Forall growable patches → patches_ok source from patches → p ∈ patches →
  from ≤ patch_start p ∧
  sub (patched source from patches) (patch_start p - from) (cs_nul_pos p - from) = patched_cstring source p.
Proof.
  intros Hg. revert from. induction Hg as [|q patches Hq Hg IH]; intros from; simpl.
  - intros _ H. by apply elem_of_nil in H.
  - intros (Hf & Hok & Hrest) Hin. pose proof (patch_ok_le _ _ Hok). pose proof (patches_ok_le _ _ _ Hrest).
    assert (length (sub source from (patch_start q)) = patch_start q - from) as Hl by (apply length_sub; lia).
    pose proof (length_patched_cstring source q Hq Hok) as Hlc.
    apply elem_of_cons in Hin as [->|Hin].
    + split; [done|]. unfold sub at 1. rewrite <-Hl, drop_app_length.
      replace (_ - _) with (length (patched_cstring source q)) by lia. by rewrite take_app_length.
    + destruct (IH _ Hrest Hin) as [Hle <-]. split; [lia|]. unfold sub at 1 3.
      rewrite (drop_app_ge (sub _ _ _)), drop_app_ge by lia. rewrite Hl, Hlc.
      replace (patch_start p - from - (patch_start q - from) - (cs_nul_pos q - patch_start q))
        with (patch_start p - cs_nul_pos q) by lia.
      f_equal. lia.
Qed.

(** ** The writer writes it *)

Lemma io_bind_ok {E A B} (m : io E A) (k : A → io E B) d a d' :
  m d = Some (Ok a, d') → io_bind m k d = k a d'.
Proof. unfold io_bind. by intros ->. Qed.

Lemma write_cstring_ok source prefix from offsets stop d :
  placeholder prefix ≠ [] → offsets_ok source (placeholder prefix) from offsets stop → stop ≤ length source →
  ∃ last out, write_cstring source prefix from offsets d = Some (Ok last, d ++ out)
    ∧ last ≤ stop ∧ out ++ sub source last stop = spliced source prefix from offsets stop.
Proof.
  intros Hne. revert from d. induction offsets as [|o offsets IH]; intros from d; simpl.
  - intros ? _. exists from, []. by rewrite app_nil_r.
  - intros (Ho & Hocc & Hrest) Hs. pose proof (occurs_at_bound _ _ _ Hocc Hne).
    rewrite write_range_ok by lia. unfold io_bind at 1 2, write_all. simpl.
    destruct (IH _ ((d ++ take (o - from) (drop from source)) ++ target prefix) Hrest Hs)
      as (last & out & -> & Hl & <-).
    exists last, (sub source from o ++ target prefix ++ out). unfold sub at 1.
    by rewrite <-!(assoc_L (++)).
Qed.

Lemma patched_from_start source from p :
  patch_ok source p → from ≤ patch_start p →
  sub source from (patch_start p) ++ spliced source (cs_prefix p) (patch_start p) (cs_offsets p) (cs_nul_pos p)
  = spliced source (cs_prefix p) from (cs_offsets p) (cs_nul_pos p).
Proof.
  intros [Hne _ _] Hf. unfold patch_start in *. destruct (cs_offsets p) as [|o offsets]; [done|]. simpl in *.
  rewrite (assoc_L (++)), sub_app by lia. done.
Qed.

Lemma offsets_ok_weaken source ph from from' offsets stop :
  offsets ≠ [] → from ≤ hd 0 offsets → offsets_ok source ph from' offsets stop →
  offsets_ok source ph from offsets stop.
Proof. destruct offsets as [|o offsets]; simpl; [done|]. intros _ ? (_ & ? & ?). done. Qed.

Lemma write_cstrings_ok source from patches d :
  Forall growable patches → patches_ok source from patches →
  ∃ last out, write_cstrings source from patches d = Some (Ok last, d ++ out)
    ∧ out ++ drop last source = patched source from patches.
Proof.
  intros Hg. revert from d. induction Hg as [|p patches Hp Hg IH]; intros from d; simpl.
  - intros _. exists from, []. by rewrite app_nil_r.
  - intros (Hf & Hok & Hrest). pose proof Hok as [Hne Ho Hs]. destruct Hp as [[k Hk] Hph].
    pose proof (patch_ok_le _ _ Hok).
    destruct (write_cstring_ok source (cs_prefix p) from (cs_offsets p) (cs_nul_pos p) d Hph) as
      (last & out & Hw & Hl & Hout); [by eapply offsets_ok_weaken|done|].
    rewrite (io_bind_ok _ _ _ _ _ Hw). rewrite write_range_ok by done.
    unfold io_bind at 1, write_all at 1. simpl. rewrite Hk. unfold io_bind at 1, io_ret at 1. simpl.
    assert (k = length (placeholder (cs_prefix p)) - length (target (cs_prefix p))) as ->.
    { unfold shrinks_by in Hk. destruct (_ <=? _)%nat; [by injection Hk|done]. }
    fold (padding p). set (zeros := replicate (padding p) 0%N).
    assert (∀ e, (if (0 <? padding p)%nat then write_all zeros else io_ret tt) e
      = Some (Ok (E := IoError) tt, e ++ zeros)) as Hz.
    { intros e. unfold zeros. destruct (Nat.ltb_spec 0 (padding p)); [done|].
      replace (padding p) with 0 by lia. simpl. by rewrite app_nil_r. }
    rewrite (io_bind_ok _ _ _ _ _ (Hz _)).
    destruct (IH (cs_nul_pos p) ((((d ++ out) ++ take (cs_nul_pos p - last) (drop last source))) ++ zeros) Hrest)
      as (last' & out' & -> & Hout').
    exists last', (out ++ sub source last (cs_nul_pos p) ++ zeros ++ out').
    split; [unfold sub; by rewrite <-!(assoc_L (++))|].
    rewrite <-Hout'. unfold patched_cstring. fold zeros.
    rewrite (assoc_L (++) (sub source from _)), (assoc_L (++) (sub source from _)).
    rewrite patched_from_start by done. rewrite <-Hout. by rewrite <-!(assoc_L (++)).
Qed.

(** On patches in order the writer succeeds, and writes the patched file. *)
Lemma write_patched_cstrings_ok source patches d :
  Forall growable patches → patches_ok source 0 patches →
  write_patched_cstrings source patches d = Some (Ok tt, d ++ patched source 0 patches).
Proof.
  intros Hg Hok. unfold write_patched_cstrings.
  destruct (write_cstrings_ok source 0 patches d Hg Hok) as (last & out & Hw & <-).
  rewrite (io_bind_ok _ _ _ _ _ Hw). destruct (Nat.ltb_spec last (length source)).
  - unfold write_all. by rewrite <-(assoc_L (++)).
  - rewrite drop_ge, app_nil_r by done. done.
Qed.

(** ** The search *)

(** A c-string ends at the end of the file or at a zero code unit. *)
Definition ends_cstring (source : list N) (unit stop : nat) : Prop :=
  stop = length source ∨ stop + unit ≤ length source ∧ sub source stop (stop + unit) = replicate unit 0%N.

Lemma forallb_zero l : forallb (N.eqb 0) l = true → l = replicate (length l) 0%N.
Proof.
  induction l as [|c l IH]; cbn [forallb length replicate]; [done|].
  intros H. apply andb_true_iff in H as [Hc Hl]. apply N.eqb_eq in Hc as <-. f_equal. by apply IH.
Qed.

Lemma slice_sub source a b s : slice source a b = Some s → s = sub source a b ∧ a ≤ b ∧ b ≤ length source.
Proof. unfold slice. destruct (decide _) as [[? ?]|]; [|done]. by intros [= <-]. Qed.

Lemma cstring_end_loop_spec fuel source pos unit :
  0 < unit → length source - pos < fuel →
  ∃ r, cstring_end_loop fuel source pos unit = Some r ∧
    (∀ p, r = Some p → pos ≤ p ∧ p + unit ≤ length source ∧ sub source p (p + unit) = replicate unit 0%N).
Proof.
  intros Hu. revert pos. induction fuel as [|f IH]; intros pos Hf; [lia|]. cbn [cstring_end_loop].
  destruct (Nat.leb_spec (pos + unit) (length source)); [|by eexists].
  destruct (slice source pos (pos + unit)) as [s|] eqn:E.
  2: { unfold slice in E. rewrite decide_True in E by lia. done. }
  apply slice_sub in E as [-> _]. simpl. destruct (forallb _ _) eqn:Ez.
  - eexists. split; [done|]. intros p [= <-]. split; [done|]. split; [done|].
    apply forallb_zero in Ez. rewrite length_sub in Ez by lia. rewrite Ez. f_equal. lia.
  - destruct (IH (pos + unit)) as (r & -> & Hr); [lia|]. exists r. split; [done|].
    intros p Hp. destruct (Hr p Hp) as (? & ? & ?). split; [lia|done].
Qed.

Lemma cstring_end_spec source from unit :
  0 < unit → from ≤ length source →
  ∃ r, cstring_end source from unit = Some r ∧ from ≤ default (length source) r ≤ length source
    ∧ ends_cstring source unit (default (length source) r).
Proof.
  intros Hu Hf. destruct (cstring_end_loop_spec (S (length source)) source from unit) as (r & E & Hr); [done|lia|].
  exists r. split; [done|]. destruct r as [p|]; simpl.
  - destruct (Hr p eq_refl) as (? & ? & ?). split; [lia|]. right. done.
  - split; [lia|]. by left.
Qed.

Lemma occurs_at_take h n k i : occurs_at (take k h) n i → n ≠ [] → occurs_at h n i ∧ i + length n ≤ k.
Proof.
  intros Ho Hn. pose proof (occurs_at_bound _ _ _ Ho Hn) as Hb. destruct Ho as [Hi Ht].
  rewrite length_take in Hi, Hb. split; [|lia]. split; [lia|].
  rewrite <-Ht at 2. rewrite skipn_firstn_comm, take_take. f_equal. lia.
Qed.

Lemma occurs_at_take' h n k i : occurs_at h n i → i + length n ≤ k → occurs_at (take k h) n i.
Proof.
  intros [Hi Ht] Hk. split; [rewrite length_take; lia|].
  rewrite skipn_firstn_comm, take_take. rewrite <-Ht at 2. f_equal. lia.
Qed.

(** Occurrences within a range of the source. *)
Lemma occurs_at_sub source n a b i :
  n ≠ [] → a ≤ b → b ≤ length source →
  occurs_at (sub source a b) n i ↔ occurs_at source n (a + i) ∧ a + i + length n ≤ b.
Proof.
  intros Hn Ha Hb. unfold sub. split.
  - intros H%occurs_at_take; [|done]. destruct H as [H ?]. split; [apply occurs_at_drop in H; [done|lia]|lia].
  - intros [H ?]. apply occurs_at_take'; [apply occurs_at_drop; [lia|done]|lia].
Qed.

Section search_lemmas.
Context `{MM : Memmem}.

Definition covers (ph : list N) (offsets : list nat) (i : nat) : Prop :=
  ∃ o, o ∈ offsets ∧ o ≤ i < o + length ph.

(** [collect_offsets] returns occurrences in order and misses none. *)
Lemma collect_offsets_spec fuel source ph end_ next offsets :
  ph ≠ [] → next ≤ end_ → end_ ≤ length source → end_ - next < fuel →
  ∃ more, collect_offsets fuel source ph end_ next offsets = Some (offsets ++ more)
    ∧ offsets_ok source ph next more end_
    ∧ ∀ i, next ≤ i → occurs_at source ph i → i + length ph ≤ end_ → covers ph more i.
Proof.
  intros Hne. revert next offsets. induction fuel as [|f IH]; intros next offsets Hn He Hf; [lia|].
  cbn [collect_offsets]. unfold slice. rewrite decide_True by done. fold (sub source next end_). simpl.
  assert (0 < length ph) by (destruct ph; [done|simpl; lia]).
  destruct (memmem_find (sub source next end_) ph) as [found|] eqn:E.
  - apply memmem_find_Some in E as [Hocc Hmin]. apply occurs_at_sub in Hocc as [Hocc Hb]; [|done..].
    destruct (IH (next + (found + length ph)) (offsets ++ [next + found])) as (more & -> & Hok & Hall);
      [lia|lia|lia|].
    exists ((next + found) :: more). split; [by rewrite <-(assoc_L (++))|]. split.
    + simpl. split; [lia|]. split; [done|]. by rewrite <-Nat.add_assoc.
    + intros i Hi Hio Hib. destruct (decide (i < next + found)).
      { exfalso. apply (Hmin (i - next)); [lia|]. apply occurs_at_sub; [done..|].
        replace (next + (i - next)) with i by lia. done. }
      destruct (decide (i < next + found + length ph)).
      { exists (next + found). split; [left|lia]. }
      destruct (Hall i) as (o & Ho & ?); [lia|done|done|]. exists o. split; [by right|done].
  - exists []. split; [by rewrite app_nil_r|]. split; [done|]. intros i Hi Hio Hib. exfalso.
    apply (memmem_find_None _ _ E (i - next)). apply occurs_at_sub; [done..|].
    replace (next + (i - next)) with i by lia. done.
Qed.

#[local] Arguments collect_offsets : simpl never.

(** What is known of a candidate. *)
Record candidate_ok (source : list N) (prefix : EncodedPrefix) (c : nat * CStringPatch) : Prop := {
  cand_prefix : cs_prefix c.2 = prefix;
  cand_rank : encoding prefix = Utf8 ↔ c.1 = 0;
  cand_patch : patch_ok source c.2;
  cand_ends : ends_cstring source (prefix_code_unit_size prefix) (cs_nul_pos c.2);
  cand_room : patch_start c.2 + length (placeholder prefix) ≤ cs_nul_pos c.2
}.

Lemma unit_pos p : 0 < prefix_code_unit_size p.
Proof. unfold prefix_code_unit_size. destruct (encoding p); simpl; lia. Qed.

Lemma candidate_rank_0 e alignment nul : e = Utf8 ↔ candidate_rank e alignment nul = 0.
Proof. unfold candidate_rank. destruct e; [done|..]; by repeat case_match. Qed.

(** The body of the loop makes a good candidate. *)
Lemma candidate_ok_new source prefix first nul more alignment :
  placeholder prefix ≠ [] → occurs_at source (placeholder prefix) first →
  first + length (placeholder prefix) ≤ default (length source) nul ≤ length source →
  ends_cstring source (prefix_code_unit_size prefix) (default (length source) nul) →
  offsets_ok source (placeholder prefix) (first + length (placeholder prefix)) more (default (length source) nul) →
  candidate_ok source prefix
    (candidate_rank (encoding prefix) alignment nul, mkCStringPatch (first :: more) (default (length source) nul) prefix).
Proof.
  intros Hne Hocc Hle Hends Hok. split; simpl; [done|apply candidate_rank_0| |done|unfold patch_start; simpl; lia].
  split; simpl; [done| |lia]. unfold patch_start. simpl. done.
Qed.

Lemma candidates_loop_ok fuel source prefix covered from acc :
  placeholder prefix ≠ [] → from ≤ length source → length source - from < fuel →
  length covered = prefix_code_unit_size prefix →
  ∃ new, candidates_loop fuel source prefix covered from acc = Some (acc ++ new)
    ∧ Forall (candidate_ok source prefix) new.
Proof.
  intros Hne. pose proof (unit_pos prefix) as Hu.
  assert (0 < length (placeholder prefix)) by (destruct (placeholder prefix); [done|simpl; lia]).
  revert covered from acc. induction fuel as [|f IH]; intros covered from acc Hf Hfu Hc; [lia|].
  cbn [candidates_loop]. unfold slice. rewrite decide_True by done. fold (sub source from (length source)). simpl.
  destruct (memmem_find (sub source from (length source)) (placeholder prefix)) as [found|] eqn:E.
  2: { exists []. by rewrite app_nil_r. }
  apply memmem_find_Some in E as [Hocc _]. apply occurs_at_sub in Hocc as [Hocc Hb]; [|done..].
  set (first := from + found) in *.
  destruct (lookup_lt_is_Some_2 covered (first mod prefix_code_unit_size prefix)) as [c Hlk].
  { rewrite Hc. apply Nat.mod_upper_bound. lia. }
  rewrite Hlk. simpl. destruct (first <? c)%nat.
  { apply IH; [lia|lia|done]. }
  destruct (cstring_end_spec source (first + length (placeholder prefix)) (prefix_code_unit_size prefix))
    as (nul & -> & Hnul & Hends); [done|lia|]. simpl.
  destruct (collect_offsets_spec (S (length source)) source (placeholder prefix) (default (length source) nul)
    (first + length (placeholder prefix)) [first]) as (more & E & Hmore & _); [done|lia|lia|lia|].
  rewrite E. simpl.
  edestruct IH as (new & -> & Hnew); [..|eexists; split; [by rewrite <-(assoc_L (++))|]].
  - lia.
  - lia.
  - by rewrite length_insert.
  - constructor; [|done]. by apply candidate_ok_new.
Qed.

(** *** UTF-8: the candidates are disjoint and miss no occurrence *)

Definition before (a b : CStringPatch) : Prop := cs_nul_pos a ≤ patch_start b.
Definition apart (a b : CStringPatch) : Prop := before a b ∨ before b a.

(** An occurrence without a zero byte stops at the end of a c-string. *)
Lemma occurs_before_end source ph i stop :
  ph ≠ [] → 0%N ∉ ph → ends_cstring source 1 stop → occurs_at source ph i → i < stop →
  i + length ph ≤ stop.
Proof.
  intros Hne Hz Hends Hocc Hi. pose proof (occurs_at_bound _ _ _ Hocc Hne).
  destruct Hends as [->|[Hs Hzero]]; [done|].
  destruct (decide (i + length ph ≤ stop)) as [|Hgt]; [done|exfalso]. apply Hz.
  apply (list_elem_of_lookup_2 _ (stop - i)). destruct Hocc as [_ <-].
  rewrite lookup_take_lt by lia. rewrite lookup_drop. replace (i + (stop - i)) with stop by lia.
  pose proof (lookup_sub source stop (stop + 1) 0 ltac:(lia)) as E. rewrite Hzero in E. simpl in E.
  by rewrite Nat.add_0_r in E.
Qed.

(** What the UTF-8 loop knows when it has searched up to [from] and its last
    c-string ends at [covered]. *)
Record utf8_inv (source ph : list N) (covered from : nat) (new : list CStringPatch) : Prop := {
  inv_apart : StronglySorted before new;
  inv_covered : Forall (λ p, cs_nul_pos p ≤ covered) new;
  inv_ends : covered = 0 ∨ ends_cstring source 1 covered;
  inv_all : ∀ i, occurs_at source ph i → i < max from covered →
    ∃ p, p ∈ new ∧ covers ph (cs_offsets p) i
}.

Lemma utf8_inv_skip source ph covered from found new :
  ph ≠ [] → 0%N ∉ ph →
  occurs_at source ph (from + found) → from + found < covered →
  utf8_inv source ph covered from new →
  utf8_inv source ph covered (from + found + length ph) new.
Proof.
  intros Hne Hz Hocc Hlt [Ha Hc He Hall]. split; [done..|]. destruct He as [->|He]; [lia|].
  pose proof (occurs_before_end _ _ _ _ Hne Hz He Hocc Hlt). intros i Hi Him. apply Hall; [done|lia].
Qed.

Lemma utf8_inv_new source ph covered from found new p :
  ph ≠ [] → 0%N ∉ ph →
  (∀ j, j < found → ¬ occurs_at source ph (from + j)) → covered ≤ from + found →
  patch_start p = from + found → ends_cstring source 1 (cs_nul_pos p) →
  from + found + length ph ≤ cs_nul_pos p →
  (∀ i, from + found ≤ i → occurs_at source ph i → i + length ph ≤ cs_nul_pos p → covers ph (cs_offsets p) i) →
  utf8_inv source ph covered from new →
  utf8_inv source ph (cs_nul_pos p) (from + found + length ph) (new ++ [p]).
Proof.
  intros Hne Hz Hmin Hcov Hstart Hends Hroom Hall' [Ha Hc He Hall]. split.
  - apply StronglySorted_app_2; [|done|by repeat constructor].
    rewrite Forall_forall in Hc. intros a b Hin ->%list_elem_of_singleton.
    unfold before. specialize (Hc a Hin). lia.
  - apply Forall_app. split; [|by repeat constructor].
    eapply Forall_impl; [exact Hc|]. simpl. lia.
  - by right.
  - intros i Hi Him. destruct (decide (i < max from covered)).
    + destruct (Hall i Hi) as (q & Hq & ?); [done|]. exists q. split; [|done]. apply elem_of_app. by left.
    + exists p. split; [apply elem_of_app; right; left|].
      assert (from + found ≤ i).
      { destruct (decide (i < from + found)); [|lia]. exfalso.
        apply (Hmin (i - from)); [lia|]. by replace (from + (i - from)) with i by lia. }
      apply Hall'; [done|done|]. apply (occurs_before_end source); try done. lia.
Qed.

Lemma candidates_loop_utf8 fuel source prefix covered from acc new0 :
  encoding prefix = Utf8 → placeholder prefix ≠ [] → 0%N ∉ placeholder prefix →
  from ≤ length source → length source - from < fuel →
  utf8_inv source (placeholder prefix) covered from new0 →
  ∃ new, candidates_loop fuel source prefix [covered] from acc = Some (acc ++ new)
    ∧ StronglySorted before (new0 ++ new.*2)
    ∧ ∀ i, occurs_at source (placeholder prefix) i →
        ∃ p, p ∈ new0 ++ new.*2 ∧ covers (placeholder prefix) (cs_offsets p) i.
Proof.
  intros Henc Hne Hz.
  assert (prefix_code_unit_size prefix = 1) as Hu by (unfold prefix_code_unit_size; by rewrite Henc).
  assert (0 < length (placeholder prefix)) by (destruct (placeholder prefix); [done|simpl; lia]).
  revert covered from acc new0. induction fuel as [|f IH]; intros covered from acc new0 Hf Hfu Hinv; [lia|].
  cbn [candidates_loop]. unfold slice. rewrite decide_True by done. fold (sub source from (length source)). simpl.
  rewrite Hu.
  destruct (memmem_find (sub source from (length source)) (placeholder prefix)) as [found|] eqn:E.
  2: { exists []. rewrite !app_nil_r. split; [done|]. split; [apply Hinv|].
    intros i Hi. apply (inv_all _ _ _ _ _ Hinv i Hi).
    destruct (decide (i < from)); [lia|exfalso].
    apply (memmem_find_None _ _ E (i - from)). apply occurs_at_sub; [done..|].
    pose proof (occurs_at_bound _ _ _ Hi Hne). replace (from + (i - from)) with i by lia. done. }
  apply memmem_find_Some in E as [Hocc Hmin]. apply occurs_at_sub in Hocc as [Hocc Hb]; [|done..].
  assert (∀ j, j < found → ¬ occurs_at source (placeholder prefix) (from + j)) as Hmin'.
  { intros j Hj Ho. apply (Hmin j Hj), occurs_at_sub; [done..|]. split; [done|]. lia. }
  rewrite Nat.mod_1_r. simpl.
  destruct (Nat.ltb_spec (from + found) covered).
  { apply IH; [lia|lia|]. by apply utf8_inv_skip. }
  destruct (cstring_end_spec source (from + found + length (placeholder prefix)) 1)
    as (nul & -> & Hnul & Hends); [lia|lia|]. simpl.
  destruct (collect_offsets_spec (S (length source)) source (placeholder prefix) (default (length source) nul)
    (from + found + length (placeholder prefix)) [from + found]) as (more & E & Hmore & Hall); [done|lia|lia|lia|].
  rewrite E. simpl. set (p := mkCStringPatch (from + found :: more) (default (length source) nul) prefix).
  destruct (IH (cs_nul_pos p) (from + found + length (placeholder prefix))
    (acc ++ [(candidate_rank (encoding prefix) 0 nul, p)]) (new0 ++ [p])) as (new & Hnew & Hsort & Hcov).
  - lia.
  - lia.
  - apply (utf8_inv_new _ _ covered); try done; [simpl; lia|]. intros i Hi Ho Hib.
    destruct (decide (i < from + found + length (placeholder prefix))).
    + exists (from + found). split; [left|lia].
    + destruct (Hall i) as (o & ? & ?); [lia|done|done|]. exists o. split; [by right|done].
  - exists ((candidate_rank (encoding prefix) 0 nul, p) :: new). subst p. simpl in *. rewrite Hnew.
    split; [by rewrite <-(assoc_L (++))|]. by rewrite <-(assoc_L (++)) in Hsort, Hcov.
Qed.

(** *** All the candidates *)
Lemma find_candidates_ok source prefixes :
  Forall (λ p, placeholder p ≠ []) prefixes →
  ∃ cands, find_candidates source prefixes = Some cands
    ∧ Forall (λ c, ∃ prefix, prefix ∈ prefixes ∧ candidate_ok source prefix c) cands.
Proof.
  intros Hp. unfold find_candidates.
  apply (for_opt_ind (λ seen cands,
    Forall (λ c, ∃ prefix, prefix ∈ seen ∧ candidate_ok source prefix c) cands)); [by constructor|].
  intros seen x s Hs Hx. rewrite Forall_forall in Hp.
  destruct (candidates_loop_ok (S (length source)) source x (replicate (prefix_code_unit_size x) 0) 0 s)
    as (new & -> & Hnew); [by apply Hp|lia|lia|apply length_replicate|].
  eexists. split; [done|]. apply Forall_app. split.
  - eapply Forall_impl; [exact Hs|]. intros c (p & ? & ?). exists p. split; [set_solver|done].
  - eapply Forall_impl; [exact Hnew|]. intros c Hc. exists x. split; [set_solver|done].
Qed.
End search_lemmas.

(** ** The selection *)
#[export] Instance encoded_prefix_eq_dec : EqDecision EncodedPrefix.
Proof. solve_decision. Defined.
#[export] Instance cstring_patch_eq_dec : EqDecision CStringPatch.
Proof. solve_decision. Defined.

Definition entry_before (a b : nat * CStringPatch) : Prop := cs_nul_pos a.2 ≤ b.1.
Definition entry_ok (a : nat * CStringPatch) : Prop := a.1 = patch_start a.2 ∧ a.1 < cs_nul_pos a.2.

Lemma entry_apart a b : entry_ok a → entry_ok b → apart a.2 b.2 ↔ entry_before a b ∨ entry_before b a.
Proof. intros [Ha _] [Hb _]. unfold apart, before, entry_before. by rewrite Ha, Hb. Qed.

(** Inserting an entry apart from the others keeps the map in order. *)
Lemma bmap_insert_sorted k v m :
  StronglySorted entry_before m → Forall entry_ok m → entry_ok (k, v) →
  (∀ e, e ∈ m → entry_before e (k, v) ∨ entry_before (k, v) e) →
  StronglySorted entry_before (bmap_insert k v m) ∧ bmap_insert k v m ≡ₚ (k, v) :: m.
Proof.
  intros Hs Hok [_ Hkv] Hap. simpl in Hkv. induction Hs as [|[k' v'] m Hm IH Hfirst]; simpl.
  { split; [by repeat constructor|done]. }
  apply Forall_cons in Hok as [[_ Hk'] Hok]. simpl in Hk'.
  rewrite Forall_forall in Hok, Hfirst. unfold entry_before in *. simpl in *.
  pose proof (Hap (k', v') ltac:(left)) as Hd. simpl in Hd.
  destruct (Nat.ltb_spec k k').
  - split; [|done]. constructor; [constructor; [done|by apply Forall_forall]|].
    apply Forall_forall. intros e [->|He]%elem_of_cons; simpl; [lia|].
    specialize (Hfirst e He). lia.
  - destruct (Nat.eqb_spec k k') as [->|]; [lia|].
    destruct IH as [IHs IHp]; [by apply Forall_forall|intros e He; apply Hap; by right|]. split.
    + constructor; [done|]. apply Forall_forall. intros e He. rewrite IHp in He.
      apply elem_of_cons in He as [->|He]; simpl; [lia|]. by apply Hfirst.
    + rewrite IHp. apply Permutation_swap.
Qed.

(** A round keeps the candidate exactly when it is apart from what was kept. *)
Lemma keep_candidate_spec kept c :
  StronglySorted entry_before kept → Forall entry_ok kept → patch_start c < cs_nul_pos c →
  let kept' := keep_candidate kept c in
  StronglySorted entry_before kept' ∧ Forall entry_ok kept'
  ∧ (kept' = kept ∧ (∃ e, e ∈ kept ∧ ¬ apart e.2 c)
     ∨ kept' ≡ₚ (patch_start c, c) :: kept ∧ ∀ e, e ∈ kept → apart e.2 c).
Proof.
  intros Hs Hok Hc. rewrite Forall_forall in Hok. set (start := patch_start c).
  assert ((negb match last (filter (λ kv : nat * CStringPatch, kv.1 ≤ start) kept) with
           | Some kv => (start <? cs_nul_pos kv.2)%nat | None => false end
     && negb match head (filter (λ kv : nat * CStringPatch, start ≤ kv.1) kept) with
           | Some kv => (kv.1 <? cs_nul_pos c)%nat | None => false end = true)
     ↔ ∀ e, e ∈ kept → entry_before e (start, c) ∨ entry_before (start, c) e) as Htest.
  { rewrite andb_true_iff, !negb_true_iff. unfold entry_before. simpl. split.
    - intros [He Hl] e Hin. destruct (decide (e.1 ≤ start)).
      + left. assert (e ∈ filter (λ kv : nat * CStringPatch, kv.1 ≤ start) kept) as Hf
          by (by apply list_elem_of_filter).
        destruct (last _) as [kv|] eqn:El.
        * apply Nat.ltb_ge in He.
          destruct (StronglySorted_last entry_before _ kv e (StronglySorted_filter _ _ _ Hs) El Hf) as [->|Hb]; [done|].
          unfold entry_before in Hb. apply last_Some_elem_of, list_elem_of_filter in El as [? _]. lia.
        * apply last_None in El. rewrite El in Hf. by apply elem_of_nil in Hf.
      + right. assert (e ∈ filter (λ kv : nat * CStringPatch, start ≤ kv.1) kept) as Hf
          by (apply list_elem_of_filter; split; [lia|done]).
        destruct (head _) as [kv|] eqn:El.
        * apply Nat.ltb_ge in Hl.
          destruct (StronglySorted_head entry_before _ kv e (StronglySorted_filter _ _ _ Hs) El Hf) as [->|Hb]; [done|].
          unfold entry_before in Hb. apply head_Some_elem_of, list_elem_of_filter in El as [_ El].
          destruct (Hok kv El). lia.
        * apply head_None in El. rewrite El in Hf. by apply elem_of_nil in Hf.
    - intros Hall. split.
      + destruct (last _) as [kv|] eqn:El; [|done].
        apply last_Some_elem_of, list_elem_of_filter in El as [? El].
        apply Nat.ltb_ge. destruct (Hall kv El); [done|lia].
      + destruct (head _) as [kv|] eqn:El; [|done].
        apply head_Some_elem_of, list_elem_of_filter in El as [? El].
        apply Nat.ltb_ge. destruct (Hok kv El), (Hall kv El); [lia|done]. }
  assert (entry_ok (start, c)) as Hnew by done.
  unfold keep_candidate. fold start.
  destruct (negb _ && negb _) eqn:E.
  - clear E. pose proof (proj1 Htest eq_refl) as E. destruct (bmap_insert_sorted start c kept) as [Hs' Hp]; [done|by apply Forall_forall|done|done|].
    split; [done|]. split; [rewrite Hp; constructor; [done|by apply Forall_forall]|].
    right. split; [done|]. intros e He. apply (entry_apart e (start, c)); auto.
  - split; [done|]. split; [by apply Forall_forall|]. left. split; [done|].
    assert (¬ Forall (λ e, entry_before e (start, c) ∨ entry_before (start, c) e) kept) as Hno.
    { intros HF. rewrite Forall_forall in HF. by apply Htest in HF. }
    apply not_Forall_Exists in Hno; [|intros e; unfold entry_before; apply _].
    apply Exists_exists in Hno as (e & He & Hne). exists e. split; [done|].
    intros Ha. apply Hne. by apply (entry_apart e (start, c)); auto.
Qed.

(** After the selection: what was kept is in order and comes from the candidates,
    and every candidate was kept or is not apart from one that comes before it. *)
Lemma keep_all_spec l kept :
  StronglySorted entry_before kept → Forall entry_ok kept → Forall (λ c, patch_start c < cs_nul_pos c) l →
  let kept' := foldl keep_candidate kept l in
  StronglySorted entry_before kept' ∧ Forall entry_ok kept'
  ∧ (∀ e, e ∈ kept → e ∈ kept')
  ∧ (∀ e, e ∈ kept' → e ∈ kept ∨ e.2 ∈ l)
  ∧ (∀ l1 c l2, l = l1 ++ c :: l2 →
       c ∈ kept'.*2 ∨ ∃ e, (e ∈ kept ∨ e.2 ∈ l1) ∧ e ∈ kept' ∧ ¬ apart e.2 c).
Proof.
  revert kept. induction l as [|c l IH]; intros kept Hs Hok Hl; simpl.
  { split; [done|]. split; [done|]. split; [done|]. split; [auto|]. intros [|? ?] ? ?; done. }
  apply Forall_cons in Hl as [Hc Hl].
  destruct (keep_candidate_spec kept c Hs Hok Hc) as (Hs1 & Hok1 & Hcase).
  destruct (IH (keep_candidate kept c) Hs1 Hok1 Hl) as (Hs2 & Hok2 & Hmono & Hfrom & Hall).
  assert (∀ e, e ∈ kept → e ∈ keep_candidate kept c) as Hk.
  { intros e He. destruct Hcase as [[-> _]|[-> _]]; [done|by right]. }
  assert (∀ e, e ∈ keep_candidate kept c → e ∈ kept ∨ e.2 = c) as Hk'.
  { intros e. destruct Hcase as [[-> _]|[-> _]]; [auto|]. intros [->|?]%elem_of_cons; auto. }
  split; [done|]. split; [done|]. split; [auto|]. split.
  { intros e He. destruct (Hfrom e He) as [H|]; [|right; by right].
    destruct (Hk' e H) as [?| ->]; [by left|right; left]. }
  intros [|x l1] c' l2 [= <- E].
  - destruct Hcase as [[E' (e & He & Hne)]|[Hp _]].
    + right. exists e. split; [by left|]. split; [auto|done].
    + left. apply list_elem_of_fmap. exists (patch_start c, c). split; [done|].
      apply Hmono. rewrite Hp. left.
  - destruct (Hall l1 c' l2 E) as [?|(e & He & Hin & Hna)]; [by left|]. right. exists e. split; [|done].
    destruct He as [He|]; [|right; by right]. destruct (Hk' e He) as [?| ->]; [by left|right; left].
Qed.

Section find.
Context `{MM : Memmem}.

Lemma candidate_leb_total a b : candidate_leb a b = false → candidate_leb b a = true.
Proof.
  unfold candidate_leb. rewrite orb_false_iff, orb_true_iff, andb_false_iff, andb_true_iff,
    !Nat.ltb_ge, !Nat.ltb_lt, !Nat.eqb_eq, Nat.eqb_neq, Nat.leb_gt, Nat.leb_le. lia.
Qed.

Lemma candidate_leb_trans a b c :
  candidate_leb a b = true → candidate_leb b c = true → candidate_leb a c = true.
Proof.
  unfold candidate_leb. rewrite !orb_true_iff, !andb_true_iff, !Nat.ltb_lt, !Nat.eqb_eq, !Nat.leb_le. lia.
Qed.

Lemma candidate_nonempty source prefix c :
  placeholder prefix ≠ [] → candidate_ok source prefix c → patch_start c.2 < cs_nul_pos c.2.
Proof. intros Hne [_ _ _ _ Hr]. destruct (placeholder prefix); [done|]. simpl in Hr. lia. Qed.

(** The kept c-strings, in order. *)
Lemma entries_patches_ok source from l :
  from ≤ length source → Forall entry_ok l → Forall (λ e, patch_ok source e.2) l →
  StronglySorted entry_before l → Forall (λ e, from ≤ e.1) l → patches_ok source from l.*2.
Proof.
  intros Hfrom Hok Hp Hs. revert from Hfrom.
  induction Hs as [|e l Hl IH He]; intros from Hfrom Hle; [done|].
  apply Forall_cons in Hok as [[Hk _] Hok], Hp as [Hpe Hp], Hle as [Hle _]. rewrite fmap_cons. simpl.
  split; [lia|]. split; [done|]. apply IH; [done|done|apply Hpe|done].
Qed.

(** What the search finds: c-strings in order that contain occurrences of one of
    the prefixes. *)
Record found_ok (source : list N) (prefixes : list EncodedPrefix) (p : CStringPatch) : Prop := {
  found_prefix : cs_prefix p ∈ prefixes;
  found_ends : ends_cstring source (prefix_code_unit_size (cs_prefix p)) (cs_nul_pos p)
}.

Lemma find_cstring_patches_ok source prefixes :
  Forall (λ p, placeholder p ≠ []) prefixes →
  ∃ cands patches, find_candidates source prefixes = Some cands
    ∧ find_cstring_patches source prefixes = Some patches
    ∧ patches_ok source 0 patches ∧ Forall (found_ok source prefixes) patches
    ∧ StronglySorted before patches
    ∧ ∀ l1 c l2, sort_by candidate_leb cands = l1 ++ c :: l2 →
        c.2 ∈ patches ∨ ∃ c', c' ∈ l1 ∧ c'.2 ∈ patches ∧ ¬ apart c'.2 c.2.
Proof.
  intros Hp. destruct (find_candidates_ok source prefixes Hp) as (cands & E & Hc).
  rewrite Forall_forall in Hc. rewrite Forall_forall in Hp.
  assert (∀ c, c ∈ sort_by candidate_leb cands → ∃ prefix, prefix ∈ prefixes ∧ candidate_ok source prefix c) as Hc'.
  { intros c. rewrite sort_by_perm. apply Hc. }
  destruct (keep_all_spec (snd <$> sort_by candidate_leb cands) []) as (Hs & Hok & _ & Hfrom & Hall);
    [constructor|constructor| |].
  { apply Forall_fmap, Forall_forall. intros c Hin. destruct (Hc' c Hin) as (prefix & Hpre & Hcok).
    simpl. by apply (candidate_nonempty source prefix); [apply Hp|]. }
  set (kept := foldl keep_candidate [] _) in *.
  assert (∀ e, e ∈ kept → ∃ c, c ∈ sort_by candidate_leb cands ∧ c.2 = e.2) as Hback.
  { intros e He. destruct (Hfrom e He) as [H|H]; [by apply elem_of_nil in H|].
    apply list_elem_of_fmap in H as (c & Hec & Hin). exists c. split; [done|by rewrite Hec]. }
  exists cands, kept.*2. split; [done|]. split; [unfold find_cstring_patches; by rewrite E|].
  split; [|split; [|split]].
  - apply entries_patches_ok; [lia|done| |done|apply Forall_forall; lia].
    apply Forall_forall. intros e He. destruct (Hback e He) as (c & Hin & <-).
    destruct (Hc' c Hin) as (prefix & _ & [_ _ Hpok _ _]). done.
  - apply Forall_fmap, Forall_forall. intros e He. simpl. destruct (Hback e He) as (c & Hin & <-).
    destruct (Hc' c Hin) as (prefix & Hpre & [Hpe _ _ Hends _]). split; [by rewrite Hpe|by rewrite Hpe].
  - clear -Hs Hok. induction Hs as [|e l Hl IH He]; [constructor|]. apply Forall_cons in Hok as [_ Hok].
    rewrite fmap_cons. constructor; [by apply IH|]. apply Forall_fmap. rewrite Forall_forall in He, Hok.
    apply Forall_forall. intros e' He'. unfold before. simpl. destruct (Hok e' He') as [<- _]. by apply He.
  - intros l1 c l2 El. specialize (Hall (snd <$> l1) c.2 (snd <$> l2)).
    rewrite El, fmap_app, fmap_cons in Hall. destruct (Hall eq_refl) as [?|(e & [He|He] & Hk & Hna)]; [by left| |].
    + by apply elem_of_nil in He.
    + right. apply list_elem_of_fmap in He as (c' & Hc1 & Hin). exists c'. split; [done|].
      rewrite <-Hc1. split; [apply list_elem_of_fmap; by exists e|done].
Qed.
End find.

(** ** Validation of recorded offsets *)

Definition aligned (unit stop : nat) (offsets : list nat) : Prop :=
  Forall (λ o, (stop - o) mod unit = 0) offsets.

Lemma sub_occurs source ph o :
  o + length ph ≤ length source → sub source o (o + length ph) = ph ↔ occurs_at source ph o.
Proof.
  intros Ho. unfold sub, occurs_at. replace (o + length ph - o) with (length ph) by lia.
  split; [|by intros [_ ?]]. intros ?. split; [lia|done].
Qed.

Lemma validate_offsets_spec source ph unit stop from offsets :
  stop ≤ length source → (offsets = [] → from ≤ stop) →
  ∃ r, validate_offsets source ph unit stop from offsets = Some r
    ∧ ((∃ e, r = Ok e) ↔ offsets_ok source ph from offsets stop ∧ aligned unit stop offsets).
Proof.
  intros Hs. revert from. induction offsets as [|o offsets IH]; intros from Hf; cbn [validate_offsets offsets_ok].
  { eexists. split; [done|]. split; [|by eexists]. intros _. split; [by apply Hf|constructor]. }
  destruct (Nat.ltb_spec o from).
  { eexists. split; [done|]. split; [by intros [? ?]|]. intros [(? & _) _]. lia. }
  destruct (Nat.ltb_spec stop (o + length ph)).
  { eexists. split; [done|]. split; [by intros [? ?]|]. intros [(_ & _ & Hrest) _].
    apply offsets_ok_le in Hrest. lia. }
  case_bool_decide as Ha.
  { eexists. split; [done|]. split; [by intros [? ?]|]. intros [_ Hal]. by inversion Hal. }
  unfold slice. rewrite decide_True by lia. fold (sub source o (o + length ph)). simpl.
  case_bool_decide as Hb.
  { eexists. split; [done|]. split; [by intros [? ?]|]. intros [(_ & Hocc & _) _].
    apply sub_occurs in Hocc; [done|lia]. }
  destruct (IH (o + length ph)) as (r & -> & Hr); [done|]. exists r. split; [done|]. rewrite Hr.
  apply sub_occurs in Hb; [|lia].
  unfold aligned. rewrite Forall_cons. naive_solver.
Qed.

Lemma zero_unit source unit stop :
  stop ≤ length source →
  (bool_decide (drop stop source ≠ [])
   && negb (match slice (drop stop source) 0 unit with Some u => forallb (N.eqb 0) u | None => false end)) = false
  ↔ ends_cstring source unit stop.
Proof.
  intros Hs. unfold ends_cstring. rewrite andb_false_iff, bool_decide_eq_false, negb_false_iff. split.
  - intros [Hd|Hu].
    + left. apply dec_stable in Hd. apply (f_equal length) in Hd. rewrite length_drop in Hd. simpl in Hd. lia.
    + right. destruct (slice _ _ _) as [u|] eqn:E; [|done]. apply slice_sub in E as (-> & _ & Hl).
      rewrite length_drop in Hl. apply forallb_zero in Hu. unfold sub in *.
      rewrite drop_0, Nat.sub_0_r in Hu. rewrite length_take, length_drop in Hu.
      destruct (decide (unit = 0)) as [->|]; [split; [lia|by rewrite Nat.add_0_r, Nat.sub_diag]|].
      split; [lia|]. replace (stop + unit - stop) with unit by lia. rewrite Hu. f_equal. lia.
  - intros [->|[Hl Hz]]; [left; rewrite drop_ge by lia; naive_solver|]. right.
    unfold slice. rewrite decide_True by (rewrite length_drop; lia).
    unfold sub in Hz. replace (stop + unit - stop) with unit in Hz by lia.
    rewrite drop_0, Nat.sub_0_r, Hz. apply forallb_forall. intros c Hc.
    apply list_elem_of_In, elem_of_replicate in Hc as [-> _]. done.
Qed.

(** What the validation asks of one patch, besides its place. *)
Definition patch_valid (source : list N) (p : CStringPatch) : Prop :=
  ends_cstring source (prefix_code_unit_size (cs_prefix p)) (cs_nul_pos p)
  ∧ aligned (prefix_code_unit_size (cs_prefix p)) (cs_nul_pos p) (cs_offsets p).

Lemma offsets_ok_start source ph from offsets stop :
  offsets ≠ [] → offsets_ok source ph from offsets stop ↔
  from ≤ hd 0 offsets ∧ offsets_ok source ph (hd 0 offsets) offsets stop.
Proof. destruct offsets as [|o offsets]; [done|]. intros _. simpl. naive_solver lia. Qed.

Lemma validate_cstrings_spec source from patches :
  from ≤ length source → Forall (λ p, cs_offsets p ≠ []) patches →
  ∃ r, validate_cstrings source from patches = Some r
    ∧ (r = Ok tt ↔ patches_ok source from patches ∧ Forall (patch_valid source) patches).
Proof.
  intros Hf Hne. revert from Hf. induction Hne as [|p patches Hp Hne IH]; intros from Hf; cbn [validate_cstrings patches_ok].
  { eexists. split; [done|]. by split. }
  destruct (Nat.ltb_spec (length source) (cs_nul_pos p)).
  { eexists. split; [done|]. split; [done|]. intros [(_ & [_ _ ?] & _) _]. lia. }
  pose proof (zero_unit source (prefix_code_unit_size (cs_prefix p)) (cs_nul_pos p)) as Hz.
  destruct (_ && _) eqn:E.
  { eexists. split; [done|]. split; [done|]. intros [_ [[Hends _] _]%Forall_cons].
    apply Hz in Hends; congruence. }
  destruct (validate_offsets_spec source (placeholder (cs_prefix p)) (prefix_code_unit_size (cs_prefix p))
    (cs_nul_pos p) from (cs_offsets p)) as (r & -> & Hr); [done|done|]. simpl.
  clear E. pose proof (proj1 (Hz ltac:(done)) eq_refl) as E. destruct r as [e|e].
  - destruct (IH (cs_nul_pos p)) as (r & -> & Hr'); [done|]. exists r. split; [done|]. rewrite Hr'.
    destruct (proj1 Hr (ex_intro _ e eq_refl)) as [Ho Ha].
    apply offsets_ok_start in Ho as [? Ho]; [|done]. rewrite Forall_cons. unfold patch_valid at 2.
    split; [|naive_solver]. intros [? ?]. split; [|done]. split; [done|]. split; [|done]. by split.
  - eexists. split; [done|]. split; [done|]. intros [(Hs & [_ Ho _] & _) [[_ Ha] _]%Forall_cons].
    destruct (proj2 Hr) as [? ?]; [|done]. split; [|done]. by apply offsets_ok_start.
Qed.

(** The patches of recorded groups. *)
Lemma group_patches_spec e prefix cstrings acc r :
  group_patches e prefix cstrings acc = Ok r →
  ∃ new, r = acc ++ new ∧ Forall (λ p, cs_offsets p ≠ [] ∧ cs_prefix p = prefix) new.
Proof.
  revert acc. induction cstrings as [|c cstrings IH]; intros acc; simpl.
  { intros [= <-]. exists []. by rewrite app_nil_r. }
  destruct (last c) as [nul|]; [|done]. case_bool_decide; [done|].
  intros (new & -> & Hnew)%IH. eexists. split; [by rewrite <-(assoc_L (++))|]. by constructor.
Qed.

Lemma encoded_prefix_for_spec prefixes e p :
  encoded_prefix_for prefixes e = Ok p → p ∈ prefixes ∧ encoding p = e.
Proof.
  unfold encoded_prefix_for. destruct (find _ _) as [q|] eqn:E; [|done]. intros [= <-].
  apply find_some in E as [Hin He]. apply bool_decide_eq_true in He. split; [by apply list_elem_of_In|done].
Qed.

Lemma groups_patches_spec groups prefixes acc r :
  groups_patches groups prefixes acc = Ok r →
  ∃ new, r = acc ++ new ∧ Forall (λ p, cs_offsets p ≠ [] ∧ cs_prefix p ∈ prefixes) new.
Proof.
  revert acc. induction groups as [|g groups IH]; intros acc; simpl.
  { intros [= <-]. exists []. by rewrite app_nil_r. }
  destruct (encoded_prefix_for _ _) as [prefix|] eqn:E; [|done].
  destruct (group_ranges g) as [|cstrings]; [done|].
  destruct (group_patches _ _ _ _) as [acc'|] eqn:Eg; [|done].
  apply group_patches_spec in Eg as (new1 & -> & H1). intros (new2 & -> & H2)%IH.
  exists (new1 ++ new2). split; [by rewrite (assoc_L (++))|]. apply Forall_app. split; [|done].
  eapply Forall_impl; [exact H1|]. intros p [? ->]. split; [done|]. by apply encoded_prefix_for_spec in E as [? _].
Qed.

Definition start_leb (a b : CStringPatch) : bool := (patch_start a <=? patch_start b)%nat.

Lemma cstring_patches_from_groups_spec groups prefixes patches :
  cstring_patches_from_groups groups prefixes = Ok patches →
  patches ≠ [] ∧ Forall (λ p, cs_offsets p ≠ [] ∧ cs_prefix p ∈ prefixes) patches.
Proof.
  unfold cstring_patches_from_groups. destruct (groups_patches _ _ _) as [l|] eqn:E; [|done].
  apply groups_patches_spec in E as (new & -> & Hnew). simpl. destruct new as [|p new]; [done|].
  intros [= <-]. fold start_leb. split.
  - intros Hn. pose proof (insert_by_perm start_leb p (sort_by start_leb new)) as Hp. simpl in Hn.
    rewrite Hn in Hp. by apply Permutation_nil_cons in Hp.
  - change (insert_by _ p _) with (sort_by start_leb (p :: new)). by rewrite sort_by_perm.
Qed.
