(* ===== verification/PrefixText.v ===== *)
(** * Prefix replacement in text files

    [rattler/src/install/prefix_replacement/text.rs]: the occurrences to patch, the
    rules for the shebang line, the replacement by search and at recorded offsets,
    and the entry points of mod.rs that choose between text and binary files. *)
From S2P Require Import Prelude Externs Utf Subdir Offsets.
From S2P Require Import PrefixReplace PrefixBinary.

(** ** The regular expressions of the shebang rules

    The crate [regex] on the two patterns of the source; the parentheses of a group
    are left out below.
    [SHEBANG_REGEX] matches a whole text of: [#!], spaces, a path, and a rest without
    a line feed; the path is a slash and then, as long as possible, backslash-space
    pairs and characters other than space, line feed, carriage return and tab.
    [PYTHON_REGEX] matches [python], with an optional number and an optional second
    number after a dot; a digit is one of Unicode's. *)
Definition c_hash : N := 35.
Definition c_slash : N := 47.
Definition c_space : N := 32.
Definition c_newline : N := 10.

Definition is_path_char (c : N) : bool :=
  negb (bool_decide (c ∈ [c_space; c_newline; 13%N; 9%N])).

Fixpoint path_span (fuel : nat) (s : list N) : list N * list N :=
  match fuel, s with
  | S f, 92%N :: 32%N :: s' => let '(a, b) := path_span f s' in (92%N :: 32%N :: a, b)
  | S f, c :: s' => if is_path_char c then let '(a, b) := path_span f s' in (c :: a, b) else ([], s)
  | _, _ => ([], s)
  end.

(** The second and the third group. *)
Definition shebang_fun (s : list N) : option (list N * list N) :=
  r ← strip (txt "#!") s;
  let r := (span (N.eqb c_space) r).2 in
  match r with
  | c :: r' =>
      if (c =? c_slash)%N then
        let '(path, rest) := path_span (length r') r' in
        if bool_decide (c_newline ∈ rest) then None else Some (c_slash :: path, rest)
      else None
  | [] => None
  end.

Definition python_fun (digit : N → bool) (s : list N) : bool :=
  match strip (txt "python") s with
  | None => false
  | Some [] => true
  | Some r =>
      let '(major, r) := span digit r in
      bool_decide (major ≠ []) &&
      match r with
      | [] => true
      | c :: r => (c =? c_dot)%N && bool_decide (r ≠ []) && forallb digit r
      end
  end.

Class Regex := {
  unicode_digit : N → bool;
  shebang_captures : list N → option (list N * list N);
  python_is_match : list N → bool;
  unicode_digit_ascii c : (c < 128)%N → unicode_digit c = is_ascii_digit c;
  shebang_law s : shebang_captures s = shebang_fun s;
  python_law s : python_is_match s = python_fun unicode_digit s
}.

#[export, refine] Instance regex_ref : Regex := {|
  unicode_digit := is_ascii_digit;
  shebang_captures := shebang_fun;
  python_is_match := python_fun is_ascii_digit
|}.
Proof. all: done. Defined.

(** ** Strings *)

(** [str::replace] *)
Fixpoint replace_loop (fuel : nat) (from to s : list N) : list N :=
  match fuel, s with
  | S f, c :: s' =>
      match strip from s with
      | Some r => to ++ replace_loop f from to r
      | None => c :: replace_loop f from to s'
      end
  | _, _ => []
  end.
Definition str_replace (s from to : list N) : list N :=
  match from with
  | [] => to ++ (s ≫= λ c, c :: to)
  | _ => replace_loop (length s) from to s
  end.

(** [str::contains] *)
Fixpoint str_contains (s pat : list N) : bool :=
  bool_decide (is_Some (strip pat s)) || match s with [] => false | _ :: s' => str_contains s' pat end.

(** [path.rsplit_once('/').map_or(path, |(_, f)| f)] *)
Definition after_last (d : N) (s : list N) : list N := rev (span (λ c, negb (c =? d)%N) (rev s)).1.

Definition starts_with (s pat : list N) : bool := bool_decide (is_Some (strip pat s)).

(** ** The shebang line *)
Definition MAX_SHEBANG_LENGTH_LINUX : nat := 127.
Definition MAX_SHEBANG_LENGTH_MACOS : nat := 512.

Definition is_valid_shebang_length (shebang : list N) (platform : Subdir) : bool :=
  if is_linux platform || is_android platform then (str_len shebang <=? MAX_SHEBANG_LENGTH_LINUX)%nat
  else if is_osx platform || is_ios platform then (str_len shebang <=? MAX_SHEBANG_LENGTH_MACOS)%nat
  else true.

Section text.
Context `{MM : Memmem} `{RX : Regex}.

(** The quotation mark is written with its code. *)
Definition quote : N := 34.
Definition convert_shebang_to_env (shebang : list N) : list N :=
  match shebang_captures shebang with
  | Some (path, rest) =>
      let exe_name := after_last c_slash path in
      if python_is_match exe_name
      then txt "#!/bin/sh" ++ [c_newline] ++ txt "'''exec' " ++ [quote] ++ path ++ [quote] ++ rest
           ++ txt " " ++ [quote] ++ txt "$0" ++ [quote] ++ txt " " ++ [quote] ++ txt "$@" ++ [quote]
           ++ txt " #'''"
      else txt "#!/usr/bin/env " ++ exe_name ++ rest
  | None => shebang
  end.

(** [None] is the failed assertion. *)
Definition replace_shebang (shebang old new : list N) (platform : Subdir) : option (list N) :=
  if negb (starts_with shebang (txt "#!")) then None
  else if bool_decide (c_space ∈ new) then
    if negb (str_contains shebang old) then Some shebang
    else Some (str_replace (convert_shebang_to_env shebang) old new)
  else
    let shebang := str_replace shebang old new in
    if negb (starts_with shebang (txt "#!")) then Some shebang
    else if is_valid_shebang_length shebang platform then Some shebang
    else Some (convert_shebang_to_env shebang).

(** ** Occurrences *)
Definition text_rank (p : TextPatch) : nat :=
  match encoding (tp_prefix p) with
  | Utf8 => 0
  | Utf16Le | Utf16Be | Utf32Le | Utf32Be =>
      if (tp_offset p mod prefix_code_unit_size (tp_prefix p) =? 0)%nat then 1 else 2
  end.

(** One round of the selection; the last patch is the last element. *)
Definition push_patch (patches : list TextPatch) (candidate : TextPatch) : list TextPatch :=
  match last patches with
  | Some l =>
      if (tp_offset candidate <? tp_offset l + length (placeholder (tp_prefix l)))%nat then
        if (text_rank candidate <? text_rank l)%nat
        then take (length patches - 1) patches ++ [candidate]
        else patches
      else patches ++ [candidate]
  | None => patches ++ [candidate]
  end.

Definition text_candidates (source : list N) (prefixes : list EncodedPrefix) : list TextPatch :=
  prefixes ≫= λ prefix,
    (λ offset, mkTextPatch offset prefix) <$> memmem_find_iter source (placeholder prefix).

Definition offset_leb (a b : TextPatch) : bool := (tp_offset a <=? tp_offset b)%nat.

Definition find_text_patches (source : list N) (from : nat) (prefixes : list EncodedPrefix)
  : list TextPatch :=
  filter (λ p, from ≤ tp_offset p)
    (foldl push_patch [] (sort_by offset_leb (text_candidates source prefixes))).

(** ** Writing *)
Fixpoint write_text (source : list N) (last_match : nat) (patches : list TextPatch) : io IoError nat :=
  match patches with
  | [] => io_ret last_match
  | patch :: patches' =>
      write_replacement_range source last_match (tp_offset patch);;
      write_all (target (tp_prefix patch));;
      write_text source (tp_offset patch + length (placeholder (tp_prefix patch))) patches'
  end.

Definition write_patched_text (source : list N) (start : nat) (patches : list TextPatch)
  : io IoError unit :=
  last_match ⇐ write_text source start patches;
  if (last_match <? length source)%nat then write_all (drop last_match source) else io_ret tt.

Definition write_shebang_region (source : list N) (region_end : nat)
    (prefix_placeholder target_prefix : list N) (platform : Subdir) (prefixes : list EncodedPrefix)
  : io IoError unit :=
  if (region_end =? 0)%nat then io_ret tt
  else if bool_decide (prefixes = []) then
    region ⇐ io_opt (slice source 0 region_end); write_all region
  else if is_unix platform then
    byte ⇐ io_opt (source !! (region_end - 1));
    let has_newline := (byte =? c_newline)%N in
    let line_end := if has_newline then region_end - 1 else region_end in
    line ⇐ io_opt (slice source 0 line_end);
    new_shebang ⇐ io_opt (replace_shebang (from_utf8_lossy line) prefix_placeholder target_prefix platform);
    write_all (utf8 new_shebang);;
    if has_newline then newline ⇐ io_opt (slice source line_end region_end); write_all newline
    else io_ret tt
  else
    region ⇐ io_opt (slice source 0 region_end);
    write_patched_text region 0 (find_text_patches region 0 prefixes).

(** *** By search *)
Definition copy_and_replace_textual_placeholder (source prefix_placeholder target_prefix : list N)
    (platform : Subdir) : io IoError unit :=
  let prefixes := encoded_prefix_all prefix_placeholder target_prefix in
  let region_end :=
    if is_unix platform && starts_with source (txt "#!") then
      match position (N.eqb c_newline) source with
      | Some index => index + 1
      | None => length source
      end
    else 0 in
  write_shebang_region source region_end prefix_placeholder target_prefix platform prefixes;;
  write_patched_text source region_end (find_text_patches source region_end prefixes).

(** *** At recorded offsets *)
Definition validated_shebang_region_end (source : list N) (shebang_length : option nat)
  : result InconsistentOffsetsError nat :=
  if negb (starts_with source (txt "#!")) then
    match shebang_length with
    | Some _ => Err UnexpectedShebangLength
    | None => Ok 0
    end
  else
    match shebang_length with
    | None => Err MissingShebangLength
    | Some n =>
        match slice source 0 n with
        | None => Err (ShebangLengthMismatch n)
        | Some region =>
            let ends_the_line :=
              match memchr c_newline region with
              | Some index => bool_decide (index + 1 = n)
              | None => bool_decide (n = length source)
              end in
            if negb ends_the_line then Err (ShebangLengthMismatch n) else Ok n
        end
    end.

Fixpoint text_groups_patches (groups : list OffsetGroup) (prefixes : list EncodedPrefix)
    (patches : list TextPatch) : result InconsistentOffsetsError (list TextPatch) :=
  match groups with
  | [] => Ok patches
  | group :: groups' =>
      match encoded_prefix_for prefixes (group_encoding group) with
      | Err e => Err e
      | Ok prefix =>
          match group_ranges group with
          | BinaryRanges _ => Err (Invalid (RangesShapeMismatch (group_encoding group)))
          | TextRanges offsets =>
              text_groups_patches groups' prefixes
                (patches ++ ((λ offset, mkTextPatch offset prefix) <$> offsets))
          end
      end
  end.
Definition text_patches_from_groups (groups : list OffsetGroup) (prefixes : list EncodedPrefix)
  : result InconsistentOffsetsError (list TextPatch) :=
  match text_groups_patches groups prefixes [] with
  | Err e => Err e
  | Ok patches => Ok (sort_by offset_leb patches)
  end.

Fixpoint validate_text (source : list N) (region_end prev_end : nat) (patches : list TextPatch)
  : option (result InconsistentOffsetsError unit) :=
  match patches with
  | [] => Some (Ok tt)
  | patch :: patches' =>
      let offset := tp_offset patch in
      let ph := placeholder (tp_prefix patch) in
      if (offset <? region_end)%nat then Some (Err (OffsetInShebangRegion offset region_end))
      else if (offset <? prev_end)%nat then Some (Err (UnsortedOffset offset))
      else
        let end_ := offset + length ph in
        if (length source <? end_)%nat then Some (Err (OffsetOutOfRange offset (length source)))
        else
          bytes ← slice source offset end_;
          if bool_decide (bytes ≠ ph) then Some (Err (PlaceholderNotFound offset))
          else validate_text source region_end end_ patches'
  end.
Definition validate_text_patches (source : list N) (patches : list TextPatch) (region_end : nat)
  : option (result InconsistentOffsetsError unit) := validate_text source region_end region_end patches.

Definition copy_and_replace_textual_placeholder_offsets (source prefix_placeholder target_prefix : list N)
    (platform : Subdir) (groups : list OffsetGroup) (shebang_length : option nat)
  : io OffsetReplaceError unit :=
  let prefixes := encoded_prefix_all prefix_placeholder target_prefix in
  region_end ⇐ io_map_err InconsistentMetadata (io_lift (validated_shebang_region_end source shebang_length));
  patches ⇐ io_map_err InconsistentMetadata (io_lift (text_patches_from_groups groups prefixes));
  r ⇐ io_opt (validate_text_patches source patches region_end);
  io_map_err InconsistentMetadata (io_lift r);;
  io_map_err Io
    (write_shebang_region source region_end prefix_placeholder target_prefix platform prefixes);;
  io_map_err Io (write_patched_text source region_end patches).

(** ** The entry points *)
Definition copy_and_replace_placeholders (source prefix_placeholder target_prefix : list N)
    (platform : Subdir) (file_mode : FileMode) : io IoError unit :=
  match file_mode with
  | Text => copy_and_replace_textual_placeholder source prefix_placeholder target_prefix platform
  | Binary =>
      if is_windows platform then write_all source
      else copy_and_replace_cstring_placeholder source prefix_placeholder target_prefix
  end.

Definition copy_and_replace_placeholders_with_offsets (source prefix_placeholder target_prefix : list N)
    (platform : Subdir) (file_mode : FileMode) (offsets : PrefixOffsets) : io OffsetReplaceError unit :=
  if bool_decide (offsets_file_mode offsets ≠ file_mode) then
    io_fail (InconsistentMetadata (FileModeMismatch (offsets_file_mode offsets) file_mode))
  else
    match file_mode with
    | Text =>
        copy_and_replace_textual_placeholder_offsets source prefix_placeholder target_prefix platform
          (offsets_groups offsets) (offsets_shebang_length offsets)
    | Binary =>
        if is_windows platform then write_all source
        else copy_and_replace_cstring_placeholder_offsets source prefix_placeholder target_prefix
               (offsets_groups offsets)
    end.
End text.

(** ** What is written *)

Fixpoint text_spliced (source : list N) (from : nat) (patches : list TextPatch) : list N :=
  match patches with
  | [] => drop from source
  | p :: patches' =>
      sub source from (tp_offset p) ++ target (tp_prefix p)
      ++ text_spliced source (tp_offset p + length (placeholder (tp_prefix p))) patches'
  end.

(** Occurrences in order, without overlap. *)
Fixpoint text_patches_ok (source : list N) (from : nat) (patches : list TextPatch) : Prop :=
  match patches with
  | [] => from ≤ length source
  | p :: patches' =>
      from ≤ tp_offset p ∧ placeholder (tp_prefix p) ≠ []
      ∧ occurs_at source (placeholder (tp_prefix p)) (tp_offset p)
      ∧ text_patches_ok source (tp_offset p + length (placeholder (tp_prefix p))) patches'
  end.

Lemma write_text_ok source from patches d :
  text_patches_ok source from patches →
  ∃ last out, write_text source from patches d = Some (Ok last, d ++ out)
    ∧ out ++ drop last source = text_spliced source from patches.
Proof.
  revert from d. induction patches as [|p patches IH]; intros from d; simpl.
  - intros _. exists from, []. by rewrite app_nil_r.
  - intros (Hf & Hne & Hocc & Hrest). pose proof (occurs_at_bound _ _ _ Hocc Hne).
    rewrite write_range_ok by lia. unfold io_bind at 1 2, write_all. simpl.
    destruct (IH _ ((d ++ take (tp_offset p - from) (drop from source)) ++ target (tp_prefix p)) Hrest)
      as (last & out & -> & <-).
    exists last, (sub source from (tp_offset p) ++ target (tp_prefix p) ++ out). unfold sub.
    by rewrite <-!(assoc_L (++)).
Qed.

Lemma write_patched_text_ok source from patches d :
  text_patches_ok source from patches →
  write_patched_text source from patches d = Some (Ok tt, d ++ text_spliced source from patches).
Proof.
  intros Hok. unfold write_patched_text.
  destruct (write_text_ok source from patches d Hok) as (last & out & Hw & <-).
  rewrite (io_bind_ok _ _ _ _ _ Hw). destruct (Nat.ltb_spec last (length source)).
  - unfold write_all. by rewrite <-(assoc_L (++)).
  - by rewrite drop_ge, app_nil_r by done.
Qed.

(** ** The search *)
Section search_lemmas.
Context `{MM : Memmem}.

Lemma occurrences_spec fuel h n from :
  n ≠ [] → from ≤ length h → length h - from < fuel →
  offsets_ok h n from (occurrences memmem_find fuel h n from) (length h)
  ∧ ∀ i, from ≤ i → occurs_at h n i → covers n (occurrences memmem_find fuel h n from) i.
Proof.
  intros Hne. assert (0 < length n) by (destruct n; [done|simpl; lia]).
  revert from. induction fuel as [|f IH]; intros from Hf Hfu; [lia|]. cbn [occurrences].
  destruct (memmem_find (drop from h) n) as [found|] eqn:E.
  - apply memmem_find_Some in E as [Hocc Hmin]. apply occurs_at_drop in Hocc; [|done].
    pose proof (occurs_at_bound _ _ _ Hocc Hne).
    destruct (IH (from + found + length n)) as [Hok Hall]; [lia|lia|]. split.
    + simpl. split; [lia|done].
    + intros i Hi Hio. destruct (decide (i < from + found)).
      { exfalso. apply (Hmin (i - from)); [lia|]. apply occurs_at_drop; [done|].
        by replace (from + (i - from)) with i by lia. }
      destruct (decide (i < from + found + length n)).
      { exists (from + found). split; [left|lia]. }
      destruct (Hall i) as (o & Ho & ?); [lia|done|]. exists o. split; [by right|done].
  - split; [done|]. intros i Hi Hio. exfalso. apply (memmem_find_None _ _ E (i - from)).
    apply occurs_at_drop; [done|]. by replace (from + (i - from)) with i by lia.
Qed.

Lemma find_iter_spec h n :
  n ≠ [] → offsets_ok h n 0 (memmem_find_iter h n) (length h)
  ∧ ∀ i, occurs_at h n i → covers n (memmem_find_iter h n) i.
Proof.
  intros Hne. rewrite memmem_find_iter_law by done.
  destruct (occurrences_spec (S (length h)) h n 0) as [? Hall]; [done|lia|lia|].
  split; [done|]. intros i. apply Hall. lia.
Qed.

Lemma offsets_ok_elem h n from offsets stop o :
  offsets_ok h n from offsets stop → o ∈ offsets → from ≤ o ∧ occurs_at h n o.
Proof.
  revert from. induction offsets as [|x offsets IH]; intros from; simpl; [by intros _ ?%elem_of_nil|].
  intros (? & ? & Hrest) [->|Hin]%elem_of_cons; [done|]. destruct (IH _ Hrest Hin). split; [lia|done].
Qed.

(** Two occurrences of one search do not overlap. *)
Lemma offsets_ok_apart h n from offsets stop a b :
  offsets_ok h n from offsets stop → a ∈ offsets → b ∈ offsets → a < b → a + length n ≤ b.
Proof.
  revert from. induction offsets as [|x offsets IH]; intros from; simpl; [by intros _ ?%elem_of_nil|].
  intros (? & ? & Hrest) Ha Hb Hlt. apply elem_of_cons in Ha as [->|Ha], Hb as [->|Hb].
  - lia.
  - by destruct (offsets_ok_elem _ _ _ _ _ b Hrest Hb).
  - destruct (offsets_ok_elem _ _ _ _ _ a Hrest Ha). lia.
  - by eapply IH.
Qed.

Definition text_before (a b : TextPatch) : Prop :=
  tp_offset a + length (placeholder (tp_prefix a)) ≤ tp_offset b.

Lemma push_patch_spec seen kept c :
  StronglySorted text_before kept → (∀ p, p ∈ kept → p ∈ seen) →
  (∀ p, p ∈ seen → tp_offset p ≤ tp_offset c) →
  (∀ p, p ∈ seen → text_rank p = 0 → p ∈ kept) →
  (∀ p, p ∈ seen → text_rank p = 0 → text_rank c = 0 → p = c ∨ text_before p c) →
  let kept' := push_patch kept c in
  StronglySorted text_before kept' ∧ (∀ p, p ∈ kept' → p ∈ seen ++ [c])
  ∧ (∀ p, p ∈ seen ++ [c] → text_rank p = 0 → p ∈ kept').
Proof.
  intros Hs Hin Hle Hutf Hap. unfold push_patch.
  destruct (last kept) as [l|] eqn:El.
  2: { apply last_None in El as ->. simpl. split; [by repeat constructor|].
    split; intros p; [set_solver|]. intros [Hp|Hp]%elem_of_app Hr; [|done].
    specialize (Hutf p Hp Hr). by apply elem_of_nil in Hutf. }
  apply last_Some in El as [kept0 ->].
  apply StronglySorted_app in Hs as (Hb & Hs0 & _).
  assert (l ∈ kept0 ++ [l]) as Hl by (apply elem_of_app; right; left).
  pose proof (Hle l (Hin l Hl)) as Hlc.
  assert (∀ p, p ∈ kept0 → text_before p c) as Hbc.
  { intros p Hp. specialize (Hb p l Hp ltac:(left)). unfold text_before in *. lia. }
  destruct (Nat.ltb_spec (tp_offset c) (tp_offset l + length (placeholder (tp_prefix l)))) as [Hov|Hno].
  - destruct (Nat.ltb_spec (text_rank c) (text_rank l)) as [Hr|Hr].
    + replace (length (kept0 ++ [l]) - 1) with (length kept0) by (rewrite length_app; simpl; lia).
      rewrite take_app_length. split; [|split].
      * apply StronglySorted_app_2; [|done|by repeat constructor].
        by intros p q Hp ->%list_elem_of_singleton; apply Hbc.
      * intros p [Hp|Hp]%elem_of_app; apply elem_of_app; [left|by right].
        apply Hin, elem_of_app. by left.
      * intros p [Hp|Hp]%elem_of_app Hp0; apply elem_of_app; [left|by right].
        destruct (elem_of_app kept0 [l] p) as [Hk _]. destruct (Hk (Hutf p Hp Hp0)) as [?|Hpl]; [done|].
        apply list_elem_of_singleton in Hpl as ->. lia.
    + split; [apply StronglySorted_app; split_and!; [done|done|by repeat constructor]|].
      split; [intros p Hp; apply elem_of_app; left; by apply Hin|].
      intros p [Hp|Hp]%elem_of_app Hp0; [by apply Hutf|]. apply list_elem_of_singleton in Hp as ->.
      destruct (Hap l (Hin l Hl)) as [->|Hlb]; [lia|done|done|]. unfold text_before in Hlb. lia.
  - split; [|split].
    + apply StronglySorted_app_2; [|by apply StronglySorted_app_2; [| |repeat constructor]|by repeat constructor].
      intros p q [Hp|Hp]%elem_of_app ->%list_elem_of_singleton; [by apply Hbc|].
      by apply list_elem_of_singleton in Hp as ->.
    + intros p [Hp|Hp]%elem_of_app; apply elem_of_app; [left; by apply Hin|by right].
    + intros p [Hp|Hp]%elem_of_app Hp0; apply elem_of_app; [left; by apply Hutf|by right].
Qed.

(** The selection over candidates in order of their offsets. *)
Lemma push_all_patches l :
  StronglySorted (λ a b, offset_leb a b = true) l →
  (∀ i j p q, i < j → l !! i = Some p → l !! j = Some q → text_rank p = 0 → text_rank q = 0 →
     p = q ∨ text_before p q) →
  StronglySorted text_before (foldl push_patch [] l)
  ∧ (∀ p, p ∈ foldl push_patch [] l → p ∈ l)
  ∧ (∀ p, p ∈ l → text_rank p = 0 → p ∈ foldl push_patch [] l).
Proof.
  intros Hs Hap.
  induction l as [|c l IH] using rev_ind; [split; [constructor|by split]|].
  rewrite foldl_snoc. apply StronglySorted_app in Hs as (Hb & Hs & _).
  destruct IH as (H1 & H2 & H3); [done| |].
  { intros i j p q Hij Hp Hq. apply (Hap i j); [done|by apply lookup_app_l_Some..]. }
  apply push_patch_spec; try done.
  - intros p Hp. apply Nat.leb_le. exact (Hb p c Hp ltac:(left)).
  - intros p Hp Hp0 Hc0. apply list_elem_of_lookup in Hp as [i Hi].
    apply (Hap i (length l)); [by eapply lookup_lt_Some|by apply lookup_app_l_Some| |done|done].
    by rewrite lookup_app_r, Nat.sub_diag by done.
Qed.

Lemma text_rank_0 p : text_rank p = 0 ↔ encoding (tp_prefix p) = Utf8.
Proof. unfold text_rank. destruct (encoding _); [done|..]; destruct (_ =? _)%nat; done. Qed.

Lemma text_candidates_spec source prefixes p :
  p ∈ text_candidates source prefixes ↔
  tp_prefix p ∈ prefixes ∧ tp_offset p ∈ memmem_find_iter source (placeholder (tp_prefix p)).
Proof.
  unfold text_candidates. rewrite list_elem_of_bind. split.
  - intros (prefix & Hp & Hin). apply list_elem_of_fmap in Hp as (o & -> & Ho). done.
  - intros [Hin Ho]. exists (tp_prefix p). split; [|done]. apply list_elem_of_fmap.
    exists (tp_offset p). by destruct p.
Qed.

Lemma sorted_patches_ok source from patches :
  from ≤ length source → StronglySorted text_before patches →
  (∀ p, p ∈ patches → from ≤ tp_offset p ∧ placeholder (tp_prefix p) ≠ []
     ∧ occurs_at source (placeholder (tp_prefix p)) (tp_offset p)) →
  text_patches_ok source from patches.
Proof.
  intros Hfrom Hs. revert from Hfrom. induction Hs as [|p patches Hs IH Hp]; intros from Hfrom Hall; [done|].
  destruct (Hall p ltac:(left)) as (? & Hne & Hocc). simpl. split; [done|]. split; [done|]. split; [done|].
  pose proof (occurs_at_bound _ _ _ Hocc Hne). apply IH; [lia|]. rewrite Forall_forall in Hp.
  intros q Hq. destruct (Hall q ltac:(by right)) as (_ & ? & ?). split; [|done]. by apply Hp.
Qed.

(** What the search returns for the prefixes of a placeholder. *)
Lemma find_text_patches_spec source from ph tg :
  from ≤ length source →
  let patches := find_text_patches source from (encoded_prefix_all ph tg) in
  text_patches_ok source from patches
  ∧ Forall (λ p, tp_prefix p ∈ encoded_prefix_all ph tg) patches
  ∧ (ph ≠ [] → ∀ o, o ∈ memmem_find_iter source (encode Utf8 ph) → from ≤ o →
       mkTextPatch o (mkEncodedPrefix Utf8 (encode Utf8 ph) (encode Utf8 tg)) ∈ patches).
Proof.
  intros Hfrom. unfold find_text_patches. set (prefixes := encoded_prefix_all ph tg).
  assert (∀ p, p ∈ prefixes → placeholder p ≠ []) as Hne.
  { intros p [? ->]%encoded_prefix_all_spec. simpl. by rewrite encode_nil. }
  set (l := sort_by offset_leb (text_candidates source prefixes)).
  assert (∀ p, p ∈ l ↔ tp_prefix p ∈ prefixes
    ∧ tp_offset p ∈ memmem_find_iter source (placeholder (tp_prefix p))) as Hl.
  { intros p. unfold l. rewrite sort_by_perm. apply text_candidates_spec. }
  destruct (push_all_patches l) as (Hs & Hin & Hutf).
  - apply sort_by_sorted; unfold offset_leb; intros ?; intros; rewrite ?Nat.leb_gt, ?Nat.leb_le in *; lia.
  - intros i j p q Hij Hi Hj Hp0 Hq0. apply text_rank_0 in Hp0, Hq0.
    assert (p ∈ l) as Hp by (by eapply list_elem_of_lookup_2).
    assert (q ∈ l) as Hq by (by eapply list_elem_of_lookup_2).
    apply Hl in Hp as [Hp Hpo], Hq as [Hq Hqo].
    assert (tp_prefix p = tp_prefix q) as Epq.
    { pose proof Hp as [_ E1]%encoded_prefix_all_spec. pose proof Hq as [_ E2]%encoded_prefix_all_spec.
      rewrite E1, E2. congruence. }
    assert (tp_offset p ≤ tp_offset q) as Hle.
    { assert (StronglySorted (λ a b, offset_leb a b = true) l) as Hsl.
      { apply sort_by_sorted; unfold offset_leb; intros ?; intros; rewrite ?Nat.leb_gt, ?Nat.leb_le in *; lia. }
      apply Nat.leb_le. exact (StronglySorted_lookup _ _ _ _ _ _ Hsl Hij Hi Hj). }
    destruct (decide (tp_offset p = tp_offset q)) as [Eo|].
    + left. destruct p, q; simpl in *. by subst.
    + right. unfold text_before. destruct (find_iter_spec source (placeholder (tp_prefix p))) as [Hok _];
        [by apply Hne|]. rewrite <-Epq in Hqo. apply (offsets_ok_apart _ _ _ _ _ _ _ Hok); [done|done|lia].
  - split; [|split].
    + apply sorted_patches_ok; [done|by apply StronglySorted_filter|].
      intros p [Hf Hp]%list_elem_of_filter. apply Hin, Hl in Hp as [Hp Ho]. split; [done|].
      split; [by apply Hne|]. destruct (find_iter_spec source (placeholder (tp_prefix p))) as [Hok _];
        [by apply Hne|]. by apply (offsets_ok_elem _ _ _ _ _ _ Hok).
    + apply Forall_forall. intros p [_ Hp]%list_elem_of_filter. by apply Hin, Hl in Hp as [? _].
    + intros Hph o Ho Hfo. apply list_elem_of_filter. split; [done|]. apply Hutf; [|done].
      apply Hl. split; [|done]. apply encoded_prefix_all_spec. split; [done|done].
Qed.
End search_lemmas.

(** ** The shebang region *)

Lemma starts_with_app s pat : starts_with s pat = true ↔ ∃ r, s = pat ++ r.
Proof.
  unfold starts_with. rewrite bool_decide_eq_true. split.
  - intros [r Hr%strip_Some]. by exists r.
  - intros [r ->]. rewrite strip_app. by eexists.
Qed.

(** The first line with its line feed. *)
Definition first_line (source : list N) : nat :=
  match position (N.eqb c_newline) source with
  | Some index => index + 1
  | None => length source
  end.

Lemma first_line_bound source :
  starts_with source (txt "#!") = true → 2 ≤ first_line source ≤ length source.
Proof.
  intros [r ->]%starts_with_app. unfold first_line.
  destruct (position _ _) as [i|] eqn:E; [|simpl; lia].
  destruct (position_Some _ _ _ E) as (c & Hc & _). apply lookup_lt_Some in Hc.
  unfold c_newline in E. simpl in E. destruct (position _ r) as [j|]; [|done].
  injection E as <-. lia.
Qed.

Definition search_region_end (source : list N) (platform : Subdir) : nat :=
  if is_unix platform && starts_with source (txt "#!") then first_line source else 0.

Section region.
Context `{MM : Memmem} `{RX : Regex}.

(** The recorded length is accepted exactly when it is that of the first line. *)
Lemma validated_shebang_region_end_spec source shebang_length n :
  validated_shebang_region_end source shebang_length = Ok n ↔
  if starts_with source (txt "#!") then shebang_length = Some n ∧ n = first_line source
  else shebang_length = None ∧ n = 0.
Proof.
  unfold validated_shebang_region_end. destruct (starts_with _ _) eqn:Es; simpl.
  2: { destruct shebang_length; naive_solver. }
  destruct shebang_length as [m|]; [|naive_solver].
  pose proof (first_line_bound source Es) as Hb. unfold slice.
  destruct (decide (0 ≤ m ∧ m ≤ length source)) as [[_ Hm]|Hm]; [|naive_solver lia].
  rewrite drop_0, Nat.sub_0_r, memchr_law, position_take. unfold first_line in *.
  destruct (position _ source) as [i|] eqn:E; simpl.
  - destruct (position_Some _ _ _ E) as (c & Hc & _). apply lookup_lt_Some in Hc.
    destruct (Nat.ltb_spec i m); case_bool_decide; simpl; naive_solver lia.
  - case_bool_decide; simpl; naive_solver.
Qed.

Lemma from_utf8_lossy_shebang r : starts_with (from_utf8_lossy (txt "#!" ++ r)) (txt "#!") = true.
Proof.
  apply starts_with_app. unfold from_utf8_lossy. simpl. exists (lossy_loop (length r) r).
  by destruct r.
Qed.

Lemma replace_shebang_total shebang old new platform :
  starts_with shebang (txt "#!") = true → ∃ r, replace_shebang shebang old new platform = Some r.
Proof. intros Hs. unfold replace_shebang. rewrite Hs. simpl. repeat case_match; by eexists. Qed.

(** The region is written without an error. *)
Lemma write_shebang_region_ok source region_end ph tg platform :
  region_end = 0 ∨ starts_with source (txt "#!") = true ∧ 2 ≤ region_end ≤ length source →
  ∃ head, ∀ d, write_shebang_region source region_end ph tg platform (encoded_prefix_all ph tg) d
    = Some (Ok tt, d ++ head).
Proof.
  intros [->|(Hs & H2 & Hlen)]; unfold write_shebang_region.
  { exists []. intros d. simpl. by rewrite app_nil_r. }
  destruct (Nat.eqb_spec region_end 0); [lia|].
  assert (∀ k, k ≤ length source → slice source 0 k = Some (take k source)) as Hsl.
  { intros k Hk. unfold slice. rewrite decide_True by lia. by rewrite drop_0, Nat.sub_0_r. }
  case_bool_decide as Hnil.
  { exists (take region_end source). intros d. unfold io_bind, io_opt. by rewrite Hsl. }
  destruct (is_unix platform).
  - destruct (lookup_lt_is_Some_2 source (region_end - 1)) as [b Hb]; [lia|].
    set (line_end := if (b =? c_newline)%N then region_end - 1 else region_end).
    assert (2 ≤ line_end ≤ region_end) as Hle.
    { unfold line_end. destruct (N.eqb_spec b c_newline) as [->|]; [|lia].
      apply starts_with_app in Hs as [r ->]. destruct (decide (region_end = 2)) as [->|]; [done|lia]. }
    destruct (replace_shebang_total (from_utf8_lossy (take line_end source)) ph tg platform) as [sb Hsb].
    { apply starts_with_app in Hs as [r ->]. destruct line_end as [|[|k]]; [lia|lia|].
      apply from_utf8_lossy_shebang. }
    exists (utf8 sb ++ if (b =? c_newline)%N then sub source line_end region_end else []). intros d.
    unfold io_bind, io_opt, io_ret, write_all. rewrite Hb. cbn [mbind option_bind]. fold line_end.
    rewrite Hsl by lia. cbn [mbind option_bind]. rewrite Hsb. cbn [mbind option_bind].
    destruct (b =? c_newline)%N.
    + unfold slice. rewrite decide_True by lia. fold (sub source line_end region_end). cbn [mbind option_bind].
      by rewrite (assoc_L (++)).
    + by rewrite app_nil_r.
  - set (region := take region_end source).
    exists (text_spliced region 0 (find_text_patches region 0 (encoded_prefix_all ph tg))). intros d.
    unfold io_bind, io_opt. rewrite Hsl by done. cbn [mbind option_bind].
    apply write_patched_text_ok, find_text_patches_spec. lia.
Qed.
End region.

Example shebang_long :
  convert_shebang_to_env (txt "#!/opt/conda/bin/perl -w") = txt "#!/usr/bin/env perl -w".
Proof. reflexivity. Qed.
