(* ===== verification/PrefixTheorems.v ===== *)
(** * What prefix replacement guarantees

    The properties of the replacement in binary and in text files, by search and
    at recorded offsets, with their witnesses. *)
From S2P Require Import Prelude Externs Utf Subdir Offsets.
From S2P Require Import PrefixReplace PrefixBinary PrefixText.

(** ** Recorded groups

    What a producer records for a list of patches: a group per encoding that occurs,
    with the patches of that encoding in order. *)
Section grouping.
Context {A : Type} (enc : A → OffsetEncoding) (ranges : list A → OffsetRanges).

Definition with_encoding (e : OffsetEncoding) (l : list A) : list A := filter (λ a, enc a = e) l.
Definition record_with (l : list A) : list OffsetGroup :=
  (λ e, mkOffsetGroup e (ranges (with_encoding e l))) <$> filter (λ e, with_encoding e l ≠ []) DEFINED.

Lemma with_encoding_all l : (DEFINED ≫= λ e, with_encoding e l) ≡ₚ l.
Proof.
  induction l as [|a l IH]; [done|].
  assert (∀ e, with_encoding e (a :: l)
    = if decide (enc a = e) then a :: with_encoding e l else with_encoding e l) as Hc.
  { intros e. unfold with_encoding. by rewrite filter_cons. }
  unfold DEFINED in *. cbn [mbind list_bind] in *. rewrite !Hc.
  destruct (enc a); repeat destruct (decide _); try done;
    (etrans; [|apply perm_skip; exact IH]); cbn [app]; by rewrite <-?Permutation_middle.
Qed.

Lemma record_with_nil l : record_with l = [] → l = [].
Proof.
  intros E. apply Permutation_nil_r. rewrite <-with_encoding_all.
  unfold record_with in E. apply fmap_nil_inv in E. revert E. generalize DEFINED as encs.
  induction encs as [|e encs IH]; [done|]. rewrite filter_cons. destruct (decide _) as [|Hn]; [done|].
  intros E. cbn [mbind list_bind]. rewrite <-IH by done. apply dec_stable in Hn. by rewrite Hn.
Qed.

(** The groups are of distinct encodings and of one shape. *)
Lemma record_with_ok file_mode l shebang_length :
  (∀ l, shape_matches file_mode (ranges l) = true) → (is_Some shebang_length → file_mode = Text) →
  (l = [] → is_Some shebang_length) →
  prefix_offsets_new file_mode (record_with l) shebang_length
  = Ok (mkPrefixOffsets file_mode (record_with l) shebang_length).
Proof.
  intros Hshape Hs Hl. apply prefix_offsets_ok. split; [|split; [|split]].
  - unfold record_with. rewrite <-list_fmap_compose. unfold compose. simpl. rewrite list_fmap_id.
    apply NoDup_filter. unfold DEFINED. by apply (bool_decide_unpack _).
  - unfold record_with. apply Forall_fmap, Forall_forall. intros e _. apply Hshape.
  - done.
  - intros E%record_with_nil. by apply Hl.
Qed.
End grouping.

(** ** Binary files *)
Section binary.
Context `{MM : Memmem}.

Lemma all_nonempty ph tg : Forall (λ p, placeholder p ≠ []) (encoded_prefix_all ph tg).
Proof.
  apply Forall_forall. intros p [Hne ->]%encoded_prefix_all_spec. simpl. by rewrite encode_nil.
Qed.

Lemma all_growable ph tg patches :
  Forall (λ p, cs_prefix p ∈ encoded_prefix_all ph tg) patches →
  (∀ p, p ∈ cs_prefix <$> patches → is_Some (shrinks_by p)) → Forall growable patches.
Proof.
  intros Hin Hs. rewrite Forall_forall in *. intros p Hp. split.
  - apply Hs, list_elem_of_fmap. by exists p.
  - pose proof (all_nonempty ph tg) as Hne. rewrite Forall_forall in Hne. by apply Hne, Hin.
Qed.

(** What a successful replacement wrote: a file of the same length in which every
    c-string is replaced in place and every other byte is kept. *)
Definition replaced_in_place (source : list N) (patches : list CStringPatch) (out : list N) : Prop :=
  length out = length source
  ∧ (∀ i, (∀ p, p ∈ patches → ¬ patch_start p ≤ i < cs_nul_pos p) → out !! i = source !! i)
  ∧ ∀ p, p ∈ patches → sub out (patch_start p) (cs_nul_pos p) = patched_cstring source p.

Lemma patched_in_place source patches :
  Forall growable patches → patches_ok source 0 patches →
  replaced_in_place source patches (patched source 0 patches).
Proof.
  intros Hg Hok. split; [|split].
  - rewrite length_patched by done. lia.
  - intros i Hi. pose proof (lookup_patched_outside source 0 patches i Hg Hok ltac:(lia) Hi) as E.
    by rewrite Nat.sub_0_r in E.
  - intros p Hp. destruct (sub_patched_cstring source 0 patches p Hg Hok Hp) as [_ E].
    by rewrite !Nat.sub_0_r in E.
Qed.

(** The search-based replacement as one step. *)
Lemma copy_binary_eq source ph tg patches d :
  find_cstring_patches source (encoded_prefix_all ph tg) = Some patches →
  copy_and_replace_cstring_placeholder source ph tg d =
  match reject_growing_prefix (cs_prefix <$> patches) with
  | Ok _ => write_patched_cstrings source patches d
  | Err e => Some (Err e, d)
  end.
Proof.
  intros E. unfold copy_and_replace_cstring_placeholder, io_opt, io_lift, io_bind. rewrite E. simpl.
  by destruct (reject_growing_prefix _).
Qed.

(** C31: replacement in a binary file by search.  It never panics, whatever the
    bytes of the file, and finds c-strings in order, without overlap, that end at a
    zero code unit or at the end of the file.  When the target prefix does not fit
    one that occurs, the error names its encoding and nothing was written.
    Otherwise the output has the length of the file, every byte outside the
    c-strings is kept, and in each of them the occurrences are replaced and the gap
    is filled with zeros at its end. *)
Theorem binary_replacement_in_place (source ph tg d : list N) :
  ∃ patches, find_cstring_patches source (encoded_prefix_all ph tg) = Some patches
    ∧ patches_ok source 0 patches
    ∧ Forall (found_ok source (encoded_prefix_all ph tg)) patches
    ∧ ((∃ p, p ∈ patches ∧ length (target (cs_prefix p)) > length (placeholder (cs_prefix p))
          ∧ copy_and_replace_cstring_placeholder source ph tg d
            = Some (Err (GrowingPrefix (encoding (cs_prefix p))), d))
       ∨ (∀ p, p ∈ patches → length (target (cs_prefix p)) ≤ length (placeholder (cs_prefix p)))
         ∧ ∃ out, copy_and_replace_cstring_placeholder source ph tg d = Some (Ok tt, d ++ out)
             ∧ replaced_in_place source patches out).
Proof.
  destruct (find_cstring_patches_ok source _ (all_nonempty ph tg)) as (cands & patches & _ & E & Hok & Hf & _).
  exists patches. split; [done|]. split; [done|]. split; [done|].
  rewrite (copy_binary_eq source ph tg patches d E).
  pose proof (reject_growing_prefix_spec (cs_prefix <$> patches)) as Hr.
  assert (Forall (λ p, cs_prefix p ∈ encoded_prefix_all ph tg) patches) as Hin.
  { eapply Forall_impl; [exact Hf|]. by intros p []. }
  unfold shrinks_by in Hr. destruct (reject_growing_prefix _) as [u|e].
  - right. split.
    + intros p Hp. destruct (Hr (cs_prefix p)) as [k Hk]; [apply list_elem_of_fmap; by exists p|].
      destruct (Nat.leb_spec (length (target (cs_prefix p))) (length (placeholder (cs_prefix p)))); [done|].
      done.
    + assert (Forall growable patches) as Hg by (by apply (all_growable ph tg)).
      exists (patched source 0 patches). rewrite write_patched_cstrings_ok by done.
      split; [done|by apply patched_in_place].
  - left. destruct Hr as (q & Hq & Hs & ->). apply list_elem_of_fmap in Hq as (p & -> & Hp).
    exists p. split; [done|]. split; [|done].
    destruct (Nat.leb_spec (length (target (cs_prefix p))) (length (placeholder (cs_prefix p)))); [done|lia].
Qed.

(** The candidates under UTF-8 are apart and cover every occurrence. *)
Lemma utf8_candidates source ph tg cands :
  ph ≠ [] → 0%N ∉ ph → find_candidates source (encoded_prefix_all ph tg) = Some cands →
  (∀ a b, a ∈ cands → b ∈ cands → a.1 = 0 → b.1 = 0 → a.2 ≠ b.2 → apart a.2 b.2)
  ∧ ∀ i, occurs_at source (encode Utf8 ph) i →
      ∃ c, c ∈ cands ∧ c.1 = 0 ∧ covers (encode Utf8 ph) (cs_offsets c.2) i.
Proof.
  intros Hne Hz E. pose proof (all_nonempty ph tg) as Hall.
  pose proof (encoded_prefix_all_encodings ph tg Hne) as Henc.
  set (prefixes := encoded_prefix_all ph tg) in *.
  destruct prefixes as [|u rest] eqn:Ep; [done|]. rewrite fmap_cons in Henc. injection Henc as Hu Hrest.
  assert (u = mkEncodedPrefix Utf8 (encode Utf8 ph) (encode Utf8 tg)) as ->.
  { assert (u ∈ encoded_prefix_all ph tg) as Hin by (subst prefixes; rewrite Ep; left).
    apply encoded_prefix_all_spec in Hin as [_ Hin]. by rewrite Hu in Hin. }
  set (u := mkEncodedPrefix _ _ _) in *. apply Forall_cons in Hall as [Hune Hrne]. simpl in Hune.
  destruct (candidates_loop_utf8 (S (length source)) source u 0 0 [] []) as (new & Hnew & Hsort & Hcov);
    [done|done|intros H; apply Hz, utf8_zero, H|lia|lia| |].
  { split; [constructor|constructor|by left|lia]. }
  destruct (candidates_loop_ok (S (length source)) source u [0] 0 []) as (new' & Hnew' & Hok);
    [done|lia|lia|done|]. rewrite Hnew in Hnew'. injection Hnew' as <-.
  rewrite app_nil_l in Hnew. rewrite app_nil_l in Hsort. setoid_rewrite app_nil_l in Hcov.
  cbn [placeholder u] in Hcov.
  unfold find_candidates in E. cbn [for_opt] in E.
  change (replicate (prefix_code_unit_size u) 0) with [0] in E. rewrite Hnew in E. cbn [mbind option_bind] in E.
  destruct (for_opt_ind (λ seen cands', ∃ more, cands' = new ++ more ∧ Forall (λ c, c.1 ≠ 0) more) rest
    (λ prefix candidates, candidates_loop (S (length source)) source prefix
       (replicate (prefix_code_unit_size prefix) 0) 0 candidates) new) as (s & Es & more & -> & Hmore).
  - exists []. by rewrite app_nil_r.
  - intros seen x s (more & -> & Hm) Hx. rewrite Forall_forall in Hrne.
    destruct (candidates_loop_ok (S (length source)) source x (replicate (prefix_code_unit_size x) 0) 0 (new ++ more))
      as (nx & -> & Hnx); [by apply Hrne|lia|lia|apply length_replicate|].
    eexists. split; [done|]. exists (more ++ nx). split; [by rewrite (assoc_L (++))|].
    apply Forall_app. split; [done|]. eapply Forall_impl; [exact Hnx|]. intros c [_ Hrank _ _ _] H0.
    apply Hrank in H0. assert (encoding x ∈ encoding <$> rest) as He by (apply list_elem_of_fmap; by exists x).
    rewrite Hrest, H0 in He. rewrite !elem_of_cons, elem_of_nil in He. naive_solver.
  - rewrite Es in E. injection E as <-. rewrite Forall_forall in Hmore.
    assert (∀ a, a ∈ new ++ more → a.1 = 0 → a ∈ new) as Hin.
    { intros a [?|Ha]%elem_of_app H0; [done|]. by destruct (Hmore a Ha). }
    split.
    + intros a b Ha Hb Ha0 Hb0 Hab.
      assert (a.2 ∈ new.*2) as Ha' by (apply list_elem_of_fmap; eauto).
      assert (b.2 ∈ new.*2) as Hb' by (apply list_elem_of_fmap; eauto).
      apply list_elem_of_lookup in Ha' as [i Hi], Hb' as [j Hj].
      destruct (Nat.lt_trichotomy i j) as [Hlt|[->|Hlt]].
      * left. by apply (StronglySorted_lookup before new.*2 i j).
      * congruence.
      * right. by apply (StronglySorted_lookup before new.*2 j i).
    + intros i Hi. destruct (Hcov i Hi) as (p & Hp & Hcover). apply list_elem_of_fmap in Hp as (c & -> & Hc).
      exists c. split; [apply elem_of_app; by left|]. rewrite Forall_forall in Hok.
      split; [|done]. destruct (Hok c Hc) as [_ Hrank _ _ _]. by apply Hrank.
Qed.

(** The search misses nothing.  Every UTF-8 occurrence of a placeholder without a
    NUL character lies in a c-string that is patched, and is one of its patched
    occurrences or overlaps one.  A candidate under any encoding that is not patched
    overlaps a patched one that comes before it in the order of preference. *)
Theorem binary_search_complete (source ph tg : list N) (Hz : 0%N ∉ ph) :
  ∃ cands patches, find_candidates source (encoded_prefix_all ph tg) = Some cands
    ∧ find_cstring_patches source (encoded_prefix_all ph tg) = Some patches
    ∧ (∀ i, ph ≠ [] → occurs_at source (utf8 ph) i →
         ∃ p, p ∈ patches ∧ encoding (cs_prefix p) = Utf8 ∧ covers (utf8 ph) (cs_offsets p) i)
    ∧ (∀ c, c ∈ cands → c.2 ∈ patches ∨
         ∃ c', c' ∈ cands ∧ candidate_leb c' c = true ∧ c'.2 ∈ patches ∧ ¬ apart c'.2 c.2).
Proof.
  destruct (find_cstring_patches_ok source _ (all_nonempty ph tg)) as (cands & patches & Ec & E & _ & _ & _ & Hkeep).
  destruct (find_candidates_ok source _ (all_nonempty ph tg)) as (cands' & Ec' & Hok).
  rewrite Ec in Ec'. injection Ec' as <-. rewrite Forall_forall in Hok.
  assert (∀ c, c ∈ cands → c.2 ∈ patches ∨
    ∃ c', c' ∈ cands ∧ candidate_leb c' c = true ∧ c'.2 ∈ patches ∧ ¬ apart c'.2 c.2) as Hbest.
  { intros c Hc. rewrite <-(sort_by_perm candidate_leb) in Hc.
    destruct (list_elem_of_split _ _ Hc) as (l1 & l2 & El).
    destruct (Hkeep l1 c l2 El) as [?|(c' & Hc' & ? & ?)]; [by left|]. right. exists c'.
    split; [rewrite <-(sort_by_perm candidate_leb), El; apply elem_of_app; by left|]. split; [|done].
    pose proof (sort_by_sorted candidate_leb cands candidate_leb_total candidate_leb_trans) as Hs.
    rewrite El in Hs. apply StronglySorted_app in Hs as (Hs & _ & _). apply Hs; [done|left]. }
  exists cands, patches. split; [done|]. split; [done|]. split; [|done].
  intros i Hne Hi. destruct (utf8_candidates source ph tg cands Hne Hz Ec) as [Hap Hcov].
  destruct (Hcov i Hi) as (c & Hc & Hc0 & Hcv). exists c.2. split.
  - destruct (Hbest c Hc) as [?|(c' & Hc' & Hle & Hp & Hna)]; [done|].
    assert (c'.1 = 0) as Hc0'.
    { unfold candidate_leb in Hle. rewrite Hc0, orb_true_iff, andb_true_iff, Nat.ltb_lt, Nat.eqb_eq in Hle. lia. }
    destruct (decide (c'.2 = c.2)) as [<-|Hd]; [done|]. by destruct Hna; apply Hap.
  - split; [|done]. destruct (Hok c Hc) as (prefix & _ & [-> Hrank _ _ _]). by apply Hrank.
Qed.

(** *** At recorded offsets *)

Lemma copy_offsets_eq source ph tg groups d :
  copy_and_replace_cstring_placeholder_offsets source ph tg groups d =
  match cstring_patches_from_groups groups (encoded_prefix_all ph tg) with
  | Err e => Some (Err (InconsistentMetadata e), d)
  | Ok patches =>
      r ← validate_cstring_patches source patches;
      match r with
      | Err e => Some (Err (InconsistentMetadata e), d)
      | Ok _ =>
          match reject_growing_prefix (cs_prefix <$> patches) with
          | Err e => Some (Err (Io e), d)
          | Ok _ => io_map_err Io (write_patched_cstrings source patches) d
          end
      end
  end.
Proof.
  unfold copy_and_replace_cstring_placeholder_offsets, io_bind, io_map_err, io_lift, io_opt. simpl.
  destruct (cstring_patches_from_groups _ _) as [patches|e]; simpl; [|done].
  destruct (validate_cstring_patches _ _) as [[[]|e]|]; simpl; [|done..].
  by destruct (reject_growing_prefix _).
Qed.

(** C32: replacement in a binary file at recorded offsets, which are not trusted.  It
    never panics and never writes before it has decided: either the offsets do not
    fit the file, or the target prefix does not fit, and nothing was written; or they
    describe c-strings in order that hold the placeholder and end where a c-string
    can end, and the result is the replacement in place. *)
Theorem binary_offsets_in_place (source ph tg : list N) (groups : list OffsetGroup) (d : list N) :
  (∃ e, copy_and_replace_cstring_placeholder_offsets source ph tg groups d
        = Some (Err (InconsistentMetadata e), d))
  ∨ (∃ e, copy_and_replace_cstring_placeholder_offsets source ph tg groups d
          = Some (Err (Io (GrowingPrefix e)), d))
  ∨ ∃ patches out, cstring_patches_from_groups groups (encoded_prefix_all ph tg) = Ok patches
      ∧ patches_ok source 0 patches ∧ Forall (patch_valid source) patches
      ∧ copy_and_replace_cstring_placeholder_offsets source ph tg groups d = Some (Ok tt, d ++ out)
      ∧ replaced_in_place source patches out.
Proof.
  rewrite copy_offsets_eq. destruct (cstring_patches_from_groups _ _) as [patches|e] eqn:E; [|left; by eexists].
  apply cstring_patches_from_groups_spec in E as [Hne Hp].
  destruct (validate_cstrings_spec source 0 patches) as (r & Er & Hr);
    [lia|eapply Forall_impl; [exact Hp|]; by intros ? []|].
  unfold validate_cstring_patches. rewrite Er. simpl.
  destruct r as [[]|e]; [|left; by eexists]. right. destruct (proj1 Hr eq_refl) as [Hok Hv].
  pose proof (reject_growing_prefix_spec (cs_prefix <$> patches)) as Hg.
  destruct (reject_growing_prefix _) as [u|e].
  - right. assert (Forall growable patches) as Hgr.
    { apply (all_growable ph tg); [|done]. eapply Forall_impl; [exact Hp|]. by intros ? []. }
    exists patches, (patched source 0 patches). split; [done|]. split; [done|]. split; [done|].
    unfold io_map_err. rewrite write_patched_cstrings_ok by done. simpl.
    split; [done|by apply patched_in_place].
  - left. destruct Hg as (p & _ & _ & ->). by eexists.
Qed.

(** The groups a producer records for what the search finds: the c-strings of each
    encoding, each with its occurrences and its terminator. *)
Definition record_cstring (p : CStringPatch) : list nat := cs_offsets p ++ [cs_nul_pos p].
Definition patches_of : OffsetEncoding → list CStringPatch → list CStringPatch :=
  with_encoding (λ p, encoding (cs_prefix p)).
Definition record_groups : list CStringPatch → list OffsetGroup :=
  record_with (λ p, encoding (cs_prefix p)) (λ ps, BinaryRanges (record_cstring <$> ps)).

Lemma group_patches_record e prefix ps acc :
  Forall (λ p, cs_offsets p ≠ [] ∧ cs_prefix p = prefix) ps →
  group_patches e prefix (record_cstring <$> ps) acc = Ok (acc ++ ps).
Proof.
  intros Hps. revert acc. induction Hps as [|p ps [Hne Hp] Hps IH]; intros acc; simpl; [by rewrite app_nil_r|].
  unfold record_cstring at 1. rewrite last_snoc.
  assert (take (length (record_cstring p) - 1) (record_cstring p) = cs_offsets p) as ->.
  { unfold record_cstring. rewrite length_app. simpl. by rewrite Nat.add_sub, take_app_length. }
  rewrite bool_decide_eq_false_2 by done. rewrite IH, <-(assoc_L (++)). simpl. do 2 f_equal.
  rewrite <-Hp. by destruct p.
Qed.

Lemma encoded_prefix_for_all ph tg p :
  p ∈ encoded_prefix_all ph tg → encoded_prefix_for (encoded_prefix_all ph tg) (encoding p) = Ok p.
Proof.
  intros Hp. unfold encoded_prefix_for. destruct (find _ _) as [q|] eqn:E.
  - apply find_some in E as [Hq He]. apply bool_decide_eq_true in He. apply list_elem_of_In in Hq.
    apply encoded_prefix_all_spec in Hq as [_ Hq], Hp as [_ Hp]. by rewrite Hp, Hq, He.
  - apply list_elem_of_In in Hp. pose proof (find_none _ _ E p Hp) as H. by apply bool_decide_eq_false in H.
Qed.

Lemma groups_patches_record ph tg patches encs acc :
  Forall (λ p, cs_offsets p ≠ [] ∧ cs_prefix p ∈ encoded_prefix_all ph tg) patches →
  groups_patches ((λ e, mkOffsetGroup e (BinaryRanges (record_cstring <$> patches_of e patches)))
    <$> filter (λ e, patches_of e patches ≠ []) encs) (encoded_prefix_all ph tg) acc
  = Ok (acc ++ (encs ≫= λ e, patches_of e patches)).
Proof.
  intros Hps. revert acc. induction encs as [|e encs IH]; intros acc; [by rewrite app_nil_r|].
  cbn [mbind list_bind]. rewrite filter_cons. destruct (decide (patches_of e patches ≠ [])) as [Hne|Hnil].
  - rewrite fmap_cons. cbn [groups_patches group_encoding group_ranges].
    rewrite Forall_forall in Hps.
    assert (∀ p, p ∈ patches_of e patches → p ∈ patches ∧ encoding (cs_prefix p) = e) as Hin.
    { intros p [? ?]%list_elem_of_filter. done. }
    destruct (patches_of e patches) as [|p0 ps0] eqn:Ep0; [done|].
    destruct (Hin p0 ltac:(left)) as [Hp0 He0]. destruct (Hps p0 Hp0) as [_ Hpre0].
    rewrite <-He0 at 1. rewrite (encoded_prefix_for_all ph tg (cs_prefix p0) Hpre0).
    rewrite group_patches_record; [rewrite IH; by rewrite (assoc_L (++))|].
    apply Forall_forall. intros p Hp. destruct (Hin p Hp) as [Hpp Hpe]. destruct (Hps p Hpp) as [? Hpre].
    split; [done|]. apply encoded_prefix_all_spec in Hpre as [_ ->], Hpre0 as [_ ->]. by rewrite Hpe, He0.
  - apply dec_stable in Hnil. rewrite Hnil. apply IH.
Qed.

(** The recorded groups satisfy the format. *)
Lemma record_groups_ok patches :
  Forall (λ p, cs_offsets p ≠ []) patches →
  Forall (λ g, offset_group_new (group_encoding g) (group_ranges g) = Ok g) (record_groups patches).
Proof.
  intros Hp. unfold record_groups, record_with. apply Forall_fmap, Forall_forall. intros e [Hne _]%list_elem_of_filter.
  unfold offset_group_new. simpl. rewrite bool_decide_eq_false_2 by (by intros ?%fmap_nil_inv).
  destruct (existsb _ _) eqn:E; [|done]. exfalso. apply existsb_exists in E as (l & Hin & Hlen).
  apply list_elem_of_In, list_elem_of_fmap in Hin as (p & -> & [_ Hin]%list_elem_of_filter).
  rewrite Forall_forall in Hp. specialize (Hp p Hin). apply Nat.ltb_lt in Hlen.
  unfold record_cstring in Hlen. rewrite length_app in Hlen. destruct (cs_offsets p); [done|]. simpl in Hlen. lia.
Qed.

Lemma patches_start_lt source from patches :
  Forall (λ p, placeholder (cs_prefix p) ≠ []) patches → patches_ok source from patches →
  StronglySorted (λ a b, patch_start a < patch_start b) patches.
Proof.
  intros Hne. revert from. induction Hne as [|p patches Hp Hne IH]; intros from; simpl; [constructor|].
  intros (Hf & [Hn Ho Hs] & Hrest). constructor; [by eapply IH|].
  assert (patch_start p < cs_nul_pos p) as Hlt.
  { unfold patch_start in *. destruct (cs_offsets p) as [|o offsets]; [done|]. simpl in *.
    destruct Ho as (_ & _ & Ho%offsets_ok_le). destruct (placeholder (cs_prefix p)); [done|]. simpl in Ho. lia. }
  clear -Hrest Hlt. revert Hrest Hlt. generalize (cs_nul_pos p) as k, (patch_start p) as i.
  induction patches as [|q patches IH]; intros k i Hrest Hlt; [constructor|]. simpl in Hrest.
  destruct Hrest as (Hk & Hq & Hrest). constructor; [lia|]. eapply IH; [exact Hrest|].
  apply patch_ok_le in Hq. lia.
Qed.

Lemma sort_record patches l :
  StronglySorted (λ a b, patch_start a < patch_start b) patches → l ≡ₚ patches →
  sort_by start_leb l = patches.
Proof.
  intros Hs Hp. apply (StronglySorted_unique_strong (λ a b, start_leb a b = true)).
  - intros a b Ha Hb Hab Hba. rewrite sort_by_perm, Hp in Ha.
    unfold start_leb in *. apply Nat.leb_le in Hab, Hba.
    apply list_elem_of_lookup in Ha as [i Hi], Hb as [j Hj].
    destruct (Nat.lt_trichotomy i j) as [Hij|[->|Hij]]; [|congruence|].
    + pose proof (StronglySorted_lookup _ _ _ _ _ _ Hs Hij Hi Hj) as H. simpl in H. lia.
    + pose proof (StronglySorted_lookup _ _ _ _ _ _ Hs Hij Hj Hi) as H. simpl in H. lia.
  - apply sort_by_sorted; unfold start_leb; intros ?; intros.
    + rewrite Nat.leb_gt in *. apply Nat.leb_le. lia.
    + rewrite Nat.leb_le in *. lia.
  - clear -Hs. induction Hs as [|x k Hk IH Hx]; constructor; [done|]. eapply Forall_impl; [exact Hx|].
    unfold start_leb. intros y Hy. apply Nat.leb_le. simpl in Hy. lia.
  - by rewrite sort_by_perm.
Qed.

Lemma found_patches source ph tg patches :
  find_cstring_patches source (encoded_prefix_all ph tg) = Some patches →
  patches_ok source 0 patches ∧ Forall (found_ok source (encoded_prefix_all ph tg)) patches
  ∧ Forall (λ p, cs_offsets p ≠ [] ∧ cs_prefix p ∈ encoded_prefix_all ph tg) patches.
Proof.
  intros E. destruct (find_cstring_patches_ok source _ (all_nonempty ph tg)) as (cands & ps & _ & E' & Hok & Hf & _).
  rewrite E in E'. injection E' as <-. split; [done|]. split; [done|].
  assert (Forall (λ p, cs_offsets p ≠ []) patches) as Hne.
  { clear -Hok. revert Hok. generalize 0. induction patches as [|p patches IH]; intros from; simpl; [done|].
    intros (_ & [? _ _] & H). constructor; [done|by eapply IH]. }
  rewrite Forall_forall in *. intros p Hp. split; [by apply Hne|]. by destruct (Hf p Hp).
Qed.

(** Both ways give the same file.  The offsets a producer records for the
    c-strings that the search finds, when these are aligned to their terminators as
    the format asks, are accepted as a valid list of groups, and the replacement at
    these offsets behaves as the replacement by search, errors included. *)
Theorem recorded_offsets_agree (source ph tg : list N) (patches : list CStringPatch) (d : list N)
  (Hfound : find_cstring_patches source (encoded_prefix_all ph tg) = Some patches)
  (Hne : patches ≠ [])
  (Hal : Forall (λ p, aligned (prefix_code_unit_size (cs_prefix p)) (cs_nul_pos p) (cs_offsets p)) patches) :
  prefix_offsets_new Binary (record_groups patches) None
    = Ok (mkPrefixOffsets Binary (record_groups patches) None)
  ∧ Forall (λ g, offset_group_new (group_encoding g) (group_ranges g) = Ok g) (record_groups patches)
  ∧ copy_and_replace_cstring_placeholder_offsets source ph tg (record_groups patches) d
    = io_map_err Io (copy_and_replace_cstring_placeholder source ph tg) d.
Proof.
  destruct (found_patches source ph tg patches Hfound) as (Hok & Hf & Hp).
  split; [|split].
  - by apply record_with_ok; [|intros []|].
  - apply record_groups_ok. eapply Forall_impl; [exact Hp|]. by intros ? [].
  - rewrite copy_offsets_eq. unfold io_map_err. rewrite (copy_binary_eq source ph tg patches d Hfound).
    assert (cstring_patches_from_groups (record_groups patches) (encoded_prefix_all ph tg) = Ok patches) as ->.
    { unfold cstring_patches_from_groups, record_groups, record_with. fold patches_of.
      rewrite (groups_patches_record ph tg) by done. rewrite app_nil_l.
      fold start_leb. pose proof (with_encoding_all (λ p, encoding (cs_prefix p)) patches) as Hperm.
      fold patches_of in Hperm.
      destruct (DEFINED ≫= _) as [|q qs] eqn:Eq.
      - by apply Permutation_nil_l in Hperm.
      - f_equal. apply sort_record; [|done]. eapply patches_start_lt; [|exact Hok].
        eapply Forall_impl; [exact Hp|]. intros p [_ Hin]. pose proof (all_nonempty ph tg) as Hall.
        rewrite Forall_forall in Hall. by apply Hall. }
    destruct (validate_cstrings_spec source 0 patches) as (r & Er & Hr);
      [lia|eapply Forall_impl; [exact Hp|]; by intros ? []|].
    unfold validate_cstring_patches. rewrite Er. rewrite (proj2 Hr).
    + simpl. by destruct (reject_growing_prefix _).
    + split; [done|]. rewrite Forall_forall in *. intros p Hin. split; [|by apply Hal].
      by destruct (Hf p Hin).
Qed.
End binary.

(** A file with one c-string that holds the placeholder twice. *)
Definition sample_source : list N := txt "x/old/bin:/old" ++ [0%N] ++ txt "y".
Definition sample_placeholder : list N := txt "/old".
Definition sample_target : list N := txt "/a".
Definition sample_patches : list CStringPatch :=
  [mkCStringPatch [1; 10] 14 (mkEncodedPrefix Utf8 (txt "/old") (txt "/a"))].

Lemma binary_search_complete_witness :
  0%N ∉ sample_placeholder
  ∧ ∃ patches, find_cstring_patches (MM := memmem_ref) sample_source
                 (encoded_prefix_all sample_placeholder sample_target) = Some patches
      ∧ ∃ p, p ∈ patches ∧ encoding (cs_prefix p) = Utf8 ∧ covers (utf8 sample_placeholder) (cs_offsets p) 10.
Proof.
  assert (0%N ∉ sample_placeholder) as Hz by (apply (bool_decide_unpack _); vm_compute; exact I).
  split; [exact Hz|].
  destruct (binary_search_complete (MM := memmem_ref) sample_source sample_placeholder sample_target Hz)
    as (cands & patches & _ & Hp & Hall & _).
  exists patches. split; [exact Hp|]. apply Hall; [discriminate|].
  apply (bool_decide_unpack _). vm_compute. exact I.
Defined.

Lemma recorded_offsets_agree_witness :
  find_cstring_patches (MM := memmem_ref) sample_source
    (encoded_prefix_all sample_placeholder sample_target) = Some sample_patches
  ∧ copy_and_replace_cstring_placeholder_offsets sample_source sample_placeholder sample_target
      [mkOffsetGroup Utf8 (BinaryRanges [[1; 10; 14]])] []
    = Some (Ok tt, txt "x/a/bin:/a" ++ [0; 0; 0; 0; 0]%N ++ txt "y").
Proof.
  assert (find_cstring_patches (MM := memmem_ref) sample_source
    (encoded_prefix_all sample_placeholder sample_target) = Some sample_patches) as Hf
    by (vm_compute; reflexivity).
  split; [exact Hf|].
  destruct (recorded_offsets_agree (MM := memmem_ref) sample_source sample_placeholder sample_target
    sample_patches [] Hf ltac:(discriminate)) as (_ & _ & E).
  - apply (bool_decide_unpack _). vm_compute. exact I.
  - change (record_groups sample_patches) with [mkOffsetGroup Utf8 (BinaryRanges [[1; 10; 14]])] in E.
    rewrite E. vm_compute. reflexivity.
Defined.

(** ** Text files *)
Section text.
Context `{MM : Memmem} `{RX : Regex}.

Lemma search_region_ok source platform :
  search_region_end source platform = 0
  ∨ starts_with source (txt "#!") = true ∧ 2 ≤ search_region_end source platform ≤ length source.
Proof.
  unfold search_region_end. destruct (is_unix platform); [|by left].
  destruct (starts_with source (txt "#!")) eqn:E; [|by left]. right. split; [done|]. by apply first_line_bound.
Qed.

Lemma region_le source n :
  n = 0 ∨ starts_with source (txt "#!") = true ∧ 2 ≤ n ≤ length source → n ≤ length source.
Proof. intros [->|(_ & _ & ?)]; [lia|done]. Qed.

Lemma copy_text_eq source ph tg platform :
  copy_and_replace_textual_placeholder source ph tg platform =
  (write_shebang_region source (search_region_end source platform) ph tg platform (encoded_prefix_all ph tg);;
   write_patched_text source (search_region_end source platform)
     (find_text_patches source (search_region_end source platform) (encoded_prefix_all ph tg))).
Proof. done. Qed.

(** C33: replacement in a text file by search.  It never fails and never panics: the
    shebang region, if the platform has one, is followed by the rest of the file in
    which occurrences of the encoded placeholder, in order and without overlap, are
    replaced by the target under the same encoding.  Outside the region every UTF-8
    match of the leftmost search of the whole file is replaced. *)
Theorem text_replacement_correct (source ph tg : list N) (platform : Subdir) :
  let region_end := search_region_end source platform in
  let patches := find_text_patches source region_end (encoded_prefix_all ph tg) in
  (∃ head, (region_end = 0 → head = []) ∧ ∀ d,
     copy_and_replace_textual_placeholder source ph tg platform d
     = Some (Ok tt, d ++ head ++ text_spliced source region_end patches))
  ∧ text_patches_ok source region_end patches
  ∧ Forall (λ p, tp_prefix p ∈ encoded_prefix_all ph tg) patches
  ∧ (∀ i, ph ≠ [] → i ∈ memmem_find_iter source (utf8 ph) → region_end ≤ i →
       mkTextPatch i (mkEncodedPrefix Utf8 (utf8 ph) (utf8 tg)) ∈ patches).
Proof.
  intros region_end patches. pose proof (search_region_ok source platform) as Hr.
  destruct (find_text_patches_spec source region_end ph tg) as (Hok & Hin & Hutf); [by apply region_le|].
  split; [|split; [done|]; split; [done|]; intros i Hne; by apply Hutf].
  destruct (write_shebang_region_ok source region_end ph tg platform Hr) as [head Hhead].
  exists head. split.
  - intros H0. specialize (Hhead []). rewrite H0 in Hhead. cbn in Hhead. by injection Hhead as <-.
  - intros d. rewrite copy_text_eq. rewrite (io_bind_ok _ _ _ _ _ (Hhead d)).
    rewrite write_patched_text_ok by done. by rewrite (assoc_L (++)).
Qed.

(** *** At recorded offsets *)
Lemma validate_text_spec source region_end from patches :
  region_end ≤ from → from ≤ length source → Forall (λ p, placeholder (tp_prefix p) ≠ []) patches →
  ∃ r, validate_text source region_end from patches = Some r
    ∧ (r = Ok tt ↔ text_patches_ok source from patches).
Proof.
  intros Hre Hf Hne. revert from Hre Hf.
  induction Hne as [|p patches Hp Hne IH]; intros from Hre Hf; cbn [validate_text text_patches_ok].
  { eexists. by split. }
  destruct (Nat.ltb_spec (tp_offset p) region_end).
  { eexists. split; [done|]. split; [done|]. lia. }
  destruct (Nat.ltb_spec (tp_offset p) from).
  { eexists. split; [done|]. split; [done|]. lia. }
  destruct (Nat.ltb_spec (length source) (tp_offset p + length (placeholder (tp_prefix p)))).
  { eexists. split; [done|]. split; [done|]. intros (_ & _ & Ho & _).
    pose proof (occurs_at_bound _ _ _ Ho Hp). lia. }
  unfold slice. rewrite decide_True by lia.
  fold (sub source (tp_offset p) (tp_offset p + length (placeholder (tp_prefix p)))). simpl.
  case_bool_decide as Hb.
  { eexists. split; [done|]. split; [done|]. intros (_ & _ & Ho%sub_occurs & _); done. }
  apply sub_occurs in Hb; [|done].
  destruct (IH (tp_offset p + length (placeholder (tp_prefix p)))) as (r & -> & Hr); [lia|done|].
  exists r. split; [done|]. rewrite Hr. naive_solver.
Qed.

Lemma text_groups_patches_spec groups prefixes acc r :
  text_groups_patches groups prefixes acc = Ok r →
  ∃ new, r = acc ++ new ∧ Forall (λ p, tp_prefix p ∈ prefixes) new.
Proof.
  revert acc. induction groups as [|g groups IH]; intros acc; simpl.
  { intros [= <-]. exists []. by rewrite app_nil_r. }
  destruct (encoded_prefix_for _ _) as [prefix|] eqn:E; [|done].
  destruct (group_ranges g) as [offsets|]; [|done]. intros (new & -> & Hnew)%IH.
  eexists. split; [by rewrite <-(assoc_L (++))|]. apply Forall_app. split; [|done].
  apply Forall_fmap, Forall_forall. intros o _. simpl. by apply encoded_prefix_for_spec in E as [? _].
Qed.

Lemma copy_text_offsets_eq source ph tg platform groups shebang_length d :
  copy_and_replace_textual_placeholder_offsets source ph tg platform groups shebang_length d =
  match validated_shebang_region_end source shebang_length with
  | Err e => Some (Err (InconsistentMetadata e), d)
  | Ok region_end =>
      match text_patches_from_groups groups (encoded_prefix_all ph tg) with
      | Err e => Some (Err (InconsistentMetadata e), d)
      | Ok patches =>
          r ← validate_text_patches source patches region_end;
          match r with
          | Err e => Some (Err (InconsistentMetadata e), d)
          | Ok _ =>
              (io_map_err Io (write_shebang_region source region_end ph tg platform (encoded_prefix_all ph tg));;
               io_map_err Io (write_patched_text source region_end patches)) d
          end
      end
  end.
Proof.
  unfold copy_and_replace_textual_placeholder_offsets, io_map_err, io_lift, io_opt.
  unfold io_bind at 1. cbn [mbind option_bind fst snd]. destruct (validated_shebang_region_end _ _); [|done].
  unfold io_bind at 1. cbn [mbind option_bind fst snd]. destruct (text_patches_from_groups _ _); [|done].
  unfold io_bind at 1. destruct (validate_text_patches _ _ _) as [r|]; [|done].
  cbn [mbind option_bind fst snd]. unfold io_bind at 1. cbn [mbind option_bind fst snd]. by destruct r.
Qed.

Lemma all_text_nonempty ph tg (patches : list TextPatch) :
  Forall (λ p, tp_prefix p ∈ encoded_prefix_all ph tg) patches →
  Forall (λ p, placeholder (tp_prefix p) ≠ []) patches.
Proof.
  intros H. eapply Forall_impl; [exact H|]. intros p Hp. pose proof (all_nonempty ph tg) as Hall.
  rewrite Forall_forall in Hall. by apply Hall.
Qed.

(** The two writers after the decision. *)
Lemma text_write_ok source region_end ph tg platform patches :
  region_end = 0 ∨ starts_with source (txt "#!") = true ∧ 2 ≤ region_end ≤ length source →
  text_patches_ok source region_end patches →
  ∃ head, ∀ d,
    (io_map_err Io (write_shebang_region source region_end ph tg platform (encoded_prefix_all ph tg));;
     io_map_err Io (write_patched_text source region_end patches)) d
    = Some (Ok tt, d ++ head ++ text_spliced source region_end patches).
Proof.
  intros Hr Hok. destruct (write_shebang_region_ok source region_end ph tg platform Hr) as [head Hhead].
  exists head. intros d. unfold io_bind, io_map_err. rewrite Hhead. simpl.
  rewrite write_patched_text_ok by done. simpl. by rewrite (assoc_L (++)).
Qed.

Lemma validated_region source shebang_length n :
  validated_shebang_region_end source shebang_length = Ok n →
  n = 0 ∨ starts_with source (txt "#!") = true ∧ 2 ≤ n ≤ length source.
Proof.
  intros H%validated_shebang_region_end_spec. destruct (starts_with _ _) eqn:E.
  - right. destruct H as [_ ->]. split; [done|by apply first_line_bound].
  - left. by destruct H.
Qed.

(** Replacement in a text file at recorded offsets, which are not trusted.  It
    never panics: either the metadata does not fit the file and nothing was written,
    or the shebang length is that of the first line and the offsets are occurrences
    in order after it, without overlap, and the file is written with them replaced. *)
Theorem text_offsets_correct (source ph tg : list N) (platform : Subdir) (groups : list OffsetGroup)
    (shebang_length : option nat) (d : list N) :
  (∃ e, copy_and_replace_textual_placeholder_offsets source ph tg platform groups shebang_length d
        = Some (Err (InconsistentMetadata e), d))
  ∨ ∃ region_end patches head,
      (if starts_with source (txt "#!")
       then shebang_length = Some region_end ∧ region_end = first_line source
       else shebang_length = None ∧ region_end = 0)
      ∧ text_patches_from_groups groups (encoded_prefix_all ph tg) = Ok patches
      ∧ text_patches_ok source region_end patches
      ∧ copy_and_replace_textual_placeholder_offsets source ph tg platform groups shebang_length d
        = Some (Ok tt, d ++ head ++ text_spliced source region_end patches).
Proof.
  rewrite copy_text_offsets_eq.
  destruct (validated_shebang_region_end source shebang_length) as [region_end|e] eqn:Er; [|left; by eexists].
  destruct (text_patches_from_groups _ _) as [patches|e] eqn:E; [|left; by eexists].
  pose proof (validated_region _ _ _ Er) as Hr.
  assert (Forall (λ p, tp_prefix p ∈ encoded_prefix_all ph tg) patches) as Hin.
  { unfold text_patches_from_groups in E. destruct (text_groups_patches _ _ _) as [l|] eqn:El; [|done].
    injection E as <-. rewrite sort_by_perm. by apply text_groups_patches_spec in El as (new & -> & ?). }
  destruct (validate_text_spec source region_end region_end patches) as (r & Ev & Hv);
    [done|by apply region_le|by apply (all_text_nonempty ph tg)|].
  unfold validate_text_patches. rewrite Ev. simpl. destruct r as [[]|e]; [|left; by eexists]. right.
  pose proof (proj1 Hv eq_refl) as Hok.
  destruct (text_write_ok source region_end ph tg platform patches Hr Hok) as [head Hhead].
  exists region_end, patches, head. split; [by apply validated_shebang_region_end_spec|].
  split; [done|]. split; [done|apply Hhead].
Qed.

Definition record_text_groups : list TextPatch → list OffsetGroup :=
  record_with (λ p, encoding (tp_prefix p)) (λ ps, TextRanges (tp_offset <$> ps)).

Lemma text_groups_record ph tg patches encs acc :
  Forall (λ p, tp_prefix p ∈ encoded_prefix_all ph tg) patches →
  text_groups_patches ((λ e, mkOffsetGroup e
      (TextRanges (tp_offset <$> with_encoding (λ p, encoding (tp_prefix p)) e patches)))
    <$> filter (λ e, with_encoding (λ p, encoding (tp_prefix p)) e patches ≠ []) encs)
    (encoded_prefix_all ph tg) acc
  = Ok (acc ++ (encs ≫= λ e, with_encoding (λ p, encoding (tp_prefix p)) e patches)).
Proof.
  intros Hps. revert acc. induction encs as [|e encs IH]; intros acc; [by rewrite app_nil_r|].
  cbn [mbind list_bind]. rewrite filter_cons. destruct (decide _) as [Hne|Hnil].
  - rewrite fmap_cons. cbn [text_groups_patches group_encoding group_ranges]. rewrite Forall_forall in Hps.
    set (ps := with_encoding _ e patches) in *.
    assert (∀ p, p ∈ ps → tp_prefix p ∈ encoded_prefix_all ph tg ∧ encoding (tp_prefix p) = e) as Hin.
    { intros p [? ?]%list_elem_of_filter. split; [by apply Hps|done]. }
    destruct ps as [|p0 ps0]; [done|]. destruct (Hin p0 ltac:(left)) as [Hp0 He0].
    rewrite <-He0 at 1. rewrite (encoded_prefix_for_all ph tg _ Hp0).
    rewrite IH, <-(assoc_L (++)). do 3 f_equal. rewrite <-list_fmap_compose.
    rewrite <-(list_fmap_id (p0 :: ps0)) at 2. apply list_fmap_ext. intros i p Hi.
    apply list_elem_of_lookup_2 in Hi. destruct (Hin p Hi) as [Hp He]. unfold compose. simpl.
    apply encoded_prefix_all_spec in Hp as [_ Hp], Hp0 as [_ Hp0].
    destruct p as [o q]. simpl in *. f_equal. rewrite Hp, Hp0, He, He0. done.
  - apply dec_stable in Hnil. rewrite Hnil. apply IH.
Qed.

Lemma sort_record_text source from patches l :
  text_patches_ok source from patches → l ≡ₚ patches → sort_by offset_leb l = patches.
Proof.
  intros Hok Hp.
  assert (StronglySorted (λ a b, tp_offset a < tp_offset b) patches
    ∧ Forall (λ p, from ≤ tp_offset p) patches) as [Hs _].
  { clear Hp l. revert from Hok. induction patches as [|p patches IH]; intros from; [by repeat constructor|].
    simpl. intros (Hf & Hne & Hocc & Hrest). destruct (IH _ Hrest) as [Hs Hall].
    assert (0 < length (placeholder (tp_prefix p))) by (destruct (placeholder _); [done|simpl; lia]).
    split; constructor; [done| |done|].
    - eapply Forall_impl; [exact Hall|]. simpl. lia.
    - eapply Forall_impl; [exact Hall|]. simpl. lia. }
  apply (StronglySorted_unique_strong (λ a b, offset_leb a b = true)).
  - intros a b Ha Hb Hab Hba. rewrite sort_by_perm, Hp in Ha. apply Nat.leb_le in Hab, Hba.
    apply list_elem_of_lookup in Ha as [i Hi], Hb as [j Hj].
    destruct (Nat.lt_trichotomy i j) as [Hij|[->|Hij]]; [|congruence|].
    + pose proof (StronglySorted_lookup _ _ _ _ _ _ Hs Hij Hi Hj) as H. simpl in H. lia.
    + pose proof (StronglySorted_lookup _ _ _ _ _ _ Hs Hij Hj Hi) as H. simpl in H. lia.
  - apply sort_by_sorted; unfold offset_leb; intros ?; intros; rewrite ?Nat.leb_gt, ?Nat.leb_le in *; lia.
  - clear -Hs. induction Hs as [|x k Hk IH Hx]; constructor; [done|]. eapply Forall_impl; [exact Hx|].
    unfold offset_leb. intros y Hy. apply Nat.leb_le. simpl in Hy. lia.
  - by rewrite sort_by_perm.
Qed.

(** Both ways give the same text file, where the platform rewrites shebangs or
    the file has none: with the groups and the shebang length a producer records for
    what the search finds, the replacement at recorded offsets writes what the
    replacement by search writes. *)
Theorem recorded_text_offsets_agree (source ph tg : list N) (platform : Subdir) (d : list N)
  (Hplatform : is_unix platform = true ∨ starts_with source (txt "#!") = false) :
  let region_end := search_region_end source platform in
  let patches := find_text_patches source region_end (encoded_prefix_all ph tg) in
  let shebang_length := if starts_with source (txt "#!") then Some region_end else None in
  copy_and_replace_textual_placeholder_offsets source ph tg platform (record_text_groups patches)
    shebang_length d
  = io_map_err Io (copy_and_replace_textual_placeholder source ph tg platform) d.
Proof.
  intros region_end patches shebang_length. rewrite copy_text_offsets_eq.
  assert (validated_shebang_region_end source shebang_length = Ok region_end) as Hv.
  { apply validated_shebang_region_end_spec. unfold shebang_length, region_end, search_region_end.
    destruct (starts_with source (txt "#!")).
    - destruct Hplatform as [->|?]; done.
    - by rewrite andb_false_r. }
  rewrite Hv. pose proof (validated_region _ _ _ Hv) as Hr.
  destruct (find_text_patches_spec source region_end ph tg) as (Hok & Hin & _); [by apply region_le|].
  fold patches in Hok, Hin.
  assert (text_patches_from_groups (record_text_groups patches) (encoded_prefix_all ph tg) = Ok patches) as ->.
  { unfold text_patches_from_groups, record_text_groups, record_with.
    rewrite (text_groups_record ph tg) by done. rewrite app_nil_l. f_equal.
    apply (sort_record_text source region_end); [done|apply with_encoding_all]. }
  destruct (validate_text_spec source region_end region_end patches) as (r & Ev & Hiff);
    [done|by apply region_le|by apply (all_text_nonempty ph tg)|].
  unfold validate_text_patches. rewrite Ev. rewrite (proj2 Hiff) by done. cbn [mbind option_bind].
  destruct (write_shebang_region_ok source region_end ph tg platform Hr) as [head Hhead].
  rewrite copy_text_eq. unfold io_bind, io_map_err. fold region_end. rewrite Hhead. fold patches.
  cbn [mbind option_bind fst snd]. by rewrite write_patched_text_ok.
Qed.
End text.

(** A script of the placeholder prefix, installed on Linux. *)
Definition sample_script : list N := txt "#!/old/bin/perl" ++ [10%N] ++ txt "use /old/lib;".

Lemma recorded_text_offsets_agree_witness :
  (is_unix Linux64 = true ∨ starts_with sample_script (txt "#!") = false)
  ∧ copy_and_replace_textual_placeholder_offsets (MM := memmem_ref) (RX := regex_ref)
      sample_script sample_placeholder sample_target Linux64
      [mkOffsetGroup Utf8 (TextRanges [20])] (Some 16) []
    = Some (Ok tt, txt "#!/a/bin/perl" ++ [10%N] ++ txt "use /a/lib;").
Proof.
  split; [left; reflexivity|].
  pose proof (recorded_text_offsets_agree (MM := memmem_ref) (RX := regex_ref) sample_script
    sample_placeholder sample_target Linux64 [] (or_introl eq_refl)) as E.
  cbv zeta in E.
  match type of E with copy_and_replace_textual_placeholder_offsets _ _ _ _ ?g ?l _ = _ =>
    assert (g = [mkOffsetGroup Utf8 (TextRanges [20])] ∧ l = Some 16) as [Hg Hl] by (split; vm_compute; reflexivity)
  end.
  rewrite Hg, Hl in E. rewrite E. vm_compute. reflexivity.
Defined.

(** ** The entry points *)
Section entry.
Context `{MM : Memmem} `{RX : Regex}.

(** Binary files are copied unchanged to Windows. *)
Lemma windows_binary_unchanged source ph tg platform d :
  is_windows platform = true →
  copy_and_replace_placeholders source ph tg platform Binary d = Some (Ok tt, d ++ source).
Proof. intros Hw. unfold copy_and_replace_placeholders. by rewrite Hw. Qed.

(** Offsets of the other file mode are refused before anything is written. *)
Lemma file_mode_mismatch source ph tg platform file_mode offsets d :
  offsets_file_mode offsets ≠ file_mode →
  copy_and_replace_placeholders_with_offsets source ph tg platform file_mode offsets d
  = Some (Err (InconsistentMetadata (FileModeMismatch (offsets_file_mode offsets) file_mode)), d).
Proof.
  intros Hne. unfold copy_and_replace_placeholders_with_offsets. by rewrite bool_decide_eq_true_2 by done.
Qed.
End entry.
