(* ===== verification/Transaction.v ===== *)
(** * Transactions

    [rattler/src/install/transaction.rs] and the part of [python.rs] it uses: the
    operations that bring an environment from its current records to the desired
    ones.

    A [HashSet<PackageName>] or a [HashMap] with such keys is a set or a map on the
    normalised names, which [Eq] and [Hash] of [PackageName] look at.  Paths are the
    texts they are made from. *)
From S2P Require Import Prelude Externs VersionRepr VersionOrder VersionOps.
From S2P Require Import VersionParse VersionSource PackageName Subdir.

(** ** Definitions *)

(** [NoArchType::is_python] *)
Definition noarch_is_python (n : NoArchType) : bool :=
  match n with Some Python => true | _ => false end.

(** [ContentComparable]: what is compared of two records. *)
Class ContentComparable (R : Type) := {
  cc_name : R → PackageName;
  cc_version : R → VersionWithSource;
  cc_build : R → list N;
  cc_sha256 : R → option (list N);
  cc_md5 : R → option (list N);
  cc_size : R → option N;
  cc_noarch : R → NoArchType;
  cc_python_site_packages_path : R → option (list N)
}.

(** *** Python *)
Record PythonInfo := mkPythonInfo {
  pi_platform : Subdir;
  pi_short_version : N * N;
  pi_path : list N;
  pi_site_packages_path : list N;
  pi_bin_dir : list N
}.

Inductive PythonInfoError : Type := InvalidPythonVersion (version : list N).
Inductive TransactionError : Type := TransactionPythonInfoError (e : PythonInfoError) | TransactionCancelled.

Definition python_info_from_version (version : Version) (site_packages_path : option (list N))
    (platform : Subdir) : option (result PythonInfoError PythonInfo) :=
  mm ← version_as_major_minor version;
  match mm with
  | None => s ← version_display version; Some (Err (InvalidPythonVersion s))
  | Some (major, minor) =>
      let short := u64_display major ++ [c_dot] ++ u64_display minor in
      let path := if is_windows platform then txt "python.exe" else txt "bin/python" ++ short in
      let site := default (if is_windows platform then txt "Lib/site-packages"
                           else txt "lib/python" ++ short ++ txt "/site-packages") site_packages_path in
      let bin_dir := if is_windows platform then txt "Scripts" else txt "bin" in
      Some (Ok (mkPythonInfo platform (major, minor) path site bin_dir))
  end.

Definition is_relink_required (self previous : PythonInfo) : bool :=
  negb ((pi_short_version self).1 =? (pi_short_version previous).1)%N
  || negb ((pi_short_version self).2 =? (pi_short_version previous).2)%N.

(** *** Operations *)
Inductive TransactionOperation (Old New : Type) : Type :=
| Install (new : New)
| Change (old : Old) (new : New)
| Reinstall (old : Old) (new : New)
| Remove (old : Old).
Arguments Install {Old New} new.
Arguments Change {Old New} old new.
Arguments Reinstall {Old New} old new.
Arguments Remove {Old New} old.

Definition record_to_install {Old New} (op : TransactionOperation Old New) : option New :=
  match op with
  | Install record => Some record
  | Change _ new | Reinstall _ new => Some new
  | Remove _ => None
  end.

Definition record_to_remove {Old New} (op : TransactionOperation Old New) : option Old :=
  match op with
  | Install _ => None
  | Change old _ | Reinstall old _ | Remove old => Some old
  end.

Record Transaction (Old New : Type) := mkTransaction {
  operations : list (TransactionOperation Old New);
  python_info : option PythonInfo;
  current_python_info : option PythonInfo;
  transaction_platform : Subdir;
  unchanged : list Old
}.
Arguments mkTransaction {Old New}.
Arguments operations {Old New} t.
Arguments python_info {Old New} t.
Arguments current_python_info {Old New} t.
Arguments transaction_platform {Old New} t.
Arguments unchanged {Old New} t.

Definition removed_packages {Old New} (t : Transaction Old New) : list Old :=
  omap record_to_remove (operations t).
Definition installed_packages {Old New} (t : Transaction Old New) : list New :=
  omap record_to_install (operations t).
Definition packages_to_uninstall {Old New} (t : Transaction Old New) : nat := length (removed_packages t).
Definition packages_to_install {Old New} (t : Transaction Old New) : nat := length (installed_packages t).

Section diff.
Context `{IT : Itertools} {Old New : Type} `{CO : ContentComparable Old} `{CN : ContentComparable New}.

(** [name().as_normalized()] *)
Definition record_key {R} `{ContentComparable R} (r : R) : list N := as_normalized (cc_name r).

Definition describe_same_content {T U} `{ContentComparable T} `{ContentComparable U} (from : T) (to : U)
  : option bool :=
  if negb (bool_decide (is_Some (cc_sha256 from) ↔ is_Some (cc_sha256 to))) then Some false
  else
    match cc_sha256 from, cc_sha256 to with
    | Some a, Some b => Some (bool_decide (a = b))
    | _, _ =>
        if negb (bool_decide (is_Some (cc_md5 from) ↔ is_Some (cc_md5 to))) then Some false
        else
          match cc_md5 from, cc_md5 to with
          | Some a, Some b => Some (bool_decide (a = b))
          | _, _ =>
              if match cc_size from, cc_size to with Some a, Some b => negb (a =? b)%N | _, _ => false end
              then Some false
              else if negb (package_name_eqb (cc_name from) (cc_name to)) then Some false
              else
                same_version ← vws_eqb (cc_version from) (cc_version to);
                Some (same_version && bool_decide (cc_build from = cc_build to))
          end
    end.

Definition find_python_info {R} `{ContentComparable R} (records : list R) (platform : Subdir)
  : option (result PythonInfoError (option PythonInfo)) :=
  match find (λ r, bool_decide (record_key r = txt "python")) records with
  | None => Some (Ok None)
  | Some record =>
      info ← python_info_from_version (vws_version (cc_version record))
               (cc_python_site_packages_path record) platform;
      Some (match info with Ok i => Ok (Some i) | Err e => Err e end)
  end.

(** The vectors and the map the two loops build. *)
Record DiffState := mkDiffState {
  ds_operations : list (TransactionOperation Old New);
  ds_unchanged : list Old;
  ds_current_map : gmap (list N) Old
}.

(** The loop over the current records. *)
Definition current_step (desired_names ignored : gset (list N)) (s : DiffState) (record : Old) : DiffState :=
  let package_name := record_key record in
  if bool_decide (package_name ∈ desired_names) then
    mkDiffState (ds_operations s) (ds_unchanged s) (<[package_name := record]> (ds_current_map s))
  else if bool_decide (package_name ∈ ignored) then
    mkDiffState (ds_operations s) (ds_unchanged s ++ [record]) (ds_current_map s)
  else mkDiffState (ds_operations s ++ [Remove record]) (ds_unchanged s) (ds_current_map s).

(** The loop over the desired records. *)
Definition desired_step (reinstall ignored : gset (list N)) (needs_python_relink : bool) (record : New)
    (s : DiffState) : option DiffState :=
  let name := record_key record in
  let old_record := ds_current_map s !! name in
  let current_map := delete name (ds_current_map s) in
  let push op := mkDiffState (ds_operations s ++ [op]) (ds_unchanged s) current_map in
  let keep old := mkDiffState (ds_operations s) (ds_unchanged s ++ [old]) current_map in
  if bool_decide (name ∈ ignored) then
    Some (match old_record with
          | Some old => keep old
          | None => mkDiffState (ds_operations s) (ds_unchanged s) current_map
          end)
  else
    match old_record with
    | Some old =>
        same ← describe_same_content record old;
        Some (if negb same || bool_decide (name ∈ reinstall) then push (Change old record)
              else if needs_python_relink && noarch_is_python (cc_noarch old) then push (Reinstall old record)
              else keep old)
    | None => Some (push (Install record))
    end.

Definition needs_relink (current desired : option PythonInfo) : bool :=
  match current, desired with
  | Some current, Some desired => is_relink_required desired current
  | _, _ => false
  end.

Definition from_current_and_desired (current : list Old) (desired : list New)
    (reinstall ignored : option (gset (list N))) (platform : Subdir)
  : option (result TransactionError (Transaction Old New)) :=
  c ← find_python_info current platform;
  match c with
  | Err e => Some (Err (TransactionPythonInfoError e))
  | Ok current_info =>
      d ← find_python_info desired platform;
      match d with
      | Err e => Some (Err (TransactionPythonInfoError e))
      | Ok desired_info =>
          let reinstall := default ∅ reinstall in
          let ignored := default ∅ ignored in
          let desired_names : gset (list N) := list_to_set (record_key <$> desired) in
          let s := foldl (current_step desired_names ignored) (mkDiffState [] [] ∅) current in
          let s := mkDiffState (rev (ds_operations s)) (ds_unchanged s) (ds_current_map s) in
          s ← for_opt desired (desired_step reinstall ignored (needs_relink current_info desired_info)) s;
          Some (Ok (mkTransaction (ds_operations s) desired_info current_info platform (ds_unchanged s)))
      end
  end.
End diff.

(** *** Converting the records *)

(** The closure of [into_prefix_record]; [convert] is the conversion of a record. *)
Definition convert_op {Old Old' New E} (convert : Old → result E Old') (op : TransactionOperation Old New)
  : result E (TransactionOperation Old' New) :=
  match op with
  | Install new => Ok (Install new)
  | Change old new => match convert old with Ok old => Ok (Change old new) | Err e => Err e end
  | Reinstall old new => match convert old with Ok old => Ok (Reinstall old new) | Err e => Err e end
  | Remove old => match convert old with Ok old => Ok (Remove old) | Err e => Err e end
  end.

Fixpoint convert_all {A B E} (f : A → result E B) (l : list A) : result E (list B) :=
  match l with
  | [] => Ok []
  | x :: l' =>
      match f x with
      | Err e => Err e
      | Ok y => match convert_all f l' with Ok ys => Ok (y :: ys) | Err e => Err e end
      end
  end.

Definition into_prefix_record {Old Old' New E} (convert : Old → result E Old') (t : Transaction Old New)
  : result E (Transaction Old' New) :=
  match convert_all (convert_op convert) (operations t) with
  | Err e => Err e
  | Ok ops =>
      match convert_all convert (unchanged t) with
      | Err e => Err e
      | Ok unch =>
          Ok (mkTransaction ops (python_info t) (current_python_info t) (transaction_platform t) unch)
      end
  end.
