(* ===== verification/TransactionTheorems.v ===== *)
(** * What a transaction does to an environment

    The properties of Transaction.v: every current record is accounted for, the
    environment that results is the desired one apart from the ignored packages, and
    each operation has its reason. *)
From S2P Require Import Prelude Externs VersionRepr VersionOrder VersionOps.
From S2P Require Import VersionParse VersionGrammar VersionSource VersionSpec PackageName Subdir.
From S2P Require Import Transaction.

Section diff.
Context `{IT : Itertools} {Old New : Type} `{CO : ContentComparable Old} `{CN : ContentComparable New}.
Local Notation op := (TransactionOperation Old New).

Lemma NoDup_fmap_filter {A B} (f : A → B) (P : A → Prop) `{!∀ x, Decision (P x)} (l : list A) :
  NoDup (f <$> l) → NoDup (f <$> filter P l).
Proof.
  induction l as [|x l IH]; [done|]. simpl. rewrite NoDup_cons, filter_cons. intros [Hx Hl].
  case_decide; [|by apply IH]. simpl. apply NoDup_cons. split; [|by apply IH].
  intros (y & Hy & [_ Hin]%list_elem_of_filter)%list_elem_of_fmap. apply Hx, list_elem_of_fmap. eauto.
Qed.

(** Test data: the fields of a record that are compared. *)
Record ContentRecord := mkContentRecord {
  cr_name : PackageName;
  cr_version : VersionWithSource;
  cr_build : list N;
  cr_noarch : NoArchType
}.
#[export] Instance content_record_comparable : ContentComparable ContentRecord := {
  cc_name := cr_name;
  cc_version := cr_version;
  cc_build := cr_build;
  cc_sha256 _ := None;
  cc_md5 _ := None;
  cc_size _ := None;
  cc_noarch := cr_noarch;
  cc_python_site_packages_path _ := None
}.
Definition sample_parts (major minor : string) : parts :=
  mkParts None [row_iter (None, [txt major]); row_iter (Some c_dot, [txt minor])] [].
Definition sample (name major minor : string) (noarch : NoArchType) : ContentRecord :=
  mkContentRecord (mkPackageName None (txt name)) (vws_from_version (pack (sample_parts major minor)))
    (txt "0") noarch.

(** Three packages and a newer Python: [tool] is to go, [lib] to be relinked. *)
Definition sample_current : list ContentRecord :=
  [sample "tool" "1" "0" None; sample "python" "3" "11" None; sample "lib" "2" "0" (Some Python)].
Definition sample_desired : list ContentRecord :=
  [sample "python" "3" "12" None; sample "lib" "2" "0" (Some Python); sample "extra" "0" "1" None].
Definition sample_transaction : Transaction ContentRecord ContentRecord :=
  match from_current_and_desired sample_current sample_desired None None Linux64 with
  | Some (Ok t) => t
  | _ => mkTransaction [] None None Linux64 []
  end.

(** ** Totality *)

Definition record_wf {R} `{ContentComparable R} (r : R) : Prop := vws_wf (cc_version r).

Lemma vws_eqb_total (v w : VersionWithSource) : vws_wf v → vws_wf w → is_Some (vws_eqb v w).
Proof.
  intros Hv Hw. unfold vws_eqb. destruct (version_eqb_total _ _ Hv Hw) as [b ->]. simpl.
  destruct b; [|by eexists].
  destruct (vws_as_str_total _ Hv) as [s ->], (vws_as_str_total _ Hw) as [t ->]. by eexists.
Qed.

Lemma describe_same_content_total (from : New) (to : Old) :
  record_wf from → record_wf to → is_Some (describe_same_content from to).
Proof.
  intros Hf Ht. destruct (vws_eqb_total _ _ Hf Ht) as [b Hb].
  unfold describe_same_content. repeat case_match; simplify_eq; rewrite ?Hb; by eexists.
Qed.

(** ** The loop over the current records *)

Definition desired_current (desired_names : gset (list N)) (current : list Old) : list Old :=
  filter (λ r, record_key r ∈ desired_names) current.

Lemma current_loop desired_names ignored (current : list Old) :
  NoDup (record_key <$> current) →
  let s := foldl (current_step (New := New) desired_names ignored) (mkDiffState [] [] ∅) current in
  ds_operations s = Remove <$> filter (λ r, record_key r ∉ desired_names ∧ record_key r ∉ ignored) current
  ∧ ds_unchanged s = filter (λ r, record_key r ∉ desired_names ∧ record_key r ∈ ignored) current
  ∧ ∀ n r, ds_current_map s !! n = Some r ↔ r ∈ current ∧ record_key r = n ∧ n ∈ desired_names.
Proof.
  induction current as [|c current IH] using rev_ind; intros Hnd.
  { split; [done|]. split; [done|]. intros n r. simpl. rewrite lookup_empty. split; [done|].
    by intros (?%elem_of_nil & _). }
  rewrite fmap_app, NoDup_app in Hnd. destruct Hnd as (Hnd & Hnew & _).
  destruct (IH Hnd) as (Hops & Hun & Hmap). clear IH. rewrite foldl_snoc.
  set (s := foldl _ _ current) in *. cbn zeta. rewrite !filter_app.
  unfold current_step. rewrite !filter_cons, !filter_nil.
  assert (record_key c ∉ desired_names → ∀ n r, ds_current_map s !! n = Some r ↔
    r ∈ current ++ [c] ∧ record_key r = n ∧ n ∈ desired_names) as Hsame.
  { intros Hc n r. rewrite Hmap, elem_of_app, list_elem_of_singleton. naive_solver. }
  case_bool_decide as Hd; [|case_bool_decide as Hi]; simpl.
  - rewrite !decide_False by tauto. rewrite !app_nil_r. split; [done|]. split; [done|].
    intros n r. rewrite lookup_insert_Some, Hmap, elem_of_app, list_elem_of_singleton. split.
    + intros [[<- <-]|(Hne & ? & ? & ?)]; auto.
    + intros ([Hr| ->] & <- & ?); [|by left]. right. split; [|done].
      intros Heq. apply (Hnew (record_key r)); [apply list_elem_of_fmap; by exists r|].
      rewrite <-Heq. left.
  - rewrite decide_False, decide_True by tauto. rewrite app_nil_r, Hun. by auto.
  - rewrite decide_True, decide_False by tauto. rewrite app_nil_r, Hops, fmap_app. by auto.
Qed.

(** ** The loop over the desired records *)

Section desired.
Context (reinstall ignored : gset (list N)) (relink : bool) (map0 : gmap (list N) Old).

(** Why an operation was chosen. *)
Definition justified (o : op) : Prop :=
  match o with
  | Install new => record_key new ∉ ignored ∧ map0 !! record_key new = None
  | Change old new =>
      record_key new ∉ ignored ∧ map0 !! record_key new = Some old
      ∧ (describe_same_content new old = Some false ∨ record_key new ∈ reinstall)
  | Reinstall old new =>
      record_key new ∉ ignored ∧ map0 !! record_key new = Some old
      ∧ describe_same_content new old = Some true ∧ record_key new ∉ reinstall
      ∧ relink = true ∧ noarch_is_python (cc_noarch old) = true
  | Remove _ => False
  end.

(** Why a record was kept. *)
Definition keep_reason (new : New) (old : Old) : Prop :=
  map0 !! record_key new = Some old ∧
  (record_key new ∈ ignored ∨
   describe_same_content new old = Some true ∧ record_key new ∉ reinstall
   ∧ (relink && noarch_is_python (cc_noarch old)) = false).

(** The old record of a desired name. *)
Definition old_of (new : New) : option Old := map0 !! record_key new.

(** The records that are in the environment afterwards. *)
Definition present (new : New) : Prop := record_key new ∉ ignored ∨ is_Some (old_of new).

Record desired_inv (ops0 : list op) (un0 : list Old) (seen : list New) (s : DiffState) (ops : list op)
    (un : list Old) : Prop := {
  di_ops : ds_operations s = ops0 ++ ops;
  di_un : ds_unchanged s = un0 ++ un;
  di_map n : ds_current_map s !! n = if decide (n ∈ record_key <$> seen) then None else map0 !! n;
  di_justified : Forall justified ops;
  di_installed : sublist (omap record_to_install ops) seen;
  di_old : omap record_to_remove ops ++ un ≡ₚ omap old_of seen;
  di_final : (record_key <$> un) ++ (record_key <$> omap record_to_install ops)
             ≡ₚ record_key <$> filter (λ r, record_key r ∉ ignored ∨ is_Some (old_of r)) seen;
  di_each r : r ∈ seen → record_key r ∉ ignored →
    r ∈ omap record_to_install ops ∨ ∃ old, old ∈ un ∧ keep_reason r old
}.

(** A round that pushes an operation, that keeps the old record, or neither. *)
Lemma push_inv ops0 un0 seen s ops un new o s' :
  desired_inv ops0 un0 seen s ops un → record_key new ∉ record_key <$> seen →
  (∀ n r, map0 !! n = Some r → record_key r = n) →
  justified o → record_to_install o = Some new → record_to_remove o = old_of new →
  record_key new ∉ ignored →
  s' = mkDiffState (ds_operations s ++ [o]) (ds_unchanged s) (delete (record_key new) (ds_current_map s)) →
  desired_inv ops0 un0 (seen ++ [new]) s' (ops ++ [o]) un.
Proof.
  intros [H1 H2 H3 H4 H6 H7 H8 H9] Hnew Hkey Hj Hi Hr Hig ->. split; simpl.
  - by rewrite H1, <-(assoc_L (++)).
  - done.
  - intros n. rewrite lookup_delete, H3, fmap_app. simpl.
    destruct (decide (record_key new = n)) as [<-|Hne].
    + by rewrite decide_True by set_solver.
    + by repeat destruct (decide _); set_solver.
  - apply Forall_app. by repeat constructor.
  - rewrite omap_app. simpl. rewrite Hi. by apply sublist_app.
  - rewrite !omap_app. simpl. rewrite Hr. destruct (old_of new) as [old|]; rewrite ?app_nil_r; [|done].
    rewrite <-H7. by rewrite <-(assoc_L (++)), (Permutation_app_comm [old] un), (assoc_L (++)).
  - rewrite omap_app, filter_app, !fmap_app. simpl. rewrite Hi, filter_cons, decide_True by auto. simpl.
    by rewrite (assoc_L (++)), H8.
  - intros r [Hin|Hin]%elem_of_app Hri.
    + destruct (H9 r Hin Hri) as [?|?]; [left; rewrite omap_app; set_solver|by right].
    + apply list_elem_of_singleton in Hin as ->. left. rewrite omap_app. simpl. rewrite Hi. set_solver.
Qed.

Lemma keep_inv ops0 un0 seen s ops un new old s' :
  desired_inv ops0 un0 seen s ops un → record_key new ∉ record_key <$> seen →
  (∀ n r, map0 !! n = Some r → record_key r = n) →
  keep_reason new old →
  s' = mkDiffState (ds_operations s) (ds_unchanged s ++ [old]) (delete (record_key new) (ds_current_map s)) →
  desired_inv ops0 un0 (seen ++ [new]) s' ops (un ++ [old]).
Proof.
  intros [H1 H2 H3 H4 H6 H7 H8 H9] Hnew Hkey Hk ->. pose proof (proj1 Hk) as Ho. fold (old_of new) in Ho. split; simpl.
  - done.
  - by rewrite H2, <-(assoc_L (++)).
  - intros n. rewrite lookup_delete, H3, fmap_app. simpl.
    destruct (decide (record_key new = n)) as [<-|Hne].
    + by rewrite decide_True by set_solver.
    + by repeat destruct (decide _); set_solver.
  - done.
  - rewrite <-(app_nil_r (omap _ _)). apply sublist_app; [done|apply sublist_nil_l].
  - rewrite omap_app. simpl. rewrite Ho. by rewrite (assoc_L (++)), H7.
  - rewrite filter_app, !fmap_app. simpl. rewrite filter_cons, decide_True by (right; by rewrite Ho). simpl.
    rewrite <-H8. rewrite (Hkey _ _ Ho). rewrite <-!(assoc_L (++)). apply Permutation_app_head.
    by rewrite (Permutation_app_comm [_]).
  - intros r [Hin|Hin]%elem_of_app Hri.
    + destruct (H9 r Hin Hri) as [?|(o & ? & ?)]; [by left|right; exists o; split; [set_solver|done]].
    + apply list_elem_of_singleton in Hin as ->. right. exists old. split; [set_solver|done].
Qed.

Lemma skip_inv ops0 un0 seen s ops un new s' :
  desired_inv ops0 un0 seen s ops un → record_key new ∈ ignored → old_of new = None →
  s' = mkDiffState (ds_operations s) (ds_unchanged s) (delete (record_key new) (ds_current_map s)) →
  desired_inv ops0 un0 (seen ++ [new]) s' ops un.
Proof.
  intros [H1 H2 H3 H4 H6 H7 H8 H9] Hi Ho ->. split; simpl; try done.
  - intros n. rewrite lookup_delete, H3, fmap_app. simpl.
    destruct (decide (record_key new = n)) as [<-|Hne].
    + by rewrite decide_True by set_solver.
    + by repeat destruct (decide _); set_solver.
  - rewrite <-(app_nil_r (omap _ _)). apply sublist_app; [done|apply sublist_nil_l].
  - rewrite omap_app. simpl. rewrite Ho. by rewrite app_nil_r.
  - rewrite filter_app, !fmap_app. simpl. rewrite filter_cons, decide_False; [by rewrite app_nil_r|].
    rewrite Ho. intros [?|[? ?]]; [done|done].
  - intros r [Hin|Hin]%elem_of_app Hri; [by apply H9|]. by apply list_elem_of_singleton in Hin as ->.
Qed.

(** One round. *)
Lemma desired_step_inv ops0 un0 seen s ops un new :
  desired_inv ops0 un0 seen s ops un → record_key new ∉ record_key <$> seen →
  (∀ n r, map0 !! n = Some r → record_key r = n) →
  (∀ old, old_of new = Some old → is_Some (describe_same_content new old)) →
  ∃ s' ops' un', desired_step reinstall ignored relink new s = Some s'
    ∧ desired_inv ops0 un0 (seen ++ [new]) s' ops' un'.
Proof.
  intros Hinv Hnew Hkey Hsame. unfold desired_step.
  assert (ds_current_map s !! record_key new = old_of new) as ->.
  { rewrite (di_map _ _ _ _ _ _ Hinv), decide_False; done. }
  case_bool_decide as Hi; [|destruct (old_of new) as [old|] eqn:Ho].
  - destruct (old_of new) as [old|] eqn:Ho; do 3 eexists; (split; [done|]).
    + eapply keep_inv; [done..| |done]. split; auto.
    + by eapply skip_inv.
  - destruct (Hsame old eq_refl) as [same Es]. rewrite Es. cbn [mbind option_bind].
    destruct (negb same || bool_decide _) eqn:Ec; [|destruct (relink && _) eqn:Er];
      do 3 eexists; (split; [done|]).
    + eapply (push_inv _ _ _ _ _ _ _ (Change old new)); try done.
      split; [done|]. split; [done|]. rewrite Es.
      apply orb_true_iff in Ec as [?%negb_true_iff|?%bool_decide_eq_true]; [left; congruence|by right].
    + apply orb_false_iff in Ec as [?%negb_false_iff ?%bool_decide_eq_false].
      apply andb_true_iff in Er as [? ?].
      eapply (push_inv _ _ _ _ _ _ _ (Reinstall old new)); try done.
      repeat split; try done; congruence.
    + apply orb_false_iff in Ec as [?%negb_false_iff ?%bool_decide_eq_false].
      eapply keep_inv; [done..| |done]. split; [done|].
      right. repeat split; try done; congruence.
  - do 3 eexists; (split; [done|]).
    by eapply (push_inv _ _ _ _ _ _ _ (Install new)).
Qed.

Lemma desired_loop_from ops0 un0 rest seen s ops un :
  desired_inv ops0 un0 seen s ops un → NoDup (record_key <$> seen ++ rest) →
  (∀ n r, map0 !! n = Some r → record_key r = n) →
  (∀ new old, new ∈ rest → old_of new = Some old → is_Some (describe_same_content new old)) →
  ∃ s' ops' un', for_opt rest (desired_step reinstall ignored relink) s = Some s'
    ∧ desired_inv ops0 un0 (seen ++ rest) s' ops' un'.
Proof.
  revert seen s ops un. induction rest as [|new rest IH]; intros seen s ops un Hinv Hnd Hkey Hsame.
  { exists s, ops, un. by rewrite app_nil_r. }
  rewrite cons_middle, (assoc_L (++)) in Hnd |- *.
  destruct (desired_step_inv ops0 un0 seen s ops un new) as (s' & ops' & un' & Es & Hs'); auto.
  { rewrite !fmap_app, !NoDup_app in Hnd. set_solver. }
  { intros old. apply Hsame. left. }
  simpl. rewrite Es. simpl. apply (IH _ _ _ _ Hs' Hnd Hkey).
  intros ???. apply Hsame. by right.
Qed.

Lemma desired_loop ops0 un0 desired :
  NoDup (record_key <$> desired) → (∀ n r, map0 !! n = Some r → record_key r = n) →
  (∀ new old, new ∈ desired → old_of new = Some old → is_Some (describe_same_content new old)) →
  ∃ s ops un, for_opt desired (desired_step reinstall ignored relink) (mkDiffState ops0 un0 map0) = Some s
    ∧ desired_inv ops0 un0 desired s ops un.
Proof.
  intros Hnd Hkey Hsame. apply (desired_loop_from ops0 un0 desired [] _ [] []); try done.
  split; simpl; rewrite ?app_nil_r; try done; [by constructor..|]. intros r ?%elem_of_nil. done.
Qed.
End desired.
(** ** The transaction *)

Lemma find_python_info_total {R} `{ContentComparable R} (l : list R) platform :
  Forall record_wf l → is_Some (find_python_info l platform).
Proof.
  intros Hl. unfold find_python_info. destruct (find _ l) as [r|] eqn:Ef; [|by eexists].
  apply find_some in Ef as [Hin _]. rewrite <-list_elem_of_In in Hin.
  rewrite Forall_forall in Hl. specialize (Hl r Hin). unfold python_info_from_version, version_as_major_minor.
  destruct (version_display_total _ Hl) as [d Ed]. destruct Hl as (p & Hp & Ev). rewrite Ev in *.
  rewrite pack_segments by done. cbn [mbind option_bind].
  rewrite Ed. case_match; by repeat case_match.
Qed.

Section transaction.
Context (current : list Old) (desired : list New) (reinstall ignored : option (gset (list N))).
Context (platform : Subdir).
Context (Hcurrent : NoDup (record_key <$> current)) (Hdesired : NoDup (record_key <$> desired)).
Context (Hwfc : Forall record_wf current) (Hwfd : Forall record_wf desired).

Local Notation ign := (default ∅ ignored).
Local Notation names := (list_to_set (record_key <$> desired) : gset (list N)).

(** The current records that are not desired: the ones to remove and the ones to
    leave alone. *)
Definition obsolete : list Old :=
  filter (λ r, record_key r ∉ names ∧ record_key r ∉ ign) current.
Definition left_alone : list Old :=
  filter (λ r, record_key r ∉ names ∧ record_key r ∈ ign) current.

(** The current record of a name. *)
Definition current_map : gmap (list N) Old := list_to_map ((λ r, (record_key r, r)) <$> current).

Lemma current_map_spec n r : current_map !! n = Some r ↔ r ∈ current ∧ record_key r = n.
Proof.
  unfold current_map. rewrite <-elem_of_list_to_map.
  - rewrite list_elem_of_fmap. naive_solver.
  - by rewrite <-list_fmap_compose.
Qed.

Lemma current_partition :
  current ≡ₚ obsolete ++ left_alone ++ omap (old_of current_map) desired.
Proof.
  assert (omap (old_of current_map) desired ≡ₚ filter (λ r, record_key r ∈ names) current) as ->.
  { apply NoDup_Permutation.
    - apply (NoDup_fmap_1 record_key). revert Hdesired. clear -Hcurrent.
      induction desired as [|d l IH]; simpl; [by constructor|]. rewrite NoDup_cons. intros [Hd Hl].
      destruct (old_of current_map d) as [old|] eqn:Eo; [|by apply IH]. simpl. apply NoDup_cons.
      split; [|by apply IH]. rewrite list_elem_of_fmap. intros (r & Hr & Hin).
      apply list_elem_of_omap in Hin as (d' & Hd' & Eo'). apply current_map_spec in Eo as [_ Eo], Eo' as [_ Eo'].
      apply Hd, list_elem_of_fmap. exists d'. split; [congruence|done].
    - by apply NoDup_filter, (NoDup_fmap_1 record_key).
    - intros r. rewrite list_elem_of_omap, list_elem_of_filter, elem_of_list_to_set, list_elem_of_fmap.
      unfold old_of. setoid_rewrite current_map_spec. naive_solver. }
  unfold obsolete, left_alone. clear. induction current as [|r l IH]; [done|].
  etrans; [apply Permutation_skip, IH|]. rewrite !filter_cons.
  destruct (decide (record_key r ∈ names)) as [Hn|Hn]; [|destruct (decide (record_key r ∈ ign))].
  - rewrite !(decide_False (P := _ ∧ _)) by tauto. by rewrite <-!Permutation_middle.
  - rewrite decide_False, decide_True by tauto. by simpl; rewrite <-Permutation_middle.
  - by rewrite decide_True, decide_False by tauto.
Qed.

(** The map the first loop leaves: the current records whose names are desired. *)
Definition kept_map : gmap (list N) Old := ds_current_map
  (foldl (current_step (New := New) names ign) (mkDiffState [] [] ∅) current).

Lemma kept_map_spec n r : kept_map !! n = Some r ↔ r ∈ current ∧ record_key r = n ∧ n ∈ names.
Proof. apply (current_loop names ign current Hcurrent). Qed.

Lemma kept_map_old_of : omap (old_of kept_map) desired = omap (old_of current_map) desired.
Proof.
  apply list_omap_ext, Forall2_same_length_lookup. split; [done|].
  intros i d d' Hd ?; simplify_eq. apply list_elem_of_lookup_2 in Hd.
  apply option_eq. intros r. unfold old_of. rewrite kept_map_spec, current_map_spec.
  assert (record_key d ∈ names) by (apply elem_of_list_to_set, list_elem_of_fmap; eauto). naive_solver.
Qed.

(** What a run returns. *)
Lemma from_current_and_desired_spec :
  ∃ c d, find_python_info current platform = Some c ∧ find_python_info desired platform = Some d ∧
  match c, d with
  | Err e, _ | Ok _, Err e =>
      from_current_and_desired current desired reinstall ignored platform
      = Some (Err (TransactionPythonInfoError e))
  | Ok ci, Ok di =>
      ∃ s ops un, desired_inv (default ∅ reinstall) ign (needs_relink ci di) kept_map
                    (Remove <$> rev obsolete) left_alone desired s ops un
        ∧ from_current_and_desired current desired reinstall ignored platform
          = Some (Ok (mkTransaction ((Remove <$> rev obsolete) ++ ops) di ci platform (left_alone ++ un)))
  end.
Proof.
  destruct (find_python_info_total current platform Hwfc) as [c Ec].
  destruct (find_python_info_total desired platform Hwfd) as [d Ed].
  exists c, d. split; [done|]. split; [done|]. unfold from_current_and_desired. rewrite Ec.
  cbn [mbind option_bind]. destruct c as [ci|e]; [|done]. rewrite Ed.
  cbn [mbind option_bind]. destruct d as [di|e]; [|done].
  destruct (current_loop names ign current Hcurrent) as (Hops & Hun & Hmap).
  destruct (desired_loop (default ∅ reinstall) ign (needs_relink ci di) kept_map
    (Remove <$> rev obsolete) left_alone desired Hdesired) as (s & ops & un & Es & Hs).
  { intros n r Hr. by apply kept_map_spec in Hr as (? & ? & ?). }
  { intros new old Hnew Hold. apply kept_map_spec in Hold as (Hin & _ & _).
    apply describe_same_content_total; [by eapply (Forall_forall _ desired)|by eapply (Forall_forall _ current)]. }
  exists s, ops, un. split; [done|]. rewrite Hops, Hun. fold kept_map.
  change (filter _ current) with obsolete at 1. change (filter _ current) with left_alone at 1.
  assert (rev (Remove (New := New) <$> obsolete) = Remove <$> rev obsolete) as -> by (symmetry; apply map_rev).
  rewrite Es. cbn [mbind option_bind].
  by rewrite (di_ops _ _ _ _ _ _ _ _ _ _ Hs), (di_un _ _ _ _ _ _ _ _ _ _ Hs).
Qed.

Lemma removed_of_removes (l : list Old) : omap (record_to_remove (New := New)) (Remove <$> l) = l.
Proof. induction l as [|r l IH]; [done|]. simpl. by f_equal. Qed.
Lemma installed_of_removes (l : list Old) : omap (record_to_install (New := New)) (Remove <$> l) = [].
Proof. by induction l. Qed.

Lemma obsolete_spec r :
  r ∈ obsolete ↔ r ∈ current ∧ record_key r ∉ record_key <$> desired ∧ record_key r ∉ ign.
Proof. unfold obsolete. rewrite list_elem_of_filter, elem_of_list_to_set. tauto. Qed.
Lemma left_alone_spec r :
  r ∈ left_alone ↔ r ∈ current ∧ record_key r ∉ record_key <$> desired ∧ record_key r ∈ ign.
Proof. unfold left_alone. rewrite list_elem_of_filter, elem_of_list_to_set. tauto. Qed.
End transaction.

(** The names in the environment afterwards. *)
Definition final_names (t : Transaction Old New) : list (list N) :=
  (record_key <$> unchanged t) ++ (record_key <$> installed_packages t).

(** What the operations of the second loop remove and install is not ignored. *)
Lemma justified_sides reinstall ignored relink map0 (ops : list op) :
  (∀ n r, map0 !! n = Some r → record_key r = n) → Forall (justified reinstall ignored relink map0) ops →
  (∀ r, r ∈ omap record_to_remove ops → record_key r ∉ ignored)
  ∧ ∀ r, r ∈ omap record_to_install ops → record_key r ∉ ignored.
Proof.
  intros Hkey Hj. rewrite Forall_forall in Hj.
  split; intros r (o & Ho & Hr)%list_elem_of_omap; specialize (Hj o Ho);
    destruct o as [new|old new|old new|old]; simpl in *; simplify_eq; try done; try tauto.
  - destruct Hj as (Hi & Hm & _). by rewrite (Hkey _ _ Hm).
  - destruct Hj as (Hi & Hm & _). by rewrite (Hkey _ _ Hm).
Qed.

(** C26: what a transaction makes of an environment whose records, and whose desired records, have
    distinct names.  It fails only when the version of a python record is not a major and a
    minor number.  Otherwise the records to remove and the records it leaves are, together, the current
    records; what it installs are desired records in the order given; afterwards
    no name is there twice, and the names that are not ignored are those of the
    desired records; of the ignored packages nothing is removed or installed. *)
Theorem transaction_correct (current : list Old) (desired : list New) reinstall ignored platform :
  NoDup (record_key <$> current) → NoDup (record_key <$> desired) →
  Forall record_wf current → Forall record_wf desired →
  ∃ c d, find_python_info current platform = Some c ∧ find_python_info desired platform = Some d ∧
  match c, d with
  | Err e, _ | Ok _, Err e =>
      from_current_and_desired current desired reinstall ignored platform
      = Some (Err (TransactionPythonInfoError e))
  | Ok ci, Ok di =>
      ∃ t, from_current_and_desired current desired reinstall ignored platform = Some (Ok t)
      ∧ removed_packages t ++ unchanged t ≡ₚ current
      ∧ sublist (installed_packages t) desired
      ∧ NoDup (final_names t)
      ∧ (∀ n, n ∉ default ∅ ignored → n ∈ final_names t ↔ n ∈ record_key <$> desired)
      ∧ (∀ r, r ∈ removed_packages t → record_key r ∉ default ∅ ignored)
      ∧ (∀ r, r ∈ installed_packages t → record_key r ∉ default ∅ ignored)
  end.
Proof.
  intros Hc Hd Hwc Hwd.
  destruct (from_current_and_desired_spec current desired reinstall ignored platform Hc Hd Hwc Hwd)
    as (c & d & Ec & Ed & Hrun).
  exists c, d. split; [done|]. split; [done|]. destruct c as [ci|], d as [di|]; try done.
  destruct Hrun as (s & ops & un & Hs & Ht). eexists. split; [exact Ht|].
  pose proof (di_final _ _ _ _ _ _ _ _ _ _ Hs) as Hfin.
  destruct (justified_sides _ _ _ _ ops (λ n r Hr, proj1 (proj2 (proj1 (kept_map_spec current desired ignored Hc n r) Hr)))
    (di_justified _ _ _ _ _ _ _ _ _ _ Hs)) as [Hrem Hins].
  set (t := mkTransaction _ _ _ _ _).
  assert (final_names t ≡ₚ (record_key <$> left_alone current desired ignored) ++ (record_key <$>
    filter (λ r, record_key r ∉ default ∅ ignored ∨ is_Some (old_of (kept_map current desired ignored) r)) desired))
    as Hnames.
  { unfold final_names, installed_packages, t. simpl.
    by rewrite omap_app, installed_of_removes, fmap_app, <-(assoc_L (++)), <-Hfin. }
  rewrite Hnames. setoid_rewrite Hnames. clear Hnames Hfin Ht.
  unfold removed_packages, installed_packages, t. simpl.
  rewrite !omap_app, removed_of_removes, installed_of_removes.
  assert (∀ n, n ∈ record_key <$> left_alone current desired ignored →
    n ∉ record_key <$> desired ∧ n ∈ default ∅ ignored) as Hleft.
  { intros n (r & -> & (_ & ? & ?)%left_alone_spec)%list_elem_of_fmap. done. }
  split; [|split; [|split; [|split; [|split]]]].
  - rewrite (current_partition current desired ignored Hc Hd) at 3. rewrite <-(kept_map_old_of current desired ignored Hc).
    rewrite <-(di_old _ _ _ _ _ _ _ _ _ _ Hs), <-Permutation_rev. solve_Permutation.
  - apply (di_installed _ _ _ _ _ _ _ _ _ _ Hs).
  - apply NoDup_app. split; [|split].
    + by apply NoDup_fmap_filter.
    + intros n Hn (r & -> & [_ Hr]%list_elem_of_filter)%list_elem_of_fmap.
      apply (proj1 (Hleft _ Hn)), list_elem_of_fmap. eauto.
    + by apply NoDup_fmap_filter.
  - intros n Hn. rewrite elem_of_app, !list_elem_of_fmap. setoid_rewrite list_elem_of_filter. split.
    + intros [(r & -> & [_ ?] & _)|(r & -> & _ & ?)]; [done|eauto].
    + intros (r & -> & ?). right. exists r. auto.
  - intros r [Hr|?]%elem_of_app; [rewrite <-Permutation_rev in Hr; by apply obsolete_spec in Hr as (_ & _ & ?)|by apply Hrem].
  - done.
Qed.

(** C27: what a transaction does, and why.  The removals come first, the last of the
    current records first: one for every current record that is neither desired nor
    ignored.  Then come, in the order of the desired records, an install where no current record has the
    name; a change where the content differs or a reinstall was asked for;
    a reinstall where the content is the same but the minor version of Python
    changed and the package is a noarch Python one.  A desired record that is not
    ignored and not installed is already there, with the same content. *)
Theorem transaction_operations_justified (current : list Old) (desired : list New) reinstall ignored platform t :
  NoDup (record_key <$> current) → NoDup (record_key <$> desired) →
  Forall record_wf current → Forall record_wf desired →
  from_current_and_desired current desired reinstall ignored platform = Some (Ok t) →
  let relink := needs_relink (current_python_info t) (python_info t) in
  let same_name old new := old ∈ current ∧ new ∈ desired ∧ record_key old = record_key new in
  find_python_info current platform = Some (Ok (current_python_info t)) ∧
  find_python_info desired platform = Some (Ok (python_info t)) ∧
  ∃ ops, operations t = (Remove <$> rev (filter (λ r, record_key r ∉ record_key <$> desired
                                                    ∧ record_key r ∉ default ∅ ignored) current)) ++ ops
  ∧ (∀ o, o ∈ ops → match o with
     | Install new => new ∈ desired ∧ record_key new ∉ record_key <$> current
     | Change old new => same_name old new
         ∧ (describe_same_content new old = Some false ∨ record_key new ∈ default ∅ reinstall)
     | Reinstall old new => same_name old new ∧ describe_same_content new old = Some true
         ∧ record_key new ∉ default ∅ reinstall ∧ relink = true ∧ noarch_is_python (cc_noarch old) = true
     | Remove _ => False
     end)
  ∧ ∀ new, new ∈ desired → record_key new ∉ default ∅ ignored →
      new ∈ installed_packages t ∨
      ∃ old, old ∈ unchanged t ∧ same_name old new ∧ describe_same_content new old = Some true
        ∧ record_key new ∉ default ∅ reinstall ∧ (relink && noarch_is_python (cc_noarch old)) = false.
Proof.
  intros Hc Hd Hwc Hwd Ht.
  destruct (from_current_and_desired_spec current desired reinstall ignored platform Hc Hd Hwc Hwd)
    as (c & d & Ec & Ed & Hrun).
  destruct c as [ci|], d as [di|]; [|congruence..].
  destruct Hrun as (s & ops & un & Hs & Ht'). rewrite Ht' in Ht. simplify_eq. cbn zeta. simpl.
  split; [done|]. split; [done|]. exists ops. split; [|split].
  - f_equal. f_equal. f_equal. unfold obsolete. apply list_filter_iff. intros r. by rewrite elem_of_list_to_set.
  - intros o Ho. pose proof (di_justified _ _ _ _ _ _ _ _ _ _ Hs) as Hj. rewrite Forall_forall in Hj.
    specialize (Hj o Ho).
    assert (∀ new, record_to_install o = Some new → new ∈ desired) as Hin.
    { intros new Hnew. eapply sublist_subseteq; [apply (di_installed _ _ _ _ _ _ _ _ _ _ Hs)|].
      apply list_elem_of_omap. eauto. }
    destruct o as [new|old new|old new|old]; simpl in Hj; [|destruct Hj as (_ & Hm & Hj)..|done].
    + split; [by apply Hin|]. destruct Hj as [_ Hm]. rewrite list_elem_of_fmap. intros (r & Hr & Hrc).
      assert (kept_map current desired ignored !! record_key new = Some r) as Hm'; [|by rewrite Hm in Hm'].
      apply kept_map_spec; [done|]. split; [done|]. split; [done|].
      apply elem_of_list_to_set, list_elem_of_fmap. eauto.
    + apply kept_map_spec in Hm as (? & ? & _); [|done]. auto.
    + apply kept_map_spec in Hm as (? & ? & _); [|done]. auto.
  - intros new Hnew Hig. destruct (di_each _ _ _ _ _ _ _ _ _ _ Hs new Hnew Hig) as [Hi|(old & Ho & Hm & Hr)].
    + left. unfold installed_packages. simpl. by rewrite omap_app, installed_of_removes.
    + right. apply kept_map_spec in Hm as (? & ? & _); [|done]. destruct Hr as [?|Hr]; [done|].
      exists old. split; [set_solver|]. auto.
Qed.
End diff.

(** ** Witnesses *)

Lemma sample_records_wf (l : list ContentRecord) :
  Forall (λ r, ∃ name major minor n, r = sample name major minor n
    ∧ wf_parts (sample_parts major minor)) l → Forall record_wf l.
Proof. intros Hl. eapply Forall_impl; [exact Hl|]. intros r (name & major & minor & n & -> & H). by exists (sample_parts major minor). Qed.

Ltac sample_wf := apply sample_records_wf; repeat constructor; do 4 eexists;
  (split; [reflexivity|split; [discriminate|simpl; intros; lia|repeat constructor; vm_compute; reflexivity..]]).

Lemma sample_current_wf : Forall record_wf sample_current.
Proof. sample_wf. Qed.
Lemma sample_desired_wf : Forall record_wf sample_desired.
Proof. sample_wf. Qed.

Lemma sample_current_names : NoDup (record_key <$> sample_current).
Proof. apply (bool_decide_unpack _). vm_compute. exact I. Qed.
Lemma sample_desired_names : NoDup (record_key <$> sample_desired).
Proof. apply (bool_decide_unpack _). vm_compute. exact I. Qed.

Lemma transaction_correct_witness :
  NoDup (record_key <$> sample_current) ∧
  ∃ t, from_current_and_desired sample_current sample_desired None None Linux64 = Some (Ok t)
    ∧ operations t = [Remove (sample "tool" "1" "0" None);
                      Change (sample "python" "3" "11" None) (sample "python" "3" "12" None);
                      Reinstall (sample "lib" "2" "0" (Some Python)) (sample "lib" "2" "0" (Some Python));
                      Install (sample "extra" "0" "1" None)].
Proof.
  split; [exact sample_current_names|].
  destruct (transaction_correct sample_current sample_desired None None Linux64 sample_current_names
    sample_desired_names sample_current_wf sample_desired_wf) as (c & d & Ec & Ed & H).
  vm_compute in Ec, Ed. simplify_eq. destruct H as (t & Et & _). exists t. split; [exact Et|].
  assert (t = sample_transaction) as -> by (unfold sample_transaction; rewrite Et; reflexivity).
  vm_compute. reflexivity.
Defined.

Lemma transaction_operations_justified_witness :
  from_current_and_desired sample_current sample_desired None None Linux64 = Some (Ok sample_transaction) ∧
  ∃ ops, operations sample_transaction = Remove (sample "tool" "1" "0" None) :: ops.
Proof.
  assert (from_current_and_desired sample_current sample_desired None None Linux64
    = Some (Ok sample_transaction)) as E by (vm_compute; reflexivity).
  split; [exact E|].
  destruct (transaction_operations_justified sample_current sample_desired None None Linux64 sample_transaction
    sample_current_names sample_desired_names sample_current_wf sample_desired_wf E) as (_ & _ & ops & Eo & _).
  exists ops. rewrite Eo. vm_compute. reflexivity.
Defined.

(** ** Two behaviours of the diff *)

(** A package that is ignored stays as it is, but when it is Python the layout of the
    desired one is used, and the noarch packages are relinked for it. *)
Lemma ignored_python_relinks :
  let python := sample "python" "3" "11" None in
  let lib := sample "lib" "2" "0" (Some Python) in
  ∃ t, from_current_and_desired [python; lib] [sample "python" "3" "12" None; lib] None
      (Some {[txt "python"]}) Linux64 = Some (Ok t)
    ∧ unchanged t = [python] ∧ operations t = [Reinstall lib lib]
    ∧ (pi_short_version <$> python_info t) = Some (3, 12)%N.
Proof. eexists. split; [vm_compute; reflexivity|]. by vm_compute. Qed.

(** Of two current records with one name, the first is neither removed nor kept. *)
Lemma duplicate_current_is_dropped :
  let one := sample "lib" "1" "0" None in
  let two := sample "lib" "2" "0" None in
  ∃ t, from_current_and_desired [one; two] [two] None None Linux64 = Some (Ok t)
    ∧ operations t = [] ∧ unchanged t = [two].
Proof. eexists. split; [vm_compute; reflexivity|]. by vm_compute. Qed.
