(* ===== verification/Archive.v ===== *)
(** * Archive names

    [rattler_conda_types/src/package/archive_type.rs] and [archive_identifier.rs]:
    the formats of package archives, which of two is preferred, and the name,
    version and build string in a file name.

    [try_from_path] and [try_from_url] take the last part of a path or an URL and
    call [try_from_filename]; that part is the text here. *)
From S2P Require Import Prelude.

(** ** Definitions *)

(** [str::strip_suffix] *)
Definition strip_suffix (s suffix : list N) : option (list N) :=
  if bool_decide (suffix `suffix_of` s) then Some (take (length s - length suffix) s) else None.

(** [str::rsplit_once] *)
Fixpoint rsplit_once (c : N) (s : list N) : option (list N * list N) :=
  match s with
  | [] => None
  | d :: s' =>
      match rsplit_once c s' with
      | Some (before, after) => Some (d :: before, after)
      | None => if (d =? c)%N then Some ([], s') else None
      end
  end.

(** [str::rsplitn] with a count that is not 0 *)
Fixpoint rsplitn (n : nat) (c : N) (s : list N) : list (list N) :=
  match n with
  | S (S _ as n') =>
      match rsplit_once c s with
      | Some (before, after) => after :: rsplitn n' c before
      | None => [s]
      end
  | _ => [s]
  end.

(** *** Archive types *)
Inductive CondaArchiveType : Type := Conda | TarBz2.
Inductive WheelArchiveType : Type := Whl.
Inductive DistArchiveType : Type := DistConda (t : CondaArchiveType) | DistWheel (t : WheelArchiveType).

#[export] Instance conda_archive_type_eq_dec : EqDecision CondaArchiveType.
Proof. solve_decision. Defined.
#[export] Instance wheel_archive_type_eq_dec : EqDecision WheelArchiveType.
Proof. intros [] []. by left. Defined.
#[export] Instance dist_archive_type_eq_dec : EqDecision DistArchiveType.
Proof. solve_decision. Defined.

Definition conda_extension (t : CondaArchiveType) : list N :=
  match t with TarBz2 => txt ".tar.bz2" | Conda => txt ".conda" end.
Definition wheel_extension (t : WheelArchiveType) : list N := match t with Whl => txt ".whl" end.
Definition dist_extension (t : DistArchiveType) : list N :=
  match t with DistConda t => conda_extension t | DistWheel t => wheel_extension t end.

Definition try_from_magic_bytes (bytes : list N) : option CondaArchiveType :=
  match bytes with
  | b0 :: b1 :: b2 :: b3 :: _ =>
      if bool_decide ([b0; b1; b2; b3] ∈ [[80; 75; 3; 4]; [80; 75; 5; 6]; [80; 75; 7; 8]]%N) then Some Conda
      else if bool_decide ([b0; b1; b2] = [66; 90; 104]%N) then Some TarBz2
      else None
  | _ => None
  end.

Definition conda_split_str (path : list N) : option (list N * CondaArchiveType) :=
  match strip_suffix path (txt ".conda") with
  | Some path => Some (path, Conda)
  | None =>
      match strip_suffix path (txt ".tar.bz2") with
      | Some path => Some (path, TarBz2)
      | None => None
      end
  end.

Definition wheel_split_str (path : list N) : option (list N * WheelArchiveType) :=
  match strip_suffix path (txt ".whl") with
  | Some path => Some (path, Whl)
  | None => None
  end.

Definition dist_split_str (path : list N) : option (list N * DistArchiveType) :=
  match conda_split_str path with
  | Some (path, conda_type) => Some (path, DistConda conda_type)
  | None =>
      match wheel_split_str path with
      | Some (path, wheel_type) => Some (path, DistWheel wheel_type)
      | None => None
      end
  end.

Definition conda_archive_type_try_from (path : list N) : option CondaArchiveType :=
  snd <$> conda_split_str path.
Definition dist_archive_type_try_from (path : list N) : option DistArchiveType :=
  snd <$> dist_split_str path.

Definition cmp_preference (self other : DistArchiveType) : comparison :=
  if bool_decide (self = other) then Eq
  else
    match self, other with
    | DistConda Conda, _ => Gt
    | _, DistConda Conda => Lt
    | DistConda TarBz2, _ => Gt
    | _, DistConda TarBz2 => Lt
    | DistWheel Whl, _ => Gt
    end.

(** *** Identifiers *)
Record ArchiveIdentifier := mkArchiveIdentifier {
  ai_name : list N;
  ai_version : list N;
  ai_build_string : list N
}.
Record CondaArchiveIdentifier := mkCondaArchiveIdentifier {
  cai_identifier : ArchiveIdentifier;
  cai_archive_type : CondaArchiveType
}.
Record DistArchiveIdentifier := mkDistArchiveIdentifier {
  dai_identifier : ArchiveIdentifier;
  dai_archive_type : DistArchiveType
}.

#[export] Instance archive_identifier_eq_dec : EqDecision ArchiveIdentifier.
Proof. solve_decision. Defined.
#[export] Instance archive_identifier_countable : Countable ArchiveIdentifier.
Proof.
  refine (inj_countable' (λ i, (ai_name i, ai_version i, ai_build_string i))
    (λ t, mkArchiveIdentifier t.1.1 t.1.2 t.2) _). by intros [].
Defined.
#[export] Instance dist_archive_type_countable : Countable DistArchiveType.
Proof.
  refine (inj_countable'
    (λ t, match t with DistConda Conda => 0 | DistConda TarBz2 => 1 | DistWheel Whl => 2 end)
    (λ n, match n with 0 => DistConda Conda | 1 => DistConda TarBz2 | _ => DistWheel Whl end) _).
  by intros [[]|[]].
Defined.
#[export] Instance dist_archive_identifier_eq_dec : EqDecision DistArchiveIdentifier.
Proof. solve_decision. Defined.
#[export] Instance dist_archive_identifier_countable : Countable DistArchiveIdentifier.
Proof.
  refine (inj_countable' (λ i, (dai_identifier i, dai_archive_type i))
    (λ t, mkDistArchiveIdentifier t.1 t.2) _). by intros [].
Defined.

(** [FromStr for ArchiveIdentifier] *)
Definition archive_identifier_from_str (s : list N) : result (list N) ArchiveIdentifier :=
  match rsplitn 3 c_dash s with
  | build_string :: version :: name :: _ => Ok (mkArchiveIdentifier name version build_string)
  | _ => Err (txt "invalid archive identifier")
  end.

(** [Display for ArchiveIdentifier] *)
Definition archive_identifier_display (i : ArchiveIdentifier) : list N :=
  ai_name i ++ [c_dash] ++ ai_version i ++ [c_dash] ++ ai_build_string i.

Definition conda_try_from_filename (filename : list N) : option CondaArchiveIdentifier :=
  '(filename_without_ext, archive_type) ← conda_split_str filename;
  match archive_identifier_from_str filename_without_ext with
  | Ok identifier => Some (mkCondaArchiveIdentifier identifier archive_type)
  | Err _ => None
  end.
Definition conda_archive_identifier_display (i : CondaArchiveIdentifier) : list N :=
  archive_identifier_display (cai_identifier i) ++ conda_extension (cai_archive_type i).
Definition conda_archive_identifier_from_str (s : list N) : result (list N) CondaArchiveIdentifier :=
  match conda_try_from_filename s with
  | Some i => Ok i
  | None => Err (txt "invalid archive identifier")
  end.

Definition with_archive_type (self : DistArchiveIdentifier) (archive_type : DistArchiveType)
  : DistArchiveIdentifier := mkDistArchiveIdentifier (dai_identifier self) archive_type.
Definition dist_try_from_filename (filename : list N) : option DistArchiveIdentifier :=
  '(filename_without_ext, archive_type) ← dist_split_str filename;
  match archive_identifier_from_str filename_without_ext with
  | Ok identifier => Some (mkDistArchiveIdentifier identifier archive_type)
  | Err _ => None
  end.
Definition dist_archive_identifier_display (i : DistArchiveIdentifier) : list N :=
  archive_identifier_display (dai_identifier i) ++ dist_extension (dai_archive_type i).
Definition dist_archive_identifier_from_str (s : list N) : result (list N) DistArchiveIdentifier :=
  match dist_try_from_filename s with
  | Some i => Ok i
  | None => Err (txt "invalid archive identifier")
  end.

(** ** Lemmas *)

Lemma strip_suffix_Some s suffix r : strip_suffix s suffix = Some r ↔ s = r ++ suffix.
Proof.
  unfold strip_suffix. case_bool_decide as H.
  - destruct H as [k ->]. rewrite length_app, Nat.add_sub, take_app_length. split.
    + by intros [= ->].
    + intros Heq. f_equal. by apply (inj (.++ suffix)).
  - split; [done|]. intros ->. destruct H. by exists r.
Qed.

Lemma rsplit_once_None c s : rsplit_once c s = None ↔ c ∉ s.
Proof.
  induction s as [|d s IH]; simpl; [split; [set_solver|done]|].
  destruct (rsplit_once c s) as [[before after]|]; [split; [done|]|].
  - intros H. assert (c ∈ s); [|set_solver]. destruct (decide (c ∈ s)) as [|Hn]; [done|].
    by apply IH in Hn.
  - assert (c ∉ s) by by apply IH. destruct (N.eqb_spec d c); split; set_solver.
Qed.

Lemma rsplit_once_app c before after :
  c ∉ after → rsplit_once c (before ++ c :: after) = Some (before, after).
Proof.
  intros Ha. induction before as [|d before IH]; simpl.
  - by rewrite (proj2 (rsplit_once_None c after) Ha), N.eqb_refl.
  - by rewrite IH.
Qed.

Lemma rsplit_once_Some c s before after :
  rsplit_once c s = Some (before, after) ↔ s = before ++ c :: after ∧ c ∉ after.
Proof.
  split; [|intros [-> ?]; by apply rsplit_once_app].
  revert before. induction s as [|d s IH]; intros before; simpl; [done|].
  destruct (rsplit_once c s) as [[b a]|] eqn:E.
  - intros [= <- ->]. by destruct (IH b eq_refl) as [-> ?].
  - destruct (N.eqb_spec d c) as [->|]; [|done]. intros [= <- <-].
    split; [done|]. by apply rsplit_once_None.
Qed.

(** What [ArchiveIdentifier::from_str] accepts. *)
Definition identifier_wf (i : ArchiveIdentifier) : Prop :=
  c_dash ∉ ai_version i ∧ c_dash ∉ ai_build_string i.

Lemma archive_identifier_from_str_Ok s i :
  archive_identifier_from_str s = Ok i ↔ s = archive_identifier_display i ∧ identifier_wf i.
Proof.
  unfold archive_identifier_from_str, archive_identifier_display, identifier_wf. simpl. split.
  - destruct (rsplit_once c_dash s) as [[rest b]|] eqn:E1; [|done].
    destruct (rsplit_once c_dash rest) as [[n v]|] eqn:E2; [|done]. intros [= <-]. simpl.
    apply rsplit_once_Some in E1 as [-> Hb], E2 as [-> Hv].
    split; [|done]. by rewrite <-!(assoc_L (++)).
  - intros [-> [Hv Hb]].
    replace (ai_name i ++ c_dash :: ai_version i ++ c_dash :: ai_build_string i)
      with ((ai_name i ++ c_dash :: ai_version i) ++ c_dash :: ai_build_string i)
      by by rewrite <-!(assoc_L (++)).
    rewrite (rsplit_once_app _ _ _ Hb), (rsplit_once_app _ _ _ Hv). by destruct i.
Qed.

(** The three extensions exclude each other. *)
Lemma extension_inj a b t u : a ++ dist_extension t = b ++ dist_extension u → t = u ∧ a = b.
Proof.
  intros H. assert (t = u) as ->.
  { assert (∀ l k : list N, last (l ++ k) = match last k with Some c => Some c | None => last l end) as Hl
      by (intros; apply last_app).
    apply (f_equal last) in H as H1. rewrite !Hl in H1.
    by destruct t as [[]|[]], u as [[]|[]]; vm_compute in H1. }
  split; [done|]. by apply (inj (.++ dist_extension u)).
Qed.

Lemma dist_split_str_Some s r t : dist_split_str s = Some (r, t) ↔ s = r ++ dist_extension t.
Proof.
  unfold dist_split_str, conda_split_str, wheel_split_str. split.
  - intros H. repeat case_match; simplify_eq; by apply strip_suffix_Some.
  - intros ->. repeat case_match; simplify_eq;
      repeat match goal with
      | H : strip_suffix _ _ = Some _ |- _ => apply strip_suffix_Some in H
      end.
    all: try match goal with
      | H : _ ++ dist_extension ?t = ?l ++ _ |- Some (?l, ?u) = _ =>
          apply (extension_inj _ l t u) in H as [-> ->]; done
      end.
    exfalso. destruct t as [[]|[]]; simpl in *;
      match goal with H : strip_suffix (?l ++ ?e) ?e = None |- _ =>
        by rewrite (proj2 (strip_suffix_Some _ _ l) eq_refl) in H end.
Qed.

(** An archive name parses to an identifier exactly when it is what the identifier
    prints and neither the version nor the build string has a dash, so parsing and
    printing are inverse to each other.  The formats are told apart by the extension. *)
Theorem archive_identifier_roundtrip s i :
  dist_try_from_filename s = Some i ↔ s = dist_archive_identifier_display i ∧ identifier_wf (dai_identifier i).
Proof.
  unfold dist_try_from_filename, dist_archive_identifier_display. destruct i as [i t]. simpl. split.
  - destruct (dist_split_str s) as [[r u]|] eqn:E; [|done]. cbn [mbind option_bind].
    destruct (archive_identifier_from_str r) as [j|] eqn:Er; [|done]. intros [= -> ->].
    apply dist_split_str_Some in E as ->. by apply archive_identifier_from_str_Ok in Er as [-> ?].
  - intros [-> H]. rewrite (proj2 (dist_split_str_Some _ _ _) eq_refl). cbn [mbind option_bind].
    by rewrite (proj2 (archive_identifier_from_str_Ok _ i) (conj eq_refl H)).
Qed.

(** [CondaArchiveIdentifier] is the part of the names with a conda extension. *)
Lemma conda_try_from_filename_dist s i :
  conda_try_from_filename s = Some i ↔
  dist_try_from_filename s = Some (mkDistArchiveIdentifier (cai_identifier i) (DistConda (cai_archive_type i))).
Proof.
  unfold conda_try_from_filename, dist_try_from_filename, dist_split_str. destruct i as [i t].
  destruct (conda_split_str s) as [[r u]|]; cbn [mbind option_bind];
    [|destruct (wheel_split_str s) as [[r u]|]; cbn [mbind option_bind]];
    repeat case_match; naive_solver.
Qed.

(** The preference: [.conda] before [.tar.bz2] before [.whl]. *)
Definition preference_rank (t : DistArchiveType) : N :=
  match t with DistConda Conda => 2 | DistConda TarBz2 => 1 | DistWheel Whl => 0 end%N.
Lemma cmp_preference_rank a b : cmp_preference a b = N.compare (preference_rank a) (preference_rank b).
Proof. by destruct a as [[]|[]], b as [[]|[]]. Qed.
#[export] Instance cmp_preference_order : TotalOrder cmp_preference.
Proof.
  split; [split|].
  - by intros [[]|[]] [[]|[]].
  - by intros [[]|[]] [[]|[]] [[]|[]].
  - intros [[]|[]] [[]|[]]; vm_compute; naive_solver.
Qed.
