(* ===== verification/Matchers.v ===== *)
(** * Matchers of strings and package names

    [rattler_conda_types/src/match_spec/matcher.rs] and [package_name_matcher.rs]:
    a build string or a name is matched exactly, by a glob or by a regular expression.
    The globs with one star at an end, and the star alone, have a representation of
    their own that is matched on the bytes. *)
From S2P Require Import Prelude Utf PackageName Archive.

(** ** The crates that are called *)

(** The text [t] matches the wildcards of [p]: a star stands for any characters. *)
Fixpoint wild (eqc : N → N → bool) (p t : list N) : bool :=
  match p with
  | [] => match t with [] => true | _ => false end
  | c :: p' =>
      if (c =? c_star)%N then
        (fix any (t : list N) : bool :=
           wild eqc p' t || match t with [] => false | _ :: t' => any t' end) t
      else match t with d :: t' => eqc c d && wild eqc p' t' | [] => false end
  end.

Definition ascii_eq_ci (c d : N) : bool := (ascii_lower c =? ascii_lower d)%N.
Definition char_eq (case_sensitive : bool) : N → N → bool :=
  if case_sensitive then N.eqb else ascii_eq_ci.

(** Characters that mean themselves in a glob. *)
Definition is_literal_char (c : N) : bool :=
  negb (bool_decide (c ∈ [c_star; 63 (* ? *); 91 (* [ *); 93 (* ] *); 47 (* / *); 92 (* \ *)]%N)).
(** A pattern of such characters and single stars. *)
Fixpoint simple_glob (p : list N) : bool :=
  match p with
  | [] => true
  | c :: p' =>
      (is_literal_char c
       || (c =? c_star)%N && match p' with d :: _ => negb (d =? c_star)%N | [] => true end)
      && simple_glob p'
  end.

(** [glob::Pattern]: a star matches any sequence of characters, also an empty one; the case
    is ignored of ASCII letters only. *)
Class Glob := {
  Pattern : Type;
  pattern_new : list N → option Pattern;
  pattern_as_str : Pattern → list N;
  pattern_matches_with : Pattern → bool → list N → bool;
  pattern_as_str_new s p : pattern_new s = Some p → pattern_as_str p = s;
  pattern_simple s : simple_glob s = true → is_Some (pattern_new s);
  pattern_matches_simple s p cs t : pattern_new s = Some p → simple_glob s = true →
    pattern_matches_with p cs t = wild (char_eq cs) s t
}.

#[export, refine] Instance glob_ref : Glob := {|
  Pattern := list N;
  pattern_new s := if simple_glob s then Some s else None;
  pattern_as_str p := p;
  pattern_matches_with p cs t := wild (char_eq cs) p t
|}.
Proof.
  - intros s p. destruct (simple_glob s); [|done]. by intros [= ->].
  - intros s ->. by eexists.
  - intros s p cs t. destruct (simple_glob s); [|done]. by intros [= ->].
Defined.

(** [fancy_regex::Regex]: a match may fail, when it backtracks too much. *)
Class FancyRegex := {
  FRegex : Type;
  regex_new : list N → option FRegex;
  regex_as_str : FRegex → list N;
  regex_is_match : FRegex → list N → option bool;
  regex_as_str_new s r : regex_new s = Some r → regex_as_str r = s
}.

(** An instance that knows no regular expression. *)
#[export, refine] Instance fancy_regex_none : FancyRegex := {|
  FRegex := Empty_set;
  regex_new _ := None;
  regex_as_str := Empty_set_rect _;
  regex_is_match r := Empty_set_rect _ r
|}.
Proof. done. Defined.

(** ** Definitions *)
Section matchers.
Context `{GL : Glob} `{FR : FancyRegex}.

(** [RegexMatcher] *)
Record RegexMatcher := mkRegexMatcher { rm_original : list N; rm_compiled : FRegex }.

Definition regex_matcher_new (pattern : list N) : option RegexMatcher :=
  compiled ← regex_new (txt "(?i)" ++ pattern);
  Some (mkRegexMatcher pattern compiled).

Inductive StringMatcher : Type :=
| Any
| Exact (s : list N)
| Prefix (s : list N)
| Suffix (s : list N)
| SGlob (p : Pattern)
| SRegex (r : RegexMatcher).

(** [<[u8]>::eq_ignore_ascii_case] *)
Definition bytes_eq_ignore_ascii_case (a b : list N) : bool := eq_ignore_ascii_case a b.

(** [PartialEq] *)
Definition string_matcher_eqb (a b : StringMatcher) : bool :=
  match a, b with
  | Any, Any => true
  | Exact s1, Exact s2 | Prefix s1, Prefix s2 | Suffix s1, Suffix s2 => bool_decide (s1 = s2)
  | SGlob s1, SGlob s2 => bool_decide (pattern_as_str s1 = pattern_as_str s2)
  | SRegex s1, SRegex s2 => bool_decide (rm_original s1 = rm_original s2)
  | _, _ => false
  end.

Definition string_matcher_matches (self : StringMatcher) (other : list N) : bool :=
  match self with
  | Any => true
  | Exact s => eq_ignore_ascii_case s other
  | Prefix prefix =>
      if (length (utf8 prefix) <=? length (utf8 other))%nat
      then bytes_eq_ignore_ascii_case (take (length (utf8 prefix)) (utf8 other)) (utf8 prefix)
      else false
  | Suffix suffix =>
      if (length (utf8 suffix) <=? length (utf8 other))%nat
      then bytes_eq_ignore_ascii_case (drop (length (utf8 other) - length (utf8 suffix)) (utf8 other)) (utf8 suffix)
      else false
  | SGlob glob => pattern_matches_with glob false other
  | SRegex regex => default false (regex_is_match (rm_compiled regex) other)
  end.

Definition is_glob_literal (literal : list N) : bool := forallb is_literal_char literal.

Inductive StringMatcherParseError : Type := InvalidGlob (glob : list N) | InvalidRegex (regex : list N).

(** [str::strip_prefix] and [ends_with] of one character *)
Definition strip_prefix_char (c : N) (s : list N) : option (list N) :=
  match s with d :: s' => if (d =? c)%N then Some s' else None | [] => None end.
Definition is_anchored (s : list N) : bool :=
  bool_decide (head s = Some c_caret) && bool_decide (last s = Some c_dollar).

Definition string_matcher_from_str (s : list N) : result StringMatcherParseError StringMatcher :=
  if is_anchored s then
    match regex_matcher_new s with Some r => Ok (SRegex r) | None => Err (InvalidRegex s) end
  else if bool_decide (s = [c_star]) then Ok Any
  else
    let glob_or_exact :=
      if bool_decide (c_star ∈ s) then
        match pattern_new s with Some p => Ok (SGlob p) | None => Err (InvalidGlob s) end
      else Ok (Exact s) in
    let suffix_or_glob :=
      match strip_prefix_char c_star s with
      | Some suffix => if is_glob_literal suffix then Ok (Suffix suffix) else glob_or_exact
      | None => glob_or_exact
      end in
    match strip_suffix s [c_star] with
    | Some prefix => if is_glob_literal prefix then Ok (Prefix prefix) else suffix_or_glob
    | None => suffix_or_glob
    end.

(** [Display] *)
Definition string_matcher_display (self : StringMatcher) : list N :=
  match self with
  | Any => [c_star]
  | Exact s => s
  | Prefix s => s ++ [c_star]
  | Suffix s => c_star :: s
  | SGlob s => pattern_as_str s
  | SRegex s => rm_original s
  end.

(** *** [PackageNameMatcher] *)
Inductive PackageNameMatcher : Type :=
| NExact (name : PackageName)
| NGlob (p : Pattern)
| NRegex (r : FRegex).

Definition name_matcher_eqb (a b : PackageNameMatcher) : bool :=
  match a, b with
  | NExact s1, NExact s2 => package_name_eqb s1 s2
  | NGlob s1, NGlob s2 => bool_decide (pattern_as_str s1 = pattern_as_str s2)
  | NRegex s1, NRegex s2 => bool_decide (regex_as_str s1 = regex_as_str s2)
  | _, _ => false
  end.

Definition name_matcher_matches (self : PackageNameMatcher) (other : PackageName) : bool :=
  match self with
  | NExact s => package_name_eqb s other
  | NGlob glob => pattern_matches_with glob true (as_normalized other)
  | NRegex regex => default false (regex_is_match regex (as_normalized other))
  end.

Definition as_exact (self : PackageNameMatcher) : option PackageName :=
  match self with NExact name => Some name | _ => None end.
Definition as_glob (self : PackageNameMatcher) : option Pattern :=
  match self with NGlob p => Some p | _ => None end.
Definition as_regex (self : PackageNameMatcher) : option FRegex :=
  match self with NRegex r => Some r | _ => None end.

Inductive PackageNameMatcherParseError : Type :=
| NameGlob (glob : list N)
| NameRegex (regex : list N)
| NamePackageName (name : list N) (source : InvalidPackageNameError).

Definition name_matcher_from_str (s : list N) : result PackageNameMatcherParseError PackageNameMatcher :=
  if is_anchored s then
    match regex_new s with Some r => Ok (NRegex r) | None => Err (NameRegex s) end
  else if bool_decide (c_star ∈ s) then
    match pattern_new s with Some p => Ok (NGlob p) | None => Err (NameGlob s) end
  else
    match package_name_try_from s with
    | Ok name => Ok (NExact name)
    | Err e => Err (NamePackageName s e)
    end.

Definition name_matcher_display (self : PackageNameMatcher) : list N :=
  match self with
  | NExact s => as_normalized s
  | NGlob s => pattern_as_str s
  | NRegex s => regex_as_str s
  end.
End matchers.

(** ** Lemmas: UTF-8 *)

Definition scalars (s : list N) : Prop := Forall (λ c, is_scalar c = true) s.

Lemma utf8_cons c s : utf8 (c :: s) = utf8_char c ++ utf8 s.
Proof. done. Qed.

(** UTF-8 is a prefix code. *)
Lemma utf8_prefix a b : scalars a → scalars b → utf8 a `prefix_of` utf8 b → a `prefix_of` b.
Proof.
  revert b. induction a as [|c a IH]; intros b Ha Hb [k Hk]; [apply prefix_nil|].
  apply Forall_cons in Ha as [Hc Ha]. rewrite utf8_cons, <-(assoc_L (++)) in Hk.
  destruct (utf8_next_char c (utf8 a ++ k) Hc) as (x & xs & Ex & Hx).
  destruct b as [|d b]; [by rewrite Ex in Hk|]. apply Forall_cons in Hb as [Hd Hb].
  rewrite utf8_cons in Hk. destruct (utf8_next_char d (utf8 b) Hd) as (y & ys & Ey & Hy).
  rewrite Ex, Ey in Hk. injection Hk as -> Hk. rewrite Hk, Hx in Hy. injection Hy as -> Hb'.
  apply prefix_cons, IH; [done|done|]. by exists k.
Qed.

(** Where a character starts can be seen from its first byte. *)
Lemma utf8_char_bytes c k r :
  is_scalar c = true → utf8_char c = k ++ r → k ≠ [] →
  match r with b :: _ => is_continuation b = true | [] => True end.
Proof.
  unfold is_scalar. intros Hc.
  assert (c < 1114112)%N as Hmax.
  { destruct (N.ltb_spec c 55296), (N.leb_spec 57344 c), (N.ltb_spec c 1114112); simpl in Hc; done || lia. }
  unfold utf8_char, is_continuation. intros E Hk. destruct k as [|x k]; [done|]. clear Hk.
  destruct r as [|b r]; [done|]. apply andb_true_iff.
  assert (b ∈ tail (utf8_char c)) as Hb.
  { unfold utf8_char. rewrite E. simpl. set_solver. }
  unfold utf8_char in Hb. rewrite N.leb_le, N.ltb_lt.
  repeat case_match; simpl in Hb; repeat (apply elem_of_cons in Hb as [->|Hb]); try lia;
    by apply elem_of_nil in Hb.
Qed.

Lemma utf8_char_first c : is_scalar c = true → ∃ b bs, utf8_char c = b :: bs ∧ is_continuation b = false.
Proof.
  unfold is_scalar. intros Hc.
  assert (c < 1114112)%N as Hmax.
  { destruct (N.ltb_spec c 55296), (N.leb_spec 57344 c), (N.ltb_spec c 1114112); simpl in Hc; done || lia. }
  unfold utf8_char, is_continuation.
  destruct (N.ltb_spec c 128); [|destruct (N.ltb_spec c 2048); [|destruct (N.ltb_spec c 65536)]];
    eexists _, _; (split; [done|]); apply andb_false_iff; rewrite N.leb_gt, N.ltb_ge; lia.
Qed.

Lemma utf8_suffix a b : scalars a → scalars b → utf8 a `suffix_of` utf8 b → a `suffix_of` b.
Proof.
  intros Ha. induction b as [|d b IH]; intros Hb [k Hk].
  { destruct a as [|c a]; [apply suffix_nil|]. exfalso. apply Forall_cons in Ha as [Hc _].
    destruct (utf8_char_first c Hc) as (x & xs & Ex & _). rewrite utf8_cons, Ex in Hk. by destruct k. }
  destruct (decide (k = [])) as [->|Hne].
  { exists []. symmetry. by apply utf8_inj. }
  apply Forall_cons in Hb as [Hd Hb]. rewrite utf8_cons in Hk.
  apply app_eq_inv in Hk as [(r & Er & Hr)|(k' & -> & Hk)].
  2: { apply suffix_cons_r, IH; [done|]. by exists k'. }
  - destruct r as [|y r].
    + apply suffix_cons_r, IH; [done|]. exists []. by rewrite app_nil_l in *.
    + pose proof (utf8_char_bytes d k (y :: r) Hd Er Hne) as Hy. simpl in Hy.
      destruct a as [|c a]; [done|]. apply Forall_cons in Ha as [Hc _].
      destruct (utf8_char_first c Hc) as (x & xs & Ex & Hx). rewrite utf8_cons, Ex in Hr.
      simpl in Hr. injection Hr as -> _. congruence.
Qed.

Lemma ascii_lower_high b : (128 <= b)%N → ascii_lower b = b.
Proof.
  intros Hb. unfold ascii_lower, is_ascii_uppercase.
  by rewrite (proj2 (andb_false_iff _ _)) by (rewrite !N.leb_gt; lia).
Qed.

Lemma ascii_lower_low b : (b < 128)%N → (ascii_lower b < 128)%N.
Proof. unfold ascii_lower, is_ascii_uppercase. case_match eqn:E; bool_hyps; lia. Qed.

Lemma lower_utf8 s : to_ascii_lowercase (utf8 s) = utf8 (to_ascii_lowercase s).
Proof.
  unfold to_ascii_lowercase. induction s as [|c s IH]; [done|].
  rewrite utf8_cons, fmap_app, IH, fmap_cons, utf8_cons. f_equal.
  destruct (N.ltb_spec c 128) as [H|H].
  - unfold utf8_char. rewrite (proj2 (N.ltb_lt _ _) H), (proj2 (N.ltb_lt _ _)); [done|].
    by apply ascii_lower_low.
  - rewrite (ascii_lower_high c H). unfold utf8_char. rewrite (proj2 (N.ltb_ge _ _) H).
    repeat case_match; csimpl; rewrite !ascii_lower_high by lia; done.
Qed.

Lemma scalars_lower s : scalars s → scalars (to_ascii_lowercase s).
Proof.
  unfold scalars, to_ascii_lowercase. rewrite Forall_fmap. intros Hs. eapply Forall_impl; [exact Hs|]. intros c. simpl.
  unfold ascii_lower. case_match eqn:E; [|done]. unfold is_ascii_uppercase in E. bool_hyps.
  intros _. unfold is_scalar. by rewrite (proj2 (N.ltb_lt _ _)) by lia.
Qed.

(** ** Lemmas: wildcards *)

Local Notation low := to_ascii_lowercase.

Lemma eq_ignore_ascii_case_low a b : eq_ignore_ascii_case a b = true ↔ low a = low b.
Proof. unfold eq_ignore_ascii_case. apply bool_decide_eq_true. Qed.

Lemma wild_star eqc p t :
  wild eqc (c_star :: p) t = true ↔ ∃ t1 t2, t = t1 ++ t2 ∧ wild eqc p t2 = true.
Proof.
  cbn [wild]. rewrite N.eqb_refl. induction t as [|d t IH].
  - rewrite orb_false_r. split; [intros H; by exists [], []|].
    intros ([|] & [|] & E & H); done.
  - rewrite orb_true_iff, IH. split.
    + intros [H|(t1 & t2 & -> & H)]; [by exists [], (d :: t)|by exists (d :: t1), t2].
    + intros ([|e t1] & t2 & E & H); simplify_eq/=; [by left|right; by exists t1, t2].
Qed.

Lemma wild_char eqc c p t :
  c ≠ c_star → wild eqc (c :: p) t = true ↔ ∃ d t', t = d :: t' ∧ eqc c d = true ∧ wild eqc p t' = true.
Proof.
  intros Hc. cbn [wild]. rewrite (proj2 (N.eqb_neq _ _) Hc).
  destruct t as [|d t]; [split; [done|by intros (? & ? & ? & _)]|].
  rewrite andb_true_iff. split; [by intros [? ?]; eauto|by intros (? & ? & [= <- <-] & ?)].
Qed.

Lemma wild_exact p t : c_star ∉ p → wild ascii_eq_ci p t = true ↔ low p = low t.
Proof.
  revert t. induction p as [|c p IH]; intros t Hp.
  { destruct t; simpl; split; done. }
  apply not_elem_of_cons in Hp as [Hc Hp]. rewrite wild_char by done. split.
  - intros (d & t' & -> & Hd & Ht). apply IH in Ht; [|done]. unfold low in *. csimpl. rewrite Ht.
    f_equal. by apply N.eqb_eq.
  - destruct t as [|d t]; [done|]. unfold low. csimpl. intros [= Hd Ht].
    exists d, t. split; [done|]. split; [by apply N.eqb_eq|by apply IH].
Qed.

Lemma wild_prefix p t :
  c_star ∉ p → wild ascii_eq_ci (p ++ [c_star]) t = true ↔ low p `prefix_of` low t.
Proof.
  revert t. induction p as [|c p IH]; intros t Hp.
  { simpl app. rewrite wild_star. split; [intros _; apply prefix_nil|].
    intros _. exists t, []. by rewrite app_nil_r. }
  apply not_elem_of_cons in Hp as [Hc Hp]. simpl app. rewrite wild_char by done. split.
  - intros (d & t' & -> & Hd%N.eqb_eq & Ht). apply IH in Ht; [|done]. unfold low in *. csimpl.
    rewrite Hd. by apply prefix_cons.
  - destruct t as [|d t]; [by intros [k Hk]|]. unfold low. csimpl. intros Hk.
    apply prefix_cons_inv_1 in Hk as Hd. apply prefix_cons_inv_2 in Hk.
    exists d, t. split; [done|]. split; [by apply N.eqb_eq|by apply IH].
Qed.

Lemma wild_suffix p t :
  c_star ∉ p → wild ascii_eq_ci (c_star :: p) t = true ↔ low p `suffix_of` low t.
Proof.
  intros Hp. rewrite wild_star. split.
  - intros (t1 & t2 & -> & Ht%wild_exact); [|done]. exists (low t1).
    unfold low in *. by rewrite fmap_app, Ht.
  - intros [k Hk]. unfold low in Hk. apply fmap_app_inv in Hk as (t1 & t2 & _ & Ht2 & ->).
    exists t1, t2. split; [done|]. by apply wild_exact.
Qed.

(** ** The matchers on the bytes *)
Section properties.
Context `{GL : Glob} `{FR : FancyRegex}.

Lemma prefix_bytes p t :
  scalars p → scalars t →
  string_matcher_matches (Prefix p) t = true ↔ low p `prefix_of` low t.
Proof.
  intros Hp Ht. simpl. unfold bytes_eq_ignore_ascii_case.
  assert (low p `prefix_of` low t ↔ low (utf8 p) `prefix_of` low (utf8 t)) as ->.
  { rewrite !lower_utf8. split.
    - intros [k ->]. exists (utf8 k). apply utf8_app.
    - apply utf8_prefix; by apply scalars_lower. }
  destruct (Nat.leb_spec (length (utf8 p)) (length (utf8 t))) as [Hl|Hl].
  - rewrite eq_ignore_ascii_case_low. unfold low. rewrite fmap_take. split.
    + intros <-. apply prefix_take.
    + intros [k ->]. by rewrite take_app_length' by (by rewrite length_fmap).
  - split; [done|]. intros Hk%prefix_length. unfold low in Hk. rewrite !length_fmap in Hk. lia.
Qed.

Lemma suffix_bytes p t :
  scalars p → scalars t →
  string_matcher_matches (Suffix p) t = true ↔ low p `suffix_of` low t.
Proof.
  intros Hp Ht. simpl. unfold bytes_eq_ignore_ascii_case.
  assert (low p `suffix_of` low t ↔ low (utf8 p) `suffix_of` low (utf8 t)) as ->.
  { rewrite !lower_utf8. split.
    - intros [k ->]. exists (utf8 k). apply utf8_app.
    - apply utf8_suffix; by apply scalars_lower. }
  destruct (Nat.leb_spec (length (utf8 p)) (length (utf8 t))) as [Hl|Hl].
  - rewrite eq_ignore_ascii_case_low. unfold low. rewrite fmap_drop. split.
    + intros <-. apply suffix_drop.
    + intros [k Hk]. rewrite Hk. apply drop_app_length'.
      apply (f_equal length) in Hk. rewrite length_app, !length_fmap in Hk. lia.
  - split; [done|]. intros Hk%suffix_length. unfold low in Hk. rewrite !length_fmap in Hk. lia.
Qed.

Lemma strip_prefix_char_Some c s r : strip_prefix_char c s = Some r → s = c :: r.
Proof. destruct s as [|d s]; simpl; [done|]. destruct (N.eqb_spec d c) as [->|]; [|done]. by intros [= ->]. Qed.

Lemma literal_no_star p : is_glob_literal p = true → c_star ∉ p.
Proof.
  unfold is_glob_literal. rewrite forallb_forall. intros H Hin. apply list_elem_of_In, H in Hin. done.
Qed.

(** Whichever representation [from_str] chooses, the matcher of a text without the
    characters that are special to globs (a star apart) matches the wildcards of the
    text up to the case of ASCII letters; a text without a star is matched as a whole,
    special characters included. *)
Theorem string_matcher_from_str_spec s t :
  scalars s → scalars t → is_anchored s = false → c_star ∉ s ∨ simple_glob s = true →
  ∃ m, string_matcher_from_str s = Ok m ∧ string_matcher_matches m t = wild ascii_eq_ci s t.
Proof.
  intros Hs Ht Ha Hg. unfold string_matcher_from_str. rewrite Ha.
  assert (∃ m, (if bool_decide (c_star ∈ s) then
      match pattern_new s with Some p => Ok (SGlob p) | None => Err (InvalidGlob s) end
    else Ok (Exact s)) = Ok m ∧ string_matcher_matches m t = wild ascii_eq_ci s t) as Hglob.
  { case_bool_decide as Hin.
    - destruct Hg as [?|Hg]; [done|]. destruct (pattern_simple s Hg) as [p Ep]. rewrite Ep.
      eexists. split; [done|]. simpl. by rewrite (pattern_matches_simple s p false t Ep Hg).
    - eexists. split; [done|]. simpl. apply eq_true_iff_eq. by rewrite eq_ignore_ascii_case_low, wild_exact. }
  destruct (decide (s = [c_star])) as [->|Hstar];
    [rewrite bool_decide_true by done|rewrite bool_decide_false by done].
  { eexists. split; [done|]. symmetry. apply wild_star. exists t, []. by rewrite app_nil_r. }
  assert (∀ q, s = c_star :: q → is_glob_literal q = true →
    string_matcher_matches (Suffix q) t = wild ascii_eq_ci s t) as Hsuf.
  { intros q -> Hq. apply Forall_cons in Hs as [_ Hs]. apply eq_true_iff_eq.
    by rewrite suffix_bytes, wild_suffix by auto using literal_no_star. }
  assert (∀ q, s = q ++ [c_star] → is_glob_literal q = true →
    string_matcher_matches (Prefix q) t = wild ascii_eq_ci s t) as Hpre.
  { intros q -> Hq. apply Forall_app in Hs as [Hs _]. apply eq_true_iff_eq.
    by rewrite prefix_bytes, wild_prefix by auto using literal_no_star. }
  assert (∃ m, match strip_prefix_char c_star s with
    | Some suffix => if is_glob_literal suffix then Ok (Suffix suffix) else
        if bool_decide (c_star ∈ s) then
          match pattern_new s with Some p => Ok (SGlob p) | None => Err (InvalidGlob s) end
        else Ok (Exact s)
    | None => if bool_decide (c_star ∈ s) then
          match pattern_new s with Some p => Ok (SGlob p) | None => Err (InvalidGlob s) end
        else Ok (Exact s)
    end = Ok m ∧ string_matcher_matches m t = wild ascii_eq_ci s t) as Hsuffix.
  { destruct (strip_prefix_char c_star s) as [r|] eqn:Er; [|exact Hglob].
    destruct (is_glob_literal r) eqn:El; [|exact Hglob]. apply strip_prefix_char_Some in Er. eauto. }
  destruct (strip_suffix s [c_star]) as [q|] eqn:Eq; [|exact Hsuffix].
  destruct (is_glob_literal q) eqn:El; [|exact Hsuffix]. apply strip_suffix_Some in Eq. eauto.
Qed.

(** Printing a parsed matcher gives the text back. *)
Lemma string_matcher_display_from_str s m :
  string_matcher_from_str s = Ok m → string_matcher_display m = s.
Proof.
  unfold string_matcher_from_str, regex_matcher_new.
  destruct (is_anchored s).
  { destruct (regex_new _); [|done]. by intros [= <-]. }
  destruct (decide (s = [c_star])) as [->|Hstar];
    [rewrite bool_decide_true by done|rewrite bool_decide_false by done]; [by intros [= <-]|].
  assert ((if bool_decide (c_star ∈ s) then
      match pattern_new s with Some p => Ok (SGlob p) | None => Err (InvalidGlob s) end
    else Ok (Exact s)) = Ok m → string_matcher_display m = s) as Hglob.
  { case_bool_decide; [|by intros [= <-]]. destruct (pattern_new s) as [p|] eqn:Ep; [|done].
    intros [= <-]. by apply pattern_as_str_new. }
  destruct (strip_suffix s [c_star]) as [q|] eqn:Eq; [destruct (is_glob_literal q)|].
  { intros [= <-]. by apply strip_suffix_Some in Eq. }
  all: destruct (strip_prefix_char c_star s) as [r|] eqn:Er; [|done];
    destruct (is_glob_literal r); [|done]; intros [= <-]; by apply strip_prefix_char_Some in Er.
Qed.

Lemma wild_chars eqc p t c : wild eqc p t = true → c ∈ p → c ≠ c_star → ∃ d, d ∈ t ∧ eqc c d = true.
Proof.
  revert t. induction p as [|e p IH]; intros t H Hc Hne; [by apply elem_of_nil in Hc|].
  destruct (decide (e = c_star)) as [->|He].
  - apply wild_star in H as (t1 & t2 & -> & H). apply elem_of_cons in Hc as [->|Hc]; [done|].
    destruct (IH t2 H Hc Hne) as (d & ? & ?). exists d. set_solver.
  - apply wild_char in H as (d & t' & -> & Hd & H); [|done].
    apply elem_of_cons in Hc as [->|Hc]; [exists d; set_solver|].
    destruct (IH t' H Hc Hne) as (x & ? & ?). exists x. set_solver.
Qed.

(** A glob with an upper-case letter matches no package name: the name is
    normalised, the glob is not. *)
Lemma name_glob_upper_never_matches s p name c :
  pattern_new s = Some p → simple_glob s = true → c ∈ s → is_ascii_uppercase c = true →
  existsb is_ascii_uppercase (as_normalized name) = false →
  name_matcher_matches (NGlob p) name = false.
Proof.
  intros Ep Hs Hc Hu Hn. simpl. rewrite (pattern_matches_simple s p true _ Ep Hs). simpl.
  apply not_true_iff_false. intros Hw. destruct (wild_chars _ _ _ c Hw Hc) as (d & Hd & Hcd%N.eqb_eq).
  { intros ->. done. }
  apply not_true_iff_false in Hn. apply Hn, existsb_exists. exists d. split; [by apply list_elem_of_In|].
  by subst.
Qed.

(** Printing a parsed name matcher and parsing the text again gives an equal matcher. *)
Lemma name_matcher_display_from_str s m :
  name_matcher_from_str s = Ok m →
  match m with NExact n => name_matcher_display m = to_ascii_lowercase s | _ => name_matcher_display m = s end.
Proof.
  unfold name_matcher_from_str. destruct (is_anchored s).
  { destruct (regex_new s) as [r|] eqn:E; [|done]. intros [= <-]. by apply regex_as_str_new. }
  case_bool_decide.
  { destruct (pattern_new s) as [p|] eqn:E; [|done]. intros [= <-]. by apply pattern_as_str_new. }
  destruct (package_name_try_from s) as [n|] eqn:E; [|done]. intros [= <-]. simpl.
  revert E. unfold package_name_try_from. destruct (negb _); [done|]. intros [= <-].
  unfold as_normalized. simpl. destruct (existsb is_ascii_uppercase s) eqn:Eu; [done|]. simpl.
  symmetry. by apply lower_no_upper.
Qed.
End properties.

Definition build_glob : list N := txt "py3*_cuda*".
Lemma string_matcher_from_str_spec_witness :
  simple_glob build_glob = true ∧
  ∃ m, string_matcher_from_str build_glob = Ok m
    ∧ string_matcher_matches m (txt "PY310_cuda118h1") = true.
Proof.
  split; [vm_compute; reflexivity|].
  destruct (string_matcher_from_str_spec build_glob (txt "PY310_cuda118h1")) as (m & E & H).
  - repeat constructor.
  - repeat constructor.
  - vm_compute; reflexivity.
  - right. vm_compute; reflexivity.
  - exists m. split; [exact E|]. rewrite H. vm_compute. reflexivity.
Defined.
