(* ===== verification/Records.v ===== *)
(** * Package records

    [rattler_conda_types/src/repo_data/mod.rs], [repo_data_record.rs],
    [generic_virtual_package.rs], [flags.rs], [package/build_string.rs] and the
    fields of [package/index.rs]: the records that describe packages.

    Digests are their bytes, an [Url] is its serialisation, a [PackageUrl] is
    its text, and the instant of a [jiff::Timestamp] is a number of nanoseconds. *)
From S2P Require Import Prelude Externs VersionRepr VersionOrder VersionOps.
From S2P Require Import VersionParse VersionSource PackageName Subdir Archive Utf.

Local Notation text := (list N).

(** ** Build strings *)
Inductive BuildStringError : Type :=
| BsInvalidCharacter (character : N)
| BsTooLong (actual max : nat)
| BsEmpty.

Definition BUILD_STRING_MAX_LEN : nat := 64.

Definition is_build_char (c : N) : bool :=
  is_ascii_alphabetic c || is_ascii_digit c || bool_decide (c ∈ [c_under; c_dot; c_plus]).

Definition check_invalid_chars (value : text) : result BuildStringError () :=
  match find (λ c, negb (is_build_char c)) value with
  | Some character => Err (BsInvalidCharacter character)
  | None => Ok ()
  end.

Definition build_string_validate (value : text) : result BuildStringError () :=
  if bool_decide (value = []) then Err BsEmpty
  else
    match check_invalid_chars value with
    | Err e => Err e
    | Ok _ =>
        if (BUILD_STRING_MAX_LEN <? str_len value)%nat
        then Err (BsTooLong (str_len value) BUILD_STRING_MAX_LEN) else Ok ()
    end.

(** [append] and [prepend] change the receiver only when they succeed. *)
Definition build_string_append (self other : text) : text * result BuildStringError () :=
  match build_string_validate (self ++ other) with
  | Ok u => (self ++ other, Ok u)
  | Err e => (self, Err e)
  end.
Definition build_string_prepend (self other : text) : text * result BuildStringError () :=
  match build_string_validate (other ++ self) with
  | Ok u => (other ++ self, Ok u)
  | Err e => (self, Err e)
  end.
Definition build_string_from_str (value : text) : result BuildStringError text :=
  match build_string_validate value with Ok _ => Ok value | Err e => Err e end.

(** ** Flags *)
Inductive InvalidFlagError : Type := InvalidFlag (flag : text).

Definition is_valid_flag_part (value : text) (allow_glob : bool) : bool :=
  negb (bool_decide (value = []))
  && forallb (λ c, is_ascii_lowercase c || is_ascii_digit c || (c =? c_under)%N
                   || (allow_glob && (c =? c_star)%N)) value.

Definition is_valid_flag (value : text) (allow_glob : bool) : bool :=
  match split_char 58 (* : *) value with
  | [] => false
  | first :: parts =>
      if negb (is_valid_flag_part first allow_glob) then false
      else match parts with
           | [] => true
           | [second] => is_valid_flag_part second allow_glob
           | _ => false
           end
  end.
Definition is_valid_record_flag (value : text) : bool := is_valid_flag value false.
Definition is_valid_matchspec_flag (value : text) : bool := is_valid_flag value true.
Definition flag_try_from (value : text) : result InvalidFlagError text :=
  if is_valid_record_flag value then Ok value else Err (InvalidFlag value).

(** ** Time stamps *)
Record TimestampMs := mkTimestampMs { tm_timestamp : Z; tm_is_millis : bool }.
Definition timestamp_ms_eqb (a b : TimestampMs) : bool :=
  (tm_timestamp a =? tm_timestamp b)%Z && eqb (tm_is_millis a) (tm_is_millis b).
Definition timestamp_ms_cmp (a b : TimestampMs) : comparison := Z.compare (tm_timestamp a) (tm_timestamp b).

(** [Ord for Option] *)
Definition option_cmp {A} (cmp : A → A → comparison) (a b : option A) : comparison :=
  match a, b with
  | None, None => Eq
  | None, Some _ => Lt
  | Some _, None => Gt
  | Some x, Some y => cmp x y
  end.
(** [Ord for bool] *)
Definition bool_cmp (a b : bool) : comparison :=
  match a, b with false, true => Lt | true, false => Gt | _, _ => Eq end.

(** ** Repodata revisions *)
Inductive RepodataRevision : Type := Legacy | V3 | UnknownRevision (value : N).

Definition revision_as_u64 (self : RepodataRevision) : N :=
  match self with Legacy => 0 | V3 => 3 | UnknownRevision value => value end%N.
Definition uses_legacy_package_layout (self : RepodataRevision) : bool :=
  match self with Legacy => true | _ => false end.
Definition revision_from_u64 (value : N) : RepodataRevision :=
  if (value =? 0)%N then Legacy else if (value =? 3)%N then V3 else UnknownRevision value.
Definition revision_from_str (value : text) : result ParseIntError RepodataRevision :=
  if eq_ignore_ascii_case value (txt "legacy") then Ok Legacy
  else
    let digits := match value with
                  | c :: rest => if bool_decide (c = 118%N ∨ c = 86%N) then rest else value
                  | [] => value
                  end in
    match u64_from_str digits with Ok n => Ok (revision_from_u64 n) | Err e => Err e end.
Definition revision_display (self : RepodataRevision) : text := 118%N :: u64_display (revision_as_u64 self).

(** ** Records *)

(** [RunExportsJson] *)
Record RunExportsJson := mkRunExportsJson {
  re_weak : list text;
  re_strong : list text;
  re_noarch : list text;
  re_weak_constrains : list text;
  re_strong_constrains : list text
}.

Record PackageRecord := mkPackageRecord {
  rec_arch : option text;
  rec_attestations_sha256 : option text;
  rec_build : text;
  rec_build_number : N;
  rec_constrains : list text;
  rec_depends : list text;
  rec_extra_depends : gmap text (list text);
  rec_features : option text;
  rec_flags : list text;
  rec_indexed_timestamp : option TimestampMs;
  rec_legacy_bz2_md5 : option text;
  rec_legacy_bz2_size : option N;
  rec_license : option text;
  rec_license_family : option text;
  rec_md5 : option text;
  rec_name : PackageName;
  rec_noarch : NoArchType;
  rec_platform : option text;
  rec_purls : option (gset text);
  rec_python_site_packages_path : option text;
  rec_run_exports : option RunExportsJson;
  rec_sha256 : option text;
  rec_size : option N;
  rec_subdir : text;
  rec_timestamp : option TimestampMs;
  rec_track_features : list text;
  rec_version : VersionWithSource
}.

(** [IndexJson] *)
Record IndexJson := mkIndexJson {
  ij_arch : option text;
  ij_build : text;
  ij_build_number : N;
  ij_constrains : list text;
  ij_depends : list text;
  ij_extra_depends : gmap text (list text);
  ij_features : option text;
  ij_flags : list text;
  ij_license : option text;
  ij_license_family : option text;
  ij_name : PackageName;
  ij_noarch : NoArchType;
  ij_platform : option text;
  ij_purls : option (gset text);
  ij_python_site_packages_path : option text;
  ij_repodata_revision : option RepodataRevision;
  ij_subdir : option text;
  ij_timestamp : option TimestampMs;
  ij_track_features : list text;
  ij_version : VersionWithSource
}.

Inductive ConvertSubdirError : Type :=
| NoKnownCombination (platform arch : text)
| PlatformEmpty
| ArchEmpty.

Definition determine_subdir (platform arch : option text) : result ConvertSubdirError text :=
  match platform with
  | None => Err PlatformEmpty
  | Some platform =>
      match arch with
      | None => Err ArchEmpty
      | Some arch =>
          match arch_from_str arch with
          | Ok a =>
              let arch_str := match a with
                              | ArchX86 => txt "32"
                              | ArchX86_64 => txt "64"
                              | _ => arch_as_str a
                              end in
              Ok (platform ++ [c_dash] ++ arch_str)
          | Err _ => Err (NoKnownCombination platform arch)
          end
      end
  end.

Definition from_index_json (index : IndexJson) (size : option N) (sha256 md5 : option text)
  : result ConvertSubdirError PackageRecord :=
  match match ij_subdir index with
        | None => determine_subdir (ij_platform index) (ij_arch index)
        | Some s => Ok s
        end with
  | Err e => Err e
  | Ok subdir =>
      Ok {| rec_arch := ij_arch index;
            rec_attestations_sha256 := None;
            rec_build := ij_build index;
            rec_build_number := ij_build_number index;
            rec_constrains := ij_constrains index;
            rec_depends := ij_depends index;
            rec_extra_depends := ij_extra_depends index;
            rec_features := ij_features index;
            rec_flags := ij_flags index;
            rec_indexed_timestamp := None;
            rec_legacy_bz2_md5 := None;
            rec_legacy_bz2_size := None;
            rec_license := ij_license index;
            rec_license_family := ij_license_family index;
            rec_md5 := md5;
            rec_name := ij_name index;
            rec_noarch := ij_noarch index;
            rec_platform := ij_platform index;
            rec_purls := ij_purls index;
            rec_python_site_packages_path := ij_python_site_packages_path index;
            rec_run_exports := None;
            rec_sha256 := sha256;
            rec_size := size;
            rec_subdir := subdir;
            rec_timestamp := ij_timestamp index;
            rec_track_features := ij_track_features index;
            rec_version := ij_version index |}
  end.

Definition has_run_exports (self : PackageRecord) : bool := bool_decide (is_Some (rec_run_exports self)).

(** [Display for PackageRecord] *)
Definition package_record_display (self : PackageRecord) : option text :=
  version ← vws_display (rec_version self);
  Some (if bool_decide (rec_build self = [])
        then as_normalized (rec_name self) ++ [32%N] ++ version
        else as_normalized (rec_name self) ++ [c_eq] ++ version ++ [c_eq] ++ rec_build self).

Record RepoDataRecord := mkRepoDataRecord {
  rd_package_record : PackageRecord;
  rd_identifier : DistArchiveIdentifier;
  rd_url : text;
  rd_channel : option text
}.

Record GenericVirtualPackage := mkGenericVirtualPackage {
  gvp_name : PackageName;
  gvp_version : Version;
  gvp_build_string : text
}.

Definition generic_virtual_package_display (self : GenericVirtualPackage) : option text :=
  version ← version_display (gvp_version self);
  Some (as_normalized (gvp_name self) ++ [c_eq] ++ version ++ [c_eq] ++ gvp_build_string self).

(** [UrlOrPath], whose variants are told apart by a scheme in the text *)
Inductive UrlOrPath : Type := UrlOrPathPath (path : text) | UrlOrPathUrl (url : text).
Definition url_or_path_as_str (self : UrlOrPath) : text :=
  match self with UrlOrPathPath path => path | UrlOrPathUrl url => url end.

Record WhlPackageRecord := mkWhlPackageRecord {
  whl_package_record : PackageRecord;
  whl_url : UrlOrPath
}.

Section order.
Context `{IT : Itertools}.

(** [Ord for PackageRecord] *)
Definition package_record_cmp (self other : PackageRecord) : option comparison :=
  match then_with (package_name_cmp (rec_name self) (rec_name other))
          (bool_cmp (bool_decide (rec_track_features self = [])) (bool_decide (rec_track_features other = []))) with
  | Eq =>
      v ← vws_cmp (rec_version self) (rec_version other);
      Some (then_with v (then_with (N.compare (rec_build_number self) (rec_build_number other))
                           (option_cmp timestamp_ms_cmp (rec_timestamp self) (rec_timestamp other))))
  | c => Some c
  end.
Definition repo_data_record_cmp (self other : RepoDataRecord) : option comparison :=
  package_record_cmp (rd_package_record self) (rd_package_record other).
End order.

(** ** Lemmas *)
#[export] Instance option_cmp_preorder {A} (cmp : A → A → comparison) :
  TotalPreorder cmp → TotalPreorder (option_cmp cmp).
Proof.
  intros H. split.
  - intros [x|] [y|]; simpl; [apply (cmp_opp cmp)|done..].
  - intros [x|] [y|] [z|]; simpl; try done. apply (cmp_le_trans cmp).
Qed.
#[export] Instance bool_cmp_order : TotalOrder bool_cmp.
Proof. split; [split|]; [by intros [] []|by intros [] [] []; simpl; intros|intros [] []; simpl; naive_solver]. Qed.
#[export] Instance Z_compare_order : TotalOrder Z.compare.
Proof.
  split; [split|].
  - intros x y. by rewrite Z.compare_antisym.
  - intros x y z. unfold not. rewrite !Z.compare_gt_iff. lia.
  - apply Z.compare_eq_iff.
Qed.
#[export] Instance timestamp_ms_cmp_preorder : TotalPreorder timestamp_ms_cmp.
Proof. apply (on_key_preorder tm_timestamp Z.compare), _. Qed.

(** Two time stamps of one instant compare equal but differ when they were given in
    different units. *)
Lemma timestamp_ms_eq_cmp : ∃ a b, timestamp_ms_cmp a b = Eq ∧ timestamp_ms_eqb a b = false.
Proof. by exists (mkTimestampMs 0 true), (mkTimestampMs 0 false). Qed.

(** The revision of a number prints and parses back. *)
Lemma revision_roundtrip n : (n <= u64_max)%N →
  revision_from_str (revision_display (revision_from_u64 n)) = Ok (revision_from_u64 n).
Proof.
  intros Hn. unfold revision_display, revision_from_str.
  assert (revision_as_u64 (revision_from_u64 n) = n) as ->.
  { unfold revision_from_u64. destruct (N.eqb_spec n 0); [by subst|]. by destruct (N.eqb_spec n 3); [subst|]. }
  assert (eq_ignore_ascii_case (118%N :: u64_display n) (txt "legacy") = false) as ->.
  { by apply bool_decide_eq_false. }
  rewrite bool_decide_true by auto. rewrite u64_from_str_digits.
  - by rewrite u64_display_parse.
  - apply u64_display_nonempty.
  - intros c. apply u64_display_digits.
Qed.

(** What [BuildString::from_str] accepts. *)
Lemma build_string_from_str_spec value b :
  build_string_from_str value = Ok b ↔
  b = value ∧ 1 ≤ length value ≤ 64 ∧ ∀ c, c ∈ value → is_build_char c = true.
Proof.
  unfold build_string_from_str, build_string_validate, check_invalid_chars, BUILD_STRING_MAX_LEN.
  assert (∀ c, is_build_char c = true → (c < 128)%N) as Hascii.
  { intros c. unfold is_build_char, is_ascii_alphabetic, is_ascii_uppercase, is_ascii_lowercase, is_ascii_digit.
    rewrite !orb_true_iff, !andb_true_iff, !N.leb_le, bool_decide_eq_true, !elem_of_cons, elem_of_nil. lia. }
  case_bool_decide as Hv; [subst; simpl; split; [done|lia]|].
  destruct (find _ value) as [c|] eqn:Ef.
  { apply find_some in Ef as [Hin Hc]. split; [done|]. intros (_ & _ & H).
    rewrite H in Hc; [done|]. by apply list_elem_of_In. }
  assert (∀ c, c ∈ value → is_build_char c = true) as Hall.
  { intros c Hc%list_elem_of_In. by apply (find_none _ _ Ef), negb_false_iff in Hc. }
  assert (str_len value = length value) as ->.
  { unfold str_len. rewrite utf8_ascii; [done|]. apply Forall_forall. intros c Hc. by apply Hascii, Hall. }
  assert (1 ≤ length value) by (destruct value; simpl; [done|lia]).
  destruct (Nat.ltb_spec 64 (length value)); split; try done; try lia; naive_solver lia.
Qed.
