(* ===== verification/MatchSpecs.v ===== *)
(** * Match specs

    [rattler_conda_types/src/match_spec/mod.rs] and the type of
    [match_spec/condition.rs]: the query over packages and what it matches.  [SpecParse]
    and [SpecFormat] hold its parser and its printer. *)
From S2P Require Import Prelude Externs VersionRepr VersionOrder VersionOps.
From S2P Require Import VersionParse VersionGrammar VersionSource VersionSpec BuildSpec PackageName Subdir.
From S2P Require Import Archive Matchers Records.

Local Notation text := (list N).

(** ** Definitions *)

Record Channel := mkChannel {
  ch_platforms : option (list Subdir);
  ch_base_url : text;
  ch_name : option text
}.

Inductive MatchSpecCondition (S : Type) : Type :=
| CondMatchSpec (spec : S)
| CondAnd (left right : MatchSpecCondition S)
| CondOr (left right : MatchSpecCondition S).
Arguments CondMatchSpec {S} spec.
Arguments CondAnd {S} left right.
Arguments CondOr {S} left right.

Section specs.
Context `{IT : Itertools} `{GL : Glob} `{FR : FancyRegex}.

Inductive MatchSpec := mkMatchSpec {
  ms_name : PackageNameMatcher;
  ms_version : option VersionSpec;
  ms_build : option StringMatcher;
  ms_build_number : option BuildNumberSpec;
  ms_file_name : option text;
  ms_extras : option (list text);
  ms_flags : option (list StringMatcher);
  ms_channel : option Channel;
  ms_subdir : option text;
  ms_namespace : option text;
  ms_md5 : option text;
  ms_sha256 : option text;
  ms_url : option text;
  ms_license : option text;
  ms_license_family : option text;
  ms_condition : option (MatchSpecCondition MatchSpec);
  ms_track_features : option (list text)
}.

Record NamelessMatchSpec := mkNamelessMatchSpec {
  ns_version : option VersionSpec;
  ns_build : option StringMatcher;
  ns_build_number : option BuildNumberSpec;
  ns_file_name : option text;
  ns_extras : option (list text);
  ns_flags : option (list StringMatcher);
  ns_channel : option Channel;
  ns_subdir : option text;
  ns_namespace : option text;
  ns_md5 : option text;
  ns_sha256 : option text;
  ns_url : option text;
  ns_license : option text;
  ns_license_family : option text;
  ns_condition : option (MatchSpecCondition MatchSpec);
  ns_track_features : option (list text)
}.

(** [Default for NamelessMatchSpec] *)
Definition nameless_default : NamelessMatchSpec :=
  mkNamelessMatchSpec None None None None None None None None None None None None None None None None.

Definition into_nameless (self : MatchSpec) : PackageNameMatcher * NamelessMatchSpec :=
  (ms_name self,
   {| ns_version := ms_version self;
      ns_build := ms_build self;
      ns_build_number := ms_build_number self;
      ns_file_name := ms_file_name self;
      ns_extras := ms_extras self;
      ns_flags := ms_flags self;
      ns_channel := ms_channel self;
      ns_subdir := ms_subdir self;
      ns_namespace := ms_namespace self;
      ns_md5 := ms_md5 self;
      ns_sha256 := ms_sha256 self;
      ns_url := ms_url self;
      ns_license := ms_license self;
      ns_license_family := ms_license_family self;
      ns_condition := ms_condition self;
      ns_track_features := ms_track_features self |}).

Definition from_nameless (spec : NamelessMatchSpec) (name : PackageNameMatcher) : MatchSpec :=
  {| ms_name := name;
     ms_version := ns_version spec;
     ms_build := ns_build spec;
     ms_build_number := ns_build_number spec;
     ms_file_name := ns_file_name spec;
     ms_extras := ns_extras spec;
     ms_flags := ns_flags spec;
     ms_channel := ns_channel spec;
     ms_subdir := ns_subdir spec;
     ms_namespace := ns_namespace spec;
     ms_md5 := ns_md5 spec;
     ms_sha256 := ns_sha256 spec;
     ms_url := ns_url spec;
     ms_license := ns_license spec;
     ms_license_family := ns_license_family spec;
     ms_condition := ns_condition spec;
     ms_track_features := ns_track_features spec |}.

(** [From<PackageName>] *)
Definition match_spec_from_name (value : PackageName) : MatchSpec :=
  from_nameless nameless_default (NExact value).

Definition required_repodata_revision (self : MatchSpec) : RepodataRevision :=
  if bool_decide (is_Some (ms_extras self)) || bool_decide (is_Some (ms_condition self))
     || bool_decide (is_Some (ms_flags self))
  then V3 else Legacy.

(** [str::starts_with] *)
Definition starts_with (s prefix : text) : bool := bool_decide (prefix `prefix_of` s).

Definition match_spec_is_virtual (self : MatchSpec) : bool :=
  match ms_name self with
  | NExact name => starts_with (as_normalized name) (txt "__")
  | NGlob pattern => starts_with (pattern_as_str pattern) (txt "__")
  | NRegex regex => starts_with (regex_as_str regex) (txt "^__")
  end.

(** A field of a spec that is absent holds of everything. *)
Definition field_ok {A} (field : option A) (holds : A → bool) : bool :=
  match field with Some value => holds value | None => true end.

Definition version_field (field : option VersionSpec) (version : Version) : option bool :=
  match field with Some spec => spec_matches spec version | None => Some true end.

Definition all_track_features (features : list text) (other : PackageRecord) : bool :=
  forallb (λ feature, bool_decide (feature ∈ rec_track_features other)) features.
Definition all_flags (flags : list StringMatcher) (other : PackageRecord) : bool :=
  forallb (λ flag, existsb (λ record_flag, string_matcher_matches flag record_flag) (rec_flags other)) flags.

(** [Matches<PackageRecord> for NamelessMatchSpec] *)
Definition nameless_matches (self : NamelessMatchSpec) (other : PackageRecord) : option bool :=
  version ← version_field (ns_version self) (vws_version (rec_version other));
  Some
    (if negb version then false
     else if negb (field_ok (ns_build self) (λ b, string_matcher_matches b (rec_build other))) then false
     else if negb (field_ok (ns_build_number self) (λ n, build_number_spec_matches n (rec_build_number other)))
     then false
     else if negb (field_ok (ns_md5 self) (λ d, bool_decide (Some d = rec_md5 other))) then false
     else if negb (field_ok (ns_sha256 self) (λ d, bool_decide (Some d = rec_sha256 other))) then false
     else if negb (field_ok (ns_license self) (λ l, bool_decide (Some l = rec_license other))) then false
     else if negb (field_ok (ns_license_family self) (λ l, bool_decide (Some l = rec_license_family other)))
     then false
     else if negb (field_ok (ns_track_features self) (λ f, all_track_features f other)) then false
     else if negb (field_ok (ns_flags self) (λ f, all_flags f other)) then false
     else true).

(** [Matches<PackageRecord> for MatchSpec] *)
Definition match_spec_matches (self : MatchSpec) (other : PackageRecord) : option bool :=
  if negb (name_matcher_matches (ms_name self) (rec_name other)) then Some false
  else
    version ← version_field (ms_version self) (vws_version (rec_version other));
    Some
      (if negb version then false
       else if negb (field_ok (ms_build self) (λ b, string_matcher_matches b (rec_build other))) then false
       else if negb (field_ok (ms_build_number self) (λ n, build_number_spec_matches n (rec_build_number other)))
       then false
       else if negb (field_ok (ms_md5 self) (λ d, bool_decide (Some d = rec_md5 other))) then false
       else if negb (field_ok (ms_sha256 self) (λ d, bool_decide (Some d = rec_sha256 other))) then false
       else if negb (field_ok (ms_license self) (λ l, bool_decide (Some l = rec_license other))) then false
       else if negb (field_ok (ms_license_family self) (λ l, bool_decide (Some l = rec_license_family other)))
       then false
       else if negb (field_ok (ms_track_features self) (λ f, all_track_features f other)) then false
       else if negb (field_ok (ms_flags self) (λ f, all_flags f other)) then false
       else true).

(** [Matches<RepoDataRecord>] *)
Definition match_spec_matches_record (self : MatchSpec) (other : RepoDataRecord) : option bool :=
  if negb (field_ok (ms_url self) (λ u, bool_decide (u = rd_url other))) then Some false
  else match_spec_matches self (rd_package_record other).
Definition nameless_matches_record (self : NamelessMatchSpec) (other : RepoDataRecord) : option bool :=
  if negb (field_ok (ns_url self) (λ u, bool_decide (u = rd_url other))) then Some false
  else nameless_matches self (rd_package_record other).

(** [Matches<GenericVirtualPackage> for MatchSpec] *)
Definition match_spec_matches_virtual (self : MatchSpec) (other : GenericVirtualPackage) : option bool :=
  if negb (name_matcher_matches (ms_name self) (gvp_name other)) then Some false
  else
    version ← version_field (ms_version self) (gvp_version other);
    Some
      (if negb version then false
       else if negb (field_ok (ms_build self) (λ b, string_matcher_matches b (gvp_build_string other))) then false
       else true).

(** ** Lemmas *)

Lemma from_into_nameless self : from_nameless (into_nameless self).2 (into_nameless self).1 = self.
Proof. by destruct self. Qed.
Lemma into_from_nameless spec name : into_nameless (from_nameless spec name) = (name, spec).
Proof. by destruct spec. Qed.

(** A chain of early returns is a conjunction. *)
Lemma negb_chain (a b : bool) : (if negb a then false else b) = a && b.
Proof. by destruct a. Qed.

(** The two bodies agree. *)
Lemma match_spec_matches_nameless self other :
  match_spec_matches self other =
  if name_matcher_matches (ms_name self) (rec_name other)
  then nameless_matches (into_nameless self).2 other else Some false.
Proof. unfold match_spec_matches, nameless_matches. by destruct (name_matcher_matches _ _). Qed.

(** The limits of the version spec are well formed. *)
Definition match_spec_wf (self : MatchSpec) : Prop :=
  match ms_version self with Some spec => spec_versions wf spec | None => True end.

Lemma version_field_total (field : option VersionSpec) v :
  match field with Some spec => spec_versions wf spec | None => True end → wf v →
  ∃ b, version_field field v = Some b.
Proof. destruct field as [spec|]; simpl; intros Hs Hv; [by apply matches_total|eauto]. Qed.

(** What a spec asks of a record, field by field. *)
Definition asks {A} (field : option A) (P : A → Prop) : Prop :=
  match field with Some value => P value | None => True end.
Lemma field_ok_asks {A} (field : option A) f : field_ok field f = true ↔ asks field (λ a, f a = true).
Proof. by destruct field. Qed.

(** C28: [matches] returns for every spec with well-formed limits and every record, and a
    spec matches a record exactly when each of the fields it has matches: the name, the
    version, the build string and the build number; the digests and the licences are
    equal; every track feature is one of the record's, and every flag matches one of
    the record's.  The channel, the subdir, the file name, the extras, the namespace
    and the condition are not looked at. *)
Theorem match_spec_matches_spec (self : MatchSpec) (other : PackageRecord) :
  match_spec_wf self → vws_wf (rec_version other) →
  ∃ b, match_spec_matches self other = Some b ∧
  (b = true ↔
     name_matcher_matches (ms_name self) (rec_name other) = true
     ∧ asks (ms_version self) (λ s, spec_matches s (vws_version (rec_version other)) = Some true)
     ∧ asks (ms_build self) (λ m, string_matcher_matches m (rec_build other) = true)
     ∧ asks (ms_build_number self) (λ n, build_number_spec_matches n (rec_build_number other) = true)
     ∧ asks (ms_md5 self) (λ d, rec_md5 other = Some d)
     ∧ asks (ms_sha256 self) (λ d, rec_sha256 other = Some d)
     ∧ asks (ms_license self) (λ l, rec_license other = Some l)
     ∧ asks (ms_license_family self) (λ l, rec_license_family other = Some l)
     ∧ asks (ms_track_features self) (λ fs, ∀ f, f ∈ fs → f ∈ rec_track_features other)
     ∧ asks (ms_flags self) (λ ms, ∀ m, m ∈ ms →
         ∃ f, f ∈ rec_flags other ∧ string_matcher_matches m f = true)).
Proof.
  intros Hs Hv. unfold match_spec_matches.
  destruct (version_field_total (ms_version self) _ Hs Hv) as [v Ev].
  destruct (name_matcher_matches _ _) eqn:En; cbn [negb]; [|exists false; split; [done|]; split; [done|by intros (? & _)]].
  rewrite Ev. cbn [mbind option_bind]. eexists. split; [done|].
  assert (v = true ↔ asks (ms_version self) (λ s, spec_matches s (vws_version (rec_version other)) = Some true))
    as Hver.
  { destruct (ms_version self) as [s|]; simpl in *; [rewrite Ev; split; congruence|]. split; [done|congruence]. }
  rewrite !negb_chain, !andb_true_r, !andb_true_iff, !field_ok_asks, Hver. clear Hver Ev Hs Hv.
  assert (∀ (d : option text) e, asks d (λ a, bool_decide (Some a = e) = true) ↔ asks d (λ a, e = Some a)) as Heq.
  { intros [d|] e; simpl; [|done]. rewrite bool_decide_eq_true. naive_solver. }
  assert (asks (ms_track_features self) (λ a, all_track_features a other = true) ↔
    asks (ms_track_features self) (λ fs, ∀ f, f ∈ fs → f ∈ rec_track_features other)) as ->.
  { destruct (ms_track_features self) as [fs|]; simpl; [|done]. unfold all_track_features.
    rewrite forallb_forall. setoid_rewrite bool_decide_eq_true. by setoid_rewrite list_elem_of_In at 2. }
  assert (asks (ms_flags self) (λ a, all_flags a other = true) ↔
    asks (ms_flags self) (λ ms, ∀ m, m ∈ ms →
      ∃ f, f ∈ rec_flags other ∧ string_matcher_matches m f = true)) as ->.
  { destruct (ms_flags self) as [fs|]; simpl; [|done]. unfold all_flags.
    rewrite forallb_forall. setoid_rewrite existsb_exists. by setoid_rewrite list_elem_of_In. }
  rewrite !Heq. tauto.
Qed.
End specs.

Definition numpy_spec : MatchSpec :=
  from_nameless
    {| ns_version := None; ns_build := Some (Prefix (txt "py")); ns_build_number := None; ns_file_name := None;
       ns_extras := None; ns_flags := None; ns_channel := None; ns_subdir := None; ns_namespace := None;
       ns_md5 := None; ns_sha256 := None; ns_url := None; ns_license := Some (txt "BSD"); ns_license_family := None;
       ns_condition := None; ns_track_features := None |}
    (NExact (mkPackageName None (txt "numpy"))).

Definition numpy_record : PackageRecord :=
  {| rec_arch := None; rec_attestations_sha256 := None; rec_build := txt "PY39_0"; rec_build_number := 0%N;
     rec_constrains := []; rec_depends := []; rec_extra_depends := ∅; rec_features := None; rec_flags := [];
     rec_indexed_timestamp := None; rec_legacy_bz2_md5 := None; rec_legacy_bz2_size := None;
     rec_license := Some (txt "BSD"); rec_license_family := None; rec_md5 := None;
     rec_name := mkPackageName (Some (txt "numpy")) (txt "NumPy"); rec_noarch := None; rec_platform := None;
     rec_purls := None; rec_python_site_packages_path := None; rec_run_exports := None; rec_sha256 := None;
     rec_size := None; rec_subdir := txt "linux-64"; rec_timestamp := None; rec_track_features := [];
     rec_version := vws_from_version (pack (mkParts None [row_iter (None, [txt "1"])] [])) |}.

Lemma match_spec_matches_spec_witness :
  vws_wf (rec_version numpy_record) ∧ match_spec_matches numpy_spec numpy_record = Some true.
Proof.
  assert (vws_wf (rec_version numpy_record)) as Hv.
  { exists (mkParts None [row_iter (None, [txt "1"])] []).
    split; [|reflexivity].
    split; [discriminate|simpl; intros; lia|repeat constructor; vm_compute; reflexivity..]. }
  split; [exact Hv|].
  destruct (match_spec_matches_spec numpy_spec numpy_record) as (b & E & H); [exact I|exact Hv|].
  rewrite E. f_equal. apply H. repeat split; try exact I; vm_compute; reflexivity.
Defined.
