(* ===== verification/Repodata.v ===== *)
(** * Repodata and its patches

    [rattler_conda_types/src/repo_data/mod.rs] and [patches.rs]: the packages of a
    channel's subdirectory, and the instructions that change their metadata.

    A [HashMap], and an [IndexMap] of which only lookups are used, is a finite map.  A
    [serde_json::Value] is a tree; an object is the list of its members, and
    what is proved of objects is about lookups, since their order depends
    on a feature of the crate. *)
From S2P Require Import Prelude Externs VersionRepr VersionOrder VersionOps.
From S2P Require Import VersionParse VersionGrammar VersionSource PackageName Subdir Archive Records.

Local Notation text := (list N).

(** ** JSON values *)
Inductive Value : Type :=
| Null
| JBool (b : bool)
| JNumber (n : text)
| JString (s : text)
| JArray (l : list Value)
| JObject (m : list (text * Value)).

Definition is_null (v : Value) : bool := match v with Null => true | _ => false end.

(** [Map::get], [remove] and [insert] *)
Fixpoint obj_get (m : list (text * Value)) (k : text) : option Value :=
  match m with
  | [] => None
  | (k', v) :: m' => if bool_decide (k' = k) then Some v else obj_get m' k
  end.
Fixpoint obj_remove (m : list (text * Value)) (k : text) : list (text * Value) :=
  match m with
  | [] => []
  | (k', v) :: m' => if bool_decide (k' = k) then obj_remove m' k else (k', v) :: obj_remove m' k
  end.
Fixpoint obj_insert (m : list (text * Value)) (k : text) (v : Value) : list (text * Value) :=
  match m with
  | [] => [(k, v)]
  | (k', v') :: m' => if bool_decide (k' = k) then (k, v) :: m' else (k', v') :: obj_insert m' k v
  end.

Fixpoint apply_extension_patch (target patch : Value) {struct patch} : Value :=
  match patch with
  | JObject members =>
      let target := match target with JObject m => m | _ => [] end in
      JObject
        ((fix go (members target : list (text * Value)) {struct members} : list (text * Value) :=
            match members with
            | [] => target
            | (key, patch_value) :: members' =>
                go members'
                  (if is_null patch_value then obj_remove target key
                   else obj_insert target key
                          (apply_extension_patch (default Null (obj_get target key)) patch_value))
            end) members target)
  | _ => patch
  end.

(** ** Repodata *)

Definition RESERVED_V3_BUCKETS : list text := [txt "conda"; txt "tar.bz2"; txt "whl"].
Inductive ReservedV3ExtensionError : Type := ReservedV3Extension (extension : text).

(** [V3Extensions], whose map is private *)
Record V3Extensions := mkV3Extensions { v3e_map : gmap text Value }.
Definition extensions_insert (self : V3Extensions) (extension : text) (bucket : Value)
  : result ReservedV3ExtensionError (V3Extensions * option Value) :=
  if bool_decide (extension ∈ RESERVED_V3_BUCKETS) then Err (ReservedV3Extension extension)
  else Ok (mkV3Extensions (<[extension := bucket]> (v3e_map self)), v3e_map self !! extension).
Definition extensions_remove (self : V3Extensions) (extension : text) : V3Extensions * option Value :=
  (mkV3Extensions (delete extension (v3e_map self)), v3e_map self !! extension).

(** [TryFrom<BTreeMap>]: the first reserved key, in the order of the keys *)
Definition extensions_try_from (extensions : gmap text Value) : result ReservedV3ExtensionError V3Extensions :=
  match find (λ k, bool_decide (is_Some (extensions !! k))) RESERVED_V3_BUCKETS with
  | Some extension => Err (ReservedV3Extension extension)
  | None => Ok (mkV3Extensions extensions)
  end.

Record V3Packages := mkV3Packages {
  v3_tar_bz2 : gmap ArchiveIdentifier PackageRecord;
  v3_conda : gmap ArchiveIdentifier PackageRecord;
  v3_whl : gmap ArchiveIdentifier WhlPackageRecord;
  v3_extensions : V3Extensions
}.
Definition v3_is_empty (self : V3Packages) : bool :=
  bool_decide (v3_tar_bz2 self = ∅ ∧ v3_conda self = ∅) && bool_decide (dom (v3_whl self) = ∅)
  && bool_decide (dom (v3e_map (v3_extensions self)) = ∅).

Record RepoData := mkRepoData {
  rp_packages : gmap DistArchiveIdentifier PackageRecord;
  rp_conda_packages : gmap DistArchiveIdentifier PackageRecord;
  rp_v3 : V3Packages;
  rp_removed : gset DistArchiveIdentifier
}.

(** *** Run exports per archive *)
Record SubdirRunExportsJson := mkSubdirRunExportsJson {
  sre_packages : gmap DistArchiveIdentifier RunExportsJson;
  sre_conda_packages : gmap DistArchiveIdentifier RunExportsJson;
  sre_v3_tar_bz2 : gmap ArchiveIdentifier RunExportsJson;
  sre_v3_conda : gmap ArchiveIdentifier RunExportsJson
}.
Definition run_exports_get (self : SubdirRunExportsJson) (record : RepoDataRecord) : option RunExportsJson :=
  let file_name := rd_identifier record in
  match sre_packages self !! file_name with
  | Some re => Some re
  | None =>
      match sre_conda_packages self !! file_name with
      | Some re => Some re
      | None =>
          match sre_v3_tar_bz2 self !! dai_identifier file_name with
          | Some re => Some re
          | None => sre_v3_conda self !! dai_identifier file_name
          end
      end
  end.

(** ** Patches *)
Record PackageRecordPatch := mkPackageRecordPatch {
  prp_depends : option (list text);
  prp_constrains : option (list text);
  prp_extra_depends : option (gmap text (list text));
  prp_flags : option (list text);
  prp_track_features : option (option (list text));
  prp_features : option (option text);
  prp_license : option (option text);
  prp_license_family : option (option text);
  prp_purls : option (option (gset text))
}.

Record V3PackagePatches := mkV3PackagePatches {
  v3p_tar_bz2 : gmap ArchiveIdentifier PackageRecordPatch;
  v3p_conda : gmap ArchiveIdentifier PackageRecordPatch;
  v3p_whl : gmap ArchiveIdentifier PackageRecordPatch;
  v3p_extensions : V3Extensions
}.

Record PatchInstructions := mkPatchInstructions {
  pi_remove : gset DistArchiveIdentifier;
  pi_packages : gmap DistArchiveIdentifier PackageRecordPatch;
  pi_conda_packages : gmap DistArchiveIdentifier PackageRecordPatch;
  pi_v3 : V3PackagePatches
}.

Definition apply_patch (self : PackageRecord) (patch : PackageRecordPatch) : PackageRecord :=
  {| rec_arch := rec_arch self;
     rec_attestations_sha256 := rec_attestations_sha256 self;
     rec_build := rec_build self;
     rec_build_number := rec_build_number self;
     rec_constrains := default (rec_constrains self) (prp_constrains patch);
     rec_depends := default (rec_depends self) (prp_depends patch);
     rec_extra_depends := default (rec_extra_depends self) (prp_extra_depends patch);
     rec_features := default (rec_features self) (prp_features patch);
     rec_flags := default (rec_flags self) (prp_flags patch);
     rec_indexed_timestamp := rec_indexed_timestamp self;
     rec_legacy_bz2_md5 := rec_legacy_bz2_md5 self;
     rec_legacy_bz2_size := rec_legacy_bz2_size self;
     rec_license := default (rec_license self) (prp_license patch);
     rec_license_family := default (rec_license_family self) (prp_license_family patch);
     rec_md5 := rec_md5 self;
     rec_name := rec_name self;
     rec_noarch := rec_noarch self;
     rec_platform := rec_platform self;
     rec_purls := default (rec_purls self) (prp_purls patch);
     rec_python_site_packages_path := rec_python_site_packages_path self;
     rec_run_exports := rec_run_exports self;
     rec_sha256 := rec_sha256 self;
     rec_size := rec_size self;
     rec_subdir := rec_subdir self;
     rec_timestamp := rec_timestamp self;
     rec_track_features := match prp_track_features patch with
                           | Some track_features => default [] track_features
                           | None => rec_track_features self
                           end;
     rec_version := rec_version self |}.

(** A loop over patches that changes the records they name. *)
Definition patch_records `{Countable K} {R} (apply : R → PackageRecordPatch → R)
    (patches : gmap K PackageRecordPatch) (records : gmap K R) : gmap K R :=
  foldl (λ records '(identifier, patch), alter (λ r, apply r patch) identifier records)
    records (map_to_list patches).

(** The loop over the patches of [packages], which also reach the [.conda] twin. *)
Definition patch_packages (patches : gmap DistArchiveIdentifier PackageRecordPatch)
    (s : gmap DistArchiveIdentifier PackageRecord * gmap DistArchiveIdentifier PackageRecord) :=
  foldl (λ s '(identifier, patch),
           (alter (λ r, apply_patch r patch) identifier s.1,
            alter (λ r, apply_patch r patch) (with_archive_type identifier (DistConda Conda)) s.2))
    s (map_to_list patches).

Definition apply_whl_patch (r : WhlPackageRecord) (patch : PackageRecordPatch) : WhlPackageRecord :=
  mkWhlPackageRecord (apply_patch (whl_package_record r) patch) (whl_url r).

(** The loop over the patches of extension buckets; [expect] panics. *)
Definition patch_extension (e : text * Value) (extensions : V3Extensions) : option V3Extensions :=
  let '(extension, patch) := e in
  if is_null patch then Some (extensions_remove extensions extension).1
  else
    match v3e_map extensions !! extension with
    | Some bucket =>
        Some (mkV3Extensions (<[extension := apply_extension_patch bucket patch]> (v3e_map extensions)))
    | None =>
        match extensions_insert extensions extension (apply_extension_patch Null patch) with
        | Ok (extensions, _) => Some extensions
        | Err _ => None
        end
    end.

(** The loop over the identifiers to remove. *)
Definition mark_removed (conda_packages : gmap DistArchiveIdentifier PackageRecord)
    (removed : gset DistArchiveIdentifier) (identifier : DistArchiveIdentifier) : gset DistArchiveIdentifier :=
  match dai_archive_type identifier with
  | DistConda TarBz2 =>
      let conda_identifier := with_archive_type identifier (DistConda Conda) in
      if bool_decide (is_Some (conda_packages !! conda_identifier))
      then {[conda_identifier]} ∪ ({[identifier]} ∪ removed) else {[identifier]} ∪ removed
  | DistConda Conda => {[identifier]} ∪ removed
  | DistWheel _ => removed
  end.

(** [apply_patches_impl]; the fields of [RepoData] are its arguments *)
Definition apply_patches (self : RepoData) (instructions : PatchInstructions) : option RepoData :=
  let '(packages, conda_packages) :=
    patch_packages (pi_packages instructions) (rp_packages self, rp_conda_packages self) in
  let conda_packages := patch_records apply_patch (pi_conda_packages instructions) conda_packages in
  let v3 := rp_v3 self in
  let p3 := pi_v3 instructions in
  let tar_bz2 := patch_records apply_patch (v3p_tar_bz2 p3) (v3_tar_bz2 v3) in
  let conda := patch_records apply_patch (v3p_conda p3) (v3_conda v3) in
  let whl := patch_records apply_whl_patch (v3p_whl p3) (v3_whl v3) in
  extensions ← for_opt (map_to_list (v3e_map (v3p_extensions p3))) patch_extension (v3_extensions v3);
  let removed := foldl (mark_removed conda_packages) (rp_removed self) (elements (pi_remove instructions)) in
  Some (mkRepoData packages conda_packages (mkV3Packages tar_bz2 conda whl extensions) removed).

(** ** Lemmas: JSON *)

(** Induction that reaches the members of objects. *)
Lemma value_object_ind (P : Value → Prop) :
  (∀ v, (∀ m, v ≠ JObject m) → P v) →
  (∀ m, Forall (λ kv, P kv.2) m → P (JObject m)) → ∀ v, P v.
Proof.
  intros Hleaf Hobj. fix IH 1. intros [ | | | | |m]; try (by apply Hleaf).
  apply Hobj. induction m as [|[k v] m IHm]; constructor; [apply IH|exact IHm].
Qed.

Lemma obj_get_remove m k k' : obj_get (obj_remove m k) k' = if decide (k = k') then None else obj_get m k'.
Proof.
  induction m as [|[i v] m IH]; simpl; [by case_decide|].
  destruct (decide (i = k)) as [->|Hne].
  - rewrite bool_decide_true by done. rewrite IH. case_decide; [done|]. by rewrite bool_decide_false.
  - rewrite bool_decide_false by done. simpl. rewrite IH.
    destruct (decide (k = k')) as [->|]; [by rewrite bool_decide_false|done].
Qed.

Lemma obj_get_insert m k v k' : obj_get (obj_insert m k v) k' = if decide (k = k') then Some v else obj_get m k'.
Proof.
  induction m as [|[i w] m IH]; simpl; [by case_bool_decide; case_decide|].
  destruct (decide (i = k)) as [->|Hne].
  - rewrite bool_decide_true by done. simpl. case_bool_decide; by case_decide.
  - rewrite bool_decide_false by done. simpl. rewrite IH.
    destruct (decide (k = k')) as [->|]; [by rewrite bool_decide_false|done].
Qed.

Lemma obj_remove_absent m k : obj_get m k = None → obj_remove m k = m.
Proof.
  induction m as [|[i v] m IH]; simpl; [done|]. case_bool_decide; [done|]. intros Hk. by rewrite IH.
Qed.

Lemma obj_insert_same m k v : obj_get m k = Some v → obj_insert m k v = m.
Proof.
  induction m as [|[i w] m IH]; simpl; [done|]. case_bool_decide as Hi; [by intros [= ->]; subst|].
  intros Hk. by rewrite IH.
Qed.

(** The keys of an object are distinct, in the objects inside it too. *)
Fixpoint json_wf (v : Value) : Prop :=
  match v with
  | JObject m => NoDup m.*1 ∧ (fix all (m : list (text * Value)) : Prop :=
                                 match m with [] => True | (_, w) :: m' => json_wf w ∧ all m' end) m
  | JArray l => (fix all (l : list Value) : Prop :=
                   match l with [] => True | w :: l' => json_wf w ∧ all l' end) l
  | _ => True
  end.

(** The members of [JObject m] applied to an object. *)
Fixpoint merge_members (members target : list (text * Value)) : list (text * Value) :=
  match members with
  | [] => target
  | (key, patch_value) :: members' =>
      merge_members members'
        (if is_null patch_value then obj_remove target key
         else obj_insert target key (apply_extension_patch (default Null (obj_get target key)) patch_value))
  end.

Definition members_of (target : Value) : list (text * Value) :=
  match target with JObject m => m | _ => [] end.

Lemma apply_extension_patch_object target m :
  apply_extension_patch target (JObject m) = JObject (merge_members m (members_of target)).
Proof. reflexivity. Qed.

Lemma merge_members_get m t k :
  NoDup m.*1 →
  obj_get (merge_members m t) k =
  match obj_get m k with
  | None => obj_get t k
  | Some patch_value =>
      if is_null patch_value then None
      else Some (apply_extension_patch (default Null (obj_get t k)) patch_value)
  end.
Proof.
  revert t. induction m as [|[i v] m IH]; intros t; simpl; [done|]. intros [Hi Hm]%NoDup_cons.
  rewrite IH by done. destruct (decide (i = k)) as [->|Hne].
  - rewrite bool_decide_true by done.
    assert (obj_get m k = None) as ->.
    { clear -Hi. induction m as [|[j w] m IH]; simpl in *; [done|]. apply not_elem_of_cons in Hi as [Hj Hi].
      rewrite bool_decide_false by done. by apply IH. }
    destruct (is_null v); rewrite ?obj_get_remove, ?obj_get_insert; by rewrite decide_True.
  - rewrite (bool_decide_false (i = k)) by done.
    assert (obj_get (if is_null v then obj_remove t i else
      obj_insert t i (apply_extension_patch (default Null (obj_get t i)) v)) k = obj_get t k) as Ht.
    { destruct (is_null v); rewrite ?obj_get_remove, ?obj_get_insert; by rewrite decide_False. }
    by rewrite Ht.
Qed.

Lemma obj_get_elem m k v : NoDup m.*1 → (k, v) ∈ m → obj_get m k = Some v.
Proof.
  induction m as [|[i w] m IH]; simpl; intros Hnd Hkv; [by apply elem_of_nil in Hkv|].
  apply NoDup_cons in Hnd as [Hi Hnd]. apply elem_of_cons in Hkv as [[= <- <-]|Hkv].
  - by rewrite bool_decide_true.
  - rewrite bool_decide_false; [by apply IH|]. intros ->. apply Hi, list_elem_of_fmap. by exists (k, v).
Qed.

Lemma json_wf_member m k v : json_wf (JObject m) → (k, v) ∈ m → json_wf v.
Proof.
  intros [_ Hall] Hkv. induction m as [|[i w] m IH]; [by apply elem_of_nil in Hkv|]. destruct Hall as [Hw Hall].
  apply elem_of_cons in Hkv as [[= -> ->]|Hkv]; [done|by apply IH].
Qed.

(** Members whose effect is already there. *)
Lemma merge_members_fixed m r :
  (∀ k v, (k, v) ∈ m → if is_null v then obj_get r k = None
                       else ∃ w, obj_get r k = Some w ∧ apply_extension_patch w v = w) →
  merge_members m r = r.
Proof.
  induction m as [|[k v] m IH]; intros Hfix; simpl; [done|].
  assert ((if is_null v then obj_remove r k
    else obj_insert r k (apply_extension_patch (default Null (obj_get r k)) v)) = r) as ->.
  { specialize (Hfix k v ltac:(left)). destruct (is_null v); [by apply obj_remove_absent|].
    destruct Hfix as (w & Hw & E). rewrite Hw. simpl. rewrite E. by apply obj_insert_same. }
  apply IH. intros k' v' Hin. apply Hfix. by right.
Qed.

Lemma merge_patch_twice target patch :
  json_wf patch →
  apply_extension_patch (apply_extension_patch target patch) patch = apply_extension_patch target patch.
Proof.
  revert target. induction patch as [v Hv|m IH] using value_object_ind; intros target Hwf.
  { destruct v; try done. by destruct (Hv m). }
  rewrite !apply_extension_patch_object. f_equal. simpl. apply merge_members_fixed. intros k v Hkv.
  pose proof (proj1 Hwf) as Hnd. rewrite merge_members_get, (obj_get_elem m k v) by done.
  destruct (is_null v); [done|]. eexists. split; [done|].
  rewrite Forall_forall in IH. apply (IH (k, v) Hkv). by eapply json_wf_member.
Qed.

(** Patching the value of an extension bucket is a JSON merge patch in the sense of RFC
    7396: a patch that is no object replaces the value; an object patch changes the
    members it names and keeps the others (of a value that is no object, none), a
    member that is null is removed.  Patching twice is patching once. *)
Theorem merge_patch_correct (target patch : Value) :
  json_wf patch →
  match patch with
  | JObject m =>
      ∃ r, apply_extension_patch target patch = JObject r ∧
      ∀ k, obj_get r k =
        match obj_get m k with
        | None => obj_get (members_of target) k
        | Some Null => None
        | Some v => Some (apply_extension_patch (default Null (obj_get (members_of target) k)) v)
        end
  | v => apply_extension_patch target patch = v
  end
  ∧ apply_extension_patch (apply_extension_patch target patch) patch = apply_extension_patch target patch.
Proof.
  intros Hwf. split; [|by apply merge_patch_twice]. destruct patch as [ | | | | |m]; try done.
  rewrite apply_extension_patch_object. eexists. split; [done|]. intros k.
  rewrite merge_members_get by apply Hwf. by destruct (obj_get m k) as [[]|].
Qed.

(** ** Lemmas: patches *)

(** A loop over the entries of a map that changes the entry a key names. *)
Definition alter_all `{Countable K} {A R} (apply : A → R → R) (l : list (K * A)) (records : gmap K R) : gmap K R :=
  foldl (λ records '(i, a), alter (apply a) i records) records l.

Lemma alter_all_lookup `{Countable K} {A R} (apply : A → R → R) (l : list (K * A)) (records : gmap K R) k :
  NoDup l.*1 →
  alter_all apply l records !! k =
  match (list_to_map l : gmap K A) !! k with Some a => apply a <$> records !! k | None => records !! k end.
Proof.
  unfold alter_all. revert records. induction l as [|[i a] l IH]; intros records; simpl; [by rewrite lookup_empty|].
  intros [Hi Hl]%NoDup_cons. rewrite IH by done. destruct (decide (i = k)) as [->|Hne].
  - rewrite lookup_insert_eq, not_elem_of_list_to_map_1 by done. by rewrite lookup_alter_eq.
  - by rewrite lookup_insert_ne, lookup_alter_ne by done.
Qed.

Lemma patch_records_lookup `{Countable K} {R} (apply : R → PackageRecordPatch → R)
    (patches : gmap K PackageRecordPatch) (records : gmap K R) k :
  patch_records apply patches records !! k =
  match patches !! k with Some p => (λ r, apply r p) <$> records !! k | None => records !! k end.
Proof.
  change (patch_records apply patches records)
    with (alter_all (λ p r, apply r p) (map_to_list patches) records).
  rewrite alter_all_lookup, list_to_map_to_list by apply NoDup_fst_map_to_list. done.
Qed.

(** The identifier of the [.tar.bz2] twin of a [.conda] archive. *)
Definition twin (k : DistArchiveIdentifier) : DistArchiveIdentifier := with_archive_type k (DistConda TarBz2).

(** The patches of [packages] name [.tar.bz2] archives. *)
Definition packages_patches_wf (patches : gmap DistArchiveIdentifier PackageRecordPatch) : Prop :=
  ∀ k, is_Some (patches !! k) → dai_archive_type k = DistConda TarBz2.

(** What the patches of [packages] have for a [.conda] archive. *)
Definition twin_patch (patches : gmap DistArchiveIdentifier PackageRecordPatch) (k : DistArchiveIdentifier) :
    option PackageRecordPatch :=
  if bool_decide (dai_archive_type k = DistConda Conda) then patches !! twin k else None.

Definition patched (p : option PackageRecordPatch) (r : PackageRecord) : PackageRecord :=
  match p with Some p => apply_patch r p | None => r end.

Lemma patched_Some (p : option PackageRecordPatch) (r : option PackageRecord) :
  match p with Some p => (λ r, apply_patch r p) <$> r | None => r end = patched p <$> r.
Proof. destruct p; simpl; [done|]. by destruct r. Qed.

Lemma patch_packages_lookup patches packages conda k :
  packages_patches_wf patches →
  (patch_packages patches (packages, conda)).1 !! k = patched (patches !! k) <$> packages !! k ∧
  (patch_packages patches (packages, conda)).2 !! k = patched (twin_patch patches k) <$> conda !! k.
Proof.
  intros Hwf. unfold patch_packages.
  assert (∀ l s, foldl (λ s '(identifier, patch),
      (alter (λ r, apply_patch r patch) identifier s.1,
       alter (λ r, apply_patch r patch) (with_archive_type identifier (DistConda Conda)) s.2)) s l
    = (alter_all (λ a r, apply_patch r a) l s.1,
       alter_all (λ a r, apply_patch r a)
         ((λ e, (with_archive_type e.1 (DistConda Conda), e.2)) <$> l) s.2)) as Hsplit.
  { unfold alter_all. induction l as [|[i a] l IH]; intros [s1 s2]; [done|]. simpl. by rewrite IH. }
  rewrite Hsplit. clear Hsplit. simpl. split.
  { rewrite alter_all_lookup, list_to_map_to_list by apply NoDup_fst_map_to_list.
    apply patched_Some. }
  assert (∀ k', k' ∈ (map_to_list patches).*1 → dai_archive_type k' = DistConda TarBz2) as Hkeys.
  { intros k' (e & -> & He)%list_elem_of_fmap. destruct e as [k' a]. apply elem_of_map_to_list in He.
    apply Hwf. by exists a. }
  assert (NoDup ((λ e, (with_archive_type e.1 (DistConda Conda), e.2)) <$> map_to_list patches).*1) as Hnd.
  { rewrite <-list_fmap_compose. unfold compose. simpl.
    pose proof (NoDup_fst_map_to_list patches) as Hnd. revert Hnd Hkeys. generalize (map_to_list patches).
    induction l as [|[i a] l IH]; simpl; [constructor|]. rewrite !NoDup_cons. intros [Hi Hl] Hk.
    split; [|by apply IH; [|intros; apply Hk; right]].
    intros (e & He & Hin)%list_elem_of_fmap. destruct e as [j b]. simpl in He. apply Hi, list_elem_of_fmap.
    exists (j, b). split; [|done]. simpl. unfold with_archive_type in He. injection He as He.
    destruct i as [ii it], j as [ji jt]. simpl in *. subst. f_equal.
    transitivity (DistConda TarBz2); [apply (Hk (mkDistArchiveIdentifier ji it)); left|].
    symmetry. apply (Hk (mkDistArchiveIdentifier ji jt)). right. apply list_elem_of_fmap. by exists (mkDistArchiveIdentifier ji jt, b). }
  rewrite alter_all_lookup by done. rewrite patched_Some. f_equal. f_equal.
  apply option_eq. intros p. rewrite <-elem_of_list_to_map by done.
  unfold twin_patch. rewrite list_elem_of_fmap. split.
  - intros ([i a] & [= -> ->] & Hin). simpl. rewrite ?bool_decide_true by done.
    apply elem_of_map_to_list in Hin. rewrite <-Hin. f_equal. unfold twin, with_archive_type. simpl.
    destruct i as [ii it]. simpl. f_equal. symmetry. apply (Hwf (mkDistArchiveIdentifier ii it)). by exists a.
  - case_bool_decide as Hk; [|done]. intros Hp. exists (twin k, p). simpl. split.
    + f_equal. destruct k as [ki kt]. simpl in *. by rewrite Hk.
    + by apply elem_of_map_to_list.
Qed.

Lemma mark_removed_elements conda l removed k :
  k ∈ foldl (mark_removed conda) removed l ↔
  k ∈ removed ∨ (k ∈ l ∧ ∃ t, dai_archive_type k = DistConda t)
  ∨ (dai_archive_type k = DistConda Conda ∧ twin k ∈ l ∧ is_Some (conda !! k)).
Proof.
  revert removed. induction l as [|i l IH]; intros removed; simpl.
  { setoid_rewrite elem_of_nil. naive_solver. }
  rewrite IH. clear IH. setoid_rewrite elem_of_cons.
  assert (k ∈ mark_removed conda removed i ↔ k ∈ removed ∨ (k = i ∧ ∃ t, dai_archive_type k = DistConda t)
    ∨ (dai_archive_type k = DistConda Conda ∧ twin k = i ∧ is_Some (conda !! k))) as ->.
  { unfold mark_removed, twin, with_archive_type. destruct i as [ii it], k as [ki kt]. simpl.
    destruct it as [[]|[]].
    - rewrite elem_of_union, elem_of_singleton. naive_solver.
    - case_bool_decide as Hc; rewrite ?elem_of_union, ?elem_of_singleton; naive_solver.
    - naive_solver. }
  tauto.
Qed.

(** The invariant of [V3Extensions]: no bucket has a reserved name. *)
Definition extensions_wf (e : V3Extensions) : Prop :=
  ∀ k, is_Some (v3e_map e !! k) → k ∉ RESERVED_V3_BUCKETS.

Lemma extensions_insert_wf e k v e' old :
  extensions_wf e → extensions_insert e k v = Ok (e', old) → extensions_wf e'.
Proof.
  intros He. unfold extensions_insert. case_bool_decide; [done|]. intros [= <- _] i. simpl.
  rewrite lookup_insert_is_Some'. intros [<-|Hi]; [done|by apply He].
Qed.

Lemma extensions_try_from_wf m e : extensions_try_from m = Ok e ↔ e = mkV3Extensions m ∧ extensions_wf e.
Proof.
  unfold extensions_try_from, extensions_wf. destruct (find _ _) as [k|] eqn:E.
  - split; [done|]. intros [-> H]. apply find_some in E as [Hin Hk]. apply bool_decide_eq_true in Hk.
    destruct (H k Hk). by apply list_elem_of_In.
  - split; [|by intros [-> _]]. intros [= <-]. split; [done|]. intros k Hk Hin%list_elem_of_In.
    apply (find_none _ _ E) in Hin. by apply bool_decide_eq_false in Hin.
Qed.

#[local] Arguments patch_extension : simpl never.

(** What the patch of a bucket makes of it. *)
Definition patched_bucket (patch bucket : option Value) : option Value :=
  match patch with
  | None => bucket
  | Some Null => None
  | Some p => Some (apply_extension_patch (default Null bucket) p)
  end.

#[local] Arguments patched_bucket : simpl never.

Lemma patch_extensions_lookup (l : list (text * Value)) e :
  NoDup l.*1 → (∀ k, k ∈ l.*1 → k ∉ RESERVED_V3_BUCKETS) →
  ∃ e', for_opt l patch_extension e = Some e' ∧
  ∀ k, v3e_map e' !! k = patched_bucket ((list_to_map l : gmap text Value) !! k) (v3e_map e !! k).
Proof.
  revert e. induction l as [|[i p] l IH]; intros e; simpl; [eauto|].
  intros [Hi Hl]%NoDup_cons Hres.
  assert (∃ e1, patch_extension (i, p) e = Some e1 ∧
    ∀ k, v3e_map e1 !! k = if decide (i = k) then patched_bucket (Some p) (v3e_map e !! k) else v3e_map e !! k)
    as (e1 & -> & He1).
  { unfold patch_extension. destruct (is_null p) eqn:Ep.
    - destruct p; try done. eexists. split; [done|]. intros k. simpl. rewrite lookup_delete. by case_decide.
    - assert (∀ b, patched_bucket (Some p) b = Some (apply_extension_patch (default Null b) p)) as Hpb by by destruct p.
      unfold extensions_insert. rewrite (bool_decide_false (i ∈ _)) by (apply Hres; left).
      destruct (v3e_map e !! i) as [b|] eqn:Eb; (eexists; split; [done|]); intros k; simpl;
        rewrite lookup_insert; case_decide; subst; rewrite ?Hpb, ?Eb; done. }
  simpl. destruct (IH e1 Hl) as (e' & -> & He'); [intros; apply Hres; by right|].
  exists e'. split; [done|]. intros k. rewrite He', He1. destruct (decide (i = k)) as [->|Hne].
  - rewrite lookup_insert_eq. by rewrite not_elem_of_list_to_map_1.
  - by rewrite lookup_insert_ne.
Qed.

(** What applying patch instructions gives. *)
Record patched_repodata (self : RepoData) (instructions : PatchInstructions) (r : RepoData) : Prop := {
  pr_packages k : rp_packages r !! k = patched (pi_packages instructions !! k) <$> rp_packages self !! k;
  pr_conda_packages k : rp_conda_packages r !! k =
    patched (pi_conda_packages instructions !! k) ∘ patched (twin_patch (pi_packages instructions) k)
    <$> rp_conda_packages self !! k;
  pr_tar_bz2 k : v3_tar_bz2 (rp_v3 r) !! k =
    patched (v3p_tar_bz2 (pi_v3 instructions) !! k) <$> v3_tar_bz2 (rp_v3 self) !! k;
  pr_conda k : v3_conda (rp_v3 r) !! k =
    patched (v3p_conda (pi_v3 instructions) !! k) <$> v3_conda (rp_v3 self) !! k;
  pr_whl k : v3_whl (rp_v3 r) !! k =
    (λ w, mkWhlPackageRecord (patched (v3p_whl (pi_v3 instructions) !! k) (whl_package_record w)) (whl_url w))
    <$> v3_whl (rp_v3 self) !! k;
  pr_extensions k : v3e_map (v3_extensions (rp_v3 r)) !! k =
    patched_bucket (v3e_map (v3p_extensions (pi_v3 instructions)) !! k) (v3e_map (v3_extensions (rp_v3 self)) !! k);
  pr_extensions_wf : extensions_wf (v3_extensions (rp_v3 r));
  pr_removed k : k ∈ rp_removed r ↔ k ∈ rp_removed self
    ∨ (k ∈ pi_remove instructions ∧ ∃ t, dai_archive_type k = DistConda t)
    ∨ (dai_archive_type k = DistConda Conda ∧ twin k ∈ pi_remove instructions
       ∧ is_Some (rp_conda_packages self !! k))
}.

(** The keys the instructions may have. *)
Definition instructions_wf (instructions : PatchInstructions) : Prop :=
  packages_patches_wf (pi_packages instructions) ∧ extensions_wf (v3p_extensions (pi_v3 instructions)).

Lemma apply_patches_spec (self : RepoData) (instructions : PatchInstructions) :
  instructions_wf instructions → extensions_wf (v3_extensions (rp_v3 self)) →
  ∃ r, apply_patches self instructions = Some r ∧ patched_repodata self instructions r.
Proof.
  intros [Hp Hpe] Hse. unfold apply_patches.
  pose proof (λ k, patch_packages_lookup _ (rp_packages self) (rp_conda_packages self) k Hp) as Hpk.
  destruct (patch_packages _ _) as [packages conda]. simpl in Hpk.
  assert (∀ k, patch_records apply_patch (pi_conda_packages instructions) conda !! k =
    patched (pi_conda_packages instructions !! k) ∘ patched (twin_patch (pi_packages instructions) k)
    <$> rp_conda_packages self !! k) as Hconda.
  { intros k. rewrite patch_records_lookup, patched_Some, (proj2 (Hpk k)). by rewrite option_fmap_compose. }
  destruct (patch_extensions_lookup (map_to_list (v3e_map (v3p_extensions (pi_v3 instructions))))
    (v3_extensions (rp_v3 self))) as (e & -> & He).
  { apply NoDup_fst_map_to_list. }
  { intros k (x & -> & Hx)%list_elem_of_fmap. destruct x as [k v]. apply elem_of_map_to_list in Hx.
    apply Hpe. by exists v. }
  cbn [mbind option_bind]. eexists. split; [done|]. rewrite list_to_map_to_list in He. split; simpl.
  - apply Hpk.
  - exact Hconda.
  - intros k. by rewrite patch_records_lookup, patched_Some.
  - intros k. by rewrite patch_records_lookup, patched_Some.
  - intros k. rewrite patch_records_lookup. destruct (v3_whl (rp_v3 self) !! k) as [[w u]|];
      by destruct (v3p_whl (pi_v3 instructions) !! k).
  - exact He.
  - intros k. rewrite He. unfold patched_bucket.
    destruct (v3e_map (v3p_extensions (pi_v3 instructions)) !! k) as [p|] eqn:Ep; [|apply Hse].
    intros _. apply Hpe. by exists p.
  - intros k. by rewrite mark_removed_elements, !elem_of_elements, Hconda, fmap_is_Some.
Qed.

(** Two patches in a row are one patch, in which the later fields win. *)
Definition or_else {A} (q p : option A) : option A := match q with Some _ => q | None => p end.
Definition merge_patches (p q : PackageRecordPatch) : PackageRecordPatch :=
  {| prp_depends := or_else (prp_depends q) (prp_depends p);
     prp_constrains := or_else (prp_constrains q) (prp_constrains p);
     prp_extra_depends := or_else (prp_extra_depends q) (prp_extra_depends p);
     prp_flags := or_else (prp_flags q) (prp_flags p);
     prp_track_features := or_else (prp_track_features q) (prp_track_features p);
     prp_features := or_else (prp_features q) (prp_features p);
     prp_license := or_else (prp_license q) (prp_license p);
     prp_license_family := or_else (prp_license_family q) (prp_license_family p);
     prp_purls := or_else (prp_purls q) (prp_purls p) |}.

Lemma apply_patch_merge r p q : apply_patch (apply_patch r p) q = apply_patch r (merge_patches p q).
Proof.
  assert (∀ A (x : A) (a b : option A), default (default x a) b = default x (or_else b a)) as Hd.
  { by intros A x [a|] [b|]. }
  unfold apply_patch, merge_patches. simpl. rewrite !Hd. by destruct (prp_track_features q).
Qed.

Lemma merge_patches_absorb p q : merge_patches (merge_patches (merge_patches p q) p) q = merge_patches p q.
Proof.
  assert (∀ A (a b : option A), or_else b (or_else a (or_else b a)) = or_else b a) as Ho.
  { by intros A [a|] [b|]. }
  unfold merge_patches. simpl. by rewrite !Ho.
Qed.

(** The patch that changes nothing. *)
Definition no_patch : PackageRecordPatch := mkPackageRecordPatch None None None None None None None None None.
Lemma apply_no_patch r : apply_patch r no_patch = r.
Proof. by destruct r. Qed.

Lemma patched_absorb p q r : patched q (patched p (patched q (patched p r))) = patched q (patched p r).
Proof.
  assert (∀ p r, patched p r = apply_patch r (default no_patch p)) as Hp.
  { intros [p'|] r'; simpl; [done|]. by rewrite apply_no_patch. }
  rewrite !Hp, (apply_patch_merge r), (apply_patch_merge r), (apply_patch_merge r). by rewrite merge_patches_absorb.
Qed.

Lemma patched_idempotent p r : patched p (patched p r) = patched p r.
Proof. apply (patched_absorb p None r). Qed.

(** Only these fields can change. *)
Lemma apply_patch_frame r p :
  rec_name (apply_patch r p) = rec_name r ∧ rec_version (apply_patch r p) = rec_version r ∧
  rec_build (apply_patch r p) = rec_build r ∧ rec_build_number (apply_patch r p) = rec_build_number r ∧
  rec_sha256 (apply_patch r p) = rec_sha256 r ∧ rec_md5 (apply_patch r p) = rec_md5 r ∧
  rec_size (apply_patch r p) = rec_size r ∧ rec_subdir (apply_patch r p) = rec_subdir r ∧
  rec_timestamp (apply_patch r p) = rec_timestamp r.
Proof. done. Qed.

Lemma apply_patches_twice (self r : RepoData) (instructions : PatchInstructions) :
  instructions_wf instructions → extensions_wf (v3_extensions (rp_v3 self)) →
  (∀ k v, v3e_map (v3p_extensions (pi_v3 instructions)) !! k = Some v → json_wf v) →
  patched_repodata self instructions r → apply_patches r instructions = Some r.
Proof.
  intros Hi Hse Hjson [A1 A2 A3 A4 A5 A6 A7 A8].
  destruct (apply_patches_spec r instructions Hi A7) as (r2 & -> & [B1 B2 B3 B4 B5 B6 _ B8]).
  destruct r as [pk ck [t3 c3 w3 [e3]] rm], r2 as [pk2 ck2 [t32 c32 w32 [e32]] rm2]. simpl in *. f_equal. f_equal.
  - apply map_eq. intros k. rewrite B1, A1, <-option_fmap_compose. apply option_fmap_ext. intros x.
    apply patched_idempotent.
  - apply map_eq. intros k. rewrite B2, A2, <-option_fmap_compose. apply option_fmap_ext. intros x.
    apply patched_absorb.
  - f_equal; [apply map_eq; intros k..|f_equal; apply map_eq; intros k].
    + rewrite B3, A3, <-option_fmap_compose. apply option_fmap_ext. intros x. apply patched_idempotent.
    + rewrite B4, A4, <-option_fmap_compose. apply option_fmap_ext. intros x. apply patched_idempotent.
    + rewrite B5, A5, <-option_fmap_compose. apply option_fmap_ext. intros x. unfold compose. simpl.
      by rewrite patched_idempotent.
    + rewrite B6, A6. destruct (v3e_map _ !! k) as [v|] eqn:Ev; [|done].
      pose proof (Hjson k v Ev) as Hv. unfold patched_bucket.
      destruct v; try done. f_equal. by apply merge_patch_twice.
  - apply set_eq. intros k. rewrite B8, A8, A2, fmap_is_Some. tauto.
Qed.

(** C29: what applying patch instructions does.  Only records that are there are
    changed, and only in the fields a patch has; a patch of [packages] reaches the
    [.conda] archive of the same name too, before the patches of [packages.conda].
    The removed archives are marked, a [.tar.bz2] with its [.conda] twin if that exists.
    No record is added or dropped, the reserved names of the v3 buckets stay out of the
    extensions, and applying the instructions again changes nothing. *)
Theorem apply_patches_correct (self : RepoData) (instructions : PatchInstructions) :
  instructions_wf instructions → extensions_wf (v3_extensions (rp_v3 self)) →
  (∀ k v, v3e_map (v3p_extensions (pi_v3 instructions)) !! k = Some v → json_wf v) →
  ∃ r, apply_patches self instructions = Some r ∧ patched_repodata self instructions r
  ∧ apply_patches r instructions = Some r.
Proof.
  intros Hi Hse Hjson. destruct (apply_patches_spec self instructions Hi Hse) as (r & Er & Hr).
  exists r. split; [done|]. split; [done|]. by eapply apply_patches_twice.
Qed.

(** ** Witnesses *)

Definition sample_bucket : Value :=
  JObject [(txt "a", JNumber (txt "1")); (txt "b", JObject [(txt "c", JString (txt "x")); (txt "d", Null)])].
Definition sample_merge : Value :=
  JObject [(txt "a", Null); (txt "b", JObject [(txt "c", JString (txt "y"))]); (txt "e", JArray [])].

Lemma merge_patch_correct_witness :
  json_wf sample_merge ∧
  apply_extension_patch sample_bucket sample_merge =
    JObject [(txt "b", JObject [(txt "c", JString (txt "y")); (txt "d", Null)]); (txt "e", JArray [])] ∧
  apply_extension_patch (apply_extension_patch sample_bucket sample_merge) sample_merge
    = apply_extension_patch sample_bucket sample_merge.
Proof.
  assert (json_wf sample_merge) as H.
  { split; [apply (bool_decide_unpack _); vm_compute; exact I|]. repeat split.
    apply (bool_decide_unpack _); vm_compute; exact I. }
  split; [exact H|]. split; [vm_compute; reflexivity|].
  exact (proj2 (merge_patch_correct sample_bucket sample_merge H)).
Defined.

Definition zlib_tar_bz2 : DistArchiveIdentifier :=
  mkDistArchiveIdentifier (mkArchiveIdentifier (txt "zlib") (txt "1.3") (txt "h0_0")) (DistConda TarBz2).
Definition zlib_conda : DistArchiveIdentifier := with_archive_type zlib_tar_bz2 (DistConda Conda).
Definition zlib_record : PackageRecord :=
  {| rec_arch := None; rec_attestations_sha256 := None; rec_build := txt "h0_0"; rec_build_number := 0%N;
     rec_constrains := []; rec_depends := [txt "libc"]; rec_extra_depends := ∅; rec_features := None;
     rec_flags := []; rec_indexed_timestamp := None; rec_legacy_bz2_md5 := None; rec_legacy_bz2_size := None;
     rec_license := None; rec_license_family := None; rec_md5 := None; rec_name := mkPackageName None (txt "zlib");
     rec_noarch := None; rec_platform := None; rec_purls := None; rec_python_site_packages_path := None;
     rec_run_exports := None; rec_sha256 := None; rec_size := None; rec_subdir := txt "linux-64";
     rec_timestamp := None; rec_track_features := [];
     rec_version := vws_from_version (pack (mkParts None [row_iter (None, [txt "1"])] [])) |}.
Definition empty_v3 : V3Packages := mkV3Packages ∅ ∅ ∅ (mkV3Extensions ∅).
Definition zlib_repodata : RepoData :=
  mkRepoData {[zlib_tar_bz2 := zlib_record]} {[zlib_conda := zlib_record]} empty_v3 ∅.
Definition zlib_instructions : PatchInstructions :=
  mkPatchInstructions {[zlib_tar_bz2]}
    {[zlib_tar_bz2 := mkPackageRecordPatch (Some [txt "libc >=2"]) None None None None None None None None]}
    ∅ (mkV3PackagePatches ∅ ∅ ∅ (mkV3Extensions ∅)).

Lemma apply_patches_correct_witness :
  instructions_wf zlib_instructions ∧
  ∃ r, apply_patches zlib_repodata zlib_instructions = Some r
    ∧ (rec_depends <$> rp_conda_packages r !! zlib_conda) = Some [txt "libc >=2"] ∧ zlib_conda ∈ rp_removed r.
Proof.
  assert (instructions_wf zlib_instructions) as Hi.
  { split; [|intros k [v Hv]; vm_compute in Hv; discriminate].
    intros k [v Hv]. change (pi_packages zlib_instructions) with
      ({[zlib_tar_bz2 := mkPackageRecordPatch (Some [txt "libc >=2"]) None None None None None None None None]}
        : gmap DistArchiveIdentifier PackageRecordPatch) in Hv.
    apply lookup_singleton_Some in Hv as [<- _]. reflexivity. }
  assert (extensions_wf (v3_extensions (rp_v3 zlib_repodata))) as He
    by (intros k [v Hv]; vm_compute in Hv; discriminate).
  split; [exact Hi|].
  destruct (apply_patches_correct zlib_repodata zlib_instructions Hi He) as (r & Er & Hr & _).
  { intros k v Hv. vm_compute in Hv. discriminate. }
  exists r. split; [exact Er|]. split.
  - rewrite (pr_conda_packages _ _ _ Hr zlib_conda). vm_compute. reflexivity.
  - apply (pr_removed _ _ _ Hr). right. right. split; [reflexivity|]. split; [vm_compute; reflexivity|].
    exists zlib_record. vm_compute. reflexivity.
Defined.

(** ** Run exports *)

(** The lookup in the v3 section does not look at the format: a [.conda] archive gets the run exports
    of the [.tar.bz2] archive of the same name. *)
Lemma run_exports_get_other_format :
  ∃ exports record tar_bz2 conda, run_exports_get exports record = Some tar_bz2
  ∧ dai_archive_type (rd_identifier record) = DistConda Conda
  ∧ sre_v3_conda exports !! dai_identifier (rd_identifier record) = Some conda ∧ tar_bz2 ≠ conda.
Proof.
  set (re s := mkRunExportsJson [txt s] [] [] [] []). set (i := dai_identifier zlib_conda).
  exists (mkSubdirRunExportsJson ∅ ∅ {[i := re "zlib <2"]} {[i := re "zlib <3"]}),
    (mkRepoDataRecord zlib_record zlib_conda [] None), (re "zlib <2"), (re "zlib <3").
  split; [by vm_compute|]. split; [done|]. split; [by vm_compute|]. done.
Qed.
