(* ===== verification/Redaction.v ===== *)
(** * Secrets in URLs

    [rattler_redaction/src/lib.rs]: masking the secrets of a URL for a log, and
    dropping them from a URL that is written to a file.

    The [url] crate is given by the components a URL is made of and by what its
    setters change. *)
From S2P Require Import Prelude Externs TextOps.

Local Notation text := (list N).

(** ** The url crate *)

(** The components of the serialisation; the path with its leading slash. *)
Record UrlParts := mkUrlParts {
  up_scheme : text;
  up_username : text;
  up_password : option text;
  up_host : option text;
  up_path : text;
  up_query : option text;
  up_fragment : option text
}.
#[export] Instance url_parts_eq_dec : EqDecision UrlParts.
Proof. solve_decision. Defined.

Definition with_username (username : text) (p : UrlParts) : UrlParts :=
  mkUrlParts (up_scheme p) username (up_password p) (up_host p) (up_path p) (up_query p) (up_fragment p).
Definition with_password (password : option text) (p : UrlParts) : UrlParts :=
  mkUrlParts (up_scheme p) (up_username p) password (up_host p) (up_path p) (up_query p) (up_fragment p).
Definition with_path (path : text) (p : UrlParts) : UrlParts :=
  mkUrlParts (up_scheme p) (up_username p) (up_password p) (up_host p) path (up_query p) (up_fragment p).
Definition with_query (query : option text) (p : UrlParts) : UrlParts :=
  mkUrlParts (up_scheme p) (up_username p) (up_password p) (up_host p) (up_path p) query (up_fragment p).
Definition with_fragment (fragment : option text) (p : UrlParts) : UrlParts :=
  mkUrlParts (up_scheme p) (up_username p) (up_password p) (up_host p) (up_path p) (up_query p) fragment.

Definition is_http (scheme : text) : bool := bool_decide (scheme = txt "http" ∨ scheme = txt "https").

(** A URL with a host, of a scheme that is not [file], can have credentials. *)
Definition can_authenticate (p : UrlParts) : bool :=
  match up_host p with
  | Some host => negb (bool_decide (host = [])) && negb (bool_decide (up_scheme p = txt "file"))
  | None => false
  end.

(** A URL is determined by its components, and its serialisation parses back.  A
    setter changes its component only, after encoding what it is given: no secret
    of the other components flows into it.  Removing the query or the fragment is exact, and
    the path of an http URL may be set to the root or to the end of itself. *)
Class UrlCrate := {
  Url : Type;
  url_as_str : Url → text;
  url_parse : text → option Url;
  url_parts : Url → UrlParts;
  set_username : Url → text → option Url;
  set_password : Url → option text → option Url;
  set_path : Url → text → Url;
  set_query : Url → option text → Url;
  set_fragment : Url → option text → Url;
  encode_password : text → text;
  encode_query : text → text → text;
  encode_path : text → text → text;

  url_parts_inj u v : url_parts u = url_parts v → u = v;
  url_parse_as_str u : url_parse (url_as_str u) = Some u;
  credentials_host u :
    up_username (url_parts u) ≠ [] ∨ up_password (url_parts u) ≠ None → can_authenticate (url_parts u) = true;
  set_username_clear u :
    can_authenticate (url_parts u) = true →
    ∃ v, set_username u [] = Some v ∧ url_parts v = with_username [] (url_parts u);
  set_password_parts u password :
    can_authenticate (url_parts u) = true → password ≠ Some [] →
    ∃ v, set_password u password = Some v
      ∧ url_parts v = with_password (encode_password <$> password) (url_parts u);
  set_path_parts u path :
    url_parts (set_path u path) = with_path (encode_path (up_scheme (url_parts u)) path) (url_parts u);
  set_query_parts u query :
    url_parts (set_query u query)
      = with_query (encode_query (up_scheme (url_parts u)) <$> query) (url_parts u);
  clear_fragment_parts u : url_parts (set_fragment u None) = with_fragment None (url_parts u);
  set_path_suffix u pre path :
    is_http (up_scheme (url_parts u)) = true → up_path (url_parts u) = pre ++ [47%N] ++ path →
    encode_path (up_scheme (url_parts u)) ([47%N] ++ path) = [47%N] ++ path;
  set_path_root scheme : is_http scheme = true → encode_path scheme [47%N] = [47%N]
}.

Section url.
Context `{UC : UrlCrate}.

(** The accessors. [path_segments] splits the path after its first slash; the path of a
    URL that cannot be a base has none. *)
Definition url_username (u : Url) : text := up_username (url_parts u).
Definition url_password (u : Url) : option text := up_password (url_parts u).
Definition url_query (u : Url) : option text := up_query (url_parts u).
Definition url_fragment (u : Url) : option text := up_fragment (url_parts u).
Definition segments_of (path : text) : option (list text) :=
  match path with
  | c :: rest => if (c =? 47)%N then Some (split_char 47 rest) else None
  | [] => None
  end.
Definition path_segments (u : Url) : option (list text) := segments_of (up_path (url_parts u)).

(** ** Definitions *)

Definition DEFAULT_REDACTION_STR : text := txt "********".
Definition SIGNATURE_PARAM : text := txt "sig".

(** The characters that cannot be part of a value: white space and [&quot;',)]}]. *)
Definition ends_value (c : N) : bool :=
  is_whitespace c || bool_decide (c ∈ [38; 34; 39; 44; 41; 93; 125]%N).

Definition signature_value_span (s : text) (separator equals : nat) : option (nat * nat) :=
  let value := separator + 1 + equals + 1 in
  let e := value + default (length s - value) (position ends_value (drop value s)) in
  if (e =? value)%nat then None else Some (value, e).

Definition is_separator (c : N) : bool := (c =? 63)%N || (c =? 38)%N. (* ? & *)

(** One round of the loop over the separators; the state is [out] and [written]. *)
Definition redact_step (redaction s : text) (st : text * nat) (separator : nat) : text * nat :=
  let '(out, written) := st in
  let pair := drop (separator + 1) s in
  match position (N.eqb c_eq) pair with
  | None => st
  | Some equals =>
      if negb (eq_ignore_ascii_case (take equals pair) SIGNATURE_PARAM) then st
      else
        match signature_value_span s separator equals with
        | None => st
        | Some (value, e) =>
            if (value <? written)%nat then st
            else (out ++ take (value - written) (drop written s) ++ redaction, e)
        end
  end.

(** [char_indices().filter(..)] *)
Definition separators (s : text) : list nat :=
  filter (λ i, is_separator (default 0%N (s !! i)) = true) (seq 0 (length s)).

(** [Cow::Borrowed] is [None]: nothing was masked. *)
Definition redact_signatures_in_text (s redaction : text) : option text :=
  let '(out, written) := foldl (redact_step redaction s) ([], 0) (separators s) in
  if (written =? 0)%nat then None else Some (out ++ drop written s).

(** The loop that writes the remaining segments back. *)
Definition push_segments (remainder : list text) : text :=
  mjoin (imap (λ idx segment,
                 if (idx <? length remainder - 1)%nat then segment ++ [47%N] else segment) remainder).

Definition redact_url_for_display (url : Url) (redaction : text) : option Url :=
  url ← match url_password url with Some _ => set_password url (Some redaction) | None => Some url end;
  let url := match url_query url with
             | Some query =>
                 match redact_signatures_in_text (63%N :: query) redaction with
                 | Some masked => set_query url (Some (drop 1 masked))
                 | None => url
                 end
             | None => url
             end in
  match path_segments url with
  | Some (t :: token :: remainder) =>
      if bool_decide (t = txt "t") then
        let redacted_path :=
          txt "t/" ++ redaction ++ (if bool_decide (remainder = []) then [] else [47%N])
          ++ push_segments remainder in
        Some (set_path url redacted_path)
      else Some url
  | _ => Some url
  end.

(** [Redact for Url] *)
Definition redact (url : Url) : Url := default url (redact_url_for_display url DEFAULT_REDACTION_STR).

Definition is_ascii_hexdigit (c : N) : bool :=
  is_ascii_digit c || ((65 <=? c) && (c <=? 70) || (97 <=? c) && (c <=? 102))%N.

(** [str::split_once] by a colon *)
Definition is_artifact_digest (fragment : text) : bool :=
  match position (N.eqb 58) fragment with
  | None => false
  | Some i =>
      let algorithm := take i fragment in
      let digest := drop (S i) fragment in
      bool_decide (algorithm = txt "md5" ∨ algorithm = txt "sha256")
      && negb (bool_decide (digest = [])) && forallb is_ascii_hexdigit digest
  end.

Definition path_without_token (url : Url) : option text :=
  segments ← path_segments url;
  match segments with
  | t :: token :: rest =>
      if bool_decide (t = txt "t" ∧ token ≠ []) then Some (47%N :: join [47%N] rest) else None
  | _ => None
  end.

Definition strip_url_for_serialization (url : Url) : Url :=
  let url :=
    if negb (bool_decide (url_username url = [])) || bool_decide (is_Some (url_password url)) then
      let url := default url (set_username url []) in
      default url (set_password url None)
    else url in
  let url := match path_without_token url with Some path => set_path url path | None => url end in
  let url := set_query url None in
  match url_fragment url with
  | Some fragment => if is_artifact_digest fragment then url else set_fragment url None
  | None => url
  end.

(** ** Signatures: a scanner as the reference *)

(** How much of [?sig=] was just read. *)
Inductive Scan : Type := Plain | AfterSep | AfterS | AfterI | AfterG | AfterEq | Masking.

Definition scan_next (st : Scan) (c : N) : Scan :=
  if is_separator c then AfterSep
  else
    let d := ascii_lower c in
    match st with
    | AfterSep => if (d =? 115)%N then AfterS else Plain
    | AfterS => if (d =? 105)%N then AfterI else Plain
    | AfterI => if (d =? 103)%N then AfterG else Plain
    | AfterG => if (c =? c_eq)%N then AfterEq else Plain
    | _ => Plain
    end.

(** The text with the value of every signature replaced, in one pass. *)
Fixpoint mask (redaction : text) (st : Scan) (s : text) : text :=
  match s with
  | [] => []
  | c :: s' =>
      match st with
      | AfterEq => if ends_value c then c :: mask redaction (scan_next Plain c) s'
                   else redaction ++ mask redaction Masking s'
      | Masking => if ends_value c then c :: mask redaction (scan_next Plain c) s'
                   else mask redaction Masking s'
      | _ => c :: mask redaction (scan_next st c) s'
      end
  end.

(** A signature parameter from its name on: its name, and its value with what follows. *)
Definition signature_at (s : text) : Prop :=
  ∃ k v rest, s = k ++ [c_eq] ++ v ++ rest ∧ eq_ignore_ascii_case k SIGNATURE_PARAM = true
    ∧ v ≠ [] ∧ Forall (λ c, ends_value c = false) v
    ∧ match rest with [] => True | c :: _ => ends_value c = true end.

(** Two texts that differ in nothing but the values of signatures. *)
Inductive same_but_signatures : text → text → Prop :=
| same_nil : same_but_signatures [] []
| same_char c s s' : same_but_signatures s s' → same_but_signatures (c :: s) (c :: s')
| same_signature sep k v v' s s' :
    is_separator sep = true → eq_ignore_ascii_case k SIGNATURE_PARAM = true →
    v ≠ [] → v' ≠ [] →
    Forall (λ c, ends_value c = false) v → Forall (λ c, ends_value c = false) v' →
    same_but_signatures s s' →
    match s with [] => True | c :: _ => ends_value c = true end →
    same_but_signatures (sep :: k ++ [c_eq] ++ v ++ s) (sep :: k ++ [c_eq] ++ v' ++ s').

Lemma eq_ignore_ascii_case_sig k :
  eq_ignore_ascii_case k SIGNATURE_PARAM = true →
  ∃ a b c, k = [a; b; c] ∧ ascii_lower a = 115%N ∧ ascii_lower b = 105%N ∧ ascii_lower c = 103%N.
Proof.
  unfold eq_ignore_ascii_case. rewrite bool_decide_eq_true. unfold to_ascii_lowercase.
  destruct k as [|a [|b [|c [|]]]]; try done. intros [= Ha Hb Hc]. by exists a, b, c.
Qed.

Lemma ascii_lower_eq c d :
  ascii_lower c = d → (97 <= d)%N → (d <= 122)%N → c = d ∨ (c = d - 32)%N.
Proof. unfold ascii_lower, is_ascii_uppercase. case_match; intros; bool_hyps; lia. Qed.

(** The letters of the name are no separators and end no value. *)
Lemma sig_letter c d :
  ascii_lower c = d → d ∈ [115; 105; 103]%N → is_separator c = false ∧ ends_value c = false ∧ (c =? c_eq)%N = false.
Proof.
  intros Hc Hd. assert (c = d ∨ (c = d - 32)%N) as Hcd.
  { apply ascii_lower_eq; [done| |]; repeat (apply elem_of_cons in Hd as [->|Hd]; [lia|]); by apply elem_of_nil in Hd. }
  clear Hc. repeat (apply elem_of_cons in Hd as [->|Hd]; [destruct Hcd as [->| ->]; vm_compute; done|]).
  by apply elem_of_nil in Hd.
Qed.

Lemma sig_letters k :
  eq_ignore_ascii_case k SIGNATURE_PARAM = true →
  Forall (λ c, is_separator c = false ∧ ends_value c = false ∧ (c =? c_eq)%N = false) k.
Proof.
  intros (a & b & c & -> & Ha & Hb & Hc)%eq_ignore_ascii_case_sig.
  repeat constructor; eapply sig_letter; try eassumption; set_solver.
Qed.

(** Reading the name of a signature parameter after a separator. *)
Lemma mask_name r k s :
  eq_ignore_ascii_case k SIGNATURE_PARAM = true →
  mask r AfterSep (k ++ [c_eq] ++ s) = k ++ [c_eq] ++ mask r AfterEq s.
Proof.
  intros Hk. pose proof (sig_letters k Hk) as HF.
  apply eq_ignore_ascii_case_sig in Hk as (a & b & c & -> & Ha & Hb & Hc).
  apply Forall_cons in HF as [(Sa & _) HF]. apply Forall_cons in HF as [(Sb & _) HF].
  apply Forall_cons in HF as [(Sc & _) _].
  cbn [mask app scan_next]. unfold scan_next. by rewrite Sa, Sb, Sc, Ha, Hb, Hc.
Qed.

Lemma mask_value r v s :
  Forall (λ c, ends_value c = false) v → mask r Masking (v ++ s) = mask r Masking s.
Proof. induction 1 as [|c v Hc _ IH]; simpl; [done|]. by rewrite Hc. Qed.

Lemma mask_after_value r s :
  match s with [] => True | c :: _ => ends_value c = true end → mask r Masking s = mask r Plain s.
Proof. destruct s as [|c s]; simpl; [done|]. by intros ->. Qed.

Lemma mask_signature r k v s :
  eq_ignore_ascii_case k SIGNATURE_PARAM = true → v ≠ [] → Forall (λ c, ends_value c = false) v →
  mask r AfterSep (k ++ [c_eq] ++ v ++ s) = k ++ [c_eq] ++ r ++ mask r Masking s.
Proof.
  intros Hk Hv HF. rewrite mask_name by done. do 2 f_equal. destruct v as [|c v]; [done|].
  apply Forall_cons in HF as [Hc HF]. simpl. rewrite Hc. by rewrite mask_value.
Qed.

(** A separator in a value does not end it when it is a question mark; an ampersand does. *)
Lemma separator_state r st c s s' :
  is_separator c = true → mask r AfterSep s = mask r AfterSep s' → mask r Masking s = mask r Masking s' →
  mask r st (c :: s) = mask r st (c :: s').
Proof.
  intros Hc H1 H2. cbn [mask]. unfold scan_next. rewrite Hc.
  destruct st; try (by rewrite H1); destruct (ends_value c); congruence.
Qed.

Lemma same_but_signatures_refl s : same_but_signatures s s.
Proof. induction s; [apply same_nil|by apply same_char]. Qed.

(** The masked texts of texts that differ in signatures only are equal, in whatever
    state the scan reaches them. *)
Lemma mask_same r s s' st : same_but_signatures s s' → mask r st s = mask r st s'.
Proof.
  intros H. revert st. induction H as [|c s s' _ IH|sep k v v' s s' Hsep Hk Hv Hv' HF HF' _ IH Hs]; intros st; [done|..].
  - cbn [mask]. rewrite !IH. done.
  - apply separator_state; [done|..].
    + rewrite !mask_signature by done. by rewrite IH.
    + pose proof (sig_letters k Hk) as Hl.
      assert (∀ w t, Forall (λ c, ends_value c = false) w →
        mask r Masking (k ++ [c_eq] ++ w ++ t) = mask r Masking t) as Hskip.
      { intros w t Hw. rewrite !app_assoc, mask_value; [done|].
        apply Forall_app; split; [|done]. apply Forall_app; split; [|by repeat constructor].
        eapply Forall_impl; [exact Hl|]. by intros c (_ & ? & _). }
      rewrite !Hskip by done. apply IH.
Qed.

(** ** Signatures: the loop is the scanner *)

(** The value of a parameter, up to the first character that ends it. *)
Lemma value_split s :
  let n := default (length s) (position ends_value s) in
  n ≤ length s ∧ Forall (λ c, ends_value c = false) (take n s)
  ∧ match drop n s with [] => True | c :: _ => ends_value c = true end.
Proof.
  induction s as [|c s IH]; simpl; [done|]. destruct (ends_value c) eqn:E; simpl; [auto with lia|].
  destruct (position ends_value s) as [n|]; simpl in *; destruct IH as (H1 & H2 & H3);
    (split; [lia|]; split; [by constructor|done]).
Qed.

Lemma value_split_unique v rest :
  Forall (λ c, ends_value c = false) v → match rest with [] => True | c :: _ => ends_value c = true end →
  default (length (v ++ rest)) (position ends_value (v ++ rest)) = length v.
Proof.
  intros HF Hr. induction HF as [|c v Hc _ IH]; simpl.
  - destruct rest as [|c rest]; simpl; [done|]. by rewrite Hr.
  - rewrite Hc. revert IH. destruct (position ends_value (v ++ rest)); simpl; intros; congruence.
Qed.

Lemma signature_at_alt k s :
  eq_ignore_ascii_case k SIGNATURE_PARAM = true →
  match s with [] => False | c :: _ => ends_value c = false end → signature_at (k ++ [c_eq] ++ s).
Proof.
  intros Hk Hs. destruct (value_split s) as (Hn & HF & Hr).
  exists k, (take (default (length s) (position ends_value s)) s), (drop (default (length s) (position ends_value s)) s).
  rewrite take_drop. split; [done|]. split; [done|]. split; [|done].
  destruct s as [|c s]; [done|]. simpl. rewrite Hs. by destruct (position ends_value s).
Qed.

Lemma mask_no_signature r s : ¬ signature_at s → mask r AfterSep s = mask r Plain s.
Proof.
  intros Hs. destruct s as [|a s]; [done|]. cbn [mask]. f_equal. unfold scan_next.
  destruct (is_separator a); [done|]. destruct (N.eqb_spec (ascii_lower a) 115) as [Ha|]; [|done].
  destruct s as [|b s]; [done|]. cbn [mask]. f_equal. unfold scan_next.
  destruct (is_separator b); [done|]. destruct (N.eqb_spec (ascii_lower b) 105) as [Hb|]; [|done].
  destruct s as [|c s]; [done|]. cbn [mask]. f_equal. unfold scan_next.
  destruct (is_separator c); [done|]. destruct (N.eqb_spec (ascii_lower c) 103) as [Hc|]; [|done].
  destruct s as [|d s]; [done|]. cbn [mask]. f_equal. unfold scan_next.
  destruct (is_separator d); [done|]. destruct (N.eqb_spec d c_eq) as [->|]; [|done].
  destruct s as [|e s]; [done|]. cbn [mask]. destruct (ends_value e) eqn:He; [done|].
  exfalso. apply Hs. apply (signature_at_alt [a; b; c] (e :: s)); [|done].
  unfold eq_ignore_ascii_case. apply bool_decide_eq_true. unfold to_ascii_lowercase. simpl.
  by rewrite Ha, Hb, Hc.
Qed.

Lemma position_name k s :
  eq_ignore_ascii_case k SIGNATURE_PARAM = true → position (N.eqb c_eq) (k ++ [c_eq] ++ s) = Some (length k).
Proof.
  intros Hk. pose proof (sig_letters k Hk) as HF. clear Hk.
  induction HF as [|c k (_ & _ & Hc) _ IH]; [done|]. cbn [app position length] in *.
  rewrite N.eqb_sym, Hc. by rewrite IH.
Qed.

(** What a round does at a separator, by what follows it. *)
Lemma redact_step_signature r s out w i k v rest :
  drop (i + 1) s = k ++ [c_eq] ++ v ++ rest → eq_ignore_ascii_case k SIGNATURE_PARAM = true →
  v ≠ [] → Forall (λ c, ends_value c = false) v →
  match rest with [] => True | c :: _ => ends_value c = true end →
  redact_step r s (out, w) i =
  if (i + 5 <? w)%nat then (out, w)
  else (out ++ take (i + 5 - w) (drop w s) ++ r, i + 5 + length v).
Proof.
  intros Hd Hk Hv HF Hr. unfold redact_step. rewrite Hd, position_name by done.
  rewrite take_app_length. rewrite Hk. cbn [negb].
  assert (length k = 3) as Hlk by (apply eq_ignore_ascii_case_sig in Hk as (? & ? & ? & -> & _); done).
  assert (drop (i + 5) s = v ++ rest) as Hd2.
  { replace (i + 5) with ((i + 1) + 4) by lia. rewrite <-drop_drop, Hd.
    rewrite (app_assoc k). apply drop_app_length'. rewrite length_app. simpl. lia. }
  unfold signature_value_span. rewrite Hlk. replace (i + 1 + 3 + 1) with (i + 5) by lia.
  rewrite Hd2. replace (length s - (i + 5)) with (length (v ++ rest)) by (rewrite <-Hd2, length_drop; done).
  rewrite value_split_unique by done.
  assert (0 < length v) by (destruct v; simpl; [done|lia]).
  destruct (Nat.eqb_spec (i + 5 + length v) (i + 5)); [lia|]. done.
Qed.

Lemma redact_step_none r s out w i : ¬ signature_at (drop (i + 1) s) → redact_step r s (out, w) i = (out, w).
Proof.
  intros Hn. unfold redact_step. destruct (position _ _) as [n|] eqn:En; [|done].
  destruct (eq_ignore_ascii_case _ _) eqn:Ek; [|done]. cbn [negb].
  destruct (position_Some _ _ _ En) as (c & Hc & Hceq). apply N.eqb_eq in Hceq as <-.
  pose proof (lookup_lt_Some _ _ _ Hc) as Hlt.
  assert (length (take n (drop (i + 1) s)) = n) as Hl by (rewrite length_take; lia).
  assert (n = 3) as -> by (apply eq_ignore_ascii_case_sig in Ek as (? & ? & ? & Ek & _);
    rewrite Ek in Hl; done).
  unfold signature_value_span.
  replace (i + 1 + 3 + 1) with (i + 5) by lia.
  assert (drop (i + 1) s = take 3 (drop (i + 1) s) ++ [c_eq] ++ drop (i + 5) s) as Hd.
  { rewrite <-(take_drop_middle _ _ _ Hc) at 1. do 2 f_equal. rewrite drop_drop. f_equal. lia. }
  destruct (drop (i + 5) s) as [|c t] eqn:Ed; [|destruct (ends_value c) eqn:Ec].
  - simpl. replace (length s - (i + 5)) with 0.
    + by rewrite Nat.add_0_r, Nat.eqb_refl.
    + pose proof (f_equal length Ed) as E. rewrite length_drop in E. simpl in E. lia.
  - simpl. rewrite Ec. simpl. by rewrite Nat.add_0_r, Nat.eqb_refl.
  - exfalso. apply Hn. rewrite Hd. by apply signature_at_alt.
Qed.

Lemma signature_at_dec s : signature_at s ∨ ¬ signature_at s.
Proof.
  destruct s as [|a [|b [|c [|d s]]]];
    try (right; intros (k & v & rest & E & (? & ? & ? & -> & _)%eq_ignore_ascii_case_sig & _); discriminate E).
  destruct (decide (d = c_eq)) as [->|Hd];
    [|right; intros (k & v & rest & E & (? & ? & ? & -> & _)%eq_ignore_ascii_case_sig & _);
      injection E as _ _ _ E _; by apply Hd].
  destruct (eq_ignore_ascii_case [a; b; c] SIGNATURE_PARAM) eqn:Ek;
    [|right; intros (k & v & rest & E & Hk & _);
      pose proof Hk as (? & ? & ? & -> & _)%eq_ignore_ascii_case_sig; injection E as <- <- <- E; congruence].
  destruct (match s with [] => False | c :: _ => ends_value c = false end : Prop) eqn:E || idtac.
  all: destruct s as [|e s]; [|destruct (ends_value e) eqn:He].
  all: try (left; by apply (signature_at_alt [a; b; c])).
  all: right; intros (k & v & rest & E & (? & ? & ? & -> & _)%eq_ignore_ascii_case_sig & Hv & HF & _);
    injection E as _ _ _ E; destruct v as [|f v]; [done|]; try discriminate E.
  injection E as -> _. apply Forall_cons in HF as [? _]. congruence.
Qed.

Lemma redact_step_written r s st i : redact_step r s st i = st ∨ 0 < (redact_step r s st i).2.
Proof.
  destruct st as [out w]. unfold redact_step, signature_value_span. repeat case_match; simplify_eq; simpl; auto with lia.
Qed.

(** Nothing is written when nothing is masked. *)
Lemma redact_fold_written r s l : ∀ st,
  (foldl (redact_step r s) st l).2 = 0 → foldl (redact_step r s) st l = st.
Proof.
  induction l as [|i l IH]; intros st H; simpl in *; [done|].
  pose proof (IH _ H) as E. rewrite E in H |- *. destruct (redact_step_written r s st i); [done|lia].
Qed.

(** The parts of the text around a signature. *)
Lemma signature_lengths s i k v rest :
  i < length s → drop (i + 1) s = k ++ [c_eq] ++ v ++ rest → eq_ignore_ascii_case k SIGNATURE_PARAM = true →
  v ≠ [] → i + 5 < i + 5 + length v ∧ i + 5 + length v ≤ length s ∧ drop (i + 5 + length v) s = rest
  ∧ take (i + 5 - S i) (drop (S i) s) = k ++ [c_eq] ∧ Forall (λ c, ends_value c = false) (k ++ [c_eq]).
Proof.
  intros Hi Hd Hk Hv. pose proof (sig_letters k Hk) as HF.
  apply eq_ignore_ascii_case_sig in Hk as (a & b & d & -> & _).
  pose proof (f_equal length Hd) as Hl. rewrite length_drop in Hl. simpl in Hl. rewrite length_app in Hl.
  assert (0 < length v) by (destruct v; simpl; [done|lia]). split; [lia|]. split; [lia|]. split; [|split].
  - replace (i + 5 + length v) with ((i + 1) + (4 + length v)) by lia. rewrite <-drop_drop, Hd.
    change (drop (length v) (v ++ rest) = rest). by rewrite drop_app_length.
  - replace (S i) with (i + 1) by lia. rewrite Hd. replace (i + 5 - (i + 1)) with 4 by lia. done.
  - apply Forall_app; split; [|by repeat constructor]. eapply Forall_impl; [exact HF|]. by intros c (_ & ? & _).
Qed.

(** The loop from a position on, with [written] passed or still ahead. *)
Lemma redact_loop r s n : ∀ i out w,
  i + n = length s →
  w ≤ i ∨ (w ≤ length s ∧ match drop w s with [] => True | c :: _ => ends_value c = true end) →
  let '(out', w') := foldl (redact_step r s) (out, w)
      (filter (λ i, is_separator (default 0%N (s !! i)) = true) (seq i n)) in
  out' ++ drop w' s =
    (if (w <=? i)%nat then out ++ take (i - w) (drop w s) ++ mask r Plain (drop i s)
     else out ++ mask r Plain (drop w s)).
Proof.
  induction n as [|n IH]; intros i out w Hi Hw.
  { simpl. replace i with (length s) by lia.
    destruct (Nat.leb_spec w (length s)); [|destruct Hw; lia].
    by rewrite (drop_ge s (length s)), app_nil_r, take_ge by (rewrite ?length_drop; lia). }
  destruct (lookup_lt_is_Some_2 s i) as [c Hc]; [lia|]. cbn [seq]. rewrite filter_cons, Hc. simpl (default _ _).
  assert (drop i s = c :: drop (S i) s) as Hdi by by rewrite (drop_S s c i).
  (* a round that leaves the state *)
  assert ((w ≤ i → mask r Plain (drop i s) = c :: mask r Plain (drop (S i) s)) →
    let '(out', w') := foldl (redact_step r s) (out, w)
      (filter (λ i, is_separator (default 0%N (s !! i)) = true) (seq (S i) n)) in
    out' ++ drop w' s =
      (if (w <=? i)%nat then out ++ take (i - w) (drop w s) ++ mask r Plain (drop i s)
       else out ++ mask r Plain (drop w s))) as Hsame.
  { intros Hm. specialize (IH (S i) out w). destruct (foldl _ _ _) as [o' w'].
    rewrite IH; [|lia|destruct Hw; [left; lia|by right]].
    destruct (Nat.leb_spec w i) as [Hwi|Hwi].
    - destruct (Nat.leb_spec w (S i)); [|lia]. rewrite Hm by done. replace (S i - w) with (S (i - w)) by lia.
      rewrite (take_S_r _ _ c), <-!app_assoc; [done|]. rewrite lookup_drop. rewrite <-Hc. f_equal. lia.
    - destruct (Nat.leb_spec w (S i)); [|done]. replace w with (S i) by lia. by rewrite Nat.sub_diag. }
  case_decide as Hsep; cbn [foldl].
  - destruct (signature_at_dec (drop (i + 1) s)) as [(k & v & rest & Hd & Hk & Hv & HF & Hr)|Hno].
    + rewrite (redact_step_signature r s out w i k v rest) by done.
      destruct (signature_lengths s i k v rest) as (Hl1 & Hl2 & Hrest & Hname & Hnv); [lia|done..|].
      destruct (Nat.leb_spec w i) as [Hwi|Hwi].
      * destruct (Nat.ltb_spec (i + 5) w) as [|_]; [lia|].
        specialize (IH (S i) (out ++ take (i + 5 - w) (drop w s) ++ r) (i + 5 + length v)).
        destruct (foldl _ _ _) as [o' w']. rewrite IH; [|lia|right; by rewrite Hrest].
        destruct (Nat.leb_spec (i + 5 + length v) (S i)); [lia|]. rewrite Hrest, Hdi.
        cbn [mask]. unfold scan_next. rewrite Hsep.
        replace (drop (S i) s) with (k ++ [c_eq] ++ v ++ rest) by (rewrite <-Hd; f_equal; lia).
        rewrite mask_signature, mask_after_value, <-!app_assoc by done.
        replace (i + 5 - w) with (S (i - w) + (i + 5 - S i)) by lia.
        rewrite <-take_take_drop, drop_drop. replace (w + S (i - w)) with (S i) by lia.
        rewrite Hname, (take_S_r _ _ c), <-!app_assoc; [done|]. rewrite lookup_drop, <-Hc. f_equal. lia.
      * destruct (Nat.ltb_spec (i + 5) w) as [_|Hle]; [apply Hsame; lia|].
        exfalso. destruct Hw as [?|[_ Hw]]; [lia|].
        assert (drop w s = drop (w - S i) ((k ++ [c_eq]) ++ v ++ rest)) as E.
        { rewrite <-app_assoc, <-Hd, drop_drop. f_equal. lia. }
        assert (Forall (λ c, ends_value c = false) ((k ++ [c_eq]) ++ v)) as Hall by (by apply Forall_app).
        assert (w - S i < length ((k ++ [c_eq]) ++ v)) as Hlt.
        { pose proof (f_equal length Hname) as L. rewrite length_take, length_drop in L.
          rewrite length_app. lia. }
        apply lookup_lt_is_Some_2 in Hlt as [x Hx]. rewrite E, app_assoc, (drop_S _ x) in Hw.
        -- rewrite Forall_lookup in Hall. rewrite (Hall _ _ Hx) in Hw. done.
        -- by apply lookup_app_l_Some.
    + rewrite redact_step_none by done. apply Hsame. intros _. rewrite Hdi. cbn [mask]. unfold scan_next.
      rewrite Hsep. f_equal. apply mask_no_signature. by replace (S i) with (i + 1) by lia.
  - apply Hsame. intros _. rewrite Hdi. cbn [mask]. unfold scan_next. by destruct (is_separator c).
Qed.

(** The loop of the source is the scanner. *)
Lemma redact_signatures_mask s r : default s (redact_signatures_in_text s r) = mask r Plain s.
Proof.
  unfold redact_signatures_in_text, separators.
  pose proof (redact_loop r s (length s) 0 [] 0) as H.
  pose proof (redact_fold_written r s
    (filter (λ i, is_separator (default 0%N (s !! i)) = true) (seq 0 (length s))) ([], 0)) as H0.
  destruct (foldl _ _ _) as [o w]. specialize (H ltac:(lia) ltac:(by left)). simpl in H.
  rewrite drop_0 in H. destruct (Nat.eqb_spec w 0) as [->|]; simpl; [|done].
  specialize (H0 eq_refl) as [= ->]. by rewrite drop_0 in H.
Qed.

(** A text without a signature is left as it is. *)
Lemma redact_signatures_none s r :
  (∀ i c, s !! i = Some c → is_separator c = true → ¬ signature_at (drop (i + 1) s)) →
  redact_signatures_in_text s r = None.
Proof.
  intros H. unfold redact_signatures_in_text.
  assert (foldl (redact_step r s) ([], 0) (separators s) = ([], 0)) as ->; [|done].
  assert (∀ i, i ∈ separators s → ¬ signature_at (drop (i + 1) s)) as Hs.
  { intros i [Hi Hin]%list_elem_of_filter. destruct (s !! i) as [c|] eqn:E; [by apply (H i c)|done]. }
  induction (separators s) as [|i l IH]; [done|]. cbn [foldl].
  rewrite redact_step_none by (apply Hs; by left). apply IH. intros j Hj. apply Hs. by right.
Qed.

(** ** URLs *)

Lemma redact_signatures_some s r i c :
  s !! i = Some c → is_separator c = true → signature_at (drop (i + 1) s) →
  is_Some (redact_signatures_in_text s r).
Proof.
  intros Hc Hsep (k & v & rest & Hd & Hk & Hv & HF & Hr). unfold redact_signatures_in_text.
  pose proof (redact_fold_written r s (separators s) ([], 0)) as H0.
  destruct (foldl _ _ _) as [o w] eqn:E. destruct (Nat.eqb_spec w 0) as [->|]; [|by eexists].
  exfalso. specialize (H0 eq_refl) as [= ->].
  assert (i ∈ separators s) as Hi.
  { apply list_elem_of_filter. rewrite Hc. split; [done|]. apply elem_of_seq.
    apply lookup_lt_Some in Hc. lia. }
  apply list_elem_of_split in Hi as (l1 & l2 & El). rewrite El, foldl_app in E. cbn [foldl] in E.
  destruct (signature_lengths s i k v rest) as (Hl1 & _); [by eapply lookup_lt_Some|done..|].
  assert (∀ l st, 0 < st.2 → 0 < (foldl (redact_step r s) st l).2) as Hpos.
  { induction l as [|j l IH]; intros st Hst; simpl; [done|]. apply IH.
    destruct (redact_step_written r s st j) as [->|]; done. }
  destruct (foldl _ _ l1) as [o1 w1] eqn:E1.
  destruct (decide (w1 = 0)) as [->|Hw1].
  - rewrite (redact_step_signature r s o1 0 i k v rest) in E by done. simpl in E.
    pose proof (Hpos l2 (o1 ++ take (i + 5 - 0) (drop 0 s) ++ r, i + 5 + length v)) as H.
    rewrite E in H. simpl in H. lia.
  - pose proof (Hpos (i :: l2) (o1, w1)) as H. cbn [foldl] in H. rewrite E in H. simpl in H. lia.
Qed.

(** Texts that differ in a signature have one. *)
Lemma same_but_signatures_cases s s' :
  same_but_signatures s s' →
  s = s' ∨ ((∃ i c, s !! i = Some c ∧ is_separator c = true ∧ signature_at (drop (i + 1) s))
    ∧ (∃ i c, s' !! i = Some c ∧ is_separator c = true ∧ signature_at (drop (i + 1) s'))).
Proof.
  induction 1 as [|c s s' _ IH|sep k v v' s s' Hsep Hk Hv Hv' HF HF' H IH Hs]; [by left|..].
  - destruct IH as [->|[(i & d & ?) (j & e & ?)]]; [by left|]. right. split; [by exists (S i), d|by exists (S j), e].
  - right. split; exists 0, sep; (split; [done|]; split; [done|]).
    + by exists k, v, s.
    + exists k, v', s'. split; [done|]. split; [done|]. split; [done|]. split; [done|].
      inversion H; subst; done.
Qed.

(** Two URLs that differ in nothing but their secrets: the password, the token of a
    [/t/<token>/] path, and signatures in the query. *)
Definition same_path (p q : text) : Prop :=
  p = q ∨ ∃ a b rest, 47%N ∉ a ∧ 47%N ∉ b
    ∧ p = txt "/t/" ++ a ++ rest ∧ q = txt "/t/" ++ b ++ rest
    ∧ match rest with [] => True | c :: _ => c = 47%N end.
Definition same_query (p q : option text) : Prop :=
  match p, q with
  | None, None => True
  | Some a, Some b => same_but_signatures (63%N :: a) (63%N :: b)
  | _, _ => False
  end.
Record same_but_secrets (p q : UrlParts) : Prop := {
  sbs_scheme : up_scheme p = up_scheme q;
  sbs_username : up_username p = up_username q;
  sbs_password : is_Some (up_password p) ↔ is_Some (up_password q);
  sbs_host : up_host p = up_host q;
  sbs_path : same_path (up_path p) (up_path q);
  sbs_query : same_query (up_query p) (up_query q);
  sbs_fragment : up_fragment p = up_fragment q
}.

Lemma segments_of_token a rest :
  47%N ∉ a → match rest with [] => True | c :: _ => c = 47%N end →
  segments_of (txt "/t/" ++ a ++ rest) = Some (txt "t" :: a :: default [] (segments_of rest)).
Proof.
  intros Ha Hr. change (txt "/t/" ++ a ++ rest) with (47%N :: txt "t" ++ 47%N :: (a ++ rest)).
  cbn [segments_of]. change (47 =? 47)%N with true. cbv iota. rewrite split_char_app by (by vm_compute; set_solver).
  destruct rest as [|c rest]; [by rewrite app_nil_r, split_char_single|].
  subst c. rewrite split_char_app by done. done.
Qed.

(** What the masking does to the components. *)
Definition masked_password (r : text) (p : UrlParts) : UrlParts :=
  match up_password p with Some _ => with_password (Some (encode_password r)) p | None => p end.
Definition masked_query (r : text) (p : UrlParts) : UrlParts :=
  match q ← up_query p; redact_signatures_in_text (63%N :: q) r with
  | Some m => with_query (Some (encode_query (up_scheme p) (drop 1 m))) p
  | None => p
  end.
Definition masked_path (r : text) (p : UrlParts) : UrlParts :=
  match segments_of (up_path p) with
  | Some (t :: token :: rest) =>
      if bool_decide (t = txt "t") then
        with_path (encode_path (up_scheme p)
          (txt "t/" ++ r ++ (if bool_decide (rest = []) then [] else [47%N]) ++ push_segments rest)) p
      else p
  | _ => p
  end.

Lemma redact_url_parts u r :
  r ≠ [] →
  ∃ w, redact_url_for_display u r = Some w
    ∧ url_parts w = masked_path r (masked_query r (masked_password r (url_parts u))).
Proof.
  intros Hr. unfold redact_url_for_display.
  assert (∃ u1, match url_password u with Some _ => set_password u (Some r) | None => Some u end = Some u1
    ∧ url_parts u1 = masked_password r (url_parts u)) as (u1 & -> & <-).
  { unfold masked_password, url_password. destruct (up_password (url_parts u)) eqn:E; [|by eexists].
    destruct (set_password_parts u (Some r)) as (u1 & E1 & E2); [|congruence|by exists u1].
    apply credentials_host. right. congruence. }
  cbn [mbind option_bind].
  set (u2 := match url_query u1 with Some _ => _ | None => _ end).
  assert (url_parts u2 = masked_query r (url_parts u1)) as E2.
  { unfold u2, masked_query, url_query. destruct (up_query (url_parts u1)) as [q|]; simpl; [|done].
    destruct (redact_signatures_in_text _ _) as [m|]; [|done]. by rewrite set_query_parts. }
  rewrite <-E2. clearbody u2. clear E2. unfold masked_path, path_segments.
  destruct (segments_of _) as [[|t [|token rest]]|]; try by eexists.
  case_bool_decide; [|by eexists]. eexists. split; [done|]. by rewrite set_path_parts.
Qed.

Lemma masked_password_same r p q : same_but_secrets p q → same_but_secrets (masked_password r p) (masked_password r q)
  ∧ up_password (masked_password r p) = up_password (masked_password r q).
Proof.
  intros [H1 H2 H3 H4 H5 H6 H7]. unfold masked_password.
  destruct (up_password p) eqn:Ep, (up_password q) eqn:Eq;
    try (exfalso; destruct H3 as [Ha Hb]; (destruct Ha; by eauto) || (destruct Hb; by eauto)).
  - split; [|done]. by split.
  - split; [|by rewrite Ep, Eq]. split; try done. by rewrite Ep, Eq.
Qed.

Lemma masked_query_same r p q : same_but_secrets p q →
  up_password (masked_query r p) = up_password p
  ∧ up_path (masked_query r p) = up_path p ∧ up_scheme (masked_query r p) = up_scheme p
  ∧ up_query (masked_query r p) = up_query (masked_query r q)
  ∧ up_username (masked_query r p) = up_username p ∧ up_host (masked_query r p) = up_host p
  ∧ up_fragment (masked_query r p) = up_fragment p.
Proof.
  intros [H1 H2 H3 H4 H5 H6 H7]. unfold masked_query.
  assert (∀ x : option text, up_query (match x with
    | Some m => with_query (Some (encode_query (up_scheme p) (drop 1 m))) p | None => p end)
    = match x with Some m => Some (encode_query (up_scheme p) (drop 1 m)) | None => up_query p end) as Hq
    by by intros [].
  repeat match goal with |- _ ∧ _ => split end;
    try by destruct (up_query p) as [a|]; simpl; [destruct (redact_signatures_in_text _ _)|].
  rewrite Hq. clear Hq. rewrite H1. destruct (up_query p) as [a|] eqn:Ep, (up_query q) as [b|] eqn:Eq; try done; simpl.
  destruct (same_but_signatures_cases _ _ H6) as [[= ->]|[(i & c & Hc & Hs & Hi) (j & d & Hd & Ht & Hj)]].
  { destruct (redact_signatures_in_text _ _); simpl; congruence. }
  destruct (redact_signatures_some _ r i c Hc Hs Hi) as [m Em].
  destruct (redact_signatures_some _ r j d Hd Ht Hj) as [m' Em'].
  rewrite Em, Em'. simpl. do 3 f_equal.
  pose proof (redact_signatures_mask (63%N :: a) r) as M. pose proof (redact_signatures_mask (63%N :: b) r) as M'.
  rewrite Em in M. rewrite Em' in M'. simpl default in M, M'. rewrite M, M'. by apply mask_same.
Qed.

Lemma masked_path_same r p q :
  with_path [] p = with_path [] q → same_path (up_path p) (up_path q) → masked_path r p = masked_path r q.
Proof.
  destruct p as [sc us pw ho pa qu fr], q as [sc' us' pw' ho' pa' qu' fr'].
  intros [= -> -> -> -> -> ->] H. simpl in H. destruct H as [->|(a & b & rest & Ha & Hb & -> & -> & Hr)]; [done|].
  unfold masked_path. cbn [up_path up_scheme]. rewrite !segments_of_token by done. done.
Qed.

(** C24: Masking never fails, and shows nothing of a password, of the token of a
    [/t/<token>/] path, or of a signature in the query: of two URLs that differ in
    such secrets only the same URL is shown. *)
Theorem redact_url_hides (u v : Url) (redaction : text) :
  redaction ≠ [] → same_but_secrets (url_parts u) (url_parts v) →
  ∃ w, redact_url_for_display u redaction = Some w ∧ redact_url_for_display v redaction = Some w.
Proof.
  intros Hr H. destruct (redact_url_parts u redaction Hr) as (w & Ew & Pw).
  destruct (redact_url_parts v redaction Hr) as (x & Ex & Px).
  exists w. split; [done|]. rewrite Ex. f_equal. apply url_parts_inj. rewrite Pw, Px. symmetry.
  destruct (masked_password_same redaction _ _ H) as [H1 Hp].
  destruct (masked_query_same redaction _ _ H1) as (A1 & A2 & A3 & A4 & A5 & A6 & A7).
  assert (same_but_secrets (masked_password redaction (url_parts v)) (masked_password redaction (url_parts v))) as Hv.
  { split; try done; [by left|]. unfold same_query.
    destruct (up_query (masked_password redaction (url_parts v))); [|done]. apply same_but_signatures_refl. }
  destruct (masked_query_same redaction _ _ Hv) as (B1 & B2 & B3 & _ & B5 & B6 & B7).
  destruct H1 as [S1 S2 S3 S4 S5 S6 S7].
  apply masked_path_same; [|by rewrite A2, B2].
  unfold with_path. by rewrite A1, A3, A4, A5, A6, A7, B1, B3, B5, B6, B7, S1, S2, S4, S7, Hp.
Qed.

(** The path without the token of a [/t/<token>/] prefix. *)
Definition stripped_path (path : text) : text :=
  match segments_of path with
  | Some (t :: token :: rest) =>
      if bool_decide (t = txt "t" ∧ token ≠ []) then 47%N :: join [47%N] rest else path
  | _ => path
  end.
Definition stripped_fragment (fragment : option text) : option text :=
  match fragment with Some f => if is_artifact_digest f then Some f else None | None => None end.
Definition stripped (p : UrlParts) : UrlParts :=
  mkUrlParts (up_scheme p) [] None (up_host p) (stripped_path (up_path p)) None (stripped_fragment (up_fragment p)).

Lemma segments_of_join path segments : segments_of path = Some segments → path = 47%N :: join [47%N] segments.
Proof.
  destruct path as [|c path]; simpl; [done|]. destruct (N.eqb_spec c 47) as [->|]; [|done].
  intros [= <-]. by rewrite join_split.
Qed.

(** The path that is left is an end of the path, so an http URL keeps it as it is. *)
Lemma stripped_path_suffix path segments t token rest :
  segments_of path = Some segments → segments = t :: token :: rest → rest ≠ [] →
  path = (47%N :: t ++ 47%N :: token) ++ [47%N] ++ join [47%N] rest.
Proof.
  intros H%segments_of_join -> Hr. rewrite H. destruct rest as [|s rest]; [done|].
  cbn [join app]. by rewrite <-!app_assoc.
Qed.

Lemma strip_credentials (u : Url) :
  let url := if negb (bool_decide (url_username u = [])) || bool_decide (is_Some (url_password u)) then
      let url := default u (set_username u []) in default url (set_password url None) else u in
  url_parts url = with_password None (with_username [] (url_parts u)).
Proof.
  unfold url_username, url_password. simpl.
  destruct (decide (up_username (url_parts u) ≠ [] ∨ up_password (url_parts u) ≠ None)) as [Hc|Hc].
  - assert (negb (bool_decide (up_username (url_parts u) = []))
      || bool_decide (is_Some (up_password (url_parts u))) = true) as ->.
    { rewrite orb_true_iff, negb_true_iff, bool_decide_eq_false, bool_decide_eq_true, <-not_eq_None_Some. done. }
    pose proof (credentials_host u Hc) as Ha.
    destruct (set_username_clear u Ha) as (v & -> & Ev). simpl.
    assert (can_authenticate (url_parts v) = true) as Hv by (by rewrite Ev).
    destruct (set_password_parts v None Hv ltac:(done)) as (w & -> & Ew). simpl. by rewrite Ew, Ev.
  - assert (up_username (url_parts u) = [] ∧ up_password (url_parts u) = None) as [H1 H2].
    { destruct (up_username (url_parts u)), (up_password (url_parts u)); naive_solver. }
    rewrite H1, H2. simpl. destruct (url_parts u). simpl in *. by subst.
Qed.

Lemma strip_url_parts (u : Url) :
  is_http (up_scheme (url_parts u)) = true →
  url_parts (strip_url_for_serialization u) = stripped (url_parts u).
Proof.
  intros Hhttp. unfold strip_url_for_serialization. pose proof (strip_credentials u) as H1. simpl in H1.
  set (u1 := if _ || _ then _ else _) in *.
  assert (path_without_token u1 = path_without_token u) as Hp.
  { unfold path_without_token, path_segments. by rewrite H1. }
  rewrite Hp. set (u2 := match path_without_token u with Some _ => _ | None => _ end).
  assert (url_parts (set_query u2 None) = mkUrlParts (up_scheme (url_parts u)) [] None (up_host (url_parts u))
      (stripped_path (up_path (url_parts u))) None (up_fragment (url_parts u))) as H2.
  { rewrite set_query_parts. unfold u2, path_without_token, stripped_path, path_segments.
    destruct (segments_of _) as [[|t [|token rest]]|] eqn:Hs; cbn [mbind option_bind]; try by rewrite H1.
    case_bool_decide as Ht; [|by rewrite H1]. rewrite set_path_parts, H1. unfold with_query, with_path. simpl.
    f_equal. destruct (decide (rest = [])) as [->|Hr]; [by apply set_path_root|].
    apply (set_path_suffix u (47%N :: t ++ 47%N :: token)); [done|]. by eapply stripped_path_suffix. }
  unfold url_fragment, stripped, stripped_fragment. rewrite H2. cbn [up_fragment].
  destruct (up_fragment (url_parts u)) as [f|]; [|done]. destruct (is_artifact_digest f); [done|].
  by rewrite clear_fragment_parts, H2.
Qed.

(** A URL that is written to a file has no user name, password or query, no fragment
    that is not a digest, and its path is the one behind the token of a [/t/<token>/]
    prefix; the rest of it is unchanged.  Stripping it again changes nothing exactly
    when the path that is left does not start with a token again. *)
Theorem strip_url_correct (u : Url) :
  is_http (up_scheme (url_parts u)) = true →
  url_parts (strip_url_for_serialization u) = stripped (url_parts u)
  ∧ let path := stripped_path (up_path (url_parts u)) in
    strip_url_for_serialization (strip_url_for_serialization u) = strip_url_for_serialization u
    ↔ stripped_path path = path.
Proof.
  intros Hhttp. pose proof (strip_url_parts u Hhttp) as E. split; [done|]. cbv zeta.
  assert (url_parts (strip_url_for_serialization (strip_url_for_serialization u))
    = stripped (stripped (url_parts u))) as E2 by (rewrite strip_url_parts, E; [done|by rewrite E]).
  split.
  - intros H. rewrite H, E in E2. by injection E2.
  - intros H. apply url_parts_inj. rewrite E2, E. unfold stripped. simpl. rewrite H. f_equal.
    unfold stripped_fragment. destruct (up_fragment (url_parts u)) as [f|]; [|done].
    by destruct (is_artifact_digest f) eqn:Ef; [rewrite Ef|].
Qed.

(** The output shows nothing of a signature: it is what a scanner gives that replaces
    the value of every [sig] parameter, so texts that differ in signatures only give
    the same output.  A text without a signature is returned as it is. *)
Theorem redact_signatures_correct (s redaction : text) :
  default s (redact_signatures_in_text s redaction) = mask redaction Plain s
  ∧ (∀ s', same_but_signatures s s' →
       default s' (redact_signatures_in_text s' redaction) = default s (redact_signatures_in_text s redaction))
  ∧ (redact_signatures_in_text s redaction = None ↔
       ∀ i c, s !! i = Some c → is_separator c = true → ¬ signature_at (drop (i + 1) s)).
Proof.
  split; [apply redact_signatures_mask|]. split.
  - intros s' H. rewrite !redact_signatures_mask. symmetry. by apply mask_same.
  - split; [|apply redact_signatures_none]. intros H i c Hc Hs Hi.
    destruct (redact_signatures_some s redaction i c Hc Hs Hi). congruence.
Qed.
End url.

(** ** An instance *)

Definition parts_ok (p : UrlParts) : bool :=
  bool_decide (up_username p = [] ∧ up_password p = None) || can_authenticate p.
#[export] Instance url_parts_countable : Countable UrlParts.
Proof.
  refine (inj_countable'
    (λ p, (up_scheme p, up_username p, up_password p, up_host p, up_path p, up_query p, up_fragment p))
    (λ '(a, b, c, d, e, f, g), mkUrlParts a b c d e f g) _).
  by intros [].
Defined.

(** URLs as their components, with one number as the serialisation; the text of a file
    URL is parsed too. *)
Definition ValidUrl : Type := { p : UrlParts | parts_ok p = true }.
Definition url_make (p : UrlParts) : option ValidUrl :=
  match decide (parts_ok p = true) with left H => Some (exist _ p H) | right _ => None end.
Definition url_keep (f : UrlParts → UrlParts) (H : ∀ p, parts_ok (f p) = parts_ok p) (u : ValidUrl) : ValidUrl :=
  exist _ (f (proj1_sig u)) (eq_trans (H (proj1_sig u)) (proj2_sig u)).
Definition rooted (path : text) : text := match path with 47%N :: _ => path | _ => 47%N :: path end.

Lemma url_make_parts p : parts_ok p = true → ∃ v, url_make p = Some v ∧ proj1_sig v = p.
Proof. intros H. unfold url_make. destruct (decide _); [|done]. by eexists. Qed.

Lemma valid_url_eq (u v : ValidUrl) : proj1_sig u = proj1_sig v → u = v.
Proof. destruct u as [p Hp], v as [q Hq]. simpl. intros ->. f_equal. apply (proof_irrel Hp Hq). Qed.

#[export] Instance url_crate_parts : UrlCrate.
Proof.
  refine {|
    Url := ValidUrl;
    url_as_str u := [Npos (encode (proj1_sig u))];
    url_parse s :=
      match strip (txt "file://") s with
      | Some path => url_make (mkUrlParts (txt "file") [] None None path None None)
      | None => match s with [Npos n] => p ← decode n; url_make p | _ => None end
      end;
    url_parts u := proj1_sig u;
    set_username u username :=
      if can_authenticate (proj1_sig u) then url_make (with_username username (proj1_sig u)) else None;
    set_password u password :=
      if can_authenticate (proj1_sig u) then url_make (with_password password (proj1_sig u)) else None;
    set_path u path := url_keep (with_path (rooted path)) (λ _, eq_refl) u;
    set_query u query := url_keep (with_query query) (λ _, eq_refl) u;
    set_fragment u fragment := url_keep (with_fragment fragment) (λ _, eq_refl) u;
    encode_password s := s;
    encode_query _ s := s;
    encode_path _ path := rooted path
  |}.
  - apply valid_url_eq.
  - intros u.
    assert (∀ n, strip (txt "file://") [Npos n] = None) as ->.
    { intros n. cbn [txt strip]. by destruct (_ =? _)%N. }
    rewrite decode_encode. simpl. destruct (url_make_parts _ (proj2_sig u)) as (v & -> & Hv).
    f_equal. by apply valid_url_eq.
  - intros [p Hp]; simpl. unfold parts_ok in Hp. apply orb_true_iff in Hp as [Hp|]; [|done].
    apply bool_decide_eq_true in Hp as [-> ->]. naive_solver.
  - intros [p Hp]; simpl. intros H. rewrite H. apply url_make_parts. unfold parts_ok. apply orb_true_iff. by right.
  - intros [p Hp] password; simpl. intros H _. rewrite H.
    replace (id <$> password) with password by (by destruct password).
    replace ((λ s : text, s) <$> password) with password by (by destruct password).
    apply url_make_parts. unfold parts_ok. apply orb_true_iff. by right.
  - done.
  - by intros u [query|].
  - done.
  - done.
  - done.
Defined.

Definition sample_url (path query : text) : @Url url_crate_parts :=
  exist _ (mkUrlParts (txt "https") (txt "user") (Some (txt "hunter2")) (Some (txt "prefix.dev"))
             path (Some query) None) eq_refl.

Lemma redact_url_hides_witness :
  ∃ w, redact_url_for_display (sample_url (txt "/t/abc/chan") (txt "a=b&sig=xyz")) DEFAULT_REDACTION_STR = Some w
    ∧ proj1_sig w = mkUrlParts (txt "https") (txt "user") (Some (txt "********")) (Some (txt "prefix.dev"))
                     (txt "/t/********/chan") (Some (txt "a=b&sig=********")) None
    ∧ redact_url_for_display (sample_url (txt "/t/defg/chan") (txt "a=b&sig=uvwq")) DEFAULT_REDACTION_STR = Some w.
Proof.
  destruct (redact_url_hides (sample_url (txt "/t/abc/chan") (txt "a=b&sig=xyz"))
    (sample_url (txt "/t/defg/chan") (txt "a=b&sig=uvwq")) DEFAULT_REDACTION_STR) as (w & E & F).
  - discriminate.
  - split; try reflexivity.
    + right. exists (txt "abc"), (txt "defg"), (txt "/chan").
      split; [apply (bool_decide_unpack _); vm_compute; exact I|].
      split; [apply (bool_decide_unpack _); vm_compute; exact I|]. repeat split.
    + do 4 apply same_char. apply (same_signature 38%N (txt "sig") (txt "xyz") (txt "uvwq") [] []);
        try reflexivity; try discriminate; repeat constructor.
  - exists w. split; [exact E|]. split; [|exact F]. vm_compute in E. injection E as <-. reflexivity.
Defined.

Lemma strip_url_correct_witness :
  let u := sample_url (txt "/t/abc/chan") (txt "a=b") in
  is_http (up_scheme (url_parts u)) = true
  ∧ strip_url_for_serialization (strip_url_for_serialization u) = strip_url_for_serialization u
  ∧ url_parts (strip_url_for_serialization u)
    = mkUrlParts (txt "https") [] None (Some (txt "prefix.dev")) (txt "/chan") None None.
Proof.
  split; [reflexivity|].
  destruct (strip_url_correct (sample_url (txt "/t/abc/chan") (txt "a=b")) eq_refl) as [H1 H2].
  split; [apply H2; vm_compute; reflexivity|]. rewrite H1. vm_compute. reflexivity.
Defined.

(** A token behind a token is left in what is written: stripping is no fixed point, and
    the output still has a token. *)
Lemma strip_url_leaves_token :
  let u := sample_url (txt "/t/abc/t/def/chan") (txt "a=b") in
  strip_url_for_serialization (strip_url_for_serialization u) ≠ strip_url_for_serialization u
  ∧ up_path (url_parts (strip_url_for_serialization u)) = txt "/t/def/chan".
Proof.
  split; [|by vm_compute]. intros H. apply (f_equal (λ u, up_path (url_parts u))) in H.
  vm_compute in H. discriminate.
Qed.
