(* ===== verification/FileUrl.v ===== *)
(** * File URLs and paths

    [file_url/src/lib.rs]: the URL of a path and the path of a [file] URL, on every
    platform alike.  The crates [typed_path] and [percent_encoding] are classes. *)
From S2P Require Import Prelude Externs TextOps Redaction Utf.

Local Notation text := (list N).

(** ** The crates that are called *)

(** [typed_path]: the components of a path, which is taken as a Windows or as a Unix path
    by its form. *)
Inductive WindowsPrefix : Type :=
| Disk (letter : N)
| VerbatimDisk (letter : N)
| UNC (server share : text)
| VerbatimUNC (server share : text)
| OtherPrefix.
Inductive PathComponent : Type :=
| WinPrefix (kind : WindowsPrefix)
| WinRootDir
| WinOther (as_str : text)
| UnixRootDir
| UnixOther (as_str : text).

(** A name in a Unix path. *)
Definition unix_name (s : text) : Prop :=
  s ≠ [] ∧ c_slash ∉ s ∧ c_backslash ∉ s ∧ s ≠ txt "." ∧ s ≠ txt "..".

Class TypedPaths := {
  path_components : text → list PathComponent;
  path_is_absolute : text → bool;
  path_normalize : text → text;
  path_join : text → text → text;
  strip_home_prefix : text → option text;
  components_unix first names : Forall unix_name (first :: names) →
    path_components (c_slash :: join [c_slash] (first :: names)) = UnixRootDir :: (UnixOther <$> first :: names)
}.

(** [percent_encoding]: the bytes of the set and those outside ASCII are written as a
    percent sign and two hexadecimal digits. *)
Definition hex_digit (n : N) : N := if (n <? 10)%N then (48 + n)%N else (55 + n)%N.
Definition percent_encode_byte (set : N → bool) (b : N) : text :=
  if (b <? 128)%N && negb (set b) then [b] else [37; hex_digit (b / 16); hex_digit (b mod 16)]%N.

Class PercentEncoding := {
  percent_encode : (N → bool) → list N → text;
  percent_decode : list N → list N;
  percent_encode_law set bytes : percent_encode set bytes = bytes ≫= percent_encode_byte set;
  percent_decode_encode set bytes :
    set 37%N = true → Forall (λ b, (b < 256)%N) bytes → percent_decode (percent_encode set bytes) = bytes
}.

(** Characters that stay as they are in the path of a URL. *)
Definition is_url_path_char (c : N) : bool :=
  is_ascii_alphabetic c || is_ascii_digit c
  || bool_decide (c ∈ [45; 46; 95; 126; 33; 36; 38; 40; 41; 42; 43; 44; 59; 61; 58; 64; 37; 47]%N).
(** No segment of the path is one or two dots. *)
Definition no_dots (path : text) : Prop :=
  Forall (λ s, s ≠ txt "." ∧ s ≠ txt "..") (split_char c_slash path).

(** The [url] crate on file URLs, and [Host::parse] with its [Display]. *)
Class FileUrls `{UC : UrlCrate} := {
  host_parse : text → option text;
  url_parse_file path :
    head path = Some c_slash → forallb is_url_path_char path = true → no_dots path →
    ∃ u, url_parse (txt "file://" ++ path) = Some u
      ∧ url_parts u = mkUrlParts (txt "file") [] None None path None None
}.

(** ** Definitions *)

(** [String::from_utf8]: fails unless the bytes are UTF-8. *)
Definition from_utf8 (bytes : list N) : option text :=
  let s := from_utf8_lossy bytes in if bool_decide (utf8 s = bytes) then Some s else None.

Definition is_control (c : N) : bool := (c <=? 31)%N || (c =? 127)%N.
Definition FRAGMENT (c : N) : bool := is_control c || bool_decide (c ∈ [32; 34; 60; 62; 96]%N).
Definition PATH (c : N) : bool := FRAGMENT c || bool_decide (c ∈ [35; 63; 123; 125]%N).
Definition PATH_SEGMENT (c : N) : bool := PATH c || bool_decide (c ∈ [47; 37]%N).

Definition is_windows_drive_letter_segment (segment : text) : option text :=
  match segment with
  | [letter; c] =>
      if (c =? c_colon)%N && is_ascii_alphabetic letter then Some [letter; c_colon; c_backslash] else None
  | [letter; p; d3; da] =>
      if (p =? 37)%N && (d3 =? 51)%N && ((da =? 97)%N || (da =? 65)%N) && is_ascii_alphabetic letter
      then Some [letter; c_colon; c_backslash] else None
  | _ => None
  end.

(** The bytes of the text *)
Definition starts_with_windows_drive_letter (s : text) : bool :=
  match utf8 s with
  | a :: b :: rest =>
      is_ascii_alphabetic a && ((b =? c_colon)%N || (b =? c_bar)%N)
      && match rest with
         | [] => true
         | c :: _ => bool_decide (c ∈ [c_slash; c_backslash; 63; c_hash]%N)
         end
  | _ => false
  end.
Definition is_windows_drive_letter (segment : text) : bool :=
  (str_len segment =? 2)%nat && starts_with_windows_drive_letter segment.

Section file_url.
Context `{UC : UrlCrate} `{TP : TypedPaths} `{PE : PercentEncoding} `{FU : !FileUrls}.

(** The loop over the remaining segments *)
Fixpoint push_decoded (separator : text) (idx : nat) (segments : list text) (path : text) : option text :=
  match segments with
  | [] => Some path
  | segment :: segments' =>
      let path := if (0 <? idx)%nat then path ++ separator else path in
      s ← from_utf8 (percent_decode (utf8 segment));
      push_decoded separator (S idx) segments' (path ++ s)
  end.

(** [url_to_path] and [url_to_typed_path] *)
Definition url_to_path_inner (url : Url) : option text :=
  if negb (bool_decide (up_scheme (url_parts url) = txt "file")) then None
  else
    segments ← path_segments url;
    let host := match up_host (url_parts url) with
                | None => None
                | Some host => if bool_decide (host = txt "localhost") then None else Some host
                end in
    match host with
    | Some host =>
        push_decoded [c_backslash] 0 segments ([c_backslash; c_backslash] ++ host ++ [c_backslash])
    | None =>
        match segments with
        | [] => None
        | first :: segments =>
            if head_is (λ c, c =? c_dot)%N first then None
            else
              match is_windows_drive_letter_segment first with
              | Some drive_letter => push_decoded [c_backslash] 0 segments drive_letter
              | None =>
                  decoded ← from_utf8 (percent_decode (utf8 first));
                  if starts_with_windows_drive_letter decoded && str_contains decoded [c_backslash]
                  then Some decoded
                  else push_decoded [c_slash] 0 segments ([c_slash] ++ first ++ [c_slash])
              end
        end
    end.

Inductive FileURLParseError : Type := NotAnAbsolutePath | InvalidUrl.

Definition is_root_dir (component : PathComponent) : bool :=
  match component with WinRootDir | UnixRootDir => true | _ => false end.
(** [Utf8TypedComponent::as_str] of the components that are not skipped; the prefix is the
    first component of its path only. *)
Definition component_as_str (component : PathComponent) : text :=
  match component with WinOther s | UnixOther s => s | _ => [] end.

(** The loop over the components after the first *)
Fixpoint push_components (components : list PathComponent) (result : text) (path_only_has_prefix : bool)
  : text * bool :=
  match components with
  | [] => (result, path_only_has_prefix)
  | component :: components' =>
      if is_root_dir component then push_components components' result path_only_has_prefix
      else push_components components'
             (result ++ [c_slash] ++ percent_encode PATH_SEGMENT (utf8 (component_as_str component))) false
  end.

Definition path_to_url (path : text) : result FileURLParseError text :=
  let start := txt "file://" in
  let host_start := length start + 1 in
  let finish (result : text) (components : list PathComponent) :=
    let '(result, path_only_has_prefix) := push_components components result true in
    Ok (if (host_start <? length result)%nat && is_windows_drive_letter (drop host_start result)
           && path_only_has_prefix then result ++ [c_slash] else result) in
  match path_components path with
  | WinPrefix (Disk letter | VerbatimDisk letter) :: components =>
      finish (start ++ [c_slash; letter; c_colon]) components
  | WinPrefix (UNC server share | VerbatimUNC server share) :: components =>
      match host_parse server with
      | None => Err NotAnAbsolutePath
      | Some host =>
          finish (start ++ host ++ [c_slash] ++ percent_encode PATH_SEGMENT (utf8 share)) components
      end
  | UnixRootDir :: components => finish start components
  | _ => Err NotAnAbsolutePath
  end.

Definition file_path_to_url (path : text) : result FileURLParseError Url :=
  match path_to_url path with
  | Err e => Err e
  | Ok url => match url_parse url with Some url => Ok url | None => Err InvalidUrl end
  end.

(** [None] is the [expect]. *)
Definition directory_path_to_url (path : text) : option (result FileURLParseError Url) :=
  match path_to_url path with
  | Err e => Some (Err e)
  | Ok url =>
      let url := if last_is (λ c, c =? c_slash)%N url then url else url ++ [c_slash] in
      url ← url_parse url; Some (Ok url)
  end.
End file_url.

(** ** Lemmas *)

(** The bytes of a file name; no dot segment, no control character the crates would change. *)
Record file_name (s : text) : Prop := {
  fn_scalars : Forall (λ c, is_scalar c = true) s;
  fn_unix : unix_name s;
  fn_chars : Forall (λ c, (128 <= c)%N ∨ PATH_SEGMENT c = true ∨ is_url_path_char c = true) s
}.

Lemma utf8_char_ascii c b : b ∈ utf8_char c → (b < 128)%N → b = c.
Proof.
  unfold utf8_char. repeat case_match; rewrite ?elem_of_cons, ?elem_of_nil; bool_hyps; intros Hb Hlt; lia.
Qed.

Lemma utf8_ascii_in s b : b ∈ utf8 s → (b < 128)%N → b ∈ s.
Proof.
  unfold utf8. intros (c & Hb & Hc)%list_elem_of_bind Hlt. by rewrite (utf8_char_ascii c b Hb Hlt).
Qed.

Lemma utf8_bytes s : Forall (λ c, is_scalar c = true) s → Forall (λ b, (b < 256)%N) (utf8 s).
Proof.
  intros Hs. apply Forall_forall. unfold utf8. intros b (c & Hb & Hc)%list_elem_of_bind.
  rewrite Forall_forall in Hs. specialize (Hs c Hc). unfold is_scalar in Hs.
  assert (c < 1114112)%N as Hmax.
  { destruct (N.ltb_spec c 55296), (N.leb_spec 57344 c), (N.ltb_spec c 1114112); simpl in Hs; done || lia. }
  revert Hb. unfold utf8_char. repeat case_match; rewrite ?elem_of_cons, ?elem_of_nil; bool_hyps; lia.
Qed.

Lemma from_utf8_utf8 s : Forall (λ c, is_scalar c = true) s → from_utf8 (utf8 s) = Some s.
Proof.
  intros Hs. unfold from_utf8. rewrite from_utf8_lossy_utf8 by done. by rewrite bool_decide_true.
Qed.

Lemma split_at_char c s : c ∉ s → split_at [c] s = None.
Proof.
  induction s as [|d s IH]; [done|]. intros [Hd Hs]%not_elem_of_cons. cbn [split_at strip].
  rewrite (proj2 (N.eqb_neq _ _)) by congruence. by rewrite IH.
Qed.

Lemma hex_digit_hex n : (n < 16)%N → is_ascii_hexdigit (hex_digit n) = true.
Proof. intros Hn. exhaust 16%N (λ n, is_ascii_hexdigit (hex_digit n)) n H. done. Qed.

Section encoding.
Context `{PE : PercentEncoding}.

(** What the URL holds of a name *)
Definition encoded (s : text) : text := percent_encode PATH_SEGMENT (utf8 s).

Lemma encoded_chars s c : Forall (λ c, is_scalar c = true) s → c ∈ encoded s →
  c = 37%N ∨ is_ascii_hexdigit c = true ∨ c ∈ s ∧ (c < 128)%N ∧ PATH_SEGMENT c = false.
Proof.
  intros Hs. unfold encoded. rewrite percent_encode_law. intros (b & Hc & Hb)%list_elem_of_bind.
  pose proof (proj1 (Forall_forall _ _) (utf8_bytes s Hs) b Hb) as Hb'. cbv beta in Hb'.
  unfold percent_encode_byte in Hc. destruct (_ && _) eqn:E.
  - apply list_elem_of_singleton in Hc as ->. bool_hyps. right. right. split; [by apply utf8_ascii_in|done].
  - apply elem_of_cons in Hc as [->|Hc]; [by left|]. right. left.
    apply elem_of_cons in Hc as [->|Hc]; [apply hex_digit_hex; lia|].
    apply list_elem_of_singleton in Hc as ->. apply hex_digit_hex. lia.
Qed.

Lemma encoded_plain s :
  Forall (λ c, (c < 128)%N ∧ PATH_SEGMENT c = false) s → encoded s = s.
Proof.
  intros Hs. unfold encoded. rewrite utf8_ascii by (eapply Forall_impl; [exact Hs|]; naive_solver).
  rewrite percent_encode_law. induction Hs as [|c s [Hc Hp] Hs IH]; [done|]. cbn [mbind list_bind].
  rewrite IH. unfold percent_encode_byte. by rewrite (proj2 (N.ltb_lt _ _)), Hp.
Qed.

Lemma encoded_ascii s : Forall (λ c, is_scalar c = true) s → Forall (λ c, (c < 128)%N) (encoded s).
Proof.
  intros Hs. apply Forall_forall. intros c Hc. destruct (encoded_chars s c Hs Hc) as [->|[Hh|(_ & ? & _)]]; [lia| |done].
  unfold is_ascii_hexdigit, is_ascii_digit in Hh. apply orb_true_iff in Hh as [?|[?|?]%orb_true_iff]; bool_hyps; lia.
Qed.

Lemma decode_encoded s : Forall (λ c, is_scalar c = true) s →
  from_utf8 (percent_decode (utf8 (encoded s))) = Some s.
Proof.
  intros Hs. rewrite utf8_ascii by by apply encoded_ascii. unfold encoded.
  rewrite percent_decode_encode by (done || by apply utf8_bytes). by apply from_utf8_utf8.
Qed.

Lemma encoded_inj s t :
  Forall (λ c, is_scalar c = true) s → Forall (λ c, is_scalar c = true) t → encoded s = encoded t → s = t.
Proof.
  intros Hs Ht E. pose proof (decode_encoded s Hs) as H1. rewrite E, decode_encoded in H1 by done.
  by injection H1.
Qed.

Lemma encoded_head s : head_is (λ c, c =? c_dot)%N (encoded s) = head_is (λ c, c =? c_dot)%N s.
Proof.
  unfold encoded. rewrite percent_encode_law. destruct s as [|c s]; [done|].
  unfold utf8. cbn [mbind list_bind]. fold (utf8 s). rewrite bind_app.
  destruct (N.ltb_spec c 128) as [Hc|Hc].
  - assert (utf8_char c = [c]) as -> by (unfold utf8_char; by rewrite (proj2 (N.ltb_lt _ _))).
    cbn [mbind list_bind]. unfold percent_encode_byte at 1.
    rewrite (proj2 (N.ltb_lt _ _)) by done. destruct (PATH_SEGMENT c) eqn:E; [|done]. simpl.
    destruct (N.eqb_spec c c_dot) as [->|]; [by vm_compute in E|done].
  - assert (∃ b bs, utf8_char c = b :: bs ∧ (128 <= b)%N) as (b & bs & -> & Hb).
    { unfold utf8_char. rewrite (proj2 (N.ltb_ge _ _)) by done.
      repeat case_match; eexists _, _; (split; [done|lia]). }
    cbn [mbind list_bind]. unfold percent_encode_byte at 1. rewrite (proj2 (N.ltb_ge _ _)) by done. simpl.
    symmetry. apply N.eqb_neq. lia.
Qed.

Lemma encoded_no_slash s : Forall (λ c, is_scalar c = true) s → c_slash ∉ encoded s.
Proof. intros Hs Hin. by destruct (encoded_chars s _ Hs Hin) as [?|[?|(_ & _ & ?)]]. Qed.

Lemma encoded_url_chars s : file_name s → forallb is_url_path_char (encoded s) = true.
Proof.
  intros [Hs _ Hc]. apply forallb_forall. intros c Hin%list_elem_of_In.
  destruct (encoded_chars s c Hs Hin) as [->|[Hh|(Hcs & Hlt & Hseg)]]; [done| |].
  - assert (c < 128)%N as Hlt.
    { unfold is_ascii_hexdigit, is_ascii_digit in Hh. apply orb_true_iff in Hh as [?|[?|?]%orb_true_iff]; bool_hyps; lia. }
    exhaust 128%N (λ c, implb (is_ascii_hexdigit c) (is_url_path_char c)) c H. by rewrite Hh in H.
  - rewrite Forall_forall in Hc. destruct (Hc c Hcs) as [?|[?|?]]; [lia|congruence|done].
Qed.
End encoding.

(** ** Paths to URLs and back *)
Section theorems.
Context `{UC : UrlCrate} `{TP : TypedPaths} `{PE : PercentEncoding} `{FU : !FileUrls}.

Lemma join_cons c x l : c :: join [c] (x :: l) = concat ((λ y, c :: y) <$> x :: l).
Proof.
  revert x. induction l as [|y l IH]; intros x; csimpl; [by rewrite app_nil_r|].
  specialize (IH y). csimpl in IH. by rewrite <-IH.
Qed.

Lemma push_components_unix names result flag :
  push_components (UnixOther <$> names) result flag
  = (result ++ concat ((λ s, c_slash :: encoded s) <$> names), bool_decide (names = []) && flag).
Proof.
  revert result flag. induction names as [|s names IH]; intros result flag; csimpl.
  { by rewrite app_nil_r. }
  rewrite IH. rewrite andb_false_r, <-app_assoc. done.
Qed.

Lemma path_to_url_unix first names :
  Forall unix_name (first :: names) →
  path_to_url (c_slash :: join [c_slash] (first :: names))
  = Ok (txt "file://" ++ c_slash :: join [c_slash] (encoded <$> first :: names)).
Proof.
  intros Hn. unfold path_to_url. rewrite components_unix by done.
  rewrite push_components_unix. rewrite (bool_decide_false (first :: names = [])) by done.
  rewrite !andb_false_r. do 2 f_equal. etrans; [|symmetry; apply (join_cons c_slash (encoded first))].
  change (encoded first :: _) with (encoded <$> first :: names). by rewrite <-list_fmap_compose.
Qed.

Lemma push_decoded_encoded sep names idx path :
  Forall (λ s, Forall (λ c, is_scalar c = true) s) names → names ≠ [] →
  push_decoded sep idx (encoded <$> names) path
  = Some (path ++ (if (0 <? idx)%nat then sep else []) ++ join sep names).
Proof.
  intros Hs Hne. revert idx path. induction Hs as [|s names Hs Hn IH]; intros idx path; [done|].
  csimpl. rewrite decode_encoded by done. cbn [mbind option_bind].
  assert ((if (0 <? idx)%nat then path ++ sep else path) = path ++ (if (0 <? idx)%nat then sep else [])) as ->.
  { destruct (0 <? idx)%nat; [done|by rewrite app_nil_r]. }
  destruct names as [|t names]; [by rewrite <-!app_assoc|].
  rewrite IH by done. change (0 <? S idx)%nat with true. cbv iota. by rewrite <-!app_assoc.
Qed.

(** The URL of a Unix path leads back to the path with its first name as the URL has
    it, percent signs included, and to a path with a slash at its end when there is one
    name only. *)
Theorem url_to_path_of_path first names :
  Forall file_name (first :: names) → head_is (λ c, c =? c_dot)%N first = false →
  is_windows_drive_letter_segment (encoded first) = None →
  ∃ url, file_path_to_url (c_slash :: join [c_slash] (first :: names)) = Ok url
    ∧ url_to_path_inner url = Some (c_slash :: encoded first ++ c_slash :: join [c_slash] names).
Proof.
  intros Hn Hdot Hdrive.
  assert (Forall (λ s, Forall (λ c, is_scalar c = true) s) (first :: names)) as Hs.
  { eapply Forall_impl; [exact Hn|]. by intros s []. }
  assert (Forall (λ p, c_slash ∉ p) (encoded <$> first :: names)) as Hslash.
  { apply Forall_fmap. eapply Forall_impl; [exact Hs|]. intros s. apply encoded_no_slash. }
  set (path := c_slash :: join [c_slash] (encoded <$> first :: names)).
  assert (split_char c_slash (join [c_slash] (encoded <$> first :: names)) = encoded <$> first :: names) as Esplit
    by by apply split_join.
  destruct (url_parse_file path) as (u & Eu & Pu); [done|..].
  { unfold path. cbn [forallb]. apply andb_true_iff. split; [done|].
    assert (∀ l, Forall (λ s, forallb is_url_path_char s = true) l →
      forallb is_url_path_char (join [c_slash] l) = true) as Hj.
    { induction 1 as [|s [|t l] H H' IH]; [done|done|]. change (join [c_slash] (s :: t :: l)) with (s ++ c_slash :: join [c_slash] (t :: l)).
      rewrite forallb_app, H. exact IH. }
    apply Hj, Forall_fmap. eapply Forall_impl; [exact Hn|]. intros s. apply encoded_url_chars. }
  { unfold path, no_dots. cbn [split_char]. change (c_slash =? c_slash)%N with true. cbv iota. rewrite Esplit.
    constructor; [done|]. apply Forall_fmap. eapply Forall_impl; [exact Hn|]. intros s [Hsc (_ & _ & _ & Hd1 & Hd2) _]. simpl. split; intros E.
    - apply Hd1, encoded_inj; [done|by repeat constructor|]. rewrite E. symmetry. apply encoded_plain. by repeat constructor.
    - apply Hd2, encoded_inj; [done|by repeat constructor|]. rewrite E. symmetry. apply encoded_plain. by repeat constructor. }
  exists u. split.
  { unfold file_path_to_url. rewrite path_to_url_unix by (eapply Forall_impl; [exact Hn|]; by intros s []).
    fold path. by rewrite Eu. }
  unfold url_to_path_inner, path_segments. rewrite Pu. cbn [up_scheme up_path up_host].
  rewrite bool_decide_true by done. cbn [negb]. unfold path, segments_of.
  change (c_slash =? 47)%N with true. cbv iota. rewrite Esplit. csimpl.
  rewrite encoded_head, Hdot, Hdrive. apply Forall_cons in Hs as [Hs Hss]. rewrite decode_encoded by done. csimpl.
  assert (str_contains first [c_backslash] = false) as ->.
  { unfold str_contains. rewrite split_at_char; [by apply bool_decide_false; intros [? ?]|].
    apply Forall_cons in Hn as [[_ (_ & _ & ? & _) _] _]. done. }
  rewrite andb_false_r. destruct names as [|s names]; [done|].
  rewrite push_decoded_encoded by done. simpl. by rewrite <-!app_assoc.
Qed.
End theorems.

(** ** Instances *)

(** The parts of a text between slashes, as a Unix path. *)
Definition unix_components (path : text) : list PathComponent :=
  match path with
  | c :: rest => if (c =? c_slash)%N then UnixRootDir :: (UnixOther <$> split_char c_slash rest) else []
  | [] => []
  end.
#[export, refine] Instance typed_paths_unix : TypedPaths := {|
  path_components := unix_components;
  path_is_absolute := head_is (λ c, c =? c_slash)%N;
  path_normalize s := s;
  path_join a b := a ++ [c_slash] ++ b;
  strip_home_prefix := strip (txt "~/")
|}.
Proof.
  intros first names H. unfold unix_components. rewrite N.eqb_refl, split_join; [done|done|].
  eapply Forall_impl; [exact H|]. by intros s (_ & ? & _).
Defined.

Definition hex_value (c : N) : N := if (c <? 58)%N then (c - 48)%N else (c - 55)%N.
Fixpoint decode_percent (s : list N) : list N :=
  match s with
  | [] => []
  | c :: s' =>
      if (c =? 37)%N then
        match s' with
        | h :: l :: s'' => (16 * hex_value h + hex_value l)%N :: decode_percent s''
        | _ => c :: decode_percent s'
        end
      else c :: decode_percent s'
  end.
#[export, refine] Instance percent_encoding_ref : PercentEncoding := {|
  percent_encode set bytes := bytes ≫= percent_encode_byte set;
  percent_decode := decode_percent
|}.
Proof.
  - done.
  - intros set bytes Hset Hb. induction Hb as [|b bytes Hb _ IH]; [done|]. cbn [mbind list_bind].
    unfold percent_encode_byte at 1. destruct (_ && _) eqn:E.
    + cbn [app decode_percent]. destruct (N.eqb_spec b 37) as [->|]; [bool_hyps; congruence|]. by rewrite IH.
    + cbn [app decode_percent]. change (37 =? 37)%N with true. cbv iota. rewrite IH. f_equal.
      exhaust 256%N (λ b, 16 * hex_value (hex_digit (b / 16)) + hex_value (hex_digit (b mod 16)) =? b)%N b H.
      by apply N.eqb_eq.
Defined.

#[export, refine] Instance file_urls_ref : FileUrls (UC := url_crate_parts) := {|
  host_parse s := Some s
|}.
Proof.
  intros path _ _ _. unfold url_parse, url_crate_parts. rewrite strip_app.
  destruct (url_make_parts (mkUrlParts (txt "file") [] None None path None None) eq_refl) as (v & -> & Hv).
  by exists v.
Defined.

Lemma file_name_checked s :
  bool_decide (Forall (λ c, is_scalar c = true) s
    ∧ (s ≠ [] ∧ c_slash ∉ s ∧ c_backslash ∉ s ∧ s ≠ txt "." ∧ s ≠ txt "..")
    ∧ Forall (λ c, (128 <= c)%N ∨ PATH_SEGMENT c = true ∨ is_url_path_char c = true) s) → file_name s.
Proof. intros (H1 & H2 & H3)%bool_decide_unpack. by split. Qed.

Lemma url_to_path_of_path_witness :
  ∃ url, file_path_to_url (UC := url_crate_parts) (txt "/opt/my env/bin") = Ok url
    ∧ url_to_path_inner url = Some (txt "/opt/my env/bin").
Proof.
  destruct (url_to_path_of_path (UC := url_crate_parts) (txt "opt") [txt "my env"; txt "bin"]) as (u & E & H).
  - repeat apply Forall_cons_2; [apply file_name_checked; vm_compute; exact I..|constructor].
  - done.
  - done.
  - exists u. split; [exact E|]. rewrite H. done.
Defined.

(** The path of the URL of a path *)
Definition there_and_back (path : text) : result FileURLParseError (option text) :=
  match file_path_to_url (UC := url_crate_parts) path with
  | Ok url => Ok (url_to_path_inner url)
  | Err e => Err e
  end.

(** The first name is not decoded, and a hidden directory at the root is refused. *)
Lemma url_to_path_first_name :
  there_and_back (txt "/my env/bin") = Ok (Some (txt "/my%20env/bin"))
  ∧ there_and_back (txt "/.cache/bin") = Ok None.
Proof. split; vm_compute; reflexivity. Qed.
