(* ===== verification/Channels.v ===== *)
(** * Channels

    [rattler_conda_types/src/channel/mod.rs] and [channel_url.rs], with the helpers of
    [utils/path.rs], [utils/url.rs] and [utils/url_with_trailing_slash.rs]: the text
    that names a channel, the URL it stands for, and the platforms it selects.  A URL
    that is kept is kept by its serialisation. *)
From S2P Require Import Prelude Externs TextOps Redaction FileUrl VersionSpec Subdir.
From S2P Require Import Archive MatchSpecs.

Local Notation text := (list N).

(** ** The url crate and the environment *)

(** [Url::join], and [path_segments_mut] with [push], which does nothing to a URL that
    cannot be a base. *)
Class UrlPaths `{UC : UrlCrate} := {
  url_join : Url → text → option Url;
  push_path_segments : Url → list text → Url
}.

(** The home directory and the current directory; [NotUtf8] stands for a path that is not
    UTF-8. *)
Inductive OsPath : Type := NoPath | NotUtf8 | Utf8Path (path : text).
Class ProcessEnv := { home_dir : OsPath; current_dir : OsPath }.

(** ** Definitions: [utils] *)

Definition is_char_control (c : N) : bool := (c <=? 31)%N || ((127 <=? c) && (c <=? 159))%N.
Inductive InvalidPathComponentError : Type := InvalidPathComponent (value : text).
Definition ensure_safe_path_component (component : text) : result InvalidPathComponentError () :=
  let is_unsafe :=
    bool_decide (component = txt ".") || bool_decide (component = txt "..")
    || existsb (λ c, bool_decide (c ∈ [c_slash; c_backslash; c_colon; 0]%N) || is_char_control c) component in
  if is_unsafe then Err (InvalidPathComponent component) else Ok ().

Section utils.
Context `{UN : Unicode}.

(** A drive letter, a colon and a slash of either kind *)
Definition has_drive_letter (path : text) : bool :=
  match path with
  | letter :: c :: s :: _ =>
      (c =? c_colon)%N && ((s =? c_slash)%N || (s =? c_backslash)%N) && is_alphabetic letter
  | _ => false
  end.
Definition is_absolute_path (path : text) : bool :=
  if str_contains path (txt "://") then false
  else if str_starts_with path (txt "/") || str_starts_with path [c_backslash; c_backslash] then true
  else has_drive_letter path.
Definition is_path (path : text) : bool :=
  if str_contains path (txt "://") then false
  else if str_starts_with path (txt "./") || str_starts_with path (txt "..") || str_starts_with path (txt "~/")
          || str_starts_with path (txt "/") || str_starts_with path [c_backslash; c_backslash]
          || str_starts_with path (txt "//") then true
  else has_drive_letter path.

(** The scheme is at most eleven bytes long. *)
Definition parse_scheme (channel : text) : option text :=
  '(scheme_part, _) ← split_at (txt "://") channel;
  if (11 <? Utf.str_len scheme_part)%nat then None
  else
    match scheme_part with
    | first :: rest =>
        if negb (is_alphabetic first) then None
        else if forallb is_alphanumeric rest then Some scheme_part else None
    | [] => None
    end.
End utils.

(** ** Definitions: channels *)
Section channels.
Context `{UC : UrlCrate} `{UP : !UrlPaths} `{TP : TypedPaths} `{PE : PercentEncoding} `{FU : !FileUrls}
  `{UN : Unicode} `{EV : ProcessEnv}.

(** [UrlWithTrailingSlash::from] and [ChannelUrl::from] *)
Definition with_trailing_slash (url : Url) : Url :=
  let path := up_path (url_parts url) in
  if last_is (λ c, c =? c_slash)%N path then url else set_path url (path ++ [c_slash]).

Definition DEFAULT_CHANNEL_ALIAS : text := txt "https://conda.anaconda.org".

Record ChannelConfig := mkChannelConfig { channel_alias : Url; root_dir : OsPath }.

(** [None] is the [expect]. *)
Definition default_with_root_dir (root_dir : OsPath) : option ChannelConfig :=
  channel_alias ← url_parse DEFAULT_CHANNEL_ALIAS; Some (mkChannelConfig channel_alias root_dir).

Definition is_slash (c : N) : bool := (c =? c_slash)%N.

Definition strip_channel_alias (self : ChannelConfig) (base_url : Url) : option text :=
  s ← strip (url_as_str (channel_alias self)) (url_as_str base_url);
  let s := trim_by is_slash s in
  if bool_decide (s = []) then None else Some s.

(** [ChannelConfig::canonical_name] *)
Definition config_canonical_name (self : ChannelConfig) (base_url : Url) : text :=
  default (url_as_str (redact base_url)) (strip_channel_alias self base_url).

Inductive ParseChannelError : Type :=
| ChannelSubdirError (e : ParseSubdirError)
| ChannelUrlError
| ChannelInvalidPath (path : text)
| ChannelInvalidName (name : text)
| NonAbsoluteRootDir (root_dir : text)
| NotUtf8RootDir.

(** [absolute_path] *)
Definition absolute_path (path : text) (root_dir : OsPath) : result ParseChannelError text :=
  if path_is_absolute path then Ok (path_normalize path)
  else
    match strip_home_prefix path with
    | Some user_path =>
        match home_dir with
        | NoPath => Err (ChannelInvalidPath path)
        | NotUtf8 => Err NotUtf8RootDir
        | Utf8Path home => Ok (path_normalize (path_join home user_path))
        end
    | None =>
        match root_dir with
        | Utf8Path root =>
            if negb (path_is_absolute root) then Err (NonAbsoluteRootDir root)
            else Ok (path_normalize (path_join root path))
        | _ => Err NotUtf8RootDir
        end
    end.

(** The URL of a directory that a path names *)
Definition directory_url (path : text) (root_dir : OsPath) : outcome ParseChannelError Url :=
  absolute ⇐ Some (absolute_path path root_dir);
  match directory_path_to_url absolute with
  | None => None
  | Some (Ok url) => Some (Ok url)
  | Some (Err _) => Some (Err (ChannelInvalidPath path))
  end.

(** *** [NamedChannelOrUrl] *)
Inductive NamedChannelOrUrl : Type :=
| ChannelNamed (name : text)
| ChannelAtUrl (url : Url)
| ChannelAtPath (path : text).

Definition named_channel_as_str (self : NamedChannelOrUrl) : text :=
  match self with
  | ChannelNamed name => name
  | ChannelAtUrl url => trim_end_by is_slash (url_as_str url)
  | ChannelAtPath path => path
  end.

Definition into_base_url (self : NamedChannelOrUrl) (config : ChannelConfig) : outcome ParseChannelError Url :=
  match self with
  | ChannelNamed name =>
      Some (Ok (with_trailing_slash (push_path_segments (channel_alias config)
        (split_by (λ c, (c =? c_slash)%N || (c =? c_backslash)%N) name))))
  | ChannelAtUrl url => Some (Ok (with_trailing_slash url))
  | ChannelAtPath path =>
      url ⇐ directory_url path (root_dir config); Some (Ok (with_trailing_slash url))
  end.

Definition into_channel (self : NamedChannelOrUrl) (config : ChannelConfig) : outcome ParseChannelError Channel :=
  let name := match self with
              | ChannelNamed name => Some name
              | ChannelAtUrl base_url => strip_channel_alias config base_url
              | ChannelAtPath _ => None
              end in
  base_url ⇐ into_base_url self config;
  Some (Ok (mkChannel None (url_as_str base_url) name)).

(** [FromStr for NamedChannelOrUrl] *)
Definition named_channel_from_str (s : text) : option NamedChannelOrUrl :=
  if bool_decide (is_Some (parse_scheme s)) then url ← url_parse s; Some (ChannelAtUrl url)
  else if is_path s then Some (ChannelAtPath s)
  else Some (ChannelNamed s).

(** *** [Channel] *)
Definition non_empty (name : text) : option text := if bool_decide (name = []) then None else Some name.

Definition parse_platforms (channel : text) : result ParseSubdirError (option (list Subdir) * text) :=
  match strip_suffix channel [c_rbracket] with
  | Some channel_without_suffix =>
      match rsplit_once c_lbracket channel_without_suffix with
      | Some (before, platform_part) =>
          match try_collect (subdir_from_str <$>
                  filter (λ s, s ≠ []) (trim <$> split_char c_comma platform_part)) with
          | Err e => Err e
          | Ok platforms =>
              Ok (if bool_decide (platforms = []) then None else Some platforms, before)
          end
      | None => Ok (None, channel)
      end
  | None => Ok (None, channel)
  end.

Definition channel_from_url (url : Url) : Channel :=
  let url := with_trailing_slash url in
  let path := trim_end_by is_slash (up_path (url_parts url)) in
  if bool_decide (is_Some (up_host (url_parts url))) then
    mkChannel None (url_as_str url) (non_empty (trim_start_by is_slash path))
  else
    let name := match rsplit_once c_slash path with Some (_, path_part) => path_part | None => path end in
    mkChannel None (url_as_str url) (non_empty name).

Definition try_from_name (name : text) (config : ChannelConfig) : option Channel :=
  let dir_name := if last_is is_slash name then name else name ++ [c_slash] in
  let name := trim_end_by is_slash name in
  base_url ← url_join (channel_alias config) dir_name;
  Some (mkChannel None (url_as_str (with_trailing_slash base_url)) (non_empty name)).

(** [Channel::from_name]: [None] is the [expect]. *)
Definition channel_from_name (name : text) (config : ChannelConfig) : option Channel :=
  try_from_name name config.

Definition channel_from_str (str : text) (config : ChannelConfig) : outcome ParseChannelError Channel :=
  '(platforms, channel) ⇐ Some (map_err ChannelSubdirError (parse_platforms str));
  if bool_decide (is_Some (parse_scheme channel)) then
    match url_parse channel with
    | None => Some (Err ChannelUrlError)
    | Some url =>
        let name := strip_channel_alias config url in
        let base_channel := channel_from_url url in
        Some (Ok (mkChannel platforms (ch_base_url base_channel)
                    (match name with Some n => Some n | None => ch_name base_channel end)))
    end
  else if is_path channel then
    url ⇐ directory_url channel (root_dir config);
    Some (Ok (mkChannel platforms (url_as_str (with_trailing_slash url)) (Some channel)))
  else if contains_any [c_colon; c_backslash; c_lbracket; c_rbracket] channel then
    Some (Err (ChannelInvalidName channel))
  else
    match try_from_name channel config with
    | None => Some (Err (ChannelInvalidName channel))
    | Some base => Some (Ok (mkChannel platforms (ch_base_url base) (ch_name base)))
    end.

Definition with_explicit_platforms (self : Channel) (platforms : list Subdir) : Channel :=
  mkChannel (Some platforms) (ch_base_url self) (ch_name self).

(** [Channel::name].  A channel holds the serialisation of its URL; [None] is a text that
    is none. *)
Definition channel_name (self : Channel) : option text :=
  base_url ← url_parse (ch_base_url self);
  Some (if is_http (up_scheme (url_parts base_url)) then default (url_as_str base_url) (ch_name self)
        else url_as_str base_url).

(** [ChannelUrl::platform_url]: [None] is the [expect]. *)
Definition platform_url (self : Channel) (platform : Subdir) : option Url :=
  base_url ← url_parse (ch_base_url self);
  url_join base_url (subdir_as_str platform ++ [c_slash]).

(** [default_platforms]: [current] is [Subdir::current()]. *)
Definition default_platforms (current : option Subdir) : list Subdir :=
  match current with Some current => [current; NoArch] | None => [NoArch] end.
Definition platforms_or_default (current : option Subdir) (self : Channel) : list Subdir :=
  default (default_platforms current) (ch_platforms self).
Definition platforms_url (current : option Subdir) (self : Channel) : option (list (Subdir * Url)) :=
  mapM (λ platform, url ← platform_url self platform; Some (platform, url)) (platforms_or_default current self).
End channels.
