(* ===== verification/ChannelRelations.v ===== *)
(** * The priority order of channels

    [rattler_repodata_gateway/src/gateway/channel_relations.rs]: the order of the channels
    of the user and of those their relations lead to.  Relations that contradict the order
    of the user are ignored, relations that close a cycle are dropped, and a depth-first
    search puts the channels in an order that respects the others.

    A [HashMap] is a finite map.  A vector that is indexed is a list, an index out of range
    is [None]; the stacks have their top at the head.  The generation counter is an [u32]
    that wraps around.  The loops take fuel: [reach_fuel] and [dfs_fuel] are enough. *)
From stdpp Require Import gmap sets list.
From S2P Require Import Prelude.

(** ** Definitions *)

Definition DEFAULT_CHANNEL_RELATIONS_MAX_DEPTH : nat := 10.

Inductive EdgeSource : Type := User | Base | Override.
#[export] Instance edge_source_eq_dec : EqDecision EdgeSource.
Proof. solve_decision. Defined.

(** [edge_from] outranks [edge_to]. *)
Record PriorityEdge (K : Type) := mkPriorityEdge { edge_from : K; edge_to : K; edge_source : EdgeSource }.
Arguments mkPriorityEdge {K}.
Arguments edge_from {K}.
Arguments edge_to {K}.
Arguments edge_source {K}.
#[export] Instance priority_edge_eq_dec {K} `{EqDecision K} : EqDecision (PriorityEdge K).
Proof. solve_decision. Defined.

Record Resolution (K : Type) := mkResolution {
  r_order : list K;
  r_edges : list (PriorityEdge K);
  ignored_edges : list (PriorityEdge K);
  broken_cycle_edges : list (PriorityEdge K)
}.
Arguments mkResolution {K}.
Arguments r_order {K}.
Arguments r_edges {K}.
Arguments ignored_edges {K}.
Arguments broken_cycle_edges {K}.

(** *** Searches *)

Definition u32_wrapping_add (a b : N) : N := N.modulo (a + b) 4294967296.

Definition degrees (adjacency : list (list nat)) : nat := sum_list (length <$> adjacency).

(** [can_reach]: the answer with the scratch buffer and the generation it leaves. *)
Fixpoint reach_loop (fuel : nat) (target : nat) (adjacency : list (list nat)) (current : N)
    (visited_gen : list N) (stack : list nat) : option (bool * list N) :=
  match fuel with
  | 0 => None
  | S f =>
      match stack with
      | [] => Some (false, visited_gen)
      | node :: stack =>
          if bool_decide (node = target) then Some (true, visited_gen)
          else
            mark ← visited_gen !! node;
            if bool_decide (mark = current) then reach_loop f target adjacency current visited_gen stack
            else
              let visited_gen := <[node := current]> visited_gen in
              neighbors ← adjacency !! node;
              stack ← for_opt neighbors (λ next stack,
                mark ← visited_gen !! next;
                Some (if bool_decide (mark = current) then stack else next :: stack)) stack;
              reach_loop f target adjacency current visited_gen stack
      end
  end.
Definition reach_fuel (adjacency : list (list nat)) : nat := S (S (degrees adjacency)).

Definition can_reach (start target : nat) (adjacency : list (list nat)) (visited_gen : list N) (generation : N)
  : option (bool * list N * N) :=
  if bool_decide (start = target) then Some (true, visited_gen, generation)
  else
    let generation := u32_wrapping_add generation 1 in
    let '(visited_gen, generation) :=
      if (generation =? 0)%N then (replicate (length visited_gen) 0%N, 1%N) else (visited_gen, generation) in
    '(answer, visited_gen) ← reach_loop (reach_fuel adjacency) target adjacency generation visited_gen [start];
    Some (answer, visited_gen, generation).

(** [dfs_post_order]; a frame is a node and the cursor into its neighbours. *)
Fixpoint dfs_loop (fuel : nat) (adjacency : list (list nat)) (stack : list (nat * nat))
    (visited : list bool) (post_order : list nat) : option (list bool * list nat) :=
  match fuel with
  | 0 => None
  | S f =>
      match stack with
      | [] => Some (visited, post_order)
      | (node, next_idx) :: stack =>
          neighbors ← adjacency !! node;
          match neighbors !! next_idx with
          | None => dfs_loop f adjacency stack visited (post_order ++ [node])
          | Some neighbor =>
              let stack := (node, S next_idx) :: stack in
              seen ← visited !! neighbor;
              if (seen : bool) then dfs_loop f adjacency stack visited post_order
              else dfs_loop f adjacency ((neighbor, 0) :: stack) (<[neighbor := true]> visited) post_order
          end
      end
  end.
Definition dfs_fuel (adjacency : list (list nat)) : nat := S (length adjacency + degrees adjacency).
Definition dfs_post_order (start : nat) (adjacency : list (list nat)) (visited : list bool) (post_order : list nat)
  : option (list bool * list nat) :=
  dfs_loop (dfs_fuel adjacency) adjacency [(start, 0)] (<[start := true]> visited) post_order.

Section resolve.
Context {K : Type} `{Countable K}.

(** *** [Graph::build] *)

(** The map of the enumerated channels; of a repeated one the last position stays. *)
Definition user_positions (user_channels : list K) : gmap K nat :=
  foldl (λ m p, <[p.2 := p.1]> m) ∅ (imap pair user_channels).

(** [windows(2)] *)
Fixpoint windows2 (l : list K) : list (K * K) :=
  match l with
  | a :: (b :: _) as l' => (a, b) :: windows2 l'
  | _ => []
  end.
Definition user_edge (pair : K * K) : PriorityEdge K := mkPriorityEdge pair.1 pair.2 User.

(** The accepted edges and the ignored ones *)
Definition dispatch_edge (positions : gmap K nat) (edge : PriorityEdge K)
    (s : list (PriorityEdge K) * list (PriorityEdge K)) : list (PriorityEdge K) * list (PriorityEdge K) :=
  let '(accepted, ignored) := s in
  if bool_decide (edge_from edge = edge_to edge) then (accepted ++ [edge], ignored)
  else
    let conflict := match positions !! edge_from edge, positions !! edge_to edge with
                    | Some from_pos, Some to_pos => (to_pos <? from_pos)%nat
                    | _, _ => false
                    end in
    if conflict then (accepted, ignored ++ [edge]) else (accepted ++ [edge], ignored).

Definition graph_build (user_channels : list K) (relation_edges : list (PriorityEdge K))
  : list (PriorityEdge K) * list (PriorityEdge K) :=
  let positions := user_positions user_channels in
  foldl (λ s edge, dispatch_edge positions edge s) (user_edge <$> windows2 user_channels, []) relation_edges.

(** *** [TopoResult::new] *)

(** A node that is not indexed yet gets the next index. *)
Definition add_node (s : gmap K nat * list K) (node : K) : gmap K nat * list K :=
  let '(index, nodes) := s in
  match index !! node with
  | Some _ => (index, nodes)
  | None => (<[node := length nodes]> index, nodes ++ [node])
  end.
Definition index_nodes (channels : list K) (edges : list (PriorityEdge K)) : gmap K nat * list K :=
  foldl (λ s edge, add_node (add_node s (edge_from edge)) (edge_to edge)) (foldl add_node (∅, []) channels) edges.

(** [adjacency[from].push(to)] *)
Definition push_neighbor (from to : nat) (adjacency : list (list nat)) : option (list (list nat)) :=
  neighbors ← adjacency !! from; Some (<[from := neighbors ++ [to]]> adjacency).

(** The adjacency, the edges that are kept and the broken ones *)
Record TopoState := mkTopoState {
  ts_adjacency : list (list nat);
  ts_kept : list (PriorityEdge K);
  ts_broken : list (PriorityEdge K)
}.
Definition keep_edge (adjacency : list (list nat)) (edge : PriorityEdge K) (s : TopoState) : TopoState :=
  mkTopoState adjacency (ts_kept s ++ [edge]) (ts_broken s).
Definition break_edge (edge : PriorityEdge K) (s : TopoState) : TopoState :=
  mkTopoState (ts_adjacency s) (ts_kept s) (ts_broken s ++ [edge]).

Definition insert_user_edge (index : gmap K nat) (edge : PriorityEdge K) (s : gset (nat * nat) * TopoState)
  : option (gset (nat * nat) * TopoState) :=
  let '(seen_user, s) := s in
  from ← index !! edge_from edge;
  to ← index !! edge_to edge;
  if bool_decide (from = to) then Some (seen_user, break_edge edge s)
  else if bool_decide ((from, to) ∈ seen_user) then Some (seen_user, keep_edge (ts_adjacency s) edge s)
  else
    let seen_user := {[ (from, to) ]} ∪ seen_user in
    if bool_decide ((to, from) ∈ seen_user) then Some (seen_user, break_edge edge s)
    else adjacency ← push_neighbor from to (ts_adjacency s); Some (seen_user, keep_edge adjacency edge s).

Definition insert_relation_edge (index : gmap K nat) (edge : PriorityEdge K) (s : list N * N * TopoState)
  : option (list N * N * TopoState) :=
  let '(visited_gen, generation, s) := s in
  from ← index !! edge_from edge;
  to ← index !! edge_to edge;
  '(reached, visited_gen, generation) ← can_reach to from (ts_adjacency s) visited_gen generation;
  if (reached : bool) then Some (visited_gen, generation, break_edge edge s)
  else adjacency ← push_neighbor from to (ts_adjacency s); Some (visited_gen, generation, keep_edge adjacency edge s).

Definition is_user_edge (edge : PriorityEdge K) : bool := bool_decide (edge_source edge = User).

(** The loop over the nodes *)
Definition order_nodes (adjacency : list (list nat)) (n : nat) : option (list nat) :=
  '(_, post_order) ← for_opt (seq 0 n) (λ start s,
    let '(visited, post_order) := s in
    seen ← visited !! start;
    if (seen : bool) then Some (visited, post_order) else dfs_post_order start adjacency visited post_order)
    (replicate n false, []);
  Some (reverse post_order).

(** The order, the edges that are kept and the broken ones *)
Definition topo_result (channels : list K) (edges : list (PriorityEdge K))
  : option (list K * list (PriorityEdge K) * list (PriorityEdge K)) :=
  let '(index, nodes) := index_nodes channels edges in
  let n := length nodes in
  let user_edges := List.filter is_user_edge edges in
  let relation_edges := List.filter (λ e, negb (is_user_edge e)) edges in
  '(_, s) ← for_opt user_edges (insert_user_edge index) (∅, mkTopoState (replicate n []) [] []);
  '(_, s) ← for_opt relation_edges (insert_relation_edge index) (replicate n 0%N, 0%N, s);
  order ← order_nodes (ts_adjacency s) n;
  order ← mapM (λ i, nodes !! i) order;
  Some (order, ts_kept s, ts_broken s).

(** ** Definitions: the whole *)
Definition resolve_channel_priority (user_channels discovered_channels : list K)
    (relation_edges : list (PriorityEdge K)) : option (Resolution K) :=
  if bool_decide (user_channels = []) then Some (mkResolution [] [] [] [])
  else
    let '(edges, ignored) := graph_build user_channels relation_edges in
    '(order, kept, broken) ← topo_result discovered_channels edges;
    Some (mkResolution order kept ignored broken).
End resolve.
Arguments TopoState : clear implicits.
Arguments mkTopoState {K}.
