(* ===== verification/RelationsTheorems.v ===== *)
(** * The priority order of channels is a topological order

    The searches of ChannelRelations.v on the adjacency lists, and what
    [resolve_channel_priority] returns: an order of all channels that respects every edge it
    keeps, all edges of the user among them, and for each edge it leaves out the reason. *)
From stdpp Require Import gmap sets list relations.
From S2P Require Import Prelude ChannelRelations.

(** [a] is somewhere before [b]. *)
Definition before {A} (l : list A) (a b : A) : Prop := ∃ i j, l !! i = Some a ∧ l !! j = Some b ∧ i < j.

Lemma before_trans {A} (l : list A) a b c : NoDup l → before l a b → before l b c → before l a c.
Proof.
  intros Hnd (i & j & Hi & Hj & Hlt) (j' & k & Hj' & Hk & Hlt'). assert (j' = j) as -> by by eapply NoDup_lookup.
  exists i, k. split; [done|]. split; [done|lia].
Qed.

Lemma before_split {A} (l1 l2 l3 : list A) a b : before (l1 ++ a :: l2 ++ b :: l3) a b.
Proof.
  exists (length l1), (length l1 + S (length l2)). split; [by apply list_lookup_middle|]. split; [|lia].
  rewrite lookup_app_r, Nat.add_comm, Nat.add_sub by lia. cbn [lookup list_lookup]. by apply list_lookup_middle.
Qed.

(** ** Adjacency lists *)

Definition arc (adjacency : list (list nat)) (u v : nat) : Prop := ∃ l, adjacency !! u = Some l ∧ v ∈ l.
Definition in_range (adjacency : list (list nat)) : Prop := ∀ u v, arc adjacency u v → v < length adjacency.
Definition acyclic {A} (R : A → A → Prop) : Prop := ∀ x, ¬ tc R x x.

(** What the nodes cost that a search has not seen *)
Definition pending {B} (seen : B → bool) (cost : list nat → nat) (marks : list B) (adjacency : list (list nat)) : nat :=
  sum_list (zip_with (λ m l, if seen m then 0 else cost l) marks adjacency).

Lemma pending_mark {B} (seen : B → bool) cost marks adjacency i m m' l :
  marks !! i = Some m → seen m = false → seen m' = true → adjacency !! i = Some l →
  pending seen cost (<[i := m']> marks) adjacency + cost l = pending seen cost marks adjacency.
Proof.
  unfold pending. revert adjacency i. induction marks as [|x marks IH]; intros [|k adjacency] [|i] Hm Hs Hs' Hl; try done.
  - injection Hm as ->. injection Hl as ->. simpl. rewrite Hs, Hs'. lia.
  - simpl in *. specialize (IH adjacency i Hm Hs Hs' Hl). lia.
Qed.

Lemma pending_le {B} (seen : B → bool) cost marks adjacency :
  pending seen cost marks adjacency ≤ sum_list (cost <$> adjacency).
Proof.
  unfold pending. revert adjacency. induction marks as [|x marks IH]; intros [|k adjacency]; csimpl; [lia..|].
  specialize (IH adjacency). destruct (seen x); lia.
Qed.

Lemma lookup_in_range {A} (l : list A) i : i < length l → ∃ x, l !! i = Some x.
Proof. apply lookup_lt_is_Some. Qed.

(** *** A new arc *)

Lemma push_neighbor_spec from to adjacency :
  from < length adjacency →
  ∃ adjacency', push_neighbor from to adjacency = Some adjacency' ∧ length adjacency' = length adjacency
    ∧ ∀ u v, arc adjacency' u v ↔ arc adjacency u v ∨ (u = from ∧ v = to).
Proof.
  intros Hf. destruct (lookup_in_range adjacency from Hf) as [l Hl]. unfold push_neighbor. rewrite Hl. cbn [mbind option_bind].
  eexists; split; [done|]. split; [apply length_insert|]. intros u v. unfold arc.
  destruct (decide (u = from)) as [->|Hu].
  - rewrite list_lookup_insert_eq by done. split.
    + intros (k & [= <-] & [Hv|Hv%list_elem_of_singleton]%elem_of_app); [left; eauto|by right].
    + intros [(k & Hk & Hv)|[_ ->]]; eexists; (split; [done|]); rewrite elem_of_app; [left|right; by left].
      by assert (k = l) as -> by congruence.
  - rewrite list_lookup_insert_ne by done. naive_solver.
Qed.

Lemma tc_add {A} (R S : A → A → Prop) a b x y :
  (∀ u v, S u v → R u v ∨ (u = a ∧ v = b)) → tc S x y → tc R x y ∨ (rtc R x a ∧ rtc R b y).
Proof.
  intros HS. induction 1 as [x y H|x y z H _ IH].
  - destruct (HS _ _ H) as [?|[-> ->]]; [left; by apply tc_once|right; by split].
  - destruct (HS _ _ H) as [Hxy|[-> ->]].
    + destruct IH as [IH|[IH1 IH2]]; [left; by eapply tc_l|right; split; [by eapply rtc_l|done]].
    + right. split; [done|]. destruct IH as [IH|[_ IH2]]; [by apply tc_rtc|done].
Qed.

Lemma acyclic_add {A} (R S : A → A → Prop) a b :
  (∀ u v, S u v → R u v ∨ (u = a ∧ v = b)) → acyclic R → ¬ rtc R b a → acyclic S.
Proof.
  intros HS HR Hab x Hx. destruct (tc_add R S a b x x HS Hx) as [H|[H1 H2]]; [by eapply HR|].
  apply Hab. by etrans.
Qed.

(** ** Reachability *)
Section reach.
Context (adjacency : list (list nat)) (Hrange : in_range adjacency).
Local Notation n := (length adjacency).

(** No mark is ahead of the generation. *)
Definition scratch_ok (visited_gen : list N) (generation : N) : Prop :=
  length visited_gen = n ∧ (generation < 4294967296)%N ∧ ∀ m, m ∈ visited_gen → (m <= generation)%N.

Lemma push_unmarked visited_gen (current : N) neighbors stack :
  Forall (λ x, x < length visited_gen) neighbors →
  ∃ stack', for_opt neighbors (λ next stack,
      mark ← visited_gen !! next; Some (if bool_decide (mark = current) then stack else next :: stack)) stack = Some stack'
    ∧ length stack' ≤ length neighbors + length stack
    ∧ ∀ x, x ∈ stack' ↔ x ∈ stack ∨ (x ∈ neighbors ∧ visited_gen !! x ≠ Some current).
Proof.
  intros Hn. revert stack. induction Hn as [|x neighbors Hx Hn IH]; intros stack; cbn [for_opt].
  { exists stack. split; [done|]. split; [done|]. intros x. set_solver. }
  destruct (lookup_in_range visited_gen x Hx) as [m Hm]. rewrite Hm. cbn [mbind option_bind]. case_bool_decide as Hc.
  - destruct (IH stack) as (s & -> & Hl & Hs). exists s. split; [done|]. split; [simpl; lia|].
    intros y. rewrite Hs, elem_of_cons. split; [naive_solver|]. intros [?|[[->|?] ?]]; [by left|congruence|by right].
  - destruct (IH (x :: stack)) as (s & -> & Hl & Hs). exists s. split; [done|]. split; [simpl in *; lia|].
    intros y. rewrite Hs, !elem_of_cons. split; [|naive_solver]. intros [[->|?]|[? ?]]; [|by left|naive_solver].
    right. split; [by left|congruence].
Qed.

Definition marked (current : N) (visited_gen : list N) (x : nat) : Prop := visited_gen !! x = Some current.

Record reach_inv (start target : nat) (current : N) (visited_gen : list N) (stack : list nat) : Prop := {
  ri_scratch : scratch_ok visited_gen current;
  ri_reach x : x ∈ stack ∨ marked current visited_gen x → rtc (arc adjacency) start x;
  ri_start : start ∈ stack ∨ marked current visited_gen start;
  ri_target : ¬ marked current visited_gen target;
  ri_closed x y : marked current visited_gen x → arc adjacency x y → y ∈ stack ∨ marked current visited_gen y;
  ri_stack x : x ∈ stack → x < n
}.
Local Notation unmarked current := (pending (λ m, bool_decide (m = current)) length).

Lemma reach_loop_spec fuel start target current visited_gen stack :
  reach_inv start target current visited_gen stack →
  length stack + unmarked current visited_gen adjacency < fuel →
  ∃ b visited_gen', reach_loop fuel target adjacency current visited_gen stack = Some (b, visited_gen')
    ∧ scratch_ok visited_gen' current ∧ (b = true ↔ rtc (arc adjacency) start target).
Proof.
  revert visited_gen stack. induction fuel as [|f IH]; intros vg stack [Hsc Hre Hst Hta Hcl Hn] Hf; [lia|]. cbn [reach_loop].
  destruct stack as [|node stack].
  { exists false, vg. split; [done|]. split; [done|]. split; [done|]. intros Hr. exfalso. apply Hta.
    destruct Hst as [Hst|Hst]; [by apply elem_of_nil in Hst|]. clear -Hr Hst Hcl.
    induction Hr as [|x y z H _ IH]; [done|]. apply IH. destruct (Hcl _ _ Hst H) as [Hy|Hy]; [by apply elem_of_nil in Hy|done]. }
  case_bool_decide as Ht.
  { subst node. exists true, vg. split; [done|]. split; [done|]. split; [intros _|done]. apply Hre. left. by left. }
  pose proof Hsc as (Hlen & Hgen & Hmarks).
  assert (node < n) as Hnode by (apply Hn; by left).
  destruct (lookup_in_range vg node) as [m Hm]; [by rewrite Hlen|]. rewrite Hm. cbn [mbind option_bind]. case_bool_decide as Hc.
  - subst m. apply IH; [|simpl in Hf; lia]. split; [done|..].
    + intros x [Hx|Hx]; apply Hre; [left; by right|by right].
    + destruct Hst as [[->|Hst]%elem_of_cons|Hst]; [by right|by left|by right].
    + done.
    + intros x y Hx Hxy. destruct (Hcl _ _ Hx Hxy) as [[->|Hy]%elem_of_cons|Hy]; [by right|by left|by right].
    + intros x Hx. apply Hn. by right.
  - destruct (lookup_in_range adjacency node Hnode) as [neighbors Hnb]. rewrite Hnb. cbn [mbind option_bind].
    set (vg' := <[node := current]> vg).
    assert (∀ x, marked current vg' x ↔ x = node ∨ marked current vg x) as Hmk.
    { intros x. unfold marked, vg'. destruct (decide (x = node)) as [->|Hx].
      - rewrite list_lookup_insert_eq by (by rewrite Hlen). naive_solver.
      - rewrite list_lookup_insert_ne by done. naive_solver. }
    destruct (push_unmarked vg' current neighbors stack) as (stack' & -> & Hl & Hs).
    { rewrite Forall_forall. intros x Hx. unfold vg'. rewrite length_insert, Hlen. apply (Hrange node). by exists neighbors. }
    cbn [mbind option_bind].
    pose proof (pending_mark (λ m, bool_decide (m = current)) length vg adjacency node m current neighbors Hm
      (bool_decide_eq_false_2 _ Hc) (bool_decide_eq_true_2 _ eq_refl) Hnb) as Hw. fold vg' in Hw.
    apply IH; [|simpl in Hf; lia]. split.
    + split; [unfold vg'; by rewrite length_insert|]. split; [done|]. intros x [i Hi]%list_elem_of_lookup.
      unfold vg' in Hi. destruct (decide (i = node)) as [->|Hne].
      * rewrite list_lookup_insert_eq in Hi by (by rewrite Hlen). injection Hi as <-. done.
      * rewrite list_lookup_insert_ne in Hi by done. apply Hmarks. by eapply list_elem_of_lookup_2.
    + assert (rtc (arc adjacency) start node) as Hsn by (apply Hre; left; by left).
      intros x [Hx|Hx].
      * apply Hs in Hx as [Hx|[Hx _]]; [apply Hre; left; by right|]. eapply rtc_r; [exact Hsn|]. by exists neighbors.
      * apply Hmk in Hx as [->|Hx]; [done|]. apply Hre. by right.
    + rewrite Hs, Hmk. destruct Hst as [[->|Hst]%elem_of_cons|Hst]; [right; by left|left; by left|right; by right].
    + rewrite Hmk. intros [->|?]; done.
    + assert (∀ y, y ∈ neighbors → y ∈ stack' ∨ marked current vg' y) as Hnew.
      { intros y Hy. destruct (decide (vg' !! y = Some current)) as [?|Hy']; [by right|]. left. apply Hs. by right. }
      intros x y [->|Hx]%Hmk Hxy.
      * destruct Hxy as (l & Hl' & Hy). apply Hnew. by assert (l = neighbors) as -> by congruence.
      * destruct (Hcl _ _ Hx Hxy) as [[->|Hy]%elem_of_cons|Hy].
        -- right. apply Hmk. by left.
        -- left. apply Hs. by left.
        -- right. apply Hmk. by right.
    + intros x [Hx|[Hx _]]%Hs; [apply Hn; by right|]. apply (Hrange node). by exists neighbors.
Qed.

(** The search answers whatever is left in the scratch buffer, also when the generation wraps
    around. *)
Lemma can_reach_spec start target visited_gen generation :
  start < n → target < n → scratch_ok visited_gen generation →
  ∃ b visited_gen' generation', can_reach start target adjacency visited_gen generation = Some (b, visited_gen', generation')
    ∧ scratch_ok visited_gen' generation' ∧ (b = true ↔ rtc (arc adjacency) start target).
Proof.
  intros Hs Ht Hsc. unfold can_reach. case_bool_decide as E.
  { subst. eexists _, _, _. split; [done|]. split; [done|]. done. }
  set (g := u32_wrapping_add generation 1).
  assert (∃ vg g', (if (g =? 0)%N then (replicate (length visited_gen) 0%N, 1%N) else (visited_gen, g)) = (vg, g')
    ∧ scratch_ok vg g' ∧ ∀ x, ¬ marked g' vg x) as (vg & g' & -> & Hsc' & Hm).
  { destruct Hsc as (Hl & Hg & Hm). destruct (N.eqb_spec g 0) as [Eg|Eg].
    - eexists _, _. split; [done|]. split; [split; [by rewrite length_replicate|]; split; [lia|]|].
      + intros m [-> _]%elem_of_replicate. lia.
      + intros x [Hx _]%lookup_replicate. done.
    - assert (g = generation + 1)%N as E'.
      { unfold g, u32_wrapping_add in *. destruct (decide (generation + 1 = 4294967296)%N) as [E'|E'].
        - by rewrite E' in Eg.
        - apply N.mod_small. lia. }
      assert (g < 4294967296)%N by (unfold g, u32_wrapping_add; by apply N.mod_lt).
      eexists _, _. split; [done|]. split; [split; [done|]; split; [done|]|].
      + intros m Hin. specialize (Hm m Hin). lia.
      + intros x Hx. specialize (Hm g). apply list_elem_of_lookup_2 in Hx. specialize (Hm Hx). lia. }
  destruct (reach_loop_spec (reach_fuel adjacency) start target g' vg [start]) as (b & vg' & -> & Hsc'' & Hb).
  - split; [done|..].
    + intros x [->%list_elem_of_singleton|Hx]; [done|by apply Hm in Hx].
    + left. by left.
    + apply Hm.
    + intros x y Hx. by apply Hm in Hx.
    + by intros x ->%list_elem_of_singleton.
  - unfold reach_fuel, degrees. pose proof (pending_le (λ m, bool_decide (m = g')) length vg adjacency). simpl. lia.
  - cbn [mbind option_bind]. eexists _, _, _. split; [done|]. split; done.
Qed.
End reach.

(** ** The depth-first search *)
Section dfs.
Context (adjacency : list (list nat)) (Hrange : in_range adjacency).
Local Notation n := (length adjacency).

(** Every element of the stack, the top first, is a neighbour of the one below. *)
Fixpoint chain (l : list nat) : Prop :=
  match l with a :: (b :: _) as l' => arc adjacency b a ∧ chain l' | _ => True end.

(** Behind every node of [l] there is no neighbour of it. *)
Definition closed (l : list nat) : Prop := ∀ l1 u l2, l = l1 ++ u :: l2 → ∀ v, arc adjacency u v → v ∈ l1.

Record dfs_inv (stack : list (nat * nat)) (visited : list bool) (post_order : list nat) : Prop := {
  di_length : length visited = n;
  di_visited i : visited !! i = Some true ↔ i ∈ stack.*1 ++ post_order;
  di_nodup : NoDup (stack.*1 ++ post_order);
  di_chain : chain stack.*1;
  di_cursor u c : (u, c) ∈ stack → ∃ ns, adjacency !! u = Some ns ∧ c ≤ length ns
    ∧ ∀ v, v ∈ take c ns → v ∈ stack.*1 ++ post_order;
  di_closed : acyclic (arc adjacency) → closed post_order
}.

Definition frame_cost (frame : nat * nat) : nat :=
  match adjacency !! frame.1 with Some ns => S (length ns) - frame.2 | None => 0 end.
Definition dfs_cost (stack : list (nat * nat)) (visited : list bool) : nat :=
  sum_list (frame_cost <$> stack) + pending id (λ ns, S (length ns)) visited adjacency.

Lemma chain_reach a b l : chain (a :: l) → b ∈ l → tc (arc adjacency) b a.
Proof.
  revert a. induction l as [|c l IH]; intros a [Hac Hc] Hb || intros a _ Hb; [by apply elem_of_nil in Hb|].
  apply elem_of_cons in Hb as [->|Hb]; [by apply tc_once|]. eapply tc_r; [by apply (IH c)|done].
Qed.

Lemma closed_snoc l u : closed l → (∀ v, arc adjacency u v → v ∈ l) → closed (l ++ [u]).
Proof.
  intros Hl Hu l1 x l2 E v Hv. destruct l2 as [|y l2 _] using rev_ind.
  - apply app_inj_tail in E as [-> ->]. by apply Hu.
  - rewrite app_comm_cons, app_assoc in E. apply app_inj_tail in E as [-> _]. by eapply Hl.
Qed.

Lemma dfs_loop_spec fuel stack visited post_order :
  dfs_inv stack visited post_order → dfs_cost stack visited < fuel →
  ∃ visited' rest, dfs_loop fuel adjacency stack visited post_order = Some (visited', post_order ++ rest)
    ∧ dfs_inv [] visited' (post_order ++ rest) ∧ ∀ i, i ∈ stack.*1 → i ∈ post_order ++ rest.
Proof.
  revert stack visited post_order. induction fuel as [|f IH]; intros stack visited post [Hlen Hvis Hnd Hch Hcu Hclo] Hf; [lia|].
  cbn [dfs_loop]. destruct stack as [|[u c] stack].
  { exists visited, []. rewrite app_nil_r. split; [done|]. split; [done|]. intros i Hi. by apply elem_of_nil in Hi. }
  destruct (Hcu u c ltac:(by left)) as (ns & Hns & Hc & Htake). rewrite Hns. cbn [mbind option_bind].
  unfold dfs_cost in Hf. csimpl in Hf. unfold frame_cost at 1 in Hf. cbn [fst snd] in Hf. rewrite Hns in Hf. cbv iota in Hf.
  destruct (ns !! c) as [v|] eqn:Hv.
  - assert (c < length ns) as Hc' by by eapply lookup_lt_Some.
    assert (arc adjacency u v) as Huv by (exists ns; split; [done|by eapply list_elem_of_lookup_2]).
    assert (v < n) as Hvn by by eapply Hrange.
    destruct (lookup_in_range visited v) as [seen Hseen]; [by rewrite Hlen|]. rewrite Hseen. cbn [mbind option_bind].
    destruct seen.
    + destruct (IH ((u, S c) :: stack) visited post) as (vis & rest & -> & Hinv & Hin); [..|by exists vis, rest].
      * split; [done|exact Hvis|exact Hnd|exact Hch| |done]. intros u' c' [[= -> ->]|Hin]%elem_of_cons; [|apply Hcu; by right].
        exists ns. split; [done|]. split; [lia|]. intros w Hw. rewrite (take_S_r _ _ v) in Hw by done.
        apply elem_of_app in Hw as [Hw| ->%list_elem_of_singleton]; [by apply Htake|]. by apply Hvis.
      * unfold dfs_cost. csimpl. unfold frame_cost at 1. cbn [fst snd]. rewrite Hns. cbv iota. lia.
    + set (visited' := <[v := true]> visited).
      assert (v ∉ ((u, c) :: stack).*1 ++ post) as Hnew by (intros Hin%Hvis; congruence).
      destruct (lookup_in_range adjacency v Hvn) as [nv Hnv].
      pose proof (pending_mark id (λ ns, S (length ns)) visited adjacency v false true nv Hseen eq_refl eq_refl Hnv) as Hw.
      fold visited' in Hw. cbv beta in Hw.
      destruct (IH ((v, 0) :: (u, S c) :: stack) visited' post) as (vis & rest & -> & Hinv & Hin).
      * split.
        -- unfold visited'. by rewrite length_insert.
        -- intros i. csimpl. unfold visited'. destruct (decide (i = v)) as [->|Hi].
           ++ rewrite list_lookup_insert_eq by (by rewrite Hlen). split; [intros _; by left|done].
           ++ rewrite list_lookup_insert_ne by done. rewrite Hvis. csimpl. set_solver.
        -- csimpl in *. by apply NoDup_cons.
        -- csimpl in *. done.
        -- intros u' c' [[= -> ->]|[[= -> ->]|Hin]%elem_of_cons]%elem_of_cons.
           ++ exists nv. split; [done|]. split; [lia|]. intros w Hw'. by apply elem_of_nil in Hw'.
           ++ exists ns. split; [done|]. split; [lia|]. intros w Hw'. rewrite (take_S_r _ _ v) in Hw' by done. csimpl.
              apply elem_of_app in Hw' as [Hw'| ->%list_elem_of_singleton]; [|by left]. apply Htake in Hw'. csimpl in Hw'. by right.
           ++ destruct (Hcu u' c') as (ns' & H1 & H2 & H3); [by right|]. exists ns'. split; [done|]. split; [done|].
              intros w Hw'%H3. csimpl in *. by right.
        -- done.
      * unfold dfs_cost. csimpl. unfold frame_cost at 1 2. cbn [fst snd]. rewrite Hns, Hnv. cbv iota. lia.
      * exists vis, rest. split; [done|]. split; [done|]. intros i Hi. apply Hin. csimpl in *. set_solver.
  - assert (c = length ns) as -> by (apply lookup_ge_None in Hv; lia). rewrite take_ge in Htake by done.
    destruct (IH stack visited (post ++ [u])) as (vis & rest & -> & Hinv & Hin).
    + assert (∀ i, i ∈ stack.*1 ++ post ++ [u] ↔ i ∈ ((u, length ns) :: stack).*1 ++ post) as Heq by (intros i; csimpl; set_solver).
      split.
      * done.
      * intros i. by rewrite Hvis, Heq.
      * csimpl in Hnd. rewrite app_assoc. rewrite (comm (++) _ [u]). done.
      * csimpl in Hch. by destruct stack.*1; [|destruct Hch].
      * intros u' c' Hin. destruct (Hcu u' c') as (ns' & H1 & H2 & H3); [by right|]. exists ns'. split; [done|]. split; [done|].
        intros w Hw%H3. by apply Heq.
      * intros Hacyclic. apply closed_snoc; [by apply Hclo|]. intros v Huv. pose proof Huv as (k & Hk & Hvk). assert (k = ns) as -> by congruence.
        apply Htake in Hvk. csimpl in *. apply elem_of_cons in Hvk as [->|[Hv'|Hv']%elem_of_app]; [| |done].
        -- destruct (Hacyclic u). by apply tc_once.
        -- destruct (Hacyclic v). eapply tc_r; [by apply (chain_reach u v stack.*1)|done].
    + unfold dfs_cost. lia.
    + exists vis, ([u] ++ rest). rewrite <-!app_assoc in *. split; [done|]. split; [done|].
      intros i [->|Hi]%elem_of_cons; [set_solver|]. by apply Hin.
Qed.

Lemma dfs_post_order_spec start visited post_order :
  dfs_inv [] visited post_order → visited !! start = Some false →
  ∃ visited' rest, dfs_post_order start adjacency visited post_order = Some (visited', post_order ++ rest)
    ∧ dfs_inv [] visited' (post_order ++ rest) ∧ start ∈ post_order ++ rest.
Proof.
  intros [Hlen Hvis Hnd _ _ Hclo] Hs. csimpl in *.
  assert (start < n) as Hn by (rewrite <-Hlen; by eapply lookup_lt_Some).
  destruct (lookup_in_range adjacency start Hn) as [ns Hns].
  destruct (dfs_loop_spec (dfs_fuel adjacency) [(start, 0)] (<[start := true]> visited) post_order) as (vis & rest & E & Hinv & Hin).
  - assert (start ∉ post_order) as Hnew by (intros Hin%Hvis; congruence). split.
    + by rewrite length_insert.
    + intros i. csimpl. destruct (decide (i = start)) as [->|Hi].
      * rewrite list_lookup_insert_eq by (by rewrite Hlen). split; [intros _; by left|done].
      * rewrite list_lookup_insert_ne, Hvis by done. set_solver.
    + by apply NoDup_cons.
    + done.
    + intros u c [= -> ->]%list_elem_of_singleton. exists ns. split; [done|]. split; [lia|]. intros v Hv. by apply elem_of_nil in Hv.
    + done.
  - unfold dfs_cost, dfs_fuel. csimpl. unfold frame_cost. cbn [fst snd]. rewrite Hns.
    pose proof (pending_mark id (λ ns, S (length ns)) visited adjacency start false true ns Hs eq_refl eq_refl Hns) as Hw.
    cbv beta in Hw. pose proof (pending_le id (λ ns, S (length ns)) visited adjacency) as Hle.
    assert (sum_list ((λ ns : list nat, S (length ns)) <$> adjacency) = length adjacency + degrees adjacency) as Hsum.
    { unfold degrees. clear. induction adjacency as [|k l IH]; csimpl; lia. }
    lia.
  - exists vis, rest. split; [exact E|]. split; [done|]. apply Hin. csimpl. by left.
Qed.


(** The order that the searches give has all nodes; when there is no cycle it respects all arcs. *)
Lemma order_nodes_spec :
  ∃ order, order_nodes adjacency n = Some order ∧ order ≡ₚ seq 0 n
    ∧ (acyclic (arc adjacency) → ∀ u v, arc adjacency u v → before order u v).
Proof.
  unfold order_nodes.
  destruct (for_opt_ind (λ seen s, dfs_inv [] s.1 s.2 ∧ ∀ i, i ∈ seen → i ∈ s.2) (seq 0 n)
    (λ start s, let '(visited, post_order) := s in seen ← visited !! start;
       if (seen : bool) then Some (visited, post_order) else dfs_post_order start adjacency visited post_order)
    (replicate n false, [])) as ([vis post] & -> & [Hlen Hvis Hnd _ _ Hclo] & Hall).
  - split; [|set_solver]. split; cbn [fst snd fmap list_fmap app chain].
    + apply length_replicate.
    + intros i. split; [by intros [??]%lookup_replicate|intros Hi; by apply elem_of_nil in Hi].
    + constructor.
    + done.
    + intros u c Hin. by apply elem_of_nil in Hin.
    + intros _ l1 u l2 E. by destruct l1.
  - intros seen x [vis post] [Hinv Hseen] [_ Hx]%elem_of_seq. cbn [fst snd] in *.
    pose proof Hinv as [Hlen Hvis _ _ _ _]. destruct (lookup_in_range vis x) as [b Hb]; [lia|]. rewrite Hb. cbn [mbind option_bind].
    destruct b.
    + eexists; split; [done|]. split; [done|]. cbn [snd]. intros i [Hi| ->%list_elem_of_singleton]%elem_of_app; [by apply Hseen|].
      apply Hvis in Hb. by rewrite app_nil_l in Hb.
    + destruct (dfs_post_order_spec x vis post Hinv Hb) as (vis' & rest & -> & Hinv' & Hin). eexists; split; [done|].
      split; [done|]. cbn [snd]. intros i [Hi%Hseen| ->%list_elem_of_singleton]%elem_of_app; [set_solver|done].
  - cbn [mbind option_bind fst snd] in *. csimpl in *. eexists; split; [done|]. split.
    + rewrite reverse_Permutation. apply NoDup_Permutation; [done|apply NoDup_seq|]. intros i. split.
      * intros Hi%Hvis%lookup_lt_Some. apply elem_of_seq. lia.
      * apply Hall.
    + intros Hac u v Huv. assert (u ∈ post) as Hu.
      { apply Hall, elem_of_seq. destruct Huv as (k & Hk%lookup_lt_Some & _). lia. }
      apply list_elem_of_split in Hu as (l1 & l2 & E). pose proof (Hclo Hac _ _ _ E _ Huv) as Hv.
      apply list_elem_of_split in Hv as (k1 & k2 & ->). pose proof (before_split (reverse l2) (reverse k2) (reverse k1) u v) as Hb.
      rewrite E, reverse_app, reverse_cons, reverse_app, reverse_cons. by rewrite <-!(assoc_L (++)).
Qed.
End dfs.

(** ** The index of the nodes *)
Section index.
Context {K : Type} `{Countable K}.

Definition index_ok (index : gmap K nat) (nodes : list K) : Prop :=
  NoDup nodes ∧ ∀ k i, index !! k = Some i ↔ nodes !! i = Some k.

Lemma add_node_ok index nodes k :
  index_ok index nodes →
  let s := add_node (index, nodes) k in index_ok s.1 s.2 ∧ ∀ x, x ∈ s.2 ↔ x = k ∨ x ∈ nodes.
Proof.
  intros [Hnd Hi]. unfold add_node. cbv zeta. destruct (index !! k) as [i|] eqn:E; cbn [fst snd].
  - split; [done|]. intros x. split; [by right|]. intros [->|Hx]; [|done]. apply Hi in E. by eapply list_elem_of_lookup_2.
  - assert (k ∉ nodes) as Hk by (intros [i Hk]%list_elem_of_lookup; apply Hi in Hk; congruence).
    split; [split|set_solver].
    + apply NoDup_app. split; [done|]. split; [set_solver|apply NoDup_singleton].
    + intros x i. destruct (decide (x = k)) as [->|Hx].
      * rewrite lookup_insert_eq. split.
        -- intros [= <-]. by rewrite lookup_app_r, Nat.sub_diag by done.
        -- intros [Hl|[Hl Hx]]%lookup_app_Some; [by apply list_elem_of_lookup_2 in Hl|].
           apply list_lookup_singleton_Some in Hx as [Hx _]. f_equal. lia.
      * rewrite lookup_insert_ne, Hi by done. split; [intros Hl; by rewrite lookup_app_l by by eapply lookup_lt_Some|].
        intros [Hl|[Hl Hl']]%lookup_app_Some; [done|]. apply list_lookup_singleton_Some in Hl' as [_ ?]. congruence.
Qed.

Definition endpoint (edges : list (PriorityEdge K)) (k : K) : Prop := ∃ e, e ∈ edges ∧ (k = edge_from e ∨ k = edge_to e).

Lemma index_nodes_ok channels edges :
  let s := index_nodes channels edges in
  index_ok s.1 s.2 ∧ ∀ k, k ∈ s.2 ↔ k ∈ channels ∨ endpoint edges k.
Proof.
  unfold index_nodes.
  assert (∀ l s, index_ok s.1 s.2 → let s' := foldl add_node s l in
    index_ok s'.1 s'.2 ∧ ∀ k, k ∈ s'.2 ↔ k ∈ l ∨ k ∈ s.2) as Hc.
  { induction l as [|x l IH]; intros [index nodes] Hs; cbn [foldl]; [split; [done|set_solver]|].
    destruct (add_node_ok index nodes x Hs) as [H1 H2]. destruct (IH _ H1) as [H3 H4]. split; [done|]. cbv zeta in *.
    intros k. rewrite H4, H2. set_solver. }
  assert (∀ l s, index_ok s.1 s.2 →
    let s' := foldl (λ s e, add_node (add_node s (edge_from e)) (edge_to e)) s l in
    index_ok s'.1 s'.2 ∧ ∀ k, k ∈ s'.2 ↔ endpoint l k ∨ k ∈ s.2) as He.
  { induction l as [|e l IH]; intros [index nodes] Hs; cbn [foldl].
    { split; [done|]. intros k. split; [by right|]. intros [(e & He & _)|?]; [by apply elem_of_nil in He|done]. }
    destruct (add_node_ok index nodes (edge_from e) Hs) as [H1 H2].
    destruct (add_node (index, nodes) (edge_from e)) as [index1 nodes1]. cbv zeta in *. cbn [fst snd] in *.
    destruct (add_node_ok index1 nodes1 (edge_to e) H1) as [H3 H4]. destruct (IH _ H3) as [H5 H6]. split; [done|]. cbv zeta in *.
    intros k. rewrite H6, H4, H2. unfold endpoint. set_solver. }
  destruct (Hc channels (∅, [])) as [H1 H2].
  { split; [constructor|]. intros k i. cbn [fst snd]. by rewrite lookup_empty, lookup_nil. }
  destruct (He edges _ H1) as [H3 H4]. split; [done|]. cbv zeta in *. intros k. rewrite H4, H2. set_solver.
Qed.
End index.

(** ** Inserting the edges *)
Section topo.
Context {K : Type} `{Countable K}.

(** One of the [edges] puts [a] before [b]. *)
Definition outranks (edges : list (PriorityEdge K)) (a b : K) : Prop :=
  ∃ e, e ∈ edges ∧ edge_from e = a ∧ edge_to e = b.

Context (index : gmap K nat) (nodes : list K) (Hindex : index_ok index nodes).
(** When the channels of the user are distinct the arcs are the edges that are kept, without a cycle. *)
Context (exact : Prop).

Record topo_inv (inserted : list (PriorityEdge K)) (s : TopoState K) : Prop := {
  ti_length : length (ts_adjacency s) = length nodes;
  ti_range : in_range (ts_adjacency s);
  ti_acyclic : exact → acyclic (arc (ts_adjacency s));
  ti_arcs i j : arc (ts_adjacency s) i j → ∃ a b, nodes !! i = Some a ∧ nodes !! j = Some b ∧ outranks (ts_kept s) a b;
  ti_exact i j a b : exact → nodes !! i = Some a → nodes !! j = Some b → outranks (ts_kept s) a b → arc (ts_adjacency s) i j;
  ti_edges : ts_kept s ++ ts_broken s ≡ₚ inserted;
  ti_broken e : e ∈ ts_broken s → rtc (outranks (ts_kept s)) (edge_to e) (edge_from e)
}.

Lemma index_inj i a b : index !! a = Some i → nodes !! i = Some b → a = b.
Proof. intros Ha%Hindex Hb. congruence. Qed.
Lemma nodes_inj i j a : nodes !! i = Some a → nodes !! j = Some a → i = j.
Proof. intros Hi Hj. apply Hindex in Hi, Hj. congruence. Qed.

Lemma reach_outranks s i j a b : (∀ i j, arc (ts_adjacency s) i j →
    ∃ a b, nodes !! i = Some a ∧ nodes !! j = Some b ∧ outranks (ts_kept s) a b) →
  rtc (arc (ts_adjacency s)) i j → nodes !! i = Some a → nodes !! j = Some b → rtc (outranks (ts_kept s)) a b.
Proof.
  intros Harcs Hr. revert a. induction Hr as [i|i k j Hik _ IH]; intros a Ha Hb.
  - assert (a = b) as -> by congruence. done.
  - apply Harcs in Hik as (a' & c & Ha' & Hc & Hac). assert (a' = a) as -> by congruence.
    eapply rtc_l; [exact Hac|]. by apply IH.
Qed.

Lemma outranks_snoc kept e a b : outranks (kept ++ [e]) a b ↔ outranks kept a b ∨ (edge_from e = a ∧ edge_to e = b).
Proof. unfold outranks. set_solver. Qed.

(** An edge is kept whose end does not reach its start. *)
Lemma topo_keep inserted s e from to :
  topo_inv inserted s → index !! edge_from e = Some from → index !! edge_to e = Some to →
  (exact → ¬ rtc (arc (ts_adjacency s)) to from) →
  ∃ adjacency, push_neighbor from to (ts_adjacency s) = Some adjacency
    ∧ topo_inv (inserted ++ [e]) (keep_edge adjacency e s)
    ∧ ts_kept (keep_edge adjacency e s) = ts_kept s ++ [e] ∧ ts_broken (keep_edge adjacency e s) = ts_broken s.
Proof.
  intros [Hl Hr Hac Harcs Hex He Hb] Hf Ht Hn. apply Hindex in Hf as Hf'. apply Hindex in Ht as Ht'.
  destruct (push_neighbor_spec from to (ts_adjacency s)) as (adj & -> & Hladj & Hadj).
  { rewrite Hl. by eapply lookup_lt_Some. }
  exists adj. split; [done|]. split; [|done]. split; cbn [ts_adjacency ts_kept ts_broken keep_edge].
  - by rewrite Hladj.
  - intros u v [Huv|[-> ->]]%Hadj; rewrite Hladj; [by eapply Hr|]. rewrite Hl. by eapply lookup_lt_Some.
  - intros Hx. eapply (acyclic_add _ _ from to); [|by apply Hac|by apply Hn]. intros u v. by rewrite Hadj.
  - intros i j. rewrite Hadj. setoid_rewrite outranks_snoc.
    intros [(a & b & ? & ? & ?)%Harcs|[-> ->]]; [naive_solver|]. exists (edge_from e), (edge_to e). naive_solver.
  - intros i j a b Hx Hi Hj Hab. apply Hadj. apply outranks_snoc in Hab as [?|[<- <-]]; [left; by eapply Hex|].
    right. by split; eapply nodes_inj.
  - rewrite <-He. by rewrite <-(assoc_L (++)), (comm (++) [e]), (assoc_L (++)).
  - intros e' He'. eapply rtc_subrel; [|by apply Hb]. intros a b. rewrite outranks_snoc. by left.
Qed.

Lemma topo_break inserted s e from to :
  topo_inv inserted s → index !! edge_from e = Some from → index !! edge_to e = Some to →
  rtc (arc (ts_adjacency s)) to from → topo_inv (inserted ++ [e]) (break_edge e s).
Proof.
  intros [Hl Hr Hac Harcs Hex He Hb] Hf%Hindex Ht%Hindex Hn. split; cbn [ts_adjacency ts_kept ts_broken break_edge]; try done.
  - by rewrite (assoc_L (++)), He.
  - intros e' [He'| ->%list_elem_of_singleton]%elem_of_app; [by apply Hb|]. by eapply reach_outranks.
Qed.

(** A copy of an edge that is there: the arcs stay. *)
Lemma topo_copy inserted s e : topo_inv inserted s → ¬ exact → topo_inv (inserted ++ [e]) (keep_edge (ts_adjacency s) e s).
Proof.
  intros [Hl Hr Hac Harcs Hex He Hb] Hx. split; cbn [ts_adjacency ts_kept ts_broken keep_edge]; try done.
  - intros i j (a & b & ? & ? & ?)%Harcs. exists a, b. rewrite outranks_snoc. auto.
  - rewrite <-He. by rewrite <-(assoc_L (++)), (comm (++) [e]), (assoc_L (++)).
  - intros e' He'. eapply rtc_subrel; [|by apply Hb]. intros a b. rewrite outranks_snoc. by left.
Qed.

(** The edges of relations *)
Lemma relation_edge_spec inserted e vg g s :
  edge_from e ∈ nodes → edge_to e ∈ nodes →
  topo_inv inserted s → scratch_ok (ts_adjacency s) vg g →
  ∃ vg' g' s', insert_relation_edge index e (vg, g, s) = Some (vg', g', s')
    ∧ topo_inv (inserted ++ [e]) s' ∧ scratch_ok (ts_adjacency s') vg' g' ∧ ∃ k, ts_kept s' = ts_kept s ++ k.
Proof.
  intros [from Hf]%list_elem_of_lookup [to Ht]%list_elem_of_lookup Hinv Hsc. pose proof Hinv as [Hl Hr _ _ _ _ _].
  unfold insert_relation_edge. apply Hindex in Hf as Hf'. apply Hindex in Ht as Ht'. rewrite Hf', Ht'. cbn [mbind option_bind].
  destruct (can_reach_spec (ts_adjacency s) Hr to from vg g) as (b & vg' & g' & -> & Hsc' & Hb);
    [rewrite Hl; by eapply lookup_lt_Some..|done|]. cbn [mbind option_bind]. destruct b.
  - eexists _, _, _. split; [done|]. split; [|split; [done|exists []; by rewrite app_nil_r]].
    eapply topo_break; [done..|]. by apply Hb.
  - destruct (topo_keep inserted s e from to) as (adj & E & Hinv' & Hk & _); [done..| |].
    { intros _ Hreach. apply Hb in Hreach. done. }
    rewrite E. cbn [mbind option_bind]. eexists _, _, _. split; [done|]. split; [done|]. split; [|eauto].
    destruct Hsc' as (H1 & H2 & H3). split; [|done]. destruct Hinv' as [Hl' _ _ _ _ _ _]. congruence.
Qed.

Lemma relation_edges_spec edges inserted vg g s :
  (∀ k, endpoint edges k → k ∈ nodes) → topo_inv inserted s → scratch_ok (ts_adjacency s) vg g →
  ∃ vg' g' s', for_opt edges (insert_relation_edge index) (vg, g, s) = Some (vg', g', s')
    ∧ topo_inv (inserted ++ edges) s' ∧ ∃ k, ts_kept s' = ts_kept s ++ k.
Proof.
  revert inserted vg g s. induction edges as [|e edges IH]; intros inserted vg g s Hn Hinv Hsc; cbn [for_opt].
  { eexists _, _, _. split; [done|]. rewrite app_nil_r. split; [done|]. exists []. by rewrite app_nil_r. }
  destruct (relation_edge_spec inserted e vg g s) as (vg' & g' & s' & -> & Hinv' & Hsc' & k & Hk);
    [apply Hn; exists e; set_solver..|done|done|]. cbn [mbind option_bind].
  destruct (IH (inserted ++ [e]) vg' g' s') as (vg2 & g2 & s2 & -> & Hinv2 & k2 & Hk2); [|done..|].
  { intros x (e' & He' & Hx). apply Hn. exists e'. split; [by right|done]. }
  eexists _, _, _. split; [done|]. rewrite <-(assoc_L (++)) in Hinv2. split; [done|]. exists (k ++ k2).
  by rewrite Hk2, Hk, (assoc_L (++)).
Qed.

(** *** The edges of the user *)
Lemma elem_of_windows2 (l : list K) a b : (a, b) ∈ windows2 l ↔ ∃ p, l !! p = Some a ∧ l !! S p = Some b.
Proof.
  induction l as [|x l IH]; [split; [intros Hi; by apply elem_of_nil in Hi|naive_solver]|].
  destruct l as [|y l]; [split; [intros Hi; by apply elem_of_nil in Hi|intros (p & _ & Hp); by destruct p]|].
  cbn [windows2]. rewrite elem_of_cons, IH. split.
  - intros [[= -> ->]|(p & Ha & Hb)]; [by exists 0|by exists (S p)].
  - intros ([|p] & Ha & Hb); [left; simpl in *; congruence|right; by exists p].
Qed.

Lemma NoDup_windows2 (l : list K) : NoDup l → NoDup (windows2 l).
Proof.
  induction l as [|x l IH]; [constructor|]. destruct l as [|y l]; [constructor|]. intros [Hx Hl]%NoDup_cons.
  cbn [windows2]. constructor; [|by apply IH]. intros Hin. apply (elem_of_windows2 (y :: l)) in Hin as (p & Ha & _). apply Hx.
  by eapply list_elem_of_lookup_2.
Qed.

Lemma chain_acyclic (user : list K) (R : K → K → Prop) :
  NoDup user → (∀ a b, R a b → (a, b) ∈ windows2 user) → acyclic R.
Proof.
  intros Hnd HR x Hx.
  assert (∀ a b, tc R a b → ∃ p q, p < q ∧ user !! p = Some a ∧ user !! q = Some b) as Hpos.
  { induction 1 as [a b (p & Ha & Hb)%HR%elem_of_windows2|a b c (p & Ha & Hb)%HR%elem_of_windows2 _ (p' & q & Hlt & Hp' & Hq)].
    - exists p, (S p). split; [lia|done].
    - assert (p' = S p) as -> by by eapply NoDup_lookup. exists p, q. split; [lia|done]. }
  destruct (Hpos x x Hx) as (p & q & Hlt & Hp & Hq). assert (p = q) by by eapply NoDup_lookup. lia.
Qed.

(** What is remembered of the pairs: the arc is there, or the opposite one, which made it break. *)
Definition seen_ok (seen : gset (nat * nat)) (adjacency : list (list nat)) : Prop :=
  ∀ i j, (i, j) ∈ seen → arc adjacency i j ∨ ((j, i) ∈ seen ∧ arc adjacency j i).
(** What holds besides when the channels are distinct *)
Definition exact_ok (user : list K) (pairs rest : list (K * K)) (seen : gset (nat * nat)) (s : TopoState K) : Prop :=
  exact → NoDup user ∧ pairs ++ rest = windows2 user ∧ ts_kept s = user_edge <$> pairs ∧ ts_broken s = []
    ∧ ∀ i j, (i, j) ∈ seen → arc (ts_adjacency s) i j.

(** Among distinct channels the next pair is new, and so is its opposite. *)
Lemma exact_new user pairs a b rest seen s i j :
  topo_inv (user_edge <$> pairs) s → exact → exact_ok user pairs ((a, b) :: rest) seen s →
  nodes !! i = Some a → nodes !! j = Some b → i ≠ j ∧ (i, j) ∉ seen ∧ (j, i) ∉ seen ∧ ¬ rtc (arc (ts_adjacency s)) j i.
Proof.
  intros Hinv Hx (Hnd & E & Hk & Hb & Hseen)%(λ f : exact_ok _ _ _ _ _, f Hx) Hi Hj.
  assert ((a, b) ∈ windows2 user) as Hab by (rewrite <-E; set_solver).
  pose proof Hab as (p & Ha & Hb')%elem_of_windows2.
  assert (a ≠ b) as Hne by (intros ->; apply (n_Sn p); by eapply NoDup_lookup).
  pose proof (NoDup_windows2 user Hnd) as Hndw. rewrite <-E in Hndw.
  assert (∀ a' b', outranks (ts_kept s) a' b' → (a', b') ∈ pairs) as Hkept.
  { intros a' b' (e & He & <- & <-). rewrite Hk in He. apply list_elem_of_fmap in He as ([x y] & -> & Hxy). done. }
  assert (∀ i' j' a' b', arc (ts_adjacency s) i' j' → nodes !! i' = Some a' → nodes !! j' = Some b' → (a', b') ∈ pairs) as Hs.
  { intros i' j' a' b' (x & y & Hx' & Hy & Hxy)%(ti_arcs _ _ Hinv) Hi2 Hj2. apply Hkept in Hxy. naive_solver. }
  assert (acyclic (λ x y : K, (x, y) ∈ windows2 user)) as Hac by by apply (chain_acyclic user).
  split; [intros ->; congruence|]. split; [|split].
  - intros Hin%Hseen. specialize (Hs i j a b Hin Hi Hj). apply NoDup_app in Hndw as (_ & Hd & _). by apply (Hd (a, b)); [|left].
  - intros Hin%Hseen. specialize (Hs j i b a Hin Hj Hi). apply (Hac a). eapply tc_l; [exact Hab|]. apply tc_once. rewrite <-E. set_solver.
  - intros Hr. eapply reach_outranks in Hr; [|apply Hinv|done..].
    apply (Hac a). eapply tc_rtc_r; [by apply tc_once|]. eapply rtc_subrel; [|exact Hr]. intros x y Hxy%Hkept. rewrite <-E. set_solver.
Qed.

Lemma user_edges_loop user pairs rest seen s :
  (∀ a b, (a, b) ∈ rest → a ∈ nodes ∧ b ∈ nodes) →
  topo_inv (user_edge <$> pairs) s → seen_ok seen (ts_adjacency s) → exact_ok user pairs rest seen s →
  ∃ seen' s', for_opt (user_edge <$> rest) (insert_user_edge index) (seen, s) = Some (seen', s')
    ∧ topo_inv (user_edge <$> (pairs ++ rest)) s' ∧ exact_ok user (pairs ++ rest) [] seen' s'.
Proof.
  revert pairs seen s. induction rest as [|[a b] rest IH]; intros pairs seen s Hn Hinv Hseen Hexact.
  { rewrite app_nil_r. csimpl. by eexists _, _. }
  csimpl. cbn [for_opt]. unfold insert_user_edge at 1. cbn [edge_from edge_to user_edge].
  destruct (Hn a b ltac:(by left)) as [[i Hi]%list_elem_of_lookup [j Hj]%list_elem_of_lookup].
  apply Hindex in Hi as Hi'. apply Hindex in Hj as Hj'. rewrite Hi', Hj'. cbn [mbind option_bind].
  assert (∀ x y, (x, y) ∈ rest → x ∈ nodes ∧ y ∈ nodes) as Hn' by (intros x y Hxy; apply Hn; by right).
  assert (exact → i ≠ j ∧ (i, j) ∉ seen ∧ (j, i) ∉ seen ∧ ¬ rtc (arc (ts_adjacency s)) j i) as Hnew
    by (intros Hx; by apply (exact_new user pairs a b rest seen s)).
  assert (pairs ++ (a, b) :: rest = (pairs ++ [(a, b)]) ++ rest) as Ereq by by rewrite <-(assoc_L (++)).
  assert (user_edge <$> (pairs ++ [(a, b)]) = (user_edge <$> pairs) ++ [user_edge (a, b)]) as Efmap by by rewrite fmap_app.
  rewrite Ereq. case_bool_decide as Hij.
  { (* [a, a] *)
    subst j. assert (a = b) as <- by congruence. apply IH; [done| |done|].
    - rewrite Efmap. by eapply topo_break; [..|apply rtc_refl].
    - intros Hx. by destruct (Hnew Hx). }
  case_bool_decide as Hdup.
  { apply IH; [done| |done|].
    - rewrite Efmap. apply topo_copy; [done|]. intros Hx. by destruct (Hnew Hx) as (_ & ? & _).
    - intros Hx. by destruct (Hnew Hx) as (_ & ? & _). }
  case_bool_decide as Hopp.
  { assert ((j, i) ∈ seen) as Hji by (apply elem_of_union in Hopp as [[= ? ?]%elem_of_singleton|?]; [congruence|done]).
    assert (arc (ts_adjacency s) j i) as Harc by (destruct (Hseen j i Hji) as [?|[? _]]; done).
    apply IH; [done| | |].
    - rewrite Efmap. eapply topo_break; [done..|]. by apply rtc_once.
    - intros x y [[= -> ->]%elem_of_singleton|Hxy]%elem_of_union; [right; split; [set_solver|done]|].
      destruct (Hseen x y Hxy) as [?|[? ?]]; [by left|right; set_solver].
    - intros Hx. by destruct (Hnew Hx) as (_ & _ & ? & _). }
  destruct (topo_keep (user_edge <$> pairs) s (user_edge (a, b)) i j) as (adj & E & Hinv' & Hk' & Hbr); [done..|by intros Hx; apply Hnew|].
  rewrite E. cbn [mbind option_bind]. destruct (push_neighbor_spec i j (ts_adjacency s)) as (adj' & E' & _ & Hadj).
  { destruct Hinv as [Hl _ _ _ _ _ _]. rewrite Hl. by eapply lookup_lt_Some. }
  rewrite E in E'. injection E' as <-.
  assert (∀ x y, arc (ts_adjacency s) x y → arc adj x y) as Hmono by (intros x y Hxy; apply Hadj; by left).
  apply IH; [done|by rewrite Efmap| |].
  - cbn [ts_adjacency keep_edge]. intros x y [[= -> ->]%elem_of_singleton|Hxy]%elem_of_union; [left; apply Hadj; by right|].
    destruct (Hseen x y Hxy) as [?|[? ?]]; [left; by apply Hmono|right; set_solver].
  - intros Hx. destruct (Hexact Hx) as (Hnd & E2 & Hk & Hb & Hs). split; [done|]. split; [by rewrite <-Ereq|].
    split; [by rewrite Hk', Hk, Efmap|]. split; [by rewrite Hbr|]. cbn [ts_adjacency keep_edge].
    intros x y [[= -> ->]%elem_of_singleton|Hxy]%elem_of_union; [apply Hadj; by right|by apply Hmono, Hs].
Qed.

Lemma user_edges_spec user :
  (exact → NoDup user) → (∀ a b, (a, b) ∈ windows2 user → a ∈ nodes ∧ b ∈ nodes) →
  ∃ seen s, for_opt (user_edge <$> windows2 user) (insert_user_edge index)
      (∅, mkTopoState (replicate (length nodes) []) [] []) = Some (seen, s)
    ∧ topo_inv (user_edge <$> windows2 user) s ∧ (exact → ts_kept s = user_edge <$> windows2 user).
Proof.
  intros Hnd Hn.
  assert (∀ i j, ¬ arc (replicate (length nodes) []) i j) as Hno.
  { intros i j (l & [-> _]%lookup_replicate & Hin). by apply elem_of_nil in Hin. }
  destruct (user_edges_loop user [] (windows2 user) ∅ (mkTopoState (replicate (length nodes) []) [] [])) as (seen & s & E & Hinv & Hx).
  - done.
  - split; cbn [ts_adjacency ts_kept ts_broken].
    + apply length_replicate.
    + intros u v Huv. by apply Hno in Huv.
    + intros _ x Hx. assert (∀ u v, tc (arc (replicate (length nodes) [])) u v → False) as Ht; [|by eapply Ht].
      induction 1 as [u v Huv|u v w Huv _ _]; by apply Hno in Huv.
    + intros i j Hij. by apply Hno in Hij.
    + intros i j a b _ _ _ (e & He & _). by apply elem_of_nil in He.
    + done.
    + intros e He. by apply elem_of_nil in He.
  - by intros i j ?%elem_of_empty.
  - intros Hx. split; [by apply Hnd|]. split; [done|]. split; [done|]. split; [done|]. by intros i j ?%elem_of_empty.
  - exists seen, s. split; [done|]. split; [done|]. intros He. by destruct (Hx He) as (_ & _ & ? & _).
Qed.
End topo.

(** ** The order of the channels *)
Section resolve.
Context {K : Type} `{Countable K}.

Lemma user_positions_spec (user : list K) k i : NoDup user → user_positions user !! k = Some i ↔ user !! i = Some k.
Proof.
  unfold user_positions. revert i. induction user as [|x user IH] using rev_ind; intros i Hnd.
  { cbn. by rewrite lookup_empty, lookup_nil. }
  apply NoDup_app in Hnd as (Hnd & Hx & _). rewrite imap_app, foldl_app. cbn [imap foldl fst snd]. rewrite Nat.add_0_r.
  assert (x ∉ user) as Hxu by (intros Hin; apply (Hx x); [done|by left]).
  destruct (decide (k = x)) as [->|Hk].
  - rewrite lookup_insert_eq. split.
    + intros [= <-]. by rewrite lookup_app_r, Nat.sub_diag.
    + intros [Hl|[Hl Hl']]%lookup_app_Some; [by apply list_elem_of_lookup_2 in Hl|].
      apply list_lookup_singleton_Some in Hl' as [Hl' _]. f_equal. lia.
  - rewrite lookup_insert_ne, IH by done. split; [intros Hl; by apply lookup_app_l_Some|].
    intros [Hl|[Hl Hl']]%lookup_app_Some; [done|]. apply list_lookup_singleton_Some in Hl' as [_ ?]. congruence.
Qed.

(** Of a repeated channel too the position is one where it is. *)
Lemma user_positions_sound (user : list K) k i : user_positions user !! k = Some i → user !! i = Some k.
Proof.
  unfold user_positions. revert i. induction user as [|x user IH] using rev_ind; intros i.
  { cbn. by rewrite lookup_empty. }
  rewrite imap_app, foldl_app. cbn [imap foldl fst snd]. rewrite Nat.add_0_r. destruct (decide (k = x)) as [->|Hk].
  - rewrite lookup_insert_eq. intros [= <-]. by rewrite lookup_app_r, Nat.sub_diag.
  - rewrite lookup_insert_ne by done. intros Hl%IH. by apply lookup_app_l_Some.
Qed.

(** The user puts [to] of an ignored edge before its [from]. *)
Definition contradicts_user (user : list K) (e : PriorityEdge K) : Prop := before user (edge_to e) (edge_from e).

Lemma graph_build_spec (user : list K) relation_edges :
  ∃ accepted ignored, graph_build user relation_edges = ((user_edge <$> windows2 user) ++ accepted, ignored)
    ∧ accepted ++ ignored ≡ₚ relation_edges ∧ Forall (contradicts_user user) ignored
    ∧ (NoDup user → ∀ e, e ∈ accepted → ¬ contradicts_user user e).
Proof.
  unfold graph_build. set (base := user_edge <$> windows2 user).
  induction relation_edges as [|e l (acc & ign & E & Hp & Hi & Ha)] using rev_ind.
  { exists [], []. cbn [foldl]. rewrite app_nil_r. repeat split; [done|constructor|]. intros _ e He. by apply elem_of_nil in He. }
  rewrite foldl_app, E. cbn [foldl]. unfold dispatch_edge.
  assert (NoDup user → ∀ e, contradicts_user user e ↔ ∃ i j, user_positions user !! edge_to e = Some i
    ∧ user_positions user !! edge_from e = Some j ∧ i < j) as Hc.
  { intros Hnd e'. unfold contradicts_user, before. by setoid_rewrite user_positions_spec. }
  assert ((NoDup user → ¬ contradicts_user user e) →
    ∃ accepted ignored, (((base ++ acc) ++ [e], ign) : _ * _) = (base ++ accepted, ignored)
    ∧ accepted ++ ignored ≡ₚ l ++ [e] ∧ Forall (contradicts_user user) ignored
    ∧ (NoDup user → ∀ e, e ∈ accepted → ¬ contradicts_user user e)) as Haccept.
  { intros Hn. exists (acc ++ [e]), ign. rewrite <-(assoc_L (++)). split; [done|]. split; [|split; [done|]].
    - rewrite <-Hp, <-!(assoc_L (++)). apply Permutation_app_head, Permutation_app_comm.
    - intros Hnd e' [He'| ->%list_elem_of_singleton]%elem_of_app; [by apply Ha|by apply Hn]. }
  case_bool_decide as Heq.
  { apply Haccept. intros Hnd. rewrite (Hc Hnd), Heq. intros (i & j & Hi' & Hj' & Hlt). assert (i = j) by congruence. lia. }
  destruct (user_positions user !! edge_from e) as [j|] eqn:Ef; [destruct (user_positions user !! edge_to e) as [i|] eqn:Et|].
  - destruct (Nat.ltb_spec i j) as [Hlt|Hge].
    + exists acc, (ign ++ [e]). split; [done|]. split; [by rewrite (assoc_L (++)), Hp|]. split; [|done].
      apply Forall_app. split; [done|]. apply Forall_singleton. exists i, j. eauto using user_positions_sound.
    + apply Haccept. intros Hnd. rewrite (Hc Hnd), Ef, Et. naive_solver lia.
  - apply Haccept. intros Hnd. rewrite (Hc Hnd), Et. naive_solver.
  - apply Haccept. intros Hnd. rewrite (Hc Hnd), Ef. naive_solver.
Qed.

Lemma filter_user_edges (user : list K) accepted :
  Forall (λ e, edge_source e ≠ User) accepted →
  List.filter is_user_edge ((user_edge <$> windows2 user) ++ accepted) = user_edge <$> windows2 user
  ∧ List.filter (λ e, negb (is_user_edge e)) ((user_edge <$> windows2 user) ++ accepted) = accepted.
Proof.
  intros Ha. rewrite !List.filter_app. split.
  - assert (List.filter is_user_edge accepted = []) as ->.
    { induction Ha as [|e l He _ IH]; [done|]. simpl. unfold is_user_edge at 1. by rewrite bool_decide_false. }
    rewrite app_nil_r. induction (windows2 user) as [|p l IH]; [done|]. csimpl. by rewrite IH.
  - assert (List.filter (λ e : PriorityEdge K, negb (is_user_edge e)) (user_edge <$> windows2 user) = []) as ->.
    { induction (windows2 user) as [|p l IH]; [done|]. csimpl. done. }
    induction Ha as [|e l He _ IH]; [done|]. simpl in *. unfold is_user_edge at 1. rewrite bool_decide_false by done. simpl. by f_equal.
Qed.

(** Where the elements of a list are, seen through an injective map *)
Lemma before_mapM {A B} (f : A → option B) l k a b x y :
  mapM f l = Some k → before l a b → f a = Some x → f b = Some y → before k x y.
Proof.
  intros Hm%mapM_Some (i & j & Hi & Hj & Hlt) Ha Hb. exists i, j.
  destruct (Forall2_lookup_l _ _ _ _ _ Hm Hi) as (x' & Hx & Hx'). destruct (Forall2_lookup_l _ _ _ _ _ Hm Hj) as (y' & Hy & Hy').
  split; [congruence|]. split; [congruence|done].
Qed.

Lemma mapM_lookup_perm {A} (l : list A) order :
  order ≡ₚ seq 0 (length l) → ∃ k, mapM (λ i, l !! i) order = Some k ∧ k ≡ₚ l.
Proof.
  intros Hp. assert (∀ i, i ∈ order → i < length l) as Hlt by (intros i; rewrite Hp, elem_of_seq; lia).
  exists (omap (λ i, l !! i) order). split.
  - clear Hp. apply mapM_Some. induction order as [|i order IH]; [constructor|]. csimpl.
    destruct (lookup_in_range l i) as [x Hx]; [apply Hlt; by left|]. rewrite Hx. constructor; [done|].
    apply IH. intros j Hj. apply Hlt. by right.
  - rewrite Hp. assert (∀ p k : list A, omap (λ i, (p ++ k) !! i) (seq (length p) (length k)) = k) as Hk; [|pose proof (Hk [] l) as E; cbn [app length] in E; by rewrite E].
    intros p k. revert p. induction k as [|x k IH]; intros p; [done|]. csimpl. rewrite list_lookup_middle by done. f_equal.
    specialize (IH (p ++ [x])). rewrite length_app in IH. simpl in IH. rewrite Nat.add_1_r, <-(assoc_L (++)) in IH. exact IH.
Qed.

(** A list whose neighbours are in order is in order. *)
Lemma before_chain (user l : list K) a b :
  NoDup l → (∀ a b, (a, b) ∈ windows2 user → before l a b) → before user a b → before l a b.
Proof.
  intros Hl Hw (i & j & Hi & Hj & Hlt). revert b Hj. induction Hlt as [|j Hlt IH]; intros b Hj.
  - apply Hw, elem_of_windows2. eauto.
  - destruct (lookup_in_range user j) as [c Hc]; [apply lookup_lt_Some in Hj; lia|].
    eapply before_trans; [done|by apply IH|]. apply Hw, elem_of_windows2. eauto.
Qed.

(** The topological order, given edges of the user and of relations *)
Lemma topo_result_spec (user discovered : list K) accepted :
  Forall (λ e, edge_source e ≠ User) accepted →
  let base := user_edge <$> windows2 user in
  ∃ order kept broken,
    topo_result discovered (base ++ accepted) = Some (order, kept, broken)
    ∧ NoDup order
    ∧ (∀ k, k ∈ order ↔ k ∈ discovered ∨ endpoint (kept ++ broken) k)
    ∧ kept ++ broken ≡ₚ base ++ accepted
    ∧ (∀ e, e ∈ broken → rtc (outranks kept) (edge_to e) (edge_from e))
    ∧ (NoDup user → (∃ related, kept = base ++ related) ∧ ∀ e, e ∈ kept → before order (edge_from e) (edge_to e)).
Proof.
  intros Hsrc base. unfold topo_result. destruct (filter_user_edges user accepted Hsrc) as [Eu Er]. fold base in Eu, Er.
  rewrite Eu, Er.
  pose proof (index_nodes_ok discovered (base ++ accepted)) as [Hix Hnodes]. cbv zeta in Hix, Hnodes.
  destruct (index_nodes discovered _) as [index nodes]. cbn [fst snd] in *.
  destruct (user_edges_spec index nodes Hix (NoDup user) user) as (seen & s & Es & Hinv & Hk); [done| |].
  { intros a b Hab. split; apply Hnodes; right; exists (user_edge (a, b)); (split; [|by auto]); set_solver. }
  fold base in Es, Hinv, Hk. rewrite Es. cbn [mbind option_bind].
  destruct (relation_edges_spec index nodes Hix (NoDup user) accepted base (replicate (length nodes) 0%N) 0%N s)
    as (vg & g & s' & -> & Hinv' & k & Hk'); [|done| |].
  { intros x Hx. apply Hnodes. right. destruct Hx as (e & He & Hx). exists e. set_solver. }
  { split; [rewrite length_replicate; by destruct Hinv|]. split; [lia|]. by intros m [-> _]%elem_of_replicate. }
  cbn [mbind option_bind]. pose proof Hinv' as [Hl Hr Hac _ Hex He Hb].
  destruct (order_nodes_spec (ts_adjacency s') Hr) as (order & E & Hp & Hbefore). rewrite Hl in E, Hp. rewrite E.
  cbn [mbind option_bind]. destruct (mapM_lookup_perm nodes order Hp) as (order' & Hm & Hp'). rewrite Hm. cbn [mbind option_bind].
  exists order', (ts_kept s'), (ts_broken s'). split; [done|].
  split; [rewrite Hp'; apply Hix|]. split; [|split; [exact He|split; [exact Hb|]]].
  - intros x. rewrite Hp', Hnodes. unfold endpoint. by setoid_rewrite He.
  - intros Hnd. split; [exists k; by rewrite Hk', (Hk Hnd)|].
    intros e Hin. assert (outranks (ts_kept s') (edge_from e) (edge_to e)) as Hout by by exists e.
    assert (∀ x, endpoint (ts_kept s') x → ∃ i, nodes !! i = Some x) as Hnode.
    { intros x (e' & Hin' & Hx). apply list_elem_of_lookup, Hnodes. right. exists e'. split; [|done]. rewrite <-He. set_solver. }
    destruct (Hnode (edge_from e)) as [i Hi]; [by exists e; auto|]. destruct (Hnode (edge_to e)) as [j Hj]; [by exists e; auto|].
    eapply (before_mapM (λ i, nodes !! i)); [exact Hm| |done|done]. apply (Hbefore (Hac Hnd)). by eapply Hex.
Qed.

(** C6: what is returned is an order, without repetition, of the channels that were found and of
    the ends of the edges; every edge of the user and of a relation is kept, broken or ignored; a
    broken one closes a cycle with edges that are kept, an ignored one contradicts the user. When
    the user lists no channel twice, moreover, the edges of the user are all kept, the order is the
    one of the user and respects every edge that is kept, and just the edges that contradict the
    user are ignored. *)
Theorem resolve_channel_priority_correct (user discovered : list K) relation_edges :
  user ≠ [] → Forall (λ e, edge_source e ≠ User) relation_edges →
  let base := user_edge <$> windows2 user in
  ∃ order kept ignored broken,
    resolve_channel_priority user discovered relation_edges = Some (mkResolution order kept ignored broken)
    ∧ NoDup order
    ∧ (∀ k, k ∈ order ↔ k ∈ discovered ∨ endpoint (kept ++ broken) k)
    ∧ kept ++ broken ++ ignored ≡ₚ base ++ relation_edges
    ∧ (∀ e, e ∈ broken → rtc (outranks kept) (edge_to e) (edge_from e))
    ∧ (∀ e, e ∈ ignored → e ∈ relation_edges ∧ contradicts_user user e)
    ∧ (NoDup user →
         (∃ related, kept = base ++ related ∧ related ++ broken ++ ignored ≡ₚ relation_edges)
         ∧ (∀ e, e ∈ kept → before order (edge_from e) (edge_to e))
         ∧ (∀ a b, before user a b → before order a b)
         ∧ ∀ e, e ∈ relation_edges → e ∈ ignored ↔ contradicts_user user e).
Proof.
  intros Hne Hsrc base. unfold resolve_channel_priority. rewrite bool_decide_false by done.
  destruct (graph_build_spec user relation_edges) as (acc & ign & -> & Hperm & Hign & Hacc).
  destruct (topo_result_spec user discovered acc) as (order & kept & broken & -> & Hndo & Hin & Hp & Hb & Hexact).
  { rewrite Forall_forall in *. intros e He. apply Hsrc. rewrite <-Hperm. set_solver. }
  fold base in Hp, Hexact. rewrite Forall_forall in Hign.
  exists order, kept, ign, broken. cbn [mbind option_bind]. split; [done|]. split; [done|]. split; [done|].
  assert (kept ++ broken ++ ign ≡ₚ base ++ relation_edges) as Hall
    by by rewrite (assoc_L (++)), Hp, <-(assoc_L (++)), Hperm.
  split; [exact Hall|]. split; [done|]. split.
  { intros e He. split; [rewrite <-Hperm; set_solver|by apply Hign]. }
  intros Hnd. destruct (Hexact Hnd) as [[related ->] Hedges]. split; [|split; [done|split]].
  - exists related. split; [done|]. rewrite <-(assoc_L (++)) in Hall. by apply Permutation_app_inv_l in Hall.
  - intros a b. apply before_chain; [done|]. intros x y Hxy. apply (Hedges (user_edge (x, y))). set_solver.
  - intros e He. split; [apply Hign|]. intros Hc. rewrite <-Hperm in He.
    apply elem_of_app in He as [He|He]; [by apply (Hacc Hnd) in He|done].
Qed.

(** There is always an answer. *)
Lemma resolve_total (user discovered : list K) relation_edges :
  Forall (λ e, edge_source e ≠ User) relation_edges →
  ∃ r, resolve_channel_priority user discovered relation_edges = Some r.
Proof.
  intros Hsrc. unfold resolve_channel_priority. case_bool_decide; [eauto|].
  destruct (graph_build_spec user relation_edges) as (acc & ign & -> & Hperm & _).
  destruct (topo_result_spec user discovered acc) as (order & kept & broken & -> & _).
  { rewrite Forall_forall in *. intros e He. apply Hsrc. rewrite <-Hperm. set_solver. }
  cbn [mbind option_bind]. eauto.
Qed.
End resolve.

(** Two channels of the user, a base in front of the first, a cycle and a contradiction *)
Definition sample_relations : list (PriorityEdge nat) :=
  [mkPriorityEdge 4 1 Base; mkPriorityEdge 2 1 Override; mkPriorityEdge 2 4 Override; mkPriorityEdge 5 5 Base].
Lemma resolve_channel_priority_correct_witness :
  NoDup [1; 2] ∧ ∃ order kept ignored broken,
    resolve_channel_priority [1; 2] [1; 2; 4] sample_relations = Some (mkResolution order kept ignored broken)
    ∧ order = [5; 4; 1; 2] ∧ ignored = [mkPriorityEdge 2 1 Override]
    ∧ broken = [mkPriorityEdge 2 4 Override; mkPriorityEdge 5 5 Base] ∧ before order 4 1.
Proof.
  assert (NoDup [1; 2]) as Hnd by (apply (bool_decide_unpack _); reflexivity). split; [exact Hnd|].
  destruct (resolve_channel_priority_correct [1; 2] [1; 2; 4] sample_relations) as (order & kept & ignored & broken & E & H).
  - discriminate.
  - repeat constructor; discriminate.
  - pose proof E as E'. vm_compute in E'. exists order, kept, ignored, broken. injection E' as <- <- <- <-.
    split; [exact E|]. repeat split. destruct H as (_ & _ & _ & _ & _ & H). destruct (H Hnd) as (_ & He & _).
    apply (He (mkPriorityEdge 4 1 Base)). set_solver.
Defined.

(** For the order the channels of the user have to be distinct: a repeated channel that is more than two steps
    away makes a cycle that is not found, and an edge is kept that the order does not respect. *)
Lemma repeated_channel_cycle :
  ∃ r, resolve_channel_priority [1; 2; 3; 1] [1; 2; 3] [] = Some r
    ∧ r_order r = [1; 2; 3] ∧ broken_cycle_edges r = [] ∧ mkPriorityEdge 3 1 User ∈ r_edges r.
Proof. eexists. split; [vm_compute; reflexivity|]. repeat split. cbn [r_edges]. set_solver. Qed.
