(* ===== verification/ChannelExpander.v ===== *)
(** * Following the relations between channels

    [rattler_repodata_gateway/src/gateway/channel_expander.rs]: the state of a query that
    follows the relations which channels declare ([rattler_conda_types/src/repo_data/mod.rs]),
    the discovery of further channels as their subdirectories arrive, the warnings, and the
    priority order at the end.

    A method takes the expander and returns it changed; after an error the query is
    abandoned, so an error carries no state.  [None] is fuel that has run out
    ([relax_fuel] is enough) or an index out of range.  A reporter is the list of the warnings
    it was notified of.  The order in which a map is iterated never shows: the code sorts what
    it collects. *)
From stdpp Require Import gmap sets list.
From S2P Require Import Prelude Externs TextOps Redaction FileUrl VersionSpec Subdir Archive MatchSpecs Channels.
From S2P Require Import ChannelRelations.

Local Notation text := (list N).

(** ** URLs of channels as keys *)
Section keys.
Context `{UC : UrlCrate}.
#[export] Instance url_as_str_inj : Inj (=) (=) url_as_str.
Proof. intros u v E. pose proof (url_parse_as_str u) as Hu. rewrite E, url_parse_as_str in Hu. by injection Hu. Qed.
#[export] Instance url_eq_dec : EqDecision Url := inj_eq_dec url_as_str.
#[export] Program Instance url_countable : Countable Url := inj_countable url_as_str url_parse _.
Next Obligation. intros u. apply url_parse_as_str. Qed.
End keys.

(** The text of the error of [Url::join] *)
Class JoinErrors `{UC : UrlCrate} := { join_error : Url → text → text }.

(** ** Definitions: data *)
Inductive ChannelRelationsMode : Type := Disabled | Warn | Strict.
#[export] Instance channel_relations_mode_eq_dec : EqDecision ChannelRelationsMode.
Proof. solve_decision. Defined.

Record ChannelRelations := mkChannelRelations { cr_base : option text; cr_overrides : option text }.
#[export] Instance channel_relations_eq_dec : EqDecision ChannelRelations.
Proof. solve_decision. Defined.
(** [ChannelRelations::is_empty] *)
Definition relations_is_empty (self : ChannelRelations) : bool :=
  bool_decide (cr_base self = None) && bool_decide (cr_overrides self = None).

Section expander.
Context `{UC : UrlCrate} `{UP : !UrlPaths} `{JE : !JoinErrors} `{UN : Unicode}.

Notation ChannelUrl := Url.

Inductive ChannelRelationsWarning : Type :=
| InvalidReferenceSyntax (declaring : ChannelUrl) (reference : text)
| UnparsableReference (declaring : ChannelUrl) (reference error : text)
| BaseAndOverridesSameTarget (declaring target : ChannelUrl)
| SelfRelation (declaring : ChannelUrl) (field : text)
| MaxDepthExceeded (declaring : ChannelUrl) (reference : text) (max_depth : nat)
| DiscoveryFetchFailed (url : ChannelUrl) (platform : Subdir) (error : text)
| UserOrderConflict (from to : ChannelUrl)
| CycleBroken (broken_edges : list (ChannelUrl * ChannelUrl)).

Definition quote (s : text) : text := txt "`" ++ s ++ txt "`".
Definition format_broken_edges (edges : list (ChannelUrl * ChannelUrl)) : text :=
  join (txt ", ") ((λ e, quote (url_as_str e.1) ++ txt " -> " ++ quote (url_as_str e.2)) <$> edges).

Definition warning_display (w : ChannelRelationsWarning) : text :=
  match w with
  | InvalidReferenceSyntax declaring reference =>
      txt "malformed CEP-42 reference " ++ quote reference ++ txt " declared by " ++ quote (url_as_str declaring)
      ++ txt ": must be a relative path starting with " ++ quote (txt "../")
  | UnparsableReference declaring reference error =>
      txt "failed to resolve CEP-42 channel reference " ++ quote reference ++ txt " against "
      ++ quote (url_as_str declaring) ++ txt ": " ++ error
  | BaseAndOverridesSameTarget declaring target =>
      txt "channel " ++ quote (url_as_str declaring) ++ txt " declares the same target " ++ quote (url_as_str target)
      ++ txt " as both " ++ quote (txt "base") ++ txt " and " ++ quote (txt "overrides")
  | SelfRelation declaring field =>
      txt "channel " ++ quote (url_as_str declaring) ++ txt " declares itself as " ++ quote field
  | MaxDepthExceeded declaring reference max_depth =>
      txt "CEP-42 relation chain exceeded " ++ quote (txt "channel_relations_max_depth") ++ txt " ("
      ++ u64_display (N.of_nat max_depth) ++ txt ") at " ++ quote (url_as_str declaring) ++ txt "; the reference "
      ++ quote reference ++ txt " was not followed"
  | DiscoveryFetchFailed url platform error =>
      txt "failed to fetch transitively discovered channel " ++ quote (url_as_str url) ++ txt " for platform "
      ++ quote (subdir_as_str platform) ++ txt ": " ++ error
  | UserOrderConflict from to =>
      txt "CEP-42 relation " ++ quote (url_as_str from) ++ txt " -> " ++ quote (url_as_str to)
      ++ txt " contradicts the explicit channel order and was ignored"
  | CycleBroken broken_edges =>
      txt "dropped " ++ u64_display (N.of_nat (length broken_edges)) ++ txt " CEP-42 relation edge(s) to break a cycle: "
      ++ format_broken_edges broken_edges
  end.

(** [GatewayError], as far as a fetch can fail; a variant of which only the text is used
    is that text. *)
Inductive GatewayError : Type :=
| ChannelRelationsError (message : text)
| SubdirNotFoundError (message : text)
| OtherFetchError (message : text).
Definition gateway_error_display (e : GatewayError) : text :=
  match e with
  | ChannelRelationsError message => txt "malformed CEP-42 channel relations: " ++ message
  | SubdirNotFoundError message | OtherFetchError message => message
  end.

Record ChannelExpander := mkChannelExpander {
  ce_mode : ChannelRelationsMode;
  ce_max_depth : nat;
  ce_platforms : list Subdir;
  ce_user_channels : list ChannelUrl;
  ce_discovered : gmap ChannelUrl Channel;
  ce_depth_of : gmap ChannelUrl nat;
  ce_relations_of : gmap ChannelUrl (list ChannelRelations);
  ce_edges : list (PriorityEdge ChannelUrl);
  ce_warnings : list ChannelRelationsWarning;
  ce_emitted : gset text;
  ce_reporter : option (list ChannelRelationsWarning)
}.

Definition expander_new (mode : ChannelRelationsMode) (max_depth : nat) (platforms : list Subdir)
    (reporter : option (list ChannelRelationsWarning)) : ChannelExpander :=
  mkChannelExpander mode max_depth platforms [] ∅ ∅ ∅ [] [] ∅ reporter.

(** Updates of the fields *)
Definition with_channels (users : list ChannelUrl) (discovered : gmap ChannelUrl Channel) (depth_of : gmap ChannelUrl nat)
    (s : ChannelExpander) : ChannelExpander :=
  mkChannelExpander (ce_mode s) (ce_max_depth s) (ce_platforms s) users discovered depth_of (ce_relations_of s)
    (ce_edges s) (ce_warnings s) (ce_emitted s) (ce_reporter s).
Definition with_relations (relations_of : gmap ChannelUrl (list ChannelRelations)) (s : ChannelExpander) : ChannelExpander :=
  mkChannelExpander (ce_mode s) (ce_max_depth s) (ce_platforms s) (ce_user_channels s) (ce_discovered s) (ce_depth_of s)
    relations_of (ce_edges s) (ce_warnings s) (ce_emitted s) (ce_reporter s).
Definition with_edges (edges : list (PriorityEdge ChannelUrl)) (s : ChannelExpander) : ChannelExpander :=
  mkChannelExpander (ce_mode s) (ce_max_depth s) (ce_platforms s) (ce_user_channels s) (ce_discovered s) (ce_depth_of s)
    (ce_relations_of s) edges (ce_warnings s) (ce_emitted s) (ce_reporter s).
Definition with_warnings (warnings : list ChannelRelationsWarning) (emitted : gset text)
    (reporter : option (list ChannelRelationsWarning)) (s : ChannelExpander) : ChannelExpander :=
  mkChannelExpander (ce_mode s) (ce_max_depth s) (ce_platforms s) (ce_user_channels s) (ce_discovered s) (ce_depth_of s)
    (ce_relations_of s) (ce_edges s) warnings emitted reporter.

Definition enabled (self : ChannelExpander) : bool :=
  negb (bool_decide (ce_mode self = Disabled)) && (0 <? ce_max_depth self)%nat.
Definition strict (self : ChannelExpander) : bool := bool_decide (ce_mode self = Strict).
Definition has_observed_relations (self : ChannelExpander) : bool := negb (bool_decide (ce_edges self = [])).

(** ** Definitions: warnings *)
Definition push_warning (warning : ChannelRelationsWarning) (self : ChannelExpander) : ChannelExpander :=
  if bool_decide (warning_display warning ∈ ce_emitted self) then self
  else with_warnings (ce_warnings self ++ [warning]) ({[ warning_display warning ]} ∪ ce_emitted self)
         ((λ l, l ++ [warning]) <$> ce_reporter self) self.
Definition report (warning : ChannelRelationsWarning) (self : ChannelExpander) : outcome GatewayError ChannelExpander :=
  if strict self then Some (Err (ChannelRelationsError (warning_display warning)))
  else Some (Ok (push_warning warning self)).
Definition take_warnings (self : ChannelExpander) : list ChannelRelationsWarning * ChannelExpander :=
  (ce_warnings self, with_warnings [] (ce_emitted self) (ce_reporter self) self).

(** ** Definitions: references *)

Definition is_valid_cep42_reference (reference : text) : bool :=
  if bool_decide (reference = []) then false
  else if negb (str_starts_with reference (txt "../")) && negb (bool_decide (reference = txt "..")) then false
  else if contains_any (txt "?#") reference then false
  else if str_contains reference (txt "://") then false
  else if contains_any [c_backslash] reference then false
  else
    let segments := split_by (λ c, c =? c_slash)%N reference in
    forallb id (imap (λ i segment, negb (bool_decide (segment = [])) || (i =? length segments - 1)%nat) segments).

Inductive ResolveError : Type := InvalidSyntax | Unparsable (error : text).
Definition validate_and_resolve (declaring : ChannelUrl) (reference : text) : result ResolveError ChannelUrl :=
  let trimmed := trim reference in
  if negb (is_valid_cep42_reference trimmed) then Err InvalidSyntax
  else
    match url_join declaring trimmed with
    | Some joined => Ok (with_trailing_slash joined)
    | None => Err (Unparsable (join_error declaring trimmed))
    end.

Definition resolve_field (declaring : ChannelUrl) (reference : option text) (self : ChannelExpander)
  : outcome GatewayError (option ChannelUrl * ChannelExpander) :=
  match reference with
  | None => Some (Ok (None, self))
  | Some reference =>
      match validate_and_resolve declaring reference with
      | Ok url => Some (Ok (Some url, self))
      | Err InvalidSyntax => self ⇐ report (InvalidReferenceSyntax declaring reference) self; Some (Ok (None, self))
      | Err (Unparsable error) =>
          self ⇐ report (UnparsableReference declaring reference error) self; Some (Ok (None, self))
      end
  end.

(** [None] is [unreachable!]. *)
Definition field_name (source : EdgeSource) : option text :=
  match source with Base => Some (txt "base") | Override => Some (txt "overrides") | User => None end.

(** ** Definitions: discovery *)

(** [register_user_channel]; the base URL of a channel is kept as its text. *)
Definition register_user_channel (channel : Channel) (self : ChannelExpander)
  : option (ChannelUrl * Channel * ChannelExpander) :=
  url ← url_parse (ch_base_url channel);
  match ce_discovered self !! url with
  | Some existing => Some (url, existing, self)
  | None =>
      Some (url, channel,
        with_channels (ce_user_channels self ++ [url]) (<[url := channel]> (ce_discovered self))
          (<[url := 0]> (ce_depth_of self)) self)
  end.

(** The channels of the user, in their order *)
Fixpoint register_all (channels : list Channel) (self : ChannelExpander) : option ChannelExpander :=
  match channels with
  | [] => Some self
  | channel :: channels => '(_, _, self) ← register_user_channel channel self; register_all channels self
  end.

(** What [relax] passes along: the channels that are new and those to look at again. *)
Record Frontier := mkFrontier {
  fr_expander : ChannelExpander;
  fr_new : list (ChannelUrl * Channel);
  fr_worklist : list ChannelUrl
}.

Definition relation_edge (source : EdgeSource) (declaring target : ChannelUrl) : option (PriorityEdge ChannelUrl) :=
  match source with
  | Base => Some (mkPriorityEdge target declaring source)
  | Override => Some (mkPriorityEdge declaring target source)
  | User => None
  end.
Definition add_edge (edge : PriorityEdge ChannelUrl) (self : ChannelExpander) : ChannelExpander :=
  if bool_decide (edge ∈ ce_edges self) then self else with_edges (ce_edges self ++ [edge]) self.

(** What is known about the target of a reference *)
Definition reach_target (target : ChannelUrl) (new_depth : nat) (fr : Frontier) : Frontier :=
  let s := fr_expander fr in
  match ce_depth_of s !! target with
  | Some known =>
      if (new_depth <? known)%nat then
        mkFrontier (with_channels (ce_user_channels s) (ce_discovered s) (<[target := new_depth]> (ce_depth_of s)) s)
          (fr_new fr) (target :: fr_worklist fr)
      else fr
  | None =>
      let channel := channel_from_url target in
      mkFrontier (with_channels (ce_user_channels s) (<[target := channel]> (ce_discovered s))
                   (<[target := new_depth]> (ce_depth_of s)) s)
        (fr_new fr ++ [(target, channel)]) (fr_worklist fr)
  end.

(** The loop of [derive_edges] over the two fields *)
Definition derive_edge (declaring : ChannelUrl) (depth : nat) (source : EdgeSource) (target : option ChannelUrl)
    (fr : Frontier) : outcome GatewayError Frontier :=
  match target with
  | None => Some (Ok fr)
  | Some target =>
      let s := fr_expander fr in
      if bool_decide (target = declaring) then
        match field_name source with
        | None => None
        | Some field =>
            s ⇐ report (SelfRelation declaring field) s; Some (Ok (mkFrontier s (fr_new fr) (fr_worklist fr)))
        end
      else if (ce_max_depth s <? depth + 1)%nat then Some (Ok fr)
      else
        match relation_edge source declaring target with
        | None => None
        | Some edge =>
            Some (Ok (reach_target target (depth + 1) (mkFrontier (add_edge edge s) (fr_new fr) (fr_worklist fr))))
        end
  end.

Definition derive_edges (declaring : ChannelUrl) (depth : nat) (relations : ChannelRelations) (fr : Frontier)
  : outcome GatewayError Frontier :=
  '(base, s) ⇐ resolve_field declaring (cr_base relations) (fr_expander fr);
  '(overrides, s) ⇐ resolve_field declaring (cr_overrides relations) s;
  match base, overrides with
  | Some b, Some o =>
      if bool_decide (b = o) then
        s ⇐ report (BaseAndOverridesSameTarget declaring b) s; Some (Ok (mkFrontier s (fr_new fr) (fr_worklist fr)))
      else
        fr ⇐ derive_edge declaring depth Base base (mkFrontier s (fr_new fr) (fr_worklist fr));
        derive_edge declaring depth Override overrides fr
  | _, _ =>
      fr ⇐ derive_edge declaring depth Base base (mkFrontier s (fr_new fr) (fr_worklist fr));
      derive_edge declaring depth Override overrides fr
  end.

(** The loop over the entries of a channel *)
Fixpoint derive_all (declaring : ChannelUrl) (depth : nat) (entries : list ChannelRelations) (fr : Frontier)
  : outcome GatewayError Frontier :=
  match entries with
  | [] => Some (Ok fr)
  | relations :: entries => fr ⇐ derive_edges declaring depth relations fr; derive_all declaring depth entries fr
  end.

(** [relax]; the worklist has its end at the head. *)
Fixpoint relax (fuel : nat) (fr : Frontier) : outcome GatewayError Frontier :=
  match fuel with
  | 0 => None
  | S f =>
      match fr_worklist fr with
      | [] => Some (Ok fr)
      | declaring :: worklist =>
          let s := fr_expander fr in
          let fr := mkFrontier s (fr_new fr) worklist in
          match ce_relations_of s !! declaring with
          | None => relax f fr
          | Some entries =>
              let depth := default 0 (ce_depth_of s !! declaring) in
              fr ⇐ derive_all declaring depth entries fr; relax f fr
          end
      end
  end.
(** Every channel that is known or declared gets each depth at most once. *)
Definition relax_fuel (self : ChannelExpander) : nat :=
  2 + S (ce_max_depth self)
      * (size (ce_depth_of self) + 2 * sum_list (length ∘ snd <$> map_to_list (ce_relations_of self))).

Definition strict_cycle_check (self : ChannelExpander) : outcome GatewayError () :=
  match resolve_channel_priority (ce_user_channels self) (ce_user_channels self) (ce_edges self) with
  | None => None
  | Some resolution =>
      if bool_decide (broken_cycle_edges resolution = []) then Some (Ok ())
      else
        let edges := (λ e, (edge_from e, edge_to e)) <$> broken_cycle_edges resolution in
        Some (Err (ChannelRelationsError (txt "cycle detected in CEP-42 channel relations; would need to drop: "
                                          ++ format_broken_edges edges)))
  end.

(** [observe] *)
Definition observe (channel_url : ChannelUrl) (relations : option ChannelRelations) (self : ChannelExpander)
  : outcome GatewayError (list (ChannelUrl * Channel * Subdir) * ChannelExpander) :=
  if negb (enabled self) then Some (Ok ([], self))
  else
    match relations with
    | None => Some (Ok ([], self))
    | Some relations =>
        if relations_is_empty relations then Some (Ok ([], self))
        else
          let entries := default [] (ce_relations_of self !! channel_url) in
          if bool_decide (relations ∈ entries) then
            Some (Ok ([], with_relations (<[channel_url := entries]> (ce_relations_of self)) self))
          else
            let self := with_relations (<[channel_url := entries ++ [relations]]> (ce_relations_of self)) self in
            let edges_before := length (ce_edges self) in
            fr ⇐ relax (relax_fuel self) (mkFrontier self [] [channel_url]);
            let self := fr_expander fr in
            _ ⇐ (if strict self && (edges_before <? length (ce_edges self))%nat then strict_cycle_check self
                 else Some (Ok ()));
            Some (Ok (fr_new fr ≫= (λ c, (λ platform, (c.1, c.2, platform)) <$> ce_platforms self), self))
    end.

(** ** Definitions: the end of the query *)

Definition url_cmp (a b : ChannelUrl) : comparison := str_cmp (url_as_str a) (url_as_str b).
Definition edge_source_rank (source : EdgeSource) : nat := match source with User => 0 | Base => 1 | Override => 2 end.
Definition priority_edge_cmp (a b : PriorityEdge ChannelUrl) : comparison :=
  then_with (url_cmp (edge_from a) (edge_from b))
    (then_with (url_cmp (edge_to a) (edge_to b)) (Nat.compare (edge_source_rank (edge_source a)) (edge_source_rank (edge_source b)))).

(** The target of a reference, when it is valid *)
Definition resolved (declaring : ChannelUrl) (reference : option text) : option ChannelUrl :=
  reference ← reference; match validate_and_resolve declaring reference with Ok url => Some url | Err _ => None end.

(** The loop of [report_depth_refusals] over the two references *)
Definition report_refusal (declaring : ChannelUrl) (reference : option text) (self : ChannelExpander)
  : outcome GatewayError ChannelExpander :=
  match reference, resolved declaring reference with
  | Some reference, Some target =>
      if bool_decide (target = declaring) then Some (Ok self)
      else report (MaxDepthExceeded declaring reference (ce_max_depth self)) self
  | _, _ => Some (Ok self)
  end.
Definition report_refusals (declaring : ChannelUrl) (relations : ChannelRelations) (self : ChannelExpander)
  : outcome GatewayError ChannelExpander :=
  match resolved declaring (cr_base relations), resolved declaring (cr_overrides relations) with
  | Some b, Some o =>
      if bool_decide (b = o) then Some (Ok self)
      else
        self ⇐ report_refusal declaring (cr_base relations) self; report_refusal declaring (cr_overrides relations) self
  | _, _ =>
      self ⇐ report_refusal declaring (cr_base relations) self; report_refusal declaring (cr_overrides relations) self
  end.
(** A loop over a body that may fail *)
Fixpoint for_try {A} (l : list A) (f : A → ChannelExpander → outcome GatewayError ChannelExpander) (self : ChannelExpander)
  : outcome GatewayError ChannelExpander :=
  match l with
  | [] => Some (Ok self)
  | x :: l => self ⇐ f x self; for_try l f self
  end.
Definition is_refused (self : ChannelExpander) (url : ChannelUrl) : bool :=
  (ce_max_depth self <? default 0 (ce_depth_of self !! url) + 1)%nat.
Definition report_depth_refusals (self : ChannelExpander) : outcome GatewayError ChannelExpander :=
  let refused := List.filter (λ x, is_refused self x.1) (map_to_list (ce_relations_of self)) in
  for_try (sort_by (λ a b, cmp_leb url_cmp a.1 b.1) refused)
    (λ x self, for_try x.2 (report_refusals x.1) self) self.

(** The channels and the edges in their canonical order *)
Definition canonical_nodes (self : ChannelExpander) : list ChannelUrl :=
  ce_user_channels self
  ++ sort_by (cmp_leb url_cmp)
       (filter (λ url, url ∉ ce_user_channels self) (map_to_list (ce_discovered self)).*1).
Definition canonical_edges (self : ChannelExpander) : list (PriorityEdge ChannelUrl) :=
  sort_by (cmp_leb priority_edge_cmp) (ce_edges self).

Definition finalize (self : ChannelExpander) : outcome GatewayError (Resolution ChannelUrl * ChannelExpander) :=
  self ⇐ report_depth_refusals self;
  match resolve_channel_priority (ce_user_channels self) (canonical_nodes self) (canonical_edges self) with
  | None => None
  | Some resolution =>
      let self := foldl (λ self edge, push_warning (UserOrderConflict (edge_from edge) (edge_to edge)) self)
                    self (ignored_edges resolution) in
      if bool_decide (broken_cycle_edges resolution = []) then Some (Ok (resolution, self))
      else
        self ⇐ report (CycleBroken ((λ e, (edge_from e, edge_to e)) <$> broken_cycle_edges resolution)) self;
        Some (Ok (resolution, self))
  end.

(** *** [anchors] *)

Definition discovery_arc (edge : PriorityEdge ChannelUrl) : option (ChannelUrl * ChannelUrl) :=
  match edge_source edge with
  | Base => Some (edge_to edge, edge_from edge)
  | Override => Some (edge_from edge, edge_to edge)
  | User => None
  end.
Definition arcs_of (self : ChannelExpander) : gmap ChannelUrl (list ChannelUrl) :=
  foldl (λ m edge, match discovery_arc edge with
                   | Some (declaring, target) => <[declaring := default [] (m !! declaring) ++ [target]]> m
                   | None => m
                   end) ∅ (ce_edges self).

(** The loop over the targets of a channel *)
Definition claim_targets (user_set : gset ChannelUrl) (user : ChannelUrl) (targets : list ChannelUrl)
    (s : gmap ChannelUrl ChannelUrl * list ChannelUrl) : gmap ChannelUrl ChannelUrl * list ChannelUrl :=
  foldl (λ s target,
    let '(anchors, stack) := s in
    if bool_decide (target ∈ user_set) then s
    else match anchors !! target with
         | Some _ => s
         | None => (<[target := user]> anchors, target :: stack)
         end) s targets.
Fixpoint claim_loop (fuel : nat) (adjacency : gmap ChannelUrl (list ChannelUrl)) (user_set : gset ChannelUrl)
    (user : ChannelUrl) (anchors : gmap ChannelUrl ChannelUrl) (stack : list ChannelUrl)
  : option (gmap ChannelUrl ChannelUrl) :=
  match fuel with
  | 0 => None
  | S f =>
      match stack with
      | [] => Some anchors
      | current :: stack =>
          let '(anchors, stack) := claim_targets user_set user (default [] (adjacency !! current)) (anchors, stack) in
          claim_loop f adjacency user_set user anchors stack
      end
  end.
(** Every channel that is the target of an edge goes on the stack at most once. *)
Definition anchors (user_priority : list ChannelUrl) (self : ChannelExpander) : option (gmap ChannelUrl ChannelUrl) :=
  for_opt user_priority (λ user anchors,
    claim_loop (3 + length (ce_edges self)) (arcs_of self) (list_to_set (ce_user_channels self)) user anchors [user]) ∅.
End expander.
