(* ===== verification/ExpanderTheorems.v ===== *)
(** * The invariant of the channel expander

    What each operation of [ChannelExpander] does to the state, the warnings apart, the
    invariant of the discovery, the fuel of its worklist, and what one observation adds. *)
From stdpp Require Import gmap sets list relations.
From S2P Require Import Prelude Externs TextOps Redaction FileUrl VersionSpec Subdir Archive MatchSpecs Channels.
From S2P Require Import ChannelRelations RelationsTheorems ChannelExpander.

Local Notation text := (list N).

Section theorems.
Context `{UC : UrlCrate} `{UP : !UrlPaths} `{JE : !JoinErrors} `{UN : Unicode}.
Local Notation ChannelUrl := Url.

(** ** The core of the state: all but the warnings *)
Definition erase (s : ChannelExpander) : ChannelExpander := with_warnings [] ∅ None s.
Definition erase_fr (fr : Frontier) : Frontier := mkFrontier (erase (fr_expander fr)) (fr_new fr) (fr_worklist fr).

Lemma erase_push w s : erase (push_warning w s) = erase s.
Proof. unfold push_warning. by case_bool_decide. Qed.

Lemma report_Ok w s s' : report w s = Some (Ok s') → erase s' = erase s.
Proof. unfold report. destruct (strict s); [done|]. intros [= <-]. apply erase_push. Qed.
Lemma report_lenient w s : strict s = false → ∃ s', report w s = Some (Ok s').
Proof. unfold report. intros ->. eauto. Qed.
Lemma report_some w s : ∃ r, report w s = Some r.
Proof. unfold report. destruct (strict s); eauto. Qed.

Lemma strict_erase s s' : erase s' = erase s → strict s' = strict s.
Proof. intros E. by apply (f_equal strict) in E. Qed.

(** ** References *)

(** What a declaration refers to, malformed references left out *)
Definition declared (u : ChannelUrl) (relations : ChannelRelations) : list (EdgeSource * ChannelUrl) :=
  match resolved u (cr_base relations), resolved u (cr_overrides relations) with
  | Some b, Some o =>
      if bool_decide (b = o) then []
      else filter (λ x, x.2 ≠ u) [(Base, b); (Override, o)]
  | Some b, None => filter (λ x, x.2 ≠ u) [(Base, b)]
  | None, Some o => filter (λ x, x.2 ≠ u) [(Override, o)]
  | None, None => []
  end.

Definition edge_of (source : EdgeSource) (declaring target : ChannelUrl) : PriorityEdge ChannelUrl :=
  match source with
  | Base => mkPriorityEdge target declaring source
  | _ => mkPriorityEdge declaring target source
  end.
Definition follow (declaring : ChannelUrl) (depth : nat) (fr : Frontier) (x : EdgeSource * ChannelUrl) : Frontier :=
  if (ce_max_depth (fr_expander fr) <? depth + 1)%nat then fr
  else reach_target x.2 (depth + 1)
         (mkFrontier (add_edge (edge_of x.1 declaring x.2) (fr_expander fr)) (fr_new fr) (fr_worklist fr)).

Lemma follow_erase u d fr x : erase_fr (follow u d fr x) = follow u d (erase_fr fr) x.
Proof.
  destruct fr as [[mode md pl us di de re ed wa em rp] new wl]. unfold follow, reach_target, add_edge, erase_fr, erase. simpl.
  destruct (_ <? _)%nat; [done|]. case_bool_decide; simpl; (destruct (de !! x.2); [|done]); simpl; by destruct (_ <? _)%nat.
Qed.

(** What no reference changes *)
Definition fixed (s : ChannelExpander) :=
  (ce_mode s, ce_max_depth s, ce_platforms s, ce_user_channels s, ce_relations_of s).

Lemma follow_fixed u d fr x : fixed (fr_expander (follow u d fr x)) = fixed (fr_expander fr).
Proof.
  unfold follow, reach_target. cbn [fr_expander]. destruct (_ <? _)%nat; [done|].
  assert (fixed (add_edge (edge_of x.1 u x.2) (fr_expander fr)) = fixed (fr_expander fr)) as E
    by (unfold add_edge; by case_bool_decide).
  destruct (ce_depth_of _ !! x.2); [|exact E]. by destruct (_ <? _)%nat.
Qed.
Lemma follow_all_fixed u d fr l : fixed (fr_expander (foldl (follow u d) fr l)) = fixed (fr_expander fr).
Proof. revert fr. induction l as [|x l IH]; intros fr; [done|]. cbn [foldl]. by rewrite IH, follow_fixed. Qed.
Lemma fixed_erase s : fixed (erase s) = fixed s.
Proof. done. Qed.
Lemma strict_fixed s s' : fixed s = fixed s' → strict s = strict s'.
Proof. unfold fixed, strict. by intros [= -> _ _ _ _]. Qed.

Lemma resolve_field_spec u reference s :
  ∃ r, resolve_field u reference s = Some r
    ∧ (strict s = false → ∃ x, r = Ok x)
    ∧ ∀ url s', r = Ok (url, s') → url = resolved u reference ∧ erase s' = erase s.
Proof.
  unfold resolve_field, resolved. destruct reference as [reference|]; cbn [mbind option_bind].
  2: { eexists; split; [done|]. split; [eauto|]. by intros url s' [= <- <-]. }
  destruct (validate_and_resolve u reference) as [url|[|e]].
  - eexists; split; [done|]. split; [eauto|]. by intros url' s' [= <- <-].
  - destruct (report_some (InvalidReferenceSyntax u reference) s) as [[s1|e] E]; rewrite E; cbn [outcome_bind].
    + eexists; split; [done|]. split; [eauto|]. intros url' s' [= <- <-]. split; [done|]. by eapply report_Ok.
    + eexists; split; [done|]. split; [|done]. intros Hs. destruct (report_lenient (InvalidReferenceSyntax u reference) s Hs). congruence.
  - destruct (report_some (UnparsableReference u reference e) s) as [[s1|e'] E]; rewrite E; cbn [outcome_bind].
    + eexists; split; [done|]. split; [eauto|]. intros url' s' [= <- <-]. split; [done|]. by eapply report_Ok.
    + eexists; split; [done|]. split; [|done]. intros Hs. destruct (report_lenient (UnparsableReference u reference e) s Hs). congruence.
Qed.

(** One field: the targets it leads to *)
Definition target_list (u : ChannelUrl) (source : EdgeSource) (target : option ChannelUrl) : list (EdgeSource * ChannelUrl) :=
  match target with Some t => filter (λ x, x.2 ≠ u) [(source, t)] | None => [] end.

Lemma derive_edge_spec u d source target fr :
  source ≠ User →
  ∃ r, derive_edge u d source target fr = Some r
    ∧ (strict (fr_expander fr) = false → ∃ x, r = Ok x)
    ∧ ∀ fr', r = Ok fr' → erase_fr fr' = foldl (follow u d) (erase_fr fr) (target_list u source target).
Proof.
  intros Hsrc. unfold derive_edge, target_list. destruct target as [t|].
  2: { eexists; split; [done|]. split; [eauto|]. by intros fr' [= <-]. }
  case_bool_decide as Ht.
  - rewrite filter_cons_False by (simpl; naive_solver). cbn [foldl filter list_filter].
    destruct (field_name source) as [field|] eqn:Ef; [|by destruct source].
    destruct (report_some (SelfRelation u field) (fr_expander fr)) as [[s1|e] E]; rewrite E; cbn [outcome_bind].
    + eexists; split; [done|]. split; [eauto|]. intros fr' [= <-]. unfold erase_fr. cbn [fr_expander fr_new fr_worklist].
      by rewrite (report_Ok _ _ _ E).
    + eexists; split; [done|]. split; [|done]. intros Hs. destruct (report_lenient (SelfRelation u field) _ Hs). congruence.
  - rewrite filter_cons_True by done. cbn [foldl filter list_filter]. rewrite <-follow_erase. unfold follow. cbn [fst snd].
    destruct (_ <? _)%nat; [eexists; split; [done|]; split; [eauto|]; by intros fr' [= <-]|].
    destruct source; [done|..]; cbn [relation_edge]; (eexists; split; [done|]; split; [eauto|]; by intros fr' [= <-]).
Qed.

Lemma outcome_chain {A B} (m : outcome GatewayError A) (k : A → outcome GatewayError B) (lenient : Prop) (P : A → Prop) (Q : B → Prop) :
  (∃ r, m = Some r ∧ (lenient → ∃ x, r = Ok x) ∧ ∀ x, r = Ok x → P x) →
  (∀ x, P x → ∃ r, k x = Some r ∧ (lenient → ∃ y, r = Ok y) ∧ ∀ y, r = Ok y → Q y) →
  ∃ r, outcome_bind m k = Some r ∧ (lenient → ∃ y, r = Ok y) ∧ ∀ y, r = Ok y → Q y.
Proof.
  intros (r & -> & Hl & HP) Hk. destruct r as [x|e]; cbn [outcome_bind].
  - apply Hk. by apply HP.
  - eexists; split; [done|]. split; [|done]. intros H. by destruct (Hl H).
Qed.

(** *** A declaration is followed reference by reference *)
Lemma derive_edges_spec u d relations fr :
  ∃ r, derive_edges u d relations fr = Some r
    ∧ (strict (fr_expander fr) = false → ∃ x, r = Ok x)
    ∧ ∀ fr', r = Ok fr' → erase_fr fr' = foldl (follow u d) (erase_fr fr) (declared u relations).
Proof.
  unfold derive_edges.
  eapply (outcome_chain _ _ _ (λ x, x.1 = resolved u (cr_base relations) ∧ erase x.2 = erase (fr_expander fr))).
  { destruct (resolve_field_spec u (cr_base relations) (fr_expander fr)) as (r & E & H1 & H2).
    exists r. split; [done|]. split; [done|]. intros [url s'] Hr. by apply H2. }
  intros [base s] [Hbase Hs]. cbn [fst snd] in Hbase, Hs. subst base.
  eapply (outcome_chain _ _ _ (λ x, x.1 = resolved u (cr_overrides relations) ∧ erase x.2 = erase (fr_expander fr))).
  { destruct (resolve_field_spec u (cr_overrides relations) s) as (r & E & H1 & H2).
    exists r. split; [done|]. split; [rewrite <-(strict_erase _ _ Hs); done|]. intros [url s'] Hr. rewrite <-Hs. by apply H2. }
  intros [overrides s'] [Hover Hs']. cbn [fst snd] in Hover, Hs'. subst overrides.
  assert (erase_fr (mkFrontier s' (fr_new fr) (fr_worklist fr)) = erase_fr fr) as He by (unfold erase_fr; cbn; by rewrite Hs').
  assert (∀ b o, b = resolved u (cr_base relations) → o = resolved u (cr_overrides relations) →
    target_list u Base b ++ target_list u Override o = declared u relations →
    ∃ r, (fr ⇐ derive_edge u d Base b (mkFrontier s' (fr_new fr) (fr_worklist fr)); derive_edge u d Override o fr) = Some r
      ∧ (strict (fr_expander fr) = false → ∃ x, r = Ok x)
      ∧ ∀ fr', r = Ok fr' → erase_fr fr' = foldl (follow u d) (erase_fr fr) (declared u relations)) as Hboth.
  { intros b o -> -> Hd.
    eapply (outcome_chain _ _ _ (λ fr', erase_fr fr' = foldl (follow u d) (erase_fr fr) (target_list u Base (resolved u (cr_base relations))))).
    - destruct (derive_edge_spec u d Base (resolved u (cr_base relations)) (mkFrontier s' (fr_new fr) (fr_worklist fr)))
        as (r & E & H1 & H2); [done|]. exists r. split; [done|]. split; [rewrite <-(strict_erase _ _ Hs'); done|].
      intros x Hx. rewrite <-He. by apply H2.
    - intros fr1 Hfr1. destruct (derive_edge_spec u d Override (resolved u (cr_overrides relations)) fr1) as (r & E & H1 & H2); [done|].
      exists r. split; [done|]. split.
      + intros Hst. apply H1. rewrite <-Hst. apply strict_fixed.
        rewrite <-(fixed_erase (fr_expander fr1)). change (erase (fr_expander fr1)) with (fr_expander (erase_fr fr1)).
        by rewrite Hfr1, follow_all_fixed.
      + intros x Hx. rewrite (H2 x Hx), Hfr1, <-foldl_app. by rewrite Hd. }
  unfold declared in *. destruct (resolved u (cr_base relations)) as [b|], (resolved u (cr_overrides relations)) as [o|].
  2-4: by apply Hboth; [..|try done; by rewrite app_nil_r].
  case_bool_decide as Hbo.
  - destruct (report_some (BaseAndOverridesSameTarget u b) s') as [[s1|e] E]; rewrite E; cbn [outcome_bind].
    + eexists; split; [done|]. split; [eauto|]. intros fr' [= <-]. cbn [foldl]. rewrite <-He. unfold erase_fr. cbn.
      by rewrite (report_Ok _ _ _ E).
    + eexists; split; [done|]. split; [|done]. intros Hst.
      destruct (report_lenient (BaseAndOverridesSameTarget u b) s'); [|congruence].
      by rewrite (strict_erase _ _ Hs').
  - apply Hboth; [done..|]. cbn [target_list]. by rewrite <-filter_app.
Qed.

(** ** The invariant *)

Definition declares (R : gmap ChannelUrl (list ChannelRelations)) (u : ChannelUrl) (source : EdgeSource) (v : ChannelUrl) : Prop :=
  ∃ entries relations, R !! u = Some entries ∧ relations ∈ entries ∧ (source, v) ∈ declared u relations.
Definition refers R (u v : ChannelUrl) : Prop := ∃ source, declares R u source v.

(** The channels of [dirty] still have to be looked at. *)
Record expander_inv (dirty : list ChannelUrl) (s : ChannelExpander) : Prop := {
  ei_users u : u ∈ ce_user_channels s → ce_depth_of s !! u = Some 0;
  ei_depth v d : ce_depth_of s !! v = Some d →
    d ≤ ce_max_depth s ∧ ∃ u, u ∈ ce_user_channels s ∧ nsteps (refers (ce_relations_of s)) d u v;
  ei_closed u d source v : u ∉ dirty → ce_depth_of s !! u = Some d → d + 1 ≤ ce_max_depth s →
    declares (ce_relations_of s) u source v →
    (∃ d', ce_depth_of s !! v = Some d' ∧ d' ≤ d + 1) ∧ edge_of source u v ∈ ce_edges s;
  ei_edges e : e ∈ ce_edges s → ∃ u source v d, declares (ce_relations_of s) u source v ∧ e = edge_of source u v
    ∧ ce_depth_of s !! u = Some d ∧ d + 1 ≤ ce_max_depth s;
  ei_edges_nodup : NoDup (ce_edges s);
  ei_declaring : dom (ce_relations_of s) ⊆ dom (ce_depth_of s)
}.

(** Depths only decrease and edges only grow. *)
Definition closer (s s' : ChannelExpander) : Prop :=
  (∀ v d, ce_depth_of s !! v = Some d → ∃ d', ce_depth_of s' !! v = Some d' ∧ d' ≤ d) ∧ ce_edges s ⊆ ce_edges s'.
#[local] Instance closer_preorder : PreOrder closer.
Proof.
  split; [intros s; split; [eauto|done]|]. intros s1 s2 s3 [H1 H2] [H3 H4]. split; [|by etrans].
  intros v d (d1 & Hd1 & ?)%H1. apply H3 in Hd1 as (d2 & ? & ?). exists d2. split; [done|lia].
Qed.

Lemma declared_other u relations source v : (source, v) ∈ declared u relations → v ≠ u ∧ source ≠ User.
Proof.
  unfold declared. repeat case_match; try case_bool_decide; intros Hin; try (by apply elem_of_nil in Hin);
    apply list_elem_of_filter in Hin as [Hv Hin]; (split; [exact Hv|]); set_solver.
Qed.
Lemma declares_other R u source v : declares R u source v → v ≠ u ∧ source ≠ User.
Proof. intros (entries & relations & _ & _ & Hin). by eapply declared_other. Qed.

Lemma add_edge_fields e s :
  ce_depth_of (add_edge e s) = ce_depth_of s ∧ fixed (add_edge e s) = fixed s
  ∧ ce_discovered (add_edge e s) = ce_discovered s
  ∧ (NoDup (ce_edges s) → NoDup (ce_edges (add_edge e s))) ∧ ∀ x, x ∈ ce_edges (add_edge e s) ↔ x = e ∨ x ∈ ce_edges s.
Proof.
  unfold add_edge. case_bool_decide as He; [naive_solver|]. split; [done|]. split; [done|]. split; [done|].
  cbn [ce_edges with_edges]. split; [|set_solver]. intros Hnd. apply NoDup_app. split; [done|]. split; [set_solver|apply NoDup_singleton].
Qed.

Lemma follow_step u d fr x :
  expander_inv (u :: fr_worklist fr) (fr_expander fr) → ce_depth_of (fr_expander fr) !! u = Some d →
  declares (ce_relations_of (fr_expander fr)) u x.1 x.2 →
  let fr' := follow u d fr x in
  expander_inv (u :: fr_worklist fr') (fr_expander fr') ∧ closer (fr_expander fr) (fr_expander fr')
  ∧ ce_depth_of (fr_expander fr') !! u = Some d
  ∧ (d + 1 ≤ ce_max_depth (fr_expander fr) →
     (∃ d', ce_depth_of (fr_expander fr') !! x.2 = Some d' ∧ d' ≤ d + 1) ∧ edge_of x.1 u x.2 ∈ ce_edges (fr_expander fr')).
Proof.
  destruct x as [source v]. cbn [fst snd]. intros [Hu Hdepth Hcl Hed Hnd Hdom] Hd Hdec. cbv zeta. unfold follow. cbn [fst snd].
  destruct (Nat.ltb_spec (ce_max_depth (fr_expander fr)) (d + 1)) as [Hmax|Hmax].
  { split; [done|]. split; [done|]. split; [done|]. intros ?. lia. }
  pose proof (add_edge_fields (edge_of source u v) (fr_expander fr)) as (Ed & Ef & _ & Hnd' & Ein).
  set (s := add_edge (edge_of source u v) (fr_expander fr)) in *. injection Ef as Em Emax Epl Eus Ere.
  destruct (declares_other _ _ _ _ Hdec) as [Hvu _].
  assert (∃ u0, u0 ∈ ce_user_channels s ∧ nsteps (refers (ce_relations_of s)) (d + 1) u0 v) as Hreach.
  { apply Hdepth in Hd as (_ & u0 & Hu0 & Hs). exists u0. rewrite Eus, Ere. split; [done|]. rewrite Nat.add_1_r.
    eapply nsteps_r; [exact Hs|]. by exists source. }
  (* the new state, given how the depth of [v] changes *)
  assert (∀ disc depth' wl',
    depth' !! v = Some (d + 1) ∨ depth' = ce_depth_of s ∧ is_Some (depth' !! v) →
    (∀ w, w ≠ v → depth' !! w = ce_depth_of s !! w) →
    (∀ known, ce_depth_of s !! v = Some known → ∃ d', depth' !! v = Some d' ∧ d' ≤ known) →
    (∃ d', depth' !! v = Some d' ∧ d' ≤ d + 1) →
    (depth' ≠ ce_depth_of s → ce_depth_of s !! v = None ∨ v ∈ wl') → fr_worklist fr ⊆ wl' →
    let s' := with_channels (ce_user_channels s) disc depth' s in
    expander_inv (u :: wl') s' ∧ closer (fr_expander fr) s' ∧ ce_depth_of s' !! u = Some d
    ∧ (d + 1 ≤ ce_max_depth (fr_expander fr) →
       (∃ d', ce_depth_of s' !! v = Some d' ∧ d' ≤ d + 1) ∧ edge_of source u v ∈ ce_edges s')) as Hnew.
  { intros disc depth' wl' Hv Hother Hmono Hle Hdirty Hwl s'.
    assert (∀ w k, ce_depth_of s !! w = Some k → ∃ k', depth' !! w = Some k' ∧ k' ≤ k) as Hall.
    { intros w k Hw. destruct (decide (w = v)) as [->|Hne]; [by apply Hmono|]. exists k. by rewrite Hother. }
    assert (closer (fr_expander fr) s') as Hcloser.
    { split; [intros w k Hw; rewrite <-Ed in Hw; by apply Hall|]. intros e He. apply Ein. by right. }
    assert (depth' !! u = Some d) as Hdu by (rewrite Hother, Ed by done; exact Hd).
    split; [|split; [done|split; [exact Hdu|]]].
    2: { intros _. split; [exact Hle|]. apply Ein. by left. }
    split; cbn [ce_user_channels ce_depth_of ce_max_depth ce_relations_of ce_edges with_channels s'].
    - intros w Hw. rewrite Eus in Hw. apply Hu in Hw. rewrite <-Ed in Hw. destruct (Hall _ _ Hw) as (k & -> & ?). f_equal. lia.
    - intros w k Hw. rewrite Emax. destruct (decide (w = v)) as [->|Hne].
      + destruct Hv as [Hv|[-> _]].
        * assert (k = d + 1) as -> by congruence. done.
        * rewrite Ed in Hw. rewrite Eus, Ere. by apply Hdepth.
      + rewrite Hother, Ed in Hw by done. rewrite Eus, Ere. by apply Hdepth.
    - intros w k src t Hw Hk Hm Hdecl. rewrite Ere in Hdecl. rewrite Emax in Hm.
      apply not_elem_of_cons in Hw as [Hwu Hwl'].
      assert (ce_depth_of s !! w = Some k) as Hk'.
      { destruct (decide (w = v)) as [->|Hne]; [|by rewrite Hother in Hk by done].
        destruct (decide (depth' = ce_depth_of s)) as [->|Hch]; [done|]. destruct (Hdirty Hch) as [Hnone|Hin]; [|done].
        exfalso. destruct Hdecl as (entries & relations & Hent & _).
        assert (v ∈ dom (ce_depth_of (fr_expander fr))) as Hin by (apply Hdom, elem_of_dom; eauto).
        apply elem_of_dom in Hin as [? Hin]. rewrite Ed in Hnone. congruence. }
      rewrite Ed in Hk'. destruct (Hcl w k src t) as [(k' & Hk2 & Hle') He]; [set_solver|done..|]. split.
      + rewrite <-Ed in Hk2. destruct (Hall _ _ Hk2) as (k2 & ? & ?). exists k2. split; [done|lia].
      + apply Ein. by right.
    - intros e [->|He]%Ein.
      + exists u, source, v, d. rewrite Ere, Emax. done.
      + destruct (Hed e He) as (w & src & t & k & Hdecl & -> & Hk & Hm). rewrite <-Ed in Hk. destruct (Hall _ _ Hk) as (k' & ? & ?).
        exists w, src, t, k'. rewrite Ere, Emax. repeat split; [done..|lia].
    - by apply Hnd'.
    - rewrite Ere. intros w Hw%Hdom. rewrite elem_of_dom in *. destruct Hw as [k Hk]. rewrite <-Ed in Hk.
      destruct (Hall _ _ Hk) as (? & ? & _). eauto. }
  unfold reach_target. cbn [fr_expander fr_new fr_worklist].
  destruct (ce_depth_of s !! v) as [known|] eqn:Ev.
  - destruct (Nat.ltb_spec (d + 1) known) as [Hlt|Hge]; cbn [fr_expander fr_worklist].
    + apply Hnew; [left; apply lookup_insert_eq| | | | |set_solver].
      * intros w Hw. by rewrite lookup_insert_ne.
      * intros k [= <-]. exists (d + 1). rewrite lookup_insert_eq. split; [done|lia].
      * exists (d + 1). by rewrite lookup_insert_eq.
      * intros _. right. by left.
    + specialize (Hnew (ce_discovered s) (ce_depth_of s) (fr_worklist fr)).
      assert (with_channels (ce_user_channels s) (ce_discovered s) (ce_depth_of s) s = s) as E by by destruct s.
      rewrite E in Hnew. apply Hnew; [right; split; [done|by rewrite Ev]|done| | |done|done].
      * intros k Hk. exists k. split; [congruence|done].
      * exists known. split; [done|lia].
  - cbn [fr_expander fr_worklist]. apply Hnew; [left; apply lookup_insert_eq| | | | |done].
    + intros w Hw. by rewrite lookup_insert_ne.
    + intros k Hk. congruence.
    + exists (d + 1). by rewrite lookup_insert_eq.
    + intros _. by left.
Qed.

Lemma inv_erase dirty s : expander_inv dirty (erase s) ↔ expander_inv dirty s.
Proof. split; (intros [H1 H2 H3 H4 H5 H6]; split; [exact H1|exact H2|exact H3|exact H4|exact H5|exact H6]). Qed.

(** *** New channels *)

(** What was found since the state [s0] *)
Record fresh (s0 : ChannelExpander) (fr : Frontier) : Prop := {
  fs_depth c : c ∈ dom (ce_depth_of (fr_expander fr)) ↔ c ∈ dom (ce_depth_of s0) ∨ c ∈ (fr_new fr).*1;
  fs_nodup : NoDup (fr_new fr).*1;
  fs_new c channel : (c, channel) ∈ fr_new fr → c ∉ dom (ce_depth_of s0) ∧ channel = channel_from_url c
    ∧ ce_discovered (fr_expander fr) !! c = Some channel;
  fs_old c : c ∉ (fr_new fr).*1 → ce_discovered (fr_expander fr) !! c = ce_discovered s0 !! c
}.

Lemma fresh_follow s0 u d fr x : fresh s0 fr → fresh s0 (follow u d fr x).
Proof.
  intros [Hd Hn Hnew Hold]. unfold follow. destruct (_ <? _)%nat; [done|].
  pose proof (add_edge_fields (edge_of x.1 u x.2) (fr_expander fr)) as (Ed & _ & Edisc & _ & _).
  set (s := add_edge (edge_of x.1 u x.2) (fr_expander fr)) in *. unfold reach_target. cbn [fr_expander fr_new fr_worklist].
  destruct (ce_depth_of s !! x.2) as [known|] eqn:Ev.
  - assert (x.2 ∈ dom (ce_depth_of (fr_expander fr))) as Hin by (rewrite <-Ed; apply elem_of_dom; eauto).
    destruct (_ <? _)%nat; split; cbn [fr_expander fr_new ce_depth_of ce_discovered with_channels]; rewrite ?Edisc; try done.
    + intros c. rewrite dom_insert, elem_of_union, elem_of_singleton, Ed, Hd. rewrite Hd in Hin. naive_solver.
    + intros c. by rewrite Ed.
  - assert (x.2 ∉ dom (ce_depth_of (fr_expander fr))) as Hin by (rewrite <-Ed; by apply not_elem_of_dom).
    rewrite Hd in Hin. split; cbn [fr_expander fr_new ce_depth_of ce_discovered with_channels]; rewrite ?Edisc.
    + intros c. rewrite dom_insert, fmap_app. csimpl. rewrite elem_of_app, elem_of_union, elem_of_singleton, list_elem_of_singleton, Ed, Hd. naive_solver.
    + rewrite fmap_app. apply NoDup_app. split; [done|]. split; [|apply NoDup_singleton]. csimpl. set_solver.
    + intros c channel [Hc|[= -> ->]%list_elem_of_singleton]%elem_of_app.
      * assert (c ≠ x.2) as Hne by (intros ->; apply Hin; right; apply list_elem_of_fmap; by exists (x.2, channel)).
        rewrite lookup_insert_ne by done. by apply Hnew.
      * rewrite lookup_insert_eq. split; [|done]. intros Hc. apply Hin. by left.
    + intros c. rewrite fmap_app. csimpl. intros Hc. rewrite lookup_insert_ne by set_solver. apply Hold. set_solver.
Qed.

Lemma fresh_erase s0 fr fr' : erase_fr fr = erase_fr fr' → fresh s0 fr → fresh s0 fr'.
Proof.
  intros E [H1 H2 H3 H4].
  assert (fr_new fr = fr_new fr') as En by by apply (f_equal fr_new) in E.
  assert (ce_depth_of (fr_expander fr) = ce_depth_of (fr_expander fr')) as Ed
    by by apply (f_equal (λ f, ce_depth_of (fr_expander f))) in E.
  assert (ce_discovered (fr_expander fr) = ce_discovered (fr_expander fr')) as Edi
    by by apply (f_equal (λ f, ce_discovered (fr_expander f))) in E.
  split; rewrite <-?En, <-?Ed, <-?Edi; done.
Qed.

(** *** Fuel *)
Section fuel.
Context (C : gset ChannelUrl).

(** How far the depths of the channels of [C] can still decrease *)
Definition slack (s : ChannelExpander) : nat :=
  sum_list ((λ c, default (S (ce_max_depth s)) (ce_depth_of s !! c)) <$> elements C).

Lemma sum_update {A} (f g : A → nat) (l : list A) x :
  NoDup l → x ∈ l → (∀ y, y ≠ x → g y = f y) → sum_list (g <$> l) + f x = sum_list (f <$> l) + g x.
Proof.
  intros Hnd Hx Hne. apply list_elem_of_split in Hx as (l1 & l2 & ->). rewrite !fmap_app. csimpl.
  apply NoDup_app in Hnd as (_ & H1 & H2). apply NoDup_cons in H2 as [H2 _].
  assert (g <$> l1 = f <$> l1) as ->.
  { apply list_fmap_ext. intros i y Hy. apply Hne. intros ->. apply (H1 x); [by eapply list_elem_of_lookup_2|by left]. }
  assert (g <$> l2 = f <$> l2) as ->.
  { apply list_fmap_ext. intros i y Hy. apply Hne. intros ->. apply H2. by eapply list_elem_of_lookup_2. }
  rewrite !sum_list_with_app || rewrite !sum_list_app. simpl. lia.
Qed.

Lemma follow_slack u d fr x :
  x.2 ∈ C →
  length (fr_worklist (follow u d fr x)) + slack (fr_expander (follow u d fr x))
  ≤ length (fr_worklist fr) + slack (fr_expander fr).
Proof.
  intros Hx. unfold follow. destruct (Nat.ltb_spec (ce_max_depth (fr_expander fr)) (d + 1)) as [|Hm]; [done|].
  pose proof (add_edge_fields (edge_of x.1 u x.2) (fr_expander fr)) as (Ed & Ef & _).
  set (s := add_edge (edge_of x.1 u x.2) (fr_expander fr)) in *. injection Ef as Em Emax Epl Eus Ere.
  assert (slack s = slack (fr_expander fr)) as Es by (unfold slack; by rewrite Ed, Emax). rewrite <-Es. rewrite <-Emax in Hm.
  assert (∀ disc, let s' := with_channels (ce_user_channels s) disc (<[x.2 := d + 1]> (ce_depth_of s)) s in
    slack s' + default (S (ce_max_depth s)) (ce_depth_of s !! x.2) = slack s + (d + 1)) as Hupd.
  { intros disc s'. unfold slack. cbn [ce_max_depth ce_depth_of with_channels s'].
    pose proof (sum_update (λ c, default (S (ce_max_depth s)) (ce_depth_of s !! c))
      (λ c, default (S (ce_max_depth s)) (<[x.2 := d + 1]> (ce_depth_of s) !! c)) (elements C) x.2) as H.
    cbv beta in H. rewrite lookup_insert_eq in H. cbn [default] in H. apply H; [apply NoDup_elements|by apply elem_of_elements|].
    intros y Hy. by rewrite lookup_insert_ne. }
  unfold reach_target. cbn [fr_expander fr_new fr_worklist]. destruct (ce_depth_of s !! x.2) as [known|] eqn:Ev.
  - destruct (Nat.ltb_spec (d + 1) known); cbn [fr_expander fr_worklist]; [|done].
    specialize (Hupd (ce_discovered s)). cbv zeta in Hupd. cbn in *. lia.
  - cbn [fr_expander fr_worklist]. specialize (Hupd (<[x.2 := channel_from_url x.2]> (ce_discovered s))). cbv zeta in Hupd.
    cbn in *. lia.
Qed.
End fuel.

(** ** The worklist *)

(** References of [u] have been followed. *)
Definition followed (u : ChannelUrl) (d : nat) (s : ChannelExpander) (x : EdgeSource * ChannelUrl) : Prop :=
  d + 1 ≤ ce_max_depth s →
  (∃ d', ce_depth_of s !! x.2 = Some d' ∧ d' ≤ d + 1) ∧ edge_of x.1 u x.2 ∈ ce_edges s.

Section relax.
Context (C : gset ChannelUrl) (s0 : ChannelExpander).

Record progress (u : ChannelUrl) (d : nat) (fr fr' : Frontier) : Prop := {
  pg_inv : expander_inv (u :: fr_worklist fr') (fr_expander fr');
  pg_closer : closer (fr_expander fr) (fr_expander fr');
  pg_depth : ce_depth_of (fr_expander fr') !! u = Some d;
  pg_fixed : fixed (fr_expander fr') = fixed (fr_expander fr);
  pg_fresh : fresh s0 fr';
  pg_slack : length (fr_worklist fr') + slack C (fr_expander fr') ≤ length (fr_worklist fr) + slack C (fr_expander fr)
}.

Lemma followed_closer u d s s' x : closer s s' → ce_max_depth s' = ce_max_depth s → followed u d s x → followed u d s' x.
Proof.
  intros [H1 H2] Hm Hf Hd. rewrite Hm in Hd. destruct (Hf Hd) as [(d' & Hv & Hle) He]. split; [|by apply H2].
  destruct (H1 _ _ Hv) as (d2 & ? & ?). exists d2. split; [done|lia].
Qed.

Lemma fixed_max s s' : fixed s = fixed s' → ce_max_depth s = ce_max_depth s'.
Proof. by intros [= _ -> _ _ _]. Qed.
Lemma fixed_relations s s' : fixed s = fixed s' → ce_relations_of s = ce_relations_of s'.
Proof. by intros [= _ _ _ _ ->]. Qed.

Lemma progress_trans u d fr fr1 fr2 : progress u d fr fr1 → progress u d fr1 fr2 → progress u d fr fr2.
Proof. intros [? ? ? ? ? ?] [? ? ? ? ? ?]. split; try done; [by etrans|congruence|lia]. Qed.

Lemma follow_all u d fr l :
  expander_inv (u :: fr_worklist fr) (fr_expander fr) → ce_depth_of (fr_expander fr) !! u = Some d → fresh s0 fr →
  (∀ source v, (source, v) ∈ l → declares (ce_relations_of (fr_expander fr)) u source v ∧ v ∈ C) →
  let fr' := foldl (follow u d) fr l in
  progress u d fr fr' ∧ Forall (followed u d (fr_expander fr')) l.
Proof.
  cbv zeta. revert fr. induction l as [|[source v] l IH]; intros fr Hinv Hd Hfr Hl; cbn [foldl]; [by split|].
  destruct (Hl source v ltac:(by left)) as [Hdec HC].
  destruct (follow_step u d fr (source, v) Hinv Hd Hdec) as (Hinv1 & Hcl1 & Hd1 & Hf1).
  pose proof (follow_fixed u d fr (source, v)) as Hfix. pose proof (follow_slack C u d fr (source, v) HC) as Hs.
  pose proof (fresh_follow s0 u d fr (source, v) Hfr) as Hfr1.
  set (fr1 := follow u d fr (source, v)) in *.
  destruct (IH fr1 Hinv1 Hd1 Hfr1) as [Hp Hall].
  { intros src t Ht. rewrite (fixed_relations _ _ Hfix). apply Hl. by right. }
  split; [eapply progress_trans; [by split|done]|]. constructor; [|done]. destruct Hp.
  eapply followed_closer; [done|by apply fixed_max|]. intros Hm. apply Hf1. by rewrite (fixed_max _ _ Hfix) in Hm.
Qed.

Lemma derive_all_spec u d entries fr :
  expander_inv (u :: fr_worklist fr) (fr_expander fr) → ce_depth_of (fr_expander fr) !! u = Some d → fresh s0 fr →
  (∀ relations source v, relations ∈ entries → (source, v) ∈ declared u relations →
     declares (ce_relations_of (fr_expander fr)) u source v ∧ v ∈ C) →
  ∃ r, derive_all u d entries fr = Some r ∧ (strict (fr_expander fr) = false → ∃ x, r = Ok x)
    ∧ ∀ fr', r = Ok fr' → progress u d fr fr'
        ∧ ∀ relations x, relations ∈ entries → x ∈ declared u relations → followed u d (fr_expander fr') x.
Proof.
  revert fr. induction entries as [|relations entries IH]; intros fr Hinv Hd Hfr He; cbn [derive_all].
  { eexists; split; [done|]. split; [eauto|]. intros fr' [= <-]. split; [by split|]. intros ? ? Hin. by apply elem_of_nil in Hin. }
  eapply (outcome_chain _ _ _ (λ fr1, progress u d fr fr1 ∧ Forall (followed u d (fr_expander fr1)) (declared u relations))).
  { destruct (derive_edges_spec u d relations fr) as (r & E & H1 & H2). exists r. split; [done|]. split; [done|].
    intros fr1 Hr. specialize (H2 fr1 Hr).
    destruct (follow_all u d (erase_fr fr) (declared u relations)) as [Hp Hall].
    - by apply inv_erase.
    - exact Hd.
    - by eapply fresh_erase; [|exact Hfr].
    - intros source v Hin. apply (He relations); [by left|done].
    - rewrite <-H2 in Hp, Hall. destruct Hp as [P1 P2 P3 P4 P5 P6]. split; [|exact Hall].
      split; [by apply inv_erase|exact P2|exact P3|exact P4|by eapply fresh_erase; [|exact P5]|exact P6]. }
  intros fr1 [Hp Hall]. pose proof Hp as [P1 P2 P3 P4 P5 P6].
  destruct (IH fr1 P1 P3 P5) as (r & E & H1 & H2).
  { intros rel source v Hrel. rewrite (fixed_relations _ _ P4). apply He. by right. }
  exists r. split; [done|]. split; [intros Hs; apply H1; by rewrite (strict_fixed _ _ P4)|].
  intros fr' Hr. destruct (H2 fr' Hr) as [Hp' Hall']. split; [by eapply progress_trans|].
  intros rel x [->|Hrel]%elem_of_cons Hx; [|by eapply Hall']. rewrite Forall_forall in Hall. destruct Hp' as [Q1 Q2 Q3 Q4 Q5 Q6].
  eapply followed_closer; [done|by apply fixed_max|]. by apply Hall.
Qed.

Lemma inv_weaken dirty dirty' s : dirty ⊆ dirty' → expander_inv dirty s → expander_inv dirty' s.
Proof. intros Hsub [H1 H2 H3 H4 H5 H6]. split; try done. intros u d src v Hu. apply H3. set_solver. Qed.

(** The loop ends, and nothing is left to look at. *)
Lemma relax_spec fuel fr :
  expander_inv (fr_worklist fr) (fr_expander fr) → fresh s0 fr →
  (∀ u source v, declares (ce_relations_of (fr_expander fr)) u source v → v ∈ C) →
  length (fr_worklist fr) + slack C (fr_expander fr) < fuel →
  ∃ r, relax fuel fr = Some r ∧ (strict (fr_expander fr) = false → ∃ x, r = Ok x)
    ∧ ∀ fr', r = Ok fr' → expander_inv [] (fr_expander fr') ∧ closer (fr_expander fr) (fr_expander fr')
        ∧ fixed (fr_expander fr') = fixed (fr_expander fr) ∧ fresh s0 fr'.
Proof.
  revert fr. induction fuel as [|f IH]; intros fr Hinv Hfr HC Hf; [lia|]. cbn [relax].
  destruct (fr_worklist fr) as [|u worklist] eqn:Ew.
  { eexists; split; [done|]. split; [eauto|]. by intros fr' [= <-]. }
  set (fr0 := mkFrontier (fr_expander fr) (fr_new fr) worklist).
  assert (fresh s0 fr0) as Hfr0 by (destruct Hfr as [F1 F2 F3 F4]; by split).
  destruct (ce_relations_of (fr_expander fr) !! u) as [entries|] eqn:Er.
  - assert (∃ d, ce_depth_of (fr_expander fr) !! u = Some d) as [d Hd].
    { apply elem_of_dom, (ei_declaring _ _ Hinv), elem_of_dom. eauto. }
    rewrite Hd. cbn [default].
    eapply (outcome_chain _ _ _ (λ fr1, progress u d fr0 fr1
      ∧ ∀ relations x, relations ∈ entries → x ∈ declared u relations → followed u d (fr_expander fr1) x)).
    { apply (derive_all_spec u d entries fr0); [done|done|done|]. intros relations source v Hrel Hv.
      assert (declares (ce_relations_of (fr_expander fr0)) u source v) as Hdec by (by exists entries, relations).
      split; [done|]. by eapply HC. }
    intros fr1 [[P1 P2 P3 P4 P5 P6] Hall].
    assert (expander_inv (fr_worklist fr1) (fr_expander fr1)) as Hinv1.
    { destruct P1 as [I1 I2 I3 I4 I5 I6]. split; try done. intros w k src t Hw Hk Hm Hdec.
      destruct (decide (w = u)) as [->|Hne]; [|apply (I3 w k src t); [set_solver|done..]].
      assert (k = d) as -> by congruence. destruct Hdec as (entries' & relations & He' & Hrel & Ht).
      rewrite (fixed_relations _ _ P4) in He'. assert (entries' = entries) as -> by (cbn in He'; congruence).
      by apply (Hall relations (src, t)). }
    destruct (IH fr1 Hinv1 P5) as (r & E & H1 & H2).
    { intros w src t. rewrite (fixed_relations _ _ P4). apply HC. }
    { cbn [fr0 fr_worklist fr_expander length] in P6. simpl in Hf. lia. }
    exists r. split; [done|]. split; [intros Hs; apply H1; by rewrite (strict_fixed _ _ P4)|].
    intros fr' Hr. destruct (H2 fr' Hr) as (Q1 & Q2 & Q3 & Q4). split; [done|]. split; [by etrans|]. split; [|done].
    by rewrite Q3, P4.
  - apply (IH fr0); [|done|done|cbn [fr0 fr_worklist fr_expander]; simpl in Hf; lia].
    destruct Hinv as [I1 I2 I3 I4 I5 I6]. split; try done. intros w k src t Hw Hk Hm Hdec.
    destruct (decide (w = u)) as [->|Hne]; [|apply (I3 w k src t); [set_solver|done..]].
    destruct Hdec as (entries & _ & He & _). cbn in He. congruence.
Qed.
End relax.

(** ** An observation *)

Definition entries_of (s : ChannelExpander) (u : ChannelUrl) : list ChannelRelations := default [] (ce_relations_of s !! u).

Record expander_wf (s : ChannelExpander) : Prop := {
  wf_inv : expander_inv [] s;
  wf_users : NoDup (ce_user_channels s);
  wf_discovered c : is_Some (ce_discovered s !! c) ↔ is_Some (ce_depth_of s !! c);
  wf_channel c channel : ce_discovered s !! c = Some channel → c ∉ ce_user_channels s → channel = channel_from_url c
}.

Lemma wf_sources s : expander_inv [] s → Forall (λ e, edge_source e ≠ User) (ce_edges s).
Proof.
  intros Hinv. apply Forall_forall. intros e He. destruct (ei_edges _ _ Hinv e He) as (u & source & v & d & Hdec & -> & _).
  destruct (declares_other _ _ _ _ Hdec) as [_ Hs]. by destruct source.
Qed.

(** All channels that can be given a depth *)
Definition candidates (s : ChannelExpander) : gset ChannelUrl :=
  dom (ce_depth_of s)
  ∪ list_to_set (map_to_list (ce_relations_of s) ≫= λ x, x.2 ≫= λ relations, (declared x.1 relations).*2).

Lemma declared_length u relations : length (declared u relations) ≤ 2.
Proof.
  unfold declared. repeat case_match; try case_bool_decide; try (simpl; lia);
    etrans; [apply length_filter|simpl; lia|apply length_filter|simpl; lia|apply length_filter|simpl; lia].
Qed.

Lemma length_bind_le {A B} (f : A → list B) (g : A → nat) l :
  (∀ x, length (f x) ≤ g x) → length (l ≫= f) ≤ sum_list (g <$> l).
Proof. intros Hf. induction l as [|x l IH]; csimpl; [lia|]. rewrite length_app. specialize (Hf x). lia. Qed.

Lemma sum_list_scale {A} (f : A → nat) k l : sum_list ((λ x, k * f x) <$> l) = k * sum_list (f <$> l).
Proof. induction l as [|x l IH]; csimpl; [lia|]. rewrite IH. lia. Qed.

Lemma size_union_bound (X Y : gset ChannelUrl) : size (X ∪ Y) ≤ size X + size Y.
Proof. rewrite size_union_alt. apply Nat.add_le_mono_l, subseteq_size. set_solver. Qed.
Lemma size_list_bound (l : list ChannelUrl) : size (list_to_set l : gset ChannelUrl) ≤ length l.
Proof.
  induction l as [|x l IH]; [done|]. csimpl. etrans; [apply size_union_bound|]. rewrite size_singleton. simpl. lia.
Qed.

Lemma candidates_size s :
  size (candidates s)
  ≤ size (ce_depth_of s) + 2 * sum_list (length ∘ snd <$> map_to_list (ce_relations_of s)).
Proof.
  unfold candidates. etrans; [apply size_union_bound|]. rewrite size_dom. apply Nat.add_le_mono_l.
  etrans; [apply size_list_bound|]. rewrite <-sum_list_scale. apply length_bind_le. intros [u entries]. cbn [fst snd].
  etrans; [apply (length_bind_le _ (λ _, 2)); intros relations; rewrite length_fmap; apply declared_length|].
  unfold compose. cbn [snd]. clear. induction entries as [|x l IH]; csimpl; lia.
Qed.

Lemma candidates_declares s u source v : declares (ce_relations_of s) u source v → v ∈ candidates s.
Proof.
  intros (entries & relations & He & Hr & Hv). unfold candidates. apply elem_of_union. right. apply elem_of_list_to_set, list_elem_of_bind.
  exists (u, entries). split; [|by apply elem_of_map_to_list]. cbn [fst snd]. apply list_elem_of_bind. exists relations.
  split; [|done]. apply list_elem_of_fmap. by exists (source, v).
Qed.

Lemma slack_bound C dirty s : expander_inv dirty s → slack C s ≤ size C * S (ce_max_depth s).
Proof.
  intros Hinv. unfold slack, size, set_size. cbn. induction (elements C) as [|c l IH]; csimpl; [lia|].
  assert (default (S (ce_max_depth s)) (ce_depth_of s !! c) ≤ S (ce_max_depth s)).
  { destruct (ce_depth_of s !! c) as [d|] eqn:E; [|done]. apply (ei_depth _ _ Hinv) in E as [? _]. simpl. lia. }
  lia.
Qed.

(** The declarations after one more *)
Definition declaration (s : ChannelExpander) (url : ChannelUrl) (relations : ChannelRelations) : ChannelExpander :=
  with_relations (<[url := entries_of s url ++ [relations]]> (ce_relations_of s)) s.

Lemma nsteps_mono {A} (R S : A → A → Prop) n x y : (∀ a b, R a b → S a b) → nsteps R n x y → nsteps S n x y.
Proof. intros HRS. induction 1; econstructor; eauto. Qed.

Lemma declaration_inv s url relations :
  expander_inv [] s → url ∈ dom (ce_depth_of s) → expander_inv [url] (declaration s url relations).
Proof.
  intros [H1 H2 H3 H4 H5 H6] Hurl.
  assert (∀ u source v, declares (ce_relations_of s) u source v →
    declares (ce_relations_of (declaration s url relations)) u source v) as Hmono.
  { intros u source v (entries & rel & He & Hr & Hv). unfold declares, declaration. cbn [ce_relations_of with_relations].
    destruct (decide (u = url)) as [->|Hne].
    - exists (entries ++ [relations]), rel. unfold entries_of. rewrite lookup_insert_eq, He. set_solver.
    - exists entries, rel. by rewrite lookup_insert_ne. }
  split; cbn [ce_user_channels ce_depth_of ce_max_depth ce_edges with_relations declaration].
  - done.
  - intros v d Hd. destruct (H2 v d Hd) as (Hm & u & Hu & Hs). split; [done|]. exists u. split; [done|].
    eapply nsteps_mono; [|exact Hs]. intros a b [source Hab]. exists source. by apply Hmono.
  - intros u d source v Hu Hd Hm (entries & rel & He & Hr & Hv). apply (H3 u d source v); [apply not_elem_of_nil|done|done|].
    exists entries, rel. split; [|done]. cbn [ce_relations_of with_relations declaration] in He.
    rewrite lookup_insert_ne in He by set_solver. done.
  - intros e He. destruct (H4 e He) as (u & source & v & d & Hdec & ? & ? & ?). exists u, source, v, d. split; [by apply Hmono|done].
  - done.
  - cbn [ce_relations_of with_relations declaration]. rewrite dom_insert. set_solver.
Qed.

(** What an observation adds *)
Record observed (url : ChannelUrl) (relations : ChannelRelations) (s s' : ChannelExpander)
    (pairs : list (ChannelUrl * Channel * Subdir)) : Prop := {
  ob_wf : expander_wf s';
  ob_config : (ce_mode s', ce_max_depth s', ce_platforms s', ce_user_channels s')
    = (ce_mode s, ce_max_depth s, ce_platforms s, ce_user_channels s);
  ob_known c : is_Some (ce_depth_of s !! c) → is_Some (ce_depth_of s' !! c) ∧ ce_discovered s' !! c = ce_discovered s !! c;
  ob_entries u x : x ∈ entries_of s' u ↔
    x ∈ entries_of s u ∨ (u = url ∧ x = relations ∧ relations_is_empty relations = false);
  ob_pairs : ∃ found, NoDup found ∧ pairs = found ≫= (λ c, (λ platform, (c, channel_from_url c, platform)) <$> ce_platforms s)
    ∧ ∀ c, c ∈ found ↔ ce_depth_of s !! c = None ∧ is_Some (ce_depth_of s' !! c)
}.

Lemma observed_nothing url relations s :
  expander_wf s → (relations ∈ entries_of s url ∨ relations_is_empty relations = true) → observed url relations s s [].
Proof.
  intros Hwf Hr. split; [done|done|done| |].
  - intros u x. split; [by left|]. intros [?|(-> & -> & He)]; [done|]. destruct Hr as [?|?]; [done|congruence].
  - exists []. split; [constructor|]. split; [done|]. intros c. split; [intros Hc; by apply elem_of_nil in Hc|].
    intros [Hn [d Hd]]. congruence.
Qed.

Lemma enabled_fixed s s' : fixed s = fixed s' → enabled s = enabled s'.
Proof. unfold fixed, enabled. by intros [= -> -> _ _ _]. Qed.

(** An observation ends; it fails only in the strict mode. *)
Lemma observe_spec url relations s :
  expander_wf s → enabled s = true → is_Some (ce_depth_of s !! url) →
  ∃ r, observe url (Some relations) s = Some r ∧ (strict s = false → ∃ x, r = Ok x)
    ∧ ∀ y, r = Ok y → observed url relations s y.2 y.1.
Proof.
  intros Hwf Hen Hurl. unfold observe. rewrite Hen. cbn [negb].
  destruct (relations_is_empty relations) eqn:Hemp.
  { eexists; split; [done|]. split; [eauto|]. intros y [= <-]. apply observed_nothing; [done|by right]. }
  fold (entries_of s url). case_bool_decide as Hin.
  { eexists; split; [done|]. split; [eauto|]. intros y [= <-]. cbn [fst snd].
    assert (with_relations (<[url := entries_of s url]> (ce_relations_of s)) s = s) as ->; [|apply observed_nothing; [done|by left]].
    rewrite insert_id; [by destruct s|]. unfold entries_of in *. destruct (ce_relations_of s !! url) as [l|]; [done|].
    by apply elem_of_nil in Hin. }
  fold (declaration s url relations). set (s1 := declaration s url relations) in *.
  pose proof (wf_inv _ Hwf) as Hinv.
  assert (expander_inv [url] s1) as Hinv1 by (apply declaration_inv; [done|by apply elem_of_dom]).
  assert (fresh s1 (mkFrontier s1 [] [url])) as Hfresh.
  { split; cbn [fr_expander fr_new]; [set_solver|constructor|intros c ch Hc; by apply elem_of_nil in Hc|done]. }
  eapply (outcome_chain _ _ _ (λ fr, expander_inv [] (fr_expander fr) ∧ fixed (fr_expander fr) = fixed s1 ∧ fresh s1 fr)).
  { destruct (relax_spec (candidates s1) s1 (relax_fuel s1) (mkFrontier s1 [] [url])) as (r & E & H1 & H2); [done|done| | |].
    - intros u source v. apply candidates_declares.
    - cbn [fr_worklist fr_expander length]. pose proof (slack_bound (candidates s1) _ _ Hinv1) as Hs.
      pose proof (candidates_size s1) as Hc. unfold relax_fuel.
      assert (size (candidates s1) * S (ce_max_depth s1) ≤ S (ce_max_depth s1) *
        (size (ce_depth_of s1) + 2 * sum_list (length ∘ snd <$> map_to_list (ce_relations_of s1)))) by nia. lia.
    - exists r. split; [done|]. split; [done|]. intros fr Hr. by destruct (H2 fr Hr) as (? & _ & ? & ?). }
  intros fr (Hinv2 & Hfix & [F1 F2 F3 F4]). set (s2 := fr_expander fr) in *.
  pose proof Hfix as [= Em Emax Epl Eus Ere].
  assert (expander_wf s2) as Hwf2.
  { destruct Hwf as [_ W2 W3 W4]. split; [done|rewrite Eus; exact W2|..].
    - intros c. pose proof (F1 c) as Hdc. rewrite !elem_of_dom in Hdc. rewrite Hdc.
      destruct (decide (c ∈ (fr_new fr).*1)) as [Hc|Hc].
      + apply list_elem_of_fmap in Hc as ([c' ch] & -> & Hc). pose proof (F3 _ _ Hc) as (_ & _ & Hd). cbn [fst].
        split; [|by eauto]. intros _. right. apply list_elem_of_fmap. by exists (c', ch).
      + rewrite F4 by done. cbn [s1 declaration with_relations ce_discovered ce_depth_of]. rewrite W3. naive_solver.
    - intros c ch Hch Hu. rewrite Eus in Hu. destruct (decide (c ∈ (fr_new fr).*1)) as [Hc|Hc].
      + apply list_elem_of_fmap in Hc as ([c' ch'] & -> & Hc). pose proof (F3 _ _ Hc) as (_ & -> & Hd). cbn [fst] in *. congruence.
      + rewrite F4 in Hch by done. by apply W4. }
  eapply (outcome_chain _ _ _ (λ _, True)).
  { destruct (strict s2 && _) eqn:Est; [|by eexists; split; [done|]; split; [eauto|]].
    apply andb_true_iff in Est as [Est _]. unfold strict_cycle_check.
    destruct (resolve_total (ce_user_channels s2) (ce_user_channels s2) (ce_edges s2)) as [res ->]; [by apply wf_sources|].
    assert (strict s = true) as Hst by (unfold strict in *; by rewrite Em in Est).
    case_bool_decide; (eexists; split; [done|]; split; [|done]); [eauto|congruence]. }
  intros _ _. eexists; split; [done|]. split; [eauto|]. intros y [= <-]. cbn [fst snd].
  assert (∀ c, c ∈ (fr_new fr).*1 ↔ ce_depth_of s !! c = None ∧ is_Some (ce_depth_of s2 !! c)) as Hfound.
  { intros c. rewrite <-elem_of_dom, F1. change (ce_depth_of s1) with (ce_depth_of s). rewrite elem_of_dom. split.
    - intros Hc. split; [|by right]. apply list_elem_of_fmap in Hc as ([c' ch] & -> & Hc).
      pose proof (F3 _ _ Hc) as (Hn & _). by apply not_elem_of_dom in Hn.
    - intros [Hn [[d Hd]|Hc]]; [congruence|done]. }
  split; [done|by rewrite Em, Emax, Epl, Eus|..].
  - intros c Hc. split.
    + apply elem_of_dom, F1. left. by apply elem_of_dom.
    + rewrite F4; [done|]. intros Hin'. apply Hfound in Hin' as [Hn _]. destruct Hc. congruence.
  - intros u x. unfold entries_of at 1. rewrite Ere. cbn [s1 declaration with_relations ce_relations_of].
    destruct (decide (u = url)) as [->|Hne].
    + rewrite lookup_insert_eq. cbn [from_option id]. rewrite elem_of_app, list_elem_of_singleton. naive_solver.
    + rewrite lookup_insert_ne by done. fold (entries_of s u). naive_solver.
  - exists (fr_new fr).*1. split; [done|]. split; [|done]. rewrite Epl. cbn [s1 declaration with_relations ce_platforms].
    clear -F3. induction (fr_new fr) as [|[c ch] l IH]; [done|]. csimpl. rewrite IH by (intros; apply F3; by right).
    f_equal. by destruct (F3 c ch) as (_ & -> & _); [left|].
Qed.

(** ** Distances *)

(** [v] is [n] references away from a channel of [users]. *)
Definition within (R : ChannelUrl → ChannelUrl → Prop) (users : list ChannelUrl) (n : nat) (v : ChannelUrl) : Prop :=
  ∃ u, u ∈ users ∧ nsteps R n u v.

Lemma depth_reach s n v :
  expander_inv [] s → within (refers (ce_relations_of s)) (ce_user_channels s) n v → n ≤ ce_max_depth s →
  ∃ d, ce_depth_of s !! v = Some d ∧ d ≤ n.
Proof.
  intros Hinv (u & Hu & Hs). revert v Hs. induction n as [|n IH]; intros v Hs Hn.
  - inversion Hs; subst. exists 0. split; [|done]. by apply (ei_users _ _ Hinv).
  - apply nsteps_inv_r in Hs as (w & Hs & source & Hdec). apply IH in Hs as (d & Hd & Hle); [|lia].
    destruct (ei_closed _ _ Hinv w d source v) as [(d' & Hd' & ?) _]; [apply not_elem_of_nil|done|lia|done|].
    exists d'. split; [done|lia].
Qed.
End theorems.
