(* ===== verification/ExpanderAnchors.v ===== *)
(** * Anchors and the order of the buckets

    [anchors] of [gateway/channel_expander.rs]: each channel that was found belongs to the
    first channel of the user which leads to it.  [finalize_channel_relations] and
    [channel_placement] of [gateway/query.rs]: the order of the buckets of the result. *)
From stdpp Require Import gmap sets list relations sorting.
From S2P Require Import Prelude Externs TextOps Redaction FileUrl VersionSpec Subdir Archive MatchSpecs Channels.
From S2P Require Import ChannelRelations RelationsTheorems ChannelExpander ExpanderTheorems.

Local Notation text := (list N).

Section theorems.
Context `{UC : UrlCrate} `{UP : !UrlPaths} `{JE : !JoinErrors} `{UN : Unicode}.
Local Notation ChannelUrl := Url.

(** ** Discovery arcs *)
Definition leads (s : ChannelExpander) (u v : ChannelUrl) : Prop :=
  ∃ e, e ∈ ce_edges s ∧ discovery_arc e = Some (u, v) ∧ v ∉ ce_user_channels s.

Definition add_arc (m : gmap ChannelUrl (list ChannelUrl)) (edge : PriorityEdge ChannelUrl) : gmap ChannelUrl (list ChannelUrl) :=
  match discovery_arc edge with
  | Some (declaring, target) => <[declaring := default [] (m !! declaring) ++ [target]]> m
  | None => m
  end.

Lemma add_arc_spec m e u v :
  v ∈ default [] (add_arc m e !! u) ↔ v ∈ default [] (m !! u) ∨ discovery_arc e = Some (u, v).
Proof.
  unfold add_arc. destruct (discovery_arc e) as [[a b]|]; [|naive_solver]. destruct (decide (u = a)) as [->|Hne].
  - rewrite lookup_insert_eq. cbn [from_option id]. rewrite elem_of_app, list_elem_of_singleton. naive_solver.
  - rewrite lookup_insert_ne by done. naive_solver.
Qed.

Lemma arcs_of_spec s u v : v ∈ default [] (arcs_of s !! u) ↔ ∃ e, e ∈ ce_edges s ∧ discovery_arc e = Some (u, v).
Proof.
  unfold arcs_of. change (foldl _ ∅ (ce_edges s)) with (foldl add_arc ∅ (ce_edges s)).
  assert (∀ l m, v ∈ default [] (foldl add_arc m l !! u) ↔
    v ∈ default [] (m !! u) ∨ ∃ e, e ∈ l ∧ discovery_arc e = Some (u, v)) as H.
  { induction l as [|e l IH]; intros m; cbn [foldl]; [set_solver|]. rewrite IH, add_arc_spec. set_solver. }
  rewrite H, lookup_empty. set_solver.
Qed.

(** ** One channel of the user *)
Section claim.
Context (s : ChannelExpander) (user : ChannelUrl) (start : gmap ChannelUrl ChannelUrl).
Notation user_set := (list_to_set (ce_user_channels s) : gset ChannelUrl).
Context (Hclosed : ∀ a b, is_Some (start !! a) → leads s a b → is_Some (start !! b)).

(** The targets that can still be claimed *)
Definition unclaimed (m : gmap ChannelUrl ChannelUrl) : nat :=
  size (list_to_set ((omap discovery_arc (ce_edges s)).*2) ∖ dom m : gset ChannelUrl).

(** What [user] has claimed beyond [start], with the channels of [dirty] still to be looked at *)
Record claim_inv (dirty : list ChannelUrl) (m : gmap ChannelUrl ChannelUrl) : Prop := {
  ci_old t u : start !! t = Some u → m !! t = Some u;
  ci_new t u : m !! t = Some u → start !! t = Some u ∨ (u = user ∧ start !! t = None ∧ tc (leads s) user t);
  ci_dirty t : t ∈ dirty → t = user ∨ tc (leads s) user t;
  ci_closed a b : a = user ∨ is_Some (m !! a) → a ∉ dirty → leads s a b → is_Some (m !! b)
}.

Definition claim_target (acc : gmap ChannelUrl ChannelUrl * list ChannelUrl) (target : ChannelUrl) :=
  let '(anchors, stack) := acc in
  if bool_decide (target ∈ user_set) then acc
  else match anchors !! target with
       | Some _ => acc
       | None => (<[target := user]> anchors, target :: stack)
       end.

Lemma claim_target_spec current m stack target :
  (current = user ∨ tc (leads s) user current) →
  claim_inv (current :: stack) m → (∃ e, e ∈ ce_edges s ∧ discovery_arc e = Some (current, target)) →
  let '(m', stack') := claim_target (m, stack) target in
  claim_inv (current :: stack') m' ∧ length stack' + unclaimed m' ≤ length stack + unclaimed m
  ∧ (∀ t, is_Some (m !! t) → is_Some (m' !! t)) ∧ (leads s current target → is_Some (m' !! target)).
Proof.
  intros Hcur Hinv (e & He & Harc). unfold claim_target. case_bool_decide as Hu.
  { split; [done|]. split; [done|]. split; [done|]. intros (? & _ & _ & Hn). destruct Hn. by apply elem_of_list_to_set in Hu. }
  assert (leads s current target) as Hl by (exists e; split; [done|split; [done|]]; by rewrite elem_of_list_to_set in Hu).
  destruct (m !! target) as [x|] eqn:Em.
  { split; [done|]. split; [done|]. split; [done|]. intros _. eauto. }
  assert (tc (leads s) user target) as Htc.
  { destruct Hcur as [->|Hcur]; [by apply tc_once|by eapply tc_r]. }
  destruct Hinv as [H1 H2 H3 H4]. split; [|split; [|split]].
  - split.
    + intros t u Ht. rewrite lookup_insert_ne; [by apply H1|]. intros ->. apply H1 in Ht. congruence.
    + intros t u. destruct (decide (t = target)) as [->|Hne].
      * rewrite lookup_insert_eq. intros [= <-]. right. split; [done|]. split; [|done].
        destruct (start !! target) as [y|] eqn:E; [|done]. apply H1 in E. congruence.
      * rewrite lookup_insert_ne by done. apply H2.
    + intros t [->|[->|Ht]%elem_of_cons]%elem_of_cons; [done|by right|]. apply H3. by right.
    + intros a b Ha Hd Hab. assert (is_Some (m !! b)) as [y Hy].
      { apply (H4 a b); [|set_solver|done]. destruct Ha as [Ha|Ha]; [by left|]. right.
        rewrite lookup_insert_ne in Ha by set_solver. done. }
      destruct (decide (b = target)) as [->|Hne]; [by rewrite lookup_insert_eq|]. by rewrite lookup_insert_ne.
  - unfold unclaimed. cbn [length]. rewrite dom_insert_L.
    assert (target ∈ (list_to_set ((omap discovery_arc (ce_edges s)).*2) ∖ dom m : gset ChannelUrl)) as Hin.
    { apply elem_of_difference. split; [|by apply not_elem_of_dom]. apply elem_of_list_to_set, list_elem_of_fmap.
      exists (current, target). split; [done|]. apply list_elem_of_omap. by exists e. }
    rewrite Nat.add_succ_comm. apply Nat.add_le_mono_l, subset_size. set_solver.
  - intros t Ht. destruct (decide (t = target)) as [->|Hne]; [by rewrite lookup_insert_eq|]. by rewrite lookup_insert_ne.
  - intros _. by rewrite lookup_insert_eq.
Qed.

Lemma claim_targets_spec current targets m stack :
  (current = user ∨ tc (leads s) user current) →
  claim_inv (current :: stack) m → (∀ t, t ∈ targets → ∃ e, e ∈ ce_edges s ∧ discovery_arc e = Some (current, t)) →
  let '(m', stack') := claim_targets user_set user targets (m, stack) in
  claim_inv (current :: stack') m' ∧ length stack' + unclaimed m' ≤ length stack + unclaimed m
  ∧ (∀ t, is_Some (m !! t) → is_Some (m' !! t)) ∧ ∀ t, t ∈ targets → leads s current t → is_Some (m' !! t).
Proof.
  intros Hcur. unfold claim_targets. change (λ s0 target, _) with claim_target.
  revert m stack. induction targets as [|t targets IH]; intros m stack Hinv Ht; cbn [foldl].
  { split; [done|]. split; [done|]. split; [done|]. intros t Hin. by apply elem_of_nil in Hin. }
  pose proof (claim_target_spec current m stack t Hcur Hinv ltac:(apply Ht; by left)) as H1.
  destruct (claim_target (m, stack) t) as [m1 stack1]. destruct H1 as (H1 & L1 & M1 & C1).
  specialize (IH m1 stack1 H1 ltac:(intros; apply Ht; by right)).
  destruct (foldl claim_target (m1, stack1) targets) as [m2 stack2]. destruct IH as (H2 & L2 & M2 & C2).
  split; [done|]. split; [lia|]. split; [by intros x ?%M1%M2|]. intros x [->|Hx]%elem_of_cons Hl; [by apply M2, C1|by apply C2].
Qed.

Lemma claim_loop_spec fuel m stack :
  claim_inv stack m → length stack + unclaimed m < fuel →
  ∃ m', claim_loop fuel (arcs_of s) user_set user m stack = Some m' ∧ claim_inv [] m'.
Proof.
  revert m stack. induction fuel as [|f IH]; intros m stack Hinv Hf; [lia|]. cbn [claim_loop].
  destruct stack as [|current stack]; [eauto|].
  assert (current = user ∨ tc (leads s) user current) as Hcur by (apply (ci_dirty _ _ Hinv); by left).
  pose proof (claim_targets_spec current (default [] (arcs_of s !! current)) m stack Hcur Hinv
    ltac:(intros t; apply arcs_of_spec)) as H.
  destruct (claim_targets user_set user (default [] (arcs_of s !! current)) (m, stack)) as [m1 stack1].
  destruct H as ([H1 H2 H3 H4] & HL & _ & HC). apply IH; [|simpl in Hf; lia]. split; [done|done|..].
  - intros t Ht. apply H3. by right.
  - intros a b Ha Hd Hab. destruct (decide (a = current)) as [->|Hne]; [|apply (H4 a b); [done|set_solver|done]].
    apply HC; [|done]. apply arcs_of_spec. destruct Hab as (e & He & Harc & _). by exists e.
Qed.

(** The channels that [user] leads to and that no one has claimed become its own. *)
Lemma claim_spec :
  ∃ m', claim_loop (3 + length (ce_edges s)) (arcs_of s) user_set user start [user] = Some m'
    ∧ (∀ t u, m' !! t = Some u ↔ start !! t = Some u ∨ (u = user ∧ start !! t = None ∧ tc (leads s) user t))
    ∧ (∀ t, tc (leads s) user t → is_Some (m' !! t))
    ∧ ∀ a b, is_Some (m' !! a) → leads s a b → is_Some (m' !! b).
Proof.
  assert (claim_inv [user] start) as Hinv.
  { split; [done|by left|intros t ->%list_elem_of_singleton; by left|].
    intros a b [->|Ha] Hn Hab; [set_solver|by apply (Hclosed a b)]. }
  destruct (claim_loop_spec (3 + length (ce_edges s)) start [user] Hinv) as (m' & E & [H1 H2 H3 H4]).
  { cbn [length]. assert (unclaimed start ≤ length (ce_edges s)) as Hle; [|lia]. unfold unclaimed.
    etrans; [apply subseteq_size, subseteq_difference_l; reflexivity|].
    etrans; [apply size_list_bound|]. rewrite length_fmap. clear. induction (ce_edges s) as [|e l IH]; [done|].
    cbn [omap list_omap]. destruct (discovery_arc e); simpl; lia. }
  assert (∀ t, tc (leads s) user t → is_Some (m' !! t)) as Hall.
  { apply tc_ind_r; intros; eapply H4; try done; [by left|apply not_elem_of_nil|by right|apply not_elem_of_nil]. }
  exists m'. split; [exact E|]. split; [|split; [exact Hall|]].
  - intros t u. split; [apply H2|]. intros [Ht|(-> & Hn & Htc)]; [by apply H1|].
    destruct (Hall t Htc) as [y Hy]. destruct (H2 t y Hy) as [?|(-> & _)]; [congruence|done].
  - intros a b Ha. apply H4; [by right|apply not_elem_of_nil].
Qed.
End claim.

(** ** The anchors *)

(** [u] is the first of [users] that leads to [t]. *)
Definition first_leading (s : ChannelExpander) (users : list ChannelUrl) (t u : ChannelUrl) : Prop :=
  ∃ before after, users = before ++ u :: after ∧ tc (leads s) u t ∧ ∀ w, w ∈ before → ¬ tc (leads s) w t.

Lemma first_leading_snoc s users w t u :
  first_leading s (users ++ [w]) t u ↔
    first_leading s users t u ∨ (u = w ∧ (∀ x, x ∈ users → ¬ tc (leads s) x t) ∧ tc (leads s) w t).
Proof.
  split.
  - intros (l1 & l2 & E & Htc & Hn). destruct l2 as [|y l2 _] using rev_ind.
    + apply app_inj_tail in E as [-> ->]. by right.
    + rewrite app_comm_cons, (assoc_L (++)) in E. apply app_inj_tail in E as [-> ->]. left. by exists l1, l2.
  - intros [(l1 & l2 & -> & Htc & Hn)|(-> & Hn & Htc)].
    + exists l1, (l2 ++ [w]). split; [|done]. by rewrite <-(assoc_L (++)).
    + exists users, []. done.
Qed.

(** Every channel that is led to is anchored to the first channel of the user that leads to it. *)
Lemma anchors_spec (s : ChannelExpander) (user_priority : list ChannelUrl) :
  ∃ m, anchors user_priority s = Some m ∧ (∀ t u, m !! t = Some u ↔ first_leading s user_priority t u)
    ∧ ∀ x t, x ∈ user_priority → tc (leads s) x t → is_Some (m !! t).
Proof.
  unfold anchors.
  destruct (for_opt_ind (λ users (m : gmap ChannelUrl ChannelUrl), (∀ t u, m !! t = Some u ↔ first_leading s users t u)
      ∧ (∀ x t, x ∈ users → tc (leads s) x t → is_Some (m !! t)) ∧ ∀ a b, is_Some (m !! a) → leads s a b → is_Some (m !! b))
    user_priority (λ user anchors,
      claim_loop (3 + length (ce_edges s)) (arcs_of s) (list_to_set (ce_user_channels s)) user anchors [user]) ∅)
    as (m & E & Hm & Hr & _); [| |by exists m].
  - split; [|split].
    + intros t u. rewrite lookup_empty. split; [done|]. intros (l1 & l2 & El & _). by destruct l1.
    + intros x t Hx. by apply elem_of_nil in Hx.
    + intros a b [x Hx]. by rewrite lookup_empty in Hx.
  - intros seen user m (Hm & Hreach & Hcl) _. destruct (claim_spec s user m Hcl) as (m1 & E1 & H1 & Hreach1 & Hcl1).
    exists m1. split; [exact E1|]. assert (∀ t, m !! t = None ↔ ∀ x, x ∈ seen → ¬ tc (leads s) x t) as Hnone.
    { intros t. split.
      - intros Hn x Hx Htc. destruct (Hreach x t Hx Htc). congruence.
      - intros Hn. destruct (m !! t) as [u|] eqn:Et; [|done]. apply Hm in Et as (l1 & l2 & -> & Htc & _).
        destruct (Hn u); [set_solver|done]. }
    split; [intros t u; by rewrite H1, first_leading_snoc, Hm, Hnone|]. split; [|exact Hcl1].
    intros x t [Hx| ->%list_elem_of_singleton]%elem_of_app Htc; [|by apply Hreach1].
    destruct (Hreach x t Hx Htc) as [y Hy]. exists y. apply H1. by left.
Qed.

Lemma leads_ext s s' : ce_edges s ≡ₚ ce_edges s' → ce_user_channels s = ce_user_channels s' → ∀ u v, leads s u v ↔ leads s' u v.
Proof. intros He Hu u v. unfold leads. rewrite Hu. by setoid_rewrite He. Qed.

Lemma tc_ext {A} (R S : A → A → Prop) x y : (∀ a b, R a b ↔ S a b) → tc R x y ↔ tc S x y.
Proof. intros H. split; apply (tc_congruence id); intros; by apply H. Qed.

Lemma anchors_ext s s' users :
  ce_edges s ≡ₚ ce_edges s' → ce_user_channels s = ce_user_channels s' → anchors users s = anchors users s'.
Proof.
  intros He Hu. destruct (anchors_spec s users) as (m & -> & H & _), (anchors_spec s' users) as (m' & -> & H' & _). f_equal.
  apply map_eq. intros t. apply option_eq. intros u. rewrite H, H'. unfold first_leading.
  by setoid_rewrite (λ w v, tc_ext _ _ w v (leads_ext s s' He Hu)).
Qed.

(** A channel with a depth is one of the user or is led to. *)
Lemma led_to s v d :
  expander_inv [] s → ce_depth_of s !! v = Some d → v ∉ ce_user_channels s →
  ∃ u, u ∈ ce_user_channels s ∧ tc (leads s) u v.
Proof.
  intros Hinv. revert v. induction d as [d IH] using lt_wf_ind. intros v Hd Hv.
  destruct (ei_depth _ _ Hinv v d Hd) as (Hm & u & Hu & Hs). destruct d as [|d].
  { inversion Hs; subst. done. }
  apply nsteps_inv_r in Hs as (w & Hs & source & Hdec).
  destruct (depth_reach s d w Hinv) as (dw & Hdw & Hle); [by exists u|lia|].
  destruct (ei_closed _ _ Hinv w dw source v) as [_ He]; [apply not_elem_of_nil|done|lia|done|].
  assert (leads s w v) as Hl.
  { exists (edge_of source w v). split; [done|]. split; [|done]. destruct (declares_other _ _ _ _ Hdec) as [_ Hsrc]. by destruct source. }
  destruct (decide (w ∈ ce_user_channels s)) as [Hw|Hw]; [exists w; split; [done|by apply tc_once]|].
  destruct (IH dw ltac:(lia) w Hdw Hw) as (u' & Hu' & Htc). exists u'. split; [done|]. by eapply tc_r.
Qed.

Lemma leads_depth s u v : expander_inv [] s → leads s u v → is_Some (ce_depth_of s !! v).
Proof.
  intros Hinv (e & He & Harc & _). destruct (ei_edges _ _ Hinv e He) as (a & source & b & d & Hdec & -> & Ha & Hm).
  assert (b = v) as -> by (destruct (declares_other _ _ _ _ Hdec) as [_ Hsrc]; destruct source; cbn in Harc; congruence).
  destruct (ei_closed _ _ Hinv a d source v) as [(d' & Hd' & _) _]; [apply not_elem_of_nil|done..|]. eauto.
Qed.

Lemma anchored s users : expander_inv [] s → (∀ u, u ∈ users ↔ u ∈ ce_user_channels s) →
  ∃ m, anchors users s = Some m ∧ (∀ t u, m !! t = Some u ↔ first_leading s users t u)
    ∧ ∀ c, is_Some (m !! c) ↔ is_Some (ce_depth_of s !! c) ∧ c ∉ ce_user_channels s.
Proof.
  intros Hinv Hu. destruct (anchors_spec s users) as (m & E & Hm & Hr). exists m. split; [done|]. split; [done|]. intros c. split.
  - intros [u (l1 & l2 & _ & Htc & _)%Hm]. clear -Hinv Htc. induction Htc as [x y Hl|x y z _ _ IH]; [|done].
    split; [by eapply leads_depth|]. by destruct Hl as (? & _ & _ & ?).
  - intros [[d Hd] Hc]. destruct (led_to s c d Hinv Hd Hc) as (u & Hin & Htc).
    apply (Hr u); [by apply Hu|done].
Qed.
End theorems.
