(* ===== verification/ExpanderOrder.v ===== *)
(** * The resolution does not depend on the order of the answers

    The subdirectories of the channels arrive in any order, and each one may extend what the
    expander knows.  What is known in the end is described without that order: the depth of a
    channel is its distance from the channels of the user, and the edges are the references of
    the channels that are near enough. *)
From stdpp Require Import gmap sets list relations.
From S2P Require Import Prelude Externs TextOps Redaction FileUrl VersionSpec Subdir Archive MatchSpecs Channels.
From S2P Require Import ChannelRelations RelationsTheorems ChannelExpander ExpanderTheorems ExpanderAnchors.

Local Notation text := (list N).

Section theorems.
Context `{UC : UrlCrate} `{UP : !UrlPaths} `{JE : !JoinErrors} `{UN : Unicode}.
Local Notation ChannelUrl := Url.

(** ** Canonical orders *)
#[export] Instance url_cmp_order : TotalOrder url_cmp.
Proof.
  split; [apply (on_key_preorder url_as_str str_cmp), _|]. intros x y. unfold url_cmp. rewrite (cmp_eq_iff str_cmp).
  split; [apply (inj url_as_str)|by intros ->].
Qed.

#[export] Instance priority_edge_order : TotalOrder priority_edge_cmp.
Proof.
  split.
  - apply (then_with_preorder (λ x y, url_cmp (edge_from x) (edge_from y))); [apply (on_key_preorder edge_from url_cmp), _|].
    apply (then_with_preorder (λ x y, url_cmp (edge_to x) (edge_to y))); [apply (on_key_preorder edge_to url_cmp), _|].
    apply (on_key_preorder (λ x : PriorityEdge ChannelUrl, edge_source_rank (edge_source x)) Nat.compare), _.
  - intros [f t src] [f' t' src']. unfold priority_edge_cmp. rewrite !then_with_Eq, !(cmp_eq_iff url_cmp), (cmp_eq_iff Nat.compare).
    cbn [edge_from edge_to edge_source]. split; [|by intros [= -> -> ->]]. intros (-> & -> & Hr). by destruct src, src'.
Qed.

(** ** Distances *)

(** The least such number *)
Definition distance R users (n : nat) (v : ChannelUrl) : Prop :=
  within R users n v ∧ ∀ m, within R users m v → n ≤ m.

Lemma distance_unique R users n m v : distance R users n v → distance R users m v → n = m.
Proof. intros [H1 H2] [H3 H4]. apply H2 in H3. apply H4 in H1. lia. Qed.

(** The depth of a channel is its distance from the user's channels, up to the limit. *)
Lemma depth_spec s v d : expander_inv [] s →
  ce_depth_of s !! v = Some d ↔ distance (refers (ce_relations_of s)) (ce_user_channels s) d v ∧ d ≤ ce_max_depth s.
Proof.
  intros Hinv. split.
  - intros Hd. destruct (ei_depth _ _ Hinv v d Hd) as [Hm Hw]. split; [|done]. split; [exact Hw|]. intros m Hw'.
    destruct (le_lt_dec m (ce_max_depth s)) as [Hle|]; [|lia].
    destruct (depth_reach s m v Hinv Hw' Hle) as (d' & Hd' & ?). rewrite Hd in Hd'. by injection Hd' as ->.
  - intros [Hdist Hm]. destruct (depth_reach s d v Hinv (proj1 Hdist) Hm) as (d' & Hd' & Hle). rewrite Hd'.
    destruct (ei_depth _ _ Hinv v d' Hd') as [_ Hw]. apply Hdist in Hw. f_equal. lia.
Qed.

(** The edges are the references of the channels whose targets are within the limit. *)
Lemma edges_spec s e : expander_inv [] s →
  e ∈ ce_edges s ↔ ∃ u source v d, declares (ce_relations_of s) u source v ∧ e = edge_of source u v
    ∧ ce_depth_of s !! u = Some d ∧ d + 1 ≤ ce_max_depth s.
Proof.
  intros Hinv. split; [apply (ei_edges _ _ Hinv)|]. intros (u & source & v & d & Hdec & -> & Hd & Hm).
  apply (ei_closed _ _ Hinv u d source v); [apply not_elem_of_nil|done..].
Qed.

(** ** Two states that know the same *)

(** Of two states: what was given and the declarations are the same, the order of arrival apart. *)
Record same_input (s s' : ChannelExpander) : Prop := {
  si_config : (ce_mode s, ce_max_depth s, ce_platforms s, ce_user_channels s)
    = (ce_mode s', ce_max_depth s', ce_platforms s', ce_user_channels s');
  si_entries u : entries_of s u ≡ entries_of s' u
}.

Lemma declares_entries s u source v :
  declares (ce_relations_of s) u source v ↔ ∃ x, x ∈ entries_of s u ∧ (source, v) ∈ declared u x.
Proof.
  unfold declares, entries_of. destruct (ce_relations_of s !! u) as [l|] eqn:E; cbn [from_option id].
  - split; [intros (? & x & [= <-] & ? & ?); eauto|]. intros (x & ? & ?). by exists l, x.
  - split; [by intros (? & ? & ? & _)|]. intros (x & Hx & _). by apply elem_of_nil in Hx.
Qed.

Lemma same_declares s s' : same_input s s' →
  ∀ u source v, declares (ce_relations_of s) u source v ↔ declares (ce_relations_of s') u source v.
Proof. intros [_ H] u source v. rewrite !declares_entries. by setoid_rewrite (H u). Qed.

Lemma distance_ext R R' users n v : (∀ a b, R a b ↔ R' a b) → distance R users n v ↔ distance R' users n v.
Proof.
  intros HR. assert (∀ m w, within R users m w ↔ within R' users m w) as Hw.
  { intros m w. split; intros (u & Hu & Hs); exists u; (split; [done|]); (eapply nsteps_mono; [|exact Hs]); intros; by apply HR. }
  unfold distance. rewrite Hw. by setoid_rewrite Hw.
Qed.

Lemma same_depths s s' : expander_inv [] s → expander_inv [] s' → same_input s s' → ce_depth_of s = ce_depth_of s'.
Proof.
  intros Hi Hi' Hs. pose proof (si_config _ _ Hs) as [= _ Em _ Eu]. apply map_eq. intros v. apply option_eq. intros d.
  rewrite (depth_spec s v d Hi), (depth_spec s' v d Hi'), Em, Eu. f_equiv. apply distance_ext. intros a b.
  unfold refers. setoid_rewrite (same_declares s s' Hs). done.
Qed.

Lemma same_edges s s' : expander_inv [] s → expander_inv [] s' → same_input s s' → ce_edges s ≡ₚ ce_edges s'.
Proof.
  intros Hi Hi' Hs. apply NoDup_Permutation; [apply (ei_edges_nodup _ _ Hi)|apply (ei_edges_nodup _ _ Hi')|]. intros e.
  pose proof (si_config _ _ Hs) as [= _ Em _ Eu]. rewrite (edges_spec s e Hi), (edges_spec s' e Hi'), (same_depths s s' Hi Hi' Hs), Em.
  setoid_rewrite (same_declares s s' Hs). done.
Qed.

(** ** Sequences of answers *)

(** Each subdirectory that arrives is one of a channel which is known by then. *)
Inductive arrivals : ChannelExpander → list (ChannelUrl * option ChannelRelations)
    → list (ChannelUrl * Channel * Subdir) → ChannelExpander → Prop :=
| arrivals_nil s : arrivals s [] [] s
| arrivals_cons s url relations pairs s1 l more s2 :
    is_Some (ce_depth_of s !! url) →
    observe url relations s = Some (Ok (pairs, s1)) →
    arrivals s1 l more s2 →
    arrivals s ((url, relations) :: l) (pairs ++ more) s2.

Fixpoint arrive_all (l : list (ChannelUrl * option ChannelRelations)) (s : ChannelExpander)
  : option (list (ChannelUrl * Channel * Subdir) * ChannelExpander) :=
  match l with
  | [] => Some ([], s)
  | (url, relations) :: l =>
      if bool_decide (is_Some (ce_depth_of s !! url)) then
        match observe url relations s with
        | Some (Ok (pairs, s)) => '(more, s) ← arrive_all l s; Some (pairs ++ more, s)
        | _ => None
        end
      else None
  end.
Lemma arrive_all_arrivals l s pairs s' : arrive_all l s = Some (pairs, s') → arrivals s l pairs s'.
Proof.
  revert s pairs. induction l as [|[url relations] l IH]; intros s pairs; cbn [arrive_all]; [intros [= <- <-]; constructor|].
  case_bool_decide as Hk; [|done]. destruct (observe url relations s) as [[[pairs1 s1]|e]|] eqn:E; [|done..].
  destruct (arrive_all l s1) as [[more s2]|] eqn:E'; [|done]. intros [= <- <-]. econstructor; [done|exact E|by apply IH].
Qed.

(** What the answers declare *)
Definition heard (l : list (ChannelUrl * option ChannelRelations)) (u : ChannelUrl) (x : ChannelRelations) : Prop :=
  (u, Some x) ∈ l ∧ relations_is_empty x = false.
(** The subdirectories to fetch of each channel that is found *)
Definition subdirs_of (platforms : list Subdir) (c : ChannelUrl) : list (ChannelUrl * Channel * Subdir) :=
  (λ platform, (c, channel_from_url c, platform)) <$> platforms.

Record arrived (s : ChannelExpander) (l : list (ChannelUrl * option ChannelRelations))
    (pairs : list (ChannelUrl * Channel * Subdir)) (s' : ChannelExpander) : Prop := {
  ar_wf : expander_wf s';
  ar_config : (ce_mode s', ce_max_depth s', ce_platforms s', ce_user_channels s')
    = (ce_mode s, ce_max_depth s, ce_platforms s, ce_user_channels s);
  ar_known c : is_Some (ce_depth_of s !! c) → is_Some (ce_depth_of s' !! c) ∧ ce_discovered s' !! c = ce_discovered s !! c;
  ar_entries u x : x ∈ entries_of s' u ↔ x ∈ entries_of s u ∨ heard l u x;
  ar_pairs : ∃ found, NoDup found ∧ pairs = found ≫= subdirs_of (ce_platforms s)
    ∧ ∀ c, c ∈ found ↔ ce_depth_of s !! c = None ∧ is_Some (ce_depth_of s' !! c)
}.

Lemma observed_none url s : expander_wf s → arrived s [(url, None)] [] s.
Proof.
  intros Hwf. split; [done|done|done| |].
  - intros u x. unfold heard. rewrite list_elem_of_singleton. naive_solver.
  - exists []. split; [constructor|]. split; [done|]. intros c. split; [intros Hc; by apply elem_of_nil in Hc|].
    intros [Hn [d Hd]]. congruence.
Qed.

Lemma observe_arrived url relations s pairs s' :
  expander_wf s → enabled s = true → is_Some (ce_depth_of s !! url) →
  observe url relations s = Some (Ok (pairs, s')) → arrived s [(url, relations)] pairs s'.
Proof.
  intros Hwf Hen Hurl E. destruct relations as [relations|].
  - destruct (observe_spec url relations s Hwf Hen Hurl) as (r & E' & _ & H). rewrite E in E'. injection E' as <-.
    destruct (H (pairs, s') eq_refl) as [H1 H2 H3 H4 H5]. cbn [fst snd] in *. split; try done.
    intros u x. rewrite H4. unfold heard. rewrite list_elem_of_singleton. naive_solver.
  - unfold observe in E. rewrite Hen in E. injection E as <- <-. by apply observed_none.
Qed.

Lemma arrived_trans s l pairs s1 k more s2 :
  arrived s l pairs s1 → arrived s1 k more s2 → arrived s (l ++ k) (pairs ++ more) s2.
Proof.
  intros [A1 A2 A3 A4 (f1 & N1 & -> & F1)] [B1 B2 B3 B4 (f2 & N2 & -> & F2)]. pose proof A2 as [= _ _ Ep _]. split; [done|by rewrite B2|..].
  - intros c Hc. destruct (A3 c Hc) as [Hc1 <-]. by apply B3.
  - intros u x. rewrite B4, A4. unfold heard. rewrite elem_of_app. naive_solver.
  - exists (f1 ++ f2). split; [|split; [by rewrite bind_app, Ep|]].
    + apply NoDup_app. split; [done|]. split; [|done]. intros c [_ Hc]%F1 [Hn _]%F2. destruct Hc. congruence.
    + intros c. rewrite elem_of_app, F1, F2. destruct (ce_depth_of s !! c) as [d|] eqn:E.
      * destruct (A3 c) as [[d' Hd'] _]; [by rewrite E|]. rewrite Hd'. naive_solver.
      * destruct (ce_depth_of s1 !! c) as [d|] eqn:E1; [|naive_solver]. destruct (B3 c) as [H _]; [by rewrite E1|]. naive_solver.
Qed.

Lemma arrived_refl s : expander_wf s → arrived s [] [] s.
Proof.
  intros Hwf. split; [done|done|done| |].
  - intros u x. unfold heard. rewrite elem_of_nil. naive_solver.
  - exists []. split; [constructor|]. split; [done|]. intros c. rewrite elem_of_nil. split; [done|]. intros [Hn [d Hd]]. congruence.
Qed.

Lemma enabled_config s s' :
  (ce_mode s', ce_max_depth s', ce_platforms s', ce_user_channels s') = (ce_mode s, ce_max_depth s, ce_platforms s, ce_user_channels s) →
  enabled s' = enabled s.
Proof. unfold enabled. by intros [= -> -> _ _]. Qed.

Lemma arrivals_arrived s l pairs s' :
  expander_wf s → enabled s = true → arrivals s l pairs s' → arrived s l pairs s'.
Proof.
  intros Hwf Hen Hr. induction Hr as [s|s url relations pairs s1 l more s2 Hk E Hr IH]; [by apply arrived_refl|].
  pose proof (observe_arrived _ _ _ _ _ Hwf Hen Hk E) as Ha.
  apply (arrived_trans s [(url, relations)] pairs s1); [done|]. apply IH; [apply Ha|]. rewrite <-Hen. apply enabled_config, Ha.
Qed.

(** Two orders of the same answers *)
Lemma arrived_same s l pairs s1 k more s2 :
  expander_wf s → l ≡ₚ k → arrived s l pairs s1 → arrived s k more s2 →
  same_input s1 s2 ∧ ce_discovered s1 = ce_discovered s2 ∧ pairs ≡ₚ more.
Proof.
  intros Hwf Hp [A1 A2 A3 A4 (f1 & N1 & -> & F1)] [B1 B2 B3 B4 (f2 & N2 & -> & F2)].
  assert (same_input s1 s2) as Hs.
  { split; [by rewrite A2, B2|]. intros u x. rewrite A4, B4. unfold heard. by rewrite Hp. }
  pose proof (same_depths s1 s2 (wf_inv _ A1) (wf_inv _ B1) Hs) as Ed. split; [done|]. split.
  - apply map_eq. intros c. destruct (ce_depth_of s !! c) as [d|] eqn:E.
    { destruct (A3 c) as [_ ->]; [by rewrite E|]. destruct (B3 c) as [_ ->]; [by rewrite E|]. done. }
    assert (is_Some (ce_discovered s1 !! c) ↔ is_Some (ce_discovered s2 !! c)) as Hiff
      by (by rewrite (wf_discovered _ A1), (wf_discovered _ B1), Ed).
    assert (∀ s', expander_wf s' → ce_user_channels s' = ce_user_channels s1 → ∀ ch, ce_discovered s' !! c = Some ch → ch = channel_from_url c) as Hch.
    { intros s' Hwf' Eu' ch Hc. apply (wf_channel _ Hwf' c ch Hc). rewrite Eu'. injection A2 as _ _ _ ->.
      intros Hin%(ei_users _ _ (wf_inv _ Hwf)). congruence. }
    destruct (ce_discovered s1 !! c) as [ch|] eqn:E1, (ce_discovered s2 !! c) as [ch'|] eqn:E2; [|naive_solver..].
    f_equal. pose proof A2 as [= _ _ _ Ea]. pose proof B2 as [= _ _ _ Eb].
    rewrite (Hch s1 A1 eq_refl ch E1). by rewrite (Hch s2 B1 (eq_trans Eb (eq_sym Ea)) ch' E2).
  - assert (f1 ≡ₚ f2) as Hf by (apply NoDup_Permutation; [done..|]; intros c; by rewrite F1, F2, Ed).
    by rewrite Hf.
Qed.

(** ** The end of the query *)

(** The outcome of a step that may only add warnings or, in the strict mode, give up: it gives
    up exactly when [bad]. *)
Definition warns (bad : Prop) (s : ChannelExpander) (m : outcome GatewayError ChannelExpander) : Prop :=
  (∃ s', m = Some (Ok s') ∧ erase s' = erase s ∧ (strict s = true → ¬ bad))
  ∨ (∃ e, m = Some (Err e) ∧ strict s = true ∧ bad).

Lemma warns_report w s : warns True s (report w s).
Proof.
  unfold warns, report. destruct (strict s) eqn:E; [right; eauto|left]. eexists. split; [done|]. split; [apply erase_push|done].
Qed.
Lemma warns_ok s : warns False s (Some (Ok s)).
Proof. left. exists s. naive_solver. Qed.
Lemma warns_iff bad bad' s m : (bad ↔ bad') → warns bad s m → warns bad' s m.
Proof. unfold warns. intros H. by setoid_rewrite H. Qed.

Lemma warns_bind bad bad' s m k :
  warns bad s m → (∀ s', erase s' = erase s → warns bad' s' (k s')) → warns (bad ∨ bad') s (outcome_bind m k).
Proof.
  intros [(s1 & -> & E1 & Hb)|(e & -> & Hst & Hb)] Hk; cbn [outcome_bind]; [|right; eauto].
  destruct (Hk s1 E1) as [(s2 & -> & E2 & Hb')|(e & -> & Hst & Hb')]; [left|right].
  - exists s2. split; [done|]. rewrite (strict_erase _ _ E1) in Hb'. split; [congruence|]. intros Hst [?|?]; [by apply Hb|by apply Hb'].
  - exists e. rewrite (strict_erase _ _ E1) in Hst. split; [done|]. split; [done|]. by right.
Qed.

Lemma warns_for {A} (bad : A → Prop) (l : list A) f s :
  (∀ x s', x ∈ l → erase s' = erase s → warns (bad x) s' (f x s')) → warns (∃ x, x ∈ l ∧ bad x) s (for_try l f s).
Proof.
  revert s. induction l as [|x l IH]; intros s Hf; cbn [for_try].
  { eapply warns_iff; [|apply warns_ok]. set_solver. }
  eapply warns_iff; [|apply (warns_bind (bad x) (∃ y, y ∈ l ∧ bad y))].
  - setoid_rewrite elem_of_cons. naive_solver.
  - apply Hf; [by left|done].
  - intros s' E. apply IH. intros y s2 Hy E2. apply Hf; [by right|congruence].
Qed.

Lemma warns_refusal u reference s :
  warns (∃ v, resolved u reference = Some v ∧ v ≠ u) s (report_refusal u reference s).
Proof.
  unfold report_refusal. destruct reference as [reference|].
  2: { eapply warns_iff; [|apply warns_ok]. unfold resolved. simpl. naive_solver. }
  destruct (resolved u (Some reference)) as [v|]; [|eapply warns_iff; [|apply warns_ok]; naive_solver].
  case_bool_decide; (eapply warns_iff; [|apply warns_ok || apply warns_report]); naive_solver.
Qed.

Lemma declared_any u relations :
  declared u relations ≠ [] ↔
    (∀ b, resolved u (cr_base relations) = Some b → resolved u (cr_overrides relations) ≠ Some b)
    ∧ ((∃ v, resolved u (cr_base relations) = Some v ∧ v ≠ u) ∨ (∃ v, resolved u (cr_overrides relations) = Some v ∧ v ≠ u)).
Proof.
  assert (∀ l : list (EdgeSource * ChannelUrl), filter (λ x, x.2 ≠ u) l ≠ [] ↔ ∃ x, x ∈ l ∧ x.2 ≠ u) as Hf.
  { intros l. split.
    - intros Hne. destruct (filter (λ x, x.2 ≠ u) l) as [|x k] eqn:E; [done|]. exists x.
      assert (x ∈ filter (λ x, x.2 ≠ u) l) as [? ?]%list_elem_of_filter by (rewrite E; by left). done.
    - intros (x & Hx & Hu) E. assert (x ∈ filter (λ x, x.2 ≠ u) l) as Hin by by apply list_elem_of_filter.
      rewrite E in Hin. by apply elem_of_nil in Hin. }
  unfold declared. destruct (resolved u (cr_base relations)) as [b|], (resolved u (cr_overrides relations)) as [o|];
    [case_bool_decide; [naive_solver|]|..]; rewrite ?Hf; set_solver.
Qed.

Lemma warns_refusals u relations s : warns (declared u relations ≠ []) s (report_refusals u relations s).
Proof.
  eapply warns_iff; [symmetry; apply declared_any|]. unfold report_refusals.
  assert (warns ((∃ v, resolved u (cr_base relations) = Some v ∧ v ≠ u) ∨ (∃ v, resolved u (cr_overrides relations) = Some v ∧ v ≠ u)) s
    (self ⇐ report_refusal u (cr_base relations) s; report_refusal u (cr_overrides relations) self)) as Hboth.
  { apply warns_bind; [apply warns_refusal|]. intros s' _. apply warns_refusal. }
  destruct (resolved u (cr_base relations)) as [b|], (resolved u (cr_overrides relations)) as [o|];
    [case_bool_decide|..]; (eapply warns_iff; [|apply warns_ok || apply Hboth]); naive_solver.
Qed.

(** A reference was not followed because of the limit. *)
Definition too_deep (s : ChannelExpander) : Prop :=
  ∃ u x, x ∈ entries_of s u ∧ is_refused s u = true ∧ declared u x ≠ [].

Lemma depth_refusals_spec s : warns (too_deep s) s (report_depth_refusals s).
Proof.
  unfold report_depth_refusals. eapply warns_iff; [|apply (warns_for (λ x, ∃ relations, relations ∈ x.2 ∧ declared x.1 relations ≠ []))].
  - unfold too_deep, entries_of. setoid_rewrite sort_by_perm.
    split.
    + intros ([u l] & Hin & x & Hx & Hd). apply list_elem_of_In, List.filter_In in Hin as [Hin Hr]. apply list_elem_of_In, elem_of_map_to_list in Hin.
      exists u, x. by rewrite Hin.
    + intros (u & x & Hx & Hr & Hd). destruct (ce_relations_of s !! u) as [l|] eqn:E; [|by apply elem_of_nil in Hx].
      exists (u, l). split; [|by exists x]. apply list_elem_of_In, List.filter_In. split; [|done]. by apply list_elem_of_In, elem_of_map_to_list.
  - intros x s' _ _. apply (warns_for (λ relations, declared x.1 relations ≠ [])). intros relations s2 _ _. apply warns_refusals.
Qed.

Lemma too_deep_same s s' : same_input s s' → ce_depth_of s = ce_depth_of s' → too_deep s ↔ too_deep s'.
Proof.
  intros Hs Ed. unfold too_deep, is_refused. pose proof (si_config _ _ Hs) as [= _ -> _ _]. rewrite Ed.
  by setoid_rewrite (si_entries _ _ Hs).
Qed.

Lemma push_all_erase {A} (f : A → ChannelRelationsWarning) l s : erase (foldl (λ s x, push_warning (f x) s) s l) = erase s.
Proof. revert s. induction l as [|x l IH]; intros s; [done|]. cbn [foldl]. by rewrite IH, erase_push. Qed.

(** The resolution is that of the channels and the edges in their canonical order; in the
    strict mode the query fails when a reference is too deep or an edge is broken. *)
Lemma finalize_spec s : expander_wf s → ∃ resolution,
  resolve_channel_priority (ce_user_channels s) (canonical_nodes s) (canonical_edges s) = Some resolution
  ∧ ((∃ s', finalize s = Some (Ok (resolution, s')) ∧ erase s' = erase s
        ∧ (strict s = true → ¬ (too_deep s ∨ broken_cycle_edges resolution ≠ [])))
     ∨ (∃ e, finalize s = Some (Err e) ∧ strict s = true ∧ (too_deep s ∨ broken_cycle_edges resolution ≠ []))).
Proof.
  intros Hwf. destruct (resolve_total (ce_user_channels s) (canonical_nodes s) (canonical_edges s)) as [resolution Hres].
  { unfold canonical_edges. rewrite Forall_forall. setoid_rewrite sort_by_perm. apply Forall_forall, wf_sources, Hwf. }
  exists resolution. split; [done|]. unfold finalize.
  destruct (depth_refusals_spec s) as [(s1 & -> & E1 & Hb)|(e & -> & Hst & Hb)]; cbn [outcome_bind]; [|right; eauto 6].
  change (ce_user_channels s1) with (ce_user_channels (erase s1)). change (canonical_nodes s1) with (canonical_nodes (erase s1)).
  change (canonical_edges s1) with (canonical_edges (erase s1)). rewrite E1.
  change (resolve_channel_priority (ce_user_channels (erase s)) (canonical_nodes (erase s)) (canonical_edges (erase s)))
    with (resolve_channel_priority (ce_user_channels s) (canonical_nodes s) (canonical_edges s)).
  rewrite Hres. cbv zeta. set (s2 := foldl _ s1 _).
  assert (erase s2 = erase s) as E2 by (unfold s2; by rewrite push_all_erase).
  case_bool_decide as Hbr.
  { left. exists s2. split; [done|]. split; [congruence|]. intros Hst [?|?]; [by apply Hb|done]. }
  destruct (warns_report (CycleBroken ((λ e, (edge_from e, edge_to e)) <$> broken_cycle_edges resolution)) s2)
    as [(s3 & -> & E3 & Hb3)|(e & -> & Hst & _)]; cbn [outcome_bind]; rewrite ?(strict_erase _ _ E2) in *.
  - left. exists s3. split; [done|]. split; [congruence|]. intros Hst. by destruct (Hb3 Hst).
  - right. eauto 6.
Qed.

(** ** The start of the query *)

(** Only channels of the user are known. *)
Record starting (s : ChannelExpander) : Prop := {
  st_users : NoDup (ce_user_channels s);
  st_depth v d : ce_depth_of s !! v = Some d ↔ v ∈ ce_user_channels s ∧ d = 0;
  st_discovered v : is_Some (ce_discovered s !! v) ↔ v ∈ ce_user_channels s;
  st_relations : ce_relations_of s = ∅;
  st_edges : ce_edges s = []
}.

Lemma starting_wf s : starting s → expander_wf s.
Proof.
  intros [H1 H2 H3 H4 H5]. split; [|done|..].
  - split; rewrite ?H4, ?H5.
    + intros u Hu. by apply H2.
    + intros v d [Hv ->]%H2. split; [lia|]. exists v. split; [done|constructor].
    + intros u d source v _ _ _ (entries & ? & He & _). by rewrite lookup_empty in He.
    + intros e He. by apply elem_of_nil in He.
    + constructor.
    + set_solver.
  - intros c. rewrite H3. split.
    + intros Hc. exists 0. by apply H2.
    + intros [d [Hc _]%H2]. done.
  - intros c ch Hc Hn. destruct Hn. apply H3. eauto.
Qed.

Lemma starting_new mode max_depth platforms reporter : starting (expander_new mode max_depth platforms reporter).
Proof.
  split; cbn; [constructor|..|done|done]; intros v; [intros d|]; rewrite lookup_empty, elem_of_nil; [naive_solver|].
  split; [by intros [? ?]|done].
Qed.

Lemma starting_register channel s url known s' :
  starting s → register_user_channel channel s = Some (url, known, s') → starting s' ∧ url ∈ ce_user_channels s'.
Proof.
  intros Hs. pose proof Hs as [H1 H2 H3 H4 H5]. unfold register_user_channel. destruct (url_parse (ch_base_url channel)) as [u|]; [|done].
  cbn [mbind option_bind]. destruct (ce_discovered s !! u) as [existing|] eqn:E; intros [= -> <- <-].
  { split; [done|]. apply H3. eauto. }
  assert (url ∉ ce_user_channels s) as Hn by (rewrite <-H3, E; by intros [? ?]).
  split; [|cbn; set_solver]. split; cbn [ce_user_channels ce_depth_of ce_discovered ce_relations_of ce_edges with_channels]; [..|done|done].
  - apply NoDup_app. split; [done|]. split; [set_solver|apply NoDup_singleton].
  - intros v d. rewrite elem_of_app, list_elem_of_singleton. destruct (decide (v = url)) as [->|Hne].
    + rewrite lookup_insert_eq. split; [intros [= <-]; split; [by right|done]|by intros [_ ->]].
    + rewrite lookup_insert_ne, H2 by done. naive_solver.
  - intros v. rewrite elem_of_app, list_elem_of_singleton. destruct (decide (v = url)) as [->|Hne].
    + rewrite lookup_insert_eq. split; [by right|eauto].
    + rewrite lookup_insert_ne, H3 by done. naive_solver.
Qed.

Lemma starting_all channels s s' : starting s → register_all channels s = Some s' → starting s'.
Proof.
  revert s. induction channels as [|channel channels IH]; intros s Hs; cbn [register_all]; [by intros [= <-]|].
  destruct (register_user_channel channel s) as [[[url known] s1]|] eqn:E; [|done]. cbn [mbind option_bind].
  apply IH. by eapply starting_register.
Qed.

(** [u] was heard to refer to [v]. *)
Definition says (l : list (ChannelUrl * option ChannelRelations)) (u : ChannelUrl) (source : EdgeSource) (v : ChannelUrl) : Prop :=
  ∃ x, heard l u x ∧ (source, v) ∈ declared u x.
Definition refers_to l (u v : ChannelUrl) : Prop := ∃ source, says l u source v.

Lemma arrived_says s l pairs s' :
  starting s → arrived s l pairs s' → ∀ u source v, declares (ce_relations_of s') u source v ↔ says l u source v.
Proof.
  intros Hst [_ _ _ He _] u source v. rewrite declares_entries. unfold says. setoid_rewrite He.
  unfold entries_of. rewrite (st_relations _ Hst), lookup_empty. cbn [from_option id]. set_solver.
Qed.

(** C7: After any sequence of answers the expander knows the channels within the limit, each
    with its distance from the user's channels; its edges are the references of the channels
    that are near enough; every channel was scheduled once for each platform; and the next
    answer of a known channel is taken, unless the strict mode refuses it. *)
Theorem expander_finds_near_channels mode max_depth platforms reporter channels s l pairs s' :
  register_all channels (expander_new mode max_depth platforms reporter) = Some s → enabled s = true →
  arrivals s l pairs s' →
  (∀ v d, ce_depth_of s' !! v = Some d ↔ distance (refers_to l) (ce_user_channels s) d v ∧ d ≤ ce_max_depth s)
  ∧ NoDup (ce_edges s')
  ∧ (∀ e, e ∈ ce_edges s' ↔ ∃ u source v d, says l u source v ∧ e = edge_of source u v
       ∧ ce_depth_of s' !! u = Some d ∧ d + 1 ≤ ce_max_depth s)
  ∧ (∃ found, NoDup found ∧ pairs = found ≫= subdirs_of (ce_platforms s)
       ∧ ∀ c, c ∈ found ↔ is_Some (ce_depth_of s' !! c) ∧ c ∉ ce_user_channels s)
  ∧ (∀ url relations, is_Some (ce_depth_of s' !! url) → ∃ r, observe url relations s' = Some r
       ∧ (strict s = false → ∃ x, r = Ok x)).
Proof.
  intros Hreg Hen Hr. pose proof (starting_all _ _ _ (starting_new _ _ _ _) Hreg) as Hst.
  pose proof (arrivals_arrived _ _ _ _ (starting_wf _ Hst) Hen Hr) as Ha. pose proof (arrived_says _ _ _ _ Hst Ha) as Hsay.
  destruct Ha as [Hwf Hcfg Hk He Hp]. pose proof Hcfg as [= Em Emax Epl Eu]. pose proof (wf_inv _ Hwf) as Hinv.
  split; [|split; [apply (ei_edges_nodup _ _ Hinv)|split; [|split]]].
  - intros v d. rewrite (depth_spec s' v d Hinv), Emax, Eu. f_equiv. apply distance_ext. intros a b. unfold refers, refers_to.
    by setoid_rewrite Hsay.
  - intros e. rewrite (edges_spec s' e Hinv), Emax. by setoid_rewrite Hsay.
  - destruct Hp as (found & Hnd & -> & Hf). exists found. split; [done|]. split; [done|]. intros c. rewrite Hf.
    split; intros [H1 H2]; (split; [try done|try done]).
    + intros Hc. assert (ce_depth_of s !! c = Some 0) by by apply Hst. congruence.
    + destruct (ce_depth_of s !! c) as [d|] eqn:E; [|done]. by apply Hst in E as [? _].
  - intros url relations Hurl. assert (enabled s' = true) as Hen' by (rewrite <-Hen; by apply enabled_config).
    destruct relations as [relations|].
    + destruct (observe_spec url relations s' Hwf Hen' Hurl) as (r & E & H & _). exists r. split; [done|].
      intros Hs. apply H. unfold strict in *. by rewrite Em.
    + unfold observe. rewrite Hen'. cbn [negb]. eauto.
Qed.

(** C11: Every channel that was found, and no other, is anchored, to the first channel of the
    user in the order of their priority that leads to it through channels which are not the
    user's: no bucket of the result is without a place. *)
Theorem discovered_channels_anchored mode max_depth platforms reporter channels s l pairs s' user_priority :
  register_all channels (expander_new mode max_depth platforms reporter) = Some s → enabled s = true →
  arrivals s l pairs s' → (∀ u, u ∈ user_priority ↔ u ∈ ce_user_channels s) →
  ∃ m, anchors user_priority s' = Some m
    ∧ (∀ t u, m !! t = Some u ↔ first_leading s' user_priority t u)
    ∧ ∀ c, is_Some (m !! c) ↔ is_Some (ce_depth_of s' !! c) ∧ c ∉ ce_user_channels s.
Proof.
  intros Hreg Hen Hr Hu. pose proof (starting_wf _ (starting_all _ _ _ (starting_new _ _ _ _) Hreg)) as Hwf.
  destruct (arrivals_arrived _ _ _ _ Hwf Hen Hr) as [Hwf' [= _ _ _ Eu] _ _ _]. rewrite <-Eu in *.
  apply anchored; [apply Hwf'|done].
Qed.

(** Two states that know the same end alike. *)
Lemma finalize_same s1 s2 :
  expander_wf s1 → expander_wf s2 → same_input s1 s2 → ce_discovered s1 = ce_discovered s2 →
  (∀ resolution, (∃ s', finalize s1 = Some (Ok (resolution, s'))) ↔ (∃ s', finalize s2 = Some (Ok (resolution, s'))))
  ∧ ((∃ e, finalize s1 = Some (Err e)) ↔ (∃ e, finalize s2 = Some (Err e)))
  ∧ is_Some (finalize s1) ∧ (strict s1 = false → ∃ x, finalize s1 = Some (Ok x)).
Proof.
  intros Hwf1 Hwf2 Hs Ed.
  pose proof (same_depths _ _ (wf_inv _ Hwf1) (wf_inv _ Hwf2) Hs) as Edepth.
  pose proof (same_edges _ _ (wf_inv _ Hwf1) (wf_inv _ Hwf2) Hs) as Eedges.
  pose proof (si_config _ _ Hs) as [= Em _ _ Eu].
  assert (strict s1 = strict s2) as Est by (unfold strict; by rewrite Em).
  pose proof (too_deep_same _ _ Hs Edepth) as Hdeep.
  destruct (finalize_spec s1 Hwf1) as (res1 & E1 & F1), (finalize_spec s2 Hwf2) as (res2 & E2 & F2).
  assert (canonical_nodes s1 = canonical_nodes s2) as En by (unfold canonical_nodes; by rewrite Eu, Ed).
  assert (canonical_edges s1 = canonical_edges s2) as Ee by (by apply (sort_by_cmp_unique priority_edge_cmp)).
  rewrite Eu, En, Ee, E2 in E1. injection E1 as <-. rewrite <-Est in F2. setoid_rewrite <-Hdeep in F2. clear -F1 F2.
  destruct F1 as [(x & -> & _ & H1)|(e & -> & Hst & H1)], F2 as [(y & -> & _ & H2)|(e' & -> & Hst' & H2)].
  - split; [|split; [|split]]; [|by split; intros [? ?]|done|eauto].
    intros resolution. split; intros [? [= <- <-]]; eauto.
  - by destruct (H1 Hst').
  - by destruct (H2 Hst).
  - split; [|split; [|split]]; [by split; intros [? ?]|by split; eauto|done|congruence].
Qed.

(** C8: The order in which the subdirectories arrive does not matter: the same answers in
    another order lead to the same channels, depths and edges, schedule the same
    subdirectories, and end with the same resolution and the same anchors or both fail. *)
Theorem arrival_order_irrelevant mode max_depth platforms reporter channels s l k pairs s1 more s2 :
  register_all channels (expander_new mode max_depth platforms reporter) = Some s → enabled s = true →
  l ≡ₚ k → arrivals s l pairs s1 → arrivals s k more s2 →
  pairs ≡ₚ more ∧ ce_discovered s1 = ce_discovered s2 ∧ ce_depth_of s1 = ce_depth_of s2 ∧ ce_edges s1 ≡ₚ ce_edges s2
  ∧ (∀ resolution, (∃ s', finalize s1 = Some (Ok (resolution, s'))) ↔ (∃ s', finalize s2 = Some (Ok (resolution, s'))))
  ∧ ((∃ e, finalize s1 = Some (Err e)) ↔ (∃ e, finalize s2 = Some (Err e)))
  ∧ is_Some (finalize s1) ∧ (strict s = false → ∃ x, finalize s1 = Some (Ok x))
  ∧ ∀ user_priority, anchors user_priority s1 = anchors user_priority s2.
Proof.
  intros Hreg Hen Hp Hl Hk. pose proof (starting_wf _ (starting_all _ _ _ (starting_new _ _ _ _) Hreg)) as Hwf.
  pose proof (arrivals_arrived _ _ _ _ Hwf Hen Hl) as Ha. pose proof (arrivals_arrived _ _ _ _ Hwf Hen Hk) as Hb.
  destruct (arrived_same _ _ _ _ _ _ _ Hwf Hp Ha Hb) as (Hs & Ed & Epairs). destruct Ha as [Hwf1 Hcfg _ _ _], Hb as [Hwf2 _ _ _ _].
  pose proof (same_depths _ _ (wf_inv _ Hwf1) (wf_inv _ Hwf2) Hs) as Edepth.
  pose proof (same_edges _ _ (wf_inv _ Hwf1) (wf_inv _ Hwf2) Hs) as Eedges.
  split; [done|]. split; [done|]. split; [done|]. split; [done|].
  assert (strict s1 = strict s) as Est by (injection Hcfg as E _ _ _; unfold strict; by rewrite E). rewrite <-Est.
  destruct (finalize_same s1 s2 Hwf1 Hwf2 Hs Ed) as (F1 & F2 & F3 & F4).
  split; [exact F1|]. split; [exact F2|]. split; [exact F3|]. split; [exact F4|].
  intros user_priority. apply anchors_ext; [done|]. by pose proof (si_config _ _ Hs) as [= _ _ _ ->].
Qed.
End theorems.

(** ** A concrete environment: relative paths are resolved segment by segment. *)
Definition join_segments (base reference : list text) : list text :=
  foldl (λ acc segment, if bool_decide (segment = txt "..") then removelast acc else acc ++ [segment]) base reference.
#[local] Instance url_paths_parent : UrlPaths (UC := url_crate_parts) :=
  {| url_join u reference :=
       Some (set_path u (join [c_slash]
         (join_segments (removelast (split_char c_slash (up_path (url_parts u)))) (split_char c_slash reference))));
     push_path_segments u _ := u |}.
#[local] Instance join_errors_none : JoinErrors (UC := url_crate_parts) := {| join_error _ _ := [] |}.

Definition sample_channel_url (path : text) : @Url url_crate_parts :=
  exist _ (mkUrlParts (txt "https") [] None (Some (txt "prefix.dev")) path None None) eq_refl.
Definition chan_a := sample_channel_url (txt "/a/").
Definition chan_b := sample_channel_url (txt "/b/").
Definition chan_c := sample_channel_url (txt "/c/").

(** The channel [a] of the user has [b] as its base, which overrides [c]. *)
Definition sample_start : option ChannelExpander :=
  register_all [channel_from_url chan_a] (expander_new Warn 16 [NoArch; Linux64] None).
Definition a_extends_b : option ChannelRelations := Some (mkChannelRelations (Some (txt "../b")) None).
Definition b_overrides_c : option ChannelRelations := Some (mkChannelRelations None (Some (txt "../c/"))).
Definition first_order := [(chan_a, a_extends_b); (chan_a, None); (chan_b, b_overrides_c); (chan_c, b_overrides_c)].
Definition second_order := [(chan_a, None); (chan_a, a_extends_b); (chan_b, b_overrides_c); (chan_c, b_overrides_c)].

(** What the two runs compute *)
Definition sample_facts (l k : list (@Url url_crate_parts * option ChannelRelations)) : Prop :=
  ∃ s pairs s1 more s2 resolution s',
    sample_start = Some s ∧ arrive_all l s = Some (pairs, s1) ∧ arrive_all k s = Some (more, s2)
    ∧ finalize s1 = Some (Ok (resolution, s'))
    ∧ (enabled s = true ∧ strict s = false ∧ ce_user_channels s = [chan_a] ∧ ce_depth_of s1 !! chan_c = Some 2
       ∧ length pairs = 4 ∧ r_order resolution = [chan_b; chan_c; chan_a] ∧ broken_cycle_edges resolution = []).
Definition sample_check (l k : list (@Url url_crate_parts * option ChannelRelations)) : bool :=
  match sample_start with
  | Some s =>
      match arrive_all l s, arrive_all k s with
      | Some (pairs, s1), Some (more, s2) =>
          match finalize s1 with
          | Some (Ok (resolution, _)) =>
              bool_decide (enabled s = true ∧ strict s = false ∧ ce_user_channels s = [chan_a] ∧ ce_depth_of s1 !! chan_c = Some 2
                ∧ length pairs = 4 ∧ r_order resolution = [chan_b; chan_c; chan_a] ∧ broken_cycle_edges resolution = [])
          | _ => false
          end
      | _, _ => false
      end
  | None => false
  end.
Lemma sample_check_facts l k : sample_check l k = true → sample_facts l k.
Proof.
  unfold sample_check, sample_facts. destruct sample_start as [s|]; [|done].
  destruct (arrive_all l s) as [[pairs s1]|] eqn:E1; [|done]. destruct (arrive_all k s) as [[more s2]|] eqn:E2; [|done].
  destruct (finalize s1) as [[[resolution s']|e]|] eqn:E3; [|done..]. intros H. apply bool_decide_eq_true in H.
  by exists s, pairs, s1, more, s2, resolution, s'.
Qed.

Lemma expander_finds_near_channels_witness :
  ∃ s pairs s', sample_start = Some s ∧ arrive_all first_order s = Some (pairs, s')
    ∧ distance (refers_to first_order) [chan_a] 2 chan_c ∧ length pairs = 4
    ∧ ∃ r, observe chan_c a_extends_b s' = Some r ∧ ∃ x, r = Ok x.
Proof.
  destruct (sample_check_facts first_order first_order) as (s & pairs & s' & _ & _ & _ & _ & Es & Er & _ & _ & Hen & Hst & Eu & Hc & Hl & _);
    [vm_compute; reflexivity|].
  destruct (expander_finds_near_channels _ _ _ _ _ s first_order pairs s' Es Hen (arrive_all_arrivals _ _ _ _ Er))
    as (Hd & _ & _ & _ & Hnext). rewrite Eu in Hd.
  exists s, pairs, s'. split; [exact Es|]. split; [exact Er|]. split; [by apply Hd|]. split; [exact Hl|].
  destruct (Hnext chan_c a_extends_b) as (r & E & H); [by exists 2|]. exists r. split; [exact E|by apply H].
Defined.

Lemma discovered_channels_anchored_witness :
  ∃ s pairs s' m, sample_start = Some s ∧ arrive_all first_order s = Some (pairs, s')
    ∧ anchors [chan_a] s' = Some m ∧ m !! chan_c = Some chan_a.
Proof.
  destruct (sample_check_facts first_order first_order) as (s & pairs & s' & _ & _ & _ & _ & Es & Er & _ & _ & Hen & _ & Eu & Hc & _);
    [vm_compute; reflexivity|].
  destruct (discovered_channels_anchored _ _ _ _ _ s first_order pairs s' [chan_a] Es Hen (arrive_all_arrivals _ _ _ _ Er))
    as (m & E & Hm & Hd); [by rewrite Eu|].
  exists s, pairs, s', m. split; [exact Es|]. split; [exact Er|]. split; [exact E|].
  destruct (proj2 (Hd chan_c)) as [u Hu].
  { split; [by exists 2|]. rewrite Eu. apply (bool_decide_unpack _). vm_compute. exact I. }
  pose proof Hu as (l1 & l2 & El & _)%Hm. rewrite Hu. f_equal. destruct l1 as [|? [|??]]; by simplify_eq/=.
Defined.

Lemma arrival_order_irrelevant_witness :
  ∃ s pairs s1 more s2, sample_start = Some s ∧ arrive_all first_order s = Some (pairs, s1)
    ∧ arrive_all second_order s = Some (more, s2) ∧ pairs ≡ₚ more
    ∧ ∃ resolution, r_order resolution = [chan_b; chan_c; chan_a] ∧ broken_cycle_edges resolution = []
        ∧ (∃ s', finalize s1 = Some (Ok (resolution, s'))) ∧ (∃ s', finalize s2 = Some (Ok (resolution, s'))).
Proof.
  destruct (sample_check_facts first_order second_order)
    as (s & pairs & s1 & more & s2 & resolution & s' & Es & Er & Ek & Ef & Hen & _ & _ & _ & _ & Ho & Hb); [vm_compute; reflexivity|].
  destruct (arrival_order_irrelevant _ _ _ _ _ s first_order second_order pairs s1 more s2 Es Hen)
    as (Hp & _ & _ & _ & Hres & _); [by constructor|by apply arrive_all_arrivals..|].
  exists s, pairs, s1, more, s2. split; [exact Es|]. split; [exact Er|]. split; [exact Ek|]. split; [exact Hp|].
  exists resolution. split; [exact Ho|]. split; [exact Hb|]. split; [by exists s'|]. apply Hres. by exists s'.
Defined.
