(* ===== verification/SubdirData.v ===== *)
(** * The records of a subdirectory

    [rattler_repodata_gateway/src/gateway/subdir.rs]: what is known of the subdirectory of a
    channel, and the dependencies of the records of one package, split by the extra that
    asks for them.  A client, which reads or downloads the repodata, is a class; the cache in
    front of it is the coalescing map, which returns what the client does. *)
From stdpp Require Import gmap sets list.
From S2P Require Import Prelude Externs TextOps Redaction FileUrl VersionSpec Subdir Archive PackageName Records MatchSpecs Channels.
From S2P Require Import ChannelRelations ChannelExpander.

Local Notation text := (list N).

(** ** Definitions *)

Record RemovedPackage `{UC : UrlCrate} := mkRemovedPackage {
  rp_url : Url;
  rp_identifier : DistArchiveIdentifier;
  rp_channel : option text
}.

Section subdir.
Context `{UC : UrlCrate}.

Definition ExtraDeps : Type := gmap text (list text).
Record PackageRecords := mkPackageRecords {
  pr_records : list RepoDataRecord;
  pr_removed : list RemovedPackage;
  pr_unique_base_deps : list text;
  pr_unique_extra_deps : ExtraDeps
}.
Definition package_records_default : PackageRecords := mkPackageRecords [] [] [] ∅.

(** A set and the list of its elements in the order in which they came *)
Definition insert_unique (s : gset text * list text) (dep : text) : gset text * list text :=
  let '(seen, unique) := s in
  if bool_decide (dep ∈ seen) then s else ({[dep]} ∪ seen, unique ++ [dep]).

Definition add_extra_deps (per_extra : gmap text (gset text * list text)) (x : text * list text)
  : gmap text (gset text * list text) :=
  let '(extra, extra_deps) := x in
  <[extra := foldl insert_unique (default (∅, []) (per_extra !! extra)) extra_deps]> per_extra.

Definition extract_unique_deps_split (records : list RepoDataRecord) : list text * ExtraDeps :=
  let '((base_seen, base), per_extra) :=
    foldl (λ s record,
      let '(base, per_extra) := s in
      (foldl insert_unique base (rec_depends (rd_package_record record)),
       foldl add_extra_deps per_extra (map_to_list (rec_extra_depends (rd_package_record record)))))
      ((∅, []), ∅) records in
  (base,
   omap (λ x : gset text * list text,
     let filtered := List.filter (λ d, negb (bool_decide (d ∈ base_seen))) x.2 in
     if bool_decide (filtered = []) then None else Some filtered) per_extra).
End subdir.

Class SubdirClients `{UC : UrlCrate} := {
  SubdirClient : Type;
  client_fetch_package_records : SubdirClient → PackageName → result GatewayError PackageRecords;
  client_package_names : SubdirClient → list text;
  client_channel_relations : SubdirClient → option ChannelRelations
}.

Section state.
Context `{SC : SubdirClients}.

Inductive SubdirState : Type := NotFound | Found (client : SubdirClient).

Definition subdir_package_names (self : SubdirState) : option (list text) :=
  match self with Found subdir => Some (client_package_names subdir) | NotFound => None end.
Definition subdir_channel_relations (self : SubdirState) : option ChannelRelations :=
  match self with Found subdir => client_channel_relations subdir | NotFound => None end.
(** [get_or_fetch_package_records], behind the barrier of the subdirectory *)
Definition fetch_from (self : SubdirState) (name : PackageName) : result GatewayError PackageRecords :=
  match self with
  | Found subdir => client_fetch_package_records subdir name
  | NotFound => Ok package_records_default
  end.
End state.

(** ** Theorems *)
Section theorems.
Context `{UC : UrlCrate}.

(** The set has the elements of the list, once each. *)
Definition unique_ok (s : gset text * list text) : Prop := NoDup s.2 ∧ ∀ d, d ∈ s.1 ↔ d ∈ s.2.

Lemma insert_unique_spec s dep :
  unique_ok s → unique_ok (insert_unique s dep) ∧ ∀ d, d ∈ (insert_unique s dep).2 ↔ d ∈ s.2 ∨ d = dep.
Proof.
  destruct s as [seen unique]. intros [Hnd Hin]. unfold insert_unique, unique_ok in *. cbn [fst snd] in *.
  case_bool_decide as Hd; cbn [fst snd]; [split; [done|]; rewrite Hin in Hd; set_solver|].
  split; [split|set_solver]; [|set_solver]. apply NoDup_app. split; [done|]. split; [|apply NoDup_singleton].
  rewrite Hin in Hd. set_solver.
Qed.

Lemma insert_all_spec deps s :
  unique_ok s → unique_ok (foldl insert_unique s deps) ∧ ∀ d, d ∈ (foldl insert_unique s deps).2 ↔ d ∈ s.2 ∨ d ∈ deps.
Proof.
  revert s. induction deps as [|dep deps IH]; intros s Hs; cbn [foldl]; [set_solver|].
  destruct (insert_unique_spec s dep Hs) as [H1 H2]. destruct (IH _ H1) as [H3 H4]. split; [done|]. intros d. rewrite H4, H2. set_solver.
Qed.

Definition extras_ok (m : gmap text (gset text * list text)) : Prop := map_Forall (λ _, unique_ok) m.
Definition extra_list (m : gmap text (gset text * list text)) (e : text) : list text := (default (∅, []) (m !! e)).2.

Lemma add_extra_spec m x :
  extras_ok m → extras_ok (add_extra_deps m x)
  ∧ ∀ e d, d ∈ extra_list (add_extra_deps m x) e ↔ d ∈ extra_list m e ∨ (e = x.1 ∧ d ∈ x.2).
Proof.
  destruct x as [extra deps]. intros Hm. unfold add_extra_deps, extra_list. cbn [fst snd].
  assert (unique_ok (default (∅, []) (m !! extra))) as Hu.
  { destruct (m !! extra) eqn:E; [by apply (Hm extra)|]. split; [constructor|set_solver]. }
  destruct (insert_all_spec deps _ Hu) as [H1 H2]. split; [by apply map_Forall_insert_2|].
  intros e d. destruct (decide (e = extra)) as [->|Hne].
  - rewrite lookup_insert_eq. cbn [from_option id]. rewrite H2. naive_solver.
  - rewrite lookup_insert_ne by done. naive_solver.
Qed.

Lemma add_extras_spec l m :
  extras_ok m → extras_ok (foldl add_extra_deps m l)
  ∧ ∀ e d, d ∈ extra_list (foldl add_extra_deps m l) e ↔ d ∈ extra_list m e ∨ ∃ deps, (e, deps) ∈ l ∧ d ∈ deps.
Proof.
  revert m. induction l as [|x l IH]; intros m Hm; cbn [foldl]; [set_solver|].
  destruct (add_extra_spec m x Hm) as [H1 H2]. destruct (IH _ H1) as [H3 H4]. split; [done|]. intros e d. rewrite H4, H2.
  destruct x as [a b]. cbn [fst snd]. set_solver.
Qed.

(** The unconditional dependencies and those of an extra *)
Definition base_dep (records : list RepoDataRecord) (d : text) : Prop :=
  ∃ r, r ∈ records ∧ d ∈ rec_depends (rd_package_record r).
Definition extra_dep (records : list RepoDataRecord) (extra d : text) : Prop :=
  ∃ r deps, r ∈ records ∧ rec_extra_depends (rd_package_record r) !! extra = Some deps ∧ d ∈ deps.

(** The split lists each dependency once: the unconditional ones of any record, and per
    extra those that some record has for it and none has unconditionally. *)
Theorem extract_unique_deps_split_correct (records : list RepoDataRecord) :
  let '(base, per_extra) := extract_unique_deps_split records in
  NoDup base ∧ (∀ d, d ∈ base ↔ base_dep records d)
  ∧ (∀ extra deps, per_extra !! extra = Some deps → NoDup deps ∧ deps ≠ [])
  ∧ ∀ extra d, d ∈ default [] (per_extra !! extra) ↔ extra_dep records extra d ∧ ¬ base_dep records d.
Proof.
  unfold extract_unique_deps_split.
  set (step := λ (s : gset text * list text * gmap text (gset text * list text)) record, _).
  assert (∀ l b m, unique_ok b → extras_ok m →
    let s := foldl step (b, m) l in
    unique_ok s.1 ∧ extras_ok s.2 ∧ (∀ d, d ∈ s.1.2 ↔ d ∈ b.2 ∨ base_dep l d)
    ∧ ∀ e d, d ∈ extra_list s.2 e ↔ d ∈ extra_list m e ∨ extra_dep l e d) as H.
  { induction l as [|r l IH]; intros b m Hb Hm; cbn [foldl].
    - unfold base_dep, extra_dep. cbn [fst snd]. set_solver.
    - destruct (insert_all_spec (rec_depends (rd_package_record r)) b Hb) as [Hb1 Hb2].
      destruct (add_extras_spec (map_to_list (rec_extra_depends (rd_package_record r))) m Hm) as [Hm1 Hm2].
      destruct (IH _ _ Hb1 Hm1) as (H1 & H2 & H3 & H4). cbv zeta. unfold step at 2 4 6 8. split; [exact H1|]. split; [exact H2|]. split.
      + intros d. rewrite H3, Hb2. unfold base_dep. set_solver.
      + intros e d. rewrite H4, Hm2. setoid_rewrite elem_of_map_to_list. unfold extra_dep. setoid_rewrite elem_of_cons.
        clear. naive_solver. }
  destruct (H records (∅, []) ∅) as (H1 & H2 & H3 & H4); [split; [constructor|set_solver]|apply map_Forall_empty|].
  destruct (foldl step _ records) as [[base_seen base] per_extra]. cbn [fst snd] in *. destruct H1 as [Hnd Hset].
  assert (∀ d, d ∈ base ↔ base_dep records d) as Hbase by (intros d; rewrite H3; set_solver).
  split; [done|]. split; [done|].
  match goal with |- context [omap ?f per_extra] => set (ex := omap f per_extra) end.
  pose (keep := List.filter (λ d, negb (bool_decide (d ∈ base_seen)))).
  assert (∀ e, ex !! e = match per_extra !! e with
                         | Some x => if bool_decide (keep x.2 = []) then None else Some (keep x.2)
                         | None => None
                         end) as Hex by (intros e; unfold ex; rewrite lookup_omap; by destruct (per_extra !! e)).
  assert (∀ e, default [] (ex !! e) = keep (extra_list per_extra e)) as He.
  { intros e. rewrite Hex. unfold extra_list. destruct (per_extra !! e) as [[s l]|]; [|done]. cbn.
    by case_bool_decide as Hf; [rewrite Hf|]. }
  split.
  - intros e deps Hd. rewrite Hex in Hd. destruct (per_extra !! e) as [[s l]|] eqn:E; [|done]. cbn [snd] in Hd.
    case_bool_decide as Hf; [done|]. injection Hd as <-.
    split; [|done]. apply NoDup_ListNoDup, List.NoDup_filter, NoDup_ListNoDup. by apply (H2 e _ E).
  - intros e d. rewrite He, <-Hbase. unfold keep. rewrite list_elem_of_In, List.filter_In, <-list_elem_of_In, H4, <-Hset.
    rewrite negb_true_iff, bool_decide_eq_false. unfold extra_list. rewrite lookup_empty. cbn [from_option id snd]. set_solver.
Qed.
End theorems.
