(* ===== verification/ChannelDiscovery.v ===== *)
(** * The discovery of channels

    [rattler_repodata_gateway/src/gateway/channel_expansion.rs], with the error policy of
    [gateway/query.rs]: the queue of the subdirectories that are being fetched, and what each
    answer adds to it.

    A barrier is the key of its subdirectory; it is set when the fetch completes.  The fetch
    itself is a parameter.  Which of the pending fetches completes next is not determined:
    [drain] takes the choices as an argument. *)
From stdpp Require Import gmap sets list.
From S2P Require Import Prelude Externs TextOps Redaction FileUrl VersionSpec Subdir Archive MatchSpecs Channels.
From S2P Require Import ChannelRelations ChannelExpander SubdirData.

Local Notation text := (list N).

#[export] Program Instance subdir_countable : Countable Subdir :=
  inj_countable subdir_as_str (λ s, match subdir_from_str s with Ok d => Some d | Err _ => None end) _.
Next Obligation. intros s. cbn. by rewrite subdir_from_str_as_str. Qed.

(** [GatewayInner::get_or_create_subdir] *)
Class GatewayFetch `{SC : SubdirClients} := {
  get_or_create_subdir : Channel → Subdir → result GatewayError SubdirState
}.

Section discovery.
Context `{UC : UrlCrate} `{UP : !UrlPaths} `{JE : !JoinErrors} `{UN : Unicode}.
Context `{SC : !SubdirClients} `{GF : !GatewayFetch}.
Notation ChannelUrl := Url.
Notation key := (Url * Subdir)%type.

(** ** Definitions: the error policy *)
Inductive FetchErrorPolicy : Type := Propagate | SwallowAsWarning | WrapAsChannelRelationsError.

Definition apply_fetch_error_policy (err : GatewayError) (url : ChannelUrl) (platform : Subdir) (policy : FetchErrorPolicy)
  : result GatewayError (SubdirState * option ChannelRelationsWarning) :=
  let warning := DiscoveryFetchFailed url platform (gateway_error_display err) in
  match policy, err with
  | Propagate, _ => Err err
  | _, SubdirNotFoundError _ => Ok (NotFound, None)
  | WrapAsChannelRelationsError, _ => Err (ChannelRelationsError (warning_display warning))
  | SwallowAsWarning, _ => Ok (NotFound, Some warning)
  end.

(** ** Definitions: data *)
Record ChannelExpansion := mkChannelExpansion {
  ex_order : list ChannelUrl;
  ex_channels : gmap ChannelUrl Channel;
  ex_subdirs : gmap key SubdirState;
  ex_warnings : list ChannelRelationsWarning
}.

Record ScheduledSubdir := mkScheduledSubdir { ss_url : ChannelUrl; ss_channel : Channel; ss_platform : Subdir }.
Record DiscoveredSubdir := mkDiscoveredSubdir {
  ds_url : ChannelUrl;
  ds_platform : Subdir;
  ds_subdir : SubdirState;
  ds_warning : option ChannelRelationsWarning
}.

(** What the future of a fetch has captured *)
Record PendingFetch := mkPendingFetch {
  pf_url : ChannelUrl;
  pf_channel : Channel;
  pf_platform : Subdir;
  pf_existing : option SubdirState;
  pf_allow_missing : bool;
  pf_policy : FetchErrorPolicy
}.

Record ChannelDiscovery := mkChannelDiscovery {
  d_expander : ChannelExpander;
  d_pending : list PendingFetch;
  d_scheduled : gset key;
  d_barriers : gmap key SubdirState;
  d_channels : gmap ChannelUrl Channel;
  d_subdirs : gmap key SubdirState;
  d_user_order : list ChannelUrl;
  d_previous : option ChannelExpansion;
  d_allow_missing : bool;
  d_optional_platforms : list Subdir
}.

Definition discovery_new (platforms : list Subdir) (mode : ChannelRelationsMode) (max_depth : nat)
    (reporter : option (list ChannelRelationsWarning)) (previous : option ChannelExpansion) (allow_missing : bool)
  : ChannelDiscovery :=
  mkChannelDiscovery (expander_new mode max_depth platforms reporter) [] ∅ ∅ ∅ ∅ [] previous allow_missing [].

(** Updates of the fields *)
Definition with_expander (expander : ChannelExpander) (d : ChannelDiscovery) : ChannelDiscovery :=
  mkChannelDiscovery expander (d_pending d) (d_scheduled d) (d_barriers d) (d_channels d) (d_subdirs d)
    (d_user_order d) (d_previous d) (d_allow_missing d) (d_optional_platforms d).
Definition with_queue (pending : list PendingFetch) (scheduled : gset key) (barriers : gmap key SubdirState)
    (d : ChannelDiscovery) : ChannelDiscovery :=
  mkChannelDiscovery (d_expander d) pending scheduled barriers (d_channels d) (d_subdirs d)
    (d_user_order d) (d_previous d) (d_allow_missing d) (d_optional_platforms d).
Definition with_known (channels : gmap ChannelUrl Channel) (user_order : list ChannelUrl) (d : ChannelDiscovery) : ChannelDiscovery :=
  mkChannelDiscovery (d_expander d) (d_pending d) (d_scheduled d) (d_barriers d) channels (d_subdirs d)
    user_order (d_previous d) (d_allow_missing d) (d_optional_platforms d).
Definition with_subdirs (subdirs : gmap key SubdirState) (d : ChannelDiscovery) : ChannelDiscovery :=
  mkChannelDiscovery (d_expander d) (d_pending d) (d_scheduled d) (d_barriers d) (d_channels d) subdirs
    (d_user_order d) (d_previous d) (d_allow_missing d) (d_optional_platforms d).

(** *** [ChannelExpansion] *)
Definition expansion_subdir (self : ChannelExpansion) (url : ChannelUrl) (platform : Subdir) : option SubdirState :=
  ex_subdirs self !! (url, platform).
Definition was_cut_short (self : ChannelExpansion) : bool :=
  existsb (λ w, match w with CycleBroken _ | MaxDepthExceeded _ _ _ => true | _ => false end) (ex_warnings self).
Definition ordered_channels (self : ChannelExpansion) : list Channel :=
  omap (λ url, ex_channels self !! url) (ex_order self).

(** ** Definitions: operations *)

(** [ChannelDiscovery::register_user_channel] *)
Definition discovery_register (channel : Channel) (d : ChannelDiscovery) : option (ChannelUrl * Channel * ChannelDiscovery) :=
  '(url, channel, expander) ← register_user_channel channel (d_expander d);
  let user_order := if bool_decide (d_channels d !! url = None) then d_user_order d ++ [url] else d_user_order d in
  Some (url, channel, with_known (<[url := channel]> (d_channels d)) user_order (with_expander expander d)).

Definition allow_missing_platform (platform : Subdir) (d : ChannelDiscovery) : ChannelDiscovery :=
  mkChannelDiscovery (d_expander d) (d_pending d) (d_scheduled d) (d_barriers d) (d_channels d) (d_subdirs d)
    (d_user_order d) (d_previous d) (d_allow_missing d) (d_optional_platforms d ++ [platform]).
Definition seed_subdir (url : ChannelUrl) (platform : Subdir) (subdir : SubdirState) (d : ChannelDiscovery) : ChannelDiscovery :=
  with_subdirs (<[(url, platform) := subdir]> (d_subdirs d)) d.

Definition schedule (url : ChannelUrl) (channel : Channel) (platform : Subdir) (policy : FetchErrorPolicy)
    (d : ChannelDiscovery) : ScheduledSubdir * ChannelDiscovery :=
  let d := with_known (match d_channels d !! url with
                       | Some _ => d_channels d
                       | None => <[url := channel]> (d_channels d)
                       end) (d_user_order d) d in
  let key := (url, platform) in
  let d :=
    if bool_decide (key ∈ d_scheduled d) then d
    else
      let existing := match (previous ← d_previous d; ex_subdirs previous !! key) with
                      | Some subdir => Some subdir
                      | None => d_subdirs d !! key
                      end in
      let allow_missing := d_allow_missing d || bool_decide (platform ∈ d_optional_platforms d) in
      with_queue (d_pending d ++ [mkPendingFetch url channel platform existing allow_missing policy])
        ({[key]} ∪ d_scheduled d) (d_barriers d) d in
  (mkScheduledSubdir url channel platform, d).
Definition schedule_user_subdir (url : ChannelUrl) (channel : Channel) (platform : Subdir) (d : ChannelDiscovery)
  : ScheduledSubdir * ChannelDiscovery := schedule url channel platform Propagate d.

(** The future of a fetch, without the barrier *)
Definition run_fetch (p : PendingFetch) : result GatewayError DiscoveredSubdir :=
  match
    match pf_existing p with
    | Some subdir => Ok (subdir, None)
    | None =>
        match get_or_create_subdir (pf_channel p) (pf_platform p) with
        | Ok subdir => Ok (subdir, None)
        | Err error =>
            match error, pf_allow_missing p with
            | SubdirNotFoundError _, true => Ok (NotFound, None)
            | _, _ => apply_fetch_error_policy error (pf_url p) (pf_platform p) (pf_policy p)
            end
        end
    end with
  | Ok (subdir, warning) => Ok (mkDiscoveredSubdir (pf_url p) (pf_platform p) subdir warning)
  | Err e => Err e
  end.

(** A fetch completes and sets its barrier. *)
Definition complete (i : nat) (d : ChannelDiscovery) : outcome GatewayError (DiscoveredSubdir * ChannelDiscovery) :=
  match d_pending d !! i with
  | None => None
  | Some p =>
      fetched ⇐ Some (run_fetch p);
      let key := (pf_url p, pf_platform p) in
      match d_barriers d !! key with
      | Some _ => None
      | None =>
          Some (Ok (fetched, with_queue (delete i (d_pending d)) (d_scheduled d)
                               (<[key := ds_subdir fetched]> (d_barriers d)) d))
      end
  end.

(** The loop over the pairs of [observe] *)
Fixpoint schedule_all (pairs : list (ChannelUrl * Channel * Subdir)) (policy : FetchErrorPolicy) (d : ChannelDiscovery)
  : list ScheduledSubdir * ChannelDiscovery :=
  match pairs with
  | [] => ([], d)
  | (url, channel, platform) :: pairs =>
      let '(scheduled, d) := schedule url channel platform policy d in
      let '(rest, d) := schedule_all pairs policy d in (scheduled :: rest, d)
  end.

(** [ChannelDiscovery::observe] *)
Definition discovery_observe (fetched : DiscoveredSubdir) (d : ChannelDiscovery)
  : outcome GatewayError (list ScheduledSubdir * ChannelDiscovery) :=
  let expander := match ds_warning fetched with
                  | Some warning => push_warning warning (d_expander d)
                  | None => d_expander d
                  end in
  '(pairs, expander) ⇐ observe (ds_url fetched) (subdir_channel_relations (ds_subdir fetched)) expander;
  let d := with_subdirs (<[(ds_url fetched, ds_platform fetched) := ds_subdir fetched]> (d_subdirs d)) (with_expander expander d) in
  let policy := if strict expander then WrapAsChannelRelationsError else SwallowAsWarning in
  Some (Ok (schedule_all pairs policy d)).

(** [ChannelDiscovery::finish] *)
Definition finish (order : option (list ChannelUrl)) (d : ChannelDiscovery) : outcome GatewayError ChannelExpansion :=
  '(order, expander) ⇐
    match order with
    | Some order => Some (Ok (order, d_expander d))
    | None =>
        if enabled (d_expander d) && has_observed_relations (d_expander d) then
          '(resolution, expander) ⇐ finalize (d_expander d); Some (Ok (r_order resolution, expander))
        else Some (Ok (d_user_order d, d_expander d))
    end;
  Some (Ok (mkChannelExpansion order (d_channels d) (d_subdirs d) (take_warnings expander).1)).

(** *** [expand_channels] *)

(** The channels of the user with their subdirectories *)
Definition schedule_platforms (url : ChannelUrl) (channel : Channel) (platforms : list Subdir) (d : ChannelDiscovery)
  : ChannelDiscovery :=
  foldl (λ d platform, (schedule_user_subdir url channel platform d).2) d platforms.
Fixpoint schedule_users (channels : list Channel) (platforms : list Subdir) (d : ChannelDiscovery) : option ChannelDiscovery :=
  match channels with
  | [] => Some d
  | channel :: channels =>
      '(url, channel, d) ← discovery_register channel d;
      schedule_users channels platforms (schedule_platforms url channel platforms d)
  end.

(** One fetch completes, the one that [choice] picks. *)
Definition discovery_step (choice : nat) (d : ChannelDiscovery) : outcome GatewayError ChannelDiscovery :=
  '(fetched, d) ⇐ complete (choice `mod` length (d_pending d)) d;
  '(_, d) ⇐ discovery_observe fetched d;
  Some (Ok d).
(** [None] is a panic or that the choices have run out. *)
Fixpoint drain (choices : list nat) (d : ChannelDiscovery) : outcome GatewayError ChannelDiscovery :=
  match d_pending d with
  | [] => Some (Ok d)
  | _ =>
      match choices with
      | [] => None
      | choice :: choices => d ⇐ discovery_step choice d; drain choices d
      end
  end.

Definition expand_channels (choices : list nat) (channels : list Channel) (platforms : list Subdir)
    (mode : ChannelRelationsMode) (max_depth : nat) (reporter : option (list ChannelRelationsWarning))
    (previous : option ChannelExpansion) : outcome GatewayError ChannelExpansion :=
  match schedule_users channels platforms (discovery_new platforms mode max_depth reporter previous true) with
  | None => None
  | Some d => d ⇐ drain choices d; finish None d
  end.
End discovery.
