(* ===== verification/DiscoveryTheorems.v ===== *)
(** * The discovery of channels ends with the same channels in every order

    The fetches complete in any order, and each answer may schedule more.  In the end every
    channel that the declarations reach within the limit has been fetched on every platform,
    so neither what is known nor the order of the channels depends on the choices. *)
From stdpp Require Import gmap sets list relations.
From S2P Require Import Prelude Externs TextOps Redaction FileUrl VersionSpec Subdir Archive MatchSpecs Channels.
From S2P Require Import ChannelRelations RelationsTheorems ChannelExpander ExpanderTheorems ExpanderAnchors ExpanderOrder.
From S2P Require Import SubdirData ChannelDiscovery.

Local Notation text := (list N).

Section theorems.
Context `{UC : UrlCrate} `{UP : !UrlPaths} `{JE : !JoinErrors} `{UN : Unicode}.
Context `{SC : !SubdirClients} `{GF : !GatewayFetch}.
Local Notation ChannelUrl := Url.
Local Notation key := (Url * Subdir)%type.

(** ** Warnings do not matter to what has arrived *)
Lemma wf_erase s s' : erase s = erase s' → expander_wf s → expander_wf s'.
Proof.
  intros E [H1 H2 H3 H4].
  split; [rewrite <-inv_erase, <-E, inv_erase; done|..].
  - change (NoDup (ce_user_channels (erase s'))). by rewrite <-E.
  - intros c. change (is_Some (ce_discovered (erase s') !! c) ↔ is_Some (ce_depth_of (erase s') !! c)). rewrite <-E. apply H3.
  - intros c ch. change (ce_discovered (erase s') !! c = Some ch → c ∉ ce_user_channels (erase s') → ch = channel_from_url c).
    rewrite <-E. apply H4.
Qed.

Lemma arrived_erase s0 l pairs s s' : erase s = erase s' → arrived s0 l pairs s → arrived s0 l pairs s'.
Proof.
  intros E [H1 H2 H3 H4 H5]. split; [by eapply wf_erase|..].
  - change ((ce_mode (erase s'), ce_max_depth (erase s'), ce_platforms (erase s'), ce_user_channels (erase s'))
      = (ce_mode s0, ce_max_depth s0, ce_platforms s0, ce_user_channels s0)). rewrite <-E. exact H2.
  - intros c. change (ce_depth_of s') with (ce_depth_of (erase s')). change (ce_discovered s') with (ce_discovered (erase s')).
    rewrite <-E. apply H3.
  - intros u x. change (entries_of s' u) with (entries_of (erase s') u). rewrite <-E. apply H4.
  - change (ce_depth_of s') with (ce_depth_of (erase s')). rewrite <-E. exact H5.
Qed.

(** An observation ends, and in the lenient modes it succeeds. *)
Lemma observe_total url relations s :
  expander_wf s → enabled s = true → is_Some (ce_depth_of s !! url) →
  ∃ r, observe url relations s = Some r ∧ (strict s = false → ∃ x, r = Ok x)
    ∧ ∀ y, r = Ok y → arrived s [(url, relations)] y.1 y.2.
Proof.
  intros Hwf Hen Hurl.
  assert (∃ r, observe url relations s = Some r ∧ (strict s = false → ∃ x, r = Ok x)) as (r & E & H).
  { destruct relations as [relations|].
    - destruct (observe_spec url relations s Hwf Hen Hurl) as (r & E & H & _). eauto.
    - unfold observe. rewrite Hen. cbn [negb]. eauto. }
  exists r. split; [done|]. split; [done|]. intros [pairs s'] ->. by eapply observe_arrived.
Qed.

(** ** Answers *)

Definition existing_of (previous : option ChannelExpansion) (k : key) : option SubdirState :=
  previous ← previous; ex_subdirs previous !! k.
(** Errors of the user's channels are passed on, those of the others are warnings. *)
Definition policy_at (s : ChannelExpander) (c : ChannelUrl) : FetchErrorPolicy :=
  if bool_decide (c ∈ ce_user_channels s) then Propagate
  else if strict s then WrapAsChannelRelationsError else SwallowAsWarning.
Definition channel_at (s : ChannelExpander) (c : ChannelUrl) : Channel := default (channel_from_url c) (ce_discovered s !! c).

Section answers.
Context (previous : option ChannelExpansion) (s0 : ChannelExpander).

Definition fetch_of (k : key) : PendingFetch :=
  mkPendingFetch k.1 (channel_at s0 k.1) k.2 (existing_of previous k) true (policy_at s0 k.1).
Definition answer (k : key) : result GatewayError DiscoveredSubdir := run_fetch (fetch_of k).
Definition relations_at (k : key) : option ChannelRelations :=
  match answer k with Ok f => subdir_channel_relations (ds_subdir f) | Err _ => None end.
Definition answers (keys : list key) : list (ChannelUrl * option ChannelRelations) := (λ k, (k.1, relations_at k)) <$> keys.

Lemma answer_key k f : answer k = Ok f → ds_url f = k.1 ∧ ds_platform f = k.2.
Proof. unfold answer, run_fetch. destruct (match _ with Some _ => _ | None => _ end) as [[subdir warning]|]; [|done]. by intros [= <-]. Qed.

(** ** Scheduling *)

(** The keys that are not scheduled yet, each once *)
Definition added (keys : list key) (d d' : ChannelDiscovery) (fresh : list key) : Prop :=
  NoDup fresh ∧ (∀ k, k ∈ fresh ↔ k ∈ keys ∧ k ∉ d_scheduled d)
  ∧ d_pending d' = d_pending d ++ (fetch_of <$> fresh) ∧ (∀ k, k ∈ d_scheduled d' ↔ k ∈ d_scheduled d ∨ k ∈ fresh).
(** What scheduling leaves alone *)
Definition unscheduled (d : ChannelDiscovery) :=
  (d_expander d, d_barriers d, d_subdirs d, d_user_order d, d_previous d, d_allow_missing d, d_optional_platforms d).

Lemma schedule_spec c platform policy d :
  d_previous d = previous → d_allow_missing d = true → d_subdirs d !! (c, platform) = None ∨ (c, platform) ∈ d_scheduled d →
  policy = policy_at s0 c →
  let d' := (schedule c (channel_at s0 c) platform policy d).2 in
  (∃ fresh, added [(c, platform)] d d' fresh) ∧ unscheduled d' = unscheduled d
  ∧ ∀ x, d_channels d' !! x = match d_channels d !! x with Some ch => Some ch | None => if bool_decide (x = c) then Some (channel_at s0 c) else None end.
Proof.
  intros Hprev Hallow Hsub -> d'. unfold d', schedule. cbn [snd].
  assert (∀ x, (match d_channels d !! c with Some _ => d_channels d | None => <[c:=channel_at s0 c]> (d_channels d) end) !! x
    = match d_channels d !! x with Some ch => Some ch | None => if bool_decide (x = c) then Some (channel_at s0 c) else None end) as Hch.
  { intros x. destruct (decide (x = c)) as [->|Hne]; [rewrite bool_decide_true by done|rewrite bool_decide_false by done].
    - destruct (d_channels d !! c) eqn:E; [by rewrite E|by rewrite lookup_insert_eq].
    - destruct (d_channels d !! c); [by destruct (d_channels d !! x)|]. rewrite lookup_insert_ne by done. by destruct (d_channels d !! x). }
  cbn [d_scheduled with_known]. case_bool_decide as Hin.
  - split; [|by split]. exists []. split; [constructor|]. split; [set_solver|]. split; [by rewrite app_nil_r|]. cbn. set_solver.
  - split; [|by split]. exists [(c, platform)]. split; [apply NoDup_singleton|]. split; [set_solver|]. split; [|cbn; set_solver].
    cbn. do 2 f_equal. unfold fetch_of. cbn [fst snd]. rewrite Hprev, Hallow. cbn. f_equal.
    unfold existing_of. destruct Hsub as [Hsub|?]; [|done]. rewrite Hsub. by destruct (_ ≫= _).
Qed.

Lemma added_trans keys1 keys2 d d1 d2 fresh1 fresh2 :
  added keys1 d d1 fresh1 → added keys2 d1 d2 fresh2 → added (keys1 ++ keys2) d d2 (fresh1 ++ fresh2).
Proof.
  intros (N1 & I1 & P1 & S1) (N2 & I2 & P2 & S2). split; [|split; [|split]].
  - apply NoDup_app. split; [done|]. split; [|done]. intros k Hk [_ Hn]%I2. apply Hn, S1. by right.
  - intros k. rewrite !elem_of_app, I1, I2, S1, I1. destruct (decide (k ∈ keys1)); naive_solver.
  - by rewrite P2, P1, fmap_app, (assoc_L (++)).
  - intros k. rewrite S2, S1, elem_of_app. naive_solver.
Qed.

Definition known_channels (d : ChannelDiscovery) (cs : list ChannelUrl) (x : ChannelUrl) : option Channel :=
  match d_channels d !! x with
  | Some ch => Some ch
  | None => if bool_decide (x ∈ cs) then Some (channel_at s0 x) else None
  end.

Lemma schedule_all_spec pairs policy d :
  d_previous d = previous → d_allow_missing d = true →
  (∀ c ch p, (c, ch, p) ∈ pairs → ch = channel_at s0 c ∧ policy = policy_at s0 c
     ∧ (d_subdirs d !! (c, p) = None ∨ (c, p) ∈ d_scheduled d)) →
  let d' := (schedule_all pairs policy d).2 in
  (∃ fresh, added ((λ x, (x.1.1, x.2)) <$> pairs) d d' fresh) ∧ unscheduled d' = unscheduled d
  ∧ ∀ x, d_channels d' !! x = known_channels d ((λ y, y.1.1) <$> pairs) x.
Proof.
  cbv zeta. revert d. induction pairs as [|[[c ch] p] pairs IH]; intros d Hprev Hallow Hp; cbn [schedule_all snd].
  - split; [|split; [done|]].
    + exists []. split; [constructor|]. split; [set_solver|]. split; [by rewrite app_nil_r|set_solver].
    + intros x. unfold known_channels. cbn [fmap list_fmap]. rewrite bool_decide_false by (apply not_elem_of_nil). by destruct (d_channels d !! x).
  - destruct (Hp c ch p) as (-> & Hpol & Hsub); [by left|].
    destruct (schedule_spec c p policy d Hprev Hallow Hsub Hpol) as ((f1 & A1) & U1 & C1).
    destruct (schedule c (channel_at s0 c) p policy d) as [sc d1]. cbn [snd] in *. injection U1 as E1 E2 E3 E4 E5 E6 E7.
    destruct (IH d1) as ((f2 & A2) & U2 & C2); [congruence|congruence| |].
    { intros c' ch' p' Hin. destruct (Hp c' ch' p') as (? & ? & Hs); [by right|]. split; [done|]. split; [done|].
      rewrite E3. destruct Hs as [?|Hs]; [by left|right]. destruct A1 as (_ & _ & _ & A1). apply A1. by left. }
    destruct (schedule_all pairs policy d1) as [rest d2]. cbn [snd] in *. split; [|split].
    + exists (f1 ++ f2). rewrite fmap_cons. by apply (added_trans [(c, p)] ((λ x, (x.1.1, x.2)) <$> pairs) d d1 d2).
    + rewrite U2. unfold unscheduled. congruence.
    + intros x. rewrite C2. unfold known_channels. rewrite C1. cbn [fmap list_fmap fst]. destruct (d_channels d !! x); [done|].
      destruct (decide (x = c)) as [->|Hne].
      * rewrite bool_decide_true by done. by rewrite bool_decide_true by (by left).
      * rewrite (bool_decide_false (x = c)) by done. erewrite bool_decide_ext; [reflexivity|]. unfold fmap. set_solver.
Qed.

(** ** The invariant of the discovery *)

Record disc_inv (done todo : list key) (d : ChannelDiscovery) : Prop := {
  di_arrived : ∃ pairs, arrived s0 (answers done) pairs (d_expander d);
  di_pending : d_pending d = fetch_of <$> todo;
  di_nodup : NoDup (done ++ todo);
  di_keys k : k ∈ done ++ todo ↔ is_Some (ce_depth_of (d_expander d) !! k.1) ∧ k.2 ∈ ce_platforms s0;
  di_scheduled k : k ∈ d_scheduled d ↔ k ∈ done ++ todo;
  di_done k : k ∈ done → ∃ f, answer k = Ok f;
  di_subdirs k sub : d_subdirs d !! k = Some sub ↔ k ∈ done ∧ ∃ f, answer k = Ok f ∧ ds_subdir f = sub;
  di_barriers k : is_Some (d_barriers d !! k) ↔ k ∈ done;
  di_channels : d_channels d = ce_discovered (d_expander d);
  di_rest : (d_user_order d, d_previous d, d_allow_missing d, d_optional_platforms d)
    = (ce_user_channels s0, previous, true, [])
}.

Lemma strict_fixed_mode (s s' : ChannelExpander) : ce_mode s = ce_mode s' → strict s = strict s'.
Proof. unfold strict. by intros ->. Qed.

Context (Hstart : starting s0) (Hen : enabled s0 = true).

(** The choice picks a key; the step fails with its error, or the key is done. *)
Lemma discovery_step_spec choice done todo d :
  disc_inv done todo d → todo ≠ [] →
  ∃ i k, todo !! i = Some k ∧
  ∃ r, discovery_step choice d = Some r ∧ (strict s0 = false → (∃ f, answer k = Ok f) → ∃ d', r = Ok d')
    ∧ ∀ d', r = Ok d' → ∃ fresh, disc_inv (done ++ [k]) (delete i todo ++ fresh) d'.
Proof.
  intros [(pairs & Harr) Hpend Hnd Hkeys Hsched Hdone Hsubs Hbar Hch Hrest] Hne.
  assert (length todo ≠ 0) as Hlen by (by destruct todo).
  set (i := choice `mod` length todo). assert (i < length todo) as Hi by (by apply Nat.mod_upper_bound).
  destruct (lookup_lt_is_Some_2 todo i Hi) as [k Hk]. exists i, k. split; [done|].
  assert (k ∈ todo) as Hin by (by eapply list_elem_of_lookup_2).
  assert (k ∉ done) as Hnin by (apply NoDup_app in Hnd as (_ & Hd & _); intros Hd'; by apply (Hd k)).
  unfold discovery_step, complete. rewrite Hpend, length_fmap. fold i. rewrite list_lookup_fmap, Hk. cbn [fmap option_fmap option_map].
  change (run_fetch (fetch_of k)) with (answer k).
  destruct (answer k) as [f|e] eqn:Ea; cbn [outcome_bind].
  2: { exists (Err e). split; [reflexivity|]. split; [by intros _ [f ?]|done]. }
  destruct (d_barriers d !! (pf_url (fetch_of k), pf_platform (fetch_of k))) as [b|] eqn:Eb.
  { exfalso. apply Hnin, Hbar. cbn in Eb. rewrite <-surjective_pairing in Eb. eauto. }
  cbn [outcome_bind]. destruct (answer_key _ _ Ea) as [Eurl Eplat].
  set (d1 := with_queue _ _ _ d). unfold discovery_observe. rewrite Eurl, Eplat.
  set (s1 := match ds_warning f with Some warning => push_warning warning (d_expander d1) | None => d_expander d1 end).
  assert (erase s1 = erase (d_expander d)) as Es1 by (unfold s1; destruct (ds_warning f); [apply erase_push|done]).
  assert (arrived s0 (answers done) pairs s1) as Harr1 by (by eapply arrived_erase).
  pose proof (ar_config _ _ _ _ Harr1) as Hcfg. pose proof Hcfg as [= Em Emax Epl Eus].
  assert (is_Some (ce_depth_of (d_expander d) !! k.1) ∧ k.2 ∈ ce_platforms s0) as [Hknown Hplat]
    by (apply Hkeys; set_solver).
  assert (is_Some (ce_depth_of s1 !! k.1)) as Hknown1.
  { change (ce_depth_of s1) with (ce_depth_of (erase s1)). by rewrite Es1. }
  destruct (observe_total k.1 (subdir_channel_relations (ds_subdir f)) s1) as (r & -> & Hl & Hr);
    [apply Harr1|rewrite <-Hen; by apply enabled_config|done|].
  destruct r as [[more s2]|e]; cbn [outcome_bind].
  2: { exists (Err e). split; [done|]. split; [|done]. intros Hst _. destruct Hl as [x Hx]; [|done].
       unfold strict in *. by rewrite Em. }
  specialize (Hr _ eq_refl). cbn [fst snd] in Hr. pose proof (arrived_trans _ _ _ _ _ _ _ Harr1 Hr) as Harr2.
  pose proof (ar_config _ _ _ _ Harr2) as Hcfg2. pose proof Hcfg2 as [= Em2 Emax2 Epl2 Eus2].
  set (d2 := with_subdirs _ (with_expander s2 d1)).
  destruct (ar_pairs _ _ _ _ Hr) as (found & Hndf & Hmore & Hfound). rewrite Epl in Hmore.
  assert (∀ c, c ∈ found → ce_discovered s0 !! c = None ∧ c ∉ ce_user_channels s0) as Hnew.
  { intros c [Hc _]%Hfound. assert (ce_depth_of s0 !! c = None) as Hc0.
    { destruct (ce_depth_of s0 !! c) as [n|] eqn:E; [|done]. destruct (ar_known _ _ _ _ Harr1 c) as [[? ?] _]; [by rewrite E|]. congruence. }
    assert (c ∉ ce_user_channels s0) as Hcu by (intros Hc'; assert (ce_depth_of s0 !! c = Some 0) by (by apply Hstart); congruence).
    split; [|done]. destruct (ce_discovered s0 !! c) eqn:E; [|done]. destruct Hcu. apply (st_discovered _ Hstart). eauto. }
  set (policy := if strict s2 then WrapAsChannelRelationsError else SwallowAsWarning).
  assert (∀ c ch p, (c, ch, p) ∈ more → c ∈ found ∧ p ∈ ce_platforms s0 ∧ ch = channel_at s0 c ∧ policy = policy_at s0 c) as Hmore'.
  { intros c ch p Hin'. rewrite Hmore in Hin'. apply list_elem_of_bind in Hin' as (c' & Hin' & Hf).
    apply list_elem_of_fmap in Hin' as (p' & [= -> -> ->] & Hp'). destruct (Hnew c' Hf) as [Hdisc Hcu].
    split; [done|]. split; [done|]. split; [by unfold channel_at; rewrite Hdisc|].
    unfold policy, policy_at. rewrite bool_decide_false by done. by rewrite (strict_fixed_mode s2 s0). }
  assert (∀ k', d_subdirs d2 !! k' = if bool_decide (k' = k) then Some (ds_subdir f) else d_subdirs d !! k') as Hsub2.
  { intros k'. cbn [d2 with_subdirs d_subdirs]. rewrite <-surjective_pairing. case_bool_decide as Hk'; [subst; apply lookup_insert_eq|by rewrite lookup_insert_ne]. }
  destruct (schedule_all_spec more policy d2) as ((fresh & Hadd) & Hun & Hchan).
  { cbn. by injection Hrest. }
  { cbn. by injection Hrest. }
  { intros c ch p Hin'. destruct (Hmore' c ch p Hin') as (Hf & Hp & -> & ->). split; [done|]. split; [done|].
    rewrite Hsub2. case_bool_decide as Ekey.
    - right. cbn. apply Hsched. rewrite Ekey. set_solver.
    - destruct (d_subdirs d !! (c, p)) as [sub|] eqn:Esub; [|by left]. right. apply Hsubs in Esub as [? _]. cbn. apply Hsched. set_solver. }
  destruct (schedule_all more policy d2) as [sched d3]. cbn [snd outcome_bind] in *.
  exists (Ok d3). split; [done|]. split; [eauto|]. intros d' [= <-]. exists fresh.
  destruct Hadd as (Hndfresh & Hinfresh & Hpend3 & Hsched3). injection Hun as U1 U2 U3 U4 U5 U6 U7.
  assert ((done ++ [k]) ++ delete i todo ++ fresh ≡ₚ (done ++ todo) ++ fresh) as Hperm.
  { rewrite (delete_Permutation todo i k Hk) at 2. by rewrite <-!(assoc_L (++)). }
  assert (d_expander d3 = s2) as Ee by exact U1.
  assert (∀ k', k' ∈ fresh ↔ k'.1 ∈ found ∧ k'.2 ∈ ce_platforms s0) as Hfresh.
  { intros [c p]. rewrite Hinfresh. cbn [fst snd]. split.
    - intros [([[c' ch] p'] & [= -> ->] & Hin')%list_elem_of_fmap _]. by destruct (Hmore' c' ch p' Hin') as (? & ? & _).
    - intros [Hc Hp]. split.
      + apply list_elem_of_fmap. exists (c, channel_from_url c, p). split; [done|]. rewrite Hmore. apply list_elem_of_bind.
        exists c. split; [|done]. apply list_elem_of_fmap. by exists p.
      + cbn. rewrite Hsched, Hkeys. cbn [fst snd]. intros [[n Hn] _]. apply Hfound in Hc as [Hc _].
        change (ce_depth_of s1) with (ce_depth_of (erase s1)) in Hc. rewrite Es1 in Hc. cbn in Hc. congruence. }
  assert (∀ c, ce_depth_of s1 !! c = ce_depth_of (d_expander d) !! c) as Edepth.
  { intros c. change (ce_depth_of s1) with (ce_depth_of (erase s1)). by rewrite Es1. }
  split.
  - exists (pairs ++ more). rewrite Ee. unfold answers. rewrite fmap_app. cbn [fmap list_fmap].
    unfold relations_at at 2. rewrite Ea. exact Harr2.
  - rewrite Hpend3. cbn [d2 d1 with_subdirs with_expander with_queue d_pending]. by rewrite fmap_app, list_fmap_delete.
  - rewrite Hperm. apply NoDup_app. split; [done|]. split; [|done]. intros k' Hk' [_ Hn]%Hinfresh. apply Hn. cbn. by apply Hsched.
  - intros k'. rewrite Hperm, elem_of_app, Hkeys, Hfresh, Ee, Hfound, Edepth. split.
    + intros [[Hk' Hp]|[[_ Hk'] Hp]]; [|done]. split; [|done]. rewrite <-Edepth in Hk'. by apply (ar_known _ _ _ _ Hr) in Hk' as [? _].
    + intros [Hk' Hp]. destruct (ce_depth_of (d_expander d) !! k'.1); [left; eauto|right; done].
  - intros k'. rewrite Hsched3, Hperm, elem_of_app. cbn. by rewrite Hsched.
  - intros k' [Hk'| ->%list_elem_of_singleton]%elem_of_app; [by apply Hdone|eauto].
  - intros k' sub. rewrite U3, Hsub2, elem_of_app, list_elem_of_singleton. case_bool_decide as Ek.
    + subst k'. split.
      * intros [= <-]. split; [by right|eauto].
      * intros (_ & f' & Hf' & <-). rewrite Ea in Hf'. by injection Hf' as ->.
    + rewrite Hsubs. naive_solver.
  - intros k'. rewrite U2. cbn [d2 d1 with_subdirs with_expander with_queue d_barriers fetch_of pf_url pf_platform].
    rewrite <-surjective_pairing, elem_of_app, list_elem_of_singleton. destruct (decide (k' = k)) as [->|Hne'].
    + rewrite lookup_insert_eq. split; [by right|eauto].
    + rewrite lookup_insert_ne by done. rewrite Hbar. naive_solver.
  - apply map_eq. intros c. rewrite Hchan, Ee. unfold known_channels.
    change (d_channels d2) with (d_channels d). rewrite Hch.
    destruct (ce_discovered (d_expander d) !! c) as [ch|] eqn:Ec.
    + destruct (ar_known _ _ _ _ Hr c) as [_ ->]; [|by change (ce_discovered s1) with (ce_discovered (erase s1)); rewrite Es1].
      rewrite Edepth. destruct Harr as [Hwf _ _ _ _]. apply Hwf. eauto.
    + destruct (ce_discovered s2 !! c) as [ch|] eqn:E2.
      * assert (c ∈ found) as Hc.
        { apply Hfound. rewrite Edepth. split.
          - destruct (ce_depth_of (d_expander d) !! c) eqn:E; [|done]. destruct Harr as [Hwf _ _ _ _].
            assert (is_Some (ce_discovered (d_expander d) !! c)) as [? ?] by (apply (wf_discovered _ Hwf); eauto). congruence.
          - destruct Hr as [Hwf _ _ _ _]. apply (wf_discovered _ Hwf). eauto. }
        destruct (Hnew c Hc) as [Hdisc Hcu]. rewrite bool_decide_true.
        { f_equal. unfold channel_at. rewrite Hdisc. cbn. destruct Hr as [Hwf _ _ _ _]. symmetry. apply (wf_channel _ Hwf c ch E2). by rewrite Eus2. }
        apply list_elem_of_fmap. exists (c, channel_from_url c, k.2). split; [done|]. rewrite Hmore. apply list_elem_of_bind.
        exists c. split; [|done]. apply list_elem_of_fmap. by exists k.2.
      * rewrite bool_decide_false; [done|]. intros ([[c' ch] p] & -> & Hin')%list_elem_of_fmap. cbn [fst] in *.
        destruct (Hmore' c' ch p Hin') as (Hc & _). apply Hfound in Hc as [_ Hc]. destruct Hr as [Hwf _ _ _ _].
        apply (wf_discovered _ Hwf) in Hc as [? ?]. congruence.
  - rewrite U4, U5, U6, U7. exact Hrest.
Qed.

(** ** The channels within reach *)

(** [u] refers to [v] on one of the platforms, whatever has been fetched. *)
Definition related (u v : ChannelUrl) : Prop :=
  ∃ p x source, p ∈ ce_platforms s0 ∧ relations_at (u, p) = Some x ∧ relations_is_empty x = false ∧ (source, v) ∈ declared u x.

Definition targets (u : ChannelUrl) : list ChannelUrl :=
  ce_platforms s0 ≫= λ p, match relations_at (u, p) with
                          | Some x => if relations_is_empty x then [] else (declared u x).*2
                          | None => []
                          end.
Lemma targets_spec u v : v ∈ targets u ↔ related u v.
Proof.
  unfold targets, related. rewrite list_elem_of_bind. split.
  - intros (p & Hv & Hp). destruct (relations_at (u, p)) as [x|] eqn:E; [|by apply elem_of_nil in Hv].
    destruct (relations_is_empty x) eqn:Ex; [by apply elem_of_nil in Hv|]. apply list_elem_of_fmap in Hv as ([source v'] & -> & Hv).
    by exists p, x, source.
  - intros (p & x & source & Hp & E & Ex & Hv). exists p. split; [|done]. rewrite E, Ex. apply list_elem_of_fmap. by exists (source, v).
Qed.

Fixpoint ball (n : nat) : list ChannelUrl :=
  match n with 0 => ce_user_channels s0 | S n => ball n ++ (ball n ≫= targets) end.
Lemma ball_mono n m : n ≤ m → ball n ⊆ ball m.
Proof. induction 1 as [|m _ IH]; [done|]. cbn [ball]. set_solver. Qed.
Lemma within_ball n v : within related (ce_user_channels s0) n v → v ∈ ball n.
Proof.
  intros (u & Hu & Hs). revert v Hs. induction n as [|n IH]; intros v Hs.
  - by inversion Hs; subst.
  - apply nsteps_inv_r in Hs as (w & Hw & Hr). cbn [ball]. apply elem_of_app. right. apply list_elem_of_bind.
    exists w. split; [by apply targets_spec|by apply IH].
Qed.
(** Every subdirectory that can ever be fetched *)
Definition reachable_keys : list key := ball (ce_max_depth s0) ≫= λ c, (λ p, (c, p)) <$> ce_platforms s0.

(** The known channels, by what all subdirectories would answer *)
Lemma disc_heard done todo d u v :
  disc_inv done todo d → refers_to (answers done) u v ↔ ∃ p x source, (u, p) ∈ done ∧ relations_at (u, p) = Some x
    ∧ relations_is_empty x = false ∧ (source, v) ∈ declared u x.
Proof.
  intros Hinv. unfold refers_to, says, heard, answers. split.
  - intros (source & x & [([u' p] & [= -> Hx] & Hin)%list_elem_of_fmap Hne] & Hv). exists p, x, source. done.
  - intros (p & x & source & Hin & Hx & Hne & Hv). exists source, x. split; [|done]. split; [|done].
    apply list_elem_of_fmap. exists (u, p). by rewrite Hx.
Qed.
Lemma disc_related done todo d u v : disc_inv done todo d → refers_to (answers done) u v → related u v.
Proof.
  intros Hinv (p & x & source & Hin & Hx & Hne & Hv)%(disc_heard _ _ _ _ _ Hinv). exists p, x, source. split; [|done].
  assert ((u, p) ∈ done ++ todo) as [_ ?]%(di_keys _ _ _ Hinv) by set_solver. done.
Qed.

Lemma disc_depth done todo d v n :
  disc_inv done todo d →
  ce_depth_of (d_expander d) !! v = Some n ↔ distance (refers_to (answers done)) (ce_user_channels s0) n v ∧ n ≤ ce_max_depth s0.
Proof.
  intros [(pairs & Harr) _ _ _ _ _ _ _ _ _]. pose proof (arrived_says _ _ _ _ Hstart Harr) as Hsay.
  destruct Harr as [Hwf [= _ Emax _ Eu] _ _ _]. rewrite (depth_spec _ v n (wf_inv _ Hwf)), Emax, Eu. f_equiv. apply distance_ext.
  intros a b. unfold refers, refers_to. by setoid_rewrite Hsay.
Qed.

Lemma disc_keys_reachable done todo d : disc_inv done todo d → done ++ todo ⊆ reachable_keys.
Proof.
  intros Hinv [c p] Hk. pose proof Hk as [[n Hn] Hp]%(di_keys _ _ _ Hinv). cbn [fst snd] in *.
  apply (disc_depth _ _ _ _ _ Hinv) in Hn as [[(u & Hu & Hs) _] Hm]. apply list_elem_of_bind. exists c.
  split; [apply list_elem_of_fmap; by exists p|]. apply (ball_mono n); [done|]. apply within_ball. exists u. split; [done|].
  eapply nsteps_mono; [|exact Hs]. intros a b. by apply (disc_related _ _ _ _ _ Hinv).
Qed.

Lemma disc_known done todo d m w :
  disc_inv done todo d → m ≤ ce_max_depth s0 → within (refers_to (answers done)) (ce_user_channels s0) m w →
  ∃ n, ce_depth_of (d_expander d) !! w = Some n ∧ n ≤ m.
Proof.
  intros [(pairs & Harr) _ _ _ _ _ _ _ _ _] Hm (u & Hu & Hs). pose proof (arrived_says _ _ _ _ Hstart Harr) as Hsay.
  destruct Harr as [Hwf [= _ Emax _ Eu] _ _ _]. apply depth_reach; [apply Hwf| |by rewrite Emax].
  exists u. rewrite Eu. split; [done|]. eapply nsteps_mono; [|exact Hs]. intros a b [src Hab]. exists src. by apply Hsay.
Qed.

(** When nothing is pending, every reference within reach has been heard. *)
Lemma disc_within done d m w :
  disc_inv done [] d → m ≤ ce_max_depth s0 →
  within related (ce_user_channels s0) m w ↔ within (refers_to (answers done)) (ce_user_channels s0) m w.
Proof.
  intros Hinv. revert w. induction m as [|m IH]; intros w Hm.
  - split; intros (u & Hu & Hs); exists u; (split; [done|]); inversion Hs; subst; constructor.
  - split; intros (u & Hu & Hs); apply nsteps_inv_r in Hs as (x & Hs & Hx).
    + assert (within (refers_to (answers done)) (ce_user_channels s0) m x) as Hwx by (apply IH; [lia|by exists u]).
      pose proof Hwx as (u' & Hu' & Hs'). exists u'. split; [done|]. eapply nsteps_r; [exact Hs'|].
      apply (disc_heard _ _ _ _ _ Hinv). destruct Hx as (p & rel & source & Hp & Hrel). exists p, rel, source. split; [|done].
      destruct (disc_known _ _ _ m x Hinv) as (n & Hn & _); [lia|done|].
      pose proof (di_keys _ _ _ Hinv (x, p)) as Hkey. rewrite app_nil_r in Hkey. apply Hkey. by split; [exists n|].
    + assert (within related (ce_user_channels s0) m x) as (u' & Hu' & Hs') by (apply IH; [lia|by exists u]).
      exists u'. split; [done|]. eapply nsteps_r; [exact Hs'|]. by apply (disc_related _ _ _ _ _ Hinv).
Qed.

(** So the depths are the distances in the whole graph. *)
Lemma disc_complete done d v n :
  disc_inv done [] d →
  ce_depth_of (d_expander d) !! v = Some n ↔ distance related (ce_user_channels s0) n v ∧ n ≤ ce_max_depth s0.
Proof.
  intros Hinv. pose proof (λ m w, disc_within done d m w Hinv) as Hw.
  rewrite (disc_depth _ _ _ _ _ Hinv). split; intros [[H1 H2] Hm]; (split; [|done]); (split; [by apply Hw|]); intros m Hm'.
  - destruct (le_lt_dec m (ce_max_depth s0)); [|lia]. apply H2. by apply Hw.
  - destruct (le_lt_dec m (ce_max_depth s0)); [|lia]. apply H2. by apply Hw.
Qed.

(** ** The loop *)

Lemma drain_inv choices done todo d d' :
  disc_inv done todo d → drain choices d = Some (Ok d') → ∃ done', disc_inv done' [] d'.
Proof.
  revert done todo d. induction choices as [|choice choices IH]; intros done todo d Hinv; cbn [drain];
    pose proof (di_pending _ _ _ Hinv) as Hpend; destruct todo as [|k todo]; rewrite Hpend; cbn [fmap list_fmap];
    try (intros [= <-]; eauto); try done.
  destruct (discovery_step_spec choice done (k :: todo) d Hinv) as (i & k' & _ & r & -> & _ & Hr); [done|].
  destruct r as [d1|e]; cbn [outcome_bind]; [|done]. destruct (Hr d1 eq_refl) as (fresh & Hinv1). by apply (IH _ _ _ Hinv1).
Qed.

Lemma answer_lenient k : strict s0 = false → k.1 ∉ ce_user_channels s0 → ∃ f, answer k = Ok f.
Proof.
  intros Hst Hk. unfold answer, run_fetch, fetch_of. cbn [pf_existing pf_channel pf_platform pf_allow_missing pf_policy pf_url].
  destruct (existing_of previous k) as [sub|]; [eauto|].
  destruct (get_or_create_subdir (channel_at s0 k.1) k.2) as [sub|e]; [eauto|].
  unfold policy_at. rewrite bool_decide_false, Hst by done. destruct e; cbn; eauto.
Qed.

(** With enough choices the loop ends, whatever they are. *)
Lemma drain_total choices done todo d :
  disc_inv done todo d → length reachable_keys ≤ length done + length choices →
  ∃ r, drain choices d = Some r ∧ (strict s0 = false →
    (∀ k, k.1 ∈ ce_user_channels s0 → k.2 ∈ ce_platforms s0 → ∃ f, answer k = Ok f) → ∃ d', r = Ok d').
Proof.
  revert done todo d. induction choices as [|choice choices IH]; intros done todo d Hinv Hlen; cbn [drain];
    pose proof (di_pending _ _ _ Hinv) as Hpend.
  - assert (length (done ++ todo) ≤ length reachable_keys) as Hle.
    { apply submseteq_length, NoDup_submseteq; [apply Hinv|]. by apply (disc_keys_reachable _ _ _ Hinv). }
    rewrite length_app in Hle. cbn in Hlen. destruct todo as [|k todo]; [|cbn in Hle; lia]. rewrite Hpend. cbn. eauto.
  - destruct todo as [|k todo]; rewrite Hpend; cbn [fmap list_fmap]; [eauto|].
    destruct (discovery_step_spec choice done (k :: todo) d Hinv) as (i & k' & Hk' & r & -> & Hok & Hr); [done|].
    destruct r as [d1|e]; cbn [outcome_bind].
    + destruct (Hr d1 eq_refl) as (fresh & Hinv1). apply (IH _ _ _ Hinv1). rewrite length_app. cbn in *. lia.
    + exists (Err e). split; [done|]. intros Hst Husers. destruct (Hok Hst) as [d1 Hd1]; [|done].
      destruct (decide (k'.1 ∈ ce_user_channels s0)); [|by apply answer_lenient]. apply Husers; [done|].
      assert (k' ∈ done ++ k :: todo) as [_ ?]%(di_keys _ _ _ Hinv) by (apply elem_of_app; right; by eapply list_elem_of_lookup_2). done.
Qed.

(** Two complete runs know the same. *)
Lemma disc_same done d done' d' :
  disc_inv done [] d → disc_inv done' [] d' →
  same_input (d_expander d) (d_expander d') ∧ ce_discovered (d_expander d) = ce_discovered (d_expander d')
  ∧ d_subdirs d = d_subdirs d'.
Proof.
  intros Hinv Hinv'.
  assert (∀ k, k ∈ done ↔ k ∈ done') as Hkeys.
  { intros k. pose proof (di_keys _ _ _ Hinv k) as H1. pose proof (di_keys _ _ _ Hinv' k) as H2. rewrite app_nil_r in H1, H2. rewrite H1, H2.
    f_equiv. split; intros [n Hn]; exists n; [rewrite (disc_complete _ _ _ _ Hinv')|rewrite (disc_complete _ _ _ _ Hinv)];
      [by apply (disc_complete _ _ _ _ Hinv)|by apply (disc_complete _ _ _ _ Hinv')]. }
  assert (done ≡ₚ done') as Hperm.
  { apply NoDup_Permutation; [..|done]; [pose proof (di_nodup _ _ _ Hinv)|pose proof (di_nodup _ _ _ Hinv')]; by rewrite app_nil_r in *. }
  destruct (di_arrived _ _ _ Hinv) as (p1 & A1), (di_arrived _ _ _ Hinv') as (p2 & A2).
  destruct (arrived_same s0 (answers done) p1 (d_expander d) (answers done') p2 (d_expander d')) as (Hs & Hd & _);
    [by apply starting_wf|by unfold answers; rewrite Hperm|done|done|].
  split; [done|]. split; [done|]. apply map_eq. intros k. apply option_eq. intros sub.
  by rewrite (di_subdirs _ _ _ Hinv), (di_subdirs _ _ _ Hinv'), Hkeys.
Qed.
End answers.

(** ** The start *)

Definition config (s : ChannelExpander) := (ce_mode s, ce_max_depth s, ce_platforms s).

Record start_inv (previous : option ChannelExpansion) (platforms : list Subdir) (todo : list key) (d : ChannelDiscovery) : Prop := {
  so_starting : starting (d_expander d);
  so_pending : d_pending d = fetch_of previous (d_expander d) <$> todo;
  so_nodup : NoDup todo;
  so_keys k : k ∈ todo ↔ k.1 ∈ ce_user_channels (d_expander d) ∧ k.2 ∈ platforms;
  so_scheduled k : k ∈ d_scheduled d ↔ k ∈ todo;
  so_channels : d_channels d = ce_discovered (d_expander d);
  so_rest : (d_barriers d, d_subdirs d, d_user_order d, d_previous d, d_allow_missing d, d_optional_platforms d)
    = (∅, ∅, ce_user_channels (d_expander d), previous, true, [])
}.

Lemma schedule_platforms_all url channel platforms d :
  schedule_platforms url channel platforms d = (schedule_all ((λ p, (url, channel, p)) <$> platforms) Propagate d).2.
Proof.
  revert d. unfold schedule_platforms. induction platforms as [|p platforms IH]; intros d; [done|]. cbn [foldl fmap list_fmap schedule_all].
  rewrite IH. unfold schedule_user_subdir. destruct (schedule url channel p Propagate d) as [sc d1]. cbn [snd]. unfold fmap.
  by destruct (schedule_all _ _ d1).
Qed.

(** One channel of the user *)
Lemma schedule_user_spec previous platforms todo d channel :
  start_inv previous platforms todo d → is_Some (url_parse (ch_base_url channel)) →
  ∃ url known d1, discovery_register channel d = Some (url, known, d1)
    ∧ config (d_expander d1) = config (d_expander d)
    ∧ (∃ todo', start_inv previous platforms todo' (schedule_platforms url known platforms d1))
    ∧ config (d_expander (schedule_platforms url known platforms d1)) = config (d_expander d).
Proof.
  intros [Hst Hpend Hnd Hkeys Hsched Hch Hrest] [url Hurl].
  assert (∃ known s1, register_user_channel channel (d_expander d) = Some (url, known, s1)
    ∧ config s1 = config (d_expander d) ∧ ce_discovered s1 !! url = Some known
    ∧ (∀ c, c ≠ url → ce_discovered s1 !! c = ce_discovered (d_expander d) !! c)
    ∧ (∀ c, is_Some (ce_discovered (d_expander d) !! c) → ce_discovered s1 !! c = ce_discovered (d_expander d) !! c)
    ∧ ce_user_channels s1 = (if bool_decide (d_channels d !! url = None) then ce_user_channels (d_expander d) ++ [url]
                             else ce_user_channels (d_expander d))) as (known & s1 & Ereg & Ecfg & Eknown & Eother & Eold & Eus).
  { unfold register_user_channel. rewrite Hurl. cbn [mbind option_bind]. rewrite Hch.
    destruct (ce_discovered (d_expander d) !! url) as [existing|] eqn:E.
    - exists existing, (d_expander d). repeat split; done.
    - exists channel. eexists. split; [done|]. split; [done|]. split; [apply lookup_insert_eq|].
      split; [intros c Hc; by apply lookup_insert_ne|]. split; [|done]. intros c [x Hc]. apply lookup_insert_ne. intros <-. congruence. }
  destruct (starting_register channel (d_expander d) url known s1 Hst Ereg) as [Hst1 Hin1].
  exists url, known. unfold discovery_register. rewrite Ereg. cbn [mbind option_bind].
  eexists. split; [reflexivity|]. split; [exact Ecfg|]. set (d1 := with_known _ _ _).
  assert (∀ k, k ∈ todo → fetch_of previous s1 k = fetch_of previous (d_expander d) k) as Hfetch.
  { intros k [Hk _]%Hkeys. unfold fetch_of. f_equal.
    - unfold channel_at. rewrite Eold; [done|]. by apply Hst.
    - unfold policy_at. rewrite !bool_decide_true; [done|done|]. rewrite Eus. case_bool_decide; set_solver. }
  assert (channel_at s1 url = known) as Eat by (unfold channel_at; by rewrite Eknown).
  rewrite schedule_platforms_all, <-Eat.
  destruct (schedule_all_spec previous s1 ((λ p, (url, channel_at s1 url, p)) <$> platforms) Propagate d1) as ((fresh & Hadd) & Hun & Hchan).
  { cbn. by injection Hrest. }
  { cbn. by injection Hrest. }
  { intros c ch p (p' & [= -> -> ->] & Hp)%list_elem_of_fmap. split; [done|]. split; [unfold policy_at; by rewrite bool_decide_true|].
    left. cbn. injection Hrest as _ -> _ _ _ _. apply lookup_empty. }
  destruct Hadd as (Hndf & Hinf & Hpend3 & Hsched3). injection Hun as U1 U2 U3 U4 U5 U6 U7.
  set (d3 := (schedule_all _ Propagate d1).2) in *. cbn [d_expander d1 with_known with_expander] in U1.
  assert (∀ k, k ∈ fresh ↔ (k.1 = url ∧ k.2 ∈ platforms) ∧ k ∉ todo) as Hinf'.
  { intros k. rewrite Hinf. cbn [d1 d_scheduled with_known with_expander]. rewrite Hsched, <-list_fmap_compose. f_equiv.
    rewrite list_elem_of_fmap. destruct k as [c p]. cbn [fst snd compose]. naive_solver. }
  split; [|by rewrite U1]. exists (todo ++ fresh). split; rewrite ?U1.
  - exact Hst1.
  - rewrite Hpend3. cbn [d1 d_pending with_known with_expander]. rewrite Hpend, fmap_app. f_equal. apply list_fmap_ext.
    intros i k Hk. symmetry. apply Hfetch. by eapply list_elem_of_lookup_2.
  - apply NoDup_app. split; [done|]. split; [|done]. intros k Hk [_ Hn]%Hinf'. done.
  - intros k. rewrite elem_of_app, Hinf', Hkeys, Eus.
    case_bool_decide as Hb; [rewrite elem_of_app, list_elem_of_singleton; destruct (decide (k.1 ∈ ce_user_channels (d_expander d))); naive_solver|].
    assert (url ∈ ce_user_channels (d_expander d)) as Hu.
    { apply Hst. rewrite Hch in Hb. destruct (ce_discovered (d_expander d) !! url); [eauto|done]. }
    destruct (decide (k.1 ∈ ce_user_channels (d_expander d))); naive_solver.
  - intros k. rewrite Hsched3, elem_of_app. cbn [d1 d_scheduled with_known with_expander]. by rewrite Hsched.
  - apply map_eq. intros c. rewrite Hchan. unfold known_channels. cbn [d1 d_channels with_known with_expander].
    destruct (decide (c = url)) as [->|Hne].
    + by rewrite lookup_insert_eq, Eknown.
    + rewrite lookup_insert_ne, Hch, Eother by done. destruct (ce_discovered (d_expander d) !! c) eqn:E; [done|].
      rewrite bool_decide_false; [done|]. rewrite <-list_fmap_compose. intros (p & -> & _)%list_elem_of_fmap. done.
  - rewrite U2, U3, U4, U5, U6, U7. cbn [d1 d_barriers d_subdirs d_user_order d_previous d_allow_missing d_optional_platforms with_known with_expander].
    injection Hrest as -> -> -> -> -> ->. rewrite Eus. done.
Qed.

Lemma schedule_users_spec previous platforms channels todo d :
  start_inv previous platforms todo d → Forall (λ c, is_Some (url_parse (ch_base_url c))) channels →
  ∃ d' todo', schedule_users channels platforms d = Some d' ∧ start_inv previous platforms todo' d'
    ∧ config (d_expander d') = config (d_expander d).
Proof.
  revert todo d. induction channels as [|channel channels IH]; intros todo d Hinv Hc; cbn [schedule_users]; [eauto|].
  apply Forall_cons in Hc as [Hc Hcs].
  destruct (schedule_user_spec _ _ _ _ _ Hinv Hc) as (url & known & d1 & -> & E1 & (todo1 & Hinv1) & E2). cbn [mbind option_bind].
  destruct (IH _ _ Hinv1 Hcs) as (d2 & todo2 & -> & Hinv2 & E3). exists d2, todo2. split; [done|]. split; [done|]. congruence.
Qed.

Lemma start_new previous platforms mode max_depth reporter :
  start_inv previous platforms [] (discovery_new platforms mode max_depth reporter previous true).
Proof.
  split; cbn; [apply starting_new|done|constructor| |set_solver|done|done].
  intros k. rewrite !elem_of_nil. naive_solver.
Qed.

Lemma start_disc previous todo d :
  start_inv previous (ce_platforms (d_expander d)) todo d → disc_inv previous (d_expander d) [] todo d.
Proof.
  intros [Hst Hpend Hnd Hkeys Hsched Hch Hrest]. injection Hrest as R1 R2 R3 R4 R5 R6. split; cbn [app answers fmap list_fmap].
  - exists []. apply arrived_refl. by apply starting_wf.
  - done.
  - done.
  - intros k. rewrite Hkeys. f_equiv. split; [intros Hk; exists 0; by apply Hst|]. intros [n [Hk _]%Hst]. done.
  - done.
  - intros k Hk. by apply elem_of_nil in Hk.
  - intros k sub. rewrite R2, lookup_empty. split; [done|]. intros [Hk _]. by apply elem_of_nil in Hk.
  - intros k. rewrite R1, lookup_empty. split; [by intros [? ?]|]. intros Hk. by apply elem_of_nil in Hk.
  - done.
  - congruence.
Qed.

(** ** The whole *)

Lemma finish_ok d : expander_wf (d_expander d) → ∃ r, finish None d = Some r ∧ (strict (d_expander d) = false → ∃ e, r = Ok e)
  ∧ ∀ e, r = Ok e → ex_channels e = d_channels d ∧ ex_subdirs e = d_subdirs d
      ∧ if enabled (d_expander d) && has_observed_relations (d_expander d)
        then ∃ resolution s', finalize (d_expander d) = Some (Ok (resolution, s')) ∧ ex_order e = r_order resolution
        else ex_order e = d_user_order d.
Proof.
  intros Hwf. unfold finish. destruct (enabled (d_expander d) && has_observed_relations (d_expander d)).
  - destruct (finalize_same _ _ Hwf Hwf) as (_ & _ & [r Hr] & Hl); [done|done|]. rewrite Hr. cbn [outcome_bind].
    destruct r as [[resolution s']|e]; cbn [outcome_bind].
    + eexists. split; [reflexivity|]. split; [eauto|]. intros e [= <-]. cbn. eauto 6.
    + eexists. split; [reflexivity|]. split; [|done]. intros Hs. destruct (Hl Hs) as [x Hx]. congruence.
  - cbn [outcome_bind]. eexists. split; [reflexivity|]. split; [eauto|]. by intros e [= <-].
Qed.

Lemma finish_same d d' e e' :
  expander_wf (d_expander d) → expander_wf (d_expander d') → same_input (d_expander d) (d_expander d') →
  ce_discovered (d_expander d) = ce_discovered (d_expander d') → d_user_order d = d_user_order d' →
  finish None d = Some (Ok e) → finish None d' = Some (Ok e') → ex_order e = ex_order e'.
Proof.
  intros Hwf Hwf' Hs Hd Huser E E'.
  destruct (finish_ok d Hwf) as (r & Er & _ & Hr), (finish_ok d' Hwf') as (r' & Er' & _ & Hr').
  rewrite E in Er. injection Er as <-. rewrite E' in Er'. injection Er' as <-.
  destruct (Hr e eq_refl) as (_ & _ & Ho), (Hr' e' eq_refl) as (_ & _ & Ho').
  assert (enabled (d_expander d) && has_observed_relations (d_expander d)
    = enabled (d_expander d') && has_observed_relations (d_expander d')) as Ec.
  { pose proof (si_config _ _ Hs) as [= Em Emax _ _]. pose proof (same_edges _ _ (wf_inv _ Hwf) (wf_inv _ Hwf') Hs) as He.
    unfold enabled, has_observed_relations. rewrite Em, Emax. do 2 f_equal. apply bool_decide_ext.
    split; intros Hn; rewrite Hn in He; [by apply Permutation_nil_l in He|by apply Permutation_nil_r in He]. }
  rewrite Ec in Ho. clear Ec. destruct (enabled (d_expander d') && has_observed_relations (d_expander d')); [|congruence].
  destruct Ho as (res & s1 & F & ->), Ho' as (res' & s1' & F' & ->).
  destruct (finalize_same _ _ Hwf Hwf' Hs Hd) as (H & _). destruct (proj1 (H res)) as [s2 F2]; [eauto|]. congruence.
Qed.

(** The state of the expander once the channels of the user are registered *)
Definition started channels platforms mode max_depth reporter previous (s0 : ChannelExpander) : Prop :=
  ∃ d0, schedule_users channels platforms (discovery_new platforms mode max_depth reporter previous true) = Some d0
    ∧ d_expander d0 = s0.

Lemma started_disc channels platforms mode max_depth reporter previous :
  Forall (λ c, is_Some (url_parse (ch_base_url c))) channels →
  ∃ d0 todo, schedule_users channels platforms (discovery_new platforms mode max_depth reporter previous true) = Some d0
    ∧ starting (d_expander d0) ∧ disc_inv previous (d_expander d0) [] todo d0
    ∧ config (d_expander d0) = (mode, max_depth, platforms).
Proof.
  intros Hc. destruct (schedule_users_spec _ _ _ _ _ (start_new previous platforms mode max_depth reporter) Hc)
    as (d0 & todo & E & Hinv & Ecfg). exists d0, todo. split; [done|]. split; [apply Hinv|].
  assert (ce_platforms (d_expander d0) = platforms) as Ep by (by injection Ecfg).
  split; [apply start_disc; by rewrite Ep|done].
Qed.

(** C10: The expansion of channels ends, in whatever order the fetches complete: the number of
    answers is bounded.  Unless the mode is strict it fails only when a subdirectory of a
    channel of the user cannot be fetched. *)
Theorem expand_channels_total channels platforms mode max_depth reporter previous :
  Forall (λ c, is_Some (url_parse (ch_base_url c))) channels → enabled (expander_new mode max_depth platforms reporter) = true →
  ∃ s0 bound, started channels platforms mode max_depth reporter previous s0 ∧ ∀ choices, bound ≤ length choices →
    ∃ r, expand_channels choices channels platforms mode max_depth reporter previous = Some r
      ∧ (mode = Warn → (∀ c p, c ∈ ce_user_channels s0 → p ∈ platforms → ∃ f, answer previous s0 (c, p) = Ok f) → ∃ e, r = Ok e).
Proof.
  intros Hc Hen. destruct (started_disc channels platforms mode max_depth reporter previous Hc) as (d0 & todo & E & Hst & Hinv & Hcfg).
  set (s0 := d_expander d0) in *. injection Hcfg as Em Emax Epl.
  assert (enabled s0 = true) as Hen0 by (rewrite <-Hen; unfold enabled; cbn; by rewrite Em, Emax).
  exists s0, (length (reachable_keys previous s0)). split; [by exists d0|]. intros choices Hlen. unfold expand_channels. rewrite E.
  destruct (drain_total previous s0 Hst Hen0 choices [] todo d0 Hinv Hlen) as (r & Er & Hok). rewrite Er. cbn [outcome_bind].
  assert (mode = Warn → strict s0 = false) as Hstrict by (intros ->; unfold strict; by rewrite Em).
  destruct r as [d|e]; cbn [outcome_bind].
  - destruct (drain_inv previous s0 Hst Hen0 choices [] todo d0 d Hinv Er) as (done & Hinv').
    destruct (di_arrived _ _ _ _ _ Hinv') as (pairs & [Hwf [= Em' _ _ _] _ _ _]).
    destruct (finish_ok d Hwf) as (r & Er' & Hl & _). exists r. split; [done|]. intros Hw _. apply Hl.
    rewrite <-(Hstrict Hw). unfold strict. by rewrite Em'.
  - exists (Err e). split; [done|]. intros Hw Hf. destruct (Hok (Hstrict Hw)) as [d Hd]; [|done].
    intros [c p]. rewrite Epl. apply Hf.
Qed.

(** C9: What the expansion finds does not depend on the order in which the fetches complete:
    the channels that the declarations reach within the limit, each with the answers of all
    its platforms, in one order of priority. *)
Theorem expand_channels_correct channels platforms mode max_depth reporter previous choices e :
  Forall (λ c, is_Some (url_parse (ch_base_url c))) channels → enabled (expander_new mode max_depth platforms reporter) = true →
  expand_channels choices channels platforms mode max_depth reporter previous = Some (Ok e) →
  ∃ s0, started channels platforms mode max_depth reporter previous s0
    ∧ (∀ c, is_Some (ex_channels e !! c) ↔ ∃ n, n ≤ max_depth ∧ within (related previous s0) (ce_user_channels s0) n c)
    ∧ (∀ c p sub, ex_subdirs e !! (c, p) = Some sub ↔
         is_Some (ex_channels e !! c) ∧ p ∈ platforms ∧ ∃ f, answer previous s0 (c, p) = Ok f ∧ ds_subdir f = sub)
    ∧ ∀ choices' e', expand_channels choices' channels platforms mode max_depth reporter previous = Some (Ok e') →
        ex_order e = ex_order e' ∧ ex_channels e = ex_channels e' ∧ ex_subdirs e = ex_subdirs e'.
Proof.
  intros Hc Hen. destruct (started_disc channels platforms mode max_depth reporter previous Hc) as (d0 & todo & E & Hst & Hinv & Hcfg).
  set (s0 := d_expander d0) in *. injection Hcfg as Em Emax Epl.
  assert (enabled s0 = true) as Hen0 by (rewrite <-Hen; unfold enabled; cbn; by rewrite Em, Emax).
  assert (∀ cs x, expand_channels cs channels platforms mode max_depth reporter previous = Some (Ok x) →
    ∃ d done, disc_inv previous s0 done [] d ∧ finish None d = Some (Ok x)
      ∧ ex_channels x = ce_discovered (d_expander d) ∧ ex_subdirs x = d_subdirs d) as Hrun.
  { intros cs x. unfold expand_channels. rewrite E. destruct (drain cs d0) as [[d|]|] eqn:Er; cbn [outcome_bind]; [|done..].
    intros Ef. destruct (drain_inv previous s0 Hst Hen0 cs [] todo d0 d Hinv Er) as (done & Hinv'). exists d, done.
    destruct (di_arrived _ _ _ _ _ Hinv') as (pairs & [Hwf _ _ _ _]). destruct (finish_ok d Hwf) as (r & Er' & _ & Hr).
    rewrite Ef in Er'. injection Er' as <-. destruct (Hr x eq_refl) as (H1 & H2 & _). split; [done|]. split; [done|].
    split; [|done]. rewrite H1. apply (di_channels _ _ _ _ _ Hinv'). }
  intros (d & done & Hd & Hf & Hch & Hsub)%Hrun. exists s0. split; [by exists d0|].
  destruct (di_arrived _ _ _ _ _ Hd) as (pairs & Harr). pose proof (ar_wf _ _ _ _ Harr) as Hwf.
  assert (∀ c, is_Some (ex_channels e !! c) ↔ is_Some (ce_depth_of (d_expander d) !! c)) as Hknown
    by (intros c; rewrite Hch; apply (wf_discovered _ Hwf)).
  split; [|split].
  - intros c. rewrite Hknown. split.
    + intros [n [[Hw _] Hn]%(disc_complete previous s0 Hst Hen0 _ _ _ _ Hd)]. exists n. split; [congruence|done].
    + intros (n & Hn & Hw). rewrite <-Emax in Hn. eapply disc_within in Hw; [|done..].
      edestruct disc_known as (m & Hm & _); [done..|]. by exists m.
  - intros c p sub. rewrite Hsub, (di_subdirs _ _ _ _ _ Hd), Hknown. pose proof (di_keys _ _ _ _ _ Hd (c, p)) as Hk.
    rewrite app_nil_r, Epl in Hk. cbn [fst snd] in Hk. rewrite Hk. naive_solver.
  - intros choices' e' (d' & done' & Hd' & Hf' & Hch' & Hsub')%Hrun.
    destruct (disc_same previous s0 Hst Hen0 _ _ _ _ Hd Hd') as (Hs & Edisc & Esub). destruct (di_arrived _ _ _ _ _ Hd') as (pairs' & Harr').
    split; [|split; congruence]. eapply (finish_same d d'); [done|apply Harr'|done|done| |done|done].
    pose proof (di_rest _ _ _ _ _ Hd) as [= -> _ _ _]. by pose proof (di_rest _ _ _ _ _ Hd') as [= -> _ _ _].
Qed.
End theorems.

(** ** A concrete gateway: [a] has [b] as its base, which overrides [c], on one platform. *)
#[local] Existing Instance url_paths_parent.
#[local] Existing Instance join_errors_none.
#[local] Instance subdir_clients_relations : SubdirClients (UC := url_crate_parts) := {|
  SubdirClient := option ChannelRelations;
  client_fetch_package_records _ _ := Ok package_records_default;
  client_package_names _ := [];
  client_channel_relations client := client
|}.
#[local] Instance gateway_sample : GatewayFetch := {|
  get_or_create_subdir channel platform :=
    if bool_decide (ch_base_url channel = url_as_str chan_a ∧ platform = Linux64) then Ok (Found a_extends_b)
    else if bool_decide (ch_base_url channel = url_as_str chan_b ∧ platform = Linux64) then Ok (Found b_overrides_c)
    else if bool_decide (ch_base_url channel = url_as_str chan_c) then Err (SubdirNotFoundError (txt "missing"))
    else Ok (Found None)
|}.
Definition sample_expand (choices : list nat) : outcome GatewayError ChannelExpansion :=
  expand_channels choices [channel_from_url chan_a] [Linux64] Warn 10 None None.
Lemma sample_parses : Forall (λ c, is_Some (url_parse (ch_base_url c))) [channel_from_url chan_a].
Proof. constructor; [|constructor]. exists chan_a. apply url_parse_as_str. Qed.

Lemma expand_channels_total_witness :
  ∃ bound, ∀ choices, bound ≤ length choices → ∃ e, sample_expand choices = Some (Ok e).
Proof.
  destruct (expand_channels_total [channel_from_url chan_a] [Linux64] Warn 10 None None sample_parses)
    as (s0 & bound & (d0 & E & <-) & H); [reflexivity|]. exists bound. intros choices Hlen.
  destruct (H choices Hlen) as (r & Er & Hok). destruct (Hok eq_refl) as [e He]; [|exists e; unfold sample_expand; by rewrite Er, He].
  intros c p _ _. unfold answer, run_fetch. destruct (pf_existing _); [by eexists|].
  unfold get_or_create_subdir, gateway_sample. repeat case_bool_decide; by eexists.
Defined.

(** What one run computes *)
Definition sample_check (choices : list nat) : bool :=
  match sample_expand choices with
  | Some (Ok e) => bool_decide (ex_order e = [chan_b; chan_c; chan_a] ∧ is_Some (ex_channels e !! chan_c))
  | _ => false
  end.
Lemma sample_run :
  ∃ e, sample_expand [0; 0; 0] = Some (Ok e) ∧ ex_order e = [chan_b; chan_c; chan_a] ∧ is_Some (ex_channels e !! chan_c).
Proof.
  assert (sample_check [0; 0; 0] = true) as H by (vm_compute; reflexivity). unfold sample_check in H.
  destruct (sample_expand [0; 0; 0]) as [[e|]|]; [|discriminate H..]. exists e. split; [reflexivity|]. by apply bool_decide_eq_true in H.
Qed.

Lemma expand_channels_correct_witness :
  ∃ e, sample_expand [0; 0; 0] = Some (Ok e) ∧ ex_order e = [chan_b; chan_c; chan_a] ∧ is_Some (ex_channels e !! chan_c)
    ∧ ∀ choices e', sample_expand choices = Some (Ok e') → ex_order e' = ex_order e.
Proof.
  destruct sample_run as (e & E & Ho & Hc). exists e. split; [exact E|]. split; [exact Ho|]. split; [exact Hc|].
  destruct (expand_channels_correct [channel_from_url chan_a] [Linux64] Warn 10 None None [0; 0; 0] e sample_parses eq_refl E)
    as (s0 & _ & _ & _ & Hdet). intros choices e' E'. symmetry. exact (proj1 (Hdet choices e' E')).
Defined.
