(* ===== verification/VersionTree.v ===== *)
(** * Recognising version constraints

    [rattler_conda_types/src/version_spec/version_tree.rs]: the parsers with which a match
    spec finds where its version ends and its build string starts.  They recognise a
    constraint and do not build it; the errors are dropped, so nom's own error type is
    used throughout, on which [context] does nothing. *)
From S2P Require Import Prelude Externs TextOps VersionRepr VersionOrder VersionOps.
From S2P Require Import VersionParse VersionSpec.

Local Notation text := (list N).

(** nom's error of the recognisers *)
Definition NomError : Type := text * ErrorKind.

Section recognisers.
Context `{NM : Nom}.

(** [value] *)
Definition nom_value {O P} (v : P) (p : text → IResult O NomError) : text → IResult P NomError :=
  nom_map p (λ _, v).

Definition parse_operator : text → IResult VersionOperators NomError :=
  alt [nom_value (OpExact Equals) (tag (txt "=="));
       nom_value (OpExact NotEquals) (tag (txt "!="));
       nom_value (OpStrictRange StartsWith) (tag (txt "="));
       nom_value (OpRange GreaterEquals) (tag (txt ">="));
       nom_value (OpRange Greater) (tag (txt ">"));
       nom_value (OpRange LessEquals) (tag (txt "<="));
       nom_value (OpRange Less) (tag (txt "<"));
       nom_value (OpStrictRange Compatible) (tag (txt "~="))].

(** The epoch is read as a [u32]. *)
Definition parse_version_epoch : text → IResult N NomError := terminated nom_u32 (tag (txt "!")).

Definition recognize_version_component (allow_glob : bool) : text → IResult text NomError :=
  if allow_glob then alt3 alpha1 digit1 (tag (txt "*")) else alt2 alpha1 digit1.

Definition is_separator_char (c : N) : bool := bool_decide (c ∈ [c_dot; c_dash; c_under]).
Definition is_trailing_char (c : N) : bool := bool_decide (c ∈ [c_under; c_dash]).

(** The loop over separators and components: where it stops.  Every round reads a
    component, so the length of the input bounds the rounds; the program ends the loop at
    an error of either kind. *)
Fixpoint components_loop (fuel : nat) (allow_glob : bool) (rest : text) : text :=
  match fuel with
  | 0 => rest
  | S f =>
      match opt (E := NomError) (take_while is_separator_char) rest with
      | Err _ => rest
      | Ok (after_sep, _) =>
          match recognize_version_component allow_glob after_sep with
          | Ok (r, _) => components_loop f allow_glob r
          | Err _ => rest
          end
      end
  end.

Definition recognize_version_components (allow_glob : bool) (input : text) : IResult text NomError :=
  match recognize_version_component allow_glob input with
  | Err e => Err e
  | Ok (rest, _) =>
      let rest := components_loop (S (length rest)) allow_glob rest in
      let rest := match take_while1 (E := NomError) is_trailing_char rest with
                  | Ok (r, _) => r
                  | Err _ => rest
                  end in
      Ok (rest, take (length input - length rest) input)
  end.

Definition recognize_version (allow_glob : bool) : text → IResult text NomError :=
  recognize
    (seq2 (opt parse_version_epoch)
      (seq2 (recognize_version_components allow_glob)
            (opt (preceded (tag (txt "+")) (cut (recognize_version_components allow_glob)))))).

Definition recognize_version_with_star : text → IResult text NomError :=
  alt2 (terminated (recognize_version true) (take_while (λ c, (c =? c_dot)%N || (c =? c_star)%N)))
       (tag (txt "*")).

Definition recognize_constraint : text → IResult text NomError :=
  alt3 (terminated (tag (txt "*")) (cut (opt (tag (txt ".*")))))
       (recognize (delimited (opt (tag (txt "^"))) (nom_not (tag (txt "$"))) (tag (txt "$"))))
       (recognize (preceded (opt (delimited (opt multispace0) parse_operator (opt multispace0)))
                            (cut recognize_version_with_star))).
End recognisers.
