(* ===== verification/VersionRecognise.v ===== *)
(** * Printed constraints are recognised

    [VersionTree] finds the end of a version constraint without reading it.  It reads all
    that the printer of constraints writes, for the versions whose epoch is an [u32] and
    which do not end in a dot before the last dash. *)
From S2P Require Import Prelude Externs TextOps VersionRepr VersionOrder VersionOps.
From S2P Require Import VersionParse VersionGrammar VersionSpec VersionSpecText VersionTree.

Local Notation text := (list N).

Definition word_char (c : N) : bool := is_alnum c || (c =? c_star)%N.
Definition run_char (c : N) : bool := word_char c || is_separator_char c.
(** What may stand behind a version *)
Definition version_end (r : text) : bool :=
  stops (λ c, run_char c || (c =? c_plus)%N || (c =? c_bang)%N) r.

(** The separators at the end of the text hold no dot. *)
Definition no_dot_end (u : text) : Prop := ∀ p q, u = p ++ q → forallb is_separator_char q = true → c_dot ∉ q.

Lemma no_dot_tail u c q : is_separator_char c = false → c_dot ∉ q → no_dot_end (u ++ c :: q).
Proof.
  intros Hc Hq p q' E Hs Hin. apply app_eq_inv in E as [(k & -> & E)|(k & -> & E)].
  - assert (c ∈ q') as Hcin by (rewrite E; set_solver).
    assert (is_separator_char c = true) as H; [|by rewrite H in Hc].
    rewrite forallb_forall in Hs. by apply Hs, list_elem_of_In.
  - destruct k as [|d k]; simplify_eq/=; [|set_solver].
    by rewrite Hc in Hs.
Qed.

(** The two ways a part text can end *)
Definition positional_part (p : PartText) : Prop :=
  match pt_tail p with Separate s _ => s ≠ c_dot | _ => True end.
Definition positional_text (a : VersionText) : Prop :=
  match vt_epoch a with Some t => (digits_value t <= u32_max)%N | None => True end
  ∧ positional_part (vt_release a)
  ∧ match vt_local a with Some l => positional_part l | None => True end.

(** ** Parts *)

Lemma alnum_word c : is_alnum c = true → word_char c = true.
Proof. unfold word_char. by intros ->. Qed.
Lemma word_run c : word_char c = true → run_char c = true.
Proof. unfold run_char. by intros ->. Qed.
Lemma sep_char c : is_sep c = is_separator_char c.
Proof. unfold is_sep, is_separator_char. apply bool_decide_ext. set_solver. Qed.
Lemma sep_run c : is_sep c = true → run_char c = true.
Proof. rewrite sep_char. unfold run_char. intros ->. by rewrite orb_true_r. Qed.

Lemma word_not_separator c : word_char c = true → is_separator_char c = false.
Proof.
  unfold word_char. rewrite <-sep_char. intros [H|H%N.eqb_eq]%orb_true_iff; [|by subst].
  destruct (is_sep c) eqn:E; [|done]. apply sep_not_alnum in E. congruence.
Qed.

Lemma chain_end prev toks : chain prev toks = true → toks ≠ [] → ∃ u c, concat toks = u ++ [c] ∧ is_alnum c = true.
Proof.
  revert prev. induction toks as [|t toks IH]; intros prev; [done|]. cbn [chain concat]. intros H _. bool_hyps.
  destruct toks as [|t' toks].
  - destruct (token_ok_spec t) as (c & s & E & _ & Hall & _); [done|]. csimpl. rewrite app_nil_r.
    destruct t as [|d t _] using rev_ind; [done|]. exists t, d. split; [done|].
    rewrite forallb_app in Hall. simpl in Hall. bool_hyps. by eapply class_char_alnum.
  - destruct (IH (is_number t)) as (u & c & -> & Hc); [done|done|]. exists (t ++ u), c. by rewrite (assoc_L (++)).
Qed.

Lemma row_end toks : row_ok toks = true → ∃ u c, concat toks = u ++ [c] ∧ is_alnum c = true.
Proof.
  destruct toks as [|t toks]; [done|]. intros H. apply (chain_end (negb (is_number t))); [|done].
  cbn [row_ok chain] in *. rewrite negb_involutive, eqb_reflx. by apply andb_true_iff in H as [-> ->].
Qed.

Lemma part_end p : pt_ok p = true → ∃ u c, pt_text p = u ++ c :: tail_text (pt_tail p) ∧ is_alnum c = true.
Proof.
  destruct p as [first rest tail]. unfold pt_ok, pt_text, rest_ok, rest_text. cbn [pt_first pt_rest pt_tail].
  intros [[Hf [Hr _]%andb_true_iff]%andb_true_iff _]%andb_true_iff.
  destruct rest as [|[s toks] rest _] using rev_ind.
  - destruct (row_end first Hf) as (u & c & -> & Hc). exists u, c. csimpl. by rewrite <-(assoc_L (++)).
  - rewrite forallb_app in Hr. cbn [forallb fst snd] in Hr. bool_hyps.
    destruct (row_end toks) as (u & c & E & Hc); [done|].
    exists (concat first ++ concat ((λ r, r.1 :: concat r.2) <$> rest) ++ s :: u), c. split; [|done].
    rewrite fmap_app, concat_app. csimpl. rewrite E, app_nil_r. rewrite <-!(assoc_L (++)). cbn [app]. by rewrite <-!(assoc_L (++)).
Qed.

Lemma part_head p : pt_ok p = true → ∃ c s, pt_text p = c :: s ∧ is_alnum c = true.
Proof.
  destruct p as [[|t toks] rest tail]; [done|]. unfold pt_ok, pt_text. cbn [pt_first row_ok]. intros H. bool_hyps.
  destruct (token_head t) as (c & s & -> & Hc); [done|]. csimpl. eauto.
Qed.

Lemma part_run p : pt_ok p = true → forallb run_char (pt_text p) = true.
Proof.
  intros H. apply forallb_forall. intros c Hc%list_elem_of_In.
  assert (Forall (λ c, run_char c = true) (pt_text p)) as Hall
    by (apply part_forall; [intros; by apply word_run, alnum_word|by apply sep_run|done]).
  rewrite Forall_forall in Hall. by apply Hall.
Qed.

Lemma part_no_dot p : pt_ok p = true → positional_part p → no_dot_end (pt_text p).
Proof.
  intros H Hp. destruct (part_end p H) as (u & c & -> & Hc). apply no_dot_tail; [by apply word_not_separator, alnum_word|].
  unfold positional_part in Hp. destruct (pt_tail p) as [|b|s b]; cbn [tail_text]; [set_solver|destruct b; set_solver|].
  destruct b; set_solver.
Qed.

(** ** The recognisers *)
Section recognise.
Context `{NM : Nom}.

Lemma span_run p u r : (∀ c, p c = true → run_char c = true) → stops run_char r = true → forallb run_char u = true →
  ∃ a b, u = a ++ b ∧ span p (u ++ r) = (a, b ++ r) ∧ forallb p a = true ∧ stops p b = true.
Proof.
  intros Hp Hr Hu. exists (span p u).1, (span p u).2. destruct (span_spec p u) as (E & Ha & Hb). split; [done|].
  split; [|done]. rewrite E at 1. rewrite <-(assoc_L (++)). apply span_app; [done|].
  destruct (span p u).2 as [|c b]; [|done]. destruct r as [|c r]; [done|]. simpl in *.
  destruct (p c) eqn:Ep; [|done]. by rewrite (Hp c Ep) in Hr.
Qed.

Lemma alpha_run c : is_ascii_alphabetic c = true → run_char c = true.
Proof. intros H. apply word_run, alnum_word. unfold is_alnum. by rewrite H, orb_true_r. Qed.
Lemma digit_run c : is_ascii_digit c = true → run_char c = true.
Proof. intros H. apply word_run, alnum_word. unfold is_alnum. by rewrite H. Qed.

(** A component is read from the run, and only from it. *)
Lemma component_run c u r : word_char c = true → forallb run_char u = true → stops run_char r = true →
  ∃ a b, u = a ++ b ∧ recognize_version_component true (c :: u ++ r) = Ok (b ++ r, c :: a).
Proof.
  intros Hc Hu Hr. unfold recognize_version_component. nom. unfold alt3_fun. nom. unfold span1_fun. cbn [span].
  destruct (is_ascii_alphabetic c) eqn:Ea.
  - destruct (span_run is_ascii_alphabetic u r alpha_run Hr Hu) as (a & b & -> & -> & _). by exists a, b.
  - nom. unfold span1_fun. cbn [span]. destruct (is_ascii_digit c) eqn:Ed.
    + destruct (span_run is_ascii_digit u r digit_run Hr Hu) as (a & b & -> & -> & _). by exists a, b.
    + unfold word_char, is_alnum in Hc. rewrite Ea, Ed in Hc. apply N.eqb_eq in Hc as ->.
      exists [], u. split; [done|]. nom. done.
Qed.

Lemma component_stops r : stops run_char r = true → ∃ e, recognize_version_component true r = Err (NErr e).
Proof.
  intros Hr. unfold recognize_version_component. nom. unfold alt3_fun. nom. unfold span1_fun.
  destruct r as [|c r]; cbn [span]; [by nom; eexists|]. simpl in Hr. apply negb_true_iff in Hr.
  assert (is_ascii_alphabetic c = false) as ->.
  { destruct (is_ascii_alphabetic c) eqn:E; [|done]. by rewrite alpha_run in Hr. }
  nom. unfold span1_fun. cbn [span]. assert (is_ascii_digit c = false) as ->.
  { destruct (is_ascii_digit c) eqn:E; [|done]. by rewrite digit_run in Hr. }
  nom. unfold tag_fun. change (txt "*") with [c_star]. cbn [strip]. rewrite (proj2 (N.eqb_neq c_star c)) by (by intros <-).
  by eexists.
Qed.

Lemma components_loop_run u r fuel :
  forallb run_char u = true → stops run_char r = true → length u < fuel →
  ∃ p q, u = p ++ q ∧ forallb is_separator_char q = true ∧ components_loop fuel true (u ++ r) = q ++ r.
Proof.
  revert u. induction fuel as [|fuel IH]; intros u Hu Hr Hl; [lia|]. cbn [components_loop]. nom. unfold opt_fun. nom.
  destruct (span_run is_separator_char u r) as (a & b & -> & -> & Ha & Hb);
    [intros c E; unfold run_char; by rewrite E, orb_true_r|done|done|]. cbn [fst snd].
  rewrite forallb_app in Hu. apply andb_true_iff in Hu as [_ Hu]. destruct b as [|c b].
  - destruct (component_stops r Hr) as [e He]. cbn [app]. rewrite He. exists [], a. rewrite app_nil_r. done.
  - simpl in Hu, Hb. apply andb_true_iff in Hu as [Hc Hu].
    assert (word_char c = true) as Hw.
    { unfold run_char in Hc. apply orb_true_iff in Hc as [Hc|Hc]; [done|]. by rewrite Hc in Hb. }
    destruct (component_run c b r Hw Hu Hr) as (a' & b' & -> & E). cbn [app]. rewrite E.
    rewrite forallb_app in Hu. apply andb_true_iff in Hu as [_ Hu].
    destruct (IH b' Hu Hr) as (p & q & -> & Hq & ->); [rewrite !length_app in Hl; simpl in Hl; rewrite length_app in Hl; lia|].
    exists (a ++ c :: a' ++ p), q. split; [|done]. rewrite <-!(assoc_L (++)). cbn [app]. by rewrite <-!(assoc_L (++)).
Qed.

(** A run that starts with a component and does not end in a dot is read as a whole. *)
Lemma components_run c u r :
  word_char c = true → forallb run_char u = true → no_dot_end (c :: u) → stops run_char r = true →
  recognize_version_components true (c :: u ++ r) = Ok (r, c :: u).
Proof.
  intros Hc Hu Hd Hr. unfold recognize_version_components.
  destruct (component_run c u r Hc Hu Hr) as (a & b & -> & ->).
  rewrite forallb_app in Hu. apply andb_true_iff in Hu as [_ Hu].
  destruct (components_loop_run b r (S (length (b ++ r))) Hu Hr) as (p & q & -> & Hq & E); [rewrite length_app; lia|].
  rewrite E. nom. unfold span1_fun.
  assert (forallb is_trailing_char q = true) as Ht.
  { assert (c_dot ∉ q) as Hdot by (apply (Hd (c :: a ++ p) q); [simpl; by rewrite (assoc_L (++))|done]).
    apply forallb_forall. intros d Hin%list_elem_of_In. rewrite forallb_forall in Hq.
    specialize (Hq d (proj1 (list_elem_of_In _ _) Hin)). unfold is_separator_char in Hq. unfold is_trailing_char.
    apply bool_decide_eq_true in Hq. apply bool_decide_eq_true. set_solver. }
  assert (stops is_trailing_char r = true) as Hrt.
  { destruct r as [|d r]; [done|]. simpl in *. destruct (is_trailing_char d) eqn:Et; [|done].
    unfold run_char, is_separator_char in Hr. unfold is_trailing_char in Et. apply bool_decide_eq_true in Et.
    rewrite bool_decide_true in Hr by set_solver. by rewrite orb_true_r in Hr. }
  rewrite span_app by done.
  assert (∀ n, n = length (c :: (a ++ p ++ q) ++ r) - length r → take n (c :: (a ++ p ++ q) ++ r) = c :: a ++ p ++ q) as Htake.
  { intros n ->. simpl. rewrite length_app. replace (S (length (a ++ p ++ q) + length r) - length r) with (S (length (a ++ p ++ q))) by lia.
    cbn [take]. by rewrite take_app_length. }
  destruct q as [|d q]; cbn [app]; by rewrite Htake.
Qed.

(** ** Versions *)

Lemma version_end_run r : version_end r = true → stops run_char r = true.
Proof. destruct r as [|c r]; [done|]. simpl. by intros [[-> _]%orb_false_iff _]%negb_true_iff%orb_false_iff. Qed.

(** An epoch is read only where there is one. *)
Lemma epoch_skip u r : forallb run_char u = true → head r ≠ Some c_bang → stops is_ascii_digit r = true →
  opt parse_version_epoch (u ++ r) = Ok (u ++ r, None).
Proof.
  intros Hu Hr Hd. unfold parse_version_epoch. nom. unfold opt_fun. nom. unfold map_fun, pair_fun. nom. unfold u32_fun.
  destruct (span_spec is_ascii_digit u) as (E & Ha & Hb). set (a := (span is_ascii_digit u).1) in *.
  set (b := (span is_ascii_digit u).2) in *. clearbody a b. subst u.
  rewrite <-(assoc_L (++)). rewrite span_app; [|done|by destruct b].
  destruct a as [|c a]; [done|]. destruct (_ <=? _)%N; [|done]. nom. unfold tag_fun. change (txt "!") with [c_bang].
  assert (strip [c_bang] (b ++ r) = None) as ->; [|done]. rewrite forallb_app in Hu. apply andb_true_iff in Hu as [_ Hu].
  destruct b as [|d b]; cbn [app].
  - destruct r as [|d r]; [done|]. cbn [strip]. by rewrite (proj2 (N.eqb_neq c_bang d)) by (intros <-; by apply Hr).
  - cbn [strip]. rewrite (proj2 (N.eqb_neq c_bang d)); [done|]. by intros <-.
Qed.

Lemma epoch_read t s : token_ok t = true → is_number t = true → (digits_value t <= u32_max)%N →
  ∃ n, opt parse_version_epoch (t ++ c_bang :: s) = Ok (s, Some n).
Proof.
  intros Ht Hn Hb. unfold parse_version_epoch. nom. unfold opt_fun. nom. unfold map_fun, pair_fun. nom. unfold u32_fun.
  rewrite span_app by done. destruct t as [|c t]; [done|]. rewrite (proj2 (N.leb_le _ _) Hb). nom.
  unfold tag_fun. change (txt "!") with [c_bang]. cbn [strip]. by eexists.
Qed.

(** The components of a part, with a star or nothing behind them *)
Lemma part_read p w r : pt_ok p = true → positional_part p → w ∈ [[]; txt ".*"] → stops run_char r = true →
  recognize_version_components true (pt_text p ++ w ++ r) = Ok (r, pt_text p ++ w).
Proof.
  intros Hp Hpos Hw Hr. destruct (part_head p Hp) as (c & s & E & Hc).
  pose proof (part_run p Hp) as Hrun. pose proof (part_no_dot p Hp Hpos) as Hdot. rewrite E in *.
  simpl in Hrun. apply andb_true_iff in Hrun as [_ Hrun]. cbn [app]. rewrite (assoc_L (++) s w r).
  apply components_run; [by apply alnum_word| | |done].
  - rewrite forallb_app, Hrun. apply elem_of_cons in Hw as [->| ->%list_elem_of_singleton]; done.
  - apply elem_of_cons in Hw as [->| ->%list_elem_of_singleton]; [by rewrite app_nil_r|].
    change (c :: s ++ txt ".*") with ((c :: s) ++ [c_dot] ++ c_star :: []). rewrite (assoc_L (++)).
    apply no_dot_tail; [done|set_solver].
Qed.

Lemma recognize_length (t r : text) : take (length (t ++ r) - length r) (t ++ r) = t.
Proof. rewrite length_app, Nat.add_sub. apply take_app_length. Qed.

Lemma version_read a w r :
  vt_ok a = true → positional_text a → w ∈ [[]; txt ".*"] → version_end r = true →
  recognize_version true (vt_text a ++ w ++ r) = Ok (r, vt_text a ++ w).
Proof.
  destruct a as [epoch release local]. unfold vt_ok, positional_text, vt_text. cbn [vt_epoch vt_release vt_local].
  intros [[[He Hp]%andb_true_iff Hl]%andb_true_iff _]%andb_true_iff (Hpe & Hpp & Hpl) Hw Hr.
  pose proof (version_end_run r Hr) as Hrun.
  set (rest := match local with Some l => c_plus :: pt_text l | None => [] end ++ w ++ r).
  assert (∃ rl rw, pt_text release ++ rest = pt_text release ++ rw ++ rl ∧ rw ∈ [[]; txt ".*"] ∧ stops run_char rl = true
    ∧ head rl ≠ Some c_bang ∧ ∃ o, opt (preceded (tag (txt "+")) (cut (recognize_version_components true))) rl = Ok (r, o))
    as (rl & rw & E & Hrw & Hrl & Hbang & o & Ho).
  { unfold rest. destruct local as [l|].
    - apply andb_true_iff in Hl as [Hl _]. exists (c_plus :: pt_text l ++ w ++ r), []. split; [done|].
      split; [set_solver|]. split; [done|]. split; [done|]. nom. unfold opt_fun. nom. unfold map_fun, pair_fun. nom.
      unfold tag_fun. change (txt "+") with [c_plus]. cbn [strip]. change (c_plus =? c_plus)%N with true. cbv iota.
      nom. unfold cut_fun. rewrite part_read by done. by eexists.
    - exists r, w. split; [done|]. split; [done|]. split; [done|]. split.
      { destruct r as [|c r]; [done|]. intros [= ->]. discriminate Hr. }
      exists None. nom. unfold opt_fun. nom. unfold map_fun, pair_fun. nom. unfold tag_fun. change (txt "+") with [c_plus].
      destruct r as [|c r]; [done|]. cbn [strip]. rewrite (proj2 (N.eqb_neq c_plus c)); [done|].
      intros <-. discriminate Hr. }
  assert (∃ o, opt parse_version_epoch ((match epoch with Some t => t ++ [c_bang] | None => [] end) ++ pt_text release ++ rest)
    = Ok (pt_text release ++ rest, o)) as [oe Hoe].
  { destruct epoch as [t|].
    - apply andb_true_iff in He as [He Hn]. rewrite <-(assoc_L (++)). cbn [app].
      destruct (epoch_read t (pt_text release ++ rest) He Hn Hpe) as [n ->]. by eexists.
    - exists None. cbn [app]. rewrite E, (assoc_L (++)). apply epoch_skip; [|done|].
      + rewrite forallb_app, part_run by done. by apply elem_of_cons in Hrw as [->| ->%list_elem_of_singleton].
      + destruct rl as [|c rl]; [done|]. simpl in *. destruct (is_ascii_digit c) eqn:Ed; [|done]. by rewrite digit_run in Hrl. }
  unfold recognize_version. nom. unfold recognize_fun. nom. unfold pair_fun.
  assert (∀ x y : text, (x ++ pt_text release ++ y) ++ w ++ r = x ++ pt_text release ++ y ++ w ++ r) as Hassoc
    by (intros; by rewrite !(assoc_L (++))).
  rewrite Hassoc. fold rest. rewrite Hoe. nom. unfold pair_fun. rewrite E, part_read by done. rewrite Ho.
  f_equal. f_equal. rewrite <-E. unfold rest. rewrite <-Hassoc, (assoc_L (++)). apply recognize_length.
Qed.

Lemma version_star_read a w r :
  vt_ok a = true → positional_text a → w ∈ [[]; txt ".*"] → version_end r = true →
  stops (λ c, (c =? c_dot)%N || (c =? c_star)%N) r = true →
  recognize_version_with_star (vt_text a ++ w ++ r) = Ok (r, vt_text a ++ w).
Proof.
  intros Ha Hp Hw Hr Hs. unfold recognize_version_with_star. nom. unfold alt2_fun. nom. unfold map_fun, pair_fun.
  rewrite version_read by done. nom.
  destruct r as [|c r]; [done|]. simpl in Hs. apply negb_true_iff in Hs. cbn [span]. by rewrite Hs.
Qed.

(** ** Constraints *)

(** What may stand behind a constraint *)
Definition constraint_end (r : text) : Prop := ∀ c, head r = Some c → c ∈ [c_comma; c_bar].

Lemma constraint_end_stops r : constraint_end r →
  version_end r = true ∧ stops (λ c, (c =? c_dot)%N || (c =? c_star)%N) r = true.
Proof.
  intros H. destruct r as [|c r]; [done|]. specialize (H c eq_refl).
  by apply elem_of_cons in H as [->| ->%list_elem_of_singleton].
Qed.

(** The operators as the printer writes them *)
Definition printed_operators : list (text * VersionOperators) :=
  [(txt ">", OpRange Greater); (txt ">=", OpRange GreaterEquals); (txt "<", OpRange Less);
   (txt "<=", OpRange LessEquals); (txt "~=", OpStrictRange Compatible); (txt "==", OpExact Equals);
   (txt "!=", OpExact NotEquals)].

Lemma operator_none c s : is_alnum c = true → ∃ e, parse_operator (c :: s) = Err (NErr e).
Proof.
  intros Hc. assert (c ∉ [c_eq; c_bang; c_gt; c_lt; c_tilde]) as Hn.
  { intros H. repeat (apply elem_of_cons in H as [->|H]; [done|]). by apply elem_of_nil in H. }
  unfold parse_operator, nom_value. nom. unfold alt_fun. cbn [alt_from]. nom. unfold map_fun. nom. unfold tag_fun.
  cbn [txt strip].
  repeat (match goal with |- context [(?k =? c)%N] => rewrite (proj2 (N.eqb_neq k c)) by set_solver end; nom; unfold map_fun; nom; unfold tag_fun; cbn [strip]).
  by eexists.
Qed.

Lemma operator_read op o c s : (op, o) ∈ printed_operators → is_alnum c = true →
  parse_operator (op ++ c :: s) = Ok (c :: s, o).
Proof.
  intros Hin Hc. assert ((c_eq =? c)%N = false) as He by (apply N.eqb_neq; by intros <-).
  unfold parse_operator, nom_value, printed_operators in *. nom. unfold alt_fun.
  change (txt "==") with [c_eq; c_eq] in *. change (txt "!=") with [c_bang; c_eq] in *. change (txt "=") with [c_eq].
  change (txt ">=") with [c_gt; c_eq] in *. change (txt ">") with [c_gt] in *. change (txt "<=") with [c_lt; c_eq] in *.
  change (txt "<") with [c_lt] in *. change (txt "~=") with [c_tilde; c_eq] in *.
  repeat (apply elem_of_cons in Hin as [[= -> ->]|Hin];
    [cbn -[N.eqb]; nom; unfold map_fun; nom; unfold tag_fun; cbn -[N.eqb]; rewrite ?He; reflexivity|]).
  by apply elem_of_nil in Hin.
Qed.

Definition positional_version (v : Version) : Prop :=
  ∃ a, vt_ok a = true ∧ positional_text a ∧ version_display v = Some (vt_text a).

(** The three alternatives, for a text that is no star and no regex *)
Lemma constraint_alternatives c s x : c ∉ [c_star; c_caret; c_dollar] →
  recognize (preceded (opt (delimited (opt multispace0) parse_operator (opt multispace0)))
              (cut recognize_version_with_star)) (c :: s) = Ok x →
  recognize_constraint (c :: s) = Ok x.
Proof.
  intros Hc Hx. unfold recognize_constraint. nom. unfold alt3_fun. nom. unfold map_fun, pair_fun. nom. unfold tag_fun.
  change (txt "*") with [c_star]. cbn [strip]. rewrite (proj2 (N.eqb_neq c_star c)) by set_solver.
  unfold recognize_fun at 1. nom. unfold map_fun, pair_fun. nom. unfold opt_fun. nom. unfold tag_fun.
  change (txt "^") with [c_caret]. cbn [strip]. rewrite (proj2 (N.eqb_neq c_caret c)) by set_solver.
  unfold pair_fun. nom. unfold not_fun. nom. unfold tag_fun. change (txt "$") with [c_dollar]. cbn [strip].
  rewrite (proj2 (N.eqb_neq c_dollar c)) by set_solver. nom. unfold tag_fun. cbn [strip].
  rewrite (proj2 (N.eqb_neq c_dollar c)) by set_solver. revert Hx. nom. by intros ->.
Qed.

(** An operator, or none, in front of a version *)
Lemma operator_constraint op o a w r :
  (op, o) ∈ printed_operators → vt_ok a = true → positional_text a → w ∈ [[]; txt ".*"] → constraint_end r →
  recognize_constraint (op ++ vt_text a ++ w ++ r) = Ok (r, op ++ vt_text a ++ w).
Proof.
  intros Hop Ha Hp Hw Hr. destruct (constraint_end_stops r Hr) as [Hr1 Hr2].
  destruct (vt_text_head a Ha) as (c & s & E & Hc).
  assert (∃ d s', op = d :: s' ∧ d ∉ [c_star; c_caret; c_dollar] ∧ is_multispace d = false) as (d & s' & Eop & Hd & Hds).
  { unfold printed_operators in Hop.
    repeat (apply elem_of_cons in Hop as [[= -> ->]|Hop]; [eexists _, _; split; [done|]; split; [set_solver|done]|]).
    by apply elem_of_nil in Hop. }
  assert (op ++ vt_text a ++ w ++ r = d :: s' ++ vt_text a ++ w ++ r) as Edec by by rewrite Eop.
  rewrite Edec. apply constraint_alternatives; [done|]. rewrite <-Edec.
  nom. unfold recognize_fun. nom. unfold map_fun, pair_fun. nom. unfold opt_fun at 1. nom. unfold map_fun, pair_fun.
  nom. unfold opt_fun. nom. rewrite span_stops by (rewrite Eop; simpl; by rewrite Hds). cbn [fst snd].
  unfold pair_fun. pose proof (operator_read op o c (s ++ w ++ r) Hop Hc) as Er.
  rewrite E. cbn [app]. rewrite Er. nom. unfold opt_fun. nom.
  destruct (alnum_plain c Hc) as (_ & Hcs & _). cbn [span]. rewrite Hcs. cbn [fst snd].
  unfold cut_fun. pose proof (version_star_read a w r Ha Hp Hw Hr1 Hr2) as Ev. rewrite E in Ev. cbn [app] in Ev. rewrite Ev.
  f_equal. f_equal. assert (op ++ c :: s ++ w ++ r = (op ++ c :: s ++ w) ++ r) as ->
    by (rewrite <-!(assoc_L (++)); cbn [app]; by rewrite <-!(assoc_L (++))).
  apply recognize_length.
Qed.

Lemma plain_constraint a w r :
  vt_ok a = true → positional_text a → w ∈ [[]; txt ".*"] → constraint_end r →
  recognize_constraint (vt_text a ++ w ++ r) = Ok (r, vt_text a ++ w).
Proof.
  intros Ha Hp Hw Hr. destruct (constraint_end_stops r Hr) as [Hr1 Hr2].
  pose proof (version_star_read a w r Ha Hp Hw Hr1 Hr2) as Ev.
  destruct (vt_text_head a Ha) as (c & s & E & Hc). destruct (alnum_plain c Hc) as (Hd & Hcs & _ & Hn).
  rewrite E in *. cbn [app] in *. apply constraint_alternatives; [set_solver|].
  nom. unfold recognize_fun. nom. unfold map_fun, pair_fun. nom. unfold opt_fun at 1. nom. unfold map_fun, pair_fun.
  nom. unfold opt_fun. nom. cbn [span]. rewrite Hcs. cbn [fst snd]. unfold pair_fun.
  destruct (operator_none c (s ++ w ++ r) Hc) as [e ->]. nom. unfold cut_fun. rewrite Ev.
  f_equal. f_equal. assert (c :: s ++ w ++ r = (c :: s ++ w) ++ r) as -> by (cbn [app]; by rewrite <-!(assoc_L (++))).
  apply recognize_length.
Qed.

Lemma star_constraint r : constraint_end r → recognize_constraint (txt "*" ++ r) = Ok (r, txt "*").
Proof.
  intros Hr. destruct (constraint_end_stops r Hr) as [_ Hs]. unfold recognize_constraint. nom. unfold alt3_fun. nom.
  unfold map_fun, pair_fun. nom. unfold tag_fun. rewrite strip_app. nom. unfold cut_fun. nom. unfold opt_fun. nom. unfold tag_fun.
  assert (strip (txt ".*") r = None) as ->; [|done].
  destruct r as [|c r]; [done|]. change (txt ".*") with [c_dot; c_star]. cbn [strip].
  rewrite (proj2 (N.eqb_neq c_dot c)); [done|]. by intros <-.
Qed.

(** The text of one comparison, and of the star *)
Lemma leaf_constraint s po t r :
  is_leaf s = true ∨ s = SAny → spec_canonical s → spec_versions positional_version s → spec_write po s = Some t →
  constraint_end r → recognize_constraint (t ++ r) = Ok (r, t).
Proof.
  intros Hl Hs Hv Ht Hr.
  assert (∀ op o a w, (op, o) ∈ printed_operators → vt_ok a = true → positional_text a → w ∈ [[]; txt ".*"] →
    recognize_constraint ((op ++ vt_text a ++ w) ++ r) = Ok (r, op ++ vt_text a ++ w)) as Hop.
  { intros. rewrite <-!(assoc_L (++)). by eapply operator_constraint. }
  destruct s as [| |op v|op v|op v|op g]; cbn [spec_canonical spec_versions spec_write] in *; [done| |..|by destruct Hl].
  - injection Ht as <-. by apply star_constraint.
  - destruct Hv as (a & Ha & Hp & E). rewrite E in Ht. cbn [mbind option_bind] in Ht. apply (inj Some) in Ht; subst t.
    rewrite <-(app_nil_r (vt_text a)). apply (Hop _ (OpRange op)); [|done|done|set_solver].
    unfold printed_operators. destruct op; set_solver.
  - destruct Hs as [Hn _], Hv as (a & Ha & Hp & E). rewrite E in Ht. cbn [mbind option_bind] in Ht.
    destruct op; [..|done]; apply (inj Some) in Ht; subst t.
    + rewrite <-(assoc_L (++)). apply plain_constraint; [done|done|set_solver|done].
    + apply (Hop (txt "!=") (OpExact NotEquals) a (txt ".*")); [unfold printed_operators; set_solver|done|done|set_solver].
    + rewrite <-(app_nil_r (vt_text a)). apply (Hop (txt "~=") (OpStrictRange Compatible)); [unfold printed_operators; set_solver|done|done|set_solver].
  - destruct Hv as (a & Ha & Hp & E). rewrite E in Ht. cbn [mbind option_bind] in Ht. apply (inj Some) in Ht; subst t.
    rewrite <-(app_nil_r (vt_text a)). apply (Hop _ (OpExact op)); [|done|done|set_solver].
    unfold printed_operators. destruct op; set_solver.
Qed.
End recognise.
