(* ===== verification/SpecTokens.v ===== *)
(** * The tokens of a match spec

    The first half of [rattler_conda_types/src/match_spec/parse.rs]: the errors, the
    scanners that find a comment, a semicolon and the bracket section, the escapes of
    quoted values, and the parser of the section. *)
From S2P Require Import Prelude Externs TextOps Redaction FileUrl Channels.
From S2P Require Import VersionParse VersionSpec VersionTree BuildSpec PackageName Records Matchers.

Local Notation text := (list N).

(** ** Definitions: errors and options *)

Inductive ParseMatchSpecError : Type :=
| InvalidPackagePathOrUrl
| InvalidPackageUrl
| InvalidPackagePathOrUrlVersion (e : ParseVersionError)
| InvalidBracket
| SpecParseChannelError (e : ParseChannelError)
| InvalidBracketKey (key : text)
| InvalidExtraName (name : text)
| MissingPackageName
| MultipleBracketSectionsNotAllowed
| InvalidVersionAndBuild (input : text)
| InvalidBuildString (build : text)
| InvalidVersionSpec (e : ParseConstraintError)
| InvalidStringMatcher (e : StringMatcherParseError)
| InvalidBuildNumberSpec (e : ParseBuildNumberSpecError)
| InvalidHashDigest
| InvalidPackageNameMatcher (e : PackageNameMatcherParseError)
| MultipleValueForKey (key : text)
| MoreThanOneSemicolon
| DeprecatedIfSyntax
| InvalidCondition (value : text)
| InvalidFlagMatcher (flag : text)
| OnlyExactPackageNameMatchersAllowedGlob (glob : text)
| OnlyExactPackageNameMatchersAllowedRegex (regex : text).

(** [parse_mode.rs] *)
Record ParseMatchSpecOptions := mkParseMatchSpecOptions {
  strictness : ParseStrictness;
  exact_names_only : bool;
  allow_extras : bool;
  allow_conditionals : bool;
  allow_flags : bool
}.
Record ParseStrictnessWithNameMatcher := mkParseStrictnessWithNameMatcher {
  pn_exact_names_only : bool;
  pn_parse_strictness : ParseStrictness
}.
Definition options_new (strictness : ParseStrictness) : ParseMatchSpecOptions :=
  mkParseMatchSpecOptions strictness true false false false.
Definition options_strict : ParseMatchSpecOptions := options_new Strict.
Definition options_lenient : ParseMatchSpecOptions := options_new Lenient.
Definition with_exact_names_only (self : ParseMatchSpecOptions) (enable : bool) : ParseMatchSpecOptions :=
  mkParseMatchSpecOptions (strictness self) enable (allow_extras self) (allow_conditionals self) (allow_flags self).
(** [with_extras] and [set_extras], and so for the other two *)
Definition set_extras (self : ParseMatchSpecOptions) (enable : bool) : ParseMatchSpecOptions :=
  mkParseMatchSpecOptions (strictness self) (exact_names_only self) enable (allow_conditionals self) (allow_flags self).
Definition set_conditionals (self : ParseMatchSpecOptions) (enable : bool) : ParseMatchSpecOptions :=
  mkParseMatchSpecOptions (strictness self) (exact_names_only self) (allow_extras self) enable (allow_flags self).
Definition set_flags (self : ParseMatchSpecOptions) (enable : bool) : ParseMatchSpecOptions :=
  mkParseMatchSpecOptions (strictness self) (exact_names_only self) (allow_extras self) (allow_conditionals self) enable.
Definition with_repodata_revision (self : ParseMatchSpecOptions) (revision : RepodataRevision)
  : ParseMatchSpecOptions :=
  let allow_v3_syntax := negb (uses_legacy_package_layout revision) in
  mkParseMatchSpecOptions (strictness self) (exact_names_only self) allow_v3_syntax allow_v3_syntax allow_v3_syntax.
Definition options_from_name_matcher (value : ParseStrictnessWithNameMatcher) : ParseMatchSpecOptions :=
  mkParseMatchSpecOptions (pn_parse_strictness value) (pn_exact_names_only value) false false false.

(** ** Definitions: scanners *)

(** A character the parser of bracket keys reads. *)
Definition is_key_char `{Unicode} (c : N) : bool :=
  is_alphanumeric c || (c =? c_under)%N || (c =? c_dash)%N.

Definition is_quote (c : N) : bool := (c =? c_squote)%N || (c =? c_dquote)%N.

Section scanners.
Context `{UN : Unicode}.

Definition starts_bracket_fields (input : text) : bool :=
  match strip_prefix_char c_lbracket input with
  | None => false
  | Some contents =>
      let contents := trim_start contents in
      let '(key, after_key) := span is_key_char contents in
      negb (bool_decide (key = [])) && head_is (λ c, c =? c_eq)%N (trim_start after_key)
  end.

(** The loop of [unquoted_positions].  [seen] holds the characters before the position,
    the last one first; the depth is a [u32] that counts brackets of the input. *)
Fixpoint unquoted_loop (needle : N) (limit : nat) (seen : text) (quote : option N) (field_depth : nat)
    (positions : list nat) (rest : text) : list nat :=
  match rest with
  | [] => positions
  | character :: rest' =>
      let go := unquoted_loop needle limit (character :: seen) in
      match quote with
      | Some quote_character =>
          if (character =? c_backslash)%N then
            match rest' with
            | [] => positions
            | escaped :: rest'' =>
                unquoted_loop needle limit (escaped :: character :: seen) quote field_depth positions rest''
            end
          else if (character =? quote_character)%N then go None field_depth positions rest'
          else go quote field_depth positions rest'
      | None =>
          if (character =? c_lbracket)%N && (0 <? field_depth)%nat then go None (S field_depth) positions rest'
          else if (character =? c_lbracket)%N && starts_bracket_fields rest then go None 1 positions rest'
          else if (character =? c_rbracket)%N && (0 <? field_depth)%nat
          then go None (field_depth - 1) positions rest'
          else if is_quote character && (0 <? field_depth)%nat
                  && head_is (λ c, bool_decide (c ∈ [c_eq; c_lbracket; c_comma])) (skip_while is_whitespace seen)
          then go (Some character) field_depth positions rest'
          else if (character =? needle)%N then
            let positions := positions ++ [length seen] in
            if (length positions =? limit)%nat then positions else go None field_depth positions rest'
          else go None field_depth positions rest'
      end
  end.
Definition unquoted_positions (input : text) (needle : N) (limit : nat) : list nat :=
  unquoted_loop needle limit [] None 0 [] input.

Definition strip_comment (input : text) : text * option text :=
  match head (unquoted_positions input c_hash 1) with
  | None => (input, None)
  | Some position => (take position input, Some (drop (position + 1) input))
  end.

Definition reject_deprecated_if_syntax (input : text) : result ParseMatchSpecError text :=
  let semicolons := unquoted_positions input c_semi 2 in
  match head semicolons with
  | None => Ok (trim input)
  | Some first =>
      let after := trim_start (drop (first + 1) input) in
      if match strip (txt "if") after with Some remainder => head_is is_whitespace remainder | None => false end
      then Err DeprecatedIfSyntax
      else if (1 <? length semicolons)%nat then Err MoreThanOneSemicolon
      else Ok (trim input)
  end.
End scanners.

(** [BracketVec] *)
Definition BracketVec : Type := list (text * text).

(** ** Definitions: quoted strings *)

(** The slow path: the position of the closing quote. *)
Fixpoint escaped_end (quote_char : N) (i : nat) (s : text) : option nat :=
  match s with
  | [] => None
  | c :: s' =>
      if (c =? c_backslash)%N then
        match s' with [] => None | _ :: s'' => escaped_end quote_char (S (S i)) s'' end
      else if (c =? quote_char)%N then Some i
      else escaped_end quote_char (S i) s'
  end.

Definition escape_char (c : N) : text :=
  if (c =? c_dquote)%N then [c_backslash; c_dquote]
  else if (c =? c_backslash)%N then [c_backslash; c_backslash]
  else [c].
Definition escape_bracket_value (s : text) : text :=
  if negb (bool_decide (c_dquote ∈ s)) && negb (bool_decide (c_backslash ∈ s)) then s
  else s ≫= escape_char.

Definition is_escapable (c : N) : bool := bool_decide (c ∈ [c_dquote; c_squote; c_backslash]).
Fixpoint unescape_loop (s : text) : text :=
  match s with
  | [] => []
  | c :: s' =>
      if (c =? c_backslash)%N then
        match s' with
        | next :: s'' => if is_escapable next then next :: unescape_loop s'' else c :: unescape_loop s'
        | [] => [c]
        end
      else c :: unescape_loop s'
  end.
Definition unescape_string (input : text) : text :=
  if negb (bool_decide (c_backslash ∈ input)) then input else unescape_loop input.

(** ** Definitions: the bracket section *)
Section brackets.
Context `{NM : Nom} `{UN : Unicode}.

Definition whitespace_enclosed {O} (inner : text → IResult O NomError) (input : text) : IResult O NomError :=
  match multispace0 (E := NomError) input with
  | Err e => Err e
  | Ok (input, _) =>
      match inner input with
      | Err e => Err e
      | Ok (input, o2) =>
          match multispace0 (E := NomError) input with Ok (i, _) => Ok (i, o2) | Err e => Err e end
      end
  end.

Definition parse_quoted_string_with_escapes (quote_char : N) (input : text) : IResult text NomError :=
  match nom_char (E := NomError) quote_char input with
  | Err e => Err e
  | Ok (input, _) =>
      let end_pos := if negb (bool_decide (c_backslash ∈ input)) then position (λ c, c =? quote_char)%N input
                     else escaped_end quote_char 0 input in
      match end_pos with
      | Some pos => Ok (drop (pos + 1) input, take pos input)
      | None => Err (NErr (input, KChar))
      end
  end.

Definition parse_key : text → IResult text NomError := whitespace_enclosed (take_while is_key_char).
Definition parse_value : text → IResult text NomError :=
  whitespace_enclosed
    (alt [parse_quoted_string_with_escapes c_dquote;
          parse_quoted_string_with_escapes c_squote;
          delimited (nom_char c_lbracket) (take_until (txt "]")) (nom_char c_rbracket);
          take_till1 (λ c, bool_decide (c ∈ [c_comma; c_rbracket; c_squote; c_dquote]))]).
(** [separated_pair] *)
Definition parse_key_value : text → IResult (text * text) NomError :=
  seq2 parse_key (preceded (nom_char c_eq) parse_value).
Definition parse_key_value_list : text → IResult (list (text * text)) NomError :=
  separated_list0 (whitespace_enclosed (nom_char c_comma)) parse_key_value.
Definition parse_bracket_list (input : text) : result ParseMatchSpecError BracketVec :=
  match finish (delimited (nom_char c_lbracket) parse_key_value_list (nom_char c_rbracket) input) with
  | Ok (_, values) => Ok values
  | Err _ => Err InvalidBracket
  end.

(** The loop of [strip_brackets] over the characters from [idx] on. *)
Fixpoint brackets_loop (idx depth : nat) (open : option nat) (quote : option N) (characters : text)
  : nat * option nat * option N :=
  match characters with
  | [] => (depth, open, quote)
  | character :: characters' =>
      match quote with
      | Some quote_character =>
          if (character =? c_backslash)%N then
            match characters' with
            | [] => (depth, open, quote)
            | _ :: characters'' => brackets_loop (S (S idx)) depth open quote characters''
            end
          else if (character =? quote_character)%N then brackets_loop (S idx) depth open None characters'
          else brackets_loop (S idx) depth open quote characters'
      | None =>
          if is_quote character && (0 <? depth)%nat
          then brackets_loop (S idx) depth open (Some character) characters'
          else if (character =? c_lbracket)%N then
            brackets_loop (S idx) (S depth) (if (depth =? 0)%nat then Some idx else open) None characters'
          else if (character =? c_rbracket)%N then
            let depth := depth - 1 in
            brackets_loop (S idx) depth
              (if (depth =? 0)%nat && negb (bool_decide (characters' = [])) then None else open) None characters'
          else brackets_loop (S idx) depth open None characters'
      end
  end.

Definition strip_brackets (input : text) : result ParseMatchSpecError (text * BracketVec) :=
  if negb (last_is (λ c, c =? c_rbracket)%N input) then Ok (input, [])
  else
    match brackets_loop 0 0 None None input with
    | (0, Some open, None) =>
        match parse_bracket_list (drop open input) with
        | Ok bracket_contents => Ok (take open input, bracket_contents)
        | Err e => Err e
        end
    | _ => Err InvalidBracket
    end.

(** ** Definitions: extras and flags *)

Definition is_extra_char (c : N) : bool :=
  is_ascii_lowercase c || is_ascii_digit c || bool_decide (c ∈ [c_under; c_dash; c_dot; c_plus]).
Definition is_valid_extra_group_name (name : text) : bool :=
  forallb is_extra_char name && (1 <=? length name)%nat && (length name <=? 64)%nat.

Definition is_name_token_char (c : N) : bool :=
  is_alphanumeric c || bool_decide (c ∈ [c_under; c_dash; c_dot; c_plus]).
Definition parse_feature_name : text → IResult text NomError :=
  delimited multispace0
    (alt3 (parse_quoted_string_with_escapes c_dquote) (parse_quoted_string_with_escapes c_squote)
          (take_while1 is_name_token_char))
    multispace0.
Definition parse_features : text → IResult (list text) NomError :=
  separated_list1 (nom_char c_comma) parse_feature_name.
Definition parse_extras (input : text) : result ParseMatchSpecError (list text) :=
  match finish (all_consuming parse_features input) with
  | Err _ => Err InvalidBracket
  | Ok (_, features) =>
      match filter (λ name, is_valid_extra_group_name name = false) features with
      | name :: _ => Err (InvalidExtraName name)
      | [] => Ok features
      end
  end.

(** [strip_prefix] and [strip_suffix] of a quote *)
Definition strip_quotes (quote : N) (raw : text) : option text :=
  value ← strip_prefix_char quote raw; Archive.strip_suffix value [quote].

Context `{GL : Glob} `{FR : FancyRegex}.

(** The closure of [parse_flags] *)
Definition parse_flag (raw : text) : result ParseMatchSpecError StringMatcher :=
  let raw := trim raw in
  if bool_decide (raw = []) then Err (InvalidFlagMatcher raw)
  else
    let flag := match strip_quotes c_dquote raw with
                | Some value => unescape_string value
                | None => match strip_quotes c_squote raw with
                          | Some value => unescape_string value
                          | None => raw
                          end
                end in
    if negb (is_valid_matchspec_flag flag) then Err (InvalidFlagMatcher flag)
    else map_err InvalidStringMatcher (string_matcher_from_str flag).
Definition parse_flags (input : text) : result ParseMatchSpecError (list StringMatcher) :=
  try_collect (parse_flag <$> split_char c_comma input).
End brackets.
