(* ===== verification/SpecParse.v ===== *)
(** * Parsing match specs

    The second half of [rattler_conda_types/src/match_spec/parse.rs], and
    [match_spec/condition.rs]: the fields of the bracket section, the channel, the name,
    the version and the build in front of it, and the conditions of a [when] field.

    The parser of a spec and that of a condition call each other, once: the leaves of a
    condition are parsed with conditions switched off.  So the parser is given by the
    parser of conditions, and the leaves are parsed with one that always fails. *)
From S2P Require Import Prelude Externs TextOps Redaction FileUrl Channels Utf.
From S2P Require Import VersionParse VersionSpec VersionTree BuildSpec PackageName Subdir Archive Records.
From S2P Require Import Matchers MatchSpecs SpecTokens.

Local Notation text := (list N).

(** ** The hex crate *)

(** [hex::encode] and [hex::decode_to_slice] into a slice of the given length *)
Class Hex := {
  hex_encode : list N → text;
  hex_decode_to_slice : nat → text → option (list N);
  hex_decode_encode bytes :
    Forall (λ b, (b < 256)%N) bytes → hex_decode_to_slice (length bytes) (hex_encode bytes) = Some bytes
}.

(** ** Definitions: the fields of a spec *)

(** [format.rs]: every field but the name *)
Inductive Field : Type :=
| FVersion | FBuild | FBuildNumber | FFileName | FExtras | FFlags | FChannel | FSubdir
| FNamespace | FMd5 | FSha256 | FUrl | FLicense | FLicenseFamily | FWhen | FTrackFeatures.
#[export] Instance field_eq_dec : EqDecision Field.
Proof. solve_decision. Defined.

(** The keys of the fields, as the parser and the printer spell them *)
Definition field_key (f : Field) : text :=
  match f with
  | FVersion => txt "version"
  | FBuild => txt "build"
  | FBuildNumber => txt "build_number"
  | FFileName => txt "fn"
  | FExtras => txt "extras"
  | FFlags => txt "flags"
  | FChannel => txt "channel"
  | FSubdir => txt "subdir"
  | FNamespace => txt "namespace"
  | FMd5 => txt "md5"
  | FSha256 => txt "sha256"
  | FUrl => txt "url"
  | FLicense => txt "license"
  | FLicenseFamily => txt "license_family"
  | FWhen => txt "when"
  | FTrackFeatures => txt "track_features"
  end.
Definition all_fields : list Field :=
  [FVersion; FBuild; FBuildNumber; FFileName; FExtras; FFlags; FChannel; FSubdir;
   FNamespace; FMd5; FSha256; FUrl; FLicense; FLicenseFamily; FWhen; FTrackFeatures].
(** The arms of the [match] on a key *)
Definition field_of_key (key : text) : option Field :=
  head (filter (λ f, field_key f = key) all_fields).

(** The errors of the condition parser: a panic of a leaf travels as a failure that no
    combinator recovers from. *)
Inductive CondError : Type := CondPanicked | CondFailed (e : NomError).
#[export] Instance cond_parse_error : ParseError CondError := {|
  from_error_kind input kind := CondFailed (input, kind);
  pe_append _ _ other := other;
  pe_or _ other := other
|}.

Section parser.
Context `{GL : Glob} `{FR : FancyRegex} `{NM : Nom} `{UN : Unicode} `{HX : Hex}.
Context `{UC : UrlCrate} `{UP : !UrlPaths} `{TP : TypedPaths} `{PE : PercentEncoding} `{FU : !FileUrls}
  `{EV : ProcessEnv}.

(** *** Assignments to the fields *)
Definition set_ns_version (value : option VersionSpec) (s : NamelessMatchSpec) : NamelessMatchSpec :=
  mkNamelessMatchSpec value (ns_build s) (ns_build_number s) (ns_file_name s) (ns_extras s)
    (ns_flags s) (ns_channel s) (ns_subdir s) (ns_namespace s) (ns_md5 s)
    (ns_sha256 s) (ns_url s) (ns_license s) (ns_license_family s)
    (ns_condition s) (ns_track_features s).
Definition set_ns_build (value : option StringMatcher) (s : NamelessMatchSpec) : NamelessMatchSpec :=
  mkNamelessMatchSpec (ns_version s) value (ns_build_number s) (ns_file_name s) (ns_extras s)
    (ns_flags s) (ns_channel s) (ns_subdir s) (ns_namespace s) (ns_md5 s)
    (ns_sha256 s) (ns_url s) (ns_license s) (ns_license_family s)
    (ns_condition s) (ns_track_features s).
Definition set_ns_build_number (value : option BuildNumberSpec) (s : NamelessMatchSpec) : NamelessMatchSpec :=
  mkNamelessMatchSpec (ns_version s) (ns_build s) value (ns_file_name s) (ns_extras s)
    (ns_flags s) (ns_channel s) (ns_subdir s) (ns_namespace s) (ns_md5 s)
    (ns_sha256 s) (ns_url s) (ns_license s) (ns_license_family s)
    (ns_condition s) (ns_track_features s).
Definition set_ns_file_name (value : option text) (s : NamelessMatchSpec) : NamelessMatchSpec :=
  mkNamelessMatchSpec (ns_version s) (ns_build s) (ns_build_number s) value (ns_extras s)
    (ns_flags s) (ns_channel s) (ns_subdir s) (ns_namespace s) (ns_md5 s)
    (ns_sha256 s) (ns_url s) (ns_license s) (ns_license_family s)
    (ns_condition s) (ns_track_features s).
Definition set_ns_extras (value : option (list text)) (s : NamelessMatchSpec) : NamelessMatchSpec :=
  mkNamelessMatchSpec (ns_version s) (ns_build s) (ns_build_number s) (ns_file_name s) value
    (ns_flags s) (ns_channel s) (ns_subdir s) (ns_namespace s) (ns_md5 s)
    (ns_sha256 s) (ns_url s) (ns_license s) (ns_license_family s)
    (ns_condition s) (ns_track_features s).
Definition set_ns_flags (value : option (list StringMatcher)) (s : NamelessMatchSpec) : NamelessMatchSpec :=
  mkNamelessMatchSpec (ns_version s) (ns_build s) (ns_build_number s) (ns_file_name s)
    (ns_extras s) value (ns_channel s) (ns_subdir s) (ns_namespace s) (ns_md5 s)
    (ns_sha256 s) (ns_url s) (ns_license s) (ns_license_family s)
    (ns_condition s) (ns_track_features s).
Definition set_ns_channel (value : option Channel) (s : NamelessMatchSpec) : NamelessMatchSpec :=
  mkNamelessMatchSpec (ns_version s) (ns_build s) (ns_build_number s) (ns_file_name s)
    (ns_extras s) (ns_flags s) value (ns_subdir s) (ns_namespace s) (ns_md5 s)
    (ns_sha256 s) (ns_url s) (ns_license s) (ns_license_family s)
    (ns_condition s) (ns_track_features s).
Definition set_ns_subdir (value : option text) (s : NamelessMatchSpec) : NamelessMatchSpec :=
  mkNamelessMatchSpec (ns_version s) (ns_build s) (ns_build_number s) (ns_file_name s)
    (ns_extras s) (ns_flags s) (ns_channel s) value (ns_namespace s) (ns_md5 s)
    (ns_sha256 s) (ns_url s) (ns_license s) (ns_license_family s)
    (ns_condition s) (ns_track_features s).
Definition set_ns_namespace (value : option text) (s : NamelessMatchSpec) : NamelessMatchSpec :=
  mkNamelessMatchSpec (ns_version s) (ns_build s) (ns_build_number s) (ns_file_name s)
    (ns_extras s) (ns_flags s) (ns_channel s) (ns_subdir s) value (ns_md5 s)
    (ns_sha256 s) (ns_url s) (ns_license s) (ns_license_family s)
    (ns_condition s) (ns_track_features s).
Definition set_ns_md5 (value : option text) (s : NamelessMatchSpec) : NamelessMatchSpec :=
  mkNamelessMatchSpec (ns_version s) (ns_build s) (ns_build_number s) (ns_file_name s)
    (ns_extras s) (ns_flags s) (ns_channel s) (ns_subdir s) (ns_namespace s)
    value (ns_sha256 s) (ns_url s) (ns_license s) (ns_license_family s)
    (ns_condition s) (ns_track_features s).
Definition set_ns_sha256 (value : option text) (s : NamelessMatchSpec) : NamelessMatchSpec :=
  mkNamelessMatchSpec (ns_version s) (ns_build s) (ns_build_number s) (ns_file_name s)
    (ns_extras s) (ns_flags s) (ns_channel s) (ns_subdir s) (ns_namespace s)
    (ns_md5 s) value (ns_url s) (ns_license s) (ns_license_family s)
    (ns_condition s) (ns_track_features s).
Definition set_ns_url (value : option text) (s : NamelessMatchSpec) : NamelessMatchSpec :=
  mkNamelessMatchSpec (ns_version s) (ns_build s) (ns_build_number s) (ns_file_name s)
    (ns_extras s) (ns_flags s) (ns_channel s) (ns_subdir s) (ns_namespace s)
    (ns_md5 s) (ns_sha256 s) value (ns_license s) (ns_license_family s)
    (ns_condition s) (ns_track_features s).
Definition set_ns_license (value : option text) (s : NamelessMatchSpec) : NamelessMatchSpec :=
  mkNamelessMatchSpec (ns_version s) (ns_build s) (ns_build_number s) (ns_file_name s)
    (ns_extras s) (ns_flags s) (ns_channel s) (ns_subdir s) (ns_namespace s)
    (ns_md5 s) (ns_sha256 s) (ns_url s) value (ns_license_family s)
    (ns_condition s) (ns_track_features s).
Definition set_ns_license_family (value : option text) (s : NamelessMatchSpec) : NamelessMatchSpec :=
  mkNamelessMatchSpec (ns_version s) (ns_build s) (ns_build_number s) (ns_file_name s)
    (ns_extras s) (ns_flags s) (ns_channel s) (ns_subdir s) (ns_namespace s)
    (ns_md5 s) (ns_sha256 s) (ns_url s) (ns_license s) value (ns_condition s)
    (ns_track_features s).
Definition set_ns_condition (value : option (MatchSpecCondition MatchSpec)) (s : NamelessMatchSpec) : NamelessMatchSpec :=
  mkNamelessMatchSpec (ns_version s) (ns_build s) (ns_build_number s) (ns_file_name s)
    (ns_extras s) (ns_flags s) (ns_channel s) (ns_subdir s) (ns_namespace s)
    (ns_md5 s) (ns_sha256 s) (ns_url s) (ns_license s) (ns_license_family s)
    value (ns_track_features s).
Definition set_ns_track_features (value : option (list text)) (s : NamelessMatchSpec) : NamelessMatchSpec :=
  mkNamelessMatchSpec (ns_version s) (ns_build s) (ns_build_number s) (ns_file_name s)
    (ns_extras s) (ns_flags s) (ns_channel s) (ns_subdir s) (ns_namespace s)
    (ns_md5 s) (ns_sha256 s) (ns_url s) (ns_license s) (ns_license_family s)
    (ns_condition s) value.
(** *** Values of bracket fields *)

(** [parse_digest_from_hex] *)
Definition parse_digest_from_hex (size : nat) (str : text) : option (list N) := hex_decode_to_slice size str.
Definition sha256_size : nat := 32.
Definition md5_size : nat := 16.

Definition parse_channel_and_subdir (input : text) : outcome ParseMatchSpecError (option Channel * option text) :=
  let input := trim input in
  if bool_decide (input = []) then Some (Ok (None, None))
  else
    match default_with_root_dir (match current_dir with NoPath => Utf8Path [] | dir => dir end) with
    | None => None
    | Some channel_config =>
        let from_str (channel : text) :=
          outcome_err SpecParseChannelError (channel_from_str channel channel_config) in
        let whole := channel ⇐ from_str input; Some (Ok (Some channel, None)) in
        match rsplit_once c_slash input with
        | Some (channel, subdir) =>
            match subdir_from_str subdir with
            | Ok _ => channel ⇐ from_str channel; Some (Ok (Some channel, Some subdir))
            | Err _ => whole
            end
        | None => whole
        end
    end.

(** The arm of the [url] key *)
Definition parse_url_value (value : text) : result ParseMatchSpecError Url :=
  if bool_decide (is_Some (parse_scheme value)) then
    match url_parse value with Some url => Ok url | None => Err InvalidPackageUrl end
  else if is_absolute_path value then map_err (λ _, InvalidPackagePathOrUrl) (file_path_to_url value)
  else Err InvalidPackagePathOrUrl.

(** The arm of the [track_features] key *)
Definition parse_track_features (value : text) : list text :=
  filter (λ s, s ≠ []) (trim <$> split_by (λ c, (c =? c_comma)%N || (c =? c_space)%N) value).

(** The duplicate check of the strict mode *)
Fixpoint duplicate_key (seen : list text) (bracket : BracketVec) : option text :=
  match bracket with
  | [] => None
  | (key, _) :: bracket' =>
      if bool_decide (key ∈ seen) then Some key else duplicate_key (seen ++ [key]) bracket'
  end.

(** *** The rest of the spec *)

Definition parse_url_like (input : text) : result ParseMatchSpecError (option Url) :=
  if str_contains input (txt "::") then Ok None
  else if bool_decide (is_Some (parse_scheme input)) then
    match url_parse input with Some url => Ok (Some url) | None => Err InvalidPackageUrl end
  else if is_absolute_path input then
    match file_path_to_url input with Ok url => Ok (Some url) | Err _ => Err InvalidPackagePathOrUrl end
  else Ok None.

(** [is_start_of_version_constraint] *)
Definition is_start_of_version_constraint (c : N) : bool :=
  bool_decide (c ∈ [c_gt; c_lt; c_eq; c_bang; c_tilde]).
Definition is_name_end (c : N) : bool := is_whitespace c || is_start_of_version_constraint c.

(** The first dollar sign that ends the text or is followed by white space or a constraint *)
Fixpoint regex_name_end (index : nat) (s : text) : option nat :=
  match s with
  | [] => None
  | c :: s' =>
      if (c =? c_dollar)%N && match s' with [] => true | next :: _ => is_name_end next end then Some index
      else regex_name_end (S index) s'
  end.

Definition strip_plain_name (trimmed : text) (exact_names_only : bool)
  : result ParseMatchSpecError (PackageNameMatcher * text) :=
  match finish (take_while1 (E := NomError) (λ c, negb (is_whitespace c) && negb (is_start_of_version_constraint c))
                  trimmed) with
  | Err _ => Err MissingPackageName
  | Ok (rest, package_name) =>
      let trimmed_package_name := trim package_name in
      if bool_decide (trimmed_package_name = []) then Err MissingPackageName
      else
        match name_matcher_from_str trimmed_package_name with
        | Err e => Err (InvalidPackageNameMatcher e)
        | Ok (NExact name) => Ok (NExact name, trim rest)
        | Ok (NGlob glob) =>
            if exact_names_only then Err (OnlyExactPackageNameMatchersAllowedGlob (pattern_as_str glob))
            else Ok (NGlob glob, trim rest)
        | Ok (NRegex regex) =>
            if exact_names_only then Err (OnlyExactPackageNameMatchersAllowedRegex (regex_as_str regex))
            else Ok (NRegex regex, trim rest)
        end
  end.

Definition strip_package_name (input : text) (exact_names_only : bool)
  : result ParseMatchSpecError (PackageNameMatcher * text) :=
  let trimmed := trim input in
  match (if head_is (λ c, c =? c_caret)%N trimmed then regex_name_end 0 trimmed else None) with
  | Some last =>
      match name_matcher_from_str (take (last + 1) trimmed) with
      | Err e => Err (InvalidPackageNameMatcher e)
      | Ok (NRegex regex) =>
          if exact_names_only then Err (OnlyExactPackageNameMatchersAllowedRegex (regex_as_str regex))
          else Ok (NRegex regex, trim (drop (last + 1) trimmed))
      | Ok _ => strip_plain_name trimmed exact_names_only
      end
  | None => strip_plain_name trimmed exact_names_only
  end.

(** *** Version and build *)

(** [=*], [=1.2.3] or [=1*] *)
Definition parse_special_equality : text → IResult text NomError :=
  recognize (preceded (tag (txt "="))
    (alt2 (terminated (recognize_version true) (opt (terminated (opt (tag (txt "."))) (tag (txt "*")))))
          (tag (txt "*")))).
Definition maybe_recognize_lenient_constraint (strictness : ParseStrictness) : text → IResult text NomError :=
  match strictness with
  | Lenient => alt2 parse_special_equality recognize_constraint
  | Strict => recognize_constraint
  end.
Definition recognize_group (constraint : text → IResult text NomError) : text → IResult text NomError :=
  recognize (separated_list1 (whitespace_enclosed (one_of [c_comma; c_bar])) constraint).
(** The recursion through parentheses; every level consumes one. *)
Fixpoint parse_version_constraint_or_group (fuel : nat) (strictness : ParseStrictness)
  : text → IResult text NomError :=
  match fuel with
  | 0 => λ input, Err (NFail (input, KTag))
  | S f =>
      alt2 (delimited (tag (txt "(")) (recognize_group (parse_version_constraint_or_group f strictness))
                      (tag (txt ")")))
           (maybe_recognize_lenient_constraint strictness)
  end.
Definition parse_version_group (strictness : ParseStrictness) (input : text) : IResult text NomError :=
  recognize_group (parse_version_constraint_or_group (S (length input)) strictness) input.
Definition parse_version_and_build_separator (strictness : ParseStrictness) : text → IResult text NomError :=
  match strictness with
  | Lenient => terminated (parse_version_group strictness) (opt (one_of [c_space; c_eq]))
  | Strict => terminated (parse_version_group strictness) space0
  end.

Definition split_version_and_build (input : text) (strictness : ParseStrictness)
  : result ParseMatchSpecError (text * option text) :=
  match finish (parse_version_and_build_separator strictness input) with
  | Err _ => Err (InvalidVersionAndBuild input)
  | Ok (rest, version) =>
      let build_string := trim rest in
      if bool_decide (strictness = Strict)
         && existsb (λ c, negb (is_alphanumeric c) && negb (c =? c_under)%N && negb (c =? c_star)%N) build_string
      then Err (InvalidBuildString build_string)
      else Ok (trim version, if bool_decide (build_string = []) then None else Some build_string)
  end.

Definition optionally_strip_equals (version_str : text) (build_str : option text) (strictness : ParseStrictness)
  : text :=
  match strip_prefix_char c_eq version_str with
  | None => version_str
  | Some version_without_equals =>
      if negb (bool_decide (strictness = Lenient)) then version_str
      else
        match strip_prefix_char c_eq version_without_equals, build_str with
        | Some version_without_equals_equals, None => version_without_equals_equals
        | _, _ =>
            if contains_any [c_eq; c_comma; c_bar] version_without_equals then version_str
            else if bool_decide (build_str = None) && negb (last_is (λ c, c =? c_star)%N version_without_equals)
            then version_without_equals ++ [c_star]
            else version_without_equals
        end
  end.

Definition parse_version_and_build (input : text) (strictness : ParseStrictness)
  : outcome ParseMatchSpecError (option VersionSpec * option StringMatcher) :=
  if bool_decide (c_lbracket ∈ input) then Some (Err MultipleBracketSectionsNotAllowed)
  else
    '(version_str, build_str) ⇐ Some (split_version_and_build input strictness);
    let version_str := if existsb is_whitespace version_str then filter (λ c, is_whitespace c = false) version_str
                       else version_str in
    let version_str := optionally_strip_equals version_str build_str strictness in
    version ⇐ outcome_err InvalidVersionSpec (version_spec_from_str version_str strictness);
    match build_str with
    | Some build_str =>
        build ⇐ Some (map_err InvalidStringMatcher (string_matcher_from_str build_str));
        Some (Ok (Some version, Some build))
    | None => Some (Ok (Some version, None))
    end.

(** [Option::or] *)
Definition option_or {A} (a b : option A) : option A := match a with Some _ => a | None => b end.

(** The three parts of [rsplitn(3, ':')]: what follows the last colon, the namespace before
    it and the channel. *)
Definition split_colons (input : text) : text * option text * option text :=
  let parts := rsplitn 3 c_colon input in
  (default [] (parts !! 0), parts !! 1, parts !! 2).

(** The namespace and the channel in front of a name. *)
Definition with_channel_prefix (namespace channel_str : option text) (match_spec : NamelessMatchSpec)
  : outcome ParseMatchSpecError NamelessMatchSpec :=
  let match_spec := set_ns_namespace
    (option_or (namespace ← namespace; non_empty (trim namespace)) (ns_namespace match_spec)) match_spec in
  match channel_str with
  | None => Some (Ok match_spec)
  | Some channel_str =>
      '(channel, subdir) ⇐ parse_channel_and_subdir channel_str;
      let match_spec := set_ns_channel (option_or (ns_channel match_spec) channel) match_spec in
      Some (Ok (set_ns_subdir (option_or (ns_subdir match_spec) subdir) match_spec))
  end.

(** The version and the build after a name. *)
Definition with_version_and_build (input : text) (strictness : ParseStrictness) (match_spec : NamelessMatchSpec)
  : outcome ParseMatchSpecError NamelessMatchSpec :=
  if bool_decide (input = []) then Some (Ok match_spec)
  else
    '(version, build) ⇐ parse_version_and_build input strictness;
    if bool_decide (strictness = Strict) && bool_decide (is_Some (ns_version match_spec))
       && bool_decide (is_Some version) then Some (Err (MultipleValueForKey (txt "version")))
    else if bool_decide (strictness = Strict) && bool_decide (is_Some (ns_build match_spec))
            && bool_decide (is_Some build) then Some (Err (MultipleValueForKey (txt "build")))
    else
      let match_spec := set_ns_version (option_or (ns_version match_spec) version) match_spec in
      Some (Ok (set_ns_build (option_or (ns_build match_spec) build) match_spec)).

(** [CondaArchiveIdentifier::try_from_url] *)
Definition conda_try_from_url (url : Url) : option CondaArchiveIdentifier :=
  segments ← path_segments url; filename ← last segments; conda_try_from_filename filename.

Definition Condition : Type := MatchSpecCondition MatchSpec.

(** ** Definitions: the parsers, given that of conditions *)
Section with_conditions.
Context (parse_condition : text → ParseMatchSpecOptions → IResult Condition CondError).

(** The [when] arm *)
Definition parse_when (value : text) (options : ParseMatchSpecOptions) : outcome ParseMatchSpecError Condition :=
  match parse_condition (unescape_string value) options with
  | Err (NFail CondPanicked) | Err (NErr CondPanicked) => None
  | Err _ => Some (Err (InvalidCondition value))
  | Ok (remainder, condition) =>
      if bool_decide (trim remainder = []) then Some (Ok condition) else Some (Err (InvalidCondition value))
  end.

(** One round of the loop over the bracket fields *)
Definition parse_field (key value : text) (options : ParseMatchSpecOptions) (match_spec : NamelessMatchSpec)
  : outcome ParseMatchSpecError NamelessMatchSpec :=
  match field_of_key key with
  | Some FVersion =>
      version ⇐ outcome_err InvalidVersionSpec (version_spec_from_str value (strictness options));
      Some (Ok (set_ns_version (Some version) match_spec))
  | Some FBuild =>
      build ⇐ Some (map_err InvalidStringMatcher (string_matcher_from_str value));
      Some (Ok (set_ns_build (Some build) match_spec))
  | Some FBuildNumber =>
      build_number ⇐ outcome_err InvalidBuildNumberSpec (build_number_spec_from_str value);
      Some (Ok (set_ns_build_number (Some build_number) match_spec))
  | Some FExtras =>
      if allow_extras options then
        extras ⇐ Some (parse_extras value); Some (Ok (set_ns_extras (Some extras) match_spec))
      else Some (Err (InvalidBracketKey (txt "extras")))
  | Some FFlags =>
      if allow_flags options then
        flags ⇐ Some (parse_flags value); Some (Ok (set_ns_flags (Some flags) match_spec))
      else Some (Err (InvalidBracketKey (txt "flags")))
  | Some FSha256 =>
      match parse_digest_from_hex sha256_size value with
      | Some digest => Some (Ok (set_ns_sha256 (Some digest) match_spec))
      | None => Some (Err InvalidHashDigest)
      end
  | Some FMd5 =>
      match parse_digest_from_hex md5_size value with
      | Some digest => Some (Ok (set_ns_md5 (Some digest) match_spec))
      | None => Some (Err InvalidHashDigest)
      end
  | Some FFileName => Some (Ok (set_ns_file_name (Some value) match_spec))
  | Some FUrl =>
      url ⇐ Some (parse_url_value value); Some (Ok (set_ns_url (Some (url_as_str url)) match_spec))
  | Some FSubdir => Some (Ok (set_ns_subdir (Some value) match_spec))
  | Some FChannel =>
      '(channel, subdir) ⇐ parse_channel_and_subdir value;
      let match_spec := set_ns_channel (option_or (ns_channel match_spec) channel) match_spec in
      Some (Ok (set_ns_subdir (option_or (ns_subdir match_spec) subdir) match_spec))
  | Some FLicense => Some (Ok (set_ns_license (Some value) match_spec))
  | Some FTrackFeatures =>
      Some (Ok (set_ns_track_features (Some (parse_track_features value)) match_spec))
  | Some FWhen =>
      if allow_conditionals options then
        condition ⇐ parse_when value options; Some (Ok (set_ns_condition (Some condition) match_spec))
      else Some (Err (InvalidBracketKey (txt "when")))
  | Some FLicenseFamily => Some (Ok (set_ns_license_family (Some value) match_spec))
  | Some FNamespace => Some (Ok (set_ns_namespace (Some value) match_spec))
  | None => Some (Err (InvalidBracketKey key))
  end.

Fixpoint parse_fields (bracket : BracketVec) (options : ParseMatchSpecOptions) (match_spec : NamelessMatchSpec)
  : outcome ParseMatchSpecError NamelessMatchSpec :=
  match bracket with
  | [] => Some (Ok match_spec)
  | (key, value) :: bracket' =>
      match_spec ⇐ parse_field key value options match_spec; parse_fields bracket' options match_spec
  end.

Definition parse_bracket_vec_into_components (bracket : BracketVec) (match_spec : NamelessMatchSpec)
    (options : ParseMatchSpecOptions) : outcome ParseMatchSpecError NamelessMatchSpec :=
  match (if bool_decide (strictness options = Strict) then duplicate_key [] bracket else None) with
  | Some key => Some (Err (MultipleValueForKey key))
  | None => parse_fields bracket options match_spec
  end.

(** [NamelessMatchSpec::from_str] *)
Definition nameless_from_str_with (input : text) (options : ParseMatchSpecOptions)
  : outcome ParseMatchSpecError NamelessMatchSpec :=
  input ⇐ Some (reject_deprecated_if_syntax (trim input));
  '(input, brackets) ⇐ Some (strip_brackets input);
  let input := trim input in
  url ⇐ Some (parse_url_like input);
  match url with
  | Some url => Some (Ok (set_ns_url (Some (url_as_str url)) nameless_default))
  | None =>
      match_spec ⇐ parse_bracket_vec_into_components brackets nameless_default options;
      let '(input, namespace, channel_str) := split_colons input in
      match_spec ⇐ with_channel_prefix namespace channel_str match_spec;
      with_version_and_build input (strictness options) match_spec
  end.

(** [matchspec_parser] *)
Definition matchspec_parser_with (input : text) (options : ParseMatchSpecOptions)
  : outcome ParseMatchSpecError MatchSpec :=
  let '(input, _) := strip_comment input in
  input ⇐ Some (reject_deprecated_if_syntax input);
  '(input, brackets) ⇐ Some (strip_brackets (trim input));
  nameless ⇐ parse_bracket_vec_into_components brackets nameless_default options;
  url ⇐ Some (if bool_decide (ns_url nameless = None) then parse_url_like input else Ok None);
  match url with
  | Some url =>
      let name :=
        archive ← conda_try_from_url url;
        match name_matcher_from_str (ai_name (cai_identifier archive)) with Ok name => Some name | Err _ => None end in
      match name with
      | Some name => Some (Ok (from_nameless (set_ns_url (Some (url_as_str url)) nameless_default) name))
      | None => Some (Err MissingPackageName)
      end
  | None =>
      let '(input, namespace, channel_str) := split_colons input in
      nameless ⇐ with_channel_prefix namespace channel_str nameless;
      '(name, input) ⇐ Some (strip_package_name input (exact_names_only options));
      nameless ⇐ with_version_and_build (trim input) (strictness options) nameless;
      Some (Ok (from_nameless nameless name))
  end.
End with_conditions.

(** ** Definitions: conditions *)

Definition is_word_delimiter (c : N) : bool := is_whitespace c || (c =? c_lparen)%N || (c =? c_rparen)%N.

(** [seen] holds the characters before the position, the last one first. *)
Definition check_word_delimiter (seen remainder word : text) : bool :=
  match strip word remainder with
  | None => false
  | Some after =>
      match seen with [] => true | c :: _ => is_word_delimiter c end
      && match after with [] => true | c :: _ => is_word_delimiter c end
  end.

(** The end of the leaf the input starts with; [None] is the escape that nothing follows. *)
Fixpoint token_end (seen : text) (bracket_depth : nat) (quote : option N) (rest : text) : option nat :=
  match rest with
  | [] => Some (length seen)
  | character :: rest' =>
      let go := token_end (character :: seen) in
      match quote with
      | Some quote_character =>
          if (character =? c_backslash)%N then
            match rest' with
            | [] => None
            | escaped :: rest'' => token_end (escaped :: character :: seen) bracket_depth quote rest''
            end
          else if (character =? quote_character)%N then go bracket_depth None rest'
          else go bracket_depth quote rest'
      | None =>
          if is_quote character && (0 <? bracket_depth)%nat then go bracket_depth (Some character) rest'
          else if (character =? c_lbracket)%N then go (S bracket_depth) None rest'
          else if (character =? c_rbracket)%N then go (bracket_depth - 1) None rest'
          else if ((character =? c_lparen)%N || (character =? c_rparen)%N) && (bracket_depth =? 0)%nat
          then Some (length seen)
          else if (bracket_depth =? 0)%nat
                  && (check_word_delimiter seen rest (txt "and") || check_word_delimiter seen rest (txt "or"))
          then Some (length seen)
          else go bracket_depth None rest'
      end
  end.

Definition matchspec_token (input : text) : IResult text CondError :=
  match token_end [] 0 None input with
  | None => Err (NErr (CondFailed (input, KEscaped)))
  | Some last =>
      let token := trim (take last input) in
      if bool_decide (token = []) then Err (NErr (CondFailed (input, KTakeUntil)))
      else Ok (drop last input, token)
  end.

Definition ws : text → IResult text CondError := multispace0.

Section with_leaves.
Context (leaf : text → ParseMatchSpecOptions → outcome ParseMatchSpecError MatchSpec)
  (options : ParseMatchSpecOptions).

Definition matchspec (input : text) : IResult Condition CondError :=
  match matchspec_token input with
  | Err e => Err e
  | Ok (remaining, matchspec_str) =>
      match leaf matchspec_str (set_conditionals options false) with
      | None => Err (NFail CondPanicked)
      | Some (Ok parsed_matchspec) => Ok (remaining, CondMatchSpec parsed_matchspec)
      | Some (Err _) => Err (NErr (CondFailed (input, KMapRes)))
      end
  end.
Definition parenthesized_condition (parse : text → IResult Condition CondError)
  : text → IResult Condition CondError :=
  delimited (seq2 (nom_char c_lparen) ws) parse (seq2 ws (nom_char c_rparen)).
Definition primary_condition (parse : text → IResult Condition CondError) : text → IResult Condition CondError :=
  alt2 (parenthesized_condition parse) matchspec.
(** [and_condition] and [or_condition]: operands with an operator between them, as a tree
    that leans to the left *)
Definition operator_chain (word : text) (operator : Condition → Condition → Condition)
    (operand : text → IResult Condition CondError) (input : text) : IResult Condition CondError :=
  match operand input with
  | Err e => Err e
  | Ok (input, first) =>
      match many0 (preceded (seq2 ws (seq2 (tag word) ws)) operand) input with
      | Err e => Err e
      | Ok (input, rest) => Ok (input, foldl operator first rest)
      end
  end.
Definition and_condition (parse : text → IResult Condition CondError) : text → IResult Condition CondError :=
  operator_chain (txt "and") CondAnd (primary_condition parse).
(** The recursion through parentheses; every level consumes one. *)
Fixpoint or_condition (fuel : nat) : text → IResult Condition CondError :=
  match fuel with
  | 0 => λ _, Err (NFail CondPanicked)
  | S f => operator_chain (txt "or") CondOr (and_condition (or_condition f))
  end.
Definition parse_condition_with (input : text) : IResult Condition CondError :=
  or_condition (S (length input)) input.
End with_leaves.

(** ** Definitions: the knot *)

(** With conditions switched off the parser of conditions is not called. *)
Definition no_conditions (input : text) (_ : ParseMatchSpecOptions) : IResult Condition CondError :=
  Err (NErr (CondFailed (input, KMapRes))).
Definition leaf_parser : text → ParseMatchSpecOptions → outcome ParseMatchSpecError MatchSpec :=
  matchspec_parser_with no_conditions.
Definition parse_condition_with_options (input : text) (options : ParseMatchSpecOptions)
  : IResult Condition CondError := parse_condition_with leaf_parser options input.

Definition matchspec_parser : text → ParseMatchSpecOptions → outcome ParseMatchSpecError MatchSpec :=
  matchspec_parser_with parse_condition_with_options.
Definition match_spec_from_str (source : text) (options : ParseMatchSpecOptions)
  : outcome ParseMatchSpecError MatchSpec := matchspec_parser source options.
Definition nameless_from_str : text → ParseMatchSpecOptions → outcome ParseMatchSpecError NamelessMatchSpec :=
  nameless_from_str_with parse_condition_with_options.
End parser.

(** ** Instances *)

Definition hex_char (n : N) : N := if (n <? 10)%N then (48 + n)%N else (87 + n)%N.
Definition hex_char_value (c : N) : option N :=
  if is_ascii_digit c then Some (c - 48)%N
  else if ((97 <=? c) && (c <=? 102))%N then Some (c - 87)%N
  else if ((65 <=? c) && (c <=? 70))%N then Some (c - 55)%N else None.
Fixpoint decode_hex (n : nat) (s : text) : option (list N) :=
  match n, s with
  | 0, [] => Some []
  | S n', h :: l :: s' =>
      h ← hex_char_value h; l ← hex_char_value l; rest ← decode_hex n' s'; Some ((16 * h + l)%N :: rest)
  | _, _ => None
  end.
#[export, refine] Instance hex_ref : Hex := {|
  hex_encode bytes := bytes ≫= λ b, [hex_char (b / 16); hex_char (b mod 16)]%N;
  hex_decode_to_slice := decode_hex
|}.
Proof.
  intros bytes Hb. induction Hb as [|b bytes Hb _ IH]; [done|]. cbn [mbind list_bind length decode_hex app].
  exhaust 256%N (λ b, bool_decide (hex_char_value (hex_char (b / 16)) = Some (b / 16)%N
    ∧ hex_char_value (hex_char (b mod 16)) = Some (b mod 16)%N ∧ (16 * (b / 16) + b mod 16)%N = b)) b H.
  apply bool_decide_eq_true in H as (H1 & H2 & H3). rewrite H1, H2. cbn [mbind option_bind].
  unfold mbind, list_bind in IH |- *. rewrite IH. by rewrite H3.
Defined.

(** An environment in which no relative URL resolves. *)
#[export] Instance url_paths_none : UrlPaths (UC := url_crate_parts) :=
  {| url_join _ _ := None; push_path_segments u _ := u |}.
#[export] Instance process_env_none : ProcessEnv := {| home_dir := NoPath; current_dir := NoPath |}.
