(* ===== verification/SpecFormat.v ===== *)
(** * Printing match specs

    [rattler_conda_types/src/match_spec/format.rs]: the one renderer behind [Display], the
    leaves of conditions and [to_canonical_string].  The [Write] it is given is the text
    it appends; writing to a string does not fail, so an error is one of the canonical
    dialect. *)
From S2P Require Import Prelude Externs TextOps Redaction FileUrl Channels.
From S2P Require Import VersionParse VersionSpec VersionTree BuildSpec PackageName Subdir Archive Records.
From S2P Require Import Matchers MatchSpecs SpecTokens SpecParse.

Local Notation text := (list N).

(** ** Definitions: dialects and fields *)

Inductive DisplayStyle : Type := LegacyStyle | Canonical.
Inductive SpecPosition : Type := TopLevel | ConditionLeaf.
Record DisplayContext := mkDisplayContext { dc_style : DisplayStyle; dc_position : SpecPosition }.
#[export] Instance display_style_eq_dec : EqDecision DisplayStyle.
Proof. solve_decision. Defined.
#[export] Instance spec_position_eq_dec : EqDecision SpecPosition.
Proof. solve_decision. Defined.

Definition LEGACY : DisplayContext := mkDisplayContext LegacyStyle TopLevel.
Definition CANONICAL : DisplayContext := mkDisplayContext Canonical TopLevel.
Definition condition_leaf (style : DisplayStyle) : DisplayContext := mkDisplayContext style ConditionLeaf.
Definition field_separator (ctx : DisplayContext) : text :=
  match dc_style ctx with LegacyStyle => txt ", " | Canonical => txt "," end.
Definition list_separator (ctx : DisplayContext) : text := field_separator ctx.

(** [mod.rs] *)
Inductive CanonicalMatchSpecError : Type :=
| NestedWhen
| UnrepresentableExtra (extra : text)
| UnrepresentableFlag (flag : text)
| UnrepresentableTrackFeature (feature : text)
| UnrepresentableName (name : text)
| UnrepresentableScalar (value : text)
| UnrepresentableBuild (build : text)
| EmptyChannelPlatforms
| UnrepresentableConditionLeaf (leaf : text).

(** What is written, or the error; [None] is a panic. *)
Definition Written : Type := outcome CanonicalMatchSpecError text.
Definition written (t : text) : Written := Some (Ok t).
Definition unrepresentable (e : CanonicalMatchSpecError) : Written := Some (Err e).
Definition of_option {A} (m : option A) : outcome CanonicalMatchSpecError A :=
  match m with Some a => Some (Ok a) | None => None end.

Definition LEGACY_BRACKET_FIELDS : list Field :=
  [FExtras; FFlags; FMd5; FSha256; FBuildNumber; FVersion; FBuild; FFileName; FUrl; FLicense;
   FLicenseFamily; FTrackFeatures; FChannel; FSubdir; FNamespace; FWhen].
Definition LEGACY_CONDITION_LEAF_FIELDS : list Field :=
  [FVersion; FBuild; FBuildNumber; FChannel; FSubdir; FNamespace; FExtras; FFlags; FMd5; FSha256;
   FFileName; FUrl; FLicense; FLicenseFamily; FTrackFeatures; FWhen].
Definition CANONICAL_BRACKET_FIELDS : list Field :=
  [FVersion; FBuild; FBuildNumber; FFileName; FExtras; FFlags; FChannel; FSubdir; FNamespace; FMd5;
   FSha256; FUrl; FLicense; FLicenseFamily; FWhen; FTrackFeatures].

Record LegacyPlacement := mkLegacyPlacement {
  lp_channel : bool; lp_subdir : bool; lp_namespace : bool; lp_version : bool; lp_build : bool
}.
Definition placement_default : LegacyPlacement := mkLegacyPlacement false false false false false.
Definition is_positional (self : LegacyPlacement) (field : Field) : bool :=
  match field with
  | FChannel => lp_channel self
  | FSubdir => lp_subdir self
  | FNamespace => lp_namespace self
  | FVersion => lp_version self
  | FBuild => lp_build self
  | _ => false
  end.

(** ** Definitions: what can be written where *)

Definition is_safe_positional_value (t : text) : bool :=
  negb (existsb is_whitespace t)
  && negb (contains_any [c_colon; c_hash; c_semi; c_lbracket; c_rbracket] t).
Definition is_safe_positional_build (t : text) : bool :=
  is_safe_positional_value t && negb (contains_any [c_comma; c_bar] t).

(** The characters counted are all at least one byte long, and the first and the last are
    ASCII. *)
Definition classifies_as_regex (t : text) : bool :=
  (2 <=? Utf.str_len t)%nat && head_is (λ c, c =? c_caret)%N t && last_is (λ c, c =? c_dollar)%N t.

(** The loop over the occurrences of [word]; [seen] holds the characters before, the last one
    first. *)
Fixpoint has_operator_word (word : text) (terminal : bool) (seen s : text) : bool :=
  match strip word s with
  | Some after =>
      let boundary_before := match seen with [] => true | c :: _ => is_whitespace c end in
      let boundary_after := match after with [] => terminal | c :: _ => is_whitespace c end in
      boundary_before && boundary_after
  | None => false
  end
  || match s with [] => false | c :: s' => has_operator_word word terminal (c :: seen) s' end.
Definition name_is_condition_safe (t : text) (terminal : bool) : bool :=
  if contains_any [c_lparen; c_rparen] t then false
  else negb (has_operator_word (txt "and") terminal [] t) && negb (has_operator_word (txt "or") terminal [] t).

Definition is_safe_positional_token (value : text) : bool :=
  negb (bool_decide (value = []))
  && forallb (λ c, negb (is_whitespace c)
       && negb (bool_decide (c ∈ [c_hash; c_semi; c_colon; c_lbracket; c_rbracket; c_dquote; c_squote;
            c_backslash; c_lparen; c_rparen; c_eq; c_lt; c_gt; c_bang; c_tilde; c_comma]))) value.

(** *** Quotes *)
Fixpoint contains_unescaped (delimiter : N) (escaped : bool) (value : text) : bool :=
  match value with
  | [] => false
  | character :: value' =>
      if escaped then contains_unescaped delimiter false value'
      else if (character =? c_backslash)%N then contains_unescaped delimiter true value'
      else if (character =? delimiter)%N then true
      else contains_unescaped delimiter false value'
  end.

Definition pick_quote_delimiter (value : text) : option N :=
  let has_odd_trailing_backslash_run :=
    Nat.odd (length (span (λ c, c =? c_backslash)%N (rev value)).1) in
  if has_odd_trailing_backslash_run then None
  else
    let delimiter_is_safe delimiter := negb (contains_unescaped delimiter false value) in
    if str_contains value [c_backslash; c_squote] && delimiter_is_safe c_dquote then Some c_dquote
    else if delimiter_is_safe c_squote && contains_any [c_backslash; c_dquote] value then Some c_squote
    else if delimiter_is_safe c_dquote then Some c_dquote
    else if delimiter_is_safe c_squote then Some c_squote
    else None.

Definition quoted (delimiter : N) (value : text) : text := [delimiter] ++ value ++ [delimiter].

Definition canonical_bracket_value (value : text) : Written :=
  match pick_quote_delimiter value with
  | Some delimiter => written (quoted delimiter value)
  | None => unrepresentable (UnrepresentableScalar value)
  end.

Definition write_list (ctx : DisplayContext) (key : text) (elements : list text) (is_valid_bare : text → bool)
  : Written :=
  let element (t : text) :=
    if is_valid_bare t then t
    else match pick_quote_delimiter t with
         | Some delimiter => quoted delimiter t
         | None => quoted c_dquote t
         end in
  written (key ++ txt "=[" ++ join (list_separator ctx) (element <$> elements) ++ txt "]").

Definition write_scalar (ctx : DisplayContext) (key value : text) : Written :=
  match dc_style ctx with
  | LegacyStyle =>
      written
        match pick_quote_delimiter value with
        | Some delimiter => key ++ txt "=" ++ quoted delimiter value
        | None => txt "unrepresentable-" ++ key ++ txt "=" ++ quoted c_dquote (escape_bracket_value value)
        end
  | Canonical => value ⇐ canonical_bracket_value value; written (key ++ txt "=" ++ value)
  end.

Section renderer.
Context `{GL : Glob} `{FR : FancyRegex} `{NM : Nom} `{UN : Unicode} `{HX : Hex}.
Context `{UC : UrlCrate} `{UP : !UrlPaths} `{TP : TypedPaths} `{PE : PercentEncoding} `{FU : !FileUrls}
  `{EV : ProcessEnv}.

Definition string_matcher_is_canonical (matcher : StringMatcher) : bool :=
  let t := string_matcher_display matcher in
  let regex := classifies_as_regex t in
  let glob := negb regex && bool_decide (c_star ∈ t) in
  match matcher with
  | Any => true
  | Exact _ => negb regex && negb glob
  | Prefix s | Suffix s => negb (bool_decide (s = [])) && is_glob_literal s && negb regex
  | SGlob _ =>
      glob && negb (bool_decide (t = [c_star]))
      && negb match Archive.strip_suffix t [c_star] with Some s => is_glob_literal s | None => false end
      && negb match strip_prefix_char c_star t with Some s => is_glob_literal s | None => false end
  | SRegex _ => regex
  end.

Definition name_matcher_is_canonical (name : PackageNameMatcher) : bool :=
  match name with
  | NExact _ => true
  | NGlob glob =>
      let t := pattern_as_str glob in
      bool_decide (c_star ∈ t) && negb (classifies_as_regex t) && is_safe_positional_value t
  | NRegex regex =>
      let t := regex_as_str regex in
      classifies_as_regex t
      && negb (contains_any [c_colon; c_hash; c_semi; c_lbracket; c_rbracket] t)
      && negb (bool_decide (c_dollar ∈ take (length t - 1) t))
  end.

Definition fmt_canonical_name (name : PackageNameMatcher) : Written :=
  if negb (name_matcher_is_canonical name) then unrepresentable (UnrepresentableName (name_matcher_display name))
  else written (name_matcher_display name).

(** *** Channels *)

(** [None] is a panic. *)
Definition channel_name_for_url (url : Url) : option (option text) :=
  config ← default_with_root_dir (Utf8Path []);
  Some
    match strip_channel_alias config url with
    | None => None
    | Some name =>
        if negb (is_safe_positional_token name) then None
        else if match rsplit_once c_slash name with
                | Some (_, last) => match subdir_from_str last with Ok _ => true | Err _ => false end
                | None => false
                end then None
        else
          match try_from_name name config with
          | Some derived => if bool_decide (ch_base_url derived = url_as_str url) then Some name else None
          | None => None
          end
    end.

Definition channel_renders_by_name (channel : Channel) : option bool :=
  base_url ← url_parse (ch_base_url channel);
  name ← channel_name_for_url base_url;
  Some (bool_decide (ch_platforms channel = None) && bool_decide (is_Some (ch_name channel))
        && bool_decide (name = ch_name channel)).

Definition with_platform_selector (value : text) (channel : Channel) : text :=
  match ch_platforms channel with
  | Some platforms => value ++ [c_lbracket] ++ join [c_comma] (subdir_as_str <$> platforms) ++ [c_rbracket]
  | None => value
  end.
Definition channel_url_value (channel : Channel) : text := with_platform_selector (ch_base_url channel) channel.

Definition has_no_platforms (channel : Channel) : bool := bool_decide (ch_platforms channel = Some []).
Definition canonical_channel_value (channel : Channel) : Written :=
  if has_no_platforms channel then unrepresentable EmptyChannelPlatforms
  else
    base_url ⇐ of_option (url_parse (ch_base_url channel));
    let stripped := strip_url_for_serialization base_url in
    name ⇐ of_option (channel_name_for_url stripped);
    written (with_platform_selector (default (url_as_str stripped) name) channel).

(** *** [SpecView] *)
Record SpecView := mkSpecView {
  sv_name : option PackageNameMatcher;
  sv_fields : NamelessMatchSpec
}.
Definition view_of_spec (spec : MatchSpec) : SpecView :=
  mkSpecView (Some (ms_name spec)) (into_nameless spec).2.
Definition view_of_nameless (spec : NamelessMatchSpec) : SpecView := mkSpecView None spec.

Definition has (self : SpecView) (field : Field) : bool :=
  let f := sv_fields self in
  match field with
  | FVersion => bool_decide (is_Some (ns_version f))
  | FBuild => bool_decide (is_Some (ns_build f))
  | FBuildNumber => bool_decide (is_Some (ns_build_number f))
  | FFileName => bool_decide (is_Some (ns_file_name f))
  | FExtras => bool_decide (is_Some (ns_extras f))
  | FFlags => bool_decide (is_Some (ns_flags f))
  | FChannel => bool_decide (is_Some (ns_channel f))
  | FSubdir => bool_decide (is_Some (ns_subdir f))
  | FNamespace => bool_decide (is_Some (ns_namespace f))
  | FMd5 => bool_decide (is_Some (ns_md5 f))
  | FSha256 => bool_decide (is_Some (ns_sha256 f))
  | FUrl => bool_decide (is_Some (ns_url f))
  | FLicense => bool_decide (is_Some (ns_license f))
  | FLicenseFamily => bool_decide (is_Some (ns_license_family f))
  | FWhen => bool_decide (is_Some (ns_condition f))
  | FTrackFeatures => bool_decide (is_Some (ns_track_features f))
  end.

(** [Option::is_some_and] with a closure that may panic *)
Definition is_some_and {A} (o : option A) (f : A → option bool) : option bool :=
  match o with Some a => f a | None => Some false end.

Definition placement (self : SpecView) (ctx : DisplayContext) : option LegacyPlacement :=
  let f := sv_fields self in
  if negb (bool_decide (dc_style ctx = LegacyStyle)) || negb (bool_decide (dc_position ctx = TopLevel))
  then Some placement_default
  else
    by_name ← (if bool_decide (is_Some (sv_name self)) then is_some_and (ns_channel f) channel_renders_by_name
               else Some false);
    version ← is_some_and (ns_version f) (λ v, t ← spec_display v; Some (is_safe_positional_value t));
    Some (mkLegacyPlacement
      by_name
      (by_name && match ns_subdir f with
                  | Some subdir => match subdir_from_str subdir with Ok _ => true | Err _ => false end
                  | None => false
                  end)
      (by_name && match ns_namespace f with Some n => is_safe_positional_token n | None => false end)
      version
      (version && match ns_build f with
                  | Some build => is_safe_positional_build (string_matcher_display build)
                  | None => false
                  end)).

(** The version and the build after the name, when they are positional; [lead] is written
    before the version. *)
Definition fmt_version (self : SpecView) (placement : LegacyPlacement) (lead : text) : option text :=
  match ns_version (sv_fields self) with
  | Some version => if lp_version placement then t ← spec_display version; Some (lead ++ t) else Some []
  | None => Some []
  end.
Definition fmt_build (self : SpecView) (placement : LegacyPlacement) : text :=
  match ns_build (sv_fields self) with
  | Some build => if lp_build placement then txt " " ++ string_matcher_display build else []
  | None => []
  end.

Definition fmt_legacy_prefix (self : SpecView) (placement : LegacyPlacement) (renders_brackets : bool)
  : option text :=
  let f := sv_fields self in
  match sv_name self with
  | None =>
      version ← (if bool_decide (ns_version f = None) && negb renders_brackets then Some [c_star]
                 else fmt_version self placement []);
      Some (version ++ fmt_build self placement)
  | Some name =>
      channel ← (if lp_channel placement then channel ← ns_channel f; channel_name channel else Some []);
      subdir ← (if lp_channel placement && lp_subdir placement then subdir ← ns_subdir f; Some (txt "/" ++ subdir)
                else Some []);
      namespace ← (if lp_namespace placement then namespace ← ns_namespace f; Some (txt ":" ++ namespace ++ txt ":")
                   else Some (if lp_channel placement then txt "::" else []));
      version ← fmt_version self placement (txt " ");
      Some (channel ++ subdir ++ namespace ++ name_matcher_display name ++ version ++ fmt_build self placement)
  end.

(** [find] or the empty string for an empty list *)
Definition invalid_element (p : text → bool) (elements : list text) : option text :=
  match filter (λ t, p t = true) elements with
  | t :: _ => Some t
  | [] => if bool_decide (elements = []) then Some [] else None
  end.

(** The [expect] of [fmt_field] that its caller has checked *)
Definition present {A} (o : option A) (k : A → Written) : Written :=
  match o with Some a => k a | None => None end.

(** [rendered] is the condition of the spec, as the style renders it. *)
Definition fmt_field (rendered : DisplayStyle → Written) (self : SpecView) (ctx : DisplayContext) (field : Field)
  : Written :=
  let f := sv_fields self in
  let key := field_key field in
  let canonical := bool_decide (dc_style ctx = Canonical) in
  match field with
  | FVersion => present (ns_version f) (λ version, t ⇐ of_option (spec_display version); write_scalar ctx key t)
  | FBuild => present (ns_build f) (λ build,
      if canonical && negb (string_matcher_is_canonical build)
      then unrepresentable (UnrepresentableBuild (string_matcher_display build))
      else write_scalar ctx key (string_matcher_display build))
  | FBuildNumber => present (ns_build_number f) (λ n, write_scalar ctx key (build_number_spec_display n))
  | FFileName => present (ns_file_name f) (write_scalar ctx key)
  | FExtras => present (ns_extras f) (λ extras,
      match (if canonical then invalid_element (λ extra, negb (is_valid_extra_group_name extra)) extras else None) with
      | Some extra => unrepresentable (UnrepresentableExtra extra)
      | None => write_list ctx key extras is_valid_extra_group_name
      end)
  | FFlags => present (ns_flags f) (λ flags,
      let invalid :=
        match filter (λ flag, negb (is_valid_matchspec_flag (string_matcher_display flag))
                              || negb (string_matcher_is_canonical flag) = true) flags with
        | flag :: _ => Some (string_matcher_display flag)
        | [] => if bool_decide (length flags = 0) then Some [] else None
        end in
      match (if canonical then invalid else None) with
      | Some flag => unrepresentable (UnrepresentableFlag flag)
      | None => write_list ctx key (string_matcher_display <$> flags) is_valid_matchspec_flag
      end)
  | FChannel => present (ns_channel f) (λ channel,
      match dc_style ctx with
      | LegacyStyle =>
          if has_no_platforms channel then
            written (txt "unrepresentable-channel=" ++ quoted c_dquote (escape_bracket_value (channel_url_value channel)))
          else
            by_name ⇐ of_option (channel_renders_by_name channel);
            if by_name : bool then name ⇐ of_option (channel_name channel); write_scalar ctx key name
            else write_scalar ctx key (channel_url_value channel)
      | Canonical =>
          value ⇐ canonical_channel_value channel;
          value ⇐ canonical_bracket_value value;
          written (key ++ txt "=" ++ value)
      end)
  | FSubdir => present (ns_subdir f) (write_scalar ctx key)
  | FNamespace => present (ns_namespace f) (write_scalar ctx key)
  | FMd5 => present (ns_md5 f) (λ md5, write_scalar ctx key (hex_encode md5))
  | FSha256 => present (ns_sha256 f) (λ sha256, write_scalar ctx key (hex_encode sha256))
  | FUrl => present (ns_url f) (λ url,
      match dc_style ctx with
      | LegacyStyle => write_scalar ctx key url
      | Canonical =>
          url ⇐ of_option (url_parse url);
          write_scalar ctx key (url_as_str (strip_url_for_serialization url))
      end)
  | FLicense => present (ns_license f) (write_scalar ctx key)
  | FLicenseFamily => present (ns_license_family f) (write_scalar ctx key)
  | FWhen => present (ns_condition f) (λ _,
      rendered ⇐ rendered (dc_style ctx);
      written (key ++ txt "=" ++ quoted c_dquote (escape_bracket_value rendered)))
  | FTrackFeatures => present (ns_track_features f) (λ track_features,
      let bad feature := bool_decide (feature = []) || contains_any [c_comma; c_space] feature in
      match (if canonical then invalid_element bad track_features else None) with
      | Some feature => unrepresentable (UnrepresentableTrackFeature feature)
      | None => write_scalar ctx key (join [c_space] track_features)
      end)
  end.

(** The compact form of a condition leaf *)
Definition is_constraint_text (t : text) : bool :=
  head_is (λ c, bool_decide (c ∈ [c_gt; c_lt; c_eq; c_bang; c_tilde])) t && is_safe_positional_value t
  && negb (contains_any [c_lparen; c_rparen] t).
Definition is_simple_condition_leaf (self : SpecView) : option bool :=
  let f := sv_fields self in
  if negb match sv_name self with Some (NExact _) => true | _ => false end then Some false
  else if existsb (has self)
            [FWhen; FBuild; FBuildNumber; FFileName; FExtras; FFlags; FChannel; FSubdir; FNamespace; FMd5;
             FSha256; FUrl; FLicense; FLicenseFamily; FTrackFeatures] then Some false
  else
    match ns_version f with
    | None => Some true
    | Some version => t ← spec_display version; Some (is_constraint_text t)
    end.

(** The loop over the bracket fields *)
Fixpoint fmt_fields (rendered : DisplayStyle → Written) (self : SpecView) (ctx : DisplayContext)
    (placement : LegacyPlacement) (first : bool) (fields : list Field) : Written :=
  match fields with
  | [] => written (if first then [] else [c_rbracket])
  | field :: fields' =>
      if negb (has self field) || is_positional placement field
      then fmt_fields rendered self ctx placement first fields'
      else
        t ⇐ fmt_field rendered self ctx field;
        rest ⇐ fmt_fields rendered self ctx placement false fields';
        written ((if first then [c_lbracket] else field_separator ctx) ++ t ++ rest)
  end.

Definition bracket_fields (ctx : DisplayContext) : list Field :=
  match dc_style ctx with
  | LegacyStyle =>
      match dc_position ctx with
      | TopLevel => LEGACY_BRACKET_FIELDS
      | ConditionLeaf => LEGACY_CONDITION_LEAF_FIELDS
      end
  | Canonical => CANONICAL_BRACKET_FIELDS
  end.

(** The name of a condition leaf *)
Definition fmt_leaf_name (self : SpecView) (style : DisplayStyle) (simple renders_brackets : bool) : Written :=
  match sv_name self with
  | None => written []
  | Some name =>
      match style with
      | Canonical =>
          let terminal := if simple then bool_decide (ns_version (sv_fields self) = None)
                          else negb renders_brackets in
          if negb (name_is_condition_safe (name_matcher_display name) terminal)
          then unrepresentable (UnrepresentableConditionLeaf (name_matcher_display name))
          else fmt_canonical_name name
      | LegacyStyle => written (name_matcher_display name)
      end
  end.

(** [SpecView::fmt] *)
Definition view_fmt (rendered : DisplayStyle → Written) (self : SpecView) (ctx : DisplayContext) : Written :=
  placement ⇐ of_option (placement self ctx);
  let fields := bracket_fields ctx in
  let renders_brackets := existsb (λ field, has self field && negb (is_positional placement field)) fields in
  match dc_position ctx with
  | TopLevel =>
      prefix ⇐ (match dc_style ctx with
                | LegacyStyle => of_option (fmt_legacy_prefix self placement renders_brackets)
                | Canonical => match sv_name self with Some name => fmt_canonical_name name | None => written [] end
                end);
      brackets ⇐ fmt_fields rendered self ctx placement true fields;
      written (prefix ++ brackets)
  | ConditionLeaf =>
      if bool_decide (dc_style ctx = Canonical) && has self FWhen then unrepresentable NestedWhen
      else
        simple ⇐ of_option (is_simple_condition_leaf self);
        prefix ⇐ fmt_leaf_name self (dc_style ctx) simple renders_brackets;
        if simple : bool then
          match ns_version (sv_fields self) with
          | Some version => t ⇐ of_option (spec_display version); written (prefix ++ t)
          | None => written prefix
          end
        else
          brackets ⇐ fmt_fields rendered self ctx placement true fields;
          written (prefix ++ brackets)
  end.

(** *** Conditions *)
Section condition_fmt.
Context (fmt_leaf : MatchSpec → Written).

Definition precedence (self : Condition) : nat :=
  match self with CondMatchSpec _ => 3 | CondAnd _ _ => 2 | CondOr _ _ => 1 end.
Definition needs_parentheses (self : Condition) (parent_precedence : nat) (is_right_child : bool) : bool :=
  (precedence self <? parent_precedence)%nat
  || is_right_child && (precedence self =? parent_precedence)%nat && (precedence self <? 3)%nat.

Fixpoint fmt_with_parent (self : Condition) (parent_precedence : nat) (is_right_child : bool) : Written :=
  body ⇐ (match self with
          | CondMatchSpec spec => fmt_leaf spec
          | CondAnd lhs rhs =>
              lhs ⇐ fmt_with_parent lhs 2 false;
              rhs ⇐ fmt_with_parent rhs 2 true;
              written (lhs ++ txt " and " ++ rhs)
          | CondOr lhs rhs =>
              lhs ⇐ fmt_with_parent lhs 1 false;
              rhs ⇐ fmt_with_parent rhs 1 true;
              written (lhs ++ txt " or " ++ rhs)
          end);
  written (if needs_parentheses self parent_precedence is_right_child then txt "(" ++ body ++ txt ")" else body).
Definition fmt_condition (self : Condition) : Written := fmt_with_parent self 0 false.
End condition_fmt.

Fixpoint spec_fmt (self : MatchSpec) (ctx : DisplayContext) {struct self} : Written :=
  let rendered (style : DisplayStyle) : Written :=
    match self with
    | mkMatchSpec _ _ _ _ _ _ _ _ _ _ _ _ _ _ _ (Some condition) _ =>
        fmt_condition (λ leaf, spec_fmt leaf (condition_leaf style)) condition
    | _ => None
    end in
  view_fmt rendered (view_of_spec self) ctx.

(** [MatchSpecCondition::fmt_with] *)
Definition condition_fmt_with (self : Condition) (style : DisplayStyle) : Written :=
  fmt_condition (λ leaf, spec_fmt leaf (condition_leaf style)) self.

(** [Display] of a spec, of a nameless spec and of a condition *)
Definition match_spec_display (self : MatchSpec) : Written := spec_fmt self LEGACY.
Definition nameless_display (self : NamelessMatchSpec) : Written :=
  view_fmt (λ style, match ns_condition self with Some c => condition_fmt_with c style | None => None end)
    (view_of_nameless self) LEGACY.
Definition condition_display (self : Condition) : Written := condition_fmt_with self LegacyStyle.

Definition to_canonical_string (spec : MatchSpec) : Written := spec_fmt spec CANONICAL.
End renderer.
