(* ===== verification/SpecScan.v ===== *)
(** * The scanners on printed match specs

    Lemmas about [SpecTokens] and the token of a condition: what the printer puts between
    quotes is read back, and the scanners pass over a printed bracket section as a whole. *)
From S2P Require Import Prelude Externs TextOps Redaction FileUrl Channels.
From S2P Require Import VersionRepr VersionParse VersionGrammar VersionSpec VersionTree BuildSpec PackageName Subdir Archive Records.
From S2P Require Import Matchers MatchSpecs SpecTokens SpecParse SpecFormat.

Local Notation text := (list N).

(** ** Induction over a text whose escapes are pairs *)
Section text_induction.
Context (P : text → Prop) (Hnil : P []) (Hlone : P [c_backslash])
  (Hescape : ∀ d s, P s → P (c_backslash :: d :: s))
  (Hchar : ∀ c s, c ≠ c_backslash → P s → P (c :: s)).
Lemma escape_induction s : P s.
Proof.
  remember (length s) as n eqn:E. assert (length s ≤ n) as Hn by lia. clear E. revert s Hn.
  induction n as [|n IH]; intros s Hn; [by destruct s; [|simpl in Hn; lia]|].
  destruct s as [|c s]; [done|]. simpl in Hn. destruct (decide (c = c_backslash)) as [->|Hc].
  - destruct s as [|d s]; [done|]. apply Hescape, IH. simpl in Hn. lia.
  - apply Hchar, IH; [done|lia].
Qed.
End text_induction.

(** A value that its quote delimits: the delimiter is escaped wherever it occurs, and no
    escape is left open. *)
Fixpoint quotable (delimiter : N) (value : text) : bool :=
  match value with
  | [] => true
  | c :: value' =>
      if (c =? c_backslash)%N then match value' with [] => false | _ :: value'' => quotable delimiter value'' end
      else negb (c =? delimiter)%N && quotable delimiter value'
  end.

Lemma quotable_escape d x s : quotable d (c_backslash :: x :: s) = quotable d s.
Proof. done. Qed.
Lemma quotable_char d c s : c ≠ c_backslash → quotable d (c :: s) = negb (c =? d)%N && quotable d s.
Proof. intros H. cbn [quotable]. by rewrite (proj2 (N.eqb_neq _ _)). Qed.

(** ** Quoted strings *)

Lemma escaped_end_quotable d s rest i :
  d ≠ c_backslash → quotable d s = true → escaped_end d i (s ++ d :: rest) = Some (i + length s).
Proof.
  intros Hd. revert i. induction s as [| |x s IH|c s Hc IH] using escape_induction; intros i.
  - intros _. cbn [app escaped_end]. rewrite (proj2 (N.eqb_neq _ _)), N.eqb_refl by done. f_equal. simpl. lia.
  - done.
  - rewrite quotable_escape. intros Hs. cbn [app escaped_end]. change (c_backslash =? c_backslash)%N with true.
    cbv iota. rewrite IH by done. f_equal. simpl. lia.
  - rewrite quotable_char by done. intros [Hcd%negb_true_iff Hs]%andb_true_iff. cbn [app escaped_end].
    rewrite (proj2 (N.eqb_neq c _)), Hcd, IH by done. f_equal. simpl. lia.
Qed.

(** Without a backslash the two paths of the quoted string parser agree. *)
Lemma escaped_end_plain d s i :
  c_backslash ∉ s → escaped_end d i s = (λ p, i + p) <$> position (λ c, c =? d)%N s.
Proof.
  revert i. induction s as [|c s IH]; intros i; [done|]. intros [Hc Hs]%not_elem_of_cons.
  cbn [escaped_end position]. rewrite (proj2 (N.eqb_neq _ _)) by done.
  destruct (c =? d)%N; [cbn; f_equal; lia|]. rewrite IH by done.
  destruct (position _ s); cbn; [f_equal; lia|done].
Qed.

Section quoted.
Context `{NM : Nom} `{UN : Unicode}.

Lemma parse_quoted_text d s rest :
  d ≠ c_backslash → quotable d s = true →
  parse_quoted_string_with_escapes d (quoted d s ++ rest) = Ok (rest, s).
Proof.
  intros Hd Hs. unfold parse_quoted_string_with_escapes, quoted. nom. cbn [app one_of_fun].
  rewrite bool_decide_true by set_solver. rewrite <-(assoc_L (++)). cbn [app].
  set (input := s ++ d :: rest).
  assert ((if negb (bool_decide (c_backslash ∈ input)) then position (λ c, c =? d)%N input
           else escaped_end d 0 input) = Some (length s)) as ->.
  { pose proof (escaped_end_quotable d s rest 0 Hd Hs) as E. fold input in E.
    case_bool_decide as Hb; cbn [negb]; [exact E|]. rewrite (escaped_end_plain d input 0 Hb) in E.
    destruct (position _ input); [exact E|done]. }
  unfold input. rewrite Nat.add_1_r, take_app_length. by rewrite drop_app_ge, Nat.sub_succ_l, Nat.sub_diag by lia.
Qed.

Lemma parse_quoted_other d c s :
  c ≠ d → parse_quoted_string_with_escapes d (c :: s) = Err (NErr (c :: s, KChar)).
Proof.
  intros Hc. unfold parse_quoted_string_with_escapes. nom. cbn [one_of_fun].
  by rewrite bool_decide_false by set_solver.
Qed.
End quoted.

(** *** The delimiter that is picked *)

(** Whether the scan of [contains_unescaped] ends inside an escape. *)
Fixpoint ends_escaped (escaped : bool) (s : text) : bool :=
  match s with
  | [] => escaped
  | c :: s' => ends_escaped (negb escaped && (c =? c_backslash)%N) s'
  end.

Lemma ends_escaped_snoc e s c : ends_escaped e (s ++ [c]) = negb (ends_escaped e s) && (c =? c_backslash)%N.
Proof. revert e. induction s as [|d s IH]; intros e; [done|]. apply IH. Qed.

Lemma ends_escaped_run s :
  ends_escaped false s = Nat.odd (length (span (λ c, c =? c_backslash)%N (rev s)).1).
Proof.
  induction s as [|c s IH] using rev_ind; [done|]. rewrite ends_escaped_snoc, rev_app_distr. cbn [rev app span].
  rewrite IH. destruct (c =? c_backslash)%N; [|by rewrite andb_false_r].
  destruct (span _ (rev s)) as [a b]. cbn [fst length]. by rewrite Nat.odd_succ, <-Nat.negb_odd, andb_true_r.
Qed.

Lemma quotable_scan d s :
  d ≠ c_backslash → contains_unescaped d false s = false → ends_escaped false s = false → quotable d s = true.
Proof.
  intros Hd. induction s as [| |x s IH|c s Hc IH] using escape_induction; [done|done|..].
  - intros H1 H2. apply IH.
    + cbn [contains_unescaped] in H1. by change (c_backslash =? c_backslash)%N with true in H1.
    + cbn [ends_escaped negb andb] in H2. change (c_backslash =? c_backslash)%N with true in H2. done.
  - rewrite quotable_char by done. cbn [contains_unescaped ends_escaped negb andb].
    rewrite (proj2 (N.eqb_neq _ _)) by done. destruct (c =? d)%N; [done|]. exact IH.
Qed.

Lemma pick_quote_delimiter_quotable s d :
  pick_quote_delimiter s = Some d → is_quote d = true ∧ quotable d s = true.
Proof.
  unfold pick_quote_delimiter. rewrite <-ends_escaped_run.
  destruct (ends_escaped false s) eqn:Ee; [done|].
  assert (∀ q, q ≠ c_backslash → is_quote q = true → negb (contains_unescaped q false s) = true →
    is_quote q = true ∧ quotable q s = true) as H.
  { intros q Hq Hiq Hn. apply negb_true_iff in Hn. split; [done|]. by apply quotable_scan. }
  destruct (str_contains s _ && _) eqn:E1; [intros [= <-]; apply andb_true_iff in E1 as [_ ?]; by apply H|].
  destruct (negb (contains_unescaped c_squote false s) && _) eqn:E2;
    [intros [= <-]; apply andb_true_iff in E2 as [? _]; by apply H|].
  destruct (negb (contains_unescaped c_dquote false s)) eqn:E3; [intros [= <-]; by apply H|].
  destruct (negb (contains_unescaped c_squote false s)) eqn:E4; [intros [= <-]; by apply H|done].
Qed.

(** The value of a delimiter is all that is refused. *)
Lemma pick_quote_delimiter_complete s d :
  is_quote d = true → quotable d s = true → is_Some (pick_quote_delimiter s).
Proof.
  intros Hd Hs. assert (d ≠ c_backslash) as Hdb by (intros ->; done).
  assert (contains_unescaped d false s = false ∧ ends_escaped false s = false) as [Hc He].
  { revert Hs. induction s as [| |x s IH|c s Hc IH] using escape_induction; [done|done|..].
    - exact IH.
    - rewrite quotable_char by done. intros [Hcd%negb_true_iff Hs]%andb_true_iff. destruct (IH Hs) as [H1 H2].
      cbn [contains_unescaped ends_escaped negb andb]. rewrite (proj2 (N.eqb_neq c c_backslash)) by done. by rewrite Hcd. }
  unfold pick_quote_delimiter. rewrite <-ends_escaped_run, He.
  assert (d = c_squote ∨ d = c_dquote) as [->| ->].
  { unfold is_quote in Hd. apply orb_true_iff in Hd as [->%N.eqb_eq| ->%N.eqb_eq]; auto. }
  all: rewrite Hc; cbn [negb andb orb]; repeat (case_match; [by eexists|]); done.
Qed.

(** *** Escapes *)

Lemma escape_cons c s : (c :: s) ≫= escape_char = escape_char c ++ (s ≫= escape_char).
Proof. done. Qed.

Lemma escape_no_backslash s : c_dquote ∉ s → c_backslash ∉ s → s ≫= escape_char = s.
Proof.
  induction s as [|c s IH]; [done|]. intros [H1 H2]%not_elem_of_cons [H3 H4]%not_elem_of_cons.
  rewrite escape_cons, IH by done. unfold escape_char. by rewrite !(proj2 (N.eqb_neq _ _)) by done.
Qed.

Lemma escape_bracket_value_eq s : escape_bracket_value s = s ≫= escape_char.
Proof.
  unfold escape_bracket_value. destruct (_ && _) eqn:E; [|done]. symmetry.
  apply andb_true_iff in E as [E1%negb_true_iff E2%negb_true_iff]. bool_hyps. by apply escape_no_backslash.
Qed.

Lemma escape_char_cases c :
  escape_char c = [c_backslash; c] ∧ is_escapable c = true ∨ escape_char c = [c] ∧ c ≠ c_dquote ∧ c ≠ c_backslash.
Proof.
  unfold escape_char. destruct (N.eqb_spec c c_dquote) as [->|]; [by left|].
  destruct (N.eqb_spec c c_backslash) as [->|]; [by left|by right].
Qed.

Lemma escape_quotable s : quotable c_dquote (escape_bracket_value s) = true.
Proof.
  rewrite escape_bracket_value_eq. induction s as [|c s IH]; [done|]. rewrite escape_cons.
  destruct (escape_char_cases c) as [[-> _]|(-> & H1 & H2)]; cbn [app].
  - by rewrite quotable_escape.
  - rewrite quotable_char by done. by rewrite (proj2 (N.eqb_neq _ _)).
Qed.

Lemma unescape_loop_no_backslash s : c_backslash ∉ s → unescape_loop s = s.
Proof.
  induction s as [|c s IH]; [done|]. intros [H1 H2]%not_elem_of_cons. cbn [unescape_loop].
  rewrite (proj2 (N.eqb_neq _ _)) by done. by rewrite IH.
Qed.

Lemma unescape_string_eq s : unescape_string s = unescape_loop s.
Proof.
  unfold unescape_string. case_bool_decide; [done|]. simpl. symmetry. by apply unescape_loop_no_backslash.
Qed.

Lemma unescape_escape s : unescape_string (escape_bracket_value s) = s.
Proof.
  rewrite unescape_string_eq, escape_bracket_value_eq. induction s as [|c s IH]; [done|]. rewrite escape_cons.
  destruct (escape_char_cases c) as [[-> He]|(-> & H1 & H2)]; cbn [app unescape_loop].
  - change (c_backslash =? c_backslash)%N with true. cbv iota. by rewrite He, IH.
  - rewrite (proj2 (N.eqb_neq _ _)) by done. by rewrite IH.
Qed.

(** ** Printed fields *)

(** What is printed after the key and the equals sign: a quoted scalar, or a list. *)
Inductive FieldValue : Type := FScalar (delimiter : N) (value : text) | FList (elements : text).
Definition value_text (v : FieldValue) : text :=
  match v with
  | FScalar delimiter value => quoted delimiter value
  | FList elements => [c_lbracket] ++ elements ++ [c_rbracket]
  end.
(** What the parser stores of it *)
Definition value_raw (v : FieldValue) : text :=
  match v with FScalar _ value => value | FList elements => elements end.
Definition field_text (f : text * FieldValue) : text := f.1 ++ [c_eq] ++ value_text f.2.
Definition section_text (fields : list (text * FieldValue)) : text :=
  [c_lbracket] ++ join [c_comma] (field_text <$> fields) ++ [c_rbracket].

Definition is_field_key_char (c : N) : bool := is_ascii_lowercase c || is_ascii_digit c || (c =? c_under)%N.
(** Characters no scanner looks at inside a section *)
Definition is_plain (c : N) : bool :=
  negb (bool_decide (c ∈ [c_squote; c_dquote; c_lbracket; c_rbracket; c_hash; c_semi])).

Definition key_ok (key : text) : Prop := key ≠ [] ∧ forallb is_field_key_char key = true.
Definition value_ok (v : FieldValue) : Prop :=
  match v with
  | FScalar delimiter value => is_quote delimiter = true ∧ quotable delimiter value = true
  | FList elements => forallb is_plain elements = true
  end.
Definition printed_ok (f : text * FieldValue) : Prop := key_ok f.1 ∧ value_ok f.2.

Lemma is_quote_cases q : is_quote q = true → q = c_squote ∨ q = c_dquote.
Proof. unfold is_quote. intros [->%N.eqb_eq| ->%N.eqb_eq]%orb_true_iff; auto. Qed.

Lemma field_key_char_ascii c : is_field_key_char c = true → (c < 128)%N.
Proof.
  unfold is_field_key_char, is_ascii_lowercase, is_ascii_digit.
  intros [[?|?]%orb_true_iff| ->%N.eqb_eq]%orb_true_iff; bool_hyps; lia.
Qed.

Lemma field_key_char_plain c :
  is_field_key_char c = true → is_plain c = true ∧ is_whitespace c = false ∧ is_multispace c = false.
Proof.
  intros H. pose proof (field_key_char_ascii c H) as Hc.
  exhaust 128%N (λ c, implb (is_field_key_char c)
    (is_plain c && negb (is_whitespace c) && negb (is_multispace c))) c E.
  rewrite H in E. simpl in E. apply andb_true_iff in E as [[? ?%negb_true_iff]%andb_true_iff ?%negb_true_iff]. done.
Qed.

Lemma plain_spec c : is_plain c = true →
  is_quote c = false ∧ c ≠ c_lbracket ∧ c ≠ c_rbracket ∧ c ≠ c_hash ∧ c ≠ c_semi.
Proof.
  unfold is_plain. intros H%negb_true_iff%bool_decide_eq_false.
  split; [|set_solver]. unfold is_quote. apply orb_false_iff. rewrite !N.eqb_neq. set_solver.
Qed.

(** ** Scanners of sections

    A scanner goes through the characters with the ones it has seen, the depth of the
    brackets and the quote it is in. *)
Class FieldScanner {R : Type} (scan : text → nat → option N → text → R) : Prop := {
  scan_plain seen depth c rest : is_plain c = true →
    scan seen (S depth) None (c :: rest) = scan (c :: seen) (S depth) None rest;
  scan_open seen depth rest :
    scan seen (S depth) None (c_lbracket :: rest) = scan (c_lbracket :: seen) (S (S depth)) None rest;
  scan_close seen depth rest :
    scan seen (S (S depth)) None (c_rbracket :: rest) = scan (c_rbracket :: seen) (S depth) None rest;
  scan_quote seen depth q rest : is_quote q = true →
    scan (c_eq :: seen) (S depth) None (q :: rest) = scan (q :: c_eq :: seen) (S depth) (Some q) rest;
  scan_escape seen depth q x rest :
    scan seen (S depth) (Some q) (c_backslash :: x :: rest) = scan (x :: c_backslash :: seen) (S depth) (Some q) rest;
  scan_char seen depth q c rest : c ≠ c_backslash → c ≠ q →
    scan seen (S depth) (Some q) (c :: rest) = scan (c :: seen) (S depth) (Some q) rest;
  scan_unquote seen depth q rest : is_quote q = true →
    scan seen (S depth) (Some q) (q :: rest) = scan (q :: seen) (S depth) None rest
}.

Section field_scanner.
Context {R : Type} (scan : text → nat → option N → text → R) `{!FieldScanner scan}.

Lemma scan_plains seen depth s rest :
  forallb is_plain s = true → scan seen (S depth) None (s ++ rest) = scan (rev s ++ seen) (S depth) None rest.
Proof.
  revert seen. induction s as [|c s IH]; intros seen; [done|]. simpl. intros [Hc Hs]%andb_true_iff.
  rewrite scan_plain by done. rewrite IH by done. by rewrite <-(assoc_L (++)).
Qed.

Lemma scan_quoted seen depth q s rest :
  is_quote q = true → quotable q s = true →
  scan seen (S depth) (Some q) (s ++ q :: rest) = scan (q :: rev s ++ seen) (S depth) None rest.
Proof.
  intros Hq. revert seen. induction s as [| |x s IH|c s Hc IH] using escape_induction; intros seen.
  - intros _. by apply scan_unquote.
  - done.
  - rewrite quotable_escape. intros Hs. cbn [app]. rewrite scan_escape, IH by done. simpl. by rewrite <-!(assoc_L (++)).
  - rewrite quotable_char by done. intros [Hcq%negb_true_iff%N.eqb_neq Hs]%andb_true_iff. cbn [app].
    rewrite scan_char, IH by done. simpl. by rewrite <-(assoc_L (++)).
Qed.

Lemma scan_field seen depth f rest :
  printed_ok f → scan seen (S depth) None (field_text f ++ rest) = scan (rev (field_text f) ++ seen) (S depth) None rest.
Proof.
  destruct f as [key v]. intros [[_ Hk] Hv]. unfold field_text. cbn [fst snd] in *.
  rewrite <-!(assoc_L (++)). rewrite scan_plains.
  2: { apply forallb_forall. intros c Hc. rewrite forallb_forall in Hk. by apply field_key_char_plain, Hk. }
  cbn [app]. rewrite scan_plain by done. rewrite rev_app_distr. cbn [rev]. rewrite <-!(assoc_L (++)). cbn [app].
  destruct v as [q value|elements]; cbn [value_text value_ok] in *.
  - destruct Hv as [Hq Hs]. unfold quoted. rewrite <-!(assoc_L (++)). cbn [app].
    rewrite scan_quote, scan_quoted by done. simpl. rewrite rev_app_distr. simpl. by rewrite <-!(assoc_L (++)).
  - rewrite <-!(assoc_L (++)). cbn [app]. rewrite scan_open, scan_plains, scan_close by done.
    simpl. rewrite rev_app_distr. simpl. by rewrite <-!(assoc_L (++)).
Qed.

Lemma scan_fields seen depth fields rest :
  Forall printed_ok fields →
  scan seen (S depth) None (join [c_comma] (field_text <$> fields) ++ rest)
  = scan (rev (join [c_comma] (field_text <$> fields)) ++ seen) (S depth) None rest.
Proof.
  intros H. revert seen. induction H as [|f fields Hf H IH]; intros seen; [done|].
  destruct fields as [|g fields]; csimpl in *; [by apply scan_field|].
  rewrite <-!(assoc_L (++)), scan_field by done. cbn [app]. rewrite scan_plain by done. rewrite IH.
  rewrite (rev_app_distr (field_text f)). cbn [rev]. by rewrite <-!(assoc_L (++)).
Qed.
End field_scanner.

Section instances.
Context `{UN : Unicode}.

(** The tests the scanners make on a quote, a plain character and a bracket *)
Lemma quote_tests q : is_quote q = true →
  (q =? c_lbracket)%N = false ∧ (q =? c_rbracket)%N = false ∧ (q =? c_backslash)%N = false.
Proof. by intros [->| ->]%is_quote_cases. Qed.

#[export] Instance unquoted_scanner needle limit positions :
  (needle = c_hash ∨ needle = c_semi) →
  FieldScanner (λ seen depth quote rest, unquoted_loop needle limit seen quote depth positions rest).
Proof.
  intros Hn. split.
  - intros seen depth c rest (Hq & H1 & H2 & H3 & H4)%plain_spec. cbn [unquoted_loop].
    rewrite Hq, !(proj2 (N.eqb_neq _ _)) by (done || by destruct Hn as [->| ->]). done.
  - done.
  - intros. cbn. done.
  - intros seen depth q rest Hq. cbn [unquoted_loop]. destruct (quote_tests q Hq) as (-> & -> & _).
    rewrite Hq. done.
  - done.
  - intros seen depth q c rest H1 H2. cbn [unquoted_loop]. by rewrite !(proj2 (N.eqb_neq _ _)).
  - intros seen depth q rest Hq. cbn [unquoted_loop]. destruct (quote_tests q Hq) as (_ & _ & ->). by rewrite N.eqb_refl.
Qed.

#[export] Instance brackets_scanner open :
  FieldScanner (λ seen depth quote rest, brackets_loop (length seen) depth (Some open) quote rest).
Proof.
  split.
  - intros seen depth c rest (Hq & H1 & H2 & H3 & H4)%plain_spec. cbn [brackets_loop].
    by rewrite Hq, !(proj2 (N.eqb_neq _ _)).
  - done.
  - done.
  - intros seen depth q rest Hq. cbn [brackets_loop]. by rewrite Hq.
  - done.
  - intros seen depth q c rest H1 H2. cbn [brackets_loop]. by rewrite !(proj2 (N.eqb_neq _ _)).
  - intros seen depth q rest Hq. cbn [brackets_loop]. destruct (quote_tests q Hq) as (_ & _ & ->). by rewrite N.eqb_refl.
Qed.

#[export] Instance token_scanner : FieldScanner (λ seen depth quote rest, token_end seen depth quote rest).
Proof.
  split.
  - intros seen depth c rest (Hq & H1 & H2 & H3 & H4)%plain_spec. cbn [token_end].
    rewrite Hq, (proj2 (N.eqb_neq c c_lbracket)), (proj2 (N.eqb_neq c c_rbracket)) by done.
    change (S depth =? 0)%nat with false. by rewrite !andb_false_r.
  - done.
  - intros. cbn. done.
  - intros seen depth q rest Hq. cbn [token_end]. by rewrite Hq.
  - done.
  - intros seen depth q c rest H1 H2. cbn [token_end]. by rewrite !(proj2 (N.eqb_neq _ _)).
  - intros seen depth q rest Hq. cbn [token_end]. destruct (quote_tests q Hq) as (_ & _ & ->). by rewrite N.eqb_refl.
Qed.
End instances.

(** ** Printed specs *)

(** The text of a spec: the name, and the section unless it is empty. *)
Definition spec_text (name : text) (fields : list (text * FieldValue)) : text :=
  name ++ match fields with [] => [] | _ => section_text fields end.

(** A character of a name that no scanner takes for something else *)
Definition is_outside (c : N) : bool := negb (bool_decide (c ∈ [c_hash; c_semi; c_lbracket; c_rbracket])).

Lemma outside_spec c : is_outside c = true → c ≠ c_hash ∧ c ≠ c_semi ∧ c ≠ c_lbracket ∧ c ≠ c_rbracket.
Proof. unfold is_outside. intros H%negb_true_iff%bool_decide_eq_false. set_solver. Qed.

Section spec_text.
Context `{UN : Unicode}.

Lemma key_char_alnum c : is_field_key_char c = true → is_key_char c = true.
Proof.
  intros H. pose proof (field_key_char_ascii c H) as Hc. unfold is_key_char, is_alphanumeric.
  rewrite (proj2 (N.ltb_lt _ _) Hc).
  exhaust 128%N (λ c, implb (is_field_key_char c) (is_alnum c || (c =? c_under)%N || (c =? c_dash)%N)) c E.
  by rewrite H in E.
Qed.

Lemma eq_not_key_char : is_key_char c_eq = false.
Proof. done. Qed.

Lemma key_span key rest :
  forallb is_field_key_char key = true → stops is_key_char rest = true → span is_key_char (key ++ rest) = (key, rest).
Proof.
  intros Hk Hr. apply span_app; [|done]. apply forallb_forall. intros c Hc.
  rewrite forallb_forall in Hk. by apply key_char_alnum, Hk.
Qed.

Lemma starts_bracket_section f fields rest :
  printed_ok f → starts_bracket_fields (section_text (f :: fields) ++ rest) = true.
Proof.
  destruct f as [key v]. intros [[Hne Hk] _]. cbn [fst] in *.
  assert (∃ s, section_text ((key, v) :: fields) ++ rest = c_lbracket :: key ++ c_eq :: s) as [s ->].
  { unfold section_text. cbn [app]. rewrite fmap_cons. unfold field_text at 1. cbn [fst snd].
    destruct (field_text <$> fields); cbn [join app]; rewrite <-!(assoc_L (++)); cbn [app]; by eexists. }
  unfold starts_bracket_fields. cbn [strip_prefix_char]. change (c_lbracket =? c_lbracket)%N with true. cbv iota.
  assert (trim_start (key ++ c_eq :: s) = key ++ c_eq :: s) as ->.
  { apply skip_while_id. destruct key as [|c key]; [done|]. simpl in *. apply andb_true_iff in Hk as [Hk _].
    by destruct (field_key_char_plain c Hk) as (_ & -> & _). }
  rewrite key_span by done. by rewrite bool_decide_false.
Qed.

Lemma unquoted_outside needle limit seen positions s rest :
  needle = c_hash ∨ needle = c_semi → forallb is_outside s = true →
  unquoted_loop needle limit seen None 0 positions (s ++ rest)
  = unquoted_loop needle limit (rev s ++ seen) None 0 positions rest.
Proof.
  intros Hn. revert seen. induction s as [|c s IH]; intros seen; [done|]. simpl forallb.
  intros [(H1 & H2 & H3 & H4)%outside_spec Hs]%andb_true_iff. cbn [app unquoted_loop].
  change (0 <? 0)%nat with false. rewrite !andb_false_r.
  rewrite (proj2 (N.eqb_neq c c_lbracket)) by done. cbn [andb].
  rewrite (proj2 (N.eqb_neq c needle)) by by destruct Hn as [->| ->]. rewrite IH by done. simpl. by rewrite <-(assoc_L (++)).
Qed.

Lemma unquoted_section needle limit seen positions f fields rest :
  needle = c_hash ∨ needle = c_semi → Forall printed_ok (f :: fields) →
  unquoted_loop needle limit seen None 0 positions (section_text (f :: fields) ++ rest)
  = unquoted_loop needle limit (rev (section_text (f :: fields)) ++ seen) None 0 positions rest.
Proof.
  intros Hn Hf. pose proof (starts_bracket_section f fields rest) as Hs. apply Forall_cons in Hf as Hf'.
  specialize (Hs (proj1 Hf')). clear Hf'. set (fs := f :: fields) in *. clearbody fs.
  unfold section_text in *. rewrite <-!(assoc_L (++)) in *. cbn [app] in *. cbn [unquoted_loop]. rewrite Hs.
  change (c_lbracket =? c_lbracket)%N with true. cbn [andb Nat.ltb Nat.leb]. cbv iota.
  pose proof (scan_fields (λ seen depth quote rest, unquoted_loop needle limit seen quote depth positions rest)
    (FieldScanner0 := unquoted_scanner needle limit positions Hn) (c_lbracket :: seen) 0 fs (c_rbracket :: rest) Hf) as E.
  cbv beta in E. rewrite E. cbn [unquoted_loop]. change (c_rbracket =? c_lbracket)%N with false. cbn [andb].
  change (c_rbracket =? c_rbracket)%N with true. cbn [andb Nat.ltb Nat.leb Nat.sub]. cbv iota.
  simpl rev. rewrite rev_app_distr. simpl. by rewrite <-!(assoc_L (++)).
Qed.

Lemma unquoted_spec_text needle limit name fields :
  needle = c_hash ∨ needle = c_semi → forallb is_outside name = true → Forall printed_ok fields →
  unquoted_positions (spec_text name fields) needle limit = [].
Proof.
  intros Hn Hname Hf. unfold unquoted_positions, spec_text. rewrite unquoted_outside by done.
  destruct fields as [|f fields]; [done|].
  rewrite <-(app_nil_r (section_text (f :: fields))). by rewrite unquoted_section.
Qed.

Lemma strip_comment_spec_text name fields :
  forallb is_outside name = true → Forall printed_ok fields →
  strip_comment (spec_text name fields) = (spec_text name fields, None).
Proof. intros. unfold strip_comment. rewrite unquoted_spec_text by auto. done. Qed.

Lemma reject_deprecated_spec_text name fields :
  forallb is_outside name = true → Forall printed_ok fields →
  reject_deprecated_if_syntax (spec_text name fields) = Ok (trim (spec_text name fields)).
Proof. intros. unfold reject_deprecated_if_syntax. rewrite unquoted_spec_text by auto. done. Qed.

(** ** The parser of the section *)
Context `{NM : Nom}.

Lemma whitespace_enclosed_tight {O} (p : text → IResult O NomError) s r o :
  stops is_multispace s = true → stops is_multispace r = true → p s = Ok (r, o) →
  whitespace_enclosed p s = Ok (r, o).
Proof.
  intros Hs Hr Hp. unfold whitespace_enclosed. nom.
  rewrite (span_stops _ s) by done. cbn [snd]. rewrite Hp. nom. by rewrite (span_stops _ r).
Qed.

Lemma parse_field_text f rest :
  printed_ok f → match rest with c :: _ => c ∈ [c_comma; c_rbracket] | [] => False end →
  parse_key_value (field_text f ++ rest) = Ok (rest, (f.1, value_raw f.2)).
Proof.
  destruct f as [key v]. intros [[Hne Hk] Hv] Hr. cbn [fst snd] in *.
  assert (stops is_multispace rest = true) as Hrest.
  { destruct rest as [|c rest]; [done|]. simpl.
    apply elem_of_cons in Hr as [->|Hr]; [done|]. by apply list_elem_of_singleton in Hr as ->. }
  assert (parse_key (key ++ c_eq :: value_text v ++ rest) = Ok (c_eq :: value_text v ++ rest, key)) as Ek.
  { unfold parse_key. apply whitespace_enclosed_tight; [|done|].
    - destruct key as [|c key]; [done|]. simpl in *. apply andb_true_iff in Hk as [Hk _].
      by destruct (field_key_char_plain c Hk) as (_ & _ & ->).
    - nom. by rewrite key_span. }
  assert (parse_value (value_text v ++ rest) = Ok (rest, value_raw v)) as Ev.
  { unfold parse_value. apply whitespace_enclosed_tight; [|done|].
    - destruct v as [q s|s]; [|done]. by destruct (is_quote_cases q (proj1 Hv)) as [->| ->].
    - nom. destruct v as [q s|s]; cbn [value_text value_raw value_ok] in *.
      + destruct Hv as [Hq Hs]. destruct (is_quote_cases q Hq) as [->| ->]; cbn [alt_fun alt_from].
        * unfold quoted at 1. cbn [app]. rewrite parse_quoted_other by done.
          cbn [alt_from]. change (c_squote :: _ ++ rest) with (quoted c_squote s ++ rest). by rewrite parse_quoted_text.
        * by rewrite parse_quoted_text.
      + cbn [alt_fun alt_from app]. rewrite !parse_quoted_other by done. nom. unfold map_fun, pair_fun. nom.
        cbn [one_of_fun]. rewrite bool_decide_true by set_solver. nom. unfold take_until_fun.
        assert (split_at (txt "]") ((s ++ [c_rbracket]) ++ rest) = Some (s, c_rbracket :: rest)) as ->.
        { clear Ek. induction s as [|c s IH]; [done|]. simpl in Hv. apply andb_true_iff in Hv as [Hc Hs].
          apply plain_spec in Hc as (_ & _ & Hc & _ & _). cbn [app split_at].
          change (txt "]") with [c_rbracket] in *. cbn [strip]. rewrite (proj2 (N.eqb_neq _ _)) by congruence.
          by rewrite IH. }
        nom. cbn [one_of_fun]. by rewrite bool_decide_true by set_solver. }
  unfold parse_key_value. nom. unfold pair_fun. unfold field_text. cbn [fst snd].
  rewrite <-!(assoc_L (++)). cbn [app]. rewrite Ek. nom. unfold map_fun, pair_fun. nom. cbn [one_of_fun].
  rewrite bool_decide_true by set_solver. by rewrite Ev.
Qed.

Lemma separator_comma rest :
  stops is_multispace rest = true →
  whitespace_enclosed (nom_char (E := NomError) c_comma) (c_comma :: rest) = Ok (rest, c_comma).
Proof.
  intros Hr. apply whitespace_enclosed_tight; [done|done|]. nom. cbn [one_of_fun]. by rewrite bool_decide_true by set_solver.
Qed.

Lemma field_text_stops f rest : printed_ok f → stops is_multispace (field_text f ++ rest) = true.
Proof.
  destruct f as [key v]. intros [[Hne Hk] _]. unfold field_text. cbn [fst snd] in *.
  destruct key as [|c key]; [done|]. simpl in *. apply andb_true_iff in Hk as [Hk _].
  by destruct (field_key_char_plain c Hk) as (_ & _ & ->).
Qed.

Definition raw_field (f : text * FieldValue) : text * text := (f.1, value_raw f.2).

(** *** Lists with commas between the elements *)
Section separated.
Context {I O : Type} (sep : text → IResult N NomError) (p : text → IResult O NomError)
  (element : I → text) (output : I → O) (tail : text) (e : NomError).

(** What may follow an element *)
Definition follows (rest : text) : Prop := rest = tail ∨ head rest = Some c_comma.

(** The parser reads an element and the separator in front of it. *)
Record reads (i : I) : Prop := {
  reads_element rest : follows rest → p (element i ++ rest) = Ok (rest, output i);
  reads_separator rest : sep (c_comma :: element i ++ rest) = Ok (element i ++ rest, c_comma)
}.

Lemma element_follows_tail items : follows (concat ((λ i, c_comma :: element i) <$> items) ++ tail).
Proof. destruct items; csimpl; [by left|by right]. Qed.

Lemma separated_loop_join items fuel acc :
  sep tail = Err (NErr e) → Forall reads items → length items < fuel →
  separated_loop fuel sep p (concat ((λ i, c_comma :: element i) <$> items) ++ tail) acc
  = Ok (tail, acc ++ (output <$> items)).
Proof.
  intros Ht H. revert fuel acc. induction H as [|i items Hi H IH]; intros fuel acc Hfuel;
    (destruct fuel as [|fuel]; [simpl in Hfuel; lia|]).
  - csimpl. by rewrite Ht, app_nil_r.
  - csimpl. cbn [app separated_loop]. rewrite <-(assoc_L (++)), (reads_separator i Hi).
    pose proof (element_follows_tail items) as Hf. set (more := concat _ ++ tail) in *.
    rewrite (reads_element i Hi) by exact Hf.
    assert (length more ≠ S (length (element i ++ more))) as Hl by (rewrite length_app; lia).
    rewrite decide_False by exact Hl. unfold more. rewrite IH by (simpl in Hfuel; lia). by rewrite <-(assoc_L (++)).
Qed.

Lemma separated_join i items :
  sep tail = Err (NErr e) → Forall reads (i :: items) →
  separated_list0_fun sep p (join [c_comma] (element <$> i :: items) ++ tail) = Ok (tail, output <$> i :: items)
  ∧ separated_list1_fun sep p (join [c_comma] (element <$> i :: items) ++ tail) = Ok (tail, output <$> i :: items).
Proof.
  intros Ht [Hi H]%Forall_cons.
  assert (join [c_comma] (element <$> i :: items) ++ tail
    = element i ++ concat ((λ i, c_comma :: element i) <$> items) ++ tail) as ->.
  { rewrite (assoc_L (++)). f_equal. clear. revert i. induction items as [|k items IH]; intros i; csimpl; [by rewrite app_nil_r|].
    specialize (IH k). csimpl in IH. cbn [app]. by rewrite IH. }
  unfold separated_list0_fun, separated_list1_fun. rewrite (reads_element i Hi) by apply element_follows_tail.
  rewrite separated_loop_join; [done|done|done|].
  rewrite length_app. clear. induction items as [|k items IH]; csimpl; [lia|]. rewrite length_app. lia.
Qed.
End separated.

Lemma parse_bracket_list_section fields :
  fields ≠ [] → Forall printed_ok fields → parse_bracket_list (section_text fields) = Ok (raw_field <$> fields).
Proof.
  intros Hne Hf. destruct fields as [|f fields]; [done|].
  unfold parse_bracket_list. nom. unfold map_fun, pair_fun. nom. unfold section_text. cbn [app one_of_fun].
  rewrite bool_decide_true by set_solver. unfold parse_key_value_list. nom.
  destruct (separated_join (whitespace_enclosed (nom_char c_comma)) parse_key_value field_text raw_field [c_rbracket]
    ([c_rbracket], KChar) f fields) as [E _].
  - unfold whitespace_enclosed. nom. cbn [span]. by nom.
  - eapply Forall_impl; [exact Hf|]. intros g Hg. split.
    + intros rest Hr. apply parse_field_text; [done|]. destruct Hr as [->|Hr]; [set_solver|].
      destruct rest; [done|]. injection Hr as ->. set_solver.
    + intros rest. by apply separator_comma, field_text_stops.
  - rewrite E. nom. cbn [one_of_fun]. by rewrite bool_decide_true by set_solver.
Qed.

Lemma brackets_outside s idx rest :
  forallb is_outside s = true → brackets_loop idx 0 None None (s ++ rest) = brackets_loop (idx + length s) 0 None None rest.
Proof.
  revert idx. induction s as [|c s IH]; intros idx; [by rewrite Nat.add_0_r|]. simpl forallb.
  intros [(H1 & H2 & H3 & H4)%outside_spec Hs]%andb_true_iff. cbn [app brackets_loop].
  change (0 <? 0)%nat with false. rewrite andb_false_r, !(proj2 (N.eqb_neq _ _)) by done.
  rewrite IH by done. f_equal. simpl. lia.
Qed.

Lemma strip_brackets_spec_text name fields :
  forallb is_outside name = true → Forall printed_ok fields →
  strip_brackets (spec_text name fields) = Ok (name, raw_field <$> fields).
Proof.
  intros Hname Hf. unfold strip_brackets, spec_text. destruct fields as [|f fields].
  { rewrite app_nil_r. assert (last_is (λ c, c =? c_rbracket)%N name = false) as ->; [|done].
    unfold last_is. destruct (rev name) as [|c s] eqn:E; [done|]. simpl.
    assert (In c name) as Hc by (apply in_rev; rewrite E; by left).
    rewrite forallb_forall in Hname. apply N.eqb_neq. by destruct (outside_spec c (Hname c Hc)) as (_ & _ & _ & ?). }
  set (fs := f :: fields) in *.
  assert (last_is (λ c, c =? c_rbracket)%N (name ++ section_text fs) = true) as ->.
  { unfold last_is, section_text. by rewrite !(assoc_L (++)), rev_app_distr. }
  cbn [negb]. rewrite brackets_outside by done.
  assert (brackets_loop (0 + length name) 0 None None (section_text fs) = (0, Some (length name), None)) as ->.
  { unfold section_text. cbn [app brackets_loop]. change (is_quote c_lbracket) with false. cbn [andb].
    change (c_lbracket =? c_lbracket)%N with true. cbn [Nat.eqb]. cbv iota.
    pose proof (scan_fields (λ seen depth quote rest, brackets_loop (length seen) depth (Some (length name)) quote rest)
      (c_lbracket :: rev name) 0 fs [c_rbracket] Hf) as E.
    cbv beta in E. simpl length in E at 1. rewrite length_rev in E. rewrite Nat.add_0_l, E.
    cbn [brackets_loop]. change (is_quote c_rbracket) with false. cbn [andb].
    change (c_rbracket =? c_lbracket)%N with false. change (c_rbracket =? c_rbracket)%N with true. done. }
  rewrite drop_app_length, take_app_length. by rewrite parse_bracket_list_section.
Qed.
End spec_text.
