(* ===== verification/ChannelText.v ===== *)
(** * Channels and URLs in the canonical form of a match spec

    What [canonical_channel_value] writes for a channel, and [strip_url_for_serialization]
    for a URL, is parsed by [parse_channel_and_subdir] and [parse_url_value] to the channel
    and the URL it was written for: by name when the name leads back to the URL, else by
    the URL, with the selected platforms in brackets behind.  [channel_wf] and [url_wf] say
    for which channels and URLs. *)
From S2P Require Import Prelude Externs TextOps Utf Redaction FileUrl Channels.
From S2P Require Import VersionRepr VersionParse VersionGrammar VersionSpec VersionTree BuildSpec PackageName Subdir Archive Records.
From S2P Require Import Matchers MatchSpecs SpecTokens SpecParse SpecFormat.

Local Notation text := (list N).

Lemma try_collect_ok {E A B} (f : A → result E B) (g : B → A) (l : list B) :
  Forall (λ b, f (g b) = Ok b) l → try_collect (f <$> (g <$> l)) = Ok l.
Proof. induction 1 as [|b l Hb H IH]; [done|]. csimpl. by rewrite Hb, IH. Qed.

(** ** Platforms *)

Definition selector (platforms : list Subdir) : text := join [c_comma] (subdir_as_str <$> platforms).

(** What the name of a platform is made of *)
Lemma subdir_chars d : forallb (λ c, negb (is_whitespace c) && bool_decide (c ∉ [c_comma; c_lbracket; c_rbracket; c_slash]))
  (subdir_as_str d) = true.
Proof. by destruct d; vm_compute. Qed.
Lemma subdir_char d c : c ∈ subdir_as_str d → is_whitespace c = false ∧ c ∉ [c_comma; c_lbracket; c_rbracket; c_slash].
Proof.
  pose proof (subdir_chars d) as H. rewrite forallb_forall in H. intros Hc%list_elem_of_In%H.
  apply andb_true_iff in Hc as [?%negb_true_iff ?%bool_decide_eq_true]. done.
Qed.

Lemma elem_of_join_comma (l : list text) c : c ∈ join [c_comma] l → c = c_comma ∨ ∃ s, s ∈ l ∧ c ∈ s.
Proof.
  induction l as [|s l IH]; [by intros ?%elem_of_nil|]. destruct l as [|s' l].
  - intros Hc. right. exists s. cbn [join] in Hc. split; [by left|done].
  - change (join [c_comma] (s :: s' :: l)) with (s ++ [c_comma] ++ join [c_comma] (s' :: l)).
    rewrite !elem_of_app, list_elem_of_singleton. intros [Hc|[->|Hc]]; [right; exists s; split; [by left|done]|by left|].
    destruct (IH Hc) as [->|(x & Hx & Hcx)]; [by left|]. right. exists x. split; [by right|done].
Qed.
Lemma selector_char platforms c : c ∈ selector platforms →
  is_whitespace c = false ∧ c ∉ [c_lbracket; c_rbracket; c_slash].
Proof.
  intros [->|(s & Hs & Hc)]%elem_of_join_comma; [by split; [|apply (bool_decide_unpack _)]|].
  apply list_elem_of_fmap in Hs as (d & -> & _). apply subdir_char in Hc as [? Hc]. set_solver.
Qed.

(** The platforms are collected from what is between the brackets. *)
Lemma parse_platforms_selector location platforms :
  platforms ≠ [] →
  parse_platforms (location ++ [c_lbracket] ++ selector platforms ++ [c_rbracket]) = Ok (Some platforms, location).
Proof.
  intros Hne. unfold parse_platforms.
  rewrite (proj2 (strip_suffix_Some _ _ (location ++ [c_lbracket] ++ selector platforms))) by by rewrite <-!(assoc_L (++)).
  change (location ++ [c_lbracket] ++ selector platforms) with (location ++ c_lbracket :: selector platforms).
  rewrite rsplit_once_app by (intros [_ Hc]%selector_char; set_solver).
  unfold selector. rewrite split_join; [|by destruct platforms|].
  2: { apply Forall_fmap, Forall_forall. intros d _ [_ Hc]%subdir_char. set_solver. }
  assert (filter (λ s, s ≠ []) (trim <$> (subdir_as_str <$> platforms)) = subdir_as_str <$> platforms) as ->.
  { clear Hne. induction platforms as [|d l IH]; [done|]. csimpl. rewrite tight_trim.
    - rewrite filter_cons_True, IH; [done|by destruct d].
    - apply tight_none, existsb_false. intros c [? _]%subdir_char. done. }
  rewrite try_collect_ok by (apply Forall_forall; intros d _; apply subdir_from_str_as_str).
  by rewrite bool_decide_false.
Qed.
Lemma parse_platforms_none location : last location ≠ Some c_rbracket → parse_platforms location = Ok (None, location).
Proof.
  intros Hl. unfold parse_platforms. destruct (strip_suffix location [c_rbracket]) as [s|] eqn:E; [|done].
  apply strip_suffix_Some in E as ->. by rewrite last_snoc in Hl.
Qed.

(** A text that ends in a bracket is no platform. *)
Lemma selector_no_subdir s : ∃ e, subdir_from_str (s ++ [c_rbracket]) = Err e.
Proof.
  destruct (subdir_from_str_cases (s ++ [c_rbracket])) as [(d & E)|[_ ->]]; [|destruct (is_valid_subdir_name _); eauto].
  assert (c_rbracket ∈ subdir_as_str d) as [_ Hc]%subdir_char by (rewrite <-E; set_solver). set_solver.
Qed.

(** ** URLs *)
Section urls.
Context `{UC : UrlCrate}.

(** Nothing that is not to be written to a file *)
Record secret_free (u : Url) : Prop := {
  sf_username : url_username u = [];
  sf_password : url_password u = None;
  sf_token : path_without_token u = None;
  sf_query : url_query u = None;
  sf_fragment f : url_fragment u = Some f → is_artifact_digest f = true
}.

Lemma strip_secret_free u : secret_free u → strip_url_for_serialization u = u.
Proof.
  intros [Hn Hp Ht Hq Hf]. unfold strip_url_for_serialization. rewrite Hn, Hp.
  rewrite (bool_decide_true ([] = [])), (bool_decide_false (is_Some None)) by (done || by intros [? ?]). cbn [negb orb].
  rewrite Ht. assert (set_query u None = u) as ->.
  { apply url_parts_inj. rewrite set_query_parts. unfold url_query in Hq. destruct (url_parts u) as [????? q ?]. cbn in *. by subst q. }
  destruct (url_fragment u) as [f|]; [by rewrite Hf|done].
Qed.
End urls.

Section channels.
Context `{UC : UrlCrate} `{UP : !UrlPaths} `{TP : TypedPaths} `{PE : PercentEncoding} `{FU : !FileUrls}
  `{UN : Unicode} `{EV : ProcessEnv}.

(** The text is the serialisation of a URL that has nothing to hide and a scheme the parser of
    specs knows as one. *)
Definition url_wf (t : text) : Prop :=
  ∃ u, url_as_str u = t ∧ secret_free u ∧ is_Some (parse_scheme t).

(** The name that the alias or the path gives to the channel at [u] *)
Definition located_name (config : ChannelConfig) (u : Url) : option text :=
  match strip_channel_alias config u with Some name => Some name | None => ch_name (channel_from_url u) end.

(** The base URL is a directory, without secrets and without white space; the name is the one of
    the location, and what follows the alias does not look like a path. *)
Record channel_wf (c : Channel) (u : Url) : Prop := {
  cw_base : ch_base_url c = url_as_str u;
  cw_secret : secret_free u;
  cw_directory : with_trailing_slash u = u ∧ last (url_as_str u) = Some c_slash;
  cw_scheme : is_Some (parse_scheme (url_as_str u));
  cw_white : existsb is_whitespace (url_as_str u) = false;
  cw_name config : default_with_root_dir (Utf8Path []) = Some config →
    ch_name c = located_name config u ∧ ∀ name, strip_channel_alias config u = Some name → is_path name = false
}.

(** What is printed for the location; with the selector it is parsed to the channel. *)
Lemma located_value_reads_back location c v :
  (∀ config, default_with_root_dir (match current_dir with NoPath => Utf8Path [] | dir => dir end) = Some config →
     ∀ str platforms, parse_platforms str = Ok (platforms, location) →
     channel_from_str str config = Some (Ok (mkChannel platforms (ch_base_url c) (ch_name c)))) →
  is_Some (default_with_root_dir (Utf8Path [])) →
  location ≠ [] → existsb is_whitespace location = false → last location ≠ Some c_rbracket →
  (∀ before after, rsplit_once c_slash location = Some (before, after) → ∃ e, subdir_from_str after = Err e) →
  ch_platforms c ≠ Some [] → v = with_platform_selector location c →
  parse_channel_and_subdir v = Some (Ok (Some c, None)).
Proof.
  intros Hfrom [config0 Hconfig] Hne Hw Hlast Hsub Hp ->.
  assert (∃ config, default_with_root_dir (match current_dir with NoPath => Utf8Path [] | dir => dir end) = Some config) as [config E].
  { unfold default_with_root_dir in *. destruct (url_parse DEFAULT_CHANNEL_ALIAS); [by eexists|done]. }
  unfold parse_channel_and_subdir, with_platform_selector. destruct c as [[platforms|] base name]; cbn [ch_platforms] in *.
  - assert (platforms ≠ []) as Hpn by congruence. fold (selector platforms).
    set (str := location ++ [c_lbracket] ++ selector platforms ++ [c_rbracket]).
    assert (trim str = str) as ->.
    { apply tight_trim, tight_none, existsb_false. intros x. unfold str. rewrite !elem_of_app, !list_elem_of_singleton.
      rewrite existsb_false in Hw. intros [Hx|[ -> |[Hx| ->]]]; [by apply Hw|done|by apply selector_char in Hx as [? _]|done]. }
    rewrite bool_decide_false by (unfold str; by destruct location). rewrite E.
    rewrite (Hfrom config E str (Some platforms)) by by apply parse_platforms_selector. cbn [outcome_err outcome_bind].
    destruct (rsplit_once c_slash str) as [[before after]|] eqn:Er; [|done].
    apply rsplit_once_Some in Er as [Er _].
    assert (∃ s, after = s ++ [c_rbracket]) as [s ->].
    { assert (str = (location ++ c_lbracket :: selector platforms) ++ [c_rbracket]) as Es by (unfold str; by rewrite <-!(assoc_L (++))).
      rewrite Es in Er. destruct after as [|x after _] using rev_ind.
      - apply app_inj_tail in Er as [_ Er]. discriminate Er.
      - exists after. rewrite app_comm_cons, (assoc_L (++)) in Er. by apply app_inj_tail in Er as [_ ->]. }
    by destruct (selector_no_subdir s) as [e ->].
  - rewrite tight_trim by by apply tight_none. rewrite bool_decide_false, E by done.
    rewrite (Hfrom config E location None) by by apply parse_platforms_none. cbn [outcome_err outcome_bind].
    destruct (rsplit_once c_slash location) as [[before after]|] eqn:Er; [|done].
    by destruct (Hsub before after eq_refl) as [e ->].
Qed.

Lemma strip_channel_alias_trimmed config u name :
  strip_channel_alias config u = Some name → trim_end_by is_slash name = name.
Proof.
  unfold strip_channel_alias. destruct (strip _ _) as [s|]; [|done]. cbn [mbind option_bind].
  case_bool_decide; [done|]. intros [= <-]. unfold trim_by, trim_end_by. rewrite rev_involutive.
  f_equal. apply skip_while_id, skip_while_stops.
Qed.

Lemma forall_token name : is_safe_positional_token name = true →
  name ≠ [] ∧ ∀ c, c ∈ name → is_whitespace c = false ∧ c ∉ [c_colon; c_backslash; c_lbracket; c_rbracket].
Proof.
  unfold is_safe_positional_token. intros [Hne%negb_true_iff%bool_decide_eq_false Hs]%andb_true_iff.
  split; [done|]. intros c Hc. rewrite forallb_forall in Hs. apply list_elem_of_In, Hs in Hc.
  apply andb_true_iff in Hc as [Hw%negb_true_iff Hc%negb_true_iff%bool_decide_eq_false]. split; [done|]. set_solver.
Qed.

(** Only the alias matters to names. *)
Lemma strip_alias_root root root' config config' :
  default_with_root_dir root = Some config → default_with_root_dir root' = Some config' →
  channel_alias config' = channel_alias config.
Proof.
  unfold default_with_root_dir. destruct (url_parse DEFAULT_CHANNEL_ALIAS); [|done]. by intros [= <-] [= <-].
Qed.

(** A channel is read back from what is written for it. *)
Lemma channel_reads_back c u v :
  channel_wf c u → canonical_channel_value c = Some (Ok v) → parse_channel_and_subdir v = Some (Ok (Some c, None)).
Proof.
  intros [Hbase Hsecret [Hdir Hslash] Hscheme Hwhite Hname]. unfold canonical_channel_value, has_no_platforms.
  case_bool_decide as Hp; [done|]. rewrite Hbase, url_parse_as_str. cbn [of_option outcome_bind].
  rewrite strip_secret_free by done. unfold channel_name_for_url.
  destruct (default_with_root_dir (Utf8Path [])) as [config|] eqn:Ec; [|done]. cbn [mbind option_bind].
  destruct (Hname config eq_refl) as [Hn Hpath].
  assert (parse_channel_and_subdir (with_platform_selector (url_as_str u) c) = Some (Ok (Some c, None))) as Hurl.
  { eapply located_value_reads_back; [|by eexists| | | | |done|done].
    - intros config' Ec' str platforms Hpl. unfold channel_from_str. rewrite Hpl. cbn [map_err outcome_bind].
      rewrite bool_decide_true by done. rewrite url_parse_as_str.
      assert (ch_base_url (channel_from_url u) = url_as_str u) as -> by (unfold channel_from_url; rewrite Hdir; by case_bool_decide).
      rewrite Hbase, Hn. unfold located_name. by unfold strip_channel_alias; rewrite (strip_alias_root _ _ _ _ Ec Ec').
    - intros E. by rewrite E in Hslash.
    - done.
    - by rewrite Hslash.
    - intros before after [E Hafter]%rsplit_once_Some. rewrite E in Hslash. destruct after as [|x after _] using rev_ind; [by eexists|].
      rewrite app_comm_cons, (assoc_L (++)), last_snoc in Hslash. set_solver. }
  destruct (strip_channel_alias config u) as [name|] eqn:Ename; [|intros [= <-]; exact Hurl].
  destruct (is_safe_positional_token name) eqn:Hsafe; cbn [negb]; [|intros [= <-]; exact Hurl].
  case_match eqn:Hsub; [intros [= <-]; exact Hurl|].
  destruct (try_from_name name config) as [derived|] eqn:Hd; [|intros [= <-]; exact Hurl].
  case_bool_decide as Hbase'; [|intros [= <-]; exact Hurl].
  intros [= <-]. apply forall_token in Hsafe as [Hne Hsafe].
  assert (∀ x, x ∈ name → is_whitespace x = false) as Hnw by (intros x Hx; by apply Hsafe).
  assert (∀ x, x ∈ name → x ∉ [c_colon; c_backslash; c_lbracket; c_rbracket]) as Hnc by (intros x Hx; by apply Hsafe).
  assert (ch_name derived = Some name) as Hnd.
  { revert Hd. unfold try_from_name. destruct (url_join _ _); [|done]. intros [= <-]. cbn [ch_name].
    rewrite (strip_channel_alias_trimmed _ _ _ Ename). unfold non_empty. by rewrite bool_decide_false. }
  eapply located_value_reads_back; [|by eexists|exact Hne|by apply existsb_false| | |done|done].
  - intros config' Ec' str platforms Hpl. unfold channel_from_str. rewrite Hpl. cbn [map_err outcome_bind].
    assert (parse_scheme name = None) as ->.
    { unfold parse_scheme. rewrite (split_at_None _ name c_colon); [done|by vm_compute; left|intros Hc; apply Hnc in Hc; set_solver]. }
    rewrite bool_decide_false by (by intros [? ?]). rewrite Hpath by done.
    rewrite (proj2 (contains_any_false _ _)) by done.
    assert (try_from_name name config' = Some derived) as ->
      by (rewrite <-Hd; unfold try_from_name; by rewrite (strip_alias_root _ _ _ _ Ec Ec')).
    rewrite Hbase, Hbase', Hnd, Hn. unfold located_name. by rewrite Ename.
  - intros Hl. apply last_Some_elem_of in Hl. apply Hnc in Hl. set_solver.
  - intros before after Er. rewrite Er in Hsub. destruct (subdir_from_str after); [done|eauto].
Qed.

(** A URL is read back from what is written for it. *)
Lemma url_reads_back t : url_wf t →
  ∃ u, url_parse t = Some u ∧ url_as_str (strip_url_for_serialization u) = t ∧ is_Some (parse_scheme t).
Proof. intros (u & <- & Hs & Hp). exists u. by rewrite url_parse_as_str, strip_secret_free. Qed.
End channels.

(** ** An instance with [https] texts

    The crate of [url_crate_parts], with the usual text for an [https] URL of a host and a path;
    a name is joined behind the last slash of a path. *)
Definition https_text (p : UrlParts) : option text :=
  match p with
  | mkUrlParts scheme [] None (Some host) (c :: path) None None =>
      if bool_decide (scheme = txt "https" ∧ c = c_slash ∧ c_slash ∉ host) then Some (txt "https://" ++ host ++ c :: path)
      else None
  | _ => None
  end.
Definition https_parse (s : text) : option ValidUrl :=
  match strip (txt "https://") s with
  | Some r =>
      let '(host, path) := span (λ c, negb (c =? c_slash)%N) r in
      url_make (mkUrlParts (txt "https") [] None (Some host) (rooted path) None None)
  | None => url_parse (UrlCrate := url_crate_parts) s
  end.
Definition https_as_str (u : ValidUrl) : text :=
  match https_text (proj1_sig u) with Some t => t | None => url_as_str (UrlCrate := url_crate_parts) u end.

Lemma https_text_Some p t : https_text p = Some t →
  ∃ host path, p = mkUrlParts (txt "https") [] None (Some host) (c_slash :: path) None None
    ∧ c_slash ∉ host ∧ t = txt "https://" ++ host ++ c_slash :: path.
Proof.
  destruct p as [scheme [|? ?] [|] [host|] [|c path] [|] [|]]; try done. cbn [https_text].
  case_bool_decide as H; [|done]. destruct H as (-> & -> & H). intros [= <-]. eauto.
Qed.

Lemma https_parse_as_str u : https_parse (https_as_str u) = Some u.
Proof.
  unfold https_as_str. destruct (https_text (proj1_sig u)) as [t|] eqn:E.
  - apply https_text_Some in E as (host & path & E & Hh & ->). unfold https_parse. rewrite strip_app, span_app.
    + cbn [rooted]. destruct (url_make_parts (mkUrlParts (txt "https") [] None (Some host) (c_slash :: path) None None) eq_refl)
        as (v & Hv & Ev).
      change (rooted (c_slash :: path)) with (c_slash :: path). rewrite Hv. f_equal. apply valid_url_eq. congruence.
    + apply forallb_forall. intros c Hc%list_elem_of_In. apply negb_true_iff, N.eqb_neq. congruence.
    + done.
  - unfold https_parse. assert (strip (txt "https://") (url_as_str (UrlCrate := url_crate_parts) u) = None) as ->.
    { cbn [url_as_str url_crate_parts strip txt]. by destruct (_ =? _)%N. }
    apply (url_parse_as_str (UrlCrate := url_crate_parts)).
Qed.

Definition url_crate_https : UrlCrate.
Proof.
  refine {|
    Url := ValidUrl;
    url_as_str := https_as_str;
    url_parse := https_parse;
    url_parts u := proj1_sig u;
    set_username := set_username (UrlCrate := url_crate_parts);
    set_password := set_password (UrlCrate := url_crate_parts);
    set_path := set_path (UrlCrate := url_crate_parts);
    set_query := set_query (UrlCrate := url_crate_parts);
    set_fragment := set_fragment (UrlCrate := url_crate_parts);
    encode_password := encode_password (UrlCrate := url_crate_parts);
    encode_query := encode_query (UrlCrate := url_crate_parts);
    encode_path := encode_path (UrlCrate := url_crate_parts)
  |}.
  - apply (url_parts_inj (UrlCrate := url_crate_parts)).
  - apply https_parse_as_str.
  - apply (credentials_host (UrlCrate := url_crate_parts)).
  - apply (set_username_clear (UrlCrate := url_crate_parts)).
  - apply (set_password_parts (UrlCrate := url_crate_parts)).
  - apply (set_path_parts (UrlCrate := url_crate_parts)).
  - apply (set_query_parts (UrlCrate := url_crate_parts)).
  - apply (clear_fragment_parts (UrlCrate := url_crate_parts)).
  - apply (set_path_suffix (UrlCrate := url_crate_parts)).
  - apply (set_path_root (UrlCrate := url_crate_parts)).
Defined.

Definition url_paths_https : UrlPaths (UC := url_crate_https) :=
  {| url_join u name :=
       let path := up_path (url_parts (UrlCrate := url_crate_https) u) in
       let directory := match rsplit_once c_slash path with Some (before, _) => before | None => [] end in
       Some (set_path (UrlCrate := url_crate_https) u (directory ++ c_slash :: name));
     push_path_segments u segments :=
       let path := trim_end_by is_slash (up_path (url_parts (UrlCrate := url_crate_https) u)) in
       set_path (UrlCrate := url_crate_https) u (path ++ c_slash :: join [c_slash] segments) |}.

Definition file_urls_https : FileUrls (UC := url_crate_https).
Proof.
  refine {| host_parse := host_parse (FileUrls := file_urls_ref) |}.
  intros path H1 H2 H3. apply (url_parse_file (FileUrls := file_urls_ref) path H1 H2 H3).
Defined.
