(* ===== verification/SpecCanonical.v ===== *)
(** * What the canonical form of a field is read back as

    For every field of a match spec: the text that [to_canonical_string] writes for it is
    tokenised as one key and one value, and the parser stores the value of the field. *)
From S2P Require Import Prelude Externs TextOps Utf Redaction FileUrl Channels.
From S2P Require Import VersionRepr VersionOrder VersionOps VersionParse VersionGrammar VersionSpec VersionSpecText.
From S2P Require Import VersionTree BuildSpec PackageName Subdir Archive Records.
From S2P Require Import Matchers MatchSpecs SpecTokens SpecParse SpecFormat SpecScan ChannelText.

Local Notation text := (list N).

(** ** Specs field by field *)
Section fields.
Context `{GL : Glob} `{FR : FancyRegex}.

(** The field is the same in both specs. *)
Definition agree (f : Field) (a b : NamelessMatchSpec) : Prop :=
  match f with
  | FVersion => ns_version a = ns_version b
  | FBuild => ns_build a = ns_build b
  | FBuildNumber => ns_build_number a = ns_build_number b
  | FFileName => ns_file_name a = ns_file_name b
  | FExtras => ns_extras a = ns_extras b
  | FFlags => ns_flags a = ns_flags b
  | FChannel => ns_channel a = ns_channel b
  | FSubdir => ns_subdir a = ns_subdir b
  | FNamespace => ns_namespace a = ns_namespace b
  | FMd5 => ns_md5 a = ns_md5 b
  | FSha256 => ns_sha256 a = ns_sha256 b
  | FUrl => ns_url a = ns_url b
  | FLicense => ns_license a = ns_license b
  | FLicenseFamily => ns_license_family a = ns_license_family b
  | FWhen => ns_condition a = ns_condition b
  | FTrackFeatures => ns_track_features a = ns_track_features b
  end.

Definition copy_field (f : Field) (src acc : NamelessMatchSpec) : NamelessMatchSpec :=
  match f with
  | FVersion => set_ns_version (ns_version src) acc
  | FBuild => set_ns_build (ns_build src) acc
  | FBuildNumber => set_ns_build_number (ns_build_number src) acc
  | FFileName => set_ns_file_name (ns_file_name src) acc
  | FExtras => set_ns_extras (ns_extras src) acc
  | FFlags => set_ns_flags (ns_flags src) acc
  | FChannel => set_ns_channel (ns_channel src) acc
  | FSubdir => set_ns_subdir (ns_subdir src) acc
  | FNamespace => set_ns_namespace (ns_namespace src) acc
  | FMd5 => set_ns_md5 (ns_md5 src) acc
  | FSha256 => set_ns_sha256 (ns_sha256 src) acc
  | FUrl => set_ns_url (ns_url src) acc
  | FLicense => set_ns_license (ns_license src) acc
  | FLicenseFamily => set_ns_license_family (ns_license_family src) acc
  | FWhen => set_ns_condition (ns_condition src) acc
  | FTrackFeatures => set_ns_track_features (ns_track_features src) acc
  end.

Lemma agree_refl f a : agree f a a.
Proof. by destruct f. Qed.
Lemma agree_trans f a b c : agree f a b → agree f b c → agree f a c.
Proof. destruct f; simpl; congruence. Qed.
Lemma agree_sym f a b : agree f a b → agree f b a.
Proof. destruct f; simpl; congruence. Qed.
Lemma agree_copy f src acc : agree f src (copy_field f src acc).
Proof. by destruct f. Qed.
Lemma agree_other f g src acc : f ≠ g → agree g acc (copy_field f src acc).
Proof. by destruct f, g. Qed.

Lemma agree_eq a b : (∀ f, agree f a b) → a = b.
Proof.
  intros H. destruct a, b. f_equal;
    [exact (H FVersion)|exact (H FBuild)|exact (H FBuildNumber)|exact (H FFileName)|exact (H FExtras)
    |exact (H FFlags)|exact (H FChannel)|exact (H FSubdir)|exact (H FNamespace)|exact (H FMd5)|exact (H FSha256)
    |exact (H FUrl)|exact (H FLicense)|exact (H FLicenseFamily)|exact (H FWhen)|exact (H FTrackFeatures)].
Qed.

(** The fields of [l], copied from [src] *)
Definition copy_fields (l : list Field) (src acc : NamelessMatchSpec) : NamelessMatchSpec :=
  foldl (λ acc f, copy_field f src acc) acc l.

Lemma agree_copy_fields f l src acc :
  f ∈ l ∧ agree f src (copy_fields l src acc) ∨ f ∉ l ∧ agree f acc (copy_fields l src acc).
Proof.
  revert acc. induction l as [|g l IH]; intros acc; [right; split; [apply not_elem_of_nil|apply agree_refl]|].
  destruct (IH (copy_field g src acc)) as [[Hf H]|[Hf H]]; [left; split; [by right|exact H]|].
  destruct (decide (f = g)) as [->|Hne].
  - left. split; [by left|]. eapply agree_trans; [apply agree_copy|exact H].
  - right. split; [by apply not_elem_of_cons|]. eapply agree_trans; [by apply (agree_other g)|exact H].
Qed.

(** Copying every field that has a value gives the spec. *)
Lemma copy_present_fields name n :
  copy_fields (filter (λ f, has (mkSpecView name n) f = true) CANONICAL_BRACKET_FIELDS) n nameless_default = n.
Proof.
  apply agree_eq. intros f. apply agree_sym.
  destruct (agree_copy_fields f (filter (λ f, has (mkSpecView name n) f = true) CANONICAL_BRACKET_FIELDS) n nameless_default)
    as [[_ H]|[Hf H]]; [done|].
  eapply agree_trans; [|exact H]. apply agree_sym.
  assert (has (mkSpecView name n) f = false) as Hh.
  { apply not_true_iff_false. intros Hh. apply Hf, list_elem_of_filter. split; [done|].
    unfold CANONICAL_BRACKET_FIELDS. destruct f; set_solver. }
  destruct f; simpl in *; apply bool_decide_eq_false in Hh; by apply eq_None_not_Some in Hh.
Qed.
End fields.

(** ** Helper lemmas *)

Lemma field_of_key_key f : field_of_key (field_key f) = Some f.
Proof. by destruct f. Qed.

Lemma field_key_ok f : key_ok (field_key f).
Proof. split; [by destruct f|by destruct f]. Qed.

Lemma utf8_char_nonempty c : utf8_char c ≠ [].
Proof. unfold utf8_char. by repeat case_match. Qed.

Lemma last_is_last p s : last_is p s = match last s with Some c => p c | None => false end.
Proof.
  unfold last_is. rewrite <-(rev_involutive s) at 2. destruct (rev s) as [|c r]; [done|].
  cbn [rev head_is]. by rewrite last_snoc.
Qed.

Lemma classifies_as_regex_anchored s : classifies_as_regex s = is_anchored s.
Proof.
  unfold classifies_as_regex, is_anchored. rewrite last_is_last.
  destruct s as [|c s]; [done|]. cbn [head_is head].
  destruct (N.eqb_spec c c_caret) as [->|Hc];
    [rewrite bool_decide_true by done|rewrite bool_decide_false by congruence; by rewrite andb_false_r].
  rewrite andb_true_r. cbn [andb]. destruct s as [|d s].
  { done. }
  assert (2 <=? Utf.str_len (c_caret :: d :: s) = true)%nat as ->.
  { apply Nat.leb_le. unfold Utf.str_len, Utf.utf8. cbn [mbind list_bind]. rewrite !length_app.
    pose proof (utf8_char_nonempty c_caret). pose proof (utf8_char_nonempty d).
    destruct (Utf.utf8_char c_caret), (Utf.utf8_char d); simpl; done || lia. }
  change (last (c_caret :: d :: s)) with (last (d :: s)). destruct (last (d :: s)) as [x|] eqn:E; [|by apply last_None in E].
  cbn [andb]. destruct (N.eqb_spec x c_dollar) as [->|]; [by rewrite bool_decide_true|by rewrite bool_decide_false by congruence].
Qed.

(** A matcher whose compiled part is the one its text compiles to *)
Section matchers.
Context `{GL : Glob} `{FR : FancyRegex}.

Definition matcher_wf (m : StringMatcher) : Prop :=
  match m with
  | SGlob p => pattern_new (pattern_as_str p) = Some p
  | SRegex r => regex_matcher_new (rm_original r) = Some r
  | _ => True
  end.

Lemma strip_prefix_char_cons c s : strip_prefix_char c (c :: s) = Some s.
Proof. cbn [strip_prefix_char]. by rewrite N.eqb_refl. Qed.

Lemma canonical_matcher_from_str m :
  matcher_wf m → string_matcher_is_canonical m = true → string_matcher_from_str (string_matcher_display m) = Ok m.
Proof.
  intros Hm. unfold string_matcher_is_canonical, string_matcher_from_str. rewrite classifies_as_regex_anchored.
  destruct m as [|s|s|s|p|r]; cbn [string_matcher_display matcher_wf] in *.
  - done.
  - intros [Ha%negb_true_iff Hg%negb_true_iff]%andb_true_iff. rewrite Ha in *. cbn [negb andb] in Hg.
    apply bool_decide_eq_false in Hg. rewrite (bool_decide_false (s = _)) by (intros ->; set_solver).
    destruct (strip_suffix s [c_star]) as [q|] eqn:Eq; [apply strip_suffix_Some in Eq as ->; set_solver|].
    destruct (strip_prefix_char c_star s) as [q|] eqn:Er; [apply strip_prefix_char_Some in Er as ->; set_solver|].
    by rewrite bool_decide_false.
  - intros [[Hs%negb_true_iff%bool_decide_eq_false Hl]%andb_true_iff ->%negb_true_iff]%andb_true_iff.
    rewrite (bool_decide_false (s ++ _ = _)).
    2: { intros E. destruct s as [|c s]; [done|]. injection E as _ E. by apply app_eq_nil in E as [_ ?]. }
    rewrite (proj2 (strip_suffix_Some _ _ s) eq_refl). by rewrite Hl.
  - intros [[Hs%negb_true_iff%bool_decide_eq_false Hl]%andb_true_iff ->%negb_true_iff]%andb_true_iff.
    rewrite (bool_decide_false (_ :: s = _)) by (intros [= ->]; done).
    destruct (strip_suffix (c_star :: s) [c_star]) as [q|] eqn:Eq.
    + exfalso. apply strip_suffix_Some in Eq. destruct q as [|c q]; [by injection Eq|]. injection Eq as _ ->.
      apply literal_no_star in Hl. set_solver.
    + by rewrite strip_prefix_char_cons, Hl.
  - intros [[[Hg Hs%negb_true_iff]%andb_true_iff Hp%negb_true_iff]%andb_true_iff Hx%negb_true_iff]%andb_true_iff.
    apply andb_true_iff in Hg as [->%negb_true_iff Hg]. rewrite Hs, Hg, Hm.
    destruct (strip_suffix _ _) as [q|]; [rewrite Hp|]; destruct (strip_prefix_char _ _) as [q'|]; try rewrite Hx; done.
  - intros ->. by rewrite Hm.
Qed.
End matchers.

(** ** Splitting what was joined *)

Lemma split_by_app p (w s : text) c :
  existsb p w = false → p c = true → split_by p (w ++ c :: s) = w :: split_by p s.
Proof.
  intros Hw Hc. induction w as [|d w IH]; cbn [app split_by]; [by rewrite Hc|].
  simpl in Hw. apply orb_false_iff in Hw as [-> Hw]. by rewrite IH.
Qed.

Lemma split_by_none p (w : text) : existsb p w = false → split_by p w = [w].
Proof.
  induction w as [|d w IH]; [done|]. simpl. intros [-> Hw]%orb_false_iff. by rewrite IH.
Qed.

Lemma split_by_join p c ws :
  ws ≠ [] → p c = true → Forall (λ w, existsb p w = false) ws → split_by p (join [c] ws) = ws.
Proof.
  intros Hne Hc H. induction H as [|w ws Hw H IH]; [done|]. destruct ws as [|v ws]; [by apply split_by_none|].
  change (join [c] (w :: v :: ws)) with (w ++ c :: join [c] (v :: ws)). rewrite split_by_app by done. by rewrite IH.
Qed.

Lemma invalid_element_None p l : invalid_element p l = None → l ≠ [] ∧ Forall (λ t, p t = false) l.
Proof.
  unfold invalid_element. destruct (filter _ l) as [|t r] eqn:E; [|done].
  case_bool_decide as Hl; [done|]. intros _. split; [done|]. apply Forall_forall. intros t Ht.
  apply not_true_iff_false. intros Hp. assert (t ∈ filter (λ t, p t = true) l) as Hin by by apply list_elem_of_filter.
  rewrite E in Hin. by apply elem_of_nil in Hin.
Qed.

(** ** Extras and flags *)
Section lists.
Context `{NM : Nom} `{UN : Unicode}.

Lemma extra_char_token c : is_extra_char c = true →
  is_name_token_char c = true ∧ is_multispace c = false ∧ is_quote c = false ∧ is_plain c = true ∧ c ≠ c_comma.
Proof.
  intros H. assert (c < 128)%N as Hc.
  { unfold is_extra_char, is_ascii_lowercase, is_ascii_digit in H.
    apply orb_true_iff in H as [[?|?]%orb_true_iff|H%bool_decide_eq_true]; bool_hyps; [lia..|].
    repeat (apply elem_of_cons in H as [->|H]; [lia|]). by apply elem_of_nil in H. }
  unfold is_name_token_char, is_alphanumeric. rewrite (proj2 (N.ltb_lt _ _) Hc).
  exhaust 128%N (λ c, implb (is_extra_char c)
    ((is_alnum c || bool_decide (c ∈ [c_under; c_dash; c_dot; c_plus])) && negb (is_multispace c)
     && negb (is_quote c) && is_plain c && negb (c =? c_comma)%N)) c E.
  rewrite H in E. simpl in E.
  apply andb_true_iff in E as [[[[? ?%negb_true_iff]%andb_true_iff ?%negb_true_iff]%andb_true_iff ?]%andb_true_iff
    ?%negb_true_iff%N.eqb_neq]. done.
Qed.

Lemma valid_extra_spec name : is_valid_extra_group_name name = true → name ≠ [] ∧ forallb is_extra_char name = true.
Proof.
  unfold is_valid_extra_group_name. intros [[H Hl%Nat.leb_le]%andb_true_iff _]%andb_true_iff.
  split; [|done]. by intros ->; simpl in Hl; lia.
Qed.

Lemma parse_feature_text name rest :
  is_valid_extra_group_name name = true → rest = [] ∨ head rest = Some c_comma →
  parse_feature_name (name ++ rest) = Ok (rest, name).
Proof.
  intros [Hne Hn]%valid_extra_spec Hr. unfold parse_feature_name. nom. unfold map_fun, pair_fun. nom.
  destruct name as [|c name]; [done|]. pose proof Hn as Hn'. simpl in Hn'. apply andb_true_iff in Hn' as [Hc _].
  destruct (extra_char_token c Hc) as (_ & Hms & Hq & _ & _).
  rewrite span_stops by (cbn [app stops]; by rewrite Hms). cbn [fst snd]. nom. unfold alt3_fun.
  unfold is_quote in Hq. apply orb_false_iff in Hq as [Hq1%N.eqb_neq Hq2%N.eqb_neq].
  cbn [app]. rewrite !parse_quoted_other by done. nom. unfold span1_fun.
  assert (span is_name_token_char (c :: name ++ rest) = (c :: name, rest)) as ->.
  { apply (span_app is_name_token_char (c :: name)).
    - apply forallb_forall. intros x Hx. rewrite forallb_forall in Hn. by apply extra_char_token, Hn.
    - destruct Hr as [->|Hr]; [done|]. destruct rest; [done|]. by injection Hr as ->. }
  nom. destruct Hr as [->|Hr]; [done|]. destruct rest; [done|]. by injection Hr as ->.
Qed.

Lemma parse_extras_join extras :
  extras ≠ [] → Forall (λ e, is_valid_extra_group_name e = true) extras → parse_extras (join [c_comma] extras) = Ok extras.
Proof.
  intros Hne Hv. destruct extras as [|e extras]; [done|]. unfold parse_extras. nom. unfold all_consuming_fun, parse_features.
  nom. destruct (separated_join (nom_char c_comma) parse_feature_name id id [] ([], KChar) e extras) as [_ E].
  - by nom.
  - eapply Forall_impl; [exact Hv|]. intros x Hx. split.
    + intros rest Hr. by apply parse_feature_text.
    + intros rest. nom. cbn [one_of_fun]. by rewrite bool_decide_true by set_solver.
  - rewrite !list_fmap_id, app_nil_r in E. rewrite E. cbn [finish].
    assert (filter (λ name, is_valid_extra_group_name name = false) (e :: extras) = []) as ->; [|done].
    apply filter_none. intros x Hx. rewrite Forall_forall in Hv. by rewrite (Hv x Hx).
Qed.

Lemma extras_plain extras :
  Forall (λ e, is_valid_extra_group_name e = true) extras → forallb is_plain (join [c_comma] extras) = true.
Proof.
  intros H. assert (∀ e, is_valid_extra_group_name e = true → forallb is_plain e = true) as Hp.
  { intros e [_ He]%valid_extra_spec. apply forallb_forall. intros c Hc. rewrite forallb_forall in He.
    by apply extra_char_token, He. }
  induction H as [|e extras He H IH]; [done|]. destruct extras as [|f extras]; [by apply Hp|].
  change (join [c_comma] (e :: f :: extras)) with (e ++ c_comma :: join [c_comma] (f :: extras)).
  rewrite forallb_app, Hp by done. exact IH.
Qed.

(** *** Flags *)
Definition is_flag_char (c : N) : bool :=
  is_ascii_lowercase c || is_ascii_digit c || bool_decide (c ∈ [c_under; c_star; c_colon]).

Lemma flag_char_spec c : is_flag_char c = true →
  is_whitespace c = false ∧ is_quote c = false ∧ is_plain c = true ∧ c ≠ c_comma.
Proof.
  intros H. assert (c < 128)%N as Hc.
  { unfold is_flag_char, is_ascii_lowercase, is_ascii_digit in H.
    apply orb_true_iff in H as [[?|?]%orb_true_iff|H%bool_decide_eq_true]; bool_hyps; [lia..|].
    repeat (apply elem_of_cons in H as [->|H]; [lia|]). by apply elem_of_nil in H. }
  exhaust 128%N (λ c, implb (is_flag_char c)
    (negb (is_whitespace c) && negb (is_quote c) && is_plain c && negb (c =? c_comma)%N)) c E.
  rewrite H in E. simpl in E.
  apply andb_true_iff in E as [[[?%negb_true_iff ?%negb_true_iff]%andb_true_iff ?]%andb_true_iff ?%negb_true_iff%N.eqb_neq].
  done.
Qed.

Lemma flag_part_chars s : is_valid_flag_part s true = true → s ≠ [] ∧ forallb is_flag_char s = true.
Proof.
  unfold is_valid_flag_part. intros [Hne%negb_true_iff%bool_decide_eq_false H]%andb_true_iff. split; [done|].
  apply forallb_forall. intros c Hc. rewrite forallb_forall in H. specialize (H c Hc). unfold is_flag_char.
  rewrite !orb_true_iff, !andb_true_iff in H. rewrite !orb_true_iff, bool_decide_eq_true.
  destruct H as [[[?|?]| ->%N.eqb_eq]|[_ ->%N.eqb_eq]]; auto; right; set_solver.
Qed.

Lemma valid_flag_chars s : is_valid_matchspec_flag s = true → s ≠ [] ∧ forallb is_flag_char s = true.
Proof.
  unfold is_valid_matchspec_flag, is_valid_flag. pose proof (join_split c_colon s) as E.
  destruct (split_char c_colon s) as [|a parts]; [done|].
  destruct (is_valid_flag_part a true) eqn:Ha; [|done]. simpl. apply flag_part_chars in Ha as [Ha1 Ha2].
  destruct parts as [|b [|? ?]]; simpl in E; [intros _; by subst|..|done].
  intros [_ Hb]%flag_part_chars. subst s. split; [by destruct a|]. by rewrite forallb_app, Ha2.
Qed.

Context `{GL : Glob} `{FR : FancyRegex}.

Definition canonical_flag (m : StringMatcher) : Prop :=
  is_valid_matchspec_flag (string_matcher_display m) = true ∧ string_matcher_is_canonical m = true.

Lemma flag_free_of (p : N → bool) s :
  forallb is_flag_char s = true → (∀ c, is_flag_char c = true → p c = false) → existsb p s = false.
Proof.
  intros Hs Hp. apply existsb_false. intros c Hc. apply Hp. rewrite forallb_forall in Hs.
  by apply Hs, list_elem_of_In.
Qed.

Lemma strip_quotes_none q s : is_quote q = true → forallb is_flag_char s = true → strip_quotes q s = None.
Proof.
  intros Hq Hs. unfold strip_quotes. destruct s as [|c s]; [done|]. simpl in Hs. apply andb_true_iff in Hs as [Hc _].
  destruct (flag_char_spec c Hc) as (_ & Hcq & _). cbn [strip_prefix_char].
  destruct (N.eqb_spec c q) as [->|]; [congruence|done].
Qed.

Lemma parse_flag_display m : matcher_wf m → canonical_flag m → parse_flag (string_matcher_display m) = Ok m.
Proof.
  intros Hm [Hv Hc]. destruct (valid_flag_chars _ Hv) as [Hne Hs]. unfold parse_flag.
  assert (trim (string_matcher_display m) = string_matcher_display m) as ->.
  { apply tight_trim, tight_none, flag_free_of; [done|]. intros c Hcc. by apply flag_char_spec in Hcc as (-> & _). }
  rewrite bool_decide_false by done. rewrite !strip_quotes_none by done. rewrite Hv. cbn [negb].
  by rewrite canonical_matcher_from_str.
Qed.

Lemma flags_join (flags : list StringMatcher) :
  Forall canonical_flag flags →
  Forall (λ t, c_comma ∉ t) (string_matcher_display <$> flags)
  ∧ forallb is_plain (join [c_comma] (string_matcher_display <$> flags)) = true.
Proof.
  induction 1 as [|m flags [Hv _] H [IH1 IH2]]; [done|]. destruct (valid_flag_chars _ Hv) as [_ Hs].
  assert (c_comma ∉ string_matcher_display m) as Hcomma.
  { intros Hin%list_elem_of_In. rewrite forallb_forall in Hs. by apply Hs in Hin. }
  assert (forallb is_plain (string_matcher_display m) = true) as Hp.
  { apply forallb_forall. intros c Hc. rewrite forallb_forall in Hs. by apply flag_char_spec, Hs. }
  split; [by constructor|]. destruct flags as [|n flags]; [done|]. csimpl in *.
  by rewrite forallb_app, Hp.
Qed.

Lemma parse_flags_join flags :
  flags ≠ [] → Forall matcher_wf flags → Forall canonical_flag flags →
  parse_flags (join [c_comma] (string_matcher_display <$> flags)) = Ok flags.
Proof.
  intros Hne Hm Hc. unfold parse_flags. rewrite split_join; [|by destruct flags|by apply flags_join].
  apply try_collect_ok. rewrite Forall_forall in Hm, Hc. apply Forall_forall. intros m Hin. apply parse_flag_display; auto.
Qed.

Lemma parse_track_features_join features :
  features ≠ [] → Forall (λ s, s ≠ [] ∧ contains_any [c_comma; c_space] s = false ∧ trim s = s) features →
  parse_track_features (join [c_space] features) = features.
Proof.
  intros Hne H. unfold parse_track_features. rewrite split_by_join; [|done|done|].
  - assert (trim <$> features = features) as ->.
    { clear Hne. induction H as [|s l (_ & _ & Hs) H IH]; [done|]. csimpl. by rewrite Hs, IH. }
    apply filter_all. intros s Hs. rewrite Forall_forall in H. by apply H.
  - eapply Forall_impl; [exact H|]. intros s (_ & Hs & _). rewrite contains_any_false in Hs.
    apply existsb_false. intros c Hc. specialize (Hs c Hc). apply orb_false_iff. rewrite !N.eqb_neq. set_solver.
Qed.
End lists.

(** ** Every field is read back *)
Section field_roundtrip.
Context `{GL : Glob} `{FR : FancyRegex} `{NM : Nom} `{UN : Unicode} `{HX : Hex}.
Context `{UC : UrlCrate} `{UP : !UrlPaths} `{TP : TypedPaths} `{PE : PercentEncoding} `{FU : !FileUrls}
  `{EV : ProcessEnv}.

Definition digest_wf (size : nat) (d : list N) : Prop := length d = size ∧ Forall (λ b, (b < 256)%N) d.

(** What the values of the fields satisfy when they come from a parser *)
Definition field_wf (f : Field) (n : NamelessMatchSpec) : Prop :=
  match f with
  | FVersion => ∀ v, ns_version n = Some v → spec_canonical v
  | FBuild => ∀ b, ns_build n = Some b → matcher_wf b
  | FBuildNumber => ∀ b, ns_build_number n = Some b → (rhs b <= u64_max)%N
  | FFlags => ∀ l, ns_flags n = Some l → Forall matcher_wf l
  | FChannel => ∀ c, ns_channel n = Some c → ∃ u, channel_wf c u
  | FMd5 => ∀ d, ns_md5 n = Some d → digest_wf md5_size d
  | FSha256 => ∀ d, ns_sha256 n = Some d → digest_wf sha256_size d
  | FUrl => ∀ u, ns_url n = Some u → url_wf u
  | FTrackFeatures => ∀ l, ns_track_features n = Some l → Forall (λ s, trim s = s) l
  | _ => True
  end.

(** The options let the parser read the field. *)
Definition allowed (options : ParseMatchSpecOptions) (f : Field) : Prop :=
  match f with
  | FExtras => allow_extras options = true
  | FFlags => allow_flags options = true
  | FWhen => allow_conditionals options = true
  | _ => True
  end.

Lemma write_scalar_canonical key value t :
  write_scalar CANONICAL key value = Some (Ok t) →
  ∃ d, t = field_text (key, FScalar d value) ∧ value_ok (FScalar d value).
Proof.
  unfold write_scalar, canonical_bracket_value. simpl.
  destruct (pick_quote_delimiter value) as [d|] eqn:E; [|done]. intros [= <-].
  apply pick_quote_delimiter_quotable in E. by exists d.
Qed.

Lemma write_list_canonical key elements valid t :
  Forall (λ e, valid e = true) elements → write_list CANONICAL key elements valid = Some (Ok t) →
  t = field_text (key, FList (join [c_comma] elements)).
Proof.
  intros Hv. unfold write_list. intros [= <-].
  assert (∀ f : text → text, (∀ e, valid e = true → f e = e) → f <$> elements = elements) as Hf.
  { intros f Hf. induction Hv as [|e l He H IH]; [done|]. csimpl. by rewrite Hf, IH. }
  rewrite Hf; [done|]. by intros e ->.
Qed.

Context (parse_condition : text → ParseMatchSpecOptions → IResult Condition CondError)
  (rendered : DisplayStyle → Written) (options : ParseMatchSpecOptions) (n n' : NamelessMatchSpec)
  (name : option PackageNameMatcher).
Context (Hsame : ∀ f, f ≠ FWhen → agree f n n')
  (Hwhen : ∀ t, rendered Canonical = Some (Ok t) → ∃ c, ns_condition n' = Some c
     ∧ parse_when parse_condition (escape_bracket_value t) options = Some (Ok c)).

(** The text [t] of the field is one key and a value, which the parser reads back. *)
Definition reads_back (f : Field) (t : text) : Prop :=
  ∃ v, t = field_text (field_key f, v) ∧ value_ok v ∧
    ∀ acc, agree f acc nameless_default →
      parse_field parse_condition (field_key f) (value_raw v) options acc = Some (Ok (copy_field f n' acc)).

(** A scalar whose value the parser turns into the field *)
Lemma scalar_reads_back f value t :
  write_scalar CANONICAL (field_key f) value = Some (Ok t) →
  (∀ acc, agree f acc nameless_default →
    parse_field parse_condition (field_key f) value options acc = Some (Ok (copy_field f n' acc))) →
  reads_back f t.
Proof. intros (d & -> & Hd)%write_scalar_canonical H. by exists (FScalar d value). Qed.

Lemma set_subdir_same (acc : NamelessMatchSpec) : set_ns_subdir (option_or (ns_subdir acc) None) acc = acc.
Proof. destruct acc. unfold option_or, set_ns_subdir. simpl. by destruct ns_subdir. Qed.

Lemma outcome_bind_Ok {E A B} (m : outcome E A) (k : A → outcome E B) b :
  outcome_bind m k = Some (Ok b) → ∃ a, m = Some (Ok a) ∧ k a = Some (Ok b).
Proof. destruct m as [[a|e]|]; [eauto|done|done]. Qed.

Lemma url_of_string t u : url_parse t = Some u → url_as_str (strip_url_for_serialization u) = t → url_as_str u = t.
Proof. intros Hu E. rewrite <-E, url_parse_as_str in Hu. injection Hu as Hu. congruence. Qed.

Lemma md5_reads_back t :
  has (mkSpecView name n) FMd5 = true → field_wf FMd5 n →
  fmt_field rendered (mkSpecView name n) CANONICAL FMd5 = Some (Ok t) → reads_back FMd5 t.
Proof.
  cbn [has fmt_field sv_fields field_wf]. pose proof (Hsame FMd5 ltac:(done)) as E. simpl in E.
  intros [d Ed]%bool_decide_eq_true Hwf. rewrite Ed in *. intros Ht.
  eapply scalar_reads_back; [exact Ht|]. intros acc _. unfold parse_field. rewrite field_of_key_key.
  destruct (Hwf d eq_refl) as [Hl Hb]. unfold parse_digest_from_hex. rewrite <-Hl, hex_decode_encode by done.
  simpl. by rewrite <-E.
Qed.

Lemma sha256_reads_back t :
  has (mkSpecView name n) FSha256 = true → field_wf FSha256 n →
  fmt_field rendered (mkSpecView name n) CANONICAL FSha256 = Some (Ok t) → reads_back FSha256 t.
Proof.
  cbn [has fmt_field sv_fields field_wf]. pose proof (Hsame FSha256 ltac:(done)) as E. simpl in E.
  intros [d Ed]%bool_decide_eq_true Hwf. rewrite Ed in *. intros Ht.
  eapply scalar_reads_back; [exact Ht|]. intros acc _. unfold parse_field. rewrite field_of_key_key.
  destruct (Hwf d eq_refl) as [Hl Hb]. unfold parse_digest_from_hex. rewrite <-Hl, hex_decode_encode by done.
  simpl. by rewrite <-E.
Qed.

(** The fields that are stored as they are written *)
Lemma plain_field_reads_back f t :
  f ∈ [FFileName; FSubdir; FNamespace; FLicense; FLicenseFamily] → has (mkSpecView name n) f = true →
  fmt_field rendered (mkSpecView name n) CANONICAL f = Some (Ok t) → reads_back f t.
Proof.
  intros Hf. pose proof (Hsame f ltac:(intros ->; set_solver)) as E.
  repeat (apply elem_of_cons in Hf as [->|Hf]; [|]); [..|by apply elem_of_nil in Hf];
    cbn [has fmt_field sv_fields agree] in *; intros [d Ed]%bool_decide_eq_true; rewrite Ed in *; cbn [present];
    intros Ht; eapply scalar_reads_back; try exact Ht; intros acc _; unfold parse_field; rewrite field_of_key_key;
    cbn [copy_field]; by rewrite <-E.
Qed.

Lemma version_reads_back t :
  has (mkSpecView name n) FVersion = true → field_wf FVersion n →
  fmt_field rendered (mkSpecView name n) CANONICAL FVersion = Some (Ok t) → reads_back FVersion t.
Proof.
  cbn [has fmt_field sv_fields field_wf]. pose proof (Hsame FVersion ltac:(done)) as E. simpl in E.
  intros [v Ev]%bool_decide_eq_true Hwf. rewrite Ev in *. cbn [present].
  destruct (spec_display_parse (strictness options) v (Hwf v eq_refl)) as (s & -> & Hs). intros Ht.
  eapply scalar_reads_back; [exact Ht|]. intros acc _. unfold parse_field. rewrite field_of_key_key, Hs.
  simpl. by rewrite <-E.
Qed.

Lemma build_reads_back t :
  has (mkSpecView name n) FBuild = true → field_wf FBuild n →
  fmt_field rendered (mkSpecView name n) CANONICAL FBuild = Some (Ok t) → reads_back FBuild t.
Proof.
  cbn [has fmt_field sv_fields field_wf]. pose proof (Hsame FBuild ltac:(done)) as E. simpl in E.
  intros [b Eb]%bool_decide_eq_true Hwf. rewrite Eb in *. cbn [present].
  destruct (string_matcher_is_canonical b) eqn:Hc; [|done]. intros Ht.
  eapply scalar_reads_back; [exact Ht|]. intros acc _. unfold parse_field.
  rewrite field_of_key_key, canonical_matcher_from_str by auto. simpl. by rewrite <-E.
Qed.

Lemma build_number_reads_back t :
  has (mkSpecView name n) FBuildNumber = true → field_wf FBuildNumber n →
  fmt_field rendered (mkSpecView name n) CANONICAL FBuildNumber = Some (Ok t) → reads_back FBuildNumber t.
Proof.
  cbn [has fmt_field sv_fields field_wf]. pose proof (Hsame FBuildNumber ltac:(done)) as E. simpl in E.
  intros [[o b] Eb]%bool_decide_eq_true Hwf. rewrite Eb in *. cbn [present]. intros Ht.
  eapply scalar_reads_back; [exact Ht|]. intros acc _. unfold parse_field.
  destruct (build_number_spec_from_str_spec []) as (_ & _ & Hp).
  rewrite field_of_key_key, Hp by exact (Hwf _ eq_refl). simpl. by rewrite <-E.
Qed.

Lemma extras_reads_back t :
  has (mkSpecView name n) FExtras = true → allowed options FExtras →
  fmt_field rendered (mkSpecView name n) CANONICAL FExtras = Some (Ok t) → reads_back FExtras t.
Proof.
  cbn [has fmt_field sv_fields allowed]. pose proof (Hsame FExtras ltac:(done)) as E. simpl in E.
  intros [l El]%bool_decide_eq_true Ha. rewrite El in *. cbn [present].
  rewrite bool_decide_true by done. destruct (invalid_element _ l) eqn:Ei; [done|].
  apply invalid_element_None in Ei as [Hne Hv].
  assert (Forall (λ e, is_valid_extra_group_name e = true) l) as Hv'.
  { eapply Forall_impl; [exact Hv|]. intros x. apply negb_false_iff. }
  intros Ht. apply write_list_canonical in Ht as ->; [|done].
  exists (FList (join [c_comma] l)). split; [done|]. split; [by apply extras_plain|].
  intros acc _. unfold parse_field. rewrite field_of_key_key, Ha. cbn [value_raw].
  rewrite parse_extras_join by done. simpl. by rewrite <-E.
Qed.

Lemma flags_reads_back t :
  has (mkSpecView name n) FFlags = true → field_wf FFlags n → allowed options FFlags →
  fmt_field rendered (mkSpecView name n) CANONICAL FFlags = Some (Ok t) → reads_back FFlags t.
Proof.
  cbn [has fmt_field sv_fields allowed field_wf]. pose proof (Hsame FFlags ltac:(done)) as E. simpl in E.
  intros [l El]%bool_decide_eq_true Hwf Ha. rewrite El in *. cbn [present].
  rewrite bool_decide_true by done. destruct (filter _ l) as [|m r] eqn:Ef; [|done].
  case_bool_decide as Hl; [done|].
  assert (Forall canonical_flag l) as Hc.
  { apply Forall_forall. intros m Hm. destruct (decide (canonical_flag m)) as [|Hbad]; [done|]. exfalso.
    assert (m ∈ filter (λ flag, negb (is_valid_matchspec_flag (string_matcher_display flag))
                        || negb (string_matcher_is_canonical flag) = true) l) as Hin.
    { apply list_elem_of_filter. split; [|done]. unfold canonical_flag in Hbad.
      destruct (is_valid_matchspec_flag _), (string_matcher_is_canonical m); naive_solver. }
    rewrite Ef in Hin. by apply elem_of_nil in Hin. }
  destruct (flags_join l Hc) as [_ Hp]. intros Ht. apply write_list_canonical in Ht as ->.
  2: { apply Forall_fmap. eapply Forall_impl; [exact Hc|]. by intros m []. }
  exists (FList (join [c_comma] (string_matcher_display <$> l))). split; [done|]. split; [done|].
  intros acc _. unfold parse_field. rewrite field_of_key_key, Ha. cbn [value_raw].
  rewrite parse_flags_join; [simpl; by rewrite <-E|by intros ->|by apply Hwf|done].
Qed.

Lemma channel_field_reads_back t :
  has (mkSpecView name n) FChannel = true → field_wf FChannel n →
  fmt_field rendered (mkSpecView name n) CANONICAL FChannel = Some (Ok t) → reads_back FChannel t.
Proof.
  cbn [has fmt_field sv_fields field_wf]. pose proof (Hsame FChannel ltac:(done)) as E. simpl in E.
  intros [c Ec]%bool_decide_eq_true Hwf. rewrite Ec in *. cbn [present dc_style CANONICAL].
  intros (v & Hv & Ht)%outcome_bind_Ok. destruct (Hwf c eq_refl) as [u Hu]. pose proof (channel_reads_back c u v Hu Hv) as Hp.
  assert (write_scalar CANONICAL (field_key FChannel) v = Some (Ok t)) as Hs by exact Ht.
  eapply scalar_reads_back; [exact Hs|]. intros acc Hacc. unfold parse_field. rewrite field_of_key_key, Hp.
  simpl in Hacc. cbn [outcome_bind]. rewrite Hacc. cbn [option_or copy_field]. rewrite <-E.
  assert (ns_subdir acc = ns_subdir (set_ns_channel (Some c) acc)) as Hsub by done. by rewrite set_subdir_same.
Qed.

Lemma url_field_reads_back t :
  has (mkSpecView name n) FUrl = true → field_wf FUrl n →
  fmt_field rendered (mkSpecView name n) CANONICAL FUrl = Some (Ok t) → reads_back FUrl t.
Proof.
  cbn [has fmt_field sv_fields field_wf]. pose proof (Hsame FUrl ltac:(done)) as E. simpl in E.
  intros [u Eu]%bool_decide_eq_true Hwf. rewrite Eu in *. cbn [present dc_style CANONICAL].
  destruct (url_reads_back u (Hwf u eq_refl)) as (url & Hp & Hs & Hscheme). rewrite Hp. cbn [of_option outcome_bind]. rewrite Hs. intros Ht.
  eapply scalar_reads_back; [exact Ht|]. intros acc _. unfold parse_field, parse_url_value.
  rewrite field_of_key_key, bool_decide_true, Hp by done. simpl. rewrite (url_of_string u url) by done. by rewrite <-E.
Qed.

Lemma track_features_reads_back t :
  has (mkSpecView name n) FTrackFeatures = true → field_wf FTrackFeatures n →
  fmt_field rendered (mkSpecView name n) CANONICAL FTrackFeatures = Some (Ok t) → reads_back FTrackFeatures t.
Proof.
  cbn [has fmt_field sv_fields field_wf]. pose proof (Hsame FTrackFeatures ltac:(done)) as E. simpl in E.
  intros [l El]%bool_decide_eq_true Hwf. rewrite El in *. cbn [present].
  rewrite bool_decide_true by done. destruct (invalid_element _ l) eqn:Ei; [done|].
  apply invalid_element_None in Ei as [Hne Hv]. intros Ht.
  eapply scalar_reads_back; [exact Ht|]. intros acc _. unfold parse_field. rewrite field_of_key_key.
  rewrite parse_track_features_join; [simpl; by rewrite <-E|done|].
  specialize (Hwf l eq_refl). rewrite Forall_forall in Hv, Hwf. apply Forall_forall. intros s Hs.
  specialize (Hv s Hs). simpl in Hv. apply orb_false_iff in Hv as [Hv1%bool_decide_eq_false Hv2]. auto.
Qed.

Lemma when_reads_back t :
  has (mkSpecView name n) FWhen = true → allowed options FWhen →
  fmt_field rendered (mkSpecView name n) CANONICAL FWhen = Some (Ok t) → reads_back FWhen t.
Proof.
  cbn [has fmt_field sv_fields allowed]. intros [c Ec]%bool_decide_eq_true Ha. rewrite Ec. cbn [present dc_style CANONICAL].
  intros (s & Hs & [= <-])%outcome_bind_Ok. destruct (Hwhen s Hs) as (c' & Hc' & Hp).
  exists (FScalar c_dquote (escape_bracket_value s)). split; [done|]. split; [split; [done|apply escape_quotable]|].
  intros acc _. unfold parse_field. rewrite field_of_key_key, Ha. cbn [value_raw]. rewrite Hp. simpl. by rewrite Hc'.
Qed.

Lemma field_reads_back f t :
  has (mkSpecView name n) f = true → field_wf f n → allowed options f →
  fmt_field rendered (mkSpecView name n) CANONICAL f = Some (Ok t) → reads_back f t.
Proof.
  intros Hh Hw Ha Ht. destruct f;
    [by apply version_reads_back|by apply build_reads_back|by apply build_number_reads_back| |by apply extras_reads_back
    |by apply flags_reads_back|by apply channel_field_reads_back| | |by apply md5_reads_back|by apply sha256_reads_back
    |by apply url_field_reads_back| | |by apply when_reads_back|by apply track_features_reads_back];
    apply plain_field_reads_back; done || set_solver.
Qed.
End field_roundtrip.
