(* ===== verification/SpecConditions.v ===== *)
(** * Conditions

    The text of a condition is parsed to the condition: the tokens of its leaves, and the
    precedences of [and] and [or] with the parentheses the printer writes. *)
From S2P Require Import Prelude Externs TextOps Utf Redaction FileUrl Channels.
From S2P Require Import VersionRepr VersionOrder VersionOps VersionParse VersionGrammar VersionSpec VersionSpecText.
From S2P Require Import VersionTree BuildSpec PackageName Subdir Archive Records.
From S2P Require Import Matchers MatchSpecs SpecTokens SpecParse SpecFormat SpecScan SpecCanonical.

Local Notation text := (list N).

(** ** What follows an operand *)

Definition operator_words : list text := [txt "and"; txt "or"].
Inductive follower (words : list text) : text → Prop :=
| FollowerEnd : follower words []
| FollowerParen r : follower words (c_rparen :: r)
| FollowerWord w r : w ∈ words → follower words (c_space :: w ++ c_space :: r).

(** The tokeniser of a leaf takes one blank with it. *)
Definition unspace (r : text) : text :=
  match r with c :: r' => if (c =? c_space)%N then r' else r | [] => [] end.
Definition after_operand (r r' : text) : Prop := r' = r ∨ r' = unspace r.

Lemma follower_mono words words' r : words ⊆ words' → follower words r → follower words' r.
Proof. intros Hw []; constructor. by apply Hw. Qed.

Lemma operator_word_spec w : w ∈ operator_words → w = txt "and" ∨ w = txt "or".
Proof. unfold operator_words. set_solver. Qed.

Lemma operator_word_distinct w w' r :
  w ∈ operator_words → w' ∈ operator_words → w ≠ w' → strip w (w' ++ r) = None.
Proof. by intros [->| ->]%operator_word_spec [->| ->]%operator_word_spec. Qed.

Lemma after_operand_length r r' : after_operand r r' → length r' ≤ length r.
Proof. intros [->| ->]; [done|]. destruct r as [|c r]; [done|]. simpl. case_match; simpl; lia. Qed.

Section conditions.
Context `{GL : Glob} `{FR : FancyRegex} `{NM : Nom} `{UN : Unicode}.

Section chain.
Context (n : nat) (word : text) (operator : Condition → Condition → Condition)
  (operand : text → IResult Condition CondError) (words : list text).

(** The parser reads the text, whatever follows it within the bound. *)
Definition reads_as (p : text → IResult Condition CondError) (words : list text) (t : text) (c : Condition) : Prop :=
  ∀ r, follower words r → length (t ++ r) ≤ n → ∃ r', after_operand r r' ∧ p (t ++ r) = Ok (r', c).
Definition item_text (item : text * Condition) : text := c_space :: word ++ c_space :: item.1.
Definition chain_text (first : text) (items : list (text * Condition)) : text := first ++ concat (item_text <$> items).

Context (Hword : word ∈ operator_words) (Hwords : words ⊆ operator_words) (Hother : word ∉ words).
Local Notation step := (preceded (seq2 ws (seq2 (tag word) ws)) operand).

Lemma word_no_space : stops is_multispace word = true ∧ word ≠ [].
Proof. by destruct (operator_word_spec word Hword) as [->| ->]. Qed.

(** The operator and the blanks around it are skipped. *)
Lemma step_word (r t r' : text) : after_operand (c_space :: word ++ c_space :: t) r' → stops is_multispace t = true →
  step r' = operand t.
Proof.
  intros Hr Ht. nom. unfold map_fun, pair_fun. nom. unfold pair_fun, ws. nom. unfold pair_fun. nom.
  destruct word_no_space as [Hw Hne].
  assert ((span is_multispace r').2 = word ++ c_space :: t) as ->.
  { assert (span is_multispace (word ++ c_space :: t) = ([], word ++ c_space :: t)) as E.
    { apply span_stops. destruct word; [done|exact Hw]. }
    destruct Hr as [->| ->]; cbn [span unspace].
    - change (is_multispace c_space) with true. cbv iota. by rewrite E.
    - change (c_space =? c_space)%N with true. cbv iota. by rewrite E. }
  unfold tag_fun. rewrite strip_app. nom. cbn [span]. change (is_multispace c_space) with true. cbv iota.
  rewrite span_stops by done. cbn [fst snd]. by destruct (operand t) as [[? ?]|[?|?]].
Qed.

(** No operand follows the last one. *)
Lemma step_end (r r' : text) : follower words r → after_operand r r' → ∃ e, step r' = Err (NErr e).
Proof.
  intros Hf Hr. nom. unfold map_fun, pair_fun. nom. unfold pair_fun, ws. nom. unfold pair_fun. nom. unfold tag_fun.
  assert (strip word (span is_multispace r').2 = None) as ->; [|by eexists].
  destruct Hf as [|r|w r Hw].
  - assert (r' = []) as -> by by destruct Hr. destruct word_no_space. by destruct word.
  - assert (r' = c_rparen :: r) as -> by by destruct Hr. cbn [span]. change (is_multispace c_rparen) with false. cbv iota.
    cbn [snd]. by destruct (operator_word_spec word Hword) as [->| ->].
  - assert ((span is_multispace r').2 = w ++ c_space :: r) as ->.
    { assert (span is_multispace (w ++ c_space :: r) = ([], w ++ c_space :: r)) as E
        by (apply span_stops; by destruct (operator_word_spec w (Hwords _ Hw)) as [->| ->]).
      destruct Hr as [->| ->]; cbn [span unspace].
      - change (is_multispace c_space) with true. cbv iota. by rewrite E.
      - change (c_space =? c_space)%N with true. cbv iota. by rewrite E. }
    apply operator_word_distinct; [done|by apply Hwords|congruence].
Qed.

Lemma items_cons t c items r :
  concat (item_text <$> (t, c) :: items) ++ r = c_space :: word ++ c_space :: t ++ concat (item_text <$> items) ++ r.
Proof. csimpl. unfold item_text at 1. cbn [fst app]. by rewrite <-!(assoc_L (++)). Qed.

Lemma items_follower items r :
  follower words r → follower (word :: words) (concat (item_text <$> items) ++ r).
Proof.
  intros Hr. destruct items as [|item items]; csimpl.
  - eapply follower_mono; [|exact Hr]. set_solver.
  - change (follower (word :: words) (concat (item_text <$> item :: items) ++ r)). destruct item. rewrite items_cons. constructor. by left.
Qed.

Lemma many0_items items r r' fuel acc :
  Forall (λ item, stops is_multispace item.1 = true ∧ item.1 ≠ [] ∧ reads_as operand (word :: words) item.1 item.2) items →
  follower words r → after_operand (concat (item_text <$> items) ++ r) r' →
  length (concat (item_text <$> items) ++ r) ≤ n → length items < fuel →
  ∃ r'', after_operand r r'' ∧ many0_loop fuel step r' acc = Ok (r'', acc ++ items.*2).
Proof.
  intros Hi. revert r' fuel acc. induction Hi as [|[t c] items (Hs & Hne & Hread) Hi IH]; intros r' fuel acc Hr Ha Hn Hfuel;
    (destruct fuel as [|fuel]; [simpl in Hfuel; lia|]); cbn [many0_loop].
  - destruct (step_end r r' Hr Ha) as [e ->]. exists r'. split; [done|]. by rewrite app_nil_r.
  - rewrite items_cons in Ha, Hn. cbn [fst snd] in *. set (more := concat (item_text <$> items) ++ r) in *.
    rewrite (step_word r (t ++ more) r') by (done || by destruct t).
    assert (length r' ≤ 2 + length word + length (t ++ more) ∧ 1 + length word + length (t ++ more) ≤ length r'
      ∧ 2 + length word + length (t ++ more) ≤ n) as (Hl1 & Hl2 & Hl3).
    { revert Hn. destruct Ha as [->| ->]; cbn [unspace]; try change (c_space =? c_space)%N with true; cbv iota;
        cbn [length]; rewrite !(length_app word); cbn [length]; lia. }
    destruct (Hread more) as (r1 & Hr1 & ->); [by apply items_follower|lia|].
    rewrite decide_False by (apply after_operand_length in Hr1; rewrite (length_app t) in Hl2; lia).
    destruct (IH r1 fuel (acc ++ [c])) as (r2 & Hr2 & E2);
      [done|done|rewrite (length_app t) in Hl3; lia|simpl in Hfuel; lia|].
    exists r2. split; [done|]. rewrite E2. by rewrite <-(assoc_L (++)).
Qed.

(** A chain of operands is read as a tree that leans to the left. *)
Lemma chain_reads first c items :
  reads_as operand (word :: words) first c →
  Forall (λ item, stops is_multispace item.1 = true ∧ item.1 ≠ [] ∧ reads_as operand (word :: words) item.1 item.2) items →
  reads_as (operator_chain word operator operand) words (chain_text first items) (foldl operator c items.*2).
Proof.
  intros Hfirst Hi r Hr Hn. unfold chain_text in *. rewrite <-(assoc_L (++)) in *.
  destruct (Hfirst (concat (item_text <$> items) ++ r)) as (r1 & Hr1 & E); [by apply items_follower|done|].
  unfold operator_chain. rewrite E. nom. unfold many0_fun.
  destruct (many0_items items r r1 (S (length r1)) []) as (r2 & Hr2 & ->); [done|done|done|rewrite length_app in Hn; lia| |by exists r2].
  assert (length (concat (item_text <$> items) ++ r) ≤ S (length r1)) as Hl.
  { destruct Hr1 as [->| ->]; [lia|]. destruct (_ ++ r) as [|x l]; [simpl; lia|]. simpl. case_match; simpl; lia. }
  clear -Hl Hword. rewrite length_app in Hl. enough (2 * length items ≤ length (concat (item_text <$> items))) by (destruct items; simpl in *; lia).
  clear. induction items as [|i items IH]; csimpl; [lia|]. rewrite !length_app. simpl. lia.
Qed.
End chain.

(** ** Leaves *)

(** The token of the leaf ends where the text ends. *)
Record leaf_text (t : text) : Prop := {
  lt_nonempty : t ≠ [];
  lt_tight : tight is_whitespace t;
  lt_paren : head t ≠ Some c_lparen;
  lt_token r : follower operator_words r →
    token_end [] 0 None (t ++ r) = Some (length t + (length r - length (unspace r)))
}.

Lemma multispace_whitespace t : stops is_whitespace t = true → stops is_multispace t = true.
Proof.
  destruct t as [|c t]; [done|]. simpl. intros H. destruct (is_multispace c) eqn:E; [|done].
  exfalso. revert H. unfold is_multispace in E. apply bool_decide_eq_true in E.
  by destruct E as [->|[->|[->| ->]]].
Qed.

Lemma leaf_token t r : leaf_text t → follower operator_words r → matchspec_token (t ++ r) = Ok (unspace r, t).
Proof.
  intros [Hne Ht _ Hend] Hr. unfold matchspec_token. rewrite Hend by done.
  assert (∃ blanks, r = blanks ++ unspace r ∧ forallb is_whitespace blanks = true) as (bl & E & Hb).
  { destruct Hr as [|r|w r _]; [by exists []..|]. by exists [c_space]. }
  set (u := unspace r) in *. clearbody u. subst r.
  assert (length t + (length (bl ++ u) - length u) = length (t ++ bl)) as -> by (rewrite !length_app; lia).
  rewrite (assoc_L (++) t bl u), take_app_length, drop_app_length.
  pose proof (trim_by_around is_whitespace [] t bl eq_refl Hb Ht) as E. cbn [app] in E. unfold trim. rewrite E.
  by rewrite bool_decide_false.
Qed.

Section tree.
Context (leaf : text → ParseMatchSpecOptions → outcome ParseMatchSpecError MatchSpec)
  (options : ParseMatchSpecOptions) (fmt_leaf : MatchSpec → Written) (normal : MatchSpec → MatchSpec).

Local Notation parse f := (or_condition leaf options f).
Local Notation primary f := (primary_condition leaf options (parse f)).

Fixpoint condition_leaves (c : Condition) : list MatchSpec :=
  match c with
  | CondMatchSpec spec => [spec]
  | CondAnd l r | CondOr l r => condition_leaves l ++ condition_leaves r
  end.
Fixpoint map_leaves (c : Condition) : Condition :=
  match c with
  | CondMatchSpec spec => CondMatchSpec (normal spec)
  | CondAnd l r => CondAnd (map_leaves l) (map_leaves r)
  | CondOr l r => CondOr (map_leaves l) (map_leaves r)
  end.

(** The leaf is printed as a token that is parsed to it. *)
Definition leaf_reads (spec : MatchSpec) : Prop :=
  ∀ t, fmt_leaf spec = Some (Ok t) →
    leaf_text t ∧ leaf t (set_conditionals options false) = Some (Ok (normal spec)).

Lemma paren_other p (c : N) t : c ≠ c_lparen →
  ∃ e, parenthesized_condition p (c :: t) = Err (NErr e).
Proof.
  intros Hc. unfold parenthesized_condition. nom. unfold map_fun, pair_fun. nom. unfold pair_fun. nom.
  unfold one_of_fun. rewrite bool_decide_false by set_solver. by eexists.
Qed.

Lemma leaf_primary n f spec t :
  leaf_reads spec → fmt_leaf spec = Some (Ok t) →
  reads_as n (primary f) operator_words t (CondMatchSpec (normal spec)).
Proof.
  intros Hleaf Ht r Hr _. destruct (Hleaf t Ht) as [Htext Hl]. exists (unspace r). split; [by right|].
  unfold primary_condition. nom. unfold alt2_fun.
  pose proof Htext as [Hne _ Hp _]. destruct t as [|c t]; [done|]. cbn [app].
  destruct (paren_other (parse f) c (t ++ r)) as [e ->]; [simpl in Hp; congruence|].
  unfold matchspec. change (c :: t ++ r) with ((c :: t) ++ r). rewrite leaf_token by done. by rewrite Hl.
Qed.

(** A parenthesised condition, from what is between the parentheses *)
Lemma paren_primary f t c :
  stops is_multispace t = true → t ≠ [] → (∀ f', f' < f → reads_as f' (parse (S f')) [] t c) →
  reads_as f (primary f) operator_words (c_lparen :: t ++ [c_rparen]) c.
Proof.
  intros Hs Hne Hp r Hr Hn. exists r. split; [by left|].
  unfold primary_condition. nom. unfold alt2_fun, parenthesized_condition. nom.
  unfold map_fun, pair_fun. nom. unfold pair_fun. nom. cbn [app one_of_fun]. rewrite bool_decide_true by set_solver.
  rewrite <-(assoc_L (++)). cbn [app]. unfold ws. nom.
  rewrite span_stops by by destruct t. cbn [fst snd].
  cbn [app length] in Hn. rewrite <-(assoc_L (++)) in Hn. cbn [app] in Hn. destruct f as [|f]; [lia|].
  destruct (Hp f (Nat.lt_succ_diag_r f) (c_rparen :: r)) as (r' & Hr' & ->); [constructor|lia|].
  assert (r' = c_rparen :: r) as -> by by destruct Hr'.
  nom. unfold pair_fun. nom. cbn [span]. change (is_multispace c_rparen) with false. cbv iota. cbn [fst snd]. nom. cbn [one_of_fun].
  by rewrite bool_decide_true by set_solver.
Qed.

(** The text of a condition does not depend on where it stands, its parentheses apart. *)
Lemma fmt_with_parent_text c p right t :
  fmt_with_parent fmt_leaf c p right = Some (Ok t) →
  ∃ b, fmt_condition fmt_leaf c = Some (Ok b)
    ∧ t = (if needs_parentheses c p right then c_lparen :: b ++ [c_rparen] else b).
Proof.
  intros H. unfold fmt_condition. destruct c; cbn [fmt_with_parent] in *;
    apply outcome_bind_Ok in H as (b & -> & [= <-]); exists b; split; try done; cbn [outcome_bind];
    by destruct (needs_parentheses _ p right).
Qed.

(** Operands with the texts that are printed for them *)
Definition operands_read (f : nat) (p : text → IResult Condition CondError) (words : list text)
    (items : list (text * Condition)) : Prop :=
  Forall (λ item, stops is_multispace item.1 = true ∧ item.1 ≠ [] ∧ reads_as f p words item.1 item.2) items.

(** The text [b] is a chain of operands that is read as [c]. *)
Definition chain_of (f : nat) (word : text) (operator : Condition → Condition → Condition)
    (operand : text → IResult Condition CondError) (words : list text) (b : text) (c : Condition) : Prop :=
  ∃ ft first items, b = chain_text word ft items ∧ c = foldl operator first items.*2
    ∧ reads_as f operand words ft first ∧ operands_read f operand words items.

Lemma chain_one f word operator operand words b c :
  reads_as f operand words b c → chain_of f word operator operand words b c.
Proof. intros H. exists b, c, []. split; [symmetry; apply app_nil_r|]. by repeat split; [..|constructor]. Qed.

Lemma chain_more f word operator operand words b c t d :
  chain_of f word operator operand words b c →
  stops is_multispace t = true → t ≠ [] → reads_as f operand words t d →
  chain_of f word operator operand words (b ++ c_space :: word ++ c_space :: t) (operator c d).
Proof.
  intros (ft & first & items & -> & -> & Hf & Hi) Hs Hne Ht. exists ft, first, (items ++ [(t, d)]).
  split; [|split; [|split; [done|]]].
  - unfold chain_text. rewrite fmap_app, concat_app. csimpl. by rewrite app_nil_r, (assoc_L (++)).
  - by rewrite fmap_app, foldl_app.
  - apply Forall_app. split; [done|]. by repeat constructor.
Qed.

Lemma and_level f b c :
  chain_of f (txt "and") CondAnd (primary f) operator_words b c →
  reads_as f (and_condition leaf options (parse f)) [txt "or"] b c.
Proof.
  intros (ft & first & items & -> & -> & Hf & Hi). unfold and_condition.
  apply chain_reads; [unfold operator_words; set_solver..|vm_compute; set_solver|done|done].
Qed.
Lemma or_level f b c :
  chain_of f (txt "or") CondOr (and_condition leaf options (parse f)) [txt "or"] b c →
  reads_as f (parse (S f)) [] b c.
Proof.
  intros (ft & first & items & -> & -> & Hf & Hi). cbn [or_condition].
  apply chain_reads; [unfold operator_words; set_solver..|set_solver|done|done].
Qed.

Definition is_or (c : Condition) : bool := match c with CondOr _ _ => true | _ => false end.
Definition is_leaf_condition (c : Condition) : bool := match c with CondMatchSpec _ => true | _ => false end.
(** The text of an operand of [and] *)
Definition operand_text (c : Condition) (b : text) : text :=
  if is_leaf_condition c then b else c_lparen :: b ++ [c_rparen].

(** How the text [b] of the condition is read, at each of the three levels *)
Record condition_reads (c : Condition) (b : text) : Prop := {
  cr_head : stops is_multispace b = true;
  cr_nonempty : b ≠ [];
  cr_primary f : reads_as f (primary f) operator_words (operand_text c b) (map_leaves c);
  cr_and f : is_or c = false → chain_of f (txt "and") CondAnd (primary f) operator_words b (map_leaves c);
  cr_or f : chain_of f (txt "or") CondOr (and_condition leaf options (parse f)) [txt "or"] b (map_leaves c)
}.

Lemma operand_head c b : condition_reads c b → stops is_multispace (operand_text c b) = true ∧ operand_text c b ≠ [].
Proof. intros []. unfold operand_text. by destruct (is_leaf_condition c). Qed.

Lemma paren_reads c b : is_leaf_condition c = false →
  stops is_multispace b = true → b ≠ [] →
  (∀ f, chain_of f (txt "or") CondOr (and_condition leaf options (parse f)) [txt "or"] b (map_leaves c)) →
  ∀ f, reads_as f (primary f) operator_words (operand_text c b) (map_leaves c).
Proof.
  intros Hl Hs Hne H f. unfold operand_text. rewrite Hl. apply paren_primary; [done..|]. intros f' _. by apply or_level.
Qed.

Lemma condition_reads_back c b :
  Forall leaf_reads (condition_leaves c) → fmt_condition fmt_leaf c = Some (Ok b) → condition_reads c b.
Proof.
  revert b. induction c as [spec|l IHl r IHr|l IHl r IHr]; intros b Hl Hb; cbn [condition_leaves] in Hl;
    unfold fmt_condition in Hb; cbn [fmt_with_parent] in Hb;
    apply outcome_bind_Ok in Hb as (b' & Hb & [= <-]).
  - apply Forall_cons in Hl as [Hspec _]. destruct (Hspec b' Hb) as [[Hne [Ht _] _ _] _].
    assert (∀ f, reads_as f (primary f) operator_words b' (CondMatchSpec (normal spec))) as Hp by (intros f; by apply leaf_primary).
    split; [by apply multispace_whitespace|done|done|..]; intros f; [intros _|]; apply chain_one; [done|].
    by apply and_level, chain_one.
  - apply Forall_app in Hl as [Hl Hr].
    apply outcome_bind_Ok in Hb as (tl & Htl & Hb). apply outcome_bind_Ok in Hb as (tr & Htr & [= <-]).
    apply fmt_with_parent_text in Htl as (bl & Hbl & ->), Htr as (br & Hbr & ->).
    specialize (IHl bl Hl Hbl). specialize (IHr br Hr Hbr).
    assert ((if needs_parentheses r 2 true then c_lparen :: br ++ [c_rparen] else br) = operand_text r br) as -> by by destruct r.
    destruct (operand_head r br IHr) as [Hrs Hrne].
    change (needs_parentheses (CondAnd l r) 0 false) with false. cbv iota.
    set (t := (if needs_parentheses l 2 false then c_lparen :: bl ++ [c_rparen] else bl) ++ txt " and " ++ operand_text r br).
    assert (∀ f, chain_of f (txt "and") CondAnd (primary f) operator_words t (CondAnd (map_leaves l) (map_leaves r))) as Hand.
    { intros f. subst t. change (txt " and " ++ operand_text r br) with (c_space :: txt "and" ++ c_space :: operand_text r br).
      apply chain_more; [|done|done|apply IHr]. destruct (is_or l) eqn:Eo.
      - apply chain_one. destruct l; try done. apply (cr_primary _ _ IHl).
      - destruct l; try done; by apply (cr_and _ _ IHl). }
    assert (stops is_multispace t = true ∧ t ≠ []) as [Ht Htne].
    { subst t. destruct IHl as [Hs Hne _ _ _]. destruct (needs_parentheses l 2 false); [done|]. by destruct bl. }
    assert (∀ f, chain_of f (txt "or") CondOr (and_condition leaf options (parse f)) [txt "or"] t (map_leaves (CondAnd l r))) as Hor
      by (intros f; by apply chain_one, and_level).
    split; [done|done|by apply paren_reads|by intros f _|done].
  - apply Forall_app in Hl as [Hl Hr].
    apply outcome_bind_Ok in Hb as (tl & Htl & Hb). apply outcome_bind_Ok in Hb as (tr & Htr & [= <-]).
    apply fmt_with_parent_text in Htl as (bl & Hbl & ->), Htr as (br & Hbr & ->).
    specialize (IHl bl Hl Hbl). specialize (IHr br Hr Hbr).
    assert (needs_parentheses l 1 false = false) as -> by by destruct l.
    assert (needs_parentheses r 1 true = is_or r) as -> by by destruct r.
    change (needs_parentheses (CondOr l r) 0 false) with false. cbv iota.
    set (t := bl ++ txt " or " ++ (if is_or r then c_lparen :: br ++ [c_rparen] else br)).
    assert (∀ f, chain_of f (txt "or") CondOr (and_condition leaf options (parse f)) [txt "or"] t (CondOr (map_leaves l) (map_leaves r))) as Hor.
    { intros f. subst t. change (txt " or " ++ ?u) with (c_space :: txt "or" ++ c_space :: u).
      apply chain_more; [apply IHl|..]; destruct (is_or r) eqn:Eo; try done; try apply IHr.
      - destruct r; try done. apply and_level, chain_one, (cr_primary _ _ IHr).
      - by apply and_level, (cr_and _ _ IHr). }
    assert (stops is_multispace t = true ∧ t ≠ []) as [Ht Htne].
    { subst t. destruct IHl as [Hs Hne _ _ _]. by destruct bl. }
    split; [done|done|by apply paren_reads|done|done].
Qed.

(** The whole text of a condition is parsed to it. *)
Lemma condition_roundtrip c b :
  Forall leaf_reads (condition_leaves c) → fmt_condition fmt_leaf c = Some (Ok b) →
  parse_condition_with leaf options b = Ok ([], map_leaves c).
Proof.
  intros Hl Hb. pose proof (cr_or _ _ (condition_reads_back c b Hl Hb) (length b)) as H.
  destruct (or_level _ _ _ H []) as (r & Hr & E); [constructor|by rewrite app_nil_r|].
  rewrite app_nil_r in E. unfold parse_condition_with. rewrite E. by destruct Hr as [->| ->].
Qed.
End tree.
End conditions.
