(* ===== verification/SpecLeaves.v ===== *)
(** * Leaves of conditions

    The token of a leaf ends where the text of the leaf ends, and the compact form of a
    leaf, a name and a version without a blank between them, is parsed to the leaf. *)
From S2P Require Import Prelude Externs TextOps Utf Redaction FileUrl Channels.
From S2P Require Import VersionRepr VersionOrder VersionOps VersionParse VersionGrammar VersionSpec VersionSpecText.
From S2P Require Import VersionTree VersionRecognise BuildSpec PackageName Subdir Archive Records.
From S2P Require Import Matchers MatchSpecs SpecTokens SpecParse SpecFormat SpecScan SpecCanonical SpecConditions.

Local Notation text := (list N).

(** ** Tokens *)
Section tokens.
Context `{UN : Unicode}.

Lemma token_follower seen r : follower operator_words r →
  token_end seen 0 None r = Some (length seen + (length r - length (unspace r))).
Proof.
  intros [|r'|w r' Hw]; [by rewrite Nat.add_0_r| |].
  - cbn [token_end unspace]. change (is_quote c_rparen) with false. cbn [andb].
    change (c_rparen =? c_space)%N with false. cbv iota. rewrite Nat.sub_diag, Nat.add_0_r. done.
  - cbn [unspace]. change (c_space =? c_space)%N with true. cbv iota. cbn [length].
    rewrite Nat.sub_succ_l, Nat.sub_diag, Nat.add_1_r by done.
    cbn [token_end]. change (is_quote c_space) with false. cbn [andb].
    change (c_space =? c_lbracket)%N with false. change (c_space =? c_rbracket)%N with false.
    change ((c_space =? c_lparen)%N || (c_space =? c_rparen)%N) with false. cbn [andb]. cbv iota.
    unfold check_word_delimiter at 1 2. change (strip (txt "and") (c_space :: ?s)) with (@None text).
    change (strip (txt "or") (c_space :: ?s)) with (@None text). cbn [orb andb Nat.eqb]. cbv iota.
    destruct (operator_word_spec w Hw) as [->| ->]; cbn [txt app token_end]; by vm_compute.
Qed.

(** Text without white space goes through the tokeniser behind a character that is no
    delimiter. *)
Lemma token_plain x seen u r :
  is_word_delimiter x = false →
  (∀ c, c ∈ u → is_word_delimiter c = false ∧ c ∉ [c_lbracket; c_rbracket]) →
  token_end (x :: seen) 0 None (u ++ r) = token_end (rev u ++ x :: seen) 0 None r.
Proof.
  revert x seen. induction u as [|c u IH]; intros x seen Hx Hu; [done|].
  destruct (Hu c) as [Hc Hb]; [by left|]. cbn [app token_end rev].
  rewrite andb_false_r, (proj2 (N.eqb_neq c c_lbracket)), (proj2 (N.eqb_neq c c_rbracket)) by set_solver. cbv iota.
  assert ((c =? c_lparen)%N || (c =? c_rparen)%N = false) as ->.
  { unfold is_word_delimiter in Hc. rewrite <-orb_assoc in Hc. by apply orb_false_iff in Hc as [_ ->]. }
  cbn [andb]. cbv iota.
  assert (∀ w, check_word_delimiter (x :: seen) (c :: u ++ r) w = false) as Hw.
  { intros w. unfold check_word_delimiter. destruct (strip w _); [|done]. by rewrite Hx. }
  rewrite !Hw. cbn [orb andb Nat.eqb]. cbv iota. rewrite IH; [|done|intros; apply Hu; by right].
  by rewrite <-(assoc_L (++)).
Qed.

(** The words [and] and [or] in a name that the printer lets stand in a leaf *)
Lemma word_in_name word terminal seen s r :
  word ∈ operator_words → s ≠ [] →
  c_lparen ∉ seen → c_rparen ∉ seen → c_lparen ∉ s → c_rparen ∉ s →
  stops is_ascii_alphabetic r = true → (terminal = false → r ≠ [] ∧ stops is_word_delimiter r = true) →
  has_operator_word word terminal seen s = false →
  check_word_delimiter seen (s ++ r) word = false.
Proof.
  intros Hword Hne Hs1 Hs2 Hl Hr Hr1 Hr2 Hw. unfold check_word_delimiter.
  destruct (strip word (s ++ r)) as [after|] eqn:E; [|done]. apply strip_Some in E.
  assert (∀ c, c ≠ c_lparen → c ≠ c_rparen → is_word_delimiter c = is_whitespace c) as Hd.
  { intros c H1 H2. unfold is_word_delimiter. by rewrite !(proj2 (N.eqb_neq c _)), !orb_false_r. }
  assert (match seen with [] => true | c :: _ => is_word_delimiter c end
    = match seen with [] => true | c :: _ => is_whitespace c end) as ->.
  { destruct seen as [|c seen]; [done|]. apply Hd; set_solver. }
  assert (∃ s', s = word ++ s' ∧ after = s' ++ r) as (s' & -> & ->).
  { apply app_eq_inv in E as [(k & E1 & E2)|(k & E1 & E2)].
    - by exists k.
    - destruct k as [|c k]; [exists []; rewrite app_nil_r in *; by subst|]. exfalso.
      assert (is_ascii_alphabetic c = true) as Hc.
      { assert (c ∈ word) as Hin by (rewrite E1; set_solver). revert Hin.
        destruct (operator_word_spec word Hword) as [->| ->]; cbn [txt]; intros Hin;
          repeat (apply elem_of_cons in Hin as [->|Hin]; [done|]); by apply elem_of_nil in Hin. }
      rewrite E2 in Hr1. simpl in Hr1. by rewrite Hc in Hr1. }
  assert (has_operator_word word terminal seen (word ++ s')
    = (match seen with [] => true | c :: _ => is_whitespace c end
       && match s' with [] => terminal | c :: _ => is_whitespace c end)
      || match word ++ s' with [] => false | c :: s'' => has_operator_word word terminal (c :: seen) s'' end) as E'.
  { destruct (word ++ s') as [|c u] eqn:Ew; [done|]. cbn [has_operator_word]. rewrite <-Ew, strip_app. done. }
  rewrite E' in Hw. apply orb_false_iff in Hw as [Hw _]. destruct (match seen with [] => true | _ => _ end); [|done].
  cbn [andb] in *. destruct s' as [|c s']; cbn [app].
  - destruct (Hr2 Hw) as [Hrne Hrd]. destruct r as [|c r]; [done|]. simpl in Hrd. by apply negb_true_iff.
  - rewrite Hd by set_solver. done.
Qed.

Lemma token_name terminal seen s r :
  forallb is_outside s = true →
  c_lparen ∉ seen → c_rparen ∉ seen → c_lparen ∉ s → c_rparen ∉ s →
  stops is_ascii_alphabetic r = true → (terminal = false → r ≠ [] ∧ stops is_word_delimiter r = true) →
  (∀ w, w ∈ operator_words → has_operator_word w terminal seen s = false) →
  token_end seen 0 None (s ++ r) = token_end (rev s ++ seen) 0 None r.
Proof.
  intros Ho. revert seen. induction s as [|c s IH]; intros seen Hs1 Hs2 Hl Hr Hr1 Hr2 Hw; [done|].
  simpl in Ho. apply andb_true_iff in Ho as [(H1 & H2 & H3 & H4)%outside_spec Ho].
  assert (∀ w, w ∈ operator_words → check_word_delimiter seen (c :: s ++ r) w = false) as Hcheck.
  { intros w Hin. by apply (word_in_name w terminal seen (c :: s) r); [..|apply Hw]. }
  cbn [app token_end rev]. rewrite andb_false_r, !(proj2 (N.eqb_neq c _)) by set_solver. cbn [orb andb]. cbv iota.
  rewrite !Hcheck by (unfold operator_words; set_solver). cbn [orb andb Nat.eqb]. cbv iota.
  rewrite IH; [by rewrite <-(assoc_L (++))|done|set_solver..|done|done|].
  intros w Hin. specialize (Hw w Hin). cbn [has_operator_word] in Hw. by apply orb_false_iff in Hw as [_ Hw].
Qed.

Lemma condition_safe_spec t terminal : name_is_condition_safe t terminal = true →
  c_lparen ∉ t ∧ c_rparen ∉ t ∧ (∀ w, w ∈ operator_words → has_operator_word w terminal [] t = false).
Proof.
  unfold name_is_condition_safe. destruct (contains_any _ t) eqn:E; [done|].
  rewrite contains_any_false in E. intros [Ha%negb_true_iff Ho%negb_true_iff]%andb_true_iff.
  split; [intros Hc; specialize (E _ Hc); set_solver|]. split; [intros Hc; specialize (E _ Hc); set_solver|].
  by intros w [->| ->]%operator_word_spec.
Qed.

(** The token of a name with a section *)
Lemma spec_text_token name vs r :
  forallb is_outside name = true → Forall printed_ok vs → follower operator_words r →
  name_is_condition_safe name (bool_decide (vs = [])) = true →
  token_end [] 0 None (spec_text name vs ++ r)
  = Some (length (spec_text name vs) + (length r - length (unspace r))).
Proof.
  intros Hout Hvs Hr (Hl & Hrp & Hw)%condition_safe_spec. unfold spec_text.
  assert (stops is_ascii_alphabetic r = true) as Hra by by destruct Hr.
  destruct vs as [|v vs].
  { rewrite app_nil_r. rewrite (token_name true) by (done || set_solver).
    rewrite token_follower, app_nil_r, length_rev by done. done. }
  set (fs := v :: vs) in *. unfold section_text. rewrite <-!(assoc_L (++)). cbn [app].
  rewrite (token_name false) by (done || set_solver). rewrite app_nil_r.
  cbn [token_end]. change (is_quote c_lbracket) with false. cbn [andb].
  change (c_lbracket =? c_lbracket)%N with true. cbv iota.
  pose proof (scan_fields (λ seen depth quote rest, token_end seen depth quote rest) (c_lbracket :: rev name) 0 fs
    (c_rbracket :: r) Hvs) as E. cbv beta in E. rewrite E.
  cbn [token_end]. change (is_quote c_rbracket) with false. cbn [andb].
  change (c_rbracket =? c_lbracket)%N with false. change (c_rbracket =? c_rbracket)%N with true. cbv iota.
  change (1 - 1) with 0. rewrite token_follower by done. f_equal.
  cbn [length]. rewrite !length_app, length_rev. cbn [length]. rewrite length_rev, !length_app. cbn [length]. lia.
Qed.
End tokens.

(** ** Versions behind a name *)
Section versions.
Context `{GL : Glob} `{FR : FancyRegex} `{NM : Nom} `{UN : Unicode}.

(** A constraint that is recognised in front of a separator and at the end *)
Record recognised (st : ParseStrictness) (t : text) : Prop := {
  rc_head : ∃ c s, t = c :: s ∧ c ≠ c_lparen ∧ is_multispace c = false;
  rc_read r : constraint_end r → maybe_recognize_lenient_constraint st (t ++ r) = Ok (r, t)
}.

(** [=*], [=1.2] and the like are none of the printed constraints. *)
Lemma special_equality_none c s : (c = c_eq → head s = Some c_eq) →
  ∃ e, parse_special_equality (c :: s) = Err (NErr e).
Proof.
  intros Hc. unfold parse_special_equality. nom. unfold recognize_fun. nom. unfold map_fun, pair_fun. nom. unfold tag_fun.
  change (txt "=") with [c_eq]. cbn [strip]. destruct (N.eqb_spec c_eq c) as [<-|]; [|by eexists].
  destruct s as [|d s]; [by specialize (Hc eq_refl)|]. specialize (Hc eq_refl). injection Hc as ->.
  nom. unfold alt2_fun. nom. unfold map_fun, pair_fun. unfold recognize_version. nom. unfold recognize_fun. nom. unfold pair_fun.
  pose proof (epoch_skip [] (c_eq :: s) eq_refl ltac:(done) eq_refl) as E. cbn [app] in E. rewrite E. nom. unfold pair_fun.
  destruct (component_stops (c_eq :: s) eq_refl) as [e Ee]. unfold recognize_version_components. rewrite Ee. nom.
  unfold tag_fun. change (txt "*") with [c_star]. cbn [strip]. by eexists.
Qed.

Lemma leaf_recognised st s po t :
  is_leaf s = true ∨ s = SAny → spec_canonical s → spec_versions positional_version s → spec_write po s = Some t →
  recognised st t.
Proof.
  intros Hl Hs Hv Ht.
  assert (∃ c s', t = c :: s' ∧ c ≠ c_lparen ∧ is_multispace c = false ∧ (c = c_eq → ∀ r, head (s' ++ r) = Some c_eq))
    as (c & s' & E & Hc & Hcs & Heq).
  { assert (∀ a w, vt_ok a = true → ∃ c s', vt_text a ++ w = c :: s' ∧ c ≠ c_lparen ∧ is_multispace c = false
      ∧ (c = c_eq → ∀ r, head (s' ++ r) = Some c_eq)) as Hplain.
    { intros a w Ha. destruct (vt_text_head a Ha) as (c & s' & E & Hc). destruct (alnum_plain c Hc) as (_ & H1 & _ & H2).
      exists c, (s' ++ w). rewrite E. split; [done|]. split; [set_solver|]. split; [done|]. by intros ->. }
    destruct s as [| |op v|op v|op v|op g]; cbn [spec_canonical spec_versions spec_write] in *; [done| |..|by destruct Hl].
    - injection Ht as <-. by eexists _, _.
    - destruct Hv as (a & Ha & _ & E). rewrite E in Ht. apply (inj Some) in Ht; subst t. by destruct op; eexists _, _.
    - destruct Hs as [Hn _], Hv as (a & Ha & _ & E). rewrite E in Ht. cbn [mbind option_bind] in Ht.
      apply (inj Some) in Ht; subst t. destruct op; [by apply Hplain|by eexists _, _..|done].
    - destruct Hv as (a & Ha & _ & E). rewrite E in Ht. apply (inj Some) in Ht; subst t. by destruct op; eexists _, _. }
  split; [by exists c, s'|]. intros r Hr. pose proof (leaf_constraint s po t r Hl Hs Hv Ht Hr) as Hread.
  destruct st; [|exact Hread]. unfold maybe_recognize_lenient_constraint. nom. unfold alt2_fun. subst t. cbn [app] in *.
  destruct (special_equality_none c (s' ++ r)) as [e ->]; [by intros ->; apply Heq|]. by rewrite Hread.
Qed.

(** Constraints with separators between them *)
Definition flat_text (first : text) (rest : list (N * text)) : text := first ++ concat ((λ x, x.1 :: x.2) <$> rest).
Definition separated_by_op (st : ParseStrictness) (x : N * text) : Prop := x.1 ∈ [c_comma; c_bar] ∧ recognised st x.2.
Definition flat (st : ParseStrictness) (t : text) : Prop :=
  ∃ first rest, t = flat_text first rest ∧ recognised st first ∧ Forall (separated_by_op st) rest.

Lemma flat_one st t : recognised st t → flat st t.
Proof. intros H. exists t, []. unfold flat_text. csimpl. by rewrite app_nil_r. Qed.

Lemma flat_more st a d b : flat st a → d ∈ [c_comma; c_bar] → flat st b → flat st (a ++ d :: b).
Proof.
  intros (f & rest & -> & Hf & Hr) Hd (f' & rest' & -> & Hf' & Hr'). exists f, (rest ++ (d, f') :: rest').
  split; [|split; [done|]].
  - unfold flat_text. rewrite fmap_app, concat_app. csimpl. by rewrite <-!(assoc_L (++)).
  - apply Forall_app. split; [done|]. by constructor.
Qed.

(** The text of a canonical spec, when nothing in it needs a parenthesis *)
Lemma spec_flat st s po t :
  spec_canonical s → spec_versions positional_version s → spec_write po s = Some t → c_lparen ∉ t → flat st t.
Proof.
  revert po t. induction s as [| |op v|op v|op v|op g IH] using spec_induction; intros po t Hs Hv Ht Hp;
    [done|(apply flat_one; eapply leaf_recognised; [|done..]; by auto)..|].
  pose proof (group_canonical op g Hs) as [Hl Hg]. cbn [spec_write] in Ht.
  destruct (group_display op (spec_write (Some op)) true g) as [u|] eqn:Hu; [|done]. cbn [mbind option_bind] in Ht.
  apply (inj Some) in Ht; subst t.
  assert (c_lparen ∉ u) as Hpu by (case_match; [set_solver|done]).
  assert ((if match op with Or => match po with Some And => true | _ => false end | And => false end
           then [c_lparen] ++ u ++ [c_rparen] else u) = u) as -> by (case_match; [set_solver|done]).
  clear Hp. destruct g as [|x g]; [simpl in Hl; lia|]. cbn [group_display] in Hu.
  destruct (spec_write (Some op) x) as [tx|] eqn:Hx; [|done]. cbn [mbind option_bind] in Hu.
  destruct (group_display op (spec_write (Some op)) false g) as [ur|] eqn:Hur; [|done]. apply (inj Some) in Hu; subst u.
  cbn [spec_versions foldr] in Hv. destruct Hv as [Hvx Hv]. apply Forall_cons in IH as [IHx IH].
  apply Forall_cons in Hg as [[_ Hsx] Hg]. cbn [app] in *.
  assert (flat st tx) as Hfx by (apply (IHx (Some op)); [done..|set_solver]).
  clear IHx Hx Hsx Hvx Hl Hs. revert tx ur Hfx Hur Hpu. induction g as [|y g IHg]; intros tx ur Hfx Hur Hpu.
  { injection Hur as <-. by rewrite app_nil_r. }
  cbn [group_display] in Hur. destruct (spec_write (Some op) y) as [ty|] eqn:Hy; [|done]. cbn [mbind option_bind] in Hur.
  destruct (group_display op (spec_write (Some op)) false g) as [ug|] eqn:Hug; [|done]. apply (inj Some) in Hur; subst ur.
  cbn [foldr] in Hv. destruct Hv as [Hvy Hv]. apply Forall_cons in IH as [IHy IH]. apply Forall_cons in Hg as [[_ Hsy] Hg].
  assert (logical_display op = [op_char op]) as E by by destruct op. rewrite E in *. cbn [app] in *.
  assert (tx ++ op_char op :: ty ++ ug = (tx ++ op_char op :: ty) ++ ug) as Eassoc by by rewrite <-(assoc_L (++)).
  rewrite Eassoc in *. apply IHg; [done..| |done|set_solver].
  apply flat_more; [done|destruct op; set_solver|]. apply (IHy (Some op)); [done..|set_solver].
Qed.

Lemma separator_read st d t r : d ∈ [c_comma; c_bar] → recognised st t →
  whitespace_enclosed (one_of [c_comma; c_bar]) (d :: t ++ r) = Ok (t ++ r, d).
Proof.
  intros Hd [(c & s & -> & _ & Hc) _]. apply whitespace_enclosed_tight.
  - apply elem_of_cons in Hd as [->| ->%list_elem_of_singleton]; done.
  - simpl. by rewrite Hc.
  - nom. cbn [one_of_fun]. by rewrite bool_decide_true.
Qed.

Lemma separator_end : whitespace_enclosed (one_of [c_comma; c_bar]) [] = Err (NErr ([], KOneOf)).
Proof. unfold whitespace_enclosed. nom. cbn [span fst snd]. nom. done. Qed.

Lemma constraint_or_group st fuel t r : recognised st t → constraint_end r →
  parse_version_constraint_or_group (S fuel) st (t ++ r) = Ok (r, t).
Proof.
  intros [(c & s & E & Hc & _) Hread] Hr. cbn [parse_version_constraint_or_group]. nom. unfold alt2_fun. nom.
  unfold map_fun, pair_fun. nom. unfold tag_fun. change (txt "(") with [c_lparen].
  assert (strip [c_lparen] (t ++ r) = None) as ->.
  { rewrite E. cbn [app strip]. by rewrite (proj2 (N.eqb_neq c_lparen c)) by done. }
  by rewrite Hread.
Qed.

Lemma items_end rest : Forall (λ x : N * text, x.1 ∈ [c_comma; c_bar]) rest →
  constraint_end (concat ((λ x, x.1 :: x.2) <$> rest)).
Proof. intros H. destruct H as [|x rest Hx _]; [done|]. csimpl. by intros c [= <-]. Qed.

Lemma group_loop st n rest fuel acc :
  Forall (separated_by_op st) rest → length rest < fuel →
  separated_loop fuel (whitespace_enclosed (one_of [c_comma; c_bar])) (parse_version_constraint_or_group (S n) st)
    (concat ((λ x, x.1 :: x.2) <$> rest)) acc = Ok ([], acc ++ rest.*2).
Proof.
  intros H. revert fuel acc. induction H as [|[d t] rest [Hd Ht] H IH]; intros fuel acc Hfuel;
    (destruct fuel as [|fuel]; [simpl in Hfuel; lia|]).
  - csimpl. cbn [concat separated_loop]. rewrite separator_end. by rewrite app_nil_r.
  - set (p := parse_version_constraint_or_group (S n) st) in *. csimpl. cbn [fst snd] in *.
    cbn [concat app separated_loop]. rewrite (separator_read st) by done. unfold p at 1.
    rewrite constraint_or_group; [|done|apply items_end; eapply Forall_impl; [exact H|by intros ? []]].
    destruct Ht as [(c & s & -> & _) _]. rewrite decide_False by (cbn [app length]; rewrite length_app; lia).
    rewrite IH by (simpl in Hfuel; lia). by rewrite <-(assoc_L (++)).
Qed.

(** All of a flat text is recognised. *)
Lemma group_read st t : flat st t → parse_version_group st t = Ok ([], t).
Proof.
  intros (first & rest & -> & Hf & Hr). unfold parse_version_group, recognize_group. nom. unfold recognize_fun. nom.
  unfold separated_list1_fun, flat_text.
  rewrite constraint_or_group; [|done|apply items_end; eapply Forall_impl; [exact Hr|by intros ? []]].
  rewrite group_loop; [|done|].
  - cbn [length]. rewrite Nat.sub_0_r. by rewrite take_ge.
  - clear. induction rest as [|x rest IH]; csimpl; [lia|]. rewrite length_app. lia.
Qed.

Lemma split_version t st : flat st t → existsb is_whitespace t = false →
  split_version_and_build t st = Ok (t, None).
Proof.
  intros Hf Hw. unfold split_version_and_build.
  assert (parse_version_and_build_separator st t = Ok ([], t)) as ->.
  { destruct st; cbn [parse_version_and_build_separator]; nom; unfold map_fun, pair_fun; rewrite group_read by done;
      nom; [|done]. unfold opt_fun. nom. done. }
  cbn [finish]. change (trim []) with (@nil N). rewrite andb_false_r.
  rewrite (tight_trim t) by by apply tight_none. done.
Qed.
(** What the printer lets stand behind a name *)
Lemma constraint_text_spec t : is_constraint_text t = true →
  (∃ c s, t = c :: s ∧ c ∈ [c_gt; c_lt; c_eq; c_bang; c_tilde])
  ∧ existsb is_whitespace t = false
  ∧ ∀ c, c ∈ t → c ∉ [c_colon; c_hash; c_semi; c_lbracket; c_rbracket; c_lparen; c_rparen].
Proof.
  unfold is_constraint_text, is_safe_positional_value.
  intros [[Hh [Hw%negb_true_iff Hs%negb_true_iff]%andb_true_iff]%andb_true_iff Hp%negb_true_iff]%andb_true_iff.
  rewrite contains_any_false in Hs, Hp. split; [|split; [done|]].
  - destruct t as [|c s]; [done|]. exists c, s. split; [done|]. by apply bool_decide_eq_true in Hh.
  - intros c Hc. specialize (Hs c Hc). specialize (Hp c Hc). set_solver.
Qed.

(** A version in its printed form is read back as the version, without a build. *)
Lemma compact_version v t st :
  spec_canonical v → spec_versions positional_version v → spec_display v = Some t → is_constraint_text t = true →
  parse_version_and_build t st = Some (Ok (Some v, None)).
Proof.
  intros Hc Hv Ht (Hh & Hw & Hs)%constraint_text_spec. unfold parse_version_and_build.
  rewrite bool_decide_false by (intros Hb; specialize (Hs _ Hb); set_solver).
  rewrite split_version; [|by eapply spec_flat; [..|intros Hb; specialize (Hs _ Hb); set_solver]|done].
  cbn [outcome_bind]. rewrite Hw. destruct (spec_display_parse st v Hc) as (t' & Ht' & E).
  assert (t' = t) as -> by congruence. unfold optionally_strip_equals.
  destruct (strip_prefix_char c_eq t) as [w|] eqn:Ew; [|by rewrite E].
  apply strip_prefix_char_Some in Ew. destruct st; [|rewrite bool_decide_false by done; cbn [negb]; by rewrite E].
  rewrite bool_decide_true by done. cbn [negb].
  destruct (spec_display_parse_bare v t Hc Ht) as (u & Eu & Hu); [by rewrite Ew|].
  assert (w = c_eq :: u) as -> by (change (txt "==") with [c_eq; c_eq] in Eu; cbn [app] in Eu; congruence).
  rewrite (strip_prefix_char_cons c_eq u). cbv iota. by rewrite Hu.
Qed.
End versions.

(** The token of a name with a version behind it *)
Lemma compact_token `{UN : Unicode} name vt r :
  name ≠ [] → existsb is_whitespace name = false → forallb is_outside name = true →
  is_constraint_text vt = true → follower operator_words r → name_is_condition_safe name false = true →
  token_end [] 0 None ((name ++ vt) ++ r) = Some (length (name ++ vt) + (length r - length (unspace r))).
Proof.
  intros Hne Hws Hout ((c & s & E & Hc) & Hw & Hs)%constraint_text_spec Hr (Hl & Hrp & Ho)%condition_safe_spec.
  rewrite <-(assoc_L (++)).
  assert (stops is_ascii_alphabetic (vt ++ r) = true ∧ stops is_word_delimiter (vt ++ r) = true) as [Ha Hd].
  { rewrite E. cbn [app stops]. revert Hc. rewrite !elem_of_cons. intros [->|[->|[->|[->|[->|[]%elem_of_nil]]]]]; done. }
  rewrite (token_name false) by (done || set_solver || (intros _; split; [by rewrite E|done])).
  rewrite app_nil_r. destruct (rev name) as [|x seen] eqn:En.
  { apply (f_equal (@rev N)) in En. rewrite rev_involutive in En. done. }
  assert (x ∈ name) as Hx by (apply list_elem_of_In, in_rev; rewrite En; by left).
  assert (∀ c, c ∉ [c_lparen; c_rparen] → is_whitespace c = false → is_word_delimiter c = false) as Hdel.
  { intros d Hd1 Hd2. unfold is_word_delimiter. rewrite Hd2. by rewrite !(proj2 (N.eqb_neq d _)) by set_solver. }
  rewrite existsb_false in Hws, Hw. rewrite token_plain.
  - rewrite token_follower by done. rewrite length_app, length_rev, <-En, length_rev, length_app. do 2 f_equal. lia.
  - apply Hdel; [|by apply Hws]. intros [->|[->|[]%elem_of_nil]%elem_of_cons]%elem_of_cons; done.
  - intros d Hd'. specialize (Hs d Hd'). split; [apply Hdel; [set_solver|by apply Hw]|set_solver].
Qed.
