(* ===== verification/SpecRoundtrip.v ===== *)
(** * The canonical form of a match spec

    What [to_canonical_string] writes is parsed to the spec it was given, the name in its
    normalised form: first the name and the section as a whole, for any parser of
    conditions, then the specs without a condition. *)
From S2P Require Import Prelude Externs TextOps Utf Redaction FileUrl Channels.
From S2P Require Import VersionRepr VersionOrder VersionOps VersionParse VersionGrammar VersionSpec VersionSpecText.
From S2P Require Import VersionTree BuildSpec PackageName Subdir Archive Records.
From S2P Require Import SpecTheorems Matchers MatchSpecs SpecTokens SpecParse SpecFormat SpecScan SpecCanonical.
From S2P Require Import ChannelText VersionRecognise SpecConditions SpecLeaves.

Local Notation text := (list N).

Section roundtrip.
Context `{GL : Glob} `{FR : FancyRegex} `{NM : Nom} `{UN : Unicode} `{HX : Hex}.
Context `{UC : UrlCrate} `{UP : !UrlPaths} `{TP : TypedPaths} `{PE : PercentEncoding} `{FU : !FileUrls}
  `{EV : ProcessEnv}.

(** ** Sections *)
Section section.
Context (parse_condition : text → ParseMatchSpecOptions → IResult Condition CondError)
  (rendered : DisplayStyle → Written) (options : ParseMatchSpecOptions) (n n' : NamelessMatchSpec)
  (name : option PackageNameMatcher).
Context (Hsame : ∀ f, f ≠ FWhen → agree f n n')
  (Hwhen : ∀ t, rendered Canonical = Some (Ok t) → ∃ c, ns_condition n' = Some c
     ∧ parse_when parse_condition (escape_bracket_value t) options = Some (Ok c)).

Local Notation view := (mkSpecView name n).
Local Notation present_fields l := (filter (λ f, has view f = true) l).

(** The values [vs] are printed for the fields [l] and read back one by one. *)
Definition values_read_back (l : list Field) (vs : list (text * FieldValue)) : Prop :=
  Forall2 (λ f v, v.1 = field_key f ∧ value_ok v.2 ∧ ∀ acc, agree f acc nameless_default →
    parse_field parse_condition v.1 (value_raw v.2) options acc = Some (Ok (copy_field f n' acc))) l vs.

Lemma parse_fields_read_back l vs acc :
  values_read_back l vs → NoDup l → (∀ f, f ∈ l → agree f acc nameless_default) →
  parse_fields parse_condition (raw_field <$> vs) options acc = Some (Ok (copy_fields l n' acc)).
Proof.
  intros H. revert acc. induction H as [|f v l vs (Hk & _ & Hp) H IH]; intros acc [Hf Hl]%NoDup_cons Hacc || intros acc Hl Hacc; [done|].
  csimpl. destruct v as [key v]. unfold raw_field at 1. cbn [parse_fields fst snd] in *.
  rewrite Hp by (apply Hacc; by left). cbn [outcome_bind]. apply IH; [done|].
  intros g Hg. eapply agree_trans; [apply agree_sym, (agree_other f); by intros ->|]. apply Hacc. by right.
Qed.

Lemma fmt_fields_text l first t :
  (∀ f, f ∈ l → field_wf f n) → (∀ f, f ∈ l → allowed options f) →
  fmt_fields rendered view CANONICAL placement_default first l = Some (Ok t) →
  ∃ vs, values_read_back (present_fields l) vs ∧
    t = (match vs with
         | [] => if first then [] else [c_rbracket]
         | v :: vs' => (if first then [c_lbracket] else [c_comma]) ++ join [c_comma] (field_text <$> vs) ++ [c_rbracket]
         end).
Proof.
  revert first t. induction l as [|f l IH]; intros first t Hw Ha; cbn [fmt_fields].
  { intros [= <-]. exists []. by split; [constructor|]. }
  assert (is_positional placement_default f = false) as -> by by destruct f.
  rewrite orb_false_r. destruct (has view f) eqn:Hh; cbn [negb].
  - rewrite filter_cons_True by done. intros (tf & Htf & Ht)%outcome_bind_Ok.
    apply outcome_bind_Ok in Ht as (rest & Hrest & [= <-]).
    destruct (field_reads_back parse_condition rendered options n n' name Hsame Hwhen f tf) as (v & -> & Hv & Hp);
      [done|apply Hw; by left|apply Ha; by left|done|].
    destruct (IH false rest) as (vs & Hvs & ->); [intros; apply Hw; by right|intros; apply Ha; by right|done|].
    exists ((field_key f, v) :: vs). split; [by constructor|]. csimpl.
    destruct vs as [|w vs]; csimpl; [done|]. by rewrite <-!(assoc_L (++)).
  - rewrite filter_cons_False by congruence. apply IH; [intros; apply Hw; by right|intros; apply Ha; by right].
Qed.

Lemma values_printed l vs : values_read_back l vs → Forall printed_ok vs.
Proof.
  induction 1 as [|f [k v] l vs (Hk & Hv & _) H IH]; [done|]. constructor; [|done].
  simpl in *. subst k. split; [apply field_key_ok|done].
Qed.

Lemma values_keys l vs : values_read_back l vs → (raw_field <$> vs).*1 = field_key <$> l.
Proof. induction 1 as [|f [k v] l vs (Hk & _) H IH]; [done|]. csimpl. simpl in Hk. by rewrite IH, Hk. Qed.

#[local] Instance field_key_inj : Inj (=) (=) field_key.
Proof. intros f g H. pose proof (field_of_key_key f) as Hf. rewrite H, field_of_key_key in Hf. by injection Hf. Qed.

Lemma duplicate_key_none seen bracket :
  NoDup (bracket.*1) → (∀ k, k ∈ bracket.*1 → k ∉ seen) → duplicate_key seen bracket = None.
Proof.
  revert seen. induction bracket as [|[k v] bracket IH]; intros seen; [done|]. csimpl. intros [Hk Hn]%NoDup_cons Hs.
  rewrite bool_decide_false by (apply Hs; by left). apply IH; [done|].
  intros k' Hk' [Hin| ->%list_elem_of_singleton]%elem_of_app; [|done]. apply (Hs k'); [by right|done].
Qed.

(** The section of the spec is parsed to the spec. *)
Lemma section_roundtrip t :
  (∀ f, field_wf f n) → (∀ f, has view f = true → allowed options f) → (is_Some (ns_condition n') ↔ is_Some (ns_condition n)) →
  fmt_fields rendered view CANONICAL placement_default true CANONICAL_BRACKET_FIELDS = Some (Ok t) →
  ∃ vs, t = match vs with [] => [] | _ => section_text vs end ∧ Forall printed_ok vs
    ∧ bool_decide (vs = []) = negb (existsb (has view) CANONICAL_BRACKET_FIELDS)
    ∧ parse_bracket_vec_into_components parse_condition (raw_field <$> vs) nameless_default options = Some (Ok n').
Proof.
  intros Hw Ha Hcond Ht.
  assert (∀ l first, fmt_fields rendered view CANONICAL placement_default first l
    = fmt_fields rendered view CANONICAL placement_default first (present_fields l)) as Hfilter.
  { clear. induction l as [|f l IH]; intros first; [done|]. cbn [fmt_fields].
    destruct (has view f) eqn:Hh; [rewrite filter_cons_True by done|rewrite filter_cons_False by congruence].
    - cbn [fmt_fields]. rewrite Hh. destruct (negb true || _); [apply IH|]. by rewrite IH.
    - apply IH. }
  rewrite Hfilter in Ht. apply fmt_fields_text in Ht as (vs & Hvs & ->); [|intros; apply Hw|].
  2: { intros f [Hf _]%list_elem_of_filter. by apply Ha. }
  assert (present_fields (present_fields CANONICAL_BRACKET_FIELDS) = present_fields CANONICAL_BRACKET_FIELDS) as E.
  { apply filter_all. intros f Hf. by apply list_elem_of_filter in Hf as [? _]. }
  rewrite E in Hvs. exists vs. split; [by destruct vs|]. split; [by eapply values_printed|]. split.
  { destruct (existsb (has view) CANONICAL_BRACKET_FIELDS) eqn:Hex.
    - apply existsb_exists in Hex as (f & Hf%list_elem_of_In & Hh). apply bool_decide_false. intros ->.
      inversion Hvs as [Hnil|]. assert (f ∈ present_fields CANONICAL_BRACKET_FIELDS) as Hin by by apply list_elem_of_filter.
      rewrite <-Hnil in Hin. by apply elem_of_nil in Hin.
    - rewrite existsb_false in Hex. rewrite filter_none in Hvs; [by inversion Hvs|]. intros f Hf. by rewrite Hex. }
  assert (NoDup (present_fields CANONICAL_BRACKET_FIELDS)) as Hn.
  { apply NoDup_filter. apply (bool_decide_unpack _). by vm_compute. }
  unfold parse_bracket_vec_into_components. rewrite duplicate_key_none.
  - assert ((if bool_decide (strictness options = Strict) then None else None) = @None text) as -> by by case_bool_decide.
    rewrite (parse_fields_read_back (present_fields CANONICAL_BRACKET_FIELDS)); [|done|done|intros; apply agree_refl].
    do 2 f_equal. rewrite <-(copy_present_fields name n') at 2. f_equal. apply list_filter_iff. intros f.
    destruct (decide (f = FWhen)) as [->|Hf]; [simpl; by rewrite !bool_decide_eq_true, Hcond|].
    specialize (Hsame f Hf). destruct f; simpl in *; by rewrite ?Hsame.
  - rewrite (values_keys _ _ Hvs). by apply (NoDup_fmap_2 field_key).
  - intros k _. apply not_elem_of_nil.
Qed.
End section.

(** ** Names *)

Definition normal_name (name : PackageNameMatcher) : PackageNameMatcher :=
  match name with NExact n => NExact (package_name_new_unchecked (as_normalized n)) | _ => name end.

(** The name is not empty, and what it compiles to is what its text compiles to.  A glob has
    no character that starts a version and is no path. *)
Definition name_wf (options : ParseMatchSpecOptions) (name : PackageNameMatcher) : Prop :=
  match name with
  | NExact n => as_normalized n ≠ [] ∧ forallb is_name_char (as_normalized n) = true
      ∧ existsb is_ascii_uppercase (as_normalized n) = false
  | NGlob p => pattern_new (pattern_as_str p) = Some p ∧ exact_names_only options = false
      ∧ existsb is_start_of_version_constraint (pattern_as_str p) = false
      ∧ is_absolute_path (pattern_as_str p) = false
  | NRegex r => regex_new (regex_as_str r) = Some r ∧ exact_names_only options = false
  end.

(** A text that the stages before the name leave alone *)
Record name_text (t : text) : Prop := {
  nt_nonempty : t ≠ [];
  nt_tight : tight is_whitespace t;
  nt_outside : forallb is_outside t = true;
  nt_colon : c_colon ∉ t;
  nt_absolute : is_absolute_path t = false
}.

Lemma name_char_spec c : is_name_char c = true →
  is_whitespace c = false ∧ is_start_of_version_constraint c = false ∧ is_outside c = true
  ∧ c ∉ [c_colon; c_slash; c_backslash; c_caret; c_star].
Proof.
  intros H. assert (c < 128)%N as Hc.
  { unfold is_name_char, is_ascii_lowercase, is_ascii_uppercase, is_ascii_digit in H.
    apply orb_true_iff in H as [[[?|?]%orb_true_iff|?]%orb_true_iff|H%bool_decide_eq_true]; bool_hyps; [lia..|].
    repeat (apply elem_of_cons in H as [->|H]; [lia|]). by apply elem_of_nil in H. }
  exhaust 128%N (λ c, implb (is_name_char c)
    (negb (is_whitespace c) && negb (is_start_of_version_constraint c) && is_outside c
     && bool_decide (c ∉ [c_colon; c_slash; c_backslash; c_caret; c_star]))) c E.
  rewrite H in E. simpl in E.
  apply andb_true_iff in E as [[[?%negb_true_iff ?%negb_true_iff]%andb_true_iff ?]%andb_true_iff ?%bool_decide_eq_true].
  done.
Qed.

Lemma not_absolute t :
  (∀ c, c ∈ t → c ∉ [c_colon; c_slash; c_backslash]) → is_absolute_path t = false.
Proof.
  intros H. unfold is_absolute_path, str_contains, str_starts_with.
  rewrite (split_at_None _ t c_colon) by (vm_compute; set_solver || (intros Hc; specialize (H _ Hc); set_solver)).
  rewrite bool_decide_false by (by intros [? ?]). cbn [orb].
  destruct t as [|c t]; [done|]. change (txt "/") with [c_slash]. cbn [strip].
  pose proof (H c ltac:(by left)) as Hc. rewrite !(proj2 (N.eqb_neq _ c)) by set_solver.
  rewrite !bool_decide_false by (by intros [? ?]). cbn [orb]. unfold has_drive_letter.
  destruct t as [|d [|e t]]; [done..|]. pose proof (H d ltac:(set_solver)) as Hd.
  by rewrite (proj2 (N.eqb_neq d c_colon)) by set_solver.
Qed.

Lemma forallb_elem (p : N → bool) s c : forallb p s = true → c ∈ s → p c = true.
Proof. rewrite forallb_forall. intros H Hc. by apply H, list_elem_of_In. Qed.

Lemma exact_name_text t : t ≠ [] → forallb is_name_char t = true → name_text t.
Proof.
  intros Hne Ht. split; [done|..].
  - apply tight_none, existsb_false. intros c Hc. by destruct (name_char_spec c (forallb_elem _ _ _ Ht Hc)).
  - apply forallb_forall. intros c Hc%list_elem_of_In. by destruct (name_char_spec c (forallb_elem _ _ _ Ht Hc)) as (_ & _ & ? & _).
  - intros Hc. destruct (name_char_spec _ (forallb_elem _ _ _ Ht Hc)) as (_ & _ & _ & H). set_solver.
  - apply not_absolute. intros c Hc. destruct (name_char_spec _ (forallb_elem _ _ _ Ht Hc)) as (_ & _ & _ & H). set_solver.
Qed.

Lemma contains_outside t :
  contains_any [c_colon; c_hash; c_semi; c_lbracket; c_rbracket] t = false →
  forallb is_outside t = true ∧ c_colon ∉ t.
Proof.
  rewrite contains_any_false. intros H. split; [|intros Hc; specialize (H _ Hc); set_solver].
  apply forallb_forall. intros c Hc%list_elem_of_In. specialize (H c Hc). unfold is_outside.
  apply negb_true_iff, bool_decide_eq_false. set_solver.
Qed.

Lemma anchored_spec t : is_anchored t = true → ∃ s, t = c_caret :: s ++ [c_dollar].
Proof.
  unfold is_anchored. intros [H1%bool_decide_eq_true H2%bool_decide_eq_true]%andb_true_iff.
  destruct t as [|c t]; [done|]. injection H1 as ->. apply last_Some in H2 as [s E].
  destruct s as [|d s]; [done|]. injection E as <- ->. by exists s.
Qed.

Lemma canonical_name_text options name :
  name_wf options name → name_matcher_is_canonical name = true → name_text (name_matcher_display name).
Proof.
  destruct name as [m|p|r]; cbn [name_wf name_matcher_is_canonical name_matcher_display].
  - intros (Hne & Hc & _) _. by apply exact_name_text.
  - intros (_ & _ & _ & Habs) [[Hs%bool_decide_eq_true _]%andb_true_iff Hp]%andb_true_iff.
    unfold is_safe_positional_value in Hp. apply andb_true_iff in Hp as [Hw%negb_true_iff [Ho Hcolon]%negb_true_iff%contains_outside].
    split; [by intros E; rewrite E in Hs; apply elem_of_nil in Hs|by apply tight_none|done..].
  - intros _ [[Ha [Ho Hcolon]%negb_true_iff%contains_outside]%andb_true_iff _]%andb_true_iff.
    rewrite classifies_as_regex_anchored in Ha. apply anchored_spec in Ha as [s E]. rewrite E in *. split; [done| |done..|].
    + split; [done|]. simpl. by rewrite rev_app_distr.
    + unfold is_absolute_path, str_contains, str_starts_with.
      rewrite (split_at_None _ _ c_colon) by (done || vm_compute; set_solver).
      rewrite bool_decide_false by (by intros [? ?]). cbn [strip txt orb].
      rewrite !bool_decide_false by (by intros [? ?]). cbn [orb]. unfold has_drive_letter.
      destruct s as [|d [|e s]]; cbn [app]; [done|..]; by rewrite andb_false_r.
Qed.

Lemma parse_url_like_name t : name_text t → parse_url_like t = Ok None.
Proof.
  intros [_ _ _ Hc Ha]. unfold parse_url_like, parse_scheme, str_contains.
  rewrite (split_at_None (txt "::") t c_colon), (split_at_None (txt "://") t c_colon) by (done || vm_compute; set_solver).
  rewrite !bool_decide_false by (by intros [? ?]). by rewrite Ha.
Qed.

Lemma split_colons_name t : c_colon ∉ t → split_colons t = (t, None, None).
Proof. intros H. unfold split_colons. cbn [rsplitn]. by rewrite (proj2 (rsplit_once_None _ _) H). Qed.

(** *** The name is stripped *)

Lemma strip_plain_name_front t r exact m :
  t ≠ [] → existsb is_name_end t = false → stops (λ c, negb (is_name_end c)) r = true →
  name_matcher_from_str t = Ok m →
  match m with NExact _ => True | _ => exact = false end → strip_plain_name (t ++ r) exact = Ok (m, trim r).
Proof.
  intros Hne Hn Hr Hm He. unfold strip_plain_name. nom. unfold span1_fun. rewrite existsb_false in Hn.
  assert (∀ c, negb (is_whitespace c) && negb (is_start_of_version_constraint c) = negb (is_name_end c)) as Hp
    by (intros c; unfold is_name_end; by rewrite negb_orb).
  assert (span (λ c, negb (is_whitespace c) && negb (is_start_of_version_constraint c)) (t ++ r) = (t, r)) as ->.
  { apply span_app.
    - apply forallb_forall. intros c Hc%list_elem_of_In. rewrite Hp. by rewrite (Hn c Hc).
    - destruct r as [|c r]; [done|]. cbn [stops] in *. by rewrite Hp. }
  destruct t as [|c t]; [done|]. cbn [finish].
  assert (trim (c :: t) = c :: t) as ->.
  { apply tight_trim, tight_none, existsb_false. intros d Hd. specialize (Hn d Hd).
    unfold is_name_end in Hn. by apply orb_false_iff in Hn as [-> _]. }
  rewrite bool_decide_false by done. rewrite Hm. destruct m; [done|by rewrite He..].
Qed.

Lemma strip_plain_name_whole t exact m :
  t ≠ [] → existsb is_name_end t = false → name_matcher_from_str t = Ok m →
  match m with NExact _ => True | _ => exact = false end → strip_plain_name t exact = Ok (m, []).
Proof. intros. rewrite <-(app_nil_r t) at 1. by rewrite (strip_plain_name_front t [] exact m). Qed.

Lemma regex_name_end_spec t i :
  match regex_name_end i t with
  | Some j => ∃ a b, t = a ++ c_dollar :: b ∧ j = i + length a ∧ match b with [] => True | c :: _ => is_name_end c = true end
  | None => last t ≠ Some c_dollar
  end.
Proof.
  revert i. induction t as [|c t IH]; intros i; [done|]. cbn [regex_name_end].
  destruct (N.eqb_spec c c_dollar) as [->|Hc]; cbn [andb].
  - destruct (match t with [] => true | next :: _ => is_name_end next end) eqn:E.
    { exists [], t. split; [done|]. split; [simpl; lia|]. by destruct t. }
    specialize (IH (S i)). destruct (regex_name_end (S i) t) as [j|].
    + destruct IH as (a & b & -> & -> & Hb). exists (c_dollar :: a), b. split; [done|]. split; [simpl; lia|done].
    + by destruct t.
  - specialize (IH (S i)). destruct (regex_name_end (S i) t) as [j|].
    + destruct IH as (a & b & -> & -> & Hb). exists (c :: a), b. split; [done|]. split; [simpl; lia|done].
    + destruct t; [naive_solver|done].
Qed.

Lemma head_is_eq d t : head_is (λ c, c =? d)%N t = bool_decide (head t = Some d).
Proof.
  destruct t as [|c t]; [done|]. simpl. destruct (N.eqb_spec c d) as [->|];
    [by rewrite bool_decide_true|by rewrite bool_decide_false by congruence].
Qed.

(** The name of an exact matcher, with a constraint behind it or not *)
Lemma strip_exact_name options m r :
  name_wf options (NExact m) → tight is_whitespace (as_normalized m ++ r) → stops (λ c, negb (is_name_end c)) r = true →
  strip_package_name (as_normalized m ++ r) (exact_names_only options) = Ok (normal_name (NExact m), trim r).
Proof.
  intros (Hne & Hch & Hup) Ht Hr. unfold strip_package_name. rewrite tight_trim by done. set (t := as_normalized m) in *.
  assert (∀ c, c ∈ t → c ∉ [c_colon; c_slash; c_backslash; c_caret; c_star]) as Hno
    by (intros c Hin; by apply name_char_spec, (forallb_elem _ _ _ Hch)).
  assert (∀ u, head (t ++ u) ≠ Some c_caret) as Hcaret.
  { intros u E. destruct t as [|c t']; [done|]. injection E as ->. specialize (Hno c_caret ltac:(by left)). set_solver. }
  rewrite head_is_eq, bool_decide_false by done.
  apply (strip_plain_name_front t r _ (NExact (mkPackageName None t))); [done| |done| |done].
  - apply existsb_false. intros c Hin. unfold is_name_end.
    by destruct (name_char_spec c (forallb_elem _ _ _ Hch Hin)) as (-> & -> & _).
  - unfold name_matcher_from_str, is_anchored. specialize (Hcaret []). rewrite app_nil_r in Hcaret.
    rewrite (bool_decide_false (head t = _)) by done. cbn [andb].
    rewrite bool_decide_false by (intros Hin; specialize (Hno _ Hin); set_solver).
    unfold package_name_try_from. by rewrite Hch, Hup.
Qed.

Lemma strip_package_name_canonical options name :
  name_wf options name → name_matcher_is_canonical name = true →
  strip_package_name (name_matcher_display name) (exact_names_only options) = Ok (normal_name name, []).
Proof.
  intros Hw Hc. pose proof (canonical_name_text options name Hw Hc) as [Hne Ht _ _ _].
  destruct name as [m|p|r]; cbn [name_matcher_display] in *.
  { rewrite <-(app_nil_r (as_normalized m)) in Ht |- * at 1. by apply (strip_exact_name options m []). }
  all: unfold strip_package_name; rewrite tight_trim by done; cbn [name_wf name_matcher_is_canonical] in *.
  - destruct Hw as (Hp & He & Hcons & _). set (t := pattern_as_str p) in *.
    apply andb_true_iff in Hc as [[Hs%bool_decide_eq_true Ha%negb_true_iff]%andb_true_iff Hsafe].
    rewrite classifies_as_regex_anchored in Ha. apply andb_true_iff in Hsafe as [Hws%negb_true_iff _].
    assert (existsb is_name_end t = false) as Hend.
    { apply existsb_false. intros c Hin. rewrite existsb_false in Hws, Hcons. unfold is_name_end. by rewrite Hws, Hcons. }
    assert ((if head_is (λ c, c =? c_caret)%N t then regex_name_end 0 t else None) = None) as ->.
    { rewrite head_is_eq. case_bool_decide as Hhead; [|done]. pose proof (regex_name_end_spec t 0) as H.
      destruct (regex_name_end 0 t) as [j|]; [|done]. destruct H as (a & b & E & _ & Hb). exfalso.
      destruct b as [|d b].
      - unfold is_anchored in Ha. rewrite bool_decide_true in Ha by done. cbn [andb] in Ha.
        apply bool_decide_eq_false in Ha. apply Ha. rewrite E. by rewrite last_snoc.
      - rewrite existsb_false in Hend. rewrite Hend in Hb; [done|]. rewrite E. set_solver. }
    apply strip_plain_name_whole; [done|done| |done].
    unfold name_matcher_from_str. by rewrite Ha, bool_decide_true, Hp by done.
  - destruct Hw as (Hr & He). set (t := regex_as_str r) in *.
    apply andb_true_iff in Hc as [[Ha _]%andb_true_iff Hd%negb_true_iff%bool_decide_eq_false].
    rewrite classifies_as_regex_anchored in Ha. pose proof Ha as Ha'. apply anchored_spec in Ha' as [s E].
    assert (head_is (λ c, c =? c_caret)%N t = true) as -> by by rewrite E.
    pose proof (regex_name_end_spec t 0) as H. destruct (regex_name_end 0 t) as [j|].
    2: { exfalso. apply H. rewrite E. change (c_caret :: s ++ [c_dollar]) with ((c_caret :: s) ++ [c_dollar]). by rewrite last_snoc. }
    destruct H as (a & b & Eb & -> & _).
    assert (b = []) as ->.
    { destruct b as [|d b]; [done|]. exfalso. apply Hd. rewrite Eb, length_app. simpl.
      rewrite take_app_ge by lia. replace (length a + S (S (length b)) - 1 - length a) with (S (length b)) by lia.
      rewrite firstn_cons. set_solver. }
    rewrite take_ge by (rewrite Eb, length_app; simpl; lia). rewrite drop_ge by (rewrite Eb, length_app; simpl; lia).
    unfold name_matcher_from_str. rewrite Ha, Hr, He. done.
Qed.

(** ** The whole text *)

(** What a section of printed fields puts after a name keeps the text tight. *)
Lemma spec_text_tight name vs : name_text name → tight is_whitespace (spec_text name vs).
Proof.
  intros [Hne [H1 H2] _ _ _]. unfold spec_text. destruct vs as [|v vs]; [by rewrite app_nil_r|].
  split; [by destruct name|]. unfold section_text. by rewrite !(assoc_L (++)), rev_app_distr.
Qed.

(** The text of a name and of printed fields, given what the fields are read as *)
Lemma spec_text_parses parse_condition options name vs n :
  name_wf options name → name_matcher_is_canonical name = true → Forall printed_ok vs →
  parse_bracket_vec_into_components parse_condition (raw_field <$> vs) nameless_default options = Some (Ok n) →
  matchspec_parser_with parse_condition (spec_text (name_matcher_display name) vs) options
    = Some (Ok (from_nameless n (normal_name name))).
Proof.
  intros Hw Hc Hvs Hp. pose proof (canonical_name_text _ _ Hw Hc) as Ht. pose proof Ht as [_ _ Hout Hcolon _].
  pose proof (spec_text_tight _ vs Ht) as Htight.
  unfold matchspec_parser_with. rewrite strip_comment_spec_text, reject_deprecated_spec_text by done. cbn [outcome_bind].
  rewrite !(tight_trim _ Htight), strip_brackets_spec_text by done. cbn [outcome_bind]. rewrite Hp. cbn [outcome_bind].
  rewrite parse_url_like_name by done.
  assert ((if bool_decide (ns_url n = None) then Ok (E := ParseMatchSpecError) (@None Url) else Ok None) = Ok None) as ->
    by by case_bool_decide.
  cbn [outcome_bind]. rewrite split_colons_name by done. unfold with_channel_prefix.
  assert (set_ns_namespace (option_or (namespace ← @None text; non_empty (trim namespace)) (ns_namespace n)) n = n) as ->
    by by destruct n.
  cbn [outcome_bind]. rewrite strip_package_name_canonical by done. cbn [outcome_bind]. done.
Qed.

Lemma view_fmt_canonical rendered name n t :
  view_fmt rendered (mkSpecView (Some name) n) CANONICAL = Some (Ok t) →
  name_matcher_is_canonical name = true ∧ ∃ brackets, t = name_matcher_display name ++ brackets
    ∧ fmt_fields rendered (mkSpecView (Some name) n) CANONICAL placement_default true CANONICAL_BRACKET_FIELDS
      = Some (Ok brackets).
Proof.
  unfold view_fmt, placement. cbn [dc_style dc_position CANONICAL bool_decide orb negb sv_name].
  rewrite bool_decide_false by done. cbn [negb orb of_option outcome_bind bracket_fields dc_style CANONICAL].
  unfold fmt_canonical_name. destruct (name_matcher_is_canonical name); [|done]. cbn [negb outcome_bind written].
  intros (b & Hb & [= <-])%outcome_bind_Ok. eauto.
Qed.

(** ** Leaves of conditions *)

(** A leaf that is written without a section has a name and at most a version. *)
Lemma simple_leaf_fields name n :
  is_simple_condition_leaf (mkSpecView (Some name) n) = Some true →
  (∃ m, name = NExact m) ∧ n = set_ns_version (ns_version n) nameless_default
  ∧ match ns_version n with Some v => ∃ t, spec_display v = Some t ∧ is_constraint_text t = true | None => True end.
Proof.
  unfold is_simple_condition_leaf. cbn [sv_name sv_fields]. destruct name as [m|p|r]; [|done..]. cbn [negb].
  destruct (existsb _ _) eqn:E; [done|]. rewrite existsb_false in E. intros Hv. split; [by eexists|]. split.
  - apply agree_eq. intros f. apply agree_sym. destruct (decide (f = FVersion)) as [->|Hf]; [done|].
    assert (has (mkSpecView (Some (NExact m)) n) f = false) as Hh by (apply E; destruct f; set_solver).
    destruct f; simpl in *; try done; apply bool_decide_eq_false in Hh; by apply eq_None_not_Some in Hh.
  - destruct (ns_version n) as [v|]; [|done]. destruct (spec_display v) as [t|]; [|done]. exists t. by injection Hv.
Qed.

(** What the printer writes for a leaf *)
Lemma view_fmt_leaf rendered name n t :
  view_fmt rendered (mkSpecView (Some name) n) (condition_leaf Canonical) = Some (Ok t) →
  ns_condition n = None ∧ name_matcher_is_canonical name = true ∧
  ((is_simple_condition_leaf (mkSpecView (Some name) n) = Some true
    ∧ name_is_condition_safe (name_matcher_display name) (bool_decide (ns_version n = None)) = true
    ∧ ∃ vt, t = name_matcher_display name ++ vt
      ∧ match ns_version n with Some v => spec_display v = Some vt | None => vt = [] end)
   ∨ (name_is_condition_safe (name_matcher_display name)
        (negb (existsb (has (mkSpecView (Some name) n)) CANONICAL_BRACKET_FIELDS)) = true
      ∧ ∃ brackets, t = name_matcher_display name ++ brackets
        ∧ fmt_fields rendered (mkSpecView (Some name) n) CANONICAL placement_default true CANONICAL_BRACKET_FIELDS
          = Some (Ok brackets))).
Proof.
  set (view := mkSpecView (Some name) n).
  assert (∀ l first, fmt_fields rendered view (condition_leaf Canonical) placement_default first l
    = fmt_fields rendered view CANONICAL placement_default first l) as Hctx.
  { induction l as [|f l IH]; intros first; [done|]. cbn [fmt_fields]. rewrite !IH. by destruct f. }
  unfold view_fmt, placement, condition_leaf. cbn [dc_style dc_position].
  rewrite bool_decide_false by done. cbn [negb orb of_option outcome_bind]. unfold bracket_fields. cbn [dc_style].
  rewrite bool_decide_true by done. cbn [andb]. destruct (has view FWhen) eqn:Hw; [done|].
  assert (ns_condition n = None) as Hcond by (simpl in Hw; apply bool_decide_eq_false in Hw; by apply eq_None_not_Some).
  destruct (is_simple_condition_leaf view) as [simple|] eqn:Hsimple; [|done]. cbn [of_option outcome_bind].
  intros (prefix & Hp & Ht)%outcome_bind_Ok. unfold fmt_leaf_name in Hp. cbn [sv_name sv_fields view] in Hp.
  destruct (name_is_condition_safe _ _) eqn:Hsafe; [|done]. cbn [negb] in Hp. unfold fmt_canonical_name in Hp.
  destruct (name_matcher_is_canonical name) eqn:Hcan; [|done]. injection Hp as <-. split; [done|]. split; [done|].
  destruct simple; [left|right].
  - split; [done|]. split; [done|]. cbn [sv_fields view] in Ht. destruct (ns_version n) as [v|].
    + destruct (spec_display v) as [vt|]; [|done]. injection Ht as <-. by exists vt.
    + injection Ht as <-. exists []. by rewrite app_nil_r.
  - assert (∀ l, existsb (λ f, has view f && negb (is_positional placement_default f)) l = existsb (has view) l) as Hex.
    { induction l as [|f l IH]; [done|]. simpl. rewrite IH. f_equal. destruct f; apply andb_true_r. }
    rewrite Hex in Hsafe. split; [done|]. apply outcome_bind_Ok in Ht as (brackets & Hb & [= <-]). exists brackets.
    split; [done|]. by rewrite <-Hctx.
Qed.

(** A name and a version without a blank between them *)
Lemma compact_text m vt options :
  name_wf options (NExact m) → is_constraint_text vt = true →
  name_text (as_normalized m ++ vt) ∧ existsb is_whitespace (as_normalized m ++ vt) = false.
Proof.
  intros (Hne & Hch & _) ((c & s & E & Hc) & Hw & Hs)%constraint_text_spec. set (t := as_normalized m) in *.
  assert (∀ c, c ∈ t → is_whitespace c = false ∧ is_outside c = true ∧ c ∉ [c_colon; c_slash; c_backslash; c_caret; c_star]) as Ht.
  { intros d Hd. by destruct (name_char_spec d (forallb_elem _ _ _ Hch Hd)) as (? & _ & ? & ?). }
  assert (existsb is_whitespace (t ++ vt) = false) as Hws.
  { rewrite existsb_app, Hw, orb_false_r. apply existsb_false. intros d Hd. by apply Ht. }
  assert (c_colon ∉ t ++ vt) as Hcolon.
  { rewrite not_elem_of_app. split; intros Hd; [apply Ht in Hd as (_ & _ & Hd)|specialize (Hs _ Hd)]; set_solver. }
  split; [|done]. split; [by destruct t|by apply tight_none| |done|].
  - rewrite forallb_app. apply andb_true_iff. split; apply forallb_forall; intros d Hd%list_elem_of_In; [by apply Ht|].
    specialize (Hs d Hd). unfold is_outside. apply negb_true_iff, bool_decide_eq_false. set_solver.
  - destruct t as [|d t']; [done|]. destruct (Ht d ltac:(by left)) as (_ & _ & Hd). unfold is_absolute_path, str_contains, str_starts_with.
    rewrite (split_at_None _ _ c_colon) by (done || vm_compute; set_solver).
    rewrite bool_decide_false by (by intros [? ?]). cbn [app strip txt orb].
    change (txt "/") with [c_slash]. cbn [strip]. rewrite !(proj2 (N.eqb_neq _ d)) by set_solver.
    rewrite !bool_decide_false by (by intros [? ?]). cbn [orb]. unfold has_drive_letter.
    destruct (t' ++ vt) as [|e [|f u]] eqn:Eu; [done..|]. cbn [app] in Hcolon. rewrite Eu in Hcolon.
    by rewrite (proj2 (N.eqb_neq e c_colon)) by set_solver.
Qed.

Lemma compact_text_parses parse_condition options m v vt :
  name_wf options (NExact m) → spec_canonical v → spec_versions positional_version v →
  spec_display v = Some vt → is_constraint_text vt = true →
  matchspec_parser_with parse_condition (as_normalized m ++ vt) options
    = Some (Ok (from_nameless (set_ns_version (Some v) nameless_default) (normal_name (NExact m)))).
Proof.
  intros Hw Hc Hv Hd Hvt. destruct (compact_text m vt options Hw Hvt) as [Ht Hws]. pose proof Ht as [_ Htight Hout Hcolon _].
  pose proof (constraint_text_spec vt Hvt) as ((c & s & E & Hcc) & Hvw & _).
  unfold matchspec_parser_with. rewrite <-(app_nil_r (as_normalized m ++ vt)) at 1. change (?t ++ []) with (spec_text t []).
  rewrite strip_comment_spec_text, reject_deprecated_spec_text by done. cbn [outcome_bind].
  pose proof (spec_text_tight _ [] Ht) as Htight'.
  rewrite !(tight_trim _ Htight'), strip_brackets_spec_text by done. cbn [outcome_bind].
  unfold parse_bracket_vec_into_components. cbn [fmap list_fmap duplicate_key parse_fields].
  assert ((if bool_decide (strictness options = Strict) then None else None) = @None text) as -> by by case_bool_decide.
  cbn [outcome_bind ns_url nameless_default]. rewrite bool_decide_true by done. rewrite parse_url_like_name by done.
  cbn [outcome_bind]. rewrite split_colons_name by done. unfold with_channel_prefix. cbn [outcome_bind].
  rewrite (strip_exact_name options m vt) by (done || by rewrite E; cbn [stops];
    revert Hcc; rewrite !elem_of_cons; intros [->|[->|[->|[->|[->|[]%elem_of_nil]]]]]).
  cbn [outcome_bind]. assert (trim vt = vt) as -> by (by apply tight_trim, tight_none).
  unfold with_version_and_build. rewrite tight_trim by by apply tight_none. rewrite bool_decide_false by by rewrite E.
  pose proof (compact_version v vt (strictness options) Hc Hv Hd Hvt) as Hpv.
  change (set_ns_namespace _ nameless_default) with nameless_default. rewrite Hpv. cbn [outcome_bind].
  cbn [ns_version ns_build nameless_default]. rewrite !(bool_decide_false (is_Some None)) by (by intros [? ?]).
  rewrite !andb_false_r. done.
Qed.

(** ** Specs *)

(** What a parser of specs gives: the name, the fields, and only fields the options let it read. *)
Record spec_wf (options : ParseMatchSpecOptions) (spec : MatchSpec) : Prop := {
  sw_name : name_wf options (ms_name spec);
  sw_fields : ∀ f, field_wf f (into_nameless spec).2;
  sw_allowed : ∀ f, has (view_of_spec spec) f = true → allowed options f
}.
(** A leaf of a condition: the grammar of a version behind a name is narrower. *)
Record leaf_wf (options : ParseMatchSpecOptions) (spec : MatchSpec) : Prop := {
  lw_spec : spec_wf options spec;
  lw_version v : ms_version spec = Some v → is_simple_condition_leaf (view_of_spec spec) = Some true →
    spec_versions positional_version v
}.
(** The spec with the names in their normalised form *)
Definition normal_leaf (spec : MatchSpec) : MatchSpec :=
  from_nameless (into_nameless spec).2 (normal_name (ms_name spec)).
Definition normal_spec (spec : MatchSpec) : MatchSpec :=
  from_nameless (set_ns_condition (map_leaves normal_leaf <$> ms_condition spec) (into_nameless spec).2)
    (normal_name (ms_name spec)).

Lemma spec_fmt_view spec ctx :
  spec_fmt spec ctx = view_fmt (λ style, match ms_condition spec with
      Some condition => condition_fmt_with condition style | None => None end) (view_of_spec spec) ctx.
Proof. by destruct spec. Qed.

Lemma name_wf_conditionals options name b : name_wf options name → name_wf (set_conditionals options b) name.
Proof. by destruct name. Qed.

Lemma safe_name_head t b u : t ≠ [] → name_is_condition_safe t b = true → head (t ++ u) ≠ Some c_lparen.
Proof. intros Hne (Hl & _)%condition_safe_spec. destruct t as [|c t]; [done|]. simpl. intros [= ->]. apply Hl. by left. Qed.

(** A leaf is printed as one token, and the token is parsed to the leaf. *)
Lemma leaf_reads_back options spec : leaf_wf options spec →
  leaf_reads leaf_parser options (λ leaf, spec_fmt leaf (condition_leaf Canonical)) normal_leaf spec.
Proof.
  intros [[Hw Hf Ha] Hpos] t Ht. rewrite spec_fmt_view in Ht.
  apply view_fmt_leaf in Ht as (Hcond & Hcan & Hcases). set (n := (into_nameless spec).2) in *.
  apply (name_wf_conditionals _ _ false) in Hw.
  pose proof (canonical_name_text _ _ Hw Hcan) as Hname. pose proof Hname as [Hne _ Hout _ _].
  assert (∀ vs, Forall printed_ok vs →
    name_is_condition_safe (name_matcher_display (ms_name spec)) (bool_decide (vs = [])) = true →
    parse_bracket_vec_into_components no_conditions (raw_field <$> vs) nameless_default (set_conditionals options false)
      = Some (Ok n) →
    leaf_text (spec_text (name_matcher_display (ms_name spec)) vs)
    ∧ leaf_parser (spec_text (name_matcher_display (ms_name spec)) vs) (set_conditionals options false)
      = Some (Ok (normal_leaf spec))) as Hsection.
  { intros vs Hvs Hsafe Hp. split; [|by apply spec_text_parses]. split.
    - unfold spec_text. by destruct (name_matcher_display _).
    - by apply spec_text_tight.
    - by eapply safe_name_head.
    - intros r Hr. by apply spec_text_token. }
  destruct Hcases as [(Hsimple & Hsafe & vt & -> & Hvt)|(Hsafe & brackets & -> & Hb)].
  - pose proof (simple_leaf_fields _ _ Hsimple) as ([m Hm] & Hn & Hc). destruct (ns_version n) as [v|] eqn:Ev.
    + destruct Hc as (vt' & Hd & Hct). assert (vt' = vt) as -> by congruence. rewrite bool_decide_false in Hsafe by done.
      assert (spec_canonical v) as Hcv by by apply (Hf FVersion).
      assert (spec_versions positional_version v) as Hv by (apply Hpos; [by destruct spec|done]).
      unfold normal_leaf. fold n. rewrite Hm in *. cbn [name_matcher_display] in *.
      destruct (compact_text m vt _ Hw Hct) as [Htext Hws]. split.
      * split; [by destruct (as_normalized m)|by apply Htext|by eapply safe_name_head|]. intros r Hr. apply compact_token; try done.
        rewrite existsb_app in Hws. by apply orb_false_iff in Hws as [? _].
      * rewrite Hn. by apply compact_text_parses.
    + subst vt. apply (Hsection []); [done|done|]. rewrite Hn. unfold parse_bracket_vec_into_components. simpl.
      by destruct (bool_decide (strictness options = Strict)).
  - destruct (section_roundtrip no_conditions (λ style, match ms_condition spec with
        Some condition => condition_fmt_with condition style | None => None end) (set_conditionals options false) n n
      (Some (ms_name spec)) (λ f _, agree_refl f _)) with (t := brackets) as (vs & -> & Hvs & Hnil & Hp); [|done| |done|done|].
    + intros t. assert (ms_condition spec = None) as -> by by destruct spec. done.
    + intros f Hh. destruct (decide (f = FWhen)) as [->|Hne'].
      * unfold has in Hh. cbn [sv_fields] in Hh. rewrite Hcond in Hh. discriminate Hh.
      * specialize (Ha f Hh). by destruct f.
    + apply (Hsection vs); [done| |done]. by rewrite Hnil.
Qed.

(** C12: [MatchSpec::to_canonical_string] followed by [MatchSpec::from_str] gives the spec back, in the
    strict and in the lenient mode, with the names in their normalised form and the condition with
    its parentheses, operators and leaves.  The spec is well formed: patterns are what their texts
    compile to and digests have their size; a glob name is no path and has no operator, features
    have no white space at an end (else [canonical_not_read_back]); a channel lies at a directory
    URL, is named after it and its name is no path (else [path_name_not_read_back]); the URLs have
    a short scheme and no secrets, which are not written; and a version that is written directly
    behind the name of a leaf is in the narrower grammar (else [version_not_read_back]). *)
Theorem canonical_string_roundtrip spec options s :
  spec_wf options spec →
  (∀ c, ms_condition spec = Some c → Forall (leaf_wf options) (condition_leaves c)) →
  to_canonical_string spec = Some (Ok s) →
  matchspec_parser s options = Some (Ok (normal_spec spec)).
Proof.
  intros [Hw Hf Ha] Hleaves. unfold to_canonical_string. rewrite spec_fmt_view.
  intros (Hname & brackets & -> & Hb)%view_fmt_canonical.
  set (n := (into_nameless spec).2) in *.
  set (n' := set_ns_condition (map_leaves normal_leaf <$> ms_condition spec) n).
  assert (ns_condition n = ms_condition spec) as Hcond by by destruct spec.
  destruct (section_roundtrip parse_condition_with_options (λ style, match ms_condition spec with
        Some condition => condition_fmt_with condition style | None => None end) options n n' (Some (ms_name spec)))
    with (t := brackets) as (vs & -> & Hvs & _ & Hp); [| |done|done| |done|].
  - intros f Hne. by destruct f.
  - intros t. destruct (ms_condition spec) as [c|] eqn:Ec; [|done]. intros Ht. exists (map_leaves normal_leaf c).
    split; [done|]. unfold parse_when. rewrite unescape_escape. unfold parse_condition_with_options.
    rewrite (condition_roundtrip leaf_parser options
      (λ leaf, spec_fmt leaf (condition_leaf Canonical)) normal_leaf c t); [done| |done].
    eapply Forall_impl; [by apply Hleaves|]. apply leaf_reads_back.
  - rewrite Hcond. unfold n'. cbn [ns_condition set_ns_condition]. apply fmap_is_Some.
  - by apply spec_text_parses.
Qed.
End roundtrip.

(** ** A spec with a version, a build with a star, a channel with platforms, a URL, a license with
    a quote, extras, flags, features and a condition of three leaves, one in a channel of its own *)
#[local] Existing Instance url_crate_https.
#[local] Existing Instance url_paths_https.
#[local] Existing Instance file_urls_https.

Definition named (name : text) : PackageNameMatcher := NExact (mkPackageName None name).
Definition forge : Channel :=
  mkChannel (Some [Linux64; NoArch]) (txt "https://conda.anaconda.org/conda-forge/") (Some (txt "conda-forge")).
Definition other_channel : Channel := mkChannel None (txt "https://prefix.dev/my/chan/") (Some (txt "my/chan")).
Definition leaf_python : MatchSpec := from_nameless (set_ns_version (Some spec_1_to_2) nameless_default) (named (txt "python")).
Definition leaf_unix : MatchSpec := from_nameless nameless_default (named (txt "__unix")).
Definition leaf_built : MatchSpec :=
  from_nameless (set_ns_build (Some (Prefix (txt "py"))) (set_ns_channel (Some other_channel) nameless_default)) (named (txt "pkg")).
Definition sample_condition : Condition :=
  CondAnd (CondOr (CondMatchSpec leaf_python) (CondMatchSpec leaf_unix)) (CondMatchSpec leaf_built).
Definition sample_spec : MatchSpec :=
  from_nameless
    (set_ns_version (Some spec_1_to_2) (set_ns_build (Some (Prefix (txt "py")))
    (set_ns_build_number (Some (mkOperatorConstraint OrdGe 3%N)) (set_ns_extras (Some [txt "cuda"; txt "docs"])
    (set_ns_flags (Some [Exact (txt "gpu:12")]) (set_ns_channel (Some forge) (set_ns_md5 (Some (repeat 171%N 16))
    (set_ns_url (Some (txt "https://prefix.dev/p/foo-1.conda"))
    (set_ns_license (Some (txt "it's [MIT], #1")) (set_ns_condition (Some sample_condition)
    (set_ns_track_features (Some [txt "a"; txt "b-c"]) nameless_default)))))))))))
    (NExact (mkPackageName (Some (txt "foo_bar")) (txt "Foo_Bar"))).
Definition v3_options : ParseMatchSpecOptions := mkParseMatchSpecOptions Strict true true true true.
Definition sample_text : text :=
  txt "foo_bar[version=" ++ [c_dquote] ++ txt ">=1,<2" ++ [c_dquote] ++ txt ",build=" ++ [c_dquote] ++ txt "py*"
  ++ [c_dquote] ++ txt ",build_number=" ++ [c_dquote] ++ txt ">=3" ++ [c_dquote]
  ++ txt ",extras=[cuda,docs],flags=[gpu:12],channel=" ++ [c_dquote] ++ txt "conda-forge[linux-64,noarch]" ++ [c_dquote]
  ++ txt ",md5=" ++ [c_dquote] ++ txt "abababababababababababababababab" ++ [c_dquote]
  ++ txt ",url=" ++ [c_dquote] ++ txt "https://prefix.dev/p/foo-1.conda" ++ [c_dquote]
  ++ txt ",license=" ++ [c_dquote] ++ txt "it's [MIT], #1" ++ [c_dquote]
  ++ txt ",when=" ++ [c_dquote] ++ txt "(python>=1,<2 or __unix) and pkg[build=" ++ [c_backslash; c_dquote] ++ txt "py*"
  ++ [c_backslash; c_dquote] ++ txt ",channel=" ++ [c_backslash; c_dquote] ++ txt "https://prefix.dev/my/chan/"
  ++ [c_backslash; c_dquote] ++ txt "]" ++ [c_dquote] ++ txt ",track_features=" ++ [c_dquote]
  ++ txt "a b-c" ++ [c_dquote] ++ txt "]".

(** A URL of a host and a path is fit to be written. *)
Definition https_url (host path : text) : ValidUrl :=
  exist _ (mkUrlParts (txt "https") [] None (Some host) path None None) eq_refl.
Lemma https_secret_free host path : path_without_token (https_url host path) = None → secret_free (https_url host path).
Proof. intros Ht. split; [reflexivity|reflexivity|exact Ht|reflexivity|intros f [=]]. Qed.
Lemma https_url_wf host path :
  path_without_token (https_url host path) = None → is_Some (parse_scheme (url_as_str (https_url host path))) →
  url_wf (url_as_str (https_url host path)).
Proof. intros Ht Hs. exists (https_url host path). split; [reflexivity|]. split; [by apply https_secret_free|done]. Qed.

Lemma forge_wf : channel_wf forge (https_url (txt "conda.anaconda.org") (txt "/conda-forge/")).
Proof.
  split; [vm_compute; reflexivity|apply https_secret_free; vm_compute; reflexivity| |eexists; vm_compute; reflexivity
    |vm_compute; reflexivity|].
  - split; [apply valid_url_eq|]; vm_compute; reflexivity.
  - intros config [= <-]. split; [vm_compute; reflexivity|]. intros name E. vm_compute in E. injection E as <-. vm_compute. reflexivity.
Qed.
Lemma other_channel_wf : channel_wf other_channel (https_url (txt "prefix.dev") (txt "/my/chan/")).
Proof.
  split; [vm_compute; reflexivity|apply https_secret_free; vm_compute; reflexivity| |eexists; vm_compute; reflexivity
    |vm_compute; reflexivity|].
  - split; [apply valid_url_eq|]; vm_compute; reflexivity.
  - intros config [= <-]. split; [vm_compute; reflexivity|]. intros name E. vm_compute in E. discriminate E.
Qed.
Lemma sample_url_wf : url_wf (txt "https://prefix.dev/p/foo-1.conda").
Proof. apply (https_url_wf (txt "prefix.dev") (txt "/p/foo-1.conda")); [vm_compute; reflexivity|eexists; vm_compute; reflexivity]. Qed.

Ltac sample_wf :=
  split; [split; [done|]; by split; vm_compute| |intros f _; by destruct f];
  intros f; destruct f; cbn [field_wf]; try exact I; try (intros ? E; discriminate E); intros ? [= <-];
  first [apply spec_1_to_2_canonical|eexists; apply forge_wf|eexists; apply other_channel_wf|apply sample_url_wf
    |done|by vm_compute|split; [done|repeat constructor]|by repeat constructor].

Lemma sample_spec_wf : spec_wf v3_options sample_spec.
Proof. sample_wf. Qed.

Lemma sample_leaves_wf : Forall (leaf_wf v3_options) (condition_leaves sample_condition).
Proof.
  apply Forall_cons_2; [|apply Forall_cons_2; [|apply Forall_cons_2; [|apply Forall_nil_2]]];
    (split; [sample_wf|]); intros v [= <-] _. split; [|split; [|done]]; [exists text_1|exists text_2]; (split; [vm_compute; reflexivity|split; [done|]]);
    vm_compute; reflexivity.
Qed.

Lemma canonical_string_roundtrip_witness :
  to_canonical_string sample_spec = Some (Ok sample_text) ∧
  matchspec_parser sample_text v3_options = Some (Ok (normal_spec sample_spec)).
Proof.
  assert (to_canonical_string sample_spec = Some (Ok sample_text)) as H by (vm_compute; reflexivity).
  split; [exact H|]. apply (canonical_string_roundtrip sample_spec); [exact sample_spec_wf| |exact H].
  intros c [= <-]. exact sample_leaves_wf.
Defined.

(** ** Canonical forms that are not read back *)

Definition globbed (glob : text) : MatchSpec := from_nameless nameless_default (NGlob (GL := glob_ref) glob).
Definition pattern_options (strictness : ParseStrictness) : ParseMatchSpecOptions :=
  mkParseMatchSpecOptions strictness false true true true.

(** A glob with an operator is split into a name and a version, one that starts with a slash is
    taken for a path, and white space that is no blank is trimmed from a feature. *)
Lemma canonical_not_read_back :
  (to_canonical_string (globbed (txt "a=*")) = Some (Ok (txt "a=*"))
   ∧ matchspec_parser (txt "a=*") (pattern_options Lenient)
     = Some (Ok (from_nameless (set_ns_version (Some SAny) nameless_default) (named (txt "a")))))
  ∧ (to_canonical_string (globbed (txt "/a*")) = Some (Ok (txt "/a*"))
     ∧ matchspec_parser (txt "/a*") (pattern_options Strict) = Some (Err MissingPackageName))
  ∧ (let spec features := from_nameless (set_ns_track_features (Some features) nameless_default) (named (txt "p")) in
     let t := txt "p[track_features=" ++ [c_dquote; 97; 9; c_dquote; c_rbracket]%N in
     to_canonical_string (spec [[97; 9]%N]) = Some (Ok t)
     ∧ matchspec_parser t v3_options = Some (Ok (spec [[97]%N])))
  ∧ (to_canonical_string (from_nameless nameless_default (named [])) = Some (Ok [])
     ∧ package_name_try_from [] = Ok (mkPackageName None [])
     ∧ matchspec_parser [] v3_options = Some (Err MissingPackageName)).
Proof. cbv zeta. repeat split; vm_compute; reflexivity. Qed.

(** A channel whose name starts with two dots is written by its name, which is read as a path. *)
#[local] Instance work_env : ProcessEnv := {| home_dir := NoPath; current_dir := Utf8Path (txt "/work") |}.
Definition dotted : Channel := mkChannel None (txt "https://conda.anaconda.org/..forge/") (Some (txt "..forge")).
Lemma path_name_not_read_back :
  let t := txt "p[channel=" ++ [c_dquote] ++ txt "..forge" ++ [c_dquote; c_rbracket] in
  to_canonical_string (from_nameless (set_ns_channel (Some dotted) nameless_default) (named (txt "p"))) = Some (Ok t)
  ∧ channel_from_str (ch_base_url dotted) (mkChannelConfig (https_url (txt "conda.anaconda.org") (txt "/")) NoPath) = Some (Ok dotted)
  ∧ ∃ c base, matchspec_parser t v3_options = Some (Ok (from_nameless (set_ns_channel (Some c) nameless_default) (named (txt "p"))))
      ∧ url_parse (ch_base_url c) = Some base ∧ up_scheme (url_parts base) = txt "file".
Proof. cbv zeta. split; [by vm_compute|]. split; [by vm_compute|]. eexists _, _. split; [vm_compute; reflexivity|]. split; [vm_compute; reflexivity|]. by vm_compute. Qed.

(** The grammar of a version after a name is narrower than that of a version: it reads the epoch
    as an [u32], a version has one of 64 bits, and it wants a component behind a dot, a version may
    end in a dot and an underscore.  The text of such a condition is refused. *)
Definition versioned_condition (v : VersionText) : MatchSpec :=
  let leaf := from_nameless (set_ns_version (Some (SExact Equals (pack (vt_parts v)))) nameless_default) (named (txt "foo")) in
  from_nameless (set_ns_condition (Some (CondMatchSpec leaf)) nameless_default) (named (txt "bar")).
Definition when_text (leaf : text) : text := txt "bar[when=" ++ [c_dquote] ++ leaf ++ [c_dquote; c_rbracket].
Definition far_version : VersionText := mkVersionText (Some (txt "4294967296")) (mkPartText [txt "1"] [] NoTail) None.
Definition dot_version : VersionText := mkVersionText None (mkPartText [txt "1"] [] (Separate c_dot false)) None.
Lemma version_not_read_back :
  vt_ok far_version = true ∧ vt_ok dot_version = true
  ∧ to_canonical_string (versioned_condition far_version) = Some (Ok (when_text (txt "foo==4294967296!1")))
  ∧ matchspec_parser (when_text (txt "foo==4294967296!1")) v3_options = Some (Err (InvalidCondition (txt "foo==4294967296!1")))
  ∧ to_canonical_string (versioned_condition dot_version) = Some (Ok (when_text (txt "foo==1._")))
  ∧ matchspec_parser (when_text (txt "foo==1._")) v3_options = Some (Err (InvalidCondition (txt "foo==1._"))).
Proof. repeat split; vm_compute; reflexivity. Qed.
