(* ===== verification/SolvePolicy.v ===== *)
(** * Which records the solver may look at

    [rattler_solve/src/lib.rs] and [priority_tier.rs]: the cutoff on the age of a
    record with its exemptions, and the unit channel priority applies to.

    A [jiff::Timestamp] is its number of nanoseconds. *)
From S2P Require Import Prelude Externs VersionRepr VersionOrder VersionOps.
From S2P Require Import VersionParse VersionGrammar VersionSource VersionSpec BuildSpec PackageName Subdir.
From S2P Require Import Archive Matchers Records MatchSpecs Redaction.

Local Notation text := (list N).

(** ** Definitions *)

Inductive TimestampPolicy : Type := AllowMissing | RequireTimestamp | RequireIndexedTimestamp.
#[export] Instance timestamp_policy_eq_dec : EqDecision TimestampPolicy.
Proof. solve_decision. Defined.

Inductive TimestampExclusionReason : Type :=
| MissingIndexedTimestamp
| MissingTimestamp
| NewerThanCutoff (cutoff : Z).

Inductive ChannelPriority : Type := Strict | Disabled | Flexible.
#[export] Instance channel_priority_eq_dec : EqDecision ChannelPriority.
Proof. solve_decision. Defined.

Inductive SolveStrategy : Type := Highest | LowestVersion | LowestVersionDirect.
#[export] Instance solve_strategy_eq_dec : EqDecision SolveStrategy.
Proof. solve_decision. Defined.

Inductive PriorityTier : Type := TierMultiChannel (name : text) | TierChannel (channel : option text).
#[export] Instance priority_tier_eq_dec : EqDecision PriorityTier.
Proof. solve_decision. Defined.
#[export] Instance priority_tier_countable : Countable PriorityTier.
Proof.
  refine (inj_countable' (λ t, match t with TierMultiChannel n => inl n | TierChannel c => inr c end)
    (λ x, match x with inl n => TierMultiChannel n | inr c => TierChannel c end) _).
  by intros [].
Defined.
Definition priority_tier_new (multi_channel channel : option text) : PriorityTier :=
  match multi_channel with
  | Some name => TierMultiChannel name
  | None => TierChannel channel
  end.

(** A [Duration] is taken from a time stamp by the [jiff] crate, which reports what does not fit. *)
Class Jiff := {
  checked_sub : Z → N → option Z;
  checked_sub_exact now d t : checked_sub now d = Some t → t = (now - Z.of_N d)%Z
}.
#[export, refine] Instance jiff_unbounded : Jiff := {| checked_sub now d := Some (now - Z.of_N d)%Z |}.
Proof. by intros now d t [= <-]. Defined.

Section policy.
Context `{IT : Itertools} `{GL : Glob} `{FR : FancyRegex} `{UC : UrlCrate}.

(** The error shows the spec; here it holds it. *)
Inductive InvalidExemptionError : Type :=
| NotExactName (spec : MatchSpec)
| UnsupportedField (spec : MatchSpec).

(** The package cutoffs by normalised name, which is what [Eq] and [Hash] of a package name
    look at; the set of exemptions as a list, of which only [any] is used. *)
Record ExcludeNewer := mkExcludeNewer {
  en_cutoff : Z;
  en_channel_cutoffs : gmap text Z;
  en_package_cutoffs : gmap text Z;
  en_exemptions : list MatchSpec;
  en_timestamp_policy : TimestampPolicy
}.

Definition from_datetime (cutoff : Z) : ExcludeNewer := mkExcludeNewer cutoff ∅ ∅ [] RequireTimestamp.
Definition cutoff_from_duration `{Jiff} (duration : N) (now : Z) : option Z := checked_sub now duration.
Definition from_duration_with_now `{Jiff} (duration : N) (now : Z) : option ExcludeNewer :=
  cutoff ← cutoff_from_duration duration now;
  Some (mkExcludeNewer cutoff ∅ ∅ [] RequireTimestamp).
Definition with_package_cutoff (self : ExcludeNewer) (package : PackageName) (cutoff : Z) : ExcludeNewer :=
  mkExcludeNewer (en_cutoff self) (en_channel_cutoffs self)
    (<[as_normalized package := cutoff]> (en_package_cutoffs self)) (en_exemptions self) (en_timestamp_policy self).
Definition with_package_duration_with_now `{Jiff} (self : ExcludeNewer) (package : PackageName) (duration : N)
    (now : Z) : option ExcludeNewer :=
  cutoff ← cutoff_from_duration duration now;
  Some (with_package_cutoff self package cutoff).
Definition with_channel_cutoff (self : ExcludeNewer) (channel : text) (cutoff : Z) : ExcludeNewer :=
  mkExcludeNewer (en_cutoff self) (<[channel := cutoff]> (en_channel_cutoffs self))
    (en_package_cutoffs self) (en_exemptions self) (en_timestamp_policy self).
Definition with_channel_duration_with_now `{Jiff} (self : ExcludeNewer) (channel : text) (duration : N)
    (now : Z) : option ExcludeNewer :=
  cutoff ← cutoff_from_duration duration now;
  Some (with_channel_cutoff self channel cutoff).
Definition with_timestamp_policy (self : ExcludeNewer) (policy : TimestampPolicy) : ExcludeNewer :=
  mkExcludeNewer (en_cutoff self) (en_channel_cutoffs self) (en_package_cutoffs self) (en_exemptions self) policy.

Definition with_exemption (self : ExcludeNewer) (spec : MatchSpec) : result InvalidExemptionError ExcludeNewer :=
  match as_exact (ms_name spec) with
  | None => Err (NotExactName spec)
  | Some _ =>
      if bool_decide (is_Some (ms_extras spec)) || (match ms_condition spec with Some _ => true | None => false end)
         || bool_decide (is_Some (ms_namespace spec))
      then Err (UnsupportedField spec)
      else Ok (mkExcludeNewer (en_cutoff self) (en_channel_cutoffs self) (en_package_cutoffs self)
                 (spec :: en_exemptions self) (en_timestamp_policy self))
  end.

(** [Channel::canonical_name] *)
Definition canonical_name (c : Channel) : option text :=
  base_url ← url_parse (ch_base_url c);
  Some (url_as_str (redact base_url)).

Definition exemption_matches (record : RepoDataRecord) (spec : MatchSpec) : option bool :=
  matches ← match_spec_matches_record spec record;
  channel ← match ms_channel spec with
            | Some c => name ← canonical_name c; Some (bool_decide (rd_channel record = Some name))
            | None => Some true
            end;
  Some (matches
        && field_ok (ms_subdir spec) (λ subdir, bool_decide (subdir = rec_subdir (rd_package_record record)))
        && field_ok (ms_file_name spec)
             (λ file_name, bool_decide (file_name = dist_archive_identifier_display (rd_identifier record)))
        && channel).
Definition is_exempt (self : ExcludeNewer) (record : RepoDataRecord) : option bool :=
  foldr (λ spec r, b ← exemption_matches record spec; if (b : bool) then Some true else r)
    (Some false) (en_exemptions self).

Definition cutoff_for_package (self : ExcludeNewer) (package : PackageName) (channel : option text) : Z :=
  match en_package_cutoffs self !! as_normalized package with
  | Some cutoff => cutoff
  | None =>
      match c ← channel; en_channel_cutoffs self !! c with
      | Some cutoff => cutoff
      | None => en_cutoff self
      end
  end.

Definition exclusion_reason (self : ExcludeNewer) (record : RepoDataRecord)
  : option (option TimestampExclusionReason) :=
  exempt ← is_exempt self record;
  Some
    (if (exempt : bool) then None
     else
       let package := rd_package_record record in
       let by_time timestamp :=
         let cutoff := cutoff_for_package self (rec_name package) (rd_channel record) in
         match timestamp with
         | Some t =>
             if (cutoff <? tm_timestamp t)%Z then Some (NewerThanCutoff cutoff) else None
         | None =>
             if bool_decide (en_timestamp_policy self = RequireTimestamp) then Some MissingTimestamp else None
         end in
       match en_timestamp_policy self with
       | RequireIndexedTimestamp =>
           match rec_indexed_timestamp package with
           | Some t => by_time (Some t)
           | None => Some MissingIndexedTimestamp
           end
       | _ =>
           by_time (match rec_indexed_timestamp package with Some t => Some t | None => rec_timestamp package end)
       end).

Definition is_excluded (self : ExcludeNewer) (record : RepoDataRecord) : option bool :=
  reason ← exclusion_reason self record; Some (bool_decide (is_Some reason)).

(** ** Properties *)

(** The time stamp the policy looks at. *)
Definition policy_timestamp (policy : TimestampPolicy) (r : PackageRecord) : option Z :=
  tm_timestamp <$> match policy with
                   | RequireIndexedTimestamp => rec_indexed_timestamp r
                   | _ => match rec_indexed_timestamp r with Some t => Some t | None => rec_timestamp r end
                   end.

(** A record matches a spec that exempts records. *)
Definition exempted_by (spec : MatchSpec) (record : RepoDataRecord) : Prop :=
  match_spec_matches_record spec record = Some true
  ∧ asks (ms_subdir spec) (λ subdir, rec_subdir (rd_package_record record) = subdir)
  ∧ asks (ms_file_name spec) (λ f, dist_archive_identifier_display (rd_identifier record) = f)
  ∧ asks (ms_channel spec) (λ c, ∃ name, canonical_name c = Some name ∧ rd_channel record = Some name).

(** The specs have well-formed limits and channels whose URL parses. *)
Definition exclude_newer_wf (self : ExcludeNewer) : Prop :=
  Forall (λ spec, match_spec_wf spec ∧ asks (ms_channel spec) (λ c, is_Some (canonical_name c))) (en_exemptions self).

Lemma match_spec_matches_record_total spec record :
  match_spec_wf spec → vws_wf (rec_version (rd_package_record record)) →
  ∃ b, match_spec_matches_record spec record = Some b.
Proof.
  intros Hs Hv. unfold match_spec_matches_record. destruct (negb _); [by eexists|].
  unfold match_spec_matches. destruct (negb _); [by eexists|].
  destruct (version_field_total (ms_version spec) _ Hs Hv) as [b ->]. by eexists.
Qed.

Lemma exemption_matches_spec spec record :
  match_spec_wf spec → asks (ms_channel spec) (λ c, is_Some (canonical_name c)) →
  vws_wf (rec_version (rd_package_record record)) →
  ∃ b, exemption_matches record spec = Some b ∧ (b = true ↔ exempted_by spec record).
Proof.
  intros Hs Hc Hv. unfold exemption_matches, exempted_by.
  destruct (match_spec_matches_record_total spec record Hs Hv) as [m ->]. cbn [mbind option_bind].
  assert (∃ c, match ms_channel spec with
    | Some c => name ← canonical_name c; Some (bool_decide (rd_channel record = Some name))
    | None => Some true end = Some c ∧
    (c = true ↔ asks (ms_channel spec) (λ c, ∃ name, canonical_name c = Some name ∧ rd_channel record = Some name)))
    as (c & -> & Hch).
  { destruct (ms_channel spec) as [ch|]; [|by exists true]. destruct Hc as [name Hn]. simpl. rewrite Hn. simpl.
    eexists. split; [done|]. rewrite bool_decide_eq_true. naive_solver. }
  cbn [mbind option_bind]. eexists. split; [done|]. rewrite !andb_true_iff, !field_ok_asks, Hch.
  assert (∀ (f : option text) x, asks f (λ a, bool_decide (a = x) = true) ↔ asks f (λ a, x = a)) as Heq.
  { intros [f|] x; simpl; [|done]. rewrite bool_decide_eq_true. naive_solver. }
  rewrite !Heq. split; [intros [[[-> ?] ?] ?]; done|]. intros ([= ->] & ? & ? & ?). done.
Qed.

Lemma is_exempt_spec self record :
  exclude_newer_wf self → vws_wf (rec_version (rd_package_record record)) →
  ∃ b, is_exempt self record = Some b ∧ (b = true ↔ ∃ spec, spec ∈ en_exemptions self ∧ exempted_by spec record).
Proof.
  intros Hwf Hv. unfold is_exempt, exclude_newer_wf in *.
  induction Hwf as [|spec l [Hs Hc] _ IH]; simpl.
  { exists false. split; [done|]. split; [done|]. by intros (? & ?%elem_of_nil & _). }
  destruct (exemption_matches_spec spec record Hs Hc Hv) as (b & -> & Hb). cbn [mbind option_bind].
  destruct b.
  - exists true. split; [done|]. split; [|done]. intros _. exists spec. split; [left|by apply Hb].
  - destruct IH as (b & -> & IH). exists b. split; [done|]. rewrite IH. split.
    + intros (s & ? & ?). exists s. split; [by right|done].
    + intros (s & [->|?]%elem_of_cons & He); [|by exists s]. apply Hb in He. done.
Qed.

(** C23: What the policy excludes.  A record that matches an exemption is never excluded;
    any other record is excluded exactly when the time stamp the policy looks at is
    later than the cutoff of its package, else of its channel, else of all, or is
    missing although the policy asks for one. *)
Theorem exclusion_reason_correct (self : ExcludeNewer) (record : RepoDataRecord) :
  exclude_newer_wf self → vws_wf (rec_version (rd_package_record record)) →
  let package := rd_package_record record in
  let cutoff := default (default (en_cutoff self) (c ← rd_channel record; en_channel_cutoffs self !! c))
                  (en_package_cutoffs self !! as_normalized (rec_name package)) in
  let exempt := ∃ spec, spec ∈ en_exemptions self ∧ exempted_by spec record in
  ∃ reason, exclusion_reason self record = Some reason ∧
  match reason with
  | None => exempt ∨ match policy_timestamp (en_timestamp_policy self) package with
                     | Some t => (t <= cutoff)%Z
                     | None => en_timestamp_policy self = AllowMissing
                     end
  | Some (NewerThanCutoff c) => ¬ exempt ∧ c = cutoff
      ∧ ∃ t, policy_timestamp (en_timestamp_policy self) package = Some t ∧ (c < t)%Z
  | Some MissingTimestamp => ¬ exempt ∧ en_timestamp_policy self = RequireTimestamp
      ∧ rec_indexed_timestamp package = None ∧ rec_timestamp package = None
  | Some MissingIndexedTimestamp => ¬ exempt ∧ en_timestamp_policy self = RequireIndexedTimestamp
      ∧ rec_indexed_timestamp package = None
  end.
Proof.
  intros Hwf Hv. cbv zeta. unfold exclusion_reason.
  destruct (is_exempt_spec self record Hwf Hv) as (b & -> & Hb). cbn [mbind option_bind].
  eexists. split; [done|]. destruct b; [left; by apply Hb|].
  assert (¬ ∃ spec, spec ∈ en_exemptions self ∧ exempted_by spec record) as Hne
    by (intros ?%Hb; done).
  assert (cutoff_for_package self (rec_name (rd_package_record record)) (rd_channel record)
    = default (default (en_cutoff self) (c ← rd_channel record; en_channel_cutoffs self !! c))
        (en_package_cutoffs self !! as_normalized (rec_name (rd_package_record record)))) as ->.
  { unfold cutoff_for_package. destruct (en_package_cutoffs self !! _); [done|]. simpl.
    by destruct (c ← rd_channel record; _). }
  set (cutoff := default _ _). unfold policy_timestamp.
  destruct (en_timestamp_policy self), (rec_indexed_timestamp (rd_package_record record)) as [t|]; simpl;
    try destruct (rec_timestamp (rd_package_record record)) as [t|]; simpl; eauto;
    destruct (Z.ltb_spec cutoff (tm_timestamp t)); simpl; eauto 6.
Qed.
End policy.
