(* ===== verification/SolveProvider.v ===== *)
(** * The candidates the solver is given

    [rattler_solve/src/resolvo/mod.rs]: [CondaDependencyProvider::new], which turns
    the repodata of the channels, the favored, the locked and the virtual packages
    into candidates with the reasons some of them are excluded.

    Names, strings and version sets that resolvo interns are equal exactly when what
    they stand for is, so they are modelled by it; a solvable gets a new number every
    time it is interned, which the class [SolvablePool] states. *)
From S2P Require Import Prelude Externs VersionRepr VersionOrder VersionOps.
From S2P Require Import VersionParse VersionGrammar VersionSource VersionSpec BuildSpec PackageName Subdir.
From S2P Require Import Archive Matchers Records MatchSpecs Redaction SolvePolicy.

Local Notation text := (list N).

(** ** Definitions *)

Inductive NameType : Type := NBase (name : text) | NExtra (package extra : text).
#[export] Instance name_type_eq_dec : EqDecision NameType.
Proof. solve_decision. Defined.
#[export] Instance name_type_countable : Countable NameType.
Proof.
  refine (inj_countable' (λ t, match t with NBase n => inl n | NExtra p e => inr (p, e) end)
    (λ x, match x with inl n => NBase n | inr (p, e) => NExtra p e end) _).
  by intros [].
Defined.

Definition name_type_display (self : NameType) : text :=
  match self with NBase name => name | NExtra package extra => package ++ [91%N] ++ extra ++ [93%N] end.
(** [Ord for NameType] *)
Definition name_type_cmp (self other : NameType) : comparison :=
  match self, other with
  | NBase name1, NBase name2 => str_cmp name1 name2
  | NExtra a extra_a, NExtra b extra_b => then_with (str_cmp a b) (str_cmp extra_a extra_b)
  | NBase _, NExtra _ _ => Gt
  | NExtra _ _, NBase _ => Lt
  end.
Definition name_type_from (value : PackageName) : NameType := NBase (as_normalized value).

Inductive SolverPackageRecord : Type :=
| SRecord (record : RepoDataRecord)
| SVirtualPackage (record : GenericVirtualPackage)
| SExtra (package : PackageName) (extra : text).

Definition spr_name (self : SolverPackageRecord) : PackageName :=
  match self with
  | SRecord rec => rec_name (rd_package_record rec)
  | SExtra package _ => package
  | SVirtualPackage rec => gvp_name rec
  end.
Definition spr_extra (self : SolverPackageRecord) : option text :=
  match self with SExtra _ extra => Some extra | _ => None end.
Definition spr_version (self : SolverPackageRecord) : option Version :=
  match self with
  | SRecord rec => Some (vws_version (rec_version (rd_package_record rec)))
  | SVirtualPackage rec => Some (gvp_version rec)
  | SExtra _ _ => None
  end.
Definition spr_track_features (self : SolverPackageRecord) : list text :=
  match self with SRecord rec => rec_track_features (rd_package_record rec) | _ => [] end.
Definition spr_build_number (self : SolverPackageRecord) : N :=
  match self with SRecord rec => rec_build_number (rd_package_record rec) | _ => 0%N end.
Definition spr_timestamp (self : SolverPackageRecord) : option Z :=
  match self with
  | SRecord rec => tm_timestamp <$> rec_timestamp (rd_package_record rec)
  | _ => None
  end.

(** [Ord for SolverPackageRecord] *)
Definition spr_cmp `{Itertools} (self other : SolverPackageRecord) : option comparison :=
  match then_with (package_name_cmp (spr_name self) (spr_name other))
          (option_cmp str_cmp (spr_extra self) (spr_extra other)) with
  | Eq =>
      v ← match spr_version self, spr_version other with
          | Some a, Some b => version_cmp a b
          | a, b => Some (option_cmp (λ _ _, Eq) a b)
          end;
      Some (then_with v (then_with (N.compare (spr_build_number self) (spr_build_number other))
                           (option_cmp Z.compare (spr_timestamp self) (spr_timestamp other))))
  | c => Some c
  end.

(** The arena of solvables of [resolvo::utils::Pool]. *)
Class SolvablePool := {
  Pool : Type;
  SolvableId : Type;
  #[global] solvable_id_eq_dec :: EqDecision SolvableId;
  #[global] solvable_id_countable :: Countable SolvableId;
  pool_default : Pool;
  intern_solvable : Pool → NameType → SolverPackageRecord → Pool * SolvableId;
  resolve_solvable : Pool → SolvableId → option (NameType * SolverPackageRecord);
  intern_solvable_fresh p n r : resolve_solvable p (intern_solvable p n r).2 = None;
  intern_solvable_resolve p n r id :
    resolve_solvable (intern_solvable p n r).1 id =
    if decide (id = (intern_solvable p n r).2) then Some (n, r) else resolve_solvable p id
}.

(** An arena is a list. *)
#[export, refine] Instance solvable_arena : SolvablePool := {|
  Pool := list (NameType * SolverPackageRecord);
  SolvableId := nat;
  pool_default := [];
  intern_solvable p n r := (p ++ [(n, r)], length p);
  resolve_solvable p id := p !! id
|}.
Proof.
  - intros p n r. by apply lookup_ge_None_2.
  - intros p n r id. simpl. case_decide as Hid; [subst; by rewrite lookup_app_r, Nat.sub_diag|].
    destruct (decide (id < length p)); [by rewrite lookup_app_l|].
    rewrite !lookup_ge_None_2; [done| |rewrite length_app; simpl]; lia.
Defined.

(** How a cutoff is shown: the time zone of the system is asked for. *)
Class ShowTime := { strftime : Z → text }.

Section provider.
Context `{IT : Itertools} `{GL : Glob} `{FR : FancyRegex} `{UC : UrlCrate} `{SP : SolvablePool} `{ST : ShowTime}.

Inductive SolverMatchSpec : Type := SMatchSpec (spec : NamelessMatchSpec) | SExtraSpec.

(** [SolveError], the part the provider returns; and the panics *)
Inductive SolveError : Type := DuplicateRecords (filename : text).

Record RepoDataInput := mkRepoDataInput {
  rdi_records : list RepoDataRecord;
  rdi_multi_channel : option text
}.

(** [resolvo::Candidates] *)
Record Candidates := mkCandidates {
  candidates : list SolvableId;
  favored : option SolvableId;
  locked : option SolvableId;
  excluded : list (SolvableId * text);
  hint_all : bool
}.
Definition candidates_default : Candidates := mkCandidates [] None None [] false.
Definition push_candidate (s : SolvableId) (c : Candidates) : Candidates :=
  mkCandidates (candidates c ++ [s]) (favored c) (locked c) (excluded c) (hint_all c).
Definition push_excluded (e : SolvableId * text) (c : Candidates) : Candidates :=
  mkCandidates (candidates c) (favored c) (locked c) (excluded c ++ [e]) (hint_all c).
Definition set_favored (s : SolvableId) (c : Candidates) : Candidates :=
  mkCandidates (candidates c) (Some s) (locked c) (excluded c) (hint_all c).
Definition set_locked (s : SolvableId) (c : Candidates) : Candidates :=
  mkCandidates (candidates c) (favored c) (Some s) (excluded c) (hint_all c).
Definition set_hint (c : Candidates) : Candidates :=
  mkCandidates (candidates c) (favored c) (locked c) (excluded c) true.

(** [Display for TimestampExclusionReason] *)
Definition reason_display (reason : TimestampExclusionReason) : text :=
  match reason with
  | MissingIndexedTimestamp => txt "the package has no indexed timestamp"
  | MissingTimestamp => txt "the package has no timestamp"
  | NewerThanCutoff cutoff => txt "the package is uploaded after the cutoff date of " ++ strftime cutoff
  end.

(** What the task rules out: by URL, or by the cutoff. *)
Record Exclusions := mkExclusions {
  ex_candidates : gmap text text;
  ex_newer : option ExcludeNewer
}.

(** The reason [exclude_if_requested] finds. *)
Definition requested_exclusion (ex : Exclusions) (record : RepoDataRecord) : option (option text) :=
  match ex_candidates ex !! rd_url record with
  | Some reason => Some (Some reason)
  | None =>
      match ex_newer ex with
      | None => Some None
      | Some config =>
          reason ← exclusion_reason config record;
          Some (option_map reason_display reason)
      end
  end.
Definition exclude_if_requested (ex : Exclusions) (c : Candidates) (solvable : SolvableId)
    (record : RepoDataRecord) : option (Candidates * bool) :=
  reason ← requested_exclusion ex record;
  Some (match reason with
        | Some reason => (push_excluded (solvable, reason) c, true)
        | None => (c, false)
        end).

(** *** One record per archive name *)

(** [ordered_repodata] and [package_to_type] *)
Record DedupState := mkDedupState {
  dd_ordered : list RepoDataRecord;
  dd_types : gmap ArchiveIdentifier (DistArchiveType * nat * bool)
}.
(** [ordered_repodata[idx] = record] *)
Definition replace_at (idx : nat) (record : RepoDataRecord) (l : list RepoDataRecord)
  : option (list RepoDataRecord) :=
  if decide (idx < length l) then Some (<[idx := record]> l) else None.

(** [excluded] of the loop over the records *)
Definition excluded_by_task (ex : Exclusions) (record : RepoDataRecord) : option bool :=
  if bool_decide (is_Some (ex_candidates ex !! rd_url record)) then Some true
  else match ex_newer ex with Some config => is_excluded config record | None => Some false end.

Definition dedup_step (ex : Exclusions) (record : RepoDataRecord) (s : DedupState)
  : option (result SolveError DedupState) :=
  excluded ← excluded_by_task ex record;
  let identifier := dai_identifier (rd_identifier record) in
  let archive_type := dai_archive_type (rd_identifier record) in
  match dd_types s !! identifier with
  | None =>
      let idx := length (dd_ordered s) in
      Some (Ok (mkDedupState (dd_ordered s ++ [record])
                  (<[identifier := (archive_type, idx, excluded)]> (dd_types s))))
  | Some (prev_archive_type, idx, previous_excluded) =>
      let use (excluded : bool) :=
        ordered ← replace_at idx record (dd_ordered s);
        Some (Ok (mkDedupState ordered (<[identifier := (archive_type, idx, excluded)]> (dd_types s)))) in
      if previous_excluded && negb excluded then use false
      else if excluded && negb previous_excluded then Some (Ok s)
      else
        match cmp_preference archive_type prev_archive_type with
        | Gt => use excluded
        | Lt => Some (Ok s)
        | Eq => Some (Err (DuplicateRecords (dist_archive_identifier_display (rd_identifier record))))
        end
  end.
Fixpoint dedup_loop (ex : Exclusions) (records : list RepoDataRecord) (s : DedupState)
  : option (result SolveError DedupState) :=
  match records with
  | [] => Some (Ok s)
  | record :: records' =>
      r ← dedup_step ex record s;
      match r with
      | Ok s => dedup_loop ex records' s
      | Err e => Some (Err e)
      end
  end.
Definition dedup_records (ex : Exclusions) (records : list RepoDataRecord)
  : option (result SolveError (list RepoDataRecord)) :=
  r ← dedup_loop ex records (mkDedupState [] ∅);
  Some (match r with Ok s => Ok (dd_ordered s) | Err e => Err e end).

(** *** Adding the records of the channels *)

(** The locals of [new] *)
Record NewState := mkNewState {
  nst_pool : Pool;
  nst_records : gmap NameType Candidates;
  nst_found_in_tier : gmap text PriorityTier;
  nst_channel_order : gmap (option text) N;
  nst_tier_order : gmap PriorityTier N
}.
Definition with_candidates (name : NameType) (c : Candidates) (pool : Pool) (s : NewState) : NewState :=
  mkNewState pool (<[name := c]> (nst_records s)) (nst_found_in_tier s) (nst_channel_order s) (nst_tier_order s).
(** [records.entry(name).or_default()] *)
Definition candidates_of (name : NameType) (s : NewState) : Candidates :=
  default candidates_default (nst_records s !! name).

Definition add_virtual (virtual_package : GenericVirtualPackage) (s : NewState) : NewState :=
  let name := name_type_from (gvp_name virtual_package) in
  let '(pool, solvable) := intern_solvable (nst_pool s) name (SVirtualPackage virtual_package) in
  with_candidates name (push_candidate solvable (candidates_of name s)) pool s.

(** The first spec with a channel for the package; [expect] panics on a name that is a pattern. *)
Fixpoint find_channel_spec (specs : list MatchSpec) (name : text) : option (option MatchSpec) :=
  match specs with
  | [] => Some None
  | spec :: specs' =>
      exact ← as_exact (ms_name spec);
      if bool_decide (as_normalized exact = name) then Some (Some spec) else find_channel_spec specs' name
  end.

Definition is_in_requested_channel (spec_channel : Channel) (record : RepoDataRecord)
    (multi_channel : option text) (multi_channels : gset text) : option bool :=
  match name ← ch_name spec_channel; if bool_decide (name ∈ multi_channels) then Some name else None with
  | Some requested => Some (bool_decide (multi_channel = Some requested))
  | None =>
      canonical ← canonical_name spec_channel;
      Some (bool_decide (rd_channel record = Some canonical))
  end.

Record Inputs := mkInputs {
  in_exclusions : Exclusions;
  in_priority : ChannelPriority;
  in_channel_specs : list MatchSpec;
  in_multi_channels : gset text
}.

(** The exclusion of a record that is not from the channel asked for *)
Definition channel_exclusion (inp : Inputs) (record : RepoDataRecord) (multi_channel : option text)
  : option (option text) :=
  spec ← find_channel_spec (in_channel_specs inp) (as_normalized (rec_name (rd_package_record record)));
  match c ← spec; ms_channel c with
  | None => Some None
  | Some spec_channel =>
      requested ← is_in_requested_channel spec_channel record multi_channel (in_multi_channels inp);
      Some (if (requested : bool) then None
            else Some (txt "candidate not in requested channel: '"
                       ++ default (ch_base_url spec_channel) (ch_name spec_channel) ++ txt "'"))
  end.

Definition strict_message (channel : option text) : text :=
  match channel with
  | Some channel => txt "due to strict channel priority not using this option from: '" ++ channel ++ txt "'"
  | None => txt "due to strict channel priority not using from an unknown channel"
  end.

(** The rank of the channel, in flexible mode *)
Definition rank_channel (inp : Inputs) (tier : PriorityTier) (channel : option text) (s : NewState) : NewState :=
  if bool_decide (in_priority inp = Flexible) && bool_decide (nst_channel_order s !! channel = None) then
    let next_rank := N.modulo (N.of_nat (size (nst_tier_order s))) 4294967296 in
    let rank := default next_rank (nst_tier_order s !! tier) in
    mkNewState (nst_pool s) (nst_records s) (nst_found_in_tier s)
      (<[channel := rank]> (nst_channel_order s)) (<[tier := rank]> (nst_tier_order s))
  else s.

(** The body of the loop over [ordered_repodata] *)
Definition add_record (inp : Inputs) (record : RepoDataRecord) (multi_channel : option text) (s : NewState)
  : option NewState :=
  let package_name := name_type_from (rec_name (rd_package_record record)) in
  let '(pool, solvable_id) := intern_solvable (nst_pool s) package_name (SRecord record) in
  let c := push_candidate solvable_id (candidates_of package_name s) in
  let tier := priority_tier_new multi_channel (rd_channel record) in
  let s := rank_channel inp tier (rd_channel record) s in
  '(c, _) ← exclude_if_requested (in_exclusions inp) c solvable_id record;
  unrequested ← channel_exclusion inp record multi_channel;
  match unrequested with
  | Some message => Some (with_candidates package_name (push_excluded (solvable_id, message) c) pool s)
  | None =>
      let s' := with_candidates package_name c pool s in
      if bool_decide (in_priority inp = Strict) then
        let name := as_normalized (rec_name (rd_package_record record)) in
        match nst_found_in_tier s !! name with
        | Some first_tier =>
            if bool_decide (first_tier ≠ tier) then
              Some (with_candidates package_name
                      (push_excluded (solvable_id, strict_message (rd_channel record)) c) pool s)
            else Some s'
        | None =>
            Some (mkNewState (nst_pool s') (nst_records s') (<[name := tier]> (nst_found_in_tier s'))
                    (nst_channel_order s') (nst_tier_order s'))
        end
      else Some s'
  end.

(** The loop over the repodata *)
Fixpoint add_repodata (inp : Inputs) (repodata : list RepoDataInput) (s : NewState)
  : option (result SolveError NewState) :=
  match repodata with
  | [] => Some (Ok s)
  | repo_data :: repodata' =>
      r ← dedup_records (in_exclusions inp) (rdi_records repo_data);
      match r with
      | Err e => Some (Err e)
      | Ok ordered_repodata =>
          s ← for_opt ordered_repodata (λ record, add_record inp record (rdi_multi_channel repo_data)) s;
          add_repodata inp repodata' s
      end
  end.

Definition add_favored (inp : Inputs) (favored_record : RepoDataRecord) (s : NewState) : option NewState :=
  let name := name_type_from (rec_name (rd_package_record favored_record)) in
  let '(pool, solvable) := intern_solvable (nst_pool s) name (SRecord favored_record) in
  let c := push_candidate solvable (candidates_of name s) in
  '(c, was_excluded) ← exclude_if_requested (in_exclusions inp) c solvable favored_record;
  Some (with_candidates name (if (was_excluded : bool) then c else set_favored solvable c) pool s).

Definition add_locked (inp : Inputs) (locked_record : RepoDataRecord) (s : NewState) : option NewState :=
  let name := name_type_from (rec_name (rd_package_record locked_record)) in
  let '(pool, solvable) := intern_solvable (nst_pool s) name (SRecord locked_record) in
  let c := push_candidate solvable (candidates_of name s) in
  '(c, _) ← exclude_if_requested (in_exclusions inp) c solvable locked_record;
  Some (with_candidates name (set_locked solvable c) pool s).

(** *** The provider *)

(** [DependencyOverride]; the prepared rule keeps the spec that it shows *)
Record DependencyOverride := mkDependencyOverride {
  do_package_matcher : MatchSpec;
  do_override_spec : MatchSpec
}.
Definition add_override (rule : DependencyOverride) (m : gmap text (list DependencyOverride))
  : gmap text (list DependencyOverride) :=
  match as_exact (ms_name (do_override_spec rule)) with
  | None => m
  | Some name => <[as_normalized name := default [] (m !! as_normalized name) ++ [rule]]> m
  end.

(** [CondaDependencyProvider] without its caches and the time limit *)
Record Provider := mkProvider {
  pv_pool : Pool;
  pv_records : gmap NameType Candidates;
  pv_strategy : SolveStrategy;
  pv_direct_dependencies : gset NameType;
  pv_overrides : gmap text (list DependencyOverride);
  pv_channel_priority : ChannelPriority;
  pv_channel_order : gmap (option text) N
}.

Definition direct_dependencies (match_specs : list MatchSpec) : gset NameType :=
  list_to_set (name_type_from <$> omap (λ spec, as_exact (ms_name spec)) match_specs).

Definition provider_new (repodata : list RepoDataInput) (favored_records locked_records : list RepoDataRecord)
    (virtual_packages : list GenericVirtualPackage) (match_specs : list MatchSpec)
    (channel_priority : ChannelPriority) (exclude_newer : option ExcludeNewer) (strategy : SolveStrategy)
    (dependency_overrides : list DependencyOverride) (excluded_candidates : gmap text text)
  : option (result SolveError Provider) :=
  let inp := mkInputs (mkExclusions excluded_candidates exclude_newer) channel_priority
               (filter (λ spec, is_Some (ms_channel spec)) match_specs)
               (list_to_set (omap rdi_multi_channel repodata)) in
  let s := foldl (λ s v, add_virtual v s) (mkNewState pool_default ∅ ∅ ∅ ∅) virtual_packages in
  r ← add_repodata inp repodata s;
  match r with
  | Err e => Some (Err e)
  | Ok s =>
      s ← for_opt favored_records (add_favored inp) s;
      s ← for_opt locked_records (add_locked inp) s;
      Some (Ok (mkProvider (nst_pool s) (set_hint <$> nst_records s) strategy
                  (direct_dependencies match_specs)
                  (foldl (λ m rule, add_override rule m) ∅ dependency_overrides)
                  channel_priority (nst_channel_order s)))
  end.

Definition channel_rank (self : Provider) (channel : option text) : N :=
  default 4294967295%N (pv_channel_order self !! channel).

Fixpoint first_override (rules : list DependencyOverride) (record : RepoDataRecord) : option (option MatchSpec) :=
  match rules with
  | [] => Some None
  | rule :: rules' =>
      b ← match_spec_matches (do_package_matcher rule) (rd_package_record record);
      if (b : bool) then Some (Some (do_override_spec rule)) else first_override rules' record
  end.
Definition apply_dependency_override (self : Provider) (record : RepoDataRecord) (dep_name : text)
  : option (option MatchSpec) :=
  match pv_overrides self !! dep_name with
  | None => Some None
  | Some rules => first_override rules record
  end.

(** [get_candidates]: an extra is its own single candidate. *)
Definition add_extra (pool : Pool) (package_name : PackageName) (extra : text) : Pool * SolvableId :=
  intern_solvable pool (NExtra (as_normalized package_name) extra) (SExtra package_name extra).
Definition get_candidates (self : Provider) (name : NameType) : Pool * option Candidates :=
  match name with
  | NBase _ => (pv_pool self, pv_records self !! name)
  | NExtra package extra =>
      let '(pool, solvable) := add_extra (pv_pool self) (package_name_new_unchecked package) extra in
      (pool, Some (mkCandidates [solvable] None None [] true))
  end.

(** The test of [filter_candidates]; extras are never compared with match specs. *)
Definition candidate_matches (spec : NamelessMatchSpec) (record : SolverPackageRecord) (inverse : bool)
  : option bool :=
  match record with
  | SRecord rec => m ← nameless_matches_record spec rec; Some (negb (eqb m inverse))
  | SVirtualPackage rec =>
      v ← version_field (ns_version spec) (gvp_version rec);
      Some (if negb v then inverse
            else if negb (field_ok (ns_build spec) (λ b, string_matcher_matches b (gvp_build_string rec)))
            then inverse else negb inverse)
  | SExtra _ _ => None
  end.
Fixpoint filter_candidates (pool : Pool) (candidates : list SolvableId) (version_set : SolverMatchSpec)
    (inverse : bool) : option (list SolvableId) :=
  match version_set with
  | SExtraSpec => Some (if inverse then [] else candidates)
  | SMatchSpec spec =>
      match candidates with
      | [] => Some []
      | c :: candidates' =>
          '(_, record) ← resolve_solvable pool c;
          b ← candidate_matches spec record inverse;
          rest ← filter_candidates pool candidates' version_set inverse;
          Some (if (b : bool) then c :: rest else rest)
      end
  end.
End provider.
