(* ===== verification/ProviderTheorems.v ===== *)
(** * Properties of the provider

    What [CondaDependencyProvider::new] makes of its inputs: one record per archive
    name, the candidates of every package in order with the reasons that exclude
    them, no way around an exclusion, and channel priority. *)
From S2P Require Import Prelude Externs VersionRepr VersionOrder VersionOps.
From S2P Require Import VersionParse VersionGrammar VersionSource VersionSpec BuildSpec PackageName Subdir.
From S2P Require Import Archive Matchers Records MatchSpecs Redaction SolvePolicy SolveProvider.

Local Notation text := (list N).

(** The distinct elements in the order of their first occurrence. *)
Definition add_distinct `{EqDecision A} (l : list A) (x : A) : list A := if decide (x ∈ l) then l else l ++ [x].
Definition distinct `{EqDecision A} (l : list A) : list A := foldl add_distinct [] l.

Lemma distinct_snoc `{EqDecision A} (l : list A) x : distinct (l ++ [x]) = add_distinct (distinct l) x.
Proof. unfold distinct. by rewrite foldl_app. Qed.
Lemma elem_of_distinct `{EqDecision A} (l : list A) x : x ∈ distinct l ↔ x ∈ l.
Proof.
  induction l as [|y l IH] using rev_ind; [done|]. rewrite distinct_snoc. unfold add_distinct.
  case_decide as Hy; set_solver.
Qed.
Lemma distinct_NoDup `{EqDecision A} (l : list A) : NoDup (distinct l).
Proof.
  induction l as [|y l IH] using rev_ind; [constructor|]. rewrite distinct_snoc. unfold add_distinct.
  case_decide as Hy; [done|]. apply NoDup_app. split; [done|]. split; [set_solver|apply NoDup_singleton].
Qed.

Lemma list_bind_ext_in {A B} (f g : A → list B) (l : list A) :
  (∀ x, x ∈ l → f x = g x) → l ≫= f = l ≫= g.
Proof. intros H. induction l as [|x l IH]; [done|]. simpl. rewrite H by left. f_equal. apply IH. set_solver. Qed.

Section provider.
Context `{IT : Itertools} `{GL : Glob} `{FR : FancyRegex} `{UC : UrlCrate} `{SP : SolvablePool} `{ST : ShowTime}.

(** ** One record per archive name *)
Section dedup.
Context (ex : Exclusions).

Definition archive_name (r : RepoDataRecord) : ArchiveIdentifier := dai_identifier (rd_identifier r).
Definition archive_kind (r : RepoDataRecord) : DistArchiveType := dai_archive_type (rd_identifier r).
Definition ruled_out (r : RepoDataRecord) : bool := default false (excluded_by_task ex r).

(** How much a record is preferred among those of its name: not excluded first, then the format. *)
Definition dedup_rank (r : RepoDataRecord) : N :=
  ((if ruled_out r then 0 else 3) + preference_rank (archive_kind r))%N.

Lemma preference_rank_bound t : (preference_rank t < 3)%N.
Proof. by destruct t as [[]|[]]. Qed.

Lemma dedup_rank_eq r r' : dedup_rank r = dedup_rank r' → ruled_out r = ruled_out r' ∧ archive_kind r = archive_kind r'.
Proof.
  unfold dedup_rank. intros H. pose proof (preference_rank_bound (archive_kind r)).
  pose proof (preference_rank_bound (archive_kind r')).
  assert (ruled_out r = ruled_out r') as E by (destruct (ruled_out r), (ruled_out r'); [done|lia..|done]).
  split; [done|]. rewrite E in H. apply (cmp_eq_iff cmp_preference). rewrite cmp_preference_rank.
  apply N.compare_eq_iff. lia.
Qed.

(** What the loop keeps of the records it has seen. *)
Record dedup_inv (seen : list RepoDataRecord) (s : DedupState) : Prop := {
  di_names : archive_name <$> dd_ordered s = distinct (archive_name <$> seen);
  di_types i r : dd_ordered s !! i = Some r →
    dd_types s !! archive_name r = Some (archive_kind r, i, ruled_out r);
  di_dom name : is_Some (dd_types s !! name) → name ∈ archive_name <$> seen;
  di_seen r : r ∈ dd_ordered s → r ∈ seen;
  di_best r r' : r ∈ dd_ordered s → r' ∈ seen → archive_name r' = archive_name r → (dedup_rank r' <= dedup_rank r)%N;
  di_unique i j r a b : r ∈ dd_ordered s → seen !! i = Some a → seen !! j = Some b →
    archive_name a = archive_name r → archive_name b = archive_name r →
    dedup_rank a = dedup_rank r → dedup_rank b = dedup_rank r → i = j
}.

Lemma dedup_inv_nil : dedup_inv [] (mkDedupState [] ∅).
Proof.
  split; simpl; [done|done| |done|set_solver|set_solver].
  intros name [e He]. by rewrite lookup_empty in He.
Qed.

(** The record kept for a name. *)
Lemma dedup_inv_lookup seen s name e : dedup_inv seen s → dd_types s !! name = Some e →
  ∃ i r, dd_ordered s !! i = Some r ∧ archive_name r = name ∧ e = (archive_kind r, i, ruled_out r).
Proof.
  intros H He. assert (name ∈ archive_name <$> dd_ordered s) as Hn.
  { rewrite (di_names _ _ H), elem_of_distinct. apply (di_dom _ _ H). by eexists. }
  apply list_elem_of_fmap in Hn as (r & -> & [i Hi]%list_elem_of_lookup). exists i, r.
  split; [done|]. split; [done|]. rewrite (di_types _ _ H i r Hi) in He. congruence.
Qed.

Lemma dedup_inv_other seen s i r r' j : dedup_inv seen s → dd_ordered s !! i = Some r → dd_ordered s !! j = Some r' →
  archive_name r = archive_name r' → i = j.
Proof.
  intros H Hi Hj E. pose proof (di_types _ _ H i r Hi) as H1. pose proof (di_types _ _ H j r' Hj) as H2.
  rewrite E in H1. congruence.
Qed.

(** A record of a name not yet seen. *)
Lemma dedup_inv_new seen s r : dedup_inv seen s → dd_types s !! archive_name r = None →
  dedup_inv (seen ++ [r]) (mkDedupState (dd_ordered s ++ [r])
    (<[archive_name r := (archive_kind r, length (dd_ordered s), ruled_out r)]> (dd_types s))).
Proof.
  intros H Hn. assert (∀ r', r' ∈ dd_ordered s → archive_name r' ≠ archive_name r) as Hne.
  { intros r' [i Hi]%list_elem_of_lookup E. pose proof (di_types _ _ H i r' Hi). rewrite E in *. congruence. }
  assert (archive_name r ∉ archive_name <$> seen) as Hnew.
  { rewrite <-(elem_of_distinct (archive_name <$> seen)), <-(di_names _ _ H).
    intros (r' & E & Hr')%list_elem_of_fmap. by apply (Hne r'). }
  assert (∀ r', r' ∈ seen → archive_name r' ≠ archive_name r) as Hsn.
  { intros r' Hr' E. apply Hnew. rewrite <-E. by apply list_elem_of_fmap_2. }
  split; simpl.
  - rewrite !fmap_app. change (archive_name <$> [r]) with [archive_name r].
    rewrite distinct_snoc, <-(di_names _ _ H). unfold add_distinct.
    rewrite decide_False; [done|]. intros (r' & E & Hr')%list_elem_of_fmap. by apply (Hne r').
  - intros i r' [Hi|[Hi Hr']]%lookup_app_Some.
    + rewrite lookup_insert_ne; [by apply (di_types _ _ H)|]. intros E. apply (Hne r'); [|done].
      by eapply list_elem_of_lookup_2.
    + apply list_lookup_singleton_Some in Hr' as [Hi0 <-]. rewrite lookup_insert_eq. do 3 f_equal. lia.
  - intros name Hd. rewrite fmap_app, elem_of_app. destruct (decide (archive_name r = name)) as [<-|Hn'];
      [right; set_solver|]. rewrite lookup_insert_ne in Hd by done. left. by apply (di_dom _ _ H).
  - intros r' [Hr'|Hr']%elem_of_app; [apply elem_of_app; left; by apply (di_seen _ _ H)|set_solver].
  - intros a b [Ha|Ha]%elem_of_app [Hb|Hb]%elem_of_app E;
      try apply list_elem_of_singleton in Ha as ->; try apply list_elem_of_singleton in Hb as ->; try lia.
    + by apply (di_best _ _ H).
    + by destruct (Hne a Ha).
    + by destruct (Hsn b Hb).
  - intros i j x a b [Hx|Hx]%elem_of_app Ha Hb Ea Eb Ra Rb.
    + assert (∀ k c, (seen ++ [r]) !! k = Some c → archive_name c = archive_name x → seen !! k = Some c) as Hold.
      { intros k c [Hk|[_ Hk]]%lookup_app_Some E; [done|].
        apply list_lookup_singleton_Some in Hk as [_ <-]. by destruct (Hne x Hx). }
      apply (di_unique _ _ H i j x a b); auto.
    + apply list_elem_of_singleton in Hx as ->.
      assert (∀ k c, (seen ++ [r]) !! k = Some c → archive_name c = archive_name r → k = length seen) as Hlast.
      { intros k c [Hk|[Hk Hc]]%lookup_app_Some E.
        - destruct (Hsn c); [by eapply list_elem_of_lookup_2|done].
        - apply list_lookup_singleton_Some in Hc as [Hc _]. lia. }
      rewrite (Hlast i a), (Hlast j b) by done. done.
Qed.

(** A record that is worse than the one kept. *)
Lemma dedup_inv_keep seen s r i r0 : dedup_inv seen s → dd_ordered s !! i = Some r0 →
  archive_name r0 = archive_name r → (dedup_rank r < dedup_rank r0)%N → dedup_inv (seen ++ [r]) s.
Proof.
  intros H Hi En Hlt. assert (∀ x, x ∈ dd_ordered s → archive_name r = archive_name x → x = r0) as Hx.
  { intros x [j Hj]%list_elem_of_lookup E. rewrite <-En in E.
    assert (i = j) as -> by by eapply dedup_inv_other. congruence. }
  assert (∀ k c x, (seen ++ [r]) !! k = Some c → x ∈ dd_ordered s → archive_name c = archive_name x →
    dedup_rank c = dedup_rank x → seen !! k = Some c) as Hold.
  { intros k c x [Hk|[_ Hk]]%lookup_app_Some Hxs E R; [done|].
    apply list_lookup_singleton_Some in Hk as [_ <-]. apply Hx in E as ->; [lia|done]. }
  split.
  - rewrite fmap_app. change (archive_name <$> [r]) with [archive_name r].
    rewrite distinct_snoc, <-(di_names _ _ H). unfold add_distinct. rewrite decide_True; [done|].
    rewrite <-En. apply list_elem_of_fmap_2. by eapply list_elem_of_lookup_2.
  - apply (di_types _ _ H).
  - intros name Hd. rewrite fmap_app, elem_of_app. left. by apply (di_dom _ _ H).
  - intros x Hxs. apply elem_of_app. left. by apply (di_seen _ _ H).
  - intros a b Ha [Hb|Hb]%elem_of_app E; [by apply (di_best _ _ H)|].
    apply list_elem_of_singleton in Hb as ->. apply Hx in E as ->; [lia|done].
  - intros j k x a b Hxs Ha Hb Ea Eb Ra Rb. apply (di_unique _ _ H j k x a b); eauto.
Qed.

(** A record that is better than the one kept. *)
Lemma dedup_inv_replace seen s r i r0 : dedup_inv seen s → dd_ordered s !! i = Some r0 →
  archive_name r0 = archive_name r → (dedup_rank r0 < dedup_rank r)%N →
  dedup_inv (seen ++ [r]) (mkDedupState (<[i := r]> (dd_ordered s))
    (<[archive_name r := (archive_kind r, i, ruled_out r)]> (dd_types s))).
Proof.
  intros H Hi En Hlt. pose proof (lookup_lt_Some _ _ _ Hi) as Hil.
  assert (∀ x, x ∈ <[i := r]> (dd_ordered s) → x = r ∨ (x ∈ dd_ordered s ∧ archive_name x ≠ archive_name r)) as Hx.
  { intros x [j Hj]%list_elem_of_lookup. apply list_lookup_insert_Some in Hj as [(<- & <- & _)|[Hij Hj]]; [by left|].
    right. split; [by eapply list_elem_of_lookup_2|]. intros E. rewrite <-En in E.
    apply Hij. symmetry. by eapply dedup_inv_other. }
  assert (∀ c, c ∈ seen → archive_name c = archive_name r → (dedup_rank c < dedup_rank r)%N) as Hless.
  { intros c Hc E. eapply N.le_lt_trans; [|exact Hlt]. apply (di_best _ _ H); [|done|congruence].
    by eapply list_elem_of_lookup_2. }
  split; simpl.
  - rewrite fmap_app. change (archive_name <$> [r]) with [archive_name r].
    rewrite distinct_snoc, <-(di_names _ _ H). unfold add_distinct. rewrite decide_True.
    + rewrite list_fmap_insert. apply list_insert_id. rewrite list_lookup_fmap, Hi. simpl. by rewrite En.
    + rewrite <-En. apply list_elem_of_fmap_2. by eapply list_elem_of_lookup_2.
  - intros j x Hj. apply list_lookup_insert_Some in Hj as [(<- & <- & _)|[Hij Hj]]; [by rewrite lookup_insert_eq|].
    rewrite lookup_insert_ne; [by apply (di_types _ _ H)|]. intros E. apply Hij.
    apply (dedup_inv_other seen s i r0 x j); congruence.
  - intros name Hd. rewrite fmap_app, elem_of_app. destruct (decide (archive_name r = name)) as [<-|Hn];
      [right; set_solver|]. rewrite lookup_insert_ne in Hd by done. left. by apply (di_dom _ _ H).
  - intros x [->|[Hxs _]]%Hx; apply elem_of_app; [right; set_solver|left; by apply (di_seen _ _ H)].
  - intros a b [->|[Ha Hne]]%Hx [Hb|Hb]%elem_of_app E; try apply list_elem_of_singleton in Hb as ->.
    + apply N.lt_le_incl. by apply Hless.
    + done.
    + by apply (di_best _ _ H).
    + congruence.
  - intros j k x a b [->|[Hxs Hne]]%Hx Ha Hb Ea Eb Ra Rb.
    + assert (∀ k c, (seen ++ [r]) !! k = Some c → archive_name c = archive_name r →
        dedup_rank c = dedup_rank r → k = length seen) as Hlast.
      { intros l c [Hl|[Hl Hc]]%lookup_app_Some E R.
        - apply list_elem_of_lookup_2 in Hl. specialize (Hless c Hl E). lia.
        - apply list_lookup_singleton_Some in Hc as [Hc _]. lia. }
      rewrite (Hlast j a), (Hlast k b) by done. done.
    + assert (∀ k c, (seen ++ [r]) !! k = Some c → archive_name c = archive_name x → seen !! k = Some c) as Hold.
      { intros l c [Hl|[_ Hl]]%lookup_app_Some E; [done|].
        apply list_lookup_singleton_Some in Hl as [_ <-]. congruence. }
      apply (di_unique _ _ H j k x a b); auto.
Qed.

(** The second of two records that the solver could not tell apart. *)
Definition duplicate (seen : list RepoDataRecord) (r : RepoDataRecord) : Prop :=
  ∃ r0, r0 ∈ seen ∧ archive_name r0 = archive_name r ∧ archive_kind r0 = archive_kind r
    ∧ ruled_out r0 = ruled_out r.

Lemma dedup_step_inv seen s r :
  excluded_by_task ex r = Some (ruled_out r) → dedup_inv seen s →
  (∃ s', dedup_step ex r s = Some (Ok s') ∧ dedup_inv (seen ++ [r]) s')
  ∨ (dedup_step ex r s = Some (Err (DuplicateRecords (dist_archive_identifier_display (rd_identifier r))))
     ∧ duplicate seen r).
Proof.
  intros Hr H. unfold dedup_step. rewrite Hr. cbn [mbind option_bind].
  fold (archive_name r). fold (archive_kind r).
  destruct (dd_types s !! archive_name r) as [[[t i] e]|] eqn:Et.
  2:{ left. eexists. split; [done|]. by apply dedup_inv_new. }
  destruct (dedup_inv_lookup _ _ _ _ H Et) as (i' & r0 & Hi & En & [= -> -> ->]).
  unfold replace_at. rewrite decide_True by by eapply lookup_lt_Some. cbn [mbind option_bind].
  pose proof (preference_rank_bound (archive_kind r)). pose proof (preference_rank_bound (archive_kind r0)).
  pose proof (dedup_inv_keep _ _ r _ _ H Hi En) as Hkeep.
  pose proof (dedup_inv_replace _ _ r _ _ H Hi En) as Hrep.
  unfold dedup_rank in Hkeep, Hrep. rewrite cmp_preference_rank.
  destruct (ruled_out r0) eqn:E0, (ruled_out r) eqn:Er; cbn [andb negb];
    try (left; eexists; split; [done|]; (apply Hkeep || apply Hrep); lia);
    destruct (N.compare_spec (preference_rank (archive_kind r)) (preference_rank (archive_kind r0))) as [E|E|E];
    try (left; eexists; split; [done|]; (apply Hkeep || apply Hrep); lia).
  all: right; split; [done|]; exists r0; split; [apply (di_seen _ _ H); by eapply list_elem_of_lookup_2|];
    split; [done|]; split; [|congruence]; apply (cmp_eq_iff cmp_preference);
    rewrite cmp_preference_rank; apply N.compare_eq_iff; lia.
Qed.

Lemma dedup_loop_inv records : ∀ seen s,
  Forall (λ r, excluded_by_task ex r = Some (ruled_out r)) records → dedup_inv seen s →
  (∃ s', dedup_loop ex records s = Some (Ok s') ∧ dedup_inv (seen ++ records) s')
  ∨ ∃ pre r post, records = pre ++ r :: post ∧ duplicate (seen ++ pre) r
      ∧ dedup_loop ex records s = Some (Err (DuplicateRecords (dist_archive_identifier_display (rd_identifier r)))).
Proof.
  induction records as [|r records IH]; intros seen s Hall H; simpl.
  { left. exists s. by rewrite app_nil_r. }
  apply Forall_cons in Hall as [Hr Hall].
  destruct (dedup_step_inv seen s r Hr H) as [(s' & -> & H')|[-> Hd]]; cbn [mbind option_bind].
  - destruct (IH (seen ++ [r]) s' Hall H') as [(s2 & E & H2)|(pre & r1 & post & -> & Hd & E)].
    + left. exists s2. by rewrite <-app_assoc in H2.
    + right. exists (r :: pre), r1, post. by rewrite <-app_assoc in Hd.
  - right. exists [], r, records. by rewrite app_nil_r.
Qed.

(** C22: Of the records of a channel that share an archive name one is kept, at the place of
    the first: one the task does not rule out if there is one, and of those the one of
    the preferred format, and it is the only one as good.  The error names a record
    that another one of the same name, format and standing precedes. *)
Theorem dedup_records_correct (records : list RepoDataRecord) :
  Forall (λ r, excluded_by_task ex r = Some (ruled_out r)) records →
  ∃ res, dedup_records ex records = Some res ∧
  match res with
  | Ok ordered =>
      archive_name <$> ordered = distinct (archive_name <$> records)
      ∧ ∀ r, r ∈ ordered → r ∈ records
        ∧ (∀ r', r' ∈ records → archive_name r' = archive_name r → (dedup_rank r' <= dedup_rank r)%N)
        ∧ (∀ i j a b, records !! i = Some a → records !! j = Some b →
             archive_name a = archive_name r → archive_name b = archive_name r →
             dedup_rank a = dedup_rank r → dedup_rank b = dedup_rank r → i = j)
  | Err (DuplicateRecords filename) =>
      ∃ pre r post, records = pre ++ r :: post ∧ duplicate pre r
        ∧ filename = dist_archive_identifier_display (rd_identifier r)
  end.
Proof.
  intros Hall. unfold dedup_records.
  destruct (dedup_loop_inv records [] _ Hall dedup_inv_nil) as [(s & -> & H)|(pre & r & post & E & Hd & ->)];
    cbn [mbind option_bind]; eexists; (split; [done|]).
  - split; [apply (di_names _ _ H)|]. intros r Hr. split; [by apply (di_seen _ _ H)|]. split.
    + intros r' Hr'. by apply (di_best _ _ H).
    + intros i j a b. by apply (di_unique _ _ H).
  - by exists pre, r, post.
Qed.
End dedup.

(** ** The candidates of a package

    [new] as a sequence of events, one per solvable it interns. *)
Inductive Event : Type :=
| EVirtual (v : GenericVirtualPackage)
| EChannel (r : RepoDataRecord) (multi_channel : option text)
| EFavored (r : RepoDataRecord)
| ELocked (r : RepoDataRecord).

Definition event_record (e : Event) : SolverPackageRecord :=
  match e with EVirtual v => SVirtualPackage v | EChannel r _ | EFavored r | ELocked r => SRecord r end.
Definition event_name (e : Event) : NameType := name_type_from (spr_name (event_record e)).

Section events.
Context (inp : Inputs).

Definition event_step (e : Event) (s : NewState) : option NewState :=
  match e with
  | EVirtual v => Some (add_virtual v s)
  | EChannel r m => add_record inp r m s
  | EFavored r => add_favored inp r s
  | ELocked r => add_locked inp r s
  end.

(** The exclusions a record meets: of the task, and of its channel. *)
Definition task_reason (r : RepoDataRecord) : option text :=
  default None (requested_exclusion (in_exclusions inp) r).
Definition channel_reason (r : RepoDataRecord) (m : option text) : option text :=
  default None (channel_exclusion inp r m).
Definition event_total (e : Event) : Prop :=
  match e with
  | EVirtual _ => True
  | EChannel r m => is_Some (requested_exclusion (in_exclusions inp) r) ∧ is_Some (channel_exclusion inp r m)
  | EFavored r | ELocked r => is_Some (requested_exclusion (in_exclusions inp) r)
  end.

(** The tier the package is first found in, among the records of channels it may come from. *)
Definition offers_tier (name : NameType) (e : Event) : option PriorityTier :=
  match e with
  | EChannel r m =>
      if bool_decide (event_name e = name ∧ channel_reason r m = None)
      then Some (priority_tier_new m (rd_channel r)) else None
  | _ => None
  end.
Definition first_tier (evs : list Event) (name : NameType) : option PriorityTier :=
  head (omap (offers_tier name) evs).

Definition reasons (evs : list Event) (e : Event) : list text :=
  match e with
  | EVirtual _ => []
  | EChannel r m =>
      option_list (task_reason r) ++
      match channel_reason r m with
      | Some message => [message]
      | None =>
          if bool_decide (in_priority inp = Strict ∧ first_tier evs (event_name e) ≠ Some (priority_tier_new m (rd_channel r)))
          then [strict_message (rd_channel r)] else []
      end
  | EFavored r | ELocked r => option_list (task_reason r)
  end.

Definition favors (x : SolvableId * Event) : option SolvableId :=
  match x.2 with EFavored r => if bool_decide (task_reason r = None) then Some x.1 else None | _ => None end.
Definition locks (x : SolvableId * Event) : option SolvableId :=
  match x.2 with ELocked _ => Some x.1 | _ => None end.

(** The candidates a log of events adds up to. *)
Definition own (log : list (SolvableId * Event)) (name : NameType) : list (SolvableId * Event) :=
  filter (λ x, event_name x.2 = name) log.
Definition logged (log : list (SolvableId * Event)) (name : NameType) : Candidates :=
  let l := own log name in
  mkCandidates l.*1 (last (omap favors l)) (last (omap locks l))
    (l ≫= λ x, pair x.1 <$> reasons log.*2 x.2) false.

(** The channels in the order in which they are met, each with its tier; and the tiers in
    the order of those. *)
Definition intro_step (l : list (option text * PriorityTier)) (e : Event) : list (option text * PriorityTier) :=
  match e with
  | EChannel r m =>
      if decide (rd_channel r ∈ l.*1) then l else l ++ [(rd_channel r, priority_tier_new m (rd_channel r))]
  | _ => l
  end.
Definition introduced (evs : list Event) : list (option text * PriorityTier) := foldl intro_step [] evs.
Definition tier_ranks (evs : list Event) : list PriorityTier := distinct (introduced evs).*2.

(** The ranks are the positions of the tiers. *)
Record rank_inv (evs : list Event) (s : NewState) : Prop := {
  ri_channel c t : (c, t) ∈ introduced evs →
    ∃ i, tier_ranks evs !! i = Some t ∧ nst_channel_order s !! c = Some (N.of_nat i);
  ri_unknown c : nst_channel_order s !! c = None ↔ c ∉ (introduced evs).*1;
  ri_tier t x : nst_tier_order s !! t = Some x ↔ ∃ i, tier_ranks evs !! i = Some t ∧ x = N.of_nat i;
  ri_size : size (nst_tier_order s) = length (tier_ranks evs)
}.
Definition ranks_fit (evs : list Event) : Prop := (N.of_nat (length (tier_ranks evs)) < 4294967296)%N.

Record log_inv (log : list (SolvableId * Event)) (s : NewState) : Prop := {
  li_resolve x : x ∈ log → resolve_solvable (nst_pool s) x.1 = Some (event_name x.2, event_record x.2);
  li_nodup : NoDup log.*1;
  li_candidates name : candidates_of name s = logged log name;
  li_tier name : in_priority inp = Strict → nst_found_in_tier s !! name = first_tier log.*2 (NBase name);
  li_rank : in_priority inp = Flexible → ranks_fit log.*2 → rank_inv log.*2 s
}.

Lemma introduced_snoc evs e : introduced (evs ++ [e]) = intro_step (introduced evs) e.
Proof. unfold introduced. by rewrite foldl_app. Qed.

Lemma tier_ranks_snoc evs e : tier_ranks evs `prefix_of` tier_ranks (evs ++ [e]).
Proof.
  unfold tier_ranks. rewrite introduced_snoc. destruct e as [v|r m|r|r]; simpl; try done.
  case_decide; [done|]. rewrite fmap_app. cbn [fmap list_fmap snd]. rewrite distinct_snoc. unfold add_distinct.
  case_decide; [done|]. by eexists.
Qed.
Lemma ranks_fit_snoc evs e : ranks_fit (evs ++ [e]) → ranks_fit evs.
Proof.
  unfold ranks_fit. destruct (tier_ranks_snoc evs e) as [k E]. rewrite E, length_app. lia.
Qed.

(** A step that leaves the ranks, for an event that introduces no channel. *)
Lemma rank_inv_same evs e s s' :
  intro_step (introduced evs) e = introduced evs → nst_channel_order s' = nst_channel_order s →
  nst_tier_order s' = nst_tier_order s → rank_inv evs s → rank_inv (evs ++ [e]) s'.
Proof.
  intros Ei Hc Ht [H1 H2 H3 H4]. assert (introduced (evs ++ [e]) = introduced evs) as E by by rewrite introduced_snoc.
  assert (tier_ranks (evs ++ [e]) = tier_ranks evs) as E2 by (unfold tier_ranks; by rewrite E).
  split; rewrite ?Hc, ?Ht, ?E2, ?E; try done; intros *; rewrite ?Hc, ?Ht, ?E, ?E2; auto.
Qed.

Lemma rank_channel_inv evs r m s s' :
  in_priority inp = Flexible → ranks_fit (evs ++ [EChannel r m]) → rank_inv evs s →
  nst_channel_order s' = nst_channel_order (rank_channel inp (priority_tier_new m (rd_channel r)) (rd_channel r) s) →
  nst_tier_order s' = nst_tier_order (rank_channel inp (priority_tier_new m (rd_channel r)) (rd_channel r) s) →
  rank_inv (evs ++ [EChannel r m]) s'.
Proof.
  intros Hp Hfit H. set (c := rd_channel r) in *. set (t := priority_tier_new m c) in *. unfold rank_channel.
  rewrite (bool_decide_true (in_priority inp = Flexible)) by done. cbn [andb].
  destruct (decide (c ∈ (introduced evs).*1)) as [Hin|Hnin].
  { assert (nst_channel_order s !! c ≠ None) as Hn by (intros Hn; by apply (ri_unknown _ _ H) in Hn).
    rewrite bool_decide_false by done. intros Hc Ht. apply (rank_inv_same _ _ s); try done.
    simpl. fold c. by rewrite decide_True. }
  rewrite bool_decide_true by by apply (ri_unknown _ _ H). simpl. intros Hc Ht.
  pose proof (ranks_fit_snoc _ _ Hfit) as Hfit0. unfold ranks_fit in Hfit0.
  assert (introduced (evs ++ [EChannel r m]) = introduced evs ++ [(c, t)]) as Ei.
  { rewrite introduced_snoc. simpl. fold c t. by rewrite decide_False. }
  assert (tier_ranks (evs ++ [EChannel r m]) = add_distinct (tier_ranks evs) t) as Et.
  { unfold tier_ranks. rewrite Ei, fmap_app. cbn [fmap list_fmap snd]. by rewrite distinct_snoc. }
  assert (∃ i, add_distinct (tier_ranks evs) t !! i = Some t
    ∧ default (N.of_nat (size (nst_tier_order s)) `mod` 4294967296)%N (nst_tier_order s !! t) = N.of_nat i
    ∧ (t ∈ tier_ranks evs ∨ i = length (tier_ranks evs))) as (i & Hi & Hrank & Hnew).
  { unfold add_distinct. case_decide as Hd.
    - apply list_elem_of_lookup in Hd as [i Hi]. exists i. split; [done|].
      rewrite (proj2 (ri_tier _ _ H t (N.of_nat i))) by eauto. split; [done|left; by eapply list_elem_of_lookup_2].
    - exists (length (tier_ranks evs)). rewrite lookup_app_r, Nat.sub_diag by done. split; [done|].
      assert (nst_tier_order s !! t = None) as ->.
      { destruct (nst_tier_order s !! t) as [x|] eqn:Ex; [|done]. apply (ri_tier _ _ H) in Ex as (j & Hj & _).
        destruct Hd. by eapply list_elem_of_lookup_2. }
      simpl. rewrite (ri_size _ _ H). split; [by apply N.mod_small|by right]. }
  rewrite Hrank in Hc, Ht.
  assert (∀ j u, tier_ranks evs !! j = Some u → add_distinct (tier_ranks evs) t !! j = Some u) as Hold.
  { intros j u Hj. unfold add_distinct. case_decide; [done|]. by apply lookup_app_l_Some. }
  assert (∀ j, add_distinct (tier_ranks evs) t !! j = Some t → j = i) as Hinj.
  { intros j Hj. assert (NoDup (add_distinct (tier_ranks evs) t)) as Hnd.
    { rewrite <-Et. apply distinct_NoDup. } by eapply (NoDup_lookup _ j i t). }
  split.
  - intros d u. rewrite Ei, Et, Hc. intros [Hd|Hd]%elem_of_app.
    + destruct (ri_channel _ _ H d u Hd) as (j & Hj & Ej). exists j. split; [by apply Hold|].
      rewrite lookup_insert_ne; [done|]. intros <-. apply Hnin. apply list_elem_of_fmap. by exists (c, u).
    + apply list_elem_of_singleton in Hd as [= -> ->]. exists i. by rewrite lookup_insert_eq.
  - intros d. rewrite Hc, Ei, fmap_app, not_elem_of_app. cbn [fmap list_fmap fst].
    destruct (decide (c = d)) as [<-|Hd]; [rewrite lookup_insert_eq; set_solver|].
    rewrite lookup_insert_ne, (ri_unknown _ _ H) by done. set_solver.
  - intros u x. rewrite Ht, Et. destruct (decide (t = u)) as [<-|Hu].
    + rewrite lookup_insert_eq. split; [intros [= <-]; eauto|]. intros (j & Hj & ->). by rewrite (Hinj j Hj).
    + rewrite lookup_insert_ne, (ri_tier _ _ H) by done. split; [intros (j & Hj & ->); eauto|].
      intros (j & Hj & ->). exists j. split; [|done]. revert Hj. unfold add_distinct. case_decide; [done|].
      intros [Hj|[_ Hj]]%lookup_app_Some; [done|]. apply list_lookup_singleton_Some in Hj as [_ ?]. congruence.
  - rewrite Ht, Et. unfold add_distinct. case_decide as Hd.
    + apply list_elem_of_lookup in Hd as [j Hj]. rewrite map_size_insert_Some, (ri_size _ _ H); [done|].
      rewrite (proj2 (ri_tier _ _ H t (N.of_nat j))) by eauto. by eexists.
    + rewrite map_size_insert_None, (ri_size _ _ H), length_app; [simpl; lia|].
      destruct (nst_tier_order s !! t) as [x|] eqn:Ex; [|done]. apply (ri_tier _ _ H) in Ex as (j & Hj & _).
      destruct Hd. by eapply list_elem_of_lookup_2.
Qed.

Lemma first_tier_snoc evs e name : first_tier (evs ++ [e]) name =
  match first_tier evs name with Some t => Some t | None => offers_tier name e end.
Proof.
  unfold first_tier. rewrite omap_app. simpl. destruct (omap (offers_tier name) evs); simpl; [|done].
  by destruct (offers_tier name e).
Qed.

(** What was excluded stays excluded for the same reasons. *)
Lemma reasons_snoc evs e x : x ∈ evs → reasons (evs ++ [e]) x = reasons evs x.
Proof.
  intros Hx. destruct x as [v|r m|r|r]; simpl; try done. f_equal.
  destruct (channel_reason r m) eqn:Ec; [done|]. rewrite first_tier_snoc.
  assert (is_Some (first_tier evs (event_name (EChannel r m)))) as [t ->]; [|done].
  unfold first_tier. destruct (omap (offers_tier _) evs) eqn:Eo; [|by eexists].
  exfalso. assert (priority_tier_new m (rd_channel r) ∈ omap (offers_tier (event_name (EChannel r m))) evs) as H.
  { apply list_elem_of_omap. exists (EChannel r m). split; [done|]. simpl. by rewrite bool_decide_true. }
  rewrite Eo in H. by apply elem_of_nil in H.
Qed.

Lemma logged_snoc log id e name :
  logged (log ++ [(id, e)]) name =
  if decide (event_name e = name) then
    mkCandidates ((own log name).*1 ++ [id])
      (match favors (id, e) with Some i => Some i | None => last (omap favors (own log name)) end)
      (match locks (id, e) with Some i => Some i | None => last (omap locks (own log name)) end)
      ((own log name ≫= λ x, pair x.1 <$> reasons log.*2 x.2) ++ (pair id <$> reasons (log.*2 ++ [e]) e)) false
  else logged log name.
Proof.
  unfold logged, own. assert ((log ++ [(id, e)]).*2 = log.*2 ++ [e]) as -> by by rewrite fmap_app.
  rewrite filter_app, filter_cons, filter_nil. cbn [snd].
  assert (∀ l, l ⊆ log → (l ≫= λ x, pair x.1 <$> reasons (log.*2 ++ [e]) x.2)
    = l ≫= λ x, pair x.1 <$> reasons log.*2 x.2) as Hr.
  { intros l Hl. apply list_bind_ext_in. intros x Hx. rewrite reasons_snoc; [done|].
    apply list_elem_of_fmap_2. by apply Hl. }
  assert (filter (λ x : SolvableId * Event, event_name x.2 = name) log ⊆ log) as Hsub.
  { intros x. rewrite list_elem_of_filter. tauto. }
  case_decide; [|by rewrite !app_nil_r, Hr].
  rewrite fmap_app, !omap_app, bind_app, Hr by done. cbn [omap list_omap]. f_equal.
  - destruct (favors (id, e)); [by rewrite last_snoc|by rewrite app_nil_r].
  - destruct (locks (id, e)); [by rewrite last_snoc|by rewrite app_nil_r].
  - cbn [mbind list_bind]. by rewrite app_nil_r.
Qed.

Lemma candidates_of_with name n c pool s :
  candidates_of name (with_candidates n c pool s) = if decide (n = name) then c else candidates_of name s.
Proof.
  unfold candidates_of, with_candidates. simpl. case_decide as Hn; [subst; by rewrite lookup_insert_eq|].
  by rewrite lookup_insert_ne.
Qed.

(** A new solvable extends the log; what is left to show is what its name has now. *)
Lemma log_extend log s s' e pool id :
  intern_solvable (nst_pool s) (event_name e) (event_record e) = (pool, id) → log_inv log s →
  nst_pool s' = pool →
  (∀ name, candidates_of name s' =
     if decide (event_name e = name) then logged (log ++ [(id, e)]) name else candidates_of name s) →
  (∀ name, in_priority inp = Strict →
     nst_found_in_tier s' !! name = match nst_found_in_tier s !! name with
                                    | Some t => Some t | None => offers_tier (NBase name) e end) →
  (in_priority inp = Flexible → ranks_fit (log.*2 ++ [e]) → rank_inv log.*2 s → rank_inv (log.*2 ++ [e]) s') →
  log_inv (log ++ [(id, e)]) s'.
Proof.
  intros Ei [Hres Hnd Hc Ht Hrk] Hp Hc' Ht' Hrk'.
  pose proof (intern_solvable_fresh (nst_pool s) (event_name e) (event_record e)) as Hfresh.
  pose proof (intern_solvable_resolve (nst_pool s) (event_name e) (event_record e)) as Hresolve.
  rewrite Ei in Hfresh, Hresolve. simpl in Hfresh, Hresolve.
  assert (id ∉ log.*1) as Hnew.
  { intros (y & Ey & Hy)%list_elem_of_fmap. apply Hres in Hy. rewrite <-Ey in Hy. congruence. }
  split.
  - intros y [Hy|Hy]%elem_of_app; rewrite Hp, Hresolve.
    + rewrite decide_False; [by apply Hres|]. intros E. apply Hnew. rewrite <-E.
      by apply list_elem_of_fmap_2.
    + apply list_elem_of_singleton in Hy as ->. simpl. by rewrite decide_True.
  - rewrite fmap_app. apply NoDup_app. split; [done|]. split; [|apply NoDup_singleton].
    intros y Hy Hy'. apply list_elem_of_singleton in Hy' as ->. done.
  - intros name. rewrite Hc'. case_decide as Hn; [done|]. rewrite logged_snoc, decide_False by done. apply Hc.
  - intros name Hs. rewrite Ht', fmap_app by done. cbn [fmap list_fmap snd]. rewrite first_tier_snoc, Ht by done. done.
  - rewrite fmap_app. cbn [fmap list_fmap snd]. intros Hf Hfit. apply Hrk'; [done|done|]. apply Hrk; [done|].
    by eapply ranks_fit_snoc.
Qed.

Lemma exclude_if_requested_task c id r :
  is_Some (requested_exclusion (in_exclusions inp) r) →
  exclude_if_requested (in_exclusions inp) c id r =
  Some (match task_reason r with Some m => push_excluded (id, m) c | None => c end, bool_decide (is_Some (task_reason r))).
Proof.
  intros [m E]. unfold exclude_if_requested, task_reason. rewrite E. simpl. by destruct m.
Qed.

Lemma rank_channel_fields tier channel s :
  nst_pool (rank_channel inp tier channel s) = nst_pool s
  ∧ nst_records (rank_channel inp tier channel s) = nst_records s
  ∧ nst_found_in_tier (rank_channel inp tier channel s) = nst_found_in_tier s.
Proof. unfold rank_channel. by destruct (_ && _). Qed.

(** What a name has after one more event. *)
Lemma logged_add log s id e :
  log_inv log s →
  logged (log ++ [(id, e)]) (event_name e) =
  let c := candidates_of (event_name e) s in
  mkCandidates (candidates c ++ [id])
    (match favors (id, e) with Some i => Some i | None => favored c end)
    (match locks (id, e) with Some i => Some i | None => locked c end)
    (excluded c ++ (pair id <$> reasons (log.*2 ++ [e]) e)) (hint_all c).
Proof. intros H. rewrite (li_candidates _ _ H), logged_snoc, decide_True by done. done. Qed.

(** Every step interns one solvable and does not panic. *)
Lemma log_step log s e :
  event_total e → log_inv log s →
  ∃ s' id, event_step e s = Some s' ∧ log_inv (log ++ [(id, e)]) s'.
Proof.
  intros He H.
  destruct (intern_solvable (nst_pool s) (event_name e) (event_record e)) as [pool id] eqn:Ei.
  pose proof (λ s', log_extend log s s' e pool id Ei H) as Hext.
  pose proof (logged_add log s id e H) as Hadd. cbv zeta in Hadd.
  enough (∃ c s', event_step e s = Some s' ∧ nst_pool s' = pool
    ∧ nst_records s' = <[event_name e := c]> (nst_records s) ∧ c = logged (log ++ [(id, e)]) (event_name e)
    ∧ (∀ name, in_priority inp = Strict →
        nst_found_in_tier s' !! name = match nst_found_in_tier s !! name with
                                    | Some t => Some t | None => offers_tier (NBase name) e end)
    ∧ (in_priority inp = Flexible → ranks_fit (log.*2 ++ [e]) → rank_inv log.*2 s → rank_inv (log.*2 ++ [e]) s'))
    as (c & s' & Es & Hp & Hr & Hc & Ht & Hrk).
  { exists s', id. split; [done|]. apply Hext; [done| |done|done]. intros name. unfold candidates_of. rewrite Hr.
    case_decide as Hn; [subst name; by rewrite lookup_insert_eq|by rewrite lookup_insert_ne]. }
  rewrite Hadd. clear Hadd Hext.
  unfold event_name in *. destruct e as [v|r m|r|r]; cbn [event_step event_total event_record spr_name] in *.
  - unfold add_virtual. rewrite Ei. do 2 eexists. split; [done|]. split; [done|]. split; [done|].
    split; [unfold push_candidate; simpl; by rewrite app_nil_r|].
    split; [intros name _; simpl; by destruct (_ !! name)|]. intros _ _ ?. by apply (rank_inv_same _ _ s).
  - destruct He as [Ht [x Ex]]. unfold add_record. rewrite Ei.
    destruct (rank_channel_fields (priority_tier_new m (rd_channel r)) (rd_channel r) s) as (R1 & R2 & R3).
    set (s1 := rank_channel _ _ _ _) in *. rewrite exclude_if_requested_task by done. cbn [mbind option_bind].
    rewrite Ex. cbn [mbind option_bind].
    assert (channel_reason r m = x) as Hx by (unfold channel_reason; by rewrite Ex).
    set (c0 := candidates_of _ s) in *. set (nm := as_normalized (rec_name (rd_package_record r))) in *.
    change (name_type_from (rec_name (rd_package_record r))) with (NBase nm) in *.
    set (c1 := match task_reason r with Some m => push_excluded (id, m) (push_candidate id c0) | None => _ end).
    assert (candidates c1 = candidates c0 ++ [id] ∧ favored c1 = favored c0 ∧ locked c1 = locked c0
      ∧ excluded c1 = excluded c0 ++ (pair id <$> option_list (task_reason r)) ∧ hint_all c1 = hint_all c0)
      as (C1 & C2 & C3 & C4 & C5).
    { unfold c1. destruct (task_reason r); simpl; by rewrite ?app_nil_r. }
    assert (∀ name, offers_tier (NBase name) (EChannel r m) =
      if bool_decide (nm = name ∧ x = None) then Some (priority_tier_new m (rd_channel r)) else None) as Hoff.
    { intros name. unfold offers_tier. rewrite Hx. change (event_name (EChannel r m)) with (NBase nm).
      destruct (decide (nm = name ∧ x = None)) as [[-> ->]|Hn]; [by rewrite !bool_decide_true|].
      rewrite !bool_decide_false; [done|done|]. intros [[= ?] ?]. naive_solver. }
    unfold reasons. rewrite Hx, first_tier_snoc. change (event_name (EChannel r m)) with (NBase nm). rewrite Hoff.
    assert (∀ s', nst_channel_order s' = nst_channel_order s1 → nst_tier_order s' = nst_tier_order s1 →
      in_priority inp = Flexible → ranks_fit (log.*2 ++ [EChannel r m]) → rank_inv log.*2 s →
      rank_inv (log.*2 ++ [EChannel r m]) s') as Hrank.
    { intros s' Hc1 Ht1 Hf Hfit Hri. by apply (rank_channel_inv log.*2 r m s). }
    destruct x as [message|].
    + do 2 eexists. split; [done|].
              cbn [nst_pool nst_records nst_found_in_tier with_candidates]. split; [done|]. split; [by rewrite R2|]. split; [|split; [|by apply Hrank]].
      * unfold push_excluded. rewrite C1, C2, C3, C4, C5, fmap_app, app_assoc. done.
      * intros name _. rewrite Hoff, R3, bool_decide_false by naive_solver. by destruct (_ !! name).
    + rewrite (bool_decide_true (nm = nm ∧ None = None)) by done.
      destruct (decide (in_priority inp = Strict)) as [Hs|Hs].
      * rewrite (bool_decide_true (in_priority inp = Strict)) by done. rewrite R3, (li_tier _ _ H nm Hs).
        destruct (first_tier log.*2 (NBase nm)) as [t|] eqn:Eft.
        -- destruct (decide (t = priority_tier_new m (rd_channel r))) as [Htier|Htier].
           ++ rewrite bool_decide_false by naive_solver.
              rewrite (bool_decide_false (in_priority inp = Strict ∧ _)) by naive_solver.
              do 2 eexists. split; [done|].
              cbn [nst_pool nst_records nst_found_in_tier with_candidates]. split; [done|]. split; [by rewrite R2|]. split; [|split; [|by apply Hrank]].
              ** rewrite app_nil_r, <-C4, <-C1, <-C2, <-C3, <-C5. by destruct c1.
              ** intros name _. rewrite Hoff, R3. destruct (nst_found_in_tier s !! name) eqn:En; [done|].
                 rewrite bool_decide_false; [done|]. intros [E _]. subst name. by rewrite (li_tier _ _ H nm Hs), Eft in En.
           ++ rewrite bool_decide_true by done. rewrite (bool_decide_true (in_priority inp = Strict ∧ _)) by naive_solver.
              do 2 eexists. split; [done|].
              cbn [nst_pool nst_records nst_found_in_tier with_candidates]. split; [done|]. split; [by rewrite R2|]. split; [|split; [|by apply Hrank]].
              ** unfold push_excluded. by rewrite C1, C2, C3, C4, C5, fmap_app, app_assoc.
              ** intros name _. rewrite Hoff, R3. destruct (nst_found_in_tier s !! name) eqn:En; [done|].
                 rewrite bool_decide_false; [done|]. intros [E _]. subst name. by rewrite (li_tier _ _ H nm Hs), Eft in En.
        -- rewrite (bool_decide_false (in_priority inp = Strict ∧ _)) by naive_solver.
           do 2 eexists. split; [done|].
              cbn [nst_pool nst_records nst_found_in_tier with_candidates]. split; [done|]. split; [by rewrite R2|]. split; [|split; [|by apply Hrank]].
           ++ rewrite app_nil_r, <-C4, <-C1, <-C2, <-C3, <-C5. by destruct c1.
           ++ intros name _. rewrite Hoff, R3. destruct (decide (nm = name)) as [<-|Hn].
              ** rewrite lookup_insert_eq, (li_tier _ _ H), Eft, bool_decide_true by done. done.
              ** rewrite lookup_insert_ne, bool_decide_false by naive_solver. by destruct (_ !! name).
      * rewrite (bool_decide_false (in_priority inp = Strict)) by done.
        rewrite (bool_decide_false (in_priority inp = Strict ∧ _)) by naive_solver.
        do 2 eexists. split; [done|].
              cbn [nst_pool nst_records nst_found_in_tier with_candidates]. split; [done|]. split; [by rewrite R2|]. split; [|split; [done|by apply Hrank]].
        rewrite app_nil_r, <-C4, <-C1, <-C2, <-C3, <-C5. by destruct c1.
  - unfold add_favored. rewrite Ei, exclude_if_requested_task by done. cbn [mbind option_bind].
    do 2 eexists. split; [done|]. split; [done|]. split; [done|].
    split; [|split; [intros name _; simpl; by destruct (_ !! name)|intros _ _ ?; by apply (rank_inv_same _ _ s)]].
    unfold favors. cbn [fst snd reasons]. destruct (task_reason r); simpl; [done|]. by rewrite app_nil_r.
  - unfold add_locked. rewrite Ei, exclude_if_requested_task by done. cbn [mbind option_bind].
    do 2 eexists. split; [done|]. split; [done|]. split; [done|].
    split; [|split; [intros name _; simpl; by destruct (_ !! name)|intros _ _ ?; by apply (rank_inv_same _ _ s)]].
    cbn [fst snd reasons]. destruct (task_reason r); simpl; [done|]. by rewrite app_nil_r.
Qed.

Lemma log_run evs : ∀ log s,
  Forall event_total evs → log_inv log s →
  ∃ s' log', for_opt evs event_step s = Some s' ∧ log'.*2 = evs ∧ log_inv (log ++ log') s'.
Proof.
  induction evs as [|e evs IH]; intros log s Hall H; simpl.
  { exists s, []. by rewrite app_nil_r. }
  apply Forall_cons in Hall as [He Hall]. destruct (log_step log s e He H) as (s1 & id & -> & H1).
  cbn [mbind option_bind]. destruct (IH _ s1 Hall H1) as (s2 & log' & -> & <- & H2).
  exists s2, ((id, e) :: log'). by rewrite <-app_assoc in H2.
Qed.

Lemma for_opt_fmap {A} (f : A → Event) (l : list A) s :
  for_opt l (λ a, event_step (f a)) s = for_opt (f <$> l) event_step s.
Proof. revert s. induction l as [|a l IH]; intros s; [done|]. simpl. destruct (event_step (f a) s); [apply IH|done]. Qed.

(** *** Inputs on which nothing panics *)
Definition channel_spec_wf (spec : MatchSpec) : Prop :=
  is_Some (as_exact (ms_name spec)) ∧ asks (ms_channel spec) (λ c, is_Some (canonical_name c)).
Definition inputs_wf : Prop :=
  match ex_newer (in_exclusions inp) with Some config => exclude_newer_wf config | None => True end
  ∧ Forall channel_spec_wf (in_channel_specs inp).
Definition record_wf (r : RepoDataRecord) : Prop := vws_wf (rec_version (rd_package_record r)).

Lemma exclusion_reason_total config r :
  exclude_newer_wf config → record_wf r → is_Some (exclusion_reason config r).
Proof.
  intros Hc Hr. unfold exclusion_reason. destruct (is_exempt_spec config r Hc Hr) as (b & -> & _). by eexists.
Qed.

Lemma task_total r : inputs_wf → record_wf r →
  is_Some (requested_exclusion (in_exclusions inp) r)
  ∧ excluded_by_task (in_exclusions inp) r = Some (bool_decide (is_Some (task_reason r))).
Proof.
  intros [Hc _] Hr. unfold task_reason, requested_exclusion, excluded_by_task, is_excluded.
  destruct (ex_candidates (in_exclusions inp) !! rd_url r) as [u|] eqn:E.
  { split; [by eexists|]. rewrite bool_decide_true by by eexists. done. }
  rewrite bool_decide_false by (by intros [? ?]).
  destruct (ex_newer (in_exclusions inp)) as [config|]; [|split; [by eexists|done]].
  destruct (exclusion_reason_total config r Hc Hr) as [x ->]. cbn [mbind option_bind default].
  split; [by eexists|]. destruct x; done.
Qed.

Lemma channel_total r m : inputs_wf → is_Some (channel_exclusion inp r m).
Proof.
  intros [_ Hs]. unfold channel_exclusion.
  assert (∃ o, find_channel_spec (in_channel_specs inp) (as_normalized (rec_name (rd_package_record r))) = Some o
    ∧ asks o channel_spec_wf) as (o & -> & Ho).
  { induction Hs as [|spec l Hsp _ IH]; simpl; [by eexists|]. pose proof Hsp as [[x ->] _]. cbn [mbind option_bind].
    case_bool_decide; [by eexists|done]. }
  cbn [mbind option_bind]. destruct o as [spec|]; simpl; [|by eexists]. destruct Ho as [_ Ho].
  destruct (ms_channel spec) as [c|]; [|by eexists]. unfold is_in_requested_channel.
  destruct (name ← ch_name c; _); cbn [mbind option_bind]; [by eexists|].
  destruct Ho as [name ->]. by eexists.
Qed.

(** *** The loop over the channels *)
Definition channel_events (repodata : list RepoDataInput) (kept : list (list RepoDataRecord)) : list Event :=
  concat (zip_with (λ repo k, (λ r, EChannel r (rdi_multi_channel repo)) <$> k) repodata kept).

Lemma dedup_records_subset ex records k : 
  Forall (λ r, excluded_by_task ex r = Some (ruled_out ex r)) records →
  dedup_records ex records = Some (Ok k) → ∀ r, r ∈ k → r ∈ records.
Proof.
  intros Hall. unfold dedup_records.
  destruct (dedup_loop_inv ex records [] _ Hall (dedup_inv_nil ex)) as [(s & -> & H)|(pre & r & post & E & Hd & ->)];
    cbn [mbind option_bind]; [|done]. intros [= <-] r Hr. by apply (di_seen _ _ _ H).
Qed.

Lemma add_repodata_run repodata : ∀ log s,
  inputs_wf → Forall (λ repo, Forall record_wf (rdi_records repo)) repodata → log_inv log s →
  ∃ res, add_repodata inp repodata s = Some res ∧
  match res with
  | Err e => ∃ repo, repo ∈ repodata ∧ dedup_records (in_exclusions inp) (rdi_records repo) = Some (Err e)
  | Ok s' => ∃ kept log',
      Forall2 (λ repo k, dedup_records (in_exclusions inp) (rdi_records repo) = Some (Ok k)) repodata kept
      ∧ log'.*2 = channel_events repodata kept ∧ log_inv (log ++ log') s'
  end.
Proof.
  induction repodata as [|repo repodata IH]; intros log s Hin Hwf H.
  { exists (Ok s). split; [done|]. exists [], []. by rewrite app_nil_r. }
  apply Forall_cons in Hwf as [Hrepo Hwf]. cbn [add_repodata].
  assert (Forall (λ r, excluded_by_task (in_exclusions inp) r = Some (ruled_out (in_exclusions inp) r)) (rdi_records repo))
    as Hall.
  { eapply Forall_impl; [exact Hrepo|]. intros r Hr. destruct (task_total r Hin Hr) as [_ E].
    unfold ruled_out. by rewrite E. }
  assert (∃ res, dedup_records (in_exclusions inp) (rdi_records repo) = Some res) as [res Eres].
  { unfold dedup_records.
    destruct (dedup_loop_inv _ (rdi_records repo) [] _ Hall (dedup_inv_nil _)) as [(s1 & -> & _)|(? & ? & ? & _ & _ & ->)];
      by eexists. }
  rewrite Eres. cbn [mbind option_bind]. destruct res as [k|e].
  2:{ exists (Err e). split; [done|]. exists repo. split; [by left|done]. }
  rewrite (for_opt_fmap (λ r, EChannel r (rdi_multi_channel repo))).
  destruct (log_run ((λ r, EChannel r (rdi_multi_channel repo)) <$> k) log s) as (s1 & log1 & -> & E1 & H1); [|done|].
  { apply Forall_fmap, Forall_forall. intros r Hr. simpl.
    assert (record_wf r) as Hrw.
    { rewrite Forall_forall in Hrepo. apply Hrepo. by eapply dedup_records_subset. }
    split; [by apply task_total|by apply channel_total]. }
  cbn [mbind option_bind]. destruct (IH _ s1 Hin Hwf H1) as (res & -> & Hres). exists res. split; [done|].
  destruct res as [s2|e].
  - destruct Hres as (kept & log2 & HF & E2 & H2). exists (k :: kept), (log1 ++ log2).
    split; [by constructor|]. rewrite app_assoc. split; [|done]. rewrite fmap_app, E1, E2. done.
  - destruct Hres as (repo' & Hr & E). exists repo'. split; [by right|done].
Qed.
End events.

(** ** The whole of [new] *)
Section new.
Context (repodata : list RepoDataInput) (favored_records locked_records : list RepoDataRecord)
  (virtual_packages : list GenericVirtualPackage) (match_specs : list MatchSpec)
  (priority : ChannelPriority) (exclude_newer : option ExcludeNewer) (strategy : SolveStrategy)
  (overrides : list DependencyOverride) (excluded_candidates : gmap text text).

Definition new_inputs : Inputs :=
  mkInputs (mkExclusions excluded_candidates exclude_newer) priority
    (filter (λ spec, is_Some (ms_channel spec)) match_specs) (list_to_set (omap rdi_multi_channel repodata)).
Definition new : option (result SolveError Provider) :=
  provider_new repodata favored_records locked_records virtual_packages match_specs priority exclude_newer
    strategy overrides excluded_candidates.

(** Versions of records are well formed, the specs of the cutoff too; a spec with a channel
    names one package, and the URL of its channel is one. *)
Definition task_wf : Prop :=
  inputs_wf new_inputs ∧ Forall (λ repo, Forall record_wf (rdi_records repo)) repodata
  ∧ Forall record_wf favored_records ∧ Forall record_wf locked_records.

Definition new_events (kept : list (list RepoDataRecord)) : list Event :=
  (EVirtual <$> virtual_packages) ++ channel_events repodata kept
  ++ (EFavored <$> favored_records) ++ (ELocked <$> locked_records).

(** The log of a provider: its events, and the solvable each of them interned. *)
Record provider_log (p : Provider) (kept : list (list RepoDataRecord)) (log : list (SolvableId * Event)) : Prop := {
  pl_kept : Forall2 (λ repo k, dedup_records (in_exclusions new_inputs) (rdi_records repo) = Some (Ok k)) repodata kept;
  pl_events : log.*2 = new_events kept;
  pl_nodup : NoDup log.*1;
  pl_resolve x : x ∈ log → resolve_solvable (pv_pool p) x.1 = Some (event_name x.2, event_record x.2);
  pl_candidates name : default (set_hint candidates_default) (pv_records p !! name)
    = set_hint (logged new_inputs log name);
  pl_channel c t : priority = Flexible → ranks_fit (new_events kept) → (c, t) ∈ introduced (new_events kept) →
    ∃ i, tier_ranks (new_events kept) !! i = Some t ∧ pv_channel_order p !! c = Some (N.of_nat i);
  pl_unknown c : priority = Flexible → ranks_fit (new_events kept) →
    c ∉ (introduced (new_events kept)).*1 → pv_channel_order p !! c = None
}.

Lemma provider_new_log :
  task_wf →
  ∃ res, new = Some res ∧
  match res with
  | Err e => ∃ repo, repo ∈ repodata
      ∧ dedup_records (mkExclusions excluded_candidates exclude_newer) (rdi_records repo) = Some (Err e)
  | Ok p => ∃ kept log, provider_log p kept log
  end.
Proof.
  intros (Hin & Hrepo & Hfav & Hlock). unfold new, provider_new. fold new_inputs.
  assert (foldl (λ s v, add_virtual v s) (mkNewState pool_default ∅ ∅ ∅ ∅) virtual_packages = 
    default (mkNewState pool_default ∅ ∅ ∅ ∅)
      (for_opt (EVirtual <$> virtual_packages) (event_step new_inputs) (mkNewState pool_default ∅ ∅ ∅ ∅))) as ->.
  { generalize (mkNewState pool_default ∅ ∅ ∅ ∅) at 1 3 as s. generalize (mkNewState pool_default ∅ ∅ ∅ ∅) as d.
    induction virtual_packages as [|v l IH]; intros d s; [done|]. simpl. by rewrite (IH d). }
  assert (log_inv new_inputs [] (mkNewState pool_default ∅ ∅ ∅ ∅)) as H0.
  { split; try done; [intros x Hx; by apply elem_of_nil in Hx|constructor|].
    intros _ _. split; simpl; [set_solver|intros c; rewrite lookup_empty; set_solver| |done].
    intros t x. rewrite lookup_empty. split; [done|]. by intros (i & ? & _). }
  destruct (log_run new_inputs (EVirtual <$> virtual_packages) [] _ ltac:(by apply Forall_fmap, Forall_true) H0)
    as (s1 & log1 & -> & E1 & H1). simpl (default _ _). simpl (_ ++ _) in H1.
  destruct (add_repodata_run new_inputs repodata log1 s1 Hin Hrepo H1) as ([s2|e] & -> & Hres);
    cbn [mbind option_bind]; [|by exists (Err e)].
  destruct Hres as (kept & log2 & HF & E2 & H2).
  change (add_favored new_inputs) with (λ r, event_step new_inputs (EFavored r)). rewrite (for_opt_fmap _ EFavored).
  destruct (log_run new_inputs (EFavored <$> favored_records) (log1 ++ log2) s2) as (s3 & log3 & -> & E3 & H3); [|done|].
  { apply Forall_fmap. eapply Forall_impl; [exact Hfav|]. intros r Hr. by apply (task_total new_inputs r Hin Hr). }
  cbn [mbind option_bind].
  change (add_locked new_inputs) with (λ r, event_step new_inputs (ELocked r)). rewrite (for_opt_fmap _ ELocked).
  destruct (log_run new_inputs (ELocked <$> locked_records) ((log1 ++ log2) ++ log3) s3) as (s4 & log4 & -> & E4 & H4); [|done|].
  { apply Forall_fmap. eapply Forall_impl; [exact Hlock|]. intros r Hr. by apply (task_total new_inputs r Hin Hr). }
  cbn [mbind option_bind]. eexists. split; [done|].
  exists kept, (((log1 ++ log2) ++ log3) ++ log4). destruct H4 as [A1 A2 A3 A4 A5].
  assert ((((log1 ++ log2) ++ log3) ++ log4).*2 = new_events kept) as Eevs.
  { rewrite !fmap_app, E1, E2, E3, E4. unfold new_events. by rewrite !app_assoc. }
  split; simpl; [done|done|done|done| | |].
  - intros name. rewrite <-A3. unfold candidates_of. rewrite lookup_fmap. by destruct (nst_records s4 !! name).
  - intros c t Hf Hfit Hc. rewrite <-Eevs in *. by apply (ri_channel _ _ (A5 Hf Hfit)).
  - intros c Hf Hfit Hc. rewrite <-Eevs in *. by apply (ri_unknown _ _ (A5 Hf Hfit)).
Qed.

(** The solvables of the records of a channel, and why they are excluded. *)
Lemma pl_in p kept log name x :
  provider_log p kept log → x ∈ own log name ↔ x ∈ log ∧ event_name x.2 = name.
Proof. intros _. unfold own. rewrite list_elem_of_filter. tauto. Qed.

(** C19: What [new] makes of its inputs.  It never panics, and fails only on records of one
    channel that it cannot tell apart.  The candidates of a package are its virtual
    packages, the records kept of the channels in order, the favored and the locked
    records, each a solvable of its own; a solvable is excluded for the reasons its
    record meets; the favored candidate is the last favored record that the task does
    not rule out, the locked one the last locked record. *)
Theorem provider_new_correct :
  task_wf →
  ∃ res, new = Some res ∧
  match res with
  | Err e => ∃ repo, repo ∈ repodata
      ∧ dedup_records (mkExclusions excluded_candidates exclude_newer) (rdi_records repo) = Some (Err e)
  | Ok p => ∃ kept ids,
      Forall2 (λ repo k, dedup_records (mkExclusions excluded_candidates exclude_newer) (rdi_records repo)
        = Some (Ok k)) repodata kept
      ∧ length ids = length (new_events kept) ∧ NoDup ids
      ∧ (∀ i id e, ids !! i = Some id → new_events kept !! i = Some e →
           resolve_solvable (pv_pool p) id = Some (event_name e, event_record e))
      ∧ ∀ name, let own := filter (λ x, event_name x.2 = name) (zip ids (new_events kept)) in
          default (set_hint candidates_default) (pv_records p !! name) =
          mkCandidates own.*1 (last (omap (favors new_inputs) own)) (last (omap locks own))
            (own ≫= λ x, pair x.1 <$> reasons new_inputs (new_events kept) x.2) true
  end.
Proof.
  intros Hwf. destruct (provider_new_log Hwf) as (res & E & Hres). exists res. split; [done|].
  destruct res as [p|e]; [|done]. destruct Hres as (kept & log & [H1 H2 H3 H4 H5 _ _]).
  exists kept, log.*1. assert (zip log.*1 (new_events kept) = log) as Ez.
  { rewrite <-H2. apply zip_fst_snd. }
  split; [done|]. split; [rewrite <-H2; by rewrite !length_fmap|]. split; [done|]. split.
  - intros i id e Hi He. rewrite <-H2 in He. rewrite list_lookup_fmap in Hi. rewrite list_lookup_fmap in He.
    destruct (log !! i) as [x|] eqn:Ex; [|done]. simpl in Hi, He. simplify_eq.
    apply H4. by eapply list_elem_of_lookup_2.
  - intros name. rewrite Ez, H5. unfold logged, set_hint, own. simpl. by rewrite H2.
Qed.

(** C20: No way around an exclusion.  A candidate whose record the task rules out, by URL or
    by the cutoff, is excluded whichever input it came from, and is never the favored one. *)
Theorem provider_exclusions_hold :
  task_wf →
  ∃ res, new = Some res ∧
  match res with
  | Err _ => True
  | Ok p => ∀ name c id n r, pv_records p !! name = Some c → id ∈ candidates c →
      resolve_solvable (pv_pool p) id = Some (n, SRecord r) →
      is_Some (task_reason new_inputs r) → id ∈ (excluded c).*1 ∧ favored c ≠ Some id
  end.
Proof.
  intros Hwf. destruct (provider_new_log Hwf) as (res & E & Hres). exists res. split; [done|].
  destruct res as [p|e]; [|done]. destruct Hres as (kept & log & [H1 H2 H3 H4 H5 _ _]).
  intros name c id n r Hc Hid Hr [reason Hreason]. specialize (H5 name). rewrite Hc in H5. simpl in H5. subst c.
  unfold logged in Hid. simpl in Hid. apply list_elem_of_fmap in Hid as ([id' e] & -> & Hx). simpl in *.
  unfold own in Hx. apply list_elem_of_filter in Hx as [Hn Hx]. pose proof (H4 _ Hx) as Hres. cbn [fst snd] in Hres. rewrite Hr in Hres.
  injection Hres as -> Hrec.
  assert (id' ∈ (excluded (logged new_inputs log name)).*1) as Hex.
  { simpl. apply list_elem_of_fmap. exists (id', reason). split; [done|]. apply list_elem_of_bind.
    exists (id', e). split; [|unfold own; by apply list_elem_of_filter].
    apply list_elem_of_fmap. exists reason. split; [done|]. simpl.
    destruct e; simpl in Hrec; simplify_eq; simpl; rewrite Hreason; set_solver. }
  split; [done|]. unfold logged. simpl. intros Hl. apply last_Some_elem_of in Hl.
  apply list_elem_of_omap in Hl as ([id2 e2] & Hx2 & Hf). unfold own in Hx2. apply list_elem_of_filter in Hx2 as [_ Hx2].
  unfold favors in Hf. simpl in Hf. destruct e2 as [|r2 m2|r2|r2]; try done. case_bool_decide as Ht; [|done].
  injection Hf as ->. pose proof (H4 _ Hx2) as Hres2. cbn [fst snd] in Hres2. rewrite Hr in Hres2.
  injection Hres2 as _ <-. congruence.
Qed.

(** C21: Strict channel priority.  The solvables are, in order, the records kept of the channels,
    the favored and the locked records, each in the pool under its name and among the
    candidates of the name.  A record of a channel that is not excluded is of the first tier, in
    the order of the task, that offers a record of the package. *)
Theorem provider_strict_priority :
  task_wf → priority = Strict →
  ∃ res, new = Some res ∧
  match res with
  | Err _ => True
  | Ok p => ∃ kept ids,
      Forall2 (λ repo k, dedup_records (mkExclusions excluded_candidates exclude_newer) (rdi_records repo)
        = Some (Ok k)) repodata kept ∧
      length ids = length (new_events kept) ∧ NoDup ids ∧
      (∀ i id e, ids !! i = Some id → new_events kept !! i = Some e →
        resolve_solvable (pv_pool p) id = Some (event_name e, event_record e)) ∧
      (∀ name c, pv_records p !! name = Some c →
        candidates c = (filter (λ x, event_name x.2 = name) (zip ids (new_events kept))).*1) ∧
      ∀ i id r m c, ids !! i = Some id → new_events kept !! i = Some (EChannel r m) →
      pv_records p !! event_name (EChannel r m) = Some c → id ∉ (excluded c).*1 →
      id ∈ candidates c ∧
      first_tier new_inputs (new_events kept) (event_name (EChannel r m)) = Some (priority_tier_new m (rd_channel r))
  end.
Proof.
  intros Hwf Hs. destruct (provider_new_log Hwf) as (res & E & Hres). exists res. split; [done|].
  destruct res as [p|e]; [|done]. destruct Hres as (kept & log & [H1 H2 H3 H4 H5 _ _]).
  exists kept, log.*1. assert (zip log.*1 (new_events kept) = log) as Ez by (rewrite <-H2; apply zip_fst_snd).
  split; [done|]. split; [rewrite <-H2; by rewrite !length_fmap|]. split; [done|]. split; [|split].
  { intros i id e Hi He. rewrite <-H2 in He. rewrite list_lookup_fmap in Hi. rewrite list_lookup_fmap in He.
    destruct (log !! i) as [x|] eqn:Ex; [|done]. simpl in Hi, He. simplify_eq. apply H4. by eapply list_elem_of_lookup_2. }
  { intros name c Hc. specialize (H5 name). rewrite Hc in H5. simpl in H5. subst c. by rewrite Ez. }
  intros i id r m c Hi He Hc Hid. specialize (H5 (event_name (EChannel r m))). rewrite Hc in H5. simpl in H5. subst c.
  rewrite <-H2 in He. rewrite list_lookup_fmap in Hi. rewrite list_lookup_fmap in He. destruct (log !! i) as [[id' e]|] eqn:Ex; [|done].
  simpl in Hi, He. simplify_eq. apply list_elem_of_lookup_2 in Ex.
  assert ((id, EChannel r m) ∈ own log (event_name (EChannel r m))) as Hown by by apply list_elem_of_filter.
  split; [apply list_elem_of_fmap; by exists (id, EChannel r m)|].
  destruct (decide (reasons new_inputs log.*2 (EChannel r m) = [])) as [Hr|Hr].
  - simpl in Hr. apply app_nil in Hr as [_ Hr]. destruct (channel_reason new_inputs r m); [done|].
    case_bool_decide as Hb; [done|]. rewrite <-H2.
    destruct (decide (first_tier new_inputs log.*2 (event_name (EChannel r m)) = Some (priority_tier_new m (rd_channel r))))
      as [|Hne]; [done|]. destruct Hb. done.
  - exfalso. apply Hid. destruct (reasons new_inputs log.*2 (EChannel r m)) as [|x l] eqn:Er; [done|].
    apply list_elem_of_fmap. exists (id, x). split; [done|]. simpl. apply list_elem_of_bind.
    exists (id, EChannel r m). split; [|done]. apply list_elem_of_fmap. exists x. cbn [snd]. rewrite Er.
    split; [done|by left].
Qed.

(** Flexible channel priority.  The rank of a channel is the position of its tier in the
    order in which the tiers are met, so the channels of one tier share a rank and an
    earlier tier ranks lower; a channel that offers nothing comes last. *)
Theorem provider_flexible_ranks :
  task_wf → priority = Flexible →
  ∃ res, new = Some res ∧
  match res with
  | Err _ => True
  | Ok p => ∃ kept,
      Forall2 (λ repo k, dedup_records (mkExclusions excluded_candidates exclude_newer) (rdi_records repo)
        = Some (Ok k)) repodata kept
      ∧ ((N.of_nat (length (tier_ranks (new_events kept))) < 4294967295)%N →
         (∀ c t, (c, t) ∈ introduced (new_events kept) →
            ∃ i, tier_ranks (new_events kept) !! i = Some t ∧ channel_rank p c = N.of_nat i
              ∧ (channel_rank p c < 4294967295)%N)
         ∧ ∀ c, c ∉ (introduced (new_events kept)).*1 → channel_rank p c = 4294967295%N)
  end.
Proof.
  intros Hwf Hf. destruct (provider_new_log Hwf) as (res & E & Hres). exists res. split; [done|].
  destruct res as [p|e]; [|done]. destruct Hres as (kept & log & [H1 _ _ _ _ H6 H7]).
  exists kept. split; [done|]. intros Hlen.
  assert (ranks_fit (new_events kept)) as Hfit by (unfold ranks_fit; lia).
  split.
  - intros c t Hc. destruct (H6 c t Hf Hfit Hc) as (i & Hi & Eo). exists i. unfold channel_rank. rewrite Eo. simpl.
    split; [done|]. split; [done|]. apply lookup_lt_Some in Hi. lia.
  - intros c Hc. unfold channel_rank. by rewrite (H7 c Hf Hfit Hc).
Qed.
End new.
End provider.

(** ** Witnesses *)
#[export] Instance show_nothing : ShowTime := {| strftime _ := [] |}.

Definition sample_package (version : text) : PackageRecord :=
  {| rec_arch := None; rec_attestations_sha256 := None; rec_build := txt "h0_0"; rec_build_number := 0%N;
     rec_constrains := []; rec_depends := []; rec_extra_depends := ∅; rec_features := None; rec_flags := [];
     rec_indexed_timestamp := None; rec_legacy_bz2_md5 := None; rec_legacy_bz2_size := None;
     rec_license := None; rec_license_family := None; rec_md5 := None;
     rec_name := mkPackageName None (txt "zlib"); rec_noarch := None; rec_platform := None;
     rec_purls := None; rec_python_site_packages_path := None; rec_run_exports := None; rec_sha256 := None;
     rec_size := None; rec_subdir := txt "linux-64"; rec_timestamp := Some (mkTimestampMs 5 true);
     rec_track_features := [];
     rec_version := vws_from_version (pack (mkParts None [row_iter (None, [version])] [])) |}.
Definition sample_repodata (version : text) (kind : CondaArchiveType) (channel url : text) : RepoDataRecord :=
  mkRepoDataRecord (sample_package version)
    (mkDistArchiveIdentifier (mkArchiveIdentifier (txt "zlib") version (txt "h0_0")) (DistConda kind))
    url (Some channel).

(** Two formats of one archive, and another channel; the first archive is ruled out by its URL. *)
Definition zlib_bz2 : RepoDataRecord := sample_repodata (txt "1") TarBz2 (txt "forge") (txt "u1").
Definition zlib_new : RepoDataRecord := sample_repodata (txt "1") Conda (txt "forge") (txt "u2").
Definition zlib_other : RepoDataRecord := sample_repodata (txt "2") Conda (txt "main") (txt "u3").
Definition sample_channels : list RepoDataInput :=
  [mkRepoDataInput [zlib_bz2; zlib_new] None; mkRepoDataInput [zlib_other] None].
Definition sample_ruled_out : gmap text text := {[ txt "u2" := txt "not cached" ]}.

Lemma sample_wf version : version ∈ [txt "1"; txt "2"] → vws_wf (rec_version (sample_package version)).
Proof.
  intros H. exists (mkParts None [row_iter (None, [version])] []). split; [|reflexivity].
  repeat (apply elem_of_cons in H as [->|H];
    [split; [discriminate|simpl; intros; lia|repeat constructor; vm_compute; reflexivity..]|]).
  by apply elem_of_nil in H.
Qed.

Definition sample_new (priority : ChannelPriority) : option (result SolveError Provider) :=
  new sample_channels [zlib_new] [] [] [] priority None Highest [] sample_ruled_out.
Lemma sample_task_wf priority : task_wf sample_channels [zlib_new] [] [] priority None sample_ruled_out.
Proof.
  assert (∀ v, v ∈ [txt "1"; txt "2"] → vws_wf (rec_version (sample_package v))) as H by apply sample_wf.
  split; [split; [exact I|constructor]|]. split; [|split].
  - repeat constructor; apply H; set_solver.
  - repeat constructor; apply H; set_solver.
  - constructor.
Qed.

(** The record is of time 5, later than the cutoff of its package. *)
Lemma exclusion_reason_correct_witness :
  let self := with_package_cutoff (from_datetime 9) (rec_name (sample_package (txt "1"))) 4 in
  exclude_newer_wf self ∧ vws_wf (rec_version (rd_package_record zlib_new))
  ∧ exclusion_reason self zlib_new = Some (Some (NewerThanCutoff 4))
  ∧ ∃ t, policy_timestamp RequireTimestamp (rd_package_record zlib_new) = Some t ∧ (4 < t)%Z.
Proof.
  set (self := with_package_cutoff _ _ _).
  assert (exclude_newer_wf self) as Hwf by constructor.
  assert (vws_wf (rec_version (rd_package_record zlib_new))) as Hv
    by (apply sample_wf; set_solver).
  split; [exact Hwf|]. split; [exact Hv|].
  destruct (exclusion_reason_correct self zlib_new Hwf Hv) as (reason & E & H).
  assert (exclusion_reason self zlib_new = Some (Some (NewerThanCutoff 4))) as E2 by (vm_compute; reflexivity).
  rewrite E in E2. injection E2 as ->. split; [exact E|]. destruct H as (_ & _ & H). exact H.
Defined.

(** The archive that is not ruled out is kept, although its format is the lesser one. *)
Lemma dedup_records_correct_witness :
  let ex := mkExclusions sample_ruled_out None in
  Forall (λ r, excluded_by_task ex r = Some (ruled_out ex r)) [zlib_new; zlib_bz2]
  ∧ dedup_records ex [zlib_new; zlib_bz2] = Some (Ok [zlib_bz2])
  ∧ ∀ r', r' ∈ [zlib_new; zlib_bz2] → archive_name r' = archive_name zlib_bz2 →
      (dedup_rank ex r' <= dedup_rank ex zlib_bz2)%N.
Proof.
  set (ex := mkExclusions sample_ruled_out None).
  assert (Forall (λ r, excluded_by_task ex r = Some (ruled_out ex r)) [zlib_new; zlib_bz2]) as H
    by (repeat constructor).
  split; [exact H|]. split; [vm_compute; reflexivity|].
  destruct (dedup_records_correct ex [zlib_new; zlib_bz2] H) as (res & E & Hres).
  vm_compute in E. injection E as <-. destruct Hres as [_ Hres]. apply (Hres zlib_bz2). by left.
Defined.

Definition sample_provider (priority : ChannelPriority) : Provider :=
  match sample_new priority with
  | Some (Ok p) => p
  | _ => mkProvider [] ∅ Highest ∅ ∅ Strict ∅
  end.
Definition sample_candidates (priority : ChannelPriority) : Candidates :=
  default candidates_default (pv_records (sample_provider priority) !! NBase (txt "zlib")).
Lemma sample_new_ok priority : sample_new priority = Some (Ok (sample_provider priority)).
Proof. destruct priority; vm_compute; reflexivity. Qed.
Lemma sample_candidates_ok priority :
  pv_records (sample_provider priority) !! NBase (txt "zlib") = Some (sample_candidates priority).
Proof. destruct priority; vm_compute; reflexivity. Qed.

Lemma sample_kept kept :
  Forall2 (λ repo k, dedup_records (mkExclusions sample_ruled_out None) (rdi_records repo) = Some (Ok k)) sample_channels kept →
  kept = [[zlib_bz2]; [zlib_other]].
Proof.
  intros HF. apply Forall2_cons_inv_l in HF as (k1 & l1 & H1 & HF & ->). vm_compute in H1. injection H1 as <-.
  apply Forall2_cons_inv_l in HF as (k2 & l2 & H2 & HF & ->). vm_compute in H2. injection H2 as <-.
  by apply Forall2_nil_inv_l in HF as ->.
Qed.

Lemma provider_new_correct_witness :
  task_wf sample_channels [zlib_new] [] [] Strict None sample_ruled_out
  ∧ sample_new Strict = Some (Ok (sample_provider Strict))
  ∧ ∃ kept ids, kept = [[zlib_bz2]; [zlib_other]] ∧ length ids = 3 ∧ NoDup (ids : list nat).
Proof.
  split; [apply sample_task_wf|]. split; [apply sample_new_ok|].
  destruct (provider_new_correct sample_channels [zlib_new] [] [] [] Strict None Highest [] sample_ruled_out
    (sample_task_wf _)) as (res & E & Hres).
  assert (res = Ok (sample_provider Strict)) as -> by (pose proof (sample_new_ok Strict) as E2;
    unfold sample_new in E2; rewrite E in E2; injection E2; auto).
  destruct Hres as (kept & ids & HF & Hlen & Hnd & _). exists kept, ids. pose proof (sample_kept _ HF) as ->.
  split; [reflexivity|]. split; [exact Hlen|exact Hnd].
Defined.

Lemma provider_exclusions_hold_witness :
  task_wf sample_channels [zlib_new] [] [] Strict None sample_ruled_out
  ∧ 2 ∈ (excluded (sample_candidates Strict)).*1 ∧ favored (sample_candidates Strict) ≠ Some 2.
Proof.
  split; [apply sample_task_wf|].
  destruct (provider_exclusions_hold sample_channels [zlib_new] [] [] [] Strict None Highest [] sample_ruled_out
    (sample_task_wf _)) as (res & E & Hres).
  assert (res = Ok (sample_provider Strict)) as -> by (pose proof (sample_new_ok Strict) as E2;
    unfold sample_new in E2; rewrite E in E2; injection E2; auto).
  apply (Hres (NBase (txt "zlib")) (sample_candidates Strict) 2 (NBase (txt "zlib")) zlib_new).
  - apply sample_candidates_ok.
  - apply (bool_decide_unpack _). vm_compute. exact I.
  - vm_compute. reflexivity.
  - exists (txt "not cached"). vm_compute. reflexivity.
Defined.

Lemma provider_strict_priority_witness :
  task_wf sample_channels [zlib_new] [] [] Strict None sample_ruled_out
  ∧ ∃ ids : list nat, candidates (sample_candidates Strict)
      = (filter (λ x, event_name x.2 = NBase (txt "zlib")) (zip ids (new_events sample_channels [zlib_new] [] [] [[zlib_bz2]; [zlib_other]]))).*1
    ∧ ∀ i id r m, ids !! i = Some id → new_events sample_channels [zlib_new] [] [] [[zlib_bz2]; [zlib_other]] !! i = Some (EChannel r m) →
        event_name (EChannel r m) = NBase (txt "zlib") → id ∉ (excluded (sample_candidates Strict)).*1 →
        priority_tier_new m (rd_channel r) = priority_tier_new None (rd_channel zlib_bz2).
Proof.
  split; [apply sample_task_wf|].
  destruct (provider_strict_priority sample_channels [zlib_new] [] [] [] Strict None Highest [] sample_ruled_out
    (sample_task_wf _) eq_refl) as (res & E & Hres).
  assert (res = Ok (sample_provider Strict)) as -> by (pose proof (sample_new_ok Strict) as E2;
    unfold sample_new in E2; rewrite E in E2; injection E2; auto).
  destruct Hres as (kept & ids & HF & Hlen & Hnd & Hpool & Hcand & H). pose proof (sample_kept _ HF) as ->. exists ids.
  split; [apply Hcand, sample_candidates_ok|].
  intros i id r m Hi He Hn Hx. destruct (H i id r m (sample_candidates Strict) Hi He) as [_ Ht]; [|exact Hx|].
  - rewrite Hn. apply sample_candidates_ok.
  - rewrite Hn in Ht. assert (Some (priority_tier_new m (rd_channel r)) = Some (priority_tier_new None (rd_channel zlib_bz2))) as Heq.
    { rewrite <-Ht. vm_compute. reflexivity. }
    by injection Heq.
Defined.

Lemma provider_flexible_ranks_witness :
  task_wf sample_channels [zlib_new] [] [] Flexible None sample_ruled_out
  ∧ channel_rank (sample_provider Flexible) (Some (txt "main")) = 1%N
  ∧ channel_rank (sample_provider Flexible) None = 4294967295%N.
Proof.
  split; [apply sample_task_wf|]. split; [vm_compute; reflexivity|].
  destruct (provider_flexible_ranks sample_channels [zlib_new] [] [] [] Flexible None Highest [] sample_ruled_out
    (sample_task_wf _) eq_refl) as (res & E & Hres).
  assert (res = Ok (sample_provider Flexible)) as -> by (pose proof (sample_new_ok Flexible) as E2;
    unfold sample_new in E2; rewrite E in E2; injection E2; auto).
  destruct Hres as (kept & HF & H).
  assert (kept = [[zlib_bz2]; [zlib_other]]) as ->.
  { apply Forall2_cons_inv_l in HF as (k1 & l1 & H1 & HF & ->). vm_compute in H1. injection H1 as <-.
    apply Forall2_cons_inv_l in HF as (k2 & l2 & H2 & HF & ->). vm_compute in H2. injection H2 as <-.
    apply Forall2_nil_inv_l in HF as ->. reflexivity. }
  apply (H ltac:(vm_compute; reflexivity)). apply (bool_decide_unpack _). vm_compute. exact I.
Defined.
