(* ===== verification/CandidateSort.v ===== *)
(** * The order in which the solver tries candidates

    [rattler_solve/src/resolvo/conda_sorting.rs] and [sort_candidates] of
    [resolvo/mod.rs]: candidates are sorted by tracked features, channel, version and
    build number; those that tie, by the versions their dependencies can have.

    A call of the solver's cache may answer that the solve was cancelled. *)
From S2P Require Import Prelude Externs VersionRepr VersionOrder VersionOps.
From S2P Require Import VersionParse VersionGrammar VersionSource VersionSpec VersionTheorems BuildSpec PackageName Subdir.
From S2P Require Import Archive Matchers Records MatchSpecs Redaction SolvePolicy SolveProvider.

Local Notation text := (list N).

(** ** Definitions *)

Inductive CompareStrategy : Type := DefaultOrder | LowestFirst.

(** [resolvo::Requirement] and [resolvo::Dependencies]; the constraints of a solvable
    are of no use to the sort. *)
Inductive Requirement (VersionSetId : Type) : Type :=
| Single (version_set : VersionSetId)
| Union (version_sets : list VersionSetId).
Arguments Single {_} version_set.
Arguments Union {_} version_sets.
Inductive Dependencies (VersionSetId : Type) : Type :=
| Known (requirements : list (Requirement VersionSetId))
| Unknown (reason : text).
Arguments Known {_} requirements.
Arguments Unknown {_} reason.

(** [resolvo::SolverCache]: it asks the provider at most once, and answers nothing
    when the solve is cancelled.  The cancellation token may be set at any time. *)
Class SolverCache `{SolvablePool} := {
  World : Type;
  VersionSetId : Type;
  #[global] version_set_id_eq_dec :: EqDecision VersionSetId;
  #[global] version_set_id_countable :: Countable VersionSetId;
  resolve_version_set_package_name : VersionSetId → NameType;
  get_or_cache_dependencies : SolvableId → World → World * option (Dependencies VersionSetId);
  get_or_cache_matching_candidates : VersionSetId → World → World * option (list SolvableId);
  is_cancelled : World → World * bool;
  dependencies_of : SolvableId → Dependencies VersionSetId;
  matching_of : VersionSetId → list SolvableId;
  running : World → Prop;
  dependencies_answer id w d : (get_or_cache_dependencies id w).2 = Some d → d = dependencies_of id;
  matching_answer id w c : (get_or_cache_matching_candidates id w).2 = Some c → c = matching_of id;
  running_dependencies id w : running w →
    is_Some (get_or_cache_dependencies id w).2 ∧ running (get_or_cache_dependencies id w).1;
  running_matching id w : running w →
    is_Some (get_or_cache_matching_candidates id w).2 ∧ running (get_or_cache_matching_candidates id w).1;
  running_is_cancelled w : running w → (is_cancelled w).2 = false ∧ running (is_cancelled w).1
}.

(** A solver whose answers are fixed: cancelled after a number of calls, or never. *)
#[refine] Definition solver_cache_fixed `{SolvablePool} (names : nat → NameType)
    (dependencies : SolvableId → Dependencies nat) (matching : nat → list SolvableId) : SolverCache := {|
  World := option nat;
  VersionSetId := nat;
  resolve_version_set_package_name := names;
  get_or_cache_dependencies id w :=
    match w with
    | None => (None, Some (dependencies id)) | Some O => (Some O, None) | Some (S n) => (Some n, Some (dependencies id))
    end;
  get_or_cache_matching_candidates v w :=
    match w with
    | None => (None, Some (matching v)) | Some O => (Some O, None) | Some (S n) => (Some n, Some (matching v))
    end;
  is_cancelled w := (w, bool_decide (w = Some 0));
  dependencies_of := dependencies;
  matching_of := matching;
  running w := w = None
|}.
Proof.
  - intros id [[|n]|] d; simpl; congruence.
  - intros v [[|n]|] c; simpl; congruence.
  - intros id w ->. split; [by eexists|done].
  - intros v w ->. split; [by eexists|done].
  - by intros w ->.
Defined.

Section sorting.
Context `{IT : Itertools} `{GL : Glob} `{FR : FancyRegex} `{UC : UrlCrate} `{SC : SolverCache}.
Context (pv : Provider).

(** The caches of the provider the sort reads and writes, and the solver. *)
Record SortState := mkSortState {
  st_world : World;
  st_ranks : gmap SolvableId N;
  st_entries : gmap (list SolvableId) (list SolvableId);
  st_stored : N;
  st_highest : gmap VersionSetId (option (Version * bool))
}.

(** A computation on the caches; [None] is a panic. *)
Definition Sorter (A : Type) : Type := SortState → option (A * SortState).
#[export] Instance sorter_ret : MRet Sorter := λ A a s, Some (a, s).
#[export] Instance sorter_bind : MBind Sorter := λ A B k m s, '(a, s) ← m s; k a s.
Definition ask {A} (o : option A) : Sorter A := λ s, a ← o; Some (a, s).
Definition gets {A} (f : SortState → A) : Sorter A := λ s, Some (f s, s).
Definition modify (f : SortState → SortState) : Sorter unit := λ s, Some (tt, f s).
Definition call {A} (f : World → World * A) : Sorter A := λ s,
  let '(w, a) := f (st_world s) in
  Some (a, mkSortState w (st_ranks s) (st_entries s) (st_stored s) (st_highest s)).

Definition solvable_record (id : SolvableId) : option SolverPackageRecord :=
  option_map snd (resolve_solvable (pv_pool pv) id).
Definition solvable_channel_rank (record : SolverPackageRecord) : N :=
  match record with
  | SRecord rec => channel_rank pv (rd_channel rec)
  | _ => 4294967295%N
  end.

(** *** Ranks of versions *)

(** The loop over the windows of two *)
Fixpoint assign_ranks (versions : list Version) (order : list nat) (ranks : list N) : option (list N) :=
  match order with
  | lower :: ((higher :: _) as rest) =>
      rank ← ranks !! lower;
      a ← versions !! lower; b ← versions !! higher;
      c ← version_cmp a b;
      _ ← ranks !! higher;
      assign_ranks versions rest
        (<[higher := N.modulo (rank + match c with Lt => 1 | _ => 0 end) 4294967296]> ranks)
  | _ => Some ranks
  end.
Definition index_leb (versions : list Version) (a b : nat) (s : unit) : option (bool * unit) :=
  v ← versions !! a; w ← versions !! b; c ← version_cmp v w; Some (bool_decide (c ≠ Gt), s).
Definition rank_versions (versions : list Version) : option (list N) :=
  '(by_version, _) ← sort_by_state (index_leb versions) (seq 0 (length versions)) tt;
  assign_ranks versions by_version (replicate (length versions) 0%N).

Definition set_ranks (ranks : gmap SolvableId N) (s : SortState) : SortState :=
  mkSortState (st_world s) ranks (st_entries s) (st_stored s) (st_highest s).
Definition rank_candidates (package : NameType) : Sorter unit :=
  candidates ← ask (option_map candidates (pv_records pv !! package));
  first ← ask (head candidates);
  ranks ← gets st_ranks;
  if bool_decide (is_Some (ranks !! first)) then mret tt
  else
    versions ← ask (mapM (λ id, record ← solvable_record id; spr_version record) candidates);
    new_ranks ← ask (rank_versions versions);
    modify (set_ranks (foldl (λ m p, <[p.1 := p.2]> m) ranks (zip candidates new_ranks))).

(** *** The comparison of candidates *)
Definition simple_compare (strategy : CompareStrategy) (ranks : gmap SolvableId N) (a b : SolvableId)
  : option comparison :=
  a_record ← solvable_record a;
  b_record ← solvable_record b;
  let a_has_tracked_features := bool_decide (spr_track_features a_record ≠ []) in
  let b_has_tracked_features := bool_decide (spr_track_features b_record ≠ []) in
  match a_has_tracked_features, b_has_tracked_features with
  | true, false => Some Gt
  | false, true => Some Lt
  | _, _ =>
      match (if bool_decide (pv_channel_priority pv = Flexible)
             then N.compare (solvable_channel_rank a_record) (solvable_channel_rank b_record) else Eq) with
      | Eq =>
          a_rank ← ranks !! a;
          b_rank ← ranks !! b;
          Some match strategy, N.compare a_rank b_rank with
               | DefaultOrder, Gt | LowestFirst, Lt => Lt
               | DefaultOrder, Lt | LowestFirst, Gt => Gt
               | _, Eq => N.compare (spr_build_number b_record) (spr_build_number a_record)
               end
      | ordering => Some ordering
      end
  end.
Definition sort_by_tracked_version_build (strategy : CompareStrategy) (solvables : list SolvableId)
  : Sorter (list SolvableId) :=
  ranks ← gets st_ranks;
  '(sorted, _) ← ask (sort_by_state (λ a b s, c ← simple_compare strategy ranks a b;
                                              Some (bool_decide (c ≠ Gt), s)) solvables tt);
  mret sorted.

(** *** The versions dependencies can have *)

(** [TrackedFeatureVersion::compare_with_strategy] *)
Definition compare_with_strategy (self other : Version * bool) (strategy : CompareStrategy) : option comparison :=
  match self.2, other.2 with
  | true, false => Some Gt
  | false, true => Some Lt
  | _, _ =>
      match strategy with
      | DefaultOrder => version_cmp other.1 self.1
      | LowestFirst => version_cmp self.1 other.1
      end
  end.

(** The body of the loop over the candidates of [find_highest_version] *)
Definition highest_step (record : SolverPackageRecord) (highest_version : option (Version * bool))
  : option (option (Version * bool)) :=
  match (match record with
         | SRecord r => Some (vws_version (rec_version (rd_package_record r)),
                              bool_decide (rec_track_features (rd_package_record r) ≠ []))
         | SVirtualPackage r => Some (gvp_version r, false)
         | SExtra _ _ => None
         end) with
  | None => Some highest_version
  | Some (version, has_tracked_features) =>
      match highest_version with
      | None => Some (Some (version, has_tracked_features))
      | Some (highest, _) =>
          c ← version_cmp version highest;
          Some match c with Gt => Some (version, has_tracked_features) | _ => highest_version end
      end
  end.
Definition highest_of (candidates : list SolvableId) : option (option (Version * bool)) :=
  for_opt candidates (λ id highest, record ← solvable_record id; highest_step record highest) None.
Definition set_highest (id : VersionSetId) (v : option (Version * bool)) (s : SortState) : SortState :=
  mkSortState (st_world s) (st_ranks s) (st_entries s) (st_stored s) (<[id := v]> (st_highest s)).
Definition find_highest_version (match_spec_id : VersionSetId) : Sorter (option (Version * bool)) :=
  cache ← gets st_highest;
  match cache !! match_spec_id with
  | Some v => mret v
  | None =>
      candidates ← call (get_or_cache_matching_candidates match_spec_id);
      highest_version ← ask (match candidates with None => Some None | Some candidates => highest_of candidates end);
      _ ← modify (set_highest match_spec_id highest_version);
      mret highest_version
  end.

(** [filter_map] and [reduce]: the lowest of the highest versions *)
Definition more_restrictive (a : option (Version * bool)) (b : Version * bool) : option (Version * bool) :=
  match a with
  | None => Some b
  | Some a => c ← compare_with_strategy a b DefaultOrder; Some match c with Gt => a | _ => b end
  end.
Fixpoint find_best_selectable_version (best : option (Version * bool)) (version_set_ids : list VersionSetId)
  : Sorter (option (Version * bool)) :=
  match version_set_ids with
  | [] => mret best
  | id :: version_set_ids' =>
      v ← find_highest_version id;
      best' ← match v with
              | None => mret best
              | Some v => ask (option_map Some (more_restrictive best v))
              end;
      find_best_selectable_version best' version_set_ids'
  end.
Definition compare_versions (strategy : CompareStrategy) (a b : option (Version * bool)) : option comparison :=
  match a, b with
  | Some a, Some b => compare_with_strategy a b strategy
  | Some _, None => Some Lt
  | None, Some _ => Some Gt
  | None, None => Some Eq
  end.

(** *** The dependencies of candidates *)
Abbreviation IdAndDeps := (gmap (SolvableId * NameType) (list VersionSetId)) (only parsing).

Definition add_requirement (solvable_idx : nat) (solvable_id : SolvableId) (version_set_id : VersionSetId)
    (d : gmap NameType nat * IdAndDeps) : gmap NameType nat * IdAndDeps :=
  let '(name_count, id_and_deps) := d in
  let dependency_name := resolve_version_set_package_name version_set_id in
  match (match name_count !! dependency_name with
         | Some count => if (solvable_idx <=? count + 1)%nat then Some count else None
         | None => if (solvable_idx =? 0)%nat then Some 0 else None
         end) with
  | None => d
  | Some count =>
      match id_and_deps !! (solvable_id, dependency_name) with
      | Some ids =>
          (<[dependency_name := count]> name_count,
           <[(solvable_id, dependency_name) := ids ++ [version_set_id]]> id_and_deps)
      | None =>
          (<[dependency_name := count + 1]> name_count,
           <[(solvable_id, dependency_name) := [version_set_id]]> id_and_deps)
      end
  end.
Fixpoint add_requirements (solvable_idx : nat) (solvable_id : SolvableId)
    (requirements : list (Requirement VersionSetId)) (d : gmap NameType nat * IdAndDeps)
  : option (gmap NameType nat * IdAndDeps) :=
  match requirements with
  | [] => Some d
  | Union _ :: _ => None
  | Single version_set_id :: requirements' =>
      add_requirements solvable_idx solvable_id requirements' (add_requirement solvable_idx solvable_id version_set_id d)
  end.

(** [slice::swap] *)
Definition swap {A} (i j : nat) (l : list A) : option (list A) :=
  a ← l !! i; b ← l !! j; Some (<[j := a]> (<[i := b]> l)).

(** The [while] loop over the solvables; [None] of the result is the cancellation.
    Each round settles one solvable. *)
Fixpoint collect_dependencies (fuel : nat) (solvables : list SolvableId) (known_count solvable_idx : nat)
    (d : gmap NameType nat * IdAndDeps)
  : Sorter (list SolvableId * option (nat * (gmap NameType nat * IdAndDeps))) :=
  match fuel with
  | O => mret (solvables, Some (known_count, d))
  | S fuel' =>
      if (solvable_idx <? known_count)%nat then
        solvable_id ← ask (solvables !! solvable_idx);
        dependencies ← call (get_or_cache_dependencies solvable_id);
        match dependencies with
        | Some (Known requirements) =>
            d ← ask (add_requirements solvable_idx solvable_id requirements d);
            collect_dependencies fuel' solvables known_count (S solvable_idx) d
        | Some (Unknown _) =>
            solvables ← ask (swap solvable_idx (known_count - 1) solvables);
            collect_dependencies fuel' solvables (known_count - 1) solvable_idx d
        | None => mret (solvables, None)
        end
      else mret (solvables, Some (known_count, d))
  end.

(** The first pass: [collect] stops at the first cancellation. *)
Fixpoint fetch_dependencies (solvables : list SolvableId) : Sorter bool :=
  match solvables with
  | [] => mret true
  | id :: solvables' =>
      d ← call (get_or_cache_dependencies id);
      match d with None => mret false | Some _ => fetch_dependencies solvables' end
  end.

Definition sorted_unique_names (known_count : nat) (name_count : gmap NameType nat) : list NameType :=
  sort_by (cmp_leb name_type_cmp) (filter (λ p, p.2 = known_count) (map_to_list name_count)).*1.

(** *** The sort of candidates that tie *)

(** The best version of a dependency, of a candidate *)
Definition score (id_and_deps : IdAndDeps) (id : SolvableId) (name : NameType) : Sorter (option (Version * bool)) :=
  match id_and_deps !! (id, name) with
  | None => mret None
  | Some ids => find_best_selectable_version None ids
  end.
Definition compare_timestamps (a b : SolvableId) : option comparison :=
  b_record ← solvable_record b;
  a_record ← solvable_record a;
  Some (option_cmp Z.compare (spr_timestamp b_record) (spr_timestamp a_record)).

(** The comparator of two candidates, and of few *)
Fixpoint compare_scores (strategy : CompareStrategy) (id_and_deps : IdAndDeps) (names : list NameType)
    (a b : SolvableId) : Sorter comparison :=
  match names with
  | [] => ask (compare_timestamps a b)
  | name :: names' =>
      a_version ← score id_and_deps a name;
      b_version ← score id_and_deps b name;
      ordering ← ask (compare_versions strategy a_version b_version);
      match ordering with
      | Eq => compare_scores strategy id_and_deps names' a b
      | _ => mret ordering
      end
  end.

(** The scores already computed, by the index of the candidate and of the name *)
Abbreviation Scores := (list (option (option (Version * bool)))) (only parsing).
Definition lazy_score (id_and_deps : IdAndDeps) (idx : nat) (id : SolvableId) (name : NameType)
    (scores : Scores) : Sorter Scores :=
  cached ← ask (scores !! idx);
  match cached with
  | Some _ => mret scores
  | None => v ← score id_and_deps id name; mret (<[idx := Some v]> scores)
  end.
Fixpoint compare_indices (strategy : CompareStrategy) (id_and_deps : IdAndDeps) (solvables : list SolvableId)
    (names_len name_idx : nat) (names : list NameType) (a b : nat) (scores : Scores)
  : Sorter (comparison * Scores) :=
  a_id ← ask (solvables !! a);
  b_id ← ask (solvables !! b);
  match names with
  | [] => c ← ask (compare_timestamps a_id b_id); mret (c, scores)
  | name :: names' =>
      let a_idx := a * names_len + name_idx in
      let b_idx := b * names_len + name_idx in
      scores ← lazy_score id_and_deps a_idx a_id name scores;
      scores ← lazy_score id_and_deps b_idx b_id name scores;
      a_version ← ask (mjoin (scores !! a_idx));
      b_version ← ask (mjoin (scores !! b_idx));
      ordering ← ask (compare_versions strategy a_version b_version);
      match ordering with
      | Eq => compare_indices strategy id_and_deps solvables names_len (S name_idx) names' a b scores
      | _ => mret (ordering, scores)
      end
  end.

Definition sort_known (strategy : CompareStrategy) (id_and_deps : IdAndDeps) (names : list NameType)
    (solvables : list SolvableId) : Sorter (list SolvableId) :=
  if (length solvables <=? 2)%nat || bool_decide (names = []) then
    sort_by_state (λ a b s, '(c, s) ← compare_scores strategy id_and_deps names a b s;
                            Some (bool_decide (c ≠ Gt), s)) solvables
  else λ s,
    let scores := replicate (length solvables * length names) None in
    '(order, (s, _)) ←
      sort_by_state (λ a b (st : SortState * Scores),
          '((c, scores), s) ← compare_indices strategy id_and_deps solvables (length names) 0 names a b st.2 st.1;
          Some (bool_decide (c ≠ Gt), (s, scores)))
        (seq 0 (length solvables)) (s, scores);
    sorted ← mapM (λ idx, solvables !! idx) order;
    Some (sorted, s).

(** The solvables in their new order, and whether the sort was completed *)
Definition sort_subset_by_highest_dependency_versions (strategy : CompareStrategy) (solvables : list SolvableId)
  : Sorter (list SolvableId * bool) :=
  fetched ← fetch_dependencies solvables;
  if (fetched : bool) then
    '(solvables, collected) ← collect_dependencies (length solvables) solvables (length solvables) 0 (∅, ∅);
    match collected with
    | None => mret (solvables, false)
    | Some (known_count, (name_count, id_and_deps)) =>
        let names := sorted_unique_names known_count name_count in
        known ← sort_known strategy id_and_deps names (take known_count solvables);
        cancelled ← call is_cancelled;
        mret (known ++ drop known_count solvables, negb cancelled)
    end
  else mret (solvables, false).

(** *** The sort *)
Definition DEPENDENCY_TIEBREAK_CACHE_CANDIDATE_LIMIT : N := 100000%N.
Definition store_entry (key value : list SolvableId) (count : N) (s : SortState) : SortState :=
  mkSortState (st_world s) (st_ranks s) (<[key := value]> (st_entries s)) (st_stored s + count) (st_highest s).
Definition sort_group (strategy : CompareStrategy) (sub : list SolvableId) : Sorter (list SolvableId) :=
  if (1 <? length sub)%nat then
    entries ← gets st_entries;
    match entries !! sub with
    | Some cached => if (length cached =? length sub)%nat then mret cached else ask None
    | None =>
        let stored_candidate_ids := (2 * N.of_nat (length sub))%N in
        stored ← gets st_stored;
        let fits := (stored + stored_candidate_ids <=? DEPENDENCY_TIEBREAK_CACHE_CANDIDATE_LIMIT)%N in
        '(sub', completed) ← sort_subset_by_highest_dependency_versions strategy sub;
        if completed && fits then
          _ ← modify (store_entry sub sub' stored_candidate_ids);
          mret sub'
        else mret sub'
    end
  else mret sub.

(** How many of the following candidates tie with the first *)
Fixpoint count_equal (strategy : CompareStrategy) (ranks : gmap SolvableId N) (first : SolvableId)
    (l : list SolvableId) : option nat :=
  match l with
  | [] => Some 0
  | x :: l' =>
      c ← simple_compare strategy ranks first x;
      match c with Eq => option_map S (count_equal strategy ranks first l') | _ => Some 0 end
  end.
Fixpoint sort_by_highest_dependency_versions (fuel : nat) (strategy dependency_strategy : CompareStrategy)
    (solvables : list SolvableId) : Sorter (list SolvableId) :=
  match fuel, solvables with
  | S fuel', first :: rest =>
      ranks ← gets st_ranks;
      n ← ask (count_equal strategy ranks first rest);
      sub ← sort_group dependency_strategy (first :: take n rest);
      sorted ← sort_by_highest_dependency_versions fuel' strategy dependency_strategy (drop n rest);
      mret (sub ++ sorted)
  | _, _ => mret solvables
  end.

(** [SolvableSorter::sort] *)
Definition sort (strategy dependency_strategy : CompareStrategy) (solvables : list SolvableId)
  : Sorter (list SolvableId) :=
  match solvables with
  | [] | [_] => mret solvables
  | first :: _ =>
      package ← ask (option_map fst (resolve_solvable (pv_pool pv) first));
      _ ← rank_candidates package;
      solvables ← sort_by_tracked_version_build strategy solvables;
      sort_by_highest_dependency_versions (length solvables) strategy dependency_strategy solvables
  end.

Definition strategies (package : NameType) : CompareStrategy * CompareStrategy :=
  match pv_strategy pv with
  | Highest => (DefaultOrder, DefaultOrder)
  | LowestVersion => (LowestFirst, LowestFirst)
  | LowestVersionDirect =>
      if bool_decide (package ∈ pv_direct_dependencies pv) then (LowestFirst, DefaultOrder)
      else (DefaultOrder, DefaultOrder)
  end.
Definition sort_candidates (solvables : list SolvableId) : Sorter (list SolvableId) :=
  match solvables with
  | [] => mret []
  | first :: _ =>
      package ← ask (option_map fst (resolve_solvable (pv_pool pv) first));
      let '(strategy, dependency_strategy) := strategies package in
      sort strategy dependency_strategy solvables
  end.

(** ** Lemmas: running a computation *)
Section run.
Context {A B : Type} (k : A → Sorter B) (s : SortState).
Lemma bind_Some (m : Sorter A) a s' : m s = Some (a, s') → (m ≫= k) s = k a s'.
Proof. intros E. unfold mbind, sorter_bind. by rewrite E. Qed.
Lemma bind_ret (a : A) : (mret a ≫= k) s = k a s.
Proof. done. Qed.
Lemma bind_ask (o : option A) a : o = Some a → (ask o ≫= k) s = k a s.
Proof. by intros ->. Qed.
Lemma bind_gets (f : SortState → A) : (gets f ≫= k) s = k (f s) s.
Proof. done. Qed.
Lemma bind_call (f : World → World * A) :
  (call f ≫= k) s = k (f (st_world s)).2
    (mkSortState (f (st_world s)).1 (st_ranks s) (st_entries s) (st_stored s) (st_highest s)).
Proof. unfold mbind, sorter_bind, call. by destruct (f (st_world s)). Qed.
End run.
Lemma bind_modify {B} (k : unit → Sorter B) s f : (modify f ≫= k) s = k tt (f s).
Proof. done. Qed.
End sorting.
