(* ===== verification/SortTheorems.v ===== *)
(** * Properties of the order of candidates

    [sort_candidates] against a reference that keeps no cache and knows no index: the
    candidates of a package sorted by one ordering, and those that tie by another. *)
From S2P Require Import Prelude Externs VersionRepr VersionOrder VersionOps.
From S2P Require Import VersionParse VersionGrammar VersionSource VersionSpec VersionTheorems BuildSpec PackageName Subdir.
From S2P Require Import Archive Matchers Records MatchSpecs Redaction SolvePolicy SolveProvider ProviderTheorems.
From S2P Require Import CandidateSort.

Local Notation text := (list N).

Section sorting.
Context `{IT : Itertools} `{GL : Glob} `{FR : FancyRegex} `{UC : UrlCrate} `{SC : SolverCache}.

(** ** Versions ordered without a panic *)
Definition version_parts (v : Version) : parts :=
  mkParts (default None (version_epoch_opt v)) (default [] (version_segments v))
    (default [] (version_local_segments v)).
Definition version_ord (v w : Version) : comparison := parts_cmp (version_parts v) (version_parts w).
#[local] Instance version_ord_preorder : TotalPreorder version_ord.
Proof. apply (on_key_preorder version_parts), _. Qed.

Lemma version_cmp_ord v w : wf v → wf w → version_cmp v w = Some (version_ord v w).
Proof.
  intros (p & Hp & ->) (q & Hq & ->). rewrite version_cmp_pack by done. f_equal. unfold version_ord, version_parts.
  rewrite !pack_epoch_opt, !pack_segments, !pack_local_segments by done. by destruct p, q.
Qed.

(** ** Ranks of versions *)

Lemma assign_ranks_cons versions lower higher order ranks :
  assign_ranks versions (lower :: higher :: order) ranks =
    (rank ← ranks !! lower; a ← versions !! lower; b ← versions !! higher; c ← version_cmp a b; _ ← ranks !! higher;
     assign_ranks versions (higher :: order)
       (<[higher := N.modulo (rank + match c with Lt => 1 | _ => 0 end) 4294967296]> ranks)).
Proof. done. Qed.

(** The ranks along a list of indices whose versions do not decrease. *)
Lemma assign_ranks_spec versions order : ∀ ranks lower r,
  StronglySorted (λ i j, ∀ v w, versions !! i = Some v → versions !! j = Some w → version_ord v w ≠ Gt) (lower :: order) →
  NoDup (lower :: order) → Forall (λ i, i < length versions) (lower :: order) → length ranks = length versions →
  Forall wf versions → ranks !! lower = Some r → (r + N.of_nat (length order) < 4294967296)%N →
  ∃ ranks', assign_ranks versions (lower :: order) ranks = Some ranks' ∧ length ranks' = length versions
    ∧ (∀ i, i ∉ order → ranks' !! i = ranks !! i)
    ∧ ∀ i j v w, i ∈ lower :: order → j ∈ lower :: order → versions !! i = Some v → versions !! j = Some w →
        ∃ a b, ranks' !! i = Some a ∧ ranks' !! j = Some b ∧ (r <= a)%N ∧ N.compare a b = version_ord v w.
Proof.
  induction order as [|higher order IH]; intros ranks lower r Hs Hnd Hlt Hlen Hwf Hr Hbound.
  { exists ranks. do 3 (split; [done|]). intros i j v w ->%list_elem_of_singleton ->%list_elem_of_singleton Hi Hj.
    exists r, r. do 3 (split; [done|]). assert (v = w) as -> by congruence.
    by rewrite N.compare_refl, (cmp_refl version_ord). }
  inversion Hs as [|? ? Hs' Hl]; subst. apply NoDup_cons in Hnd as [Hnl Hnd].
  apply Forall_cons in Hlt as [Hlt1 Hlt].
  destruct (lookup_lt_is_Some_2 versions lower Hlt1) as [vl Hvl].
  pose proof Hlt as [Hlt2 _]%Forall_cons.
  destruct (lookup_lt_is_Some_2 versions higher Hlt2) as [vh Hvh].
  assert (wf vl ∧ wf vh) as [Hwl Hwh] by (rewrite Forall_lookup in Hwf; split; eapply Hwf; done).
  destruct (lookup_lt_is_Some_2 ranks higher ltac:(lia)) as [old Hold].
  set (r' := N.modulo (r + match version_ord vl vh with Lt => 1 | _ => 0 end) 4294967296).
  assert (r' = (r + match version_ord vl vh with Lt => 1 | _ => 0 end)%N) as Er'.
  { apply N.mod_small. simpl length in Hbound. destruct (version_ord vl vh); lia. }
  simpl length in Hbound.
  destruct (IH (<[higher := r']> ranks) higher r') as (ranks' & E & Hlen' & Hout & Hin);
    [done|done|done|by rewrite length_insert|done|apply list_lookup_insert_eq; lia|
     rewrite Er'; destruct (version_ord vl vh); lia|].
  exists ranks'. split; [|split; [done|split]].
  - rewrite assign_ranks_cons, Hr, Hvl, Hvh. cbn [mbind option_bind].
    rewrite (version_cmp_ord vl vh Hwl Hwh). cbn [mbind option_bind]. rewrite Hold. exact E.
  - intros i [Hi1 Hi2]%not_elem_of_cons. rewrite Hout by done. by apply list_lookup_insert_ne.
  - assert (ranks' !! lower = Some r) as Hl'.
    { rewrite Hout by set_solver. rewrite list_lookup_insert_ne by set_solver. done. }
    assert (∀ j w, j ∈ higher :: order → versions !! j = Some w →
      ∃ b, ranks' !! j = Some b ∧ (r <= b)%N ∧ N.compare r b = version_ord vl w) as Hlow.
    { intros j w Hj Hw. destruct (Hin higher j vh w ltac:(left) Hj Hvh Hw) as (a & b & Ha & Hb & Hle & Hc).
      assert (∃ c, ranks' !! higher = Some c ∧ c = r') as (c & Hc1 & ->).
      { exists r'. split; [|done]. rewrite Hout by (apply NoDup_cons in Hnd; tauto). apply list_lookup_insert_eq; lia. }
      assert (a = r') as -> by congruence. exists b. split; [done|].
      assert (r' <= b)%N as Hrb.
      { apply N.le_ngt. intros Hgt%N.compare_gt_iff. rewrite Hc in Hgt. revert Hgt.
        change (version_ord vh w ≠ Gt).
        apply elem_of_cons in Hj as [->|Hj]; [replace w with vh by congruence; by rewrite (cmp_refl version_ord)|].
        inversion Hs' as [|? ? _ Hh]; subst. rewrite Forall_forall in Hh. by apply (Hh j). }
      destruct (version_ord vl vh) eqn:Elh; [|split; [lia|]|].
      - split; [lia|]. rewrite (cmp_Eq_l version_ord vl vh w Elh), <-Hc. f_equal. lia.
      - replace (version_ord vl w) with Lt; [apply N.compare_lt_iff; lia|]. symmetry.
        destruct (version_ord vh w) eqn:Ehw; [by rewrite <-(cmp_Eq_r version_ord vl vh w Ehw)|
          by apply (cmp_Lt_trans version_ord vl vh w)|].
        exfalso. apply N.compare_gt_iff in Hc. lia.
      - exfalso. rewrite Forall_forall in Hl. by apply (Hl higher ltac:(left) vl vh). }
    intros i j v w [->|Hi]%elem_of_cons [->|Hj]%elem_of_cons Hv Hw.
    + exists r, r. do 3 (split; [done|]). assert (v = w) as -> by congruence.
      by rewrite N.compare_refl, (cmp_refl version_ord).
    + assert (v = vl) as -> by congruence. destruct (Hlow j w Hj Hw) as (b & Hb & Hle & Hc). by exists r, b.
    + assert (w = vl) as -> by congruence. destruct (Hlow i v Hi Hv) as (b & Hb & Hle & Hc). exists b, r.
      do 3 (split; [done|]). rewrite N.compare_antisym, Hc. symmetry. apply (cmp_opp version_ord).
    + destruct (Hin i j v w Hi Hj Hv Hw) as (a & b & Ha & Hb & Hle & Hc). exists a, b.
      do 2 (split; [done|]). split; [|done]. rewrite Er' in Hle. lia.
Qed.
(** Any order of the indices by their versions will do: the sort need not be stable. *)
Definition sorts_versions (versions : list Version) (by_version : list nat) : Prop :=
  by_version ≡ₚ seq 0 (length versions)
  ∧ StronglySorted (λ i j, ∀ v w, versions !! i = Some v → versions !! j = Some w → version_ord v w ≠ Gt) by_version.

Lemma ranks_of_order versions by_version :
  Forall wf versions → (N.of_nat (length versions) < 4294967296)%N → sorts_versions versions by_version →
  ∃ ranks, assign_ranks versions by_version (replicate (length versions) 0%N) = Some ranks
    ∧ length ranks = length versions
    ∧ ∀ i j v w, versions !! i = Some v → versions !! j = Some w →
        ∃ a b, ranks !! i = Some a ∧ ranks !! j = Some b ∧ N.compare a b = version_ord v w.
Proof.
  intros Hwf Hn [Hp Hs]. pose proof (Permutation_length Hp) as Hlen. rewrite length_seq in Hlen.
  assert (∀ i, i ∈ by_version ↔ i < length versions) as Hin.
  { intros i. rewrite Hp, elem_of_seq. lia. }
  destruct by_version as [|lower order].
  { destruct versions; [|done]. exists []. do 2 (split; [done|]). intros i j v w Hi. by rewrite lookup_nil in Hi. }
  destruct (assign_ranks_spec versions order (replicate (length versions) 0%N) lower 0%N)
    as (ranks & E & Hl & _ & Hc).
  - done.
  - rewrite Hp. apply NoDup_ListNoDup, seq_NoDup.
  - apply Forall_forall. intros i. apply Hin.
  - apply length_replicate.
  - done.
  - apply lookup_replicate_2. apply Hin. left.
  - simpl in Hlen. lia.
  - exists ranks. do 2 (split; [done|]). intros i j v w Hi Hj.
    destruct (Hc i j v w) as (a & b & Ha & Hb & _ & Hab); [by apply Hin, lookup_lt_is_Some_1; eexists..|done|done|].
    by exists a, b.
Qed.

Definition index_ord (versions : list Version) (i j : nat) : comparison :=
  option_cmp version_ord (versions !! i) (versions !! j).
#[local] Instance index_ord_preorder versions : TotalPreorder (index_ord versions).
Proof. apply (on_key_preorder (λ i, versions !! i) (option_cmp version_ord)), _. Qed.

Lemma cmp_leb_spec {A} (cmp : A → A → comparison) x y : cmp_leb cmp x y = bool_decide (cmp x y ≠ Gt).
Proof. unfold cmp_leb. by destruct (cmp x y). Qed.

Lemma rank_versions_ranks versions :
  Forall wf versions → (N.of_nat (length versions) < 4294967296)%N →
  ∃ ranks, rank_versions versions = Some ranks ∧ length ranks = length versions
     ∧ ∀ i j v w, versions !! i = Some v → versions !! j = Some w →
         ∃ a b, ranks !! i = Some a ∧ ranks !! j = Some b ∧ N.compare a b = version_ord v w.
Proof.
  intros Hwf Hn.
  destruct (sort_by_state_pure (index_leb versions) (λ _ : unit, cmp_leb (index_ord versions))
    (λ i, i < length versions) (λ _, True) (λ _ _, True)) with (l := seq 0 (length versions)) (s := tt)
    as (k & [] & E & _ & _ & Hk).
  - intros x y [] [v Hx]%lookup_lt_is_Some_2 [w Hy]%lookup_lt_is_Some_2 _. unfold index_leb.
    rewrite Hx, Hy. cbn [mbind option_bind]. rewrite Forall_lookup in Hwf.
    rewrite version_cmp_ord by by eapply Hwf. eexists _, tt. do 2 (split; [done|]). intros _ _. split; [done|].
    rewrite cmp_leb_spec. unfold index_ord. by rewrite Hx, Hy.
  - apply Forall_forall. intros i. rewrite elem_of_seq. lia.
  - done.
  - destruct (Hk tt I) as [_ ->]. unfold rank_versions. rewrite E. cbn [mbind option_bind].
    apply ranks_of_order; [done|done|]. split; [apply sort_by_perm|].
    eapply StronglySorted_impl; [|apply sort_by_cmp_sorted, _].
    intros i j Hij v w Hi Hj. unfold index_ord in Hij. by rewrite Hi, Hj in Hij.
Qed.

(** C17: The ranks of versions.  They exist for all versions that are well formed, and two
    ranks compare as the versions do, in whatever order a sort that need not be stable
    leaves the versions that compare equal. *)
Theorem rank_versions_correct (versions : list Version) :
  Forall wf versions → (N.of_nat (length versions) < 4294967296)%N →
  (∃ ranks, rank_versions versions = Some ranks ∧ length ranks = length versions
     ∧ ∀ i j v w, versions !! i = Some v → versions !! j = Some w →
         ∃ a b, ranks !! i = Some a ∧ ranks !! j = Some b ∧ version_cmp v w = Some (N.compare a b))
  ∧ ∀ by_version, sorts_versions versions by_version →
     ∃ ranks, assign_ranks versions by_version (replicate (length versions) 0%N) = Some ranks
     ∧ ∀ i j v w, versions !! i = Some v → versions !! j = Some w →
         ∃ a b, ranks !! i = Some a ∧ ranks !! j = Some b ∧ version_cmp v w = Some (N.compare a b).
Proof.
  intros Hwf Hn.
  assert (∀ (ranks : list N) i j v w, versions !! i = Some v → versions !! j = Some w →
    (∃ a b, ranks !! i = Some a ∧ ranks !! j = Some b ∧ N.compare a b = version_ord v w) →
    ∃ a b, ranks !! i = Some a ∧ ranks !! j = Some b ∧ version_cmp v w = Some (N.compare a b)) as Hc.
  { intros ranks i j v w Hi Hj (a & b & Ha & Hb & Eab). exists a, b. do 2 (split; [done|]). rewrite Eab.
    rewrite Forall_lookup in Hwf. apply version_cmp_ord; by eapply Hwf. }
  split.
  - destruct (rank_versions_ranks versions Hwf Hn) as (ranks & E & Hl & Hr). exists ranks.
    do 2 (split; [done|]). intros i j v w Hi Hj. by apply Hc, Hr.
  - intros by_version Hs. destruct (ranks_of_order versions by_version Hwf Hn Hs) as (ranks & Er & Hl & Hr).
    exists ranks. split; [done|]. intros i j v w Hi Hj. by apply Hc, Hr.
Qed.

(** ** The first order of candidates *)
Section provider.
Context (pv : Provider).

Definition tracked (id : SolvableId) : bool :=
  from_option (λ r, bool_decide (spr_track_features r ≠ [])) false (solvable_record pv id).
Definition channel_of (id : SolvableId) : N := from_option (solvable_channel_rank pv) 0%N (solvable_record pv id).
Definition version_of (id : SolvableId) : option Version := r ← solvable_record pv id; spr_version r.
Definition build_of (id : SolvableId) : N := from_option spr_build_number 0%N (solvable_record pv id).
Definition time_of (id : SolvableId) : option Z := r ← solvable_record pv id; spr_timestamp r.

Definition by_strategy (strategy : CompareStrategy) {A} (cmp : A → A → comparison) (x y : A) : comparison :=
  match strategy with DefaultOrder => cmp y x | LowestFirst => cmp x y end.

(** Candidates without tracked features first; then, if channels have a flexible priority,
    by channel; then by version; then the highest build number. *)
Definition simple_ord (strategy : CompareStrategy) (a b : SolvableId) : comparison :=
  then_with (bool_cmp (tracked a) (tracked b))
    (then_with (if bool_decide (pv_channel_priority pv = Flexible)
                then N.compare (channel_of a) (channel_of b) else Eq)
       (then_with (by_strategy strategy (option_cmp version_ord) (version_of a) (version_of b))
          (N.compare (build_of b) (build_of a)))).

#[local] Instance by_strategy_preorder strategy {A} (cmp : A → A → comparison) :
  TotalPreorder cmp → TotalPreorder (by_strategy strategy cmp).
Proof.
  intros Hcmp. destruct strategy; [|exact Hcmp]. split; simpl.
  - intros x y. apply (cmp_opp cmp).
  - intros x y z H1 H2. by apply (cmp_le_trans cmp z y x).
Qed.
#[local] Instance Eq_preorder {A} : TotalPreorder (λ _ _ : A, Eq).
Proof. by split. Qed.
#[local] Instance simple_ord_preorder strategy : TotalPreorder (simple_ord strategy).
Proof.
  unfold simple_ord. apply (then_with_preorder (λ a b, bool_cmp (tracked a) (tracked b)));
    [apply (on_key_preorder tracked), _|].
  apply then_with_preorder.
  { destruct (bool_decide _); [apply (on_key_preorder channel_of)|]; apply _. }
  apply (then_with_preorder (λ a b, by_strategy strategy (option_cmp version_ord) (version_of a) (version_of b)));
    [apply (on_key_preorder version_of), _|].
  apply (by_strategy_preorder DefaultOrder (λ a b, N.compare (build_of a) (build_of b))).
  apply (on_key_preorder build_of), _.
Qed.

(** What [new] makes sure of. *)
Record provider_ok : Prop := {
  po_candidate name c id : pv_records pv !! name = Some c → id ∈ candidates c →
    ∃ r v, resolve_solvable (pv_pool pv) id = Some (name, r) ∧ spr_version r = Some v ∧ wf v;
  po_distinct name c : pv_records pv !! name = Some c → NoDup (candidates c);
  po_count name c : pv_records pv !! name = Some c → (N.of_nat (length (candidates c)) < 4294967296)%N
}.

(** The ranks of a package compare as its versions do; of each package all candidates
    are ranked or none is. *)
Definition ranked (ranks : gmap SolvableId N) (l : list SolvableId) : Prop :=
  ∀ a b, a ∈ l → b ∈ l → ∃ m n, ranks !! a = Some m ∧ ranks !! b = Some n
    ∧ N.compare m n = option_cmp version_ord (version_of a) (version_of b).
Definition ranks_ok (ranks : gmap SolvableId N) : Prop :=
  ∀ name c, pv_records pv !! name = Some c →
    (∀ id, id ∈ candidates c → ranks !! id = None) ∨ ranked ranks (candidates c).

Lemma simple_compare_ord strategy ranks l a b :
  ranked ranks l → a ∈ l → b ∈ l → is_Some (solvable_record pv a) → is_Some (solvable_record pv b) →
  simple_compare pv strategy ranks a b = Some (simple_ord strategy a b).
Proof.
  intros Hr Ha Hb [ra Hra] [rb Hrb]. destruct (Hr a b Ha Hb) as (m & n & Hm & Hn & Hmn).
  unfold simple_compare, simple_ord, tracked, channel_of, build_of. rewrite Hra, Hrb. cbn [mbind option_bind from_option].
  assert (∀ (x y : bool) (o : option comparison) c, o = Some c →
    match x, y with true, false => Some Gt | false, true => Some Lt | _, _ => o end
    = Some (then_with (bool_cmp x y) c)) as Hbool by (intros [] [] o c ->; done).
  apply Hbool. clear Hbool. set (c := if bool_decide (pv_channel_priority pv = Flexible) then _ else _).
  destruct c; simpl; [|done..]. rewrite Hm, Hn. cbn [mbind option_bind]. f_equal.
  assert (option_cmp version_ord (version_of b) (version_of a) = CompOpp (N.compare m n)) as Hba
    by (rewrite Hmn; apply (cmp_opp (option_cmp version_ord))).
  destruct strategy; simpl; rewrite ?Hba, <-?Hmn; by destruct (N.compare m n).
Qed.

Lemma foldl_insert_lookup {A} (l : list (SolvableId * A)) : ∀ m id,
  NoDup l.*1 →
  foldl (λ m p, <[p.1 := p.2]> m) m l !! id =
  match list_find (λ p, p.1 = id) l with Some (_, p) => Some p.2 | None => (m : gmap SolvableId A) !! id end.
Proof.
  induction l as [|[k x] l IH]; intros m id Hnd; [done|]. apply NoDup_cons in Hnd as [Hk Hnd]. simpl in Hk.
  cbn [foldl fst snd list_find]. rewrite IH by done. case_decide as E; simpl in E.
  - subst. destruct (list_find _ l) as [[i p]|] eqn:Ef; [|by rewrite lookup_insert_eq].
    apply list_find_Some in Ef as (Hi & Hp & _). exfalso. apply Hk, list_elem_of_fmap. exists p.
    split; [done|]. by eapply list_elem_of_lookup_2.
  - destruct (list_find _ l) as [[i p]|]; [done|]. simpl. by rewrite lookup_insert_ne.
Qed.

Lemma rank_candidates_spec s package c :
  provider_ok → pv_records pv !! package = Some c → candidates c ≠ [] → ranks_ok (st_ranks s) →
  ∃ ranks, rank_candidates pv package s = Some (tt, set_ranks ranks s) ∧ ranks_ok ranks
    ∧ ranked ranks (candidates c).
Proof.
  intros Hpv Hc Hne Hr. unfold rank_candidates. rewrite (bind_ask _ _ _ (candidates c)) by by rewrite Hc.
  destruct (candidates c) as [|first l] eqn:El; [done|].
  rewrite <-El in *. clear Hne. assert (first ∈ candidates c) as Hfirst by (rewrite El; left).
  rewrite (bind_ask _ _ _ first), bind_gets by by rewrite El.
  case_bool_decide as Hf.
  { exists (st_ranks s). split; [by destruct s|]. split; [done|]. destruct (Hr package c Hc) as [Hnone|]; [|done].
    rewrite Hnone in Hf by done. by destruct Hf. }
  assert (∃ vs, mapM (λ id, record ← solvable_record pv id; spr_version record) (candidates c) = Some vs
    ∧ Forall2 (λ id v, version_of id = Some v ∧ wf v) (candidates c) vs) as (vs & Evs & Hvs).
  { assert (∀ id, id ∈ candidates c → ∃ v, version_of id = Some v ∧ wf v) as H0.
    { intros id Hid. destruct (po_candidate Hpv _ _ _ Hc Hid) as (r & v & Er & Ev & Hv). exists v.
      unfold version_of, solvable_record. rewrite Er. simpl. by rewrite Ev. }
    clear -H0. induction (candidates c) as [|id l IH]; [by exists []|].
    destruct (H0 id ltac:(left)) as (v & Ev & Hv). destruct IH as (vs & E & HF); [intros; apply H0; by right|].
    exists (v :: vs). simpl. unfold version_of in Ev. rewrite Ev. cbn [mbind option_bind]. rewrite E. split; [done|].
    by constructor. }
  rewrite (bind_ask _ _ _ vs Evs). pose proof (Forall2_length _ _ _ Hvs) as Hlen.
  destruct (rank_versions_ranks vs) as (ns & Ens & Hns & Hcmp).
  { apply Forall_lookup. intros i v Hv. destruct (Forall2_lookup_r _ _ _ _ _ Hvs Hv) as (id & _ & _ & Hw). done. }
  { rewrite <-Hlen. by eapply po_count. }
  rewrite (bind_ask _ _ _ ns Ens). unfold modify. set (ranks := foldl _ _ _).
  assert (∀ id, ranks !! id = match list_find (λ p, p.1 = id) (zip (candidates c) ns) with
                              | Some (_, p) => Some p.2 | None => st_ranks s !! id end) as Hranks.
  { intros id. apply foldl_insert_lookup. rewrite fst_zip by lia. by eapply po_distinct. }
  assert (∀ id, id ∉ candidates c → ranks !! id = st_ranks s !! id) as Hout.
  { intros id Hid. rewrite Hranks. destruct (list_find _ _) as [[i p]|] eqn:E; [|done]. exfalso. apply Hid.
    apply list_find_Some in E as (Hi & <- & _). rewrite <-(fst_zip (candidates c) ns) by lia.
    apply list_elem_of_fmap_2. by eapply list_elem_of_lookup_2. }
  assert (∀ id, id ∈ candidates c → ∃ i n v, ranks !! id = Some n ∧ ns !! i = Some n ∧ vs !! i = Some v
    ∧ version_of id = Some v) as Hin.
  { intros id Hid. rewrite Hranks. rewrite <-(fst_zip (candidates c) ns) in Hid by lia.
    apply list_elem_of_fmap in Hid as (p & -> & [j Hj]%list_elem_of_lookup).
    destruct (list_find (λ q, q.1 = p.1) (zip (candidates c) ns)) as [[i q]|] eqn:E.
    - apply list_find_Some in E as (Hi & Hq & _). rewrite lookup_zip_with_Some in Hi.
      destruct Hi as (id & n & -> & Hi & Hn). destruct (Forall2_lookup_l _ _ _ _ _ Hvs Hi) as (v & Hv & Hid & _).
      exists i, n, v. simpl in *. by rewrite <-Hq.
    - exfalso. rewrite list_find_None, Forall_lookup in E. by apply (E j p). }
  exists ranks. split; [done|].
  assert (ranked ranks (candidates c)) as Hranked.
  { intros a b Ha Hb. destruct (Hin a Ha) as (i & m & v & Hm & Hi & Hv & ->).
    destruct (Hin b Hb) as (j & n & w & Hn & Hj & Hw & ->). exists m, n. do 2 (split; [done|]).
    destruct (Hcmp i j v w Hv Hw) as (m' & n' & ? & ? & E). by simplify_eq. }
  split; [|done]. intros name c' Hc'. destruct (decide (name = package)) as [->|Hne].
  { right. by replace c' with c by congruence. }
  assert (∀ id, id ∈ candidates c' → id ∉ candidates c) as Hdis.
  { intros id Hid' Hid. destruct (po_candidate Hpv _ _ _ Hc Hid) as (r & v & Er & _).
    destruct (po_candidate Hpv _ _ _ Hc' Hid') as (r' & v' & Er' & _). congruence. }
  destruct (Hr name c' Hc') as [Hnone|Hyes].
  - left. intros id Hid. rewrite Hout by auto. auto.
  - right. intros a b Ha Hb. rewrite !Hout by auto. by apply Hyes.
Qed.

(** ** The second order *)
Definition HighestOf : Type := VersionSetId → option (Version * bool).

Definition tracked_ord (strategy : CompareStrategy) (a b : Version * bool) : comparison :=
  then_with (bool_cmp a.2 b.2) (by_strategy strategy version_ord a.1 b.1).
Definition versions_ord (strategy : CompareStrategy) (a b : option (Version * bool)) : comparison :=
  match a, b with
  | Some a, Some b => tracked_ord strategy a b
  | Some _, None => Lt
  | None, Some _ => Gt
  | None, None => Eq
  end.
#[local] Instance tracked_ord_preorder strategy : TotalPreorder (tracked_ord strategy).
Proof.
  apply (then_with_preorder (λ a b, bool_cmp a.2 b.2)); [apply (on_key_preorder snd), _|].
  apply (on_key_preorder fst), _.
Qed.
#[local] Instance versions_ord_preorder strategy : TotalPreorder (versions_ord strategy).
Proof.
  split.
  - intros [x|] [y|]; simpl; try done. apply (cmp_opp (tracked_ord strategy)).
  - intros [x|] [y|] [z|]; simpl; try done. apply (cmp_le_trans (tracked_ord strategy)).
Qed.

(** The highest version of the candidates of a version set, with whether the first that
    has it tracks features *)
Definition highest_spec_step (h : option (Version * bool)) (id : SolvableId) : option (Version * bool) :=
  match version_of id with
  | None => h
  | Some v =>
      match h with
      | Some (w, _) => match version_ord v w with Gt => Some (v, tracked id) | _ => h end
      | None => Some (v, tracked id)
      end
  end.
Definition highest_spec : HighestOf := λ vs, foldl highest_spec_step None (matching_of vs).

(** What a candidate requires of a package, and the best version it can get *)
Definition requirements_of (id : SolvableId) : option (list VersionSetId) :=
  match dependencies_of id with
  | Known requirements => Some (omap (λ r, match r with Single v => Some v | Union _ => None end) requirements)
  | Unknown _ => None
  end.
Definition known (id : SolvableId) : Prop := is_Some (requirements_of id).
#[local] Instance known_dec id : Decision (known id) := _.
Definition requires (id : SolvableId) (name : NameType) : list VersionSetId :=
  filter (λ v, resolve_version_set_package_name v = name) (default [] (requirements_of id)).
Definition restrict (a : option (Version * bool)) (b : option (Version * bool)) : option (Version * bool) :=
  match a, b with
  | _, None => a
  | None, Some b => Some b
  | Some a, Some b => Some match tracked_ord DefaultOrder a b with Gt => a | _ => b end
  end.
Definition best (hv : HighestOf) (acc : option (Version * bool)) (ids : list VersionSetId) : option (Version * bool) :=
  foldl (λ acc id, restrict acc (hv id)) acc ids.

(** Candidates by the best versions of the packages all of them require, in the order of
    the names; then the latest first. *)
Definition score_ord (hv : HighestOf) (strategy : CompareStrategy) (names : list NameType) (a b : SolvableId) : comparison :=
  then_with (for_cmp names (λ name, versions_ord strategy (best hv None (requires a name)) (best hv None (requires b name))))
    (option_cmp Z.compare (time_of b) (time_of a)).
#[local] Instance score_ord_preorder hv strategy names : TotalPreorder (score_ord hv strategy names).
Proof.
  apply (then_with_preorder (λ a b, for_cmp names (λ name,
    versions_ord strategy (best hv None (requires a name)) (best hv None (requires b name))))).
  - apply (on_key_preorder (λ a name, best hv None (requires a name))
      (λ f g, for_cmp names (λ name, versions_ord strategy (f name) (g name)))), _.
  - apply (by_strategy_preorder DefaultOrder (λ a b, option_cmp Z.compare (time_of a) (time_of b))).
    apply (on_key_preorder time_of), _.
Qed.

(** *** Computations that answer from the caches

    [Inv] holds of every state the sort goes through, also when the solve is cancelled;
    with [strong], of a solve that is not, the answers are the true ones. *)
Section tie.
Context (strong : Prop) (s0 : SortState).

Definition solvable_ok (id : SolvableId) : Prop :=
  ∃ n r, resolve_solvable (pv_pool pv) id = Some (n, r) ∧ ∀ v, spr_version r = Some v → wf v.
Definition solver_ok : Prop := ∀ vs id, id ∈ matching_of vs → solvable_ok id.
Definition highest_wf (v : option (Version * bool)) : Prop := ∀ x, v = Some x → wf x.1.
Definition agree (s : SortState) (hv : HighestOf) : Prop := ∀ id v, st_highest s !! id = Some v → hv id = v.
Record Inv (s : SortState) : Prop := {
  inv_frame : st_ranks s = st_ranks s0 ∧ st_entries s = st_entries s0 ∧ st_stored s = st_stored s0;
  inv_wf id v : st_highest s !! id = Some v → highest_wf v;
  inv_strong : strong → running (st_world s) ∧ agree s highest_spec
}.

Definition computes {A} (m : Sorter A) (f : HighestOf → A) (Q : A → Prop) : Prop :=
  ∀ s, Inv s → ∃ a s', m s = Some (a, s') ∧ Inv s' ∧ Q a ∧ ∀ hv, agree s' hv → agree s hv ∧ a = f hv.

Lemma computes_ret {A} (a : A) (Q : A → Prop) : Q a → computes (mret a) (λ _, a) Q.
Proof. intros Ha s Hs. by exists a, s. Qed.
Lemma computes_ask {A} (o : option A) (a : A) (Q : A → Prop) : o = Some a → Q a → computes (ask o) (λ _, a) Q.
Proof. intros -> Ha s Hs. by exists a, s. Qed.
Lemma computes_bind {A B} (m : Sorter A) (k : A → Sorter B) f g Q R :
  computes m f Q → (∀ a, Q a → computes (k a) (g a) R) → computes (m ≫= k) (λ hv, g (f hv) hv) R.
Proof.
  intros Hm Hk s Hs. destruct (Hm s Hs) as (a & s1 & E & Hs1 & Ha & Hf).
  destruct (Hk a Ha s1 Hs1) as (b & s2 & E2 & Hs2 & Hb & Hg). exists b, s2.
  split; [by rewrite (bind_Some _ _ _ _ _ E)|]. do 2 (split; [done|]). intros hv Hhv.
  destruct (Hg hv Hhv) as [Hhv1 ->]. by destruct (Hf hv Hhv1) as [? ->].
Qed.
Lemma computes_ext {A} (m : Sorter A) f g Q : (∀ hv, f hv = g hv) → computes m f Q → computes m g Q.
Proof.
  intros Hfg Hm s Hs. destruct (Hm s Hs) as (a & s' & E & Hs' & Ha & Hf). exists a, s'.
  do 3 (split; [done|]). intros hv Hhv. rewrite <-Hfg. by apply Hf.
Qed.

Context (Hsolver : solver_ok).

Lemma highest_step_spec id h r n :
  resolve_solvable (pv_pool pv) id = Some (n, r) → (∀ v, spr_version r = Some v → wf v) → highest_wf h →
  highest_step r h = Some (highest_spec_step h id) ∧ highest_wf (highest_spec_step h id).
Proof.
  intros Er Hv Hh. unfold highest_step, highest_spec_step, version_of, tracked, solvable_record. rewrite Er.
  cbn [option_map mbind option_bind from_option snd].
  assert (∀ v, wf v → ∀ b : bool,
    match h with
    | None => Some (Some (v, b))
    | Some (highest, _) => c ← version_cmp v highest; Some match c with Gt => Some (v, b) | _ => h end
    end = Some match h with
               | Some (w, _) => match version_ord v w with Gt => Some (v, b) | _ => h end
               | None => Some (v, b) end
    ∧ highest_wf match h with
               | Some (w, _) => match version_ord v w with Gt => Some (v, b) | _ => h end
               | None => Some (v, b) end) as Hstep.
  { intros v Hw b. destruct h as [[w c]|]; [|by split; [|intros ? [= <-]]].
    rewrite version_cmp_ord by (done || by apply (Hh _ eq_refl)). cbn [mbind option_bind].
    split; [done|]. destruct (version_ord v w); try done. by intros ? [= <-]. }
  destruct r as [rec|rec|package extra]; simpl in *.
  - apply Hstep. by apply Hv.
  - apply Hstep. by apply Hv.
  - done.
Qed.

Lemma highest_of_spec vs : highest_of pv (matching_of vs) = Some (highest_spec vs) ∧ highest_wf (highest_spec vs).
Proof using Hsolver.
  unfold highest_of, highest_spec. pose proof (Hsolver vs) as Hok. revert Hok.
  assert (highest_wf None) as Hn by done. revert Hn. generalize (None : option (Version * bool)) as h.
  induction (matching_of vs) as [|id l IH]; intros h Hh Hok; [done|]. cbn [for_opt foldl].
  destruct (Hok id ltac:(left)) as (n & r & Er & Hv). unfold solvable_record. rewrite Er. cbn [option_map snd mbind option_bind].
  destruct (highest_step_spec id h r n Er Hv Hh) as [-> Hw]. cbn [mbind option_bind].
  apply IH; [done|]. intros x Hx. apply Hok. by right.
Qed.

Lemma computes_find id : computes (find_highest_version pv id) (λ hv, hv id) highest_wf.
Proof using Hsolver.
  intros s Hs. unfold find_highest_version. rewrite bind_gets. destruct (st_highest s !! id) as [v|] eqn:E.
  { exists v, s. split; [done|]. split; [done|]. split; [by eapply inv_wf|]. intros hv Hhv. split; [done|].
    symmetry. by apply Hhv. }
  rewrite bind_call. destruct (get_or_cache_matching_candidates id (st_world s)) as [w c] eqn:Ec. cbn [fst snd].
  set (v := match c with None => None | Some _ => highest_spec id end).
  assert (highest_wf v) as Hv by (unfold v; destruct c; [apply highest_of_spec|done]).
  rewrite (bind_ask _ _ _ v), bind_modify.
  2: { unfold v. destruct c as [c|]; [|done]. rewrite (matching_answer id (st_world s) c) by by rewrite Ec.
       apply highest_of_spec. }
  exists v. eexists. split; [done|]. unfold set_highest. cbn [st_world st_ranks st_entries st_stored st_highest].
  destruct Hs as [Hf Hw Hst]. split; [split; cbn [st_world st_ranks st_entries st_stored st_highest]|split; [done|]].
  - done.
  - intros i u. destruct (decide (i = id)) as [->|Hne];
      [rewrite lookup_insert_eq; by intros [= <-]|rewrite lookup_insert_ne by done; apply Hw].
  - intros Hs. destruct (Hst Hs) as [Hr Ha]. destruct (running_matching id _ Hr) as [[c' Hc'] Hr'].
    rewrite Ec in Hc', Hr'. simpl in Hc', Hr'. split; [done|]. subst c. intros i u. simpl.
    destruct (decide (i = id)) as [->|Hne]; [rewrite lookup_insert_eq; by intros [= <-]|].
    rewrite lookup_insert_ne by done. apply Ha.
  - intros hv Hhv. split.
    + intros i u Hi. apply (Hhv i u). simpl. rewrite lookup_insert_ne; [done|congruence].
    + symmetry. apply (Hhv id v). simpl. apply lookup_insert_eq.
Qed.

Lemma compare_with_strategy_ord a b strategy :
  wf a.1 → wf b.1 → compare_with_strategy a b strategy = Some (tracked_ord strategy a b).
Proof.
  intros Ha Hb. unfold compare_with_strategy, tracked_ord.
  destruct (a.2), (b.2); simpl; try done; destruct strategy; simpl; by apply version_cmp_ord.
Qed.

Lemma restrict_wf a b : highest_wf a → highest_wf b → highest_wf (restrict a b).
Proof.
  intros Ha Hb. destruct a as [x|], b as [y|]; simpl; [|done..]. destruct (tracked_ord _ x y); intros ? [= <-];
    by first [by apply Ha|by apply Hb].
Qed.

Lemma computes_best ids : ∀ acc, highest_wf acc →
  computes (find_best_selectable_version pv acc ids) (λ hv, best hv acc ids) highest_wf.
Proof using Hsolver.
  induction ids as [|id ids IH]; intros acc Hacc; [by apply computes_ret|].
  apply (computes_bind _ _ (λ hv, hv id) (λ v hv, best hv (restrict acc v) ids) highest_wf); [apply computes_find|].
  intros v Hv. apply (computes_bind _ _ (λ _, restrict acc v) (λ acc hv, best hv acc ids) highest_wf); [|by apply IH].
  pose proof (restrict_wf acc v Hacc Hv) as Hr. destruct v as [x|]; [|by destruct acc; apply computes_ret].
  apply computes_ask; [|done]. destruct acc as [y|]; [|done]. simpl.
  rewrite compare_with_strategy_ord by first [by apply Hacc|by apply Hv]. cbn [mbind option_bind]. simpl.
  by destruct (tracked_ord _ y x).
Qed.

Lemma compare_versions_ord strategy a b :
  highest_wf a → highest_wf b → compare_versions strategy a b = Some (versions_ord strategy a b).
Proof.
  intros Ha Hb. destruct a as [x|], b as [y|]; simpl; [|done..].
  by apply compare_with_strategy_ord; [apply Ha|apply Hb].
Qed.

(** The dependencies that were collected are those the names ask for. *)
Definition collected (deps : gmap (SolvableId * NameType) (list VersionSetId)) (names : list NameType)
    (l : list SolvableId) : Prop :=
  ∀ id name, id ∈ l → name ∈ names → default [] (deps !! (id, name)) = requires id name.

Lemma computes_score deps names l id name : collected deps names l → id ∈ l → name ∈ names →
  computes (score pv deps id name) (λ hv, best hv None (requires id name)) highest_wf.
Proof using Hsolver.
  intros Hd Hid Hname. rewrite <-(Hd id name Hid Hname). unfold score.
  destruct (deps !! (id, name)) as [ids|]; simpl; [|by apply computes_ret]. by apply computes_best.
Qed.

Lemma compare_timestamps_ord a b : is_Some (solvable_record pv a) → is_Some (solvable_record pv b) →
  compare_timestamps pv a b = Some (option_cmp Z.compare (time_of b) (time_of a)).
Proof. unfold compare_timestamps, time_of. by intros [r ->] [r' ->]. Qed.

Lemma computes_compare strategy deps l a b : a ∈ l → b ∈ l →
  is_Some (solvable_record pv a) → is_Some (solvable_record pv b) → ∀ names, collected deps names l →
  computes (compare_scores pv strategy deps names a b) (λ hv, score_ord hv strategy names a b) (λ _, True).
Proof using Hsolver.
  intros Ha Hb Hra Hrb. induction names as [|name names IH]; intros Hd.
  { apply (computes_ask (compare_timestamps pv a b) (option_cmp Z.compare (time_of b) (time_of a))); [|done].
    by apply compare_timestamps_ord. }
  assert (collected deps names l) as Hd' by (intros id n ? ?; apply Hd; [done|by right]).
  apply (computes_ext _ (λ hv, then_with (versions_ord strategy (best hv None (requires a name))
      (best hv None (requires b name))) (score_ord hv strategy names a b))).
  { intros hv. unfold score_ord. simpl. by rewrite then_with_assoc. }
  apply (computes_bind _ _ (λ hv, best hv None (requires a name))
    (λ va hv, then_with (versions_ord strategy va (best hv None (requires b name))) (score_ord hv strategy names a b))
    highest_wf); [by apply (computes_score deps (name :: names) l); [..|left]|]. intros va Hva.
  apply (computes_bind _ _ (λ hv, best hv None (requires b name))
    (λ vb hv, then_with (versions_ord strategy va vb) (score_ord hv strategy names a b))
    highest_wf); [by apply (computes_score deps (name :: names) l); [..|left]|]. intros vb Hvb.
  apply (computes_bind _ _ (λ _, versions_ord strategy va vb)
    (λ c hv, then_with c (score_ord hv strategy names a b)) (λ _, True));
    [by apply computes_ask; [apply compare_versions_ord|]|].
  intros c _. destruct c; [by apply IH|by apply computes_ret..].
Qed.

(** *** Sorting candidates that tie *)
Section known.
Context (strategy : CompareStrategy) (deps : gmap (SolvableId * NameType) (list VersionSetId)).
Context (names : list NameType) (l : list SolvableId).
Context (Hdeps : collected deps names l) (Hrec : ∀ id, id ∈ l → is_Some (solvable_record pv id)).

Lemma sort_by_scores :
  computes (sort_by_state (λ a b s, '(c, s) ← compare_scores pv strategy deps names a b s;
                                    Some (bool_decide (c ≠ Gt), s)) l)
    (λ hv, sort_by (cmp_leb (score_ord hv strategy names)) l) (λ k, k ≡ₚ l).
Proof using Hsolver Hdeps Hrec.
  intros s Hs. destruct (sort_by_state_pure
    (λ a b s, '(c, s) ← compare_scores pv strategy deps names a b s; Some (bool_decide (c ≠ Gt), s))
    (λ hv, cmp_leb (score_ord hv strategy names)) (λ id, id ∈ l) Inv agree) with (l := l) (s := s)
    as (k & s' & E & Hs' & Hp & Hk).
  - intros a b s1 Ha Hb Hs1. destruct (computes_compare strategy deps l a b Ha Hb (Hrec a Ha) (Hrec b Hb) names Hdeps s1 Hs1)
      as (c & s2 & E & Hs2 & _ & Hc). exists (bool_decide (c ≠ Gt)), s2. rewrite E. do 2 (split; [done|]).
    intros hv Hhv. destruct (Hc hv Hhv) as [? ->]. split; [done|]. apply cmp_leb_spec.
  - by apply Forall_forall.
  - done.
  - by exists k, s'.
Qed.

(** The scores kept so far are those of their candidate and name. *)
Definition scores_ok (s : SortState) (scores : list (option (option (Version * bool)))) : Prop :=
  length scores = length l * length names ∧
  ∀ i k id name v, l !! i = Some id → names !! k = Some name → scores !! (i * length names + k) = Some (Some v) →
    highest_wf v ∧ ∀ hv, agree s hv → v = best hv None (requires id name).

Lemma index_unique (m i j k k' : nat) : k < m → k' < m → i * m + k = j * m + k' → i = j ∧ k = k'.
Proof. intros Hk Hk' E. assert (i = j) as -> by nia. split; [done|lia]. Qed.

Lemma lazy_score_spec s scores i k id name :
  Inv s → scores_ok s scores → l !! i = Some id → names !! k = Some name →
  ∃ v scores' s', lazy_score pv deps (i * length names + k) id name scores s = Some (scores', s')
    ∧ Inv s' ∧ scores_ok s' scores' ∧ scores' !! (i * length names + k) = Some (Some v)
    ∧ (∀ idx u, scores !! idx = Some (Some u) → scores' !! idx = Some (Some u))
    ∧ (∀ hv, agree s' hv → agree s hv).
Proof using Hsolver Hdeps.
  intros Hs [Hlen Hok] Hi Hk. pose proof (lookup_lt_Some _ _ _ Hi) as Hli. pose proof (lookup_lt_Some _ _ _ Hk) as Hlk.
  assert (i * length names + k < length scores) as Hlt by (rewrite Hlen; nia).
  destruct (lookup_lt_is_Some_2 scores _ Hlt) as [cached Hc]. unfold lazy_score.
  rewrite (bind_ask _ _ _ cached Hc). destruct cached as [v|].
  { exists v, scores, s. split; [done|]. split; [done|]. split; [by split|]. by split. }
  destruct (computes_score deps names l id name Hdeps) with (s := s) as (v & s' & E & Hs' & Hv & Hf);
    [by eapply list_elem_of_lookup_2|by eapply list_elem_of_lookup_2|done|].
  rewrite (bind_Some _ _ _ _ _ E). exists v, (<[i * length names + k := Some v]> scores), s'.
  split; [done|]. split; [done|]. split; [|split; [by apply list_lookup_insert_eq|split]].
  - split; [by rewrite length_insert|]. intros i' k' id' name' u Hi' Hk'. rewrite list_lookup_insert_Some.
    intros [(Eidx & [= <-] & _)|(_ & Hu)].
    + apply index_unique in Eidx as [<- <-]; [|by eapply lookup_lt_Some|by eapply lookup_lt_Some]. simplify_eq.
      split; [done|]. intros hv Hhv. by destruct (Hf hv Hhv).
    + destruct (Hok i' k' id' name' u Hi' Hk' Hu) as [Hw Hb]. split; [done|]. intros hv Hhv. apply Hb.
      by destruct (Hf hv Hhv).
  - intros idx u Hu. rewrite list_lookup_insert_ne; [done|]. congruence.
  - intros hv Hhv. by destruct (Hf hv Hhv).
Qed.

Lemma compare_indices_spec a b ida idb : l !! a = Some ida → l !! b = Some idb →
  ∀ rest k s scores, drop k names = rest → Inv s → scores_ok s scores →
  ∃ c scores' s', compare_indices pv strategy deps l (length names) k rest a b scores s = Some ((c, scores'), s')
    ∧ Inv s' ∧ scores_ok s' scores'
    ∧ ∀ hv, agree s' hv → agree s hv ∧ c = score_ord hv strategy rest ida idb.
Proof using Hsolver Hdeps Hrec.
  intros Ha Hb. induction rest as [|name rest IH]; intros k s scores Hrest Hs Hsc; cbn [compare_indices];
    rewrite (bind_ask _ _ _ ida Ha), (bind_ask _ _ _ idb Hb).
  { rewrite (bind_ask _ _ _ (option_cmp Z.compare (time_of idb) (time_of ida)))
      by (apply compare_timestamps_ord; by eapply Hrec, list_elem_of_lookup_2).
    eexists _, scores, s. split; [done|]. do 2 (split; [done|]). intros hv Hhv. by split. }
  assert (names !! k = Some name) as Hk by (rewrite <-(Nat.add_0_r k), <-lookup_drop, Hrest; done).
  assert (drop (S k) names = rest) as Hrest' by (rewrite <-Nat.add_1_r, <-drop_drop, Hrest; done).
  destruct (lazy_score_spec s scores a k ida name Hs Hsc Ha Hk) as (va & sc1 & s1 & E1 & Hs1 & Hsc1 & Hva & _ & Hag1).
  rewrite (bind_Some _ _ _ _ _ E1).
  destruct (lazy_score_spec s1 sc1 b k idb name Hs1 Hsc1 Hb Hk) as (vb & sc2 & s2 & E2 & Hs2 & Hsc2 & Hvb & Hkeep & Hag2).
  rewrite (bind_Some _ _ _ _ _ E2). apply Hkeep in Hva.
  rewrite (bind_ask _ _ _ va), (bind_ask _ _ _ vb) by (rewrite ?Hva, ?Hvb; done).
  destruct (proj2 Hsc2 a k ida name va Ha Hk Hva) as [Hwa Hba].
  destruct (proj2 Hsc2 b k idb name vb Hb Hk Hvb) as [Hwb Hbb].
  rewrite (bind_ask _ _ _ _ (compare_versions_ord strategy va vb Hwa Hwb)).
  assert (∀ hv, agree s2 hv → agree s hv ∧ versions_ord strategy va vb =
    versions_ord strategy (best hv None (requires ida name)) (best hv None (requires idb name))) as Hord.
  { intros hv Hhv. split; [by apply Hag1, Hag2|]. by rewrite <-Hba, <-Hbb. }
  destruct (versions_ord strategy va vb) eqn:Ec.
  - destruct (IH (S k) s2 sc2 Hrest' Hs2 Hsc2) as (c & sc3 & s3 & E3 & Hs3 & Hsc3 & Hc).
    exists c, sc3, s3. split; [exact E3|]. do 2 (split; [done|]). intros hv Hhv.
    destruct (Hc hv Hhv) as [Hhv2 ->]. destruct (Hord hv Hhv2) as [? Ho]. split; [done|].
    unfold score_ord. simpl. by rewrite <-Ho.
  - exists Lt, sc2, s2. do 3 (split; [done|]). intros hv Hhv. destruct (Hord hv Hhv) as [? Ho]. split; [done|].
    unfold score_ord. simpl. by rewrite <-Ho.
  - exists Gt, sc2, s2. do 3 (split; [done|]). intros hv Hhv. destruct (Hord hv Hhv) as [? Ho]. split; [done|].
    unfold score_ord. simpl. by rewrite <-Ho.
Qed.

Lemma sort_known_spec :
  computes (sort_known pv strategy deps names l)
    (λ hv, sort_by (cmp_leb (score_ord hv strategy names)) l) (λ k, k ≡ₚ l).
Proof using Hsolver Hdeps Hrec.
  unfold sort_known. destruct (_ || _) eqn:Etest; [apply sort_by_scores|].
  apply orb_false_iff in Etest as [Etest _]. apply Nat.leb_gt in Etest.
  destruct (lookup_lt_is_Some_2 l 0 ltac:(lia)) as [x0 _]. intros s Hs.
  set (id_at := λ i, default x0 (l !! i)).
  assert (id_at <$> seq 0 (length l) = l) as Hid.
  { apply list_eq. intros i. rewrite list_lookup_fmap. destruct (decide (i < length l)) as [Hlt|Hge].
    - rewrite lookup_seq_lt by done. simpl. unfold id_at. by destruct (lookup_lt_is_Some_2 l i Hlt) as [x ->].
    - rewrite lookup_seq_ge, (proj2 (lookup_ge_None l i)) by lia. done. }
  destruct (sort_by_state_pure
    (λ a b (st : SortState * list (option (option (Version * bool)))),
       '((c, scores), s) ← compare_indices pv strategy deps l (length names) 0 names a b st.2 st.1;
       Some (bool_decide (c ≠ Gt), (s, scores)))
    (λ hv i j, cmp_leb (score_ord hv strategy names) (id_at i) (id_at j)) (λ i, i < length l)
    (λ st, Inv st.1 ∧ scores_ok st.1 st.2) (λ st, agree st.1)) with (l := seq 0 (length l))
    (s := (s, replicate (length l * length names) (None : option (option (Version * bool)))))
    as (k & [s' scores] & E & [Hs' _] & Hp & Hk).
  - intros a b [s1 scores] Ha Hb [Hs1 Hsc]. simpl in Hs1, Hsc. cbn [fst snd].
    destruct (lookup_lt_is_Some_2 l a Ha) as [ida Hida]. destruct (lookup_lt_is_Some_2 l b Hb) as [idb Hidb].
    destruct (compare_indices_spec a b ida idb Hida Hidb names 0 s1 scores eq_refl Hs1 Hsc)
      as (c & scores' & s2 & -> & Hs2 & Hsc2 & Hc). cbn [mbind option_bind].
    exists (bool_decide (c ≠ Gt)), (s2, scores'). do 2 (split; [done|]). intros hv Hhv.
    destruct (Hc hv Hhv) as [? ->]. split; [done|]. unfold id_at. rewrite Hida, Hidb. apply cmp_leb_spec.
  - apply Forall_forall. intros i. rewrite elem_of_seq. lia.
  - split; [done|]. split; [apply length_replicate|]. intros i j id name v _ _ [Hv _]%lookup_replicate. done.
  - simpl in Hs', Hk. rewrite E. cbn [mbind option_bind].
    assert (mapM (λ idx, l !! idx) k = Some (id_at <$> k)) as ->.
    { apply mapM_Some. apply Forall2_fmap_r, Forall_Forall2_diag, Forall_forall. intros i Hi. rewrite Hp in Hi. apply elem_of_seq in Hi.
      unfold id_at. destruct (lookup_lt_is_Some_2 l i ltac:(lia)) as [x Hx]. rewrite Hx. simpl. by rewrite Hx. }
    exists (id_at <$> k), s'. split; [done|]. split; [done|]. split; [by rewrite Hp, Hid|].
    intros hv Hhv. destruct (Hk hv Hhv) as [? Ek]. split; [done|].
    by rewrite Ek, (sort_by_fmap id_at (cmp_leb (score_ord hv strategy names))), Hid.
Qed.
End known.
End tie.
End provider.
End sorting.
