(* ===== verification/SortGroups.v ===== *)
(** * Properties of the order of candidates: the candidates that tie

    Which dependencies the sort collects, and [sort_candidates] as a whole. *)
From S2P Require Import Prelude Externs VersionRepr VersionOrder VersionOps.
From S2P Require Import VersionParse VersionGrammar VersionSource VersionSpec VersionTheorems BuildSpec PackageName Subdir.
From S2P Require Import Archive Matchers Records MatchSpecs Redaction SolvePolicy SolveProvider ProviderTheorems.
From S2P Require Import CandidateSort SortTheorems.

Local Notation text := (list N).

#[local] Instance extra_cmp_preorder :
  TotalPreorder (λ x y : text * text, then_with (str_cmp x.1 y.1) (str_cmp x.2 y.2)).
Proof.
  apply (then_with_preorder (λ x y : text * text, str_cmp x.1 y.1));
    [apply (on_key_preorder fst), _|apply (on_key_preorder snd), _].
Qed.
(** [Ord for NameType] tells names apart. *)
#[export] Instance name_type_cmp_order : TotalOrder name_type_cmp.
Proof.
  split; [split|].
  - intros [n|p e] [n'|p' e']; simpl; try done; [apply (cmp_opp str_cmp)|].
    by rewrite then_with_opp, (cmp_opp str_cmp p p'), (cmp_opp str_cmp e e').
  - intros [n|p e] [n'|p' e'] [n''|p'' e'']; simpl; try done; [apply (cmp_le_trans str_cmp)|].
    apply (cmp_le_trans (λ x y : text * text, then_with (str_cmp x.1 y.1) (str_cmp x.2 y.2)) (p, e) (p', e') (p'', e'')).
  - intros [n|p e] [n'|p' e']; simpl; try done; [rewrite (cmp_eq_iff str_cmp); naive_solver|].
    rewrite then_with_Eq, !(cmp_eq_iff str_cmp). naive_solver.
Qed.

Section groups.
Context `{IT : Itertools} `{GL : Glob} `{FR : FancyRegex} `{UC : UrlCrate} `{SC : SolverCache}.

(** ** The dependencies that all candidates have *)

Definition requirement_list (id : SolvableId) : list VersionSetId := default [] (requirements_of id).
Definition of_name (name : NameType) (l : list VersionSetId) : list VersionSetId :=
  filter (λ v, resolve_version_set_package_name v = name) l.

Lemma of_name_snoc name l v :
  of_name name (l ++ [v]) = of_name name l ++ (if decide (resolve_version_set_package_name v = name) then [v] else []).
Proof. unfold of_name. by rewrite filter_app. Qed.

(** What was seen of the requirements of a candidate: all, of those before the one at work *)
Definition seen (id : SolvableId) (P : list VersionSetId) (x : SolvableId) (name : NameType) : list VersionSetId :=
  if decide (x = id) then of_name name P else requires x name.

Definition has_entry (deps : gmap (SolvableId * NameType) (list VersionSetId)) (name : NameType) (D : list SolvableId) : nat :=
  length (filter (λ x, is_Some (deps !! (x, name))) D).

(** The counts and the requirements of the names, with the candidates [D] done and the
    requirements [P] of the candidate [id] seen. *)
Record counted (D : list SolvableId) (id : SolvableId) (P : list VersionSetId)
    (d : gmap NameType nat * gmap (SolvableId * NameType) (list VersionSetId)) : Prop := {
  ct_none name x : d.1 !! name = None → d.2 !! (x, name) = None;
  ct_count name c : d.1 !! name = Some c → c = has_entry d.2 name (D ++ [id]);
  ct_entry name x ids : d.2 !! (x, name) = Some ids → x ∈ D ++ [id] ∧ seen id P x name ≠ [];
  ct_shared name : (∀ x, x ∈ D → requires x name ≠ []) →
    (D ≠ [] → is_Some (d.1 !! name))
    ∧ ∀ x, x ∈ D ++ [id] → d.2 !! (x, name) = match seen id P x name with [] => None | ids => Some ids end
}.

Lemma counted_first id : counted [] id [] (∅, ∅).
Proof.
  split; simpl; try done. intros name _. split; [done|]. intros x ->%list_elem_of_singleton.
  unfold seen. rewrite decide_True by done. done.
Qed.

Lemma counted_next D id d id' :
  NoDup ((D ++ [id]) ++ [id']) → counted D id (requirement_list id) d → counted (D ++ [id]) id' [] d.
Proof.
  intros Hnd [H1 H2 H3 H4].
  assert (id' ∉ D ++ [id]) as Hid' by (apply NoDup_app in Hnd as (_ & Hd & _); intros Hx; by apply (Hd id' Hx); left).
  assert (∀ x name, x ∈ D ++ [id] → seen id' [] x name = requires x name) as Hseen.
  { intros x name Hx. unfold seen. rewrite decide_False; [done|]. by intros ->. }
  assert (∀ x name, x ∈ D ++ [id] → seen id (requirement_list id) x name = requires x name) as Hseen0.
  { intros x name Hx. unfold seen. by case_decide as Hd; [rewrite Hd|]. }
  assert (∀ name, d.2 !! (id', name) = None) as Hnone.
  { intros name. destruct (d.2 !! (id', name)) eqn:E; [|done]. by apply H3 in E as [? _]. }
  split.
  - done.
  - intros name c Hc. rewrite (H2 name c Hc). unfold has_entry. rewrite (filter_app _ (D ++ [id])), length_app.
    rewrite filter_cons_False, filter_nil by (rewrite Hnone; by intros [? ?]). simpl. lia.
  - intros name x ids Hx. destruct (H3 name x ids Hx) as [Hin Hne]. split; [by apply elem_of_app; left|].
    rewrite Hseen by done. by rewrite <-Hseen0.
  - intros name Hall. destruct (H4 name) as [Hs He]; [intros x Hx; apply Hall, elem_of_app; by left|]. split.
    + intros _. destruct (d.1 !! name) eqn:En; [by eexists|]. exfalso.
      assert (id ∈ D ++ [id]) as Hid by (apply elem_of_app; right; left).
      pose proof (H1 name id En) as E. rewrite (He id Hid), Hseen0 in E by done.
      apply (Hall id Hid). by destruct (requires id name).
    + intros x [Hx| ->%list_elem_of_singleton]%elem_of_app.
      * rewrite Hseen, He, Hseen0 by done. done.
      * rewrite Hnone. unfold seen. by rewrite decide_True.
Qed.

Lemma has_entry_ext deps deps' name l :
  (∀ x, x ∈ l → is_Some (deps' !! (x, name)) ↔ is_Some (deps !! (x, name))) → has_entry deps' name l = has_entry deps name l.
Proof.
  intros Hx. unfold has_entry. f_equal. induction l as [|x l IH]; [done|].
  rewrite !filter_cons, IH by (intros y Hy; apply Hx; by right).
  pose proof (Hx x ltac:(left)) as Hxx. do 2 case_decide; tauto || done.
Qed.
Lemma has_entry_snoc deps name l x :
  has_entry deps name (l ++ [x]) = has_entry deps name l + (if deps !! (x, name) then 1 else 0).
Proof.
  unfold has_entry. rewrite filter_app, length_app, filter_cons, filter_nil.
  destruct (deps !! (x, name)); [rewrite decide_True by by eexists|rewrite decide_False by by intros [? ?]]; done.
Qed.
Lemma has_entry_all deps name l :
  has_entry deps name l = length l ↔ ∀ x, x ∈ l → is_Some (deps !! (x, name)).
Proof.
  unfold has_entry. induction l as [|x l IH]; [split; [intros _ x Hx; by apply elem_of_nil in Hx|done]|].
  rewrite filter_cons. pose proof (length_filter (λ x, is_Some (deps !! (x, name))) l).
  case_decide as Hd; simpl.
  - split.
    + intros [= E] y [->|Hy]%elem_of_cons; [done|]. by apply IH.
    + intros Hall. f_equal. apply IH. intros y Hy. apply Hall. by right.
  - split; [lia|]. intros Hall. destruct Hd. apply Hall. left.
Qed.

Lemma counted_step D id P d v :
  id ∉ D → counted D id P d → counted D id (P ++ [v]) (add_requirement (length D) id v d).
Proof.
  intros Hid [H1 H2 H3 H4]. destruct d as [nc deps]. cbn [fst snd] in *.
  unfold add_requirement. set (x0 := resolve_version_set_package_name v).
  assert (∀ x name, name ≠ x0 ∨ x ≠ id → seen id (P ++ [v]) x name = seen id P x name) as Hsame.
  { intros x name Hor. unfold seen. case_decide; [|done]. rewrite of_name_snoc, decide_False by naive_solver.
    by rewrite app_nil_r. }
  assert (seen id (P ++ [v]) id x0 = of_name x0 P ++ [v]) as Hnew.
  { unfold seen. by rewrite decide_True, of_name_snoc, decide_True. }
  assert (∀ x name, seen id P x name ≠ [] → seen id (P ++ [v]) x name ≠ []) as Hmore.
  { intros x name. unfold seen. case_decide; [|done]. rewrite of_name_snoc. by destruct (of_name name P). }
  assert (∀ x, x ∈ D → x ≠ id) as Hne by by intros x Hx ->.
  set (guard := match nc !! x0 with Some count => _ | None => _ end).
  assert (guard = None → ¬ ∀ x, x ∈ D → requires x x0 ≠ []) as Hskip.
  { unfold guard. intros Hg Hall. destruct (H4 x0 Hall) as [Hs He]. destruct (nc !! x0) as [c|] eqn:Ec.
    - destruct (Nat.leb_spec (length D) (c + 1)) as [|Hlt]; [done|].
      assert (has_entry deps x0 D = length D) as Hl.
      { apply has_entry_all. intros x Hx. rewrite He by (apply elem_of_app; by left). unfold seen.
        rewrite decide_False by auto. specialize (Hall x Hx). destruct (requires x x0); [done|by eexists]. }
      pose proof (H2 x0 c Ec) as Hc. rewrite has_entry_snoc in Hc. lia.
    - destruct D as [|y D]; [done|]. by destruct (Hs ltac:(done)). }
  destruct guard as [c|] eqn:Eg.
  2: { split; cbn [fst snd]; [done|done|naive_solver|]. intros name Hall.
       assert (name ≠ x0) as Hn by (intros ->; by apply Hskip).
       destruct (H4 name Hall) as [Hs He]. split; [done|]. intros x Hx. rewrite Hsame by by left. by apply He. }
  assert (c = has_entry deps x0 (D ++ [id])) as Hc.
  { unfold guard in Eg. destruct (nc !! x0) as [c'|] eqn:Ec.
    - destruct (_ <=? _)%nat; [|done]. injection Eg as <-. by apply H2.
    - destruct (Nat.eqb_spec (length D) 0) as [E|]; [|done]. injection Eg as <-. apply length_zero_iff_nil in E as ->.
      unfold has_entry. simpl. rewrite filter_cons_False; [done|]. rewrite H1 by done. by intros [? ?]. }
  clear guard Eg Hskip.
  assert (∀ new c', (c' = c + (if deps !! (id, x0) then 0 else 1))%nat → new = default [] (deps !! (id, x0)) ++ [v] →
    counted D id (P ++ [v]) (<[x0 := c']> nc, <[(id, x0) := new]> deps)) as Hgo.
  { intros new c' Hc' Hnew'. split; cbn [fst snd].
    - intros name x Hn. apply lookup_insert_None in Hn as [Hn Hne']. rewrite lookup_insert_ne by congruence. by apply H1.
    - intros name c1 Hc1. destruct (decide (name = x0)) as [->|Hn].
      + rewrite lookup_insert_eq in Hc1. injection Hc1 as <-. rewrite has_entry_snoc, lookup_insert_eq.
        rewrite (has_entry_ext deps) by (intros x Hx; rewrite lookup_insert_ne; [done|]; specialize (Hne x Hx); congruence).
        rewrite has_entry_snoc in Hc. destruct (deps !! (id, x0)); lia.
      + rewrite lookup_insert_ne in Hc1 by done. rewrite (H2 name c1 Hc1). symmetry. apply has_entry_ext.
        intros x _. rewrite lookup_insert_ne; [done|congruence].
    - intros name x ids Hx. destruct (decide ((id, x0) = (x, name))) as [[= <- <-]|Hn].
      + split; [apply elem_of_app; right; left|]. rewrite Hnew. by destruct (of_name x0 P).
      + rewrite lookup_insert_ne in Hx by done. destruct (H3 name x ids Hx). auto.
    - intros name Hall. destruct (H4 name Hall) as [Hs He]. split.
      { intros HD. destruct (decide (x0 = name)) as [->|]; [rewrite lookup_insert_eq; by eexists|].
        rewrite lookup_insert_ne by done. auto. }
      intros x Hx. destruct (decide ((id, x0) = (x, name))) as [[= <- <-]|Hn].
      + rewrite lookup_insert_eq, Hnew, Hnew'. rewrite (He id Hx). unfold seen. rewrite decide_True by done.
        by destruct (of_name x0 P).
      + rewrite lookup_insert_ne by done. rewrite Hsame; [by apply He|].
        destruct (decide (name = x0)) as [->|]; [right; congruence|by left]. }
  destruct (deps !! (id, x0)) as [ids|] eqn:Ed; apply Hgo; try done; lia.
Qed.

Lemma counted_all D id P d : NoDup (D ++ [id]) → counted D id P d → ∀ l,
  counted D id (P ++ l) (foldl (λ d v, add_requirement (length D) id v d) d l).
Proof.
  intros Hnd Hd l. apply NoDup_app in Hnd as (_ & Hdis & _).
  assert (id ∉ D) as Hid by (intros Hx; apply (Hdis id Hx); left).
  revert P d Hd. induction l as [|v l IH]; intros P d Hd; [by rewrite app_nil_r|].
  cbn [foldl]. replace (P ++ v :: l) with ((P ++ [v]) ++ l) by by rewrite <-app_assoc.
  apply IH. by apply counted_step.
Qed.

(** *** The loop *)

(** The candidates [D] are done. *)
Definition done_with (D : list SolvableId)
    (d : gmap NameType nat * gmap (SolvableId * NameType) (list VersionSetId)) : Prop :=
  (D = [] ∧ d = (∅, ∅)) ∨ ∃ D0 id, D = D0 ++ [id] ∧ counted D0 id (requirement_list id) d.

Lemma done_with_next D id d : NoDup (D ++ [id]) → done_with D d →
  done_with (D ++ [id]) (foldl (λ d v, add_requirement (length D) id v d) d (requirement_list id)).
Proof.
  intros Hnd Hd. right. exists D, id. split; [done|]. apply (counted_all D id []); [done|].
  destruct Hd as [[-> ->]|(D0 & id0 & -> & Hd)]; [apply counted_first|by apply counted_next].
Qed.

(** The names that all candidates require *)
Definition shared_names (D : list SolvableId) : gset NameType :=
  filter (λ name, Forall (λ x, requires x name ≠ []) D)
    (list_to_set (D ≫= λ x, resolve_version_set_package_name <$> requirement_list x)).
Definition shared (D : list SolvableId) : list NameType := sort_by (cmp_leb name_type_cmp) (elements (shared_names D)).

Lemma requires_ne x name : requires x name ≠ [] ↔ ∃ v, v ∈ requirement_list x ∧ resolve_version_set_package_name v = name.
Proof.
  unfold requires. fold (requirement_list x). split.
  - destruct (filter _ _) as [|v l] eqn:E; [done|]. intros _. exists v.
    assert (v ∈ filter (λ v, resolve_version_set_package_name v = name) (requirement_list x)) as Hv by (rewrite E; left).
    apply list_elem_of_filter in Hv. tauto.
  - intros (v & Hv & Hn) E. apply (not_elem_of_nil v). rewrite <-E. by apply list_elem_of_filter.
Qed.
Lemma elem_of_shared name D : name ∈ shared D ↔ D ≠ [] ∧ ∀ x, x ∈ D → requires x name ≠ [].
Proof.
  unfold shared, shared_names. rewrite sort_by_perm, elem_of_elements, elem_of_filter, Forall_forall, elem_of_list_to_set,
    list_elem_of_bind. split.
  - intros (Hall & x & Hx & Hin). split; [|done]. intros ->. by apply elem_of_nil in Hin.
  - intros [HD Hall]. split; [done|]. destruct D as [|x D]; [done|]. exists x. split; [|left].
    destruct (proj1 (requires_ne x name) (Hall x ltac:(left))) as (v & Hv & <-). by apply list_elem_of_fmap_2.
Qed.
Lemma shared_perm D D' : D ≡ₚ D' → shared D = shared D'.
Proof.
  intros Hp. unfold shared. do 2 f_equal. apply set_eq. intros name. unfold shared_names.
  rewrite !elem_of_filter, !Forall_forall, !elem_of_list_to_set, !list_elem_of_bind. setoid_rewrite Hp. done.
Qed.

(** At the end the names that were counted for every candidate are those all require,
    and their requirements are complete. *)
Lemma done_with_names D d : NoDup D → done_with D d →
  sorted_unique_names (length D) d.1 = shared D ∧ collected d.2 (shared D) D.
Proof.
  intros Hnd [[-> ->]|(D0 & id & -> & [H1 H2 H3 H4])].
  { split; [|intros x name Hx; by apply elem_of_nil in Hx]. by vm_compute. }
  assert (∀ x name, x ∈ D0 ++ [id] → seen id (requirement_list id) x name = requires x name) as Hseen.
  { intros x name Hx. unfold seen. by case_decide as Hd; [rewrite Hd|]. }
  assert (∀ name, d.1 !! name = Some (length (D0 ++ [id])) ↔ ∀ x, x ∈ D0 ++ [id] → requires x name ≠ []) as Hcount.
  { intros name. split.
    - intros Hc%H2 x Hx. symmetry in Hc. rewrite has_entry_all in Hc. destruct (Hc x Hx) as [ids Hids].
      rewrite <-Hseen by done. by apply H3 in Hids as [_ ?].
    - intros Hall. destruct (H4 name) as [_ He]; [intros x Hx; apply Hall, elem_of_app; by left|].
      assert (∀ x, x ∈ D0 ++ [id] → is_Some (d.2 !! (x, name))) as Hsome.
      { intros x Hx. rewrite He, Hseen by done. specialize (Hall x Hx). by destruct (requires x name). }
      destruct (d.1 !! name) as [c|] eqn:Ec.
      + f_equal. rewrite (H2 name c Ec). by apply has_entry_all.
      + destruct (Hsome id) as [ids Hids]; [apply elem_of_app; right; left|]. by rewrite H1 in Hids. }
  split.
  - unfold sorted_unique_names, shared. apply sort_by_cmp_unique; [apply _|]. apply NoDup_Permutation.
    + apply NoDup_fmap_fst.
      * intros name c c' Hc Hc'. apply list_elem_of_filter in Hc as [Hc _].
        apply list_elem_of_filter in Hc' as [Hc' _]. simpl in *. congruence.
      * apply NoDup_filter, NoDup_map_to_list.
    + apply NoDup_elements.
    + intros name. rewrite list_elem_of_fmap, <-(sort_by_perm (cmp_leb name_type_cmp) (elements _)).
      fold (shared (D0 ++ [id])). rewrite elem_of_shared, <-Hcount. split.
      * intros ([n c] & -> & [Hc Hin]%list_elem_of_filter). apply elem_of_map_to_list in Hin. simpl in *. subst c.
        split; [|done]. by destruct D0.
      * intros [_ Hc]. exists (name, length (D0 ++ [id])). split; [done|]. apply list_elem_of_filter. split; [done|].
        by apply elem_of_map_to_list.
  - intros x name Hx [_ Hall]%elem_of_shared. destruct (H4 name) as [_ He].
    { intros y Hy. apply Hall, elem_of_app. by left. }
    rewrite He, Hseen by done. by destruct (requires x name).
Qed.

(** The same loop without the solver: the candidates whose dependencies are known first *)
Fixpoint settle (fuel : nat) (l : list SolvableId) (known_count idx : nat) : list SolvableId * nat :=
  match fuel with
  | O => (l, known_count)
  | S fuel' =>
      if (idx <? known_count)%nat then
        match l !! idx with
        | Some id =>
            if decide (known id) then settle fuel' l known_count (S idx)
            else settle fuel' (default l (swap idx (known_count - 1) l)) (known_count - 1) idx
        | None => (l, known_count)
        end
      else (l, known_count)
  end.

Lemma swap_spec {A} (l : list A) i j : i ≤ j → j < length l → ∃ l' x, swap i j l = Some l' ∧ l' ≡ₚ l
  ∧ take i l' = take i l ∧ drop (S j) l' = drop (S j) l ∧ l !! i = Some x ∧ l' !! j = Some x.
Proof.
  intros Hij Hj. destruct (lookup_lt_is_Some_2 l i ltac:(lia)) as [a Ha]. destruct (lookup_lt_is_Some_2 l j Hj) as [b Hb].
  unfold swap. rewrite Ha, Hb. cbn [mbind option_bind]. exists (<[j := a]> (<[i := b]> l)), a. split; [done|].
  split; [|split; [|split; [|split; [done|apply list_lookup_insert_eq; rewrite length_insert; lia]]]].
  - destruct (decide (i = j)) as [->|Hne].
    { rewrite list_insert_insert_eq, list_insert_id; done. }
    rewrite (Permutation_inj). split; [by rewrite !length_insert|].
    exists (λ k, if decide (k = i) then j else if decide (k = j) then i else k). split.
    + intros x y. repeat case_decide; lia.
    + intros k. repeat case_decide; subst.
      * rewrite list_lookup_insert_ne, list_lookup_insert_eq by lia. done.
      * rewrite list_lookup_insert_eq by (rewrite length_insert; lia). done.
      * by rewrite !list_lookup_insert_ne by done.
  - rewrite !take_insert_ge by lia. done.
  - rewrite !drop_insert_lt by lia. done.
Qed.

Lemma settle_spec fuel : ∀ l n i, i ≤ n → n ≤ length l → n - i ≤ fuel →
  Forall known (take i l) → Forall (λ x, ¬ known x) (drop n l) →
  let r := settle fuel l n i in
  r.1 ≡ₚ l ∧ i ≤ r.2 ∧ r.2 ≤ n ∧ Forall known (take r.2 r.1) ∧ Forall (λ x, ¬ known x) (drop r.2 r.1).
Proof.
  induction fuel as [|fuel IH]; intros l n i Hi Hn Hf Hk Hu; simpl.
  { replace n with i in * by lia. repeat split; done || lia. }
  destruct (Nat.ltb_spec i n) as [Hlt|]; [|replace n with i in * by lia; by repeat split].
  destruct (lookup_lt_is_Some_2 l i ltac:(lia)) as [id Hid]. rewrite Hid. case_decide as Hkn.
  - destruct (IH l n (S i)) as (Hp & H1 & H2 & H3 & H4); [lia..| |done|].
    { erewrite take_S_r by done. apply Forall_app. by split; [|constructor]. }
    repeat split; done || lia.
  - destruct (swap_spec l i (n - 1) ltac:(lia) ltac:(lia)) as (l' & x & -> & Hp & Ht & Hd & Hx & Hx'). simpl.
    assert (x = id) as -> by congruence. pose proof (Permutation_length Hp) as Hlen.
    destruct (IH l' (n - 1) i) as (Hp' & H1 & H2 & H3 & H4); [lia..|by rewrite Ht| |].
    { erewrite drop_S by done. replace (S (n - 1)) with n in * by lia. rewrite Hd. by constructor. }
    split; [by rewrite Hp'|]. repeat split; done || lia.
Qed.

Section provider.
Context (pv : Provider).
Context (Hsolver : solver_ok pv).
(** The conda solver never asks for one of several version sets. *)
Definition no_unions : Prop :=
  ∀ id requirements, dependencies_of id = Known requirements → Forall (λ r, ∃ v, r = Single v) requirements.
Context (Hsingle : no_unions).
Context (strong : Prop) (s0 : SortState).
Local Notation Inv := (Inv pv strong s0).

Lemma add_requirements_spec idx id requirements d : Forall (λ r, ∃ v, r = Single v) requirements →
  add_requirements idx id requirements d = Some (foldl (λ d v, add_requirement idx id v d) d
    (omap (λ r, match r with Single v => Some v | Union _ => None end) requirements)).
Proof.
  intros Hr. revert d. induction Hr as [|r l [v ->] _ IH]; intros d; [done|]. simpl. apply IH.
Qed.

Lemma inv_call s w : Inv s → (strong → running w) →
  Inv (mkSortState w (st_ranks s) (st_entries s) (st_stored s) (st_highest s)).
Proof. intros [H1 H2 H3] Hw. split; simpl; [done|done|]. intros Hs. split; [by apply Hw|]. by apply H3. Qed.

Lemma inv_dependencies s id : Inv s →
  let r := get_or_cache_dependencies id (st_world s) in
  Inv (mkSortState r.1 (st_ranks s) (st_entries s) (st_stored s) (st_highest s)) ∧ (strong → r.2 ≠ None).
Proof.
  intros Hs. simpl. split; [apply inv_call; [done|]|]; intros Hst; pose proof (inv_strong _ _ _ _ Hs Hst) as [Hr _];
    destruct (running_dependencies id _ Hr) as [[d Hd] ?]; [done|congruence].
Qed.

Lemma fetch_spec l : ∀ s, Inv s →
  ∃ b s', fetch_dependencies l s = Some (b, s') ∧ Inv s' ∧ st_highest s' = st_highest s ∧ (strong → b = true).
Proof.
  induction l as [|id l IH]; intros s Hs; [by exists true, s|]. cbn [fetch_dependencies]. rewrite bind_call.
  destruct (inv_dependencies s id Hs) as [Hs' Hn]. destruct (get_or_cache_dependencies id (st_world s)) as [w [d|]]; simpl in *.
  - destruct (IH _ Hs') as (b & s2 & E & Hs2 & Hh & Hb). by exists b, s2.
  - exists false. eexists. split; [done|]. split; [done|]. split; [done|]. intros Hst. by destruct (Hn Hst).
Qed.

Lemma collect_spec fuel : ∀ l n i d s, Inv s → i ≤ n → n ≤ length l → n - i ≤ fuel → NoDup l →
  done_with (take i l) d → Forall known (take i l) →
  ∃ l' o s', collect_dependencies fuel l n i d s = Some ((l', o), s') ∧ Inv s' ∧ st_highest s' = st_highest s
    ∧ l' ≡ₚ l ∧ (strong → o ≠ None)
    ∧ ∀ n' d', o = Some (n', d') → (l', n') = settle fuel l n i ∧ done_with (take n' l') d'.
Proof using Hsingle.
  induction fuel as [|fuel IH]; intros l n i d s Hs Hi Hn Hf Hnd Hd Hk; cbn [collect_dependencies settle].
  { exists l, (Some (n, d)), s. do 5 (split; [done|]). intros n' d' [= <- <-]. split; [done|].
    by replace n with i by lia. }
  destruct (Nat.ltb_spec i n) as [Hlt|].
  2: { exists l, (Some (n, d)), s. do 5 (split; [done|]). intros n' d' [= <- <-]. split; [done|].
       by replace n with i by lia. }
  destruct (lookup_lt_is_Some_2 l i ltac:(lia)) as [id Hid]. rewrite (bind_ask _ _ _ id Hid), bind_call.
  destruct (inv_dependencies s id Hs) as [Hs' Hn']. pose proof (dependencies_answer id (st_world s)) as Hans.
  destruct (get_or_cache_dependencies id (st_world s)) as [w [dep|]]; simpl in Hs', Hn', Hans; cbn [fst snd].
  2: { exists l, None. eexists. do 4 (split; [done|]). split; [|done]. intros Hst. by destruct (Hn' Hst). }
  specialize (Hans dep eq_refl). rewrite Hid.
  destruct dep as [requirements|reason].
  - assert (requirements_of id = Some (omap (λ r, match r with Single v => Some v | Union _ => None end) requirements)) as Er
      by (unfold requirements_of; by rewrite <-Hans).
    rewrite decide_True by (unfold known; rewrite Er; by eexists).
    rewrite (bind_ask _ _ _ _ (add_requirements_spec i id requirements d (Hsingle id requirements (eq_sym Hans)))).
    assert (take (S i) l = take i l ++ [id]) as Et by by apply take_S_r.
    destruct (IH l n (S i) (foldl (λ d v, add_requirement i id v d) d (requirement_list id)) _ Hs')
      as (l' & o & s2 & E & Hres); [lia..|done| | |].
    { rewrite Et. pose proof (done_with_next (take i l) id d) as Hnext. rewrite length_take, Nat.min_l in Hnext by lia.
      apply Hnext; [|done]. rewrite <-Et. eapply sublist_NoDup; [exact Hnd|apply sublist_take]. }
    { rewrite Et. apply Forall_app. split; [done|]. constructor; [|done]. unfold known. rewrite Er. by eexists. }
    unfold requirement_list in E. rewrite Er in E. exists l', o, s2. split; [exact E|exact Hres].
  - rewrite decide_False by (unfold known, requirements_of; rewrite <-Hans; by intros [? ?]).
    destruct (swap_spec l i (n - 1) ltac:(lia) ltac:(lia)) as (l1 & x & Esw & Hp & Ht & Hdr & _).
    rewrite (bind_ask _ _ _ l1 Esw), Esw. cbn [default]. pose proof (Permutation_length Hp) as Hlen.
    destruct (IH l1 (n - 1) i d _ Hs') as (l' & o & s2 & E & Hs2 & Hh & Hp' & Hres);
      [lia..|by rewrite Hp|by rewrite Ht|by rewrite Ht|].
    exists l', o, s2. split; [exact E|]. split; [done|]. split; [done|]. split; [by rewrite Hp'|exact Hres].
Qed.

(** *** The sort of candidates that tie *)
Definition tie_sort (strategy : CompareStrategy) (l : list SolvableId) : list SolvableId :=
  let '(l', n) := settle (length l) l (length l) 0 in
  sort_by (cmp_leb (score_ord pv (highest_spec pv) strategy (shared (take n l')))) (take n l') ++ drop n l'.

Lemma sort_subset_spec strategy l s : Inv s → NoDup l → (∀ id, id ∈ l → is_Some (solvable_record pv id)) →
  ∃ l' b s', sort_subset_by_highest_dependency_versions pv strategy l s = Some ((l', b), s') ∧ Inv s' ∧ l' ≡ₚ l
    ∧ (strong → b = true ∧ l' = tie_sort strategy l).
Proof using Hsolver Hsingle.
  intros Hs Hnd Hrec. unfold sort_subset_by_highest_dependency_versions.
  destruct (fetch_spec l s Hs) as (b & s1 & E1 & Hs1 & Hh1 & Hb). rewrite (bind_Some _ _ _ _ _ E1).
  destruct b; [|exists l, false, s1; do 3 (split; [done|]); intros Hst; by specialize (Hb Hst)].
  destruct (collect_spec (length l) l (length l) 0 (∅, ∅) s1 Hs1) as (l2 & o & s2 & E2 & Hs2 & Hh2 & Hp2 & Ho & Hres);
    [lia..|done|by left|constructor|].
  rewrite (bind_Some _ _ _ _ _ E2).
  destruct o as [[n [nc deps]]|]; [|exists l2, false, s2; do 3 (split; [done|]); intros Hst; by destruct (Ho Hst)].
  destruct (Hres n (nc, deps) eq_refl) as [Eset Hd].
  pose proof (settle_spec (length l) l (length l) 0 ltac:(lia) ltac:(lia) ltac:(lia) ltac:(constructor)) as Hset.
  rewrite drop_all, <-Eset in Hset. destruct Hset as (_ & _ & Hn & Hk & _); [constructor|]. cbn [fst snd] in *.
  assert (NoDup (take n l2)) as Hnd2 by (eapply sublist_NoDup; [|apply sublist_take]; by rewrite Hp2).
  destruct (done_with_names _ _ Hnd2 Hd) as [Enames Hcol]. cbn [fst snd] in *.
  rewrite length_take, Nat.min_l in Enames by (rewrite (Permutation_length Hp2); lia). rewrite Enames.
  destruct (sort_known_spec pv strong s0 Hsolver strategy deps (shared (take n l2)) (take n l2) Hcol) with (s := s2)
    as (k & s3 & E3 & Hs3 & Hp3 & Hk3); [|done|].
  { intros id Hid. apply Hrec. rewrite <-Hp2. eapply elem_of_sublist, sublist_take. done. }
  rewrite (bind_Some _ _ _ _ _ E3), bind_call. exists (k ++ drop n l2). eexists _, _. split; [done|].
  split; [|split].
  - apply inv_call; [done|]. intros Hst. by apply running_is_cancelled, (inv_strong _ _ _ _ Hs3).
  - by rewrite Hp3, take_drop.
  - intros Hst. destruct (inv_strong _ _ _ _ Hs3 Hst) as [Hr Ha]. split.
    + by destruct (running_is_cancelled _ Hr) as [-> _].
    + unfold tie_sort. rewrite <-Eset. f_equal. by apply Hk3.
Qed.
End provider.

(** ** The whole sort *)
Section whole.
Context (pv : Provider).
Context (Hpv : provider_ok pv) (Hsolver : solver_ok pv) (Hsingle : no_unions).

Definition dependency_strategy : CompareStrategy :=
  match pv_strategy pv with LowestVersion => LowestFirst | _ => DefaultOrder end.

(** The caches of a provider.  Of a solve that may have been cancelled it is known that
    they hold nothing that makes the sort fail; of one that runs, that they are exact. *)
Record sorter_ok (strong : Prop) (s : SortState) : Prop := {
  so_ranks : ranks_ok pv (st_ranks s);
  so_wf id v : st_highest s !! id = Some v → highest_wf v;
  so_entries key v : st_entries s !! key = Some v → v ≡ₚ key ∧ (strong → v = tie_sort pv dependency_strategy key);
  so_strong : strong → running (st_world s) ∧ agree s (highest_spec pv)
}.

Lemma sorter_inv strong s : sorter_ok strong s → Inv pv strong s s.
Proof. intros [_ H2 _ H4]. by split. Qed.

Lemma inv_sorter strong s0 s : sorter_ok strong s0 → Inv pv strong s0 s → sorter_ok strong s.
Proof. intros [H1 _ H3 _] [(E1 & E2 & E3) H2 H4]. split; rewrite ?E1, ?E2; done. Qed.

Lemma tie_sort_short strategy l : length l ≤ 1 → tie_sort pv strategy l = l.
Proof.
  destruct l as [|x [|y l]]; simpl; intros Hl; [done| |lia]. unfold tie_sort. simpl.
  by case_decide.
Qed.

Lemma sort_group_spec strong s sub :
  sorter_ok strong s → NoDup sub → (∀ id, id ∈ sub → is_Some (solvable_record pv id)) →
  ∃ sub' s', sort_group pv dependency_strategy sub s = Some (sub', s') ∧ sorter_ok strong s'
    ∧ st_ranks s' = st_ranks s ∧ sub' ≡ₚ sub ∧ (strong → sub' = tie_sort pv dependency_strategy sub).
Proof using Hsolver Hsingle.
  intros Hs Hnd Hrec. unfold sort_group. destruct (Nat.ltb_spec 1 (length sub)) as [Hlt|Hle].
  2: { exists sub, s. do 4 (split; [done|]). intros _. symmetry. by apply tie_sort_short. }
  rewrite bind_gets. destruct (st_entries s !! sub) as [cached|] eqn:Ec.
  { destruct (so_entries _ _ Hs _ _ Ec) as [Hp Hv]. rewrite (Permutation_length Hp), Nat.eqb_refl.
    by exists cached, s. }
  rewrite bind_gets.
  destruct (sort_subset_spec pv Hsolver Hsingle strong s dependency_strategy sub s (sorter_inv _ _ Hs) Hnd Hrec)
    as (l' & b & s1 & E & Hs1 & Hp & Hst). rewrite (bind_Some _ _ _ _ _ E).
  pose proof (inv_sorter _ _ _ Hs Hs1) as Hok. destruct (inv_frame _ _ _ _ Hs1) as (Er & _).
  case_match; [rewrite bind_modify|]; (exists l'; eexists; split; [done|]).
  2: { split; [done|]. split; [done|]. split; [done|]. intros Hstrong. by apply Hst. }
  split; [|split; [done|split; [done|intros Hstrong; by apply Hst]]].
  destruct Hok as [H1 H2 H3 H4]. split; [done|done| |done]. intros key v. simpl.
  destruct (decide (key = sub)) as [->|Hne]; [|rewrite lookup_insert_ne by done; apply H3].
  rewrite lookup_insert_eq. intros [= <-]. split; [done|]. intros Hstrong. by apply Hst.
Qed.

Fixpoint count_eq (strategy : CompareStrategy) (first : SolvableId) (l : list SolvableId) : nat :=
  match l with
  | [] => 0
  | x :: l' => match simple_ord pv strategy first x with Eq => S (count_eq strategy first l') | _ => 0 end
  end.
Lemma count_equal_spec strategy ranks first rest :
  (∀ x, x ∈ rest → simple_compare pv strategy ranks first x = Some (simple_ord pv strategy first x)) →
  count_equal pv strategy ranks first rest = Some (count_eq strategy first rest).
Proof.
  induction rest as [|x rest IH]; intros Hx; [done|]. cbn [count_equal count_eq]. rewrite Hx by left.
  cbn [mbind option_bind]. rewrite IH by (intros y Hy; apply Hx; by right). by destruct (simple_ord _ _ _ x).
Qed.

(** Each run of candidates that tie, sorted on its own *)
Fixpoint tie_groups (fuel : nat) (strategy : CompareStrategy) (l : list SolvableId) : list SolvableId :=
  match fuel, l with
  | S fuel', first :: rest =>
      let n := count_eq strategy first rest in
      tie_sort pv dependency_strategy (first :: take n rest) ++ tie_groups fuel' strategy (drop n rest)
  | _, _ => l
  end.
Definition candidate_order (strategy : CompareStrategy) (l : list SolvableId) : list SolvableId :=
  tie_groups (length l) strategy (sort_by (cmp_leb (simple_ord pv strategy)) l).

Lemma sort_groups_spec strong strategy c fuel : ∀ l s,
  length l ≤ fuel → sorter_ok strong s → ranked pv (st_ranks s) c → NoDup l → l ⊆ c →
  (∀ id, id ∈ c → is_Some (solvable_record pv id)) →
  ∃ l' s', sort_by_highest_dependency_versions pv fuel strategy dependency_strategy l s = Some (l', s')
    ∧ sorter_ok strong s' ∧ l' ≡ₚ l ∧ (strong → l' = tie_groups fuel strategy l).
Proof using All.
  induction fuel as [|fuel IH]; intros l s Hl Hs Hr Hnd Hsub Hrec.
  { destruct l; [|simpl in Hl; lia]. by exists [], s. }
  destruct l as [|first rest]; [by exists [], s|]. cbn [sort_by_highest_dependency_versions tie_groups].
  rewrite bind_gets. set (n := count_eq strategy first rest).
  rewrite (bind_ask _ _ _ n).
  2: { apply count_equal_spec. intros x Hx. apply (simple_compare_ord pv strategy _ c); [done|..|apply Hrec|apply Hrec];
         apply Hsub; by (left || right). }
  assert (first :: rest = (first :: take n rest) ++ drop n rest) as Esplit by (simpl; by rewrite take_drop).
  rewrite Esplit in Hnd, Hsub. apply NoDup_app in Hnd as (Hnd1 & _ & Hnd2).
  destruct (sort_group_spec strong s (first :: take n rest) Hs Hnd1) as (sub & s1 & E1 & Hs1 & Er1 & Hp1 & Hv1).
  { intros id Hid. apply Hrec, Hsub, elem_of_app. by left. }
  rewrite (bind_Some _ _ _ _ _ E1).
  destruct (IH (drop n rest) s1) as (l2 & s2 & E2 & Hs2 & Hp2 & Hv2);
    [rewrite length_drop; simpl in Hl; lia|done|by rewrite Er1|done|set_solver|done|].
  rewrite (bind_Some _ _ _ _ _ E2). exists (sub ++ l2), s2. split; [done|]. split; [done|]. split.
  - rewrite Esplit. by rewrite Hp1, Hp2.
  - intros Hst. by rewrite Hv1, Hv2.
Qed.

Lemma sort_candidates_spec strong name c l s :
  sorter_ok strong s → pv_records pv !! name = Some c → l ⊆ candidates c → NoDup l →
  ∃ l' s', sort_candidates pv l s = Some (l', s') ∧ sorter_ok strong s' ∧ l' ≡ₚ l
    ∧ (strong → l' = candidate_order (strategies pv name).1 l).
Proof using All.
  intros Hs Hc Hsub Hnd. unfold sort_candidates. destruct l as [|first rest]; [by exists [], s|].
  assert (∀ id, id ∈ candidates c → option_map fst (resolve_solvable (pv_pool pv) id) = Some name
    ∧ is_Some (solvable_record pv id)) as Hid.
  { intros id Hin. destruct (po_candidate pv Hpv name c id Hc Hin) as (r & v & Er & _). unfold solvable_record.
    rewrite Er. split; [done|by eexists]. }
  destruct (Hid first) as [Ename _]; [apply Hsub; left|]. rewrite (bind_ask _ _ _ name Ename).
  assert ((strategies pv name).2 = dependency_strategy) as Edep
    by (unfold strategies, dependency_strategy; destruct (pv_strategy pv); try done; by case_bool_decide).
  destruct (strategies pv name) as [strategy dep]. simpl in Edep. subst dep. cbn [fst]. unfold sort.
  destruct rest as [|second rest].
  { exists [first], s. do 3 (split; [done|]). intros _. unfold candidate_order. simpl.
    by rewrite tie_sort_short, app_nil_r by done. }
  rewrite (bind_ask _ _ _ name Ename). set (l := first :: second :: rest) in *.
  destruct (rank_candidates_spec pv s name c Hpv Hc) as (ranks & E & Hr & Hranked);
    [intros Hn; rewrite Hn in Hsub; apply (not_elem_of_nil first), Hsub; left|apply Hs|].
  rewrite (bind_Some _ _ _ _ _ E). set (s1 := set_ranks ranks s).
  assert (sorter_ok strong s1) as Hs1 by (destruct Hs as [H1 H2 H3 H4]; by split).
  set (l1 := sort_by (cmp_leb (simple_ord pv strategy)) l).
  assert (l1 ≡ₚ l) as Hp1 by apply sort_by_perm.
  assert (sort_by_tracked_version_build pv strategy l s1 = Some (l1, s1)) as Esort.
  { unfold sort_by_tracked_version_build. rewrite bind_gets. cbn [s1 set_ranks st_ranks].
    destruct (sort_by_state_pure (λ a b (u : unit), c ← simple_compare pv strategy ranks a b; Some (bool_decide (c ≠ Gt), u))
      (λ _ : unit, cmp_leb (simple_ord pv strategy)) (λ id, id ∈ l) (λ _, True) (λ _ _, True)) with (l := l) (s := tt)
      as (k & [] & Ek & _ & _ & Hk).
    - intros a b [] Ha Hb _. exists (bool_decide (simple_ord pv strategy a b ≠ Gt)), tt.
      rewrite (simple_compare_ord pv strategy ranks (candidates c)); [|done|by apply Hsub|by apply Hsub|by apply Hid, Hsub|by apply Hid, Hsub].
      do 2 (split; [done|]). intros _ _. split; [done|]. apply cmp_leb_spec.
    - by apply Forall_forall.
    - done.
    - rewrite (bind_ask _ _ _ (k, tt) Ek). destruct (Hk tt I) as [_ ->]. done. }
  rewrite (bind_Some _ _ _ _ _ Esort).
  destruct (sort_groups_spec strong strategy (candidates c) (length l1) l1 s1) as (l' & s2 & E2 & Hs2 & Hp2 & Hv2);
    [done|done|done|by rewrite Hp1|intros x; rewrite Hp1; apply Hsub|by intros id [_ Hx]%Hid|].
  exists l', s2. split; [exact E2|]. split; [done|]. split; [by rewrite Hp2|]. intros Hst. rewrite Hv2 by done.
  unfold candidate_order. by rewrite (Permutation_length Hp1).
Qed.
End whole.
End groups.
