(* ===== verification/CandidateTheorems.v ===== *)
(** * The order in which the solver tries candidates

    The theorems on [sort_candidates], also of a provider made by [new].  The order among
    candidates that tie goes by the packages they share one after another, in the order of
    their names; the comment of [sort_subset_by_highest_dependency_versions] describes another,
    by a sum of positions ([scores_not_summed]). *)
From S2P Require Import Prelude Externs VersionRepr VersionOrder VersionOps.
From S2P Require Import VersionParse VersionGrammar VersionSource VersionSpec VersionTheorems BuildSpec PackageName Subdir.
From S2P Require Import Archive Matchers Records MatchSpecs Redaction SolvePolicy SolveProvider ProviderTheorems.
From S2P Require Import CandidateSort SortTheorems SortGroups.

Local Notation text := (list N).

Section theorems.
Context `{IT : Itertools} `{GL : Glob} `{FR : FancyRegex} `{UC : UrlCrate} `{SC : SolverCache}.
Context (pv : Provider).

(** ** What the reference order is *)

(** The candidates that tie with [a] in the first order *)
Definition tied (strategy : CompareStrategy) (l : list SolvableId) (a : SolvableId) : list SolvableId :=
  filter (λ x, simple_ord pv strategy a x = Eq) l.

(** [a] may come before [b]: by the first order; when they tie, by the versions that the
    packages required by all that tie can have, a candidate of unknown dependencies last. *)
Definition before (strategy : CompareStrategy) (l : list SolvableId) (a b : SolvableId) : Prop :=
  simple_ord pv strategy a b ≠ Gt ∧
  (simple_ord pv strategy a b = Eq → known b → known a ∧
   score_ord pv (highest_spec pv) (dependency_strategy pv) (shared (filter known (tied strategy l a))) a b ≠ Gt).

Lemma filter_known_split l n :
  Forall known (take n l) → Forall (λ x, ¬ known x) (drop n l) → filter known l = take n l.
Proof.
  rewrite !Forall_forall. intros Hk Hu. rewrite <-(take_drop n l) at 1. rewrite filter_app.
  by rewrite filter_all, filter_none, app_nil_r.
Qed.

Lemma tie_sort_spec strategy g :
  tie_sort pv strategy g ≡ₚ g ∧
  StronglySorted (λ a b, known b → known a
    ∧ score_ord pv (highest_spec pv) strategy (shared (filter known g)) a b ≠ Gt) (tie_sort pv strategy g).
Proof.
  unfold tie_sort.
  pose proof (settle_spec (length g) g (length g) 0 ltac:(lia) ltac:(lia) ltac:(lia) ltac:(constructor)) as Hset.
  rewrite drop_all in Hset. specialize (Hset ltac:(constructor)).
  destruct (settle (length g) g (length g) 0) as [l n]. simpl in Hset. destruct Hset as (Hp & _ & _ & Hk & Hu).
  assert (shared (filter known g) = shared (take n l)) as ->.
  { apply shared_perm. rewrite <-Hp. by rewrite (filter_known_split l n). }
  split; [rewrite sort_by_perm, take_drop; done|]. rewrite Forall_forall in Hk, Hu. apply StronglySorted_app. split_and!.
  - intros a b Ha Hb Hkb. by destruct (Hu b Hb).
  - eapply (StronglySorted_impl_Forall _ _ known); [| |apply sort_by_cmp_sorted, score_ord_preorder].
    + intros a b Ha _ Hab _. by split.
    + apply Forall_forall. intros x. rewrite sort_by_perm. apply Hk.
  - generalize (drop n l) as u, Hu. induction u as [|x u IH]; intros Hux; constructor; [apply IH; set_solver|].
    apply Forall_forall. intros y Hy Hky. exfalso. apply (Hux y); [by right|done].
Qed.

Lemma count_eq_spec strategy first rest :
  StronglySorted (λ a b, simple_ord pv strategy a b ≠ Gt) (first :: rest) →
  (∀ x, x ∈ take (count_eq pv strategy first rest) rest → simple_ord pv strategy first x = Eq)
  ∧ (∀ y, y ∈ drop (count_eq pv strategy first rest) rest → simple_ord pv strategy first y = Lt).
Proof.
  pose proof (simple_ord_preorder pv strategy) as Hord. rewrite StronglySorted_cons. intros [Hf Hs]. rewrite Forall_forall in Hf.
  induction Hs as [|x rest Hs IH Hx]; [split; intros x Hx; by apply elem_of_nil in Hx|].
  cbn [count_eq]. destruct (simple_ord pv strategy first x) eqn:E; cbn [take drop].
  - destruct IH as [H1 H2]; [intros y Hy; apply Hf; by right|]. split; [|done].
    intros y [->|Hy]%elem_of_cons; [done|by apply H1].
  - split; [intros y Hy; by apply elem_of_nil in Hy|]. intros y [->|Hy]%elem_of_cons; [done|].
    rewrite Forall_forall in Hx. specialize (Hx y Hy).
    destruct (simple_ord pv strategy x y) eqn:Exy; [by rewrite <-(cmp_Eq_r _ first x y Exy)|
      by apply (cmp_Lt_trans _ first x y)|done].
  - exfalso. by apply (Hf x); [left|].
Qed.

Lemma tie_groups_spec strategy l fuel : ∀ k,
  length k ≤ fuel → StronglySorted (λ a b, simple_ord pv strategy a b ≠ Gt) k →
  (∀ x, x ∈ k → tied strategy l x ≡ₚ tied strategy k x) →
  tie_groups pv fuel strategy k ≡ₚ k ∧ StronglySorted (before strategy l) (tie_groups pv fuel strategy k).
Proof.
  pose proof (simple_ord_preorder pv strategy) as Hord.
  induction fuel as [|fuel IH]; intros k Hk Hs Htied; [destruct k; [by split; [|constructor]|simpl in Hk; lia]|].
  destruct k as [|first rest]; [by split; [|constructor]|]. cbn [tie_groups].
  destruct (count_eq_spec strategy first rest Hs) as [Hg0 Hr]. set (n := count_eq pv strategy first rest) in *.
  assert (first :: rest = (first :: take n rest) ++ drop n rest) as Esplit by (simpl; by rewrite take_drop).
  set (g := first :: take n rest) in *.
  assert (∀ x, x ∈ g → simple_ord pv strategy first x = Eq) as Hg.
  { intros x [->|Hx]%elem_of_cons; [apply (cmp_refl _)|by apply Hg0]. }
  assert (∀ x y, x ∈ g → y ∈ drop n rest → simple_ord pv strategy x y = Lt) as Hgr.
  { intros x y Hx Hy. rewrite <-(cmp_Eq_l _ first x y (Hg x Hx)). by apply Hr. }
  assert (∀ x y, x ∈ g → y ∈ g → simple_ord pv strategy x y = Eq) as Hgg.
  { intros x y Hx Hy. rewrite <-(cmp_Eq_l _ first x y (Hg x Hx)). by apply Hg. }
  rewrite Esplit in Hs, Htied. apply StronglySorted_app in Hs as (_ & _ & Hs).
  destruct (IH (drop n rest)) as [Hp2 Hs2]; [rewrite length_drop; simpl in Hk; lia|done| |].
  { intros y Hy. rewrite Htied by (apply elem_of_app; by right). unfold tied. rewrite filter_app.
    rewrite (filter_none _ g); [done|]. intros x Hx E. apply cmp_Eq_sym in E; [|done]. rewrite (Hgr x y Hx Hy) in E. done. }
  destruct (tie_sort_spec (dependency_strategy pv) g) as [Hp1 Hs1]. split; [by rewrite Esplit, Hp1, Hp2|].
  assert (∀ x, x ∈ g → tied strategy l x ≡ₚ g) as Htg.
  { intros x Hx. rewrite Htied by (apply elem_of_app; by left). unfold tied. rewrite filter_app.
    rewrite (filter_none _ (drop n rest)), app_nil_r by (intros y Hy E; rewrite (Hgr x y Hx Hy) in E; done).
    rewrite filter_all; [done|]. intros y Hy. by apply Hgg. }
  apply StronglySorted_app. split_and!; [|clear Hs2|done].
  - intros a b Ha Hb. rewrite Hp1 in Ha. rewrite Hp2 in Hb. unfold before. by rewrite (Hgr a b Ha Hb).
  - eapply (StronglySorted_impl_Forall _ _ (λ x, x ∈ g)); [|apply Forall_forall; intros x; by rewrite Hp1|exact Hs1].
    intros a b Ha Hb Hab. unfold before. rewrite (Hgg a b Ha Hb). split; [done|]. intros _ Hkb.
    destruct (Hab Hkb) as [Hka Hsc]. split; [done|].
    rewrite (shared_perm (filter known (tied strategy l a)) (filter known g)); [done|]. by rewrite (Htg a Ha).
Qed.

Lemma candidate_order_spec strategy l :
  candidate_order pv strategy l ≡ₚ l ∧ StronglySorted (before strategy l) (candidate_order pv strategy l).
Proof.
  unfold candidate_order. set (k := sort_by _ l). assert (k ≡ₚ l) as Hp by apply sort_by_perm.
  rewrite <-Hp at 2. apply tie_groups_spec.
  - by rewrite (Permutation_length Hp).
  - apply sort_by_cmp_sorted, simple_ord_preorder.
  - intros x _. unfold tied. by rewrite Hp.
Qed.

(** ** The properties of [sort_candidates] *)

(** C15: Sorting the candidates of a package, in a solve that is not cancelled.  The result
    does not depend on what the caches hold: it is the reference order, which has the
    same candidates; by tracked features, channel, version and build number, and among
    candidates that tie by the best version of the first package, by name, that they all
    require, then of the second and so on, and the time stamp, those of unknown dependencies
    last.  The caches stay exact. *)
Theorem sort_candidates_correct (name : NameType) (c : Candidates) (l : list SolvableId) (s : SortState) :
  provider_ok pv → solver_ok pv → no_unions → sorter_ok pv True s →
  pv_records pv !! name = Some c → l ⊆ candidates c → NoDup l →
  let strategy := (strategies pv name).1 in
  ∃ s', sort_candidates pv l s = Some (candidate_order pv strategy l, s') ∧ sorter_ok pv True s'
    ∧ candidate_order pv strategy l ≡ₚ l ∧ StronglySorted (before strategy l) (candidate_order pv strategy l).
Proof.
  intros Hpv Hsolver Hsingle Hs Hc Hsub Hnd. cbv zeta.
  destruct (sort_candidates_spec pv Hpv Hsolver Hsingle True name c l s Hs Hc Hsub Hnd) as (l' & s' & E & Hs' & _ & Hl').
  rewrite <-(Hl' I). exists s'. rewrite (Hl' I) in *. split; [exact E|]. split; [done|]. apply candidate_order_spec.
Qed.

(** C16: Sorting the candidates of a package never panics, also when the solve is cancelled
    at any time during it or before: the result has the same candidates, and the caches
    can be used by the next sort. *)
Theorem sort_candidates_never_panics (name : NameType) (c : Candidates) (l : list SolvableId) (s : SortState) :
  provider_ok pv → solver_ok pv → no_unions → sorter_ok pv False s →
  pv_records pv !! name = Some c → l ⊆ candidates c → NoDup l →
  ∃ l' s', sort_candidates pv l s = Some (l', s') ∧ l' ≡ₚ l ∧ sorter_ok pv False s'.
Proof.
  intros Hpv Hsolver Hsingle Hs Hc Hsub Hnd.
  destruct (sort_candidates_spec pv Hpv Hsolver Hsingle False name c l s Hs Hc Hsub Hnd) as (l' & s' & E & Hs' & Hp & _).
  by exists l', s'.
Qed.

(** The caches of a new provider *)
Definition fresh_caches (w : World) : SortState := mkSortState w ∅ ∅ 0%N ∅.
Lemma fresh_caches_ok strong w : (strong → running w) → sorter_ok pv strong (fresh_caches w).
Proof. intros Hw. split; simpl; [by intros name c _; left|done|done|]. intros Hs. split; [by apply Hw|done]. Qed.
End theorems.

Section new.
Context `{IT : Itertools} `{GL : Glob} `{FR : FancyRegex} `{UC : UrlCrate} `{SP : SolvablePool} `{ST : ShowTime}.
Context (repodata : list RepoDataInput) (favored_records locked_records : list RepoDataRecord).
Context (virtual_packages : list GenericVirtualPackage) (match_specs : list MatchSpec) (priority : ChannelPriority).
Context (exclude_newer : option ExcludeNewer) (strategy : SolveStrategy) (overrides : list DependencyOverride).
Context (excluded_candidates : gmap text text).

Local Notation task_wf := (task_wf repodata favored_records locked_records match_specs priority exclude_newer
  excluded_candidates).
Local Notation new_inputs := (new_inputs repodata match_specs priority exclude_newer excluded_candidates).

(** Every event is of a record with a well formed version. *)
Lemma new_events_wf kept :
  task_wf → Forall (λ v, wf (gvp_version v)) virtual_packages →
  Forall2 (λ repo k, dedup_records (in_exclusions new_inputs) (rdi_records repo) = Some (Ok k)) repodata kept →
  ∀ e, e ∈ new_events repodata favored_records locked_records virtual_packages kept →
  ∃ v, spr_version (event_record e) = Some v ∧ wf v.
Proof.
  intros (Hin & Hrepo & Hfav & Hlock) Hv HF e. unfold new_events, channel_events.
  rewrite !elem_of_app, !list_elem_of_fmap. rewrite Forall_forall in Hv. rewrite Forall_forall in Hfav.
  rewrite Forall_forall in Hlock.
  intros [(x & -> & Hx)|[He|[(x & -> & Hx)|(x & -> & Hx)]]]; [by eexists; split; [|apply Hv]| |
    by eexists; split; [|by apply Hfav]|by eexists; split; [|by apply Hlock]].
  apply list_elem_of_In, in_concat in He as (k & Hk & He). apply list_elem_of_In in Hk, He.
  apply list_elem_of_lookup in Hk as [i Hk]. apply lookup_zip_with_Some in Hk as (repo & k0 & -> & Hi & Hk0).
  apply list_elem_of_fmap in He as (r & -> & Hr). eexists. split; [done|].
  rewrite Forall_lookup in Hrepo. specialize (Hrepo i repo Hi). rewrite Forall_forall in Hrepo. apply Hrepo.
  pose proof (Forall2_lookup_lr _ _ _ _ _ _ HF Hi Hk0) as Hd.
  eapply dedup_records_subset; [|exact Hd|exact Hr]. apply Forall_forall. intros x Hx.
  destruct (task_total new_inputs x Hin (Hrepo x Hx)) as [_ E]. unfold ruled_out. by rewrite E.
Qed.

Lemma provider_new_ok (p : Provider) :
  task_wf → Forall (λ v, wf (gvp_version v)) virtual_packages →
  new repodata favored_records locked_records virtual_packages match_specs priority exclude_newer strategy
    overrides excluded_candidates = Some (Ok p) →
  (∀ name c, pv_records p !! name = Some c → (N.of_nat (length (candidates c)) < 4294967296)%N) →
  provider_ok p.
Proof.
  intros Hwf Hv Hnew Hcount.
  destruct (provider_new_log repodata favored_records locked_records virtual_packages match_specs priority
    exclude_newer strategy overrides excluded_candidates Hwf) as (res & E & Hres).
  rewrite Hnew in E. injection E as <-. destruct Hres as (kept & log & [H1 H2 H3 H4 H5 _ _]).
  assert (∀ name c, pv_records p !! name = Some c → candidates c = (own log name).*1) as Hcand.
  { intros name c Hc. specialize (H5 name). rewrite Hc in H5. simpl in H5. by rewrite H5. }
  split.
  - intros name c id Hc Hid. rewrite (Hcand _ _ Hc) in Hid. apply list_elem_of_fmap in Hid as ([id' e] & -> & Hin).
    apply list_elem_of_filter in Hin as [Hname Hin]. simpl in *. subst name.
    destruct (new_events_wf kept Hwf Hv H1 e) as (v & Ev & Hwv); [rewrite <-H2; by apply (list_elem_of_fmap_2 snd _ (id', e))|].
    exists (event_record e), v. split; [exact (H4 _ Hin)|done].
  - intros name c Hc. rewrite (Hcand _ _ Hc). eapply sublist_NoDup; [exact H3|].
    apply fmap_sublist. apply sublist_filter.
  - exact Hcount.
Qed.

(** C18: The provider that [new] makes has what the sort of its candidates relies on: each
    candidate is a solvable of the package it is listed under, listed once, with a well
    formed version. *)
Theorem provider_new_well_formed (p : Provider) :
  task_wf → Forall (λ v, wf (gvp_version v)) virtual_packages →
  new repodata favored_records locked_records virtual_packages match_specs priority exclude_newer strategy
    overrides excluded_candidates = Some (Ok p) →
  (∀ name c, pv_records p !! name = Some c → (N.of_nat (length (candidates c)) < 4294967296)%N) →
  provider_ok p.
Proof. apply provider_new_ok. Qed.
End new.

(** ** The theorems at concrete inputs *)
Definition sample_version (v : text) : Version := pack (mkParts None [row_iter (None, [v])] []).
Lemma sample_versions_wf : Forall wf [sample_version (txt "1"); sample_version (txt "2"); sample_version (txt "1")].
Proof.
  assert (∀ v, v ∈ [txt "1"; txt "2"] → wf (sample_version v)) as Hv by exact sample_wf.
  repeat constructor; apply Hv; set_solver.
Qed.

Lemma rank_versions_correct_witness :
  Forall wf [sample_version (txt "1"); sample_version (txt "2"); sample_version (txt "1")]
  ∧ rank_versions [sample_version (txt "1"); sample_version (txt "2"); sample_version (txt "1")] = Some [0; 1; 0]%N
  ∧ version_cmp (sample_version (txt "1")) (sample_version (txt "2")) = Some Lt.
Proof.
  split; [exact sample_versions_wf|]. split; [vm_compute; reflexivity|].
  destruct (rank_versions_correct _ sample_versions_wf eq_refl) as [(ranks & E & _ & H) _].
  destruct (H 0 1 _ _ eq_refl eq_refl) as (a & b & Ha & Hb & ->).
  vm_compute in E. injection E as <-. injection Ha as <-. injection Hb as <-. reflexivity.
Defined.

(** Two records of one version that require another package, in version 1 and in version 2 *)
Definition sample_solver : SolverCache := @solver_cache_fixed solvable_arena (λ _, NBase (txt "dep"))
  (λ id : nat, Known (if decide (id = 2) then [Single 1] else [Single 0]))
  (λ v : nat, if decide (v = 0) then [0] else [0; 1]).
#[local] Existing Instance sample_solver.

Lemma sample_provider_ok : provider_ok (sample_provider Strict).
Proof.
  apply (provider_new_ok sample_channels [zlib_new] [] [] [] Strict None Highest [] sample_ruled_out);
    [apply sample_task_wf|constructor|apply sample_new_ok|].
  assert (map_Forall (λ _ c, N.of_nat (length (candidates c)) < 4294967296)%N (pv_records (sample_provider Strict))) as Hm.
  { apply (bool_decide_unpack _). vm_compute. exact I. }
  intros name c Hc. exact (Hm name c Hc).
Qed.
Lemma sample_sorted : [0; 2; 1] ⊆ candidates (sample_candidates Strict) ∧ NoDup [0; 2; 1].
Proof. split; [apply (bool_decide_unpack _); vm_compute; exact I|]. apply (bool_decide_unpack _). vm_compute. exact I. Qed.
Lemma sample_solver_ok : solver_ok (sample_provider Strict).
Proof.
  intros v id Hid. assert (id ∈ candidates (sample_candidates Strict)) as Hin.
  { apply sample_sorted. change (id ∈ (if decide (v = 0) then [0] else [0; 1])) in Hid. case_decide; set_solver. }
  destruct (po_candidate _ sample_provider_ok _ _ _ (sample_candidates_ok Strict) Hin) as (r & w & Er & Ew & Hw).
  exists (NBase (txt "zlib")), r. split; [exact Er|]. intros u Hu. congruence.
Qed.
Lemma sample_no_unions : no_unions.
Proof.
  intros id l E. change (Known (if decide (id = 2) then [Single 1] else [Single 0]) = Known l) in E.
  injection E as <-. case_decide; repeat constructor; by eexists.
Qed.

Definition sample_running : SortState := fresh_caches (None : @World solvable_arena sample_solver).
Definition sample_cancelled : SortState := fresh_caches (Some 0 : @World solvable_arena sample_solver).

(** The record of the higher version first; then the one whose dependency can be newer. *)
Lemma sort_candidates_correct_witness :
  sorter_ok (sample_provider Strict) True sample_running
  ∧ candidate_order (sample_provider Strict) DefaultOrder [0; 2; 1] = [1; 2; 0]
  ∧ ∃ s', sort_candidates (sample_provider Strict) [0; 2; 1] sample_running = Some ([1; 2; 0], s').
Proof.
  assert (sorter_ok (sample_provider Strict) True sample_running) as Hs by by apply fresh_caches_ok.
  assert (candidate_order (sample_provider Strict) DefaultOrder [0; 2; 1] = [1; 2; 0]) as E by (vm_compute; reflexivity).
  split; [exact Hs|]. split; [exact E|].
  destruct (sort_candidates_correct (sample_provider Strict) (NBase (txt "zlib")) (sample_candidates Strict) [0; 2; 1]
    sample_running sample_provider_ok sample_solver_ok sample_no_unions Hs (sample_candidates_ok Strict)
    (proj1 sample_sorted) (proj2 sample_sorted)) as (s' & E' & _).
  exists s'. rewrite <-E. exact E'.
Defined.

(** The same solve cancelled at once: the candidates stay as the first order leaves them. *)
Lemma sort_candidates_never_panics_witness :
  sorter_ok (sample_provider Strict) False sample_cancelled
  ∧ ∃ l' s', sort_candidates (sample_provider Strict) [0; 2; 1] sample_cancelled = Some (l', s')
    ∧ l' ≡ₚ [0; 2; 1] ∧ l' = [1; 0; 2].
Proof.
  assert (sorter_ok (sample_provider Strict) False sample_cancelled) as Hs by by apply fresh_caches_ok.
  split; [exact Hs|].
  destruct (sort_candidates_never_panics (sample_provider Strict) (NBase (txt "zlib")) (sample_candidates Strict) [0; 2; 1]
    sample_cancelled sample_provider_ok sample_solver_ok sample_no_unions Hs (sample_candidates_ok Strict)
    (proj1 sample_sorted) (proj2 sample_sorted)) as (l' & s' & E & Hp & _).
  exists l', s'. split; [exact E|]. split; [exact Hp|].
  assert (option_map fst (sort_candidates (sample_provider Strict) [0; 2; 1] sample_cancelled) = Some [1; 0; 2]) as E2
    by (vm_compute; reflexivity).
  rewrite E in E2. injection E2 as ->. reflexivity.
Defined.

Lemma provider_new_well_formed_witness :
  sample_new Strict = Some (Ok (sample_provider Strict)) ∧ provider_ok (sample_provider Strict)
  ∧ length (candidates (sample_candidates Strict)) = 3.
Proof.
  split; [apply sample_new_ok|]. split; [|vm_compute; reflexivity].
  apply (provider_new_well_formed sample_channels [zlib_new] [] [] [] Strict None Highest [] sample_ruled_out);
    [apply sample_task_wf|constructor|apply sample_new_ok|].
  intros name c Hc. exact (po_count _ sample_provider_ok name c Hc).
Defined.

(** ** The documented score

    "Calculate a total score by counting the position of the solvable in the list with sorted
    dependencies": how many of the candidates have a better version of a shared package, added
    up over the packages. *)
Definition position_of `{SC : SolverCache} (pv : Provider) (l : list SolvableId) (a : SolvableId) (name : NameType) : nat :=
  let best_of x := best (highest_spec pv) None (requires x name) in
  length (filter (λ b, versions_ord (dependency_strategy pv) (best_of b) (best_of a) = Lt) l).
Definition documented_score `{SC : SolverCache} (pv : Provider) (l : list SolvableId) (a : SolvableId) : nat :=
  sum_list (position_of pv l a <$> shared l).

(** Two candidates that require three packages: one has the better version of the first by
    name, the other of the other two. *)
Definition opposing_solver : SolverCache := @solver_cache_fixed solvable_arena
  (λ v : nat, NBase (if decide (v < 2) then txt "dep-a" else if decide (v < 4) then txt "dep-b" else txt "dep-c"))
  (λ id : nat, Known (if decide (id = 2) then [Single 1; Single 2; Single 4] else [Single 0; Single 3; Single 5]))
  (λ v : nat, if Nat.even v then [0] else [0; 1]).

(** The score of the second is lower, so it is better; the first is tried before. *)
Lemma scores_not_summed :
  documented_score (SC := opposing_solver) (sample_provider Strict) [0; 2] 0 = 1
  ∧ documented_score (SC := opposing_solver) (sample_provider Strict) [0; 2] 2 = 2
  ∧ option_map fst (sort_candidates (SC := opposing_solver) (sample_provider Strict) [0; 2; 1]
      (fresh_caches (SC := opposing_solver) (None : @World solvable_arena opposing_solver))) = Some [1; 2; 0].
Proof. repeat split; vm_compute; reflexivity. Qed.
