(* ===== verification/NameQueue.v ===== *)
(** * The names a query still has to fetch

    The part of [QueryExecutor] in [rattler_repodata_gateway/src/gateway/query.rs] that
    follows the dependencies of the records that have arrived: a name is queued once, and the
    extras of a name grow while records of it may have been walked already. *)
From stdpp Require Import gmap sets list.
From S2P Require Import Prelude Externs TextOps Redaction FileUrl VersionSpec Subdir Archive PackageName Records.
From S2P Require Import Matchers MatchSpecs Channels SpecTokens SpecParse ChannelRelations ChannelExpander SubdirData.

Local Notation text := (list N).

Section names.
Context `{GL : Glob} `{FR : FancyRegex} `{NM : Nom} `{UN : Unicode} `{HX : Hex} `{IT : Itertools}.
Context `{UC : UrlCrate} `{UP : !UrlPaths} `{TP : TypedPaths} `{PE : PercentEncoding} `{FU : !FileUrls} `{EV : ProcessEnv}.

(** ** Definitions *)

(** [PackageName::name_and_extras_from_matchspec_str]; [None] is a panic of the parser. *)
Definition name_and_extras_from_matchspec_str (spec : text) : option (text * list text) :=
  if negb (bool_decide (c_lbracket ∈ spec)) then Some (normalized_name_from_matchspec_str spec, [])
  else
    let name := normalized_name_from_matchspec_str spec in
    let options := mkParseMatchSpecOptions Lenient true true false false in
    parsed ← match_spec_from_str spec options;
    Some (name, match parsed with Ok parsed => default [] (ms_extras parsed) | Err _ => [] end).

Inductive SourceSpecs : Type := Input (specs : list MatchSpec) | Transitive.
Record PendingRequest := mkPendingRequest { pq_name : PackageName; pq_specs : SourceSpecs }.
Record FetchedEntry := mkFetchedEntry { fe_pkgs : list PackageRecords; fe_source : SourceSpecs }.

(** [specs.iter().any(|s| s.matches(record))] *)
Fixpoint any_matches (specs : list MatchSpec) (record : RepoDataRecord) : option bool :=
  match specs with
  | [] => Some false
  | spec :: specs =>
      matched ← match_spec_matches_record spec record;
      if (matched : bool) then Some true else any_matches specs record
  end.
Fixpoint matching (specs : list MatchSpec) (records : list RepoDataRecord) : option (list RepoDataRecord) :=
  match records with
  | [] => Some []
  | record :: records =>
      matched ← any_matches specs record;
      rest ← matching specs records;
      Some (if (matched : bool) then record :: rest else rest)
  end.

(** The fields of the executor that this part changes; a name is keyed by its normal form. *)
Record NameQueue := mkNameQueue {
  nq_seen : gset text;
  nq_pending_package_specs : gmap text PendingRequest;
  nq_active_extras : gmap text (gset text);
  nq_fetched : gmap text FetchedEntry
}.
Definition active_of (q : NameQueue) (name : text) : gset text := default ∅ (nq_active_extras q !! name).

(** The extras that are not active yet, in their order, and all of them *)
Definition activate (extras : list text) (existing : gset text) : list text * gset text :=
  foldl (λ s e, if bool_decide (e ∈ s.2) then s else (s.1 ++ [e], {[e]} ∪ s.2)) ([], existing) extras.

(** The dependencies that [extras] add to the records of an entry *)
Definition extra_deps_of (record : RepoDataRecord) (extra : text) : list text :=
  default [] (rec_extra_depends (rd_package_record record) !! extra).
Definition late_deps (entry : FetchedEntry) (new_extras : list text) : option (list text) :=
  match fe_source entry with
  | Transitive =>
      Some (fe_pkgs entry ≫= λ pkg, new_extras ≫= λ e, default [] (pr_unique_extra_deps pkg !! e))
  | Input specs =>
      records ← mapM (λ pkg, matching specs (pr_records pkg)) (fe_pkgs entry);
      Some (mjoin records ≫= λ record, new_extras ≫= extra_deps_of record)
  end.

(** [queue_dependency] and [late_walk] *)
Fixpoint queue_dependency (fuel : nat) (dependency : text) (q : NameQueue) : option NameQueue :=
  match fuel with
  | 0 => None
  | S f =>
      '(normalized, extras) ← name_and_extras_from_matchspec_str dependency;
      if negb (bool_decide (normalized ∈ nq_seen q)) then
        let dependency_name := from_matchspec_str_unchecked dependency in
        let key := as_normalized dependency_name in
        let active := if bool_decide (extras = []) then nq_active_extras q
                      else <[key := list_to_set extras ∪ active_of q key]> (nq_active_extras q) in
        Some (mkNameQueue ({[normalized]} ∪ nq_seen q)
                (<[key := mkPendingRequest dependency_name Transitive]> (nq_pending_package_specs q)) active (nq_fetched q))
      else if negb (bool_decide (extras = [])) then
        let key := as_normalized (from_matchspec_str_unchecked dependency) in
        let '(newly_added, existing) := activate extras (active_of q key) in
        let q := mkNameQueue (nq_seen q) (nq_pending_package_specs q) (<[key := existing]> (nq_active_extras q)) (nq_fetched q) in
        match nq_fetched q !! key with
        | Some entry =>
            if bool_decide (newly_added = []) then Some q
            else deps ← late_deps entry newly_added; for_opt deps (queue_dependency f) q
        | None => Some q
        end
      else Some q
  end.

(** Enough fuel: every level below the first makes an extra active that a fetched record
    names. *)
Definition entry_deps (entry : FetchedEntry) : list text :=
  fe_pkgs entry ≫= λ pkg,
    ((map_to_list (pr_unique_extra_deps pkg)).*2 ≫= id)
    ++ (pr_records pkg ≫= λ r, (map_to_list (rec_extra_depends (rd_package_record r))).*2 ≫= id).
Definition fetched_deps (q : NameQueue) : list text := (map_to_list (nq_fetched q)).*2 ≫= entry_deps.
Definition dep_pairs (dependency : text) : list (text * text) :=
  match name_and_extras_from_matchspec_str dependency with
  | Some (name, extras) => (name,.) <$> extras
  | None => []
  end.
Definition queue_fuel (dependency : text) (q : NameQueue) : nat :=
  2 + length (dep_pairs dependency) + length (fetched_deps q ≫= dep_pairs).

Definition queue (dependency : text) (q : NameQueue) : option NameQueue := queue_dependency (queue_fuel dependency q) dependency q.

(** [queue_dependencies] *)
Definition queue_dependencies (pkg : PackageRecords) (request : PendingRequest) (q : NameQueue) : option NameQueue :=
  let active := elements (active_of q (as_normalized (pq_name request))) in
  match pq_specs request with
  | Transitive =>
      q ← for_opt (pr_unique_base_deps pkg) queue q;
      for_opt active (λ extra q, for_opt (default [] (pr_unique_extra_deps pkg !! extra)) queue q) q
  | Input specs =>
      for_opt (pr_records pkg) (λ record q,
        matched ← any_matches specs record;
        if (matched : bool) then
          q ← for_opt (rec_depends (rd_package_record record)) queue q;
          for_opt active (λ extra q, for_opt (extra_deps_of record extra) queue q) q
        else Some q) q
  end.

(** ** Lemmas *)

Definition dep_name (d : text) : text := normalized_name_from_matchspec_str d.
Definition dep_extras (d : text) : list text := match name_and_extras_from_matchspec_str d with Some (_, es) => es | None => [] end.

Lemma name_and_extras_eq d n es : name_and_extras_from_matchspec_str d = Some (n, es) → n = dep_name d ∧ es = dep_extras d.
Proof.
  intros E. unfold dep_extras. rewrite E. split; [|done]. revert E. unfold name_and_extras_from_matchspec_str.
  destruct (negb _); [by intros [= <- _]|]. destruct (match_spec_from_str _ _); [|done]. by intros [= <- _].
Qed.
Lemma unchecked_normalized d : as_normalized (from_matchspec_str_unchecked d) = dep_name d.
Proof.
  unfold from_matchspec_str_unchecked, dep_name, normalized_name_from_matchspec_str, as_normalized.
  by destruct (scan_matchspec_name d) as [name []].
Qed.

Lemma activate_spec extras existing :
  let '(newly, all) := activate extras existing in
  all = list_to_set extras ∪ existing ∧ NoDup newly ∧ ∀ e, e ∈ newly ↔ e ∈ extras ∧ e ∉ existing.
Proof.
  unfold activate. set (step := λ (s : list text * gset text) e, _).
  assert (∀ l newly all, all = list_to_set newly ∪ existing → NoDup newly → (∀ e, e ∈ newly → e ∉ existing) →
    let s := foldl step (newly, all) l in
    s.2 = list_to_set l ∪ all ∧ NoDup s.1 ∧ ∀ e, e ∈ s.1 ↔ e ∈ newly ∨ (e ∈ l ∧ e ∉ existing)) as H.
  { induction l as [|x l IH]; intros newly all Hall Hnd Hn; cbn [foldl].
    - cbn. split; [set_solver|]. split; [done|]. set_solver.
    - unfold step at 2 4 6. cbn [fst snd]. case_bool_decide as Hx.
      + destruct (IH newly all Hall Hnd Hn) as (H1 & H2 & H3). cbv zeta in *. rewrite H1. split; [set_solver|]. split; [done|].
        intros e. rewrite H3. set_solver.
      + destruct (IH (newly ++ [x]) ({[x]} ∪ all)) as (H1 & H2 & H3); [set_solver| |set_solver|].
        { apply NoDup_app. split; [done|]. split; [set_solver|apply NoDup_singleton]. }
        cbv zeta in *. rewrite H1. split; [set_solver|]. split; [done|]. intros e. rewrite H3. set_solver. }
  destruct (H extras [] existing) as (H1 & H2 & H3); [set_solver|constructor|set_solver|].
  destruct (foldl step ([], existing) extras) as [newly all]. cbn [fst snd] in *. split; [done|]. split; [done|].
  intros e. rewrite H3. set_solver.
Qed.

(** The records that the specs select *)
Definition selected_by (source : SourceSpecs) (r : RepoDataRecord) : Prop :=
  match source with Transitive => True | Input specs => any_matches specs r = Some true end.
Lemma matching_spec specs records out :
  matching specs records = Some out →
  (∀ r, r ∈ out ↔ r ∈ records ∧ any_matches specs r = Some true) ∧ ∀ r, r ∈ records → is_Some (any_matches specs r).
Proof.
  revert out. induction records as [|x l IH]; intros out; cbn [matching]; [intros [= <-]; set_solver|].
  destruct (any_matches specs x) as [b|] eqn:E; [|done]. destruct (matching specs l) as [k|]; [|done]. intros [= <-].
  destruct (IH k eq_refl) as [H1 H2]. split; [|intros r [->|Hr]%elem_of_cons; eauto].
  intros r. destruct b; rewrite ?elem_of_cons, ?H1; naive_solver.
Qed.

(** The unconditional dependencies of the records of a package, and those of an extra *)
Definition pkg_base_dep (source : SourceSpecs) (pkg : PackageRecords) (d : text) : Prop :=
  match source with
  | Transitive => d ∈ pr_unique_base_deps pkg
  | Input specs => ∃ r, r ∈ pr_records pkg ∧ any_matches specs r = Some true ∧ d ∈ rec_depends (rd_package_record r)
  end.
Definition pkg_extra_dep (source : SourceSpecs) (pkg : PackageRecords) (e d : text) : Prop :=
  match source with
  | Transitive => d ∈ default [] (pr_unique_extra_deps pkg !! e)
  | Input specs => ∃ r, r ∈ pr_records pkg ∧ any_matches specs r = Some true ∧ d ∈ extra_deps_of r e
  end.
Definition late_dep (entry : FetchedEntry) (e d : text) : Prop :=
  ∃ pkg, pkg ∈ fe_pkgs entry ∧ pkg_extra_dep (fe_source entry) pkg e d.
Lemma late_deps_spec entry es deps d : late_deps entry es = Some deps → d ∈ deps ↔ ∃ e, e ∈ es ∧ late_dep entry e d.
Proof.
  unfold late_deps, late_dep, pkg_extra_dep. destruct (fe_source entry) as [specs|].
  - destruct (mapM _ (fe_pkgs entry)) as [ll|] eqn:E; [|done]. intros [= <-]. apply mapM_Some_1 in E.
    rewrite list_elem_of_bind. split.
    + intros (r & Hd & (l & Hr & Hl)%list_elem_of_join). apply list_elem_of_bind in Hd as (e & Hd & He). exists e. split; [done|].
      apply list_elem_of_lookup in Hl as [i Hi]. destruct (Forall2_lookup_r _ _ _ _ _ E Hi) as (pkg & Hpkg & Hm).
      apply (matching_spec _ _ _ Hm) in Hr as [Hr Hr']. exists pkg. split; [by eapply list_elem_of_lookup_2|]. by exists r.
    + intros (e & He & pkg & Hpkg & r & Hr & Hm & Hd). apply list_elem_of_lookup in Hpkg as [i Hi].
      destruct (Forall2_lookup_l _ _ _ _ _ E Hi) as (l & Hl & Hml). exists r. split.
      * apply list_elem_of_bind. by exists e.
      * apply list_elem_of_join. exists l. split; [by apply (matching_spec _ _ _ Hml)|by eapply list_elem_of_lookup_2].
  - intros [= <-]. rewrite list_elem_of_bind. setoid_rewrite list_elem_of_bind. naive_solver.
Qed.

(** *** What an operation on the queue does *)

Record grows (q q' : NameQueue) : Prop := {
  gr_seen : nq_seen q ⊆ nq_seen q';
  gr_active n : active_of q n ⊆ active_of q' n;
  gr_fetched : nq_fetched q' = nq_fetched q;
  gr_new n : n ∈ nq_seen q' → n ∉ nq_seen q →
    ∃ name, nq_pending_package_specs q' !! n = Some (mkPendingRequest name Transitive) ∧ as_normalized name = n;
  gr_old n : n ∈ nq_seen q ∨ n ∉ nq_seen q' → nq_pending_package_specs q' !! n = nq_pending_package_specs q !! n
}.
#[export] Instance grows_preorder : PreOrder grows.
Proof.
  split.
  - intros q. split; [done..| |done]. naive_solver.
  - intros a b c [A1 A2 A3 A4 A5] [B1 B2 B3 B4 B5]. split.
    + set_solver.
    + intros n. etrans; [apply A2|apply B2].
    + congruence.
    + intros n Hc Ha. destruct (decide (n ∈ nq_seen b)) as [Hb|Hb]; [|by apply B4].
      destruct (A4 n Hb Ha) as (name & Hn & ?). exists name. split; [|done]. rewrite B5 by (by left). done.
    + intros n [Ha|Hc].
      * rewrite B5 by (left; set_solver). apply A5. by left.
      * rewrite B5 by (by right). apply A5. right. set_solver.
Qed.

(** The dependency is queued and its extras are active. *)
Definition satisfied (q : NameQueue) (d : text) : Prop :=
  dep_name d ∈ nq_seen q ∧ ∀ e, e ∈ dep_extras d → e ∈ active_of q (dep_name d).
Lemma satisfied_mono q q' d : grows q q' → satisfied q d → satisfied q' d.
Proof. intros [H1 H2 _ _ _] [Hn He]. split; [by apply H1|]. intros e Hd. by apply H2, He. Qed.

(** The extras that became active have been walked. *)
Definition walked (q q' : NameQueue) : Prop :=
  ∀ n e entry d, e ∈ active_of q' n → e ∉ active_of q n → nq_fetched q !! n = Some entry → late_dep entry e d → satisfied q' d.
Definition stepped (q q' : NameQueue) : Prop := grows q q' ∧ walked q q'.
#[export] Instance stepped_preorder : PreOrder stepped.
Proof.
  split; [intros q; split; [done|by intros n e entry d H1 H2]|]. intros a b c [A1 A2] [B1 B2]. split; [by etrans|].
  intros n e entry d Hc Ha Hf Hd. destruct (decide (e ∈ active_of b n)) as [Hb|Hb].
  - eapply satisfied_mono; [exact B1|]. by eapply A2.
  - eapply B2; [done|done| |done]. by rewrite (gr_fetched _ _ A1).
Qed.

(** Fetched names have been queued. *)
Definition fetched_seen (q : NameQueue) : Prop := ∀ n, is_Some (nq_fetched q !! n) → n ∈ nq_seen q.
Lemma fetched_seen_grows q q' : grows q q' → fetched_seen q → fetched_seen q'.
Proof. intros [H1 _ H3 _ _] H n Hn. rewrite H3 in Hn. by apply H1, H. Qed.

(** A loop over dependencies *)
Lemma queue_all_spec deps (f : text → NameQueue → option NameQueue) q q' :
  (∀ d q q', d ∈ deps → fetched_seen q → f d q = Some q' → stepped q q' ∧ satisfied q' d) →
  fetched_seen q → for_opt deps f q = Some q' → stepped q q' ∧ ∀ d, d ∈ deps → satisfied q' d.
Proof.
  revert q. induction deps as [|d deps IH]; intros q Hf Hq; cbn [for_opt].
  { intros [= <-]. split; [done|]. intros d Hd. by apply elem_of_nil in Hd. }
  destruct (f d q) as [q1|] eqn:E; [|done]. cbn [mbind option_bind]. intros E'.
  destruct (Hf d q q1 ltac:(by left) Hq E) as [S1 D1]. destruct (IH q1) as [S2 D2]; [|by eapply fetched_seen_grows; [apply S1|]|done|].
  { intros d' q2 q3 Hd'. apply Hf. by right. }
  split; [by etrans|]. intros d' [->|Hd']%elem_of_cons; [|by apply D2]. eapply satisfied_mono; [apply S2|done].
Qed.

Lemma active_insert q n es m seen pending fetched :
  active_of (mkNameQueue seen pending (<[n := es]> (nq_active_extras q)) fetched) m = if bool_decide (m = n) then es else active_of q m.
Proof. unfold active_of. cbn. case_bool_decide; [subst; by rewrite lookup_insert_eq|by rewrite lookup_insert_ne]. Qed.

Lemma queue_dependency_spec fuel d q q' :
  fetched_seen q → queue_dependency fuel d q = Some q' → stepped q q' ∧ satisfied q' d.
Proof.
  revert d q q'. induction fuel as [|f IH]; intros d q q' Hq; [done|]. cbn [queue_dependency].
  destruct (name_and_extras_from_matchspec_str d) as [[n es]|] eqn:E; [|done]. cbn [mbind option_bind].
  apply name_and_extras_eq in E as [-> ->]. rewrite unchecked_normalized.
  case_bool_decide as Hseen; cbn [negb].
  - (* a name that is known *)
    case_bool_decide as Hes; cbn [negb].
    { intros [= <-]. split; [done|]. split; [done|]. rewrite Hes. intros e He. by apply elem_of_nil in He. }
    pose proof (activate_spec (dep_extras d) (active_of q (dep_name d))) as Hact.
    destruct (activate (dep_extras d) (active_of q (dep_name d))) as [newly existing]. destruct Hact as (-> & _ & Hnew).
    set (q1 := mkNameQueue (nq_seen q) (nq_pending_package_specs q)
      (<[dep_name d := list_to_set (dep_extras d) ∪ active_of q (dep_name d)]> (nq_active_extras q)) (nq_fetched q)).
    assert (∀ m, active_of q1 m = if bool_decide (m = dep_name d) then list_to_set (dep_extras d) ∪ active_of q m else active_of q m) as Hact1.
    { intros m. unfold q1. rewrite active_insert. case_bool_decide; by subst. }
    assert (grows q q1) as Hg1.
    { split; [done| |done| |done]; [|naive_solver]. intros m. rewrite Hact1. case_bool_decide; set_solver. }
    assert (satisfied q1 d) as Hsat1.
    { split; [done|]. intros e He. rewrite Hact1, bool_decide_true by done. set_solver. }
    assert (∀ m e, e ∈ active_of q1 m → e ∉ active_of q m → m = dep_name d ∧ e ∈ newly) as Hdelta.
    { intros m e. rewrite Hact1, Hnew. case_bool_decide as Hm; [subst m; set_solver|done]. }
    change (nq_fetched q1) with (nq_fetched q). destruct (nq_fetched q !! dep_name d) as [entry|] eqn:Ef.
    + case_bool_decide as Hnil.
      { intros [= <-]. split; [|done]. split; [done|]. intros m e ent d' H1 H2. destruct (Hdelta m e H1 H2) as [_ Hin].
        rewrite Hnil in Hin. by apply elem_of_nil in Hin. }
      destruct (late_deps entry newly) as [deps|] eqn:El; [|done]. cbn [mbind option_bind]. intros Hloop.
      destruct (queue_all_spec deps (queue_dependency f) q1 q') as [[G W] D]; [|done|done|].
      { intros d' q2 q3 _. apply IH. }
      split; [|by eapply satisfied_mono]. split; [by etrans|]. intros m e ent d' H1 H2 H3 H4.
      destruct (decide (e ∈ active_of q1 m)) as [Hin|Hin]; [|by eapply W].
      destruct (Hdelta m e Hin H2) as [-> Hin']. apply D, (late_deps_spec _ _ _ _ El). exists e. split; [done|]. congruence.
    + intros [= <-]. split; [|done]. split; [done|]. intros m e ent d' H1 H2 H3 _. destruct (Hdelta m e H1 H2) as [-> _]. congruence.
  - (* a new name *)
    intros [= <-]. set (q1 := mkNameQueue _ _ _ _).
    assert (∀ m, active_of q1 m = if bool_decide (m = dep_name d) then list_to_set (dep_extras d) ∪ active_of q m else active_of q m) as Hact1.
    { intros m. unfold q1. case_bool_decide as Hes.
      - rewrite Hes. case_bool_decide; [|done]. unfold active_of. cbn. set_solver.
      - rewrite active_insert. case_bool_decide; by subst. }
    split; [split|].
    + split; cbn [nq_seen nq_fetched nq_pending_package_specs q1]; [set_solver| |done| |].
      * intros m. rewrite Hact1. case_bool_decide; set_solver.
      * intros m Hm Hm'. assert (m = dep_name d) as -> by set_solver. exists (from_matchspec_str_unchecked d).
        by rewrite lookup_insert_eq, unchecked_normalized.
      * intros m Hm. rewrite lookup_insert_ne; [done|]. intros <-. set_solver.
    + intros m e ent d' H1 H2 H3 _. rewrite Hact1 in H1. case_bool_decide as Hm; [subst m|done].
      destruct Hseen. apply Hq. eauto.
    + split; [set_solver|]. intros e He. rewrite Hact1, bool_decide_true by done. set_solver.
Qed.

Lemma for_opt_app {A S} (l1 l2 : list A) (f : A → S → option S) s :
  for_opt (l1 ++ l2) f s = for_opt l1 f s ≫= for_opt l2 f.
Proof. revert s. induction l1 as [|x l IH]; intros s; [done|]. cbn. destruct (f x s); [apply IH|done]. Qed.

(** The dependencies that [queue_dependencies] walks, in their order *)
Definition walk_list (source : SourceSpecs) (active : list text) (pkg : PackageRecords) : option (list text) :=
  match source with
  | Transitive => Some (pr_unique_base_deps pkg ++ (active ≫= λ e, default [] (pr_unique_extra_deps pkg !! e)))
  | Input specs =>
      records ← matching specs (pr_records pkg);
      Some (records ≫= λ r, rec_depends (rd_package_record r) ++ (active ≫= extra_deps_of r))
  end.
Lemma walk_list_spec source active pkg deps d :
  walk_list source active pkg = Some deps →
  d ∈ deps ↔ pkg_base_dep source pkg d ∨ ∃ e, e ∈ active ∧ pkg_extra_dep source pkg e d.
Proof.
  destruct source as [specs|]; cbn [walk_list pkg_base_dep pkg_extra_dep].
  - destruct (matching specs (pr_records pkg)) as [l|] eqn:E; [|done]. intros [= <-]. pose proof (proj1 (matching_spec _ _ _ E)) as Hm.
    rewrite list_elem_of_bind. setoid_rewrite elem_of_app. setoid_rewrite list_elem_of_bind. setoid_rewrite Hm. naive_solver.
  - intros [= <-]. rewrite elem_of_app, list_elem_of_bind. naive_solver.
Qed.
Lemma for_opt_bind {A B S} (l : list A) (g : A → list B) (f : B → S → option S) s :
  for_opt (l ≫= g) f s = for_opt l (λ x, for_opt (g x) f) s.
Proof. revert s. induction l as [|x l IH]; intros s; [done|]. cbn. rewrite for_opt_app. destruct (for_opt (g x) f s); [apply IH|done]. Qed.
Lemma queue_dependencies_eq pkg request q :
  queue_dependencies pkg request q =
  deps ← walk_list (pq_specs request) (elements (active_of q (as_normalized (pq_name request)))) pkg; for_opt deps queue q.
Proof.
  unfold queue_dependencies, walk_list. destruct (pq_specs request) as [specs|].
  - generalize (elements (active_of q (as_normalized (pq_name request)))) as active. intros active. generalize (pr_records pkg) as l. intros l. revert q.
    induction l as [|r l IH]; intros q; [done|]. cbn [for_opt matching]. destruct (any_matches specs r) as [b|]; [|done]. cbn [mbind option_bind].
    destruct b; cbn [mbind option_bind].
    + destruct (for_opt (rec_depends _) queue q) as [q1|] eqn:E1; cbn [mbind option_bind].
      * rewrite <-for_opt_bind. destruct (for_opt (active ≫= _) queue q1) as [q2|] eqn:E2; cbn [mbind option_bind].
        -- rewrite IH. destruct (matching specs l) as [k|]; [|done]. cbn [mbind option_bind list_bind]. by rewrite !for_opt_app, E1; cbn; rewrite E2.
        -- destruct (matching specs l) as [k|]; [|done]. cbn [mbind option_bind list_bind]. by rewrite !for_opt_app, E1; cbn; rewrite E2.
      * destruct (matching specs l) as [k|]; [|done]. cbn [mbind option_bind list_bind]. by rewrite !for_opt_app, E1.
    + rewrite IH. by destruct (matching specs l).
  - cbn [mbind option_bind]. rewrite for_opt_app. destruct (for_opt (pr_unique_base_deps pkg) queue q); [|done].
    cbn [mbind option_bind]. by rewrite for_opt_bind.
Qed.

Lemma queue_dependencies_spec pkg request q q' :
  fetched_seen q → queue_dependencies pkg request q = Some q' →
  stepped q q'
  ∧ (∀ d, pkg_base_dep (pq_specs request) pkg d → satisfied q' d)
  ∧ ∀ e d, e ∈ active_of q (as_normalized (pq_name request)) → pkg_extra_dep (pq_specs request) pkg e d → satisfied q' d.
Proof.
  intros Hq. rewrite queue_dependencies_eq. destruct (walk_list _ _ pkg) as [deps|] eqn:E; [|done]. cbn [mbind option_bind].
  intros Hl. destruct (queue_all_spec deps queue q q') as [Hs Hd]; [by intros d q1 q2 _; apply queue_dependency_spec|done|done|].
  pose proof (λ d, walk_list_spec _ _ _ _ d E) as Hw. split; [done|]. split.
  - intros d Hb. apply Hd, Hw. by left.
  - intros e d He Hx. apply Hd, Hw. right. exists e. split; [by apply elem_of_elements|done].
Qed.

(** *** Everything that has arrived has been walked *)
Definition all_walked (q : NameQueue) : Prop :=
  ∀ n entry pkg, nq_fetched q !! n = Some entry → pkg ∈ fe_pkgs entry →
    (∀ d, pkg_base_dep (fe_source entry) pkg d → satisfied q d)
    ∧ ∀ e d, e ∈ active_of q n → pkg_extra_dep (fe_source entry) pkg e d → satisfied q d.

(** Records arrive: the entry of their name, kept for later extras, and the walk *)
Definition push_fetched (pkg : PackageRecords) (request : PendingRequest) (q : NameQueue) : NameQueue :=
  let name := as_normalized (pq_name request) in
  let entry := default (mkFetchedEntry [] (pq_specs request)) (nq_fetched q !! name) in
  mkNameQueue (nq_seen q) (nq_pending_package_specs q) (nq_active_extras q)
    (<[name := mkFetchedEntry (fe_pkgs entry ++ [pkg]) (fe_source entry)]> (nq_fetched q)).
Definition records_arrived (pkg : PackageRecords) (request : PendingRequest) (q : NameQueue) : option NameQueue :=
  queue_dependencies pkg request (push_fetched pkg request q).

(** All requests of a name are alike. *)
Definition alike (request : PendingRequest) (q : NameQueue) : Prop :=
  ∀ entry, nq_fetched q !! as_normalized (pq_name request) = Some entry → fe_source entry = pq_specs request.

Lemma records_arrived_spec pkg request q q' :
  fetched_seen q → all_walked q → alike request q → as_normalized (pq_name request) ∈ nq_seen q →
  records_arrived pkg request q = Some q' →
  all_walked q' ∧ fetched_seen q' ∧ grows (push_fetched pkg request q) q'.
Proof.
  intros Hfs Hw Hal Hseen Eq. unfold records_arrived in Eq. set (n0 := as_normalized (pq_name request)) in *.
  set (q1 := push_fetched pkg request q) in *.
  assert (∀ n, nq_fetched q1 !! n = if bool_decide (n = n0)
    then Some (mkFetchedEntry (default [] (fe_pkgs <$> nq_fetched q !! n0) ++ [pkg]) (pq_specs request)) else nq_fetched q !! n) as Hf1.
  { intros n. cbn [q1 push_fetched nq_fetched]. fold n0. case_bool_decide as Hn; [subst n|by rewrite lookup_insert_ne].
    rewrite lookup_insert_eq. do 2 f_equal; destruct (nq_fetched q !! n0) as [entry|] eqn:E; cbn; [done..| |done]. by apply Hal. }
  assert (fetched_seen q1) as Hfs1.
  { intros n. rewrite Hf1. case_bool_decide as Hn; [by subst|apply Hfs]. }
  destruct (queue_dependencies_spec pkg request q1 q' Hfs1 Eq) as ([Hg Hnew] & Hbase & Hextra).
  assert (∀ d, satisfied q d → satisfied q' d) as Hmono.
  { intros d Hd. eapply satisfied_mono; [exact Hg|]. exact Hd. }
  split; [|split; [by eapply fetched_seen_grows|done]].
  intros n entry p. rewrite (gr_fetched _ _ Hg), Hf1. intros Hn Hp. split.
  - intros d Hd. case_bool_decide as Hn0; [|by apply Hmono, (proj1 (Hw n entry p Hn Hp))].
    subst n. injection Hn as <-. cbn [fe_pkgs fe_source] in *.
    apply elem_of_app in Hp as [Hp| ->%list_elem_of_singleton]; [|by apply Hbase].
    destruct (nq_fetched q !! n0) as [entry|] eqn:E; [|by apply elem_of_nil in Hp].
    apply Hmono, (proj1 (Hw n0 entry p E Hp)). by rewrite Hal.
  - intros e d He Hd. destruct (decide (e ∈ active_of q1 n)) as [Ha|Ha].
    + case_bool_decide as Hn0; [|by eapply Hmono, (proj2 (Hw n entry p Hn Hp))].
      subst n. injection Hn as <-. cbn [fe_pkgs fe_source] in *.
      apply elem_of_app in Hp as [Hp| ->%list_elem_of_singleton]; [|by eapply Hextra].
      destruct (nq_fetched q !! n0) as [entry|] eqn:E; [|by apply elem_of_nil in Hp].
      eapply Hmono, (proj2 (Hw n0 entry p E Hp)); [done|]. by rewrite Hal.
    + eapply Hnew; [done|done|by rewrite Hf1|]. by exists p.
Qed.
End names.
